(* ===== verification/_CoqProject ===== *)
-Q . S2P
Prelude.v
EventBase.v
MemBufHeap.v
MemGeometry.v
MemBufSet.v
MemBufAllocator.v
AllocInvariant.v
AllocSteps.v
AllocFree.v
AllocMalloc.v
AllocMaint.v
AllocTheorems.v
MemStat.v
PoolDevice.v
MemPool.v
PoolInvariant.v
PoolEvents.v
PoolSync.v
PoolAlloc.v
PoolTheorems.v
PoolClient.v
Report.v
OrdList.v
StreamTable.v
BestFitState.v
BestFit.v
BestFitAbs.v
BestFitRep.v
BestFitCombine.v
BestFitSplit.v
BestFitPool.v
BestFitCreate.v
BestFitTop.v
BestFitClient.v
BestFitOpt.v
BestFitTheorems.v
NetBytes.v
NetMessage.v
NetState.v
NetSocket.v
NetIovec.v
NetReceive.v
Connection.v
NetParse.v
NetStream.v
NetSend.v
NetSession.v
NetExample.v
NetStall.v
NetTheorems.v
EventLoop.v
LoopInvariant.v
LoopThreads.v
EventLoopGroup.v
LoopTheorems.v
ConnectionPool.v
ConnPoolInvariant.v
ConnPoolTheorems.v
VmmAdapter.v
VmmInvariant.v
VmmOps.v
VmmFree.v
VmmTheorems.v
MemoryPool.v
SkipList.v
SkipListRep.v
SkipListInsert.v
SkipListDelete.v
SkipListTheorems.v
Philox.v
ThreadPool.v
ThreadTheorems.v
Random.v
RandomTheorems.v
RobinHood.v
RobinHoodMap.v
MsPrint.v
MsPrintTheorems.v
Optimizer.v
HQueue.v
