(* ===== verification/Prelude.v ===== *)
(** * ccbase verification library

    A verification development for the memory pools, the message layer, the
    containers and the parallel random numbers of ccbase: the pool of memory/ with
    its best-fit allocators, stream events and statistics, and the virtual memory
    below it; the two versions of the best-fit pool of application/, and its skip
    list; of net/ the connections that carry framed messages over TCP, their pool,
    and the event loops that drive them; of testing/ a random generator, its
    distributions and the pool of threads that fills a buffer with them; of libc/
    a hash map and formatted printing; of optimizer/ pools of blocks and a record
    of allocations; and of nice/ a lock-free queue. Paths below are relative to src/.

    ** Parts of the program and of the development

    - [EventBase] models the class of that name of memory/dynamic_memory_pool.*:
      the map from a user stream to the events recorded on it.
    - [MemBufHeap], [MemGeometry] and [MemBufSet] model what the allocators of
      memory/abstract_dynamic_memory_pool.* share: [MemBuf] and [MemBlock] objects
      in a store indexed by pointers, the doubly linked list of the buffers of a
      block, and [std::set<MemBuf *, MemBufComparator>] as the list of its
      pointers in iteration order.
    - [MemBufAllocator] has one definition per method of the class of that name.
      [AllocInvariant] states its invariant, [AllocSteps], [AllocFree],
      [AllocMalloc] and [AllocMaint] show that the methods keep it, and
      [AllocTheorems] what a client can rely on.
    - [MemStat], [PoolDevice] and [MemPool] model [AbstractDynamicMemPool]: the
      statistics, the four callbacks that an allocator calls, the choice of an
      allocator, allocation with its chain of fallbacks, contiguous allocation,
      release, partial release, and the events of pairs of streams.
      [PoolInvariant] states the invariant of the pool; it, [PoolEvents], [PoolSync]
      and [PoolAlloc] show it kept; [PoolTheorems] and [PoolClient] are
      about whole operations and sequences of them; the module [BumpPool] of
      [PoolInvariant] is a device and a pool on which they can be evaluated.
    - [Report] models the texts the pool writes: [JsonBuilder], the [ToJson]
      functions, the debug dump and the time events of
      [AbstractEnhancedDynamicMemPool].
    - [OrdList], [StreamTable], [BestFitState] and [BestFit] model
      [DynamicMemPoolBestFit] of application/src/mem_dynamic_allocator.*, with the
      differences of application/src/mem_optimized_allocator.* behind the classes
      [BestFitVariant] and [StreamTable]; [BestFitOpt] is that variant.
      [BestFitAbs] is the specification of a pool without pointers, and
      [BestFitRep] relates the two; [BestFitCombine], [BestFitSplit],
      [BestFitPool], [BestFitCreate] and [BestFitTop] show that the operations
      refine it;
      [BestFitClient] states the contract with a client, [BestFitTheorems] the
      properties.
    - [NetBytes] and [NetMessage] model what a message looks like in memory and on
      the wire: words in network byte order, [MessageHeader], [AID], [MessageBase]
      of net/include/{constants,aid,msg}.h; [frame] is what the header, the names
      and the body of a message amount to.
    - [NetState] is the state of a connection (net/include/connection.h), with the
      memory that [iovec]s point to and the effects that leave it; [NetSocket]
      models the loops of net/src/tcp_socket_operation.cc around [recv], [recvmsg]
      and [sendmsg], and [Connection] the functions of net/src/connection.cc that
      fill, parse and flush messages, with the callbacks and [Send] of
      net/src/tcp_comm.cc. [NetIovec] and [NetReceive] show that partial transfers
      scatter a frame over its destination, [NetParse] what the two states of the
      parser do, [NetStream] that a stream of frames is parsed into its messages,
      [NetSend] that a flushed message is its frame, and [NetSession] puts
      callbacks and sends in sequence. [NetStall] carries what holds of patient kernels
      over to the runs that end on any kernel, and is about those that do not end;
      [NetTheorems] has the properties.
    - [EventLoop] models net/src/event_loop.cc: the table of events, the events
      that wait to be deleted, the queue of tasks behind its eventfd, and the loop.
      [LoopInvariant] states who owns an event and shows that each operation and
      rounds of the loop with arbitrary clients keep it, and [LoopThreads] is a
      transition system of producers and the thread of the loop.
      [EventLoopGroup] models net/src/event_loop_group.cc; [LoopTheorems] has the
      properties and a scripted kernel.
    - [ConnectionPool] models net/src/connection_pool.cc, and what net/src/tcp_comm.cc
      and net/src/connection.cc do through a pool: sending to an address, connecting,
      disconnecting, closing, the handling of socket events. Its connections are
      those of [NetState], as objects that can be deleted. [ConnPoolInvariant] states
      what the pool points to and shows the operations keep it, and
      [ConnPoolTheorems] relates them to a map from addresses to connections.
    - [VmmAdapter] models memory/ascend_vmm_adapter.*: the reservation of address
      space, physical handles and their cache, the mapping of pages when they are
      used, eager freeing and clearing. [VmmInvariant] states how pages and handles
      are paired, [VmmOps] and [VmmFree] specify the operations, [VmmTheorems] has
      the properties. [MemoryPool] models memory/memory_pool.h, the pool that
      combines this with [AbstractDynamicMemPool]: it is an instance of the device
      interface [DeviceMem].
    - [SkipList] models application/src/skiplist.h, nodes and pointers as they are.
      [SkipListRep] says when a store of nodes represents a sorted list of entries; it,
      [SkipListInsert] and [SkipListDelete] specify searching,
      inserting and deleting on such lists, and [SkipListTheorems] relates them to a
      map.
    - [Philox] models the generator of testing/random.h and specifies it as a stream
      of words with a position; [Random] models the distributions and the functions
      of that file that fill a buffer, with those of testing/init_random.cc.
      [ThreadPool] models testing/thread_pool.cc: [worker_step] is SyncRunLoop,
      [caller_step] the loops of SyncRun and ClearThreadPool. [ThreadTheorems]
      has what holds between any two steps and is about tasks in general, and
      [RandomTheorems] puts generator, distribution and pool together.
    - [RobinHood] models the hash map of libc/map.h, probing, resizing and moving
      entries back included; [RobinHoodMap] says when a table represents a map, and
      that the operations answer for it.
    - [MsPrint] models libc/ms_print.cc: numbers as text, formatting into a buffer,
      writing to a file descriptor. [MsPrintTheorems] says what a format means, as a
      list of pieces that carry their arguments.
    - [Optimizer] models in two modules what optimizer/ has of data structures: the
      pools of blocks of optimizer/allocator.h and
      optimizer/unordered_map_with_allocator.cc, whose free blocks hold the pointers to
      one another ([FreeListPool]), and the record of allocations of
      optimizer/memory_map.cc, an array searched by linear probing ([ProbeMap]).
    - [HQueue] models nice/include/hqueue.h, a lock-free queue in an array of nodes:
      [enqueue_step], [dequeue_step] and [empty_step] are its operations, one access to
      what threads share at a time. [Rep] says when the nodes represent a queue.

    ** Conventions

    - A function of the program that changes state is a computation of the monad
      [M] below. [Ret] is a return, [Throw] a C++ exception, [Undef] undefined
      behaviour: the dereference of a null or deleted pointer, an index out of
      range, or a loop that never ends (those of net/ see below). A theorem with a
      [wp] says that the function returns, without exception or undefined behaviour.
    - [size_t], [uint64_t] and addresses are integers modulo [2^64], written
      [+64], [-64], [*64], so that wrap-around is part of the definitions.
    - Objects live in finite maps indexed by pointers that are never reused: a use
      after free is a lookup that finds nothing. Two names of one object share its
      pointer, as in the code.
    - The device is a record of functions ([DeviceMem]) with the contract
      [DeviceMemLaws]: a block it returns is as large as it says and apart from
      the blocks it has not taken back. [DeviceLaws] is the contract of the four
      callbacks that an allocator receives. Both have concrete instances.
    - The system calls of a socket are a class of functions ([Kernel]) on a state
      of their own, with the contract [KernelLaws]: bytes arrive in order, a
      return value of 0 is the end of the stream, and [sendmsg] takes a prefix. That
      [EAGAIN] is answered finitely often only is the separate class
      [KernelPatience], a hypothesis of the theorems that say what arrives.
      [NetExample] has three kernels, of which [Quiet] refuses for ever.
      What [AID] does outside of the repository is the class [NetEnv].
    - epoll and eventfd are the class [LoopKernel] with the contract
      [LoopKernelLaws]. What a handler or a task asks of its loop is any function of
      the class [Clients]; [PoliteClients] are those that register no fd twice. The
      order of a set of pointers is the class [InfoOrder].
    - The iteration order of [std::unordered_map] is an argument ([IterOrder]), as
      is that of a set of handles of the virtual memory ([HandleOrder]). [malloc] is
      the class [CLib], and the address of a caller's variable the class [Caller].
    - [operator<] of the keys of a skip list is the class [KeyOrder]. The values that
      [rand] will return are a list; [lucky] lists contain an even number soon enough
      for the level not to overflow.
    - The pools of optimizer/ work on memory made of bytes; where [operator new] puts an
      object is the class [NewOperator], with the contract [NewLaws]. [malloc] of the
      record of allocations is the class [MallocFree].
    - [std::hash] is the class [Hash]. The calls of [write] of a file descriptor are a
      list of what they will return; arguments of a variadic function are a list.
    - Floating-point arithmetic is the class [Float]; nothing is assumed of it. A
      distribution is an instance of [Distribution], and [DistributionLaws] says
      that it turns a stream of words into a stream of values. Threads are
      interleaved steps, one for each access to what they share; a waiting thread
      may wake up without a notification ([spurious_step]).

    ** Loops and fuel

    Loops over containers and linked lists are structural, or recursive on the
    length of the list they walk. The doubling loop of
    [CalMemBlockAllocSize] runs on [double_fuel] rounds, which is enough for
    every request up to [2^63] (C37); above, the loop of the code never ends
    ([CalMemBlockAllocSize_diverges]).

    A search of the hash map takes no more rounds than its capacity, since an entry
    records a smaller distance; moving entries back decreases the sum of the recorded
    distances, which the square of the capacity bounds. A format is read in one round
    for each character, and a numeral of a word has at most 64 digits.

    The loops around the system calls of a socket run on fuel, and throw [running]
    when they are out of it. With a patient kernel a round consumes a byte of the
    stream or one of finitely many [EAGAIN]s, so that more rounds than [budget], the
    sum of the two, are enough for receiving, and those of [send_budget] for sending;
    the theorems state that the loops then return. With other kernels they need not:
    C4 covers every kernel and every fuel, and [ReadCallBack_spins]
    shows a callback that returns with no fuel at all.

    ** What the theorems show

    - The best-fit pool: every request implements one step of a contract on the
      ranges a client holds (C1), no client that frees only
      what it holds ever meets undefined behaviour (C3),
      the buffers stay tiled and combined (C22), the search
      finds the best fit (C39), the round trip of an allocation and
      its release, the exactness of the statistics and the release of the device
      ([alloc_free_roundtrip], C40, [release_returns_all]). The
      optimised version agrees with the other one where their text differs
      ([combine_versions_agree], [masking_is_dividing]), except for streams beyond
      its vectors ([stream_beyond_vector]). Beside these, [eager_free_empties_idle]
      and [unknown_address_ignored].
    - An allocator of the pool of memory/: never stuck and buffers in use stay
      disjoint (C23, C24); beside these,
      best fit, coalescing and release ([Malloc_best_fit], [Free_coalesces],
      [ReleaseDeviceRes_deletes_all]), [FreeIdleMems_empties_idle] and
      [DumpStateInfo_accounts].
    - The pool of memory/: never stuck under any sequence of admissible requests
      (C33), allocation and release (C34,
      C35), events (C38,
      [WaitEvent_hands_back], [event_bytes_conserved]),
      exact statistics after any requests and release (C36,
      [ReleaseDeviceRes_releases_everything]), and block sizes
      (C37).
    - Defects, each with the theorem that shows it: [two_user_streams_dangle], for
      the optimised pool [stream_beyond_vector], for connections
      C32 and [ReadCallBack_spins], for event loops C30 and
      [concurrent_delete_dangles], and for the pool of connections
      C31 and [closing_under_lock]; beside the properties,
      [CalMemBlockAllocSize_diverges], [AlignMemorySize_wraps],
      [SyncAllEvents_keeps_count] and [AllocContinuous_loses_tail].
    - Connections: messages arrive whole, once and in order over any fragmentation
      (C2), within a number of callbacks (C25);
      any bytes on any kernel leave the receiver well formed (C4) unless a
      callback does not return, which it does on a patient one ([patient_stream_returns])
      but not when a peer stalls within a body ([cut_frame_spins]); a bad
      header breaks the connection off ([bad_header_rejected]), and [Send] puts
      exactly the frame of its message on the wire (C5).
    - Event loops: no event is touched after it has been freed, whatever a session and
      its handlers request (C6), a deleted event is not called
      (C28), no task is lost between threads
      (C21), and a group finds the loop of every fd (C29).
    - The pool of connections is a map from addresses to connections
      (C7), and deleting closes once ([DeleteConnection_closes]).
    - Virtual memory: no request makes the adapter throw or touch a freed handle, but
      clearing throws after an empty reservation that was followed by another
      (C8), mapping is all or nothing (C9),
      freeing unmaps whole pages (C26); two defects of it are
      [first_page_unmappable] and [clearing_keeps_count], one of the pool above it
      [memory_known_by_variable].
    - The skip list implements a map, except that deleting its greatest key is undefined
      (C14, [deleting_greatest]); it frees its nodes
      ([destructor_frees_all]) and is not linked backwards ([show_back_circles]).
    - Random numbers: filling a buffer in parallel gives what filling it in one go
      does (C17), because discarding is drawing
      (C20) and the tasks cover the buffer
      ([ComputeTaskNumSize_covers]).
    - The thread pool: every task is run once (C18), a call can always
      come to return (C19), but ClearThreadPool may hang
      (C27); [no_threads_no_tasks] is another defect.
    - The hash map is a map (C10) unless it erases while an entry
      records a wrong distance, when it may lose others ([erasing_loses]).
    - Formatted printing: a format says what its pieces say, cut off at the size of the
      buffer (C11), numerals read as their numbers (C12), and
      what is printed is written (C13). Defects: [no_size],
      [precision_reads_on], [digits_unread], [least_number], [unsigned_difference].
    - Pools of blocks lend what lies apart and keep it (C15), and give
      their buffers back ([destroy_frees]); [BufferPool_right_at_1024] says for which
      size the blocks of [BufferPool] are where they should be. The record of
      allocations finds what was inserted ([insertions_found]), but not after erasing
      ([erased_path], [second_delete_terminates]).
    - The lock-free queue is a fifo for one thread (C16) and no thread
      leaves its array ([threads_stay_in_array]); but an element of a completed [Enqueue]
      may not be seen ([enqueued_not_seen]), and a node is lost ([two_nodes]).

    ** Not modelled

    - Locks: each public operation of a pool runs under its mutex and is one step.
      The best-fit pool leaves its allocation unlocked; its theorems are about one
      thread.
    - Log lines, and Dump functions whose text goes only to a log; the JSON
      records and the debug dump are modelled in [Report].
    - memory/main.cc, a driver that replays a log file; whether virtual memory is
      enabled, which the environment decides.
    - load_file of the skip list, which feeds the lines of a file to insert_element.
    - net/: SSL (calls into a library), the setup of sockets and threads (system
      calls). The locks of a connection or of a pool make each callback or operation
      one step; where a lock is part of a defect it is modelled
      ([with_conn_lock], [DeleteEpollEvent_unlink]).
    - libs/catch (third-party), tests, demos, benchmarks and experiments:
      application/src other than the best-fit pools and the skip list, libc other than
      the hash map and ms_print.cc, libunwind, perf, gtests, tools, optimizer other
      than its pools of blocks and its record of allocations ([PoolAllocator] there cannot
      be instantiated);
      of testing all but the random numbers and the pool of threads, and of these the
      binding of threads to cores and the state after fork (system calls). *)

From Stdlib Require Export ZArith Lia.
From stdpp Require Export base numbers sorting strings fin_maps gmap.
From stdpp Require Export list.

#[export] Set Default Goal Selector "!".
#[export] Set Warnings "-clear-no-such-hyp".
Open Scope Z_scope.

(** ** Machine words

    [size_t], [uint64_t] and device addresses are integers modulo [2^64],
    [uint32_t] modulo [2^32]; the wrap-around is written where the code has it. *)

Definition w64 : Z := 18446744073709551616.
Definition w32 : Z := 4294967296.
Definition u64 (z : Z) : Z := z mod w64.
Definition u32 (z : Z) : Z := z mod w32.

Declare Scope word_scope.
Delimit Scope word_scope with word.
Notation "a +64 b" := (u64 (a + b)) (at level 50, left associativity) : word_scope.
Notation "a -64 b" := (u64 (a - b)) (at level 50, left associativity) : word_scope.
Notation "a *64 b" := (u64 (a * b)) (at level 40, left associativity) : word_scope.
Notation "a +32 b" := (u32 (a + b)) (at level 50, left associativity) : word_scope.
Open Scope word_scope.

Lemma w64_pos : 0 < w64.
Proof. done. Qed.

Lemma w64_pow : w64 = 2 ^ 64.
Proof. reflexivity. Qed.

Lemma w32_pow : w32 = 2 ^ 32.
Proof. reflexivity. Qed.

Lemma u64_range z : 0 <= u64 z < w64.
Proof. unfold u64. apply Z.mod_pos_bound. done. Qed.

Lemma u32_range z : 0 <= u32 z < w32.
Proof. unfold u32. apply Z.mod_pos_bound. done. Qed.

Lemma u64_small z : 0 <= z < w64 → u64 z = z.
Proof. unfold u64. apply Z.mod_small. Qed.

Lemma u32_small z : 0 <= z < w32 → u32 z = z.
Proof. unfold u32. apply Z.mod_small. Qed.

Lemma u64_idem z : u64 (u64 z) = u64 z.
Proof. apply u64_small, u64_range. Qed.

Lemma u64_add_l a b : u64 (u64 a + b) = u64 (a + b).
Proof. unfold u64. rewrite Zplus_mod_idemp_l. done. Qed.

Lemma u64_add_r a b : u64 (a + u64 b) = u64 (a + b).
Proof. unfold u64. rewrite Zplus_mod_idemp_r. done. Qed.

Lemma u64_sub_l a b : u64 (u64 a - b) = u64 (a - b).
Proof. unfold u64. rewrite Zminus_mod_idemp_l. done. Qed.

Lemma u64_sub_r a b : u64 (a - u64 b) = u64 (a - b).
Proof. unfold u64. rewrite Zminus_mod_idemp_r. done. Qed.

Lemma u64_sub_words a b : u64 (u64 a - u64 b) = u64 (a - b).
Proof. by rewrite u64_sub_l, u64_sub_r. Qed.

Lemma u64_add_words a b : u64 (u64 a + u64 b) = u64 (a + b).
Proof. by rewrite u64_add_l, u64_add_r. Qed.

Create HintDb words.
Create HintDb pool.
#[export] Hint Resolve u64_range u32_range w64_pos : words.
Create Rewrite HintDb words_rw.
#[export] Hint Rewrite u64_idem u64_add_l u64_add_r u64_sub_l u64_sub_r : words_rw.

(** ** Outcomes of a C++ function

    [Ret] is a normal return with the new state, [Throw] an exception that leaves
    the state it was thrown in, and [Undef] undefined behaviour: the dereference
    of a null or deleted pointer, an index out of range, a loop that never ends. *)

Inductive outcome (S A : Type) : Type :=
| Ret (a : A) (s : S)
| Throw (msg : string) (s : S)
| Undef.
Arguments Ret {S A} _ _.
Arguments Throw {S A} _ _.
Arguments Undef {S A}.

Definition M (S A : Type) : Type := S → outcome S A.

#[export] Instance M_ret {S} : MRet (M S) := λ A a s, Ret a s.
#[export] Instance M_bind {S} : MBind (M S) := λ A B f m s,
  match m s with
  | Ret a s' => f a s'
  | Throw e s' => Throw e s'
  | Undef => Undef
  end.

Definition gets {S A} (f : S → A) : M S A := λ s, Ret (f s) s.
Definition modify {S} (f : S → S) : M S unit := λ s, Ret () (f s).
Definition throw {S A} (e : string) : M S A := λ s, Throw e s.
Definition undef {S A} : M S A := λ _, Undef.
Definition deref {S A} (o : option A) : M S A :=
  match o with Some a => mret a | None => undef end.
Definition whenM {S} (b : bool) (m : M S unit) : M S unit := if b then m else mret ().

(** [for (auto x : l) body(x)], threading an accumulator. *)
Fixpoint forM {S A B} (l : list A) (body : B → A → M S B) (acc : B) : M S B :=
  match l with
  | [] => mret acc
  | x :: l' => acc' ← body acc x; forM l' body acc'
  end.

(** Run a computation on a part of the state. *)
Definition zoom {S T A} (get : S → T) (put : T → S → S) (m : M T A) : M S A := λ s,
  match m (get s) with
  | Ret a t => Ret a (put t s)
  | Throw e t => Throw e (put t s)
  | Undef => Undef
  end.

(** ** Weakest preconditions

    [wp m s Q]: from [s], [m] returns normally (no exception, no undefined
    behaviour) and the result and final state satisfy [Q]. *)

Definition wp {S A} (m : M S A) (s : S) (Q : A → S → Prop) : Prop :=
  match m s with Ret a s' => Q a s' | Throw _ _ => False | Undef => False end.

Section wp.
Context {S : Type}.

Lemma wp_ret {A} (a : A) (s : S) (Q : A → S → Prop) : Q a s → wp (mret a) s Q.
Proof. done. Qed.

Lemma wp_bind {A B} (m : M S A) (f : A → M S B) s Q :
  wp m s (λ a s', wp (f a) s' Q) → wp (mbind f m) s Q.
Proof. unfold wp, mbind, M_bind. destruct (m s); done. Qed.

Lemma wp_bind_inv {A B} (m : M S A) (f : A → M S B) s Q :
  wp (mbind f m) s Q → wp m s (λ a s', wp (f a) s' Q).
Proof. unfold wp, mbind, M_bind. destruct (m s); done. Qed.

Lemma wp_mono {A} (m : M S A) s (P Q : A → S → Prop) :
  wp m s P → (∀ a s', P a s' → Q a s') → wp m s Q.
Proof. unfold wp. destruct (m s); naive_solver. Qed.

Lemma wp_gets {A} (f : S → A) s (Q : A → S → Prop) : Q (f s) s → wp (gets f) s Q.
Proof. done. Qed.

Lemma wp_modify (f : S → S) s (Q : unit → S → Prop) : Q () (f s) → wp (modify f) s Q.
Proof. done. Qed.

Lemma wp_deref {A} (o : option A) a s (Q : A → S → Prop) :
  o = Some a → Q a s → wp (deref o) s Q.
Proof. intros ->. done. Qed.

Lemma wp_whenM b m s (Q : unit → S → Prop) :
  (b = true → wp m s Q) → (b = false → Q () s) → wp (whenM b m) s Q.
Proof. intros Ht Hf. unfold whenM. destruct b; [by apply Ht | by apply Hf]. Qed.

Lemma wp_value {A} (m : M S A) s Q a s' : m s = Ret a s' → wp m s Q ↔ Q a s'.
Proof. unfold wp. intros ->. done. Qed.

Lemma wp_inv {A} (m : M S A) s Q : wp m s Q → ∃ a s', m s = Ret a s' ∧ Q a s'.
Proof. unfold wp. destruct (m s); naive_solver. Qed.

(** Loop rule: an invariant indexed by the elements still to visit. *)
Lemma wp_forM {A B} (l : list A) (body : B → A → M S B) acc s
    (I : list A → B → S → Prop) (Q : B → S → Prop) :
  I l acc s →
  (∀ x l' acc' s', I (x :: l') acc' s' → wp (body acc' x) s' (I l')) →
  (∀ acc' s', I [] acc' s' → Q acc' s') →
  wp (forM l body acc) s Q.
Proof.
  intros HI Hstep Hend. revert acc s HI.
  induction l as [|x l IH]; intros acc s HI; simpl.
  - apply wp_ret. auto.
  - apply wp_bind. eapply wp_mono; [by apply Hstep|]. simpl. auto.
Qed.
End wp.

Lemma wp_zoom {S T A} (get : S → T) (put : T → S → S) (m : M T A) s (Q : A → S → Prop) :
  wp m (get s) (λ a t, Q a (put t s)) → wp (zoom get put m) s Q.
Proof. unfold wp, zoom. destruct (m (get s)); done. Qed.

(** One step of symbolic execution: binds, reads, writes and pure returns. *)
Ltac wp_step :=
  lazymatch goal with
  | |- wp (mbind _ _) _ _ => apply wp_bind
  | |- wp (mret _) _ _ => apply wp_ret
  | |- wp (gets _) _ _ => apply wp_gets
  | |- wp (modify _) _ _ => apply wp_modify
  end; cbv beta.
Ltac wp_steps := repeat wp_step.

(** ** Sums over finite maps *)

Definition msum {K} `{Countable K} {A} (f : A → Z) (m : gmap K A) : Z :=
  map_fold (λ _ a acc, f a + acc) 0 m.

Section msum.
Context {K} `{Countable K} {A : Type} (f : A → Z).
Implicit Types m : gmap K A.

Lemma msum_empty : msum f (∅ : gmap K A) = 0.
Proof. unfold msum. apply map_fold_empty. Qed.

Lemma msum_insert m k a : m !! k = None → msum f (<[k:=a]> m) = f a + msum f m.
Proof.
  intros Hk. unfold msum. rewrite map_fold_insert_L; [done| |done].
  intros. lia.
Qed.

Lemma msum_delete m k a : m !! k = Some a → msum f m = f a + msum f (delete k m).
Proof.
  intros Hk. rewrite <- (insert_delete_id m k a Hk) at 1.
  apply msum_insert. apply lookup_delete_eq.
Qed.

Lemma msum_update m k a b :
  m !! k = Some a → msum f (<[k:=b]> m) = msum f m - f a + f b.
Proof.
  intros Hk. rewrite (msum_delete m k a Hk).
  rewrite <- insert_delete_eq, msum_insert by apply lookup_delete_eq. lia.
Qed.

Lemma msum_nonneg m : (∀ k a, m !! k = Some a → 0 <= f a) → 0 <= msum f m.
Proof.
  induction m as [|k a m Hk IH] using map_ind; intros Hf.
  - rewrite msum_empty. lia.
  - rewrite msum_insert by done.
    assert (0 <= f a) by (apply (Hf k); by rewrite lookup_insert_eq).
    assert (0 <= msum f m); [|lia]. apply IH. intros k' a' Hk'.
    apply (Hf k'). rewrite lookup_insert_ne; [done|]. naive_solver.
Qed.

Lemma msum_lookup_le m k a :
  (∀ k a, m !! k = Some a → 0 <= f a) → m !! k = Some a → f a <= msum f m.
Proof.
  intros Hf Hk. rewrite (msum_delete m k a Hk).
  assert (0 <= msum f (delete k m)); [|lia].
  apply msum_nonneg. intros k' a' [_ ?]%lookup_delete_Some. eauto.
Qed.
End msum.

Section msum_ops.
Context {K} `{Countable K} {A : Type}.
Implicit Types (m : gmap K A) (f g : A → Z).

Lemma msum_ext f g m :
  (∀ k a, m !! k = Some a → f a = g a) → msum f m = msum g m.
Proof.
  induction m as [|k a m Hk IH] using map_ind; intros Hfg; [done|].
  rewrite !msum_insert by done. rewrite (Hfg k a) by apply lookup_insert_eq.
  rewrite IH; [done|]. intros k' a' Hk'. apply (Hfg k').
  rewrite lookup_insert_ne; [done|congruence].
Qed.

Lemma msum_plus f g m : msum (λ a, f a + g a) m = msum f m + msum g m.
Proof.
  induction m as [|k a m Hk IH] using map_ind; [by rewrite !msum_empty|].
  rewrite !msum_insert by done. lia.
Qed.

Lemma msum_zero m : msum (λ _, 0) m = 0.
Proof.
  induction m as [|k a m Hk IH] using map_ind; [by rewrite msum_empty|].
  rewrite msum_insert by done. lia.
Qed.

(** Summing over a duplicate-free list of keys is summing over the map. *)
Lemma msum_list (P : A → bool) f (l : list K) m :
  NoDup l → (∀ k, k ∈ l ↔ ∃ a, m !! k = Some a ∧ P a = true) →
  foldr (λ k n, from_option f 0 (m !! k) + n) 0 l = msum (λ a, if P a then f a else 0) m.
Proof.
  revert m. induction l as [|k l IH]; intros m Hnd Hl; simpl.
  - rewrite (msum_ext _ (λ _, 0)); [by rewrite msum_zero|]. intros k a Hk.
    destruct (P a) eqn:HP; [|done].
    assert (k ∈ []) as Hin by (apply Hl; eauto). by apply not_elem_of_nil in Hin.
  - apply NoDup_cons in Hnd as [Hk Hnd].
    destruct (proj1 (Hl k) ltac:(set_solver)) as (a & Ha & HPa).
    rewrite (msum_delete _ _ _ _ Ha), HPa, Ha. simpl. f_equal.
    rewrite <- (IH (delete k m)); [| done |].
    + clear -Hk. induction l as [|k' l IHl]; simpl; [done|].
      rewrite lookup_delete_ne by set_solver. f_equal. apply IHl. set_solver.
    + intros k'. rewrite lookup_delete. case_decide; subst.
      * split; [done|]. by intros (? & ? & _).
      * rewrite <- Hl. set_solver.
Qed.
End msum_ops.

Lemma msum_fmap {K} `{Countable K} {A B : Type} (f : B → Z) (g : A → B) (m : gmap K A) :
  msum f (g <$> m) = msum (λ a, f (g a)) m.
Proof.
  induction m as [|k a m Hk IH] using map_ind; [by rewrite fmap_empty, !msum_empty|].
  rewrite fmap_insert, !msum_insert by (rewrite ?lookup_fmap, ?Hk; done). lia.
Qed.

Lemma msum_omap {K} `{Countable K} {A B : Type} (f : B → Z) (g : A → option B) (m : gmap K A) :
  msum f (omap g m) = msum (λ a, from_option f 0 (g a)) m.
Proof.
  induction m as [|k a m Hk IH] using map_ind; [by rewrite omap_empty, !msum_empty|].
  rewrite msum_insert by done. destruct (g a) as [b|] eqn:Hg; simpl.
  - rewrite (omap_insert_Some _ _ _ _ b), msum_insert by (rewrite ?lookup_omap, ?Hk; done). lia.
  - rewrite omap_insert_None, delete_id by (rewrite ?lookup_omap, ?Hk; done). lia.
Qed.

(** Case analysis on the conditions a goal or hypothesis is stuck on. *)
Ltac case_ifs :=
  repeat match goal with
  | |- context [if ?b then _ else _] => destruct b eqn:?
  end.

Ltac bool_to_Z :=
  repeat match goal with
  | H : (_ <? _) = true |- _ => apply Z.ltb_lt in H
  | H : (_ <? _) = false |- _ => apply Z.ltb_ge in H
  | H : (_ <=? _) = true |- _ => apply Z.leb_le in H
  | H : (_ <=? _) = false |- _ => apply Z.leb_gt in H
  | H : (_ =? _) = true |- _ => apply Z.eqb_eq in H
  | H : (_ =? _) = false |- _ => apply Z.eqb_neq in H
  end.

(** ** Lists *)

Lemma filter_all {A} (P : A → Prop) `{∀ x, Decision (P x)} (l : list A) :
  Forall P l → filter P l = l.
Proof. induction 1; [done|]. rewrite filter_cons_True by done. by f_equal. Qed.
