(* ===== verification/EventBase.v ===== *)
(** * Events bound to a memory buffer

    [EventBase] of memory/dynamic_memory_pool.{h,cc}: the map from a user stream
    to the list of events recorded on it, each with the task id it was recorded
    at. A buffer can be handed back to its allocator only when no event is left. *)

From S2P Require Import Prelude.

(** [DeviceEventPtr]: a shared pointer to an event object, known by its identity. *)
Definition DeviceEventPtr := positive.
(** [TaskIdOnStreamEvent]: (task id as [int64_t], event). *)
Definition TaskIdOnStreamEvent : Type := Z * DeviceEventPtr.
(** [events_]: a null pointer, or a map from [uint32_t] user stream to its list. *)
Definition Events : Type := option (gmap Z (list TaskIdOnStreamEvent)).

Module EventBase.

Definition RecordEvent (task_id_on_stream user_stream_id : Z) (event : DeviceEventPtr)
    (events_ : Events) : bool * Events :=
  let m := default ∅ events_ in
  let event_list := default [] (m !! user_stream_id) in
  (true, Some (<[user_stream_id := event_list ++ [(task_id_on_stream, event)]]> m)).

(** [while (!event_list->empty() && front().first <= task_id) pop_front();] *)
Fixpoint pop_until (task_id_on_stream : Z) (event_list : list TaskIdOnStreamEvent)
    : list TaskIdOnStreamEvent :=
  match event_list with
  | [] => []
  | e :: rest =>
      if e.1 <=? task_id_on_stream then pop_until task_id_on_stream rest else event_list
  end.

(** The parameter is a [uint32_t]: a caller's 64-bit task id is truncated first. *)
Definition WaitEvent (task_id_on_stream user_stream_id : Z) (events_ : Events)
    : bool * Events :=
  match events_ with
  | None => (false, None)
  | Some m =>
      match m !! user_stream_id with
      | None => (false, events_)
      | Some event_list =>
          match pop_until (u32 task_id_on_stream) event_list with
          | [] => (true, Some (delete user_stream_id m))
          | rest => (true, Some (<[user_stream_id := rest]> m))
          end
      end
  end.

Definition IsEventNotUsed (events_ : Events) : bool :=
  match events_ with
  | None => true
  | Some m => bool_decide (m = ∅)
  end.

(** [for (list_iter = begin(); list_iter != end();) list_iter = erase(list_iter);] *)
Fixpoint erase_all (event_list : list TaskIdOnStreamEvent) : list TaskIdOnStreamEvent :=
  match event_list with
  | [] => []
  | _ :: rest => erase_all rest
  end.

(** One iteration of the loop over [events_]: empty the list, drop its entry. *)
Definition sync_stream (events : gmap Z (list TaskIdOnStreamEvent))
    (entry : Z * list TaskIdOnStreamEvent) : gmap Z (list TaskIdOnStreamEvent) :=
  match erase_all entry.2 with
  | [] => delete entry.1 events
  | rest => <[entry.1 := rest]> events
  end.

Definition SyncAllEvents (events_ : Events) : bool * Events :=
  if IsEventNotUsed events_ then (false, events_)
  else
    let m := default ∅ events_ in
    let m' := foldl sync_stream m (map_to_list m) in
    (bool_decide (m' = ∅), Some m').

(** The events still pending for a user stream. *)
Definition pending (events_ : Events) (user_stream_id : Z) : list TaskIdOnStreamEvent :=
  default [] (default ∅ events_ !! user_stream_id).

(** No stream is mapped to an empty list. *)
Definition events_ok (events_ : Events) : Prop :=
  ∀ u, default ∅ events_ !! u ≠ Some [].

(** Task ids of a stream are recorded in increasing order. *)
Definition ordered (l : list TaskIdOnStreamEvent) : Prop :=
  StronglySorted (λ a b, a.1 <= b.1) l.

Lemma pop_until_suffix t l : ∃ k, l = k ++ pop_until t l ∧ Forall (λ e, e.1 <= t) k.
Proof.
  induction l as [|e l (k & Hk & Hall)]; simpl; [by exists []|].
  case_match eqn:He; [|by exists []].
  exists (e :: k). simpl. rewrite <- Hk. bool_to_Z. auto.
Qed.

Lemma pop_until_ordered t l : ordered l → pop_until t l = filter (λ e, t < e.1) l.
Proof.
  induction 1 as [|e l Hl IH Hall]; [done|]. simpl. case_match; bool_to_Z.
  - rewrite filter_cons_False by lia. done.
  - rewrite filter_cons_True by lia. f_equal. symmetry. apply filter_all.
    eapply Forall_impl; [exact Hall|]. simpl. lia.
Qed.

Lemma erase_all_nil l : erase_all l = [].
Proof. induction l; done. Qed.

Lemma IsEventNotUsed_pending ev :
  events_ok ev → IsEventNotUsed ev = true ↔ ∀ u, pending ev u = [].
Proof.
  intros Hok. destruct ev as [m|]; simpl; [|by split].
  rewrite bool_decide_eq_true. unfold pending; simpl. split; [by intros ->|].
  intros Hp. apply map_empty. intros u. specialize (Hp u). specialize (Hok u).
  simpl in *. destruct (m !! u) as [[]|]; naive_solver.
Qed.

Lemma RecordEvent_pending t u e ev v :
  pending (RecordEvent t u e ev).2 v =
    if decide (v = u) then pending ev u ++ [(t, e)] else pending ev v.
Proof.
  unfold pending; simpl. destruct (decide (v = u)) as [->|Hne].
  - by rewrite lookup_insert_eq.
  - by rewrite lookup_insert_ne.
Qed.

Lemma RecordEvent_ok t u e ev : events_ok ev → events_ok (RecordEvent t u e ev).2.
Proof.
  intros Hok v. simpl. destruct (decide (u = v)) as [->|?].
  - rewrite lookup_insert_eq. intros [= Hl]. by destruct (default [] _).
  - rewrite lookup_insert_ne by done. apply Hok.
Qed.

Lemma RecordEvent_used t u e ev : IsEventNotUsed (RecordEvent t u e ev).2 = false.
Proof. simpl. apply bool_decide_eq_false. apply insert_non_empty. Qed.

Lemma WaitEvent_pending t u ev v :
  pending (WaitEvent t u ev).2 v =
    if decide (v = u) then pop_until (u32 t) (pending ev u) else pending ev v.
Proof.
  unfold pending, WaitEvent. destruct ev as [m|]; simpl.
  2: { by destruct (decide _). }
  destruct (m !! u) as [l|] eqn:Hu; simpl.
  2: { destruct (decide _) as [->|]; [by rewrite Hu|done]. }
  destruct (pop_until _ l) as [|e l'] eqn:Hp; simpl;
    destruct (decide (v = u)) as [->|?];
    rewrite ?lookup_delete_eq, ?lookup_delete_ne, ?lookup_insert_eq, ?lookup_insert_ne by done; done.
Qed.

Lemma WaitEvent_ok t u ev : events_ok ev → events_ok (WaitEvent t u ev).2.
Proof.
  intros Hok. unfold WaitEvent. destruct ev as [m|]; [|done].
  destruct (m !! u) as [l|] eqn:Hu; [|done].
  destruct (pop_until _ l) as [|e l'] eqn:Hp; intros v; simpl;
    destruct (decide (u = v)) as [->|?];
    rewrite ?lookup_delete_eq, ?lookup_delete_ne, ?lookup_insert_eq, ?lookup_insert_ne by done;
    try done; apply (Hok v).
Qed.

Lemma WaitEvent_result t u ev : (WaitEvent t u ev).1 = bool_decide (is_Some (default ∅ ev !! u)).
Proof.
  unfold WaitEvent. destruct ev as [m|]; simpl.
  - destruct (m !! u) as [l|]; simpl; [destruct (pop_until _ _)|]; done.
  - rewrite lookup_empty. done.
Qed.

(** Waiting clears a stream whose events are all at or before the waited task. *)
Lemma WaitEvent_clears t u ev :
  Forall (λ e, e.1 <= u32 t) (pending ev u) → pending (WaitEvent t u ev).2 u = [].
Proof.
  intros Hall. rewrite WaitEvent_pending, decide_True by done.
  induction Hall as [|e l He Hall IH]; simpl; [done|].
  destruct (Z.leb_spec e.1 (u32 t)); [done|lia].
Qed.

Lemma sync_fold_empty (l : list (Z * list TaskIdOnStreamEvent)) m :
  (∀ u, is_Some (m !! u) → u ∈ l.*1) →
  foldl sync_stream m l = ∅.
Proof.
  revert m. induction l as [|[u es] l IH]; intros m Hm; simpl.
  - apply map_empty. intros u. destruct (m !! u) eqn:Hu; [|done].
    exfalso. specialize (Hm u). rewrite Hu in Hm. specialize (Hm ltac:(done)).
    simpl in Hm. by apply not_elem_of_nil in Hm.
  - unfold sync_stream at 2. rewrite erase_all_nil. apply IH. intros v [x Hx].
    apply lookup_delete_Some in Hx as [Hne Hx].
    specialize (Hm v ltac:(by eexists)). simpl in Hm. by apply elem_of_cons in Hm as [->|].
Qed.

Lemma SyncAllEvents_spec ev :
  (SyncAllEvents ev).1 = negb (IsEventNotUsed ev) ∧
  IsEventNotUsed (SyncAllEvents ev).2 = true ∧ events_ok (SyncAllEvents ev).2 ∧
  ∀ u, pending (SyncAllEvents ev).2 u = [].
Proof.
  unfold SyncAllEvents. destruct (IsEventNotUsed ev) eqn:Hu; simpl.
  - destruct ev as [m|]; simpl in *; [|done].
    apply bool_decide_eq_true in Hu as ->. by rewrite bool_decide_true.
  - rewrite sync_fold_empty; [by rewrite bool_decide_true|].
    intros u [es Hes]. apply list_elem_of_fmap. exists (u, es). split; [done|].
    by apply elem_of_map_to_list.
Qed.

Lemma pending_None u : pending None u = [].
Proof. done. Qed.

Lemma events_ok_None : events_ok None.
Proof. by intros u. Qed.

(** waiting for task [t] on a stream, when the events of the stream were recorded in
    task order, keeps exactly the events after [t] and leaves the other streams alone;
    afterwards the buffer counts as unused iff no event is pending on any stream. *)
Theorem WaitEvent_releases t u ev :
  events_ok ev → 0 <= t < w32 → ordered (pending ev u) →
  let ev' := (WaitEvent t u ev).2 in
  events_ok ev' ∧ pending ev' u = filter (λ e, t < e.1) (pending ev u) ∧
  (∀ v, v ≠ u → pending ev' v = pending ev v) ∧
  (IsEventNotUsed ev' = true ↔ ∀ v, pending ev' v = []).
Proof.
  intros Hok Ht Hord ev'. assert (events_ok ev') as Hok' by (by apply WaitEvent_ok).
  split_and!; [done| | |by apply IsEventNotUsed_pending].
  - unfold ev'. rewrite WaitEvent_pending, decide_True, u32_small by done.
    by apply pop_until_ordered.
  - intros v Hv. unfold ev'. by rewrite WaitEvent_pending, decide_False.
Qed.

(** The pool passes 64-bit task ids to a 32-bit parameter: an event recorded at task
    [2^32 + 5] is not released by waiting for that very task. *)
Lemma WaitEvent_truncates :
  let ev := (RecordEvent (w32 + 5) 0 1%positive None).2 in
  pending (WaitEvent (w32 + 5) 0 ev).2 0 = [(w32 + 5, 1%positive)].
Proof. reflexivity. Qed.

Lemma WaitEvent_releases_witness :
  let ev := (RecordEvent 9 0 2%positive (RecordEvent 4 0 1%positive None).2).2 in
  pending (WaitEvent 4 0 ev).2 0 = [(9, 2%positive)].
Proof.
  intros ev. destruct (WaitEvent_releases 4 0 ev) as (_ & H & _); [| | |exact H].
  - apply RecordEvent_ok, RecordEvent_ok, events_ok_None.
  - split; [lia|reflexivity].
  - repeat constructor; simpl; lia.
Defined.

End EventBase.

#[export] Hint Resolve EventBase.events_ok_None EventBase.RecordEvent_ok EventBase.WaitEvent_ok : pool.
