(* ===== verification/MemBufHeap.v ===== *)
(** * The heap of memory buffers and memory blocks

    [MemBuf] and [MemBlock] of memory/abstract_dynamic_memory_pool.h, the doubly
    linked list the buffers of a block form, and the two structural changes the
    allocators make to it: cutting a buffer in two and absorbing a neighbour.
    Objects live in a store indexed by pointers; a pointer is never reused, so a
    dereference of a deleted object is undefined behaviour in the model. *)

From S2P Require Import Prelude EventBase.

Definition ptr := positive.

(** [DynamicMemBufStatus] and [AllocatorType] (dynamic_memory_pool.h). *)
Inductive MemBufStatus := kMemBufIdle | kMemBufUsed | kMemBufEagerFree | kMemBufUsedByEvent.
Inductive AllocatorType :=
  kWeight | kConstantValue | kKernelOutput | kGraphOutput | kWorkspace | kOther.

#[export] Instance MemBufStatus_eq_dec : EqDecision MemBufStatus.
Proof. solve_decision. Defined.
#[export] Instance AllocatorType_eq_dec : EqDecision AllocatorType.
Proof. solve_decision. Defined.

Definition DynamicMemBufStatusToString (s : MemBufStatus) : string :=
  match s with
  | kMemBufIdle => "idle"
  | kMemBufUsed => "used"
  | kMemBufEagerFree => "eager_free"
  | kMemBufUsedByEvent => "used_by_event"
  end.

Definition AllocatorTypeToString (t : AllocatorType) : string :=
  match t with
  | kWeight => "weight"
  | kConstantValue => "constant value"
  | kKernelOutput => "kernel output"
  | kGraphOutput => "graph output"
  | kWorkspace => "workspace"
  | kOther => "other"
  end.

Definition kDynamicMemAlignSize : Z := 512.

(** ** Data *)

Record MemBuf := MkMemBuf {
  mb_prev : option ptr;
  mb_next : option ptr;
  mb_size : Z;
  mb_addr : Z;
  mb_stream_id : Z;
  mb_mem_block : ptr;
  mb_status : MemBufStatus;
  mb_events : Events;
  mb_owner_name : string;
  mb_alloc_type : AllocatorType
}.

(** The constructor [MemBuf(size, addr, stream_id, mem_block, status)]. *)
Definition new_MemBuf (size addr stream_id : Z) (mem_block : ptr) (status : MemBufStatus)
    : MemBuf :=
  MkMemBuf None None size addr stream_id mem_block status None "" kOther.

Definition set_prev (v : option ptr) (b : MemBuf) : MemBuf :=
  MkMemBuf v (mb_next b) (mb_size b) (mb_addr b) (mb_stream_id b) (mb_mem_block b)
    (mb_status b) (mb_events b) (mb_owner_name b) (mb_alloc_type b).
Definition set_next (v : option ptr) (b : MemBuf) : MemBuf :=
  MkMemBuf (mb_prev b) v (mb_size b) (mb_addr b) (mb_stream_id b) (mb_mem_block b)
    (mb_status b) (mb_events b) (mb_owner_name b) (mb_alloc_type b).
Definition set_size (v : Z) (b : MemBuf) : MemBuf :=
  MkMemBuf (mb_prev b) (mb_next b) v (mb_addr b) (mb_stream_id b) (mb_mem_block b)
    (mb_status b) (mb_events b) (mb_owner_name b) (mb_alloc_type b).
Definition set_addr (v : Z) (b : MemBuf) : MemBuf :=
  MkMemBuf (mb_prev b) (mb_next b) (mb_size b) v (mb_stream_id b) (mb_mem_block b)
    (mb_status b) (mb_events b) (mb_owner_name b) (mb_alloc_type b).
Definition set_status (v : MemBufStatus) (b : MemBuf) : MemBuf :=
  MkMemBuf (mb_prev b) (mb_next b) (mb_size b) (mb_addr b) (mb_stream_id b) (mb_mem_block b)
    v (mb_events b) (mb_owner_name b) (mb_alloc_type b).
Definition set_events (v : Events) (b : MemBuf) : MemBuf :=
  MkMemBuf (mb_prev b) (mb_next b) (mb_size b) (mb_addr b) (mb_stream_id b) (mb_mem_block b)
    (mb_status b) v (mb_owner_name b) (mb_alloc_type b).
Definition SetDebugInfo (name : string) (type : AllocatorType) (b : MemBuf) : MemBuf :=
  MkMemBuf (mb_prev b) (mb_next b) (mb_size b) (mb_addr b) (mb_stream_id b) (mb_mem_block b)
    (mb_status b) (mb_events b) name type.

Definition mb_end (b : MemBuf) : Z := mb_addr b + mb_size b.

Record MemBlock := MkMemBlock {
  blk_size : Z;
  blk_addr : Z;
  blk_stream_id : Z;
  blk_min_addr : Z;      (* 0 is [nullptr] *)
  blk_max_addr : Z
}.

Definition new_MemBlock (size addr stream_id : Z) : MemBlock :=
  MkMemBlock size addr stream_id 0 0.

Definition UpdateBorderAddr (mem_buf : MemBuf) (k : MemBlock) : MemBlock :=
  let min_addr := if blk_min_addr k =? 0 then mb_addr mem_buf
                  else Z.min (blk_min_addr k) (mb_addr mem_buf) in
  let right_addr := mb_addr mem_buf + mb_size mem_buf in
  MkMemBlock (blk_size k) (blk_addr k) (blk_stream_id k) min_addr
    (Z.max (blk_max_addr k) right_addr).

Definition ActualPeakSize (k : MemBlock) : Z :=
  if (blk_min_addr k =? 0) || (blk_max_addr k =? 0) then 0
  else blk_max_addr k - blk_min_addr k.

Record Mem := MkMem {
  bufs : gmap ptr MemBuf;
  blks : gmap ptr MemBlock;
  fresh_ptr : ptr
}.

(** ** Access to the store

    Every state of the development that contains the store is an instance of
    [HasMem]; reads and writes through pointers are written once against it. *)

Class HasMem (S : Type) := {
  get_mem : S → Mem;
  put_mem : Mem → S → S;
  get_put_mem : ∀ h s, get_mem (put_mem h s) = h;
  put_put_mem : ∀ h h' s, put_mem h (put_mem h' s) = put_mem h s;
  put_get_mem : ∀ s, put_mem (get_mem s) s = s
}.

#[export] Instance HasMem_Mem : HasMem Mem.
Proof. by refine {| get_mem := λ s, s; put_mem := λ h _, h |}. Defined.

Definition with_bufs (m : gmap ptr MemBuf) (h : Mem) : Mem := MkMem m (blks h) (fresh_ptr h).
Definition with_blks (m : gmap ptr MemBlock) (h : Mem) : Mem := MkMem (bufs h) m (fresh_ptr h).

Section access.
Context {S : Type} `{!HasMem S}.

(** [p->...] *)
Definition load (p : ptr) : M S MemBuf := λ s,
  match bufs (get_mem s) !! p with Some b => Ret b s | None => Undef end.
(** [p->field = v] *)
Definition update (p : ptr) (f : MemBuf → MemBuf) : M S unit := λ s,
  match bufs (get_mem s) !! p with
  | Some b => Ret () (put_mem (with_bufs (<[p := f b]> (bufs (get_mem s))) (get_mem s)) s)
  | None => Undef
  end.
(** [new MemBuf(...)] *)
Definition alloc_buf (b : MemBuf) : M S ptr := λ s,
  let h := get_mem s in
  Ret (fresh_ptr h)
    (put_mem (MkMem (<[fresh_ptr h := b]> (bufs h)) (blks h) (Pos.succ (fresh_ptr h))) s).
(** [delete p] *)
Definition delete_buf (p : ptr) : M S unit := λ s,
  match bufs (get_mem s) !! p with
  | Some _ => Ret () (put_mem (with_bufs (delete p (bufs (get_mem s))) (get_mem s)) s)
  | None => Undef
  end.

Definition load_blk (k : ptr) : M S MemBlock := λ s,
  match blks (get_mem s) !! k with Some b => Ret b s | None => Undef end.
Definition update_blk (k : ptr) (f : MemBlock → MemBlock) : M S unit := λ s,
  match blks (get_mem s) !! k with
  | Some b => Ret () (put_mem (with_blks (<[k := f b]> (blks (get_mem s))) (get_mem s)) s)
  | None => Undef
  end.
Definition alloc_blk (b : MemBlock) : M S ptr := λ s,
  let h := get_mem s in
  Ret (fresh_ptr h)
    (put_mem (MkMem (bufs h) (<[fresh_ptr h := b]> (blks h)) (Pos.succ (fresh_ptr h))) s).
Definition delete_blk (k : ptr) : M S unit := λ s,
  match blks (get_mem s) !! k with
  | Some _ => Ret () (put_mem (with_blks (delete k (blks (get_mem s))) (get_mem s)) s)
  | None => Undef
  end.

(** [if (o != nullptr) body(o)] *)
Definition when_some {A} (o : option A) (body : A → M S unit) : M S unit :=
  match o with Some a => body a | None => mret () end.

(** [this->Link(prev, next)] *)
Definition Link (this : ptr) (prev next : option ptr) : M S unit :=
  when_some prev (λ p, update p (set_next (Some this));; update this (set_prev prev));;
  when_some next (λ n, update n (set_prev (Some this));; update this (set_next next)).

(** [this->Unlink()] *)
Definition Unlink (this : ptr) : M S unit :=
  b ← load this;
  when_some (mb_prev b) (λ p, update p (set_next (mb_next b)));;
  when_some (mb_next b) (λ n, update n (set_prev (mb_prev b)));;
  update this (λ b, set_next None (set_prev None b)).

Lemma wp_load p b s (Q : MemBuf → S → Prop) :
  bufs (get_mem s) !! p = Some b → Q b s → wp (load p) s Q.
Proof. unfold wp, load. by intros ->. Qed.

Lemma wp_update p f b s (Q : unit → S → Prop) :
  bufs (get_mem s) !! p = Some b →
  Q () (put_mem (with_bufs (<[p := f b]> (bufs (get_mem s))) (get_mem s)) s) →
  wp (update p f) s Q.
Proof. unfold wp, update. by intros ->. Qed.

Lemma wp_alloc_buf b s (Q : ptr → S → Prop) :
  Q (fresh_ptr (get_mem s))
    (put_mem (MkMem (<[fresh_ptr (get_mem s) := b]> (bufs (get_mem s)))
                (blks (get_mem s)) (Pos.succ (fresh_ptr (get_mem s)))) s) →
  wp (alloc_buf b) s Q.
Proof. done. Qed.

Lemma wp_delete_buf p s (Q : unit → S → Prop) :
  is_Some (bufs (get_mem s) !! p) →
  Q () (put_mem (with_bufs (delete p (bufs (get_mem s))) (get_mem s)) s) →
  wp (delete_buf p) s Q.
Proof. unfold wp, delete_buf. by intros [? ->]. Qed.

Lemma wp_load_blk k b s (Q : MemBlock → S → Prop) :
  blks (get_mem s) !! k = Some b → Q b s → wp (load_blk k) s Q.
Proof. unfold wp, load_blk. by intros ->. Qed.

Lemma wp_update_blk k f b s (Q : unit → S → Prop) :
  blks (get_mem s) !! k = Some b →
  Q () (put_mem (with_blks (<[k := f b]> (blks (get_mem s))) (get_mem s)) s) →
  wp (update_blk k f) s Q.
Proof. unfold wp, update_blk. by intros ->. Qed.

Lemma wp_delete_blk k s (Q : unit → S → Prop) :
  is_Some (blks (get_mem s) !! k) →
  Q () (put_mem (with_blks (delete k (blks (get_mem s))) (get_mem s)) s) →
  wp (delete_blk k) s Q.
Proof. unfold wp, delete_blk. by intros [? ->]. Qed.

(** Optional neighbour: one rule for the null and the non-null case. *)
Definition alter_opt {A} (o : option ptr) (f : A → A) (m : gmap ptr A) : gmap ptr A :=
  match o with Some p => alter f p m | None => m end.

Lemma wp_when_update (o : option ptr) f s (Q : unit → S → Prop) :
  (∀ p, o = Some p → is_Some (bufs (get_mem s) !! p)) →
  Q () (put_mem (with_bufs (alter_opt o f (bufs (get_mem s))) (get_mem s)) s) →
  wp (when_some o (λ p, update p f)) s Q.
Proof.
  intros Hlive HQ. destruct o as [p|]; simpl in *.
  - destruct (Hlive p eq_refl) as [b Hb]. apply (wp_update _ _ b); [done|].
    assert (alter f p (bufs (get_mem s)) = <[p := f b]> (bufs (get_mem s))) as <-; [|done].
    apply map_eq. intros i. destruct (decide (i = p)) as [->|?].
    + by rewrite lookup_alter_eq, lookup_insert_eq, Hb.
    + by rewrite lookup_alter_ne, lookup_insert_ne.
  - apply wp_ret. unfold with_bufs in HQ.
    destruct (get_mem s) as [m B n] eqn:Hs; simpl in HQ. rewrite <- Hs, put_get_mem in HQ. done.
Qed.
End access.
