(* ===== verification/MemGeometry.v ===== *)
(** * Geometry of the buffers of a block

    What a [MemBuf] says about the address range it covers and its neighbours in
    the doubly linked list, without its status, events and debug information.
    The invariant [segs_ok] is local: each segment lies in its block, is linked
    to the segment that starts where it ends, no two segments overlap, and the
    segments of a block add up to the block. *)

From S2P Require Import Prelude EventBase MemBufHeap.

Record Seg := MkSeg {
  sg_prev : option ptr;
  sg_next : option ptr;
  sg_size : Z;
  sg_addr : Z;
  sg_stream : Z;
  sg_blk : ptr
}.

Definition seg_of (b : MemBuf) : Seg :=
  MkSeg (mb_prev b) (mb_next b) (mb_size b) (mb_addr b) (mb_stream_id b) (mb_mem_block b).

Definition sg_end (s : Seg) : Z := sg_addr s + sg_size s.
Definition sset_prev (v : option ptr) (s : Seg) : Seg :=
  MkSeg v (sg_next s) (sg_size s) (sg_addr s) (sg_stream s) (sg_blk s).
Definition sset_next (v : option ptr) (s : Seg) : Seg :=
  MkSeg (sg_prev s) v (sg_size s) (sg_addr s) (sg_stream s) (sg_blk s).

(** Ranges [a, a+n) and [b, b+m) do not meet. *)
Definition disjoint_range (a n b m : Z) : Prop := a + n <= b ∨ b + m <= a.

Definition next_ok (G : gmap ptr Seg) (B : gmap ptr MemBlock) (p : ptr) (s : Seg) : Prop :=
  match sg_next s with
  | None => ∀ k, B !! sg_blk s = Some k → sg_end s = blk_addr k + blk_size k
  | Some q => ∃ c, G !! q = Some c ∧ sg_prev c = Some p ∧ sg_blk c = sg_blk s ∧
                   sg_end s = sg_addr c
  end.

Definition prev_ok (G : gmap ptr Seg) (B : gmap ptr MemBlock) (p : ptr) (s : Seg) : Prop :=
  match sg_prev s with
  | None => ∀ k, B !! sg_blk s = Some k → sg_addr s = blk_addr k
  | Some q => ∃ c, G !! q = Some c ∧ sg_next c = Some p
  end.

Definition in_block (B : gmap ptr MemBlock) (s : Seg) : Prop :=
  0 < sg_size s ∧
  ∃ k, B !! sg_blk s = Some k ∧ blk_addr k <= sg_addr s ∧
       sg_end s <= blk_addr k + blk_size k ∧ sg_stream s = blk_stream_id k.

Definition seg_in (k : ptr) (s : Seg) : Z := if decide (sg_blk s = k) then sg_size s else 0.

Record blks_ok (B : gmap ptr MemBlock) : Prop := {
  bk_range : ∀ k b, B !! k = Some b →
    0 <= blk_addr b ∧ 0 < blk_size b < w64 ∧ blk_addr b + blk_size b <= w64;
  bk_disj : ∀ k l b c, k ≠ l → B !! k = Some b → B !! l = Some c →
    disjoint_range (blk_addr b) (blk_size b) (blk_addr c) (blk_size c)
}.

Record segs_ok (G : gmap ptr Seg) (B : gmap ptr MemBlock) : Prop := {
  so_in : ∀ p s, G !! p = Some s → in_block B s;
  so_next : ∀ p s, G !! p = Some s → next_ok G B p s;
  so_prev : ∀ p s, G !! p = Some s → prev_ok G B p s;
  so_disj : ∀ p q s t, p ≠ q → G !! p = Some s → G !! q = Some t →
    disjoint_range (sg_addr s) (sg_size s) (sg_addr t) (sg_size t);
  so_total : ∀ k b, B !! k = Some b → msum (seg_in k) G = blk_size b
}.

(** Cut [p] at offset [sz]; the upper part becomes [q]. *)
Definition gsplit (p q : ptr) (sz : Z) (s : Seg) (G : gmap ptr Seg) : gmap ptr Seg :=
  <[p := MkSeg (sg_prev s) (Some q) sz (sg_addr s) (sg_stream s) (sg_blk s)]>
  (<[q := MkSeg (Some p) (sg_next s) (sg_size s - sz) (sg_addr s + sz) (sg_stream s) (sg_blk s)]>
   (alter_opt (sg_next s) (sset_prev (Some q)) G)).

(** The adjacent segments [lo] and [hi] become one, kept at pointer [keep];
    pointer [drop] is deleted. *)
Definition gmerge (keep drop : ptr) (lo hi : Seg) (G : gmap ptr Seg) : gmap ptr Seg :=
  <[keep := MkSeg (sg_prev lo) (sg_next hi) (sg_size lo + sg_size hi) (sg_addr lo)
              (sg_stream lo) (sg_blk lo)]>
  (delete drop
    (alter_opt (sg_prev lo) (sset_next (Some keep))
      (alter_opt (sg_next hi) (sset_prev (Some keep)) G))).

Lemma lookup_alter_opt {A} (o : option ptr) (f : A → A) m x :
  alter_opt o f m !! x = if decide (o = Some x) then f <$> m !! x else m !! x.
Proof.
  destruct o as [y|]; simpl; [|done].
  destruct (decide (y = x)) as [->|?].
  - by rewrite lookup_alter_eq, decide_True.
  - rewrite lookup_alter_ne, decide_False by naive_solver. done.
Qed.

Lemma msum_alter_opt {A} (f : A → Z) (g : A → A) o (m : gmap ptr A) :
  (∀ a, f (g a) = f a) → msum f (alter_opt o g m) = msum f m.
Proof.
  intros Hfg. destruct o as [p|]; simpl; [|done].
  destruct (m !! p) as [a|] eqn:Ha.
  - assert (alter g p m = <[p := g a]> m) as ->.
    { apply map_eq. intros i. destruct (decide (i = p)) as [->|?].
      - by rewrite lookup_alter_eq, lookup_insert_eq, Ha.
      - by rewrite lookup_alter_ne, lookup_insert_ne. }
    rewrite (msum_update _ _ _ a) by done. rewrite Hfg. lia.
  - f_equal. apply map_eq. intros i. destruct (decide (i = p)) as [->|?].
    + by rewrite lookup_alter_eq, Ha.
    + by rewrite lookup_alter_ne.
Qed.

Section links.
Context (G : gmap ptr Seg) (B : gmap ptr MemBlock) (Hok : segs_ok G B).

Lemma seg_pos p s : G !! p = Some s → 0 < sg_size s.
Proof. intros Hp. by destruct (so_in _ _ Hok _ _ Hp). Qed.

Lemma seg_next p s q : G !! p = Some s → sg_next s = Some q →
  ∃ c, G !! q = Some c ∧ sg_prev c = Some p ∧ sg_blk c = sg_blk s ∧ sg_end s = sg_addr c ∧ q ≠ p.
Proof.
  intros Hp Hn. pose proof (so_next _ _ Hok _ _ Hp) as H. unfold next_ok in H. rewrite Hn in H.
  destruct H as (c & Hc & ? & ? & He). exists c. split_and!; try done. intros ->.
  pose proof (seg_pos _ _ Hp). unfold sg_end in He. simplify_eq. lia.
Qed.

Lemma seg_prev p s q : G !! p = Some s → sg_prev s = Some q →
  ∃ c, G !! q = Some c ∧ sg_next c = Some p ∧ sg_blk c = sg_blk s ∧ sg_end c = sg_addr s ∧ q ≠ p.
Proof.
  intros Hp Hn. pose proof (so_prev _ _ Hok _ _ Hp) as H. unfold prev_ok in H. rewrite Hn in H.
  destruct H as (c & Hc & Hcn). destruct (seg_next _ _ _ Hc Hcn) as (d & Hd & ? & ? & ? & ?).
  simplify_eq. exists c. naive_solver.
Qed.

Lemma seg_same p q s t : G !! p = Some s → G !! q = Some t →
  sg_addr s < sg_end t → sg_addr t < sg_end s → p = q.
Proof.
  intros Hp Hq H1 H2. destruct (decide (p = q)) as [|Hne]; [done|].
  destruct (so_disj _ _ Hok _ _ _ _ Hne Hp Hq); unfold sg_end in *; lia.
Qed.

Section split.
Context (p q : ptr) (sz : Z) (s : Seg).
Lemma gsplit_lookup x t : gsplit p q sz s G !! x = Some t →
  (x = p ∧ t = MkSeg (sg_prev s) (Some q) sz (sg_addr s) (sg_stream s) (sg_blk s)) ∨
  (x = q ∧ t = MkSeg (Some p) (sg_next s) (sg_size s - sz) (sg_addr s + sz)
                 (sg_stream s) (sg_blk s)) ∨
  (x ≠ p ∧ x ≠ q ∧ ∃ c, G !! x = Some c ∧
     t = if decide (sg_next s = Some x) then sset_prev (Some q) c else c).
Proof.
  unfold gsplit. rewrite !lookup_insert, lookup_alter_opt. intros H.
  repeat case_decide; simplify_eq; auto; right; right; split_and!; try done.
  - apply fmap_Some in H as (c & ? & ->). eauto.
  - eauto.
Qed.

Context (Hp : G !! p = Some s) (Hq : G !! q = None) (Hsz : 0 < sz < sg_size s).

Lemma gsplit_ne : p ≠ q.
Proof. intros ->. congruence. Qed.

Lemma gsplit_in x t : gsplit p q sz s G !! x = Some t → in_block B t.
Proof.
  pose proof (so_in _ _ Hok _ _ Hp) as (_ & k & Hk & Hlo & Hhi & Hst).
  unfold sg_end in *.
  intros [[-> ->]|[[-> ->]|(_ & _ & c & Hc & ->)]]%gsplit_lookup.
  - split; simpl; [lia|]. exists k. unfold sg_end; simpl. split_and!; try done; lia.
  - split; simpl; [lia|]. exists k. unfold sg_end; simpl. split_and!; try done; lia.
  - pose proof (so_in _ _ Hok _ _ Hc). by case_decide.
Qed.

Lemma gsplit_next x t : gsplit p q sz s G !! x = Some t → next_ok (gsplit p q sz s G) B x t.
Proof.
  pose proof gsplit_ne as Hpq.
  intros [[-> ->]|[[-> ->]|(Hxp & Hxq & c & Hc & ->)]]%gsplit_lookup.
  - unfold next_ok, gsplit; simpl. rewrite lookup_insert_ne, lookup_insert_eq by done. eauto.
  - pose proof (so_next _ _ Hok _ _ Hp) as Hs.
    unfold next_ok in *; simpl. destruct (sg_next s) as [y|] eqn:Hn.
    + destruct (seg_next _ _ _ Hp Hn) as (d & Hd & ? & ? & ? & ?).
      exists (sset_prev (Some q) d). unfold gsplit.
      rewrite !lookup_insert_ne, lookup_alter_opt, Hn, decide_True, Hd by congruence.
      unfold sg_end in *; simpl. split_and!; try done. lia.
    + intros k' Hk'. rewrite <- (Hs k') by done. unfold sg_end; simpl. lia.
  - assert (next_ok (gsplit p q sz s G) B x c) as Hcn; [|by case_decide].
    pose proof (so_next _ _ Hok _ _ Hc) as Hs.
    unfold next_ok in *. destruct (sg_next c) as [y|] eqn:Hn; [|done].
    destruct (seg_next _ _ _ Hc Hn) as (d & Hd & ? & ? & ? & ?).
    unfold gsplit. destruct (decide (y = p)) as [->|].
    { rewrite lookup_insert_eq. simplify_eq. eauto 10. }
    rewrite !lookup_insert_ne by congruence. rewrite lookup_alter_opt, decide_False; [eauto|].
    intros Hny. destruct (seg_next _ _ _ Hp Hny) as (? & ? & ? & ?). congruence.
Qed.

Lemma gsplit_prev x t : gsplit p q sz s G !! x = Some t → prev_ok (gsplit p q sz s G) B x t.
Proof.
  pose proof gsplit_ne as Hpq.
  intros [[-> ->]|[[-> ->]|(Hxp & Hxq & c & Hc & ->)]]%gsplit_lookup.
  - pose proof (so_prev _ _ Hok _ _ Hp) as Hs.
    unfold prev_ok in *; simpl. destruct (sg_prev s) as [y|] eqn:Hn; [|done].
    destruct (seg_prev _ _ _ Hp Hn) as (d & Hd & ? & ? & ? & ?). unfold gsplit.
    rewrite !lookup_insert_ne, lookup_alter_opt, Hd by congruence.
    case_decide; simpl; eauto.
  - unfold prev_ok, gsplit; simpl. rewrite lookup_insert_eq. eauto.
  - case_decide as Hnx.
    { unfold prev_ok, gsplit; simpl. rewrite lookup_insert_ne, lookup_insert_eq by done. eauto. }
    pose proof (so_prev _ _ Hok _ _ Hc) as Hs.
    unfold prev_ok in *. destruct (sg_prev c) as [y|] eqn:Hn; [|done].
    destruct (seg_prev _ _ _ Hc Hn) as (d & Hd & ? & ? & ? & ?). unfold gsplit.
    rewrite !lookup_insert_ne, lookup_alter_opt, Hd by congruence.
    case_decide; simpl; eauto.
Qed.

(** Other segments stay clear of the whole range that was cut. *)
Lemma gsplit_clear x t : x ≠ p → x ≠ q → gsplit p q sz s G !! x = Some t →
  disjoint_range (sg_addr s) (sg_size s) (sg_addr t) (sg_size t).
Proof.
  intros Hxp Hxq [[-> _]|[[-> _]|(_ & _ & c & Hc & ->)]]%gsplit_lookup; try done.
  pose proof (so_disj _ _ Hok p x s c ltac:(done) Hp Hc). by case_decide.
Qed.

Lemma gsplit_disj x y t u : x ≠ y →
  gsplit p q sz s G !! x = Some t → gsplit p q sz s G !! y = Some u →
  disjoint_range (sg_addr t) (sg_size t) (sg_addr u) (sg_size u).
Proof.
  intros Hxy Hx Hy.
  pose proof (gsplit_clear x t) as Dx. pose proof (gsplit_clear y u) as Dy.
  destruct (gsplit_lookup _ _ Hx) as [[-> ->]|[[-> ->]|(? & ? & c & Hc & ->)]];
  destruct (gsplit_lookup _ _ Hy) as [[-> ->]|[[-> ->]|(? & ? & d & Hd & ->)]]; try done;
    unfold disjoint_range in *; simpl in *; try lia;
    try (specialize (Dx ltac:(done) ltac:(done) Hx); lia);
    try (specialize (Dy ltac:(done) ltac:(done) Hy); lia).
  pose proof (so_disj _ _ Hok x y c d Hxy Hc Hd). by repeat case_decide.
Qed.

Lemma gsplit_total k b : B !! k = Some b → msum (seg_in k) (gsplit p q sz s G) = blk_size b.
Proof.
  intros Hb. unfold gsplit.
  assert (alter_opt (sg_next s) (sset_prev (Some q)) G !! p = Some s) as Hp'.
  { rewrite lookup_alter_opt, decide_False; [done|]. intros Hn.
    by destruct (seg_next _ _ _ Hp Hn) as (?&?&?&?&?&?). }
  rewrite (msum_update _ _ _ s) by (by rewrite lookup_insert_ne by (symmetry; apply gsplit_ne)).
  rewrite msum_insert.
  - rewrite msum_alter_opt by done. rewrite (so_total _ _ Hok k b) by done.
    unfold seg_in; simpl. case_decide; lia.
  - rewrite lookup_alter_opt, Hq. by case_decide.
Qed.

Lemma gsplit_ok : segs_ok (gsplit p q sz s G) B.
Proof.
  split; eauto using gsplit_in, gsplit_next, gsplit_prev, gsplit_disj, gsplit_total.
Qed.
End split.

Section merge.
Context (pl ph : ptr) (lo hi : Seg).
Context (Hlo : G !! pl = Some lo) (Hhi : G !! ph = Some hi) (Hn : sg_next lo = Some ph).

Lemma gmerge_facts : pl ≠ ph ∧ sg_prev hi = Some pl ∧ sg_blk hi = sg_blk lo ∧
  sg_end lo = sg_addr hi ∧ sg_prev lo ≠ Some ph ∧ sg_prev lo ≠ Some pl ∧
  sg_next hi ≠ Some pl ∧ sg_next hi ≠ Some ph.
Proof.
  destruct (seg_next _ _ _ Hlo Hn) as (c & Hc & ? & ? & He & ?). simplify_eq.
  pose proof (seg_pos _ _ Hlo). pose proof (seg_pos _ _ Hhi). unfold sg_end in *.
  split_and!; try done; intros Hx.
  - destruct (seg_prev _ _ _ Hlo Hx) as (d & Hd & ? & ? & Hed & ?).
    unfold sg_end in *. simplify_eq. lia.
  - destruct (seg_prev _ _ _ Hlo Hx) as (d & Hd & ? & ? & Hed & ?). done.
  - destruct (seg_next _ _ _ Hhi Hx) as (d & Hd & ? & ? & Hed & ?).
    unfold sg_end in *. simplify_eq. lia.
  - destruct (seg_next _ _ _ Hhi Hx) as (d & Hd & ? & ? & Hed & ?). done.
Qed.

Context (keep drop : ptr) (Hkd : (keep = pl ∧ drop = ph) ∨ (keep = ph ∧ drop = pl)).

(** What the merge does to a segment it does not consume. *)
Definition relink (x : ptr) (c : Seg) : Seg :=
  MkSeg (if decide (sg_next hi = Some x) then Some keep else sg_prev c)
        (if decide (sg_prev lo = Some x) then Some keep else sg_next c)
        (sg_size c) (sg_addr c) (sg_stream c) (sg_blk c).

Lemma gmerge_lookup_other x : x ≠ pl → x ≠ ph →
  gmerge keep drop lo hi G !! x = relink x <$> G !! x.
Proof.
  intros Hxl Hxh. unfold gmerge.
  assert (x ≠ keep ∧ x ≠ drop) as [??] by (by destruct Hkd as [[-> ->]|[-> ->]]).
  rewrite lookup_insert_ne, lookup_delete_ne, !lookup_alter_opt by done.
  unfold relink. destruct (G !! x) as [[]|]; repeat case_decide; done.
Qed.

Lemma gmerge_lookup_keep : gmerge keep drop lo hi G !! keep =
  Some (MkSeg (sg_prev lo) (sg_next hi) (sg_size lo + sg_size hi) (sg_addr lo)
          (sg_stream lo) (sg_blk lo)).
Proof. apply lookup_insert_eq. Qed.

Lemma gmerge_lookup x t : gmerge keep drop lo hi G !! x = Some t →
  (x = keep ∧ t = MkSeg (sg_prev lo) (sg_next hi) (sg_size lo + sg_size hi) (sg_addr lo)
          (sg_stream lo) (sg_blk lo)) ∨
  (x ≠ pl ∧ x ≠ ph ∧ ∃ c, G !! x = Some c ∧ t = relink x c).
Proof.
  destruct (decide (x = keep)) as [->|Hxk].
  { rewrite gmerge_lookup_keep. intros [= <-]. by left. }
  destruct (decide (x = drop)) as [->|Hxd].
  { unfold gmerge. rewrite lookup_insert_ne, lookup_delete_eq by done. done. }
  assert (x ≠ pl ∧ x ≠ ph) as [??] by (by destruct Hkd as [[-> ->]|[-> ->]]).
  rewrite gmerge_lookup_other by done. intros (c & ? & ->)%fmap_Some. eauto 10.
Qed.

Lemma gmerge_in x t : gmerge keep drop lo hi G !! x = Some t → in_block B t.
Proof.
  destruct gmerge_facts as (? & ? & Hblk & He & _).
  intros [[-> ->]|(_ & _ & c & Hc & ->)]%gmerge_lookup.
  - destruct (so_in _ _ Hok _ _ Hlo) as (? & k & Hk & ? & ? & ?).
    destruct (so_in _ _ Hok _ _ Hhi) as (? & k' & Hk' & ? & ? & ?).
    rewrite Hblk in Hk'. unfold sg_end in *. simplify_eq.
    split; simpl; [lia|]. exists k. unfold sg_end; simpl. split_and!; try done; lia.
  - apply (so_in _ _ Hok _ _ Hc).
Qed.

Lemma gmerge_next x t : gmerge keep drop lo hi G !! x = Some t →
  next_ok (gmerge keep drop lo hi G) B x t.
Proof.
  destruct gmerge_facts as (Hne & Hpv & Hblk & He & Hlp & Hlp' & Hhn & Hhn').
  intros [[-> ->]|(Hxl & Hxh & c & Hc & ->)]%gmerge_lookup.
  - pose proof (so_next _ _ Hok _ _ Hhi) as Hs. unfold next_ok in *. simpl.
    destruct (sg_next hi) as [y|] eqn:Hy.
    + destruct Hs as (d & Hd & ? & ? & ?). exists (relink y d).
      rewrite gmerge_lookup_other, Hd by congruence. unfold relink; simpl.
      rewrite Hy, decide_True by done. unfold sg_end in *; simpl. split_and!; try done; [congruence|lia].
    + rewrite <- Hblk. intros k Hk. rewrite <- (Hs k Hk). unfold sg_end in *; simpl. lia.
  - pose proof (so_next _ _ Hok _ _ Hc) as Hs. unfold next_ok in *. simpl.
    destruct (decide (sg_prev lo = Some x)) as [Hpx|Hpx].
    + destruct (seg_prev _ _ _ Hlo Hpx) as (d & Hd & ? & ? & ? & ?). simplify_eq.
      rewrite gmerge_lookup_keep. eexists. split; [done|]. simpl. by unfold sg_end in *.
    + destruct (sg_next c) as [y|] eqn:Hy; [|done].
      destruct Hs as (d & Hd & Hdp & ? & ?).
      assert (y ≠ pl) by (intros ->; congruence). assert (y ≠ ph) by (intros ->; congruence).
      exists (relink y d). rewrite gmerge_lookup_other, Hd by done. unfold relink; simpl.
      rewrite decide_False; [done|]. intros Hhy.
      destruct (seg_next _ _ _ Hhi Hhy) as (? & ? & ? & ?). congruence.
Qed.

Lemma gmerge_prev x t : gmerge keep drop lo hi G !! x = Some t →
  prev_ok (gmerge keep drop lo hi G) B x t.
Proof.
  destruct gmerge_facts as (Hne & Hpv & Hblk & He & Hlp & Hlp' & Hhn & Hhn').
  intros [[-> ->]|(Hxl & Hxh & c & Hc & ->)]%gmerge_lookup.
  - pose proof (so_prev _ _ Hok _ _ Hlo) as Hs. unfold prev_ok in *. simpl.
    destruct (sg_prev lo) as [y|] eqn:Hy; [|done].
    destruct Hs as (d & Hd & ?). exists (relink y d).
    rewrite gmerge_lookup_other, Hd by congruence. split; [done|]. unfold relink; simpl.
    by rewrite Hy, decide_True.
  - pose proof (so_prev _ _ Hok _ _ Hc) as Hs. unfold prev_ok in *. simpl.
    destruct (decide (sg_next hi = Some x)) as [Hpx|Hpx].
    { rewrite gmerge_lookup_keep. eauto. }
    destruct (sg_prev c) as [y|] eqn:Hy; [|done].
    destruct (seg_prev _ _ _ Hc Hy) as (d & Hd & Hdn & ? & ?).
    assert (y ≠ pl) by (intros ->; congruence). assert (y ≠ ph) by (intros ->; congruence).
    exists (relink y d). rewrite gmerge_lookup_other, Hd by done. split; [done|].
    unfold relink; simpl. rewrite decide_False; [done|]. intros Hhy.
    destruct (seg_prev _ _ _ Hlo Hhy) as (? & ? & ? & ?). congruence.
Qed.

Lemma gmerge_disj x y t u : x ≠ y →
  gmerge keep drop lo hi G !! x = Some t → gmerge keep drop lo hi G !! y = Some u →
  disjoint_range (sg_addr t) (sg_size t) (sg_addr u) (sg_size u).
Proof.
  destruct gmerge_facts as (_ & _ & _ & He & _).
  assert (∀ z c, z ≠ pl → z ≠ ph → G !! z = Some c →
    disjoint_range (sg_addr lo) (sg_size lo + sg_size hi) (sg_addr c) (sg_size c)) as Hd.
  { intros z c Hzl Hzh Hz. pose proof (seg_pos _ _ Hlo). pose proof (seg_pos _ _ Hhi).
    pose proof (seg_pos _ _ Hz).
    assert (pl ≠ z) as Hzl' by done. assert (ph ≠ z) as Hzh' by done.
    pose proof (so_disj _ _ Hok _ _ _ _ Hzl' Hlo Hz).
    pose proof (so_disj _ _ Hok _ _ _ _ Hzh' Hhi Hz).
    unfold sg_end, disjoint_range in *. lia. }
  intros Hxy [[-> ->]|(Hxl & Hxh & c & Hc & ->)]%gmerge_lookup
    [[-> ->]|(Hyl & Hyh & d & Hcd & ->)]%gmerge_lookup; simpl; try done.
  - by apply (Hd y).
  - destruct (Hd x c Hxl Hxh Hc); [by right|by left].
  - by apply (so_disj _ _ Hok x y).
Qed.

Lemma gmerge_total k b : B !! k = Some b →
  msum (seg_in k) (gmerge keep drop lo hi G) = blk_size b.
Proof.
  destruct gmerge_facts as (Hne & Hpv & Hblk & He & Hlp & Hlp' & Hhn & Hhn').
  intros Hb. unfold gmerge.
  set (G' := alter_opt (sg_prev lo) _ _).
  assert (msum (seg_in k) G' = blk_size b) as HG.
  { unfold G'. rewrite !msum_alter_opt by done. by apply (so_total _ _ Hok). }
  assert (G' !! pl = Some lo) as Hl.
  { unfold G'. rewrite !lookup_alter_opt, !decide_False by done. done. }
  assert (G' !! ph = Some hi) as Hh.
  { unfold G'. rewrite !lookup_alter_opt, !decide_False by done. done. }
  destruct Hkd as [[-> ->]|[-> ->]].
  - rewrite (msum_delete _ _ _ _ Hh) in HG.
    rewrite (msum_update _ _ _ lo) by (by rewrite lookup_delete_ne).
    unfold seg_in in *; simpl in *. rewrite Hblk in HG. case_decide; lia.
  - rewrite (msum_delete _ _ _ _ Hl) in HG.
    rewrite (msum_update _ _ _ hi) by (by rewrite lookup_delete_ne).
    unfold seg_in in *; simpl in *. rewrite Hblk. case_decide; lia.
Qed.

Lemma gmerge_ok : segs_ok (gmerge keep drop lo hi G) B.
Proof.
  split; eauto using gmerge_in, gmerge_next, gmerge_prev, gmerge_disj, gmerge_total.
Qed.
End merge.
End links.

(** ** Changes to the blocks *)

Lemma fmap_alter_opt {A C} (f : A → C) (g : A → A) (g' : C → C) o (m : gmap ptr A) :
  (∀ a, f (g a) = g' (f a)) → f <$> alter_opt o g m = alter_opt o g' (f <$> m).
Proof.
  intros Hfg. apply map_eq. intros i. rewrite !lookup_fmap, !lookup_alter_opt, lookup_fmap.
  case_decide; [|done]. destruct (m !! i); simpl; by rewrite ?Hfg.
Qed.

Definition blk_geo (k : MemBlock) : Z * Z * Z := (blk_size k, blk_addr k, blk_stream_id k).

Section blocks.
Context (G : gmap ptr Seg) (B B' : gmap ptr MemBlock).

(** Only size, address and stream of a block matter. *)
Lemma segs_ok_blk_geo : blk_geo <$> B = blk_geo <$> B' → segs_ok G B → segs_ok G B'.
Proof.
  intros Hg Hok.
  assert (∀ k b, B' !! k = Some b → ∃ a, B !! k = Some a ∧ blk_geo a = blk_geo b) as Hb.
  { intros k b Hk. assert ((blk_geo <$> B) !! k = Some (blk_geo b)) as H
      by (by rewrite Hg, lookup_fmap, Hk).
    rewrite lookup_fmap in H. apply fmap_Some in H as (a & ? & ?). eauto. }
  assert (∀ k b, B !! k = Some b → ∃ a, B' !! k = Some a ∧ blk_geo a = blk_geo b) as Hb'.
  { intros k b Hk. assert ((blk_geo <$> B') !! k = Some (blk_geo b)) as H
      by (by rewrite <- Hg, lookup_fmap, Hk).
    rewrite lookup_fmap in H. apply fmap_Some in H as (a & ? & ?). eauto. }
  split.
  - intros p s Hp. destruct (so_in _ _ Hok _ _ Hp) as (? & k & Hk & ? & ? & ?).
    split; [done|]. destruct (Hb' _ _ Hk) as (a & Ha & Hga). exists a.
    unfold blk_geo in Hga. simplify_eq. split_and!; [done|congruence..].
  - intros p s Hp. pose proof (so_next _ _ Hok _ _ Hp) as Hs. unfold next_ok in *.
    destruct (sg_next s); [done|]. intros k Hk. destruct (Hb _ _ Hk) as (a & Ha & Hga).
    unfold blk_geo in Hga. rewrite (Hs _ Ha). congruence.
  - intros p s Hp. pose proof (so_prev _ _ Hok _ _ Hp) as Hs. unfold prev_ok in *.
    destruct (sg_prev s); [done|]. intros k Hk. destruct (Hb _ _ Hk) as (a & Ha & Hga).
    unfold blk_geo in Hga. rewrite (Hs _ Ha). congruence.
  - apply (so_disj _ _ Hok).
  - intros k b Hk. destruct (Hb _ _ Hk) as (a & Ha & Hga). unfold blk_geo in Hga.
    rewrite (so_total _ _ Hok _ _ Ha). congruence.
Qed.

Lemma blks_ok_blk_geo : blk_geo <$> B = blk_geo <$> B' → blks_ok B → blks_ok B'.
Proof.
  intros Hg [Hr Hd].
  assert (∀ k b, B' !! k = Some b → ∃ a, B !! k = Some a ∧ blk_geo a = blk_geo b) as Hb.
  { intros k b Hk. assert ((blk_geo <$> B) !! k = Some (blk_geo b)) as H
      by (by rewrite Hg, lookup_fmap, Hk).
    rewrite lookup_fmap in H. apply fmap_Some in H as (a & ? & ?). eauto. }
  split.
  - intros k b Hk. destruct (Hb _ _ Hk) as (a & Ha & [= <- <- _]). eauto.
  - intros k l b c Hkl Hk Hl. destruct (Hb _ _ Hk) as (a & Ha & [= <- <- _]).
    destruct (Hb _ _ Hl) as (d & Hd' & [= <- <- _]). eauto.
Qed.
End blocks.

(** A block that meets no other block, covered by one segment. *)
Section new_block.
Context (G : gmap ptr Seg) (B : gmap ptr MemBlock) (p k : ptr) (b : MemBlock).
Context (Hok : segs_ok G B) (Hb : blks_ok B) (Hp : G !! p = None) (Hk : B !! k = None).
Context (Hr : 0 <= blk_addr b ∧ 0 < blk_size b < w64 ∧ blk_addr b + blk_size b <= w64).
Context (Hd : ∀ l c, B !! l = Some c →
  disjoint_range (blk_addr b) (blk_size b) (blk_addr c) (blk_size c)).

Definition whole_block : Seg :=
  MkSeg None None (blk_size b) (blk_addr b) (blk_stream_id b) k.

Lemma add_block_blks_ok : blks_ok (<[k := b]> B).
Proof.
  split.
  - intros l c. rewrite lookup_insert. case_decide; [by intros [= <-]|]. apply (bk_range _ Hb).
  - intros l m c d Hlm. rewrite !lookup_insert. repeat case_decide; intros ??; simplify_eq.
    + eauto.
    + destruct (Hd l c); [done|by right|by left].
    + by apply (bk_disj _ Hb l m).
Qed.

Lemma old_not_in_k q s : G !! q = Some s → sg_blk s ≠ k.
Proof. intros Hq. destruct (so_in _ _ Hok _ _ Hq) as (_ & c & ? & _). congruence. Qed.

Lemma msum_seg_in_fresh : msum (seg_in k) G = 0.
Proof.
  pose proof old_not_in_k as Hold. clear -Hold. induction G as [|q s G' Hq IH] using map_ind.
  { apply msum_empty. }
  rewrite msum_insert by done. rewrite IH.
  2: { intros q' s' Hq'. apply (Hold q'). rewrite lookup_insert_ne; [done|congruence]. }
  unfold seg_in. rewrite decide_False; [done|]. apply (Hold q). apply lookup_insert_eq.
Qed.

Lemma add_block_segs_ok : segs_ok (<[p := whole_block]> G) (<[k := b]> B).
Proof.
  split.
  - intros q s. rewrite lookup_insert. case_decide; intros ?; simplify_eq.
    + split; simpl; [lia|]. exists b. unfold sg_end; simpl.
      rewrite lookup_insert_eq. split_and!; try done; lia.
    + destruct (so_in _ _ Hok _ _ H0) as (? & c & ? & ?). split; [done|]. exists c.
      rewrite lookup_insert_ne by (symmetry; by eapply old_not_in_k). done.
  - intros q s. rewrite lookup_insert. case_decide; intros Hq; simplify_eq.
    + unfold next_ok; simpl. intros c. rewrite lookup_insert_eq. intros [= <-]. done.
    + pose proof (so_next _ _ Hok _ _ Hq) as Hs. unfold next_ok in *.
      destruct (sg_next s) as [y|].
      * destruct Hs as (c & ? & ?). exists c. rewrite lookup_insert_ne by congruence. done.
      * intros c. rewrite lookup_insert_ne by (symmetry; by eapply old_not_in_k). auto.
  - intros q s. rewrite lookup_insert. case_decide; intros Hq; simplify_eq.
    + unfold prev_ok; simpl. intros c. rewrite lookup_insert_eq. intros [= <-]. done.
    + pose proof (so_prev _ _ Hok _ _ Hq) as Hs. unfold prev_ok in *.
      destruct (sg_prev s) as [y|].
      * destruct Hs as (c & ? & ?). exists c. rewrite lookup_insert_ne by congruence. done.
      * intros c. rewrite lookup_insert_ne by (symmetry; by eapply old_not_in_k). auto.
  - assert (∀ q s, G !! q = Some s →
      disjoint_range (blk_addr b) (blk_size b) (sg_addr s) (sg_size s)) as Hdis.
    { intros q s Hq. destruct (so_in _ _ Hok _ _ Hq) as (? & c & Hc & ?).
      destruct (Hd _ _ Hc); unfold sg_end, disjoint_range in *; lia. }
    intros x y s t Hxy. rewrite !lookup_insert. repeat case_decide; intros ??; simplify_eq/=.
    + eauto.
    + destruct (Hdis x s); [done|by right|by left].
    + by apply (so_disj _ _ Hok x y).
  - intros l c. rewrite lookup_insert, msum_insert by done.
    case_decide; intros ?; simplify_eq; unfold seg_in at 1; simpl.
    + rewrite decide_True, msum_seg_in_fresh by done. lia.
    + rewrite decide_False by done. by apply (so_total _ _ Hok).
Qed.
End new_block.
