(* ===== verification/MemBufSet.v ===== *)
(** * [std::set<MemBuf *, MemBufComparator>]

    The free lists of an allocator are ordered sets of pointers, compared by the
    size and address of the buffers they point to at the time of the call. A set
    is the list of its pointers in iteration order; an operation that compares
    through a dangling pointer has no value ([None]). *)

From S2P Require Import Prelude EventBase MemBufHeap.

Definition MemBufComparator (left right : MemBuf) : bool :=
  if negb (mb_size left =? mb_size right) then mb_size left <? mb_size right
  else mb_addr left <? mb_addr right.

Section set_ops.
Context (m : gmap ptr MemBuf).

(** [free_mem_bufs_.lower_bound(search_key_)] *)
Fixpoint set_lower_bound (search_key : MemBuf) (l : list ptr) : option (option ptr) :=
  match l with
  | [] => Some None
  | y :: l' =>
      c ← m !! y;
      if MemBufComparator c search_key then set_lower_bound search_key l' else Some (Some y)
  end.

Fixpoint set_emplace_buf (x : ptr) (b : MemBuf) (l : list ptr) : option (list ptr) :=
  match l with
  | [] => Some [x]
  | y :: l' =>
      c ← m !! y;
      if MemBufComparator c b then r ← set_emplace_buf x b l'; Some (y :: r)
      else if MemBufComparator b c then Some (x :: l)
      else Some l
  end.
(** [free_mem_bufs_.emplace(x)] *)
Definition set_emplace (x : ptr) (l : list ptr) : option (list ptr) :=
  b ← m !! x; set_emplace_buf x b l.

Fixpoint set_erase_buf (b : MemBuf) (l : list ptr) : option (list ptr) :=
  match l with
  | [] => Some []
  | y :: l' =>
      c ← m !! y;
      if MemBufComparator c b then r ← set_erase_buf b l'; Some (y :: r)
      else if MemBufComparator b c then Some l
      else Some l'
  end.
(** [free_mem_bufs_.erase(x)]: the element equivalent to [x], if any. *)
Definition set_erase (x : ptr) (l : list ptr) : option (list ptr) :=
  b ← m !! x; set_erase_buf b l.
End set_ops.

(** [free_mem_bufs_.erase(it)] *)
Definition set_erase_it (x : ptr) (l : list ptr) : list ptr := filter (λ y, y ≠ x) l.

Definition ptr_lt (m : gmap ptr MemBuf) (x y : ptr) : Prop :=
  ∃ b c, m !! x = Some b ∧ m !! y = Some c ∧ MemBufComparator b c = true.

(** Every pointer is live and the keys increase. *)
Record set_sorted (m : gmap ptr MemBuf) (l : list ptr) : Prop := {
  ss_sorted : StronglySorted (ptr_lt m) l;
  ss_live : ∀ x, x ∈ l → is_Some (m !! x)
}.

Definition key_lt (b c : MemBuf) : Prop :=
  mb_size b < mb_size c ∨ mb_size b = mb_size c ∧ mb_addr b < mb_addr c.

Lemma MemBufComparator_spec b c : MemBufComparator b c = true ↔ key_lt b c.
Proof.
  unfold MemBufComparator, key_lt. destruct (Z.eqb_spec (mb_size b) (mb_size c)); simpl.
  - rewrite Z.ltb_lt. lia.
  - rewrite Z.ltb_lt. lia.
Qed.

Lemma MemBufComparator_false b c : MemBufComparator b c = false ↔ ¬ key_lt b c.
Proof. rewrite <- MemBufComparator_spec. by destruct (MemBufComparator b c). Qed.

Lemma ptr_lt_key m x y b c : m !! x = Some b → m !! y = Some c → ptr_lt m x y ↔ key_lt b c.
Proof.
  intros Hx Hy. rewrite <- MemBufComparator_spec. split; [|by exists b, c].
  intros (? & ? & ? & ? & ?). by simplify_eq.
Qed.

Section set_specs.
Context (m : gmap ptr MemBuf).

Lemma set_sorted_nil : set_sorted m [].
Proof. split; [constructor|]. intros x Hx. by apply not_elem_of_nil in Hx. Qed.

Lemma set_sorted_cons x l : set_sorted m (x :: l) ↔
  is_Some (m !! x) ∧ (∀ y, y ∈ l → ptr_lt m x y) ∧ set_sorted m l.
Proof.
  split.
  - intros [Hs Hl]. apply StronglySorted_cons in Hs as [Hall Hs].
    rewrite Forall_forall in Hall. split_and!; [apply Hl; set_solver|done|].
    split; [done|]. intros y Hy. apply Hl. set_solver.
  - intros (Hx & Hlt & [Hs Hl]). split.
    + constructor; [done|]. by apply Forall_forall.
    + intros y [->|Hy]%elem_of_cons; auto.
Qed.

Lemma set_sorted_NoDup l : set_sorted m l → NoDup l.
Proof.
  induction l as [|x l IH]; [constructor|]. rewrite set_sorted_cons.
  intros (_ & Hlt & Hs). constructor; [|auto]. intros Hx.
  destruct (Hlt _ Hx) as (b & c & Hb & Hc & Hlt'). simplify_eq.
  apply MemBufComparator_spec in Hlt'. unfold key_lt in Hlt'. lia.
Qed.

(** Changing the store away from the keys of the members keeps the order. *)
Lemma set_sorted_keys (m' : gmap ptr MemBuf) l :
  (∀ x b, x ∈ l → m !! x = Some b →
     ∃ c, m' !! x = Some c ∧ mb_size c = mb_size b ∧ mb_addr c = mb_addr b) →
  set_sorted m l → set_sorted m' l.
Proof.
  induction l as [|x l IH]; [split; [constructor|set_solver]|]. intros Hk Hs.
  apply set_sorted_cons in Hs as ([b Hx] & Hlt & Hs).
  assert (set_sorted m' l) as Hs' by (apply IH; [set_solver|done]).
  destruct (Hk x b ltac:(set_solver) Hx) as (b' & Hb' & Hsz & Had).
  split; [|intros y [->|Hy]%elem_of_cons; [by eexists|by apply Hs']].
  constructor; [apply Hs'|]. apply Forall_forall. intros y Hy.
  destruct (Hlt y Hy) as (b0 & c & Hb0 & Hc & Hcmp). simplify_eq.
  destruct (Hk y c ltac:(set_solver) Hc) as (c' & Hc' & Hszc & Hadc).
  exists b', c'. split_and!; [done..|].
  apply MemBufComparator_spec in Hcmp. apply MemBufComparator_spec.
  unfold key_lt in *. lia.
Qed.

Lemma set_emplace_spec x b l :
  m !! x = Some b → set_sorted m l →
  (∀ y c, y ∈ l → m !! y = Some c → mb_addr c ≠ mb_addr b) →
  ∃ l', set_emplace m x l = Some l' ∧ set_sorted m l' ∧ ∀ y, y ∈ l' ↔ y = x ∨ y ∈ l.
Proof.
  intros Hx Hs Hne. unfold set_emplace. rewrite Hx. simpl.
  induction l as [|y l IH]; simpl.
  { exists [x]. split_and!; [done| |set_solver].
    apply set_sorted_cons. split_and!; [by eexists|set_solver|apply set_sorted_nil]. }
  apply set_sorted_cons in Hs as ([c Hy] & Hlt & Hs). rewrite Hy. simpl.
  destruct (MemBufComparator c b) eqn:Hcb.
  - destruct IH as (l' & -> & Hs' & Hin); [done|intros z d Hz; apply (Hne z d); set_solver|].
    exists (y :: l'). simpl. split_and!; [done| |].
    2: { intros z. rewrite !elem_of_cons, Hin. tauto. }
    apply set_sorted_cons. split_and!; [by eexists| |done].
    intros z [->|Hz]%Hin; [|auto]. by exists c, b.
  - assert (key_lt b c) as Hbc.
    { apply MemBufComparator_false in Hcb. specialize (Hne y c ltac:(set_solver) Hy).
      unfold key_lt in *. lia. }
    rewrite (proj2 (MemBufComparator_spec b c) Hbc). exists (x :: y :: l).
    split_and!; [done| |set_solver]. apply set_sorted_cons. split_and!; [by eexists| |].
    + intros z [->|Hz]%elem_of_cons; [by apply (ptr_lt_key _ _ _ _ _ Hx Hy)|].
      destruct (Hlt z Hz) as (c' & d & Hc' & Hd & Hcd). simplify_eq.
      apply (ptr_lt_key _ _ _ _ _ Hx Hd). apply MemBufComparator_spec in Hcd.
      unfold key_lt in *. lia.
    + apply set_sorted_cons. split_and!; [by eexists|done|done].
Qed.

Lemma set_erase_spec x l :
  set_sorted m l → x ∈ l →
  ∃ l', set_erase m x l = Some l' ∧ set_sorted m l' ∧ ∀ y, y ∈ l' ↔ y ≠ x ∧ y ∈ l.
Proof.
  intros Hs Hx. destruct (ss_live _ _ Hs x Hx) as [b Hb].
  unfold set_erase. rewrite Hb. simpl. induction l as [|y l IH]; [set_solver|].
  pose proof (set_sorted_NoDup _ Hs) as Hnd. apply NoDup_cons in Hnd as [Hyl Hnd].
  apply set_sorted_cons in Hs as ([c Hy] & Hlt & Hs). simpl. rewrite Hy. simpl.
  apply elem_of_cons in Hx as [->|Hx].
  - simplify_eq. rewrite (proj2 (MemBufComparator_false c c)) by (unfold key_lt; lia).
    exists l. split_and!; [done..|]. set_solver.
  - destruct (Hlt x Hx) as (c' & b' & Hc' & Hb' & Hcb). simplify_eq. rewrite Hcb.
    destruct IH as (l' & -> & Hs' & Hin); [done..|]. exists (y :: l').
    split_and!; [done| |].
    2: { intros z. rewrite !elem_of_cons, Hin. split; [|tauto].
         intros [->|]; [|tauto]. split; [|by left]. by intros ->. }
    apply set_sorted_cons.
    split_and!; [by eexists| |done]. intros z Hz. apply Hlt. set_solver.
Qed.

Lemma set_erase_it_spec x l :
  set_sorted m l → set_sorted m (set_erase_it x l) ∧
    ∀ y, y ∈ set_erase_it x l ↔ y ≠ x ∧ y ∈ l.
Proof.
  intros Hs. split; [|intros y; unfold set_erase_it; by rewrite list_elem_of_filter].
  induction l as [|y l IH]; [done|]. apply set_sorted_cons in Hs as (Hy & Hlt & Hs).
  unfold set_erase_it in *. rewrite filter_cons. case_decide; [|auto].
  apply set_sorted_cons. split_and!; [done| |auto].
  intros z [_ Hz]%list_elem_of_filter. auto.
Qed.

(** [lower_bound] finds the first member that is not below the key. *)
Lemma set_lower_bound_spec k l :
  set_sorted m l →
  ∃ r, set_lower_bound m k l = Some r ∧
    match r with
    | None => ∀ y c, y ∈ l → m !! y = Some c → key_lt c k
    | Some x => x ∈ l ∧ ∃ b, m !! x = Some b ∧ ¬ key_lt b k ∧
        ∀ y c, y ∈ l → m !! y = Some c → ¬ key_lt c k → y = x ∨ key_lt b c
    end.
Proof.
  induction l as [|y l IH]; simpl; intros Hs.
  { exists None. split; [done|]. set_solver. }
  apply set_sorted_cons in Hs as ([c Hy] & Hlt & Hs). rewrite Hy. simpl.
  destruct (MemBufComparator c k) eqn:Hck.
  - apply MemBufComparator_spec in Hck. destruct (IH Hs) as (r & -> & Hr).
    exists r. split; [done|]. destruct r as [x|].
    + destruct Hr as (Hx & b & Hb & Hbk & Hmin). split; [set_solver|]. exists b.
      split_and!; [done..|]. intros z d [->|Hz]%elem_of_cons Hd Hdk; [|eauto]. congruence.
    + intros z d [->|Hz]%elem_of_cons Hd; [congruence|eauto].
  - apply MemBufComparator_false in Hck. exists (Some y). split; [done|].
    split; [set_solver|]. exists c. split_and!; [done..|].
    intros z d [->|Hz]%elem_of_cons Hd Hdk; [by left|right].
    by apply (ptr_lt_key m y z), Hlt.
Qed.
End set_specs.
