(* ===== verification/MemBufAllocator.v ===== *)
(** * MemBufAllocator

    The best-fit allocator of memory/abstract_dynamic_memory_pool.{h,cc}: two
    ordered sets of free buffers (idle and eager-free), splitting on allocation,
    coalescing on release. The device is behind four callbacks. *)

From S2P Require Import Prelude EventBase MemBufHeap MemGeometry MemBufSet.

Record Allocator := MkAllocator {
  mem_blocks_ : list ptr;
  free_mem_bufs_ : list ptr;
  eager_free_mem_bufs_ : list ptr;
  enable_eager_free_ : bool;
  search_key_ : MemBuf;
  stream_id_ : Z;
  is_persistent_ : bool
}.

(** [new MemBuf(0, nullptr, 0, nullptr, kMemBufIdle)]; its block is never read. *)
Definition new_search_key : MemBuf := new_MemBuf 0 0 0 1%positive kMemBufIdle.

Definition new_Allocator (enable_eager_free is_persistent : bool) (stream_id : Z) : Allocator :=
  MkAllocator [] [] [] enable_eager_free new_search_key stream_id is_persistent.

Definition set_mem_blocks (v : list ptr) (a : Allocator) : Allocator :=
  MkAllocator v (free_mem_bufs_ a) (eager_free_mem_bufs_ a) (enable_eager_free_ a)
    (search_key_ a) (stream_id_ a) (is_persistent_ a).
Definition set_free (v : list ptr) (a : Allocator) : Allocator :=
  MkAllocator (mem_blocks_ a) v (eager_free_mem_bufs_ a) (enable_eager_free_ a)
    (search_key_ a) (stream_id_ a) (is_persistent_ a).
Definition set_eager (v : list ptr) (a : Allocator) : Allocator :=
  MkAllocator (mem_blocks_ a) (free_mem_bufs_ a) v (enable_eager_free_ a)
    (search_key_ a) (stream_id_ a) (is_persistent_ a).
Definition set_search_key (v : MemBuf) (a : Allocator) : Allocator :=
  MkAllocator (mem_blocks_ a) (free_mem_bufs_ a) (eager_free_mem_bufs_ a) (enable_eager_free_ a)
    v (stream_id_ a) (is_persistent_ a).

(** The store, one allocator, and whatever its callbacks work on. *)
Record AState (E : Type) := MkAState { a_mem : Mem; a_al : Allocator; a_env : E }.
Arguments MkAState {E} _ _ _.
Arguments a_mem {E} _.
Arguments a_al {E} _.
Arguments a_env {E} _.

#[export] Instance HasMem_AState E : HasMem (AState E).
Proof.
  refine {| get_mem := a_mem; put_mem := λ h s, MkAState h (a_al s) (a_env s) |}; done || by intros [].
Defined.

(** The four [std::function]s an allocator is built with. *)
Record Callbacks (E : Type) := MkCallbacks {
  mem_block_expander_ : Z → M (Mem * E) (option ptr);
  mem_block_cleaner_ : ptr → M (Mem * E) bool;
  mem_mapper_ : Z → Z → M E Z;
  mem_eager_freer_ : Z → Z → M E Z
}.
Arguments mem_block_expander_ {E} _ _.
Arguments mem_block_cleaner_ {E} _ _.
Arguments mem_mapper_ {E} _ _ _.
Arguments mem_eager_freer_ {E} _ _ _.

Module MemBufAllocator.
Section ops.
Context {E : Type} (cb : Callbacks E).
Abbreviation MA := (M (AState E)).

Definition put_al (f : Allocator → Allocator) : MA unit :=
  modify (λ s, MkAState (a_mem s) (f (a_al s)) (a_env s)).
Definition with_mem_env {A} (m : M (Mem * E) A) : MA A :=
  zoom (λ s, (a_mem s, a_env s)) (λ t s, MkAState t.1 (a_al s) t.2) m.
Definition with_env {A} (m : M E A) : MA A :=
  zoom a_env (λ e s, MkAState (a_mem s) (a_al s) e) m.

(** [free_mem_bufs_.emplace(p)], [eager_free_mem_bufs_.emplace(p)] *)
Definition free_emplace (p : ptr) : MA unit :=
  l ← (λ s, deref (set_emplace (bufs (a_mem s)) p (free_mem_bufs_ (a_al s))) s);
  put_al (set_free l).
Definition eager_emplace (p : ptr) : MA unit :=
  l ← (λ s, deref (set_emplace (bufs (a_mem s)) p (eager_free_mem_bufs_ (a_al s))) s);
  put_al (set_eager l).
Definition free_erase (p : ptr) : MA unit :=
  l ← (λ s, deref (set_erase (bufs (a_mem s)) p (free_mem_bufs_ (a_al s))) s);
  put_al (set_free l).
Definition eager_erase (p : ptr) : MA unit :=
  l ← (λ s, deref (set_erase (bufs (a_mem s)) p (eager_free_mem_bufs_ (a_al s))) s);
  put_al (set_eager l).

Definition status_eqb (x y : MemBufStatus) : bool := bool_decide (x = y).

(** [if (target == Idle) idle(p); else if (target == EagerFree) eager(p);] *)
Definition by_status (target : MemBufStatus) (idle eager : MA unit) : MA unit :=
  if status_eqb target kMemBufIdle then idle
  else if status_eqb target kMemBufEagerFree then eager
  else mret ().

(** Cut [candidate], whose fields are [c], after [size] bytes; the rest joins the
    set of its kind. *)
Definition SplitMemBuf (candidate : ptr) (c : MemBuf) (size : Z) : MA unit :=
  let remaining_size := mb_size c -64 size in
  let remaining_addr := mb_addr c + size in
  remaining_buf ← alloc_buf (new_MemBuf remaining_size remaining_addr (mb_stream_id c)
                               (mb_mem_block c) (mb_status c));
  let next := mb_next c in
  when_some next (λ n, update n (set_prev (Some remaining_buf)));;
  when_some next (λ n, update remaining_buf (set_next (Some n)));;
  update candidate (set_next (Some remaining_buf));;
  update remaining_buf (set_prev (Some candidate));;
  (if status_eqb (mb_status c) kMemBufIdle then free_emplace remaining_buf
   else eager_emplace remaining_buf);;
  update candidate (set_size size).

(** The memory of an eager-free buffer is mapped before it is used. *)
Definition MapMemBuf (c : MemBuf) (size : Z) : MA bool :=
  let remaining_size := mb_size c -64 size in
  if status_eqb (mb_status c) kMemBufEagerFree then
    let map_size := if kDynamicMemAlignSize <=? remaining_size then size else mb_size c in
    mapped_size ← with_env (mem_mapper_ cb map_size (mb_addr c));
    mret (mapped_size =? map_size)
  else mret true.

Definition MapAndSplitMemBuf (candidate : ptr) (size : Z) : MA (option ptr) :=
  c ← load candidate;
  let remaining_size := mb_size c -64 size in
  mapped ← MapMemBuf c size;
  if negb mapped then eager_emplace candidate;; mret None
  else
    whenM (kDynamicMemAlignSize <=? remaining_size) (SplitMemBuf candidate c size);;
    update candidate (set_status kMemBufUsed);;
    c' ← load candidate;
    update_blk (mb_mem_block c') (UpdateBorderAddr c');;
    mret (Some candidate).

Definition ExpandBlock (size : Z) : MA (option ptr) :=
  mem_block ← with_mem_env (mem_block_expander_ cb size);
  match mem_block with
  | None => mret None
  | Some k => put_al (λ a, set_mem_blocks (mem_blocks_ a ++ [k]) a);; mret (Some k)
  end.

Definition MallocExpandBlock (size : Z) : MA (option ptr) :=
  mem_block ← ExpandBlock size;
  match mem_block with
  | None => mret None
  | Some k =>
      blk ← load_blk k;
      a ← gets a_al;
      candidate ← alloc_buf (new_MemBuf (blk_size blk) (blk_addr blk) (blk_stream_id blk) k
                               (if enable_eager_free_ a then kMemBufEagerFree else kMemBufIdle));
      c ← load candidate;
      if mb_size c <? size then
        (if status_eqb (mb_status c) kMemBufIdle then free_emplace candidate
         else eager_emplace candidate);;
        mret None
      else MapAndSplitMemBuf candidate size
  end.

(** The lookup of [Malloc]: the idle set first, then the eager-free set; the
    buffer found leaves its set. *)
Definition TakeCandidate : MA (option ptr) :=
  a ← gets a_al;
  it ← (λ s, deref (set_lower_bound (bufs (a_mem s)) (search_key_ a) (free_mem_bufs_ a)) s);
  match it with
  | Some p => put_al (λ a, set_free (set_erase_it p (free_mem_bufs_ a)) a);; mret (Some p)
  | None =>
      it ← (λ s, deref (set_lower_bound (bufs (a_mem s)) (search_key_ a)
                          (eager_free_mem_bufs_ a)) s);
      match it with
      | Some p =>
          put_al (λ a, set_eager (set_erase_it p (eager_free_mem_bufs_ a)) a);; mret (Some p)
      | None => mret None
      end
  end.

Definition Malloc (size : Z) : MA (option ptr) :=
  a ← gets a_al;
  match mem_blocks_ a with
  | [] => MallocExpandBlock size
  | _ =>
      put_al (λ a, set_search_key (set_size size (search_key_ a)) a);;
      candidate ← TakeCandidate;
      match candidate with
      | None => mret None
      | Some p => MapAndSplitMemBuf p size
      end
  end.

(** Merge from prev: [mem_buf] keeps its identity and absorbs the buffer before it. *)
Definition FreeMergePrev (mem_buf : ptr) (target_status : MemBufStatus) : MA unit :=
  b ← load mem_buf;
  match mb_prev b with
  | None => mret ()
  | Some prev_buf =>
      c ← load prev_buf;
      whenM (status_eqb (mb_status c) target_status)
        (update mem_buf (set_prev (mb_prev c));;
         when_some (mb_prev c) (λ r, update r (set_next (Some mem_buf)));;
         update mem_buf (set_addr (mb_addr c));;
         update mem_buf (λ b, set_size (mb_size b +64 mb_size c) b);;
         by_status target_status (free_erase prev_buf) (eager_erase prev_buf);;
         delete_buf prev_buf)
  end.

Definition FreeMergeNext (mem_buf : ptr) (target_status : MemBufStatus) : MA unit :=
  b ← load mem_buf;
  match mb_next b with
  | None => mret ()
  | Some next_buf =>
      c ← load next_buf;
      whenM (status_eqb (mb_status c) target_status)
        (update mem_buf (set_next (mb_next c));;
         when_some (mb_next c) (λ r, update r (set_prev (Some mem_buf)));;
         update mem_buf (λ b, set_size (mb_size b +64 mb_size c) b);;
         by_status target_status (free_erase next_buf) (eager_erase next_buf);;
         delete_buf next_buf)
  end.

Definition Free (mem_buf : ptr) (target_status : MemBufStatus) : MA bool :=
  b ← load mem_buf;
  if negb (EventBase.IsEventNotUsed (mb_events b)) then
    update mem_buf (set_status kMemBufUsedByEvent);; mret false
  else
    update mem_buf (set_status target_status);;
    FreeMergePrev mem_buf target_status;;
    FreeMergeNext mem_buf target_status;;
    by_status target_status (free_emplace mem_buf) (eager_emplace mem_buf);;
    mret true.

Definition FreeIdleMemsByEagerFree : MA (Z * Z) :=
  a ← gets a_al;
  (* Free all idle mem bufs. *)
  eager_free_size ← forM (free_mem_bufs_ a) (λ eager_free_size mem_buf,
    b ← load mem_buf;
    Free mem_buf kMemBufEagerFree;;
    mret (eager_free_size +64 mb_size b)) 0;
  put_al (set_free []);;
  (* Do eager free on eager free mem bufs. *)
  a ← gets a_al;
  real_free_size ← forM (eager_free_mem_bufs_ a) (λ real_free_size mem_buf,
    b ← load mem_buf;
    n ← with_env (mem_eager_freer_ cb (mb_addr b) (mb_size b));
    mret (real_free_size +64 n)) 0;
  mret (eager_free_size, real_free_size).

(** [for (auto x : l) delete x;] *)
Definition delete_bufs (l : list ptr) : MA unit := forM l (λ _ p, delete_buf p) ().
Definition delete_blks (l : list ptr) : MA unit := forM l (λ _ k, delete_blk k) ().

Definition dtor : MA unit :=
  a ← gets a_al;
  delete_blks (mem_blocks_ a);;
  put_al (set_mem_blocks []);;
  delete_bufs (free_mem_bufs_ a);;
  put_al (set_free []);;
  delete_bufs (eager_free_mem_bufs_ a);;
  put_al (set_eager []).

Definition ReleaseDeviceRes : MA unit :=
  a ← gets a_al;
  forM (mem_blocks_ a) (λ _ k, with_mem_env (mem_block_cleaner_ cb k);; mret ()) ();;
  delete_blks (mem_blocks_ a);;
  put_al (set_mem_blocks []);;
  delete_bufs (free_mem_bufs_ a);;
  put_al (set_free []);;
  delete_bufs (eager_free_mem_bufs_ a);;
  put_al (set_eager []).

(** [MemBufAllocator::ActualPeakSize]: the sum over the blocks. *)
Definition AllocatorActualPeakSize : MA Z :=
  a ← gets a_al;
  forM (mem_blocks_ a) (λ peak_size k, b ← load_blk k; mret (peak_size +64 ActualPeakSize b)) 0.

(** The figures [DumpStateInfo] prints: (blocks, free, eager free, in use). *)
Definition DumpStateInfo : MA (Z * Z * Z * Z) :=
  a ← gets a_al;
  mem_block_size ← forM (mem_blocks_ a) (λ n k, b ← load_blk k; mret (n +64 blk_size b)) 0;
  free_size ← forM (free_mem_bufs_ a) (λ n p, b ← load p; mret (mb_size b +64 n)) 0;
  eager_free_size ← forM (eager_free_mem_bufs_ a) (λ n p, b ← load p; mret (mb_size b +64 n)) 0;
  mret (mem_block_size, free_size, eager_free_size,
        mem_block_size -64 free_size -64 eager_free_size).
End ops.
End MemBufAllocator.
