(* ===== verification/AllocInvariant.v ===== *)
(** * Invariant of the store and of an allocator

    A store is split into its geometry [segs] (ranges and links) and its labels
    [labels] (everything but the links). [mem_ok] is the invariant of the store;
    [alloc_ok] says that the two ordered sets of an allocator hold exactly the
    free buffers of its blocks. Both are indexed by a buffer under construction,
    which is exempt from the free lists and from coalescing. *)

From S2P Require Import Prelude EventBase MemBufHeap MemGeometry MemBufSet MemBufAllocator.

Definition strip (b : MemBuf) : MemBuf := set_prev None (set_next None b).
Definition segs (m : gmap ptr MemBuf) : gmap ptr Seg := seg_of <$> m.
Definition labels (m : gmap ptr MemBuf) : gmap ptr MemBuf := strip <$> m.

Definition is_free (s : MemBufStatus) : bool :=
  match s with kMemBufIdle | kMemBufEagerFree => true | _ => false end.

(** The buffers handed out, without their links. *)
Definition inuse (m : gmap ptr MemBuf) : gmap ptr MemBuf :=
  omap (λ b, if is_free (mb_status b) then None else Some b) (labels m).

(** No two neighbours are free in the same way. *)
Definition coalesced (x : option ptr) (m : gmap ptr MemBuf) : Prop :=
  ∀ p b q c, m !! p = Some b → mb_next b = Some q → m !! q = Some c →
    x ≠ Some p → x ≠ Some q → mb_status b = mb_status c → is_free (mb_status b) = false.

Record mem_ok (x : option ptr) (h : Mem) : Prop := {
  mo_segs : segs_ok (segs (bufs h)) (blks h);
  mo_blks : blks_ok (blks h);
  mo_bufs_fresh : ∀ p b, bufs h !! p = Some b → (p < fresh_ptr h)%positive;
  mo_blks_fresh : ∀ p b, blks h !! p = Some b → (p < fresh_ptr h)%positive;
  mo_events : ∀ p b, bufs h !! p = Some b → is_free (mb_status b) = true →
    EventBase.IsEventNotUsed (mb_events b) = true;
  mo_coalesced : coalesced x (bufs h)
}.

Record set_ok (x : option ptr) (m : gmap ptr MemBuf) (st : MemBufStatus) (ks l : list ptr)
    : Prop := {
  se_sorted : set_sorted m l;
  se_members : ∀ p, p ∈ l ↔ x ≠ Some p ∧
    ∃ b, m !! p = Some b ∧ mb_status b = st ∧ mb_mem_block b ∈ ks
}.

Record alloc_ok (x : option ptr) (h : Mem) (a : Allocator) : Prop := {
  ao_nodup : NoDup (mem_blocks_ a);
  ao_blks : ∀ k, k ∈ mem_blocks_ a → is_Some (blks h !! k);
  ao_idle : set_ok x (bufs h) kMemBufIdle (mem_blocks_ a) (free_mem_bufs_ a);
  ao_eager : set_ok x (bufs h) kMemBufEagerFree (mem_blocks_ a) (eager_free_mem_bufs_ a);
  ao_key : mb_addr (search_key_ a) = 0
}.

(** Everything outside the blocks [ks] is the same. *)
Definition foreign_eq (ks : list ptr) (m m' : gmap ptr MemBuf) : Prop :=
  ∀ p b, mb_mem_block b ∉ ks → m !! p = Some b ↔ m' !! p = Some b.

Lemma lookup_segs m p : segs m !! p = seg_of <$> m !! p.
Proof. apply lookup_fmap. Qed.

Lemma lookup_labels m p : labels m !! p = strip <$> m !! p.
Proof. apply lookup_fmap. Qed.

Lemma lookup_inuse m p :
  inuse m !! p = m !! p ≫= λ b, if is_free (mb_status b) then None else Some (strip b).
Proof. unfold inuse. rewrite lookup_omap, lookup_labels. by destruct (m !! p). Qed.

Lemma lookup_inuse_Some m p b :
  inuse m !! p = Some b ↔ ∃ c, m !! p = Some c ∧ is_free (mb_status c) = false ∧ b = strip c.
Proof.
  rewrite lookup_inuse. destruct (m !! p) as [c|]; simpl; [|naive_solver].
  destruct (is_free (mb_status c)) eqn:Hf; split.
  - done.
  - intros (d & [= <-] & Hd & _). congruence.
  - intros [= <-]. eauto.
  - by intros (d & [= <-] & _ & ->).
Qed.

Lemma segs_Some m p b : m !! p = Some b → segs m !! p = Some (seg_of b).
Proof. intros Hp. by rewrite lookup_segs, Hp. Qed.

Lemma segs_inv m p s : segs m !! p = Some s → ∃ b, m !! p = Some b ∧ s = seg_of b.
Proof. rewrite lookup_segs. intros (b & ? & ->)%fmap_Some. eauto. Qed.

(** The links and the labels determine the store. *)
Lemma store_ext m m' x :
  segs m !! x = segs m' !! x → labels m !! x = labels m' !! x → m !! x = m' !! x.
Proof.
  rewrite !lookup_segs, !lookup_labels.
  destruct (m !! x) as [[]|], (m' !! x) as [[]|]; try done. simpl.
  unfold seg_of, strip, set_prev, set_next; simpl. intros ??. by simplify_eq.
Qed.

Lemma labels_inv m m' x b : labels m !! x = labels m' !! x → m !! x = Some b →
  ∃ c, m' !! x = Some c ∧ strip c = strip b.
Proof.
  rewrite !lookup_labels. intros Hl Hx. rewrite Hx in Hl. symmetry in Hl.
  apply fmap_Some in Hl as (c & ? & ?). eauto.
Qed.

Lemma labels_lookup_inv m p b : labels m !! p = Some b → ∃ c, m !! p = Some c ∧ b = strip c.
Proof. rewrite lookup_labels. intros (c & ? & ->)%fmap_Some. eauto. Qed.

Lemma strip_fields b c : strip b = strip c →
  mb_size b = mb_size c ∧ mb_addr b = mb_addr c ∧ mb_stream_id b = mb_stream_id c ∧
  mb_mem_block b = mb_mem_block c ∧ mb_status b = mb_status c ∧ mb_events b = mb_events c.
Proof. destruct b, c. unfold strip, set_prev, set_next; simpl. intros H. injection H as -> -> -> -> -> -> -> ->. done. Qed.

(** [set_sorted] and [set_ok] only read labels. *)
Lemma set_sorted_labels m m' l : labels m = labels m' → set_sorted m l → set_sorted m' l.
Proof.
  intros Hl. apply set_sorted_keys. intros x b _ Hx.
  destruct (labels_inv m m' x b) as (c & Hc & Hs); [by rewrite Hl|done|].
  exists c. apply strip_fields in Hs. naive_solver.
Qed.

(** ... and only those of its members. *)
Lemma set_sorted_except m m' p l :
  (∀ y, y ≠ p → labels m !! y = labels m' !! y) → p ∉ l → set_sorted m l → set_sorted m' l.
Proof.
  intros Hl Hp. apply set_sorted_keys. intros x b Hx Hb.
  destruct (labels_inv m m' x b) as (c & Hc & Hs); [apply Hl; congruence|done|].
  exists c. apply strip_fields in Hs. naive_solver.
Qed.

Lemma set_ok_labels x m m' st ks l : labels m = labels m' → set_ok x m st ks l → set_ok x m' st ks l.
Proof.
  intros Hl [Hs Hm]. split; [by eapply set_sorted_labels|]. intros p. rewrite Hm.
  assert (∀ m m', labels m = labels m' → 
    (∃ b, m !! p = Some b ∧ mb_status b = st ∧ mb_mem_block b ∈ ks) →
    ∃ b, m' !! p = Some b ∧ mb_status b = st ∧ mb_mem_block b ∈ ks) as Himp.
  { intros n n' Hn (b & Hb & Hst & Hk).
    destruct (labels_inv n n' p b) as (c & Hc & Hsc); [by rewrite Hn|done|].
    exists c. apply strip_fields in Hsc as (_ & _ & _ & -> & -> & _). done. }
  split; intros [? ?]; split; eauto.
Qed.

Lemma inuse_labels m m' : labels m = labels m' → inuse m = inuse m'.
Proof. unfold inuse. by intros ->. Qed.

Section set_ok_steps.
Context (m : gmap ptr MemBuf) (st : MemBufStatus) (ks l : list ptr) (p : ptr).

(** The exempted buffer may change freely. *)
Lemma set_ok_insert_x b : set_ok (Some p) m st ks l → set_ok (Some p) (<[p := b]> m) st ks l.
Proof.
  intros [Hs Hm]. assert (∀ y, y ∈ l → y ≠ p) as Hne by (intros y Hy%Hm; naive_solver).
  split.
  - eapply set_sorted_keys; [|done]. intros y c Hy Hc. exists c.
    rewrite lookup_insert_ne; [done|]. symmetry. auto.
  - intros y. rewrite Hm. split; intros [Hy H]; (split; [done|]);
      rewrite lookup_insert_ne in *; naive_solver.
Qed.

(** Exempting a buffer that is not in the set. *)
Lemma set_ok_exempt x : p ∉ l → set_ok x m st ks l → x = None → set_ok (Some p) m st ks l.
Proof.
  intros Hp [Hs Hm] ->. split; [done|]. intros y. rewrite Hm. split; [|naive_solver].
  intros [? ?]. split; [|done]. intros [= <-]. apply Hp, Hm. done.
Qed.

(** Deleting a buffer that leaves the set at the same time. *)
Lemma set_ok_delete q l' :
  set_ok (Some p) m st ks l → set_sorted m l' → (∀ y, y ∈ l' ↔ y ≠ q ∧ y ∈ l) →
  set_ok (Some p) (delete q m) st ks l'.
Proof.
  intros [Hs Hm] Hs' Hl'. split.
  - eapply set_sorted_keys; [|done]. intros y c Hy Hc. exists c.
    rewrite lookup_delete_ne; [done|]. apply Hl' in Hy. naive_solver.
  - intros y. rewrite Hl', Hm. destruct (decide (y = q)) as [->|].
    + rewrite lookup_delete_eq. naive_solver.
    + rewrite lookup_delete_ne by done. naive_solver.
Qed.

Lemma set_ok_delete_other q c :
  set_ok (Some p) m st ks l → m !! q = Some c → mb_status c ≠ st →
  set_ok (Some p) (delete q m) st ks l.
Proof.
  intros Hok Hq Hst. apply set_ok_delete; [done|apply Hok|].
  intros y. split; [|naive_solver]. intros Hy. split; [|done]. intros ->.
  apply (se_members _ _ _ _ _ Hok) in Hy. naive_solver.
Qed.

(** The buffer under construction joins the set, or belongs to another one. *)
Lemma set_ok_join b l' :
  set_ok (Some p) m st ks l → m !! p = Some b → mb_status b = st → mb_mem_block b ∈ ks →
  set_sorted m l' → (∀ y, y ∈ l' ↔ y = p ∨ y ∈ l) → set_ok None m st ks l'.
Proof.
  intros [Hs Hm] Hp Hst Hk Hs' Hl'. split; [done|]. intros y. rewrite Hl', Hm.
  destruct (decide (y = p)) as [->|]; naive_solver.
Qed.

Lemma set_ok_release b :
  set_ok (Some p) m st ks l → m !! p = Some b → mb_status b ≠ st → set_ok None m st ks l.
Proof.
  intros [Hs Hm] Hp Hst. split; [done|]. intros y. rewrite Hm. naive_solver.
Qed.

Lemma set_ok_foreign (m' : gmap ptr MemBuf) x :
  (∀ y b, mb_mem_block b ∈ ks → m !! y = Some b ↔ m' !! y = Some b) →
  set_ok x m st ks l → set_ok x m' st ks l.
Proof.
  intros Heq [Hs Hm]. split.
  - eapply set_sorted_keys; [|done]. intros y b (_ & c & Hc & _ & Hk)%Hm Hb. simplify_eq.
    exists c. naive_solver.
  - intros y. rewrite Hm. naive_solver.
Qed.
End set_ok_steps.

(** Two live buffers have different addresses. *)
Lemma addr_inj m B p q b c :
  segs_ok (segs m) B → m !! p = Some b → m !! q = Some c → p ≠ q → mb_addr b ≠ mb_addr c.
Proof.
  intros Hok Hp Hq Hne He. apply Hne. eapply (seg_same _ _ Hok p q); eauto using segs_Some.
  - pose proof (seg_pos _ _ Hok _ _ (segs_Some _ _ _ Hq)).
    unfold sg_end in *; simpl in *. lia.
  - pose proof (seg_pos _ _ Hok _ _ (segs_Some _ _ _ Hp)).
    unfold sg_end in *; simpl in *. lia.
Qed.

(** Sizes and addresses fit in a word. *)
Lemma buf_range h x p b : mem_ok x h → bufs h !! p = Some b →
  0 < mb_size b < w64 ∧ 0 <= mb_addr b ∧ mb_end b <= w64 ∧
  ∃ k, blks h !! mb_mem_block b = Some k ∧ mb_stream_id b = blk_stream_id k.
Proof.
  intros Hok Hp. destruct (so_in _ _ (mo_segs _ _ Hok) _ _ (segs_Some _ _ _ Hp))
    as (Hs & k & Hk & Hlo & Hhi & Hst).
  destruct (bk_range _ (mo_blks _ _ Hok) _ _ Hk) as (? & ? & ?).
  unfold mb_end, sg_end in *. simpl in *. split_and!; try lia. eauto.
Qed.

(** Neighbours belong to one block, so their sizes add up without overflow. *)
Lemma buf_neighbours h x p q b c : mem_ok x h → bufs h !! p = Some b → bufs h !! q = Some c →
  mb_next b = Some q →
  mb_mem_block c = mb_mem_block b ∧ mb_stream_id c = mb_stream_id b ∧ mb_prev c = Some p ∧
  mb_end b = mb_addr c ∧ mb_size b +64 mb_size c = mb_size b + mb_size c ∧
  mb_size c +64 mb_size b = mb_size b + mb_size c.
Proof.
  intros Hok Hp Hq Hn. pose proof (mo_segs _ _ Hok) as Hs.
  destruct (seg_next _ _ Hs _ _ _ (segs_Some _ _ _ Hp) Hn) as (s & Hsq & Hpv & Hk & He & _).
  rewrite (segs_Some _ _ _ Hq) in Hsq. injection Hsq as <-. simpl in *.
  destruct (so_in _ _ Hs _ _ (segs_Some _ _ _ Hp)) as (Hs1 & k & Hk1 & ? & ? & ?).
  destruct (so_in _ _ Hs _ _ (segs_Some _ _ _ Hq)) as (Hs2 & k2 & Hk2 & ? & ? & ?).
  destruct (bk_range _ (mo_blks _ _ Hok) _ _ Hk1) as (? & ? & ?).
  simpl in *. rewrite Hk in Hk2. simplify_eq. unfold mb_end, sg_end in *; simpl in *.
  split_and!; try done; [congruence|apply u64_small; lia|].
  rewrite u64_small; lia.
Qed.

Lemma foreign_eq_refl ks m : foreign_eq ks m m.
Proof. done. Qed.

Lemma foreign_eq_trans ks m1 m2 m3 :
  foreign_eq ks m1 m2 → foreign_eq ks m2 m3 → foreign_eq ks m1 m3.
Proof. intros H1 H2 p b Hk. by rewrite (H1 p b Hk), (H2 p b Hk). Qed.

Lemma foreign_eq_mono ks ks' m m' : ks ⊆ ks' → foreign_eq ks m m' → foreign_eq ks' m m'.
Proof. intros Hsub H p b Hk. apply H. set_solver. Qed.

Lemma mem_ok_empty x n : mem_ok x (MkMem ∅ ∅ n).
Proof.
  split; simpl; [split|split|..]; unfold segs; rewrite ?fmap_empty; try done.
Qed.
Lemma alloc_ok_empty x h ee ip st : bufs h = ∅ → alloc_ok x h (new_Allocator ee ip st).
Proof.
  intros Hh. split; simpl; rewrite ?Hh; try done; [constructor|set_solver|..].
  - split; [apply set_sorted_nil|]. intros p. split; [set_solver|]. intros (_ & b & Hb & _). done.
  - split; [apply set_sorted_nil|]. intros p. split; [set_solver|]. intros (_ & b & Hb & _). done.
Qed.

(** Buffers in use never overlap. *)
Lemma inuse_disjoint x h p q b c :
  mem_ok x h → inuse (bufs h) !! p = Some b → inuse (bufs h) !! q = Some c → p ≠ q →
  disjoint_range (mb_addr b) (mb_size b) (mb_addr c) (mb_size c).
Proof.
  intros Hok (b' & Hp & _ & ->)%lookup_inuse_Some (c' & Hq & _ & ->)%lookup_inuse_Some Hne.
  exact (so_disj _ _ (mo_segs _ _ Hok) _ _ _ _ Hne (segs_Some _ _ _ Hp) (segs_Some _ _ _ Hq)).
Qed.

(** The links are complete: the buffer that starts where [b] ends is its [next]. *)
Lemma adjacent_next m B x y b c :
  segs_ok (segs m) B → m !! x = Some b → m !! y = Some c →
  mb_end b = mb_addr c → mb_mem_block b = mb_mem_block c → mb_next b = Some y.
Proof.
  intros Hok Hx Hy He Hk. pose proof (segs_Some _ _ _ Hx) as Hsx.
  pose proof (segs_Some _ _ _ Hy) as Hsy. pose proof (seg_pos _ _ Hok _ _ Hsy) as Hpos.
  pose proof (so_next _ _ Hok _ _ Hsx) as Hn. unfold next_ok in Hn. simpl in Hn.
  destruct (mb_next b) as [q|].
  - destruct Hn as (s & Hq & _ & _ & Heq). f_equal. apply (seg_same _ _ Hok q y s (seg_of c)); try done.
    + pose proof (seg_pos _ _ Hok _ _ Hq). unfold mb_end, sg_end in *; simpl in *. lia.
    + pose proof (seg_pos _ _ Hok _ _ Hq). unfold mb_end, sg_end in *; simpl in *. lia.
  - exfalso. destruct (so_in _ _ Hok _ _ Hsy) as (_ & k & Hbk & _ & Hhi & _). simpl in Hbk.
    rewrite <- Hk in Hbk. specialize (Hn k Hbk). unfold mb_end, sg_end in *; simpl in *. lia.
Qed.
