(* ===== verification/AllocSteps.v ===== *)
(** * Merging and splitting, on the store

    The effect of the pointer updates of [Free] and [MapAndSplitMemBuf] on the
    store as a whole: which segments and labels result, and that the invariant of
    the store is kept. *)

From S2P Require Import Prelude EventBase MemBufHeap MemGeometry MemBufSet MemBufAllocator AllocInvariant.

Lemma labels_alter_opt o f m :
  (∀ b, strip (f b) = strip b) → labels (alter_opt o f m) = labels m.
Proof.
  intros Hf. apply map_eq. intros x. rewrite !lookup_labels, lookup_alter_opt.
  case_decide; [|done]. destruct (m !! x); simpl; by rewrite ?Hf.
Qed.

Lemma labels_insert p b m : labels (<[p := b]> m) = <[p := strip b]> (labels m).
Proof. apply fmap_insert. Qed.

Lemma labels_delete p m : labels (delete p m) = delete p (labels m).
Proof. apply fmap_delete. Qed.

Lemma is_free_status b c : strip b = strip c → is_free (mb_status b) = is_free (mb_status c).
Proof. intros H%strip_fields. by destruct H as (_ & _ & _ & _ & -> & _). Qed.

(** ** Merging the neighbours [p] (kept) and [q] (deleted) *)
Section merged.
Context (h : Mem) (m' : gmap ptr MemBuf) (p q : ptr) (b c nb : MemBuf).
Context (pl ph : ptr) (lo hi : MemBuf) (t : MemBufStatus).
Context (Hok : mem_ok (Some p) h).
Context (Hp : bufs h !! p = Some b) (Hq : bufs h !! q = Some c).
Context (Ht : is_free t = true) (Htb : mb_status b = t) (Htc : mb_status c = t).
Context (Hlo : bufs h !! pl = Some lo) (Hhi : bufs h !! ph = Some hi).
Context (Hn : mb_next lo = Some ph) (Hkd : p = pl ∧ q = ph ∨ p = ph ∧ q = pl).
Context (Hsegs : segs m' = gmerge p q (seg_of lo) (seg_of hi) (segs (bufs h))).
Context (Hlabels : labels m' = <[p := strip nb]> (delete q (labels (bufs h)))).
Context (Htn : mb_status nb = t) (Hen : mb_events nb = mb_events b).
Context (Hbn : mb_mem_block nb = mb_mem_block b).

Let Hsok := mo_segs _ _ Hok.
Let Hslo : segs (bufs h) !! pl = Some (seg_of lo) := segs_Some _ _ _ Hlo.
Let Hshi : segs (bufs h) !! ph = Some (seg_of hi) := segs_Some _ _ _ Hhi.

Lemma merged_ne : p ≠ q.
Proof.
  destruct (gmerge_facts _ _ Hsok _ _ _ _ Hslo Hshi Hn) as [Hne _].
  by destruct Hkd as [[-> ->]|[-> ->]].
Qed.

Lemma merged_lookup x d : m' !! x = Some d →
  (x = p ∧ strip d = strip nb) ∨
  (x ≠ p ∧ x ≠ q ∧ ∃ d', bufs h !! x = Some d' ∧ strip d = strip d' ∧
     (mb_next d = mb_next d' ∨ mb_next d = Some p)).
Proof.
  intros Hx. assert (labels m' !! x = Some (strip d)) as Hl by (by rewrite lookup_labels, Hx).
  rewrite Hlabels, lookup_insert, lookup_delete, lookup_labels in Hl.
  case_decide as Hxp; [left; split; congruence|right].
  case_decide as Hxq; [done|].
  apply fmap_Some in Hl as (d' & Hd' & Hdd). split_and!; [done..|].
  exists d'. split_and!; [done..|].
  pose proof (segs_Some _ _ _ Hx) as Hs. rewrite Hsegs in Hs.
  destruct (gmerge_lookup _ pl ph _ _ p q Hkd _ _ Hs)
    as [[-> _]|(_ & _ & s & Hsx & Heq)]; [done|].
  rewrite (segs_Some _ _ _ Hd') in Hsx. simplify_eq.
  apply (f_equal sg_next) in Heq. simpl in Heq. case_decide; auto.
Qed.

Lemma merged_mem_ok : mem_ok (Some p) (with_bufs m' h).
Proof.
  pose proof Hok as [_ Hb Hf Hbf He Hc]. split; simpl; try done.
  - rewrite Hsegs. by eapply (gmerge_ok _ _ Hsok pl ph).
  - intros x d [[-> _]|(_ & _ & d' & ? & _)]%merged_lookup; eauto.
  - intros x d Hx Hfree. destruct (merged_lookup _ _ Hx) as [[-> Hd]|(_ & _ & d' & Hd' & Hd & _)].
    + apply strip_fields in Hd as (_ & _ & _ & _ & Hs & ->). rewrite Hen.
      apply (He p); [done|]. congruence.
    + pose proof (is_free_status _ _ Hd). apply strip_fields in Hd as (_ & _ & _ & _ & _ & ->).
      apply (He x); [done|congruence].
  - intros x d y e Hx Hnx Hy Hpx Hpy Hst.
    destruct (merged_lookup _ _ Hx) as [[-> Hd]|(_ & _ & d' & Hd' & Hd & Hdn)]; [done|].
    destruct (merged_lookup _ _ Hy) as [[-> He']|(_ & _ & e' & He' & Hde & _)]; [done|].
    destruct Hdn as [Hdn|Hdn]; [|congruence].
    rewrite (is_free_status _ _ Hd). apply (Hc x d' y e'); try done; [congruence|].
    apply strip_fields in Hd as (_ & _ & _ & _ & <- & _).
    by apply strip_fields in Hde as (_ & _ & _ & _ & <- & _).
Qed.

Lemma merged_inuse : inuse m' = inuse (bufs h).
Proof.
  unfold inuse. rewrite Hlabels. apply map_eq. intros x.
  rewrite !lookup_omap, lookup_insert, lookup_delete, lookup_labels.
  case_decide as Hxp; [|case_decide as Hxq; [|done]].
  - rewrite <- Hxp, Hp. simpl. by rewrite Htn, Htb, Ht.
  - rewrite <- Hxq, Hq. simpl. by rewrite Htc, Ht.
Qed.

Lemma merged_foreign : foreign_eq [mb_mem_block b] (bufs h) m'.
Proof.
  destruct (gmerge_facts _ _ Hsok _ _ _ _ Hslo Hshi Hn) as (_ & _ & Hblk & _).
  simpl in Hblk. assert (mb_mem_block lo = mb_mem_block b ∧ mb_mem_block c = mb_mem_block b ∧
    mb_mem_block hi = mb_mem_block b) as (Hlb & Hcb & Hhb).
  { destruct Hkd as [[-> ->]|[-> ->]]; simplify_eq; auto. }
  assert (∀ x d, mb_mem_block d ∉ [mb_mem_block b] → bufs h !! x = Some d →
    m' !! x = bufs h !! x) as Hsame.
  { intros x d Hd Hx. assert (mb_mem_block d ≠ mb_mem_block b) as Hdb by set_solver.
    assert (x ≠ p) by (intros ->; congruence). assert (x ≠ q) by (intros ->; congruence).
    apply store_ext.
    - rewrite Hsegs. rewrite (gmerge_lookup_other _ pl ph _ _ p q Hkd) by (by destruct Hkd as [[-> ->]|[-> ->]]).
      rewrite (segs_Some _ _ _ Hx). simpl. f_equal. unfold relink.
      rewrite !decide_False; [done| |]; simpl; intros Hl.
      + destruct (seg_prev _ _ Hsok _ _ _ Hslo Hl) as (e & He & _ & Hbe & _).
        rewrite (segs_Some _ _ _ Hx) in He. simplify_eq/=. congruence.
      + destruct (seg_next _ _ Hsok _ _ _ Hshi Hl) as (e & He & _ & Hbe & _).
        rewrite (segs_Some _ _ _ Hx) in He. simplify_eq/=. congruence.
    - by rewrite Hlabels, lookup_insert_ne, lookup_delete_ne. }
  intros x d Hd. split; intros Hx.
  - by rewrite (Hsame x d).
  - destruct (merged_lookup _ _ Hx) as [[-> Hdn]|(_ & _ & d' & Hd' & Hdd & _)].
    + apply strip_fields in Hdn as (_ & _ & _ & Hdn & _).
      destruct Hd. rewrite Hdn, Hbn. apply elem_of_cons. by left.
    + assert (mb_mem_block d' = mb_mem_block d) as Hbd
        by (by apply strip_fields in Hdd as (_ & _ & _ & <- & _)).
      rewrite <- (Hsame x d'); [done|by rewrite Hbd|done].
Qed.
End merged.

Lemma mem_ok_weaken x h : mem_ok None h → mem_ok x h.
Proof. intros []; split; try done. intros p b q c ??? _ _. eauto. Qed.

(** A buffer whose neighbours are not free in the same way needs no exemption. *)
Lemma mem_ok_close p b h :
  mem_ok (Some p) h → bufs h !! p = Some b →
  (∀ q c, mb_prev b = Some q → bufs h !! q = Some c → mb_status c ≠ mb_status b) →
  (∀ q c, mb_next b = Some q → bufs h !! q = Some c → mb_status c ≠ mb_status b) →
  mem_ok None h.
Proof.
  intros Hok Hp Hprev Hnext. pose proof Hok as [Hs Hb Hf Hbf He Hc]. split; try done.
  intros x d y e Hx Hn Hy _ _ Hst.
  destruct (decide (x = p)) as [->|Hxp].
  { simplify_eq. by destruct (Hnext y e). }
  destruct (decide (y = p)) as [->|Hyp].
  { simplify_eq. destruct (Hprev x d); [|done..].
    destruct (seg_next _ _ Hs _ _ _ (segs_Some _ _ _ Hx) Hn) as (s & Hsy & Hpv & _).
    rewrite (segs_Some _ _ _ Hp) in Hsy. by simplify_eq. }
  apply (Hc x d y e); try done; congruence.
Qed.

(** ** Changing what a buffer holds, not where it is *)
Section relabel.
Context (x : option ptr) (h : Mem) (m' : gmap ptr MemBuf) (p : ptr) (b nb : MemBuf).
Context (Hok : mem_ok x h) (Hp : bufs h !! p = Some b).
Context (Hsegs : segs m' = segs (bufs h)).
Context (Hlabels : labels m' = <[p := strip nb]> (labels (bufs h))).

Lemma relabel_lookup y d : m' !! y = Some d →
  (y = p ∧ strip d = strip nb) ∨
  (y ≠ p ∧ ∃ d', bufs h !! y = Some d' ∧ strip d = strip d').
Proof.
  intros Hy. assert (labels m' !! y = Some (strip d)) as Hl by (by rewrite lookup_labels, Hy).
  rewrite Hlabels, lookup_insert in Hl. case_decide; [left; split; congruence|right].
  apply labels_lookup_inv in Hl as (d' & ? & ?). eauto.
Qed.

Lemma relabel_mem_ok :
  (is_free (mb_status nb) = true → EventBase.IsEventNotUsed (mb_events nb) = true) →
  x = Some p ∨ is_free (mb_status nb) = false →
  mem_ok x (with_bufs m' h).
Proof.
  intros Hev Hx. pose proof Hok as [Hs Hb Hf Hbf He Hc]. split; simpl; try done.
  - by rewrite Hsegs.
  - intros y d [[-> _]|(_ & d' & ? & _)]%relabel_lookup; eauto.
  - intros y d Hy Hfree. destruct (relabel_lookup _ _ Hy) as [[-> Hd]|(_ & d' & Hd' & Hd)].
    + apply strip_fields in Hd as (_ & _ & _ & _ & Hst & ->). apply Hev. congruence.
    + apply strip_fields in Hd as (_ & _ & _ & _ & Hst & ->). apply (He y d'); congruence.
  - intros y d z e Hy Hn Hz Hxy Hxz Hst.
    destruct (relabel_lookup _ _ Hy) as [[-> Hd]|(Hyp & d' & Hd' & Hd)].
    { rewrite (is_free_status _ _ Hd). by destruct Hx. }
    destruct (relabel_lookup _ _ Hz) as [[-> He']|(Hzp & e' & He' & Hde)].
    { rewrite Hst, (is_free_status _ _ He'). by destruct Hx. }
    rewrite (is_free_status _ _ Hd). apply (Hc y d' z e'); try done.
    + assert (segs m' !! y = segs (bufs h) !! y) as Hsy by (by rewrite Hsegs).
      rewrite (segs_Some _ _ _ Hy), (segs_Some _ _ _ Hd') in Hsy.
      apply (f_equal (fmap sg_next)) in Hsy. simpl in Hsy. congruence.
    + apply strip_fields in Hd as (_ & _ & _ & _ & <- & _).
      by apply strip_fields in Hde as (_ & _ & _ & _ & <- & _).
Qed.

Lemma relabel_foreign : foreign_eq [mb_mem_block b] (bufs h) m'.
Proof.
  assert (∀ y d, mb_mem_block d ∉ [mb_mem_block b] → bufs h !! y = Some d ∨ m' !! y = Some d →
    m' !! y = bufs h !! y) as Hsame.
  { intros y d Hd Hy. destruct (decide (y = p)) as [->|Hne].
    - destruct Hd. apply elem_of_cons. left. destruct Hy as [Hy|Hy]; [congruence|].
      pose proof (segs_Some _ _ _ Hy) as Hs. rewrite Hsegs, (segs_Some _ _ _ Hp) in Hs.
      apply (f_equal (fmap sg_blk)) in Hs. simpl in Hs. congruence.
    - apply store_ext; [by rewrite Hsegs|]. by rewrite Hlabels, lookup_insert_ne. }
  intros y d Hd. split; intros Hy; (rewrite (Hsame y d) || rewrite <- (Hsame y d)); eauto.
Qed.

Lemma relabel_inuse : is_free (mb_status nb) = false →
  inuse m' = <[p := strip nb]> (inuse (bufs h)).
Proof.
  intros Hf. apply map_eq. intros y. unfold inuse.
  rewrite Hlabels, lookup_insert, !lookup_omap, lookup_insert.
  case_decide; simpl; [by rewrite Hf|done].
Qed.

Lemma relabel_inuse_free : is_free (mb_status nb) = true →
  inuse m' = delete p (inuse (bufs h)).
Proof.
  intros Hf. apply map_eq. intros y. unfold inuse.
  rewrite Hlabels, lookup_delete, !lookup_omap, lookup_insert.
  case_decide; simpl; [by rewrite Hf|done].
Qed.
End relabel.

(** ** Cutting the free buffer [p] in two: [p] is used, the rest stays free *)
Section split_store.
Context (h : Mem) (m' : gmap ptr MemBuf) (p q : ptr) (b nb nq : MemBuf) (sz : Z) (n : ptr).
Context (Hok : mem_ok None h) (Hp : bufs h !! p = Some b) (Hq : bufs h !! q = None).
Context (Hsz : 0 < sz < mb_size b).
Context (Hsegs : segs m' = gsplit p q sz (seg_of b) (segs (bufs h))).
Context (Hlabels : labels m' = <[p := strip nb]> (<[q := strip nq]> (labels (bufs h)))).
Context (Hnb : is_free (mb_status nb) = false) (Hnq : mb_status nq = mb_status b).
Context (Heq : EventBase.IsEventNotUsed (mb_events nq) = true).
Context (Hfr : (fresh_ptr h ≤ n)%positive) (Hqn : (q < n)%positive).

Let Hsok := mo_segs _ _ Hok.
Let Hsp : segs (bufs h) !! p = Some (seg_of b) := segs_Some _ _ _ Hp.
Lemma split_segs_q : segs (bufs h) !! q = None.
Proof. by rewrite lookup_segs, Hq. Qed.

Lemma split_lookup x d : m' !! x = Some d →
  (x = p ∧ strip d = strip nb) ∨ (x = q ∧ strip d = strip nq ∧ mb_next d = mb_next b) ∨
  (x ≠ p ∧ x ≠ q ∧ ∃ d', bufs h !! x = Some d' ∧ strip d = strip d' ∧ mb_next d = mb_next d').
Proof.
  intros Hx. assert (labels m' !! x = Some (strip d)) as Hl by (by rewrite lookup_labels, Hx).
  rewrite Hlabels, !lookup_insert in Hl.
  case_decide as Hxp; [left; split; congruence|right].
  pose proof (segs_Some _ _ _ Hx) as Hs. rewrite Hsegs in Hs.
  destruct (gsplit_lookup _ p q sz _ _ _ Hs) as [[-> _]|[[-> Hd]|(_ & Hxq & s & Hsx & Heqs)]];
    [done| |].
  - left. rewrite decide_True in Hl by done. apply (f_equal sg_next) in Hd.
    split_and!; [done|congruence|done].
  - right. rewrite decide_False in Hl by done. split_and!; [done..|].
    apply labels_lookup_inv in Hl as (d' & Hd' & ?). exists d'. split_and!; [done..|].
    rewrite (segs_Some _ _ _ Hd') in Hsx. simplify_eq.
    apply (f_equal sg_next) in Heqs. by case_decide.
Qed.

Lemma split_mem_ok : mem_ok None (MkMem m' (blks h) n).
Proof.
  pose proof Hok as [_ Hb Hf Hbf He Hc]. split; simpl; try done.
  - rewrite Hsegs. apply gsplit_ok; try done. apply split_segs_q.
  - intros x d [[-> _]|[[-> _]|(_ & _ & d' & Hd' & _)]]%split_lookup; [|done|].
    + pose proof (Hf _ _ Hp). lia.
    + pose proof (Hf _ _ Hd'). lia.
  - intros x d Hk. pose proof (Hbf _ _ Hk). lia.
  - intros x d Hx Hfree.
    destruct (split_lookup _ _ Hx) as [[-> Hd]|[(-> & Hd & _)|(_ & _ & d' & Hd' & Hd & _)]];
      pose proof (is_free_status _ _ Hd); apply strip_fields in Hd as (_ & _ & _ & _ & _ & ->).
    + congruence.
    + done.
    + apply (He x); [done|congruence].
  - intros x d y e Hx Hn Hy _ _ Hst.
    destruct (split_lookup _ _ Hy) as [[-> Hd]|[(-> & Hd & _)|(Hyp & Hyq & e' & He' & Hee & _)]].
    { rewrite Hst, (is_free_status _ _ Hd). done. }
    { destruct (split_lookup _ _ Hx) as [[-> Hdx]|[(-> & Hdx & Hnx)|(_ & _ & d' & Hd' & _ & Hnx)]].
      - by rewrite (is_free_status _ _ Hdx).
      - rewrite Hnx in Hn. destruct (seg_next _ _ Hsok _ _ _ Hsp Hn) as (s & Hsq & _).
        by rewrite split_segs_q in Hsq.
      - rewrite Hnx in Hn. destruct (seg_next _ _ Hsok _ _ _ (segs_Some _ _ _ Hd') Hn)
          as (s & Hsq & _). by rewrite split_segs_q in Hsq. }
    apply strip_fields in Hee as (_ & _ & _ & _ & Hse & _).
    destruct (split_lookup _ _ Hx) as [[-> Hdx]|[(-> & Hdx & Hnx)|(_ & _ & d' & Hd' & Hdx & Hnx)]].
    + by rewrite (is_free_status _ _ Hdx).
    + rewrite (is_free_status _ _ Hdx), Hnq.
      apply strip_fields in Hdx as (_ & _ & _ & _ & Hsd & _).
      apply (Hc p b y e'); try done; congruence.
    + rewrite (is_free_status _ _ Hdx). apply strip_fields in Hdx as (_ & _ & _ & _ & Hsd & _).
      apply (Hc x d' y e'); try done; congruence.
Qed.

Lemma split_inuse : is_free (mb_status b) = true →
  inuse m' = <[p := strip nb]> (inuse (bufs h)).
Proof.
  intros Hf. apply map_eq. intros y. unfold inuse.
  rewrite Hlabels, lookup_insert, !lookup_omap, !lookup_insert.
  case_decide as Hyp; simpl; [by rewrite Hnb|].
  case_decide as Hyq; simpl; [|done]. rewrite Hnq, Hf.
  by rewrite <- Hyq, lookup_labels, Hq.
Qed.

Lemma split_foreign : foreign_eq [mb_mem_block b] (bufs h) m'.
Proof.
  intros y d Hd. assert (mb_mem_block d ≠ mb_mem_block b) as Hdb by set_solver.
  assert (∀ z e, sg_next (seg_of b) = Some z → bufs h !! z = Some e →
    mb_mem_block e = mb_mem_block b) as Hnx.
  { intros z e Hn Hz. destruct (seg_next _ _ Hsok _ _ _ Hsp Hn) as (s & Hs & _ & Hbs & _).
    rewrite (segs_Some _ _ _ Hz) in Hs. by simplify_eq. }
  split; intros Hy.
  - assert (y ≠ p) by congruence. assert (y ≠ q) by congruence.
    rewrite <- Hy. apply store_ext.
    + rewrite Hsegs. unfold gsplit. rewrite !lookup_insert_ne, lookup_alter_opt by done.
      rewrite decide_False; [done|]. intros Hn. by destruct Hdb; eapply Hnx.
    + by rewrite Hlabels, !lookup_insert_ne.
  - pose proof (segs_Some _ _ _ Hy) as Hs. rewrite Hsegs in Hs.
    destruct (gsplit_lookup _ p q sz _ _ _ Hs) as [[-> Hd']|[[-> Hd']|(?&?& s & Hs' & Hd')]];
      apply (f_equal sg_blk) in Hd' as Hbk; simpl in Hbk; [done|done|].
    apply segs_inv in Hs' as (e & He & ->). rewrite <- Hy. symmetry. apply store_ext.
    + rewrite Hsegs. unfold gsplit. rewrite !lookup_insert_ne, lookup_alter_opt by done.
      rewrite decide_False; [done|]. intros Hn. destruct Hdb. rewrite Hbk, <- (Hnx y e) by done.
      by destruct (decide _).
    + by rewrite Hlabels, !lookup_insert_ne.
Qed.
End split_store.
