(* ===== verification/AllocFree.v ===== *)
(** * [MemBufAllocator::Free]

    Releasing a buffer: it merges with the free neighbours of its kind and joins
    their set. The proof follows the code: the buffer is "under construction"
    from the moment its status changes until it is in its set. *)

From S2P Require Import Prelude EventBase MemBufHeap MemGeometry MemBufSet MemBufAllocator AllocInvariant AllocSteps.

Definition list_of (t : MemBufStatus) (a : Allocator) : list ptr :=
  match t with kMemBufIdle => free_mem_bufs_ a | _ => eager_free_mem_bufs_ a end.
Definition set_list (t : MemBufStatus) (l : list ptr) (a : Allocator) : Allocator :=
  match t with kMemBufIdle => set_free l a | _ => set_eager l a end.

Definition other (t : MemBufStatus) : MemBufStatus :=
  match t with kMemBufIdle => kMemBufEagerFree | _ => kMemBufIdle end.

Lemma list_of_set_other t l a : is_free t = true → list_of t (set_list (other t) l a) = list_of t a.
Proof. by destruct t. Qed.
Lemma list_of_set t l a : is_free t = true → list_of t (set_list t l a) = l.
Proof. by destruct t. Qed.
Lemma list_of_other_set t l a :
  is_free t = true → list_of (other t) (set_list t l a) = list_of (other t) a.
Proof. by destruct t. Qed.
Lemma set_list_comm t l l' a : is_free t = true →
  set_list (other t) l (set_list t l' a) = set_list t l' (set_list (other t) l a).
Proof. by destruct t. Qed.
Lemma set_list_id t a : is_free t = true → set_list (other t) (list_of (other t) a) a = a.
Proof. by destruct t, a. Qed.

(** What an allocator never changes on its own: its settings. *)
Definition al_cfg (a : Allocator) : bool * Z * bool :=
  (enable_eager_free_ a, stream_id_ a, is_persistent_ a).

Section free.
Context {E : Type}.
Implicit Types (s : AState E).
Import MemBufAllocator.

(** [p] is being released with status [t]. The set of the other kind is not
    looked at meanwhile: it is [ol], whatever the allocator holds. *)
Record building (p : ptr) (t : MemBufStatus) (ol : list ptr) s : Prop := {
  bd_mem : mem_ok (Some p) (a_mem s);
  bd_al : alloc_ok (Some p) (a_mem s) (set_list (other t) ol (a_al s));
  bd_buf : ∃ b, bufs (a_mem s) !! p = Some b ∧ mb_status b = t ∧
                mb_mem_block b ∈ mem_blocks_ (a_al s)
}.

(** The range of [p] only gets larger. *)
Definition grows (p : ptr) (m m' : gmap ptr MemBuf) : Prop :=
  ∀ b, m !! p = Some b → ∃ b', m' !! p = Some b' ∧ mb_addr b' <= mb_addr b ∧ mb_end b <= mb_end b'.

Lemma grows_trans p m1 m2 m3 : grows p m1 m2 → grows p m2 m3 → grows p m1 m3.
Proof.
  intros H1 H2 b Hb. destruct (H1 b Hb) as (b1 & Hb1 & ? & ?).
  destruct (H2 b1 Hb1) as (b2 & ? & ? & ?). exists b2. split_and!; [done|lia..].
Qed.

(** Nothing visible from outside the free lists has changed. *)
Record quiet (p : ptr) (t : MemBufStatus) s s' : Prop := {
  qu_blks : blks (a_mem s') = blks (a_mem s);
  qu_fresh : fresh_ptr (a_mem s') = fresh_ptr (a_mem s);
  qu_env : a_env s' = a_env s;
  qu_inuse : inuse (bufs (a_mem s')) = inuse (bufs (a_mem s));
  qu_foreign : foreign_eq (mem_blocks_ (a_al s)) (bufs (a_mem s)) (bufs (a_mem s'));
  qu_blocks : mem_blocks_ (a_al s') = mem_blocks_ (a_al s);
  qu_cfg : al_cfg (a_al s') = al_cfg (a_al s);
  qu_kept : ∀ y d, mb_status d ≠ t → labels (bufs (a_mem s)) !! y = Some d →
    labels (bufs (a_mem s')) !! y = Some d;
  qu_grows : grows p (bufs (a_mem s)) (bufs (a_mem s'));
  qu_key : search_key_ (a_al s') = search_key_ (a_al s);
  qu_other : list_of (other t) (a_al s') = list_of (other t) (a_al s)
}.

Lemma quiet_refl p t s : quiet p t s s.
Proof. split; try done. intros b Hb. by exists b. Qed.

Lemma quiet_trans p t s1 s2 s3 : quiet p t s1 s2 → quiet p t s2 s3 → quiet p t s1 s3.
Proof.
  intros H1 H2. pose proof (qu_blocks _ _ _ _ H1) as Hb. destruct H1, H2.
  split; try congruence; [|by eauto|].
  - eapply foreign_eq_trans; [done|]. by rewrite <- Hb.
  - by eapply grows_trans.
Qed.

Definition prev_clear (p : ptr) (t : MemBufStatus) s : Prop :=
  ∀ b q c, bufs (a_mem s) !! p = Some b → mb_prev b = Some q →
    bufs (a_mem s) !! q = Some c → mb_status c ≠ t.
Definition next_clear (p : ptr) (t : MemBufStatus) s : Prop :=
  ∀ b q c, bufs (a_mem s) !! p = Some b → mb_next b = Some q →
    bufs (a_mem s) !! q = Some c → mb_status c ≠ t.

Lemma alloc_ok_set_of x h a t :
  is_free t = true → alloc_ok x h a → set_ok x (bufs h) t (mem_blocks_ a) (list_of t a).
Proof. intros Ht []. by destruct t. Qed.

Lemma wp_by_erase t x ks q s (Q : unit → AState E → Prop) :
  is_free t = true → set_ok x (bufs (a_mem s)) t ks (list_of t (a_al s)) →
  q ∈ list_of t (a_al s) →
  (∀ l', set_sorted (bufs (a_mem s)) l' → (∀ y, y ∈ l' ↔ y ≠ q ∧ y ∈ list_of t (a_al s)) →
     Q () (MkAState (a_mem s) (set_list t l' (a_al s)) (a_env s))) →
  wp (by_status t (free_erase q) (eager_erase q)) s Q.
Proof.
  intros Ht Hset Hq HQ.
  destruct (set_erase_spec _ q _ (se_sorted _ _ _ _ _ Hset) Hq) as (l' & He & Hs & Hin).
  specialize (HQ l' Hs Hin).
  destruct t; try done; simpl in *; unfold by_status, wp, free_erase, eager_erase, mbind,
    M_bind; simpl; by rewrite He.
Qed.

Lemma wp_by_emplace t p b s (Q : unit → AState E → Prop) :
  is_free t = true → set_sorted (bufs (a_mem s)) (list_of t (a_al s)) →
  bufs (a_mem s) !! p = Some b →
  (∀ y c, y ∈ list_of t (a_al s) → bufs (a_mem s) !! y = Some c → mb_addr c ≠ mb_addr b) →
  (∀ l', set_sorted (bufs (a_mem s)) l' → (∀ y, y ∈ l' ↔ y = p ∨ y ∈ list_of t (a_al s)) →
     Q () (MkAState (a_mem s) (set_list t l' (a_al s)) (a_env s))) →
  wp (by_status t (free_emplace p) (eager_emplace p)) s Q.
Proof.
  intros Ht Hso Hp Hne HQ.
  destruct (set_emplace_spec _ p b _ Hp Hso Hne) as (l' & He & Hs & Hin).
  specialize (HQ l' Hs Hin).
  destruct t; try done; simpl in *; unfold by_status, wp, free_emplace, eager_emplace, mbind,
    M_bind; simpl; by rewrite He.
Qed.

(** A buffer outside a set shares no address with its members. *)
Lemma set_addr_ne x t ks p b l (m : gmap ptr MemBuf) B :
  set_ok x m t ks l → segs_ok (segs m) B → m !! p = Some b → p ∉ l →
  ∀ y c, y ∈ l → m !! y = Some c → mb_addr c ≠ mb_addr b.
Proof. intros Hset Hs Hp Hnin y c Hy Hc. eapply addr_inj; eauto. intros ->. done. Qed.

Lemma set_list_cfg t l a : al_cfg (set_list t l a) = al_cfg a.
Proof. by destruct t. Qed.
Lemma set_list_blocks t l a : mem_blocks_ (set_list t l a) = mem_blocks_ a.
Proof. by destruct t. Qed.

(** The two sets after [q], a member of the set of kind [t], is gone. *)
Lemma alloc_ok_merged t p q c h h' a m'' l' :
  is_free t = true → alloc_ok (Some p) h a → blks h' = blks h →
  bufs h !! q = Some c → mb_status c = t → p ≠ q →
  labels (bufs h') = labels m'' → (∃ nb, m'' = <[p := nb]> (delete q (bufs h))) →
  set_sorted (bufs h) l' → (∀ y, y ∈ l' ↔ y ≠ q ∧ y ∈ list_of t a) →
  alloc_ok (Some p) h' (set_list t l' a).
Proof.
  intros Ht Hal Hblk Hq Hst Hpq Hl [nb ->] Hs Hin. pose proof Hal as [Hnd Hb Hi He Hk].
  split; rewrite ?set_list_blocks, ?Hblk; try done.
  - eapply set_ok_labels; [by symmetry|]. apply set_ok_insert_x.
    destruct t; try done; simpl in *; [by eapply set_ok_delete|].
    eapply set_ok_delete_other; [done..|]. by rewrite Hst.
  - eapply set_ok_labels; [by symmetry|]. apply set_ok_insert_x.
    destruct t; try done; simpl in *; [|by eapply set_ok_delete].
    eapply set_ok_delete_other; [done..|]. by rewrite Hst.
  - by destruct t.
Qed.

Lemma merged_grows x h p q b pl ph lo hi m' :
  mem_ok x h → bufs h !! p = Some b →
  bufs h !! pl = Some lo → bufs h !! ph = Some hi → mb_next lo = Some ph →
  p = pl ∧ q = ph ∨ p = ph ∧ q = pl →
  segs m' = gmerge p q (seg_of lo) (seg_of hi) (segs (bufs h)) → grows p (bufs h) m'.
Proof.
  intros Hok Hp Hlo Hhi Hn Hkd Hs b' Hb'.
  pose proof (gmerge_lookup_keep (segs (bufs h)) (seg_of lo) (seg_of hi) p q) as Hl.
  rewrite <- Hs in Hl.
  apply segs_inv in Hl as (d & Hd & Hseg). exists d.
  destruct (buf_neighbours _ _ _ _ _ _ Hok Hlo Hhi Hn) as (_ & _ & _ & He & _).
  destruct (buf_range _ _ _ _ Hok Hlo) as (? & _). destruct (buf_range _ _ _ _ Hok Hhi) as (? & _).
  unfold seg_of in Hseg. injection Hseg as _ _ Hsz Had _ _. unfold mb_end in *.
  split; [done|]. destruct Hkd as [[-> ->]|[-> ->]]; simplify_eq; rewrite <- Hsz, <- Had; lia.
Qed.

(** Common end of both merges: the final store is a merge, seen through its
    segments and labels. *)
Lemma merge_done p q t ol b c pl ph lo hi nb m' l' s :
  is_free t = true → building p t ol s →
  bufs (a_mem s) !! p = Some b → bufs (a_mem s) !! q = Some c → mb_status c = t →
  bufs (a_mem s) !! pl = Some lo → bufs (a_mem s) !! ph = Some hi → mb_next lo = Some ph →
  p = pl ∧ q = ph ∨ p = ph ∧ q = pl →
  segs m' = gmerge p q (seg_of lo) (seg_of hi) (segs (bufs (a_mem s))) →
  labels m' = <[p := strip nb]> (delete q (labels (bufs (a_mem s)))) →
  mb_status nb = t → mb_events nb = mb_events b → mb_mem_block nb = mb_mem_block b →
  set_sorted (bufs (a_mem s)) l' → (∀ y, y ∈ l' ↔ y ≠ q ∧ y ∈ list_of t (a_al s)) →
  let s' := MkAState (with_bufs m' (a_mem s)) (set_list t l' (a_al s)) (a_env s) in
  building p t ol s' ∧ quiet p t s s'.
Proof.
  intros Ht Hbd Hp Hq Hst Hlo Hhi Hn Hkd Hsegs Hlabels Hnt Hne Hnk Hs Hin s'.
  pose proof Hbd as [Hmem Hal (b' & Hb' & Hbt & Hk)].
  assert (b' = b) as -> by congruence.
  assert (p ≠ q) as Hpq by (by eapply (merged_ne (a_mem s) m' p q b c nb pl ph lo hi)).
  split; [split|split]; simpl.
  - by apply (merged_mem_ok (a_mem s) m' p q b c nb pl ph lo hi t).
  - rewrite set_list_comm by done.
    apply (alloc_ok_merged t p q c (a_mem s) _ _ (<[p := nb]> (delete q (bufs (a_mem s)))));
      try done; [|by exists nb|by rewrite list_of_set_other].
    by rewrite labels_insert, labels_delete.
  - assert (labels m' !! p = Some (strip nb)) as Hx by (by rewrite Hlabels, lookup_insert_eq).
    apply labels_lookup_inv in Hx as (d & Hd & Hdd). exists d.
    apply strip_fields in Hdd as (_ & _ & _ & <- & <- & _).
    rewrite set_list_blocks. split_and!; [done..|by rewrite Hnk].
  - done.
  - done.
  - done.
  - by apply (merged_inuse (a_mem s) m' p q b c nb t).
  - eapply foreign_eq_mono;
      [|by apply (merged_foreign (a_mem s) m' p q b c nb pl ph lo hi t)]. set_solver.
  - apply set_list_blocks.
  - apply set_list_cfg.
  - intros y d Hd Hy. rewrite Hlabels, lookup_insert_ne, lookup_delete_ne; [done| |];
      intros <-; rewrite lookup_labels in Hy; [rewrite Hq in Hy|rewrite Hp in Hy];
      simpl in Hy; injection Hy as <-; done.
  - by apply (merged_grows (Some p) (a_mem s) p q b pl ph lo hi).
  - by destruct t.
  - by rewrite list_of_other_set.
Qed.

Lemma FreeMergePrev_segs x h p q b c :
  mem_ok x h → bufs h !! p = Some b → bufs h !! q = Some c → mb_next c = Some p →
  segs (delete q (<[p := set_size (mb_size b +64 mb_size c)
    (set_addr (mb_addr c) (set_prev (mb_prev c) b))]>
    (alter_opt (mb_prev c) (set_next (Some p)) (<[p := set_prev (mb_prev c) b]> (bufs h))))) =
  gmerge p q (seg_of c) (seg_of b) (segs (bufs h)).
Proof.
  intros Hok Hp Hq Hn.
  destruct (buf_neighbours _ _ _ _ _ _ Hok Hq Hp Hn) as (Hk & Hst & Hpv & _ & _ & Hsum).
  pose proof (segs_Some _ _ _ Hp) as Hsp. pose proof (segs_Some _ _ _ Hq) as Hsq.
  destruct (gmerge_facts _ _ (mo_segs _ _ Hok) q p _ _ Hsq Hsp Hn) as (Hne & _).
  apply map_eq. intros y. rewrite lookup_segs, lookup_delete.
  destruct (decide (y = p)) as [->|Hyp].
  { rewrite gmerge_lookup_keep, decide_False, lookup_insert_eq by done. simpl.
    unfold seg_of; simpl. by rewrite Hsum, Hk, Hst. }
  case_decide as Hyq.
  { subst y. unfold gmerge. by rewrite lookup_insert_ne, lookup_delete_eq. }
  rewrite (gmerge_lookup_other _ q p _ _ p q) by (naive_solver || done).
  rewrite lookup_insert_ne, lookup_alter_opt, lookup_insert_ne, lookup_segs by done.
  destruct (bufs h !! y) as [d|] eqn:Hd; [|by case_decide]. simpl. unfold relink; simpl.
  destruct (decide (mb_next b = Some y)) as [Hny|].
  - destruct (buf_neighbours _ _ _ _ _ _ Hok Hp Hd Hny) as (_ & _ & Hdp & _).
    case_decide; simpl; unfold seg_of; simpl; by rewrite Hdp.
  - by case_decide.
Qed.

Lemma FreeMergePrev_spec p t ol s :
  is_free t = true → building p t ol s →
  wp (FreeMergePrev p t) s (λ _ s', building p t ol s' ∧ quiet p t s s' ∧ prev_clear p t s').
Proof.
  intros Ht Hbd. pose proof Hbd as [Hmem Hal (b & Hb & Hbt & Hk)].
  pose proof (mo_segs _ _ Hmem) as Hsegs. pose proof (segs_Some _ _ _ Hb) as Hsp.
  unfold FreeMergePrev. apply wp_bind. eapply wp_load; [done|].
  destruct (mb_prev b) as [q|] eqn:Hpv.
  2: { apply wp_ret. split_and!; [done|apply quiet_refl|]. intros ??????. simplify_eq. }
  destruct (seg_prev _ _ Hsegs _ _ _ Hsp Hpv) as (sq & Hsq & Hqn & Hqk & Hqe & Hqp).
  apply segs_inv in Hsq as (c & Hc & ->). simpl in Hqn, Hqk, Hqe.
  apply wp_bind. eapply wp_load; [done|].
  apply wp_whenM; unfold status_eqb; intros Hst;
    [apply bool_decide_eq_true in Hst|apply bool_decide_eq_false in Hst].
  2: { split_and!; [done|apply quiet_refl|]. intros b' q' c' ???. by simplify_eq. }
  pose proof (segs_Some _ _ _ Hc) as Hsc.
  destruct (gmerge_facts _ _ Hsegs q p _ _ Hsc Hsp Hqn)
    as (_ & _ & _ & _ & Hcp & Hcq & Hnb & Hnq). simpl in Hcp, Hcq, Hnb, Hnq.
  assert (∀ r, mb_prev c = Some r → ∃ d, bufs (a_mem s) !! r = Some d ∧ r ≠ p ∧ r ≠ q ∧
    mb_next d = Some q) as Hr.
  { intros r Hr. destruct (seg_prev _ _ Hsegs _ _ _ Hsc Hr) as (sr & Hsr & Hrn & _).
    apply segs_inv in Hsr as (d & Hd & ->). exists d. split_and!; try done; congruence. }
  apply wp_bind. eapply wp_update; [done|]. simpl.
  apply wp_bind. apply wp_when_update; simpl.
  { intros r Hrc. destruct (Hr r Hrc) as (d & ? & ? & ?). rewrite lookup_insert_ne; eauto. }
  apply wp_bind. eapply wp_update; simpl.
  { rewrite lookup_alter_opt, decide_False, lookup_insert_eq by done. done. }
  apply wp_bind. eapply wp_update; simpl; [by rewrite lookup_insert_eq|].
  apply wp_bind. rewrite insert_insert_eq.
  set (m1 := <[p := _]> (alter_opt _ _ _)).
  assert (labels m1 = <[p := strip (set_size (mb_size b +64 mb_size c) (set_addr (mb_addr c) b))]>
    (labels (bufs (a_mem s)))) as Hl1.
  { unfold m1. rewrite labels_insert, labels_alter_opt, labels_insert, insert_insert_eq by done.
    done. }
  pose proof (alloc_ok_set_of _ _ _ _ Ht Hal) as Hset.
  rewrite list_of_set_other, set_list_blocks in Hset by done.
  eapply (wp_by_erase t (Some p) (mem_blocks_ (a_al s)) q); [done| | |].
  { simpl. eapply set_ok_labels; [|by apply set_ok_insert_x]. by rewrite labels_insert. }
  { simpl. apply (se_members _ _ _ _ _ Hset). split; [congruence|]. exists c.
    split_and!; [done|done|]. congruence. }
  simpl. intros l' Hs' Hin'. apply wp_delete_buf; simpl.
  { unfold m1. rewrite lookup_insert_ne, lookup_alter_opt, decide_False, lookup_insert_ne by done.
    eauto. }
  set (nb := set_size _ (set_addr _ b)) in Hl1.
  assert (building p t ol (MkAState (with_bufs (delete q m1) (a_mem s))
    (set_list t l' (a_al s)) (a_env s)) ∧
    quiet p t s (MkAState (with_bufs (delete q m1) (a_mem s)) (set_list t l' (a_al s)) (a_env s)))
    as [Hbd' Hqu].
  { apply (merge_done p q t ol b c q p c b nb); try done; [by right| | |].
    - by apply (FreeMergePrev_segs (Some p) (a_mem s) p q b c).
    - rewrite labels_delete, Hl1, delete_insert_ne by done. done.
    - eapply (set_sorted_except m1 _ p); [| |done].
      + intros y Hy. by rewrite Hl1, lookup_insert_ne.
      + intros Hy. apply Hin' in Hy as [_ Hy]. by apply (se_members _ _ _ _ _ Hset) in Hy as [? _]. }
  split_and!; [done|done|].
  intros B r e. simpl. rewrite lookup_delete_ne by done. unfold m1 at 1.
  rewrite lookup_insert_eq. intros [= <-]. simpl. intros Hrc.
  destruct (Hr r Hrc) as (d & Hd & Hrp & Hrq & Hdn). unfold m1.
  rewrite lookup_delete_ne, lookup_insert_ne, lookup_alter_opt, decide_True, lookup_insert_ne,
    Hd by done. intros [= <-]. simpl. intros Hdt.
  assert (is_free (mb_status d) = false); [|congruence].
  apply (mo_coalesced _ _ Hmem r d q c); congruence.
Qed.
Lemma FreeMergeNext_segs x h p q b c :
  mem_ok x h → bufs h !! p = Some b → bufs h !! q = Some c → mb_next b = Some q →
  segs (delete q (<[p := set_size (mb_size b +64 mb_size c) (set_next (mb_next c) b)]>
    (alter_opt (mb_next c) (set_prev (Some p)) (<[p := set_next (mb_next c) b]> (bufs h))))) =
  gmerge p q (seg_of b) (seg_of c) (segs (bufs h)).
Proof.
  intros Hok Hp Hq Hn.
  destruct (buf_neighbours _ _ _ _ _ _ Hok Hp Hq Hn) as (Hk & Hst & Hpv & _ & Hsum & _).
  pose proof (segs_Some _ _ _ Hp) as Hsp. pose proof (segs_Some _ _ _ Hq) as Hsq.
  destruct (gmerge_facts _ _ (mo_segs _ _ Hok) p q _ _ Hsp Hsq Hn) as (Hne & _).
  apply map_eq. intros y. rewrite lookup_segs, lookup_delete.
  destruct (decide (y = p)) as [->|Hyp].
  { rewrite gmerge_lookup_keep, decide_False, lookup_insert_eq by done. simpl.
    unfold seg_of; simpl. by rewrite Hsum. }
  case_decide as Hyq.
  { subst y. unfold gmerge. by rewrite lookup_insert_ne, lookup_delete_eq. }
  rewrite (gmerge_lookup_other _ p q _ _ p q) by (naive_solver || done).
  rewrite lookup_insert_ne, lookup_alter_opt, lookup_insert_ne, lookup_segs by done.
  destruct (bufs h !! y) as [d|] eqn:Hd; [|by case_decide]. simpl. unfold relink; simpl.
  destruct (decide (mb_prev b = Some y)) as [Hny|].
  - destruct (seg_prev _ _ (mo_segs _ _ Hok) _ _ _ Hsp Hny) as (e & He & Hen & _).
    rewrite (segs_Some _ _ _ Hd) in He. injection He as <-. simpl in Hen.
    case_decide; simpl; unfold seg_of; simpl; by rewrite Hen.
  - by case_decide.
Qed.

Lemma FreeMergeNext_spec p t ol s :
  is_free t = true → building p t ol s → prev_clear p t s →
  wp (FreeMergeNext p t) s
    (λ _ s', building p t ol s' ∧ quiet p t s s' ∧ prev_clear p t s' ∧ next_clear p t s').
Proof.
  intros Ht Hbd Hpc. pose proof Hbd as [Hmem Hal (b & Hb & Hbt & Hk)].
  pose proof (mo_segs _ _ Hmem) as Hsegs. pose proof (segs_Some _ _ _ Hb) as Hsp.
  unfold FreeMergeNext. apply wp_bind. eapply wp_load; [done|].
  destruct (mb_next b) as [q|] eqn:Hnx.
  2: { apply wp_ret. split_and!; [done|apply quiet_refl|done|]. intros ??????. simplify_eq. }
  destruct (seg_next _ _ Hsegs _ _ _ Hsp Hnx) as (sq & Hsq & Hqn & Hqk & Hqe & Hqp).
  apply segs_inv in Hsq as (c & Hc & ->). simpl in Hqn, Hqk, Hqe.
  apply wp_bind. eapply wp_load; [done|].
  apply wp_whenM; unfold status_eqb; intros Hst;
    [apply bool_decide_eq_true in Hst|apply bool_decide_eq_false in Hst].
  2: { split_and!; [done|apply quiet_refl|done|]. intros b' q' c' ???. by simplify_eq. }
  pose proof (segs_Some _ _ _ Hc) as Hsc.
  destruct (gmerge_facts _ _ Hsegs p q _ _ Hsp Hsc Hnx)
    as (_ & _ & _ & _ & Hbq & Hbp & Hcp & Hcq). simpl in Hcp, Hcq, Hbp, Hbq.
  assert (∀ r, mb_next c = Some r → ∃ d, bufs (a_mem s) !! r = Some d ∧ r ≠ p ∧ r ≠ q ∧
    mb_prev d = Some q) as Hr.
  { intros r Hr. destruct (seg_next _ _ Hsegs _ _ _ Hsc Hr) as (sr & Hsr & Hrn & _).
    apply segs_inv in Hsr as (d & Hd & ->). exists d. split_and!; try done; congruence. }
  apply wp_bind. eapply wp_update; [done|]. simpl.
  apply wp_bind. apply wp_when_update; simpl.
  { intros r Hrc. destruct (Hr r Hrc) as (d & ? & ? & ?). rewrite lookup_insert_ne; eauto. }
  apply wp_bind. eapply wp_update; simpl.
  { rewrite lookup_alter_opt, decide_False, lookup_insert_eq by done. done. }
  apply wp_bind.
  set (m1 := <[p := _]> (alter_opt _ _ _)).
  set (nb := set_size (mb_size b +64 mb_size c) b).
  assert (labels m1 = <[p := strip nb]> (labels (bufs (a_mem s)))) as Hl1.
  { unfold m1. rewrite labels_insert, labels_alter_opt, labels_insert, insert_insert_eq by done.
    done. }
  pose proof (alloc_ok_set_of _ _ _ _ Ht Hal) as Hset.
  rewrite list_of_set_other, set_list_blocks in Hset by done.
  eapply (wp_by_erase t (Some p) (mem_blocks_ (a_al s)) q); [done| | |].
  { simpl. eapply set_ok_labels; [|by apply set_ok_insert_x]. by rewrite labels_insert. }
  { simpl. apply (se_members _ _ _ _ _ Hset). split; [congruence|]. exists c.
    split_and!; [done|done|]. congruence. }
  simpl. intros l' Hs' Hin'. apply wp_delete_buf; simpl.
  { unfold m1. rewrite lookup_insert_ne, lookup_alter_opt, decide_False, lookup_insert_ne by done.
    eauto. }
  destruct (merge_done p q t ol b c p q b c nb (delete q m1) l' s)
    as [Hbd' Hqu]; try done; [by left|..].
  { by apply (FreeMergeNext_segs (Some p) (a_mem s) p q b c). }
  { by rewrite labels_delete, Hl1, delete_insert_ne. }
  { eapply (set_sorted_except m1 _ p); [| |done].
    + intros y Hy. by rewrite Hl1, lookup_insert_ne.
    + intros Hy. apply Hin' in Hy as [_ Hy]. by apply (se_members _ _ _ _ _ Hset) in Hy as [? _]. }
  split_and!; [done|done| |].
  - intros B r e. simpl. rewrite lookup_delete_ne by done. unfold m1 at 1.
    rewrite lookup_insert_eq. intros [= <-]. simpl. intros Hrb He.
    assert (r ≠ p) by congruence. assert (r ≠ q) by congruence.
    assert (labels (delete q m1) !! r = labels (bufs (a_mem s)) !! r) as Hlr
      by (by rewrite labels_delete, Hl1, lookup_delete_ne, lookup_insert_ne).
    destruct (labels_inv _ _ _ _ Hlr He) as (d & Hd & Hde).
    apply strip_fields in Hde as (_ & _ & _ & _ & <- & _). by apply (Hpc b r d).
  - intros B r e. simpl. rewrite lookup_delete_ne by done. unfold m1 at 1.
    rewrite lookup_insert_eq. intros [= <-]. simpl. intros Hrc.
    destruct (Hr r Hrc) as (d & Hd & Hrp & Hrq & Hdn). unfold m1.
    rewrite lookup_delete_ne, lookup_insert_ne, lookup_alter_opt, decide_True, lookup_insert_ne,
      Hd by done. intros [= <-]. simpl. intros Hdt.
    assert (is_free (mb_status c) = false); [|congruence].
    apply (mo_coalesced _ _ Hmem q c r d); congruence.
Qed.

(** What a release leaves alone; [p] is no longer handed out. *)
Record released (p : ptr) (t : MemBufStatus) s s' : Prop := {
  rl_blks : blks (a_mem s') = blks (a_mem s);
  rl_fresh : fresh_ptr (a_mem s') = fresh_ptr (a_mem s);
  rl_env : a_env s' = a_env s;
  rl_inuse : inuse (bufs (a_mem s')) = delete p (inuse (bufs (a_mem s)));
  rl_foreign : foreign_eq (mem_blocks_ (a_al s)) (bufs (a_mem s)) (bufs (a_mem s'));
  rl_blocks : mem_blocks_ (a_al s') = mem_blocks_ (a_al s);
  rl_cfg : al_cfg (a_al s') = al_cfg (a_al s);
  rl_kept : ∀ y d, y ≠ p → mb_status d ≠ t → labels (bufs (a_mem s)) !! y = Some d →
    labels (bufs (a_mem s')) !! y = Some d;
  rl_grows : grows p (bufs (a_mem s)) (bufs (a_mem s'));
  rl_status : ∃ b', bufs (a_mem s') !! p = Some b' ∧ mb_status b' = t;
  rl_other : list_of (other t) (a_al s') = list_of (other t) (a_al s)
}.

Lemma building_done p t ol s :
  is_free t = true → building p t ol s → prev_clear p t s → next_clear p t s →
  wp (by_status t (free_emplace p) (eager_emplace p)) s (λ _ s',
    a_mem s' = a_mem s ∧ quiet p t s s' ∧ mem_ok None (a_mem s') ∧
    alloc_ok None (a_mem s') (set_list (other t) ol (a_al s'))).
Proof.
  intros Ht [Hmem Hal (b & Hb & Hbt & Hk)] Hpc Hnc.
  pose proof (alloc_ok_set_of _ _ _ _ Ht Hal) as Hset.
  rewrite list_of_set_other, set_list_blocks in Hset by done.
  apply (wp_by_emplace t p b); try done; [apply Hset| |].
  { eapply set_addr_ne; [done|apply Hmem|done|].
    intros Hin. by apply (se_members _ _ _ _ _ Hset) in Hin as [? _]. }
  intros l' Hs Hin. simpl. split_and!; [done|split; simpl; try done| |].
  - apply set_list_blocks.
  - apply set_list_cfg.
  - intros d Hd. exists d. done.
  - by destruct t.
  - by rewrite list_of_other_set.
  - apply (mem_ok_close p b); try done.
    + intros q c Hq Hc. rewrite Hbt. by eapply Hpc.
    + intros q c Hq Hc. rewrite Hbt. by eapply Hnc.
  - rewrite set_list_comm by done. destruct Hal as [Hnd Hbl Hi He Hky].
    rewrite set_list_blocks in *. split; rewrite ?set_list_blocks; try done.
    + destruct t; try done; simpl in *; [by eapply set_ok_join|].
      eapply set_ok_release; [done..|]. congruence.
    + destruct t; try done; simpl in *; [|by eapply set_ok_join].
      eapply set_ok_release; [done..|]. congruence.
    + by destruct t.
Qed.

Lemma Free_core p t ol b s :
  is_free t = true → bufs (a_mem s) !! p = Some b →
  EventBase.IsEventNotUsed (mb_events b) = true →
  mem_ok (Some p) (a_mem s) → alloc_ok (Some p) (a_mem s) (set_list (other t) ol (a_al s)) →
  mb_mem_block b ∈ mem_blocks_ (a_al s) →
  wp (Free p t) s (λ r s', r = true ∧ released p t s s' ∧ mem_ok None (a_mem s') ∧
    alloc_ok None (a_mem s') (set_list (other t) ol (a_al s'))).
Proof.
  intros Ht Hb Hev Hmem Hal Hk. unfold Free. apply wp_bind. eapply wp_load; [done|].
  rewrite Hev. simpl. apply wp_bind. eapply wp_update; [done|]. simpl.
  set (nb := set_status t b). set (s1 := MkAState _ _ _).
  assert (labels (<[p := nb]> (bufs (a_mem s))) = <[p := strip nb]> (labels (bufs (a_mem s))))
    as Hl by apply labels_insert.
  assert (segs (<[p := nb]> (bufs (a_mem s))) = segs (bufs (a_mem s))) as Hsg.
  { unfold segs. rewrite fmap_insert. apply insert_id. by rewrite lookup_fmap, Hb. }
  assert (building p t ol s1) as Hbd.
  { split; simpl.
    - eapply (relabel_mem_ok _ _ _ p b nb); try done. by left.
    - destruct Hal as [Hnd Hbl Hi He Hky]. rewrite set_list_blocks in *.
      split; rewrite ?set_list_blocks; simpl; try done; by apply set_ok_insert_x.
    - exists nb. by rewrite lookup_insert_eq. }
  apply wp_bind. eapply wp_mono; [by apply (FreeMergePrev_spec p t ol)|].
  intros _ s2 (Hbd2 & Hq2 & Hpc2).
  apply wp_bind. eapply wp_mono; [by apply (FreeMergeNext_spec p t ol)|].
  intros _ s3 (Hbd3 & Hq3 & Hpc3 & Hnc3).
  apply wp_bind. eapply wp_mono; [by apply (building_done p t ol)|].
  intros _ s4 (Hm4 & Hq4 & Hmem4 & Hal4). apply wp_ret. split_and!; [done| |done|done].
  pose proof (quiet_trans _ _ _ _ _ (quiet_trans _ _ _ _ _ Hq2 Hq3) Hq4) as [].
  split; simpl in *; try done.
  - rewrite qu_inuse0. by eapply (relabel_inuse_free (a_mem s)).
  - eapply foreign_eq_trans; [|done]. eapply foreign_eq_mono;
      [|by eapply (relabel_foreign (a_mem s) _ p b nb)]. set_solver.
  - intros y d Hy Hd Hl'. apply qu_kept0; [done|]. by rewrite Hl, lookup_insert_ne.
  - eapply grows_trans; [|done]. intros d Hd. exists nb. rewrite lookup_insert_eq.
    simplify_eq. done.
  - destruct (bd_buf _ _ _ _ Hbd3) as (d & Hd & Hdt & _). exists d. by rewrite Hm4.
Qed.

(** Releasing a buffer in use. *)
Lemma Free_spec p t b s :
  is_free t = true → mem_ok None (a_mem s) → alloc_ok None (a_mem s) (a_al s) →
  bufs (a_mem s) !! p = Some b → is_free (mb_status b) = false →
  mb_mem_block b ∈ mem_blocks_ (a_al s) →
  EventBase.IsEventNotUsed (mb_events b) = true →
  wp (Free p t) s (λ r s', r = true ∧ released p t s s' ∧ mem_ok None (a_mem s') ∧
    alloc_ok None (a_mem s') (a_al s')).
Proof.
  intros Ht Hmem Hal Hb Hnf Hk Hev. pose proof Hal as [Hnd Hbl Hi He Hky].
  assert (∀ st l ks, set_ok None (bufs (a_mem s)) st ks l → is_free st = true → p ∉ l) as Hnin.
  { intros st l ks Hset Hst Hin. apply (se_members _ _ _ _ _ Hset) in Hin as (_ & c & ? & ? & _).
    congruence. }
  eapply wp_mono; [apply (Free_core p t (list_of (other t) (a_al s)) b); try done|].
  - by apply mem_ok_weaken.
  - rewrite set_list_id by done. split; try done; (eapply set_ok_exempt; [|done..]);
      eapply Hnin; try done; done.
  - simpl. intros r s' (-> & Hrl & Hmem' & Hal'). split_and!; try done.
    rewrite <- (rl_other _ _ _ _ Hrl), set_list_id in Hal' by done. done.
Qed.

(** A buffer still bound to events is only marked. *)
Lemma Free_events_spec p t b s :
  bufs (a_mem s) !! p = Some b → EventBase.IsEventNotUsed (mb_events b) = false →
  Free p t s = Ret false (MkAState
    (with_bufs (<[p := set_status kMemBufUsedByEvent b]> (bufs (a_mem s))) (a_mem s))
    (a_al s) (a_env s)).
Proof.
  intros Hb Hev. unfold Free, mbind, M_bind, load. simpl. rewrite Hb, Hev. simpl.
  unfold update. simpl. by rewrite Hb.
Qed.
End free.
