(* ===== verification/AllocMalloc.v ===== *)
(** * [MemBufAllocator::Malloc]

    Allocation: the best-fitting free buffer is taken from its set, mapped when
    it was eager-free, cut when enough is left, and handed out; a new block is
    requested from the device when the allocator has none. The device callbacks
    are only known through their contract [DeviceLaws]. *)

From S2P Require Import Prelude EventBase MemBufHeap MemGeometry MemBufSet MemBufAllocator AllocInvariant AllocSteps AllocFree.

(** The contract of the callbacks: the device keeps an invariant [env_ok] that
    relates it to the blocks, hands out regions apart from all blocks, and
    touches the store only to create the block it returns. *)
Class DeviceLaws {E : Type} (cb : Callbacks E) (env_ok : E → gmap ptr MemBlock → Prop) := {
  env_ok_geo e B B' : blk_geo <$> B = blk_geo <$> B' → env_ok e B → env_ok e B';
  expander_spec size h e :
    0 < size <= 2 ^ 63 → blks_ok (blks h) →
    (∀ k b, blks h !! k = Some b → (k < fresh_ptr h)%positive) → env_ok e (blks h) →
    wp (mem_block_expander_ cb size) (h, e) (λ r he,
      match r with
      | None => he.1 = h ∧ env_ok he.2 (blks h)
      | Some k => ∃ b, k = fresh_ptr h ∧
          he.1 = MkMem (bufs h) (<[k := b]> (blks h)) (Pos.succ k) ∧
          (0 <= blk_addr b ∧ 0 < blk_size b < w64 ∧ blk_addr b + blk_size b <= w64) ∧
          (∀ l c, blks h !! l = Some c →
             disjoint_range (blk_addr b) (blk_size b) (blk_addr c) (blk_size c)) ∧
          env_ok he.2 (blks he.1)
      end);
  mapper_spec e B size addr :
    env_ok e B → wp (mem_mapper_ cb size addr) e (λ _ e', env_ok e' B);
  eager_freer_spec e B addr size :
    env_ok e B → wp (mem_eager_freer_ cb addr size) e (λ _ e', env_ok e' B);
  cleaner_spec h e B k b :
    env_ok e B → B !! k = Some b → blks h !! k = Some b →
    wp (mem_block_cleaner_ cb k) (h, e) (λ _ he, he.1 = h ∧ env_ok he.2 (delete k B))
}.

Lemma UpdateBorderAddr_geo b k : blk_geo (UpdateBorderAddr b k) = blk_geo k.
Proof. done. Qed.

Lemma blk_geo_update (B : gmap ptr MemBlock) k c b : B !! k = Some c →
  blk_geo <$> <[k := UpdateBorderAddr b c]> B = blk_geo <$> B.
Proof.
  intros Hk. rewrite fmap_insert. apply insert_id. by rewrite lookup_fmap, Hk.
Qed.

Lemma mem_ok_blk_geo x h B : blk_geo <$> blks h = blk_geo <$> B →
  mem_ok x h → mem_ok x (with_blks B h).
Proof.
  intros Hg [Hs Hb Hf Hbf He Hc]. split; simpl; try done.
  - by eapply segs_ok_blk_geo.
  - by eapply blks_ok_blk_geo.
  - intros k b Hk. assert (is_Some ((blk_geo <$> blks h) !! k)) as Hx.
    { rewrite Hg, lookup_fmap, Hk. by eexists. }
    rewrite lookup_fmap in Hx. destruct (blks h !! k) eqn:?; [eauto|by destruct Hx].
Qed.

Lemma alloc_ok_blk_geo x h a B : blk_geo <$> blks h = blk_geo <$> B →
  alloc_ok x h a → alloc_ok x (with_blks B h) a.
Proof.
  intros Hg [Hnd Hb Hi He Hk]. split; simpl; try done. intros k Hin.
  destruct (Hb k Hin) as [b Hbk]. assert (is_Some ((blk_geo <$> B) !! k)) as Hx.
  { rewrite <- Hg, lookup_fmap, Hbk. by eexists. }
  rewrite lookup_fmap in Hx. destruct (B !! k); [done|by destruct Hx].
Qed.

Section malloc.
Context {E : Type} (cb : Callbacks E) (env_ok : E → gmap ptr MemBlock → Prop).
Context `{!DeviceLaws cb env_ok}.
Implicit Types (s : AState E).
Import MemBufAllocator.

(** Invariant of a state between two operations. *)
Record state_ok s : Prop := {
  st_mem : mem_ok None (a_mem s);
  st_al : alloc_ok None (a_mem s) (a_al s);
  st_env : env_ok (a_env s) (blks (a_mem s))
}.

(** An operation of this allocator: at most new blocks are added, everything
    outside the blocks of the allocator stays. *)
Record extends s s' : Prop := {
  ex_blocks : ∃ new, mem_blocks_ (a_al s') = mem_blocks_ (a_al s) ++ new ∧
    (∀ k, k ∈ new → blks (a_mem s) !! k = None) ∧
    (∀ k, is_Some (blks (a_mem s') !! k) ↔ is_Some (blks (a_mem s) !! k) ∨ k ∈ new);
  ex_geo : ∀ k b, blks (a_mem s) !! k = Some b →
    ∃ b', blks (a_mem s') !! k = Some b' ∧ blk_geo b' = blk_geo b;
  ex_cfg : al_cfg (a_al s') = al_cfg (a_al s);
  ex_foreign : foreign_eq (mem_blocks_ (a_al s')) (bufs (a_mem s)) (bufs (a_mem s'))
}.

(** The buffer an allocation hands out. *)
Record granted (size : Z) (p : ptr) (b : MemBuf) s s' : Prop := {
  gr_buf : bufs (a_mem s') !! p = Some b;
  gr_status : mb_status b = kMemBufUsed;
  gr_events : EventBase.IsEventNotUsed (mb_events b) = true;
  gr_size : size <= mb_size b < size + kDynamicMemAlignSize;
  gr_block : mb_mem_block b ∈ mem_blocks_ (a_al s');
  gr_new : inuse (bufs (a_mem s)) !! p = None;
  gr_inuse : inuse (bufs (a_mem s')) = <[p := strip b]> (inuse (bufs (a_mem s)))
}.

(** What an allocation of [size] bytes may do; [P] says which buffer it grants. *)
Definition alloc_post (size : Z) (P : ptr → MemBuf → Prop) s (r : option ptr) s' : Prop :=
  state_ok s' ∧ extends s s' ∧
  match r with
  | None => inuse (bufs (a_mem s')) = inuse (bufs (a_mem s))
  | Some p => ∃ b, granted size p b s s' ∧ P p b
  end.

Lemma alloc_post_weaken size (P P' : ptr → MemBuf → Prop) s r s' :
  (∀ p b, P p b → P' p b) → alloc_post size P s r s' → alloc_post size P' s r s'.
Proof.
  intros HP (? & ? & Hr). split_and!; try done. destruct r; [|done].
  destruct Hr as (b & ? & ?). eauto.
Qed.

Lemma extends_refl s s' :
  blk_geo <$> blks (a_mem s') = blk_geo <$> blks (a_mem s) →
  mem_blocks_ (a_al s') = mem_blocks_ (a_al s) → al_cfg (a_al s') = al_cfg (a_al s) →
  foreign_eq (mem_blocks_ (a_al s)) (bufs (a_mem s)) (bufs (a_mem s')) → extends s s'.
Proof.
  intros Hg Hb Hc Hf.
  assert (∀ k, blk_geo <$> blks (a_mem s') !! k = blk_geo <$> blks (a_mem s) !! k) as Hk.
  { intros k. by rewrite <- !lookup_fmap, Hg. }
  split.
  - exists []. rewrite app_nil_r. split_and!; [done|set_solver|]. intros k. specialize (Hk k).
    rewrite <- (fmap_is_Some blk_geo), Hk, fmap_is_Some.
    split; [by left|]. intros [?|Hx]; [done|by apply not_elem_of_nil in Hx].
  - intros k b Hb'. specialize (Hk k). rewrite Hb' in Hk. simpl in Hk.
    apply fmap_Some in Hk as (b' & ? & ?). eauto.
  - done.
  - by rewrite Hb.
Qed.

Lemma wp_with_env {A} (m : M E A) s (Q : A → AState E → Prop) :
  wp m (a_env s) (λ a e, Q a (MkAState (a_mem s) (a_al s) e)) → wp (with_env m) s Q.
Proof. intros H. by apply wp_zoom. Qed.

Lemma wp_with_mem_env {A} (m : M (Mem * E) A) s (Q : A → AState E → Prop) :
  wp m (a_mem s, a_env s) (λ a he, Q a (MkAState he.1 (a_al s) he.2)) →
  wp (with_mem_env m) s Q.
Proof. intros H. by apply wp_zoom. Qed.

Lemma wp_when_set_next (o : option ptr) q c s (Q : unit → AState E → Prop) :
  bufs (a_mem s) !! q = Some c → mb_next c = None →
  Q () (MkAState (with_bufs (<[q := set_next o c]> (bufs (a_mem s))) (a_mem s))
          (a_al s) (a_env s)) →
  wp (when_some o (λ n, update q (set_next (Some n)))) s Q.
Proof.
  intros Hq Hn HQ. destruct o as [n|]; simpl; [by eapply wp_update|].
  apply wp_ret. assert (set_next None c = c) as Hc by (destruct c; simpl in *; by subst).
  rewrite Hc, insert_id in HQ by done. by destruct s as [[] ? ?].
Qed.

(** The buffers after [MapAndSplitMemBuf] cut [b] at [sz]; the rest is [q]. *)
Definition rest_buf (b : MemBuf) (sz : Z) : MemBuf :=
  new_MemBuf (mb_size b -64 sz) (mb_addr b + sz) (mb_stream_id b) (mb_mem_block b) (mb_status b).
Definition split_map (p q : ptr) (b : MemBuf) (sz : Z) (m : gmap ptr MemBuf) : gmap ptr MemBuf :=
  <[p := set_status kMemBufUsed (set_size sz (set_next (Some q) b))]>
  (<[q := set_prev (Some p) (set_next (mb_next b) (rest_buf b sz))]>
   (alter_opt (mb_next b) (set_prev (Some q)) m)).

Lemma split_map_segs x h p q b sz :
  mem_ok x h → bufs h !! p = Some b → bufs h !! q = None → 0 < sz < mb_size b →
  segs (split_map p q b sz (bufs h)) = gsplit p q sz (seg_of b) (segs (bufs h)).
Proof.
  intros Hok Hp Hq Hsz. destruct (buf_range _ _ _ _ Hok Hp) as (Hr & _).
  unfold split_map, gsplit, segs. rewrite !fmap_insert.
  rewrite (fmap_alter_opt seg_of _ (sset_prev (Some q))) by done.
  unfold seg_of; simpl. by rewrite u64_small by lia.
Qed.

Lemma split_map_labels p q b sz m :
  labels (split_map p q b sz m) =
  <[p := strip (set_status kMemBufUsed (set_size sz b))]> (<[q := rest_buf b sz]> (labels m)).
Proof. unfold split_map. rewrite !labels_insert, labels_alter_opt by done. done. Qed.

(** The free lists when [p] leaves for good and the rest [q] joins. *)
Lemma alloc_ok_split p q b sz h a n l' :
  mem_ok None h → alloc_ok (Some p) h a → bufs h !! p = Some b → bufs h !! q = None →
  is_free (mb_status b) = true → mb_mem_block b ∈ mem_blocks_ a →
  set_sorted (split_map p q b sz (bufs h)) l' →
  (∀ y, y ∈ l' ↔ y = q ∨ y ∈ list_of (mb_status b) a) →
  alloc_ok None (MkMem (split_map p q b sz (bufs h)) (blks h) n) (set_list (mb_status b) l' a).
Proof.
  intros Hmem Hal Hp Hq Hf Hk Hs Hin. pose proof Hal as [Hnd Hb Hi He Hky].
  assert (p ≠ q) as Hpq by congruence.
  set (m' := split_map p q b sz (bufs h)) in *.
  assert (∀ y, y ≠ p → y ≠ q → labels m' !! y = labels (bufs h) !! y) as Hother.
  { intros y ??. unfold m'. by rewrite split_map_labels, !lookup_insert_ne. }
  assert (∀ st y, (∃ d, m' !! y = Some d ∧ mb_status d = st ∧ mb_mem_block d ∈ mem_blocks_ a) ↔
    (∃ d, labels m' !! y = Some d ∧ mb_status d = st ∧ mb_mem_block d ∈ mem_blocks_ a)) as Hlab.
  { intros st y. rewrite lookup_labels. destruct (m' !! y); simpl; naive_solver. }
  assert (∀ st y, (∃ d, bufs h !! y = Some d ∧ mb_status d = st ∧ mb_mem_block d ∈ mem_blocks_ a) ↔
    (∃ d, labels (bufs h) !! y = Some d ∧ mb_status d = st ∧ mb_mem_block d ∈ mem_blocks_ a)) as Hlab0.
  { intros st y. rewrite lookup_labels. destruct (bufs h !! y); simpl; naive_solver. }
  assert (labels m' !! p = Some (strip (set_status kMemBufUsed (set_size sz b)))) as Hlp.
  { unfold m'. by rewrite split_map_labels, lookup_insert_eq. }
  assert (labels m' !! q = Some (rest_buf b sz)) as Hlq.
  { unfold m'. by rewrite split_map_labels, lookup_insert_ne, lookup_insert_eq. }
  assert (labels (bufs h) !! q = None) as Hlq0 by (by rewrite lookup_labels, Hq).
  assert (∀ st l, is_free st = true → set_ok (Some p) (bufs h) st (mem_blocks_ a) l →
    st ≠ mb_status b → set_ok None m' st (mem_blocks_ a) l) as Hothers.
  { intros st l Hst [Hso Hm] Hne.
    assert (∀ y, y ∈ l → y ≠ p ∧ y ≠ q) as Hyl.
    { intros y (? & d & ? & _)%Hm. split; congruence. }
    split.
    - eapply set_sorted_keys; [|done]. intros y d Hy Hd. destruct (Hyl y Hy).
      destruct (labels_inv (bufs h) m' y d) as (c & Hc & Hcd); [by rewrite Hother|done|].
      exists c. apply strip_fields in Hcd. naive_solver.
    - intros y. rewrite Hm, Hlab, Hlab0.
      destruct (decide (y = p)) as [->|]; [|destruct (decide (y = q)) as [->|]].
      + rewrite Hlp. split; [by intros [? _]|]. intros [_ (d & [= <-] & Hd & _)]. by subst st.
      + rewrite Hlq, Hlq0. split; [by intros (_ & ? & ? & _)|].
        intros [_ (d & [= <-] & Hd & _)]. by subst st.
      + rewrite Hother by done. naive_solver. }
  assert (set_ok None m' (mb_status b) (mem_blocks_ a) l') as Hself.
  { pose proof (alloc_ok_set_of _ _ _ _ Hf Hal) as [Hso Hm].
    split; [done|]. intros y. rewrite Hin, Hm, Hlab, Hlab0.
    destruct (decide (y = p)) as [->|]; [|destruct (decide (y = q)) as [->|]].
    - rewrite Hlp. split; [intros [?|[? _]]; done|].
      intros [_ (d & [= <-] & Hd & _)]. simpl in Hd. by rewrite <- Hd in Hf.
    - rewrite Hlq. split; [|by left]. intros _. split; [done|]. by exists (rest_buf b sz).
    - rewrite Hother by done. naive_solver. }
  split; rewrite ?set_list_blocks; simpl; try done.
  - destruct (mb_status b) eqn:Hst; try done; simpl; by apply Hothers.
  - destruct (mb_status b) eqn:Hst; try done; simpl; by apply Hothers.
  - by destruct (mb_status b).
Qed.

(** A candidate for allocation: free, in no set. *)
Record candidate (p : ptr) (b : MemBuf) s : Prop := {
  cd_mem : mem_ok None (a_mem s);
  cd_al : alloc_ok (Some p) (a_mem s) (a_al s);
  cd_env : env_ok (a_env s) (blks (a_mem s));
  cd_buf : bufs (a_mem s) !! p = Some b;
  cd_free : is_free (mb_status b) = true;
  cd_block : mb_mem_block b ∈ mem_blocks_ (a_al s)
}.

Lemma candidate_env p b s e : candidate p b s → env_ok e (blks (a_mem s)) →
  candidate p b (MkAState (a_mem s) (a_al s) e).
Proof. by intros [] ?. Qed.

(** Last step of [MapAndSplitMemBuf]: the block records the address reached. *)
Lemma finish_alloc size (P : ptr → MemBuf → Prop) p b k s s' :
  state_ok s' → extends s s' → granted size p b s s' → P p b →
  blks (a_mem s') !! mb_mem_block b = Some k →
  wp (c ← load p; update_blk (mb_mem_block c) (UpdateBorderAddr c);; mret (Some p)) s'
    (λ r s'', r = Some p ∧ alloc_post size P s r s'').
Proof.
  intros [Hmem Hal Henv] Hex Hgr HP Hk. apply wp_bind. eapply wp_load; [apply Hgr|].
  apply wp_bind. eapply wp_update_blk; [done|]. apply wp_ret. simpl.
  assert (blk_geo <$> blks (a_mem s') =
    blk_geo <$> <[mb_mem_block b:=UpdateBorderAddr b k]> (blks (a_mem s'))) as Hg
    by (by rewrite (blk_geo_update _ _ k)).
  split; [done|]. split_and!.
  - split; simpl; [by apply mem_ok_blk_geo|by apply alloc_ok_blk_geo|].
    by eapply env_ok_geo.
  - destruct Hex as [(new & Hn & Hn1 & Hn2) Hgeo Hcfg Hf]. split; simpl; try done.
    + exists new. split_and!; try done. intros l. rewrite <- Hn2, lookup_insert.
      case_decide as Hl; [|done]. subst l. rewrite Hk. split; by eexists.
    + intros l c Hc. destruct (Hgeo l c Hc) as (c' & Hc' & Hgc). rewrite lookup_insert.
      case_decide; [|eauto]. subst l. eexists. split; [done|].
      assert (c' = k) as -> by congruence. done.
  - exists b. by destruct Hgr.
Qed.

Lemma candidate_block p b s : candidate p b s →
  ∃ k, blks (a_mem s) !! mb_mem_block b = Some k.
Proof.
  intros Hc. destruct (buf_range _ _ _ _ (cd_mem _ _ _ Hc) (cd_buf _ _ _ Hc))
    as (_ & _ & _ & k & ? & _). eauto.
Qed.

Lemma candidate_not_inuse p b s : candidate p b s → inuse (bufs (a_mem s)) !! p = None.
Proof.
  intros Hc. rewrite lookup_inuse, (cd_buf _ _ _ Hc). simpl. by rewrite (cd_free _ _ _ Hc).
Qed.

Lemma candidate_events p b s : candidate p b s →
  EventBase.IsEventNotUsed (mb_events b) = true.
Proof. intros Hc. eapply mo_events; apply Hc. Qed.

(** The whole buffer is handed out. *)
Lemma take_whole size p b s :
  candidate p b s → size <= mb_size b → mb_size b -64 size < kDynamicMemAlignSize →
  let s' := MkAState (with_bufs (<[p := set_status kMemBufUsed b]> (bufs (a_mem s))) (a_mem s))
              (a_al s) (a_env s) in
  0 < size → state_ok s' ∧ extends s s' ∧ granted size p (set_status kMemBufUsed b) s s'.
Proof.
  intros Hc Hle Hrest s' Hpos. pose proof Hc as [Hmem Hal Henv Hb Hf Hk].
  destruct (buf_range _ _ _ _ Hmem Hb) as (Hr & _).
  rewrite u64_small in Hrest by lia.
  set (nb := set_status kMemBufUsed b) in *.
  assert (labels (<[p := nb]> (bufs (a_mem s))) = <[p := strip nb]> (labels (bufs (a_mem s))))
    as Hl by apply labels_insert.
  assert (segs (<[p := nb]> (bufs (a_mem s))) = segs (bufs (a_mem s))) as Hsg.
  { unfold segs. rewrite fmap_insert. apply insert_id. by rewrite lookup_fmap, Hb. }
  split_and!.
  - split; simpl; [|..|done].
    + eapply (relabel_mem_ok None _ _ p b nb); try done. by right.
    + destruct Hal as [Hnd Hbl Hi He Hky]. split; simpl; try done;
        (eapply (set_ok_release _ _ _ _ p nb);
          [by apply set_ok_insert_x|by rewrite lookup_insert_eq|done]).
  - apply extends_refl; try done. eapply foreign_eq_mono;
      [|by eapply (relabel_foreign (a_mem s) _ p b nb)]. set_solver.
  - split; simpl; try done.
    + by rewrite lookup_insert_eq.
    + by eapply candidate_events.
    + lia.
    + by eapply candidate_not_inuse.
    + by eapply relabel_inuse.
Qed.

Lemma take_part size p b q s l' :
  candidate p b s → q = fresh_ptr (a_mem s) → 0 < size < mb_size b →
  let m' := split_map p q b size (bufs (a_mem s)) in
  set_sorted m' l' → (∀ y, y ∈ l' ↔ y = q ∨ y ∈ list_of (mb_status b) (a_al s)) →
  let s' := MkAState (MkMem m' (blks (a_mem s)) (Pos.succ q))
              (set_list (mb_status b) l' (a_al s)) (a_env s) in
  let nb := set_status kMemBufUsed (set_size size (set_next (Some q) b)) in
  state_ok s' ∧ extends s s' ∧ granted size p nb s s'.
Proof.
  intros Hc -> Hsz m' Hs Hin s' nb. pose proof Hc as [Hmem Hal Henv Hb Hf Hk].
  assert (bufs (a_mem s) !! fresh_ptr (a_mem s) = None) as Hq.
  { destruct (bufs (a_mem s) !! fresh_ptr (a_mem s)) eqn:Hx; [|done].
    apply (mo_bufs_fresh _ _ Hmem) in Hx. by apply Pos.lt_irrefl in Hx. }
  pose proof (split_map_segs None (a_mem s) p _ b size Hmem Hb Hq Hsz) as Hsg.
  pose proof (split_map_labels p (fresh_ptr (a_mem s)) b size (bufs (a_mem s))) as Hl.
  split_and!.
  - split; simpl; [| |done].
    + eapply (split_mem_ok (a_mem s) _ p (fresh_ptr (a_mem s)) b _ (rest_buf b size) size);
        try done; lia.
    + by apply alloc_ok_split.
  - apply extends_refl; simpl; [done|apply set_list_blocks|apply set_list_cfg|].
    eapply (foreign_eq_mono [mb_mem_block b]); [set_solver|].
    eapply (split_foreign (a_mem s) _ p _ b _ (rest_buf b size) size
      (Pos.succ (fresh_ptr (a_mem s)))); try done; lia.
  - split; simpl; try done.
    + unfold m', split_map. by rewrite lookup_insert_eq.
    + by eapply candidate_events.
    + unfold kDynamicMemAlignSize. lia.
    + by rewrite set_list_blocks.
    + by eapply candidate_not_inuse.
    + by eapply (split_inuse (a_mem s) _ p (fresh_ptr (a_mem s)) b _ (rest_buf b size)).
Qed.

(** A candidate that is not used joins the set of its kind. *)
Lemma put_back size P p b s :
  candidate p b s →
  wp (by_status (mb_status b) (free_emplace p) (eager_emplace p);; mret None) s
    (alloc_post size P s).
Proof.
  intros Hc. pose proof Hc as [Hmem Hal Henv Hb Hf Hk].
  apply wp_bind. pose proof (alloc_ok_set_of _ _ _ _ Hf Hal) as Hset.
  apply (wp_by_emplace (mb_status b) p b); try done; [apply Hset| |].
  { eapply set_addr_ne; [done|apply Hmem|done|].
    intros Hin. by apply (se_members _ _ _ _ _ Hset) in Hin as [? _]. }
  intros l' Hs Hin. apply wp_ret. split_and!; simpl;
    [|apply extends_refl; [done|apply set_list_blocks|apply set_list_cfg|done]|done].
  destruct Hal as [Hnd Hbl Hi He Hky]. split; simpl; [done| |done].
  split; rewrite ?set_list_blocks; try done.
  - destruct (mb_status b) eqn:Hst; try done; simpl; [by eapply set_ok_join|].
    eapply set_ok_release; [done..|]. by rewrite Hst.
  - destruct (mb_status b) eqn:Hst; try done; simpl; [|by eapply set_ok_join].
    eapply set_ok_release; [done..|]. by rewrite Hst.
  - by destruct (mb_status b).
Qed.

Lemma if_idle_by_status st (m1 m2 : M (AState E) unit) : is_free st = true →
  (if status_eqb st kMemBufIdle then m1 else m2) = by_status st m1 m2.
Proof. unfold by_status. by destruct st. Qed.

Lemma SplitMemBuf_spec size p b s :
  candidate p b s → 0 < size < mb_size b →
  let q := fresh_ptr (a_mem s) in let m' := split_map p q b size (bufs (a_mem s)) in
  wp (SplitMemBuf p b size) s (λ _ s', ∃ m1 l',
    s' = MkAState (MkMem m1 (blks (a_mem s)) (Pos.succ q))
           (set_list (mb_status b) l' (a_al s)) (a_env s) ∧
    m1 !! p = Some (set_size size (set_next (Some q) b)) ∧
    <[p := set_status kMemBufUsed (set_size size (set_next (Some q) b))]> m1 = m' ∧
    set_sorted m' l' ∧ (∀ y, y ∈ l' ↔ y = q ∨ y ∈ list_of (mb_status b) (a_al s))).
Proof.
  intros Hc Hsz q m'. pose proof Hc as [Hmem Hal Henv Hb Hf Hk].
  assert (bufs (a_mem s) !! q = None) as Hq.
  { destruct (bufs (a_mem s) !! q) eqn:Hx; [|done].
    apply (mo_bufs_fresh _ _ Hmem) in Hx. by apply Pos.lt_irrefl in Hx. }
  assert (p ≠ q) as Hpq by congruence.
  pose proof (mo_segs _ _ Hmem) as Hsegs.
  pose proof (alloc_ok_set_of _ _ _ _ Hf Hal) as Hset.
  unfold SplitMemBuf. apply wp_bind, wp_alloc_buf. simpl. fold q.
  assert (∀ r, mb_next b = Some r → is_Some (bufs (a_mem s) !! r) ∧ r ≠ q ∧ r ≠ p) as Hr.
  { intros r Hr. destruct (seg_next _ _ Hsegs _ _ _ (segs_Some _ _ _ Hb) Hr)
      as (sr & Hsr & _ & _ & _ & Hrp). apply segs_inv in Hsr as (d & Hd & _).
    split_and!; [by eexists|congruence|done]. }
  fold (rest_buf b size). apply wp_bind, wp_when_update; simpl.
  { intros r Hrn. destruct (Hr r Hrn) as ([d Hd] & ? & ?). rewrite lookup_insert_ne; eauto. }
  apply wp_bind. eapply (wp_when_set_next _ _ (rest_buf b size)); [|done|].
  { simpl. rewrite lookup_alter_opt, decide_False, lookup_insert_eq; [done|].
    intros Hn. by destruct (Hr _ Hn) as (_ & ? & _). }
  simpl. apply wp_bind. eapply wp_update; simpl.
  { rewrite lookup_insert_ne, lookup_alter_opt, decide_False, lookup_insert_ne by
      (try done; intros Hn; by destruct (Hr _ Hn) as (_ & _ & ?)). done. }
  apply wp_bind. eapply wp_update; simpl.
  { by rewrite lookup_insert_ne, lookup_insert_eq. }
  apply wp_bind. set (m1 := <[q := _]> (<[p := _]> _)).
  assert (m1 = <[p := set_next (Some q) b]> m') as Hm1.
  { subst m1 m'. unfold split_map. apply map_eq. intros y.
    rewrite !lookup_insert, !lookup_alter_opt, !lookup_insert.
    destruct (decide (p = y)) as [->|]; destruct (decide (q = y)) as [->|]; by try done. }
  clearbody m1. subst m1.
  assert (∀ nb, labels (<[p := nb]> m') =
    <[p := strip nb]> (<[q := rest_buf b size]> (labels (bufs (a_mem s))))) as Hlab.
  { intros nb. unfold m'. by rewrite labels_insert, split_map_labels, insert_insert_eq. }
  set (m1 := <[p := set_next (Some q) b]> m') in *.
  assert (∀ y, y ∈ list_of (mb_status b) (a_al s) → y ≠ p ∧ y ≠ q) as Hyl.
  { intros y (? & d & ? & _)%(se_members _ _ _ _ _ Hset). split; congruence. }
  assert (∀ y, y ≠ p → y ≠ q → labels (bufs (a_mem s)) !! y = labels m1 !! y) as Hsame.
  { intros y ??. unfold m1. by rewrite Hlab, !lookup_insert_ne. }
  rewrite if_idle_by_status by done.
  apply (wp_by_emplace _ q (set_prev (Some p) (set_next (mb_next b) (rest_buf b size))));
    simpl; [done| | | |].
  - eapply set_sorted_keys; [|apply Hset]. intros y d Hy Hd. destruct (Hyl y Hy).
    destruct (labels_inv _ m1 y d (Hsame y ltac:(done) ltac:(done)) Hd) as (c & Hc' & Hcd).
    exists c. apply strip_fields in Hcd. naive_solver.
  - unfold m1, m', split_map. by rewrite lookup_insert_ne, lookup_insert_ne, lookup_insert_eq.
  - intros y d Hy Hd. destruct (Hyl y Hy).
    destruct (labels_inv m1 (bufs (a_mem s)) y d) as (c & Hc' & Hcd); [by rewrite Hsame|done|].
    apply strip_fields in Hcd as (_ & Had & _). rewrite <- Had. intros He.
    pose proof (buf_range _ _ _ _ Hmem Hc') as (Hrc & _). assert (p ≠ y) as Hpy by done.
    pose proof (so_disj _ _ Hsegs _ _ _ _ Hpy (segs_Some _ _ _ Hb) (segs_Some _ _ _ Hc')) as Hdj.
    unfold disjoint_range in Hdj. simpl in *. lia.
  - intros l' Hs Hin. eapply wp_update; simpl; [unfold m1; by rewrite lookup_insert_eq|].
    exists (<[p := set_size size (set_next (Some q) b)]> m1), l'. split_and!; try done.
    + by rewrite lookup_insert_eq.
    + unfold m1, m', split_map. by rewrite !insert_insert_eq.
    + eapply (set_sorted_except m1 _ p); [| |done].
      * intros y Hy. unfold m1, m'. rewrite labels_insert. by rewrite lookup_insert_ne.
      * intros [->|Hy]%Hin; [done|]. by destruct (Hyl _ Hy).
Qed.

(** Symbolic execution up to the candidate that is handed out. *)
Lemma MapMemBuf_spec size p b s :
  candidate p b s → wp (MapMemBuf cb b size) s (λ r s1, candidate p b s1 ∧
    a_mem s1 = a_mem s ∧ a_al s1 = a_al s ∧ (r = false → mb_status b = kMemBufEagerFree)).
Proof.
  intros Hc. unfold MapMemBuf, status_eqb. case_bool_decide as Hst; [|by apply wp_ret].
  apply wp_bind, wp_with_env. eapply wp_mono; [eapply mapper_spec, Hc|].
  intros n e He. apply wp_ret. split_and!; try done. by apply candidate_env.
Qed.

Lemma alloc_post_rebase size P s s1 r s' :
  a_mem s1 = a_mem s → a_al s1 = a_al s → alloc_post size P s1 r s' → alloc_post size P s r s'.
Proof.
  intros Hm Ha (Hok & [Hx1 Hx2 Hx3 Hx4] & Hres). rewrite Hm, Ha in *.
  split_and!; [done|by split|]. destruct r; [|done].
  destruct Hres as [b [[] ?]]. exists b. rewrite Hm in *. by split.
Qed.

(** Marking the (possibly cut) candidate and recording its border. *)
Lemma hand_out_spec size p b s :
  candidate p b s → 0 < size <= mb_size b →
  wp (whenM (kDynamicMemAlignSize <=? mb_size b -64 size) (SplitMemBuf p b size);;
      update p (set_status kMemBufUsed);;
      c' ← load p;
      update_blk (mb_mem_block c') (UpdateBorderAddr c');;
      mret (Some p)) s
    (λ r s', r = Some p ∧ alloc_post size (λ p' nb, p' = p ∧ mb_addr nb = mb_addr b) s r s').
Proof.
  intros Hc Hsz. pose proof Hc as [Hmem Hal Henv Hb Hf Hk].
  destruct (buf_range _ _ _ _ Hmem Hb) as (Hr & _).
  destruct (candidate_block _ _ _ Hc) as [k Hblk].
  apply wp_bind, wp_whenM; intros Hrest; bool_to_Z.
  - rewrite u64_small in Hrest by lia. unfold kDynamicMemAlignSize in Hrest.
    eapply wp_mono; [apply SplitMemBuf_spec; [done|lia]|].
    intros _ s1 (m1 & l' & -> & Hm1 & Hm' & Hs & Hin). apply wp_bind.
    eapply wp_update; [done|]. unfold put_mem, with_bufs. simpl. rewrite Hm'.
    destruct (take_part size p b _ s l' Hc eq_refl ltac:(lia) Hs Hin) as (? & ? & Hgr).
    eapply finish_alloc; try done.
  - apply wp_ret. apply wp_bind. eapply wp_update; [done|].
    destruct (take_whole size p b s Hc) as (? & ? & Hgr); [lia..|].
    eapply finish_alloc; try done.
Qed.

Lemma MapAndSplitMemBuf_spec size p b s :
  candidate p b s → 0 < size <= mb_size b →
  wp (MapAndSplitMemBuf cb p size) s (λ r s',
    (r = None → mb_status b = kMemBufEagerFree) ∧
    alloc_post size (λ p' nb, p' = p ∧ mb_addr nb = mb_addr b) s r s').
Proof.
  intros Hc Hsz. unfold MapAndSplitMemBuf. apply wp_bind. eapply wp_load; [apply Hc|].
  apply wp_bind. eapply wp_mono; [by eapply MapMemBuf_spec|].
  intros r s1 (Hc1 & Hm1 & Ha1 & Hr1).
  apply (wp_mono _ _ (λ r' s', (r' = None → mb_status b = kMemBufEagerFree) ∧
    alloc_post size (λ p' nb, p' = p ∧ mb_addr nb = mb_addr b) s1 r' s')).
  2: { intros r' s' [Hn Hp]. split; [exact Hn|by apply (alloc_post_rebase _ _ s s1)]. }
  destruct r; simpl.
  { eapply wp_mono; [by apply hand_out_spec|]. by intros r' s' [-> ?]. }
  pose proof (put_back size (λ p' nb, p' = p ∧ mb_addr nb = mb_addr b) p b s1 Hc1) as Hpb.
  rewrite Hr1 in Hpb by done. eapply wp_mono; [exact Hpb|]. auto.
Qed.

Lemma extends_trans s1 s2 s3 : extends s1 s2 → extends s2 s3 → extends s1 s3.
Proof.
  intros [(n1 & Hb1 & Hn1 & Hd1) Hg1 Hc1 Hf1] [(n2 & Hb2 & Hn2 & Hd2) Hg2 Hc2 Hf2].
  split; [| |congruence|].
  - exists (n1 ++ n2). split_and!; [by rewrite Hb2, Hb1, app_assoc| |].
    + intros k [Hk|Hk]%elem_of_app; [auto|]. specialize (Hn2 k Hk).
      destruct (blks (a_mem s1) !! k) eqn:Hx; [|done].
      assert (is_Some (blks (a_mem s2) !! k)) as [? ?] by (apply Hd1; left; by eexists).
      congruence.
    + intros k. rewrite Hd2, Hd1, elem_of_app. tauto.
  - intros k b Hk. destruct (Hg1 k b Hk) as (b' & Hb' & Hgb).
    destruct (Hg2 k b' Hb') as (b'' & Hb'' & Hgb'). exists b''. split; [done|congruence].
  - eapply foreign_eq_trans; [|done]. eapply foreign_eq_mono; [|done]. rewrite Hb2. set_solver.
Qed.

Lemma alloc_post_trans size P s s1 r s' :
  extends s s1 → inuse (bufs (a_mem s1)) = inuse (bufs (a_mem s)) →
  alloc_post size P s1 r s' → alloc_post size P s r s'.
Proof.
  intros Hex Hin (Hok & Hex' & Hres). split_and!; [done|by eapply extends_trans|].
  destruct r; [|congruence]. destruct Hres as [b [[] ?]]. exists b.
  split; [|done]. split; try done; congruence.
Qed.

(** The state right after a new block [k] with its single buffer [p]. *)
Lemma new_block_candidate s k c :
  let st := if enable_eager_free_ (a_al s) then kMemBufEagerFree else kMemBufIdle in
  let b := new_MemBuf (blk_size c) (blk_addr c) (blk_stream_id c) k st in
  let p : ptr := Pos.succ k in
  ∀ e, state_ok s → k = fresh_ptr (a_mem s) →
  (0 <= blk_addr c ∧ 0 < blk_size c < w64 ∧ blk_addr c + blk_size c <= w64) →
  (∀ l d, blks (a_mem s) !! l = Some d →
     disjoint_range (blk_addr c) (blk_size c) (blk_addr d) (blk_size d)) →
  env_ok e (<[k := c]> (blks (a_mem s))) →
  let s' := MkAState (MkMem (<[p := b]> (bufs (a_mem s))) (<[k := c]> (blks (a_mem s))) (Pos.succ p))
              (set_mem_blocks (mem_blocks_ (a_al s) ++ [k]) (a_al s)) e in
  candidate p b s' ∧ extends s s' ∧ inuse (bufs (a_mem s')) = inuse (bufs (a_mem s)).
Proof.
  intros st b p e [Hmem Hal _] Hk Hr Hd He s'.
  assert (p = Pos.succ k) as Hpd by done. clearbody p.
  assert (bufs (a_mem s) !! p = None) as Hp.
  { destruct (bufs (a_mem s) !! p) eqn:Hx; [|done]. apply (mo_bufs_fresh _ _ Hmem) in Hx.
    lia. }
  assert (blks (a_mem s) !! k = None) as Hkn.
  { destruct (blks (a_mem s) !! k) eqn:Hx; [|done]. apply (mo_blks_fresh _ _ Hmem) in Hx.
    lia. }
  assert (is_free st = true) as Hst by (unfold st; by case_match).
  assert (∀ q d, bufs (a_mem s) !! q = Some d → mb_mem_block d ≠ k) as Hold.
  { intros q d Hq. destruct (buf_range _ _ _ _ Hmem Hq) as (_ & _ & _ & x & ? & _). congruence. }
  assert (∀ t l, set_ok None (bufs (a_mem s)) t (mem_blocks_ (a_al s)) l →
    set_ok (Some p) (<[p := b]> (bufs (a_mem s))) t (mem_blocks_ (a_al s) ++ [k]) l) as Hset.
  { intros t l [Hso Hm]. split.
    - eapply set_sorted_keys; [|done]. intros y d Hy Hd'. exists d.
      rewrite lookup_insert_ne by congruence. done.
    - intros y. rewrite Hm. split.
      + intros (_ & d & Hy & ? & ?). split; [congruence|]. exists d.
        rewrite lookup_insert_ne by congruence. set_solver.
      + intros (Hyp & d & Hy & ? & Hin). split; [done|]. rewrite lookup_insert_ne in Hy by congruence.
        exists d. split_and!; try done. apply elem_of_app in Hin as [|Hin]; [done|].
        apply list_elem_of_singleton in Hin. by destruct (Hold _ _ Hy). }
  split_and!; [split; simpl|split; simpl|].
  - destruct Hmem as [Hs Hb Hf Hbf Hev Hc]. split; simpl.
    + unfold segs. rewrite fmap_insert. apply add_block_segs_ok; try done.
      by rewrite lookup_fmap, Hp.
    + by apply add_block_blks_ok.
    + intros q d. rewrite lookup_insert. case_decide; intros Hq; [subst; lia|].
      apply Hf in Hq. lia.
    + intros q d. rewrite lookup_insert. case_decide; intros Hq; [subst; lia|].
      apply Hbf in Hq. lia.
    + intros q d. rewrite lookup_insert. case_decide; intros Hq; simplify_eq; [done|eauto].
    + intros x d y d' Hx Hn Hy _ _ Hsd. rewrite lookup_insert in Hx, Hy.
      destruct (decide (p = x)); [by injection Hx as <-|].
      destruct (decide (p = y)) as [<-|].
      * destruct (seg_next _ _ Hs _ _ _ (segs_Some _ _ _ Hx) Hn) as (? & Hq & _).
        rewrite lookup_segs, Hp in Hq. done.
      * by apply (Hc x d y d').
  - destruct Hal as [Hnd Hb Hi Heg Hky]. split; simpl; try done; [| |by apply Hset..].
    + apply NoDup_app. split_and!; [done| |apply NoDup_singleton].
      intros x Hx ->%list_elem_of_singleton. apply Hb in Hx as [? ?]. congruence.
    + intros x [Hx|Hx]%elem_of_app; rewrite lookup_insert; case_decide; try done.
      * apply Hb in Hx. done.
      * apply list_elem_of_singleton in Hx. congruence.
  - done.
  - by rewrite lookup_insert_eq.
  - done.
  - set_solver.
  - exists [k]. split_and!; [done| |].
    + by intros x ->%list_elem_of_singleton.
    + intros x. rewrite lookup_insert, list_elem_of_singleton. case_decide; subst.
      * split; [by right|by eexists].
      * naive_solver.
  - intros l d Hl. exists d. rewrite lookup_insert_ne by congruence. done.
  - done.
  - intros q d Hd'. destruct (decide (q = p)) as [->|].
    + rewrite lookup_insert_eq. rewrite Hp. split; [done|].
      intros [= <-]. destruct Hd'. simpl. set_solver.
    + by rewrite lookup_insert_ne.
  - apply map_eq. intros q. rewrite !lookup_inuse. simpl. rewrite lookup_insert.
    case_decide; subst; [|done]. rewrite Hp. simpl. by rewrite Hst.
Qed.

Lemma MallocExpandBlock_spec size s :
  state_ok s → 0 < size <= 2 ^ 63 →
  wp (MallocExpandBlock cb size) s (alloc_post size (λ _ _, True) s).
Proof.
  intros Hok Hsz. pose proof Hok as [Hmem Hal Henv].
  unfold MallocExpandBlock, ExpandBlock. apply wp_bind, wp_bind, wp_with_mem_env.
  eapply wp_mono; [apply expander_spec; [done|apply Hmem|apply (mo_blks_fresh _ _ Hmem)|done]|].
  intros [k|] [h' e']; simpl.
  2: { intros [-> He']. apply wp_ret, wp_ret. split_and!; [|by apply extends_refl|done].
       by split. }
  intros (c & Hk & -> & Hr & Hd & He'). apply wp_bind, wp_modify, wp_ret.
  apply wp_bind. eapply wp_load_blk; [simpl; by rewrite lookup_insert_eq|].
  apply wp_bind, wp_gets, wp_bind, wp_alloc_buf. simpl.
  apply wp_bind. eapply wp_load; [simpl; by rewrite lookup_insert_eq|]. simpl.
  destruct (new_block_candidate s k c e' Hok Hk Hr Hd He') as (Hc & Hex & Hin).
  eapply wp_mono; [|intros ??; apply (alloc_post_trans _ _ _ _ _ _ Hex Hin)].
  destruct (Z.ltb_spec (blk_size c) size).
  - rewrite if_idle_by_status by apply (cd_free _ _ _ Hc).
    apply (put_back size _ _ _ _ Hc).
  - eapply wp_mono; [apply (MapAndSplitMemBuf_spec size _ _ _ Hc); simpl; lia|].
    intros ?? [_ ?]. by eapply alloc_post_weaken.
Qed.

(** A free buffer of the allocator. *)
Definition free_of (st : MemBufStatus) (p : ptr) (b : MemBuf) s : Prop :=
  bufs (a_mem s) !! p = Some b ∧ mb_status b = st ∧ mb_mem_block b ∈ mem_blocks_ (a_al s).

(** [p] is the best fit for [size] among the free buffers of kind [st]:
    the smallest that is large enough, and of those the one at the lowest address. *)
Definition best_fit (st : MemBufStatus) (size : Z) (p : ptr) (b : MemBuf) s : Prop :=
  free_of st p b s ∧ size <= mb_size b ∧
  ∀ q c, free_of st q c s → size <= mb_size c → q = p ∨ key_lt b c.

Lemma lower_bound_best_fit st l size s :
  mem_ok None (a_mem s) → set_ok None (bufs (a_mem s)) st (mem_blocks_ (a_al s)) l →
  ∀ key, mb_size key = size → mb_addr key = 0 →
  ∃ r, set_lower_bound (bufs (a_mem s)) key l = Some r ∧
    match r with
    | None => ∀ q c, free_of st q c s → mb_size c < size
    | Some p => p ∈ l ∧ ∃ b, best_fit st size p b s
    end.
Proof.
  intros Hmem [Hso Hm] key Hks Hka.
  assert (∀ q c, bufs (a_mem s) !! q = Some c → ¬ key_lt c key ↔ size <= mb_size c) as Hkey.
  { intros q c Hq. destruct (buf_range _ _ _ _ Hmem Hq) as (_ & ? & _). unfold key_lt. lia. }
  destruct (set_lower_bound_spec _ key l Hso) as (r & -> & Hr). exists r. split; [done|].
  destruct r as [p|].
  - destruct Hr as (Hp & b & Hb & Hnk & Hmin). split; [done|]. exists b.
    pose proof (proj1 (Hm p) Hp) as (_ & b' & Hb' & Hst & Hk).
    assert (b' = b) as -> by congruence. split_and!; [done|by apply (Hkey p)|].
    intros q c (Hq & Hqs & Hqk) Hsz. apply (Hmin q c); [|done|by apply (Hkey q)].
    apply Hm. split; [done|]. by exists c.
  - intros q c (Hq & Hqs & Hqk). destruct (buf_range _ _ _ _ Hmem Hq) as (_ & ? & _).
    assert (key_lt c key) as Hlt; [|unfold key_lt in Hlt; lia].
    apply (Hr q c); [|done]. apply Hm. split; [done|]. by exists c.
Qed.

Lemma take_free_candidate st p b s l :
  state_ok s → is_free st = true → free_of st p b s →
  set_ok None (bufs (a_mem s)) st (mem_blocks_ (a_al s)) l → list_of st (a_al s) = l →
  candidate p b (MkAState (a_mem s) (set_list st (set_erase_it p l) (a_al s)) (a_env s)).
Proof.
  intros [Hmem Hal Henv] Hf (Hb & Hst & Hk) Hset Hl.
  destruct (set_erase_it_spec _ p l (se_sorted _ _ _ _ _ Hset)) as [Hso Hin].
  assert (∀ st' l', is_free st' = true → st' ≠ st →
    set_ok None (bufs (a_mem s)) st' (mem_blocks_ (a_al s)) l' →
    set_ok (Some p) (bufs (a_mem s)) st' (mem_blocks_ (a_al s)) l') as Hother.
  { intros st' l' Hf' Hne Hset'. eapply set_ok_exempt; [|done..].
    intros Hp. apply (se_members _ _ _ _ _ Hset') in Hp as (_ & c & ? & ? & _). congruence. }
  assert (set_ok (Some p) (bufs (a_mem s)) st (mem_blocks_ (a_al s)) (set_erase_it p l)) as Hself.
  { split; [done|]. intros q. rewrite Hin, (se_members _ _ _ _ _ Hset). naive_solver. }
  split; simpl; rewrite ?set_list_blocks; try done; [|by rewrite Hst].
  destruct Hal as [Hnd Hbl Hi He Hky]. split; rewrite ?set_list_blocks; try done.
  - destruct st; try done; by apply Hother.
  - destruct st; try done; by apply Hother.
  - by destruct st.
Qed.

(** Which candidate [Malloc] takes: the best idle fit, else the best eager-free
    fit, else none because no free buffer is large enough. *)
Definition taken (size : Z) s (r : option ptr) s' : Prop :=
  match r with
  | Some p => ∃ b, (best_fit kMemBufIdle size p b s ∨
       (∀ q c, free_of kMemBufIdle q c s → mb_size c < size) ∧
       best_fit kMemBufEagerFree size p b s) ∧ candidate p b s'
  | None => s' = s ∧ ∀ st q c, is_free st = true → free_of st q c s → mb_size c < size
  end.

Lemma TakeCandidate_spec size s :
  state_ok s → mb_size (search_key_ (a_al s)) = size →
  wp TakeCandidate s (λ r s', taken size s r s' ∧ a_mem s' = a_mem s ∧ a_env s' = a_env s ∧
    mem_blocks_ (a_al s') = mem_blocks_ (a_al s) ∧ al_cfg (a_al s') = al_cfg (a_al s)).
Proof.
  intros Hok Hsz. pose proof Hok as [Hmem Hal Henv]. pose proof Hal as [_ _ Hi He Hky].
  unfold TakeCandidate. apply wp_bind, wp_gets.
  destruct (lower_bound_best_fit _ _ size _ Hmem Hi (search_key_ (a_al s)) Hsz Hky)
    as (r & Hr & Hrs). apply wp_bind. unfold wp at 1. rewrite Hr. simpl.
  destruct r as [p|].
  { destruct Hrs as (Hp & b & Hbf). apply wp_bind, wp_modify, wp_ret. simpl.
    split_and!; try done. exists b. split; [by left|].
    apply (take_free_candidate kMemBufIdle _ _ s); try done. apply Hbf. }
  destruct (lower_bound_best_fit _ _ size _ Hmem He (search_key_ (a_al s)) Hsz Hky)
    as (r & Hr' & Hrs'). apply wp_bind. unfold wp at 1. rewrite Hr'. simpl.
  destruct r as [p|].
  - destruct Hrs' as (Hp & b & Hbf). apply wp_bind, wp_modify, wp_ret. simpl.
    split_and!; try done. exists b. split; [by right|].
    apply (take_free_candidate kMemBufEagerFree _ _ s); try done. apply Hbf.
  - apply wp_ret. split_and!; try done. simpl. split; [by destruct s|].
    intros st q c Hf. destruct st; try done; [apply Hrs|apply Hrs'].
Qed.

(** The free buffer [Malloc] cuts the grant from. *)
Definition chosen (size : Z) s (p : ptr) (nb : MemBuf) : Prop :=
  ∃ b, (best_fit kMemBufIdle size p b s ∨
        (∀ q c, free_of kMemBufIdle q c s → mb_size c < size) ∧
        best_fit kMemBufEagerFree size p b s) ∧
       mb_addr nb = mb_addr b.

Lemma Malloc_spec size s :
  state_ok s → 0 < size <= 2 ^ 63 →
  wp (Malloc cb size) s (λ r s',
    alloc_post size (λ p nb, mem_blocks_ (a_al s) ≠ [] → chosen size s p nb) s r s' ∧
    (mem_blocks_ (a_al s) ≠ [] → r = None →
      (∀ q c, free_of kMemBufIdle q c s → mb_size c < size) ∧
      ((∀ q c, free_of kMemBufEagerFree q c s → mb_size c < size) → a_mem s' = a_mem s))).
Proof.
  intros Hok Hsz. unfold Malloc. apply wp_bind, wp_gets.
  destruct (mem_blocks_ (a_al s)) as [|k0 ks] eqn:Hblks.
  { eapply wp_mono; [by apply MallocExpandBlock_spec|]. intros ???. split; [|done].
    eapply alloc_post_weaken; [|done]. done. }
  apply wp_bind, wp_modify. set (s1 := MkAState _ _ _).
  assert (state_ok s1) as Hok1.
  { destruct Hok as [Hmem [] Henv]. split; simpl; try done. }
  assert (extends s s1) as Hex1 by (by apply extends_refl).
  apply wp_bind. eapply wp_mono; [by apply (TakeCandidate_spec size)|].
  intros r s2 (Hr & Hm2 & He2 & Hb2 & Hc2).
  assert (extends s1 s2) as Hex2 by (apply extends_refl; rewrite ?Hm2; done).
  assert (extends s s2) as Hex by (by eapply extends_trans).
  assert (inuse (bufs (a_mem s2)) = inuse (bufs (a_mem s))) as Hin by (by rewrite Hm2).
  destruct r as [p|].
  - destruct Hr as (b & Hbf & Hcd).
    eapply wp_mono; [eapply MapAndSplitMemBuf_spec; [done|]|].
    + destruct Hbf as [(_ & ? & _)|(_ & _ & ? & _)]; lia.
    + intros r s3 [Hnone Hpost]. split.
      * apply (alloc_post_trans _ _ _ _ _ _ Hex Hin).
        eapply alloc_post_weaken; [|done]. intros p' nb [-> Haddr] _. by exists b.
      * intros _ Hr. specialize (Hnone Hr).
        destruct Hbf as [((_ & Hst & _) & _)|[Hidle ((Hb & Hst & Hk) & Hle & _)]].
        { change (mb_status b = kMemBufIdle) in Hst. congruence. }
        split; [exact Hidle|]. intros Heag.
        assert (free_of kMemBufEagerFree p b s) as Hf by done.
        specialize (Heag _ _ Hf). lia.
  - destruct Hr as [-> Hall]. apply wp_ret. split; [split_and!; done|]. intros _ _. split.
    + intros q c Hq. by apply (Hall kMemBufIdle q c).
    + done.
Qed.
End malloc.
