(* ===== verification/AllocMaint.v ===== *)
(** * Eager free and release of an allocator

    [FreeIdleMemsByEagerFree] turns every idle buffer into an eager-free one while
    it iterates over the set the buffers are in; [ReleaseDeviceRes] and the
    destructor delete every block and free buffer exactly once. *)

From S2P Require Import Prelude EventBase MemBufHeap MemGeometry MemBufSet MemBufAllocator AllocInvariant AllocSteps AllocFree AllocMalloc.

(** Bytes held by a list of buffers. *)
Definition sum_sizes (m : gmap ptr MemBuf) (l : list ptr) : Z :=
  foldr (λ p n, from_option mb_size 0 (m !! p) + n) 0 l.

Lemma sum_sizes_app m l1 l2 : sum_sizes m (l1 ++ l2) = sum_sizes m l1 + sum_sizes m l2.
Proof. induction l1 as [|x l1 IH]; simpl; [done|]. rewrite IH. lia. Qed.

Lemma size_of_labels m m' p : labels m !! p = labels m' !! p →
  from_option mb_size 0 (m !! p) = from_option mb_size 0 (m' !! p).
Proof.
  rewrite !lookup_labels. destruct (m !! p), (m' !! p); simpl; try done.
  by intros [= ->].
Qed.

(** [m] without the keys in [l]. *)
Definition remove_all {A} (l : list ptr) (m : gmap ptr A) : gmap ptr A :=
  filter (λ kv, kv.1 ∉ l) m.

Lemma lookup_remove_all {A} (l : list ptr) (m : gmap ptr A) x :
  remove_all l m !! x = if decide (x ∈ l) then None else m !! x.
Proof.
  unfold remove_all. destruct (decide (x ∈ l)) as [Hx|Hx].
  - apply map_lookup_filter_None. right. intros a _ H. done.
  - destruct (m !! x) as [a|] eqn:Ha.
    + by apply map_lookup_filter_Some.
    + apply map_lookup_filter_None. by left.
Qed.

Lemma remove_all_nil {A} (m : gmap ptr A) : remove_all [] m = m.
Proof. apply map_eq. intros x. by rewrite lookup_remove_all. Qed.

Lemma remove_all_cons {A} x l (m : gmap ptr A) : remove_all (x :: l) m = remove_all l (delete x m).
Proof.
  apply map_eq. intros y. rewrite !lookup_remove_all, lookup_delete.
  destruct (decide (y ∈ x :: l)), (decide (y ∈ l)), (decide (x = y)); set_solver.
Qed.

Lemma remove_all_app {A} l1 l2 (m : gmap ptr A) :
  remove_all (l1 ++ l2) m = remove_all l2 (remove_all l1 m).
Proof.
  apply map_eq. intros y. rewrite !lookup_remove_all.
  destruct (decide (y ∈ l1 ++ l2)), (decide (y ∈ l1)), (decide (y ∈ l2)); set_solver.
Qed.

Section maint.
Context {E : Type} (cb : Callbacks E) (env_ok : E → gmap ptr MemBlock → Prop).
Context `{!DeviceLaws cb env_ok}.
Implicit Types (s : AState E).
Import MemBufAllocator.

(** One idle buffer [x] leaves, while the rest of the set is still to come. *)
Lemma idle_to_eager x rest s :
  mem_ok None (a_mem s) → alloc_ok None (a_mem s) (set_free (x :: rest) (a_al s)) →
  ∃ b, bufs (a_mem s) !! x = Some b ∧ mb_status b = kMemBufIdle ∧
  wp (Free x kMemBufEagerFree) s (λ r s', r = true ∧ released x kMemBufEagerFree s s' ∧
    mem_ok None (a_mem s') ∧ alloc_ok None (a_mem s') (set_free rest (a_al s'))).
Proof.
  intros Hmem [Hnd Hbl [Hso Hm] He Hky]. simpl in *.
  destruct (proj1 (Hm x) ltac:(set_solver)) as (_ & b & Hb & Hst & Hk).
  exists b. split_and!; [done..|].
  apply set_sorted_cons in Hso as Hso'. destruct Hso' as (_ & Hlt & Hso').
  pose proof (set_sorted_NoDup _ _ Hso) as Hndl. apply NoDup_cons in Hndl as [Hx _].
  apply (Free_core x kMemBufEagerFree rest b); try done.
  - apply (mo_events _ _ Hmem x b); [done|]. by rewrite Hst.
  - by apply mem_ok_weaken.
  - split; simpl; try done.
    + split; [done|]. intros y. specialize (Hm y). rewrite elem_of_cons in Hm.
      destruct (decide (y = x)) as [->|]; naive_solver.
    + eapply set_ok_exempt; [|done..]. intros Hin.
      apply (se_members _ _ _ _ _ He) in Hin as (_ & c & ? & ? & _). congruence.
Qed.

(** Loop invariant of the first loop: [rest] is still idle. *)
Definition idle_loop s0 (rest : list ptr) (acc : Z) s : Prop :=
  mem_ok None (a_mem s) ∧ alloc_ok None (a_mem s) (set_free rest (a_al s)) ∧
  (∃ past, free_mem_bufs_ (a_al s0) = past ++ rest ∧
     acc = u64 (sum_sizes (bufs (a_mem s0)) past)) ∧
  (∀ y, y ∈ rest → labels (bufs (a_mem s)) !! y = labels (bufs (a_mem s0)) !! y) ∧
  blks (a_mem s) = blks (a_mem s0) ∧ a_env s = a_env s0 ∧
  inuse (bufs (a_mem s)) = inuse (bufs (a_mem s0)) ∧
  foreign_eq (mem_blocks_ (a_al s0)) (bufs (a_mem s0)) (bufs (a_mem s)) ∧
  mem_blocks_ (a_al s) = mem_blocks_ (a_al s0) ∧ al_cfg (a_al s) = al_cfg (a_al s0).

Lemma idle_loop_step s0 x rest acc s :
  idle_loop s0 (x :: rest) acc s →
  wp (b ← load x; Free x kMemBufEagerFree;; mret (acc +64 mb_size b)) s (idle_loop s0 rest).
Proof.
  intros (Hmem & Hal & (past & Hp & Hacc) & Hlab & Hbk & Hev & Hin & Hf & Hmb & Hcf).
  destruct (idle_to_eager x rest s Hmem Hal) as (b & Hb & Hst & Hwp).
  apply wp_bind. eapply wp_load; [done|]. apply wp_bind.
  eapply wp_mono; [exact Hwp|]. intros r s' (-> & [] & Hmem' & Hal'). apply wp_ret.
  assert (x ∉ rest) as Hx.
  { pose proof (set_sorted_NoDup _ _ (se_sorted _ _ _ _ _ (ao_idle _ _ _ Hal))) as Hnd.
    by apply NoDup_cons in Hnd as [? _]. }
  split_and!; try done; try congruence.
  - exists (past ++ [x]). split; [by rewrite <- app_assoc|].
    rewrite sum_sizes_app. simpl. rewrite Hacc, u64_add_l. f_equal.
    rewrite <- (size_of_labels (bufs (a_mem s))) by (apply Hlab; set_solver).
    rewrite Hb. simpl. lia.
  - intros y Hy. rewrite <- (Hlab y) by set_solver.
    assert (y ∈ x :: rest) as Hyi by set_solver.
    apply (se_members _ _ _ _ _ (ao_idle _ _ _ Hal)) in Hyi as (_ & c & Hc & Hcs & _).
    assert (labels (bufs (a_mem s)) !! y = Some (strip c)) as Hlc by (by rewrite lookup_labels, Hc).
    rewrite Hlc. apply rl_kept; [congruence| |done]. simpl. by rewrite Hcs.
  - rewrite rl_inuse, <- Hin. apply delete_id. rewrite lookup_inuse, Hb. simpl. by rewrite Hst.
  - eapply foreign_eq_trans; [done|]. by rewrite <- Hmb.
Qed.

Lemma FreeIdleMemsByEagerFree_spec s :
  state_ok env_ok s →
  wp (FreeIdleMemsByEagerFree cb) s (λ r s',
    state_ok env_ok s' ∧ extends s s' ∧ free_mem_bufs_ (a_al s') = [] ∧
    inuse (bufs (a_mem s')) = inuse (bufs (a_mem s)) ∧
    blks (a_mem s') = blks (a_mem s) ∧ mem_blocks_ (a_al s') = mem_blocks_ (a_al s) ∧
    r.1 = u64 (sum_sizes (bufs (a_mem s)) (free_mem_bufs_ (a_al s)))).
Proof.
  intros [Hmem Hal Henv]. unfold FreeIdleMemsByEagerFree. apply wp_bind, wp_gets, wp_bind.
  apply (wp_forM _ _ _ _ (idle_loop s)).
  - split_and!; try done; [by destruct Hal|]. by exists [].
  - intros. by apply idle_loop_step.
  - intros acc s1 (Hmem1 & Hal1 & (past & Hp & Hacc) & _ & Hbk & Hev & Hin & Hf & Hmb & Hcf).
    rewrite app_nil_r in Hp. subst past.
    apply wp_bind, wp_modify, wp_bind, wp_gets, wp_bind.
    set (s2 := MkAState (a_mem s1) (set_free [] (a_al s1)) (a_env s1)).
    apply (wp_forM _ _ _ _ (λ rest _ s3, a_mem s3 = a_mem s2 ∧ a_al s3 = a_al s2 ∧
      env_ok (a_env s3) (blks (a_mem s2)) ∧
      ∀ y, y ∈ rest → is_Some (bufs (a_mem s2) !! y))).
    + simpl. split_and!; try done; [by rewrite Hev, Hbk|].
      intros y Hy. apply (se_members _ _ _ _ _ (ao_eager _ _ _ Hal1)) in Hy as (_ & b & ? & _).
      eauto.
    + intros x rest acc' s3 (Hm3 & Ha3 & He3 & Hl). destruct (Hl x) as [b Hb]; [set_solver|].
      apply wp_bind. eapply wp_load; [simpl; by rewrite Hm3|].
      apply wp_bind, wp_with_env. eapply wp_mono; [by eapply eager_freer_spec|].
      intros n e He. apply wp_ret. split_and!; try done. intros y Hy. apply Hl. set_solver.
    + intros acc' s3 (Hm3 & Ha3 & He3 & _). apply wp_ret. rewrite Hm3, Ha3 in *. simpl.
      split_and!; try done.
      * split; rewrite ?Hm3, ?Ha3; done.
      * apply (extends_refl cb env_ok); rewrite ?Hm3, ?Ha3; simpl; try done. by rewrite Hbk.
Qed.

Lemma wp_delete_bufs l s (Q : unit → AState E → Prop) :
  NoDup l → (∀ p, p ∈ l → is_Some (bufs (a_mem s) !! p)) →
  Q () (MkAState (with_bufs (remove_all l (bufs (a_mem s))) (a_mem s)) (a_al s) (a_env s)) →
  wp (delete_bufs l) s Q.
Proof.
  revert s. induction l as [|x l IH]; intros s Hnd Hl HQ; unfold delete_bufs; simpl.
  - apply wp_ret. rewrite remove_all_nil in HQ. by destruct s as [[] ? ?].
  - apply NoDup_cons in Hnd as [Hx Hnd]. apply wp_bind, wp_delete_buf; [apply Hl; set_solver|].
    apply IH; [done| |].
    + intros p Hp. simpl. rewrite lookup_delete_ne by congruence. apply Hl. set_solver.
    + by rewrite remove_all_cons in HQ.
Qed.

Lemma wp_delete_blks l s (Q : unit → AState E → Prop) :
  NoDup l → (∀ k, k ∈ l → is_Some (blks (a_mem s) !! k)) →
  Q () (MkAState (with_blks (remove_all l (blks (a_mem s))) (a_mem s)) (a_al s) (a_env s)) →
  wp (delete_blks l) s Q.
Proof.
  revert s. induction l as [|x l IH]; intros s Hnd Hl HQ; unfold delete_blks; simpl.
  - apply wp_ret. rewrite remove_all_nil in HQ. by destruct s as [[] ? ?].
  - apply NoDup_cons in Hnd as [Hx Hnd]. apply wp_bind, wp_delete_blk; [apply Hl; set_solver|].
    apply IH; [done| |].
    + intros p Hp. simpl. rewrite lookup_delete_ne by congruence. apply Hl. set_solver.
    + by rewrite remove_all_cons in HQ.
Qed.

(** What an allocator owns on the heap, each object once. *)
Record owns s : Prop := {
  ow_blks_nodup : NoDup (mem_blocks_ (a_al s));
  ow_blks : ∀ k, k ∈ mem_blocks_ (a_al s) → is_Some (blks (a_mem s) !! k);
  ow_bufs_nodup : NoDup (free_mem_bufs_ (a_al s) ++ eager_free_mem_bufs_ (a_al s));
  ow_bufs : ∀ p, p ∈ free_mem_bufs_ (a_al s) ++ eager_free_mem_bufs_ (a_al s) →
    is_Some (bufs (a_mem s) !! p)
}.

Lemma alloc_ok_owns s : alloc_ok None (a_mem s) (a_al s) → owns s.
Proof.
  intros [Hnd Hb Hi He _]. split; try done.
  - apply NoDup_app. split_and!.
    + eapply set_sorted_NoDup, Hi.
    + intros x (_ & b & Hx & Hst & _)%(se_members _ _ _ _ _ Hi)
        (_ & c & Hx' & Hst' & _)%(se_members _ _ _ _ _ He). congruence.
    + eapply set_sorted_NoDup, He.
  - intros p [Hp|Hp]%elem_of_app.
    + apply (se_members _ _ _ _ _ Hi) in Hp as (_ & b & ? & _). eauto.
    + apply (se_members _ _ _ _ _ He) in Hp as (_ & b & ? & _). eauto.
Qed.

Definition owned_bufs (a : Allocator) : list ptr := free_mem_bufs_ a ++ eager_free_mem_bufs_ a.

Definition emptied (a : Allocator) : Allocator :=
  set_eager [] (set_free [] (set_mem_blocks [] a)).

(** The common tail of the destructor and of [ReleaseDeviceRes]. *)
Lemma wp_delete_all s (Q : unit → AState E → Prop) :
  owns s →
  Q () (MkAState (MkMem (remove_all (owned_bufs (a_al s)) (bufs (a_mem s)))
                    (remove_all (mem_blocks_ (a_al s)) (blks (a_mem s))) (fresh_ptr (a_mem s)))
          (emptied (a_al s)) (a_env s)) →
  wp (delete_blks (mem_blocks_ (a_al s));; put_al (set_mem_blocks []);;
      delete_bufs (free_mem_bufs_ (a_al s));; put_al (set_free []);;
      delete_bufs (eager_free_mem_bufs_ (a_al s));; put_al (set_eager [])) s Q.
Proof.
  intros [Hbn Hb Hfn Hf] HQ. apply NoDup_app in Hfn as (Hn1 & Hne & Hn2).
  apply wp_bind, wp_delete_blks; [done..|]. apply wp_bind, wp_modify, wp_bind.
  apply wp_delete_bufs; [done|intros p Hp; apply Hf; set_solver|].
  apply wp_bind, wp_modify, wp_bind.
  apply wp_delete_bufs; [done| |].
  { intros p Hp. simpl. rewrite lookup_remove_all, decide_False by (intros ?; by eapply Hne).
    apply Hf. set_solver. }
  apply wp_modify. simpl. unfold owned_bufs in HQ. rewrite remove_all_app in HQ. exact HQ.
Qed.

Lemma dtor_spec s : owns s →
  wp dtor s (λ _ s', a_al s' = emptied (a_al s) ∧ a_env s' = a_env s ∧
    bufs (a_mem s') = remove_all (owned_bufs (a_al s)) (bufs (a_mem s)) ∧
    blks (a_mem s') = remove_all (mem_blocks_ (a_al s)) (blks (a_mem s))).
Proof. intros Ho. unfold dtor. apply wp_bind, wp_gets. by apply wp_delete_all. Qed.

(** Release: every block goes back to the device, then every object is deleted. *)
Lemma ReleaseDeviceRes_spec s :
  owns s → env_ok (a_env s) (blks (a_mem s)) →
  wp (ReleaseDeviceRes cb) s (λ _ s', a_al s' = emptied (a_al s) ∧
    bufs (a_mem s') = remove_all (owned_bufs (a_al s)) (bufs (a_mem s)) ∧
    blks (a_mem s') = remove_all (mem_blocks_ (a_al s)) (blks (a_mem s)) ∧
    fresh_ptr (a_mem s') = fresh_ptr (a_mem s) ∧
    env_ok (a_env s') (blks (a_mem s'))).
Proof.
  intros Ho Henv. pose proof Ho as [Hbn Hb _ _].
  unfold ReleaseDeviceRes. apply wp_bind, wp_gets, wp_bind.
  apply (wp_forM _ _ _ _ (λ rest _ s1, NoDup rest ∧ a_mem s1 = a_mem s ∧ a_al s1 = a_al s ∧
    ∃ past, mem_blocks_ (a_al s) = past ++ rest ∧
      env_ok (a_env s1) (remove_all past (blks (a_mem s))))).
  - split_and!; try done. exists []. by rewrite remove_all_nil.
  - intros k rest [] s1 (Hnd & Hm & Ha & past & Hp & He). apply NoDup_cons in Hnd as [Hk Hnd].
    assert (NoDup (past ++ k :: rest)) as Hnd' by (by rewrite <- Hp).
    apply NoDup_app in Hnd' as (_ & Hne & _).
    destruct (Hb k) as [b Hbk]; [rewrite Hp; set_solver|].
    apply wp_bind, wp_with_mem_env. eapply wp_mono; [eapply cleaner_spec; [done| |by rewrite Hm]|].
    { rewrite lookup_remove_all, decide_False; [done|]. intros Hin. apply (Hne _ Hin). set_solver. }
    intros r [h' e'] [Hh' He']. simpl in *. subst h'. apply wp_ret.
    split_and!; try done. exists (past ++ [k]). split; [by rewrite <- app_assoc|].
    rewrite remove_all_app, remove_all_cons, remove_all_nil. done.
  - intros [] s1 (_ & Hm & Ha & past & Hp & He). rewrite app_nil_r in Hp. subst past.
    rewrite <- Ha in *. apply wp_delete_all.
    + destruct Ho. split; by rewrite ?Hm, ?Ha.
    + simpl. rewrite Hm. done.
Qed.

(** ** Accounting *)

Definition in_blocks (ks : list ptr) (b : MemBuf) : bool := bool_decide (mb_mem_block b ∈ ks).
Definition kind_size (st : MemBufStatus) (ks : list ptr) (m : gmap ptr MemBuf) : Z :=
  msum (λ b, if status_eqb (mb_status b) st && in_blocks ks b then mb_size b else 0) m.
(** Bytes handed out from the blocks [ks]. *)
Definition used_size (ks : list ptr) (m : gmap ptr MemBuf) : Z :=
  msum (λ b, if negb (is_free (mb_status b)) && in_blocks ks b then mb_size b else 0) m.
Definition blocks_size (ks : list ptr) (B : gmap ptr MemBlock) : Z :=
  foldr (λ k n, from_option blk_size 0 (B !! k) + n) 0 ks.

Lemma sum_sizes_kind st ks l m :
  set_ok None m st ks l → sum_sizes m l = kind_size st ks m.
Proof.
  intros [Hso Hm]. unfold sum_sizes, kind_size.
  apply (msum_list (λ b, status_eqb (mb_status b) st && in_blocks ks b) mb_size).
  - by eapply set_sorted_NoDup.
  - intros p. rewrite Hm. unfold status_eqb, in_blocks. split.
    + intros (_ & b & Hb & Hst & Hk). exists b. by rewrite !bool_decide_true.
    + intros (b & ? & [??]%andb_prop). repeat case_bool_decide; naive_solver.
Qed.

Lemma blocks_size_split ks G (B : gmap ptr MemBlock) :
  NoDup ks → (∀ k, k ∈ ks → is_Some (B !! k)) → segs_ok G B →
  blocks_size ks B = msum (λ g, if bool_decide (sg_blk g ∈ ks) then sg_size g else 0) G.
Proof.
  intros Hnd Hb Hok. induction Hnd as [|k ks Hk Hnd IH].
  - symmetry. apply msum_zero.
  - change (blocks_size (k :: ks) B) with (from_option blk_size 0 (B !! k) + blocks_size ks B).
    rewrite IH by set_solver. destruct (Hb k) as [b Hbk]; [set_solver|]. rewrite Hbk.
    change (from_option blk_size 0 (Some b)) with (blk_size b).
    rewrite <- (so_total _ _ Hok k b Hbk), <- msum_plus. apply msum_ext.
    intros p g _. unfold seg_in. destruct (decide (sg_blk g = k)) as [<-|].
    + rewrite (bool_decide_true (_ ∈ _ :: _)) by (apply elem_of_cons; by left).
      rewrite (bool_decide_false (_ ∈ ks)) by done. lia.
    + rewrite (bool_decide_ext (_ ∈ k :: ks) (sg_blk g ∈ ks)) by (rewrite elem_of_cons; naive_solver).
      lia.
Qed.

(** Every byte of the blocks is idle, eager-free or handed out. *)
Lemma accounting x h ks :
  mem_ok x h → NoDup ks → (∀ k, k ∈ ks → is_Some (blks h !! k)) →
  blocks_size ks (blks h) = kind_size kMemBufIdle ks (bufs h) +
    kind_size kMemBufEagerFree ks (bufs h) + used_size ks (bufs h).
Proof.
  intros Hok Hnd Hb. rewrite (blocks_size_split _ _ _ Hnd Hb (mo_segs _ _ Hok)).
  unfold kind_size, used_size, segs. rewrite msum_fmap, <- !msum_plus. apply msum_ext.
  intros p b _. unfold in_blocks. simpl. destruct (mb_status b); simpl;
    case_bool_decide; lia.
Qed.

(** A loop that adds up words. *)
Lemma wp_sum_loop l (body : Z → ptr → M (AState E) Z) (v : ptr → Z) s :
  (∀ p n, p ∈ l → body n p s = Ret (u64 (n + v p)) s) → ∀ acc, u64 acc = acc →
  wp (forM l body acc) s (λ r s', s' = s ∧ r = u64 (acc + foldr (λ p n, v p + n) 0 l)).
Proof.
  induction l as [|p l IH]; intros Hl acc Hacc; simpl.
  - apply wp_ret. split; [done|]. by rewrite Z.add_0_r.
  - apply wp_bind. unfold wp at 1. rewrite Hl by set_solver.
    eapply wp_mono; [apply IH; [set_solver|apply u64_idem]|]. intros r s' [-> ->]. split; [done|].
    rewrite u64_add_l. f_equal. lia.
Qed.

Lemma DumpStateInfo_spec s :
  state_ok env_ok s →
  wp DumpStateInfo s (λ r s', s' = s ∧
    r = (u64 (blocks_size (mem_blocks_ (a_al s)) (blks (a_mem s))),
         u64 (kind_size kMemBufIdle (mem_blocks_ (a_al s)) (bufs (a_mem s))),
         u64 (kind_size kMemBufEagerFree (mem_blocks_ (a_al s)) (bufs (a_mem s))),
         u64 (used_size (mem_blocks_ (a_al s)) (bufs (a_mem s))))).
Proof.
  intros [Hmem Hal Henv]. pose proof Hal as [Hnd Hb Hi He _].
  unfold DumpStateInfo. apply wp_bind, wp_gets, wp_bind.
  eapply wp_mono; [apply (wp_sum_loop _ _ (λ k, from_option blk_size 0 (blks (a_mem s) !! k)));
    [|done]|].
  { intros k n Hk. destruct (Hb k Hk) as [b Hbk].
    unfold mbind, M_bind, load_blk. simpl. by rewrite Hbk. }
  assert (∀ l st, set_ok None (bufs (a_mem s)) st (mem_blocks_ (a_al s)) l →
    ∀ p n, p ∈ l → (b ← load p; mret (mb_size b +64 n)) s =
      Ret (u64 (n + from_option mb_size 0 (bufs (a_mem s) !! p))) s) as Hload.
  { intros l st Hset p n Hp. apply (se_members _ _ _ _ _ Hset) in Hp as (_ & b & Hp & _).
    unfold mbind, M_bind, load. simpl. rewrite Hp. simpl. by rewrite Z.add_comm. }
  intros n1 s' [-> ->]. apply wp_bind.
  eapply wp_mono; [eapply wp_sum_loop; [by eapply Hload|done]|].
  intros n2 s' [-> ->]. apply wp_bind.
  eapply wp_mono; [eapply wp_sum_loop; [by eapply Hload|done]|].
  intros n3 s' [-> ->]. apply wp_ret. split; [done|]. rewrite !Z.add_0_l.
  fold (blocks_size (mem_blocks_ (a_al s)) (blks (a_mem s))).
  fold (sum_sizes (bufs (a_mem s)) (free_mem_bufs_ (a_al s))).
  fold (sum_sizes (bufs (a_mem s)) (eager_free_mem_bufs_ (a_al s))).
  rewrite !(sum_sizes_kind _ _ _ _ Hi), !(sum_sizes_kind _ _ _ _ He). f_equal.
  rewrite (u64_sub_words (blocks_size _ _)), u64_sub_words.
  rewrite (accounting None _ _ Hmem Hnd Hb). f_equal. lia.
Qed.
End maint.
