(* ===== verification/AllocTheorems.v ===== *)
(** * What a [MemBufAllocator] promises

    The properties of the allocator against any device that keeps the contract
    [DeviceLaws], and a concrete device (a bump allocator over one address range)
    on which they are instantiated. *)

From S2P Require Import Prelude EventBase MemBufHeap MemGeometry MemBufSet MemBufAllocator AllocInvariant AllocSteps AllocFree AllocMalloc AllocMaint.

(** ** A concrete device: memory is handed out upwards from the last address. *)
Module BumpDevice.

Definition expander (size : Z) : M (Mem * Z) (option ptr) := λ '(h, e),
  let block_size := Z.max size 4096 in
  if e + block_size <=? w64 then
    Ret (Some (fresh_ptr h))
      (MkMem (bufs h) (<[fresh_ptr h := new_MemBlock block_size e 0]> (blks h))
         (Pos.succ (fresh_ptr h)), e + block_size)
  else Ret None (h, e).

Definition callbacks : Callbacks Z := MkCallbacks _
  expander (λ _, mret true) (λ size _, mret size) (λ _ size, mret size).

Definition env_ok (e : Z) (B : gmap ptr MemBlock) : Prop :=
  0 < e ∧ ∀ k b, B !! k = Some b → blk_addr b + blk_size b <= e.

#[export] Instance laws : DeviceLaws callbacks env_ok.
Proof.
  split.
  - intros e B B' Hg [He Hb]. split; [done|]. intros k b Hk.
    assert ((blk_geo <$> B) !! k = Some (blk_geo b)) as Hx by (by rewrite Hg, lookup_fmap, Hk).
    rewrite lookup_fmap in Hx. apply fmap_Some in Hx as (a & Ha & Hga).
    injection Hga as Hs Had _. rewrite Hs, Had. eauto.
  - intros size h e Hsz Hbk Hfr [He Hb]. unfold callbacks; simpl. unfold expander, wp.
    destruct (Z.leb_spec (e + Z.max size 4096) w64); [|done].
    eexists. split; [done|]. simpl. split; [done|]. unfold w64 in *. simpl.
    split_and!; try lia.
    + intros l c Hl. right. by apply (Hb l).
    + split; [simpl; lia|]. intros l c. rewrite lookup_insert. case_decide; [intros [= <-]; simpl; lia|].
      intros Hl. specialize (Hb l c Hl). lia.
  - done.
  - done.
  - intros h e B k b [He Hb] _ _. split; [done|]. split; [done|].
    intros l c [_ Hl]%lookup_delete_Some. eauto.
Qed.

Definition init : AState Z := MkAState (MkMem ∅ ∅ 1%positive) (new_Allocator false false 0) 4096.

Lemma init_ok : state_ok env_ok init.
Proof. split; [apply mem_ok_empty|by apply alloc_ok_empty|done]. Qed.

(** The state after a computation, when it returns. *)
Definition after {S A} (m : M S A) (s : S) : S :=
  match m s with Ret _ s' => s' | _ => s end.

(** One buffer of 1000 bytes is in use, the rest of the block is idle. *)
Definition s1 : AState Z := after (MemBufAllocator.Malloc callbacks 1000) init.

Lemma after_ok {A} (m : M (AState Z) A) s :
  wp m s (λ _ s', state_ok env_ok s') → state_ok env_ok (after m s).
Proof. unfold wp, after. by destruct (m s). Qed.

Lemma s1_ok : state_ok env_ok s1.
Proof.
  apply after_ok. eapply wp_mono.
  - apply (Malloc_spec callbacks env_ok); [apply init_ok|lia].
  - by intros r s' [[? _] _].
Qed.

Definition b1 : MemBuf := default new_search_key (inuse (bufs (a_mem s1)) !! 2%positive).

Lemma b1_inuse : inuse (bufs (a_mem s1)) !! 2%positive = Some b1.
Proof. reflexivity. Qed.
End BumpDevice.

Module Allocator.
Section theorems.
Context {E : Type} (cb : Callbacks E) (env_ok : E → gmap ptr MemBlock → Prop).
Context `{!DeviceLaws cb env_ok}.
Implicit Types (s : AState E).
Import MemBufAllocator.

(** C24: [Malloc] of any size up to 2^63 returns, without undefined behaviour, and
    keeps the invariant. It either grants one new buffer of at least the requested
    size (and less than one alignment unit more) whose range meets no other buffer
    in use, or grants nothing; every other buffer in use is untouched. *)
Theorem Malloc_grants_disjoint size s :
  state_ok env_ok s → 0 < size <= 2 ^ 63 →
  ∃ r s', Malloc cb size s = Ret r s' ∧ state_ok env_ok s' ∧
    match r with
    | None => inuse (bufs (a_mem s')) = inuse (bufs (a_mem s))
    | Some p => ∃ b, inuse (bufs (a_mem s)) !! p = None ∧
        inuse (bufs (a_mem s')) = <[p := b]> (inuse (bufs (a_mem s))) ∧
        mb_status b = kMemBufUsed ∧ mb_mem_block b ∈ mem_blocks_ (a_al s') ∧
        size <= mb_size b < size + kDynamicMemAlignSize ∧
        ∀ q c, inuse (bufs (a_mem s)) !! q = Some c →
          disjoint_range (mb_addr b) (mb_size b) (mb_addr c) (mb_size c)
    end.
Proof.
  intros Hok Hsz. destruct (wp_inv _ _ _ (Malloc_spec cb env_ok size s Hok Hsz))
    as (r & s' & Hr & (Hok' & _ & Hres) & _).
  exists r, s'. split_and!; [done..|]. destruct r as [p|]; [|done].
  destruct Hres as (b & [] & _). exists (strip b). split_and!; try done; try apply gr_size.
  intros q c Hq. assert (p ≠ q) by congruence.
  apply (inuse_disjoint None (a_mem s') p q); [apply Hok'|..|done]; rewrite gr_inuse.
  - by rewrite lookup_insert_eq.
  - by rewrite lookup_insert_ne.
Qed.

(** when the allocator has a block, [Malloc] is a best fit: the grant starts
    where the smallest sufficient idle buffer starts (lowest address among equals),
    or, when no idle buffer is large enough, the smallest sufficient eager-free one.
    It fails only when no idle buffer is large enough, and with nothing to choose
    from it leaves the store as it is. *)
Theorem Malloc_best_fit size s :
  state_ok env_ok s → 0 < size <= 2 ^ 63 → mem_blocks_ (a_al s) ≠ [] →
  ∃ r s', Malloc cb size s = Ret r s' ∧
    match r with
    | Some p => ∃ nb, bufs (a_mem s') !! p = Some nb ∧ chosen size s p nb
    | None => (∀ q c, free_of kMemBufIdle q c s → mb_size c < size) ∧
        ((∀ q c, free_of kMemBufEagerFree q c s → mb_size c < size) → a_mem s' = a_mem s)
    end.
Proof.
  intros Hok Hsz Hne. destruct (wp_inv _ _ _ (Malloc_spec cb env_ok size s Hok Hsz))
    as (r & s' & Hr & (_ & _ & Hres) & Hnone).
  exists r, s'. split; [done|]. destruct r as [p|]; [|by apply Hnone].
  destruct Hres as (nb & Hgr & Hch). exists nb. split; [apply Hgr|auto].
Qed.

(** releasing a buffer in use that no event holds succeeds: exactly that buffer
    stops being in use, its range ends up inside one free buffer of the target kind,
    and no two neighbours of that kind are left uncoalesced. *)
Theorem Free_coalesces p t b s :
  state_ok env_ok s → is_free t = true →
  inuse (bufs (a_mem s)) !! p = Some b → mb_mem_block b ∈ mem_blocks_ (a_al s) →
  EventBase.IsEventNotUsed (mb_events b) = true →
  ∃ s', Free p t s = Ret true s' ∧ state_ok env_ok s' ∧
    inuse (bufs (a_mem s')) = delete p (inuse (bufs (a_mem s))) ∧
    (∃ b', bufs (a_mem s') !! p = Some b' ∧ mb_status b' = t ∧
       mb_addr b' <= mb_addr b ∧ mb_end b <= mb_end b') ∧
    (∀ x c y d, bufs (a_mem s') !! x = Some c → bufs (a_mem s') !! y = Some d →
       mb_end c = mb_addr d → mb_mem_block c = mb_mem_block d →
       ¬ (mb_status c = t ∧ mb_status d = t)).
Proof.
  intros [Hmem Hal Henv] Ht (c & Hp & Hnf & ->)%lookup_inuse_Some Hk Hev.
  destruct (wp_inv _ _ _ (Free_spec p t c s Ht Hmem Hal Hp Hnf Hk Hev))
    as (r & s' & Hr & -> & [] & Hmem' & Hal').
  exists s'. split_and!; [done| |done| |].
  - split; try done. by rewrite rl_env, rl_blks.
  - destruct rl_status as (b' & Hb' & Hst). destruct (rl_grows c Hp) as (b'' & Hb'' & ? & ?).
    simplify_eq. exists b'. done.
  - intros x d y e Hx Hy He Hkk [Hs1 Hs2]. pose proof (mo_segs _ _ Hmem') as Hsg.
    assert (mb_next d = Some y) as Hn.
    { apply (adjacent_next _ _ _ _ _ _ Hsg Hx Hy He Hkk). }
    assert (is_free (mb_status d) = false); [|congruence].
    apply (mo_coalesced _ _ Hmem' x d y e); congruence.
Qed.

(** eager free turns every idle buffer into an eager-free one: afterwards no
    buffer is idle, the buffers in use and the blocks are the same, and the first
    figure returned is the number of bytes that were idle (as a 64-bit word). *)
Theorem FreeIdleMems_empties_idle s :
  state_ok env_ok s →
  ∃ n s', FreeIdleMemsByEagerFree cb s =
      Ret (u64 (kind_size kMemBufIdle (mem_blocks_ (a_al s)) (bufs (a_mem s))), n) s' ∧
    state_ok env_ok s' ∧ (∀ p b, ¬ free_of kMemBufIdle p b s') ∧
    inuse (bufs (a_mem s')) = inuse (bufs (a_mem s)) ∧ blks (a_mem s') = blks (a_mem s).
Proof.
  intros Hok. destruct (wp_inv _ _ _ (FreeIdleMemsByEagerFree_spec cb env_ok s Hok))
    as ([n1 n2] & s' & Hr & Hok' & _ & Hf & Hin & Hbk & Hmb & Hn). simpl in Hn. subst n1.
  exists n2, s'. rewrite <- (sum_sizes_kind _ _ (free_mem_bufs_ (a_al s))) by apply Hok.
  split_and!; try done. intros p b Hp.
  assert (p ∈ free_mem_bufs_ (a_al s')) as Hx.
  { apply (ao_idle _ _ _ (st_al _ _ Hok')). split; [done|]. by exists b. }
  rewrite Hf in Hx. by apply not_elem_of_nil in Hx.
Qed.

(** releasing an allocator whose buffers are all free deletes each of its blocks
    and buffers exactly once (a second deletion would be undefined), and nothing
    that belongs to others. *)
Theorem ReleaseDeviceRes_deletes_all s :
  state_ok env_ok s →
  (∀ p b, inuse (bufs (a_mem s)) !! p = Some b → mb_mem_block b ∉ mem_blocks_ (a_al s)) →
  ∃ s', ReleaseDeviceRes cb s = Ret () s' ∧ a_al s' = emptied (a_al s) ∧
    (∀ p b, bufs (a_mem s') !! p = Some b ↔
       bufs (a_mem s) !! p = Some b ∧ mb_mem_block b ∉ mem_blocks_ (a_al s)) ∧
    (∀ k b, blks (a_mem s') !! k = Some b ↔
       blks (a_mem s) !! k = Some b ∧ k ∉ mem_blocks_ (a_al s)) ∧
    env_ok (a_env s') (blks (a_mem s')).
Proof.
  intros [Hmem Hal Henv] Hnone.
  destruct (wp_inv _ _ _ (ReleaseDeviceRes_spec cb env_ok s (alloc_ok_owns _ Hal) Henv))
    as ([] & s' & Hr & Ha & Hb & Hk & _ & He).
  exists s'. split_and!; try done.
  - intros p b. rewrite Hb, lookup_remove_all. unfold owned_bufs.
    destruct Hal as [_ _ [_ Hi] [_ He'] _].
    case_decide as Hin; [apply elem_of_app in Hin|]; split; try done.
    + intros [Hp Hbk]. destruct Hin as [Hin|Hin]; [apply Hi in Hin|apply He' in Hin];
        destruct Hin as (_ & c & Hc & _ & Hkc); by assert (c = b) as -> by congruence.
    + intros Hp. split; [done|]. intros Hbk. apply Hin, elem_of_app.
      destruct (mb_status b) eqn:Hst.
      * left. apply Hi. naive_solver.
      * destruct (Hnone p (strip b)); [|done]. apply lookup_inuse_Some. exists b. by rewrite Hst.
      * right. apply He'. naive_solver.
      * destruct (Hnone p (strip b)); [|done]. apply lookup_inuse_Some. exists b. by rewrite Hst.
    + by intros [? _].
  - intros k b. rewrite Hk, lookup_remove_all. case_decide; naive_solver.
Qed.

(** the figures [DumpStateInfo] prints are the true ones: the bytes of the blocks,
    of the idle and of the eager-free buffers, and their difference is exactly the
    bytes handed out (all as 64-bit words); the state does not change. *)
Theorem DumpStateInfo_accounts s :
  state_ok env_ok s →
  DumpStateInfo s = Ret
    (u64 (blocks_size (mem_blocks_ (a_al s)) (blks (a_mem s))),
     u64 (kind_size kMemBufIdle (mem_blocks_ (a_al s)) (bufs (a_mem s))),
     u64 (kind_size kMemBufEagerFree (mem_blocks_ (a_al s)) (bufs (a_mem s))),
     u64 (used_size (mem_blocks_ (a_al s)) (bufs (a_mem s)))) s.
Proof.
  intros Hok. destruct (wp_inv _ _ _ (DumpStateInfo_spec cb env_ok s Hok))
    as (r & s' & Hr & -> & ->). exact Hr.
Qed.

(** ** Arbitrary use of an allocator *)

Inductive request :=
| ReqMalloc (size : Z)
| ReqExpand (size : Z)
| ReqFree (p : ptr)
| ReqEagerFree.

Definition serve (q : request) : M (AState E) unit :=
  match q with
  | ReqMalloc size => _ ← Malloc cb size; mret ()
  | ReqExpand size => _ ← MallocExpandBlock cb size; mret ()
  | ReqFree p => _ ← Free p kMemBufIdle; mret ()
  | ReqEagerFree => _ ← FreeIdleMemsByEagerFree cb; mret ()
  end.

(** What a client owes: sizes in range, and only buffers it holds are released. *)
Definition admissible (q : request) s : Prop :=
  match q with
  | ReqMalloc size | ReqExpand size => 0 < size <= 2 ^ 63
  | ReqFree p => ∃ b, inuse (bufs (a_mem s)) !! p = Some b ∧
      mb_mem_block b ∈ mem_blocks_ (a_al s) ∧ EventBase.IsEventNotUsed (mb_events b) = true
  | ReqEagerFree => True
  end.

Inductive reachable s0 : AState E → Prop :=
| reach_start : reachable s0 s0
| reach_step q s s' :
    reachable s0 s → admissible q s → serve q s = Ret () s' → reachable s0 s'.

Lemma serve_spec q s :
  state_ok env_ok s → admissible q s → wp (serve q) s (λ _ s', state_ok env_ok s').
Proof.
  intros Hok Hq. destruct q as [size|size|p|]; simpl in *; apply wp_bind.
  - eapply wp_mono; [by apply (Malloc_spec cb env_ok)|]. intros r s' [[? _] _]. by apply wp_ret.
  - eapply wp_mono; [by apply (MallocExpandBlock_spec cb env_ok)|].
    intros r s' [? _]. by apply wp_ret.
  - destruct Hq as (b & (c & Hp & Hnf & ->)%lookup_inuse_Some & Hk & Hev).
    destruct Hok as [Hmem Hal Henv].
    eapply wp_mono; [by apply (Free_spec p kMemBufIdle c)|].
    intros r s' (_ & [] & Hmem' & Hal'). apply wp_ret. split; try done.
    by rewrite rl_env, rl_blks.
  - eapply wp_mono; [by apply (FreeIdleMemsByEagerFree_spec cb env_ok)|].
    intros r s' [? _]. by apply wp_ret.
Qed.

(** C23: whatever sequence of admissible requests an allocator has served, its state is
    well formed, no two buffers in use overlap, and every further admissible request
    returns normally: there is no double free, no dangling pointer, no lost block. *)
Theorem allocator_never_stuck s0 s :
  state_ok env_ok s0 → reachable s0 s →
  state_ok env_ok s ∧
  (∀ p q b c, inuse (bufs (a_mem s)) !! p = Some b → inuse (bufs (a_mem s)) !! q = Some c →
     p ≠ q → disjoint_range (mb_addr b) (mb_size b) (mb_addr c) (mb_size c)) ∧
  (∀ q, admissible q s → ∃ s', serve q s = Ret () s').
Proof.
  intros H0 Hr. assert (state_ok env_ok s) as Hok.
  { induction Hr as [|q s s' _ IH Hq Hs]; [done|].
    pose proof (serve_spec q s IH Hq) as Hwp. by apply (wp_value _ _ _ _ _ Hs) in Hwp. }
  split_and!; [done| |].
  - intros p q b c. apply inuse_disjoint with None, Hok.
  - intros q Hq. destruct (wp_inv _ _ _ (serve_spec q s Hok Hq)) as ([] & s' & ? & _). eauto.
Qed.
End theorems.
End Allocator.

(** ** Instances on the bump device *)
Module AllocatorWitnesses.
Import BumpDevice.

Lemma Malloc_grants_disjoint_witness :
  ∃ r s', MemBufAllocator.Malloc callbacks 1000 s1 = Ret r s' ∧ state_ok env_ok s'.
Proof.
  destruct (Allocator.Malloc_grants_disjoint callbacks env_ok 1000 s1 s1_ok ltac:(lia))
    as (r & s' & ? & ? & _). exists r, s'. done.
Defined.

Lemma Malloc_best_fit_witness :
  ∃ r s', MemBufAllocator.Malloc callbacks 1000 s1 = Ret (Some r) s' ∧
    ∃ nb, bufs (a_mem s') !! r = Some nb ∧ chosen 1000 s1 r nb.
Proof.
  destruct (Allocator.Malloc_best_fit callbacks env_ok 1000 s1 s1_ok ltac:(lia) ltac:(discriminate))
    as ([r|] & s' & Hr & H).
  - exists r, s'. done.
  - exfalso. destruct H as [H _].
    specialize (H 3%positive (default new_search_key (bufs (a_mem s1) !! 3%positive))).
    assert (3096 < 1000); [apply H; vm_compute; split_and!; [done..|constructor]|lia].
Defined.

Lemma Free_coalesces_witness :
  ∃ s', MemBufAllocator.Free 2%positive kMemBufIdle s1 = Ret true s' ∧
    inuse (bufs (a_mem s')) = delete 2%positive (inuse (bufs (a_mem s1))).
Proof.
  destruct (Allocator.Free_coalesces env_ok 2%positive kMemBufIdle b1 s1 s1_ok
    eq_refl b1_inuse ltac:(vm_compute; constructor) eq_refl) as (s' & ? & _ & ? & _).
  exists s'. done.
Defined.

Lemma FreeIdleMems_empties_idle_witness :
  ∃ n s', MemBufAllocator.FreeIdleMemsByEagerFree callbacks s1 = Ret (3096, n) s' ∧
    inuse (bufs (a_mem s')) = inuse (bufs (a_mem s1)).
Proof.
  destruct (Allocator.FreeIdleMems_empties_idle callbacks env_ok s1 s1_ok)
    as (n & s' & Hr & _ & _ & Hin & _). exists n, s'. split; [exact Hr|exact Hin].
Defined.

Lemma ReleaseDeviceRes_deletes_all_witness :
  ∃ s', MemBufAllocator.ReleaseDeviceRes callbacks init = Ret () s' ∧
    a_al s' = emptied (a_al init).
Proof.
  destruct (Allocator.ReleaseDeviceRes_deletes_all callbacks env_ok init init_ok)
    as (s' & ? & ? & _); [|by exists s'].
  intros p b. vm_compute. done.
Defined.

Lemma DumpStateInfo_accounts_witness :
  MemBufAllocator.DumpStateInfo s1 = Ret (4096, 3096, 0, 1000) s1.
Proof. exact (Allocator.DumpStateInfo_accounts callbacks env_ok s1 s1_ok). Defined.

Lemma allocator_never_stuck_witness :
  ∃ s', Allocator.serve callbacks (Allocator.ReqFree 2%positive) s1 = Ret () s'.
Proof.
  apply (proj2 (proj2 (Allocator.allocator_never_stuck callbacks env_ok init s1 init_ok
    (Allocator.reach_step callbacks init (Allocator.ReqMalloc 1000) init s1
       (Allocator.reach_start callbacks init)
       ltac:(simpl; lia) eq_refl)))).
  exists b1. split; [exact b1_inuse|]. split; [vm_compute; constructor|reflexivity].
Defined.
End AllocatorWitnesses.
