(* ===== verification/MemStat.v ===== *)
(** * Statistics, device interface and block sizing of the memory pool

    [MemStat] of memory/abstract_dynamic_memory_pool.h, the virtual device
    methods of [DynamicMemPool] as an interface with its contract, the alignment
    and block-size computations, and the callbacks [GenerateAllocator] builds. *)

From S2P Require Import Prelude EventBase MemBufHeap MemGeometry MemBufSet MemBufAllocator AllocInvariant AllocSteps AllocFree AllocMalloc.

Record MemStat := MkMemStat {
  used_size_ : Z;
  peak_size_ : Z;
  alloc_size_ : Z;
  used_by_event_size_ : Z;
  eager_free_size_ : Z;
  temp_used_size_ : Z;
  temp_used_by_event_size_ : Z;
  temp_peak_size_ : Z;
  temp_alloc_size_ : Z
}.

Definition stat_Reset : MemStat := MkMemStat 0 0 0 0 0 0 0 0 0.

Definition IdleSize (m : MemStat) : Z := alloc_size_ m -64 used_size_ m.

Definition UpdatePeakSize (m : MemStat) : MemStat :=
  MkMemStat (used_size_ m) (Z.max (peak_size_ m) (used_size_ m)) (alloc_size_ m)
    (used_by_event_size_ m) (eager_free_size_ m) (temp_used_size_ m)
    (temp_used_by_event_size_ m)
    (if temp_used_size_ m <? used_size_ m
     then Z.max (temp_peak_size_ m) (used_size_ m -64 temp_used_size_ m)
     else temp_peak_size_ m)
    (temp_alloc_size_ m).

Definition set_used_size (v : Z) (m : MemStat) : MemStat :=
  MkMemStat v (peak_size_ m) (alloc_size_ m) (used_by_event_size_ m) (eager_free_size_ m)
    (temp_used_size_ m) (temp_used_by_event_size_ m) (temp_peak_size_ m) (temp_alloc_size_ m).
Definition set_alloc_size (v : Z) (m : MemStat) : MemStat :=
  MkMemStat (used_size_ m) (peak_size_ m) v (used_by_event_size_ m) (eager_free_size_ m)
    (temp_used_size_ m) (temp_used_by_event_size_ m) (temp_peak_size_ m) (temp_alloc_size_ m).
Definition set_used_by_event_size (v : Z) (m : MemStat) : MemStat :=
  MkMemStat (used_size_ m) (peak_size_ m) (alloc_size_ m) v (eager_free_size_ m)
    (temp_used_size_ m) (temp_used_by_event_size_ m) (temp_peak_size_ m) (temp_alloc_size_ m).
Definition set_eager_free_size (v : Z) (m : MemStat) : MemStat :=
  MkMemStat (used_size_ m) (peak_size_ m) (alloc_size_ m) (used_by_event_size_ m) v
    (temp_used_size_ m) (temp_used_by_event_size_ m) (temp_peak_size_ m) (temp_alloc_size_ m).

(** [ResetMaxMemReserved] and [ResetMaxMemAllocated] *)
Definition reset_reserved (m : MemStat) : MemStat :=
  MkMemStat (used_size_ m) (peak_size_ m) (alloc_size_ m) (used_by_event_size_ m)
    (eager_free_size_ m) (temp_used_size_ m) (temp_used_by_event_size_ m) (temp_peak_size_ m)
    (alloc_size_ m).
Definition reset_allocated (m : MemStat) : MemStat :=
  MkMemStat (used_size_ m) (peak_size_ m) (alloc_size_ m) (used_by_event_size_ m)
    (eager_free_size_ m) (used_size_ m) (used_by_event_size_ m) 0 (temp_alloc_size_ m).

(** ** The device: virtual methods of [DynamicMemPool] *)

Class DeviceMem (D : Type) := {
  free_mem_size : D → Z;
  total_mem_size : D → Z;
  IsEnableEagerFree : D → bool;
  GetVmmUsedMemSize : D → Z;
  SyncAllStreams : M D bool;
  (** Returns the size obtained and the address written through the out parameter. *)
  AllocDeviceMem : Z → M D (Z * Z);
  FreeDeviceMem : Z → M D bool;
  AllocDeviceMemByEagerFree : Z → M D (Z * Z);
  MmapDeviceMem : Z → Z → M D Z;
  FreeDeviceMemByEagerFree : Z → Z → M D Z
}.

(** A region obtained from the device: within the address space, not at the null
    address, and apart from every region still held. *)
Definition new_region (R : gmap ptr (Z * Z)) (addr n : Z) : Prop :=
  0 < n < w64 ∧ 0 < addr ∧ addr + n <= w64 ∧
  ∀ j a m, R !! j = Some (a, m) → disjoint_range addr n a m.

(** Contract of a device: [dev_ok d R] says that the regions [R] are held. *)
Class DeviceMemLaws (D : Type) `{DeviceMem D} (dev_ok : D → gmap ptr (Z * Z) → Prop) := {
  dev_sizes d R : dev_ok d R → 0 <= free_mem_size d < w64 ∧ 0 <= total_mem_size d < w64;
  dev_alloc d R k size :
    dev_ok d R → R !! k = None → 0 < size < w64 →
    wp (AllocDeviceMem size) d (λ r d', r.1 = 0 ∧ dev_ok d' R ∨
      new_region R r.2 r.1 ∧ dev_ok d' (<[k := (r.2, r.1)]> R));
  dev_alloc_eager d R k size :
    dev_ok d R → R !! k = None → 0 < size < w64 →
    wp (AllocDeviceMemByEagerFree size) d (λ r d', r.1 = 0 ∧ dev_ok d' R ∨
      new_region R r.2 r.1 ∧ dev_ok d' (<[k := (r.2, r.1)]> R));
  dev_free d R k a n :
    dev_ok d R → R !! k = Some (a, n) → wp (FreeDeviceMem a) d (λ _ d', dev_ok d' (delete k R));
  dev_mmap d R size addr :
    dev_ok d R → wp (MmapDeviceMem size addr) d (λ _ d', dev_ok d' R);
  dev_free_eager d R addr size :
    dev_ok d R → wp (FreeDeviceMemByEagerFree addr size) d (λ _ d', dev_ok d' R);
  dev_sync d R : dev_ok d R → wp SyncAllStreams d (λ _ d', dev_ok d' R)
}.

(** ** Sizes *)

Definition AlignMemorySize (size : Z) : Z :=
  if size =? 0 then kDynamicMemAlignSize
  else ((size +64 kDynamicMemAlignSize -64 1) / kDynamicMemAlignSize) *64 kDynamicMemAlignSize.

Definition kDynamicMemAllocUnitSize : Z := 1073741824.

(** [while (alloc_mem_size < size) alloc_mem_size = alloc_mem_size * 2;]
    A run of 65 rounds means that the loop never ends. *)
Fixpoint double_until (fuel : nat) (alloc_mem_size size : Z) : option Z :=
  match fuel with
  | O => None
  | S fuel' =>
      if alloc_mem_size <? size then double_until fuel' (alloc_mem_size *64 2) size
      else Some alloc_mem_size
  end.
Definition double_fuel : nat := 65.

(** Alignment is exact below the last 512 bytes of the address space. *)
Lemma AlignMemorySize_exact size : 0 < size <= w64 - kDynamicMemAlignSize →
  AlignMemorySize size = kDynamicMemAlignSize * ((size + (kDynamicMemAlignSize - 1)) / kDynamicMemAlignSize).
Proof.
  unfold AlignMemorySize, kDynamicMemAlignSize. intros Hs.
  destruct (Z.eqb_spec size 0); [lia|]. rewrite u64_sub_l.
  replace (size + 512 - 1) with (size + (512 - 1)) by lia.
  unfold w64 in *. rewrite (u64_small (size + _)) by (unfold w64; lia).
  rewrite u64_small; [lia|]. unfold w64.
  pose proof (Z.mul_div_le (size + (512 - 1)) 512). pose proof (Z.div_pos (size + (512 - 1)) 512). lia.
Qed.

Lemma AlignMemorySize_range size :
  0 < size <= w64 - kDynamicMemAlignSize →
  AlignMemorySize size mod kDynamicMemAlignSize = 0 ∧
  size <= AlignMemorySize size < size + kDynamicMemAlignSize.
Proof.
  intros Hs. rewrite AlignMemorySize_exact by done. unfold kDynamicMemAlignSize, w64 in *.
  split; [rewrite Z.mul_comm; apply Z.mod_mul; lia|].
  pose proof (Z.div_mod (size + (512 - 1)) 512). pose proof (Z.mod_pos_bound (size + (512 - 1)) 512). lia.
Qed.
