(* ===== verification/PoolDevice.v ===== *)
(** * What the allocators of a pool share: statistics, unit sizes and the device

    [CalMemBlockAllocSize] and the four callbacks that [GenerateAllocator] (and the
    constructor, for the tiny allocator) give to an allocator, with the proof that
    they satisfy the contract [DeviceLaws] the allocator relies on. *)

From S2P Require Import Prelude EventBase MemBufHeap MemGeometry MemBufSet MemBufAllocator AllocInvariant AllocSteps AllocFree AllocMalloc MemStat.

(** The fields of [AbstractDynamicMemPool] its callbacks capture. *)
Record Env (D : Type) := MkEnv {
  mem_stat_ : MemStat;
  dev : D;
  enable_vmm_ : bool;
  common_unit_size_ : Z;
  persist_unit_size_ : Z
}.
Arguments MkEnv {D} _ _ _ _ _.
Arguments mem_stat_ {D} _.
Arguments dev {D} _.
Arguments enable_vmm_ {D} _.
Arguments common_unit_size_ {D} _.
Arguments persist_unit_size_ {D} _.

Definition set_stat {D} (f : MemStat → MemStat) (e : Env D) : Env D :=
  MkEnv (f (mem_stat_ e)) (dev e) (enable_vmm_ e) (common_unit_size_ e) (persist_unit_size_ e).
Definition set_dev {D} (d : D) (e : Env D) : Env D :=
  MkEnv (mem_stat_ e) d (enable_vmm_ e) (common_unit_size_ e) (persist_unit_size_ e).

Definition MemAllocUnitSize {D} (from_persistent_mem : bool) (e : Env D) : Z :=
  if from_persistent_mem then persist_unit_size_ e else common_unit_size_ e.
Definition SetMemAllocUintSize {D} (common_size persist_size : Z) (e : Env D) : Env D :=
  MkEnv (mem_stat_ e) (dev e) (enable_vmm_ e) common_size persist_size.
Definition SetEnableVmm {D} (enable_vmm : bool) (e : Env D) : Env D :=
  MkEnv (mem_stat_ e) (dev e) enable_vmm (common_unit_size_ e) (persist_unit_size_ e).

#[export] Instance HasMem_pair E : HasMem (Mem * E).
Proof. refine {| get_mem := fst; put_mem := λ h s, (h, s.2) |}; done || by intros []. Defined.

Section callbacks.
Context {D : Type} `{DeviceMem D}.

Definition on_dev {A} (m : M D A) : M (Env D) A := zoom dev set_dev m.
Definition on_env {A} (m : M (Env D) A) : M (Mem * Env D) A :=
  zoom snd (λ e s, (s.1, e)) m.

(** [SetMemPoolBlockSize] does nothing in these classes. The allocation unit is
    doubled until it holds [size]; [double_until] gives up when the loop of the
    code does not end. *)
Definition CalMemBlockAllocSize (size : Z) (from_persistent_mem : bool) : M (Env D) Z :=
  device_free_mem_size ← gets (λ e, free_mem_size (dev e));
  if device_free_mem_size <? size then mret 0
  else
    alloc_mem_unit_size ← gets (MemAllocUnitSize from_persistent_mem);
    alloc_mem_size ← deref (double_until double_fuel alloc_mem_unit_size size);
    mret (Z.min alloc_mem_size device_free_mem_size).

Definition eager_or_vmm (e : Env D) : bool := IsEnableEagerFree (dev e) || enable_vmm_ e.

Definition add_alloc_size (n : Z) (m : MemStat) : MemStat := set_alloc_size (alloc_size_ m +64 n) m.
Definition sub_alloc_size (n : Z) (m : MemStat) : MemStat := set_alloc_size (alloc_size_ m -64 n) m.
Definition add_eager_free_size (n : Z) (m : MemStat) : MemStat :=
  set_eager_free_size (eager_free_size_ m +64 n) m.
Definition sub_eager_free_size (n : Z) (m : MemStat) : MemStat :=
  set_eager_free_size (eager_free_size_ m -64 n) m.

(** The end of both expanders: account for the memory and wrap it in a block. *)
Definition make_block (alloc_size addr stream_id : Z) : M (Mem * Env D) (option ptr) :=
  if alloc_size =? 0 then mret None
  else
    on_env (modify (set_stat (add_alloc_size alloc_size)));;
    mem_block ← alloc_blk (new_MemBlock alloc_size addr stream_id);
    mret (Some mem_block).

Definition mem_block_expander (is_persistent : bool) (stream_id size : Z)
    : M (Mem * Env D) (option ptr) :=
  block_size ← on_env (CalMemBlockAllocSize size is_persistent);
  if block_size =? 0 then mret None
  else
    e ← gets snd;
    if eager_or_vmm e then
      let eager_free_size := Z.max block_size (total_mem_size (dev e)) in
      r ← on_env (on_dev (AllocDeviceMemByEagerFree eager_free_size));
      on_env (modify (set_stat (add_eager_free_size r.1)));;
      make_block r.1 r.2 stream_id
    else
      r ← on_env (on_dev (AllocDeviceMem block_size));
      make_block r.1 r.2 stream_id.

Definition tiny_block_size : Z := 1048576.

(** The expander of the tiny allocator: blocks of one megabyte, whatever is asked. *)
Definition tiny_block_expander (size : Z) : M (Mem * Env D) (option ptr) :=
  r ← on_env (on_dev (AllocDeviceMem tiny_block_size));
  make_block r.1 r.2 0.

Definition mem_block_cleaner (mem_block : ptr) : M (Mem * Env D) bool :=
  b ← load_blk mem_block;
  on_env (modify (set_stat (sub_alloc_size (blk_size b))));;
  on_env (on_dev (FreeDeviceMem (blk_addr b))).

Definition mem_mapper (size addr : Z) : M (Env D) Z :=
  modify (set_stat (sub_eager_free_size size));; on_dev (MmapDeviceMem size addr).

Definition mem_eager_freer (addr size : Z) : M (Env D) Z :=
  on_dev (FreeDeviceMemByEagerFree addr size).

(** The callbacks of the allocator of ([is_persistent], [stream_id]), and of the
    tiny allocator. *)
Definition pool_callbacks (is_persistent : bool) (stream_id : Z) : Callbacks (Env D) :=
  MkCallbacks _ (mem_block_expander is_persistent stream_id) mem_block_cleaner mem_mapper
    mem_eager_freer.
Definition tiny_callbacks : Callbacks (Env D) :=
  MkCallbacks _ tiny_block_expander mem_block_cleaner mem_mapper mem_eager_freer.

(** [GenerateAllocator] *)
Definition GenerateAllocator (is_persistent : bool) (stream_id : Z) (e : Env D) : Allocator :=
  new_Allocator (eager_or_vmm e) is_persistent stream_id.
End callbacks.

(** ** The doubling loop *)

Lemma u64_small_eq a b : a = b → 0 <= b < w64 → u64 a = b.
Proof. intros ->. apply u64_small. Qed.

Lemma double_until_mono n unit size v :
  double_until n unit size = Some v → ∀ m, (n <= m)%nat → double_until m unit size = Some v.
Proof.
  revert unit. induction n as [|n IH]; intros unit Hd m Hm; [done|].
  destruct m as [|m]; [lia|]. simpl in *. destruct (unit <? size); [|done].
  apply IH; [done|lia].
Qed.

(** From an exact power-of-two multiple that has not wrapped, the loop reaches the
    least multiple that holds [size]. *)
Lemma double_until_reaches n unit size :
  0 < unit < w64 → size <= 9223372036854775808 → 2 ^ Z.of_nat n * unit >= size →
  ∃ k, 0 <= k <= Z.of_nat n ∧ double_until (S n) unit size = Some (2 ^ k * unit) ∧
    size <= 2 ^ k * unit < w64 ∧ (∀ j, 0 <= j < k → 2 ^ j * unit < size).
Proof.
  revert unit. unfold w64 in *. induction n as [|n IH]; intros unit Hu Hs Hn; simpl.
  - exists 0. destruct (Z.ltb_spec unit size); [change (2 ^ Z.of_nat 0) with 1 in Hn; lia|].
    split_and!; try lia. by rewrite Z.mul_1_l.
  - destruct (Z.ltb_spec unit size) as [Hlt|Hge].
    + assert (unit *64 2 = 2 * unit) as Hd by (clear Hn IH; apply u64_small_eq; unfold w64; lia).
      rewrite Hd. destruct (IH (2 * unit)) as (k & Hk & He & Hb & Hl).
      * clear Hn IH Hd. lia.
      * done.
      * rewrite Nat2Z.inj_succ, Z.pow_succ_r in Hn by lia. nia.
      * exists (k + 1). replace (2 ^ (k + 1)) with (2 * 2 ^ k) by (rewrite Z.pow_add_r; lia).
        simpl in He. rewrite He. split_and!; try lia; [f_equal; lia|].
        intros j Hj. destruct (decide (j = 0)) as [->|]; [lia|].
        specialize (Hl (j - 1) ltac:(lia)).
        replace j with ((j - 1) + 1) by lia. rewrite Z.pow_add_r by lia. lia.
    + exists 0. split_and!; try lia. by rewrite Z.mul_1_l.
Qed.

(** For the sizes a pool can serve the loop ends, within the fuel of the model. *)
Lemma double_until_terminates unit size :
  0 < unit < w64 → size <= 2 ^ 63 →
  ∃ k, 0 <= k ∧ double_until double_fuel unit size = Some (2 ^ k * unit) ∧
    size <= 2 ^ k * unit < w64 ∧ (∀ j, 0 <= j < k → 2 ^ j * unit < size).
Proof.
  intros Hu Hs. destruct (double_until_reaches 64 unit size Hu Hs) as (k & ? & ? & [? ?] & Hl).
  - change (2 ^ Z.of_nat 64) with 18446744073709551616. lia.
  - exists k. split_and!; [lia|done|done|done|exact Hl].
Qed.

(** ** The callbacks meet the allocator's contract *)

Definition regions (B : gmap ptr MemBlock) : gmap ptr (Z * Z) :=
  (λ b, (blk_addr b, blk_size b)) <$> B.

(** What an allocator never changes: everything but the device, [alloc_size_] and
    [eager_free_size_]. *)
Definition stat_frame (m : MemStat) : MemStat := set_alloc_size 0 (set_eager_free_size 0 m).
Definition env_frame {D} (e : Env D) : MemStat * bool * Z * Z :=
  (stat_frame (mem_stat_ e), enable_vmm_ e, common_unit_size_ e, persist_unit_size_ e).

Definition units_ok {D} (e : Env D) : Prop :=
  0 < common_unit_size_ e < w64 ∧ 0 < persist_unit_size_ e < w64.

Record env_ok {D} (dev_ok : D → gmap ptr (Z * Z) → Prop) (f : MemStat * bool * Z * Z)
    (e : Env D) (B : gmap ptr MemBlock) : Prop := {
  en_dev : dev_ok (dev e) (regions B);
  en_alloc : alloc_size_ (mem_stat_ e) = u64 (msum blk_size B);
  en_units : units_ok e;
  en_frame : env_frame e = f
}.

Section laws.
Context {D : Type} `{DeviceMem D} (dev_ok : D → gmap ptr (Z * Z) → Prop).
Context `{!DeviceMemLaws D dev_ok} (f : MemStat * bool * Z * Z).
Abbreviation eok := (env_ok dev_ok f).
Implicit Types (e : Env D).

Lemma env_ok_step e B d g :
  dev_ok d (regions B) → eok e B →
  (∀ m, alloc_size_ (g m) = alloc_size_ m) → (∀ m, stat_frame (g m) = stat_frame m) →
  eok (set_dev d (set_stat g e)) B.
Proof.
  intros Hd [? Ha Hu Hf] Hga Hgf. split; simpl; [done|by rewrite Hga|done|].
  unfold env_frame in *; simpl. by rewrite Hgf.
Qed.

Lemma env_ok_dev e B d : dev_ok d (regions B) → eok e B → eok (set_dev d e) B.
Proof. intros Hd He. exact (env_ok_step e B d (λ m, m) Hd He (λ _, eq_refl) (λ _, eq_refl)). Qed.

Lemma wp_on_dev {A} (m : M D A) e (Q : A → Env D → Prop) :
  wp m (dev e) (λ a d, Q a (set_dev d e)) → wp (on_dev m) e Q.
Proof. apply (wp_zoom dev set_dev). Qed.

Lemma wp_on_env {A} (m : M (Env D) A) (s : Mem * Env D) (Q : A → Mem * Env D → Prop) :
  wp m s.2 (λ a e, Q a (s.1, e)) → wp (on_env m) s Q.
Proof. apply (wp_zoom snd (λ e s, (s.1, e))). Qed.

Lemma regions_insert k b B : regions (<[k := b]> B) = <[k := (blk_addr b, blk_size b)]> (regions B).
Proof. unfold regions. by rewrite fmap_insert. Qed.

Lemma regions_lookup k b B : B !! k = Some b → regions B !! k = Some (blk_addr b, blk_size b).
Proof. intros Hk. unfold regions. by rewrite lookup_fmap, Hk. Qed.

Lemma regions_None k B : B !! k = None → regions B !! k = None.
Proof. intros Hk. unfold regions. by rewrite lookup_fmap, Hk. Qed.

(** What the device gives to an expander of this allocator. *)
Definition expanded h (r : option ptr) (he : Mem * Env D) : Prop :=
  match r with
  | None => he.1 = h ∧ eok he.2 (blks h)
  | Some k => ∃ b, k = fresh_ptr h ∧
      he.1 = MkMem (bufs h) (<[k := b]> (blks h)) (Pos.succ k) ∧
      (0 <= blk_addr b ∧ 0 < blk_size b < w64 ∧ blk_addr b + blk_size b <= w64) ∧
      (∀ l c, blks h !! l = Some c →
         disjoint_range (blk_addr b) (blk_size b) (blk_addr c) (blk_size c)) ∧
      eok he.2 (blks he.1)
  end.

Lemma make_block_spec n addr stream h e d g :
  blks h !! fresh_ptr h = None → eok e (blks h) →
  (∀ m, alloc_size_ (g m) = alloc_size_ m) → (∀ m, stat_frame (g m) = stat_frame m) →
  n = 0 ∧ dev_ok d (regions (blks h)) ∨
  new_region (regions (blks h)) addr n ∧ dev_ok d (<[fresh_ptr h := (addr, n)]> (regions (blks h))) →
  wp (make_block n addr stream) (h, set_dev d (set_stat g e)) (expanded h).
Proof.
  intros Hfr [Hd Ha Hu Hf] Hga Hgf Hn. unfold make_block.
  destruct (Z.eqb_spec n 0) as [->|Hne].
  - destruct Hn as [[_ Hn]|[[? _] _]]; [|lia]. apply wp_ret. split; [done|].
    by apply env_ok_step.
  - destruct Hn as [[? _]|[(Hn & Hpos & Hend & Hdis) Hd']]; [done|].
    apply wp_bind, wp_on_env, wp_modify. apply wp_bind. unfold alloc_blk, wp; simpl.
    eexists. split; [done|]. split; [done|]. simpl. split_and!; try lia.
    + intros l c Hl. apply (Hdis l). by apply regions_lookup.
    + split; simpl.
      * rewrite regions_insert. exact Hd'.
      * rewrite Hga, Ha, msum_insert, u64_add_l by done. f_equal. simpl. lia.
      * exact Hu.
      * rewrite <- Hf. unfold env_frame; simpl. by rewrite <- (Hgf (mem_stat_ e)).
Qed.

Lemma set_dev_stat_id e d : set_dev d e = set_dev d (set_stat (λ m, m) e).
Proof. by destruct e. Qed.

Lemma AllocDeviceMem_block n stream h e :
  blks h !! fresh_ptr h = None → eok e (blks h) → 0 < n < w64 →
  wp (r ← on_env (on_dev (AllocDeviceMem n)); make_block r.1 r.2 stream) (h, e) (expanded h).
Proof.
  intros Hfr He Hn. apply wp_bind, wp_on_env, wp_on_dev.
  eapply wp_mono; [apply (dev_alloc (dev_ok := dev_ok) _ (regions (blks h)) (fresh_ptr h)); [apply He|by apply regions_None|done]|].
  intros r d Hr. rewrite set_dev_stat_id. by apply make_block_spec.
Qed.

Lemma AllocDeviceMemByEagerFree_block n stream h e :
  blks h !! fresh_ptr h = None → eok e (blks h) → 0 < n < w64 →
  wp (r ← on_env (on_dev (AllocDeviceMemByEagerFree n));
      on_env (modify (set_stat (add_eager_free_size r.1)));;
      make_block r.1 r.2 stream) (h, e) (expanded h).
Proof.
  intros Hfr He Hn. apply wp_bind, wp_on_env, wp_on_dev.
  eapply wp_mono; [apply (dev_alloc_eager (dev_ok := dev_ok) _ (regions (blks h)) (fresh_ptr h)); [apply He|by apply regions_None|done]|].
  intros r d Hr. apply wp_bind, wp_on_env, wp_modify.
  by apply (make_block_spec _ _ _ h e d (add_eager_free_size r.1)).
Qed.

Lemma CalMemBlockAllocSize_spec size persist e B :
  eok e B → 0 < size <= 2 ^ 63 →
  wp (CalMemBlockAllocSize size persist) e (λ r e', e' = e ∧
    (r = 0 ∧ free_mem_size (dev e) < size ∨ size <= r <= free_mem_size (dev e))).
Proof.
  intros [Hd _ [Hc Hp] _] Hs. unfold CalMemBlockAllocSize. apply wp_bind, wp_gets.
  destruct (Z.ltb_spec (free_mem_size (dev e)) size); [apply wp_ret; auto|].
  apply wp_bind, wp_gets. apply wp_bind.
  assert (0 < MemAllocUnitSize persist e < w64) as Hu by (unfold MemAllocUnitSize; by destruct persist).
  destruct (double_until_terminates _ size Hu) as (k & _ & He & [Hle _] & _); [apply Hs|].
  eapply wp_deref; [exact He|]. apply wp_ret. split; [done|right]. lia.
Qed.

Lemma block_fresh h : (∀ k b, blks h !! k = Some b → (k < fresh_ptr h)%positive) →
  blks h !! fresh_ptr h = None.
Proof. intros Hfr. destruct (blks h !! fresh_ptr h) eqn:He; [|done]. apply Hfr in He. lia. Qed.

Lemma mem_block_expander_spec persist stream size h e :
  0 < size <= 2 ^ 63 → (∀ k b, blks h !! k = Some b → (k < fresh_ptr h)%positive) →
  eok e (blks h) → wp (mem_block_expander persist stream size) (h, e) (expanded h).
Proof.
  intros Hs Hfr He. apply block_fresh in Hfr. unfold mem_block_expander.
  pose proof (dev_sizes _ _ (en_dev _ _ _ _ He)) as [Hf Ht].
  apply wp_bind, wp_on_env. eapply wp_mono; [by apply (CalMemBlockAllocSize_spec _ _ _ (blks h))|].
  intros n e' [-> Hn]. destruct (Z.eqb_spec n 0) as [->|Hne]; [by apply wp_ret|].
  destruct Hn as [[? _]|Hn]; [done|]. apply wp_bind, wp_gets.
  destruct (eager_or_vmm _).
  - apply AllocDeviceMemByEagerFree_block; [done..|]. simpl in *. lia.
  - apply AllocDeviceMem_block; [done..|]. simpl in *. lia.
Qed.

Lemma mem_block_cleaner_spec h e B k b :
  eok e B → B !! k = Some b → blks h !! k = Some b →
  wp (mem_block_cleaner k) (h, e) (λ _ he, he.1 = h ∧ eok he.2 (delete k B)).
Proof.
  intros [Hd Ha Hu Hf] HB Hk. unfold mem_block_cleaner.
  apply wp_bind, (wp_load_blk _ b); [done|]. apply wp_bind, wp_on_env, wp_modify.
  apply wp_on_env, wp_on_dev. eapply wp_mono.
  - apply (dev_free (dev_ok := dev_ok) _ (regions B) k _ (blk_size b)); [done|by apply regions_lookup].
  - intros r d Hd'. split; [done|]. split; simpl.
    + unfold regions. by rewrite fmap_delete.
    + rewrite Ha, u64_sub_l. f_equal. rewrite (msum_delete _ _ _ _ HB). lia.
    + exact Hu.
    + exact Hf.
Qed.

Lemma mem_mapper_spec e B size addr :
  eok e B → wp (mem_mapper size addr) e (λ _ e', eok e' B).
Proof.
  intros He. apply wp_bind, wp_modify, wp_on_dev.
  eapply wp_mono; [apply (dev_mmap (dev_ok := dev_ok) _ (regions B)), He|].
  intros r d Hd. by apply env_ok_step.
Qed.

Lemma mem_eager_freer_spec e B addr size :
  eok e B → wp (mem_eager_freer addr size) e (λ _ e', eok e' B).
Proof.
  intros He. apply wp_on_dev. eapply wp_mono; [apply (dev_free_eager (dev_ok := dev_ok) _ (regions B)), He|].
  intros r d Hd. by apply env_ok_dev.
Qed.

Lemma blk_geo_sums (B B' : gmap ptr MemBlock) : blk_geo <$> B = blk_geo <$> B' →
  regions B = regions B' ∧ msum blk_size B = msum blk_size B'.
Proof.
  intros Hg. split.
  - assert (∀ C, regions C = (λ g : Z * Z * Z, (g.1.2, g.1.1)) <$> (blk_geo <$> C)) as Hr.
    { intros C. unfold regions. rewrite <- map_fmap_compose. done. }
    by rewrite !Hr, Hg.
  - assert (∀ C : gmap ptr MemBlock, msum blk_size C = msum (λ g : Z * Z * Z, g.1.1) (blk_geo <$> C)) as Hr.
    { intros C. by rewrite msum_fmap. }
    by rewrite (Hr B), (Hr B'), Hg.
Qed.

Lemma env_ok_blk_geo e B B' : blk_geo <$> B = blk_geo <$> B' → eok e B → eok e B'.
Proof. intros [Hr Hs]%blk_geo_sums [? ? ? ?]. split; by rewrite <- ?Hr, <- ?Hs. Qed.

#[export] Instance pool_laws persist stream : DeviceLaws (pool_callbacks persist stream) eok.
Proof.
  split; simpl.
  - apply env_ok_blk_geo.
  - intros. by apply mem_block_expander_spec.
  - apply mem_mapper_spec.
  - apply mem_eager_freer_spec.
  - apply mem_block_cleaner_spec.
Qed.

#[export] Instance tiny_laws : DeviceLaws tiny_callbacks eok.
Proof.
  split; simpl.
  - apply env_ok_blk_geo.
  - intros size h e Hs _ Hfr He. by apply AllocDeviceMem_block; [apply block_fresh| |].
  - apply mem_mapper_spec.
  - apply mem_eager_freer_spec.
  - apply mem_block_cleaner_spec.
Qed.
End laws.
