(* ===== verification/MemPool.v ===== *)
(** * AbstractDynamicMemPool

    The pool of memory/abstract_dynamic_memory_pool.{h,cc}: one allocator per
    (persistence, stream), an optional tiny allocator, the map from addresses to
    the buffers handed out, the buffers each pair of streams has recorded events
    on, and the statistics. *)

From S2P Require Import Prelude EventBase MemBufHeap MemGeometry MemBufSet MemBufAllocator AllocInvariant AllocSteps AllocFree AllocMalloc MemStat PoolDevice.

(** A key of [stream_id_allocators_], or the tiny allocator. *)
Definition AllocId : Type := option (bool * Z).
(** (user stream, memory stream) *)
Definition StreamPair : Type := Z * Z.

Record Pool (D : Type) := MkPool {
  p_mem : Mem;
  p_env : Env D;
  tiny_allocator_ : option Allocator;
  stream_id_allocators_ : gmap (bool * Z) Allocator;
  addr_mem_buf_allocators_ : gmap Z (ptr * AllocId);
  stream_pair_mem_bufs_ : gmap StreamPair (gset ptr);
  eager_free_count_ : Z;
  last_eager_free_count_ : Z;
  locked : bool
}.
Arguments MkPool {D} _ _ _ _ _ _ _ _ _.
Arguments p_mem {D} _.
Arguments p_env {D} _.
Arguments tiny_allocator_ {D} _.
Arguments stream_id_allocators_ {D} _.
Arguments addr_mem_buf_allocators_ {D} _.
Arguments stream_pair_mem_bufs_ {D} _.
Arguments eager_free_count_ {D} _.
Arguments last_eager_free_count_ {D} _.
Arguments locked {D} _.

Section setters.
Context {D : Type}.
Implicit Types (p : Pool D).
Definition set_mem (v : Mem) p : Pool D :=
  MkPool v (p_env p) (tiny_allocator_ p) (stream_id_allocators_ p) (addr_mem_buf_allocators_ p)
    (stream_pair_mem_bufs_ p) (eager_free_count_ p) (last_eager_free_count_ p) (locked p).
Definition set_env (v : Env D) p : Pool D :=
  MkPool (p_mem p) v (tiny_allocator_ p) (stream_id_allocators_ p) (addr_mem_buf_allocators_ p)
    (stream_pair_mem_bufs_ p) (eager_free_count_ p) (last_eager_free_count_ p) (locked p).
Definition set_tiny (v : option Allocator) p : Pool D :=
  MkPool (p_mem p) (p_env p) v (stream_id_allocators_ p) (addr_mem_buf_allocators_ p)
    (stream_pair_mem_bufs_ p) (eager_free_count_ p) (last_eager_free_count_ p) (locked p).
Definition set_allocators (v : gmap (bool * Z) Allocator) p : Pool D :=
  MkPool (p_mem p) (p_env p) (tiny_allocator_ p) v (addr_mem_buf_allocators_ p)
    (stream_pair_mem_bufs_ p) (eager_free_count_ p) (last_eager_free_count_ p) (locked p).
Definition set_addrs (v : gmap Z (ptr * AllocId)) p : Pool D :=
  MkPool (p_mem p) (p_env p) (tiny_allocator_ p) (stream_id_allocators_ p) v
    (stream_pair_mem_bufs_ p) (eager_free_count_ p) (last_eager_free_count_ p) (locked p).
Definition set_pairs (v : gmap StreamPair (gset ptr)) p : Pool D :=
  MkPool (p_mem p) (p_env p) (tiny_allocator_ p) (stream_id_allocators_ p)
    (addr_mem_buf_allocators_ p) v (eager_free_count_ p) (last_eager_free_count_ p) (locked p).
Definition set_eager_free_count (v : Z) p : Pool D :=
  MkPool (p_mem p) (p_env p) (tiny_allocator_ p) (stream_id_allocators_ p)
    (addr_mem_buf_allocators_ p) (stream_pair_mem_bufs_ p) v (last_eager_free_count_ p) (locked p).
Definition set_last_eager_free_count (v : Z) p : Pool D :=
  MkPool (p_mem p) (p_env p) (tiny_allocator_ p) (stream_id_allocators_ p)
    (addr_mem_buf_allocators_ p) (stream_pair_mem_bufs_ p) (eager_free_count_ p) v (locked p).
Definition set_locked (v : bool) p : Pool D :=
  MkPool (p_mem p) (p_env p) (tiny_allocator_ p) (stream_id_allocators_ p)
    (addr_mem_buf_allocators_ p) (stream_pair_mem_bufs_ p) (eager_free_count_ p)
    (last_eager_free_count_ p) v.

Definition pool_stat (f : MemStat → MemStat) p : Pool D := set_env (set_stat f (p_env p)) p.
End setters.

#[export] Instance HasMem_Pool D : HasMem (Pool D).
Proof. refine {| get_mem := p_mem; put_mem := set_mem |}; done || by intros []. Defined.

(** The constructor: the environment variable decides on the tiny allocator. *)
Definition new_Pool {D} (enable_tiny_allocator : bool) (e : Env D) : Pool D :=
  MkPool (MkMem ∅ ∅ 1%positive) e
    (if enable_tiny_allocator then Some (new_Allocator false false 0) else None)
    ∅ ∅ ∅ 0 0 false.

Definition pair_le (x y : bool * Z) : Prop :=
  (x.1 = false ∧ y.1 = true) ∨ (x.1 = y.1 ∧ x.2 <= y.2).
#[export] Instance pair_le_dec x y : Decision (pair_le x y).
Proof. unfold pair_le. apply _. Defined.
#[export] Instance entry_le_dec {A} (x y : (bool * Z) * A) : Decision (pair_le x.1 y.1).
Proof. apply _. Defined.

(** The iteration order of the unordered maps and of the sets of pointers: any
    enumeration will do. *)
Class IterOrder := {
  bufs_order : gset ptr → list ptr;
  pairs_order : gmap StreamPair (gset ptr) → list StreamPair;
  addrs_order : gmap Z (ptr * AllocId) → list (Z * (ptr * AllocId));
  bufs_order_spec S : bufs_order S ≡ₚ elements S;
  pairs_order_spec m : pairs_order m ≡ₚ (map_to_list m).*1;
  addrs_order_spec m : addrs_order m ≡ₚ map_to_list m
}.

(** [m.emplace(k, v)]: an existing entry is kept. *)
Definition map_emplace {K} `{Countable K} {A} (k : K) (v : A) (m : gmap K A) : gmap K A :=
  match m !! k with Some _ => m | None => <[k := v]> m end.

(** [std::prev(m.upper_bound(k))]: the entry with the largest key up to [k]. *)
Definition last_upto {A} (k : Z) (m : gmap Z A) : option (Z * A) :=
  map_fold (λ x v best,
    if x <=? k then
      match best with
      | Some (y, _) => if y <? x then Some (x, v) else best
      | None => Some (x, v)
      end
    else best) None m.

(** Entries of a [std::map] keyed by address, in its order. *)
Definition z_entry_le {A} (x y : Z * A) : Prop := x.1 <= y.1.
#[export] Instance z_entry_le_dec {A} (x y : Z * A) : Decision (z_entry_le x y).
Proof. unfold z_entry_le. apply _. Defined.
Definition in_addr_order {A} (m : gmap Z A) : list (Z * A) :=
  merge_sort z_entry_le (map_to_list m).

Module MemPool.
Section ops.
Context {D : Type} `{DeviceMem D} `{IterOrder}.
Abbreviation MP := (M (Pool D)).

(** [LockGuard lock(lock_)]: a spin lock; taking it twice in one thread never ends. *)
Definition with_lock {A} (m : MP A) : MP A := λ p,
  if locked p then Undef
  else
    match m (set_locked true p) with
    | Ret a p' => Ret a (set_locked false p')
    | Throw e p' => Throw e (set_locked false p')
    | Undef => Undef
    end.

Definition get_pool : MP (Pool D) := gets (λ p, p).
Definition on_pool_dev {A} (m : M D A) : MP A :=
  zoom p_env set_env (on_dev m).
Definition put_stat (f : MemStat → MemStat) : MP unit := modify (pool_stat f).

(** *** Allocators of the pool *)

Definition get_allocator (id : AllocId) (p : Pool D) : option Allocator :=
  match id with
  | None => tiny_allocator_ p
  | Some key => stream_id_allocators_ p !! key
  end.
Definition put_allocator (id : AllocId) (a : Allocator) (p : Pool D) : Pool D :=
  match id with
  | None => set_tiny (Some a) p
  | Some key => set_allocators (<[key := a]> (stream_id_allocators_ p)) p
  end.
Definition callbacks_of (id : AllocId) : Callbacks (Env D) :=
  match id with
  | None => tiny_callbacks
  | Some (is_persistent, stream_id) => pool_callbacks is_persistent stream_id
  end.

Definition enter (p : Pool D) (a : Allocator) : AState (Env D) :=
  MkAState (p_mem p) a (p_env p).
Definition leave (id : AllocId) (s : AState (Env D)) (p : Pool D) : Pool D :=
  put_allocator id (a_al s) (set_env (a_env s) (set_mem (a_mem s) p)).

(** [allocator->op(...)] *)
Definition with_allocator {A} (id : AllocId) (m : M (AState (Env D)) A) : MP A := λ p,
  match get_allocator id p with
  | None => Undef
  | Some a =>
      match m (enter p a) with
      | Ret r s => Ret r (leave id s p)
      | Throw e s => Throw e (leave id s p)
      | Undef => Undef
      end
  end.

(** [for (auto &iter : stream_id_allocators_)]: in the order of the keys. *)
Definition allocators_in_order (p : Pool D) : list (bool * Z) :=
  (merge_sort (λ x y, pair_le x.1 y.1) (map_to_list (stream_id_allocators_ p))).*1.

Definition tiny_limit : Z := 1048576.

Definition GetMemBufAllocator (size : Z) (from_persistent_mem : bool) (stream_id : Z)
    : MP AllocId :=
  p ← get_pool;
  if bool_decide (is_Some (tiny_allocator_ p)) && (size <=? tiny_limit) then mret None
  else
    let key := (from_persistent_mem, stream_id) in
    match stream_id_allocators_ p !! key with
    | Some _ => mret (Some key)
    | None =>
        modify (put_allocator (Some key)
                  (GenerateAllocator from_persistent_mem stream_id (p_env p)));;
        mret (Some key)
    end.

(** *** Release of a buffer *)

Definition DoFreeTensorMem (device_addr : Z) : MP bool :=
  p ← get_pool;
  match addr_mem_buf_allocators_ p !! device_addr with
  | None => mret false
  | Some (mem_buf, allocator) =>
      b ← load mem_buf;
      freed ← with_allocator allocator (MemBufAllocator.Free mem_buf kMemBufIdle);
      if freed : bool then
        put_stat (λ m, set_used_size (used_size_ m -64 mb_size b) m);;
        modify (λ p, set_addrs (delete device_addr (addr_mem_buf_allocators_ p)) p);;
        mret true
      else mret false
  end.

Definition FreeTensorMem (device_addr : Z) : MP unit :=
  with_lock (_ ← DoFreeTensorMem device_addr; mret ()).

(** *** Events *)

Definition record_one (task_id_on_stream user_stream_id : Z) (event : DeviceEventPtr)
    (entry : Z * Z) : MP unit :=
  p ← get_pool;
  match addr_mem_buf_allocators_ p !! entry.2 with
  | None => mret ()
  | Some (mem_buf, _) =>
      b ← load mem_buf;
      whenM (EventBase.IsEventNotUsed (mb_events b))
        (put_stat (λ m, set_used_by_event_size (used_by_event_size_ m +64 mb_size b) m));;
      update mem_buf (λ b, set_events
        (EventBase.RecordEvent task_id_on_stream user_stream_id event (mb_events b)).2 b);;
      modify (λ p, let key := (user_stream_id, entry.1) in
        set_pairs (<[key := default ∅ (stream_pair_mem_bufs_ p !! key) ∪ {[mem_buf]}]>
                     (stream_pair_mem_bufs_ p)) p)
  end.

(** An element of [memory_stream_addresses] is (memory stream, address). *)
Definition RecordEvent (task_id_on_stream user_stream_id : Z)
    (memory_stream_addresses : list (Z * Z)) (event : DeviceEventPtr) : MP bool :=
  with_lock (
    forM memory_stream_addresses (λ _, record_one task_id_on_stream user_stream_id event) ();;
    mret true).

(** [stream_pair_mem_bufs_[key].erase(mem_buf)], for an existing key *)
Definition erase_pair (key : StreamPair) (mem_buf : ptr) : MP unit :=
  modify (λ p, set_pairs (alter (λ S, S ∖ {[mem_buf]}) key (stream_pair_mem_bufs_ p)) p).
(** Force clear all mem bufs. *)
Definition erase_everywhere (mem_buf : ptr) : MP unit :=
  modify (λ p, set_pairs ((λ S, S ∖ {[mem_buf]}) <$> stream_pair_mem_bufs_ p) p).

(** The body both versions of [WaitEvent] run on each buffer of a pair of streams. *)
Definition wait_one (task_id_on_stream : Z) (key : StreamPair) (mem_buf : ptr) : MP unit :=
  update mem_buf (λ b, set_events
    (EventBase.WaitEvent task_id_on_stream key.1 (mb_events b)).2 b);;
  b ← load mem_buf;
  whenM (EventBase.IsEventNotUsed (mb_events b))
    (erase_pair key mem_buf;;
     put_stat (λ m, set_used_by_event_size (used_by_event_size_ m -64 mb_size b) m);;
     whenM (bool_decide (mb_status b = kMemBufUsedByEvent))
       (erase_everywhere mem_buf;; _ ← DoFreeTensorMem (mb_addr b); mret ())).

(** [auto mem_bufs = iter->second]: the loop runs over a copy of the set. *)
Definition wait_pair (task_id_on_stream : Z) (key : StreamPair) (mem_bufs : gset ptr) : MP unit :=
  forM (bufs_order mem_bufs) (λ _, wait_one task_id_on_stream key) ().

Definition WaitEvent (task_id_on_stream user_stream_id memory_stream_id : Z) : MP bool :=
  with_lock (
    p ← get_pool;
    let key := (user_stream_id, memory_stream_id) in
    match stream_pair_mem_bufs_ p !! key with
    | None => mret false
    | Some mem_bufs => wait_pair task_id_on_stream key mem_bufs;; mret true
    end).

(** The version without a user stream: every pair on the memory stream. *)
Definition WaitEvent_all (task_id_on_stream memory_stream_id : Z) : MP bool :=
  with_lock (
    p ← get_pool;
    forM (pairs_order (stream_pair_mem_bufs_ p)) (λ _ key,
      if negb (key.2 =? memory_stream_id) then mret ()
      else
        p ← get_pool;
        wait_pair task_id_on_stream key (default ∅ (stream_pair_mem_bufs_ p !! key))) ();;
    mret true).

(** The buffers of all pairs, each once. *)
Definition carry_event_mem_bufs (m : gmap StreamPair (gset ptr)) : gset ptr :=
  map_fold (λ _ S acc, S ∪ acc) ∅ m.

Definition sync_one (mem_buf : ptr) : MP unit :=
  b ← load mem_buf;
  update mem_buf (set_events (EventBase.SyncAllEvents (mb_events b)).2);;
  whenM ((EventBase.SyncAllEvents (mb_events b)).1 &&
         bool_decide (mb_status b = kMemBufUsedByEvent))
    (_ ← DoFreeTensorMem (mb_addr b); mret ()).

Definition DoSyncAllEvents : MP bool :=
  p ← get_pool;
  if bool_decide (stream_pair_mem_bufs_ p = ∅) then mret false
  else
    forM (bufs_order (carry_event_mem_bufs (stream_pair_mem_bufs_ p))) (λ _, sync_one) ();;
    modify (set_pairs ∅);;
    mret true.

Definition SyncAllEvents : MP bool := with_lock DoSyncAllEvents.
(** *** Eager free *)

Definition FreeIdleMemsByEagerFree : MP (Z * Z) :=
  modify (λ p, set_eager_free_count (eager_free_count_ p +64 1) p);;
  p ← get_pool;
  total ← forM (allocators_in_order p) (λ total key,
    r ← with_allocator (Some key)
          (MemBufAllocator.FreeIdleMemsByEagerFree (callbacks_of (Some key)));
    mret (total.1 +64 r.1, total.2 +64 r.2)) (0, 0);
  put_stat (add_eager_free_size total.1);;
  mret total.

Definition DefragMemory : MP unit :=
  with_lock (
    p ← get_pool;
    if negb (enable_vmm_ (p_env p)) then mret ()
    else if eager_free_count_ p =? 0 then mret ()
    else if last_eager_free_count_ p =? eager_free_count_ p then mret ()
    else
      synced ← on_pool_dev SyncAllStreams;
      if negb synced then mret ()
      else
        FreeIdleMemsByEagerFree;;
        modify (λ p, set_last_eager_free_count (eager_free_count_ p) p)).

(** *** Statistics *)

Definition stat_of (f : MemStat → Z) (p : Pool D) : Z := f (mem_stat_ (p_env p)).
Definition TotalMemStatistics : Pool D → Z := stat_of alloc_size_.
Definition TotalUsedMemStatistics : Pool D → Z := stat_of used_size_.
Definition TotalUsedByEventMemStatistics : Pool D → Z := stat_of used_by_event_size_.
Definition TotalIdleMemStatistics : Pool D → Z := stat_of IdleSize.
Definition TotalEagerFreeMemStatistics : Pool D → Z := stat_of eager_free_size_.
Definition UsedMemPeakStatistics : Pool D → Z := stat_of peak_size_.
Definition MaxMemAllocatedStatistics : Pool D → Z := stat_of temp_peak_size_.
Definition MaxMemReservedStatistics : Pool D → Z :=
  stat_of (λ m, alloc_size_ m -64 temp_alloc_size_ m).

Definition ActualPeakStatistics : MP Z :=
  p ← get_pool;
  if enable_vmm_ (p_env p) then mret (GetVmmUsedMemSize (dev (p_env p)))
  else
    forM (allocators_in_order p) (λ peak_size key,
      n ← with_allocator (Some key) MemBufAllocator.AllocatorActualPeakSize;
      mret (peak_size +64 n)) 0.

(** [BlockCountsStatistics]: (persistent, common) *)
Definition BlockCountsStatistics : MP (Z * Z) :=
  with_lock (
    p ← get_pool;
    mret (foldl (λ n key,
      let blocks := Z.of_nat (length (from_option mem_blocks_ [] (get_allocator (Some key) p))) in
      if key.1 : bool then (n.1 +64 blocks, n.2) else (n.1, n.2 +64 blocks))
      (0, 0) (allocators_in_order p))).

Definition BlockUnitSizeStatistics : MP (Z * Z) :=
  with_lock (gets (λ p, (persist_unit_size_ (p_env p), common_unit_size_ (p_env p)))).

(** [CommonMemBlocksInfoStatistics] and [PersistentMemBlocksInfoStatistics]: address
    of a block to its (size, stream). *)
Definition MemBlocksInfoStatistics (persistent : bool) : MP (gmap Z (Z * Z)) :=
  with_lock (
    p ← get_pool;
    forM (allocators_in_order p) (λ block_infos key,
      if negb (Bool.eqb key.1 persistent) then mret block_infos
      else
        forM (from_option mem_blocks_ [] (get_allocator (Some key) p)) (λ block_infos k,
          b ← load_blk k;
          mret (<[blk_addr b := (blk_size b, blk_stream_id b)]> block_infos)) block_infos) ∅).

Definition ResetMaxMemReserved : MP unit := with_lock (put_stat reset_reserved).
Definition ResetMaxMemAllocated : MP unit := with_lock (put_stat reset_allocated).

(** The figures of [DynamicMemPoolStateInfo]: bytes in use by kind of data, the
    figures of every allocator, and the actual peak. *)
Definition used_stat (n : AllocatorType → Z) (b : MemBuf) : AllocatorType → Z :=
  λ t, if bool_decide (t = mb_alloc_type b) then n t +64 mb_size b else n t.

Definition DynamicMemPoolStateInfo
    : MP ((AllocatorType → Z) * list (Z * Z * Z * Z) * option (Z * Z * Z * Z) * Z) :=
  p ← get_pool;
  mem_buf_used_stat ← forM (addrs_order (addr_mem_buf_allocators_ p)) (λ n entry,
    b ← load entry.2.1; mret (used_stat n b)) (λ _, 0);
  infos ← forM (allocators_in_order p) (λ infos key,
    info ← with_allocator (Some key) MemBufAllocator.DumpStateInfo;
    mret (infos ++ [info])) [];
  tiny ← (match tiny_allocator_ p with
          | None => mret None
          | Some _ => info ← with_allocator None MemBufAllocator.DumpStateInfo; mret (Some info)
          end);
  peak ← ActualPeakStatistics;
  mret (mem_buf_used_stat, infos, tiny, peak).

Definition DumpDynamicMemPoolStateInfo : MP unit := _ ← DynamicMemPoolStateInfo; mret ().

(** *** Allocation *)

Definition Malloc_of (allocator : AllocId) (size : Z) : MP (option ptr) :=
  with_allocator allocator (MemBufAllocator.Malloc (callbacks_of allocator) size).

(** Last resort: a new block, then the buffers the pending events hold. *)
Definition ExpandOrSync (allocator : AllocId) (align_size : Z) : MP (option ptr) :=
  mem_buf ← with_allocator allocator
              (MemBufAllocator.MallocExpandBlock (callbacks_of allocator) align_size);
  match mem_buf with
  | Some q => mret (Some q)
  | None => _ ← DoSyncAllEvents; Malloc_of allocator align_size
  end.

(** Eager free, when the device supports it; then the last resort. *)
Definition EagerFreeOrExpand (allocator : AllocId) (align_size : Z) : MP (option ptr) :=
  p ← get_pool;
  if eager_or_vmm (p_env p) then
    synced ← on_pool_dev SyncAllStreams;
    if negb synced then mret None
    else
      _ ← FreeIdleMemsByEagerFree;
      mem_buf ← Malloc_of allocator align_size;
      match mem_buf with
      | Some q => mret (Some q)
      | None => ExpandOrSync allocator align_size
      end
  else ExpandOrSync allocator align_size.

(** The allocator asked first, and the common one when a persistent request fails
    without virtual memory management. *)
Definition MallocFromAllocators (align_size : Z) (from_persistent_mem : bool) (stream_id : Z)
    : MP (option ptr * AllocId) :=
  allocator ← GetMemBufAllocator align_size from_persistent_mem stream_id;
  mem_buf ← Malloc_of allocator align_size;
  p ← get_pool;
  match mem_buf with
  | Some q => mret (Some q, allocator)
  | None =>
      if negb (enable_vmm_ (p_env p)) && from_persistent_mem then
        another_allocator ← GetMemBufAllocator align_size (negb from_persistent_mem) stream_id;
        mem_buf ← Malloc_of another_allocator align_size;
        mret (mem_buf, another_allocator)
      else mret (None, allocator)
  end.

Definition AllocMemBuf (align_size : Z) (from_persistent_mem : bool) (stream_id : Z)
    : MP (option (ptr * AllocId)) :=
  r ← MallocFromAllocators align_size from_persistent_mem stream_id;
  mem_buf ← (match r.1 with
             | Some q => mret (Some q)
             | None => EagerFreeOrExpand r.2 align_size
             end);
  match mem_buf with
  | None => mret None
  | Some q =>
      b ← load q;
      put_stat (λ m, UpdatePeakSize (set_used_size (used_size_ m +64 mb_size b) m));;
      mret (Some (q, r.2))
  end.

Definition AllocTensorMem (size : Z) (from_persistent_mem : bool) (stream_id : Z) : MP Z :=
  let align_size := AlignMemorySize size in
  with_lock (
    mem_buf_allocator ← AllocMemBuf align_size from_persistent_mem stream_id;
    match mem_buf_allocator with
    | None => DumpDynamicMemPoolStateInfo;; mret 0
    | Some (mem_buf, allocator) =>
        b ← load mem_buf;
        modify (λ p, set_addrs (map_emplace (mb_addr b) (mem_buf, allocator)
                                  (addr_mem_buf_allocators_ p)) p);;
        mret (mb_addr b)
    end).

(** *** Contiguous allocation *)

(** [std::accumulate] over [size_t] *)
Definition accumulate (l : list Z) : Z := foldl (λ n s, n +64 s) 0 l.

(** The loop of [AllocContinuousTensorMem] over the sizes after the first. *)
Fixpoint split_loop (sizes : list Z) (stream_id : Z) (mem_block prev_mem_buf : ptr)
    (allocator : AllocId) (next_addr total_size : Z) (device_addr_list : list Z)
    : MP (list Z) :=
  match sizes with
  | [] => mret device_addr_list
  | size :: rest =>
      new_mem_buf ← alloc_buf (new_MemBuf size next_addr stream_id mem_block kMemBufUsed);
      prev ← load prev_mem_buf;
      Link new_mem_buf (Some prev_mem_buf) (mb_next prev);;
      modify (λ p, set_addrs (map_emplace next_addr (new_mem_buf, allocator)
                                (addr_mem_buf_allocators_ p)) p);;
      let device_addr_list := device_addr_list ++ [next_addr] in
      match rest with
      | [] =>
          whenM (negb (total_size =? size)) (update new_mem_buf (set_size total_size));;
          mret device_addr_list
      | _ =>
          split_loop rest stream_id mem_block new_mem_buf allocator
            (next_addr + size) (total_size -64 size) device_addr_list
      end
  end.

Definition AllocContinuousTensorMem (size_list : list Z) (stream_id : Z) : MP (list Z) :=
  let total_size := accumulate size_list in
  device_addr ← AllocTensorMem total_size false stream_id;
  if device_addr =? 0 then mret []
  else if Nat.eqb (length size_list) 1 then mret [device_addr]
  else
    with_lock (
      p ← get_pool;
      match addr_mem_buf_allocators_ p !! device_addr with
      | None => mret [device_addr]
      | Some (mem_buf, allocator) =>
          size0 ← deref (head size_list);
          update mem_buf (set_size size0);;
          b ← load mem_buf;
          split_loop (tail size_list) stream_id (mb_mem_block b) mem_buf allocator
            (mb_addr b + size0) (total_size -64 size0) [device_addr]
      end).

(** *** Partial release *)

Definition Candidates : Type := gmap Z (ptr * AllocId).

Definition find_candidates (free_addrs : list Z) (p : Pool D) : Candidates :=
  foldl (λ candidates free_addr,
    match addr_mem_buf_allocators_ p !! free_addr with
    | Some v => map_emplace free_addr v candidates
    | None => candidates
    end) ∅ free_addrs.

(** The part [keep_addr, keep_end) of [mem_buf], whose fields are [b], becomes a buffer
    of its own: [mem_buf] itself, cut short, when it starts there, a new one otherwise. *)
Definition cut_keep (candidates : Candidates) (mem_buf : ptr) (allocator : AllocId) (b : MemBuf)
    (keep_addr keep_size : Z) : MP (ptr * Candidates) :=
  if keep_addr =? mb_addr b then
    update mem_buf (set_size keep_size);;
    mret (mem_buf, delete (mb_addr b) candidates)
  else
    keep_mem_buf ← alloc_buf (new_MemBuf keep_size keep_addr (mb_stream_id b) (mb_mem_block b)
                                (mb_status b));
    Link keep_mem_buf (Some mem_buf) (mb_next b);;
    modify (λ p, set_addrs (map_emplace keep_addr (keep_mem_buf, allocator)
                              (addr_mem_buf_allocators_ p)) p);;
    update mem_buf (set_size (keep_addr -64 mb_addr b));;
    mret (keep_mem_buf, candidates).

(** What is left after the kept part is a candidate for release of its own. *)
Definition cut_last (candidates : Candidates) (mem_buf keep_mem_buf : ptr) (allocator : AllocId)
    (base_end keep_end : Z) : MP Candidates :=
  if keep_end <? base_end then
    keep ← load keep_mem_buf;
    b ← load mem_buf;
    let last_addr := mb_addr keep + mb_size keep in
    last_mem_buf ← alloc_buf (new_MemBuf (base_end -64 keep_end) last_addr (mb_stream_id keep)
                                (mb_mem_block keep) (mb_status b));
    Link last_mem_buf (Some keep_mem_buf) (mb_next keep);;
    modify (λ p, set_addrs (map_emplace last_addr (last_mem_buf, allocator)
                              (addr_mem_buf_allocators_ p)) p);;
    mret (map_emplace last_addr (last_mem_buf, allocator) candidates)
  else mret candidates.

(** State of the loop over [keep_addrs]: (candidates, processed addresses, result). *)
Definition keep_one (keep_addr_sizes : list Z) (acc : Candidates * gset Z * list ptr)
    (entry : nat * Z) : MP (Candidates * gset Z * list ptr) :=
  let '(candidates, processed, mem_bufs) := acc in
  let '(i, keep_addr) := entry in
  if bool_decide (keep_addr ∈ processed) then mret acc
  else
    let processed := {[keep_addr]} ∪ processed in
    match last_upto keep_addr candidates with
    | None => mret (candidates, processed, mem_bufs)
    | Some (_, (mem_buf, allocator)) =>
        b ← load mem_buf;
        let base_end := mb_addr b +64 mb_size b in
        keep_size ← deref (keep_addr_sizes !! i);
        let keep_end := keep_addr +64 keep_size in
        if base_end <=? keep_addr then mret (candidates, processed, mem_bufs)
        else
          r ← cut_keep candidates mem_buf allocator b keep_addr keep_size;
          candidates ← cut_last r.2 mem_buf r.1 allocator base_end keep_end;
          mret (candidates, processed, mem_bufs ++ [r.1])
    end.

Definition free_candidate (candidate : Z * (ptr * AllocId)) : MP unit :=
  b ← load candidate.2.1;
  freed ← DoFreeTensorMem (mb_addr b);
  whenM (negb freed) DumpDynamicMemPoolStateInfo.

Definition DoFreePartTensorMems (free_addrs keep_addrs keep_addr_sizes : list Z)
    : MP (list ptr) :=
  p ← get_pool;
  r ← forM (imap pair keep_addrs) (keep_one keep_addr_sizes) (find_candidates free_addrs p, ∅, []);
  forM (in_addr_order r.1.1) (λ _, free_candidate) ();;
  mret r.2.

Definition FreePartTensorMems (free_addrs keep_addrs keep_addr_sizes : list Z) : MP unit :=
  with_lock (_ ← DoFreePartTensorMems free_addrs keep_addrs keep_addr_sizes; mret ()).

(** *** Release *)

(** The tiny allocator is not among the allocators released. *)
Definition ReleaseDeviceRes : MP unit :=
  with_lock (
    DumpDynamicMemPoolStateInfo;;
    p ← get_pool;
    forM (addrs_order (addr_mem_buf_allocators_ p)) (λ _ entry, delete_buf entry.2.1) ();;
    modify (set_addrs ∅);;
    p ← get_pool;
    forM (allocators_in_order p) (λ _ key,
      with_allocator (Some key) (MemBufAllocator.ReleaseDeviceRes (callbacks_of (Some key)))) ();;
    modify (set_allocators ∅);;
    modify (set_pairs ∅);;
    put_stat (λ _, stat_Reset)).
End ops.
End MemPool.
