(* ===== verification/PoolInvariant.v ===== *)
(** * Invariant of the pool

    [core]: the store is well formed, every allocator holds exactly the free
    buffers of its own blocks, the blocks are divided among the allocators and the
    device agrees. [books]: the address map lists exactly the buffers in use, and
    [used_size_] is their total. [tracked]: the buffers recorded in the stream-pair
    sets are exactly the buffers in use with pending events. [BumpPool] is a device
    and a pool on which all of this can be evaluated. *)

From S2P Require Import Prelude EventBase MemBufHeap MemGeometry MemBufSet MemBufAllocator AllocInvariant AllocSteps AllocFree AllocMalloc AllocMaint MemStat PoolDevice MemPool.
Import MemPool.

Definition used_map {D} (p : Pool D) : gmap ptr MemBuf := inuse (bufs (p_mem p)).

(** Block [k] belongs to allocator [id]. *)
Definition owner {D} (p : Pool D) (id : AllocId) (k : ptr) : Prop :=
  ∃ a, get_allocator id p = Some a ∧ k ∈ mem_blocks_ a.

Section invariant.
Context {D : Type} `{DeviceMem D} (dev_ok : D → gmap ptr (Z * Z) → Prop).
Implicit Types (p : Pool D).

Record core p : Prop := {
  co_mem : mem_ok None (p_mem p);
  co_env : env_ok dev_ok (env_frame (p_env p)) (p_env p) (blks (p_mem p));
  co_alloc : ∀ id a, get_allocator id p = Some a → alloc_ok None (p_mem p) a;
  co_part : ∀ id id' k, owner p id k → owner p id' k → id = id';
  co_owned : ∀ k, is_Some (blks (p_mem p) !! k) → ∃ id, owner p id k
}.

Record books p : Prop := {
  bo_addrs : ∀ addr q id, addr_mem_buf_allocators_ p !! addr = Some (q, id) ↔
    ∃ b, used_map p !! q = Some b ∧ mb_addr b = addr ∧ owner p id (mb_mem_block b);
  bo_used : used_size_ (mem_stat_ (p_env p)) = u64 (msum mb_size (used_map p))
}.

End invariant.

(** Buffers recorded for events; [U] are the buffers in use, [P] the stream-pair sets. *)
Definition recorded (P : gmap StreamPair (gset ptr)) (key : StreamPair) (q : ptr) : Prop :=
  ∃ S, P !! key = Some S ∧ q ∈ S.

Definition has_events (b : MemBuf) : Prop := EventBase.IsEventNotUsed (mb_events b) = false.

(** Buffer [b] is in order with respect to [P]: it is recorded when it has pending
    events, under one pair of streams, whose user stream all these events are on. *)
Record tracked_buf (P : gmap StreamPair (gset ptr)) (q : ptr) (b : MemBuf) : Prop := {
  tb_all : has_events b → ∃ key, recorded P key q;
  tb_key : ∀ key, recorded P key q →
    has_events b ∧ ∀ u, u ≠ key.1 → EventBase.pending (mb_events b) u = [];
  tb_status : mb_status b = kMemBufUsedByEvent → has_events b;
  tb_events : EventBase.events_ok (mb_events b)
}.

Record tracked (U : gmap ptr MemBuf) (P : gmap StreamPair (gset ptr)) : Prop := {
  tr_bufs : ∀ q b, U !! q = Some b → tracked_buf P q b;
  tr_used : ∀ key q, recorded P key q → is_Some (U !! q);
  tr_single : ∀ key key' q, recorded P key q → recorded P key' q → key = key'
}.

Record pool_inv {D} `{DeviceMem D} (dev_ok : D → gmap ptr (Z * Z) → Prop) (p : Pool D) : Prop := {
  pi_core : core dev_ok p;
  pi_books : books p;
  pi_tracked : tracked (used_map p) (stream_pair_mem_bufs_ p)
}.

Section consequences.
Context {D : Type} `{DeviceMem D} (dev_ok : D → gmap ptr (Z * Z) → Prop).
Implicit Types (p : Pool D).
Abbreviation core := (core dev_ok).

(** ** Consequences *)

Lemma owner_block p id k : core p → owner p id k → is_Some (blks (p_mem p) !! k).
Proof. intros Hc (a & Ha & Hk). by apply (ao_blks _ _ _ (co_alloc _ _ Hc _ _ Ha)). Qed.

Lemma used_map_Some p q b : used_map p !! q = Some b ↔
  ∃ c, bufs (p_mem p) !! q = Some c ∧ is_free (mb_status c) = false ∧ b = strip c.
Proof. apply lookup_inuse_Some. Qed.

Lemma used_owner p q b : core p → used_map p !! q = Some b → ∃ id, owner p id (mb_mem_block b).
Proof.
  intros Hc (c & Hq & _ & ->)%used_map_Some. apply (co_owned _ _ Hc).
  destruct (buf_range _ _ _ _ (co_mem _ _ Hc) Hq) as (_ & _ & _ & k & Hk & _). by exists k.
Qed.

Lemma used_addr_inj p q q' b b' : core p →
  used_map p !! q = Some b → used_map p !! q' = Some b' → mb_addr b = mb_addr b' → q = q'.
Proof.
  intros Hc (c & Hq & _ & ->)%used_map_Some (c' & Hq' & _ & ->)%used_map_Some He.
  destruct (decide (q = q')) as [|Hne]; [done|].
  destruct (addr_inj _ _ _ _ _ _ (mo_segs _ _ (co_mem _ _ Hc)) Hq Hq' Hne He).
Qed.

(** What [AddrMap] says, read in both directions. *)
Lemma books_lookup p addr q id : books p → addr_mem_buf_allocators_ p !! addr = Some (q, id) →
  ∃ b, used_map p !! q = Some b ∧ mb_addr b = addr ∧ owner p id (mb_mem_block b).
Proof. intros Hb. apply (bo_addrs _ Hb). Qed.

Lemma books_addr p q b : core p → books p → used_map p !! q = Some b →
  ∃ id, addr_mem_buf_allocators_ p !! mb_addr b = Some (q, id) ∧ owner p id (mb_mem_block b).
Proof.
  intros Hc Hb Hq. destruct (used_owner _ _ _ Hc Hq) as [id Hid]. exists id.
  split; [|done]. apply (bo_addrs _ Hb). by exists b.
Qed.

Lemma books_addr_None p addr : core p → books p →
  addr_mem_buf_allocators_ p !! addr = None →
  ∀ q b, used_map p !! q = Some b → mb_addr b ≠ addr.
Proof.
  intros Hc Hb Hn q b Hq He. destruct (books_addr _ _ _ Hc Hb Hq) as (id & Hid & _). congruence.
Qed.

(** The byte count of the buffers in use does not wrap: they are disjoint. *)
Lemma used_size_pos p q b : core p → used_map p !! q = Some b → 0 < mb_size b < w64.
Proof.
  intros Hc (c & Hq & _ & ->)%used_map_Some. exact (proj1 (buf_range _ _ _ _ (co_mem _ _ Hc) Hq)).
Qed.
End consequences.

(** ** Entering and leaving an allocator *)
Section steps.
Context {D : Type} `{DeviceMem D} (dev_ok : D → gmap ptr (Z * Z) → Prop).
Context `{!DeviceMemLaws D dev_ok}.
Implicit Types (p : Pool D) (s : AState (Env D)).
Abbreviation core := (core dev_ok).

#[export] Instance callbacks_laws id f : DeviceLaws (callbacks_of id) (env_ok dev_ok f).
Proof. destruct id as [[persist stream]|]; simpl; apply _. Qed.

Lemma get_put_allocator id id' a p :
  get_allocator id' (put_allocator id a p) =
    if decide (id' = id) then Some a else get_allocator id' p.
Proof.
  destruct id as [k|], id' as [k'|]; simpl; try done.
  rewrite lookup_insert. repeat case_decide; congruence.
Qed.

Lemma get_allocator_leave id id' s p :
  get_allocator id' (leave id s p) =
    if decide (id' = id) then Some (a_al s) else get_allocator id' p.
Proof. unfold leave. rewrite get_put_allocator. by destruct id'. Qed.

Lemma leave_mem id s p : p_mem (leave id s p) = a_mem s.
Proof. by destruct id. Qed.
Lemma leave_env id s p : p_env (leave id s p) = a_env s.
Proof. by destruct id. Qed.
Lemma leave_addrs id s p : addr_mem_buf_allocators_ (leave id s p) = addr_mem_buf_allocators_ p.
Proof. by destruct id. Qed.
Lemma leave_pairs id s p : stream_pair_mem_bufs_ (leave id s p) = stream_pair_mem_bufs_ p.
Proof. by destruct id. Qed.
Lemma leave_locked id s p : locked (leave id s p) = locked p.
Proof. by destruct id. Qed.
Lemma leave_used id s p : used_map (leave id s p) = inuse (bufs (a_mem s)).
Proof. unfold used_map. by rewrite leave_mem. Qed.

Lemma wp_with_allocator {A} id (m : M (AState (Env D)) A) p a Q :
  get_allocator id p = Some a → wp m (enter p a) (λ r s, Q r (leave id s p)) →
  wp (with_allocator id m) p Q.
Proof. unfold wp, with_allocator. intros ->. by destruct (m (enter p a)). Qed.

Lemma core_state id p a : core p → get_allocator id p = Some a →
  state_ok (env_ok dev_ok (env_frame (p_env p))) (enter p a).
Proof. intros Hc Ha. split; simpl; [apply Hc|by eapply co_alloc|apply Hc]. Qed.

Lemma env_ok_self f e B : env_ok dev_ok f e B → env_frame e = f.
Proof. by intros []. Qed.

(** The blocks after an operation of allocator [id]. *)
Lemma owner_leave id p a s : core p → get_allocator id p = Some a → extends (enter p a) s →
  ∃ new : list ptr, (∀ k, k ∈ new → blks (p_mem p) !! k = None) ∧
    (∀ k, is_Some (blks (a_mem s) !! k) ↔ is_Some (blks (p_mem p) !! k) ∨ k ∈ new) ∧
    ∀ id' k, owner (leave id s p) id' k ↔ owner p id' k ∨ id' = id ∧ k ∈ new.
Proof.
  intros Hc Ha [(new & Hmb & Hnew & Hdom) _ _ _]. simpl in *. exists new. split_and!; try done.
  intros id' k. unfold owner. rewrite get_allocator_leave. case_decide as Hid; [subst id'|].
  - split.
    + intros (a' & [= <-] & Hk). rewrite Hmb in Hk. apply elem_of_app in Hk as [Hk|Hk]; [|by right].
      left. by exists a.
    + intros [(a' & Ha' & Hk)|[_ Hk]]; exists (a_al s); split; try done;
        rewrite Hmb, elem_of_app; [left|by right]. by simplify_eq.
  - split; [by left|]. by intros [?|[? _]].
Qed.

Lemma core_leave id p a s f : core p → get_allocator id p = Some a →
  extends (enter p a) s → state_ok (env_ok dev_ok f) s → core (leave id s p).
Proof.
  intros Hc Ha Hex [Hm Hal He]. pose proof (owner_leave _ _ _ _ Hc Ha Hex) as (new & Hn & Hdom & Hown).
  split.
  - by rewrite leave_mem.
  - rewrite leave_env, leave_mem. by rewrite (env_ok_self _ _ _ He).
  - intros id' a' Ha'. rewrite leave_mem. rewrite get_allocator_leave in Ha'.
    case_decide as Hid; [by simplify_eq|]. pose proof (co_alloc _ _ Hc _ _ Ha') as [Hnd Hb Hi Heg Hk].
    assert (∀ y b, mb_mem_block b ∈ mem_blocks_ a' →
      bufs (p_mem p) !! y = Some b ↔ bufs (a_mem s) !! y = Some b) as Hsame.
    { intros y b Hin. apply (ex_foreign _ _ Hex). intros Hin'. apply Hid.
      apply (co_part _ _ Hc id' id (mb_mem_block b)); [by exists a'|].
      assert (owner (leave id s p) id (mb_mem_block b)) as [Ho|[_ Ho]]%Hown; [|done|].
      - exists (a_al s). rewrite get_allocator_leave. by case_decide.
      - destruct (Hb _ Hin) as [? Hx]. by rewrite (Hn _ Ho) in Hx. }
    split; try done.
    + intros k Hin. apply Hdom. left. by apply Hb.
    + by apply (set_ok_foreign (bufs (p_mem p))).
    + by apply (set_ok_foreign (bufs (p_mem p))).
  - intros id1 id2 k [H1|[-> H1]]%Hown [H2|[-> H2]]%Hown; try done.
    + by apply (co_part _ _ Hc id1 id2 k).
    + destruct (owner_block _ _ _ _ Hc H1) as [? Hx]. by rewrite (Hn _ H2) in Hx.
    + destruct (owner_block _ _ _ _ Hc H2) as [? Hx]. by rewrite (Hn _ H1) in Hx.
  - intros k. rewrite leave_mem. intros [Hk|Hk]%Hdom.
    + destruct (co_owned _ _ Hc _ Hk) as [id' Ho]. exists id'. apply Hown. by left.
    + exists id. apply Hown. by right.
Qed.

(** Ownership of the blocks that existed before is the same. *)
Lemma owner_leave_old id p a s id' k : core p → get_allocator id p = Some a →
  extends (enter p a) s → is_Some (blks (p_mem p) !! k) →
  owner (leave id s p) id' k ↔ owner p id' k.
Proof.
  intros Hc Ha Hex [b Hk]. destruct (owner_leave _ _ _ _ Hc Ha Hex) as (new & Hn & _ & Hown).
  rewrite Hown. split; [|by left]. intros [?|[_ Hin]]; [done|]. by rewrite (Hn _ Hin) in Hk.
Qed.
End steps.

(** * Keeping the books of the pool

    How the address map, [used_size_] and the stream-pair sets follow a change of
    the set of buffers in use: one buffer added, removed or relabelled. *)

Section books.
Context {D : Type} `{DeviceMem D} (dev_ok : D → gmap ptr (Z * Z) → Prop).
Implicit Types (p : Pool D).
Abbreviation core := (core dev_ok).

(** Old blocks keep their owner. *)
Definition same_owner p p' : Prop := ∀ id k,
  is_Some (blks (p_mem p) !! k) → owner p' id k ↔ owner p id k.

Definition stat_used p : Z := used_size_ (mem_stat_ (p_env p)).
Definition stat_by_event p : Z := used_by_event_size_ (mem_stat_ (p_env p)).

Lemma used_block p q b : core p → used_map p !! q = Some b →
  is_Some (blks (p_mem p) !! mb_mem_block b).
Proof.
  intros Hc (c & Hq & _ & ->)%used_map_Some.
  destruct (buf_range _ _ _ _ (co_mem _ _ Hc) Hq) as (_ & _ & _ & k & Hk & _). by exists k.
Qed.

Lemma books_same p p' :
  core p → books p → same_owner p p' → used_map p' = used_map p →
  addr_mem_buf_allocators_ p' = addr_mem_buf_allocators_ p → stat_used p' = stat_used p →
  books p'.
Proof.
  intros Hc [Ha Hu] Ho HU HA HS. split; [|unfold stat_used in HS; by rewrite HS, HU].
  intros addr q id. rewrite HA, HU, Ha. apply exist_proper. intros b.
  split; intros (Hq & He & Hw); split_and!; try done; apply (Ho id); try done;
    by apply (used_block _ q).
Qed.

Lemma books_relabel p p' q b b' :
  core p → books p → same_owner p p' → used_map p !! q = Some b →
  used_map p' = <[q := b']> (used_map p) →
  mb_addr b' = mb_addr b → mb_size b' = mb_size b → mb_mem_block b' = mb_mem_block b →
  addr_mem_buf_allocators_ p' = addr_mem_buf_allocators_ p → stat_used p' = stat_used p →
  books p'.
Proof.
  intros Hc [Ha Hu] Ho Hq HU Haddr Hsz Hblk HA HS. split.
  - intros addr x id. rewrite HA, HU, Ha. destruct (decide (x = q)) as [->|Hne].
    + rewrite lookup_insert_eq. pose proof (Ho id _ (used_block _ _ _ Hc Hq)) as Hoq. split.
      * intros (c & Hc' & He & Hw). simplify_eq. exists b'. rewrite Hblk. naive_solver.
      * intros (c & [= <-] & He & Hw). exists b. rewrite Hblk in Hw. naive_solver congruence.
    + rewrite lookup_insert_ne by done. apply exist_proper. intros c.
      split; intros (Hx & He & Hw); split_and!; try done; apply (Ho id); try done;
        by apply (used_block _ x).
  - unfold stat_used in HS. rewrite HS, HU, Hu, (msum_update _ _ _ b) by done. f_equal. lia.
Qed.

Lemma books_delete p p' q b :
  core p → books p → same_owner p p' → used_map p !! q = Some b →
  used_map p' = delete q (used_map p) →
  addr_mem_buf_allocators_ p' = delete (mb_addr b) (addr_mem_buf_allocators_ p) →
  stat_used p' = stat_used p -64 mb_size b →
  books p'.
Proof.
  intros Hc [Ha Hu] Ho Hq HU HA HS. split.
  - intros addr x id. rewrite HA, HU, lookup_delete_Some, Ha. split.
    + intros (Hne & c & Hx & He & Hw). exists c. split_and!; try done.
      * apply lookup_delete_Some. split; [|done]. intros ->. simplify_eq.
      * apply Ho; [by apply (used_block _ x)|done].
    + intros (c & [Hne Hx]%lookup_delete_Some & He & Hw). split.
      * intros <-. apply Hne. symmetry. apply (used_addr_inj dev_ok p x q c b); done.
      * exists c. split_and!; try done. apply Ho; [by apply (used_block _ x)|done].
  - unfold stat_used in *. rewrite HS, HU, Hu, (msum_delete _ _ _ _ Hq), u64_sub_l. f_equal. lia.
Qed.

Lemma books_insert p p' q b id :
  core p → core p' → books p → same_owner p p' → used_map p !! q = None →
  used_map p' = <[q := b]> (used_map p) → owner p' id (mb_mem_block b) →
  addr_mem_buf_allocators_ p' = <[mb_addr b := (q, id)]> (addr_mem_buf_allocators_ p) →
  stat_used p' = stat_used p +64 mb_size b →
  addr_mem_buf_allocators_ p !! mb_addr b = None ∧ books p'.
Proof.
  intros Hc Hc' Hb Ho Hq HU Hw HA HS.
  assert (used_map p' !! q = Some b) as Hq' by (by rewrite HU, lookup_insert_eq).
  assert (∀ x c, used_map p !! x = Some c → x ≠ q ∧ used_map p' !! x = Some c) as Hold.
  { intros x c Hx. assert (x ≠ q) by congruence. by rewrite HU, lookup_insert_ne. }
  split.
  - destruct (addr_mem_buf_allocators_ p !! mb_addr b) as [[x id']|] eqn:He; [|done].
    apply (books_lookup _ _ _ _ Hb) in He as (c & Hx & He & _). apply Hold in Hx as [Hne Hx].
    destruct Hne. by apply (used_addr_inj dev_ok p' x q c b).
  - split; [|unfold stat_used in *; rewrite HS, HU, (bo_used _ Hb), msum_insert, u64_add_l by done;
      f_equal; lia].
    intros addr x id'. rewrite HA. destruct (decide (x = q)) as [->|Hne].
    + split.
      * rewrite lookup_insert. case_decide as He; [intros [= <-]; by exists b|].
        intros (c & Hx & _)%(books_lookup _ _ _ _ Hb). congruence.
      * intros (c & Hc'' & <- & Hw'). rewrite Hq' in Hc''. simplify_eq.
        rewrite (co_part _ _ Hc' id' id _ Hw' Hw). apply lookup_insert_eq.
    + rewrite HU, (lookup_insert_ne _ q x) by done. split.
      * rewrite lookup_insert. case_decide as He; [congruence|].
        intros (c & Hx & Ha & Hw')%(books_lookup _ _ _ _ Hb). exists c. split_and!; try done.
        apply Ho; [by apply (used_block _ x)|done].
      * intros (c & Hx & Ha & Hw'). rewrite lookup_insert_ne.
        -- apply (bo_addrs _ Hb). exists c. split_and!; try done.
           apply Ho; [by apply (used_block _ x)|done].
        -- intros He. destruct (Hold _ _ Hx) as [_ Hx']. apply Hne.
           apply (used_addr_inj dev_ok p' x q c b); congruence.
Qed.

Lemma same_owner_refl p p' :
  tiny_allocator_ p' = tiny_allocator_ p → stream_id_allocators_ p' = stream_id_allocators_ p →
  same_owner p p'.
Proof. intros Ht Hs id k _. unfold owner, get_allocator. by rewrite Ht, Hs. Qed.

Lemma same_owner_leave `{!DeviceMemLaws D dev_ok} id p a s :
  core p → get_allocator id p = Some a → extends (enter p a) s → same_owner p (leave id s p).
Proof. intros Hc Ha Hex id' k Hk. by apply (owner_leave_old dev_ok _ _ a). Qed.

Lemma same_owner_trans p1 p2 p3 :
  same_owner p1 p2 → same_owner p2 p3 →
  (∀ k, is_Some (blks (p_mem p1) !! k) → is_Some (blks (p_mem p2) !! k)) → same_owner p1 p3.
Proof. intros H12 H23 Hm id k Hk. etransitivity; [by apply H23, Hm|by apply H12]. Qed.

(** Relabelling a buffer in use keeps the core. *)
Lemma core_relabel p q b nb :
  core p → bufs (p_mem p) !! q = Some b → is_free (mb_status b) = false →
  is_free (mb_status nb) = false → seg_of nb = seg_of b →
  let p' := set_mem (with_bufs (<[q := nb]> (bufs (p_mem p))) (p_mem p)) p in
  core p' ∧ used_map p' = <[q := strip nb]> (used_map p) ∧ same_owner p p'.
Proof.
  intros Hc Hq Hf Hnf Hseg p'. pose proof (co_mem _ _ Hc) as Hm.
  assert (segs (<[q := nb]> (bufs (p_mem p))) = segs (bufs (p_mem p))) as Hsegs.
  { unfold segs. rewrite fmap_insert, Hseg. apply insert_id. by rewrite lookup_fmap, Hq. }
  assert (used_map p' = <[q := strip nb]> (used_map p)) as HU.
  { apply (relabel_inuse (p_mem p) _ q nb); [apply labels_insert|done]. }
  split_and!; [|done|by apply same_owner_refl].
  destruct Hc as [_ He Hal Hpart Hown]. split; simpl; try done.
  - apply (relabel_mem_ok None (p_mem p) _ q b nb); try done; [apply labels_insert|congruence|by right].
  - intros id a Ha. destruct (Hal id a Ha) as [Hnd Hb Hi Heg Hk].
    assert (∀ st l, is_free st = true → set_ok None (bufs (p_mem p)) st (mem_blocks_ a) l →
      set_ok None (<[q := nb]> (bufs (p_mem p))) st (mem_blocks_ a) l) as Hset.
    { intros st l Hst Hl. apply (set_ok_release _ _ _ _ q nb).
      - apply set_ok_insert_x. apply (set_ok_exempt _ _ _ _ q None); try done.
        intros (_ & c & Hc & Hs & _)%(se_members _ _ _ _ _ Hl). simplify_eq. congruence.
      - apply lookup_insert_eq.
      - congruence. }
    split; simpl; try done; by apply Hset.
Qed.
End books.

(** ** A concrete device and pool

    A device that hands out ever higher addresses, on which the operations of the
    pool can be evaluated; it satisfies the contract of devices. *)

Module BumpPool.

(** The lowest address never handed out; 64 GB are left to give at the start. *)
Definition device := Z.
Definition capacity : Z := 1099511627776.

Definition alloc_device_mem (size : Z) : M device (Z * Z) := λ d,
  if d + size <=? capacity then Ret (size, d) (d + size) else Ret (0, 0) d.

#[export] Instance bump_device : DeviceMem device := {|
  free_mem_size := λ _, 68719476736;
  total_mem_size := λ _, 34359738368;
  IsEnableEagerFree := λ _, false;
  GetVmmUsedMemSize := λ _, 0;
  SyncAllStreams := λ d, Ret true d;
  AllocDeviceMem := alloc_device_mem;
  FreeDeviceMem := λ _ d, Ret true d;
  AllocDeviceMemByEagerFree := alloc_device_mem;
  MmapDeviceMem := λ size _ d, Ret size d;
  FreeDeviceMemByEagerFree := λ _ size d, Ret size d
|}.

Definition dev_ok (d : device) (R : gmap ptr (Z * Z)) : Prop :=
  4096 <= d <= capacity ∧ ∀ k a n, R !! k = Some (a, n) → 0 < n ∧ a + n <= d.

Lemma alloc_device_mem_spec d R k size :
  dev_ok d R → R !! k = None → 0 < size < w64 →
  wp (alloc_device_mem size) d (λ r d', r.1 = 0 ∧ dev_ok d' R ∨
    new_region R r.2 r.1 ∧ dev_ok d' (<[k := (r.2, r.1)]> R)).
Proof.
  intros [Hd HR] Hk Hs. unfold alloc_device_mem, wp.
  destruct (Z.leb_spec (d + size) capacity) as [Hle|Hle]; [right|by left].
  unfold capacity, w64, device in *. simpl. split.
  - unfold new_region, w64. split_and!; try lia. intros j a m Hj. right. by apply (HR j).
  - split; [unfold capacity; lia|]. intros j a n. rewrite lookup_insert. case_decide.
    + intros [= <- <-]. lia.
    + intros Hj. specialize (HR _ _ _ Hj). lia.
Qed.

#[export] Instance bump_laws : DeviceMemLaws device dev_ok.
Proof.
  split; simpl; try done.
  - apply alloc_device_mem_spec.
  - apply alloc_device_mem_spec.
  - intros d R k a n [Hd HR] Hk. split; [done|].
    intros j b m [_ Hj]%lookup_delete_Some. by apply (HR j).
Qed.

(** Iteration in the order the library enumerates. *)
#[export, refine] Instance list_order : IterOrder := {|
  bufs_order := elements;
  pairs_order := λ m, (map_to_list m).*1;
  addrs_order := map_to_list
|}.
Proof. all: done. Defined.

(** Blocks of a megabyte. *)
Definition env0 : Env device := MkEnv stat_Reset 4096 false 1048576 1048576.
Definition pool0 : Pool device := new_Pool false env0.

(** The state after a computation, when it returns. *)
Definition after {S A} (m : M S A) (s : S) : S :=
  match m s with Ret _ s' => s' | _ => s end.
Definition result {S A} (m : M S A) (s : S) : option A :=
  match m s with Ret a _ => Some a | _ => None end.
End BumpPool.
