(* ===== verification/PoolEvents.v ===== *)
(** * Release and events at the level of the pool

    [DoFreeTensorMem], [RecordEvent], both versions of [WaitEvent] and
    [DoSyncAllEvents]: what they do to the buffers in use, and that the invariant
    of the pool is kept. *)

From S2P Require Import Prelude EventBase MemBufHeap MemGeometry MemBufSet MemBufAllocator AllocInvariant AllocSteps AllocFree AllocMalloc AllocMaint MemStat PoolDevice MemPool PoolInvariant.
Import MemPool.

(** ** The stream-pair sets, as maps *)

Implicit Types (U : gmap ptr MemBuf) (P : gmap StreamPair (gset ptr)).

Lemma recorded_insert P key S key' q :
  recorded (<[key := S]> P) key' q ↔
    (key' = key ∧ q ∈ S) ∨ (key' ≠ key ∧ recorded P key' q).
Proof.
  unfold recorded. rewrite lookup_insert. case_decide as Hd; naive_solver.
Qed.

Lemma recorded_default P key q : recorded P key q ↔ q ∈ default ∅ (P !! key).
Proof. unfold recorded. destruct (P !! key); simpl; set_solver. Qed.

#[export] Instance recorded_dec P key q : Decision (recorded P key q).
Proof.
  refine (cast_if (decide (q ∈ default ∅ (P !! key)))); by rewrite recorded_default.
Defined.

Lemma recorded_alter P key x key' q :
  recorded (alter (λ S, S ∖ {[x]}) key P) key' q ↔
    recorded P key' q ∧ (key' = key → q ≠ x).
Proof.
  unfold recorded. rewrite lookup_alter. case_decide as Hd; [subst|naive_solver].
  destruct (P !! key') as [S|]; simpl; [|naive_solver]. split.
  - intros (S' & [= <-] & Hq). set_solver.
  - intros [(S' & [= <-] & Hq) Hx]. exists (S ∖ {[x]}). set_solver.
Qed.

Lemma recorded_fmap P x key q :
  recorded ((λ S, S ∖ {[x]}) <$> P) key q ↔ recorded P key q ∧ q ≠ x.
Proof.
  unfold recorded. rewrite lookup_fmap. destruct (P !! key) as [S|]; simpl; [|naive_solver].
  split.
  - intros (S' & [= <-] & Hq). set_solver.
  - intros [(S' & [= <-] & Hq) Hx]. exists (S ∖ {[x]}). set_solver.
Qed.

Lemma tracked_update U P P' q b :
  tracked U P → (∀ key x, x ≠ q → recorded P' key x ↔ recorded P key x) →
  tracked_buf P' q b → (∀ key key', recorded P' key q → recorded P' key' q → key = key') →
  tracked (<[q := b]> U) P'.
Proof.
  intros [Hb Hu Hs] HP Hq Hone. split.
  - intros x c. rewrite lookup_insert. case_decide as Hd; [by intros [= <-]; subst|].
    intros Hx. destruct (Hb x c Hx) as [Hall Hkey Hst Hev]. split; try done.
    + intros He. destruct (Hall He) as [key Hk]. exists key. by apply HP.
    + intros key Hk. apply Hkey, HP; done.
  - intros key x Hx. rewrite lookup_insert. case_decide; [done|].
    apply (Hu key), HP; done.
  - intros key key' x. destruct (decide (x = q)) as [->|Hne]; [apply Hone|].
    rewrite !HP by done. apply Hs.
Qed.

Lemma tracked_delete U P P' q :
  tracked U P → (∀ key x, recorded P' key x ↔ recorded P key x ∧ x ≠ q) →
  tracked (delete q U) P'.
Proof.
  intros [Hb Hu Hs] HP. split.
  - intros x c [Hne Hx]%lookup_delete_Some. destruct (Hb x c Hx) as [Hall Hkey Hst Hev].
    split; try done.
    + intros He. destruct (Hall He) as [key Hk]. exists key. by apply HP.
    + intros key [Hk _]%HP. by apply Hkey.
  - intros key x [Hx Hne]%HP. rewrite lookup_delete_ne by done. by apply (Hu key).
  - intros key key' x [H1 _]%HP [H2 _]%HP. by apply (Hs key key' x).
Qed.

(** Bytes of the buffers with pending events. *)
Definition event_bytes (b : MemBuf) : Z :=
  if EventBase.IsEventNotUsed (mb_events b) then 0 else mb_size b.
Definition by_event_size U : Z := msum event_bytes U.

(** A buffer that is neither idle nor waiting for events is left alone. *)
Definition untouched U U' : Prop := ∀ q b, U !! q = Some b → mb_status b = kMemBufUsed →
  ∃ ev, U' !! q = Some (set_events ev b).

Lemma set_events_id b : set_events (mb_events b) b = b.
Proof. by destruct b. Qed.

Lemma untouched_refl U : untouched U U.
Proof. intros q b Hq _. exists (mb_events b). by rewrite set_events_id. Qed.

Lemma untouched_trans U1 U2 U3 : untouched U1 U2 → untouched U2 U3 → untouched U1 U3.
Proof.
  intros H1 H2 q b Hq Hs. destruct (H1 q b Hq Hs) as [ev H1'].
  destruct (H2 q _ H1' Hs) as [ev' H2']. by exists ev'.
Qed.

(** Allocators do not disappear. *)
Definition keeps_allocs {D} (p p' : Pool D) : Prop := ∀ id,
  is_Some (get_allocator id p) → is_Some (get_allocator id p').
#[export] Hint Extern 0 (keeps_allocs _ _) => (intros ? Hid; exact Hid) : core.

Section free.
Context {D : Type} `{DeviceMem D} (dev_ok : D → gmap ptr (Z * Z) → Prop).
Context `{!DeviceMemLaws D dev_ok}.
Implicit Types (p : Pool D).
Abbreviation core := (core dev_ok).

(** Only buffers, allocators, addresses and [used_size_] may differ. *)
Record freeing p p' : Prop := {
  fr_pairs : stream_pair_mem_bufs_ p' = stream_pair_mem_bufs_ p;
  fr_locked : locked p' = locked p;
  fr_env : ∃ v, p_env p' = set_stat (set_used_size v) (p_env p);
  fr_owner : same_owner p p';
  fr_allocs : keeps_allocs p p';
  fr_blks : blks (p_mem p') = blks (p_mem p)
}.

Lemma set_stat_used_id (e : Env D) : set_stat (set_used_size (used_size_ (mem_stat_ e))) e = e.
Proof. by destruct e as [[] ? ? ? ?]. Qed.

Lemma freeing_refl p : freeing p p.
Proof.
  split; try done. exists (stat_used p). symmetry. apply set_stat_used_id.
Qed.

(** Setting only fields outside the store and the allocators keeps the core. *)
Lemma core_ext p p' :
  core p → p_mem p' = p_mem p → tiny_allocator_ p' = tiny_allocator_ p →
  stream_id_allocators_ p' = stream_id_allocators_ p →
  dev (p_env p') = dev (p_env p) → alloc_size_ (mem_stat_ (p_env p')) = alloc_size_ (mem_stat_ (p_env p)) →
  units_ok (p_env p') → core p'.
Proof.
  intros [Hm He Ha Hpt Hw] HM Ht Hs Hd Hz Hu.
  assert (∀ id, get_allocator id p' = get_allocator id p) as Hg.
  { intros [k|]; simpl; [by rewrite Hs|done]. }
  assert (∀ id k, owner p' id k ↔ owner p id k) as Ho.
  { intros id k. unfold owner. by rewrite Hg. }
  split; rewrite ?HM; try done.
  - destruct He as [H1 H2 H3 _]. split; [by rewrite Hd|by rewrite Hz|done|done].
  - intros id a. rewrite Hg. apply Ha.
  - intros id id' k. rewrite !Ho. apply Hpt.
  - intros k Hk. destruct (Hw k Hk) as [id Hid]. exists id. by apply Ho.
Qed.

Lemma load_used p q b (Q : MemBuf → Pool D → Prop) :
  used_map p !! q = Some b →
  (∀ c, bufs (p_mem p) !! q = Some c → is_free (mb_status c) = false → b = strip c → Q c p) →
  wp (load q) p Q.
Proof.
  intros (c & Hq & Hf & ->)%used_map_Some HQ. apply (wp_load _ c); [done|by apply HQ].
Qed.

(** The effect of [allocator->Free(mem_buf)] on a buffer in use. *)
Lemma Free_in_pool p q b id :
  core p → used_map p !! q = Some b → owner p id (mb_mem_block b) →
  wp (with_allocator id (MemBufAllocator.Free q kMemBufIdle)) p (λ r p',
    core p' ∧ same_owner p p' ∧ keeps_allocs p p' ∧ blks (p_mem p') = blks (p_mem p) ∧ p_env p' = p_env p ∧
    addr_mem_buf_allocators_ p' = addr_mem_buf_allocators_ p ∧
    stream_pair_mem_bufs_ p' = stream_pair_mem_bufs_ p ∧ locked p' = locked p ∧
    (has_events b ∧ r = false ∧
       used_map p' = <[q := set_status kMemBufUsedByEvent b]> (used_map p) ∨
     ¬ has_events b ∧ r = true ∧ used_map p' = delete q (used_map p))).
Proof.
  intros Hc (c & Hq & Hf & ->)%used_map_Some (a & Ha & Hk).
  eapply wp_with_allocator; [exact Ha|]. unfold has_events.
  destruct (EventBase.IsEventNotUsed (mb_events c)) eqn:Hev.
  - destruct (core_state _ _ _ _ Hc Ha) as [Hm Hal He].
    eapply wp_mono; [by apply (Free_spec q kMemBufIdle c (enter p a))|].
    intros r s' (-> & Hrl & Hm' & Hal'). destruct Hrl.
    assert (extends (enter p a) s') as Hex.
    { apply (extends_refl (callbacks_of id) (env_ok dev_ok (env_frame (p_env p))));
        [by rewrite rl_blks|done..]. }
    assert (state_ok (env_ok dev_ok (env_frame (p_env p))) s') as Hst.
    { split; [done..|]. by rewrite rl_env, rl_blks. }
    split_and!; rewrite ?leave_mem, ?leave_env, ?leave_addrs, ?leave_pairs, ?leave_locked; try done.
    + by apply (core_leave dev_ok _ _ a _ (env_frame (p_env p))).
    + by apply (same_owner_leave dev_ok _ _ a).
    + intros id' Hid. rewrite get_allocator_leave. by case_decide.
    + right. split_and!; [simpl; by rewrite Hev|done|]. by rewrite leave_used.
  - unfold wp. rewrite (Free_events_spec q kMemBufIdle c (enter p a)) by done.
    destruct (core_relabel dev_ok p q c (set_status kMemBufUsedByEvent c)) as (Hc' & HU & Ho);
      [done..|].
    assert (leave id (MkAState (with_bufs (<[q := set_status kMemBufUsedByEvent c]>
        (bufs (p_mem p))) (p_mem p)) a (p_env p)) p =
      set_mem (with_bufs (<[q := set_status kMemBufUsedByEvent c]> (bufs (p_mem p))) (p_mem p)) p)
      as Hl.
    { destruct p, id; simpl in Ha; unfold leave, set_mem, set_env, set_allocators, set_tiny; simpl.
      - by rewrite (insert_id _ _ _ Ha).
      - by rewrite Ha. }
    simpl. rewrite Hl. split_and!; try done. left. split_and!; [exact Hev|done|exact HU].
Qed.

(** What [DoFreeTensorMem] does to the buffer at an address. *)
Definition free_result p addr (r : bool) p' : Prop :=
  match addr_mem_buf_allocators_ p !! addr with
  | None => r = false ∧ p' = p
  | Some (q, _) => ∃ b, used_map p !! q = Some b ∧ mb_addr b = addr ∧
      (has_events b ∧ r = false ∧
         used_map p' = <[q := set_status kMemBufUsedByEvent b]> (used_map p) ∨
       ¬ has_events b ∧ r = true ∧ used_map p' = delete q (used_map p))
  end.

Lemma DoFreeTensorMem_spec p addr :
  core p → books p →
  wp (DoFreeTensorMem addr) p (λ r p',
    core p' ∧ books p' ∧ freeing p p' ∧ free_result p addr r p').
Proof.
  intros Hc Hb. unfold DoFreeTensorMem, free_result. apply wp_bind, wp_gets.
  destruct (addr_mem_buf_allocators_ p !! addr) as [[q id]|] eqn:Haddr.
  2: { apply wp_ret. split_and!; try done. apply freeing_refl. }
  destruct (books_lookup _ _ _ _ Hb Haddr) as (b & Hq & He & Hw).
  apply wp_bind, (load_used _ _ _ _ Hq). intros c _ _ Hbc.
  assert (mb_size c = mb_size b) as Hsz by (by subst b).
  apply wp_bind. eapply wp_mono; [by apply (Free_in_pool p q b id)|].
  intros r p1 (Hc1 & Ho & Hal & Hbl & Henv & HA & HP & HL & [(Hev & -> & HU)|(Hev & -> & HU)]); apply wp_ret.
  - split_and!; [done| | |].
    + eapply (books_relabel dev_ok p p1); try done. unfold stat_used. by rewrite Henv.
    + split; try done. exists (stat_used p1). rewrite <- Henv. symmetry. apply set_stat_used_id.
    + exists b. split_and!; try done. by left.
  - match goal with |- core ?x ∧ _ => set (p2 := x) end.
    assert (core p2) as Hc2.
    { apply (core_ext p1); try done. exact (en_units _ _ _ _ (co_env _ _ Hc1)). }
    assert (same_owner p p2) as Ho2 by done.
    split_and!; [done| | |].
    + eapply (books_delete dev_ok p p2); try done.
      * simpl. by rewrite HA, He.
      * unfold stat_used. simpl. by rewrite Henv, Hsz.
    + split; try done. exists (stat_used p2). unfold p2; simpl. rewrite <- Henv. reflexivity.
    + exists b. split_and!; try done. by right.
Qed.

(** ** Events *)

(** [used_by_event_size_] minus what it should be. *)
Definition drift p : Z := u64 (stat_by_event p - by_event_size (used_map p)).

(** What every event operation leaves alone. *)
Record eventing p p' : Prop := {
  ev_locked : locked p' = locked p;
  ev_owner : same_owner p p';
  ev_allocs : keeps_allocs p p';
  ev_blks : blks (p_mem p') = blks (p_mem p);
  ev_untouched : untouched (used_map p) (used_map p')
}.

Lemma eventing_refl p : eventing p p.
Proof. split; try done. apply untouched_refl. Qed.

Lemma eventing_trans p1 p2 p3 : eventing p1 p2 → eventing p2 p3 → eventing p1 p3.
Proof.
  intros [L1 O1 A1 B1 T1] [L2 O2 A2 B2 T2]. split; [congruence| |by intros id Hid; apply A2, A1|congruence|].
  - apply (same_owner_trans p1 p2 p3); [done..|]. by rewrite B1.
  - by apply (untouched_trans _ (used_map p2)).
Qed.

(** Changing the events of a buffer in use. *)
Lemma update_events_spec p q b (f : Events → Events) :
  core p → books p → used_map p !! q = Some b →
  wp (update q (λ b, set_events (f (mb_events b)) b)) p (λ _ p',
    core p' ∧ books p' ∧ same_owner p p' ∧ keeps_allocs p p' ∧ blks (p_mem p') = blks (p_mem p) ∧
    used_map p' = <[q := set_events (f (mb_events b)) b]> (used_map p) ∧
    p_env p' = p_env p ∧ stream_pair_mem_bufs_ p' = stream_pair_mem_bufs_ p ∧
    addr_mem_buf_allocators_ p' = addr_mem_buf_allocators_ p ∧ locked p' = locked p).
Proof.
  intros Hc Hb Hq. pose proof Hq as (c & Hqc & Hf & ->)%used_map_Some.
  apply (wp_update _ _ c); [done|].
  destruct (core_relabel dev_ok p q c (set_events (f (mb_events c)) c)) as (Hc' & HU & Ho); [done..|].
  match goal with |- core ?x ∧ _ => set (p' := x) in * end.
  split_and!; try done. by apply (books_relabel dev_ok p p' q (strip c) _ Hc Hb Ho Hq HU).
Qed.

(** The buffer after a wait: gone when its last event was all that kept it. *)
Definition waited (task user : Z) (b : MemBuf) : option MemBuf :=
  let b' := set_events (EventBase.WaitEvent task user (mb_events b)).2 b in
  if EventBase.IsEventNotUsed (mb_events b') && bool_decide (mb_status b = kMemBufUsedByEvent)
  then None else Some b'.

Definition put_opt (q : ptr) (o : option MemBuf) U : gmap ptr MemBuf :=
  match o with Some b => <[q := b]> U | None => delete q U end.

Lemma lookup_put_opt q o U x : put_opt q o U !! x = if decide (x = q) then o else U !! x.
Proof.
  destruct o as [b|]; simpl; rewrite ?lookup_insert, ?lookup_delete; repeat case_decide; congruence.
Qed.

Lemma by_event_put q b o U : U !! q = Some b →
  by_event_size (put_opt q o U) = by_event_size U - event_bytes b + from_option event_bytes 0 o.
Proof.
  intros Hq. unfold by_event_size. destruct o as [b'|]; simpl.
  - by apply msum_update.
  - rewrite (msum_delete _ _ _ _ Hq). lia.
Qed.

Lemma waited_pending_other task u b v :
  v ≠ u → EventBase.pending (EventBase.WaitEvent task u (mb_events b)).2 v = EventBase.pending (mb_events b) v.
Proof. intros Hv. rewrite EventBase.WaitEvent_pending. by case_decide. Qed.

Lemma untouched_put q b o U : U !! q = Some b →
  (mb_status b = kMemBufUsed → ∃ ev, o = Some (set_events ev b)) → untouched U (put_opt q o U).
Proof.
  intros Hq Ho x c Hx Hs. rewrite lookup_put_opt. case_decide; subst.
  - simplify_eq. by apply Ho.
  - exists (mb_events c). by rewrite set_events_id.
Qed.

(** The buffer has no event left: it is no longer recorded. *)
Lemma tracked_cleared U P P' q b b' :
  tracked U P → U !! q = Some b → ¬ has_events b' → mb_status b' ≠ kMemBufUsedByEvent →
  EventBase.events_ok (mb_events b') →
  (∀ k x, recorded P' k x ↔ recorded P k x ∧ x ≠ q) → tracked (<[q := b']> U) P'.
Proof.
  intros Htr Hq Hev Hst Hok HP. apply (tracked_update U P); [done|..].
  - intros k x Hne. rewrite HP. naive_solver.
  - split; try done. intros k [_ Hne]%HP. done.
  - intros k k' [_ Hne]%HP. done.
Qed.

(** The events of a recorded buffer change, some are left, all on its user stream. *)
Lemma tracked_kept U P key q b b' :
  tracked U P → U !! q = Some b → recorded P key q → has_events b' →
  (∀ u, u ≠ key.1 → EventBase.pending (mb_events b') u = []) →
  EventBase.events_ok (mb_events b') → tracked (<[q := b']> U) P.
Proof.
  intros Htr Hq Hrec Hev Hoth Hok. apply (tracked_update U P); [done..| |].
  - split; try done; [by exists key|]. intros k Hk.
    by rewrite (tr_single _ _ Htr k key q Hk Hrec).
  - intros k k'. apply (tr_single _ _ Htr k k' q).
Qed.

Lemma erase_pair_recorded U P key q :
  tracked U P → recorded P key q →
  ∀ k x, recorded (alter (λ S, S ∖ {[q]}) key P) k x ↔ recorded P k x ∧ x ≠ q.
Proof.
  intros Htr Hrec k x. rewrite recorded_alter. split.
  - intros [Hk Hx]. split; [done|]. intros ->.
    destruct Hx; [|done]. by apply (tr_single _ _ Htr k key q).
  - intros [Hk Hx]. done.
Qed.

Lemma drift_step p p' d :
  stat_by_event p' = stat_by_event p -64 d →
  by_event_size (used_map p') = by_event_size (used_map p) - d → drift p' = drift p.
Proof. unfold drift. intros -> ->. rewrite u64_sub_l. f_equal. lia. Qed.

Lemma drift_same p p' :
  stat_by_event p' = stat_by_event p →
  by_event_size (used_map p') = by_event_size (used_map p) → drift p' = drift p.
Proof. unfold drift. by intros -> ->. Qed.

(** [b] had events and [b'] has none left. *)
Lemma event_bytes_cleared b b' : has_events b → ¬ has_events b' →
  event_bytes b = mb_size b ∧ event_bytes b' = 0.
Proof.
  unfold has_events, event_bytes. intros -> Hb. split; [done|].
  by destruct (EventBase.IsEventNotUsed (mb_events b')).
Qed.

(** A buffer kept only by its events goes back to its allocator with the last one. *)
Lemma free_cleared p q b :
  core p → books p → used_map p !! q = Some b → ¬ has_events b →
  wp (DoFreeTensorMem (mb_addr b)) p (λ _ p',
    core p' ∧ books p' ∧ freeing p p' ∧ used_map p' = delete q (used_map p)).
Proof.
  intros Hc Hb Hq Hev. destruct (books_addr dev_ok _ _ _ Hc Hb Hq) as (id & Haddr & _).
  eapply wp_mono; [by apply DoFreeTensorMem_spec|].
  intros r p' (Hc' & Hb' & Hfr & Hres). unfold free_result in Hres. rewrite Haddr in Hres.
  destruct Hres as (b' & Hq' & _ & Hres). simplify_eq.
  destruct Hres as [[? _]|(_ & _ & HU)]; [done|]. by split_and!.
Qed.

Lemma freeing_by_event p p' : freeing p p' → stat_by_event p' = stat_by_event p.
Proof. intros [_ _ [v Hv] _ _ _]. unfold stat_by_event. by rewrite Hv. Qed.

Lemma wait_one_spec task key q b p :
  pool_inv dev_ok p → recorded (stream_pair_mem_bufs_ p) key q → used_map p !! q = Some b →
  wp (wait_one task key q) p (λ _ p', pool_inv dev_ok p' ∧ eventing p p' ∧ drift p' = drift p ∧
    used_map p' = put_opt q (waited task key.1 b) (used_map p) ∧
    (∀ k x, recorded (stream_pair_mem_bufs_ p') k x → recorded (stream_pair_mem_bufs_ p) k x) ∧
    ∀ k x, x ≠ q → recorded (stream_pair_mem_bufs_ p') k x ↔
      recorded (stream_pair_mem_bufs_ p) k x).
Proof.
  intros [Hc Hb Htr] Hrec Hq. unfold wait_one.
  destruct (tr_bufs _ _ Htr _ _ Hq) as [_ Hkey Hst Hevok].
  destruct (Hkey _ Hrec) as [Hev Hothers].
  apply wp_bind. eapply wp_mono;
    [by apply (update_events_spec p q b (λ ev, (EventBase.WaitEvent task key.1 ev).2))|].
  intros _ p1 (Hc1 & Hb1 & Ho1 & Hal1 & Hbl1 & HU1 & Henv1 & HP1 & HA1 & HL1).
  set (b' := set_events _ b) in HU1.
  assert (used_map p1 !! q = Some b') as Hq1 by (by rewrite HU1, lookup_insert_eq).
  apply wp_bind, (load_used _ _ _ _ Hq1). intros c Hqc Hf Hbc.
  assert (mb_events c = mb_events b' ∧ mb_size c = mb_size b ∧ mb_status c = mb_status b ∧
    mb_addr c = mb_addr b) as (Hce & Hcs & Hct & Hca).
  { apply (f_equal (λ d, (mb_events d, mb_size d, mb_status d, mb_addr d))) in Hbc.
    simpl in Hbc. naive_solver. }
  rewrite Hce, Hct, Hca.
  unfold waited. fold b'. destruct (EventBase.IsEventNotUsed (mb_events b')) eqn:He.
  2: { (* events are left *)
    simpl. apply wp_ret. assert (has_events b') as Hev' by done. split_and!.
    - split; [done..|]. rewrite HU1, HP1. apply (tracked_kept _ _ key q b); try done.
      + intros u Hu. unfold b'; simpl. rewrite waited_pending_other by done. by apply Hothers.
      + by apply EventBase.WaitEvent_ok.
    - split; try done. rewrite HU1. apply (untouched_put q b (Some b')); [done|].
      intros _. by eexists.
    - apply drift_same; [unfold stat_by_event; by rewrite Henv1|].
      rewrite HU1. change (<[q := b']> (used_map p)) with (put_opt q (Some b') (used_map p)).
      rewrite (by_event_put q b) by done. simpl. unfold event_bytes. rewrite Hev, Hev'.
      unfold b'; simpl. lia.
    - done.
    - by rewrite HP1.
    - by rewrite HP1. }
  assert (¬ has_events b') as Hev' by (unfold has_events; by rewrite He).
  pose proof (event_bytes_cleared b b' Hev Hev') as [Hby Hby'].
  pose proof (erase_pair_recorded _ _ _ _ Htr Hrec) as Hera.
  apply wp_bind, wp_modify. apply wp_bind, wp_modify. rewrite HP1, Hcs.
  match goal with |- wp _ ?x _ => set (p2 := x) end.
  assert (core p2) as Hc2.
  { apply (core_ext p1); try done. exact (en_units _ _ _ _ (co_env _ _ Hc1)). }
  assert (books p2) as Hb2 by (by apply (books_same dev_ok p1)).
  assert (used_map p2 = <[q := b']> (used_map p)) as HU2 by done.
  assert (same_owner p p2) as Ho2 by done.
  assert (stat_by_event p2 = stat_by_event p -64 mb_size b) as Hs2.
  { unfold stat_by_event, p2; simpl. by rewrite Henv1. }
  simpl. apply wp_whenM; intros Hs; [apply bool_decide_eq_true in Hs|apply bool_decide_eq_false in Hs].
  - (* the events were all that kept it *)
    apply wp_bind, wp_modify. match goal with |- wp _ ?x _ => set (p3 := x) end.
    assert (core p3) as Hc3.
    { apply (core_ext p2); try done. exact (en_units _ _ _ _ (co_env _ _ Hc2)). }
    assert (books p3) as Hb3 by (by apply (books_same dev_ok p2)).
    assert (used_map p3 !! q = Some b') as Hq3 by (change (used_map p3) with (used_map p2); by rewrite HU2, lookup_insert_eq).
    apply wp_bind. eapply wp_mono; [by apply (free_cleared p3 q b')|].
    intros r p4 (Hc4 & Hb4 & Hfr & HU4). apply wp_ret.
    assert (∀ k x, recorded (stream_pair_mem_bufs_ p4) k x ↔
      recorded (stream_pair_mem_bufs_ p) k x ∧ x ≠ q) as HP4.
    { intros k x. rewrite (fr_pairs _ _ Hfr). simpl. rewrite recorded_fmap, Hera. naive_solver. }
    assert (used_map p4 = delete q (used_map p)) as HU4'.
    { rewrite HU4. change (used_map p3) with (used_map p2). rewrite HU2. apply delete_insert_eq. }
    rewrite bool_decide_eq_true_2 by done. simpl. rewrite HU4'. split_and!; try done.
    + split; [done..|]. rewrite HU4'. by apply (tracked_delete _ (stream_pair_mem_bufs_ p)).
    + split; [by rewrite (fr_locked _ _ Hfr)|..].
      * apply (same_owner_trans p p3 p4); [done|apply Hfr|]. intros k. change (blks (p_mem p3)) with (blks (p_mem p1)). by rewrite Hbl1.
      * intros id Hid. by apply (fr_allocs _ _ Hfr), Hal1.
      * rewrite (fr_blks _ _ Hfr). exact Hbl1.
      * rewrite HU4'. apply (untouched_put q b None); [done|congruence].
    + apply (drift_step _ _ (mb_size b)); [by rewrite (freeing_by_event _ _ Hfr)|].
      rewrite HU4'. change (delete q (used_map p)) with (put_opt q None (used_map p)).
      rewrite (by_event_put q b None) by done. simpl. lia.
    + intros k x. rewrite HP4. by intros [? _].
    + intros k x Hne. rewrite HP4. naive_solver.
  - (* still in use *)
    rewrite bool_decide_eq_false_2 by done. simpl. split_and!.
    + split; [done..|]. rewrite HU2. apply (tracked_cleared _ (stream_pair_mem_bufs_ p) _ q b); try done.
      by apply EventBase.WaitEvent_ok.
    + split; try done. rewrite HU2. apply (untouched_put q b (Some b')); [done|].
      intros _. by eexists.
    + apply (drift_step _ _ (mb_size b)); [done|]. rewrite HU2.
      change (<[q := b']> (used_map p)) with (put_opt q (Some b') (used_map p)).
      rewrite (by_event_put q b) by done. simpl. lia.
    + done.
    + intros k x. simpl. rewrite Hera. by intros [? _].
    + intros k x Hne. simpl. rewrite Hera. naive_solver.
Qed.

(** ** Whole operations *)
Context `{!IterOrder}.

Lemma wp_with_lock {A} (m : M (Pool D) A) p (Q : A → Pool D → Prop) :
  locked p = false → wp m (set_locked true p) (λ a p', Q a (set_locked false p')) →
  wp (with_lock m) p Q.
Proof. unfold wp, with_lock. intros ->. by destruct (m (set_locked true p)). Qed.

Lemma pool_inv_locked p v : pool_inv dev_ok p → pool_inv dev_ok (set_locked v p).
Proof.
  intros [Hc Hb Ht]. split; try done.
  - apply (core_ext p); try done. exact (en_units _ _ _ _ (co_env _ _ Hc)).
  - by apply (books_same dev_ok p).
Qed.

Lemma eventing_locked p p' : locked p = false → eventing (set_locked true p) p' →
  eventing p (set_locked false p').
Proof. intros Hl [? ? ? ? ?]. split; done. Qed.

(** The buffers of [S] after a wait for [task] on the user stream [user]. *)
Definition wait_set (task user : Z) (S : gset ptr) U : gmap ptr MemBuf :=
  map_imap (λ x b, if bool_decide (x ∈ S) then waited task user b else Some b) U.

Lemma lookup_wait_set task user S U x : wait_set task user S U !! x =
  U !! x ≫= λ b, if bool_decide (x ∈ S) then waited task user b else Some b.
Proof. apply map_lookup_imap. Qed.

Lemma wait_set_empty task user U : wait_set task user ∅ U = U.
Proof.
  apply map_eq. intros x. rewrite lookup_wait_set. destruct (U !! x); simpl; [|done].
  by rewrite bool_decide_eq_false_2 by set_solver.
Qed.

Lemma wait_set_add task user S U q b : U !! q = Some b → q ∉ S →
  put_opt q (waited task user b) (wait_set task user S U) = wait_set task user ({[q]} ∪ S) U.
Proof.
  intros Hq Hn. apply map_eq. intros x. rewrite lookup_put_opt, !lookup_wait_set.
  case_decide as Hx; [subst|].
  - rewrite Hq. simpl. by rewrite bool_decide_eq_true_2 by set_solver.
  - destruct (U !! x); simpl; [|done]. by rewrite (bool_decide_ext (x ∈ {[q]} ∪ S) (x ∈ S)) by set_solver.
Qed.

Lemma wait_pair_spec task key S p :
  pool_inv dev_ok p → (∀ x, x ∈ S ↔ recorded (stream_pair_mem_bufs_ p) key x) →
  wp (wait_pair task key S) p (λ _ p', pool_inv dev_ok p' ∧ eventing p p' ∧ drift p' = drift p ∧
    used_map p' = wait_set task key.1 S (used_map p) ∧
    (∀ k x, recorded (stream_pair_mem_bufs_ p') k x → recorded (stream_pair_mem_bufs_ p) k x) ∧
    ∀ k x, x ∉ S → recorded (stream_pair_mem_bufs_ p') k x ↔
      recorded (stream_pair_mem_bufs_ p) k x).
Proof.
  intros Hinv HS. unfold wait_pair.
  apply (wp_forM _ _ _ _ (λ rest _ p', ∃ past : list ptr, bufs_order S = past ++ rest ∧
    pool_inv dev_ok p' ∧ eventing p p' ∧ drift p' = drift p ∧
    used_map p' = wait_set task key.1 (list_to_set past) (used_map p) ∧
    (∀ k x, recorded (stream_pair_mem_bufs_ p') k x → recorded (stream_pair_mem_bufs_ p) k x) ∧
    ∀ k x, x ∉ past → recorded (stream_pair_mem_bufs_ p') k x ↔
      recorded (stream_pair_mem_bufs_ p) k x)).
  - exists []. rewrite wait_set_empty. split_and!; try done. apply eventing_refl.
  - intros q rest [] p' (past & Hord & Hinv' & Hevt & Hdr & HU & Hsub & HP).
    assert (NoDup (past ++ q :: rest)) as (_ & Hq & _)%NoDup_app.
    { rewrite <- Hord, bufs_order_spec. apply NoDup_elements. }
    assert (q ∉ past) as Hnq by (intros Hin; apply (Hq q Hin); left).
    assert (recorded (stream_pair_mem_bufs_ p) key q) as Hrec.
    { apply HS, elem_of_elements. rewrite <- bufs_order_spec, Hord. set_solver. }
    destruct (tr_used _ _ (pi_tracked _ _ Hinv) _ _ Hrec) as [b Hqb].
    assert (used_map p' !! q = Some b) as Hqb'.
    { rewrite HU, lookup_wait_set, Hqb. simpl. by rewrite bool_decide_eq_false_2 by set_solver. }
    eapply wp_mono; [apply (wait_one_spec task key q b p' Hinv'); [by apply HP|done]|].
    intros _ p2 (Hinv2 & Hevt2 & Hdr2 & HU2 & Hsub2 & HP2). exists (past ++ [q]).
    split_and!; [by rewrite <- app_assoc|done|by apply (eventing_trans _ p')|congruence| |auto|].
    + rewrite HU2, HU, (wait_set_add _ _ _ _ _ b) by set_solver. f_equal. set_solver.
    + intros k x Hx. rewrite HP2, HP by set_solver. done.
  - intros [] p' (past & Hord & Hinv' & Hevt & Hdr & HU & Hsub & HP).
    assert (∀ x, x ∈ past ↔ x ∈ S) as Hpast.
    { intros x. rewrite app_nil_r in Hord. rewrite <- Hord, bufs_order_spec. apply elem_of_elements. }
    split_and!; try done.
    + rewrite HU. f_equal. set_solver.
    + intros k x Hx. apply HP. by rewrite Hpast.
Qed.

Lemma WaitEvent_spec task user mstream p :
  pool_inv dev_ok p → locked p = false →
  wp (WaitEvent task user mstream) p (λ r p', pool_inv dev_ok p' ∧ eventing p p' ∧ drift p' = drift p ∧
    r = bool_decide (is_Some (stream_pair_mem_bufs_ p !! (user, mstream))) ∧
    used_map p' = wait_set task user (default ∅ (stream_pair_mem_bufs_ p !! (user, mstream)))
      (used_map p)).
Proof.
  intros Hinv Hl. apply wp_with_lock; [done|]. apply wp_bind, wp_gets. simpl.
  destruct (stream_pair_mem_bufs_ p !! (user, mstream)) as [S|] eqn:HS.
  - apply wp_bind. eapply wp_mono;
      [apply (wait_pair_spec task (user, mstream) S (set_locked true p)); [by apply pool_inv_locked|]|].
    { intros x. rewrite recorded_default.
      change (stream_pair_mem_bufs_ (set_locked true p)) with (stream_pair_mem_bufs_ p).
      unfold StreamPair in *. by rewrite HS. }
    intros _ p' (Hinv' & Hevt & Hdr & HU & _). apply wp_ret. split_and!; try done.
    + by apply pool_inv_locked.
    + by apply eventing_locked.
  - apply wp_ret. simpl. rewrite wait_set_empty. split_and!; try done.
    + by apply pool_inv_locked, pool_inv_locked.
    + apply eventing_locked; [done|apply eventing_refl].
Qed.
End free.
