(* ===== verification/PoolSync.v ===== *)
(** * Recording, waiting on a whole memory stream, synchronising everything *)

From S2P Require Import Prelude EventBase MemBufHeap MemGeometry MemBufSet MemBufAllocator AllocInvariant AllocSteps AllocFree AllocMalloc AllocMaint MemStat PoolDevice MemPool PoolInvariant PoolEvents.
Import MemPool.

Implicit Types (U : gmap ptr MemBuf) (P : gmap StreamPair (gset ptr)).

Section sync.
Context {D : Type} `{DeviceMem D} (dev_ok : D → gmap ptr (Z * Z) → Prop).
Context `{!DeviceMemLaws D dev_ok, !IterOrder}.
Implicit Types (p : Pool D).
Abbreviation core := (core dev_ok).
Abbreviation pool_inv := (pool_inv dev_ok).

(** ** [RecordEvent] *)

Definition record_buf (task user : Z) (event : DeviceEventPtr) (b : MemBuf) : MemBuf :=
  set_events (EventBase.RecordEvent task user event (mb_events b)).2 b.

(** The buffers in use after recording on the addresses of [entries]. *)
Definition record_map (addrs : gmap Z (ptr * AllocId)) (task user : Z) (event : DeviceEventPtr)
    (entries : list (Z * Z)) U : gmap ptr MemBuf :=
  foldl (λ U e, match addrs !! e.2 with
                | Some (q, _) => alter (record_buf task user event) q U
                | None => U
                end) U entries.

(** A buffer is only ever used by one other stream at a time. *)
Definition single_user (addrs : gmap Z (ptr * AllocId)) P (user : Z) (entries : list (Z * Z))
    : Prop :=
  (∀ m addr q id key, (m, addr) ∈ entries → addrs !! addr = Some (q, id) → recorded P key q →
     key = (user, m)) ∧
  ∀ m m' addr, (m, addr) ∈ entries → (m', addr) ∈ entries → m = m'.

Lemma record_buf_pending task user event b u :
  u ≠ user → EventBase.pending (mb_events (record_buf task user event b)) u =
    EventBase.pending (mb_events b) u.
Proof.
  intros Hu. unfold record_buf. cbn [mb_events set_events].
  rewrite EventBase.RecordEvent_pending. by case_decide.
Qed.

Lemma record_buf_used task user event b : has_events (record_buf task user event b).
Proof. unfold has_events, record_buf. apply EventBase.RecordEvent_used. Qed.

(** A buffer without pending events has no pending event on any stream. *)
Lemma no_events_pending b u :
  EventBase.events_ok (mb_events b) → ¬ has_events b → EventBase.pending (mb_events b) u = [].
Proof.
  intros Hok He. apply EventBase.IsEventNotUsed_pending; [done|].
  unfold has_events in He. by destruct (EventBase.IsEventNotUsed (mb_events b)).
Qed.

Lemma tracked_record U P task user event m q b :
  tracked U P → U !! q = Some b → (∀ key, recorded P key q → key = (user, m)) →
  tracked (<[q := record_buf task user event b]> U)
    (<[(user, m) := default ∅ (P !! (user, m)) ∪ {[q]}]> P).
Proof.
  intros Htr Hq Hone. destruct (tr_bufs _ _ Htr _ _ Hq) as [Hall Hkey Hst Hok].
  set (P' := <[(user, m) := _]> P).
  assert (∀ k, recorded P' k q ↔ k = (user, m)) as HPq.
  { intros k. unfold P'. rewrite recorded_insert. split.
    - intros [[-> _]|[_ Hk]]; [done|by apply Hone].
    - intros ->. left. set_solver. }
  apply (tracked_update U P); [done|..].
  - intros k x Hne. unfold P'. rewrite recorded_insert. destruct (decide (k = (user, m))) as [->|].
    + rewrite recorded_default. set_solver.
    + naive_solver.
  - split.
    + intros _. exists (user, m). by apply HPq.
    + intros k ->%HPq. split; [apply record_buf_used|]. intros u Hu. simpl in Hu.
      rewrite record_buf_pending by done.
      destruct (decide (has_events b)) as [He|He]; [|by apply no_events_pending].
      destruct (Hall He) as [k Hk]. destruct (Hkey k Hk) as [_ Hp].
      apply Hp. by rewrite (Hone k Hk).
    + intros _. apply record_buf_used.
    + by apply EventBase.RecordEvent_ok.
  - intros k k' ->%HPq ->%HPq. done.
Qed.

Lemma record_one_spec task user event m addr p :
  pool_inv p →
  (∀ q id key, addr_mem_buf_allocators_ p !! addr = Some (q, id) →
     recorded (stream_pair_mem_bufs_ p) key q → key = (user, m)) →
  wp (record_one task user event (m, addr)) p (λ _ p',
    pool_inv p' ∧ eventing p p' ∧ drift p' = drift p ∧
    addr_mem_buf_allocators_ p' = addr_mem_buf_allocators_ p ∧
    used_map p' = record_map (addr_mem_buf_allocators_ p) task user event [(m, addr)] (used_map p) ∧
    ∀ key x, recorded (stream_pair_mem_bufs_ p') key x → recorded (stream_pair_mem_bufs_ p) key x ∨
      key = (user, m) ∧ ∃ id, addr_mem_buf_allocators_ p !! addr = Some (x, id)).
Proof.
  intros [Hc Hb Htr] Hone. unfold record_one, record_map. apply wp_bind, wp_gets. simpl.
  destruct (addr_mem_buf_allocators_ p !! addr) as [[q id]|] eqn:Haddr.
  2: { apply wp_ret. split_and!; try done; [apply eventing_refl|by left]. }
  destruct (books_lookup _ _ _ _ Hb Haddr) as (b & Hq & He & _).
  apply wp_bind, (load_used _ _ _ _ Hq). intros c _ _ Hbc.
  assert (mb_events c = mb_events b ∧ mb_size c = mb_size b) as [-> ->] by by subst b.
  set (p1 := if EventBase.IsEventNotUsed (mb_events b) then pool_stat
    (λ s, set_used_by_event_size (used_by_event_size_ s +64 mb_size b) s) p else p).
  assert (∀ Q : unit → Pool D → Prop, Q () p1 →
    wp (whenM (EventBase.IsEventNotUsed (mb_events b)) (put_stat
      (λ s, set_used_by_event_size (used_by_event_size_ s +64 mb_size b) s))) p Q) as Hwhen.
  { intros Q HQ. unfold p1 in HQ. by destruct (EventBase.IsEventNotUsed _). }
  apply wp_bind, Hwhen.
  assert (core p1 ∧ books p1 ∧ used_map p1 = used_map p ∧ eventing p p1 ∧
    addr_mem_buf_allocators_ p1 = addr_mem_buf_allocators_ p ∧
    stream_pair_mem_bufs_ p1 = stream_pair_mem_bufs_ p ∧
    stat_by_event p1 -64 mb_size b = stat_by_event p -64 event_bytes b ∧ locked p1 = locked p)
    as (Hc1 & Hb1 & HU1 & Hev1 & HA1 & HP1 & Hs1 & _).
  { unfold p1, event_bytes. destruct (EventBase.IsEventNotUsed _).
    - split_and!; try done.
      + apply (core_ext dev_ok p); try done. exact (en_units _ _ _ _ (co_env _ _ Hc)).
      + by apply (books_same dev_ok p).
      + split; try done. apply untouched_refl.
      + unfold stat_by_event; simpl. rewrite u64_sub_l. f_equal. lia.
    - split_and!; try done. apply eventing_refl. }
  assert (used_map p1 !! q = Some b) as Hq1 by by rewrite HU1.
  apply wp_bind. eapply wp_mono; [by apply (update_events_spec dev_ok p1 q b
    (λ ev, (EventBase.RecordEvent task user event ev).2))|].
  intros _ p2 (Hc2 & Hb2 & Ho2 & Hal2 & Hbl2 & HU2 & Henv2 & HP2 & HA2 & HL2).
  fold (record_buf task user event b) in HU2.
  apply wp_modify. rewrite HP2, HP1. match goal with |- PoolInvariant.pool_inv _ ?x ∧ _ => set (p3 := x) end.
  assert (used_map p3 = <[q := record_buf task user event b]> (used_map p)) as HU3.
  { change (used_map p3) with (used_map p2). by rewrite HU2, HU1. }
  assert (core p3) as Hc3.
  { apply (core_ext dev_ok p2); try done. exact (en_units _ _ _ _ (co_env _ _ Hc2)). }
  assert (∀ key, recorded (stream_pair_mem_bufs_ p) key q → key = (user, m)) as Hone'.
  { intros key. by apply Hone with id. }
  split_and!.
  - split; [done|by apply (books_same dev_ok p2)|]. rewrite HU3. by apply tracked_record.
  - apply (eventing_trans p p1); [done|]. split; try done. rewrite HU3, HU1.
    apply (untouched_put q b (Some (record_buf task user event b))); [done|]. intros _. by eexists.
  - unfold drift. change (stat_by_event p3) with (stat_by_event p2).
    assert (stat_by_event p2 = stat_by_event p1) as -> by (unfold stat_by_event; by rewrite Henv2).
    rewrite HU3. change (<[q := ?b']> (used_map p)) with (put_opt q (Some b') (used_map p)).
    rewrite (by_event_put q b) by done. simpl.
    assert (event_bytes (record_buf task user event b) = mb_size b) as ->.
    { unfold event_bytes. by rewrite record_buf_used. }
    replace (stat_by_event p1 - _) with ((stat_by_event p1 - mb_size b) -
      (by_event_size (used_map p) - event_bytes b)) by lia.
    rewrite <- u64_sub_l, Hs1, u64_sub_l. f_equal. lia.
  - change (addr_mem_buf_allocators_ p3) with (addr_mem_buf_allocators_ p2). by rewrite HA2, HA1.
  - rewrite HU3. apply map_eq. intros x. rewrite lookup_alter, lookup_insert.
    case_decide; subst; [by rewrite Hq|done].
  - intros key x. simpl. rewrite recorded_insert.
    intros [[-> Hx]|[_ Hx]]; [|by left]. apply elem_of_union in Hx as [Hx|Hx].
    + left. by apply recorded_default.
    + right. apply elem_of_singleton in Hx as ->. naive_solver.
Qed.

(** An address is the address of one buffer. *)
Lemma addrs_inj p addr addr' q id id' : books p →
  addr_mem_buf_allocators_ p !! addr = Some (q, id) →
  addr_mem_buf_allocators_ p !! addr' = Some (q, id') → addr = addr'.
Proof.
  intros Hb (b & Hq & <- & _)%(books_lookup _ _ _ _ Hb) (b' & Hq' & <- & _)%(books_lookup _ _ _ _ Hb).
  congruence.
Qed.

Lemma RecordEvent_spec task user event entries p :
  pool_inv p → locked p = false →
  single_user (addr_mem_buf_allocators_ p) (stream_pair_mem_bufs_ p) user entries →
  wp (RecordEvent task user entries event) p (λ r p', r = true ∧
    pool_inv p' ∧ eventing p p' ∧ drift p' = drift p ∧
    used_map p' = record_map (addr_mem_buf_allocators_ p) task user event entries (used_map p)).
Proof.
  intros Hinv Hl [Hone Hsame]. apply wp_with_lock; [done|]. apply wp_bind.
  set (A := addr_mem_buf_allocators_ p) in *. set (P := stream_pair_mem_bufs_ p) in *.
  apply (wp_forM _ _ _ _ (λ rest _ p', ∃ past : list (Z * Z), entries = past ++ rest ∧
    pool_inv p' ∧ eventing (set_locked true p) p' ∧ drift p' = drift p ∧
    addr_mem_buf_allocators_ p' = A ∧
    used_map p' = record_map A task user event past (used_map p) ∧
    ∀ key x, recorded (stream_pair_mem_bufs_ p') key x → recorded P key x ∨
      ∃ m addr id, (m, addr) ∈ past ∧ key = (user, m) ∧ A !! addr = Some (x, id))).
  - exists []. split_and!; try done; [by apply pool_inv_locked|apply eventing_refl|by left].
  - intros [m addr] rest [] p' (past & He & Hinv' & Hevt & Hdr & HA & HU & HP).
    eapply wp_mono; [apply record_one_spec; [done|]|].
    + rewrite HA. intros q id key Haddr [Hk|(m' & addr' & id' & Hin & -> & Haddr')]%HP.
      * apply (Hone m addr q id); [rewrite He; set_solver|done..].
      * rewrite <- (addrs_inj p addr addr' q id id' (pi_books _ _ Hinv) Haddr Haddr') in Hin.
        f_equal. apply (Hsame _ _ addr); rewrite He; set_solver.
    + intros _ p2 (Hinv2 & Hevt2 & Hdr2 & HA2 & HU2 & HP2). exists (past ++ [(m, addr)]).
      split_and!; [by rewrite <- app_assoc|done|by apply (eventing_trans _ p')|congruence|congruence| |].
      * rewrite HU2, HU, HA. unfold record_map. by rewrite foldl_app.
      * intros key x [Hk|(-> & id & Hx)]%HP2.
        -- apply HP in Hk as [?|(m' & addr' & id' & Hin & ? & ?)]; [by left|right].
           exists m', addr', id'. set_solver.
        -- right. exists m, addr, id. rewrite <- HA. set_solver.
  - intros [] p' (past & He & Hinv' & Hevt & Hdr & _ & HU & _). rewrite app_nil_r in He. subst past.
    apply wp_ret. split_and!; try done; [by apply pool_inv_locked|by apply eventing_locked].
Qed.

(** ** [WaitEvent] on every pair of a memory stream *)

(** What a wait on the memory stream [mstream] leaves of the buffers in use. *)
Definition waited_all (task mstream : Z) P U U' : Prop :=
  ∀ x, (U !! x = None → U' !! x = None) ∧ ∀ b, U !! x = Some b →
    (∀ u, recorded P (u, mstream) x → U' !! x = waited task u b) ∧
    ((∀ u, ¬ recorded P (u, mstream) x) → U' !! x = Some b).

Lemma WaitEvent_all_spec task mstream p :
  pool_inv p → locked p = false →
  wp (WaitEvent_all task mstream) p (λ r p', r = true ∧ pool_inv p' ∧ eventing p p' ∧
    drift p' = drift p ∧
    waited_all task mstream (stream_pair_mem_bufs_ p) (used_map p) (used_map p')).
Proof.
  intros Hinv Hl. apply wp_with_lock; [done|]. apply wp_bind, wp_gets. apply wp_bind.
  set (P := stream_pair_mem_bufs_ p). set (U := used_map p).
  change (stream_pair_mem_bufs_ (set_locked true p)) with P.
  pose proof (pi_tracked _ _ Hinv) as Htr. fold U P in Htr.
  apply (wp_forM _ _ _ _ (λ rest _ p', ∃ past : list StreamPair, pairs_order P = past ++ rest ∧
    pool_inv p' ∧ eventing (set_locked true p) p' ∧ drift p' = drift p ∧
    (∀ k x, recorded (stream_pair_mem_bufs_ p') k x → recorded P k x) ∧
    ∀ x, (U !! x = None → used_map p' !! x = None) ∧
      (∀ k, recorded P k x → k ∈ past → k.2 = mstream →
         used_map p' !! x = U !! x ≫= waited task k.1) ∧
      ((∀ k, recorded P k x → k ∈ past → k.2 ≠ mstream) → used_map p' !! x = U !! x ∧
         ∀ k, recorded (stream_pair_mem_bufs_ p') k x ↔ recorded P k x))).
  - exists []. split_and!; try done; [by apply pool_inv_locked|apply eventing_refl|].
    intros x. split_and!; try done. intros k _ Hk. by apply not_elem_of_nil in Hk.
  - intros key rest [] p' (past & Hord & Hinv' & Hevt & Hdr & Hsub & HU).
    assert (key ∉ past) as Hnk.
    { assert (NoDup (past ++ key :: rest)) as (_ & Hq & _)%NoDup_app.
      { rewrite <- Hord, pairs_order_spec. apply NoDup_fst_map_to_list. }
      intros Hin. apply (Hq key Hin). left. }
    destruct (Z.eqb_spec key.2 mstream) as [Hm|Hm]; simpl.
    + apply wp_bind, wp_gets. set (S := default ∅ (stream_pair_mem_bufs_ p' !! key)).
      eapply wp_mono; [apply (wait_pair_spec dev_ok task key S p' Hinv'); intros x; apply iff_sym, recorded_default|].
      intros _ p2 (Hinv2 & Hevt2 & Hdr2 & HU2 & Hsub2 & HP2). exists (past ++ [key]).
      split_and!; [by rewrite <- app_assoc|done|by apply (eventing_trans _ p')|congruence|auto|].
      intros x. destruct (HU x) as (HN & Hw & Hkeep). rewrite HU2, lookup_wait_set.
      destruct (decide (recorded P key x)) as [Hk|Hk].
      * destruct Hkeep as [HUx HPx].
        { intros k Hk' Hin. by rewrite (tr_single _ _ Htr k key x Hk' Hk) in Hin. }
        assert (x ∈ S) as HxS by (by apply recorded_default, HPx).
        rewrite HUx, bool_decide_eq_true_2 by done. split_and!; [by intros ->|..].
        -- intros k Hk' _ _. by rewrite (tr_single _ _ Htr k key x Hk' Hk).
        -- intros Hno. destruct (Hno key Hk); [set_solver|done].
      * assert (x ∉ S) as HxS.
        { intros Hin. apply Hk, Hsub. by apply recorded_default. }
        rewrite bool_decide_eq_false_2 by done.
        assert (∀ o : option MemBuf, (o ≫= λ b, if false then waited task key.1 b else Some b) = o)
          as Hid by by intros []. rewrite Hid.
        split_and!; [done|..].
        -- intros k Hk' [Hin| ->%list_elem_of_singleton]%elem_of_app ?; [by apply Hw|done].
        -- intros Hno. destruct Hkeep as [HUx HPx]; [intros k Hk' Hin; apply Hno; set_solver|].
           split; [done|]. intros k. by rewrite HP2, HPx.
    + apply wp_ret. exists (past ++ [key]). split_and!; try done; [by rewrite <- app_assoc|].
      intros x. destruct (HU x) as (HN & Hw & Hkeep). split_and!; [done|..].
      * intros k Hk [Hin| ->%list_elem_of_singleton]%elem_of_app ?; [by apply Hw|done].
      * intros Hno. apply Hkeep. intros k Hk Hin. apply Hno; [done|]. set_solver.
  - intros [] p' (past & Hord & Hinv' & Hevt & Hdr & Hsub & HU). apply wp_ret.
    rewrite app_nil_r in Hord. subst past.
    assert (∀ k x, recorded P k x → k ∈ pairs_order P) as Hin.
    { intros k x (S & HS & _). rewrite pairs_order_spec. apply list_elem_of_fmap.
      exists (k, S). split; [done|]. by apply elem_of_map_to_list. }
    split_and!; [done|by apply pool_inv_locked|by apply eventing_locked|done|].
    intros x. destruct (HU x) as (HN & Hw & Hkeep). split; [done|]. intros b Hx. split.
    + intros u Hu. change (used_map (set_locked false p')) with (used_map p').
      rewrite (Hw (u, mstream) Hu (Hin _ _ Hu) eq_refl). fold U in Hx. by rewrite Hx.
    + intros Hno. rewrite <- Hx. apply Hkeep. intros [u m] Hk _ Hm. simpl in Hm. subst m.
      by apply (Hno u).
Qed.

(** ** [DoSyncAllEvents] *)

Lemma elem_of_carry P q : q ∈ carry_event_mem_bufs P ↔ ∃ key, recorded P key q.
Proof.
  unfold carry_event_mem_bufs. induction P as [|k S P Hk IH] using map_ind.
  - rewrite map_fold_empty. split; [set_solver|]. intros (key & S & HS & _). by rewrite lookup_empty in HS.
  - rewrite map_fold_insert_L; [|intros; set_solver|done]. rewrite elem_of_union, IH. split.
    + intros [Hq|[key Hq]].
      * exists k. apply recorded_insert. by left.
      * exists key. apply recorded_insert. right. split; [|done]. intros ->.
        destruct Hq as (S' & HS' & _). congruence.
    + intros [key [[-> Hq]|[_ Hq]]%recorded_insert]; [by left|right; by exists key].
Qed.

(** What synchronising all events leaves of a buffer in use. *)
Definition synced (b : MemBuf) : option MemBuf :=
  if EventBase.IsEventNotUsed (mb_events b) then Some b
  else if bool_decide (mb_status b = kMemBufUsedByEvent) then None
  else Some (set_events (EventBase.SyncAllEvents (mb_events b)).2 b).

Lemma sync_one_spec p q b :
  core p → books p → used_map p !! q = Some b → has_events b →
  wp (sync_one q) p (λ _ p', core p' ∧ books p' ∧ eventing p p' ∧
    stream_pair_mem_bufs_ p' = stream_pair_mem_bufs_ p ∧
    used_map p' = put_opt q (synced b) (used_map p)).
Proof.
  intros Hc Hb Hq Hev. unfold sync_one. apply wp_bind, (load_used _ _ _ _ Hq). intros c Hqc _ Hbc.
  assert (mb_events c = mb_events b ∧ mb_addr c = mb_addr b ∧ mb_status c = mb_status b)
    as (-> & -> & ->) by by subst b.
  destruct (EventBase.SyncAllEvents_spec (mb_events b)) as (Hr & Hnone & _).
  assert (wp (update q (λ d, set_events ((λ _, (EventBase.SyncAllEvents (mb_events b)).2) (mb_events d)) d)) p
    (λ _ p', wp (whenM ((EventBase.SyncAllEvents (mb_events b)).1 &&
         bool_decide (mb_status b = kMemBufUsedByEvent))
      (_ ← DoFreeTensorMem (mb_addr b); mret ())) p' (λ _ p', core p' ∧ books p' ∧ eventing p p' ∧
    stream_pair_mem_bufs_ p' = stream_pair_mem_bufs_ p ∧
    used_map p' = put_opt q (synced b) (used_map p)))) as Hgoal; [|by apply wp_bind].
  eapply wp_mono; [by apply (update_events_spec dev_ok p q b (λ _, (EventBase.SyncAllEvents (mb_events b)).2))|].
  intros _ p1 (Hc1 & Hb1 & Ho1 & Hal1 & Hbl1 & HU1 & Henv1 & HP1 & HA1 & HL1). cbv beta in HU1.
  set (b' := set_events _ b) in HU1. unfold synced.
  rewrite Hr, Hev. simpl. apply wp_whenM; intros Hs.
  - rewrite Hs. apply bool_decide_eq_true in Hs.
    assert (¬ has_events b') as Hev' by (unfold has_events, b'; simpl; by rewrite Hnone).
    assert (used_map p1 !! q = Some b') as Hq1 by by rewrite HU1, lookup_insert_eq.
    change (mb_addr b) with (mb_addr b'). apply wp_bind.
    eapply wp_mono; [by apply (free_cleared dev_ok p1 q b')|].
    intros r p2 (Hc2 & Hb2 & Hfr & HU2). apply wp_ret.
    assert (used_map p2 = delete q (used_map p)) as HU2' by (by rewrite HU2, HU1, delete_insert_eq).
    split_and!; try done.
    + split; [by rewrite (fr_locked _ _ Hfr)| |by intros id Hid; apply (fr_allocs _ _ Hfr), Hal1|by rewrite (fr_blks _ _ Hfr)|].
      * apply (same_owner_trans p p1 p2); [done|apply Hfr|]. by rewrite Hbl1.
      * rewrite HU2'. apply (untouched_put q b None); [done|congruence].
    + by rewrite (fr_pairs _ _ Hfr).
  - rewrite Hs. split_and!; try done. split; try done. rewrite HU1.
    apply (untouched_put q b (Some b')); [done|]. intros _. by eexists.
Qed.

Lemma synced_clear U P x b b' : tracked U P → U !! x = Some b → synced b = Some b' →
  ¬ has_events b' ∧ mb_status b' ≠ kMemBufUsedByEvent ∧ EventBase.events_ok (mb_events b').
Proof.
  intros Htr Hx. destruct (tr_bufs _ _ Htr _ _ Hx) as [_ _ Hst Hok].
  destruct (EventBase.SyncAllEvents_spec (mb_events b)) as (_ & Hnone & Hok' & _).
  unfold synced, has_events. destruct (EventBase.IsEventNotUsed (mb_events b)) eqn:He.
  - intros [= <-]. rewrite He. split_and!; [done| |done]. intros Hs. specialize (Hst Hs). congruence.
  - case_bool_decide; [done|]. intros [= <-]. simpl. by rewrite Hnone.
Qed.

Lemma DoSyncAllEvents_spec p :
  pool_inv p →
  wp DoSyncAllEvents p (λ r p', pool_inv p' ∧ eventing p p' ∧
    r = negb (bool_decide (stream_pair_mem_bufs_ p = ∅)) ∧
    stream_pair_mem_bufs_ p' = ∅ ∧ used_map p' = omap synced (used_map p)).
Proof.
  intros Hinv. pose proof Hinv as [Hc Hb Htr]. unfold DoSyncAllEvents. apply wp_bind, wp_gets.
  set (P := stream_pair_mem_bufs_ p) in *. set (U := used_map p) in *.
  assert (∀ x b, U !! x = Some b → (∀ key, ¬ recorded P key x) → synced b = Some b) as Hfree.
  { intros x b Hx Hno. unfold synced. destruct (EventBase.IsEventNotUsed (mb_events b)) eqn:He; [done|].
    destruct (tb_all _ _ _ (tr_bufs _ _ Htr _ _ Hx) He) as [key Hk]. by destruct (Hno key). }
  case_bool_decide as HP; simpl.
  { apply wp_ret. split_and!; try done; [apply eventing_refl|]. apply map_eq. intros x.
    rewrite lookup_omap. fold U. destruct (U !! x) as [b|] eqn:Hx; [|done]. simpl. symmetry.
    apply (Hfree x); [done|]. intros key (S & HS & _). rewrite HP in HS. by rewrite lookup_empty in HS. }
  apply wp_bind. apply (wp_forM _ _ _ _ (λ rest _ p', ∃ past : list ptr,
    bufs_order (carry_event_mem_bufs P) = past ++ rest ∧ core p' ∧ books p' ∧ eventing p p' ∧
    stream_pair_mem_bufs_ p' = P ∧
    ∀ x, used_map p' !! x = U !! x ≫= λ b, if bool_decide (x ∈ past) then synced b else Some b)).
  - exists []. split_and!; try done; [apply eventing_refl|]. intros x. fold U. by destruct (U !! x).
  - intros q rest [] p' (past & Hord & Hc' & Hb' & Hevt & HP' & HU).
    assert (NoDup (past ++ q :: rest)) as (_ & Hq & _)%NoDup_app.
    { rewrite <- Hord, bufs_order_spec. apply NoDup_elements. }
    assert (q ∉ past) as Hnq by (intros Hin; apply (Hq q Hin); left).
    assert (q ∈ carry_event_mem_bufs P) as [key Hrec]%elem_of_carry.
    { apply elem_of_elements. rewrite <- bufs_order_spec, Hord. set_solver. }
    destruct (tr_used _ _ Htr _ _ Hrec) as [b Hqb].
    destruct (tb_key _ _ _ (tr_bufs _ _ Htr _ _ Hqb) _ Hrec) as [Hev _].
    eapply wp_mono; [apply (sync_one_spec p' q b); try done|].
    { rewrite HU, Hqb. simpl. by rewrite bool_decide_eq_false_2. }
    intros _ p2 (Hc2 & Hb2 & Hevt2 & HP2 & HU2). exists (past ++ [q]).
    split_and!; [by rewrite <- app_assoc|done|done|by apply (eventing_trans p p')|congruence|].
    intros x. rewrite HU2, lookup_put_opt. case_decide as Hx; [subst|].
    + rewrite Hqb. simpl. by rewrite bool_decide_eq_true_2 by set_solver.
    + rewrite HU. by rewrite (bool_decide_ext (x ∈ past ++ [q]) (x ∈ past)) by set_solver.
  - intros [] p' (past & Hord & Hc' & Hb' & Hevt & HP' & HU). rewrite app_nil_r in Hord. subst past.
    assert (used_map p' = omap synced U) as HU'.
    { apply map_eq. intros x. rewrite HU, lookup_omap. destruct (U !! x) as [b|] eqn:Hx; [|done].
      simpl. case_bool_decide as Hin; [done|]. symmetry. apply (Hfree x); [done|].
      intros key Hrec. apply Hin. rewrite bufs_order_spec. apply elem_of_elements, elem_of_carry. by exists key. }
    apply wp_bind, wp_modify, wp_ret. match goal with |- PoolInvariant.pool_inv _ ?x ∧ _ => set (p2 := x) end.
    split_and!; try done; [|by destruct Hevt; split]. split.
    + apply (core_ext dev_ok p'); try done. exact (en_units _ _ _ _ (co_env _ _ Hc')).
    + by apply (books_same dev_ok p').
    + change (used_map p2) with (used_map p'). rewrite HU'. split.
      * intros x b (b0 & Hs & Hx)%lookup_omap_Some.
        destruct (synced_clear _ _ _ _ _ Htr Hx Hs) as (? & ? & ?). split; try done.
        intros key (S & HS & _). unfold p2 in HS; simpl in HS. by rewrite lookup_empty in HS.
      * intros key x (S & HS & _). unfold p2 in HS; simpl in HS. by rewrite lookup_empty in HS.
      * intros key key' x (S & HS & _). unfold p2 in HS; simpl in HS. by rewrite lookup_empty in HS.
Qed.

Lemma SyncAllEvents_pool_spec p :
  pool_inv p → locked p = false →
  wp SyncAllEvents p (λ r p', pool_inv p' ∧ eventing p p' ∧
    r = negb (bool_decide (stream_pair_mem_bufs_ p = ∅)) ∧
    stream_pair_mem_bufs_ p' = ∅ ∧ used_map p' = omap synced (used_map p)).
Proof.
  intros Hinv Hl. apply wp_with_lock; [done|].
  eapply wp_mono; [by apply DoSyncAllEvents_spec, pool_inv_locked|].
  intros r p' (Hinv' & Hevt & Hr & HP & HU). split_and!; try done.
  - by apply pool_inv_locked.
  - by apply eventing_locked.
Qed.
End sync.
