(* ===== verification/PoolAlloc.v ===== *)
(** * Allocation at the level of the pool

    [GetMemBufAllocator], [FreeIdleMemsByEagerFree], the printing functions, and the
    chain of attempts of [AllocMemBuf]: each attempt either grants a buffer or
    leaves the buffers in use as they are. *)

From S2P Require Import Prelude EventBase MemBufHeap MemGeometry MemBufSet MemBufAllocator AllocInvariant AllocSteps AllocFree AllocMalloc AllocMaint MemStat PoolDevice MemPool PoolInvariant PoolEvents PoolSync.
Import MemPool.

Section alloc.
Context {D : Type} `{DeviceMem D} (dev_ok : D → gmap ptr (Z * Z) → Prop).
Context `{!DeviceMemLaws D dev_ok, !IterOrder}.
Implicit Types (p : Pool D).
Abbreviation core := (core dev_ok).
Abbreviation pool_inv := (pool_inv dev_ok).

(** A step that may add blocks and allocators and regroup free buffers. *)
Record maintains p p' : Prop := {
  mt_core : core p → core p';
  mt_owner : same_owner p p';
  mt_blks : ∀ k, is_Some (blks (p_mem p) !! k) → is_Some (blks (p_mem p') !! k);
  mt_used : used_map p' = used_map p;
  mt_addrs : addr_mem_buf_allocators_ p' = addr_mem_buf_allocators_ p;
  mt_pairs : stream_pair_mem_bufs_ p' = stream_pair_mem_bufs_ p;
  mt_locked : locked p' = locked p;
  mt_stat : stat_frame (mem_stat_ (p_env p')) = stat_frame (mem_stat_ (p_env p));
  mt_allocs : ∀ id, is_Some (get_allocator id p) → is_Some (get_allocator id p')
}.

Lemma maintains_refl p : maintains p p.
Proof. by split. Qed.

Lemma maintains_trans p1 p2 p3 : maintains p1 p2 → maintains p2 p3 → maintains p1 p3.
Proof.
  intros [C1 O1 B1 U1 A1 P1 L1 S1 I1] [C2 O2 B2 U2 A2 P2 L2 S2 I2].
  split; try congruence; auto. by apply (same_owner_trans p1 p2 p3).
Qed.

Lemma stat_frame_used m m' : stat_frame m = stat_frame m' →
  used_size_ m = used_size_ m' ∧ used_by_event_size_ m = used_by_event_size_ m'.
Proof. intros [=]. done. Qed.

Lemma maintains_inv p p' : pool_inv p → maintains p p' → pool_inv p'.
Proof.
  intros [Hc Hb Ht] Hm. destruct (stat_frame_used _ _ (mt_stat _ _ Hm)) as [Hs _]. split.
  - by apply (mt_core _ _ Hm).
  - apply (books_same dev_ok p); try apply Hm; done.
  - by rewrite (mt_used _ _ Hm), (mt_pairs _ _ Hm).
Qed.

Lemma maintains_drift p p' : maintains p p' → drift p' = drift p.
Proof.
  intros Hm. destruct (stat_frame_used _ _ (mt_stat _ _ Hm)) as [_ Hs].
  unfold drift, stat_by_event. by rewrite Hs, (mt_used _ _ Hm).
Qed.

Lemma maintains_untouched p p' : maintains p p' → untouched (used_map p) (used_map p').
Proof. intros Hm. rewrite (mt_used _ _ Hm). apply untouched_refl. Qed.

(** ** Operations on one allocator *)

Lemma leave_enter id a p : get_allocator id p = Some a → leave id (enter p a) p = p.
Proof.
  intros Ha. destruct p, id; simpl in Ha; unfold leave, set_mem, set_env, set_allocators, set_tiny; simpl.
  - by rewrite (insert_id _ _ _ Ha).
  - by rewrite Ha.
Qed.

(** Reading through an allocator. *)
Lemma with_allocator_read {A} id (m : M (AState (Env D)) A) p a v :
  get_allocator id p = Some a → m (enter p a) = Ret v (enter p a) →
  with_allocator id m p = Ret v p.
Proof. intros Ha Hm. unfold with_allocator. by rewrite Ha, Hm, (leave_enter _ _ _ Ha). Qed.

(** An operation of allocator [id] that keeps the buffers in use. *)
Lemma leave_maintains id p a s :
  core p → get_allocator id p = Some a → extends (enter p a) s →
  state_ok (env_ok dev_ok (env_frame (p_env p))) s → inuse (bufs (a_mem s)) = used_map p →
  maintains p (leave id s p).
Proof.
  intros Hc Ha Hex Hst HU.
  split; rewrite ?leave_mem, ?leave_env, ?leave_addrs, ?leave_pairs, ?leave_locked, ?leave_used; try done.
  - intros _. by apply (core_leave dev_ok _ _ a _ (env_frame (p_env p))).
  - by apply (same_owner_leave dev_ok _ _ a).
  - intros k Hk. destruct Hex as [(new & _ & _ & Hd) _ _ _]. apply Hd. by left.
  - destruct Hst as [_ _ [_ _ _ Hf]]. exact (f_equal (λ x, x.1.1.1) Hf).
  - intros id' Hid. rewrite get_allocator_leave. case_decide; [done|by auto].
Qed.

(** The buffer [q], with fields [b], was cut for a request of [size] bytes. *)
Record grants (size : Z) (id : AllocId) (q : ptr) (b : MemBuf) p p' : Prop := {
  gt_core : core p';
  gt_owner : same_owner p p';
  gt_blks : ∀ k, is_Some (blks (p_mem p) !! k) → is_Some (blks (p_mem p') !! k);
  gt_new : used_map p !! q = None;
  gt_used : used_map p' = <[q := b]> (used_map p);
  gt_status : mb_status b = kMemBufUsed;
  gt_events : ¬ has_events b;
  gt_evok : EventBase.events_ok (mb_events b);
  gt_size : size <= mb_size b < size + kDynamicMemAlignSize;
  gt_block : owner p' id (mb_mem_block b);
  gt_addrs : addr_mem_buf_allocators_ p' = addr_mem_buf_allocators_ p;
  gt_pairs : stream_pair_mem_bufs_ p' = stream_pair_mem_bufs_ p;
  gt_locked : locked p' = locked p;
  gt_stat : stat_frame (mem_stat_ (p_env p')) = stat_frame (mem_stat_ (p_env p))
}.

(** What one attempt to allocate does. *)
Definition attempt (size : Z) (id : AllocId) p (r : option ptr) p' : Prop :=
  match r with
  | None => maintains p p'
  | Some q => ∃ b, grants size id q b p p'
  end.

Lemma not_used_events_ok b :
  EventBase.IsEventNotUsed (mb_events b) = true →
  ¬ has_events b ∧ EventBase.events_ok (mb_events b).
Proof.
  unfold has_events. intros He. rewrite He. split; [done|]. destruct (mb_events b) as [m|]; [|done].
  simpl in He. apply bool_decide_eq_true in He as ->. intros u. simpl. by rewrite lookup_empty.
Qed.

(** Any allocation of an allocator is an attempt of the pool. *)
Lemma alloc_attempt size id (m : M (AState (Env D)) (option ptr)) p a P :
  core p → get_allocator id p = Some a →
  wp m (enter p a) (alloc_post (env_ok dev_ok (env_frame (p_env p))) size P (enter p a)) →
  wp (with_allocator id m) p (attempt size id p).
Proof.
  intros Hc Ha Hm. eapply wp_with_allocator; [exact Ha|]. eapply wp_mono; [exact Hm|].
  intros [q|] s (Hst & Hex & Hr); simpl.
  - destruct Hr as (b & [Hq Hs Hev Hsz Hk Hnew Hin] & _). exists (strip b).
    destruct (not_used_events_ok b Hev) as [Hev' Hok].
    split; rewrite ?leave_mem, ?leave_env, ?leave_addrs, ?leave_pairs, ?leave_locked, ?leave_used; try done.
    + by apply (core_leave dev_ok _ _ a _ (env_frame (p_env p))).
    + by apply (same_owner_leave dev_ok _ _ a).
    + intros k Hk'. destruct Hex as [(new & _ & _ & Hd) _ _ _]. apply Hd. by left.
    + exists (a_al s). rewrite get_allocator_leave. by case_decide.
    + destruct Hst as [_ _ [_ _ _ Hf]]. exact (f_equal (λ x, x.1.1.1) Hf).
  - by apply (leave_maintains id p a).
Qed.

Lemma Malloc_of_spec size id p :
  core p → is_Some (get_allocator id p) → 0 < size <= 2 ^ 63 →
  wp (Malloc_of id size) p (attempt size id p).
Proof.
  intros Hc [a Ha] Hs. eapply alloc_attempt; [done..|]. eapply wp_mono.
  - apply (Malloc_spec (callbacks_of id) (env_ok dev_ok (env_frame (p_env p)))); [|done].
    by apply (core_state dev_ok id).
  - intros r s [Hp _]. exact Hp.
Qed.

Lemma MallocExpandBlock_pool_spec size id p :
  core p → is_Some (get_allocator id p) → 0 < size <= 2 ^ 63 →
  wp (with_allocator id (MemBufAllocator.MallocExpandBlock (callbacks_of id) size)) p
    (attempt size id p).
Proof.
  intros Hc [a Ha] Hs. eapply alloc_attempt; [done..|].
  apply MallocExpandBlock_spec; [apply _|by apply (core_state dev_ok id)|done].
Qed.

(** ** Finding the allocator *)

Lemma alloc_ok_new h ee persist stream : alloc_ok None h (new_Allocator ee persist stream).
Proof.
  assert (∀ st, set_ok None (bufs h) st [] []) as Hset.
  { intros st. split; [apply set_sorted_nil|]. intros q. split; [set_solver|].
    intros (_ & b & _ & _ & Hk). by apply not_elem_of_nil in Hk. }
  split; simpl; try done; [constructor|set_solver].
Qed.

(** A new allocator owns nothing. *)
Lemma new_allocator_maintains id ee persist stream p :
  get_allocator id p = None →
  maintains p (put_allocator id (new_Allocator ee persist stream) p).
Proof.
  intros Hnone. set (a := new_Allocator ee persist stream). set (p' := put_allocator id a p).
  assert (∀ id' k, owner p' id' k ↔ owner p id' k) as Ho.
  { intros id' k. unfold owner, p'. rewrite get_put_allocator. case_decide as Hd; [|done].
    subst id'. split; intros (a' & Ha' & Hk); simplify_eq. by apply not_elem_of_nil in Hk. }
  assert (p_mem p' = p_mem p ∧ p_env p' = p_env p) as [HM HE] by by destruct id.
  split; unfold used_map; rewrite ?HM, ?HE; try done; try by destruct id.
  - intros [Hm He Ha Hp Hw]. split; rewrite ?HM, ?HE; try done.
    + intros id' a'. unfold p'. rewrite get_put_allocator. case_decide; [|apply Ha].
      intros [= <-]. apply alloc_ok_new.
    + intros id1 id2 k. rewrite !Ho. apply Hp.
    + intros k Hk. destruct (Hw k Hk) as [id' Hid]. exists id'. by apply Ho.
  - intros id' k _. apply Ho.
  - intros id' Hid. unfold p'. rewrite get_put_allocator. by case_decide.
Qed.

Lemma GetMemBufAllocator_spec size persist stream p :
  wp (GetMemBufAllocator size persist stream) p (λ id p',
    maintains p p' ∧ is_Some (get_allocator id p')).
Proof.
  unfold GetMemBufAllocator. apply wp_bind, wp_gets.
  destruct (bool_decide (is_Some (tiny_allocator_ p)) && (size <=? tiny_limit)) eqn:Ht.
  - apply andb_true_iff in Ht as [Ht _]. apply bool_decide_eq_true in Ht.
    apply wp_ret. split; [apply maintains_refl|done].
  - destruct (stream_id_allocators_ p !! (persist, stream)) as [a|] eqn:Ha.
    + apply wp_ret. split; [apply maintains_refl|]. by exists a.
    + apply wp_bind, wp_modify, wp_ret. split; [by apply new_allocator_maintains|].
      rewrite get_put_allocator. by case_decide.
Qed.

(** ** Loops over the allocators *)

Lemma elem_of_allocators p key :
  key ∈ allocators_in_order p ↔ is_Some (stream_id_allocators_ p !! key).
Proof.
  unfold allocators_in_order. rewrite merge_sort_Permutation, list_elem_of_fmap. split.
  - intros ([k a] & -> & Ha). exists a. by apply elem_of_map_to_list in Ha.
  - intros [a Ha]. exists (key, a). split; [done|]. by apply elem_of_map_to_list.
Qed.

Lemma allocators_NoDup p : NoDup (allocators_in_order p).
Proof. unfold allocators_in_order. rewrite merge_sort_Permutation. apply NoDup_fst_map_to_list. Qed.

Lemma allocators_in_order_spec p key :
  key ∈ allocators_in_order p → is_Some (get_allocator (Some key) p).
Proof. apply elem_of_allocators. Qed.

Lemma FreeIdleMemsByEagerFree_pool_spec p :
  core p → wp MemPool.FreeIdleMemsByEagerFree p (λ _ p', maintains p p').
Proof.
  intros Hc. apply wp_bind, wp_modify. apply wp_bind, wp_gets. apply wp_bind.
  set (p0 := set_eager_free_count _ p).
  assert (maintains p p0) as Hm0.
  { split; try done. intros _. apply (core_ext dev_ok p); try done.
    exact (en_units _ _ _ _ (co_env _ _ Hc)). }
  apply (wp_forM _ _ _ _ (λ rest _ p', maintains p p' ∧ ∀ key, key ∈ rest → is_Some (get_allocator (Some key) p'))).
  - split; [done|]. apply allocators_in_order_spec.
  - intros key rest acc p' [Hm Hrest]. destruct (Hrest key) as [a Ha]; [left|].
    pose proof (mt_core _ _ Hm Hc) as Hc'.
    apply wp_bind. eapply wp_with_allocator; [exact Ha|].
    eapply wp_mono; [apply (FreeIdleMemsByEagerFree_spec (callbacks_of (Some key))
      (env_ok dev_ok (env_frame (p_env p')))); by apply (core_state dev_ok (Some key))|].
    intros r s (Hst & Hex & _ & HU & _). apply wp_ret.
    pose proof (leave_maintains (Some key) p' a s Hc' Ha Hex Hst HU) as Hm'.
    split; [by apply (maintains_trans p p')|]. intros key' Hin. apply (mt_allocs _ _ Hm'), Hrest. by right.
  - intros acc p' [Hm _]. apply wp_bind, wp_modify, wp_ret.
    apply (maintains_trans p p'); [done|]. split; try done. intros Hc'.
    apply (core_ext dev_ok p'); try done. exact (en_units _ _ _ _ (co_env _ _ Hc')).
Qed.

(** ** Printing changes nothing *)

(** A loop whose body only reads. *)
Lemma wp_forM_read {S A B} (l : list A) (body : B → A → M S B) acc s :
  (∀ x acc, x ∈ l → wp (body acc x) s (λ _ s', s' = s)) →
  wp (forM l body acc) s (λ _ s', s' = s).
Proof.
  intros Hbody. apply (wp_forM _ _ _ _ (λ rest _ s', s' = s ∧ ∀ x, x ∈ rest → x ∈ l)); [done| |].
  - intros x rest acc' s' [-> Hin]. eapply wp_mono; [apply Hbody, Hin; left|].
    intros acc2 s2 ->. split; [done|]. intros y Hy. apply Hin. by right.
  - by intros acc' s' [-> _].
Qed.

Lemma AllocatorActualPeakSize_spec f s :
  state_ok (env_ok dev_ok f) s →
  wp MemBufAllocator.AllocatorActualPeakSize s (λ _ s', s' = s).
Proof.
  intros [_ Hal _]. apply wp_bind, wp_gets. apply wp_forM_read. intros k acc Hk.
  destruct (ao_blks _ _ _ Hal k Hk) as [b Hb]. apply wp_bind, (wp_load_blk _ b); [done|]. by apply wp_ret.
Qed.

Lemma with_allocator_reads {A} id (m : M (AState (Env D)) A) p :
  core p → is_Some (get_allocator id p) →
  (∀ s, state_ok (env_ok dev_ok (env_frame (p_env p))) s → wp m s (λ _ s', s' = s)) →
  wp (with_allocator id m) p (λ _ p', p' = p).
Proof.
  intros Hc [a Ha] Hm. eapply wp_with_allocator; [exact Ha|].
  eapply wp_mono; [apply Hm; by apply (core_state dev_ok id)|].
  intros r s ->. by apply leave_enter.
Qed.

Lemma ActualPeakStatistics_spec p :
  core p → wp ActualPeakStatistics p (λ _ p', p' = p).
Proof.
  intros Hc. apply wp_bind, wp_gets. case_match; [by apply wp_ret|].
  apply wp_forM_read. intros key acc Hin. apply wp_bind.
  eapply wp_mono; [apply with_allocator_reads; [done|by apply allocators_in_order_spec|]|].
  - intros s. apply AllocatorActualPeakSize_spec.
  - intros r p' ->. by apply wp_ret.
Qed.

Lemma DumpStateInfo_reads id p : core p → is_Some (get_allocator id p) →
  wp (with_allocator id MemBufAllocator.DumpStateInfo) p (λ _ p', p' = p).
Proof.
  intros Hc Hid. apply with_allocator_reads; [done..|]. intros s Hs.
  eapply wp_mono; [by apply (DumpStateInfo_spec (callbacks_of id) (env_ok dev_ok (env_frame (p_env p))))|].
  by intros r s' [-> _].
Qed.

Lemma DumpDynamicMemPoolStateInfo_spec p :
  core p → books p → wp DumpDynamicMemPoolStateInfo p (λ _ p', p' = p).
Proof.
  intros Hc Hb. unfold DumpDynamicMemPoolStateInfo, DynamicMemPoolStateInfo.
  apply wp_bind. apply wp_bind, wp_gets. apply wp_bind.
  eapply wp_mono; [apply wp_forM_read|].
  { intros [addr [q id]] acc Hin. rewrite addrs_order_spec in Hin. apply elem_of_map_to_list in Hin.
    destruct (books_lookup _ _ _ _ Hb Hin) as (b & Hq & _). simpl.
    apply wp_bind, (load_used _ _ _ _ Hq). intros. by apply wp_ret. }
  intros n p1 ->. apply wp_bind. eapply wp_mono; [apply wp_forM_read|].
  { intros key acc Hin. apply wp_bind. eapply wp_mono;
      [apply DumpStateInfo_reads; [done|by apply allocators_in_order_spec]|].
    intros r p' ->. by apply wp_ret. }
  intros infos p1 ->. apply wp_bind.
  apply (wp_mono _ _ (λ _ p', p' = p)).
  { destruct (tiny_allocator_ p) as [a|] eqn:Ht; [|by apply wp_ret]. apply wp_bind.
    eapply wp_mono; [apply (DumpStateInfo_reads None); [done|by exists a]|].
    intros r p' ->. by apply wp_ret. }
  intros tiny p1 ->. apply wp_bind.
  eapply wp_mono; [by apply ActualPeakStatistics_spec|]. intros r p1 ->. by apply wp_ret, wp_ret.
Qed.

(** ** The chain of attempts *)

(** The state an attempt starts from: nothing was granted; at most the buffers that
    only waited for events were released. *)
Record prepared p p0 : Prop := {
  pr_inv : pool_inv p0;
  pr_locked : locked p0 = locked p;
  pr_owner : same_owner p p0;
  pr_blks : ∀ k, is_Some (blks (p_mem p) !! k) → is_Some (blks (p_mem p0) !! k);
  pr_used : used_map p0 = used_map p ∨ used_map p0 = omap synced (used_map p);
  pr_untouched : untouched (used_map p) (used_map p0)
}.

Definition outcome_of (size : Z) (id : AllocId) p (r : option ptr) p' : Prop :=
  ∃ p0, prepared p p0 ∧ attempt size id p0 r p'.

Lemma prepared_maintains p p0 p1 : prepared p p0 → maintains p0 p1 → prepared p p1.
Proof.
  intros [Hi Hl Ho Hb Hu Ht] Hm. split.
  - by apply (maintains_inv p0).
  - by rewrite (mt_locked _ _ Hm).
  - by apply (same_owner_trans p p0 p1), Hb; [|apply Hm].
  - intros k Hk. by apply (mt_blks _ _ Hm), Hb.
  - by rewrite (mt_used _ _ Hm).
  - apply (untouched_trans _ (used_map p0)); [done|by apply maintains_untouched].
Qed.

Lemma prepared_refl p : pool_inv p → prepared p p.
Proof. intros Hi. split; try done; [by left|apply untouched_refl]. Qed.

Lemma maintains_prepared p p1 p0 : maintains p p1 → prepared p1 p0 → prepared p p0.
Proof.
  intros Hm [Hi Hl Ho Hb Hu Ht]. split; try done.
  - by rewrite Hl, (mt_locked _ _ Hm).
  - apply (same_owner_trans p p1 p0); [apply Hm|done|apply Hm].
  - intros k Hk. by apply Hb, (mt_blks _ _ Hm).
  - by rewrite <- (mt_used _ _ Hm).
  - by rewrite <- (mt_used _ _ Hm).
Qed.

Lemma outcome_maintains size id p p1 r p' :
  maintains p p1 → outcome_of size id p1 r p' → outcome_of size id p r p'.
Proof. intros Hm (p0 & Hp & Ha). exists p0. split; [by apply (maintains_prepared p p1)|done]. Qed.

Lemma attempt_outcome size id p r p' :
  pool_inv p → attempt size id p r p' → outcome_of size id p r p'.
Proof. intros Hi Ha. exists p. split; [by apply prepared_refl|done]. Qed.

Lemma DoSyncAllEvents_prepared p : pool_inv p →
  wp DoSyncAllEvents p (λ _ p', prepared p p' ∧ keeps_allocs p p').
Proof.
  intros Hi. eapply wp_mono; [by apply DoSyncAllEvents_spec|].
  intros r p' (Hi' & [Hl Ho Ha Hb Hu] & _ & _ & HU). split; [|done].
  split; try done; [by rewrite Hb|by right].
Qed.

Lemma ExpandOrSync_spec size id p :
  pool_inv p → is_Some (get_allocator id p) → 0 < size <= 2 ^ 63 →
  wp (ExpandOrSync id size) p (outcome_of size id p).
Proof.
  intros Hi Hid Hs. apply wp_bind. eapply wp_mono; [by apply MallocExpandBlock_pool_spec, Hs; [apply Hi|]|].
  intros [q|] p1 H1; [apply wp_ret; by apply attempt_outcome|].
  simpl in H1. pose proof (maintains_inv _ _ Hi H1) as Hi1.
  apply wp_bind. eapply wp_mono; [by apply DoSyncAllEvents_prepared|].
  intros r p2 [H2 Ha2]. eapply wp_mono.
  - apply Malloc_of_spec; [apply H2|apply Ha2, (mt_allocs _ _ H1), Hid|done].
  - intros r' p3 H3. exists p2. split; [by apply (maintains_prepared p p1)|done].
Qed.

Lemma SyncAllStreams_spec p : pool_inv p →
  wp (on_pool_dev SyncAllStreams) p (λ _ p', maintains p p').
Proof.
  intros Hi. apply wp_zoom, (wp_zoom dev set_dev). eapply wp_mono;
    [apply (dev_sync (dev_ok := dev_ok)), (en_dev _ _ _ _ (co_env _ _ (pi_core _ _ Hi)))|].
  intros r d Hd. split; try done. intros [Hm [_ H2 H3 _] Ha Hp Hw]. split; try done.
Qed.

Lemma EagerFreeOrExpand_spec size id p :
  pool_inv p → is_Some (get_allocator id p) → 0 < size <= 2 ^ 63 →
  wp (EagerFreeOrExpand id size) p (outcome_of size id p).
Proof.
  intros Hi Hid Hs. apply wp_bind, wp_gets. destruct (eager_or_vmm (p_env p)).
  2: by apply ExpandOrSync_spec.
  apply wp_bind. eapply wp_mono; [by apply SyncAllStreams_spec|].
  intros synced p1 H1. pose proof (maintains_inv _ _ Hi H1) as Hi1.
  destruct synced; simpl.
  2: { apply wp_ret. by apply attempt_outcome. }
  apply wp_bind. eapply wp_mono; [apply FreeIdleMemsByEagerFree_pool_spec, Hi1|].
  intros r p2 H2. pose proof (maintains_trans _ _ _ H1 H2) as H12.
  pose proof (maintains_inv _ _ Hi H12) as Hi2.
  assert (is_Some (get_allocator id p2)) as Hid2 by apply (mt_allocs _ _ H12), Hid.
  apply wp_bind. eapply wp_mono; [by apply Malloc_of_spec; [apply Hi2|..]|].
  intros [q|] p3 H3.
  - apply wp_ret. apply (outcome_maintains _ _ _ p2); [done|]. by apply attempt_outcome.
  - simpl in H3. pose proof (maintains_trans _ _ _ H12 H3) as H13.
    eapply wp_mono; [apply ExpandOrSync_spec; [by apply (maintains_inv p)|apply (mt_allocs _ _ H13), Hid|done]|].
    intros r' p4. by apply outcome_maintains.
Qed.

Lemma MallocFromAllocators_spec size persist stream p :
  pool_inv p → 0 < size <= 2 ^ 63 →
  wp (MallocFromAllocators size persist stream) p (λ r p',
    outcome_of size r.2 p r.1 p' ∧ (r.1 = None → maintains p p' ∧ is_Some (get_allocator r.2 p'))).
Proof.
  intros Hi Hs. apply wp_bind. eapply wp_mono; [apply GetMemBufAllocator_spec|].
  intros id p1 [H1 Hid]. pose proof (maintains_inv _ _ Hi H1) as Hi1.
  apply wp_bind. eapply wp_mono; [by apply Malloc_of_spec; [apply Hi1|..]|].
  intros r p2 H2. apply wp_bind, wp_gets. destruct r as [q|].
  { apply wp_ret. split; [|done]. apply (outcome_maintains _ _ _ p1); [done|]. by apply attempt_outcome. }
  simpl in H2. pose proof (maintains_trans _ _ _ H1 H2) as H12.
  pose proof (maintains_inv _ _ Hi H12) as Hi2.
  destruct (negb _ && _).
  - apply wp_bind. eapply wp_mono; [apply GetMemBufAllocator_spec|].
    intros id' p3 [H3 Hid3]. pose proof (maintains_trans _ _ _ H12 H3) as H13.
    pose proof (maintains_inv _ _ Hi H13) as Hi3.
    apply wp_bind. eapply wp_mono; [by apply Malloc_of_spec; [apply Hi3|..]|].
    intros r p4 H4. apply wp_ret. split.
    + apply (outcome_maintains _ _ _ p3); [done|]. by apply attempt_outcome.
    + simpl. intros ->. simpl in H4. split; [by apply (maintains_trans p p3)|apply (mt_allocs _ _ H4), Hid3].
  - apply wp_ret. split.
    + simpl. by apply attempt_outcome.
    + split; [done|apply (mt_allocs _ _ H2), Hid].
Qed.

(** The statistics after a grant. *)
Definition count_grant (b : MemBuf) p : Pool D :=
  pool_stat (λ m, UpdatePeakSize (set_used_size (used_size_ m +64 mb_size b) m)) p.

Definition AllocMemBuf_post (size : Z) p (r : option (ptr * AllocId)) p' : Prop :=
  ∃ p0, prepared p p0 ∧
    match r with
    | None => maintains p0 p'
    | Some (q, id) => ∃ b p1, grants size id q b p0 p1 ∧ p' = count_grant b p1
    end.

Lemma AllocMemBuf_spec size persist stream p :
  pool_inv p → 0 < size <= 2 ^ 63 →
  wp (AllocMemBuf size persist stream) p (AllocMemBuf_post size p).
Proof.
  intros Hi Hs. apply wp_bind. eapply wp_mono; [by apply MallocFromAllocators_spec|].
  intros [r id] p1 [H1 H1n]. simpl in *. apply wp_bind.
  apply (wp_mono _ _ (outcome_of size id p)).
  { destruct r as [q|]; [by apply wp_ret|]. destruct (H1n eq_refl) as [Hm Hid].
    eapply wp_mono; [by apply EagerFreeOrExpand_spec; [apply (maintains_inv p)|..]|].
    intros r p2. by apply outcome_maintains. }
  intros [q|] p2 (p0 & Hp0 & Ha); simpl in Ha.
  - destruct Ha as [b Hg]. assert (used_map p2 !! q = Some b) as Hq.
    { rewrite (gt_used _ _ _ _ _ _ Hg). apply lookup_insert_eq. }
    apply wp_bind, (load_used _ _ _ _ Hq). intros c _ _ Hbc.
    assert (mb_size c = mb_size b) as -> by by subst b.
    apply wp_bind, wp_modify, wp_ret. exists p0. split; [done|]. by exists b, p2.
  - apply wp_ret. by exists p0.
Qed.

(** Entering a grant in the books. *)
Definition enter_grant (id : AllocId) (q : ptr) (b : MemBuf) p : Pool D :=
  set_addrs (map_emplace (mb_addr b) (q, id) (addr_mem_buf_allocators_ p)) p.

Lemma enter_grant_inv size id q b p0 p1 :
  pool_inv p0 → grants size id q b p0 p1 →
  let p' := enter_grant id q b (count_grant b p1) in
  pool_inv p' ∧ used_map p' = <[q := b]> (used_map p0) ∧
  addr_mem_buf_allocators_ p' = <[mb_addr b := (q, id)]> (addr_mem_buf_allocators_ p0).
Proof.
  intros [Hc0 Hb0 Ht0] Hg p'. destruct (stat_frame_used _ _ (gt_stat _ _ _ _ _ _ Hg)) as [Hs _].
  assert (core p') as Hc'.
  { pose proof (gt_core _ _ _ _ _ _ Hg) as Hc1. apply (core_ext dev_ok p1); try done.
    exact (en_units _ _ _ _ (co_env _ _ Hc1)). }
  assert (used_map p' = <[q := b]> (used_map p0)) as HU by apply Hg.
  set (p2 := set_addrs (<[mb_addr b := (q, id)]> (addr_mem_buf_allocators_ p0)) (count_grant b p1)).
  assert (core p2) as Hc2 by (by apply (core_ext dev_ok p'); try done; exact (en_units _ _ _ _ (co_env _ _ Hc'))).
  pose proof Hg as [_ Ho _ Hn _ _ _ _ _ Hw _ _ _ _].
  destruct (books_insert dev_ok p0 p2 q b id) as [Hnone Hb2]; try done.
  { unfold stat_used. rewrite <- Hs. done. }
  assert (p' = p2) as Heq.
  { unfold p', p2, enter_grant. f_equal. change (addr_mem_buf_allocators_ (count_grant b p1)) with (addr_mem_buf_allocators_ p1).
    rewrite (gt_addrs _ _ _ _ _ _ Hg). unfold map_emplace. by rewrite Hnone. }
  split_and!; [|done|by rewrite Heq]. split; [done|by rewrite Heq|]. rewrite HU.
  change (stream_pair_mem_bufs_ p') with (stream_pair_mem_bufs_ p1). rewrite (gt_pairs _ _ _ _ _ _ Hg).
  assert (∀ key, ¬ recorded (stream_pair_mem_bufs_ p0) key q) as Hnr.
  { intros key Hk. destruct (tr_used _ _ Ht0 _ _ Hk) as [? Hx]. by rewrite (gt_new _ _ _ _ _ _ Hg) in Hx. }
  apply (tracked_update _ (stream_pair_mem_bufs_ p0)); try done.
  - pose proof (gt_events _ _ _ _ _ _ Hg). split; try done.
    + by intros key Hk%Hnr.
    + by rewrite (gt_status _ _ _ _ _ _ Hg).
    + apply Hg.
  - by intros key key' Hk%Hnr.
Qed.

(** The buffers in use before the grant: untouched, or those that only waited for
    events released. *)
Definition base_map p U : Prop := U = used_map p ∨ U = omap synced (used_map p).

Definition AllocTensorMem_post (size : Z) p (r : Z) p' : Prop :=
  pool_inv p' ∧ locked p' = false ∧ untouched (used_map p) (used_map p') ∧
  ∃ U, base_map p U ∧
    (r = 0 ∧ used_map p' = U ∨
     ∃ q b id, U !! q = None ∧ used_map p' = <[q := b]> U ∧ mb_addr b = r ∧
       mb_status b = kMemBufUsed ∧ ¬ has_events b ∧
       size <= mb_size b < size + kDynamicMemAlignSize ∧
       addr_mem_buf_allocators_ p' !! r = Some (q, id) ∧
       ∀ q' c, U !! q' = Some c →
         disjoint_range (mb_addr b) (mb_size b) (mb_addr c) (mb_size c)).

Lemma AllocTensorMem_spec size persist stream p :
  pool_inv p → locked p = false → 0 < AlignMemorySize size <= 2 ^ 63 →
  wp (AllocTensorMem size persist stream) p (AllocTensorMem_post (AlignMemorySize size) p).
Proof.
  intros Hi Hl Hs. apply wp_with_lock; [done|]. apply wp_bind.
  eapply wp_mono; [by apply AllocMemBuf_spec; [apply pool_inv_locked|]|].
  intros [[q id]|] p1 (p0 & Hp0 & H1).
  - destruct H1 as (b & p2 & Hg & ->).
    assert (used_map (count_grant b p2) !! q = Some b) as Hq.
    { change (used_map (count_grant b p2)) with (used_map p2).
      rewrite (gt_used _ _ _ _ _ _ Hg). apply lookup_insert_eq. }
    apply wp_bind, (load_used _ _ _ _ Hq). intros c _ _ Hbc.
    assert (mb_addr c = mb_addr b) as -> by by subst b.
    apply wp_bind, wp_modify, wp_ret.
    destruct (enter_grant_inv _ _ _ _ _ _ (pr_inv _ _ Hp0) Hg) as (Hi' & HU & HA).
    set (p3 := enter_grant id q b (count_grant b p2)) in *.
    change (AllocTensorMem_post (AlignMemorySize size) p (mb_addr b) (set_locked false p3)).
    split_and!; [by apply pool_inv_locked|done| |].
    + change (used_map (set_locked false p3)) with (used_map p3). rewrite HU.
      apply (untouched_trans _ (used_map p0)); [apply Hp0|]. intros x c' Hx _.
      exists (mb_events c'). rewrite set_events_id, lookup_insert_ne; [done|].
      intros ->. by rewrite (gt_new _ _ _ _ _ _ Hg) in Hx.
    + exists (used_map p0). split; [apply Hp0|right]. exists q, b, id. destruct Hg. split_and!; try done; try apply gt_size0.
      { change (addr_mem_buf_allocators_ (set_locked false p3)) with (addr_mem_buf_allocators_ p3). rewrite HA. apply lookup_insert_eq. }
      intros q' c' Hq'. assert (q ≠ q') by congruence.
      apply (inuse_disjoint None (p_mem p3) q q'); [apply Hi'|..|done]; change (inuse (bufs (p_mem p3))) with (used_map p3); rewrite HU.
      * apply lookup_insert_eq.
      * by rewrite lookup_insert_ne.
  - pose proof (prepared_maintains _ _ _ Hp0 H1) as Hp1. apply wp_bind.
    eapply wp_mono; [by apply DumpDynamicMemPoolStateInfo_spec; apply Hp1|].
    intros _ p2 ->. apply wp_ret.
    split_and!; [by apply pool_inv_locked, Hp1|done|apply Hp1|].
    exists (used_map p1). split; [apply Hp1|by left].
Qed.
End alloc.
