(* ===== verification/PoolTheorems.v ===== *)
(** * Theorems about the pool

    The whole operations under the invariant [pool_inv], an arbitrary sequence of
    them, the statistics, the block sizes, and the release of everything. *)

From S2P Require Import Prelude EventBase MemBufHeap MemGeometry MemBufSet MemBufAllocator AllocInvariant AllocSteps AllocFree AllocMalloc AllocMaint MemStat PoolDevice MemPool PoolInvariant PoolEvents PoolSync PoolAlloc.
Import MemPool.

Section operations.
Context {D : Type} `{DeviceMem D} (dev_ok : D → gmap ptr (Z * Z) → Prop).
Context `{!DeviceMemLaws D dev_ok, !IterOrder}.
Implicit Types (p : Pool D).
Abbreviation pool_inv := (pool_inv dev_ok).

Lemma FreeTensorMem_spec addr p :
  pool_inv p → locked p = false →
  wp (FreeTensorMem addr) p (λ _ p', pool_inv p' ∧ locked p' = false ∧ drift p' = drift p ∧
    match addr_mem_buf_allocators_ p !! addr with
    | None => used_map p' = used_map p
    | Some (q, _) => ∃ b, used_map p !! q = Some b ∧ mb_addr b = addr ∧
        used_map p' = put_opt q (if EventBase.IsEventNotUsed (mb_events b) then None
                                 else Some (set_status kMemBufUsedByEvent b)) (used_map p)
    end).
Proof.
  intros Hi Hl. apply wp_with_lock; [done|]. apply wp_bind.
  pose proof (pool_inv_locked dev_ok p true Hi) as [Hc Hb Ht].
  eapply wp_mono; [by apply DoFreeTensorMem_spec|].
  intros r p' (Hc' & Hb' & Hfr & Hres). apply wp_ret. unfold free_result in Hres.
  change (addr_mem_buf_allocators_ (set_locked true p)) with (addr_mem_buf_allocators_ p) in Hres.
  destruct (addr_mem_buf_allocators_ p !! addr) as [[q id]|] eqn:Haddr.
  2: { destruct Hres as [_ ->]. split_and!; try done. by apply pool_inv_locked, pool_inv_locked. }
  destruct Hres as (b & Hq & He & Hcase).
  change (used_map (set_locked true p)) with (used_map p) in *.
  set (o := if EventBase.IsEventNotUsed (mb_events b) then None
            else Some (set_status kMemBufUsedByEvent b)).
  assert (used_map p' = put_opt q o (used_map p)) as HU.
  { unfold o, has_events in *. destruct Hcase as [(Hev & _ & ->)|(Hev & _ & ->)].
    - by rewrite Hev.
    - by destruct (EventBase.IsEventNotUsed (mb_events b)). }
  change (stream_pair_mem_bufs_ (set_locked true p)) with (stream_pair_mem_bufs_ p) in Ht.
  pose proof (fr_pairs _ _ Hfr) as HP.
  change (stream_pair_mem_bufs_ (set_locked true p)) with (stream_pair_mem_bufs_ p) in HP.
  split_and!; [|done| |by exists b].
  - apply pool_inv_locked. split; [done..|]. rewrite HU, HP. unfold o.
    destruct (tr_bufs _ _ Ht _ _ Hq) as [Hall Hkey Hst Hok].
    destruct (EventBase.IsEventNotUsed (mb_events b)) eqn:Hev; simpl.
    + apply (tracked_delete _ (stream_pair_mem_bufs_ p)); [done|]. intros key x.
      split; [|by intros [? _]]. intros Hx. split; [done|]. intros ->.
      destruct (Hkey key Hx) as [Hx' _]. unfold has_events in Hx'. congruence.
    + apply (tracked_update _ (stream_pair_mem_bufs_ p)); [done|done| |].
      * by split.
      * intros key key'. apply (tr_single _ _ Ht key key' q).
  - unfold drift. change (stat_by_event (set_locked false p')) with (stat_by_event p').
    rewrite (freeing_by_event _ _ Hfr).
    change (used_map (set_locked false p')) with (used_map p').
    rewrite HU, (by_event_put q b) by done. do 2 f_equal. unfold o, event_bytes.
    destruct (EventBase.IsEventNotUsed (mb_events b)) eqn:Hev; simpl; [lia|]. rewrite Hev. lia.
Qed.

Lemma DefragMemory_spec p :
  pool_inv p → locked p = false →
  wp DefragMemory p (λ _ p', pool_inv p' ∧ locked p' = false ∧ used_map p' = used_map p ∧
    drift p' = drift p).
Proof.
  intros Hi Hl. apply wp_with_lock; [done|].
  pose proof (pool_inv_locked dev_ok p true Hi) as Hi1.
  apply (wp_mono _ _ (λ _ p', maintains dev_ok (set_locked true p) p')).
  2: { intros [] p' Hm. split_and!; [|done|apply Hm|exact (maintains_drift dev_ok (set_locked true p) p' Hm)].
       apply pool_inv_locked. by apply (maintains_inv dev_ok (set_locked true p)). }
  apply wp_bind, wp_gets.
  destruct (negb _); [apply wp_ret, maintains_refl|].
  destruct (_ =? 0); [apply wp_ret, maintains_refl|].
  destruct (_ =? _); [apply wp_ret, maintains_refl|].
  apply wp_bind. eapply wp_mono; [by apply (SyncAllStreams_spec dev_ok)|].
  intros synced p1 H1. destruct synced; simpl; [|by apply wp_ret].
  apply wp_bind. eapply wp_mono.
  - apply (FreeIdleMemsByEagerFree_pool_spec dev_ok). by apply (mt_core _ _ _ H1), (pi_core _ _ Hi1).
  - intros r p2 H2. apply wp_modify. pose proof (maintains_trans _ _ _ _ H1 H2) as H12.
    apply (maintains_trans _ _ p2); [done|]. split; try done. intros Hc.
    apply (core_ext dev_ok p2); try done. exact (en_units _ _ _ _ (co_env _ _ Hc)).
Qed.

(** ** Release *)

(** Nothing is held by a tiny allocator: [ReleaseDeviceRes] does not release it. *)
Definition no_tiny p : Prop := tiny_allocator_ p = None.

Lemma wp_delete_used (l : list (Z * (ptr * AllocId))) p (Q : unit → Pool D → Prop) :
  NoDup (l.*2.*1) → (∀ q, q ∈ l.*2.*1 → is_Some (bufs (p_mem p) !! q)) →
  Q () (set_mem (with_bufs (remove_all (l.*2.*1) (bufs (p_mem p))) (p_mem p)) p) →
  wp (forM l (λ _ entry, delete_buf entry.2.1) ()) p Q.
Proof.
  revert p. induction l as [|[addr [q id]] l IH]; intros p Hnd Hlive HQ; simpl in *.
  - apply wp_ret. rewrite remove_all_nil in HQ. by destruct p as [[] ? ? ? ? ? ? ? ?].
  - apply NoDup_cons in Hnd as [Hq Hnd]. apply wp_bind, wp_delete_buf; [apply Hlive; left|].
    apply IH; [done| |].
    + intros q' Hq'. simpl. rewrite lookup_delete_ne by set_solver. apply Hlive. by right.
    + rewrite remove_all_cons in HQ. exact HQ.
Qed.

Definition allocs_at p (rest : list (bool * Z)) (f : Allocator → list ptr) (x : ptr) : Prop :=
  ∃ key a, key ∈ rest ∧ stream_id_allocators_ p !! key = Some a ∧ x ∈ f a.

(** The release of the allocators [rest] of [p0] is still to come. *)
Record releasing p0 (rest : list (bool * Z)) p : Prop := {
  re_allocs : ∀ key, key ∈ rest →
    stream_id_allocators_ p !! key = stream_id_allocators_ p0 !! key;
  re_env : ∃ f, env_ok dev_ok f (p_env p) (blks (p_mem p));
  re_bufs : ∀ x b, bufs (p_mem p) !! x = Some b ↔
    bufs (p_mem p0) !! x = Some b ∧ allocs_at p0 rest owned_bufs x;
  re_blks : ∀ k b, blks (p_mem p) !! k = Some b ↔
    blks (p_mem p0) !! k = Some b ∧ allocs_at p0 rest mem_blocks_ k;
  re_addrs : addr_mem_buf_allocators_ p = ∅;
  re_locked : locked p = true
}.

Lemma allocs_at_cons p key a rest f x : stream_id_allocators_ p !! key = Some a →
  allocs_at p (key :: rest) f x ↔ x ∈ f a ∨ allocs_at p rest f x.
Proof.
  intros Ha. split.
  - intros (key' & a' & [->|Hin]%elem_of_cons & Ha' & Hx); [left; by simplify_eq|right].
    by exists key', a'.
  - intros [Hx|(key' & a' & Hin & Ha' & Hx)].
    + exists key, a. split_and!; [left|done|done].
    + exists key', a'. split_and!; [by right|done|done].
Qed.

Lemma owned_buf p a key x : core dev_ok p → stream_id_allocators_ p !! key = Some a →
  x ∈ owned_bufs a → ∃ b, bufs (p_mem p) !! x = Some b ∧ mb_mem_block b ∈ mem_blocks_ a.
Proof.
  intros Hc Ha Hx. destruct (co_alloc _ _ Hc (Some key) a Ha) as [_ _ Hi He _].
  unfold owned_bufs in Hx. apply elem_of_app in Hx as [Hx|Hx].
  - apply (se_members _ _ _ _ _ Hi) in Hx as (_ & b & ? & _ & ?). by exists b.
  - apply (se_members _ _ _ _ _ He) in Hx as (_ & b & ? & _ & ?). by exists b.
Qed.

(** What belongs to one allocator belongs to no other. *)
Lemma allocs_at_other p key a rest f x : core dev_ok p → key ∉ rest →
  stream_id_allocators_ p !! key = Some a → (f = owned_bufs ∨ f = mem_blocks_) →
  allocs_at p rest f x → x ∉ f a.
Proof.
  intros Hc Hnk Ha Hf (key' & a' & Hin & Ha' & Hx') Hx.
  assert (Some key ≠ Some key') as Hne by congruence. apply Hne.
  destruct Hf as [-> | ->].
  - destruct (owned_buf p a key x Hc Ha Hx) as (b & Hb & Hk).
    destruct (owned_buf p a' key' x Hc Ha' Hx') as (b' & Hb' & Hk'). simplify_eq.
    apply (co_part _ _ Hc _ _ (mb_mem_block b)); [by exists a|by exists a'].
  - apply (co_part _ _ Hc _ _ x); [by exists a|by exists a'].
Qed.

Lemma release_one p0 key rest p :
  core dev_ok p0 → key ∉ rest → is_Some (stream_id_allocators_ p0 !! key) →
  releasing p0 (key :: rest) p →
  wp (with_allocator (Some key) (MemBufAllocator.ReleaseDeviceRes (callbacks_of (Some key)))) p
    (λ _ p', releasing p0 rest p').
Proof.
  intros Hc Hnk [a Ha] [Hal [f He] Hb Hk HA Hl].
  assert (get_allocator (Some key) p = Some a) as Hg by (simpl; rewrite Hal by left; done).
  assert (owns (enter p a)) as Howns.
  { pose proof (alloc_ok_owns (enter p0 a) (co_alloc _ _ Hc (Some key) a Ha)) as [O1 O2 O3 O4].
    split; simpl in *; [done| |done|].
    - intros k Hin. destruct (O2 k Hin) as [b Hkb]. exists b. apply Hk. split; [done|].
      apply (allocs_at_cons _ key a); [done|by left].
    - intros x Hin. destruct (O4 x Hin) as [b Hxb]. exists b. apply Hb. split; [done|].
      apply (allocs_at_cons _ key a); [done|by left]. }
  eapply wp_with_allocator; [exact Hg|]. eapply wp_mono.
  - by apply (ReleaseDeviceRes_spec (callbacks_of (Some key)) (env_ok dev_ok f)).
  - intros _ s (_ & HB & HK & _ & Hes). split.
    + intros key' Hin. simpl. rewrite lookup_insert_ne by set_solver. apply Hal. by right.
    + exists f. by rewrite leave_env, leave_mem.
    + intros x b. rewrite leave_mem, HB, lookup_remove_all. simpl.
      pose proof (allocs_at_other p0 key a rest owned_bufs x Hc Hnk Ha (or_introl eq_refl)) as Hoth.
      case_decide as Hin; [naive_solver|]. rewrite Hb, (allocs_at_cons _ key a) by done. naive_solver.
    + intros k b. rewrite leave_mem, HK, lookup_remove_all. simpl.
      pose proof (allocs_at_other p0 key a rest mem_blocks_ k Hc Hnk Ha (or_intror eq_refl)) as Hoth.
      case_decide as Hin; [naive_solver|]. rewrite Hk, (allocs_at_cons _ key a) by done. naive_solver.
    + by rewrite leave_addrs.
    + by rewrite leave_locked.
Qed.

(** Every buffer is in use or in the free sets of one allocator. *)
Lemma free_buf_owned p x b :
  core dev_ok p → no_tiny p → bufs (p_mem p) !! x = Some b → is_free (mb_status b) = true →
  allocs_at p (allocators_in_order p) owned_bufs x.
Proof.
  intros Hc Hnt Hx Hf.
  destruct (buf_range _ _ _ _ (co_mem _ _ Hc) Hx) as (_ & _ & _ & k & Hk & _).
  destruct (co_owned _ _ Hc (mb_mem_block b)) as (id & a & Ha & Hin); [by exists k|].
  destruct id as [key|]; [|simpl in Ha; unfold no_tiny in Hnt; congruence].
  exists key, a. split_and!; [by apply elem_of_allocators; exists a|done|].
  destruct (co_alloc _ _ Hc _ _ Ha) as [_ _ Hi He _]. unfold owned_bufs. apply elem_of_app.
  destruct (mb_status b) eqn:Hs; try done.
  - left. apply (se_members _ _ _ _ _ Hi). split; [done|by exists b].
  - right. apply (se_members _ _ _ _ _ He). split; [done|by exists b].
Qed.

Lemma block_owned p k : core dev_ok p → no_tiny p → is_Some (blks (p_mem p) !! k) →
  allocs_at p (allocators_in_order p) mem_blocks_ k.
Proof.
  intros Hc Hnt Hk. destruct (co_owned _ _ Hc k Hk) as (id & a & Ha & Hin).
  destruct id as [key|]; [|simpl in Ha; unfold no_tiny in Hnt; congruence].
  exists key, a. split_and!; [by apply elem_of_allocators; exists a|done..].
Qed.

(** The state when the buffers in use are deleted and the allocators are next. *)
Lemma releasing_start p l :
  pool_inv p → no_tiny p → (∀ x, x ∈ l ↔ is_Some (used_map p !! x)) →
  releasing p (allocators_in_order p)
    (set_addrs ∅ (set_mem (with_bufs (remove_all l (bufs (p_mem p))) (p_mem p)) (set_locked true p))).
Proof.
  intros [Hc Hb Ht] Hnt Hl. split; simpl; try done.
  - exists (env_frame (p_env p)). apply Hc.
  - intros x b. rewrite lookup_remove_all. case_decide as Hin.
    + split; [done|]. intros (Hx & key & a & Hkey & Ha & Hown). exfalso.
      apply Hl in Hin as [c (c' & Hx' & Hnf & _)%used_map_Some]. simplify_eq.
      destruct (co_alloc _ _ Hc (Some key) a Ha) as [_ _ Hi He _].
      unfold owned_bufs in Hown. apply elem_of_app in Hown as [Hown|Hown].
      * apply (se_members _ _ _ _ _ Hi) in Hown as (_ & d & Hd & Hs & _). simplify_eq. by rewrite Hs in Hnf.
      * apply (se_members _ _ _ _ _ He) in Hown as (_ & d & Hd & Hs & _). simplify_eq. by rewrite Hs in Hnf.
    + split; [|by intros [? _]]. intros Hx. split; [done|]. apply (free_buf_owned p x b); try done.
      destruct (is_free (mb_status b)) eqn:Hf; [done|]. destruct Hin. apply Hl. exists (strip b).
      apply used_map_Some. by exists b.
  - intros k b. split; [|by intros [? _]]. intros Hk. split; [done|].
    apply block_owned; [done..|by exists b].
Qed.

Lemma used_entries p : core dev_ok p → books p →
  NoDup ((addrs_order (addr_mem_buf_allocators_ p)).*2.*1) ∧
  ∀ x, x ∈ (addrs_order (addr_mem_buf_allocators_ p)).*2.*1 ↔ is_Some (used_map p !! x).
Proof.
  intros Hc Hb. set (A := addr_mem_buf_allocators_ p).
  assert (∀ addr q id, (addr, (q, id)) ∈ addrs_order A ↔ A !! addr = Some (q, id)) as Hin.
  { intros addr q id. rewrite addrs_order_spec. apply elem_of_map_to_list. }
  split.
  - rewrite <- list_fmap_compose. apply NoDup_fmap_2_strong.
    + intros [addr [q id]] [addr' [q' id']] H1%Hin H2%Hin. simpl. intros <-.
      destruct (books_lookup _ _ _ _ Hb H1) as (b & Hq & <- & _).
      destruct (books_lookup _ _ _ _ Hb H2) as (b' & Hq' & <- & _).
      assert (b' = b) as -> by congruence. unfold A in *. congruence.
    + rewrite addrs_order_spec. apply NoDup_map_to_list.
  - intros x. rewrite <- list_fmap_compose, list_elem_of_fmap. split.
    + intros ([addr [q id]] & -> & H1%Hin). destruct (books_lookup _ _ _ _ Hb H1) as (b & Hq & _). by exists b.
    + intros [b Hx]. destruct (books_addr dev_ok _ _ _ Hc Hb Hx) as (id & H1 & _).
      exists (mb_addr b, (x, id)). split; [done|]. by apply Hin.
Qed.

(** Everything the pool ever took from the device is given back. *)
Lemma ReleaseDeviceRes_pool_spec p :
  pool_inv p → locked p = false → no_tiny p →
  wp MemPool.ReleaseDeviceRes p (λ _ p',
    bufs (p_mem p') = ∅ ∧ blks (p_mem p') = ∅ ∧ addr_mem_buf_allocators_ p' = ∅ ∧
    stream_id_allocators_ p' = ∅ ∧ stream_pair_mem_bufs_ p' = ∅ ∧
    mem_stat_ (p_env p') = stat_Reset ∧ locked p' = false ∧ dev_ok (dev (p_env p')) ∅).
Proof.
  intros Hi Hl Hnt. apply wp_with_lock; [done|].
  pose proof (pool_inv_locked dev_ok p true Hi) as [Hc1 Hb1 _].
  apply wp_bind. eapply wp_mono; [by apply (DumpDynamicMemPoolStateInfo_spec dev_ok)|]. intros _ p1 ->.
  destruct (used_entries _ Hc1 Hb1) as [Hnd Hused].
  apply wp_bind, wp_gets. apply wp_bind. apply wp_delete_used; [done| |].
  { intros x [b (c & Hx & _)%used_map_Some]%Hused. by exists c. }
  apply wp_bind, wp_modify. apply wp_bind, wp_gets. apply wp_bind.
  pose proof (releasing_start p _ Hi Hnt Hused) as Hstart.
  match goal with |- context[allocators_in_order ?x] => change (allocators_in_order x) with (allocators_in_order p) end.
  apply (wp_forM _ _ _ _ (λ rest _ p', NoDup rest ∧ (∀ k, k ∈ rest → k ∈ allocators_in_order p) ∧ releasing p rest p')).
  - split_and!; [apply allocators_NoDup|done|exact Hstart].
  - intros key rest [] p' (Hnd' & Hsub & Hre). apply NoDup_cons in Hnd' as [Hk Hnd'].
    eapply wp_mono; [apply (release_one p key rest p')|]; try done; [apply Hi| |].
    + apply elem_of_allocators, Hsub. left.
    + intros [] p2 Hre2. split_and!; [done| |done]. intros k Hin. apply Hsub. by right.
  - intros [] p' (_ & _ & [_ [f He] Hb Hk HA _]). do 2 (apply wp_bind, wp_modify). apply wp_modify.
    assert (∀ f x, ¬ allocs_at p [] f x) as Hnone.
    { intros g x (key & a & Hin & _). by apply not_elem_of_nil in Hin. }
    assert (bufs (p_mem p') = ∅ ∧ blks (p_mem p') = ∅) as [HB HK].
    { split; apply map_empty; intros x; apply eq_None_not_Some; intros [b Hx].
      - apply Hb in Hx as [_ Hx]. by apply Hnone in Hx.
      - apply Hk in Hx as [_ Hx]. by apply Hnone in Hx. }
    split_and!; [exact HB|exact HK|exact HA|done|done|done|done|]. destruct He as [Hd _ _ _]. simpl. rewrite HK in Hd.
    unfold regions in Hd. by rewrite fmap_empty in Hd.
Qed.
End operations.
