(* ===== verification/PoolClient.v ===== *)
(** * Properties of the pool

    What a user of [AbstractDynamicMemPool] can rely on, stated on whole operations
    and on arbitrary sequences of them, each with an instance on the concrete pool
    of [PoolInvariant]'s module [BumpPool]. *)

From S2P Require Import Prelude EventBase MemBufHeap MemGeometry MemBufSet MemBufAllocator AllocInvariant AllocSteps AllocFree AllocMalloc AllocMaint MemStat PoolDevice MemPool PoolInvariant PoolEvents PoolSync PoolAlloc PoolTheorems.
Import MemPool.

(** ** Sizes *)

(** [AlignMemorySize] rounds a size up to the next multiple of 512, exactly
    and without overflow, for every size up to 2^64 - 512. *)
Theorem AlignMemorySize_bounds size :
  0 < size <= w64 - kDynamicMemAlignSize →
  AlignMemorySize size mod kDynamicMemAlignSize = 0 ∧
  size <= AlignMemorySize size < size + kDynamicMemAlignSize.
Proof. apply AlignMemorySize_range. Qed.

(** above 2^64 - 512 the addition wraps and the aligned size is 0: the
    pool then serves a request of nearly 2^64 bytes as one of no bytes. *)
Theorem AlignMemorySize_wraps size :
  w64 - kDynamicMemAlignSize < size < w64 → AlignMemorySize size = 0.
Proof.
  unfold AlignMemorySize, kDynamicMemAlignSize, w64. intros Hs.
  destruct (Z.eqb_spec size 0); [lia|]. rewrite u64_sub_l. unfold u64, w64.
  replace (size + 512 - 1) with ((size - 18446744073709551105) + 1 * 18446744073709551616) by lia.
  rewrite Z_mod_plus_full, (Z.mod_small (size - _)) by lia.
  rewrite Z.div_small by lia. done.
Qed.

(** The doubling loop of the code, with any number of rounds. *)
Lemma double_until_zero n size : 0 < size → double_until n 0 size = None.
Proof. intros Hs. induction n as [|n IH]; simpl; [done|]. destruct (Z.ltb_spec 0 size); [exact IH|lia]. Qed.


(** with the default unit of 2^30 bytes and a size above 2^63 the doubled size
    wraps to 0 and the loop never ends, however many rounds it is given. *)
Theorem CalMemBlockAllocSize_diverges size n :
  2 ^ 63 < size < w64 → double_until n kDynamicMemAllocUnitSize size = None.
Proof.
  intros Hs. change (2 ^ 63) with 9223372036854775808 in Hs. unfold w64 in Hs.
  assert (∀ k, (k <= 34)%nat → ∀ m, double_until m (2 ^ Z.of_nat (64 - k)) size = None ∨ (k = 0)%nat) as Hk.
  { induction k as [|k IH]; intros Hle m; [by right|left].
    assert (2 ^ Z.of_nat (64 - S k) <= 2 ^ 63) as Hp by (apply Z.pow_le_mono_r; lia).
    change (2 ^ 63) with 9223372036854775808 in Hp.
    destruct m as [|m]; [done|]. cbn [double_until].
    destruct (Z.ltb_spec (2 ^ Z.of_nat (64 - S k)) size); [|lia].
    assert (2 ^ Z.of_nat (64 - S k) * 2 = 2 ^ Z.of_nat (64 - k)) as He.
    { rewrite Z.mul_comm, <- Z.pow_succ_r by lia. f_equal. lia. }
    rewrite He. destruct k as [|k].
    - change (u64 (2 ^ Z.of_nat (64 - 0))) with 0. apply double_until_zero. lia.
    - rewrite u64_small.
      + destruct (IH ltac:(lia) m) as [Hn|Hn]; [exact Hn|lia].
      + split; [lia|]. rewrite w64_pow. apply Z.pow_lt_mono_r; lia. }
  destruct (Hk 34%nat ltac:(lia) n) as [Hn|Hn]; [exact Hn|lia].
Qed.

(** ** Sequences of operations *)
Module PoolClient.
Section client.
Context {D : Type} `{DeviceMem D} (dev_ok : D → gmap ptr (Z * Z) → Prop).
Context `{!DeviceMemLaws D dev_ok, !IterOrder}.
Implicit Types (p : Pool D).
Abbreviation pool_inv := (pool_inv dev_ok).

Inductive request :=
| ReqAlloc (size : Z) (from_persistent_mem : bool) (stream_id : Z)
| ReqFree (device_addr : Z)
| ReqRecord (task user : Z) (memory_stream_addresses : list (Z * Z)) (event : DeviceEventPtr)
| ReqWait (task user memory_stream : Z)
| ReqWaitAll (task memory_stream : Z)
| ReqSync
| ReqDefrag.

Definition serve (q : request) : M (Pool D) unit :=
  match q with
  | ReqAlloc size persist stream => _ ← AllocTensorMem size persist stream; mret ()
  | ReqFree addr => FreeTensorMem addr
  | ReqRecord task user entries event => _ ← MemPool.RecordEvent task user entries event; mret ()
  | ReqWait task user mstream => _ ← MemPool.WaitEvent task user mstream; mret ()
  | ReqWaitAll task mstream => _ ← WaitEvent_all task mstream; mret ()
  | ReqSync => _ ← MemPool.SyncAllEvents; mret ()
  | ReqDefrag => DefragMemory
  end.

(** What a user owes: sizes the pool can serve, and one user stream at a time for
    the events of a buffer. Freeing or waiting needs nothing. *)
Definition admissible (q : request) p : Prop :=
  match q with
  | ReqAlloc size _ _ => 0 <= size <= 2 ^ 62
  | ReqRecord _ user entries _ =>
      single_user (addr_mem_buf_allocators_ p) (stream_pair_mem_bufs_ p) user entries
  | _ => True
  end.

Inductive reachable p0 : Pool D → Prop :=
| reach_start : reachable p0 p0
| reach_step q p p' :
    reachable p0 p → admissible q p → serve q p = Ret () p' → reachable p0 p'.

(** Between two operations: the invariant, and the lock is free. *)
Definition resting p : Prop := pool_inv p ∧ locked p = false.

Lemma align_admissible size : 0 <= size <= 2 ^ 62 → 0 < AlignMemorySize size <= 2 ^ 63.
Proof.
  change (2 ^ 62) with 4611686018427387904. change (2 ^ 63) with 9223372036854775808. intros Hs.
  destruct (decide (size = 0)) as [->|]; [done|].
  pose proof (AlignMemorySize_range size) as Hb. unfold kDynamicMemAlignSize, w64 in Hb. lia.
Qed.

(** Requests that neither allocate nor synchronise everything: these account for
    the bytes held by events exactly. *)
Definition exact_events (q : request) : bool :=
  match q with ReqAlloc _ _ _ | ReqSync => false | _ => true end.

Lemma pool_serve_spec q p :
  resting p → admissible q p →
  wp (serve q) p (λ _ p', resting p' ∧ (exact_events q = true → drift p' = drift p)).
Proof.
  intros [Hi Hl] Hq. destruct q as [size persist stream|addr|task user entries event|task user m|task m| |];
    simpl in *.
  - apply wp_bind. eapply wp_mono; [by apply (AllocTensorMem_spec dev_ok), align_admissible|].
    intros r p' (? & ? & _). by apply wp_ret.
  - eapply wp_mono; [by apply (FreeTensorMem_spec dev_ok)|]. by intros r p' (? & ? & ? & _).
  - apply wp_bind. eapply wp_mono; [by apply (RecordEvent_spec dev_ok)|].
    intros r p' (_ & ? & He & ? & _). apply wp_ret. split; [|done]. split; [done|by rewrite (ev_locked _ _ He)].
  - apply wp_bind. eapply wp_mono; [by apply (WaitEvent_spec dev_ok)|].
    intros r p' (? & He & ? & _). apply wp_ret. split; [|done]. split; [done|by rewrite (ev_locked _ _ He)].
  - apply wp_bind. eapply wp_mono; [by apply (WaitEvent_all_spec dev_ok)|].
    intros r p' (_ & ? & He & ? & _). apply wp_ret. split; [|done]. split; [done|by rewrite (ev_locked _ _ He)].
  - apply wp_bind. eapply wp_mono; [by apply (SyncAllEvents_pool_spec dev_ok)|].
    intros r p' (? & He & _). apply wp_ret. split; [|done]. split; [done|by rewrite (ev_locked _ _ He)].
  - eapply wp_mono; [by apply (DefragMemory_spec dev_ok)|]. by intros r p' (? & ? & _ & ?).
Qed.

Lemma reachable_resting p0 p : resting p0 → reachable p0 p → resting p.
Proof.
  intros Hstart Hr. induction Hr as [|q p p' _ IH Hq Hs]; [done|].
  pose proof (pool_serve_spec q p IH Hq) as Hwp. by apply (wp_value _ _ _ _ _ Hs) in Hwp as [? _].
Qed.

(** C33: whatever sequence of admissible requests a pool has served, every address it
    maps names one buffer in use, no two buffers in use overlap, and every further
    admissible request returns: there is no dangling pointer, no double free, no
    block owned by two allocators, and the lock is never taken twice. *)
Theorem pool_never_stuck p0 p :
  resting p0 → reachable p0 p →
  resting p ∧
  (∀ a q id, addr_mem_buf_allocators_ p !! a = Some (q, id) →
     ∃ b, used_map p !! q = Some b ∧ mb_addr b = a) ∧
  (∀ q q' b b', used_map p !! q = Some b → used_map p !! q' = Some b' → q ≠ q' →
     disjoint_range (mb_addr b) (mb_size b) (mb_addr b') (mb_size b')) ∧
  (∀ q, admissible q p → ∃ p', serve q p = Ret () p').
Proof.
  intros Hstart Hr. pose proof (reachable_resting _ _ Hstart Hr) as Hok. destruct Hok as [[Hc Hb Ht] Hl] eqn:He.
  split_and!; [done| | |].
  - intros a q id (b & ? & ? & _)%(books_lookup _ _ _ _ Hb). by exists b.
  - intros q q' b b'. apply (inuse_disjoint None), Hc.
  - intros q Hq. destruct (wp_inv _ _ _ (pool_serve_spec q p Hok Hq)) as ([] & p' & ? & _). by exists p'.
Qed.


(** C35: [FreeTensorMem] of an address in use releases exactly that buffer, or, when
    events are pending on it, only marks it; an unknown address is ignored. *)
Theorem FreeTensorMem_releases addr p :
  resting p →
  ∃ p', FreeTensorMem addr p = Ret () p' ∧ resting p' ∧
    match addr_mem_buf_allocators_ p !! addr with
    | None => used_map p' = used_map p
    | Some (q, _) => ∃ b, used_map p !! q = Some b ∧ mb_addr b = addr ∧
        used_map p' = if EventBase.IsEventNotUsed (mb_events b) then delete q (used_map p)
                      else <[q := set_status kMemBufUsedByEvent b]> (used_map p)
    end.
Proof.
  intros [Hi Hl]. destruct (wp_inv _ _ _ (FreeTensorMem_spec dev_ok addr p Hi Hl))
    as ([] & p' & Hr & Hi' & Hl' & _ & Hres).
  exists p'. split_and!; try done. destruct (addr_mem_buf_allocators_ p !! addr) as [[q id]|]; [|done].
  destruct Hres as (b & Hq & He & ->). exists b. split_and!; try done.
  by destruct (EventBase.IsEventNotUsed (mb_events b)).
Qed.

(** waiting for a task of a user stream pops, on each buffer recorded for the
    pair of streams, the events at or before the task; a buffer already freed goes
    back to its allocator with its last event; all other buffers are untouched. *)
Theorem WaitEvent_hands_back task user mstream p :
  resting p →
  ∃ r p', MemPool.WaitEvent task user mstream p = Ret r p' ∧ resting p' ∧
    used_map p' = wait_set task user (default ∅ (stream_pair_mem_bufs_ p !! (user, mstream)))
      (used_map p).
Proof.
  intros [Hi Hl]. destruct (wp_inv _ _ _ (WaitEvent_spec dev_ok task user mstream p Hi Hl))
    as (r & p' & Hr & Hi' & He & _ & _ & HU).
  exists r, p'. split_and!; try done. split; [done|]. by rewrite (ev_locked _ _ He).
Qed.


(** recording, waiting, freeing and defragmenting keep [used_by_event_size_] in
    step with the bytes of the buffers that have pending events: the difference
    between the two never changes. *)
Theorem event_bytes_conserved q p :
  resting p → admissible q p → exact_events q = true →
  ∃ p', serve q p = Ret () p' ∧
    u64 (used_by_event_size_ (mem_stat_ (p_env p')) - by_event_size (used_map p')) =
    u64 (used_by_event_size_ (mem_stat_ (p_env p)) - by_event_size (used_map p)).
Proof.
  intros Hok Hq He. destruct (wp_inv _ _ _ (pool_serve_spec q p Hok Hq)) as ([] & p' & Hr & _ & Hd).
  exists p'. split; [done|by apply Hd].
Qed.

(** Bytes of the buffers that are idle or eager-free. *)
Definition free_bytes p : Z :=
  msum (λ b, if is_free (mb_status b) then mb_size b else 0) (bufs (p_mem p)).

(** All the bytes of the blocks are in use or free. *)
Lemma total_bytes p : core dev_ok p →
  msum blk_size (blks (p_mem p)) = msum mb_size (used_map p) + free_bytes p.
Proof.
  intros Hc. set (ks := (map_to_list (blks (p_mem p))).*1).
  assert (∀ k, k ∈ ks ↔ is_Some (blks (p_mem p) !! k)) as Hks.
  { intros k. unfold ks. rewrite list_elem_of_fmap. split.
    - intros ([k' b] & -> & Hk%elem_of_map_to_list). by exists b.
    - intros [b Hk]. exists (k, b). split; [done|]. by apply elem_of_map_to_list. }
  assert (∀ q b, bufs (p_mem p) !! q = Some b → in_blocks ks b = true) as Hin.
  { intros q b Hq. apply bool_decide_eq_true, Hks.
    destruct (buf_range _ _ _ _ (co_mem _ _ Hc) Hq) as (_ & _ & _ & k & Hk & _). by exists k. }
  pose proof (accounting (tiny_callbacks (D := D)) (env_ok dev_ok (env_frame (p_env p))) None (p_mem p) ks (co_mem _ _ Hc)) as Hacc.
  assert (NoDup ks) as Hnd by apply NoDup_fst_map_to_list.
  specialize (Hacc Hnd (λ k, proj1 (Hks k))).
  assert (blocks_size ks (blks (p_mem p)) = msum blk_size (blks (p_mem p))) as <-.
  { unfold blocks_size. rewrite (msum_list (λ _, true)); [done..|].
    intros k. rewrite Hks. split; [intros [b ?]; by exists b|intros (b & ? & _); by exists b]. }
  rewrite Hacc. unfold kind_size, used_size, free_bytes, used_map, inuse, labels.
  rewrite msum_omap, msum_fmap, <- !msum_plus. apply msum_ext. intros q b Hq.
  rewrite (Hin q b Hq). unfold MemBufAllocator.status_eqb. simpl.
  destruct (mb_status b); simpl; lia.
Qed.

(** The figures of a pool between two operations. *)
Lemma resting_statistics p :
  resting p →
  TotalUsedMemStatistics p = u64 (msum mb_size (used_map p)) ∧
  TotalIdleMemStatistics p = u64 (free_bytes p) ∧
  TotalMemStatistics p = u64 (msum blk_size (blks (p_mem p))).
Proof.
  intros [[Hc Hb _] _]. pose proof (bo_used _ Hb) as Hu. pose proof (en_alloc _ _ _ _ (co_env _ _ Hc)) as Ha.
  unfold TotalUsedMemStatistics, TotalIdleMemStatistics, TotalMemStatistics, stat_of, IdleSize.
  rewrite Hu, Ha. split_and!; try done. rewrite u64_sub_words. f_equal. pose proof (total_bytes p Hc). lia.
Qed.

(** [ReleaseDeviceRes] of a pool without a tiny allocator deletes every buffer
    and block once, gives every region back to the device and clears the books. *)
Theorem ReleaseDeviceRes_releases_everything p :
  resting p → tiny_allocator_ p = None →
  ∃ p', MemPool.ReleaseDeviceRes p = Ret () p' ∧
    bufs (p_mem p') = ∅ ∧ blks (p_mem p') = ∅ ∧ dev_ok (dev (p_env p')) ∅ ∧
    addr_mem_buf_allocators_ p' = ∅ ∧ stream_id_allocators_ p' = ∅ ∧
    stream_pair_mem_bufs_ p' = ∅ ∧ mem_stat_ (p_env p') = stat_Reset ∧ locked p' = false.
Proof.
  intros [Hi Hl] Ht. destruct (wp_inv _ _ _ (ReleaseDeviceRes_pool_spec dev_ok p Hi Hl Ht))
    as ([] & p' & Hr & ? & ? & ? & ? & ? & ? & ? & ?).
  exists p'. by split_and!.
Qed.
End client.
End PoolClient.

(** ** A pool that was just made *)

Lemma new_pool_resting {D} `{DeviceMem D} (dev_ok : D → gmap ptr (Z * Z) → Prop) tiny (e : Env D) :
  dev_ok (dev e) ∅ → units_ok e → mem_stat_ e = stat_Reset →
  PoolClient.resting dev_ok (new_Pool tiny e).
Proof.
  intros Hd Hu Hs. set (p := new_Pool tiny e).
  assert (∀ id a, get_allocator id p = Some a → a = new_Allocator false false 0) as Hget.
  { intros [key|] a; simpl; [by rewrite lookup_empty|]. destruct tiny; [|done]. by intros [= <-]. }
  assert (∀ id k, ¬ owner p id k) as Hno.
  { intros id k (a & ->%Hget & Hk). by apply not_elem_of_nil in Hk. }
  assert (used_map p = ∅) as HU by reflexivity.
  split; [|done]. split.
  - split; simpl.
    + apply mem_ok_empty.
    + split; simpl; try done. by rewrite Hs.
    + intros id a ->%Hget. by apply alloc_ok_empty.
    + by intros id id' k Hk%Hno.
    + intros k [b Hk]. by rewrite lookup_empty in Hk.
  - split.
    + intros addr q id. rewrite HU. simpl. rewrite lookup_empty. split; [done|].
      intros (b & Hb & _). by rewrite lookup_empty in Hb.
    + rewrite HU. simpl. by rewrite Hs, msum_empty.
  - rewrite HU. simpl. split.
    + intros q b Hq. by rewrite lookup_empty in Hq.
    + intros key q (S & HS & _). by rewrite lookup_empty in HS.
    + intros key key' q (S & HS & _). by rewrite lookup_empty in HS.
Qed.

(** C36: After any sequence of admissible requests to a new pool whose block
    units are words other than 0 (allocations, releases,
    events recorded, waited for and synchronised, defragmentation, failures of the
    device included) the used figure of the statistics is the number of bytes of the
    buffers handed out, the idle figure the number of bytes of the other buffers, and
    the total figure the number of bytes of the blocks (as 64-bit words). *)
Theorem statistics_exact {D} `{DeviceMem D} (dev_ok : D → gmap ptr (Z * Z) → Prop)
    `{!DeviceMemLaws D dev_ok, !IterOrder} tiny (e : Env D) p :
  dev_ok (dev e) ∅ → units_ok e → mem_stat_ e = stat_Reset →
  PoolClient.reachable (new_Pool tiny e) p →
  TotalUsedMemStatistics p = u64 (msum mb_size (used_map p)) ∧
  TotalIdleMemStatistics p = u64 (PoolClient.free_bytes p) ∧
  TotalMemStatistics p = u64 (msum blk_size (blks (p_mem p))).
Proof.
  intros Hd Hu Hs Hr. apply (PoolClient.resting_statistics dev_ok).
  eapply (PoolClient.reachable_resting dev_ok); [by apply new_pool_resting|exact Hr].
Qed.

(** ** Instances on the concrete pool *)
Module PoolWitnesses.
Import BumpPool PoolClient.

Lemma env0_ok : dev_ok (dev env0) ∅.
Proof. split; [done|]. intros k a n Hk. by rewrite lookup_empty in Hk. Qed.

Lemma pool0_resting : resting dev_ok pool0.
Proof. by apply new_pool_resting; [apply env0_ok| |]. Qed.

Lemma after_resting q p : resting dev_ok p → admissible q p → resting dev_ok (after (serve q) p).
Proof.
  intros Hp Hq. destruct (wp_inv _ _ _ (pool_serve_spec dev_ok q p Hp Hq)) as ([] & p' & Hr & Hp' & _).
  unfold after. by rewrite Hr.
Qed.

(** A buffer of 1024 bytes at address 4096 is in use. *)
Definition pool1 : Pool device := after (serve (ReqAlloc 1000 false 0)) pool0.
Lemma pool1_resting : resting dev_ok pool1.
Proof. apply after_resting; [apply pool0_resting|]. simpl. lia. Qed.

(** User stream 7 has an event on it. *)
Definition record1 : request := ReqRecord 1 7 [(0, 4096)] 1%positive.
Lemma record1_admissible : admissible record1 pool1.
Proof.
  split.
  - intros m addr q id key _ _ (S & HS & _). vm_compute in HS. done.
  - intros m m' addr Hm%list_elem_of_singleton Hm'%list_elem_of_singleton. by simplify_eq.
Qed.
Definition pool2 : Pool device := after (serve record1) pool1.
Lemma pool2_resting : resting dev_ok pool2.
Proof. apply after_resting; [apply pool1_resting|apply record1_admissible]. Qed.

Lemma AlignMemorySize_bounds_witness : 1000 <= AlignMemorySize 1000 < 1512.
Proof. apply (AlignMemorySize_bounds 1000). done. Defined.

Lemma AlignMemorySize_wraps_witness : AlignMemorySize (w64 - 1) = 0.
Proof. apply (AlignMemorySize_wraps (w64 - 1)). done. Defined.


Lemma CalMemBlockAllocSize_diverges_witness :
  double_until 1000 kDynamicMemAllocUnitSize (w64 - 512) = None.
Proof. apply (CalMemBlockAllocSize_diverges (w64 - 512) 1000). done. Defined.

Lemma pool_never_stuck_witness : ∃ p', serve (ReqWait 1 7 0) pool2 = Ret () p'.
Proof.
  apply (pool_never_stuck dev_ok pool1 pool2); [apply pool1_resting| |exact I].
  eapply (reach_step _ record1); [apply reach_start|apply record1_admissible|vm_compute; reflexivity].
Defined.


Lemma FreeTensorMem_releases_witness : ∃ p', FreeTensorMem 4096 pool1 = Ret () p' ∧
  resting dev_ok p'.
Proof.
  destruct (FreeTensorMem_releases dev_ok 4096 pool1 pool1_resting) as (p' & Hr & Hp & _).
  exists p'. exact (conj Hr Hp).
Defined.

Lemma WaitEvent_hands_back_witness : ∃ r p', MemPool.WaitEvent 1 7 0 pool2 = Ret r p' ∧
  used_map p' = wait_set 1 7 (default ∅ (stream_pair_mem_bufs_ pool2 !! (7, 0))) (used_map pool2).
Proof.
  destruct (WaitEvent_hands_back dev_ok 1 7 0 pool2 pool2_resting) as (r & p' & Hr & _ & HU).
  exists r, p'. exact (conj Hr HU).
Defined.


Lemma event_bytes_conserved_witness : ∃ p', serve (ReqFree 4096) pool2 = Ret () p' ∧
  u64 (used_by_event_size_ (mem_stat_ (p_env p')) - by_event_size (used_map p')) = 0.
Proof.
  destruct (event_bytes_conserved dev_ok (ReqFree 4096) pool2 pool2_resting I eq_refl)
    as (p' & Hr & Hd). exists p'. split; [exact Hr|]. rewrite Hd. vm_compute. reflexivity.
Defined.

Lemma pool2_reachable : reachable pool0 pool2.
Proof.
  eapply (reach_step _ record1);
    [eapply (reach_step _ (ReqAlloc 1000 false 0)); [apply reach_start|by split|vm_compute; reflexivity]
    |apply record1_admissible|vm_compute; reflexivity].
Qed.

Lemma statistics_exact_witness : TotalUsedMemStatistics pool2 = 1024 ∧
  TotalIdleMemStatistics pool2 = 1047552.
Proof.
  destruct (statistics_exact dev_ok false env0 pool2) as (Hu & Hi & _);
    [apply env0_ok|done|done|apply pool2_reachable|].
  rewrite Hu, Hi. vm_compute. exact (conj eq_refl eq_refl).
Defined.

Lemma ReleaseDeviceRes_releases_everything_witness : ∃ p',
  MemPool.ReleaseDeviceRes pool2 = Ret () p' ∧ bufs (p_mem p') = ∅.
Proof.
  destruct (ReleaseDeviceRes_releases_everything dev_ok pool2 pool2_resting ltac:(vm_compute; reflexivity))
    as (p' & Hr & Hb & _). exists p'. exact (conj Hr Hb).
Defined.

(** ** What happens outside the discipline *)

(** A buffer used by two streams at a time: waiting on both streams leaves a
    pointer to it in the set of the first, freeing it then merges it away, and the
    next wait on the first stream dereferences the deleted object. *)
Example two_user_streams_dangle :
  let scenario : M (Pool device) bool :=
    a ← AllocTensorMem 1000 false 0;
    b ← AllocTensorMem 1000 false 0;
    _ ← MemPool.RecordEvent 1 7 [(0, b)] 1%positive;
    _ ← MemPool.RecordEvent 1 8 [(0, b)] 2%positive;
    _ ← MemPool.WaitEvent 1 7 0;
    _ ← MemPool.WaitEvent 1 8 0;
    FreeTensorMem b;;
    FreeTensorMem a;;
    MemPool.WaitEvent 1 7 0 in
  scenario pool0 = Undef.
Proof. vm_compute. reflexivity. Qed.

(** [SyncAllEvents] clears the events but not the bytes counted for them: the
    statistics keep reporting 1024 bytes held by events when there is no event. *)
Example SyncAllEvents_keeps_count :
  let p := after (serve ReqSync) pool2 in
  TotalUsedByEventMemStatistics p = 1024 ∧ by_event_size (used_map p) = 0.
Proof. vm_compute. done. Qed.

(** three pieces of 100, 200 and 300 bytes allocated contiguously: the block of
    1024 bytes is counted as in use, the pieces add up to 600, and releasing all of
    them leaves 424 bytes counted as in use for ever. *)
Example AllocContinuous_loses_tail :
  let scenario : M (Pool device) Z :=
    l ← AllocContinuousTensorMem [100; 200; 300] 0;
    forM l (λ _ a, FreeTensorMem a) ();;
    p ← get_pool;
    mret (TotalUsedMemStatistics p) in
  result scenario pool0 = Some 424.
Proof. vm_compute. reflexivity. Qed.
End PoolWitnesses.
