(* ===== verification/Report.v ===== *)
(** * Reports of the pool

    [JsonBuilder], the [ToJson] functions built with it, [DumpDebugInfo], and the
    time events of [AbstractEnhancedDynamicMemPool]. A text is a [string]; what the
    stream operators print is written out for the types the code prints. *)

From stdpp Require Import pretty.
From S2P Require Import Prelude EventBase MemBufHeap MemGeometry MemBufSet MemBufAllocator MemStat PoolDevice.

Open Scope string_scope.

(** ** What [operator<<] prints *)

Definition quote : string := String (Ascii.ascii_of_nat 34) EmptyString.
Definition newline : string := String (Ascii.ascii_of_nat 10) EmptyString.
Definition tab : string := String (Ascii.ascii_of_nat 9) EmptyString.

(** An integer in decimal. *)
Definition show_int (z : Z) : string := pretty z.
(** [bool] prints as 0 or 1. *)
Definition show_bool (b : bool) : string := if b then "1" else "0".
(** [uint8_t] is a character type: the byte itself is printed. *)
Definition show_uint8 (z : Z) : string := String (Ascii.ascii_of_N (Z.to_N (z mod 256))) EmptyString.

Definition hex_digit (z : Z) : string :=
  match String.get (Z.to_nat z) "0123456789abcdef" with
  | Some c => String c EmptyString
  | None => EmptyString
  end.
(** 64 bits are 16 hexadecimal digits. *)
Fixpoint show_hex (fuel : nat) (z : Z) : string :=
  match fuel with
  | O => EmptyString
  | S fuel' => (if (z <? 16)%Z then EmptyString else show_hex fuel' (z / 16)) +:+ hex_digit (z mod 16)
  end.
(** A pointer prints in hexadecimal, the null pointer as 0. *)
Definition show_ptr (z : Z) : string := if (z =? 0)%Z then "0" else "0x" +:+ show_hex 16 z.

(** ** [JsonBuilder] *)

Definition JsonBuilder : Type := string.
Definition new_JsonBuilder : JsonBuilder := "{".

Definition Append (key value : string) (buffer_ : JsonBuilder) : JsonBuilder :=
  buffer_ +:+ quote +:+ key +:+ quote +:+ ":" +:+ value +:+ ",".

(** [seekp(-1, cur)] and a write: the last character is overwritten. *)
Fixpoint overwrite_last (c : Ascii.ascii) (s : string) : string :=
  match s with
  | EmptyString => EmptyString
  | String _ EmptyString => String c EmptyString
  | String d s' => String d (overwrite_last c s')
  end.
Definition ToString (buffer_ : JsonBuilder) : string := overwrite_last (Ascii.ascii_of_nat 125) buffer_.

Definition json_object (fields : list (string * string)) : string :=
  ToString (foldl (λ b f, Append f.1 f.2 b) new_JsonBuilder fields).

Definition MemBuf_ToJson (b : MemBuf) : string :=
  json_object [("addr_", show_ptr (mb_addr b)); ("size_", show_int (mb_size b));
    ("stream_id_", show_int (mb_stream_id b));
    ("status_", DynamicMemBufStatusToString (mb_status b));
    ("owner_name_", mb_owner_name b); ("alloc_type_", AllocatorTypeToString (mb_alloc_type b))].

Definition MemBlock_ToJson (k : MemBlock) : string :=
  json_object [("addr_", show_ptr (blk_addr k)); ("size_", show_int (blk_size k));
    ("stream_id_", show_int (blk_stream_id k));
    ("min_addr_", show_ptr (blk_min_addr k)); ("max_addr_", show_ptr (blk_max_addr k))].

Definition MemStat_ToJson (m : MemStat) : string :=
  json_object [("used_size_", show_int (used_size_ m)); ("peak_size_", show_int (peak_size_ m));
    ("alloc_size_", show_int (alloc_size_ m)); ("idle_size_", show_int (IdleSize m));
    ("used_by_event_size_", show_int (used_by_event_size_ m));
    ("eager_free_size_", show_int (eager_free_size_ m))].

Definition BriefInfo (a : Allocator) : string :=
  "Mem buf allocator, is persistent : " +:+ show_bool (is_persistent_ a) +:+ ", stream id : "
    +:+ show_int (stream_id_ a) +:+ ".".

Section dump.
Context {E : Type}.
Abbreviation MA := (M (AState E)).

(** Two tabs, the text of an object, a newline. *)
Definition dump_line (text : string) : string := tab +:+ tab +:+ text +:+ newline.
Definition dump_count (title : string) (n : nat) : string :=
  tab +:+ title +:+ show_int (Z.of_nat n) +:+ newline.

Definition dump_bufs (ss : string) (l : list ptr) : MA string :=
  forM l (λ ss p, b ← load p; mret (ss +:+ dump_line (MemBuf_ToJson b))) ss.

Definition DumpDebugInfo : MA string :=
  a ← gets a_al;
  let ss := "Dump debug info for " +:+ BriefInfo a +:+ newline in
  let ss := ss +:+ dump_count "Mem block info - total count : " (length (mem_blocks_ a)) in
  ss ← forM (mem_blocks_ a) (λ ss k, b ← load_blk k; mret (ss +:+ dump_line (MemBlock_ToJson b))) ss;
  ss ← dump_bufs (ss +:+ dump_count "Free mem buf info - total count : "
                    (length (free_mem_bufs_ a))) (free_mem_bufs_ a);
  dump_bufs (ss +:+ dump_count "Eager free mem buf info - total count : "
                (length (eager_free_mem_bufs_ a))) (eager_free_mem_bufs_ a).
End dump.

(** ** Time events *)

(** [DynamicMemAllocatorDebugInfo]: the thread's debug information. *)
Record AllocatorDebugInfo := MkDebugInfo {
  di_name : string;
  di_type : AllocatorType;
  di_input_index : Z;
  di_output_index : Z;
  di_run_mode : Z
}.
Definition default_DebugInfo : AllocatorDebugInfo := MkDebugInfo "Unknown" kOther (-1) (-1) 0.
Definition SetAllocatorDebugInfo (name : string) (type : AllocatorType)
    (input_index output_index run_mode : Z) (_ : AllocatorDebugInfo) : AllocatorDebugInfo :=
  MkDebugInfo name type input_index output_index run_mode.

Record MemoryTimeEvent := MkMemoryTimeEvent {
  created_at_ : Z;
  te_addr : Z;
  te_size : Z;
  te_used_size : Z;
  te_peak_size : Z;
  te_alloc_size : Z;
  te_used_by_event_size : Z;
  te_eager_free_size : Z;
  from_persistent_ : Z;
  te_is_persistent : Z;
  run_mode_ : Z;
  te_alloc_type : option Z;      (* not initialised by the constructor *)
  te_stream_id : Z;
  owner_ : string
}.

(** The enumerators in order. *)
Definition AllocatorType_int (t : AllocatorType) : Z :=
  match t with
  | kWeight => 0 | kConstantValue => 1 | kKernelOutput => 2
  | kGraphOutput => 3 | kWorkspace => 4 | kOther => 5
  end.

Definition b2z (b : bool) : Z := if b then 1 else 0.

(** [now] is what the clock says. *)
Definition GenAllocateMemoryTimeEvent (now : Z) (info : AllocatorDebugInfo) (m : MemStat)
    (addr size stream_id : Z) (from_persistent is_persistent : bool) : MemoryTimeEvent :=
  {| created_at_ := u64 now; te_addr := addr; te_size := size;
     te_used_size := used_size_ m; te_peak_size := peak_size_ m; te_alloc_size := alloc_size_ m;
     te_used_by_event_size := used_by_event_size_ m; te_eager_free_size := eager_free_size_ m;
     from_persistent_ := b2z from_persistent; te_is_persistent := b2z is_persistent;
     run_mode_ := di_run_mode info; te_alloc_type := Some (AllocatorType_int (di_type info));
     te_stream_id := stream_id; owner_ := di_name info |}.

Definition GenFreeMemoryTimeEvent (now : Z) (m : MemStat) (addr : Z) : MemoryTimeEvent :=
  {| created_at_ := u64 now; te_addr := addr; te_size := u64 (-1);
     te_used_size := used_size_ m; te_peak_size := peak_size_ m; te_alloc_size := alloc_size_ m;
     te_used_by_event_size := used_by_event_size_ m; te_eager_free_size := eager_free_size_ m;
     from_persistent_ := 0; te_is_persistent := 0; run_mode_ := 0; te_alloc_type := None;
     te_stream_id := 0; owner_ := "" |}.

(** Printing an event whose type was never set reads an indeterminate byte. *)
Definition MemoryTimeEvent_ToJson (e : MemoryTimeEvent) : option string :=
  alloc_type ← te_alloc_type e;
  Some (json_object [("created_at_", show_int (created_at_ e)); ("addr_", show_ptr (te_addr e));
    ("size_", show_int (te_size e)); ("from_persistent_", show_uint8 (from_persistent_ e));
    ("stream_id_", show_int (te_stream_id e)); ("run_mode_", show_uint8 (run_mode_ e));
    ("used_size_", show_int (te_used_size e)); ("peak_size_", show_int (te_peak_size e));
    ("alloc_size_", show_int (te_alloc_size e));
    ("used_by_event_size_", show_int (te_used_by_event_size e));
    ("eager_free_size_", show_int (te_eager_free_size e)); ("owner_", owner_ e);
    ("alloc_type_", show_uint8 alloc_type)]).

(** ** The text of an object *)

Definition json_field (f : string * string) : string :=
  quote +:+ f.1 +:+ quote +:+ ":" +:+ f.2.

Lemma string_app_assoc (a b c : string) : (a +:+ b) +:+ c = a +:+ (b +:+ c).
Proof.
  induction a as [|x a IH]; [done|].
  change (String x ((a +:+ b) +:+ c) = String x (a +:+ (b +:+ c))). by rewrite IH.
Qed.

Lemma string_app_nil (a : string) : a +:+ EmptyString = a.
Proof.
  induction a as [|x a IH]; [done|].
  change (String x (a +:+ EmptyString) = String x a). by rewrite IH.
Qed.

Lemma overwrite_last_app c s d : overwrite_last c (s +:+ String d EmptyString) = s +:+ String c EmptyString.
Proof.
  induction s as [|x s IH]; [done|].
  change (overwrite_last c (String x (s +:+ String d EmptyString)) = String x (s +:+ String c EmptyString)).
  rewrite <- IH. by destruct s.
Qed.

Fixpoint join (sep : string) (l : list string) : string :=
  match l with
  | [] => EmptyString
  | [x] => x
  | x :: l' => x +:+ sep +:+ join sep l'
  end.

Lemma fields_text fields b :
  foldl (λ b f, Append f.1 f.2 b) b fields =
    b +:+ foldr (λ f s, json_field f +:+ "," +:+ s) EmptyString fields.
Proof.
  revert b. induction fields as [|f fields IH]; intros b; simpl.
  - by rewrite string_app_nil.
  - rewrite IH. unfold Append, json_field. rewrite !string_app_assoc. done.
Qed.

Lemma joined_text f fields :
  foldr (λ f s, json_field f +:+ "," +:+ s) EmptyString (f :: fields) =
    join "," (json_field <$> f :: fields) +:+ ",".
Proof.
  revert f. induction fields as [|g fields IH]; intros f; [done|].
  change (foldr (λ f s, json_field f +:+ "," +:+ s) EmptyString (f :: g :: fields))
    with (json_field f +:+ "," +:+ foldr (λ f s, json_field f +:+ "," +:+ s) EmptyString (g :: fields)).
  rewrite IH. rewrite !fmap_cons.
  change (join "," (json_field f :: json_field g :: (json_field <$> fields)))
    with (json_field f +:+ "," +:+ join "," (json_field g :: (json_field <$> fields))).
  by rewrite !string_app_assoc.
Qed.

Module Report.
(** the text built for a non-empty list of fields is the fields, in the order
    they were appended, separated by single commas and enclosed in braces: the
    trailing comma that [Append] leaves is exactly what [ToString] overwrites. *)
Theorem json_object_text f fields :
  json_object (f :: fields) = "{" +:+ join "," (json_field <$> f :: fields) +:+ "}".
Proof.
  unfold json_object, ToString, new_JsonBuilder. rewrite fields_text, joined_text.
  rewrite <- string_app_assoc, overwrite_last_app. reflexivity.
Qed.

(** Without a field the opening brace is overwritten. *)
Example json_object_empty : json_object [] = "}".
Proof. reflexivity. Qed.

Example MemBlock_ToJson_text :
  MemBlock_ToJson (new_MemBlock 4096 65536 3) =
    "{" +:+ join "," (json_field <$> [("addr_", "0x10000"); ("size_", "4096");
      ("stream_id_", "3"); ("min_addr_", "0"); ("max_addr_", "0")]) +:+ "}".
Proof. vm_compute. reflexivity. Qed.

(** The flags of a time event are printed as control characters, not digits. *)
Example time_event_flag_is_a_byte :
  show_uint8 (b2z true) = String (Ascii.ascii_of_nat 1) EmptyString.
Proof. reflexivity. Qed.
End Report.
