(* ===== verification/OrdList.v ===== *)
(** * Ordered containers

    [std::map], [std::multimap] and sorted [std::vector]s with integer keys, as the
    list of their entries in iteration order. An iterator is the position of its
    entry; the past-the-end iterator is the length. *)

From S2P Require Import Prelude.

Section ops.
Context {A : Type}.
Implicit Types l : list (Z * A).

(** First entry whose key is not below [k]. *)
Fixpoint lower_bound (k : Z) l : nat :=
  match l with
  | [] => O
  | x :: l' => if x.1 <? k then S (lower_bound k l') else O
  end.

(** First entry whose key is above [k]. *)
Fixpoint upper_bound (k : Z) l : nat :=
  match l with
  | [] => O
  | x :: l' => if k <? x.1 then O else S (upper_bound k l')
  end.

Definition insert_at (i : nat) (x : Z * A) l : list (Z * A) := take i l ++ x :: drop i l.

(** [std::map::find]; [None] is [end()]. *)
Definition ord_find (k : Z) l : option nat :=
  let i := lower_bound k l in
  match l !! i with
  | Some x => if x.1 =? k then Some i else None
  | None => None
  end.

(** [std::map::emplace] keeps an entry that is already there. *)
Definition ord_emplace (k : Z) (v : A) l : list (Z * A) :=
  match ord_find k l with
  | Some _ => l
  | None => insert_at (lower_bound k l) (k, v) l
  end.

(** [std::multimap::emplace] inserts after the entries with an equal key. *)
Definition multi_emplace (k : Z) (v : A) l : list (Z * A) := insert_at (upper_bound k l) (k, v) l.

(** ** Order *)

Definition keys_le (x y : Z * A) : Prop := x.1 <= y.1.
Definition keys_lt (x y : Z * A) : Prop := x.1 < y.1.

Lemma lower_bound_split k l1 l2 :
  Forall (λ x, x.1 < k) l1 → Forall (λ x, k <= x.1) l2 → lower_bound k (l1 ++ l2) = length l1.
Proof.
  induction 1 as [|x l1 Hx _ IH]; intros H2; simpl.
  - destruct H2 as [|y l2 Hy _]; simpl; [done|]. destruct (Z.ltb_spec y.1 k); [lia|done].
  - destruct (Z.ltb_spec x.1 k); [|lia]. by rewrite IH.
Qed.

Lemma upper_bound_split k l1 l2 :
  Forall (λ x, x.1 <= k) l1 → Forall (λ x, k < x.1) l2 → upper_bound k (l1 ++ l2) = length l1.
Proof.
  induction 1 as [|x l1 Hx _ IH]; intros H2; simpl.
  - destruct H2 as [|y l2 Hy _]; simpl; [done|]. destruct (Z.ltb_spec k y.1); [done|lia].
  - destruct (Z.ltb_spec k x.1); [lia|]. by rewrite IH.
Qed.

Lemma lower_bound_spec k l : StronglySorted keys_le l →
  Forall (λ x, x.1 < k) (take (lower_bound k l) l) ∧ Forall (λ x, k <= x.1) (drop (lower_bound k l) l).
Proof.
  induction 1 as [|x l _ [IH1 IH2] Hx]; simpl; [by split|].
  destruct (Z.ltb_spec x.1 k); simpl; [by split; [constructor|]|].
  split; [done|]. constructor; [done|]. eapply Forall_impl; [exact Hx|]. unfold keys_le. simpl. lia.
Qed.

Lemma upper_bound_spec k l : StronglySorted keys_le l →
  Forall (λ x, x.1 <= k) (take (upper_bound k l) l) ∧ Forall (λ x, k < x.1) (drop (upper_bound k l) l).
Proof.
  induction 1 as [|x l _ [IH1 IH2] Hx]; simpl; [by split|].
  destruct (Z.ltb_spec k x.1); simpl; [|by split; [constructor|]].
  split; [done|]. constructor; [done|]. eapply Forall_impl; [exact Hx|]. unfold keys_le. simpl. lia.
Qed.

Lemma sorted_app (R : Z * A → Z * A → Prop) l1 l2 :
  StronglySorted R (l1 ++ l2) ↔
  StronglySorted R l1 ∧ StronglySorted R l2 ∧ ∀ x y, x ∈ l1 → y ∈ l2 → R x y.
Proof.
  induction l1 as [|z l1 IH]; simpl.
  - split; [intros; split_and!; [constructor|done|set_solver]|naive_solver].
  - split.
    + intros H%StronglySorted_inv. destruct H as [Hs Hz].
      apply IH in Hs as (? & ? & Hc). rewrite Forall_app in Hz. destruct Hz as [Hz1 Hz2].
      split_and!; [by constructor|done|]. intros x y [->|Hx]%elem_of_cons Hy; [|by apply Hc].
      rewrite Forall_forall in Hz2. by apply Hz2.
    + intros (H1 & H2 & Hc). apply StronglySorted_inv in H1 as [H1 Hz]. constructor.
      * apply IH. split_and!; [done|done|set_solver].
      * rewrite Forall_app. split; [done|]. apply Forall_forall. intros; apply Hc; set_solver.
Qed.

Lemma sorted_lt_le l : StronglySorted keys_lt l → StronglySorted keys_le l.
Proof.
  induction 1 as [|x l _ IH Hx]; constructor; [done|].
  eapply Forall_impl; [exact Hx|]. unfold keys_lt, keys_le. intros; lia.
Qed.

(** ** Maps *)

Lemma ord_find_Some k l i : ord_find k l = Some i → ∃ v, l !! i = Some (k, v).
Proof.
  unfold ord_find. destruct (l !! lower_bound k l) as [[k' v]|] eqn:Hl; [|done]. simpl.
  destruct (Z.eqb_spec k' k) as [->|]; [|done]. intros [= <-]. by exists v.
Qed.

Lemma ord_find_middle k v l1 l2 :
  StronglySorted keys_lt (l1 ++ (k, v) :: l2) → ord_find k (l1 ++ (k, v) :: l2) = Some (length l1).
Proof.
  intros (_ & H2 & Hc)%sorted_app. apply StronglySorted_inv in H2 as [_ Hk].
  assert (lower_bound k (l1 ++ (k, v) :: l2) = length l1) as Hl.
  { apply lower_bound_split.
    - apply Forall_forall. intros x Hx. apply (Hc x (k, v) Hx). set_solver.
    - constructor; [simpl; lia|]. eapply Forall_impl; [exact Hk|]. unfold keys_lt. simpl. lia. }
  unfold ord_find. rewrite Hl, list_lookup_middle by done. simpl. by rewrite Z.eqb_refl.
Qed.

Lemma ord_find_None k l : Forall (λ x, x.1 ≠ k) l → ord_find k l = None.
Proof.
  intros Hk. destruct (ord_find k l) as [i|] eqn:Hf; [|done].
  apply ord_find_Some in Hf as [v Hv]. apply list_elem_of_lookup_2 in Hv.
  rewrite Forall_forall in Hk. by destruct (Hk _ Hv).
Qed.

(** Insertion between the smaller and the greater keys. *)
Lemma ord_emplace_middle k v l1 l2 :
  Forall (λ x, x.1 < k) l1 → Forall (λ x, k < x.1) l2 →
  ord_emplace k v (l1 ++ l2) = l1 ++ (k, v) :: l2.
Proof.
  intros H1 H2. unfold ord_emplace. rewrite ord_find_None.
  - unfold insert_at. rewrite lower_bound_split; [|done|].
    + by rewrite take_app_length, drop_app_length.
    + eapply Forall_impl; [exact H2|]. simpl. lia.
  - apply Forall_app. split; (eapply Forall_impl; [eassumption|]); simpl; lia.
Qed.

Lemma insert_at_perm i x l : insert_at i x l ≡ₚ x :: l.
Proof. unfold insert_at. rewrite <- Permutation_middle. by rewrite take_drop. Qed.

Lemma multi_emplace_perm k v l : multi_emplace k v l ≡ₚ (k, v) :: l.
Proof. apply insert_at_perm. Qed.

Lemma multi_emplace_sorted k v l :
  StronglySorted keys_le l → StronglySorted keys_le (multi_emplace k v l).
Proof.
  intros Hs. destruct (upper_bound_spec k l Hs) as [H1 H2]. unfold multi_emplace, insert_at.
  pose proof Hs as Ht. rewrite <- (take_drop (upper_bound k l) l) in Ht.
  apply sorted_app in Ht as (Ht1 & Ht2 & Hc). apply sorted_app. split_and!; [done| |].
  - constructor; [done|]. eapply Forall_impl; [exact H2|]. unfold keys_le. simpl. lia.
  - intros x y Hx [->|Hy]%elem_of_cons; [|by apply Hc].
    rewrite Forall_forall in H1. by apply (H1 x).
Qed.

Lemma delete_middle (x : Z * A) l1 l2 : delete (length l1) (l1 ++ x :: l2) = l1 ++ l2.
Proof. induction l1; simpl; [done|]. by f_equal. Qed.

Lemma lookup_split (l : list (Z * A)) i x : l !! i = Some x →
  l = take i l ++ x :: drop (S i) l ∧ length (take i l) = i.
Proof.
  intros Hx. split; [by rewrite take_drop_middle|]. rewrite length_take. apply lookup_lt_Some in Hx. lia.
Qed.

Lemma delete_sorted R (l : list (Z * A)) i : StronglySorted R l → StronglySorted R (delete i l).
Proof.
  intros Hs. destruct (l !! i) as [x|] eqn:Hx.
  - destruct (lookup_split _ _ _ Hx) as [He Hl]. rewrite He in Hs |- *. rewrite <- Hl at 1.
    rewrite delete_middle. apply sorted_app in Hs as (H1 & H2 & Hc).
    apply StronglySorted_inv in H2 as [H2 _]. apply sorted_app. split_and!; [done|done|].
    intros; apply Hc; [done|set_solver].
  - apply lookup_ge_None in Hx. rewrite delete_take_drop, take_ge, drop_ge by lia. by rewrite app_nil_r.
Qed.

Lemma delete_perm (l : list (Z * A)) i x : l !! i = Some x → l ≡ₚ x :: delete i l.
Proof.
  intros Hx. destruct (lookup_split _ _ _ Hx) as [He Hl]. rewrite He at 1. rewrite <- Permutation_middle.
  rewrite delete_take_drop. done.
Qed.

(** The least sufficient entry of a multimap. *)
Lemma lower_bound_best k l i x :
  StronglySorted keys_le l → lower_bound k l = i → l !! i = Some x →
  k <= x.1 ∧ ∀ y, y ∈ l → k <= y.1 → x.1 <= y.1.
Proof.
  intros Hs <- Hx. destruct (lower_bound_spec k l Hs) as [H1 H2].
  destruct (lookup_split _ _ _ Hx) as [He Hl].
  rewrite (drop_S _ _ _ Hx) in H2. apply Forall_cons in H2 as [Hk H2]. split; [done|].
  intros y Hy Hky. rewrite He in Hs, Hy. apply sorted_app in Hs as (_ & Hs & _).
  apply StronglySorted_inv in Hs as [_ Hs]. rewrite Forall_forall in Hs, H1.
  apply elem_of_app in Hy as [Hy|[->|Hy]%elem_of_cons]; [|lia|by apply Hs].
  specialize (H1 _ Hy). lia.
Qed.

Lemma lower_bound_end k l : StronglySorted keys_le l →
  l !! lower_bound k l = None → Forall (λ x, x.1 < k) l.
Proof.
  intros Hs Hn. destruct (lower_bound_spec k l Hs) as [H1 _].
  apply lookup_ge_None in Hn. by rewrite take_ge in H1.
Qed.
End ops.
