(* ===== verification/StreamTable.v ===== *)
(** * Per-stream containers

    The best-fit pool keeps a list of blocks and an ordered set of buffers per
    stream: in a [std::map] in one version, in a [std::vector] of 128 entries
    indexed by the stream in the other. [StreamTable] states what the pool uses of
    such a container and [StreamTableLaws] what it relies on; both containers are
    instances. *)

From S2P Require Import Prelude OrdList.

(** A container of lists, one per stream; an operation without a value is
    undefined behaviour. *)
Class StreamTable (T : Type → Type) := {
  new_table {X} : T X;
  clear_table {X} : T X → T X;
  (** access that expects the stream to be there *)
  table_at {S X} : Z → T X → M S (list X);
  (** access that makes an empty list for a stream that is not there *)
  table_get {X} : Z → T X → option (list X * T X);
  table_set {X} : Z → list X → T X → T X;
  (** entries in iteration order *)
  table_entries {X} : T X → list (Z * list X)
}.

Class StreamTableLaws (T : Type → Type) `{StreamTable T} (stream_ok : Z → Prop) (reusable : Prop) := {
  contents {X} : Z → T X → list X;
  valid {X} : Z → T X → Prop;
  new_contents {X} s : contents s (new_table (X := X)) = [];
  new_valid {X} s : stream_ok s → valid s (new_table (X := X));
  clear_contents {X} s (t : T X) : contents s (clear_table t) = [];
  clear_valid {X} s (t : T X) : reusable → stream_ok s → valid s (clear_table t);
  at_contents {S X} s (t : T X) (st : S) :
    valid s t → contents s t ≠ [] → table_at s t st = Ret (contents s t) st;
  get_contents {X} s (t : T X) : valid s t → ∃ t', table_get s t = Some (contents s t, t') ∧
    (∀ s', contents s' t' = contents s' t) ∧ (∀ s', valid s' t → valid s' t');
  set_contents {X} s l (t : T X) s' : valid s t →
    contents s' (table_set s l t) = if bool_decide (s' = s) then l else contents s' t;
  set_valid {X} s l (t : T X) s' : valid s' t → valid s' (table_set s l t);
  entries_NoDup {X} (t : T X) : NoDup (table_entries t).*1;
  entries_sound {X} s l (t : T X) : (s, l) ∈ table_entries t → contents s t = l;
  entries_complete {X} s (t : T X) : contents s t ≠ [] → (s, contents s t) ∈ table_entries t
}.

(** ** [std::map<uint32_t, ...>] *)

Definition MapTable (X : Type) : Type := gmap Z (list X).

Definition stream_le {X} (x y : Z * list X) : Prop := x.1 <= y.1.
#[export] Instance stream_le_dec {X} (x y : Z * list X) : Decision (stream_le x y).
Proof. unfold stream_le. apply _. Defined.

(** [GetOrCreateSizeMapMemBuf] *)
Definition map_get_or_create {X} (s : Z) (t : MapTable X) : option (list X * MapTable X) :=
  match t !! s with
  | Some l => Some (l, t)
  | None => Some ([], <[s := []]> t)
  end.

#[export] Instance map_stream_table : StreamTable MapTable := {|
  new_table X := ∅;
  clear_table X _ := ∅;
  table_at S X s t := match t !! s with Some l => mret l | None => throw "map::at" end;
  table_get X s t := map_get_or_create s t;
  table_set X s l t := <[s := l]> t;
  table_entries X t := merge_sort stream_le (map_to_list t)
|}.

Lemma map_entries_lookup {X} (t : gmap Z (list X)) s l :
  (s, l) ∈ merge_sort stream_le (map_to_list t) ↔ t !! s = Some l.
Proof. by rewrite merge_sort_Permutation, elem_of_map_to_list. Qed.

#[export, refine] Instance map_stream_table_laws (stream_ok : Z → Prop) :
  StreamTableLaws MapTable stream_ok True := {|
  contents X s t := default [] (t !! s);
  valid X s t := True
|}.
Proof.
  - done.
  - done.
  - done.
  - done.
  - intros S X s t st _ Hne. unfold table_at, map_stream_table. by destruct (t !! s).
  - intros X s t _. unfold table_get, map_stream_table, map_get_or_create.
    destruct (t !! s) as [l|] eqn:Hs; eexists; (split; [reflexivity|split; [|done]]); [done|].
    intros s'. unfold MapTable in *. destruct (decide (s' = s)) as [->|Hd];
      [by rewrite lookup_insert_eq, Hs|by rewrite lookup_insert_ne].
  - intros X s l t s' _. unfold table_set, map_stream_table, MapTable in *. case_bool_decide as Hd; subst;
      [by rewrite lookup_insert_eq|by rewrite lookup_insert_ne].
  - done.
  - intros X t. unfold table_entries, map_stream_table. rewrite merge_sort_Permutation. apply (NoDup_fst_map_to_list (M:=gmap Z)).
  - intros X s l t Hin. apply (map_entries_lookup (t : gmap Z (list X))) in Hin. unfold MapTable in *. by rewrite Hin.
  - intros X s t Hne. apply (map_entries_lookup (t : gmap Z (list X))). unfold MapTable in *. by destruct (t !! s).
Defined.

(** ** [std::vector] of 128 lists *)

Definition VecTable (X : Type) : Type := list (list X).
Definition vector_streams : nat := 128.

(** [operator[]]: the index must be below the size. *)
Definition vec_index {X} (s : Z) (t : VecTable X) : option (list X) :=
  if s <? 0 then None else t !! Z.to_nat s.

#[export] Instance vec_stream_table : StreamTable VecTable := {|
  new_table X := replicate vector_streams [];
  clear_table X _ := [];
  table_at S X s t := deref (vec_index s t);
  table_get X s t := l ← vec_index s t; Some (l, t);
  table_set X s l t := <[Z.to_nat s := l]> t;
  table_entries X t := imap (λ i l, (Z.of_nat i, l)) t
|}.

Lemma vec_entries_lookup {X} (t : VecTable X) s l :
  (s, l) ∈ imap (λ i l, (Z.of_nat i, l)) t ↔ 0 <= s ∧ t !! Z.to_nat s = Some l.
Proof.
  rewrite list_elem_of_lookup. split.
  - intros (i & Hi). rewrite list_lookup_imap_Some in Hi. destruct Hi as (l' & Hl & [= -> ->]).
    rewrite Nat2Z.id. split; [lia|done].
  - intros [Hs Hl]. exists (Z.to_nat s). rewrite list_lookup_imap_Some. exists l. split; [done|].
    by rewrite Z2Nat.id.
Qed.

#[export, refine] Instance vec_stream_table_laws :
  StreamTableLaws VecTable (λ s, 0 <= s < 128) False := {|
  contents X s t := default [] (vec_index s t);
  valid X s t := is_Some (vec_index s t)
|}.
Proof.
  - intros X s. unfold new_table, vec_stream_table, vec_index. destruct (s <? 0); [done|].
    destruct (_ !! _) as [l|] eqn:Hl; [|done]. apply lookup_replicate in Hl as [-> _]. done.
  - intros X s Hs. unfold new_table, vec_stream_table, vec_index. destruct (Z.ltb_spec s 0); [lia|].
    exists []. apply lookup_replicate. split; [done|]. unfold vector_streams. lia.
  - intros X s t. unfold clear_table, vec_stream_table, vec_index. by destruct (s <? 0).
  - done.
  - intros S X s t st [l Hl] _. unfold table_at, vec_stream_table. by rewrite Hl.
  - intros X s t [l Hl]. exists t. unfold table_get, vec_stream_table. rewrite Hl. done.
  - intros X s l t s' [l0 Hl]. unfold table_set, vec_stream_table, vec_index, VecTable in *.
    destruct (Z.ltb_spec s 0); [done|]. apply lookup_lt_Some in Hl.
    case_bool_decide as Hd; subst.
    + destruct (Z.ltb_spec s 0); [lia|]. by rewrite list_lookup_insert_eq by done.
    + destruct (Z.ltb_spec s' 0); [done|]. rewrite list_lookup_insert_ne by lia. done.
  - intros X s l t s'. unfold table_set, vec_stream_table, vec_index, VecTable in *.
    destruct (s' <? 0); [done|]. rewrite !lookup_lt_is_Some, length_insert. done.
  - intros X t. unfold table_entries, vec_stream_table.
    assert (∀ (i : nat) x, (imap (λ i l, (Z.of_nat i, l)) t).*1 !! i = Some x → x = Z.of_nat i) as Hi.
    { unfold VecTable in t. intros i x. rewrite list_lookup_fmap, list_lookup_imap. destruct (t !! i); simpl; intros; by simplify_eq. }
    apply NoDup_alt. intros i j s Hs%Hi Hs'%Hi. lia.
  - intros X s l t [Hs Hl]%vec_entries_lookup. unfold vec_index. destruct (Z.ltb_spec s 0); [lia|].
    by rewrite Hl.
  - intros X s t Hne. apply vec_entries_lookup. unfold vec_index in *. destruct (Z.ltb_spec s 0); [done|].
    destruct (t !! Z.to_nat s); [done|]. done.
Defined.

(** A vector that has been cleared has no entry for any stream. *)
Lemma vec_cleared {X} s (t : VecTable X) : table_get s (clear_table t) = None.
Proof. unfold table_get, clear_table, vec_stream_table, vec_index. by destruct (s <? 0). Qed.
