(* ===== verification/BestFitState.v ===== *)
(** * The best-fit pool: data

    The buffers, blocks and managers of application/src/mem_dynamic_allocator.h and
    of its optimised variant application/src/mem_optimized_allocator.h, and the
    primitive reads and writes of the pool's state. Buffers and blocks live in a
    store and are shared through pointers, as in the code. *)

From S2P Require Import Prelude EventBase MemBufHeap MemGeometry MemStat OrdList StreamTable.

Module BestFitTypes.

Variant DynamicMemBufStatus := kMemBufIdle | kMemBufUsed | kMemBufEagerFree.
Variant AllocatorType := kWeight | kConstantValue | kKernelOutput | kGraphOutput | kOther.

#[export] Instance status_eq_dec : EqDecision DynamicMemBufStatus.
Proof. solve_decision. Defined.

(** [mem_block_ptr_] exists in the optimised variant only, where it is set by the
    constructor. *)
Record DynamicMemBuf := MkBuf {
  device_addr_ : Z;
  mem_block_ptr_ : option ptr;
  status_ : DynamicMemBufStatus;
  size_ : Z;
  allocator_name_ : string;
  allocator_type_ : AllocatorType
}.

Record DynamicMemBlock := MkBlock {
  block_all_mem_buf_map_ : list (Z * ptr);
  device_addr_base_ : Z;
  mem_block_size_ : Z;
  stream_id_ : Z
}.

Record DeviceState := MkDeviceState {
  total_mem_size_ : Z;
  total_used_mem_size_ : Z;
  total_idle_mem_size_ : Z;
  total_eager_free_mem_size_ : Z;
  used_mem_peak_size_ : Z
}.

Definition new_DeviceState : DeviceState := MkDeviceState 0 0 0 0 0.

Record MemStatusManager (T : Type → Type) := MkManager {
  unit_size_ : Z;
  mps_ : DeviceState;
  mem_block_list_ : list ptr;
  mem_blocks_ : T ptr;
  idle_mem_bufs_ : T (Z * ptr)%type;
  eager_free_mem_bufs_ : T (Z * ptr)%type
}.
Arguments MkManager {T} _ _ _ _ _ _.
Arguments unit_size_ {T} _.
Arguments mps_ {T} _.
Arguments mem_block_list_ {T} _.
Arguments mem_blocks_ {T} _.
Arguments idle_mem_bufs_ {T} _.
Arguments eager_free_mem_bufs_ {T} _.

(** [init_recycle_memory_] is the function-local static of [AllocTensorMem];
    [debug_info_] the name and type of the thread's [AllocatorDebugInfo]. *)
Record BestFitPool (T : Type → Type) (D : Type) := MkBestFit {
  bufs_ : gmap ptr DynamicMemBuf;
  blks_ : gmap ptr DynamicMemBlock;
  next_ : ptr;
  common_mem_ : MemStatusManager T;
  persistent_mem_ : MemStatusManager T;
  config_unit_size_ : Z;
  is_trigger_eager_free_ : bool;
  init_recycle_memory_ : bool;
  mem_bufs_ : list Z;
  debug_info_ : string * AllocatorType;
  mutex_ : bool;
  device_ : D
}.
Arguments MkBestFit {T D} _ _ _ _ _ _ _ _ _ _ _ _.
Arguments bufs_ {T D} _.
Arguments blks_ {T D} _.
Arguments next_ {T D} _.
Arguments common_mem_ {T D} _.
Arguments persistent_mem_ {T D} _.
Arguments config_unit_size_ {T D} _.
Arguments is_trigger_eager_free_ {T D} _.
Arguments init_recycle_memory_ {T D} _.
Arguments mem_bufs_ {T D} _.
Arguments debug_info_ {T D} _.
Arguments mutex_ {T D} _.
Arguments device_ {T D} _.

(** ** Updates *)

Definition set_buf_status (v : DynamicMemBufStatus) (b : DynamicMemBuf) : DynamicMemBuf :=
  MkBuf (device_addr_ b) (mem_block_ptr_ b) v (size_ b) (allocator_name_ b) (allocator_type_ b).
Definition set_buf_size (v : Z) (b : DynamicMemBuf) : DynamicMemBuf :=
  MkBuf (device_addr_ b) (mem_block_ptr_ b) (status_ b) v (allocator_name_ b) (allocator_type_ b).
Definition set_buf_debug (v : string * AllocatorType) (b : DynamicMemBuf) : DynamicMemBuf :=
  MkBuf (device_addr_ b) (mem_block_ptr_ b) (status_ b) (size_ b) v.1 v.2.

Definition set_block_map (v : list (Z * ptr)) (k : DynamicMemBlock) : DynamicMemBlock :=
  MkBlock v (device_addr_base_ k) (mem_block_size_ k) (stream_id_ k).
Definition set_block_addr (v : Z) (k : DynamicMemBlock) : DynamicMemBlock :=
  MkBlock (block_all_mem_buf_map_ k) v (mem_block_size_ k) (stream_id_ k).

Definition add_total (n : Z) (d : DeviceState) : DeviceState :=
  MkDeviceState (total_mem_size_ d +64 n) (total_used_mem_size_ d) (total_idle_mem_size_ d)
    (total_eager_free_mem_size_ d) (used_mem_peak_size_ d).
(** [total_used_mem_size_ += n], and the peak after it. *)
Definition add_used (n : Z) (d : DeviceState) : DeviceState :=
  let used := total_used_mem_size_ d +64 n in
  MkDeviceState (total_mem_size_ d) used (total_idle_mem_size_ d) (total_eager_free_mem_size_ d)
    (if used_mem_peak_size_ d <? used then used else used_mem_peak_size_ d).
Definition sub_used (n : Z) (d : DeviceState) : DeviceState :=
  MkDeviceState (total_mem_size_ d) (total_used_mem_size_ d -64 n) (total_idle_mem_size_ d)
    (total_eager_free_mem_size_ d) (used_mem_peak_size_ d).
Definition add_idle (n : Z) (d : DeviceState) : DeviceState :=
  MkDeviceState (total_mem_size_ d) (total_used_mem_size_ d) (total_idle_mem_size_ d +64 n)
    (total_eager_free_mem_size_ d) (used_mem_peak_size_ d).
Definition sub_idle (n : Z) (d : DeviceState) : DeviceState :=
  MkDeviceState (total_mem_size_ d) (total_used_mem_size_ d) (total_idle_mem_size_ d -64 n)
    (total_eager_free_mem_size_ d) (used_mem_peak_size_ d).
Definition add_eager (n : Z) (d : DeviceState) : DeviceState :=
  MkDeviceState (total_mem_size_ d) (total_used_mem_size_ d) (total_idle_mem_size_ d)
    (total_eager_free_mem_size_ d +64 n) (used_mem_peak_size_ d).
Definition sub_eager (n : Z) (d : DeviceState) : DeviceState :=
  MkDeviceState (total_mem_size_ d) (total_used_mem_size_ d) (total_idle_mem_size_ d)
    (total_eager_free_mem_size_ d -64 n) (used_mem_peak_size_ d).

Section manager.
Context {T : Type → Type}.
Implicit Types (m : MemStatusManager T).
Definition set_unit_size (v : Z) m : MemStatusManager T :=
  MkManager v (mps_ m) (mem_block_list_ m) (mem_blocks_ m) (idle_mem_bufs_ m) (eager_free_mem_bufs_ m).
Definition set_mps (v : DeviceState) m : MemStatusManager T :=
  MkManager (unit_size_ m) v (mem_block_list_ m) (mem_blocks_ m) (idle_mem_bufs_ m) (eager_free_mem_bufs_ m).
Definition set_block_list (v : list ptr) m : MemStatusManager T :=
  MkManager (unit_size_ m) (mps_ m) v (mem_blocks_ m) (idle_mem_bufs_ m) (eager_free_mem_bufs_ m).
Definition set_stream_blocks (v : T ptr) m : MemStatusManager T :=
  MkManager (unit_size_ m) (mps_ m) (mem_block_list_ m) v (idle_mem_bufs_ m) (eager_free_mem_bufs_ m).
Definition set_idle_bufs (v : T (Z * ptr)%type) m : MemStatusManager T :=
  MkManager (unit_size_ m) (mps_ m) (mem_block_list_ m) (mem_blocks_ m) v (eager_free_mem_bufs_ m).
Definition set_eager_bufs (v : T (Z * ptr)%type) m : MemStatusManager T :=
  MkManager (unit_size_ m) (mps_ m) (mem_block_list_ m) (mem_blocks_ m) (idle_mem_bufs_ m) v.

(** The container of the buffers with a given status. *)
Definition status_table (st : DynamicMemBufStatus) m : T (Z * ptr)%type :=
  match st with kMemBufIdle => idle_mem_bufs_ m | _ => eager_free_mem_bufs_ m end.
Definition set_status_table (st : DynamicMemBufStatus) (v : T (Z * ptr)%type) m : MemStatusManager T :=
  match st with kMemBufIdle => set_idle_bufs v m | _ => set_eager_bufs v m end.
End manager.

Section pool.
Context {T : Type → Type} {D : Type}.
Implicit Types (p : BestFitPool T D).

Definition set_bufs (v : gmap ptr DynamicMemBuf) p : BestFitPool T D :=
  MkBestFit v (blks_ p) (next_ p) (common_mem_ p) (persistent_mem_ p) (config_unit_size_ p)
    (is_trigger_eager_free_ p) (init_recycle_memory_ p) (mem_bufs_ p) (debug_info_ p) (mutex_ p) (device_ p).
Definition set_blks (v : gmap ptr DynamicMemBlock) p : BestFitPool T D :=
  MkBestFit (bufs_ p) v (next_ p) (common_mem_ p) (persistent_mem_ p) (config_unit_size_ p)
    (is_trigger_eager_free_ p) (init_recycle_memory_ p) (mem_bufs_ p) (debug_info_ p) (mutex_ p) (device_ p).
Definition set_next_ptr (v : ptr) p : BestFitPool T D :=
  MkBestFit (bufs_ p) (blks_ p) v (common_mem_ p) (persistent_mem_ p) (config_unit_size_ p)
    (is_trigger_eager_free_ p) (init_recycle_memory_ p) (mem_bufs_ p) (debug_info_ p) (mutex_ p) (device_ p).
(** [from_persistent_mem ? persistent_mem_ : common_mem_] *)
Definition mem_mng (from_persistent_mem : bool) p : MemStatusManager T :=
  if from_persistent_mem then persistent_mem_ p else common_mem_ p.
Definition set_mng (from_persistent_mem : bool) (v : MemStatusManager T) p : BestFitPool T D :=
  MkBestFit (bufs_ p) (blks_ p) (next_ p) (if from_persistent_mem then common_mem_ p else v)
    (if from_persistent_mem then v else persistent_mem_ p) (config_unit_size_ p)
    (is_trigger_eager_free_ p) (init_recycle_memory_ p) (mem_bufs_ p) (debug_info_ p) (mutex_ p) (device_ p).
Definition set_config_unit_size (v : Z) p : BestFitPool T D :=
  MkBestFit (bufs_ p) (blks_ p) (next_ p) (common_mem_ p) (persistent_mem_ p) v
    (is_trigger_eager_free_ p) (init_recycle_memory_ p) (mem_bufs_ p) (debug_info_ p) (mutex_ p) (device_ p).
Definition set_trigger_eager_free (v : bool) p : BestFitPool T D :=
  MkBestFit (bufs_ p) (blks_ p) (next_ p) (common_mem_ p) (persistent_mem_ p) (config_unit_size_ p)
    v (init_recycle_memory_ p) (mem_bufs_ p) (debug_info_ p) (mutex_ p) (device_ p).
Definition set_init_recycle (v : bool) p : BestFitPool T D :=
  MkBestFit (bufs_ p) (blks_ p) (next_ p) (common_mem_ p) (persistent_mem_ p) (config_unit_size_ p)
    (is_trigger_eager_free_ p) v (mem_bufs_ p) (debug_info_ p) (mutex_ p) (device_ p).
Definition set_mutex (v : bool) p : BestFitPool T D :=
  MkBestFit (bufs_ p) (blks_ p) (next_ p) (common_mem_ p) (persistent_mem_ p) (config_unit_size_ p)
    (is_trigger_eager_free_ p) (init_recycle_memory_ p) (mem_bufs_ p) (debug_info_ p) v (device_ p).
Definition set_device (v : D) p : BestFitPool T D :=
  MkBestFit (bufs_ p) (blks_ p) (next_ p) (common_mem_ p) (persistent_mem_ p) (config_unit_size_ p)
    (is_trigger_eager_free_ p) (init_recycle_memory_ p) (mem_bufs_ p) (debug_info_ p) (mutex_ p) v.
End pool.

(** ** Reads and writes *)

Section access.
Context {T : Type → Type} {D : Type}.
Abbreviation BF := (M (BestFitPool T D)).

Definition load_buf (p : ptr) : BF DynamicMemBuf := λ s, deref (bufs_ s !! p) s.
Definition load_blk (k : ptr) : BF DynamicMemBlock := λ s, deref (blks_ s !! k) s.
Definition update_buf (p : ptr) (f : DynamicMemBuf → DynamicMemBuf) : BF unit :=
  b ← load_buf p; modify (λ s, set_bufs (<[p := f b]> (bufs_ s)) s).
Definition update_blk (k : ptr) (f : DynamicMemBlock → DynamicMemBlock) : BF unit :=
  b ← load_blk k; modify (λ s, set_blks (<[k := f b]> (blks_ s)) s).
Definition new_buf (b : DynamicMemBuf) : BF ptr := λ s,
  Ret (next_ s) (set_next_ptr (Pos.succ (next_ s)) (set_bufs (<[next_ s := b]> (bufs_ s)) s)).
Definition new_blk (k : DynamicMemBlock) : BF ptr := λ s,
  Ret (next_ s) (set_next_ptr (Pos.succ (next_ s)) (set_blks (<[next_ s := k]> (blks_ s)) s)).
(** [delete p] *)
Definition delete_buf (p : ptr) : BF unit :=
  _ ← load_buf p; modify (λ s, set_bufs (delete p (bufs_ s)) s).
Definition upd_mng (from_persistent_mem : bool) (f : MemStatusManager T → MemStatusManager T) : BF unit :=
  modify (λ s, set_mng from_persistent_mem (f (mem_mng from_persistent_mem s)) s).
Definition upd_mps (from_persistent_mem : bool) (f : DeviceState → DeviceState) : BF unit :=
  upd_mng from_persistent_mem (λ m, set_mps (f (mps_ m)) m).
Definition on_device {A} (m : M D A) : BF A := zoom device_ set_device m.
End access.
End BestFitTypes.
