(* ===== verification/BestFit.v ===== *)
(** * The best-fit pool: operations

    [DynamicMemPoolBestFit] of application/src/mem_dynamic_allocator.cpp. The code
    of the optimised [DynamicMemPoolBestFitOpt] differs in the points that
    [BestFitVariant] lists and in the container of the streams; [BestFitOpt] has
    that variant. *)

From S2P Require Import Prelude EventBase MemBufHeap MemGeometry MemStat OrdList StreamTable BestFitState.
Import BestFitTypes.

(** What the two versions of the pool do differently. *)
Class BestFitVariant := {
  (** [AllocTensorMem] maps the stream [UINT32_MAX] to the default stream *)
  rewrites_stream : bool;
  (** [AllocTensorMem] takes the lock *)
  locks_alloc : bool;
  (** the blocks of a stream are kept in address order *)
  sorts_streams : bool;
  (** a buffer points to its block, and its remainder goes to the stream of the request *)
  block_ptrs : bool;
  (** buffers are deleted by hand *)
  deletes : bool;
  align_memory_size : Z → Z;
  (** whether the rest of an available buffer, and of a new block, becomes a buffer *)
  IsSplit : Z → Z → bool;
  IsSplitNew : Z → Z → bool
}.

Module BestFit.

Definition kDefaultStreamIndex : Z := 0.
Definition UINT32_MAX : Z := 4294967295.
Definition kMinimumAllocMem : Z := 10485760.
(** [1 << 31] in [int] is the most negative one, and 2^64 - 2^31 as a [size_t]. *)
Definition kDefaultMempoolBlockSize : Z := u64 (- 2147483648).

Definition AlignMemorySize (size : Z) : Z :=
  if size =? 0 then kDynamicMemAlignSize
  else ((size +64 kDynamicMemAlignSize -64 1) / kDynamicMemAlignSize) *64 kDynamicMemAlignSize.

(** Conversion to [float]: 24 significant bits, to nearest, ties to even. *)
Definition round24 (n : Z) : Z :=
  let e := Z.log2 n - 23 in
  if e <=? 0 then n
  else
    let q := Z.shiftr n e in
    let r := n - Z.shiftl q e in
    let half := Z.shiftl 1 (e - 1) in
    Z.shiftl (if (r <? half) || ((r =? half) && Z.even q) then q else q + 1) e.

(** [static_cast<size_t>(total_mem_size() * 0.8f)], where [0.8f] is 13421773 / 2^24. *)
Definition eager_threshold (total : Z) : Z := Z.shiftr (round24 (round24 total * 13421773)) 24.

Section ops.
Context {T : Type → Type} `{StreamTable T} {D : Type} `{DeviceMem D} `{BestFitVariant}.
Abbreviation BF := (M (BestFitPool T D)).
Implicit Types (p : BestFitPool T D) (from_persistent_mem : bool).

(** [std::lock_guard locker(mutex_)]: a mutex; taking it twice in one thread never ends. *)
Definition with_mutex {A} (m : BF A) : BF A := λ p,
  if mutex_ p then Undef
  else
    match m (set_mutex true p) with
    | Ret a p' => Ret a (set_mutex false p')
    | Throw e p' => Throw e (set_mutex false p')
    | Undef => Undef
    end.

(** ** MemStatusManager *)

(** The blocks of a list with the addresses they are compared by. *)
Definition block_bases (l : list ptr) : BF (list (Z * ptr)) :=
  forM l (λ acc k, b ← load_blk k; mret (acc ++ [(device_addr_base_ b, k)])) [].

Definition DoAddMemBlock (mem_block : ptr) (mem_block_list : list ptr) : BF (list ptr) :=
  b ← load_blk mem_block;
  bases ← block_bases mem_block_list;
  mret (insert_at (upper_bound (device_addr_base_ b) bases) (device_addr_base_ b, mem_block) bases).*2.

Definition AddMemBlock (from_persistent_mem : bool) (mem_block : ptr) (stream_id : Z) : BF unit :=
  m ← gets (mem_mng from_persistent_mem);
  '(blocks, t) ← deref (table_get stream_id (mem_blocks_ m));
  blocks' ← (if sorts_streams then DoAddMemBlock mem_block blocks else mret (blocks ++ [mem_block]));
  upd_mng from_persistent_mem (set_stream_blocks (table_set stream_id blocks' t));;
  l ← DoAddMemBlock mem_block (mem_block_list_ m);
  upd_mng from_persistent_mem (set_block_list l).

Definition AddMemBuf (from_persistent_mem : bool) (st : DynamicMemBufStatus) (mem_buf : ptr)
    (stream_id : Z) : BF unit :=
  b ← load_buf mem_buf;
  m ← gets (mem_mng from_persistent_mem);
  '(l, t) ← deref (table_get stream_id (status_table st m));
  upd_mng from_persistent_mem (set_status_table st (table_set stream_id (multi_emplace (size_ b) mem_buf l) t)).

(** The loop of [RemoveDeviceMem] over [equal_range(size)], from position [i]. *)
Fixpoint remove_from (fuel i : nat) (size device_addr : Z) (l : list (Z * ptr)) : BF (option nat) :=
  match fuel with
  | O => mret None
  | S fuel' =>
      match l !! i with
      | None => mret None
      | Some (k, mem_buf) =>
          if k =? size then
            b ← load_buf mem_buf;
            if device_addr_ b =? device_addr then mret (Some i)
            else remove_from fuel' (S i) size device_addr l
          else mret None
      end
  end.

Definition RemoveDeviceMem (from_persistent_mem : bool) (st : DynamicMemBufStatus)
    (size device_addr stream_id : Z) : BF bool :=
  m ← gets (mem_mng from_persistent_mem);
  mem_buf_map ← table_at stream_id (status_table st m);
  r ← remove_from (length mem_buf_map) (lower_bound size mem_buf_map) size device_addr mem_buf_map;
  match r with
  | None => mret false
  | Some i =>
      upd_mng from_persistent_mem (λ m,
        set_status_table st (table_set stream_id (delete i mem_buf_map) (status_table st m)) m);;
      mret true
  end.

Definition Clear (from_persistent_mem : bool) : BF unit :=
  upd_mng from_persistent_mem (λ m,
    MkManager (unit_size_ m) (mps_ m) [] (clear_table (mem_blocks_ m))
      (clear_table (idle_mem_bufs_ m)) (clear_table (eager_free_mem_bufs_ m))).

(** ** Statistics *)

Definition stat_sum (f : DeviceState → Z) p : Z :=
  f (mps_ (common_mem_ p)) +64 f (mps_ (persistent_mem_ p)).
Definition TotalMemStatistics : BestFitPool T D → Z := stat_sum total_mem_size_.
Definition TotalUsedMemStatistics : BestFitPool T D → Z := stat_sum total_used_mem_size_.
Definition TotalIdleMemStatistics : BestFitPool T D → Z := stat_sum total_idle_mem_size_.
Definition TotalEagerFreeMemStatistics : BestFitPool T D → Z := stat_sum total_eager_free_mem_size_.
Definition UsedMemPeakStatistics : BestFitPool T D → Z := stat_sum used_mem_peak_size_.

Definition MemAllocUnitSize (from_persistent_mem : bool) p : Z :=
  unit_size_ (mem_mng from_persistent_mem p).
Definition SetMemAllocUintSize (common_size persist_size : Z) : BF unit :=
  upd_mng true (set_unit_size persist_size);;
  upd_mng false (set_unit_size common_size);;
  modify (set_config_unit_size common_size).
Definition SetMemPoolBlockSize (available_device_mem_size : Z) : BF unit :=
  SetMemAllocUintSize kDefaultMempoolBlockSize kDynamicMemAllocUnitSize.
Definition GetMinUsedMemoryAddr p : Z := from_option id 0 (head (mem_bufs_ p)).

(** ** Lookup *)

Definition CmpMemBlock (device_addr : Z) (mem_block : DynamicMemBlock) : bool :=
  device_addr <? device_addr_base_ mem_block.

Definition FindMemBlock (device_addr : Z) (from_persistent_mem : bool) : BF (option ptr) :=
  m ← gets (mem_mng from_persistent_mem);
  bases ← block_bases (mem_block_list_ m);
  mret (match upper_bound device_addr bases with
        | O => None
        | S i => snd <$> bases !! i
        end).

(** The block and the position in its map, looked for in one manager. *)
Definition find_strict_in (device_addr : Z) (from_persistent_mem : bool) : BF (option (ptr * nat * bool)) :=
  mem_block ← FindMemBlock device_addr from_persistent_mem;
  match mem_block with
  | None => mret None
  | Some k =>
      b ← load_blk k;
      mret ((λ iter, (k, iter, from_persistent_mem)) <$> ord_find device_addr (block_all_mem_buf_map_ b))
  end.

Definition FindByStrictAddr (device_addr : Z) : BF (option (ptr * nat * bool)) :=
  r ← find_strict_in device_addr false;
  match r with Some _ => mret r | None => find_strict_in device_addr true end.

Definition FindMemBufByKeepAddr (device_addr : Z) (mem_block : ptr) : BF (option ptr) :=
  b ← load_blk mem_block;
  let l := block_all_mem_buf_map_ b in
  mret (match upper_bound device_addr l with O => None | S i => snd <$> l !! i end).

Definition is_addr_in_membuf (device_addr : Z) (b : DynamicMemBuf) : bool :=
  (device_addr_ b <=? device_addr) && (device_addr -64 device_addr_ b <=? size_ b).

Definition find_keep_in (device_addr : Z) (from_persistent_mem : bool) : BF (option (ptr * ptr * bool)) :=
  mem_block ← FindMemBlock device_addr from_persistent_mem;
  match mem_block with
  | None => mret None
  | Some k =>
      mem_buf ← FindMemBufByKeepAddr device_addr k;
      match mem_buf with
      | None => mret None
      | Some x =>
          b ← load_buf x;
          mret (if is_addr_in_membuf device_addr b then Some (k, x, from_persistent_mem) else None)
      end
  end.

Definition FindByKeepAddr (device_addr : Z) : BF (option (ptr * ptr * bool)) :=
  r ← find_keep_in device_addr false;
  match r with Some _ => mret r | None => find_keep_in device_addr true end.

(** ** Splitting *)

Definition SplitMemBuf (size : Z) (mem_buf : ptr) (from_persistent_mem : bool) (stream_id : Z) : BF unit :=
  b ← load_buf mem_buf;
  found ← (if block_ptrs then mret (mem_block_ptr_ b)
           else FindMemBlock (device_addr_ b) from_persistent_mem);
  mem_block ← deref found;
  let newbuf_size := size_ b -64 size in
  update_buf mem_buf (set_buf_size size);;
  let newbuf_addr := device_addr_ b + size in
  new_mem_buf ← new_buf (MkBuf newbuf_addr (if block_ptrs then Some mem_block else None) (status_ b)
                           newbuf_size EmptyString kOther);
  update_blk mem_block (λ k,
    set_block_map (ord_emplace newbuf_addr new_mem_buf (block_all_mem_buf_map_ k)) k);;
  k ← load_blk mem_block;
  match status_ b with
  | kMemBufUsed => mret ()
  | st => AddMemBuf from_persistent_mem st new_mem_buf (if block_ptrs then stream_id else stream_id_ k)
  end.

(** ** Combination *)

Definition EraseMemBufByStatus (size device_addr : Z) (from_persistent_mem : bool)
    (target_status : DynamicMemBufStatus) (stream_id : Z) : BF unit :=
  _ ← RemoveDeviceMem from_persistent_mem target_status size device_addr stream_id; mret ().

(** Combine backward: the next buffer into [mem_buf], which is at position [iter]. *)
Definition CombineNext (mem_block mem_buf : ptr) (iter : nat) (from_persistent_mem : bool)
    (target_status : DynamicMemBufStatus) : BF unit :=
  k ← load_blk mem_block;
  match block_all_mem_buf_map_ k !! S iter with
  | None => mret ()
  | Some (_, next_mem_buf) =>
      next ← load_buf next_mem_buf;
      if decide (status_ next = target_status) then
        update_buf mem_buf (λ b, set_buf_size (size_ b +64 size_ next) b);;
        EraseMemBufByStatus (size_ next) (device_addr_ next) from_persistent_mem target_status (stream_id_ k);;
        update_blk mem_block (λ k, set_block_map (delete (S iter) (block_all_mem_buf_map_ k)) k);;
        whenM deletes (delete_buf next_mem_buf)
      else mret ()
  end.

(** Combine forward: [mem_buf] into the previous buffer; the buffer that holds the
    memory afterwards. *)
Definition CombinePrev (mem_block mem_buf : ptr) (iter : nat) (from_persistent_mem : bool)
    (target_status : DynamicMemBufStatus) : BF ptr :=
  match iter with
  | O => mret mem_buf
  | S prev_iter =>
      k ← load_blk mem_block;
      '(_, prev_mem_buf) ← deref (block_all_mem_buf_map_ k !! prev_iter);
      prev ← load_buf prev_mem_buf;
      if decide (status_ prev = target_status) then
        EraseMemBufByStatus (size_ prev) (device_addr_ prev) from_persistent_mem target_status (stream_id_ k);;
        b ← load_buf mem_buf;
        update_buf prev_mem_buf (λ prev, set_buf_size (size_ prev +64 size_ b) prev);;
        update_blk mem_block (λ k, set_block_map (delete iter (block_all_mem_buf_map_ k)) k);;
        whenM deletes (delete_buf mem_buf);;
        mret prev_mem_buf
      else mret mem_buf
  end.

(** Put back the buffer into the container of its new status. *)
Definition put_back_mem_buf (mem_block mem_buf : ptr) (from_persistent_mem : bool)
    (target_status : DynamicMemBufStatus) : BF unit :=
  k ← load_blk mem_block;
  match target_status with
  | kMemBufUsed => mret ()
  | kMemBufIdle =>
      AddMemBuf from_persistent_mem kMemBufIdle mem_buf (stream_id_ k);;
      b ← load_buf mem_buf;
      upd_mps from_persistent_mem (add_idle (size_ b))
  | kMemBufEagerFree =>
      AddMemBuf from_persistent_mem kMemBufEagerFree mem_buf (stream_id_ k);;
      b ← load_buf mem_buf;
      upd_mps from_persistent_mem (add_eager (size_ b))
  end.

(** A status other than [origin_status] is only reported. *)
Definition CombineMemBuf (device_addr : Z) (origin_status target_status : DynamicMemBufStatus) : BF unit :=
  r ← FindByStrictAddr device_addr;
  match r with
  | None => mret ()
  | Some (mem_block, iter, from_persistent_mem) =>
      k ← load_blk mem_block;
      '(_, mem_buf) ← deref (block_all_mem_buf_map_ k !! iter);
      b ← load_buf mem_buf;
      update_buf mem_buf (set_buf_status target_status);;
      match origin_status with
      | kMemBufUsed => upd_mps from_persistent_mem (sub_used (size_ b))
      | kMemBufIdle => upd_mps from_persistent_mem (sub_idle (size_ b))
      | kMemBufEagerFree => mret ()
      end;;
      CombineNext mem_block mem_buf iter from_persistent_mem target_status;;
      last ← CombinePrev mem_block mem_buf iter from_persistent_mem target_status;
      put_back_mem_buf mem_block last from_persistent_mem target_status
  end.

(** ** Eager free *)

Definition eager_free_mem_func (from_persistent_mem : bool) : BF (Z * Z) :=
  m ← gets (mem_mng from_persistent_mem);
  r ← forM (concat (table_entries (idle_mem_bufs_ m)).*2) (λ acc entry,
    let '(size, mem_buf) := entry in
    b ← load_buf mem_buf;
    real ← on_device (FreeDeviceMemByEagerFree (device_addr_ b) size);
    CombineMemBuf (device_addr_ b) kMemBufIdle kMemBufEagerFree;;
    mret (acc.1 +64 size, acc.2 +64 real)) (0, 0);
  upd_mng from_persistent_mem (λ m, set_idle_bufs (clear_table (idle_mem_bufs_ m)) m);;
  mret r.

Definition FreeIdleMemsByEagerFree : BF Z :=
  persistent ← eager_free_mem_func true;
  common ← eager_free_mem_func false;
  mret (persistent.2 +64 common.2).

(** ** Allocation *)

Definition FindMemBufInSpecifiedMng (size : Z) (from_persistent_mem : bool)
    (target_status : DynamicMemBufStatus) (stream_id : Z) : BF Z :=
  m ← gets (mem_mng from_persistent_mem);
  '(mem_buf_map, t) ← deref (table_get stream_id (status_table target_status m));
  upd_mng from_persistent_mem (set_status_table target_status t);;
  let iter := lower_bound size mem_buf_map in
  match mem_buf_map !! iter with
  | None => mret 0
  | Some (_, mem_buf) =>
      debug ← gets debug_info_;
      update_buf mem_buf (set_buf_debug debug);;
      upd_mng from_persistent_mem (λ m,
        set_status_table target_status
          (table_set stream_id (delete iter mem_buf_map) (status_table target_status m)) m);;
      b ← load_buf mem_buf;
      whenM (IsSplit size (size_ b)) (SplitMemBuf size mem_buf from_persistent_mem stream_id);;
      update_buf mem_buf (set_buf_status kMemBufUsed);;
      b ← load_buf mem_buf;
      upd_mps from_persistent_mem (λ d,
        match target_status with
        | kMemBufIdle => sub_idle (size_ b) (add_used (size_ b) d)
        | kMemBufEagerFree => sub_eager (size_ b) (add_used (size_ b) d)
        | kMemBufUsed => add_used (size_ b) d
        end);;
      mret (device_addr_ b)
  end.

Definition FindMemBufByStatus (size : Z) (from_persistent_mem : bool)
    (target_status : DynamicMemBufStatus) (stream_id : Z) : BF Z :=
  addr ← FindMemBufInSpecifiedMng size from_persistent_mem target_status stream_id;
  m ← gets persistent_mem_;
  if (addr =? 0) && from_persistent_mem && negb (bool_decide (mem_block_list_ m = [])) then
    FindMemBufInSpecifiedMng size (negb from_persistent_mem) target_status stream_id
  else mret addr.

Definition FindAvailableMemBuf (size : Z) (from_persistent_mem : bool) (stream_id : Z) : BF Z :=
  addr ← FindMemBufByStatus size from_persistent_mem kMemBufIdle stream_id;
  p ← gets (λ p, p);
  if (addr =? 0) && is_trigger_eager_free_ p &&
     (TotalUsedMemStatistics p +64 TotalIdleMemStatistics p +64 size <=?
        eager_threshold (total_mem_size (device_ p)))
  then FindMemBufByStatus size from_persistent_mem kMemBufEagerFree stream_id
  else mret addr.

Definition CalMemBlockAllocSize (size : Z) (from_persistent_mem : bool) : BF Z :=
  p ← gets (λ p, p);
  let device_free_mem_size := free_mem_size (device_ p) in
  if device_free_mem_size <? size then mret 0
  else if device_free_mem_size <? kMinimumAllocMem then mret 0
  else
    alloc_mem_size ← deref (double_until double_fuel (MemAllocUnitSize from_persistent_mem p) size);
    mret (Z.min alloc_mem_size device_free_mem_size).

Definition CreateMemBlockAndMemBuf (size : Z) (from_persistent_mem : bool) (source_addr source_size : Z)
    (mem_buf_status : DynamicMemBufStatus) (stream_id : Z) : BF Z :=
  mem_block ← new_blk (MkBlock [] source_addr source_size stream_id);
  AddMemBlock from_persistent_mem mem_block stream_id;;
  debug ← gets debug_info_;
  mem_buf ← new_buf (MkBuf source_addr (if block_ptrs then Some mem_block else None) mem_buf_status
                       source_size debug.1 debug.2);
  update_blk mem_block (λ k, set_block_map (ord_emplace source_addr mem_buf (block_all_mem_buf_map_ k)) k);;
  whenM (IsSplitNew size source_size) (SplitMemBuf size mem_buf from_persistent_mem stream_id);;
  update_buf mem_buf (set_buf_status kMemBufUsed);;
  b ← load_buf mem_buf;
  upd_mps from_persistent_mem (λ d, add_used (size_ b) (add_total source_size d));;
  mret (device_addr_ b).

Definition AddMemBlockAndMemBufByEagerFree (size : Z) (from_persistent_mem : bool) (stream_id : Z) : BF Z :=
  p ← gets (λ p, p);
  if total_mem_size (device_ p) <? TotalUsedMemStatistics p +64 size then mret 0
  else
    _ ← on_device SyncAllStreams;
    _ ← FreeIdleMemsByEagerFree;
    mem_addr ← FindMemBufByStatus size from_persistent_mem kMemBufEagerFree stream_id;
    if negb (mem_addr =? 0) then mret mem_addr
    else
      alloc_size ← gets (λ p, total_mem_size (device_ p));
      '(real_alloc_size, device_addr) ← on_device (AllocDeviceMemByEagerFree alloc_size);
      if real_alloc_size <? alloc_size then mret 0
      else CreateMemBlockAndMemBuf size from_persistent_mem device_addr real_alloc_size
             kMemBufEagerFree stream_id.

Definition AddMemBlockAndMemBuf (size : Z) (from_persistent_mem need_recycle : bool) (stream_id : Z) : BF Z :=
  p ← gets (λ p, p);
  let from_persistent_mem :=
    if from_persistent_mem && negb need_recycle && negb (bool_decide (mem_block_list_ (persistent_mem_ p) = []))
    then false else from_persistent_mem in
  if is_trigger_eager_free_ p then AddMemBlockAndMemBufByEagerFree size from_persistent_mem stream_id
  else
    alloc_mem_size ← CalMemBlockAllocSize size from_persistent_mem;
    if alloc_mem_size =? 0 then
      device_addr ← FindAvailableMemBuf size (negb from_persistent_mem) stream_id;
      if negb (device_addr =? 0) then mret device_addr
      else
        eager ← gets (λ p, IsEnableEagerFree (device_ p));
        if (eager : bool) then
          modify (set_trigger_eager_free true);;
          AddMemBlockAndMemBufByEagerFree size from_persistent_mem stream_id
        else mret 0
    else
      '(real_alloc_size, device_addr) ← on_device (AllocDeviceMem alloc_mem_size);
      if real_alloc_size <? size then mret 0
      else
        upd_mng false (set_unit_size (config_unit_size_ p));;
        CreateMemBlockAndMemBuf size from_persistent_mem device_addr real_alloc_size kMemBufIdle stream_id.

Definition AllocTensorMem (size : Z) (from_persistent_mem need_recycle : bool) (stream_id : Z) : BF Z :=
  let stream_id := if rewrites_stream && (stream_id =? UINT32_MAX) then kDefaultStreamIndex else stream_id in
  let align_size := align_memory_size size in
  (if locks_alloc then with_mutex else id) (
    device_addr ← FindAvailableMemBuf align_size from_persistent_mem stream_id;
    init_recycle_memory ← gets init_recycle_memory_;
    device_addr ←
      (if need_recycle && negb init_recycle_memory
       then modify (set_init_recycle true);; mret 0
       else mret device_addr);
    if device_addr =? 0
    then AddMemBlockAndMemBuf align_size from_persistent_mem need_recycle stream_id
    else mret device_addr).

(** ** Contiguous allocation *)

Definition to_int32 (z : Z) : Z := let r := z mod w32 in if r <? 2147483648 then r else r - w32.

(** [std::accumulate(begin, end, 0)]: the initial value makes it a sum of [int]s. *)
Definition accumulate (size_list : list Z) : Z :=
  u64 (foldl (λ init size, to_int32 (u64 init +64 size)) 0 size_list).

(** The loop that cuts the whole piece; the last buffer made, and the addresses. *)
Definition continuous_bufs (mem_block : ptr) (size_list : list Z) (device_addr : Z)
    : BF (Z * option ptr * list Z) :=
  forM size_list (λ acc i,
    let '(buf_addr, _, device_addr_list) := acc in
    debug ← gets debug_info_;
    continuous_mem_buf ← new_buf (MkBuf buf_addr (if block_ptrs then Some mem_block else None)
                                    kMemBufUsed i debug.1 debug.2);
    update_blk mem_block (λ k,
      set_block_map (ord_emplace buf_addr continuous_mem_buf (block_all_mem_buf_map_ k)) k);;
    mret (buf_addr + i, Some continuous_mem_buf, device_addr_list ++ [buf_addr]))
  (device_addr, None, []).

Definition AllocContinuousTensorMem (size_list : list Z) (stream_id : Z) : BF (list Z) :=
  let total_size := accumulate size_list in
  device_addr ← AllocTensorMem total_size false false stream_id;
  if device_addr =? 0 then mret []
  else
    with_mutex (
      in_common ← FindMemBlock device_addr false;
      found ← (match in_common with Some _ => mret in_common | None => FindMemBlock device_addr true end);
      mem_block ← deref found;
      k ← load_blk mem_block;
      iter ← deref (ord_find device_addr (block_all_mem_buf_map_ k));
      '(_, mem_buf) ← deref (block_all_mem_buf_map_ k !! iter);
      b ← load_buf mem_buf;
      let rest_size := size_ b -64 total_size in
      update_blk mem_block (λ k, set_block_map (delete iter (block_all_mem_buf_map_ k)) k);;
      whenM deletes (delete_buf mem_buf);;
      r ← continuous_bufs mem_block size_list device_addr;
      continuous_mem_buf ← deref r.1.2;
      update_buf continuous_mem_buf (λ b, set_buf_size (size_ b +64 rest_size) b);;
      mret r.2).

(** ** Release *)

Definition FreeTensorMemInner (device_addr : Z) : BF unit :=
  CombineMemBuf device_addr kMemBufUsed kMemBufIdle.

Definition FreeTensorMem (device_addr : Z) : BF unit := with_mutex (FreeTensorMemInner device_addr).

Definition KeepTensorMemByAddr (device_addr size : Z) : BF unit :=
  found ← FindByKeepAddr device_addr;
  '(mem_block, mem_buf, from_persistent_mem) ← deref found;
  b ← load_buf mem_buf;
  k ← load_blk mem_block;
  debug ← gets debug_info_;
  let split_left_size := device_addr -64 device_addr_ b in
  let split_right_size := size_ b -64 split_left_size -64 size in
  EraseMemBufByStatus (size_ b) (device_addr_ b) from_persistent_mem (status_ b) (stream_id_ k);;
  (if split_left_size =? 0 then
     update_buf mem_buf (λ b, set_buf_debug debug (set_buf_size size (set_buf_status kMemBufUsed b)))
   else
     update_buf mem_buf (set_buf_size split_left_size);;
     AddMemBuf from_persistent_mem kMemBufIdle mem_buf (stream_id_ k);;
     used_mem_buf ← new_buf (MkBuf device_addr (if block_ptrs then Some mem_block else None)
                               kMemBufUsed size debug.1 debug.2);
     update_blk mem_block (λ k,
       set_block_map (ord_emplace device_addr used_mem_buf (block_all_mem_buf_map_ k)) k));;
  (if 0 <? split_right_size then
     let right_buf_addr := device_addr + size in
     right_mem_buf ← new_buf (MkBuf right_buf_addr (if block_ptrs then Some mem_block else None)
                                kMemBufIdle split_right_size EmptyString kOther);
     update_blk mem_block (λ k,
       set_block_map (ord_emplace right_buf_addr right_mem_buf (block_all_mem_buf_map_ k)) k);;
     AddMemBuf from_persistent_mem kMemBufIdle right_mem_buf (stream_id_ k)
   else mret ());;
  upd_mps from_persistent_mem (λ d, sub_idle size (add_used size d)).

Definition FreePartTensorMems (free_addrs keep_addrs keep_addr_sizes : list Z) : BF unit :=
  with_mutex (
    forM free_addrs (λ _ free_addr, FreeTensorMemInner free_addr) ();;
    forM (imap pair keep_addrs) (λ _ entry,
      size ← deref (keep_addr_sizes !! entry.1);
      KeepTensorMemByAddr entry.2 size) ()).

Definition release_blocks (from_persistent_mem : bool) : BF unit :=
  m ← gets (mem_mng from_persistent_mem);
  forM (mem_block_list_ m) (λ _ mem_block,
    k ← load_blk mem_block;
    if negb (device_addr_base_ k =? 0) then
      _ ← on_device (FreeDeviceMem (device_addr_base_ k));
      update_blk mem_block (set_block_addr 0)
    else mret ()) ();;
  Clear from_persistent_mem.

Definition ReleaseDeviceRes : BF unit := with_mutex (release_blocks false;; release_blocks true).

(** [~DynamicMemPoolBestFit] *)
Definition dtor : BF unit := Clear true;; Clear false.

(** The constructor. *)
Definition new_manager : MemStatusManager T :=
  MkManager kDynamicMemAllocUnitSize new_DeviceState [] new_table new_table new_table.
Definition new_pool (debug : string * AllocatorType) (d : D) : BestFitPool T D :=
  MkBestFit ∅ ∅ 1%positive new_manager new_manager kDynamicMemAllocUnitSize false false [] debug false d.
End ops.
End BestFit.

(** The version of mem_dynamic_allocator.cpp. *)
Module BestFitReference.
Definition IsSplit (tensor_size mem_buf_size : Z) : bool :=
  kDynamicMemAlignSize <=? mem_buf_size -64 tensor_size.
End BestFitReference.

#[export] Instance reference_variant : BestFitVariant | 10 := {|
  rewrites_stream := true;
  locks_alloc := false;
  sorts_streams := true;
  block_ptrs := false;
  deletes := false;
  align_memory_size := BestFit.AlignMemorySize;
  IsSplit := BestFitReference.IsSplit;
  IsSplitNew := BestFitReference.IsSplit
|}.
