(* ===== verification/BestFitAbs.v ===== *)
(** * The best-fit pool: abstract state

    What a best-fit pool promises, without pointers: for each manager the list of
    its blocks in address order, each block cut into cells that tile it. The
    abstract operations on cells, and the facts about them the refinement uses. *)

From S2P Require Import Prelude EventBase MemBufHeap MemGeometry MemStat OrdList StreamTable BestFitState.
Import BestFitTypes.

Record cell := MkCell {
  c_addr : Z;
  c_ptr : ptr;
  c_size : Z;
  c_status : DynamicMemBufStatus
}.

#[export] Instance cell_eq_dec : EqDecision cell.
Proof. solve_decision. Defined.

Record ablock := MkABlock {
  k_ptr : ptr;
  k_base : Z;
  k_size : Z;
  k_stream : Z;
  k_cells : list cell
}.

(** The blocks of the persistent and of the common manager. *)
Definition astate : Type := bool → list ablock.

Definition set_cells (C : list cell) (k : ablock) : ablock :=
  MkABlock (k_ptr k) (k_base k) (k_size k) (k_stream k) C.
Definition set_c_status (st : DynamicMemBufStatus) (c : cell) : cell :=
  MkCell (c_addr c) (c_ptr c) (c_size c) st.
Definition set_c_size (n : Z) (c : cell) : cell :=
  MkCell (c_addr c) (c_ptr c) n (c_status c).
(** [c] with the memory of its successor [d] *)
Definition grow (c d : cell) : cell := set_c_size (c_size c + c_size d) c.

(** The state with the cells of one block replaced. *)
Definition with_cells (A : astate) (s : bool) (K1 : list ablock) (k : ablock) (K2 : list ablock)
    (C : list cell) : astate := λ s', if eqb s' s then K1 ++ set_cells C k :: K2 else A s'.

Definition cells_of (K : list ablock) : list cell := K ≫= k_cells.
Definition entry (st : DynamicMemBufStatus) (c : cell) : option (Z * ptr) :=
  if decide (c_status c = st) then Some (c_size c, c_ptr c) else None.
(** The (size, buffer) pairs of a stream with a given status. *)
Definition entries (st : DynamicMemBufStatus) (stream : Z) (K : list ablock) : list (Z * ptr) :=
  K ≫= λ k, if decide (k_stream k = stream) then omap (entry st) (k_cells k) else [].
Definition cells_size (f : DynamicMemBufStatus → bool) (C : list cell) : Z :=
  foldr (λ c n, (if f (c_status c) then c_size c else 0) + n) 0 C.
Definition is_used (st : DynamicMemBufStatus) : bool :=
  match st with kMemBufUsed => true | _ => false end.
Definition used_bytes (K : list ablock) : Z := cells_size is_used (cells_of K).
Definition total_bytes (K : list ablock) : Z := foldr (λ k n, k_size k + n) 0 K.

(** [C] covers [a, e) without gaps, each cell against a neighbour of another status
    unless in use; [st] and [st'] are the status before and at the end. *)
Fixpoint tiles (st : DynamicMemBufStatus) (a : Z) (C : list cell) (e : Z) (st' : DynamicMemBufStatus) : Prop :=
  match C with
  | [] => a = e ∧ st = st'
  | c :: C' =>
      c_addr c = a ∧ 0 < c_size c ∧ (c_status c = st → st = kMemBufUsed) ∧
      tiles (c_status c) (a + c_size c) C' e st'
  end.

Definition ablock_ok (k : ablock) : Prop :=
  0 < k_base k ∧ 0 < k_size k ∧ k_base k + k_size k <= w64 ∧
  ∃ st, tiles kMemBufUsed (k_base k) (k_cells k) (k_base k + k_size k) st.

Definition block_before (k1 k2 : ablock) : Prop := k_base k1 + k_size k1 <= k_base k2.
Definition blocks_apart (k1 k2 : ablock) : Prop := block_before k1 k2 ∨ block_before k2 k1.

Record geo (A : astate) : Prop := {
  geo_ok : ∀ s k, k ∈ A s → ablock_ok k;
  geo_sorted : ∀ s, StronglySorted block_before (A s);
  geo_apart : ∀ k1 k2, k1 ∈ A true → k2 ∈ A false → blocks_apart k1 k2
}.

(** ** Tiles *)

Lemma tiles_app st a C1 C2 e st' :
  tiles st a (C1 ++ C2) e st' ↔ ∃ m sm, tiles st a C1 m sm ∧ tiles sm m C2 e st'.
Proof.
  revert st a. induction C1 as [|c C1 IH]; intros st a; simpl; [naive_solver|].
  setoid_rewrite IH. naive_solver.
Qed.

Lemma tiles_le st a C e st' : tiles st a C e st' → a <= e.
Proof.
  revert st a. induction C as [|c C IH]; intros st a; simpl; [intros [-> _]; lia|].
  intros (_ & ? & _ & Ht%IH). lia.
Qed.

Lemma tiles_range st a C e st' c : tiles st a C e st' → c ∈ C →
  a <= c_addr c ∧ 0 < c_size c ∧ c_addr c + c_size c <= e.
Proof.
  revert st a. induction C as [|d C IH]; intros st a; simpl; [set_solver|].
  intros (Hd & Hs & _ & Ht) [->|Hc]%elem_of_cons.
  - apply tiles_le in Ht. lia.
  - specialize (IH _ _ Ht Hc). lia.
Qed.

Lemma tiles_middle st a C1 c C2 e st' : tiles st a (C1 ++ c :: C2) e st' →
  ∃ sm, tiles st a C1 (c_addr c) sm ∧ 0 < c_size c ∧ (c_status c = sm → sm = kMemBufUsed) ∧
    tiles (c_status c) (c_addr c + c_size c) C2 e st'.
Proof.
  rewrite tiles_app. intros (m & sm & H1 & Hc & H2). simpl in Hc. exists sm. naive_solver.
Qed.

Lemma tiles_keys st a C e st' : tiles st a C e st' → StronglySorted (λ c d, c_addr c < c_addr d) C.
Proof.
  revert st a. induction C as [|c C IH]; intros st a; simpl; [constructor|].
  intros (Hc & Hs & _ & Ht). constructor; [by eapply IH|].
  apply Forall_forall. intros d Hd. pose proof (tiles_range _ _ _ _ _ _ Ht Hd). lia.
Qed.

(** The status before only matters for the first cell. *)
Lemma tiles_weaken st st2 a C e st' : tiles st a C e st' →
  (∀ c, head C = Some c → c_status c = st2 → st2 = kMemBufUsed) → (C = [] → st = st2) →
  tiles st2 a C e st'.
Proof.
  destruct C as [|c C]; simpl; [naive_solver|]. intros (? & ? & _ & ?) Hc _. naive_solver.
Qed.

(** A cell gets another status: fine when no neighbour has it. *)
Definition neighbour_free (st : DynamicMemBufStatus) (C1 C2 : list cell) : Prop :=
  (∀ c, last C1 = Some c → c_status c ≠ st) ∧ (∀ c, head C2 = Some c → c_status c ≠ st).

Lemma tiles_last st a C e st' : tiles st a C e st' →
  st' = from_option c_status st (last C).
Proof.
  revert st a. induction C as [|c C IH]; intros st a; [by intros [_ ->]|].
  intros (_ & _ & _ & ->%IH). rewrite last_cons. by destruct (last C).
Qed.

Lemma tiles_head_ne st a c C e st' : tiles st a (c :: C) e st' → st ≠ kMemBufUsed → c_status c ≠ st.
Proof. simpl. naive_solver. Qed.

(** The cell in the middle is replaced by cells that cover the same range. *)
Lemma tiles_replace a C1 c C2 e st' D : tiles kMemBufUsed a (C1 ++ c :: C2) e st' →
  (∀ sm st2 e', tiles kMemBufUsed a C1 (c_addr c) sm → tiles (c_status c) (c_addr c + c_size c) C2 e' st2 →
     ∃ st3, tiles sm (c_addr c) (D ++ C2) e' st3) →
  ∃ st3, tiles kMemBufUsed a (C1 ++ D ++ C2) e st3.
Proof.
  intros (sm & H1 & _ & _ & H2)%tiles_middle HD. destruct (HD _ _ _ H1 H2) as [st3 H3].
  exists st3. apply tiles_app. eauto.
Qed.

(** ** Combination of neighbours *)

Definition combine_next (c : cell) (C2 : list cell) : cell * list cell :=
  match C2 with
  | d :: C2' => if decide (c_status d = c_status c) then (grow c d, C2') else (c, C2)
  | [] => (c, [])
  end.
Definition combine_prev (C1 : list cell) (c : cell) : list cell * cell :=
  match last C1 with
  | Some b => if decide (c_status b = c_status c) then (removelast C1, grow b c) else (C1, c)
  | None => (C1, c)
  end.
Definition combine (C1 : list cell) (c : cell) (C2 : list cell) : list cell :=
  let '(c', C2') := combine_next c C2 in
  let '(C1', c'') := combine_prev C1 c' in
  C1' ++ c'' :: C2'.

Lemma combine_next_status c C2 : c_status (combine_next c C2).1 = c_status c.
Proof. destruct C2 as [|d C2]; simpl; [done|]. by case_decide. Qed.

Lemma combine_tiles a C1 c C2 e st st' :
  st ≠ kMemBufUsed → c_status c ≠ st →
  tiles kMemBufUsed a (C1 ++ c :: C2) e st' →
  ∃ st3, tiles kMemBufUsed a (combine C1 (set_c_status st c) C2) e st3.
Proof.
  intros Hst Hc (sm & H1 & Hs & Hn & H2)%tiles_middle. unfold combine.
  assert (∃ st3, tiles st (c_addr c + c_size (combine_next (set_c_status st c) C2).1)
            (combine_next (set_c_status st c) C2).2 e st3 ∧
          c_addr (combine_next (set_c_status st c) C2).1 = c_addr c ∧
          0 < c_size (combine_next (set_c_status st c) C2).1) as (st3 & H3 & Ha & Hp).
  { destruct C2 as [|d C2]; simpl in *.
    - exists st. destruct H2 as [-> _]. done.
    - destruct H2 as (Hd & Hds & Hdn & H2). case_decide as Hst'; simpl.
      + exists st'. split_and!; [|done|lia]. rewrite <- Hst'. by rewrite Z.add_assoc.
      + exists st'. split_and!; done. }
  pose proof (combine_next_status (set_c_status st c) C2) as Hcs. simpl in Hcs.
  destruct (combine_next (set_c_status st c) C2) as [c' C2'] eqn:He. simpl in *.
  unfold combine_prev. destruct (last C1) as [b|] eqn:Hl.
  - apply last_Some in Hl as [C1' ->]. pose proof (tiles_last _ _ _ _ _ H1) as Hsm.
    rewrite last_snoc in Hsm. rewrite removelast_last.
    apply tiles_app in H1 as (m & sb & H1 & Hb). simpl in Hb. destruct Hb as (Hba & Hbs & Hbn & Hbe & _).
    case_decide as Hbst.
    + exists st3. apply tiles_app. exists m, sb. split; [done|]. simpl. split_and!; [done|lia| |].
      * intros. by apply Hbn.
      * rewrite Hbst, Hcs. by replace (m + (c_size b + c_size c')) with (c_addr c + c_size c') by lia.
    + exists st3. rewrite <- app_assoc. apply tiles_app. exists m, sb. split; [done|]. simpl.
      rewrite Hcs, Hbe, Ha. split_and!; try done. intros Hx. congruence.
  - apply last_None in Hl as ->. simpl in *. destruct H1 as [-> <-]. exists st3. rewrite Hcs. split_and!; done.
Qed.

(** ** The state as a list of cells *)

Lemma cells_of_app K1 K2 : cells_of (K1 ++ K2) = cells_of K1 ++ cells_of K2.
Proof. apply bind_app. Qed.

Lemma entries_app st stream K1 K2 : entries st stream (K1 ++ K2) = entries st stream K1 ++ entries st stream K2.
Proof. apply bind_app. Qed.

Lemma cells_size_app f C1 C2 : cells_size f (C1 ++ C2) = cells_size f C1 + cells_size f C2.
Proof. induction C1; simpl; lia. Qed.

Lemma cells_size_nonneg f C : Forall (λ c, 0 < c_size c) C → 0 <= cells_size f C.
Proof. induction 1; simpl; [done|]. case_match; lia. Qed.

Lemma elem_of_cells c K : c ∈ cells_of K ↔ ∃ k, k ∈ K ∧ c ∈ k_cells k.
Proof. unfold cells_of. rewrite list_elem_of_bind. naive_solver. Qed.

Lemma elem_of_entries st stream K n x : (n, x) ∈ entries st stream K ↔
  ∃ k c, k ∈ K ∧ k_stream k = stream ∧ c ∈ k_cells k ∧ c_status c = st ∧ c_size c = n ∧ c_ptr c = x.
Proof.
  unfold entries. rewrite list_elem_of_bind. split.
  - intros (k & Hin & Hk). case_decide as Hs; [|by apply not_elem_of_nil in Hin].
    apply list_elem_of_omap in Hin as (c & Hc & He). unfold entry in He. case_decide; [|done].
    simplify_eq. naive_solver.
  - intros (k & c & Hk & Hs & Hc & Hst & Hn & Hx). exists k. split; [|done].
    rewrite decide_True by done. apply list_elem_of_omap. exists c. split; [done|].
    unfold entry. rewrite decide_True by done. by subst.
Qed.

(** ** One block in focus *)

Lemma with_cells_same A s K1 k K2 C : with_cells A s K1 k K2 C s = K1 ++ set_cells C k :: K2.
Proof. unfold with_cells. by rewrite eqb_reflx. Qed.

Lemma with_cells_other A s K1 k K2 C s' : s' ≠ s → with_cells A s K1 k K2 C s' = A s'.
Proof. unfold with_cells. destruct s, s'; done. Qed.

Lemma set_cells_id k : set_cells (k_cells k) k = k.
Proof. by destruct k. Qed.

Lemma set_cells_cells C k : k_cells (set_cells C k) = C.
Proof. done. Qed.

Definition all_cells (A : astate) : list cell := cells_of (A true) ++ cells_of (A false).
Definition all_blocks (A : astate) : list ablock := A true ++ A false.

Lemma elem_of_all_cells A c : c ∈ all_cells A ↔ ∃ s k, k ∈ A s ∧ c ∈ k_cells k.
Proof.
  unfold all_cells. rewrite elem_of_app, !elem_of_cells. split.
  - intros [(k & ? & ?)|(k & ? & ?)]; [by exists true, k|by exists false, k].
  - intros ([] & k & ? & ?); [left|right]; eauto.
Qed.

Lemma elem_of_all_blocks A k : k ∈ all_blocks A ↔ ∃ s, k ∈ A s.
Proof.
  unfold all_blocks. rewrite elem_of_app. split.
  - intros [?|?]; [by exists true|by exists false].
  - intros ([] & ?); auto.
Qed.

Lemma all_cells_focus A s K1 k K2 : ∃ X Y, ∀ C, all_cells (with_cells A s K1 k K2 C) = X ++ C ++ Y.
Proof.
  unfold all_cells. destruct s.
  - exists (cells_of K1), (cells_of K2 ++ cells_of (A false)). intros C.
    rewrite with_cells_same, with_cells_other by done. rewrite cells_of_app. simpl.
    by rewrite <- !app_assoc.
  - exists (cells_of (A true) ++ cells_of K1), (cells_of K2). intros C.
    rewrite with_cells_same, with_cells_other by done. rewrite cells_of_app. simpl.
    by rewrite <- !app_assoc.
Qed.

Lemma entries_focus A s K1 k K2 C st stream : entries st stream (with_cells A s K1 k K2 C s) =
  entries st stream K1 ++
  (if decide (k_stream k = stream) then omap (entry st) C else []) ++ entries st stream K2.
Proof. rewrite with_cells_same, entries_app. done. Qed.

Lemma entries_other A s K1 k K2 C C' st stream s' :
  (∀ stream, k_stream k = stream → omap (entry st) C ≡ₚ omap (entry st) C') →
  entries st stream (with_cells A s K1 k K2 C s') ≡ₚ entries st stream (with_cells A s K1 k K2 C' s').
Proof.
  intros HC. destruct (decide (s' = s)) as [->|Hs].
  - rewrite !entries_focus. case_decide; [|done]. by rewrite HC.
  - by rewrite !with_cells_other.
Qed.

Lemma used_bytes_focus A s K1 k K2 C :
  used_bytes (with_cells A s K1 k K2 C s) =
  used_bytes K1 + cells_size is_used C + used_bytes K2.
Proof.
  unfold used_bytes. rewrite with_cells_same, cells_of_app. simpl.
  rewrite !cells_size_app. change (k_cells (set_cells C k)) with C. lia.
Qed.

Lemma total_bytes_app K1 K2 : total_bytes (K1 ++ K2) = total_bytes K1 + total_bytes K2.
Proof. induction K1; simpl; lia. Qed.

Lemma total_bytes_focus A s K1 k K2 C s' :
  A s = K1 ++ k :: K2 → total_bytes (with_cells A s K1 k K2 C s') = total_bytes (A s').
Proof.
  intros HA. destruct (decide (s' = s)) as [->|Hs]; [|by rewrite with_cells_other].
  rewrite with_cells_same, HA, !total_bytes_app. done.
Qed.

(** A property of base, size and stream of a block does not see its cells. *)
Lemma with_cells_Forall (P : ablock → Prop) A s K1 k K2 C s' :
  A s = K1 ++ k :: K2 → (P k → P (set_cells C k)) →
  (∀ k', k' ∈ A s' → P k') → ∀ k', k' ∈ with_cells A s K1 k K2 C s' → P k'.
Proof.
  intros HA HP Hall k'. destruct (decide (s' = s)) as [->|Hs]; [|rewrite with_cells_other by done; auto].
  rewrite with_cells_same, HA in *. intros [Hk|[->|Hk]%elem_of_cons]%elem_of_app.
  - apply Hall. set_solver.
  - apply HP, Hall. set_solver.
  - apply Hall. set_solver.
Qed.

Lemma sorted_middle {B} (R : B → B → Prop) l1 x y l2 :
  (∀ z, R z x ↔ R z y) → (∀ z, R x z ↔ R y z) →
  StronglySorted R (l1 ++ x :: l2) → StronglySorted R (l1 ++ y :: l2).
Proof.
  intros Hl Hr. induction l1 as [|z l1 IH]; simpl; intros [Hs Hz]%StronglySorted_inv; constructor.
  - done.
  - eapply Forall_impl; [exact Hz|]. intros. by apply Hr.
  - by apply IH.
  - rewrite Forall_app, Forall_cons in *. naive_solver.
Qed.

Lemma geo_with_cells A s K1 k K2 C : geo A → A s = K1 ++ k :: K2 →
  (∃ st, tiles kMemBufUsed (k_base k) C (k_base k + k_size k) st) → geo (with_cells A s K1 k K2 C).
Proof.
  intros [Hok Hs Ha] HA HC. split.
  - intros s'. apply with_cells_Forall; [done| |apply Hok]. intros (? & ? & ? & _).
    unfold ablock_ok. simpl. done.
  - intros s'. destruct (decide (s' = s)) as [->|Hne]; [|rewrite with_cells_other by done; apply Hs].
    rewrite with_cells_same. specialize (Hs s). rewrite HA in Hs.
    eapply sorted_middle; [| |exact Hs]; done.
  - intros k1 k2 H1 H2.
    apply (with_cells_Forall (λ k2, blocks_apart k1 k2) A s K1 k K2 C false HA); [done| |done].
    intros k2' Hk2'.
    apply (with_cells_Forall (λ k1, blocks_apart k1 k2') A s K1 k K2 C true HA); [done| |done].
    intros k1' Hk1'. by apply Ha.
Qed.

(** Blocks of a state in good order are apart. *)
Lemma geo_blocks_apart A s1 s2 k1 k2 : geo A → k1 ∈ A s1 → k2 ∈ A s2 →
  s1 ≠ s2 ∨ k1 ≠ k2 → blocks_apart k1 k2.
Proof.
  intros [_ Hs Ha] H1 H2 Hne. destruct (decide (s1 = s2)) as [->|Hs12].
  - assert (k1 ≠ k2) as Hk by naive_solver. clear Hne.
    specialize (Hs s2). induction Hs as [|z K _ IH Hz]; [set_solver|].
    rewrite Forall_forall in Hz. unfold blocks_apart.
    apply elem_of_cons in H1 as [->|H1], H2 as [->|H2]; [done| | |by apply IH].
    + left. by apply Hz.
    + right. by apply Hz.
  - unfold blocks_apart in *. destruct s1, s2; try done; [by apply Ha|].
    destruct (Ha k2 k1 H2 H1); [by right|by left].
Qed.

Lemma cell_in_block k c : ablock_ok k → c ∈ k_cells k →
  k_base k <= c_addr c ∧ 0 < c_size c ∧ c_addr c + c_size c <= k_base k + k_size k.
Proof. intros (_ & _ & _ & st & Ht) Hc. by eapply tiles_range. Qed.

(** An address is in one cell only. *)
Lemma cells_disjoint A s1 s2 k1 k2 c1 c2 : geo A →
  k1 ∈ A s1 → k2 ∈ A s2 → c1 ∈ k_cells k1 → c2 ∈ k_cells k2 →
  c1 = c2 ∨ c_addr c1 + c_size c1 <= c_addr c2 ∨ c_addr c2 + c_size c2 <= c_addr c1.
Proof.
  intros Hg H1 H2 Hc1 Hc2.
  destruct (decide (s1 = s2 ∧ k_base k1 = k_base k2)) as [[-> Hb]|Hne].
  - assert (k1 = k2) as ->.
    { destruct Hg as [Hok Hs _]. pose proof (Hok _ _ H1) as (_ & ? & _). pose proof (Hok _ _ H2) as (_ & ? & _).
      clear Hok Hc1 Hc2. specialize (Hs s2). induction Hs as [|z K _ IH Hz]; [set_solver|].
      rewrite Forall_forall in Hz. unfold block_before in Hz.
      apply elem_of_cons in H1 as [->|H1], H2 as [->|H2]; [done| | |by apply IH].
      - specialize (Hz _ H2). lia.
      - specialize (Hz _ H1). lia. }
    destruct Hg as [Hok _ _]. destruct (Hok _ _ H1) as (_ & _ & _ & st & Ht). clear Hok H1 H2 Hb.
    revert Ht. generalize kMemBufUsed (k_base k2) (k_base k2 + k_size k2).
    induction (k_cells k2) as [|d C IH]; [set_solver|]. intros sp a e. simpl. intros (Ha & Hs & _ & Ht).
    apply elem_of_cons in Hc1 as [->|Hc1], Hc2 as [->|Hc2].
    + by left.
    + pose proof (tiles_range _ _ _ _ _ _ Ht Hc2). lia.
    + pose proof (tiles_range _ _ _ _ _ _ Ht Hc1). lia.
    + by eapply IH.
  - right. destruct (geo_blocks_apart A s1 s2 k1 k2 Hg H1 H2) as [Hb|Hb].
    + destruct (decide (s1 = s2)); [right; intros ->; naive_solver|by left].
    + pose proof (cell_in_block _ _ (geo_ok _ Hg _ _ H1) Hc1).
      pose proof (cell_in_block _ _ (geo_ok _ Hg _ _ H2) Hc2). unfold block_before in Hb. lia.
    + pose proof (cell_in_block _ _ (geo_ok _ Hg _ _ H1) Hc1).
      pose proof (cell_in_block _ _ (geo_ok _ Hg _ _ H2) Hc2). unfold block_before in Hb. lia.
Qed.

(** A cell contributes one entry, to the stream of its block and its status. *)
Lemma entries_with_cell A s K1 k K2 X d Y st s' stream :
  entries st stream (with_cells A s K1 k K2 (X ++ d :: Y) s') ≡ₚ
  (if decide (s' = s ∧ k_stream k = stream ∧ c_status d = st) then [(c_size d, c_ptr d)] else []) ++
  entries st stream (with_cells A s K1 k K2 (X ++ Y) s').
Proof.
  destruct (decide (s' = s)) as [->|Hs].
  - rewrite !entries_focus. destruct (decide (k_stream k = stream)) as [Hk|Hk].
    + rewrite !omap_app. cbn [omap list_omap]. unfold entry at 2.
      destruct (decide (c_status d = st)) as [Hd|Hd].
      * rewrite decide_True by done. simpl. rewrite <- !app_assoc. simpl. symmetry.
        rewrite Permutation_middle. by rewrite (app_assoc _ (omap _ X)), Permutation_middle, <- app_assoc.
      * by rewrite decide_False by naive_solver.
    + by rewrite decide_False by naive_solver.
  - rewrite !with_cells_other by done. by rewrite decide_False by naive_solver.
Qed.

Lemma entries_status A s K1 k K2 X d Y st s' stream : c_status d ≠ st →
  entries st stream (with_cells A s K1 k K2 (X ++ d :: Y) s') ≡ₚ
  entries st stream (with_cells A s K1 k K2 (X ++ Y) s').
Proof. intros Hd. rewrite entries_with_cell. by rewrite decide_False by naive_solver. Qed.

Lemma with_cells_id A s K1 k K2 s' : A s = K1 ++ k :: K2 → with_cells A s K1 k K2 (k_cells k) s' = A s'.
Proof.
  intros HA. destruct (decide (s' = s)) as [->|Hs]; [|by rewrite with_cells_other].
  by rewrite with_cells_same, set_cells_id.
Qed.

Lemma geo_ext A B : (∀ s, A s = B s) → geo A → geo B.
Proof.
  intros He [H1 H2 H3]. split.
  - intros s k. rewrite <- He. apply H1.
  - intros s. rewrite <- He. apply H2.
  - intros k1 k2. rewrite <- !He. apply H3.
Qed.

Lemma combine_next_range c C2 : ∃ D, C2 = D ++ (combine_next c C2).2 ∧
  c_size (combine_next c C2).1 = c_size c + cells_size (λ _, true) D ∧
  c_addr (combine_next c C2).1 = c_addr c ∧ c_ptr (combine_next c C2).1 = c_ptr c.
Proof.
  destruct C2 as [|d C2]; simpl; [by exists []; simpl; split_and!; [|lia| |]|].
  case_decide; [exists [d]|exists []]; simpl; split_and!; try done; lia.
Qed.

Lemma tiles_size st a C e st' : tiles st a C e st' → cells_size (λ _, true) C = e - a.
Proof.
  revert st a. induction C as [|c C IH]; intros st a; simpl; [intros [-> _]; lia|].
  intros (_ & _ & _ & Ht%IH). lia.
Qed.

Lemma tiles_pos st a C e st' : tiles st a C e st' → Forall (λ c, 0 < c_size c) C.
Proof. intros Ht. apply Forall_forall. intros c Hc. by apply (tiles_range _ _ _ _ _ _ Ht). Qed.

(** Neighbours fit in the block together, so that their sizes add up without wrapping. *)
Lemma combine_bounds st a C1 c C2 e st' n : tiles st a (C1 ++ c :: C2) e st' → 0 < a → e <= w64 →
  (∀ d, head C2 = Some d → 0 <= c_size c + c_size d < w64) ∧
  (∀ b, last C1 = Some b → 0 <= c_size b + c_size (combine_next (set_c_status n c) C2).1 < w64).
Proof.
  intros Ht Ha He. pose proof (tiles_size _ _ _ _ _ Ht) as Hs. pose proof (tiles_pos _ _ _ _ _ Ht) as Hp.
  rewrite cells_size_app in Hs. simpl in Hs.
  rewrite Forall_app, Forall_cons in Hp. destruct Hp as (Hp1 & Hc & Hp2). split.
  - intros d Hd. destruct C2 as [|d' C2]; [done|]. injection Hd as ->. simpl in Hs.
    apply Forall_cons in Hp2 as [Hd Hp2].
    pose proof (cells_size_nonneg (λ _, true) _ Hp1). pose proof (cells_size_nonneg (λ _, true) _ Hp2). lia.
  - intros b [C1' ->]%last_Some. rewrite cells_size_app in Hs. simpl in Hs.
    apply Forall_app in Hp1 as [Hp1 Hb]. apply Forall_cons in Hb as [Hb _].
    destruct (combine_next_range (set_c_status n c) C2) as (D & HD & -> & _).
    rewrite HD in Hs, Hp2. rewrite cells_size_app in Hs. apply Forall_app in Hp2 as [HpD Hp2].
    pose proof (cells_size_nonneg (λ _, true) _ Hp1). pose proof (cells_size_nonneg (λ _, true) _ Hp2).
    pose proof (cells_size_nonneg (λ _, true) _ HpD). simpl. lia.
Qed.

(** A function that only selects cells of the status [st]. *)
Definition selects {B} (st : DynamicMemBufStatus) (f : cell → option B) : Prop :=
  ∀ c, c_status c ≠ st → f c = None.

Lemma entry_selects st : selects st (entry st).
Proof. intros c Hc. unfold entry. by rewrite decide_False. Qed.

Lemma omap_middle {B} (f : cell → option B) st X c Y : selects st f → c_status c ≠ st →
  omap f (X ++ c :: Y) = omap f (X ++ Y).
Proof. intros Hf Hc. rewrite !omap_app. simpl. by rewrite Hf. Qed.

(** Combination only touches cells of one status. *)
Lemma combine_omap {B} (f : cell → option B) st C1 c C2 : selects st f → c_status c ≠ st →
  omap f (combine C1 c C2) = omap f (C1 ++ C2).
Proof.
  intros Hf Hc. unfold combine, combine_next.
  assert (∀ c C2, c_status c ≠ st → omap f
    (let '(C1', c'') := combine_prev C1 c in C1' ++ c'' :: C2) = omap f (C1 ++ C2)) as Hprev.
  { clear C2 c Hc. intros c C2 Hc. unfold combine_prev.
    destruct (last C1) as [b|] eqn:Hl; [|by rewrite (omap_middle f st)].
    case_decide as Hb; [|by rewrite (omap_middle f st)].
    apply last_Some in Hl as [C1' ->]. rewrite removelast_last, <- app_assoc. cbn [app].
    assert (c_status b ≠ st) by (by rewrite Hb). rewrite (omap_middle f st _ (grow b c)) by done.
    by rewrite (omap_middle f st _ b). }
  destruct C2 as [|d C2]; [by apply Hprev|]. case_decide as Hd; [|by apply Hprev].
  rewrite Hprev by done. rewrite (omap_middle f st); [done|done|by rewrite Hd].
Qed.

Lemma combine_entries st C1 c C2 : c_status c ≠ st →
  omap (entry st) (combine C1 c C2) = omap (entry st) (C1 ++ C2).
Proof. apply combine_omap, entry_selects. Qed.

(** ** Carving a cell for a request *)

(** What is left of [c] after its first [size] bytes. *)
Definition rest_cell (size : Z) (x : ptr) (c : cell) : cell :=
  MkCell (c_addr c + size) x (c_size c - size) (c_status c).
(** The cells that replace [c] when [size] bytes of it are handed out, with or
    without a new cell [x] for the rest. *)
Definition carve (split : bool) (size : Z) (x : ptr) (c : cell) : list cell :=
  if split then [set_c_status kMemBufUsed (set_c_size size c); rest_cell size x c]
  else [set_c_status kMemBufUsed c].

Lemma carve_tiles a C1 c C2 e st' split size x :
  tiles kMemBufUsed a (C1 ++ c :: C2) e st' → (split = true → 0 < size < c_size c) →
  ∃ st3, tiles kMemBufUsed a (C1 ++ carve split size x c ++ C2) e st3.
Proof.
  intros (sm & H1 & Hs & _ & H2)%tiles_middle Hsp. destruct split; simpl.
  - exists st'. apply tiles_app. exists (c_addr c), sm. split; [done|]. simpl. specialize (Hsp eq_refl).
    split_and!; try done; try lia.
    by replace (c_addr c + size + (c_size c - size)) with (c_addr c + c_size c) by lia.
  - exists (from_option c_status kMemBufUsed (last C2)). apply tiles_app. exists (c_addr c), sm. split; [done|].
    simpl. split_and!; try done. destruct C2 as [|d C2]; simpl in *; [by destruct H2 as [-> _]|].
    destruct H2 as (? & ? & ? & H2). split_and!; try done. pose proof (tiles_last _ _ _ _ _ H2) as ->.
    rewrite last_cons. destruct (last C2); done.
Qed.

Definition granted (split : bool) (size : Z) (c : cell) : Z := if split then size else c_size c.

Lemma carve_used split size x c C1 C2 : c_status c ≠ kMemBufUsed →
  cells_size is_used (C1 ++ carve split size x c ++ C2) =
  cells_size is_used (C1 ++ c :: C2) + granted split size c.
Proof.
  intros Hc. destruct split; simpl; rewrite !cells_size_app; simpl; destruct (c_status c); try done; simpl; lia.
Qed.

Lemma carve_entries st split size x c C1 C2 : c_status c ≠ kMemBufUsed → st ≠ kMemBufUsed → c_status c ≠ st →
  omap (entry st) (C1 ++ carve split size x c ++ C2) = omap (entry st) (C1 ++ c :: C2).
Proof.
  intros Hc Hu Hst. rewrite (omap_middle (entry st) st C1 c) by (done || apply entry_selects). unfold carve. destruct split; cbn [app].
  - rewrite (omap_middle (entry st) st) by (apply entry_selects || by apply not_eq_sym).
    by rewrite (omap_middle (entry st) st) by (done || apply entry_selects).
  - by rewrite (omap_middle (entry st) st) by (apply entry_selects || by apply not_eq_sym).
Qed.

(** ** Ranges in use *)

Definition used_range (c : cell) : option (Z * Z) :=
  match c_status c with kMemBufUsed => Some (c_addr c, c_size c) | _ => None end.
Definition used_ranges (A : astate) : list (Z * Z) := omap used_range (all_cells A).

Lemma used_range_selects : selects kMemBufUsed used_range.
Proof. intros c Hc. unfold used_range. by destruct (c_status c). Qed.

Lemma used_ranges_focus A s K1 k K2 C C' l : omap used_range C ≡ₚ l ++ omap used_range C' →
  used_ranges (with_cells A s K1 k K2 C) ≡ₚ l ++ used_ranges (with_cells A s K1 k K2 C').
Proof.
  intros HC. destruct (all_cells_focus A s K1 k K2) as (X & Y & Hf). unfold used_ranges.
  rewrite !Hf, !omap_app, HC. rewrite <- app_assoc. by rewrite Permutation_app_swap_app.
Qed.

Lemma used_ranges_ext A B : (∀ s, A s = B s) → used_ranges A = used_ranges B.
Proof. intros He. unfold used_ranges, all_cells. by rewrite !He. Qed.

Lemma used_ranges_id A s K1 k K2 : A s = K1 ++ k :: K2 →
  used_ranges (with_cells A s K1 k K2 (k_cells k)) = used_ranges A.
Proof. intros HA. apply used_ranges_ext. intros s'. by apply with_cells_id. Qed.

Lemma elem_of_used_ranges A a n : (a, n) ∈ used_ranges A ↔
  ∃ c, c ∈ all_cells A ∧ c_status c = kMemBufUsed ∧ c_addr c = a ∧ c_size c = n.
Proof.
  unfold used_ranges. rewrite list_elem_of_omap. unfold used_range. split.
  - intros (c & Hc & He). exists c. destruct (c_status c); naive_solver.
  - intros (c & Hc & Hst & <- & <-). exists c. by rewrite Hst.
Qed.

Lemma carve_ranges split size x c C1 C2 : c_status c ≠ kMemBufUsed →
  omap used_range (C1 ++ carve split size x c ++ C2) ≡ₚ
  [(c_addr c, granted split size c)] ++ omap used_range (C1 ++ c :: C2).
Proof.
  intros Hc. rewrite (omap_middle used_range kMemBufUsed _ c) by (done || apply used_range_selects).
  assert (used_range (rest_cell size x c) = None) as Hrest by (by apply used_range_selects).
  destruct split; unfold carve; rewrite !omap_app; cbn [omap list_omap]; rewrite ?Hrest.
  - change (used_range (set_c_status kMemBufUsed (set_c_size size c))) with (Some (c_addr c, size)).
    cbn [app granted]. symmetry. apply Permutation_middle.
  - change (used_range (set_c_status kMemBufUsed c)) with (Some (c_addr c, c_size c)).
    cbn [app granted]. symmetry. apply Permutation_middle.
Qed.
