(* ===== verification/BestFitRep.v ===== *)
(** * The best-fit pool: representation of the abstract state

    How the store, the block lists and the per-stream containers of a pool
    represent a list of tiled blocks, what the lookups and the container
    operations do on such a state, and how a local change of one block is
    represented. *)

From S2P Require Import Prelude EventBase MemBufHeap MemGeometry MemStat OrdList StreamTable BestFitState BestFit BestFitAbs.
Import BestFitTypes BestFit.

(** ** Store access *)

Section access.
Context {T : Type → Type} {D : Type}.
Implicit Types (p : BestFitPool T D).

Lemma wp_load_buf x b p (Q : DynamicMemBuf → BestFitPool T D → Prop) :
  bufs_ p !! x = Some b → Q b p → wp (load_buf x) p Q.
Proof. intros Hx HQ. unfold wp, load_buf. by rewrite Hx. Qed.

Lemma bf_wp_load_blk x k p (Q : DynamicMemBlock → BestFitPool T D → Prop) :
  blks_ p !! x = Some k → Q k p → wp (load_blk x) p Q.
Proof. intros Hx HQ. unfold wp, load_blk. by rewrite Hx. Qed.

Lemma wp_update_buf x b f p (Q : unit → BestFitPool T D → Prop) :
  bufs_ p !! x = Some b → Q () (set_bufs (<[x := f b]> (bufs_ p)) p) → wp (update_buf x f) p Q.
Proof. intros Hx HQ. unfold update_buf. wp_step. by eapply wp_load_buf. Qed.

Lemma bf_wp_update_blk x k f p (Q : unit → BestFitPool T D → Prop) :
  blks_ p !! x = Some k → Q () (set_blks (<[x := f k]> (blks_ p)) p) → wp (update_blk x f) p Q.
Proof. intros Hx HQ. unfold update_blk. wp_step. by eapply bf_wp_load_blk. Qed.

Lemma wp_delete_buf_bf x b p (Q : unit → BestFitPool T D → Prop) :
  bufs_ p !! x = Some b → Q () (set_bufs (delete x (bufs_ p)) p) → wp (delete_buf x) p Q.
Proof. intros Hx HQ. unfold delete_buf. wp_step. by eapply wp_load_buf. Qed.

Lemma wp_upd_mng s f p (Q : unit → BestFitPool T D → Prop) :
  Q () (set_mng s (f (mem_mng s p)) p) → wp (upd_mng s f) p Q.
Proof. done. Qed.

Lemma wp_upd_mps s f p (Q : unit → BestFitPool T D → Prop) :
  Q () (set_mng s (set_mps (f (mps_ (mem_mng s p))) (mem_mng s p)) p) → wp (upd_mps s f) p Q.
Proof. done. Qed.

Lemma mem_mng_set_same s m p : mem_mng s (set_mng s m p) = m.
Proof. by destruct s. Qed.

Lemma mem_mng_set_other s s' m p : s' ≠ s → mem_mng s' (set_mng s m p) = mem_mng s' p.
Proof. by destruct s, s'. Qed.

(** What an operation on the buffers of a pool leaves alone. *)
Record keeps p p' : Prop := {
  kp_list s : mem_block_list_ (mem_mng s p') = mem_block_list_ (mem_mng s p);
  kp_streams s : mem_blocks_ (mem_mng s p') = mem_blocks_ (mem_mng s p);
  kp_unit s : unit_size_ (mem_mng s p') = unit_size_ (mem_mng s p);
  kp_config : config_unit_size_ p' = config_unit_size_ p;
  kp_trigger : is_trigger_eager_free_ p' = is_trigger_eager_free_ p;
  kp_init : init_recycle_memory_ p' = init_recycle_memory_ p;
  kp_used_bufs : mem_bufs_ p' = mem_bufs_ p;
  kp_mutex : mutex_ p' = mutex_ p;
  kp_device : device_ p' = device_ p
}.

Lemma keeps_refl p : keeps p p.
Proof. by split. Qed.

Lemma keeps_trans p1 p2 p3 : keeps p1 p2 → keeps p2 p3 → keeps p1 p3.
Proof. intros [] []; split; congruence. Qed.

(** An update of one manager that leaves its lists of blocks alone. *)
Lemma keeps_set_mng s m p :
  mem_block_list_ m = mem_block_list_ (mem_mng s p) → mem_blocks_ m = mem_blocks_ (mem_mng s p) →
  unit_size_ m = unit_size_ (mem_mng s p) → keeps p (set_mng s m p).
Proof. intros. split; try done; intros s'; by destruct s, s'. Qed.
End access.
#[export] Hint Resolve keeps_refl : pool.

Lemma set_status_table_list {T : Type → Type} st v (m : MemStatusManager T) :
  mem_block_list_ (set_status_table st v m) = mem_block_list_ m ∧
  mem_blocks_ (set_status_table st v m) = mem_blocks_ m ∧
  unit_size_ (set_status_table st v m) = unit_size_ m ∧
  mps_ (set_status_table st v m) = mps_ m.
Proof. by destruct st. Qed.

(** ** Representation *)

Definition key (c : cell) : Z * ptr := (c_addr c, c_ptr c).
Definition block_of (k : ablock) : DynamicMemBlock :=
  MkBlock (key <$> k_cells k) (k_base k) (k_size k) (k_stream k).

Section rep.
Context {T : Type → Type} `{StreamTable T} {D : Type} `{V : BestFitVariant}.
Context {stream_ok : Z → Prop} {reusable : Prop} `{!StreamTableLaws T stream_ok reusable}.
Implicit Types (p : BestFitPool T D) (A : astate).

Definition cell_rep (B : gmap ptr DynamicMemBuf) (x : ptr) (c : cell) : Prop :=
  ∃ b, B !! c_ptr c = Some b ∧ device_addr_ b = c_addr c ∧ size_ b = c_size c ∧
    status_ b = c_status c ∧ (block_ptrs = true → mem_block_ptr_ b = Some x).

Record shape A p : Prop := {
  sh_list s : mem_block_list_ (mem_mng s p) = k_ptr <$> A s;
  sh_blk s k : k ∈ A s → blks_ p !! k_ptr k = Some (block_of k);
  sh_cell s k c : k ∈ A s → c ∈ k_cells k → cell_rep (bufs_ p) (k_ptr k) c;
  sh_blk_NoDup : NoDup (k_ptr <$> all_blocks A);
  sh_cell_NoDup : NoDup (c_ptr <$> all_cells A);
  sh_addr_NoDup : NoDup (c_addr <$> all_cells A);
  sh_fresh x : (next_ p <= x)%positive → bufs_ p !! x = None ∧ blks_ p !! x = None
}.

(** The containers of one status hold the entries [L]. *)
Record tab (st : DynamicMemBufStatus) (L : bool → Z → list (Z * ptr)) p : Prop := {
  tab_valid s stream : stream_ok stream → valid stream (status_table st (mem_mng s p));
  tab_sorted s stream : StronglySorted keys_le (contents stream (status_table st (mem_mng s p)));
  tab_perm s stream : contents stream (status_table st (mem_mng s p)) ≡ₚ L s stream
}.

Definition tab_of (st : DynamicMemBufStatus) A : BestFitPool T D → Prop :=
  tab st (λ s stream, entries st stream (A s)).

Definition same_table (st : DynamicMemBufStatus) p p' : Prop :=
  ∀ s, status_table st (mem_mng s p') = status_table st (mem_mng s p).
Definition same_mps p p' : Prop := ∀ s, mps_ (mem_mng s p') = mps_ (mem_mng s p).

Lemma tab_ext st L L' p p' : tab st L p → same_table st p p' →
  (∀ s stream, L s stream ≡ₚ L' s stream) → tab st L' p'.
Proof. intros [] Hs HL. split; intros s stream; rewrite Hs; rewrite <- ?HL; auto. Qed.

Lemma same_table_trans st p1 p2 p3 : same_table st p1 p2 → same_table st p2 p3 → same_table st p1 p3.
Proof. unfold same_table. intros H1 H2 s. by rewrite H2, H1. Qed.

Lemma same_mps_trans p1 p2 p3 : same_mps p1 p2 → same_mps p2 p3 → same_mps p1 p3.
Proof. unfold same_mps. intros H1 H2 s. by rewrite H2, H1. Qed.

(** An operation that only rewrites the containers of one status. *)
Record table_step (st : DynamicMemBufStatus) p p' : Prop := {
  ts_bufs : bufs_ p' = bufs_ p;
  ts_blks : blks_ p' = blks_ p;
  ts_next : next_ p' = next_ p;
  ts_keeps : keeps p p';
  ts_mps : same_mps p p';
  ts_other st' : st' ≠ kMemBufUsed → st' ≠ st → st ≠ kMemBufUsed → same_table st' p p'
}.

Lemma table_step_set st s v p :
  table_step st p (set_mng s (set_status_table st v (mem_mng s p)) p).
Proof.
  destruct (set_status_table_list st v (mem_mng s p)) as (? & ? & ? & Hm). split; try done.
  - by apply keeps_set_mng.
  - intros s'. destruct (decide (s' = s)) as [->|]; [by rewrite mem_mng_set_same|by rewrite mem_mng_set_other].
  - intros st' Hu Hst Hu' s'. destruct (decide (s' = s)) as [->|]; [rewrite mem_mng_set_same|by rewrite mem_mng_set_other].
    by destruct st, st'.
Qed.

Lemma shape_table_step st A p p' : shape A p → table_step st p p' → shape A p'.
Proof.
  intros [Hl Hb Hc H1 H2 H3 Hf] [Eb Ek En [Kl _ _ _ _ _ _ _ _] _ _].
  split; rewrite ?Eb, ?Ek, ?En; try done. intros s. by rewrite Kl.
Qed.

Lemma status_table_set_same st v (m : MemStatusManager T) : status_table st (set_status_table st v m) = v.
Proof. by destruct st. Qed.

(** Rewriting the list of one stream. *)
Lemma tab_set st L L' p s stream l :
  tab st L p → stream_ok stream → StronglySorted keys_le l → l ≡ₚ L' s stream →
  (∀ s' stream', (s', stream') ≠ (s, stream) → L' s' stream' ≡ₚ L s' stream') →
  ∀ t, (∀ stream', contents stream' t = contents stream' (status_table st (mem_mng s p))) →
    (∀ stream', valid stream' (status_table st (mem_mng s p)) → valid stream' t) →
  tab st L' (set_mng s (set_status_table st (table_set stream l t) (mem_mng s p)) p).
Proof.
  intros [Hv Hs Hp] Hok Hl HL Hother t Ht Htv.
  assert (∀ s' stream', contents stream'
      (status_table st (mem_mng s' (set_mng s (set_status_table st (table_set stream l t) (mem_mng s p)) p))) =
      if decide (s' = s ∧ stream' = stream) then l else contents stream' (status_table st (mem_mng s' p))) as Hc.
  { intros s' stream'. destruct (decide (s' = s)) as [->|Hne].
    - rewrite mem_mng_set_same, status_table_set_same, set_contents by auto.
      repeat case_decide; case_bool_decide; naive_solver.
    - rewrite mem_mng_set_other by done. rewrite decide_False by naive_solver. done. }
  split.
  - intros s' stream' Hok'. destruct (decide (s' = s)) as [->|Hne].
    + rewrite mem_mng_set_same, status_table_set_same. apply set_valid. auto.
    + rewrite mem_mng_set_other by done. auto.
  - intros s' stream'. rewrite Hc. case_decide; [done|auto].
  - intros s' stream'. rewrite Hc. case_decide as Hd; [by destruct Hd as [-> ->]|].
    rewrite Hp. symmetry. apply Hother. naive_solver.
Qed.

Lemma AddMemBuf_spec st L L' p s x b stream :
  tab st L p → bufs_ p !! x = Some b → stream_ok stream →
  L' s stream ≡ₚ (size_ b, x) :: L s stream →
  (∀ s' stream', (s', stream') ≠ (s, stream) → L' s' stream' ≡ₚ L s' stream') →
  wp (AddMemBuf s st x stream) p (λ _ p', table_step st p p' ∧ tab st L' p').
Proof.
  intros Ht Hx Hok HL Ho. unfold AddMemBuf. wp_step. eapply wp_load_buf; [done|]. wp_steps.
  destruct (get_contents stream (status_table st (mem_mng s p))) as (t & Hg & Hgc & Hgv);
    [by apply (tab_valid _ _ _ Ht)|].
  eapply wp_deref; [exact Hg|]. unfold upd_mng. wp_step. split; [apply table_step_set|].
  eapply tab_set; [done|done| |  |done|done|done].
  - apply multi_emplace_sorted, Ht.
  - rewrite multi_emplace_perm, HL. by rewrite (tab_perm _ _ _ Ht).
Qed.

(** [RemoveDeviceMem] finds the entry of a buffer by its size and address. *)
Lemma remove_from_spec p l n x i fuel :
  (n, x) ∈ drop i l → StronglySorted keys_le l → (length l - i <= fuel)%nat →
  (∀ y, y ∈ drop i l → n <= y.1) →
  (∀ m y, (m, y) ∈ l → is_Some (bufs_ p !! y)) →
  ∀ addr, (∃ b, bufs_ p !! x = Some b ∧ device_addr_ b = addr) →
  (∀ m y b, (m, y) ∈ l → bufs_ p !! y = Some b → device_addr_ b = addr → y = x) →
  wp (remove_from fuel i n addr l) p (λ r p', p' = p ∧ ∃ j, r = Some j ∧ l !! j = Some (n, x)).
Proof.
  intros Hin Hs Hf Hge Hlive addr (bx & Hbx & Ha) Hu. revert i Hin Hf Hge.
  induction fuel as [|fuel IH]; intros i Hin Hf Hge.
  { rewrite drop_ge in Hin by lia. by apply not_elem_of_nil in Hin. }
  cbn [remove_from]. destruct (l !! i) as [[m y]|] eqn:Hi; [|apply lookup_ge_None in Hi;
    rewrite drop_ge in Hin by done; by apply not_elem_of_nil in Hin].
  assert ((m, y) ∈ l) as Hyl by (by eapply list_elem_of_lookup_2).
  rewrite (drop_S _ _ _ Hi) in Hin, Hge.
  assert (m = n) as ->.
  { assert (n <= m) as Hnm by (apply (Hge (m, y)); set_solver).
    apply elem_of_cons in Hin as [[= -> ->]|Hin]; [done|].
    assert (m <= n) as Hmn; [|lia].
    rewrite <- (take_drop i l), (drop_S _ _ _ Hi) in Hs. apply sorted_app in Hs as (_ & Hs & _).
    apply StronglySorted_inv in Hs as [_ Hs]. rewrite Forall_forall in Hs. by apply (Hs (n, x)). }
  rewrite Z.eqb_refl. wp_step. destruct (Hlive _ _ Hyl) as [by_ Hby]. eapply wp_load_buf; [done|].
  destruct (Z.eqb_spec (device_addr_ by_) addr) as [He|He].
  - wp_step. split; [done|]. exists i. split; [done|]. by rewrite (Hu _ _ _ Hyl Hby He) in Hi.
  - apply IH.
    + apply elem_of_cons in Hin as [[= ->]|Hin]; [|done]. congruence.
    + lia.
    + intros z Hz. apply Hge. set_solver.
Qed.

Lemma RemoveDeviceMem_spec st L L' p s n x b stream :
  tab st L p → stream_ok stream → bufs_ p !! x = Some b →
  L s stream ≡ₚ (n, x) :: L' s stream →
  (∀ s' stream', (s', stream') ≠ (s, stream) → L' s' stream' ≡ₚ L s' stream') →
  (∀ m y, (m, y) ∈ L s stream → is_Some (bufs_ p !! y)) →
  (∀ m y by_, (m, y) ∈ L s stream → bufs_ p !! y = Some by_ → device_addr_ by_ = device_addr_ b → y = x) →
  wp (RemoveDeviceMem s st n (device_addr_ b) stream) p (λ r p', r = true ∧ table_step st p p' ∧ tab st L' p').
Proof.
  intros Ht Hok Hb HL Ho Hlive Hu. unfold RemoveDeviceMem. wp_steps.
  set (l := contents stream (status_table st (mem_mng s p))).
  assert (l ≡ₚ (n, x) :: L' s stream) as Hl by (unfold l; by rewrite (tab_perm _ _ _ Ht)).
  assert (l ≠ []) as Hne by (intros ->; by apply Permutation_nil_cons in Hl).
  unfold wp at 1. rewrite at_contents by (done || by apply (tab_valid _ _ _ Ht)). fold l.
  assert (StronglySorted keys_le l) as Hs by apply Ht.
  destruct (lower_bound_spec n l Hs) as [H1 H2]. wp_step.
  eapply wp_mono.
  - eapply (remove_from_spec p l n x).
    + assert ((n, x) ∈ l) as Hin by (rewrite Hl; set_solver).
      rewrite <- (take_drop (lower_bound n l) l) in Hin. apply elem_of_app in Hin as [Hin|Hin]; [|done].
      rewrite Forall_forall in H1. specialize (H1 _ Hin). simpl in H1. lia.
    + done.
    + lia.
    + intros y Hy. rewrite Forall_forall in H2. by apply H2.
    + intros m y Hy. apply (Hlive m). unfold l in Hy. by rewrite (tab_perm _ _ _ Ht) in Hy.
    + by exists b.
    + intros m y by_ Hy. apply (Hu m). unfold l in Hy. by rewrite (tab_perm _ _ _ Ht) in Hy.
  - intros r p' (-> & j & -> & Hj). unfold upd_mng. wp_steps. split_and!; [done|apply table_step_set|].
    eapply tab_set; [done|done| | |done|done|done].
    + by apply delete_sorted.
    + apply (Permutation_cons_inv (a := (n, x))). rewrite <- Hl. symmetry. by apply delete_perm.
Qed.

(** ** Lookup *)

Definition base_entry (k : ablock) : Z * ptr := (k_base k, k_ptr k).

Lemma block_bases_spec A p s : shape A p →
  wp (block_bases (mem_block_list_ (mem_mng s p))) p (λ r p', p' = p ∧ r = base_entry <$> A s).
Proof.
  intros Hsh. rewrite (sh_list _ _ Hsh). unfold block_bases.
  eapply (wp_forM _ _ _ _ (λ rest acc p', p' = p ∧
    ∃ K1 K2, A s = K1 ++ K2 ∧ rest = k_ptr <$> K2 ∧ acc = base_entry <$> K1)).
  - split; [done|]. exists [], (A s). done.
  - intros x rest acc p' (-> & K1 & K2 & HA & Hr & ->). destruct K2 as [|k K2]; [done|].
    injection Hr as -> ->. wp_step. eapply bf_wp_load_blk; [apply (sh_blk _ _ Hsh s); rewrite HA; set_solver|].
    wp_step. split; [done|]. exists (K1 ++ [k]), K2. rewrite <- app_assoc, fmap_app. done.
  - intros acc p' (-> & K1 & K2 & HA & Hr & ->). destruct K2; [|done]. rewrite app_nil_r in HA. by rewrite HA.
Qed.

Lemma geo_bases A s : geo A → StronglySorted keys_lt (base_entry <$> A s).
Proof.
  intros [Hok Hs _]. specialize (Hs s). assert (∀ k, k ∈ A s → 0 < k_size k) as Hp by (intros k Hk; by apply (Hok s)).
  revert Hp. induction Hs as [|k K _ IH Hk]; intros Hp; simpl; [constructor|].
  constructor; [apply IH; set_solver|]. apply Forall_fmap. eapply Forall_impl; [exact Hk|].
  unfold block_before, keys_lt. simpl. intros k' Hb. specialize (Hp k ltac:(set_solver)). lia.
Qed.

Lemma FindMemBlock_spec A p s addr : shape A p → geo A →
  wp (FindMemBlock addr s) p (λ r p', p' = p ∧
    match r with
    | None => ∀ k, k ∈ A s → addr < k_base k
    | Some x => ∃ k, k ∈ A s ∧ x = k_ptr k ∧ k_base k <= addr ∧
        ∀ k', k' ∈ A s → k_base k' <= addr → k' = k ∨ k_base k' + k_size k' <= addr
    end).
Proof.
  intros Hsh Hg. unfold FindMemBlock. wp_steps. eapply wp_mono; [by apply block_bases_spec|].
  intros bases p' [-> ->]. wp_step. split; [done|].
  pose proof (geo_bases A s Hg) as Hsorted.
  destruct (upper_bound_spec addr _ (sorted_lt_le _ Hsorted)) as [H1 H2].
  destruct (upper_bound addr (base_entry <$> A s)) as [|i] eqn:Hu.
  { rewrite drop_0 in H2. intros k Hk. rewrite Forall_fmap, Forall_forall in H2. by apply H2. }
  destruct ((base_entry <$> A s) !! i) as [e|] eqn:Hi.
  - rewrite list_lookup_fmap in Hi. apply fmap_Some in Hi as (k & Hi & ->). simpl.
    exists k. assert (k ∈ A s) as Hk by (by eapply list_elem_of_lookup_2).
    assert (k_base k <= addr) as Hle.
    { rewrite Forall_lookup in H1. apply (H1 i (base_entry k)).
      rewrite lookup_take_lt by lia. rewrite list_lookup_fmap, Hi. done. }
    split_and!; [done|done|done|]. intros k' Hk' Hb'.
    apply list_elem_of_lookup_1 in Hk' as [j Hj].
    destruct (decide (i < j)%nat) as [Hij|Hij].
    { rewrite Forall_lookup in H2. specialize (H2 (j - S i)%nat (base_entry k')). rewrite lookup_drop in H2.
      replace (S i + (j - S i))%nat with j in H2 by lia. rewrite list_lookup_fmap, Hj in H2.
      specialize (H2 eq_refl). simpl in H2. lia. }
    destruct (decide (i = j)) as [->|]; [left; congruence|right].
    pose proof (geo_sorted _ Hg s) as Hs. rewrite <- (take_drop_middle _ _ _ Hi) in Hs.
    assert (block_before k' k) as Hbb; [|unfold block_before in Hbb; lia].
    assert (k' ∈ take i (A s)) as Hkt by (apply list_elem_of_lookup; exists j; by rewrite lookup_take_lt by lia).
    clear -Hs Hkt. induction (take i (A s)) as [|z K IH]; [by apply not_elem_of_nil in Hkt|].
    apply StronglySorted_inv in Hs as [Hs Hz]. rewrite Forall_forall in Hz.
    apply elem_of_cons in Hkt as [->|Hkt]; [apply Hz; set_solver|by apply IH].
  - apply lookup_ge_None in Hi. assert (upper_bound addr (base_entry <$> A s) <= length (base_entry <$> A s))%nat as Hlen.
    { generalize (base_entry <$> A s). intros l. induction l as [|x l IH]; simpl; [done|]. case_match; lia. }
    lia.
Qed.

(** [find_strict_in] finds the cell that starts at an address, if there is one. *)
Definition found_cell A s addr (r : option (ptr * nat * bool)) : Prop :=
  match r with
  | None => ∀ k c, k ∈ A s → c ∈ k_cells k → c_addr c ≠ addr
  | Some r => ∃ K1 k K2 C1 c C2, A s = K1 ++ k :: K2 ∧ k_cells k = C1 ++ c :: C2 ∧
      c_addr c = addr ∧ r = (k_ptr k, length C1, s)
  end.

Lemma keys_sorted k : ablock_ok k → StronglySorted keys_lt (key <$> k_cells k).
Proof.
  intros (_ & _ & _ & st & Ht%tiles_keys). revert Ht. generalize (k_cells k). intros C.
  induction 1 as [|c C _ IH Hc]; simpl; constructor; [done|]. by apply Forall_fmap.
Qed.

Lemma find_strict_in_spec A p s addr : shape A p → geo A →
  wp (find_strict_in addr s) p (λ r p', p' = p ∧ found_cell A s addr r).
Proof.
  intros Hsh Hg. unfold find_strict_in. wp_step. eapply wp_mono; [by apply FindMemBlock_spec|].
  intros [x|] p' [-> Hr].
  - destruct Hr as (k & Hk & -> & Hb & Hu). wp_step.
    eapply bf_wp_load_blk; [by apply (sh_blk _ _ Hsh s)|]. wp_step. split; [done|].
    unfold block_of. cbn [block_all_mem_buf_map_].
    pose proof (geo_ok _ Hg _ _ Hk) as Hok. pose proof (keys_sorted _ Hok) as Hks.
    destruct (ord_find addr (key <$> k_cells k)) as [i|] eqn:Hf; simpl.
    + apply ord_find_Some in Hf as [v Hv]. rewrite list_lookup_fmap in Hv.
      apply fmap_Some in Hv as (c & Hc & [= Ha Hp]).
      apply list_elem_of_split in Hk as (K1 & K2 & HK).
      exists K1, k, K2, (take i (k_cells k)), c, (drop (S i) (k_cells k)).
      split_and!; [done|by rewrite take_drop_middle|done|].
      rewrite length_take. apply lookup_lt_Some in Hc. do 2 f_equal. lia.
    + intros k' c Hk' Hc <-. pose proof (cell_in_block _ _ (geo_ok _ Hg _ _ Hk') Hc) as Hin.
      destruct (Hu k' Hk') as [->|]; [lia| |lia].
      apply list_elem_of_split in Hc as (C1 & C2 & HC). rewrite HC, fmap_app in Hf, Hks. simpl in Hf, Hks.
      unfold key at 2 in Hf. unfold key at 2 in Hks. by rewrite ord_find_middle in Hf.
  - wp_step. split; [done|]. intros k c Hk Hc <-. specialize (Hr _ Hk).
    pose proof (cell_in_block _ _ (geo_ok _ Hg _ _ Hk) Hc). lia.
Qed.

Lemma FindByStrictAddr_spec A p addr : shape A p → geo A →
  wp (FindByStrictAddr addr) p (λ r p', p' = p ∧
    ((r = None ∧ ∀ c, c ∈ all_cells A → c_addr c ≠ addr) ∨ ∃ s x, r = Some x ∧ found_cell A s addr r)).
Proof.
  intros Hsh Hg. unfold FindByStrictAddr. wp_step. eapply wp_mono; [by apply find_strict_in_spec|].
  intros [x|] p' [-> H1].
  - wp_step. split; [done|]. right. by exists false, x.
  - eapply wp_mono; [by apply find_strict_in_spec|]. intros [x|] p' [-> H2]; split; try done.
    + right. by exists true, x.
    + left. split; [done|]. intros c ([] & k & Hk & Hc)%elem_of_all_cells; [by eapply H2|by eapply H1].
Qed.

Lemma cell_block_unique A s1 s2 k1 k2 c1 c2 : geo A → k1 ∈ A s1 → k2 ∈ A s2 →
  c1 ∈ k_cells k1 → c2 ∈ k_cells k2 → c_addr c1 = c_addr c2 → s1 = s2 ∧ k1 = k2 ∧ c1 = c2.
Proof.
  intros Hg H1 H2 Hc1 Hc2 He.
  pose proof (cell_in_block _ _ (geo_ok _ Hg _ _ H1) Hc1). pose proof (cell_in_block _ _ (geo_ok _ Hg _ _ H2) Hc2).
  destruct (cells_disjoint A s1 s2 k1 k2 c1 c2 Hg H1 H2 Hc1 Hc2) as [->|Hd]; [|lia].
  destruct (decide (s1 = s2 ∧ k_base k1 = k_base k2)) as [[-> Hk]|Hs].
  - split_and!; try done. pose proof (geo_sorted _ Hg s2) as Hs.
    assert (∀ k, k ∈ A s2 → 0 < k_size k) as Hp by (intros k Hk'; by apply (geo_ok _ Hg s2)).
    induction Hs as [|z K _ IH Hz]; [set_solver|]. rewrite Forall_forall in Hz.
    unfold block_before in Hz. pose proof (Hp k1 H1). pose proof (Hp k2 H2).
    apply elem_of_cons in H1 as [->|H1], H2 as [->|H2]; [done| | |apply IH; set_solver].
    + specialize (Hz _ H2). lia.
    + specialize (Hz _ H1). lia.
  - destruct (geo_blocks_apart A s1 s2 k1 k2 Hg H1 H2) as [Hb|Hb];
      [destruct (decide (s1 = s2)); [right; intros ->; naive_solver|by left]| |]; unfold block_before in Hb; lia.
Qed.

Lemma sorted_NoDup {B} (f : B → Z) l : StronglySorted (λ x y, f x < f y) l → NoDup (f <$> l).
Proof.
  induction 1 as [|x l _ IH Hx]; simpl; constructor; [|done].
  intros (y & He & Hy)%list_elem_of_fmap_1. rewrite Forall_forall in Hx. specialize (Hx _ Hy). lia.
Qed.

Lemma app_cons_unique {B E} (f : B → E) l1 x l2 m1 m2 :
  NoDup (f <$> l1 ++ x :: l2) → l1 ++ x :: l2 = m1 ++ x :: m2 → length l1 = length m1.
Proof.
  intros Hn He. eapply NoDup_lookup; [exact Hn| |].
  - rewrite list_lookup_fmap, list_lookup_middle; done.
  - rewrite He, list_lookup_fmap, list_lookup_middle; done.
Qed.

Lemma FindByStrictAddr_found A p s K1 k K2 C1 c C2 : shape A p → geo A →
  A s = K1 ++ k :: K2 → k_cells k = C1 ++ c :: C2 →
  wp (FindByStrictAddr (c_addr c)) p (λ r p', p' = p ∧ r = Some (k_ptr k, length C1, s)).
Proof.
  intros Hsh Hg HA HC. assert (k ∈ A s) as Hk by (rewrite HA; set_solver).
  assert (c ∈ k_cells k) as Hc by (rewrite HC; set_solver).
  eapply wp_mono; [by apply FindByStrictAddr_spec|]. intros r p' [-> [[-> Hno]|(s1 & x & -> & Hf)]]; (split; [done|]).
  { destruct (Hno c); [|done]. apply elem_of_all_cells. eauto. }
  destruct Hf as (L1 & k1 & L2 & D1 & c1 & D2 & HL & HD & Ha & ->).
  destruct (cell_block_unique A s1 s k1 k c1 c Hg) as (-> & -> & ->);
    [rewrite HL; set_solver|done|rewrite HD; set_solver|done|done|].
  do 3 f_equal. rewrite HC in HD. symmetry. eapply (app_cons_unique c_addr); [|exact HD].
  rewrite <- HC. destruct (geo_ok _ Hg _ _ Hk) as (_ & _ & _ & st & Ht%tiles_keys). by apply sorted_NoDup.
Qed.

(** ** Local changes *)

Lemma with_cells_elem A s K1 k K2 C C' s' k' : k' ∈ with_cells A s K1 k K2 C' s' →
  (s' = s ∧ k' = set_cells C' k) ∨
  (k' ∈ with_cells A s K1 k K2 C s' ∧ (s' = s → k' ∈ K1 ++ K2)).
Proof.
  destruct (decide (s' = s)) as [->|Hne].
  - rewrite !with_cells_same. intros [?|[->|?]%elem_of_cons]%elem_of_app; [right|by left|right]; set_solver.
  - rewrite !with_cells_other by done. naive_solver.
Qed.

Lemma with_cells_ptrs A s K1 k K2 C s' :
  k_ptr <$> with_cells A s K1 k K2 C s' = k_ptr <$> with_cells A s K1 k K2 [] s'.
Proof.
  destruct (decide (s' = s)) as [->|Hne]; [|by rewrite !with_cells_other].
  by rewrite !with_cells_same, !fmap_app.
Qed.

Lemma with_cells_all_ptrs A s K1 k K2 C :
  k_ptr <$> all_blocks (with_cells A s K1 k K2 C) = k_ptr <$> all_blocks (with_cells A s K1 k K2 []).
Proof. unfold all_blocks. by rewrite !fmap_app, !(with_cells_ptrs _ _ _ _ _ C). Qed.

(** The block in focus is the only one with its pointer. *)
Lemma other_block_ptr A s K1 k K2 C s' k' : NoDup (k_ptr <$> all_blocks (with_cells A s K1 k K2 C)) →
  k' ∈ with_cells A s K1 k K2 C s' → (s' = s → k' ∈ K1 ++ K2) → k_ptr k' ≠ k_ptr k.
Proof.
  unfold all_blocks. rewrite fmap_app. intros (H1 & H2 & H3)%NoDup_app Hk' Hs He.
  assert (k_ptr k' ∈ k_ptr <$> with_cells A s K1 k K2 C s') as Hin' by (by apply list_elem_of_fmap_2).
  assert (k_ptr k ∈ k_ptr <$> with_cells A s K1 k K2 C s) as Hin.
  { rewrite with_cells_same, fmap_app. set_solver. }
  destruct (decide (s' = s)) as [->|Hne].
  - assert (NoDup (k_ptr <$> with_cells A s K1 k K2 C s)) as Hn by (by destruct s).
    rewrite with_cells_same, fmap_app in Hn. simpl in Hn.
    apply NoDup_app in Hn as (_ & Hd & Hn). apply NoDup_cons in Hn as [Hn _].
    specialize (Hs eq_refl).
    apply elem_of_app in Hs as [Hk|Hk].
    + apply (Hd (k_ptr k')); [by apply list_elem_of_fmap_2|]. rewrite He. set_solver.
    + apply Hn. rewrite <- He. by apply list_elem_of_fmap_2.
  - rewrite He in Hin'. destruct s, s'; try done; [by apply (H2 (k_ptr k))|by apply (H2 (k_ptr k))].
Qed.

Lemma shape_live A p c : shape A p → c ∈ all_cells A → (c_ptr c < next_ p)%positive.
Proof.
  intros Hsh (s & k & Hk & Hc)%elem_of_all_cells. destruct (sh_cell _ _ Hsh _ _ _ Hk Hc) as (b & Hb & _).
  destruct (decide (c_ptr c < next_ p)%positive) as [|Hge]; [done|].
  assert (next_ p <= c_ptr c)%positive as Hge' by lia.
  destruct (sh_fresh _ _ Hsh _ Hge') as [Hn _]. unfold ptr in *. rewrite Hb in Hn. done.
Qed.

(** The part of the cells that stays keeps its keys apart from the new ones. *)
Lemma NoDup_replace {B} (X C C' Y : list B) :
  NoDup (X ++ C ++ Y) → NoDup C' → (∀ x, x ∈ C' → x ∉ X ++ Y) → NoDup (X ++ C' ++ Y).
Proof.
  rewrite !NoDup_app. intros (HX & HXC & HC & HCY & HY) HC' Hd. split_and!; try done; set_solver.
Qed.

Lemma shape_update A s K1 k K2 C C' p p' :
  shape (with_cells A s K1 k K2 C) p →
  (∀ s', mem_block_list_ (mem_mng s' p') = mem_block_list_ (mem_mng s' p)) →
  blks_ p' !! k_ptr k = Some (block_of (set_cells C' k)) →
  (∀ x, x ≠ k_ptr k → blks_ p' !! x = blks_ p !! x) →
  (∀ c, c ∈ C' → cell_rep (bufs_ p') (k_ptr k) c) →
  (∀ x, x ∉ c_ptr <$> C → (x < next_ p)%positive → bufs_ p' !! x = bufs_ p !! x) →
  NoDup (c_ptr <$> C') → NoDup (c_addr <$> C') →
  (∀ x, x ∈ c_ptr <$> C' → x ∈ c_ptr <$> C ∨ (next_ p <= x)%positive) →
  (∀ a, a ∈ c_addr <$> C' → a ∈ c_addr <$> C ∨ a ∉ c_addr <$> all_cells (with_cells A s K1 k K2 C)) →
  (∀ x, (next_ p' <= x)%positive → bufs_ p' !! x = None ∧ blks_ p' !! x = None) →
  shape (with_cells A s K1 k K2 C') p'.
Proof.
  intros Hsh Hl Hbk Hbo Hc Hco Hn1 Hn2 Hp Ha Hf.
  destruct (all_cells_focus A s K1 k K2) as (X & Y & Hfoc).
  pose proof (sh_cell_NoDup _ _ Hsh) as Hpn. pose proof (sh_addr_NoDup _ _ Hsh) as Han.
  rewrite Hfoc, !fmap_app in Hpn. rewrite Hfoc, !fmap_app in Han.
  assert (∀ c, c ∈ X ∨ c ∈ Y → (c_ptr c < next_ p)%positive) as Hlive.
  { intros c Hc'. apply (shape_live _ _ _ Hsh). rewrite Hfoc. set_solver. }
  split.
  - intros s'. rewrite Hl, (sh_list _ _ Hsh), (with_cells_ptrs _ _ _ _ _ C'), (with_cells_ptrs _ _ _ _ _ C). done.
  - intros s' k' [[-> ->]|[Hk' Hs']]%(with_cells_elem _ _ _ _ _ C); [done|].
    rewrite Hbo; [by apply (sh_blk _ _ Hsh s')|].
    eapply other_block_ptr; [apply (sh_blk_NoDup _ _ Hsh)|exact Hk'|done].
  - intros s' k' c [[-> ->]|[Hk' Hs']]%(with_cells_elem _ _ _ _ _ C) Hck'; [by apply Hc|].
    destruct (sh_cell _ _ Hsh s' k' c Hk' Hck') as (b & Hb & Hrest). exists b. split; [|done].
    assert (c ∈ X ∨ c ∈ Y) as Hxy.
    { assert (c ∈ all_cells (with_cells A s K1 k K2 [])) as Hin; [|rewrite Hfoc in Hin; set_solver].
      apply elem_of_all_cells. exists s', k'. split; [|done].
      destruct (decide (s' = s)) as [->|Hne]; [|by rewrite with_cells_other in *].
      rewrite with_cells_same. specialize (Hs' eq_refl). set_solver. }
    rewrite Hco; [done| |by apply Hlive].
    rewrite !NoDup_app in Hpn. destruct Hpn as (_ & HXC & _ & HCY & _).
    destruct Hxy as [Hx|Hy].
    + assert (c_ptr c ∈ c_ptr <$> X) as Hx' by (by apply list_elem_of_fmap_2). set_solver.
    + assert (c_ptr c ∈ c_ptr <$> Y) as Hy' by (by apply list_elem_of_fmap_2). set_solver.
  - rewrite with_cells_all_ptrs, <- (with_cells_all_ptrs _ _ _ _ _ C). apply Hsh.
  - rewrite Hfoc, !fmap_app. eapply NoDup_replace; [exact Hpn|done|].
    intros x [Hx|Hx]%Hp.
    + rewrite !NoDup_app in Hpn. destruct Hpn as (_ & HXC & _ & HCY & _). set_solver.
    + intros [(c & -> & Hc')%list_elem_of_fmap_1|(c & -> & Hc')%list_elem_of_fmap_1]%elem_of_app;
        assert (c_ptr c < next_ p)%positive by (apply Hlive; auto); unfold ptr in *; lia.
  - rewrite Hfoc, !fmap_app. eapply NoDup_replace; [exact Han|done|].
    intros x [Hx|Hx]%Ha.
    + rewrite !NoDup_app in Han. destruct Han as (_ & HXC & _ & HCY & _). set_solver.
    + rewrite Hfoc, !fmap_app in Hx. set_solver.
  - done.
Qed.
End rep.
