(* ===== verification/BestFitCombine.v ===== *)
(** * The best-fit pool: combining neighbours

    [CombineMemBuf] refines the abstract combination of a cell with its
    neighbours. *)

From S2P Require Import Prelude EventBase MemBufHeap MemGeometry MemStat OrdList StreamTable BestFitState BestFit BestFitAbs BestFitRep.
Import BestFitTypes BestFit.

Section combine.
Context {T : Type → Type} `{StreamTable T} {D : Type} `{V : BestFitVariant}.
Context {stream_ok : Z → Prop} {reusable : Prop} `{!StreamTableLaws T stream_ok reusable}.
Implicit Types (p : BestFitPool T D) (A : astate).

(** An operation on the buffers, and on the containers of one status. *)
Record buf_step (st : DynamicMemBufStatus) p p' : Prop := {
  bs_keeps : keeps p p';
  bs_mps : same_mps p p';
  bs_other st' : st' ≠ kMemBufUsed → st' ≠ st → same_table st' p p'
}.

Lemma buf_step_refl st p : buf_step st p p.
Proof. by split. Qed.

Lemma buf_step_trans st p1 p2 p3 : buf_step st p1 p2 → buf_step st p2 p3 → buf_step st p1 p3.
Proof.
  intros [k1 m1 o1] [k2 m2 o2]. split; [by eapply keeps_trans|by eapply same_mps_trans|].
  intros st' Hu Hs. eapply same_table_trans; [by apply o1|by apply o2].
Qed.

Lemma buf_step_table st p p' : st ≠ kMemBufUsed → table_step st p p' → buf_step st p p'.
Proof. intros Hst [_ _ _ Hk Hm Ho]. split; [done|done|]. intros. by apply Ho. Qed.

Lemma buf_step_set_bufs st B p : buf_step st p (set_bufs B p).
Proof. by split. Qed.

Lemma buf_step_set_blks st B p : buf_step st p (set_blks B p).
Proof. by split. Qed.

Context (A : astate) (s : bool) (K1 : list ablock) (k : ablock) (K2 : list ablock).
Abbreviation W := (with_cells A s K1 k K2).
Abbreviation tabW st C := (tab st (λ s' stream, entries st stream (W C s'))).

Lemma W_block C : set_cells C k ∈ W C s.
Proof. rewrite with_cells_same. set_solver. Qed.

Lemma W_blk C p : shape (W C) p → blks_ p !! k_ptr k = Some (block_of (set_cells C k)).
Proof. intros Hsh. apply (sh_blk _ _ Hsh s _ (W_block C)). Qed.

Lemma W_cell C p c : shape (W C) p → c ∈ C → cell_rep (bufs_ p) (k_ptr k) c.
Proof. intros Hsh Hc. by apply (sh_cell _ _ Hsh s _ _ (W_block C)). Qed.

Lemma W_NoDup C p : shape (W C) p → NoDup (c_ptr <$> C) ∧ NoDup (c_addr <$> C).
Proof.
  intros Hsh. destruct (all_cells_focus A s K1 k K2) as (X & Y & Hf).
  pose proof (sh_cell_NoDup _ _ Hsh) as H1. pose proof (sh_addr_NoDup _ _ Hsh) as H2.
  rewrite Hf, !fmap_app in H1. rewrite Hf, !fmap_app in H2.
  rewrite !NoDup_app in H1. rewrite !NoDup_app in H2. naive_solver.
Qed.

(** The fields of one buffer change. *)
Lemma shape_set_cell C1 c c' C2 b' p :
  shape (W (C1 ++ c :: C2)) p → c_ptr c' = c_ptr c → c_addr c' = c_addr c →
  device_addr_ b' = c_addr c' → size_ b' = c_size c' → status_ b' = c_status c' →
  (block_ptrs = true → mem_block_ptr_ b' = Some (k_ptr k)) →
  shape (W (C1 ++ c' :: C2)) (set_bufs (<[c_ptr c := b']> (bufs_ p)) p).
Proof.
  intros Hsh Hp Ha Hba Hbs Hbst Hbp. destruct (W_NoDup _ _ Hsh) as [Hn1 Hn2].
  assert (c_ptr <$> C1 ++ c' :: C2 = c_ptr <$> C1 ++ c :: C2) as E1 by (rewrite !fmap_app; simpl; by rewrite Hp).
  assert (c_addr <$> C1 ++ c' :: C2 = c_addr <$> C1 ++ c :: C2) as E2 by (rewrite !fmap_app; simpl; by rewrite Ha).
  eapply shape_update; [exact Hsh|done| |done| | |by rewrite E1|by rewrite E2| | |].
  - simpl. rewrite (W_blk _ _ Hsh). unfold block_of. simpl. rewrite !fmap_app. simpl. unfold key. by rewrite Hp, Ha.
  - intros d Hd. rewrite fmap_app in Hn1. simpl in Hn1.
    apply NoDup_app in Hn1 as (_ & Hd1 & Hn1). apply NoDup_cons in Hn1 as [Hd2 _].
    apply elem_of_app in Hd as [Hd|[->|Hd]%elem_of_cons].
    + destruct (W_cell _ _ d Hsh) as (b & Hb & Hr); [set_solver|]. exists b. split; [|done].
      simpl. rewrite lookup_insert_ne; [done|]. intros He. apply (Hd1 (c_ptr d)); [by apply list_elem_of_fmap_2|]. set_solver.
    + exists b'. split_and!; try done. simpl. by rewrite Hp, lookup_insert_eq.
    + destruct (W_cell _ _ d Hsh) as (b & Hb & Hr); [set_solver|]. exists b. split; [|done].
      simpl. rewrite lookup_insert_ne; [done|]. intros He. apply Hd2. rewrite He. by apply list_elem_of_fmap_2.
  - intros x Hx _. simpl. rewrite lookup_insert_ne; [done|]. intros <-. apply Hx. rewrite fmap_app. set_solver.
  - intros x. rewrite E1. by left.
  - intros x. rewrite E2. by left.
  - intros x Hx. simpl in Hx. destruct (sh_fresh _ _ Hsh x Hx) as [Hf ?]. split; [|done]. simpl.
    rewrite lookup_insert_ne; [done|]. intros <-.
    destruct (W_cell _ _ c Hsh) as (b & Hb & _); [set_solver|]. unfold ptr in *. congruence.
Qed.

(** A buffer leaves the map of its block; it may also be deleted. *)
Lemma shape_remove_cell C1 c C2 B p :
  shape (W (C1 ++ c :: C2)) p → B = bufs_ p ∨ B = delete (c_ptr c) (bufs_ p) →
  shape (W (C1 ++ C2)) (set_bufs B (set_blks (<[k_ptr k := block_of (set_cells (C1 ++ C2) k)]> (blks_ p)) p)).
Proof.
  intros Hsh HB. destruct (W_NoDup _ _ Hsh) as [Hn1 Hn2].
  rewrite fmap_app in Hn1. rewrite fmap_app in Hn2. simpl in Hn1, Hn2.
  assert (∀ x, x ≠ c_ptr c → B !! x = bufs_ p !! x) as HB'.
  { intros x Hx. destruct HB as [->| ->]; [done|by rewrite lookup_delete_ne]. }
  assert (∀ x, x ∈ c_ptr <$> C1 ++ C2 → x ≠ c_ptr c) as Hne.
  { rewrite fmap_app. apply NoDup_app in Hn1 as (_ & Hd1 & Hn1). apply NoDup_cons in Hn1 as [Hd2 _].
    intros x [Hx|Hx]%elem_of_app ->; [apply (Hd1 (c_ptr c)); set_solver|done]. }
  eapply shape_update; [exact Hsh|done| | | | | | | | |].
  - simpl. by rewrite lookup_insert_eq.
  - intros x Hx. simpl. by rewrite lookup_insert_ne.
  - intros d Hd. simpl. destruct (W_cell _ _ d Hsh) as (b & Hb & Hr); [set_solver|]. exists b. split; [|done].
    rewrite HB'; [done|]. apply Hne. by apply list_elem_of_fmap_2.
  - intros x Hx _. simpl. apply HB'. intros ->. apply Hx. rewrite fmap_app. set_solver.
  - rewrite fmap_app. rewrite NoDup_app, NoDup_cons in Hn1. rewrite NoDup_app. set_solver.
  - rewrite fmap_app. rewrite NoDup_app, NoDup_cons in Hn2. rewrite NoDup_app. set_solver.
  - rewrite !fmap_app. set_solver.
  - rewrite !fmap_app. set_solver.
  - intros x Hx. simpl in *. destruct (sh_fresh _ _ Hsh x Hx) as [Hf1 Hf2]. split.
    + destruct HB as [->| ->]; [done|]. apply lookup_delete_None. by right.
    + rewrite lookup_insert_ne; [done|]. intros <-. pose proof (W_blk _ _ Hsh). unfold ptr in *. congruence.
Qed.

(** A new buffer enters the map of the block. *)
Lemma shape_insert_cell C1 d C2 b' p p' :
  shape (W (C1 ++ C2)) p → (next_ p <= c_ptr d)%positive →
  bufs_ p' = <[c_ptr d := b']> (bufs_ p) →
  blks_ p' = <[k_ptr k := block_of (set_cells (C1 ++ d :: C2) k)]> (blks_ p) →
  (∀ s', mem_block_list_ (mem_mng s' p') = mem_block_list_ (mem_mng s' p)) →
  (c_ptr d < next_ p')%positive → (next_ p <= next_ p')%positive →
  c_addr d ∉ c_addr <$> all_cells (W (C1 ++ C2)) →
  device_addr_ b' = c_addr d → size_ b' = c_size d → status_ b' = c_status d →
  (block_ptrs = true → mem_block_ptr_ b' = Some (k_ptr k)) →
  shape (W (C1 ++ d :: C2)) p'.
Proof.
  intros Hsh Hd Eb Ek El Hn Hnn Ha Hba Hbs Hbst Hbp. destruct (W_NoDup _ _ Hsh) as [Hn1 Hn2].
  assert (∀ c, c ∈ C1 ++ C2 → c_ptr c ≠ c_ptr d ∧ c_addr c ≠ c_addr d) as Hne.
  { intros c Hc. assert (c ∈ all_cells (W (C1 ++ C2))) as Hin.
    { destruct (all_cells_focus A s K1 k K2) as (X & Y & Hf). rewrite Hf. set_solver. }
    pose proof (shape_live _ _ _ Hsh Hin) as Hlt. split; [unfold ptr in *; intros He; rewrite He in Hlt; lia|].
    intros He. apply Ha. rewrite <- He. by apply list_elem_of_fmap_2. }
  eapply shape_update; [exact Hsh|done| | | | | | | | |].
  - by rewrite Ek, lookup_insert_eq.
  - intros x Hx. by rewrite Ek, lookup_insert_ne.
  - intros c Hc. destruct (decide (c = d)) as [->|Hcd].
    + exists b'. split_and!; try done. by rewrite Eb, lookup_insert_eq.
    + assert (c ∈ C1 ++ C2) as Hc' by set_solver. destruct (W_cell _ _ c Hsh Hc') as (b & Hb & Hr).
      exists b. split; [|done]. rewrite Eb, lookup_insert_ne; [done|]. destruct (Hne _ Hc'). done.
  - intros x _ Hx. rewrite Eb, lookup_insert_ne; [done|]. intros <-. unfold ptr in *. lia.
  - rewrite fmap_app. rewrite fmap_app in Hn1. simpl.
    apply NoDup_app in Hn1 as (Hx1 & Hx2 & Hx3). apply NoDup_app. split_and!; [done| |constructor; [|done]].
    + intros x Hx [->|Hx']%elem_of_cons; [|by apply (Hx2 x)].
      apply list_elem_of_fmap_1 in Hx as (c & He & Hc). destruct (Hne c); set_solver.
    + intros (c & He & Hc)%list_elem_of_fmap_1. destruct (Hne c); set_solver.
  - rewrite fmap_app. rewrite fmap_app in Hn2. simpl.
    apply NoDup_app in Hn2 as (Hx1 & Hx2 & Hx3). apply NoDup_app. split_and!; [done| |constructor; [|done]].
    + intros x Hx [->|Hx']%elem_of_cons; [|by apply (Hx2 x)].
      apply list_elem_of_fmap_1 in Hx as (c & He & Hc). destruct (Hne c); set_solver.
    + intros (c & He & Hc)%list_elem_of_fmap_1. destruct (Hne c); set_solver.
  - intros x. rewrite !fmap_app. simpl. intros [Hx|[->|Hx]%elem_of_cons]%elem_of_app; [left; set_solver|by right|left; set_solver].
  - intros x. rewrite !fmap_app. simpl. intros [Hx|[->|Hx]%elem_of_cons]%elem_of_app; [left; set_solver|by right|left; set_solver].
  - intros x Hx. assert (next_ p <= x)%positive as Hx' by lia. destruct (sh_fresh _ _ Hsh x Hx') as [Hf1 Hf2].
    rewrite Eb, Ek. split.
    + rewrite lookup_insert_ne; [done|]. intros <-. unfold ptr in *. lia.
    + rewrite lookup_insert_ne; [done|]. intros <-. pose proof (W_blk _ _ Hsh). unfold ptr in *. congruence.
Qed.

(** ** The operations *)

Lemma set_bufs_id p : set_bufs (bufs_ p) p = p.
Proof. by destruct p. Qed.

Lemma block_delete C C1 c C2 :
  set_block_map (delete (length C1) (key <$> C1 ++ c :: C2)) (block_of (set_cells C k)) =
  block_of (set_cells (C1 ++ C2) k).
Proof.
  unfold set_block_map, block_of. simpl. rewrite !fmap_app. simpl.
  rewrite <- (length_fmap key C1). by rewrite delete_middle.
Qed.

Lemma shape_entry C st stream m y p : shape (W C) p → (m, y) ∈ entries st stream (W C s) →
  ∃ c b, c ∈ all_cells (W C) ∧ c_ptr c = y ∧ bufs_ p !! y = Some b ∧ device_addr_ b = c_addr c.
Proof.
  intros Hsh (k' & c & Hk & _ & Hc & _ & _ & <-)%elem_of_entries.
  destruct (sh_cell _ _ Hsh s _ _ Hk Hc) as (b & Hb & Ha & _). exists c, b. split_and!; try done.
  apply elem_of_all_cells. eauto.
Qed.

Lemma NoDup_fmap_inj {B E} (f : B → E) l x y : NoDup (f <$> l) → x ∈ l → y ∈ l → f x = f y → x = y.
Proof.
  intros Hn Hx Hy He. apply list_elem_of_lookup_1 in Hx as [i Hi]. apply list_elem_of_lookup_1 in Hy as [j Hj].
  assert (i = j) as ->; [|congruence]. eapply NoDup_lookup; [exact Hn| |].
  - by rewrite list_lookup_fmap, Hi.
  - by rewrite list_lookup_fmap, Hj, He.
Qed.

Lemma Erase_spec C X d Y st p :
  shape (W C) p → d ∈ C →
  c_status d = st → stream_ok (k_stream k) → tabW st (X ++ d :: Y) p →
  (∀ c, c ∈ X ++ d :: Y → ∃ c', c' ∈ C ∧ c_ptr c' = c_ptr c ∧ c_addr c' = c_addr c) →
  wp (EraseMemBufByStatus (c_size d) (c_addr d) s st (k_stream k)) p
    (λ _ p', table_step st p p' ∧ tabW st (X ++ Y) p').
Proof.
  intros Hsh Hd Hst Hok Ht HC. unfold EraseMemBufByStatus. wp_step.
  destruct (W_cell _ _ d Hsh Hd) as (b & Hb & Hba & _). rewrite <- Hba.
  assert (∀ m y, (m, y) ∈ entries st (k_stream k) (W (X ++ d :: Y) s) →
    ∃ c b, c ∈ all_cells (W C) ∧ c_ptr c = y ∧ bufs_ p !! y = Some b ∧ device_addr_ b = c_addr c) as Hent.
  { intros m y (k' & c & Hk & _ & Hc & _ & _ & <-)%elem_of_entries.
    destruct (with_cells_elem A s K1 k K2 C _ _ _ Hk) as [[_ ->]|[Hk' _]].
    - destruct (HC c Hc) as (c' & Hc' & Hp & Ha).
      destruct (W_cell _ _ c' Hsh Hc') as (b' & Hb' & Ha' & _). exists c', b'. rewrite <- Hp.
      split_and!; try done. apply elem_of_all_cells. exists s, (set_cells C k). split; [apply W_block|done].
    - destruct (sh_cell _ _ Hsh s _ _ Hk' Hc) as (b' & Hb' & Ha' & _). exists c, b'. split_and!; try done.
      apply elem_of_all_cells. eauto. }
  assert (d ∈ all_cells (W C)) as Hdin.
  { apply elem_of_all_cells. exists s, (set_cells C k). split; [apply W_block|done]. }
  eapply wp_mono; [eapply (RemoveDeviceMem_spec st _ (λ s' stream, entries st stream (W (X ++ Y) s')) p s _ (c_ptr d));
    [exact Ht|done|done| | | |]|].
  - rewrite entries_with_cell, decide_True by done. done.
  - intros s' stream' Hne. rewrite entries_with_cell, decide_False by naive_solver. done.
  - intros m y Hin. destruct (Hent _ _ Hin) as (c & b' & _ & _ & Hb' & _). by eexists.
  - intros m y b' Hin Hb' Ha'. destruct (Hent _ _ Hin) as (c & b'' & Hc & <- & Hb'' & Ha'').
    rewrite Hb' in Hb''. injection Hb'' as <-. f_equal.
    eapply NoDup_fmap_inj; [apply (sh_addr_NoDup _ _ Hsh)|done|done|]. by rewrite <- Ha'', Ha', Hba.
  - intros r p' (_ & Hts & Ht'). wp_step. done.
Qed.

Lemma CombineNext_spec C1 c C2 st p :
  shape (W (C1 ++ c :: C2)) p → st ≠ kMemBufUsed → c_status c = st → stream_ok (k_stream k) →
  tabW st (C1 ++ C2) p →
  (∀ d, head C2 = Some d → 0 <= c_size c + c_size d < w64) →
  wp (CombineNext (k_ptr k) (c_ptr c) (length C1) s st) p (λ _ p',
    shape (W (C1 ++ (combine_next c C2).1 :: (combine_next c C2).2)) p' ∧
    tabW st (C1 ++ (combine_next c C2).2) p' ∧ buf_step st p p').
Proof.
  intros Hsh Hst Hc Hok Ht Hsz. unfold CombineNext. wp_step.
  eapply bf_wp_load_blk; [by apply W_blk|]. cbn [block_all_mem_buf_map_ block_of set_cells k_cells stream_id_ k_stream].
  assert ((key <$> C1 ++ c :: C2) !! S (length C1) = key <$> head C2) as ->.
  { rewrite list_lookup_fmap. rewrite lookup_app_r by lia. replace (S (length C1) - length C1)%nat with 1%nat by lia.
    by destruct C2. }
  destruct C2 as [|d C2]; cbn [head fmap option_fmap option_map key].
  { wp_step. split_and!; [done|done|apply buf_step_refl]. }
  destruct (W_cell _ _ c Hsh ltac:(set_solver)) as (bc & Hbc & Hca & Hcs & Hcst & Hcp).
  destruct (W_cell _ _ d Hsh ltac:(set_solver)) as (bd & Hbd & Hda & Hds & Hdst & Hdp).
  wp_step. eapply wp_load_buf; [exact Hbd|]. rewrite Hdst. unfold combine_next. rewrite Hc.
  destruct (decide (c_status d = st)) as [Hd|Hd]; [|wp_step; split_and!; [done|done|apply buf_step_refl]].
  cbn [fst snd]. wp_step. eapply wp_update_buf; [exact Hbc|]. wp_step.
  set (p1 := set_bufs _ p).
  assert (shape (W (C1 ++ grow c d :: d :: C2)) p1) as Hsh1.
  { eapply shape_set_cell; [exact Hsh|done|done|done| |done|done]. cbn [size_ set_buf_size grow set_c_size c_size].
    rewrite Hcs, Hds. apply u64_small. by apply Hsz. }
  assert (tabW st (C1 ++ d :: C2) p1) as Ht1 by (eapply tab_ext; [exact Ht|by intros s'|done]).
  rewrite Hds, Hda. eapply wp_mono; [eapply (Erase_spec (C1 ++ grow c d :: d :: C2)); try done|].
  { set_solver. }
  { intros c' Hc'. exists c'. split; [set_solver|done]. }
  intros _ p2 [Hts Ht2]. pose proof (shape_table_step _ _ _ _ Hsh1 Hts) as Hsh2. wp_step.
  eapply bf_wp_update_blk; [by apply W_blk|].
  cbn [block_all_mem_buf_map_ block_of set_cells k_cells].
  replace (C1 ++ grow c d :: d :: C2) with ((C1 ++ [grow c d]) ++ d :: C2) in Hsh2 |- * by (by rewrite <- app_assoc).
  replace (S (length C1)) with (length (C1 ++ [grow c d])) by (rewrite length_app; simpl; lia).
  rewrite block_delete. set (p3 := set_blks _ p2).
  assert (buf_step st p p3) as Hstep.
  { eapply buf_step_trans; [apply buf_step_set_bufs|]. eapply buf_step_trans; [by eapply buf_step_table|].
    apply buf_step_set_blks. }
  assert (tabW st (C1 ++ C2) p3) as Ht3 by (eapply tab_ext; [exact Ht2|by intros s'|done]).
  apply wp_whenM.
  - intros _. eapply wp_delete_buf_bf.
    + simpl. rewrite (ts_bufs _ _ _ Hts). unfold p1. simpl. destruct (W_NoDup _ _ Hsh) as [Hn _].
      rewrite lookup_insert_ne; [exact Hbd|]. intros He. rewrite fmap_app in Hn. simpl in Hn. rewrite He in Hn.
      apply NoDup_app in Hn as (_ & _ & Hn). apply NoDup_cons in Hn as [Hn _]. set_solver.
    + split_and!.
      * replace (C1 ++ grow c d :: C2) with ((C1 ++ [grow c d]) ++ C2) by (by rewrite <- app_assoc).
        eapply shape_remove_cell; [exact Hsh2|]. by right.
      * eapply tab_ext; [exact Ht3|by intros s'|done].
      * eapply buf_step_trans; [exact Hstep|]. apply buf_step_set_bufs.
  - intros _. split_and!; [|done|done]. rewrite <- (set_bufs_id p3).
    replace (C1 ++ grow c d :: C2) with ((C1 ++ [grow c d]) ++ C2) by (by rewrite <- app_assoc).
    eapply shape_remove_cell; [exact Hsh2|]. by left.
Qed.

Lemma CombinePrev_spec C1 c C2 st p :
  shape (W (C1 ++ c :: C2)) p → st ≠ kMemBufUsed → c_status c = st → stream_ok (k_stream k) →
  tabW st (C1 ++ C2) p →
  (∀ b, last C1 = Some b → 0 <= c_size b + c_size c < w64) →
  wp (CombinePrev (k_ptr k) (c_ptr c) (length C1) s st) p (λ x p',
    shape (W ((combine_prev C1 c).1 ++ (combine_prev C1 c).2 :: C2)) p' ∧
    tabW st ((combine_prev C1 c).1 ++ C2) p' ∧ buf_step st p p' ∧ x = c_ptr (combine_prev C1 c).2).
Proof.
  intros Hsh Hst Hc Hok Ht Hsz. unfold CombinePrev, combine_prev.
  destruct (last C1) as [b|] eqn:Hl.
  2:{ apply last_None in Hl as ->. simpl. wp_step. split_and!; [done|done|apply buf_step_refl|done]. }
  apply last_Some in Hl as [C1' ->]. rewrite length_app, Nat.add_1_r. simpl length.
  wp_step. eapply bf_wp_load_blk; [by apply W_blk|]. cbn [block_all_mem_buf_map_ block_of set_cells k_cells stream_id_ k_stream].
  rewrite <- app_assoc in Hsh |- *. cbn [app] in Hsh |- *.
  destruct (W_cell _ _ b Hsh ltac:(set_solver)) as (bb & Hbb & Hba & Hbs & Hbst & Hbp).
  destruct (W_cell _ _ c Hsh ltac:(set_solver)) as (bc & Hbc & Hca & Hcs & Hcst & Hcp).
  wp_step. eapply wp_deref.
  { rewrite fmap_app. cbn [fmap list_fmap]. rewrite <- (length_fmap key C1'). by apply list_lookup_middle. }
  cbn [key]. wp_step. eapply wp_load_buf; [exact Hbb|]. rewrite Hbst, removelast_last, Hc.
  destruct (decide (c_status b = st)) as [Hb|Hb]; cbn [fst snd].
  2:{ wp_step. rewrite <- app_assoc. split_and!; [done|exact Ht|apply buf_step_refl|done]. }
  wp_step. rewrite Hbs, Hba. rewrite <- app_assoc in Ht.
  eapply wp_mono; [eapply (Erase_spec (C1' ++ b :: c :: C2)); try done|].
  { set_solver. }
  { intros c' Hc'. exists c'. split; [set_solver|done]. }
  intros _ p1 [Hts Ht1]. pose proof (shape_table_step _ _ _ _ Hsh Hts) as Hsh1. wp_step.
  eapply wp_load_buf; [by rewrite (ts_bufs _ _ _ Hts)|]. wp_step.
  eapply wp_update_buf; [by rewrite (ts_bufs _ _ _ Hts)|]. wp_step. set (p2 := set_bufs _ p1).
  assert (shape (W (C1' ++ grow b c :: c :: C2)) p2) as Hsh2.
  { eapply shape_set_cell; [exact Hsh1|done|done|done| |done|done]. cbn [size_ set_buf_size grow set_c_size c_size].
    rewrite Hcs, Hbs. apply u64_small, Hsz. done. }
  eapply bf_wp_update_blk; [by apply W_blk|]. cbn [block_all_mem_buf_map_ block_of set_cells k_cells].
  assert (tabW st (C1' ++ C2) p2) as Ht2 by (eapply tab_ext; [exact Ht1|by intros s'|done]).
  replace (C1' ++ grow b c :: c :: C2) with ((C1' ++ [grow b c]) ++ c :: C2) in Hsh2 |- * by (by rewrite <- app_assoc).
  replace (S (length C1')) with (length (C1' ++ [grow b c])) by (rewrite length_app; simpl; lia).
  rewrite block_delete. set (p3 := set_blks _ p2). wp_step.
  assert (buf_step st p p3) as Hstep.
  { eapply buf_step_trans; [by eapply buf_step_table|]. eapply buf_step_trans; [apply buf_step_set_bufs|].
    apply buf_step_set_blks. }
  assert (tabW st (C1' ++ C2) p3) as Ht3 by (eapply tab_ext; [exact Ht2|by intros s'|done]).
  replace (C1' ++ grow b c :: C2) with ((C1' ++ [grow b c]) ++ C2) by (by rewrite <- app_assoc).
  apply wp_whenM.
  - intros _. eapply wp_delete_buf_bf.
    + simpl. rewrite (ts_bufs _ _ _ Hts). destruct (W_NoDup _ _ Hsh) as [Hn _].
      rewrite lookup_insert_ne; [exact Hbc|]. intros He. rewrite fmap_app in Hn. simpl in Hn. rewrite He in Hn.
      apply NoDup_app in Hn as (_ & _ & Hn). apply NoDup_cons in Hn as [Hn _]. set_solver.
    + wp_step. split_and!; [|by eapply tab_ext; [exact Ht3|by intros s'|]| |done].
      * eapply shape_remove_cell; [exact Hsh2|]. by right.
      * eapply buf_step_trans; [exact Hstep|]. apply buf_step_set_bufs.
  - intros _. wp_step. split_and!; [|done|done|done]. rewrite <- (set_bufs_id p3).
    eapply shape_remove_cell; [exact Hsh2|]. by left.
Qed.

(** What the statistics of a manager say about memory in use and obtained. *)
Definition used_of (s' : bool) p : Z := total_used_mem_size_ (mps_ (mem_mng s' p)).
Definition total_of (s' : bool) p : Z := total_mem_size_ (mps_ (mem_mng s' p)).

Lemma upd_mps_keeps s' f p : keeps p (set_mng s' (set_mps (f (mps_ (mem_mng s' p))) (mem_mng s' p)) p).
Proof. by apply keeps_set_mng. Qed.

Lemma upd_mps_tables s' f p st :
  same_table st p (set_mng s' (set_mps (f (mps_ (mem_mng s' p))) (mem_mng s' p)) p).
Proof. intros s''. destruct s', s'', st; done. Qed.

Lemma shape_keeps B p p' : shape B p → bufs_ p' = bufs_ p → blks_ p' = blks_ p → next_ p' = next_ p →
  keeps p p' → shape B p'.
Proof.
  intros [] Eb Ek En Hk. split; rewrite ?Eb, ?Ek, ?En; try done. intros s'. by rewrite (kp_list _ _ Hk).
Qed.

Lemma put_back_spec C1 c C2 st p :
  shape (W (C1 ++ c :: C2)) p → st ≠ kMemBufUsed → c_status c = st → stream_ok (k_stream k) →
  tabW st (C1 ++ C2) p →
  wp (put_back_mem_buf (k_ptr k) (c_ptr c) s st) p (λ _ p',
    shape (W (C1 ++ c :: C2)) p' ∧ tabW st (C1 ++ c :: C2) p' ∧ keeps p p' ∧
    (∀ st', st' ≠ kMemBufUsed → st' ≠ st → same_table st' p p') ∧
    (∀ s', used_of s' p' = used_of s' p ∧ total_of s' p' = total_of s' p)).
Proof.
  intros Hsh Hst Hc Hok Ht.
  destruct (W_cell _ _ c Hsh ltac:(set_solver)) as (b & Hb & _ & Hbs & _).
  assert (wp (AddMemBuf s st (c_ptr c) (k_stream k)) p (λ _ p', table_step st p p' ∧ tabW st (C1 ++ c :: C2) p')) as Hadd.
  { eapply (AddMemBuf_spec st _ _ p s); [exact Ht|exact Hb|done| |].
    - rewrite entries_with_cell, decide_True by done. by rewrite Hbs.
    - intros s' stream' Hne. rewrite entries_with_cell, decide_False by naive_solver. done. }
  unfold put_back_mem_buf. wp_step. eapply bf_wp_load_blk; [by apply W_blk|].
  cbn [stream_id_ block_of set_cells k_stream].
  destruct st; [|done|]; wp_step; (eapply wp_mono; [exact Hadd|]); intros _ p1 [Hts Ht1]; wp_step;
    (eapply wp_load_buf; [by rewrite (ts_bufs _ _ _ Hts)|]); unfold upd_mps, upd_mng; wp_step.
  - split_and!.
    + eapply shape_keeps; [exact (shape_table_step _ _ _ _ Hsh Hts)|done|done|done|apply (upd_mps_keeps s (add_idle (size_ b)))].
    + eapply tab_ext; [exact Ht1|apply (upd_mps_tables s (add_idle (size_ b)))|done].
    + eapply keeps_trans; [apply (ts_keeps _ _ _ Hts)|apply (upd_mps_keeps s (add_idle (size_ b)))].
    + intros st' Hu Hne. eapply same_table_trans; [by apply (ts_other _ _ _ Hts)|apply (upd_mps_tables s (add_idle (size_ b)))].
    + intros s'. pose proof (ts_mps _ _ _ Hts s') as Hm. unfold used_of, total_of. rewrite <- Hm. by destruct s, s'.
  - split_and!.
    + eapply shape_keeps; [exact (shape_table_step _ _ _ _ Hsh Hts)|done|done|done|apply (upd_mps_keeps s (add_eager (size_ b)))].
    + eapply tab_ext; [exact Ht1|apply (upd_mps_tables s (add_eager (size_ b)))|done].
    + eapply keeps_trans; [apply (ts_keeps _ _ _ Hts)|apply (upd_mps_keeps s (add_eager (size_ b)))].
    + intros st' Hu Hne. eapply same_table_trans; [by apply (ts_other _ _ _ Hts)|apply (upd_mps_tables s (add_eager (size_ b)))].
    + intros s'. pose proof (ts_mps _ _ _ Hts s') as Hm. unfold used_of, total_of. rewrite <- Hm. by destruct s, s'.
Qed.

Lemma shape_ext B B' p : (∀ s', B s' = B' s') → shape B p → shape B' p.
Proof.
  intros He [H1 H2 H3 H4 H5 H6 H7]. unfold all_blocks, all_cells in *. rewrite !He in *.
  split; try done; unfold all_blocks, all_cells; rewrite <- ?He; try done.
  - intros s'. rewrite <- He. apply H1.
  - intros s' k'. rewrite <- He. apply H2.
  - intros s' k' c. rewrite <- He. apply H3.
Qed.

(** What an operation on cells leaves of the statistics. *)
Definition used_change (n : Z) p p' : Prop :=
  (∀ s', used_of s' p' = if decide (s' = s) then u64 (used_of s' p + n) else used_of s' p) ∧
  ∀ s', total_of s' p' = total_of s' p.

Lemma used_range_refl p : (∀ s', 0 <= used_of s' p < w64) → used_change 0 p p.
Proof. intros Hr. split; [|done]. intros s'. case_decide; [|done]. by rewrite Z.add_0_r, u64_small. Qed.

Lemma CombineMemBuf_found C1 c0 C2 origin target p :
  shape (W (C1 ++ c0 :: C2)) p → geo (W (C1 ++ c0 :: C2)) → target ≠ kMemBufUsed → c_status c0 = origin → origin ≠ target →
  origin ≠ kMemBufEagerFree → stream_ok (k_stream k) → (∀ s', 0 <= used_of s' p < w64) →
  tabW target (C1 ++ C2) p →
  wp (CombineMemBuf (c_addr c0) origin target) p (λ _ p',
    shape (W (combine C1 (set_c_status target c0) C2)) p' ∧
    tabW target (combine C1 (set_c_status target c0) C2) p' ∧ keeps p p' ∧
    (∀ st', st' ≠ kMemBufUsed → st' ≠ target → same_table st' p p') ∧
    used_change (if is_used origin then - c_size c0 else 0) p p').
Proof.
  intros Hsh Hg Htar Horig Hne Heag Hok Hur Ht. unfold CombineMemBuf. wp_step.
  eapply wp_mono; [eapply (FindByStrictAddr_found _ _ s K1 (set_cells (C1 ++ c0 :: C2) k) K2 C1 c0 C2);
    [done|done|apply with_cells_same|done]|].
  intros r p' [-> ->]. cbn [k_ptr set_cells]. wp_step. eapply bf_wp_load_blk; [by apply W_blk|].
  cbn [block_all_mem_buf_map_ block_of set_cells k_cells]. wp_step. eapply wp_deref.
  { rewrite fmap_app. cbn [fmap list_fmap]. rewrite <- (length_fmap key C1). by apply list_lookup_middle. }
  cbn [key]. destruct (W_cell _ _ c0 Hsh ltac:(set_solver)) as (b0 & Hb0 & Hba & Hbs & Hbst & Hbp).
  wp_step. eapply wp_load_buf; [exact Hb0|]. wp_step. eapply wp_update_buf; [exact Hb0|].
  set (c := set_c_status target c0). set (p1 := set_bufs _ p).
  assert (shape (W (C1 ++ c :: C2)) p1) as Hsh1 by (by eapply shape_set_cell).
  assert (tabW target (C1 ++ C2) p1) as Ht1 by (eapply tab_ext; [exact Ht|by intros s'|done]).
  wp_step. eapply (wp_mono _ _ (λ _ p2, shape (W (C1 ++ c :: C2)) p2 ∧ tabW target (C1 ++ C2) p2 ∧
    keeps p p2 ∧ (∀ st, same_table st p p2) ∧ used_change (if is_used origin then - c_size c0 else 0) p p2)).
  { destruct origin; [| |done]; unfold upd_mps, upd_mng; wp_step; split_and!.
    1,6: eapply shape_keeps; [exact Hsh1|done|done|done|]; apply upd_mps_keeps.
    1,5: eapply tab_ext; [exact Ht1| |done]; apply upd_mps_tables.
    1,4: eapply (keeps_trans _ p1); [done|]; apply upd_mps_keeps.
    1,3: intros st; eapply (same_table_trans _ _ p1); [by intros s'|]; apply upd_mps_tables.
    - split; [|intros s'; by destruct s, s']. intros s'. rewrite Z.add_0_r.
      case_decide; subst; [rewrite u64_small by apply Hur|]; by destruct s, s' || by destruct s.
    - split; [|intros s'; by destruct s, s']. intros s'. rewrite Hbs. by destruct s, s'. }
  intros _ p2 (Hsh2 & Ht2 & Hk2 & Hs2 & Hu2).
  destruct (geo_ok _ Hg s _ (W_block _)) as (Hbase & _ & Hend & st & Htl).
  destruct (combine_bounds _ _ _ _ _ _ _ target Htl Hbase Hend) as [Hd1 Hd2].
  wp_step. eapply wp_mono; [eapply (CombineNext_spec C1 c C2); done|].
  intros _ p3 (Hsh3 & Ht3 & Hb3). unfold combine.
  destruct (combine_next_range c C2) as (_ & _ & _ & _ & Hcp). change (c_ptr c) with (c_ptr c0) in Hcp.
  pose proof (combine_next_status c C2) as Hcst.
  change (combine_next (set_c_status target c0) C2) with (combine_next c C2) in Hd2.
  destruct (combine_next c C2) as [c' C2']. cbn [fst snd] in *. rewrite <- Hcp.
  wp_step. eapply wp_mono; [eapply (CombinePrev_spec C1 c' C2'); done|].
  intros x p4 (Hsh4 & Ht4 & Hb4 & ->).
  assert (c_status (combine_prev C1 c').2 = target) as Hcp'.
  { unfold combine_prev. destruct (last C1) as [b|]; [|done]. by case_decide as Hb; [simpl; rewrite Hb|]. }
  destruct (combine_prev C1 c') as [C1' c'']. cbn [fst snd] in *.
  eapply wp_mono; [eapply (put_back_spec C1' c'' C2'); done|].
  intros _ p5 (Hsh5 & Ht5 & Hk5 & Ho5 & Hu5). split_and!; [done|done| | |].
  - eapply keeps_trans; [exact Hk2|]. eapply keeps_trans; [apply (bs_keeps _ _ _ Hb3)|].
    eapply keeps_trans; [apply (bs_keeps _ _ _ Hb4)|done].
  - intros st' Hst Hst'. eapply same_table_trans; [apply Hs2|]. eapply same_table_trans; [by apply (bs_other _ _ _ Hb3)|].
    eapply same_table_trans; [by apply (bs_other _ _ _ Hb4)|by apply Ho5].
  - destruct Hu2 as [Hu2 Htt2]. pose proof (bs_mps _ _ _ Hb3) as Hm3. pose proof (bs_mps _ _ _ Hb4) as Hm4.
    split; intros s'; destruct (Hu5 s') as [H5 H6]; unfold used_of, total_of in *; rewrite ?H5, ?H6, Hm4, Hm3; auto.
Qed.
End combine.
