(* ===== verification/BestFitSplit.v ===== *)
(** * The best-fit pool: taking memory from a buffer

    [SplitMemBuf] and [FindMemBufInSpecifiedMng] refine the carving of a cell. *)

From S2P Require Import Prelude EventBase MemBufHeap MemGeometry MemStat OrdList StreamTable BestFitState BestFit BestFitAbs BestFitRep BestFitCombine.
From S2P Require Import PoolDevice.
Import BestFitTypes BestFit.

(** What the predicates that decide on a split guarantee. *)
Class SplitLaws `{BestFitVariant} : Prop := {
  split_room size n : 0 < size <= n → n < w64 → IsSplit size n = true → size < n;
  split_new_room size n : 0 < size <= n → size < 2 ^ 63 → n < w64 → IsSplitNew size n = true → size < n;
  align_fits size : 0 <= size <= 2 ^ 62 → 0 < align_memory_size size < 2 ^ 63 ∧ size <= align_memory_size size < size + 513
}.

Lemma AlignMemorySize_fits size : 0 <= size <= 2 ^ 62 →
  0 < AlignMemorySize size < 2 ^ 63 ∧ size <= AlignMemorySize size < size + 513.
Proof.
  intros Hs. change (AlignMemorySize size) with (MemStat.AlignMemorySize size).
  destruct (decide (size = 0)) as [->|]; [done|].
  destruct (AlignMemorySize_range size) as (_ & Hle & Hlt); [unfold w64, kDynamicMemAlignSize; lia|].
  unfold kDynamicMemAlignSize in Hlt. lia.
Qed.

#[export] Instance reference_split_laws : SplitLaws.
Proof.
  split; [intros size n Hs Hn Hsp|intros size n Hs _ Hn Hsp|by apply AlignMemorySize_fits]; simpl in Hsp; unfold BestFitReference.IsSplit in Hsp; apply Z.leb_le in Hsp;
    rewrite u64_small in Hsp by lia; unfold kDynamicMemAlignSize in Hsp; lia.
Qed.

Section split.
Context {T : Type → Type} `{StreamTable T} {D : Type} `{V : BestFitVariant}.
Context {stream_ok : Z → Prop} {reusable : Prop} `{!StreamTableLaws T stream_ok reusable}.
Implicit Types (p : BestFitPool T D) (A : astate).

Context (A : astate) (s : bool) (K1 : list ablock) (k : ablock) (K2 : list ablock).
Abbreviation W := (with_cells A s K1 k K2).
Abbreviation tabW st C := (tab st (λ s' stream, entries st stream (W C s'))).

Lemma FindMemBlock_cell C p addr c : shape (W C) p → geo (W C) → c ∈ C →
  c_addr c <= addr < c_addr c + c_size c →
  wp (FindMemBlock addr s) p (λ r p', p' = p ∧ r = Some (k_ptr k)).
Proof.
  intros Hsh Hg Hc Ha. pose proof (cell_in_block _ _ (geo_ok _ Hg s _ (W_block A s K1 k K2 C)) Hc) as Hin.
  simpl in Hin. eapply wp_mono; [by apply FindMemBlock_spec|]. intros [x|] p' [-> Hr]; (split; [done|]).
  - destruct Hr as (k' & _ & -> & _ & Hu). destruct (Hu _ (W_block A s K1 k K2 C)) as [<-|]; simpl in *; [lia|done|lia].
  - specialize (Hr _ (W_block A s K1 k K2 C)). simpl in Hr. lia.
Qed.

Lemma emplace_rest C1 c C2 a e st st' size x : tiles st a (C1 ++ c :: C2) e st' → 0 < size < c_size c →
  ord_emplace (c_addr c + size) x (key <$> C1 ++ set_c_size size c :: C2) =
  key <$> C1 ++ set_c_size size c :: rest_cell size x c :: C2.
Proof.
  intros Ht Hs. replace (C1 ++ set_c_size size c :: C2) with ((C1 ++ [set_c_size size c]) ++ C2) by (by rewrite <- app_assoc).
  replace (C1 ++ set_c_size size c :: rest_cell size x c :: C2) with ((C1 ++ [set_c_size size c]) ++ rest_cell size x c :: C2)
    by (by rewrite <- app_assoc).
  rewrite !(fmap_app key (C1 ++ _)). apply ord_emplace_middle; apply Forall_fmap, Forall_forall; intros d Hd; simpl.
  - destruct (tiles_middle _ _ _ _ _ _ _ Ht) as (sm & H1 & _).
    apply elem_of_app in Hd as [Hd|Hd]; [|apply list_elem_of_singleton in Hd as ->; simpl; lia].
    pose proof (tiles_range _ _ _ _ _ _ H1 Hd). lia.
  - apply tiles_app in Ht as (m & sm & _ & H2). simpl in H2. destruct H2 as (-> & _ & _ & H2).
    pose proof (tiles_range _ _ _ _ _ _ H2 Hd). lia.
Qed.

Lemma rest_addr_fresh C1 c C2 size x : geo (W (C1 ++ c :: C2)) → 0 < size < c_size c →
  c_addr (rest_cell size x c) ∉ c_addr <$> all_cells (W (C1 ++ set_c_size size c :: C2)).
Proof.
  intros Hg Hs (d & Hd & Hin)%list_elem_of_fmap_1. simpl in Hd.
  destruct (all_cells_focus A s K1 k K2) as (X & Y & Hf). rewrite Hf in Hin.
  assert (c ∈ k_cells (set_cells (C1 ++ c :: C2) k)) as Hc by (simpl; set_solver).
  destruct (decide (d = set_c_size size c)) as [->|Hne]; [simpl in Hd; lia|].
  assert (d ∈ all_cells (W (C1 ++ c :: C2))) as Hd' by (rewrite Hf; set_solver).
  apply elem_of_all_cells in Hd' as (s' & k' & Hk' & Hdk').
  pose proof (cell_in_block _ _ (geo_ok _ Hg s' k' Hk') Hdk').
  destruct (cells_disjoint _ s s' _ _ _ _ Hg (W_block A s K1 k K2 _) Hk' Hc Hdk') as [<-|]; lia.
Qed.

Lemma bf_SplitMemBuf_spec C1 c C2 st size p :
  shape (W (C1 ++ c :: C2)) p → geo (W (C1 ++ c :: C2)) → st ≠ kMemBufUsed → c_status c = st →
  stream_ok (k_stream k) → tabW st (C1 ++ C2) p → 0 < size < c_size c →
  wp (SplitMemBuf size (c_ptr c) s (k_stream k)) p (λ _ p',
    shape (W (C1 ++ set_c_size size c :: rest_cell size (next_ p) c :: C2)) p' ∧
    tabW st (C1 ++ rest_cell size (next_ p) c :: C2) p' ∧ buf_step st p p').
Proof.
  intros Hsh Hg Hst Hc Hok Ht Hs. unfold SplitMemBuf.
  destruct (W_cell A s K1 k K2 _ _ c Hsh ltac:(set_solver)) as (b & Hb & Hba & Hbs & Hbst & Hbp).
  pose proof (geo_ok _ Hg s _ (W_block A s K1 k K2 _)) as (Hbase & _ & Hend & st' & Htl). simpl in Hbase, Hend, Htl.
  pose proof (tiles_range _ _ _ _ _ c Htl ltac:(set_solver)) as Hcr.
  wp_step. eapply wp_load_buf; [exact Hb|]. wp_step.
  eapply (wp_mono _ _ (λ r p', p' = p ∧ r = Some (k_ptr k))).
  { destruct block_ptrs; [wp_step; by rewrite Hbp|]. rewrite Hba.
    eapply (FindMemBlock_cell _ _ _ c); [done|done| |]; [set_solver|lia]. }
  intros r p' [-> ->]. wp_step. eapply wp_deref; [done|]. wp_step. eapply wp_update_buf; [exact Hb|].
  set (p1 := set_bufs _ p).
  assert (shape (W (C1 ++ set_c_size size c :: C2)) p1) as Hsh1 by (by eapply shape_set_cell).
  wp_step. unfold new_buf at 1, wp at 1. set (p2 := set_next_ptr _ _). wp_step.
  assert (blks_ p2 !! k_ptr k = Some (block_of (set_cells (C1 ++ set_c_size size c :: C2) k))) as Hblk
    by (apply (W_blk A s K1 k K2 _ p1 Hsh1)).
  eapply bf_wp_update_blk; [exact Hblk|]. set (p3 := set_blks _ p2).
  set (d := rest_cell size (next_ p) c).
  assert (blks_ p3 = <[k_ptr k := block_of (set_cells ((C1 ++ [set_c_size size c]) ++ d :: C2) k)]> (blks_ p1)) as Eblk.
  { unfold p3. simpl. f_equal. unfold set_block_map, block_of. simpl. f_equal.
    rewrite Hba. rewrite <- app_assoc. cbn [app]. by eapply emplace_rest. }
  assert (shape (W ((C1 ++ [set_c_size size c]) ++ d :: C2)) p3) as Hsh3.
  { eapply shape_insert_cell; [by rewrite <- app_assoc| |reflexivity|exact Eblk|done| | | | | | |].
    - simpl. lia.
    - simpl. lia.
    - simpl. lia.
    - rewrite <- app_assoc. by apply rest_addr_fresh.
    - simpl. by rewrite Hba.
    - simpl. rewrite Hbs. apply u64_small. lia.
    - done.
    - simpl. by intros ->. }
  assert (tabW st (C1 ++ C2) p3) as Ht3 by (eapply tab_ext; [exact Ht|by intros s'|done]).
  wp_step. eapply bf_wp_load_blk; [apply (W_blk A s K1 k K2 _ p3 Hsh3)|].
  cbn [stream_id_ block_of set_cells k_stream].
  assert ((if block_ptrs then k_stream k else k_stream k) = k_stream k) as -> by (by destruct block_ptrs).
  rewrite Hbst, Hc. destruct (W_cell A s K1 k K2 _ _ d Hsh3 ltac:(set_solver)) as (bd & Hbd & _ & Hds & _).
  assert (wp (AddMemBuf s st (c_ptr d) (k_stream k)) p3 (λ _ p', table_step st p3 p' ∧ tabW st (C1 ++ d :: C2) p')) as Hadd.
  { eapply (AddMemBuf_spec st _ _ p3 s); [exact Ht3|exact Hbd|done| |].
    - rewrite entries_with_cell, decide_True by done. by rewrite Hds.
    - intros s' stream' Hne. rewrite entries_with_cell, decide_False by naive_solver. done. }
  destruct st; [|done|]; (eapply wp_mono; [exact Hadd|]); intros _ p4 [Hts Ht4]; split_and!; try done.
  1,3: rewrite <- app_assoc in Hsh3; by eapply shape_table_step.
  all: eapply (buf_step_trans _ _ p3); [by split|by eapply buf_step_table].
Qed.
End split.

(** * The best-fit pool: the representation invariant and the search for memory *)

Section alloc.
Context {T : Type → Type} `{StreamTable T} {D : Type} `{DeviceMem D} `{V : BestFitVariant}.
Context {stream_ok : Z → Prop} {reusable : Prop} `{!StreamTableLaws T stream_ok reusable}.
Context {dev_ok : D → gmap ptr (Z * Z) → Prop} `{!DeviceMemLaws D dev_ok} `{!SplitLaws}.
Implicit Types (p : BestFitPool T D) (A : astate).

(** The device holds the regions of the blocks. *)
Definition device_holds A (d : D) : Prop :=
  ∃ R, dev_ok d R ∧ ∀ s k, k ∈ A s → ∃ j, R !! j = Some (k_base k, k_size k).

(** The pool [p] represents [A], up to its containers of idle buffers. *)
Record core A p : Prop := {
  co_shape : shape A p;
  co_geo : geo A;
  co_stream s k : k ∈ A s → stream_ok (k_stream k);
  co_eager : tab_of kMemBufEagerFree A p;
  co_used s : used_of s p = u64 (used_bytes (A s));
  co_total s : total_of s p = u64 (total_bytes (A s));
  co_lists_valid s stream : stream_ok stream → valid stream (mem_blocks_ (mem_mng s p));
  co_lists s stream x : x ∈ contents stream (mem_blocks_ (mem_mng s p)) → x ∈ k_ptr <$> A s;
  co_device : device_holds A (device_ p)
}.

(** The pool [p] represents [A]. *)
Record rep A p : Prop := {
  rp_core : core A p;
  rp_idle : tab_of kMemBufIdle A p
}.

Lemma rp_shape A p : rep A p → shape A p.
Proof. intros Hr. apply Hr. Qed.
Lemma rp_geo A p : rep A p → geo A.
Proof. intros Hr. apply Hr. Qed.
Lemma rp_stream A p : rep A p → ∀ s k, k ∈ A s → stream_ok (k_stream k).
Proof. intros Hr. apply Hr. Qed.

Lemma rep_tab st A p : rep A p → tab_of st A p ∨ st = kMemBufUsed.
Proof. intros [Hc Hi]. destruct st; [by left|by right|left; apply Hc]. Qed.

Lemma core_used_range A p s : core A p → 0 <= used_of s p < w64.
Proof. intros Hr. rewrite (co_used _ _ Hr). apply u64_range. Qed.

(** Looking at one block of a represented state. *)
Lemma core_focus A p s K1 k K2 C : core A p → A s = K1 ++ k :: K2 → k_cells k = C →
  shape (with_cells A s K1 k K2 C) p ∧ geo (with_cells A s K1 k K2 C) ∧
  ∀ st, tab_of st A p → tab st (λ s' stream, entries st stream (with_cells A s K1 k K2 C s')) p.
Proof.
  intros Hr HA <-. assert (∀ s', A s' = with_cells A s K1 k K2 (k_cells k) s') as He
    by (intros; by rewrite with_cells_id).
  split_and!.
  - eapply shape_ext; [exact He|apply Hr].
  - eapply geo_ext; [exact He|apply Hr].
  - intros st Ht. eapply tab_ext; [exact Ht|by intros s'|]. intros s' stream. by rewrite <- He.
Qed.

(** Changing the cells of one block. *)
Lemma core_update A p p' s K1 k K2 C n : core A p → A s = K1 ++ k :: K2 →
  shape (with_cells A s K1 k K2 C) p' → geo (with_cells A s K1 k K2 C) →
  tab_of kMemBufEagerFree (with_cells A s K1 k K2 C) p' →
  keeps p p' → used_change s n p p' → n = cells_size is_used C - cells_size is_used (k_cells k) →
  core (with_cells A s K1 k K2 C) p'.
Proof.
  intros Hr HA Hsh Hg Ht Hk [Hu Htot] Hn. split; try done.
  - intros s'. eapply with_cells_Forall; [done|done|]. apply Hr.
  - intros s'. rewrite Hu. rewrite (co_used _ _ Hr). case_decide as Hs; subst.
    + rewrite u64_add_l. f_equal. rewrite used_bytes_focus, HA. unfold used_bytes.
      rewrite !cells_of_app. simpl. rewrite !cells_size_app. lia.
    + by rewrite with_cells_other.
  - intros s'. rewrite Htot, (co_total _ _ Hr). by rewrite (total_bytes_focus _ _ _ _ _ _ _ HA).
  - intros s' stream Hok. rewrite (kp_streams _ _ Hk). by apply Hr.
  - intros s' stream x Hx. rewrite (kp_streams _ _ Hk) in Hx. apply Hr in Hx.
    destruct (decide (s' = s)) as [->|Hs]; [|by rewrite with_cells_other].
    rewrite with_cells_same. rewrite HA, fmap_app in Hx. rewrite fmap_app. exact Hx.
  - rewrite (kp_device _ _ Hk). destruct (co_device _ _ Hr) as (R & HR & HRk). exists R. split; [done|].
    intros s'. eapply with_cells_Forall; [done|done|]. apply HRk.
Qed.

Lemma rep_update A p p' s K1 k K2 C n : rep A p → A s = K1 ++ k :: K2 →
  shape (with_cells A s K1 k K2 C) p' → geo (with_cells A s K1 k K2 C) →
  (∀ st, st ≠ kMemBufUsed → tab st (λ s' stream, entries st stream (with_cells A s K1 k K2 C s')) p') →
  keeps p p' → used_change s n p p' → n = cells_size is_used C - cells_size is_used (k_cells k) →
  rep (with_cells A s K1 k K2 C) p'.
Proof.
  intros Hr HA Hsh Hg Ht Hk Hu Hn. split; [|by apply Ht].
  eapply core_update; [apply Hr|exact HA|done|done|by apply Ht|done|exact Hu|done].
Qed.

(** ** Search *)

(** [r] is [size] bytes or more taken from the cell [c] of [A]; [A'] is what is left. *)
Definition taken (split : bool) (size : Z) (x : ptr) A (r : Z) A' s K1 k K2 C1 c C2 : Prop :=
  A s = K1 ++ k :: K2 ∧ k_cells k = C1 ++ c :: C2 ∧ size <= c_size c ∧ r = c_addr c ∧
  A' = with_cells A s K1 k K2 (C1 ++ carve split size x c ++ C2).

(** The buffer a search hands out is the smallest sufficient one of its stream. *)
Definition best_fit (size : Z) A s (stream : Z) (st : DynamicMemBufStatus) (c : cell) : Prop :=
  ∀ n x, (n, x) ∈ entries st stream (A s) → size <= n → c_size c <= n.

Definition grant (size : Z) (x : ptr) A s (stream : Z) (st : DynamicMemBufStatus) (r : Z) A' : Prop :=
  ∃ K1 k K2 C1 c C2, taken (IsSplit size (c_size c)) size x A r A' s K1 k K2 C1 c C2 ∧
    k_stream k = stream ∧ c_status c = st ∧ best_fit size A s stream st c.

Definition no_fit (size : Z) A s (stream : Z) (st : DynamicMemBufStatus) : Prop :=
  ∀ n x, (n, x) ∈ entries st stream (A s) → n < size.

(** The end of a grant: the buffer, split or not, becomes used. *)
Lemma use_cell A s K1 k K2 C1 c C2 p f n g :
  let W := with_cells A s K1 k K2 in
  shape (W (C1 ++ c :: C2)) p → c_size c = n →
  (∀ d, total_used_mem_size_ (f n d) = total_used_mem_size_ d +64 n ∧ total_mem_size_ (f n d) = g (total_mem_size_ d)) →
  wp (update_buf (c_ptr c) (set_buf_status kMemBufUsed);;
      b ← load_buf (c_ptr c); upd_mps s (f (size_ b));; mret (device_addr_ b)) p (λ r p',
    r = c_addr c ∧ shape (W (C1 ++ set_c_status kMemBufUsed c :: C2)) p' ∧ keeps p p' ∧
    (∀ st, same_table st p p') ∧
    (∀ s', used_of s' p' = if decide (s' = s) then u64 (used_of s' p + n) else used_of s' p) ∧
    (∀ s', total_of s' p' = if decide (s' = s) then g (total_of s' p) else total_of s' p)).
Proof.
  intros W Hsh Hn Hf. destruct (W_cell A s K1 k K2 _ _ c Hsh ltac:(set_solver)) as (b & Hb & Hba & Hbs & Hbst & Hbp).
  wp_step. eapply wp_update_buf; [exact Hb|]. set (p1 := set_bufs _ p).
  assert (shape (W (C1 ++ set_c_status kMemBufUsed c :: C2)) p1) as Hsh1 by (by eapply shape_set_cell).
  wp_step. eapply wp_load_buf; [simpl; by apply lookup_insert_eq|]. wp_step. apply wp_upd_mps. wp_steps.
  cbn [size_ device_addr_ set_buf_status]. rewrite Hbs, Hn. split_and!; [done| | | | |].
  - eapply shape_keeps; [exact Hsh1|done|done|done|]. apply upd_mps_keeps.
  - eapply (keeps_trans _ p1); [done|]. apply upd_mps_keeps.
  - intros st. eapply (same_table_trans _ _ p1); [by intros s'|]. apply upd_mps_tables.
  - intros s'. unfold used_of. case_decide; subst; [|by rewrite mem_mng_set_other].
    rewrite mem_mng_set_same. apply Hf.
  - intros s'. unfold total_of. case_decide; subst; [|by rewrite mem_mng_set_other].
    rewrite mem_mng_set_same. apply Hf.
Qed.

Lemma granted_stats st n d :
  let f := match st with
    | kMemBufIdle => sub_idle n (add_used n d)
    | kMemBufEagerFree => sub_eager n (add_used n d)
    | kMemBufUsed => add_used n d
    end in
  total_used_mem_size_ f = total_used_mem_size_ d +64 n ∧ total_mem_size_ f = total_mem_size_ d.
Proof. by destruct st. Qed.

(** Taking a buffer out of its container and handing out [size] bytes of it. *)
Lemma take_cell A s K1 k K2 C1 c C2 st stream size f p :
  rep A p → A s = K1 ++ k :: K2 → k_cells k = C1 ++ c :: C2 → st ≠ kMemBufUsed → c_status c = st →
  k_stream k = stream → 0 < size <= c_size c →
  (∀ n d, total_used_mem_size_ (f n d) = total_used_mem_size_ d +64 n ∧ total_mem_size_ (f n d) = total_mem_size_ d) →
  ∀ p0, keeps p p0 → shape (with_cells A s K1 k K2 (C1 ++ c :: C2)) p0 → next_ p0 = next_ p →
  (∀ st', st' ≠ kMemBufUsed → st' ≠ st → same_table st' p p0) → same_mps p p0 →
  tab st (λ s' stream, entries st stream (with_cells A s K1 k K2 (C1 ++ C2) s')) p0 →
  wp (b ← load_buf (c_ptr c);
      whenM (IsSplit size (size_ b)) (SplitMemBuf size (c_ptr c) s stream);;
      update_buf (c_ptr c) (set_buf_status kMemBufUsed);;
      b ← load_buf (c_ptr c); upd_mps s (f (size_ b));; mret (device_addr_ b)) p0 (λ r p',
    r = c_addr c ∧ keeps p p' ∧
    rep (with_cells A s K1 k K2 (C1 ++ carve (IsSplit size (c_size c)) size (next_ p) c ++ C2)) p').
Proof.
  intros Hr HA HC Hst Hc Hstream Hs Hf p0 Hk0 Hsh0 Hn0 Ho0 Hm0 Ht0.
  assert (k ∈ A s) as Hk by (rewrite HA; set_solver).
  assert (stream_ok stream) as Hok by (rewrite <- Hstream; by apply (rp_stream _ _ Hr s)).
  destruct (core_focus A p s K1 k K2 _ (rp_core _ _ Hr) HA HC) as (_ & Hg & Ht).
  destruct (geo_ok _ (rp_geo _ _ Hr) _ _ Hk) as (Hbase & _ & Hend & st' & Htl). rewrite HC in Htl.
  assert (c_size c < w64) as Hcw by (pose proof (tiles_range _ _ _ _ _ c Htl ltac:(set_solver)); lia).
  destruct (W_cell A s K1 k K2 _ _ c Hsh0 ltac:(set_solver)) as (b & Hb & Hba & Hbs & Hbst & Hbp).
  set (split := IsSplit size (c_size c)).
  assert (split = true → 0 < size < c_size c) as Hsp 
    by (intros Hx; split; [lia|]; apply split_room; [lia|lia|exact Hx]).
  (* the state after the optional split *)
  wp_step. eapply wp_load_buf; [exact Hb|]. rewrite Hbs. fold split. wp_step.
  eapply (wp_mono _ _ (λ _ p1, ∃ c1 C3, carve split size (next_ p) c = set_c_status kMemBufUsed c1 :: C3 ∧
    c_ptr c1 = c_ptr c ∧ c_addr c1 = c_addr c ∧ c_size c1 = granted split size c ∧
    shape (with_cells A s K1 k K2 (C1 ++ c1 :: C3 ++ C2)) p1 ∧
    tab st (λ s' stream, entries st stream (with_cells A s K1 k K2 (C1 ++ C3 ++ C2) s')) p1 ∧ buf_step st p0 p1)).
  { apply wp_whenM; intros Hspl; unfold carve, granted; rewrite Hspl.
    - rewrite <- Hstream. eapply wp_mono; [eapply (bf_SplitMemBuf_spec A s K1 k K2 C1 c C2 st); try done|].
      + by rewrite Hstream.
      + by apply Hsp.
      + intros _ p1 (Hsh1 & Ht1 & Hb1). rewrite Hn0 in Hsh1, Ht1.
        exists (set_c_size size c), [rest_cell size (next_ p) c]. split_and!; done.
    - exists c, []. split_and!; done. }
  intros _ p1 (c1 & C3 & Hcarve & Hp1 & Ha1 & Hs1 & Hsh1 & Ht1 & Hb1).
  rewrite <- Hp1, <- Ha1. eapply wp_mono; [eapply (use_cell A s K1 k K2 C1 c1 (C3 ++ C2) p1 f _ id); [done|done|apply Hf]|].
  intros r p2 (-> & Hsh2 & Hk2 & Hs2 & Hu2 & Htot2). split; [done|].
  assert (keeps p p2) as Hkp.
  { eapply keeps_trans; [exact Hk0|]. eapply keeps_trans; [apply (bs_keeps _ _ _ Hb1)|done]. }
  split; [done|].
  assert (C1 ++ carve split size (next_ p) c ++ C2 = C1 ++ set_c_status kMemBufUsed c1 :: C3 ++ C2) as HCc
    by (by rewrite Hcarve).
  eapply rep_update; [exact Hr|exact HA|by rewrite HCc| | |done| |].
  - apply geo_with_cells; [apply Hr|done|]. by eapply carve_tiles.
  - intros st2 Hst2. destruct (decide (st2 = st)) as [->|Hne].
    + eapply tab_ext; [exact Ht1|apply Hs2|]. intros s' stream'. rewrite HCc.
      by rewrite (entries_status A s K1 k K2 C1 (set_c_status kMemBufUsed c1)) by (simpl; congruence).
    + eapply tab_ext; [apply Ht; by destruct (rep_tab st2 A p Hr)|eapply same_table_trans; [by apply Ho0|]|].
      * eapply same_table_trans; [by apply (bs_other _ _ _ Hb1)|apply Hs2].
      * intros s' stream'. symmetry. apply entries_other. intros _ _. rewrite carve_entries; by rewrite ?Hc.
  - pose proof (bs_mps _ _ _ Hb1) as Hm1.
    split; intros s'; unfold used_of, total_of in *; rewrite ?Hu2, ?Htot2, Hm1, Hm0; [done|by case_decide].
  - rewrite HC, carve_used by (by rewrite Hc). lia.
Qed.

Lemma entry_cell A s st stream n x : (n, x) ∈ entries st stream (A s) →
  ∃ K1 k K2 C1 c C2, A s = K1 ++ k :: K2 ∧ k_cells k = C1 ++ c :: C2 ∧ k_stream k = stream ∧
    c_status c = st ∧ c_size c = n ∧ c_ptr c = x.
Proof.
  intros (k & c & Hk & Hs & Hc & Hst & Hn & Hx)%elem_of_entries.
  apply list_elem_of_split in Hk as (K1 & K2 & HA). apply list_elem_of_split in Hc as (C1 & C2 & HC). naive_solver.
Qed.

Lemma FindMemBufInSpecifiedMng_spec A p size s st stream :
  rep A p → stream_ok stream → st ≠ kMemBufUsed → 0 < size →
  wp (FindMemBufInSpecifiedMng size s st stream) p (λ r p', keeps p p' ∧
    ((r = 0 ∧ rep A p' ∧ no_fit size A s stream st) ∨
     ∃ A', grant size (next_ p) A s stream st r A' ∧ rep A' p')).
Proof.
  intros Hr Hok Hst Hs. unfold FindMemBufInSpecifiedMng. wp_steps.
  assert (tab_of st A p) as Ht by (by destruct (rep_tab st A p Hr)).
  destruct (get_contents stream (status_table st (mem_mng s p))) as (t & Hg & Hgc & Hgv); [by apply (tab_valid _ _ _ Ht)|].
  eapply wp_deref; [exact Hg|]. cbv beta iota. wp_step. apply wp_upd_mng. set (p0 := set_mng s _ p).
  set (l := contents stream (status_table st (mem_mng s p))).
  assert (table_step st p p0) as Hts by apply table_step_set.
  assert (tab_of st A p0) as Ht0.
  { assert (∀ s' stream', contents stream' (status_table st (mem_mng s' p0)) =
                          contents stream' (status_table st (mem_mng s' p))) as Hc.
    { intros s' stream'. unfold p0. destruct (decide (s' = s)) as [->|Hne]; [|by rewrite mem_mng_set_other].
      by rewrite mem_mng_set_same, status_table_set_same. }
    split; intros s' stream'; rewrite ?Hc; try apply Ht. intros Hok'. unfold p0.
    destruct (decide (s' = s)) as [->|Hne]; [|rewrite mem_mng_set_other by done; by apply Ht].
    rewrite mem_mng_set_same, status_table_set_same. by apply Hgv, Ht. }
  assert (rep A p0) as Hr0.
  { destruct Hr as [[R1 R2 R3 R5 R6 R7 R8 R9 R10] R4]. pose proof (ts_keeps _ _ _ Hts) as Hk. split; [split; try done|].
    - by eapply shape_table_step.
    - destruct st; [|done|exact Ht0]. eapply tab_ext; [exact R5|by apply (ts_other _ _ _ Hts)|done].
    - intros s'. unfold used_of. rewrite (ts_mps _ _ _ Hts). apply R6.
    - intros s'. unfold total_of. rewrite (ts_mps _ _ _ Hts). apply R7.
    - intros s'. rewrite (kp_streams _ _ Hk). apply R8.
    - intros s'. rewrite (kp_streams _ _ Hk). apply R9.
    - destruct st; [exact Ht0|done|]. eapply tab_ext; [exact R4|by apply (ts_other _ _ _ Hts)|done]. }
  assert (StronglySorted keys_le l) as Hl by apply Ht.
  assert (l ≡ₚ entries st stream (A s)) as Hperm by apply Ht.
  destruct (l !! lower_bound size l) as [[n x]|] eqn:Hfit.
  2:{ wp_step. split; [apply (ts_keeps _ _ _ Hts)|]. left. split_and!; [done|done|].
      intros n x Hin. rewrite <- Hperm in Hin. pose proof (lower_bound_end size l Hl Hfit) as Hall.
      rewrite Forall_forall in Hall. apply (Hall _ Hin). }
  destruct (lower_bound_best size l _ _ Hl eq_refl Hfit) as [Hle Hbest]. simpl in Hle, Hbest.
  assert ((n, x) ∈ entries st stream (A s)) as Hin by (rewrite <- Hperm; by eapply list_elem_of_lookup_2).
  destruct (entry_cell _ _ _ _ _ _ Hin) as (K1 & k & K2 & C1 & c & C2 & HA & HC & Hk & Hc & Hn & Hx).
  subst n x. destruct (core_focus A p0 s K1 k K2 _ (rp_core _ _ Hr0) HA HC) as (Hsh0 & _ & Ht0').
  destruct (W_cell A s K1 k K2 _ _ c Hsh0 ltac:(set_solver)) as (b & Hb & Hba & Hbs & Hbst & Hbp).
  wp_steps. eapply wp_update_buf; [exact Hb|]. set (p1 := set_bufs _ p0).
  assert (shape (with_cells A s K1 k K2 (C1 ++ c :: C2)) p1) as Hsh1 by (by eapply shape_set_cell).
  wp_step. apply wp_upd_mng. set (p2 := set_mng s _ p1).
  assert (table_step st p1 p2) as Hts2 by apply table_step_set.
  assert (tab st (λ s' stream, entries st stream (with_cells A s K1 k K2 (C1 ++ C2) s')) p2) as Ht2.
  { change (mem_mng s p1) with (mem_mng s p0). unfold p2. eapply (tab_set st).
    - eapply tab_ext; [apply (Ht0' st Ht0)|by intros s'|done].
    - done.
    - by apply delete_sorted.
    - apply (Permutation_cons_inv (a := (c_size c, c_ptr c))). rewrite <- (delete_perm _ _ _ Hfit), Hperm.
      rewrite <- (with_cells_id A s K1 k K2 s HA), HC. by rewrite entries_with_cell, decide_True by done.
    - intros s' stream' Hne. rewrite entries_with_cell, decide_False by naive_solver. done.
    - done.
    - done. }
  eapply wp_mono; [eapply (take_cell A s K1 k K2 C1 c C2 st stream size
    (λ n d, match st with
            | kMemBufIdle => sub_idle n (add_used n d)
            | kMemBufEagerFree => sub_eager n (add_used n d)
            | kMemBufUsed => add_used n d
            end) p); try done|].
  - intros n d. apply granted_stats.
  - eapply (keeps_trans _ p0); [apply (ts_keeps _ _ _ Hts)|]. eapply (keeps_trans _ p1); [done|]. apply (ts_keeps _ _ _ Hts2).
  - by eapply shape_table_step.
  - intros st' Hu Hne. eapply (same_table_trans _ _ p0); [by apply (ts_other _ _ _ Hts)|].
    eapply (same_table_trans _ _ p1); [by intros s'|by apply (ts_other _ _ _ Hts2)].
  - eapply (same_mps_trans _ p0); [apply (ts_mps _ _ _ Hts)|]. eapply (same_mps_trans _ p1); [by intros s'|apply (ts_mps _ _ _ Hts2)].
  - intros r p3 (-> & Hk3 & Hr3). split; [done|]. right. eexists. split; [|exact Hr3].
    exists K1, k, K2, C1, c, C2. split_and!; try done. intros n x Hnx Hsn. rewrite <- Hperm in Hnx. by apply (Hbest _ Hnx).
Qed.

(** ** Release *)

Lemma cells_size_focus f C1 c C2 : cells_size f (C1 ++ c :: C2) =
  cells_size f (C1 ++ C2) + (if f (c_status c) then c_size c else 0).
Proof. rewrite !cells_size_app. simpl. lia. Qed.

Lemma combine_used C1 c C2 : c_status c ≠ kMemBufUsed →
  cells_size is_used (combine C1 c C2) = cells_size is_used (C1 ++ C2).
Proof.
  intros Hc. unfold combine, combine_next.
  assert (∀ C1 c C2, c_status c ≠ kMemBufUsed →
    cells_size is_used ((combine_prev C1 c).1 ++ (combine_prev C1 c).2 :: C2) = cells_size is_used (C1 ++ C2)) as Hprev.
  { clear. intros C1 c C2 Hc. unfold combine_prev. destruct (last C1) as [b|] eqn:Hl.
    - apply last_Some in Hl as [C1' ->]. rewrite removelast_last.
      case_decide as Hb; simpl; rewrite !cells_size_focus, ?cells_size_app; simpl.
      + rewrite Hb. destruct (c_status c); simpl; try done; lia.
      + destruct (c_status c); simpl; try done; lia.
    - simpl. rewrite cells_size_focus. destruct (c_status c); simpl; try done; lia. }
  destruct C2 as [|d C2].
  - specialize (Hprev C1 c []). destruct (combine_prev C1 c). by apply Hprev.
  - case_decide as Hd.
    + specialize (Hprev C1 (grow c d) C2 Hc). destruct (combine_prev C1 (grow c d)). simpl in Hprev. rewrite Hprev.
      rewrite cells_size_focus, Hd. destruct (c_status c); simpl; try done; lia.
    + specialize (Hprev C1 c (d :: C2) Hc). destruct (combine_prev C1 c). by apply Hprev.
Qed.

(** Freeing the memory of a cell in use makes it idle and joins it with its idle
    neighbours. *)
Lemma FreeTensorMemInner_spec A p s K1 k K2 C1 c C2 : rep A p →
  A s = K1 ++ k :: K2 → k_cells k = C1 ++ c :: C2 → c_status c = kMemBufUsed →
  wp (FreeTensorMemInner (c_addr c)) p (λ _ p',
    rep (with_cells A s K1 k K2 (combine C1 (set_c_status kMemBufIdle c) C2)) p' ∧ keeps p p').
Proof.
  intros Hr HA HC Hc. destruct (core_focus A p s K1 k K2 _ (rp_core _ _ Hr) HA HC) as (Hsh & Hg & Ht).
  assert (k ∈ A s) as Hk by (rewrite HA; set_solver).
  assert (tab kMemBufIdle (λ s' stream, entries kMemBufIdle stream (with_cells A s K1 k K2 (C1 ++ C2) s')) p) as Hti.
  { eapply tab_ext; [apply Ht, Hr|by intros s'|]. intros s' stream. by rewrite entries_status by congruence. }
  unfold FreeTensorMemInner.
  eapply wp_mono; [apply (CombineMemBuf_found A s K1 k K2 C1 c C2); try done|].
  - by apply (rp_stream _ _ Hr s).
  - intros s'. eapply core_used_range, Hr.
  - intros _ p' (Hsh' & Ht' & Hk' & Ho & Hu). split; [|done].
    eapply rep_update; [exact Hr|exact HA|exact Hsh'| | |exact Hk'|exact Hu|].
    + apply geo_with_cells; [apply Hr|done|].
      destruct (geo_ok _ (rp_geo _ _ Hr) _ _ Hk) as (_ & _ & _ & st & Htl). rewrite HC in Htl.
      eapply combine_tiles; [done| |exact Htl]. by rewrite Hc.
    + intros [| |] Hst; [exact Ht'|done|]. eapply tab_ext; [apply Ht, Hr|by apply Ho|].
      intros s' stream. rewrite entries_status by congruence. apply entries_other. intros _ _.
      by rewrite combine_entries.
    + rewrite HC, combine_used, cells_size_focus, Hc by done. simpl. lia.
Qed.

(** An address that no buffer starts at is ignored. *)
Lemma CombineMemBuf_unknown A p addr st st' : shape A p → geo A →
  (∀ c, c ∈ all_cells A → c_addr c ≠ addr) → CombineMemBuf addr st st' p = Ret () p.
Proof.
  intros Hsh Hg Hno. assert (wp (CombineMemBuf addr st st') p (λ _ p', p' = p)) as Hwp.
  { unfold CombineMemBuf. wp_step. eapply wp_mono; [by apply FindByStrictAddr_spec|].
    intros r p' [-> [[-> _]|(s & x & -> & Hf)]]; [by wp_step|].
    destruct Hf as (K1 & k & K2 & C1 & c & C2 & HA & HC & Ha & _). destruct (Hno c); [|done].
    apply elem_of_all_cells. exists s, k. rewrite HA, HC. set_solver. }
  apply wp_inv in Hwp as ([] & p' & He & ->). done.
Qed.
End alloc.
