(* ===== verification/BestFitPool.v ===== *)
(** * The best-fit pool: the search over both managers, and eager free

    Searching refines taking memory from the abstract state: the ranges in use
    afterwards are those before and the one handed out. Eager free turns every
    idle cell into an eager-free one. *)

From S2P Require Import Prelude EventBase MemBufHeap MemGeometry MemStat PoolDevice OrdList StreamTable BestFitState BestFit BestFitAbs BestFitRep BestFitCombine BestFitSplit.
Import BestFitTypes BestFit.

(** [r] is null, or at least [size] bytes that were not in use. *)
Definition gives (size : Z) (A : astate) (r : Z) (A' : astate) : Prop :=
  (r = 0 ∧ used_ranges A' ≡ₚ used_ranges A) ∨
  (0 < r ∧ ∃ n, size <= n ∧ used_ranges A' ≡ₚ (r, n) :: used_ranges A).

Lemma gives_none size A A' : used_ranges A' ≡ₚ used_ranges A → gives size A 0 A'.
Proof. by left. Qed.

Lemma gives_after size A A1 A2 r : used_ranges A1 ≡ₚ used_ranges A → gives size A1 r A2 → gives size A r A2.
Proof.
  intros He [[-> H1]|(Hr & n & Hn & H1)]; [left|right].
  - by rewrite H1, He.
  - split; [done|]. exists n. by rewrite H1, He.
Qed.

Lemma gives_zero size A r A' : gives size A r A' → (r =? 0) = true → r = 0 ∧ used_ranges A' ≡ₚ used_ranges A.
Proof. intros [?|[? _]] Hr; [done|]. apply Z.eqb_eq in Hr. lia. Qed.

Section pool.
Context {T : Type → Type} `{StreamTable T} {D : Type} `{DeviceMem D} `{V : BestFitVariant}.
Context {stream_ok : Z → Prop} {reusable : Prop} `{!StreamTableLaws T stream_ok reusable}.
Context {dev_ok : D → gmap ptr (Z * Z) → Prop} `{!DeviceMemLaws D dev_ok} `{!SplitLaws}.
Implicit Types (p : BestFitPool T D) (A : astate).
Abbreviation rep := (rep (stream_ok := stream_ok) (dev_ok := dev_ok)).
Abbreviation core := (core (stream_ok := stream_ok) (dev_ok := dev_ok)).

Lemma grant_gives size x A s stream st r A' : geo A → st ≠ kMemBufUsed →
  grant size x A s stream st r A' → gives size A r A'.
Proof.
  intros Hg Hst (K1 & k & K2 & C1 & c & C2 & (HA & HC & Hn & -> & ->) & _ & Hc & _). right.
  assert (k ∈ A s) as Hk by (rewrite HA; set_solver).
  pose proof (geo_ok _ Hg _ _ Hk) as Hok. split.
  - pose proof (cell_in_block k c Hok ltac:(rewrite HC; set_solver)). destruct Hok. lia.
  - exists (granted (IsSplit size (c_size c)) size c). split; [unfold granted; case_match; lia|].
    rewrite (used_ranges_focus _ _ _ _ _ _ (C1 ++ c :: C2) [(c_addr c, granted (IsSplit size (c_size c)) size c)]).
    + simpl. f_equiv. rewrite <- HC. erewrite used_ranges_ext; [done|]. intros s'. by apply with_cells_id.
    + apply carve_ranges. by rewrite Hc.
Qed.

Lemma grant_total size x A s stream st r A' s' : grant size x A s stream st r A' →
  total_bytes (A' s') = total_bytes (A s').
Proof. intros (K1 & k & K2 & C1 & c & C2 & (HA & _ & _ & _ & ->) & _). by apply total_bytes_focus. Qed.

Lemma total_same A A' p p' : rep A p → rep A' p' → (∀ s, total_bytes (A' s) = total_bytes (A s)) →
  ∀ s, total_of s p' = total_of s p.
Proof.
  intros Hr Hr' He s. by rewrite (co_total _ _ (rp_core _ _ Hr)), (co_total _ _ (rp_core _ _ Hr')), He.
Qed.

(** What the searches have in common. *)
Record search_post (size : Z) A p (r : Z) p' : Prop := {
  sp_keeps : keeps p p';
  sp_total s : total_of s p' = total_of s p;
  sp_gives : ∃ A', rep A' p' ∧ gives size A r A'
}.

(** A search that found nothing, and another one. *)
Lemma search_again size A p p1 A1 r p2 : keeps p p1 → (∀ s, total_of s p1 = total_of s p) →
  used_ranges A1 ≡ₚ used_ranges A → search_post size A1 p1 r p2 → search_post size A p r p2.
Proof.
  intros Hk Ht He [Hk2 Ht2 (A2 & Hr2 & Hg2)]. split; [by eapply keeps_trans|intros s; by rewrite Ht2|].
  exists A2. split; [done|by eapply gives_after].
Qed.

Lemma FindIn_gives A p size s st stream :
  rep A p → stream_ok stream → st ≠ kMemBufUsed → 0 < size →
  wp (FindMemBufInSpecifiedMng size s st stream) p (search_post size A p).
Proof.
  intros Hr Hok Hst Hs. eapply wp_mono; [by eapply FindMemBufInSpecifiedMng_spec|].
  intros r p' [Hk [(-> & Hr' & _)|(A' & Hgr & Hr')]].
  - split; [done|by eapply total_same|]. exists A. split; [done|]. by apply gives_none.
  - split; [done|eapply total_same; [exact Hr|exact Hr'|]; intros s'; by eapply grant_total|].
    exists A'. split; [done|]. eapply grant_gives; [apply (rp_geo _ _ Hr)|done|exact Hgr].
Qed.

Lemma FindMemBufByStatus_spec A p size s st stream :
  rep A p → stream_ok stream → st ≠ kMemBufUsed → 0 < size →
  wp (FindMemBufByStatus size s st stream) p (search_post size A p).
Proof.
  intros Hr Hok Hst Hs. unfold FindMemBufByStatus. wp_step.
  eapply wp_mono; [by apply FindIn_gives|]. intros r p' Hp. wp_steps.
  destruct (_ && negb _) eqn:Hz; [|by wp_step].
  apply andb_prop in Hz as [[Hz _]%andb_prop _]. destruct Hp as [Hk Ht (A' & Hr' & Hg)].
  destruct (gives_zero _ _ _ _ Hg Hz) as [-> He].
  eapply wp_mono; [by apply (FindIn_gives A')|]. intros r p2. by apply search_again.
Qed.

Lemma FindAvailableMemBuf_spec A p size s stream :
  rep A p → stream_ok stream → 0 < size →
  wp (FindAvailableMemBuf size s stream) p (search_post size A p).
Proof.
  intros Hr Hok Hs. unfold FindAvailableMemBuf. wp_step.
  eapply wp_mono; [by apply FindMemBufByStatus_spec|]. intros r p' Hp. wp_steps.
  destruct (_ && (_ <=? _)) eqn:Hz; [|by wp_step].
  apply andb_prop in Hz as [[Hz _]%andb_prop _]. destruct Hp as [Hk Ht (A' & Hr' & Hg)].
  destruct (gives_zero _ _ _ _ Hg Hz) as [-> He].
  eapply wp_mono; [by apply (FindMemBufByStatus_spec A')|]. intros r p2. by apply search_again.
Qed.

(** ** Eager free *)

(** An operation that may also act on the device. *)
Definition roams p p' : Prop := keeps (set_device (device_ p') p) p'.

Lemma roams_keeps p p' : keeps p p' → roams p p'.
Proof. intros []. split; simpl; try done. Qed.

Lemma roams_trans p1 p2 p3 : roams p1 p2 → roams p2 p3 → roams p1 p3.
Proof.
  intros [l1 s1 u1 c1 t1 i1 b1 m1 d1] [l2 s2 u2 c2 t2 i2 b2 m2 d2]. simpl in *. split; simpl; try done; try congruence.
  - intros s. specialize (l1 s). specialize (l2 s). destruct s; simpl in *; congruence.
  - intros s. specialize (s1 s). specialize (s2 s). destruct s; simpl in *; congruence.
  - intros s. specialize (u1 s). specialize (u2 s). destruct s; simpl in *; congruence.
Qed.

Lemma core_set_device A p d : core A p → device_holds (dev_ok := dev_ok) A d → core A (set_device d p).
Proof.
  intros [[S1 S2 S3 S4 S5 S6 S7] Hg Hst [E1 E2 E3] Hu Ht Hlv Hl _] Hd.
  assert (∀ s, mem_mng s (set_device d p) = mem_mng s p) as Hm by (by intros []).
  unfold used_of, total_of in *. split; try done.
Qed.

Lemma omap_cells_focus {B} (f : cell → option B) A s K1 k K2 C :
  omap f (cells_of (with_cells A s K1 k K2 C s)) = omap f (cells_of K1) ++ omap f C ++ omap f (cells_of K2).
Proof. rewrite with_cells_same, cells_of_app. simpl. by rewrite !omap_app. Qed.

Definition idle_cells A s : list (Z * ptr) := omap (entry kMemBufIdle) (cells_of (A s)).

Lemma elem_of_idle_cells A s n x : (n, x) ∈ idle_cells A s ↔
  ∃ k c, k ∈ A s ∧ c ∈ k_cells k ∧ c_status c = kMemBufIdle ∧ c_size c = n ∧ c_ptr c = x.
Proof.
  unfold idle_cells. rewrite list_elem_of_omap. setoid_rewrite elem_of_cells. unfold entry. split.
  - intros (c & (k & Hk & Hc) & He). case_decide; naive_solver.
  - intros (k & c & Hk & Hc & Hst & <- & <-). exists c. split; [by exists k|]. by rewrite decide_True.
Qed.

Lemma idle_cells_NoDup A p s : shape A p → NoDup (idle_cells A s).
Proof.
  intros Hsh. pose proof (sh_cell_NoDup _ _ Hsh) as Hn. unfold all_cells in Hn. rewrite fmap_app in Hn.
  assert (NoDup (c_ptr <$> cells_of (A s))) as Hs by (apply NoDup_app in Hn; destruct s; naive_solver).
  unfold idle_cells. induction (cells_of (A s)) as [|c C IH]; [constructor|]. simpl in *.
  apply NoDup_cons in Hs as [Hc Hs]. unfold entry at 1. case_decide; [|by apply IH].
  constructor; [|by apply IH]. intros (d & Hd & He)%list_elem_of_omap. unfold entry in He.
  case_decide; [|done]. injection He as _ He. apply Hc. rewrite <- He. by apply list_elem_of_fmap_2.
Qed.

Lemma entries_sublist st stream K : entries st stream K `sublist_of` omap (entry st) (cells_of K).
Proof.
  induction K as [|k K IH]; [constructor|].
  change (cells_of (k :: K)) with (k_cells k ++ cells_of K). rewrite omap_app.
  change (entries st stream (k :: K)) with
    ((if decide (k_stream k = stream) then omap (entry st) (k_cells k) else []) ++ entries st stream K).
  apply sublist_app; [|done]. case_decide; [done|apply sublist_nil_l].
Qed.

(** The container lists the idle buffers, stream by stream. *)
Lemma idle_table_cells A p s : rep A p →
  concat (table_entries (idle_mem_bufs_ (mem_mng s p))).*2 ≡ₚ idle_cells A s.
Proof.
  intros Hr. set (t := idle_mem_bufs_ (mem_mng s p)).
  assert (∀ stream, contents stream t ≡ₚ entries kMemBufIdle stream (A s)) as Hc by apply (rp_idle _ _ Hr).
  pose proof (rp_shape _ _ Hr) as Hsh. pose proof (sh_cell_NoDup _ _ Hsh) as Hcn.
  assert (∀ n x stream, (n, x) ∈ contents stream t ↔ ∃ k c, k ∈ A s ∧ k_stream k = stream ∧ c ∈ k_cells k ∧
    c_status c = kMemBufIdle ∧ c_size c = n ∧ c_ptr c = x) as Hmem.
  { intros n x stream. by rewrite Hc, elem_of_entries. }
  apply NoDup_Permutation.
  - assert (∀ e, e ∈ table_entries t → NoDup e.2) as Hnd.
    { intros [stream l] He. apply entries_sound in He as <-. simpl. rewrite Hc.
      eapply sublist_NoDup; [by eapply idle_cells_NoDup|apply entries_sublist]. }
    assert (∀ e1 e2 y, e1 ∈ table_entries t → e2 ∈ table_entries t → y ∈ e1.2 → y ∈ e2.2 → e1.1 = e2.1) as Hdis.
    { intros [s1 l1] [s2 l2] [n x] <-%entries_sound <-%entries_sound. simpl. rewrite !Hmem.
      intros (k1 & c1 & Hk1 & <- & Hc1 & _ & _ & Hx1) (k2 & c2 & Hk2 & <- & Hc2 & _ & _ & Hx2).
      assert (c1 = c2) as <-.
      { eapply (NoDup_fmap_inj c_ptr); [exact Hcn| | |congruence]; apply elem_of_all_cells; eauto. }
      by destruct (cell_block_unique A s s k1 k2 c1 c1 (rp_geo _ _ Hr) Hk1 Hk2 Hc1 Hc2 eq_refl) as (_ & -> & _). }
    pose proof (entries_NoDup t) as Hks. revert Hnd Hdis Hks. induction (table_entries t) as [|e l IH]; [constructor|].
    intros Hnd Hdis [Hk Hks]%NoDup_cons. simpl. apply NoDup_app. split_and!.
    + apply Hnd. set_solver.
    + intros y Hy Hy2. apply list_elem_of_In, in_concat in Hy2 as (l' & Hl' & Hy2).
      apply list_elem_of_In in Hl'. apply list_elem_of_In in Hy2.
      apply list_elem_of_fmap_1 in Hl' as (e' & -> & He'). apply Hk.
      rewrite (Hdis e e' y) by set_solver. by apply list_elem_of_fmap_2.
    + apply IH; [set_solver|set_solver|done].
  - by eapply idle_cells_NoDup.
  - intros [n x]. rewrite elem_of_idle_cells, list_elem_of_In, in_concat. split.
    + intros (l & Hl & Hx). apply list_elem_of_In in Hl. apply list_elem_of_In in Hx.
      apply list_elem_of_fmap_1 in Hl as ([stream l'] & -> & He). apply entries_sound in He as <-. simpl in Hx.
      apply Hmem in Hx. naive_solver.
    + intros (k & c & Hk & Hcc & Hst & <- & <-).
      assert ((c_size c, c_ptr c) ∈ contents (k_stream k) t) as Hin by (apply Hmem; naive_solver).
      exists (contents (k_stream k) t). rewrite <- !list_elem_of_In. split; [|done].
      apply list_elem_of_fmap. exists (k_stream k, contents (k_stream k) t). split; [done|].
      apply entries_complete. intros He. rewrite He in Hin. by apply not_elem_of_nil in Hin.
Qed.
End pool.

(** * The best-fit pool: eager free

    [FreeIdleMemsByEagerFree] turns every idle cell into an eager-free one, joined
    with its eager-free neighbours, and leaves the memory in use alone. *)

Section eager.
Context {T : Type → Type} `{StreamTable T} {D : Type} `{DeviceMem D} `{V : BestFitVariant}.
Context {stream_ok : Z → Prop} {reusable : Prop} `{!StreamTableLaws T stream_ok reusable}.
Context {dev_ok : D → gmap ptr (Z * Z) → Prop} `{!DeviceMemLaws D dev_ok} `{!SplitLaws}.
Implicit Types (p : BestFitPool T D) (A : astate).
Abbreviation rep := (rep (stream_ok := stream_ok) (dev_ok := dev_ok)).
Abbreviation core := (core (stream_ok := stream_ok) (dev_ok := dev_ok)).

Lemma wp_on_device {X} (m : M D X) p (Q : X → BestFitPool T D → Prop) :
  wp m (device_ p) (λ a d, Q a (set_device d p)) → wp (on_device m) p Q.
Proof. apply (wp_zoom device_ set_device). Qed.

Lemma roams_set_device d p : roams p (set_device d p).
Proof. by destruct p. Qed.

Lemma core_device_step A p {X} (m : M D X) (Q : X → BestFitPool T D → Prop) : core A p →
  (∀ R, dev_ok (device_ p) R → wp m (device_ p) (λ _ d, dev_ok d R)) →
  (∀ a d, core A (set_device d p) → Q a (set_device d p)) → wp (on_device m) p Q.
Proof.
  intros Hc Hm HQ. apply wp_on_device. destruct (co_device _ _ Hc) as (R & HR & HRk).
  eapply wp_mono; [by apply (Hm R)|]. intros a d Hd. apply HQ.
  apply core_set_device; [done|]. by exists R.
Qed.

Lemma idle_cells_focus A s K1 k K2 C1 c C2 : A s = K1 ++ k :: K2 → k_cells k = C1 ++ c :: C2 →
  c_status c = kMemBufIdle →
  idle_cells A s ≡ₚ (c_size c, c_ptr c) :: idle_cells (with_cells A s K1 k K2 (C1 ++ C2)) s.
Proof.
  intros HA HC Hc. unfold idle_cells. rewrite omap_cells_focus, HA, cells_of_app.
  change (cells_of (k :: K2)) with (k_cells k ++ cells_of K2). rewrite HC, !omap_app. cbn [omap list_omap].
  unfold entry at 3. rewrite decide_True by done. rewrite <- !app_assoc. cbn [app]. by rewrite !Permutation_middle.
Qed.

(** One step of the loop: an idle cell becomes eager-free. *)
Lemma eager_step A p s n x : core A p → (n, x) ∈ idle_cells A s →
  wp (b ← load_buf x; CombineMemBuf (device_addr_ b) kMemBufIdle kMemBufEagerFree) p (λ _ p', ∃ A',
    core A' p' ∧ keeps p p' ∧ same_table kMemBufIdle p p' ∧ used_ranges A' ≡ₚ used_ranges A ∧
    A' (negb s) = A (negb s) ∧ (n, x) :: idle_cells A' s ≡ₚ idle_cells A s).
Proof.
  intros Hc Hin. apply elem_of_idle_cells in Hin as (k & c & Hk & Hck & Hst & <- & <-).
  destruct (list_elem_of_split _ _ Hk) as (K1 & K2 & HA). destruct (list_elem_of_split _ _ Hck) as (C1 & C2 & HC).
  destruct (core_focus A p s K1 k K2 _ Hc HA HC) as (Hsh & Hg & Ht).
  assert (tab kMemBufEagerFree (λ s' stream, entries kMemBufEagerFree stream (with_cells A s K1 k K2 (C1 ++ C2) s')) p) as Hte.
  { eapply tab_ext; [apply Ht, Hc|by intros s'|]. intros s' stream. by rewrite entries_status by (by rewrite Hst). }
  destruct (sh_cell _ _ (co_shape _ _ Hc) s k c Hk Hck) as (b & Hb & Hba & _).
  wp_step. eapply wp_load_buf; [exact Hb|]. rewrite Hba.
  eapply wp_mono; [apply (CombineMemBuf_found A s K1 k K2 C1 c C2); try done|].
  - by apply (co_stream _ _ Hc s).
  - intros s'. by eapply core_used_range.
  - intros _ p' (Hsh' & Ht' & Hk' & Ho & Hu). set (C := combine C1 (set_c_status kMemBufEagerFree c) C2) in *.
    exists (with_cells A s K1 k K2 C). split_and!; try done.
    + eapply core_update; [exact Hc|exact HA|exact Hsh'| |exact Ht'|exact Hk'|exact Hu|].
      * apply geo_with_cells; [apply Hc|done|].
        destruct (geo_ok _ (co_geo _ _ Hc) _ _ Hk) as (_ & _ & _ & st & Htl). rewrite HC in Htl.
        eapply combine_tiles; [done| |exact Htl]. by rewrite Hst.
      * rewrite HC. unfold C. rewrite combine_used, cells_size_focus, Hst by done. simpl. lia.
    + by apply Ho.
    + rewrite (used_ranges_focus _ _ _ _ _ C (C1 ++ c :: C2) []).
      * cbn [app]. by rewrite <- HC, used_ranges_id.
      * simpl. unfold C. rewrite (combine_omap used_range kMemBufUsed) by (done || apply used_range_selects).
        rewrite (omap_middle used_range kMemBufUsed); [done|apply used_range_selects|by rewrite Hst].
    + apply with_cells_other. by destruct s.
    + rewrite (idle_cells_focus _ _ _ _ _ _ _ _ HA HC Hst). f_equiv. unfold idle_cells. rewrite !omap_cells_focus.
      unfold C. by rewrite combine_entries.
Qed.

Lemma core_idle_step A p p' : core A p → table_step kMemBufIdle p p' → core A p'.
Proof.
  intros [R1 R2 R3 R5 R6 R7 R8 R9 R10] Hts. pose proof (ts_keeps _ _ _ Hts) as Hk. split; try done.
  - by eapply shape_table_step.
  - eapply tab_ext; [exact R5|by apply (ts_other _ _ _ Hts)|done].
  - intros s'. unfold used_of. rewrite (ts_mps _ _ _ Hts). apply R6.
  - intros s'. unfold total_of. rewrite (ts_mps _ _ _ Hts). apply R7.
  - intros s'. rewrite (kp_streams _ _ Hk). apply R8.
  - intros s'. rewrite (kp_streams _ _ Hk). apply R9.
  - by rewrite (kp_device _ _ Hk).
Qed.

Lemma entries_idle_nil A s stream : idle_cells A s = [] → entries kMemBufIdle stream (A s) = [].
Proof.
  intros Hn. pose proof (entries_sublist kMemBufIdle stream (A s)) as Hs. unfold idle_cells in Hn.
  rewrite Hn in Hs. by apply sublist_nil_r in Hs.
Qed.

Lemma eager_free_mem_func_spec A p s : rep A p → reusable →
  wp (eager_free_mem_func s) p (λ _ p', ∃ A', rep A' p' ∧ roams p p' ∧ used_ranges A' ≡ₚ used_ranges A ∧
    A' (negb s) = A (negb s) ∧ idle_cells A' s = []).
Proof.
  intros Hr Hre. unfold eager_free_mem_func. wp_steps.
  eapply (wp_forM _ _ _ _ (λ rest _ p', ∃ A', core A' p' ∧ roams p p' ∧ same_table kMemBufIdle p p' ∧
    used_ranges A' ≡ₚ used_ranges A ∧ A' (negb s) = A (negb s) ∧ rest ≡ₚ idle_cells A' s)).
  - exists A. split_and!; try done; [apply Hr|by eapply idle_table_cells].
  - intros [n x] rest acc p1 (A1 & Hc1 & Hro1 & Hs1 & Hu1 & Ho1 & Hp1).
    assert ((n, x) ∈ idle_cells A1 s) as Hin by (rewrite <- Hp1; set_solver). apply elem_of_idle_cells in Hin as (k & c & Hk & Hck & _ & _ & <-).
    destruct (sh_cell _ _ (co_shape _ _ Hc1) s k c Hk Hck) as (b & Hb & _ & _).
    wp_step. eapply wp_load_buf; [exact Hb|]. wp_step.
    eapply core_device_step; [exact Hc1|intros R HR; by apply (dev_free_eager (dev_ok := dev_ok))|].
    intros real d Hc2. wp_step. set (p2 := set_device d p1) in *.
    assert ((n, c_ptr c) ∈ idle_cells A1 s) as Hin by (rewrite <- Hp1; set_solver).
    pose proof (eager_step _ _ _ _ _ Hc2 Hin) as Hstep2. apply wp_bind_inv in Hstep2.
    apply (wp_value (load_buf (c_ptr c)) p2 _ b p2) in Hstep2; [|unfold load_buf; change (bufs_ p2) with (bufs_ p1); by rewrite Hb].
    eapply wp_mono; [exact Hstep2|]. intros _ p3 (A3 & Hc3 & Hk3 & Hs3 & Hu3 & Ho3 & Hp3). wp_step.
    exists A3. split_and!; try done.
    + eapply roams_trans; [exact Hro1|]. eapply roams_trans; [apply roams_set_device|by apply roams_keeps].
    + eapply same_table_trans; [exact Hs1|]. eapply (same_table_trans _ _ p2); [by intros []|done].
    + by rewrite Hu3.
    + by rewrite Ho3.
    + rewrite <- Hp3 in Hp1. by apply Permutation_cons_inv in Hp1.
  - intros acc p1 (A1 & Hc1 & Hro1 & Hs1 & Hu1 & Ho1 & Hp1). apply Permutation_nil_l in Hp1.
    wp_step. apply wp_upd_mng. wp_steps. set (p2 := set_mng _ _ p1). exists A1.
    assert (table_step kMemBufIdle p1 p2) as Hts by apply (table_step_set kMemBufIdle s _ p1).
    assert (idle_cells A1 s = []) as Hnil by done.
    split_and!; [split| | | |]; try done.
    + by eapply core_idle_step.
    + assert (∀ s', status_table kMemBufIdle (mem_mng s' p2) =
        if decide (s' = s) then clear_table (idle_mem_bufs_ (mem_mng s p1)) else status_table kMemBufIdle (mem_mng s' p)) as Ht.
      { intros s'. unfold p2. case_decide as Hs'; [subst; by rewrite mem_mng_set_same|].
        by rewrite mem_mng_set_other, (Hs1 s'). }
      destruct (rp_idle _ _ Hr) as [Hv Hso Hpe]. split; intros s' stream; rewrite Ht; case_decide as Hs'; subst; auto.
      * by apply clear_valid.
      * rewrite clear_contents. constructor.
      * by rewrite clear_contents, entries_idle_nil.
      * rewrite Hpe. by replace s' with (negb s) by (by destruct s, s'); rewrite Ho1.
    + eapply roams_trans; [exact Hro1|]. apply roams_keeps, (ts_keeps _ _ _ Hts).
Qed.

(** No idle memory is left after eager free, and the memory in use is the same. *)
Lemma bf_FreeIdleMemsByEagerFree_spec A p : rep A p → reusable →
  wp FreeIdleMemsByEagerFree p (λ _ p', ∃ A', rep A' p' ∧ roams p p' ∧ used_ranges A' ≡ₚ used_ranges A ∧
    ∀ s, idle_cells A' s = []).
Proof.
  intros Hr Hre. unfold FreeIdleMemsByEagerFree. wp_step.
  eapply wp_mono; [by apply eager_free_mem_func_spec|]. intros r1 p1 (A1 & Hr1 & Hro1 & Hu1 & _ & Hi1). wp_step.
  eapply wp_mono; [by apply (eager_free_mem_func_spec A1)|]. intros r2 p2 (A2 & Hr2 & Hro2 & Hu2 & Ho2 & Hi2). wp_step.
  exists A2. split_and!; [done|by eapply roams_trans|by rewrite Hu2|]. intros []; [|done].
  unfold idle_cells in *. simpl in Ho2. by rewrite Ho2.
Qed.
End eager.
