(* ===== verification/BestFitCreate.v ===== *)
(** * The best-fit pool: new blocks

    [CreateMemBlockAndMemBuf] wraps a region of the device in a block, whose first
    bytes it hands out. *)

From S2P Require Import Prelude EventBase MemBufHeap MemGeometry MemStat PoolDevice OrdList StreamTable BestFitState BestFit BestFitAbs BestFitRep BestFitCombine BestFitSplit BestFitPool.
Import BestFitTypes BestFit.

Section create.
Context {T : Type → Type} `{StreamTable T} {D : Type} `{DeviceMem D} `{V : BestFitVariant}.
Context {stream_ok : Z → Prop} {reusable : Prop} `{!StreamTableLaws T stream_ok reusable}.
Context {dev_ok : D → gmap ptr (Z * Z) → Prop} `{!DeviceMemLaws D dev_ok} `{!SplitLaws}.
Implicit Types (p : BestFitPool T D) (A : astate).
Abbreviation rep := (rep (stream_ok := stream_ok) (dev_ok := dev_ok)).
Abbreviation core := (core (stream_ok := stream_ok) (dev_ok := dev_ok)).

(** ** A block among the others *)

Lemma sorted_insert {B} (R : B → B → Prop) l1 x l2 : StronglySorted R (l1 ++ l2) →
  Forall (λ y, R y x) l1 → Forall (R x) l2 → StronglySorted R (l1 ++ x :: l2).
Proof.
  induction l1 as [|z l1 IH]; simpl; intros Hs Hl1 Hl2; [by constructor|].
  apply StronglySorted_inv in Hs as [Hs Hz]. apply Forall_cons in Hl1 as [Hzx Hl1].
  constructor; [by apply IH|]. rewrite Forall_app, Forall_cons in *. naive_solver.
Qed.

Lemma with_cells_add A s K1 k K2 C s' k' : A s = K1 ++ K2 → k' ∈ with_cells A s K1 k K2 C s' →
  (s' = s ∧ k' = set_cells C k) ∨ k' ∈ A s'.
Proof.
  intros HA Hk. destruct (decide (s' = s)) as [->|Hne]; [|rewrite with_cells_other in Hk by done; by right].
  rewrite with_cells_same in Hk. rewrite HA. set_solver.
Qed.

Lemma geo_add_block A s K1 k K2 C : geo A → A s = K1 ++ K2 → ablock_ok (set_cells C k) →
  (∀ s' k', k' ∈ A s' → blocks_apart k k') →
  Forall (λ k', k_base k' <= k_base k) K1 → Forall (λ k', k_base k < k_base k') K2 →
  geo (with_cells A s K1 k K2 C).
Proof.
  intros [Hok Hs Ha] HA Hk Hapart Hl1 Hl2. split.
  - intros s' k' [[-> ->]|Hk']%(with_cells_add _ _ _ _ _ _ _ _ HA); [done|by eapply Hok].
  - intros s'. destruct (decide (s' = s)) as [->|Hne]; [|rewrite with_cells_other by done; apply Hs].
    rewrite with_cells_same. destruct Hk as (_ & Hpos & _). simpl in Hpos.
    apply sorted_insert; [by rewrite <- HA| |]; apply Forall_forall; intros k' Hk';
      (assert (k' ∈ A s) as Hin by (rewrite HA; set_solver)); pose proof (Hok _ _ Hin) as (_ & Hp' & _);
      destruct (Hapart s k' Hin) as [Hb|Hb]; unfold block_before in *; simpl; try done;
      rewrite Forall_forall in Hl1, Hl2.
    + specialize (Hl1 _ Hk'). lia.
    + specialize (Hl2 _ Hk'). lia.
  - intros k1 k2 Hk1 Hk2.
    apply (with_cells_add _ _ _ _ _ _ _ _ HA) in Hk1 as [[Hs1 ->]|Hk1];
    apply (with_cells_add _ _ _ _ _ _ _ _ HA) in Hk2 as [[Hs2 ->]|Hk2]; [congruence| | |by apply Ha].
    + by apply (Hapart false).
    + destruct (Hapart true k1 Hk1) as [?|?]; [by right|by left].
Qed.

Lemma all_cells_add A s K1 k K2 : A s = K1 ++ K2 → all_cells (with_cells A s K1 k K2 []) = all_cells A.
Proof.
  intros HA. unfold all_cells. assert (∀ s', cells_of (with_cells A s K1 k K2 [] s') = cells_of (A s')) as He.
  { intros s'. destruct (decide (s' = s)) as [->|Hne]; [|by rewrite with_cells_other].
    rewrite with_cells_same, HA, !cells_of_app. done. }
  by rewrite !He.
Qed.

Lemma entries_add A s K1 k K2 st stream s' : A s = K1 ++ K2 →
  entries st stream (with_cells A s K1 k K2 [] s') = entries st stream (A s').
Proof.
  intros HA. destruct (decide (s' = s)) as [->|Hne]; [|by rewrite with_cells_other].
  rewrite entries_focus, HA, entries_app. by case_decide.
Qed.

Lemma total_add A s K1 k K2 C s' : A s = K1 ++ K2 → total_bytes (with_cells A s K1 k K2 C s') =
  total_bytes (A s') + if decide (s' = s) then k_size k else 0.
Proof.
  intros HA. case_decide as Hs; subst; [|rewrite with_cells_other by done; lia].
  rewrite with_cells_same, HA, !total_bytes_app. simpl. lia.
Qed.

Lemma used_add A s K1 k K2 C s' : A s = K1 ++ K2 → used_bytes (with_cells A s K1 k K2 C s') =
  used_bytes (A s') + if decide (s' = s) then cells_size is_used C else 0.
Proof.
  intros HA. case_decide as Hs; subst; [|rewrite with_cells_other by done; lia].
  rewrite used_bytes_focus, HA. unfold used_bytes. rewrite cells_of_app, cells_size_app. lia.
Qed.

(** ** Adding a block *)

Lemma shape_fresh_blk A p x : shape A p → blks_ p !! x = None → x ∉ k_ptr <$> all_blocks A.
Proof.
  intros Hsh Hx (k & -> & (s & Hk)%elem_of_all_blocks)%list_elem_of_fmap_1.
  pose proof (sh_blk _ _ Hsh _ _ Hk). unfold ptr in *. congruence.
Qed.

Lemma all_blocks_add A s K1 k K2 C : A s = K1 ++ K2 →
  k_ptr <$> all_blocks (with_cells A s K1 k K2 C) ≡ₚ k_ptr k :: (k_ptr <$> all_blocks A).
Proof.
  intros HA. unfold all_blocks. destruct s.
  - rewrite with_cells_same, with_cells_other, HA by done. rewrite !fmap_app. simpl.
    rewrite <- !app_assoc. cbn [fmap list_fmap app]. symmetry. apply Permutation_middle.
  - rewrite with_cells_same, with_cells_other, HA by done. rewrite !fmap_app. simpl.
    rewrite !app_assoc. symmetry. apply Permutation_middle.
Qed.

(** The blocks of any list, with their addresses. *)
Lemma block_bases_live p l : (∀ x, x ∈ l → is_Some (blks_ p !! x)) →
  wp (block_bases l) p (λ r p', p' = p ∧ r.*2 = l).
Proof.
  intros Hl. unfold block_bases. eapply (wp_forM _ _ _ _ (λ rest acc p', p' = p ∧ acc.*2 ++ rest = l)).
  - done.
  - intros x rest acc p' [-> Hx]. destruct (Hl x) as [k Hk]; [rewrite <- Hx; set_solver|].
    wp_step. eapply bf_wp_load_blk; [done|]. wp_step. split; [done|]. rewrite <- Hx, fmap_app, <- app_assoc. done.
  - intros acc p' [-> Hx]. by rewrite app_nil_r in Hx.
Qed.

Lemma insert_at_snd {B} i (x : Z * B) l : (insert_at i x l).*2 = take i l.*2 ++ x.2 :: drop i l.*2.
Proof. unfold insert_at. by rewrite fmap_app, fmap_cons, fmap_take, fmap_drop. Qed.

Lemma set_mng_twice s m m' p : set_mng s m (set_mng s m' p) = set_mng s m p.
Proof. by destruct s. Qed.

Lemma shape_add_block A p s K1 k K2 l t : shape A p → A s = K1 ++ K2 → k_cells k = [] →
  blks_ p !! k_ptr k = Some (block_of k) → k_ptr k ∉ k_ptr <$> all_blocks A → l = k_ptr <$> K1 ++ k :: K2 →
  shape (with_cells A s K1 k K2 []) (set_mng s (set_block_list l (set_stream_blocks t (mem_mng s p))) p).
Proof.
  intros [S1 S2 S3 S4 S5 S6 S7] HA Hnil Hb Hx ->. split; cbn [bufs_ blks_ next_ set_mng].
  - intros s'. destruct (decide (s' = s)) as [->|Hne].
    + rewrite mem_mng_set_same, with_cells_same, !fmap_app. done.
    + by rewrite mem_mng_set_other, with_cells_other.
  - intros s' k' [[-> ->]|Hk']%(with_cells_add _ _ _ _ _ _ _ _ HA); [|by eapply S2].
    simpl. rewrite <- Hnil. by rewrite set_cells_id.
  - intros s' k' c [[-> ->]|Hk']%(with_cells_add _ _ _ _ _ _ _ _ HA); [by intros ?%not_elem_of_nil|by eapply S3].
  - rewrite all_blocks_add by done. by constructor.
  - by rewrite all_cells_add.
  - by rewrite all_cells_add.
  - done.
Qed.

Lemma AddMemBlock_spec A p s k : shape A p → geo A → k_cells k = [] →
  blks_ p !! k_ptr k = Some (block_of k) → k_ptr k ∉ k_ptr <$> all_blocks A →
  valid (k_stream k) (mem_blocks_ (mem_mng s p)) →
  (∀ x, x ∈ contents (k_stream k) (mem_blocks_ (mem_mng s p)) → x ∈ k_ptr <$> A s) →
  wp (AddMemBlock s (k_ptr k) (k_stream k)) p (λ _ p', ∃ K1 K2 l t,
    A s = K1 ++ K2 ∧ Forall (λ k', k_base k' <= k_base k) K1 ∧ Forall (λ k', k_base k < k_base k') K2 ∧
    p' = set_mng s (set_block_list l (set_stream_blocks t (mem_mng s p))) p ∧
    shape (with_cells A s K1 k K2 []) p' ∧
    (∀ stream, valid stream (mem_blocks_ (mem_mng s p)) → valid stream t) ∧
    ∀ stream x, x ∈ contents stream t → x = k_ptr k ∨ x ∈ contents stream (mem_blocks_ (mem_mng s p))).
Proof.
  intros Hsh Hg Hnil Hb Hx Hv Hc. unfold AddMemBlock. wp_steps.
  destruct (get_contents (k_stream k) (mem_blocks_ (mem_mng s p))) as (t & Hget & Hgc & Hgv); [done|].
  eapply wp_deref; [exact Hget|]. cbv beta iota. wp_step.
  set (blocks := contents _ (mem_blocks_ (mem_mng s p))) in *.
  eapply (wp_mono _ _ (λ r p', p' = p ∧ ∀ y, y ∈ r → y = k_ptr k ∨ y ∈ blocks)).
  { destruct sorts_streams; [|wp_step; split; [done|set_solver]].
    unfold DoAddMemBlock. wp_step. eapply bf_wp_load_blk; [exact Hb|]. wp_step.
    eapply wp_mono; [apply block_bases_live|].
    - intros y (k' & -> & Hk')%Hc%list_elem_of_fmap_1. eexists. by apply (sh_blk _ _ Hsh s).
    - intros bases p' [-> Hbs]. wp_step. split; [done|]. intros y. rewrite insert_at_perm, fmap_cons, Hbs.
      by rewrite elem_of_cons. }
  intros blocks' p1 [-> Hbl]. wp_step. apply wp_upd_mng. wp_step.
  unfold DoAddMemBlock. wp_step. eapply bf_wp_load_blk; [exact Hb|]. wp_step.
  set (p1 := set_mng s _ p).
  assert (shape A p1) as Hsh1.
  { destruct Hsh as [S1 S2 S3 S4 S5 S6 S7]. split; try done. intros s'. rewrite <- S1. unfold p1.
    destruct (decide (s' = s)) as [->|Hne]; [by rewrite mem_mng_set_same|by rewrite mem_mng_set_other]. }
  assert (mem_block_list_ (mem_mng s p) = mem_block_list_ (mem_mng s p1)) as -> by (unfold p1; by rewrite mem_mng_set_same).
  eapply wp_mono; [by apply (block_bases_spec A)|]. intros bases p' [-> ->]. wp_step. apply wp_upd_mng.
  cbn [device_addr_base_ block_of]. set (i := upper_bound (k_base k) (base_entry <$> A s)).
  destruct (upper_bound_spec (k_base k) _ (sorted_lt_le _ (geo_bases A s Hg))) as [Hl1 Hl2]. fold i in Hl1, Hl2.
  rewrite <- fmap_take, Forall_fmap in Hl1. rewrite <- fmap_drop, Forall_fmap in Hl2.
  eexists (take i (A s)), (drop i (A s)), _, _.
  assert (∀ m, set_mng s m p1 = set_mng s m p) as -> by (intros m; apply set_mng_twice).
  assert (A s = take i (A s) ++ drop i (A s)) as HA by (by rewrite take_drop).
  assert (set_block_list (insert_at i (k_base k, k_ptr k) (base_entry <$> A s)).*2 (mem_mng s p1) =
    set_block_list (insert_at i (k_base k, k_ptr k) (base_entry <$> A s)).*2
      (set_stream_blocks (table_set (k_stream k) blocks' t) (mem_mng s p))) as ->
    by (unfold p1; by rewrite mem_mng_set_same).
  split_and!; [done|done|done|reflexivity| | |].
  - apply shape_add_block; try done. rewrite insert_at_snd. rewrite <- list_fmap_compose.
    by rewrite fmap_app, fmap_cons, fmap_take, fmap_drop.
  - intros stream Hs. apply set_valid. by apply Hgv.
  - intros stream y. rewrite set_contents by (by apply Hgv). case_bool_decide as Hs; subst; [apply Hbl|].
    rewrite Hgc. auto.
Qed.

(** ** The new block and its buffers *)

(** What every operation of the pool leaves in order besides the memory. *)
Definition units_fit p : Prop :=
  (∀ s, 0 < unit_size_ (mem_mng s p) < w64) ∧ 0 < config_unit_size_ p < w64.
Definition constant_total : Prop := ∃ t, ∀ (d : D) R, dev_ok d R → total_mem_size d = t.
Definition eager_fit p : Prop :=
  reusable ∧ constant_total ∨ is_trigger_eager_free_ p = false ∧ ∀ d : D, IsEnableEagerFree d = false.
Record stays p p' : Prop := {
  st_mutex : mutex_ p' = mutex_ p;
  st_units : units_fit p → units_fit p';
  st_eager : eager_fit p → eager_fit p'
}.

Lemma stays_refl p : stays p p.
Proof. by split. Qed.

Lemma stays_trans p1 p2 p3 : stays p1 p2 → stays p2 p3 → stays p1 p3.
Proof. intros [] []. split; [congruence|auto|auto]. Qed.

Lemma keeps_stays p p' : keeps p p' → stays p p'.
Proof.
  intros Hk. split; [apply Hk| |].
  - unfold units_fit. intros [Hu Hc]. rewrite (kp_config _ _ Hk). split; [|done]. intros s.
    rewrite (kp_unit _ _ Hk). apply Hu.
  - unfold eager_fit. by rewrite (kp_trigger _ _ Hk).
Qed.

Lemma roams_stays p p' : roams p p' → stays p p'.
Proof.
  intros Hr%keeps_stays. eapply stays_trans; [|exact Hr]. split; [done| |done].
  intros [Hu Hc]. split; [|done]. intros []; [apply (Hu true)|apply (Hu false)].
Qed.

(** The device holds the regions of the blocks and another one. *)
Definition device_also A (addr n : Z) (d : D) : Prop :=
  ∃ R, dev_ok d R ∧ (∀ s k, k ∈ A s → ∃ j, R !! j = Some (k_base k, k_size k)) ∧
    ∃ j, R !! j = Some (addr, n).

(** What a new region has to be. *)
Definition fresh_region A (addr n : Z) : Prop :=
  0 < addr ∧ 0 < n < w64 ∧ addr + n <= w64 ∧
  ∀ s k, k ∈ A s → disjoint_range addr n (k_base k) (k_size k).

Lemma created_core A p p' s K1 k K2 C l t n : core A p → A s = K1 ++ K2 →
  stream_ok (k_stream k) → device_also A (k_base k) (k_size k) (device_ p') →
  geo (with_cells A s K1 k K2 C) → shape (with_cells A s K1 k K2 C) p' →
  tab_of kMemBufEagerFree (with_cells A s K1 k K2 C) p' →
  keeps (set_mng s (set_block_list l (set_stream_blocks t (mem_mng s p))) p) p' →
  (∀ stream, valid stream (mem_blocks_ (mem_mng s p)) → valid stream t) →
  (∀ stream x, x ∈ contents stream t → x = k_ptr k ∨ x ∈ contents stream (mem_blocks_ (mem_mng s p))) →
  n = cells_size is_used C →
  (∀ s', used_of s' p' = if decide (s' = s) then u64 (used_of s' p + n) else used_of s' p) →
  (∀ s', total_of s' p' = if decide (s' = s) then u64 (total_of s' p + k_size k) else total_of s' p) →
  core (with_cells A s K1 k K2 C) p'.
Proof.
  intros Hc HA Hok Hd Hg Hsh Ht Hk Htv Htc Hn Hu Htot. split; try done.
  - intros s' k' [[-> ->]|Hk']%(with_cells_add _ _ _ _ _ _ _ _ HA); [done|by eapply (co_stream _ _ Hc)].
  - intros s'. rewrite Hu, used_add, (co_used _ _ Hc) by done. case_decide; [|by rewrite Z.add_0_r].
    by rewrite u64_add_l, Hn.
  - intros s'. rewrite Htot, total_add, (co_total _ _ Hc) by done. case_decide; [|by rewrite Z.add_0_r].
    by rewrite u64_add_l.
  - intros s' stream Hs'. rewrite (kp_streams _ _ Hk). destruct (decide (s' = s)) as [->|Hne].
    + rewrite mem_mng_set_same. by apply Htv, Hc.
    + rewrite mem_mng_set_other by done. by apply Hc.
  - intros s' stream x. rewrite (kp_streams _ _ Hk). destruct (decide (s' = s)) as [->|Hne].
    + rewrite mem_mng_set_same, with_cells_same. cbn [mem_blocks_ set_block_list set_stream_blocks].
      rewrite fmap_app, fmap_cons. intros [->|Hx%(co_lists _ _ Hc)]%Htc; [apply elem_of_app; right; by left|].
      rewrite HA, fmap_app in Hx. apply elem_of_app in Hx as [Hx|Hx]; apply elem_of_app; [by left|right; by right].
    + rewrite mem_mng_set_other, with_cells_other by done. by apply Hc.
  - destruct Hd as (R & HR & HRk & HRn). exists R. split; [done|].
    intros s' k' [[-> ->]|Hk']%(with_cells_add _ _ _ _ _ _ _ _ HA); [done|by eapply HRk].
Qed.

Lemma CreateMemBlockAndMemBuf_spec A p size s addr n st stream : rep A p → stream_ok stream → st ≠ kMemBufUsed →
  0 < size <= n → size < 2 ^ 63 → fresh_region A addr n → device_also A addr n (device_ p) →
  wp (CreateMemBlockAndMemBuf size s addr n st stream) p (λ r p', stays p p' ∧ r = addr ∧
    ∃ A' m, size <= m ∧ rep A' p' ∧ used_ranges A' ≡ₚ (addr, m) :: used_ranges A).
Proof.
  intros Hr Hok Hst Hs Hs63 (Ha & Hn & Hend & Hdis) Hd. unfold CreateMemBlockAndMemBuf. wp_step.
  unfold new_blk, wp at 1. set (p1 := set_next_ptr _ _).
  set (k := MkABlock (next_ p) addr n stream []).
  destruct (sh_fresh _ _ (rp_shape _ _ Hr) (next_ p) ltac:(lia)) as [Hfb Hfk].
  assert (k_ptr k ∉ k_ptr <$> all_blocks A) as Hkx by (eapply shape_fresh_blk; [apply (rp_shape _ _ Hr)|done]).
  assert (shape A p1) as Hsh1.
  { destruct (rp_shape _ _ Hr) as [S1 S2 S3 S4 S5 S6 S7]. split; try done; cbn [bufs_ blks_ next_ p1 set_next_ptr set_blks].
    - intros s' k' Hk'. rewrite lookup_insert_ne; [by eapply S2|]. intros He. apply Hkx.
      cbn [k_ptr k]. rewrite He. apply list_elem_of_fmap_2, elem_of_all_blocks. eauto.
    - intros x Hx. destruct (S7 x) as [? ?]; [lia|]. split; [done|]. rewrite lookup_insert_ne; [done|]. unfold ptr in *. lia. }
  wp_step. eapply wp_mono; [apply (AddMemBlock_spec A p1 s k); try done|].
  { apply (rp_geo _ _ Hr). }
  { simpl. by rewrite lookup_insert_eq. }
  { pose proof (co_lists_valid _ _ (rp_core _ _ Hr) s stream Hok). by destruct s. }
  { intros x. pose proof (co_lists _ _ (rp_core _ _ Hr) s stream x). by destruct s. }
  intros _ p2 (K1 & K2 & l & t & HA & HK1 & HK2 & Hp2 & Hsh2 & Htv & Htc).
  wp_steps. unfold new_buf, wp at 1. set (p3 := set_next_ptr _ _). wp_step.
  assert (blks_ p3 !! k_ptr k = Some (block_of (set_cells [] k))) as Hblk by (apply (W_blk A s K1 k K2 _ p2 Hsh2)).
  eapply bf_wp_update_blk; [exact Hblk|]. set (p4 := set_blks _ p3).
  set (c := MkCell addr (next_ p2) n st). set (W := with_cells A s K1 k K2).
  assert (∀ s' k', k' ∈ A s' → blocks_apart k k') as Hapart.
  { intros s' k' Hk'. specialize (Hdis _ _ Hk'). unfold disjoint_range in Hdis. unfold blocks_apart, block_before. simpl. lia. }
  assert (∀ C, (∃ st3, tiles kMemBufUsed addr C (addr + n) st3) → geo (W C)) as HgW.
  { intros C HC. apply geo_add_block; try done; [apply (rp_geo _ _ Hr)|]. unfold ablock_ok. simpl. split_and!; try done; lia. }
  assert (tiles kMemBufUsed addr ([] ++ c :: []) (addr + n) st) as Htl by (simpl; split_and!; done || lia).
  assert (shape (W ([] ++ c :: [])) p4) as Hsh4.
  { eapply (shape_insert_cell A s K1 k K2 [] c []); [exact Hsh2|simpl; lia|reflexivity|reflexivity|done|simpl; lia|simpl; lia| |done|done|done|].
    - cbn [app]. rewrite all_cells_add by done. intros (d & Hda & Hd')%list_elem_of_fmap_1.
      apply elem_of_all_cells in Hd' as (s' & k' & Hk' & Hdk'). specialize (Hdis _ _ Hk').
      pose proof (cell_in_block _ _ (geo_ok _ (rp_geo _ _ Hr) _ _ Hk') Hdk'). unfold disjoint_range in Hdis. simpl in Hda. lia.
    - simpl. by intros ->. }
  assert (∀ st', st' ≠ kMemBufUsed → tab st' (λ s' stream, entries st' stream (W [] s')) p4) as Ht4.
  { intros st' Hst'. assert (tab_of st' A p) as Ht by (by destruct (rep_tab st' A p Hr)).
    eapply tab_ext; [exact Ht| |].
    - intros s'. unfold p4, p3. rewrite Hp2. by destruct s, s', st'.
    - intros s' stream'. unfold W. by rewrite entries_add. }
  set (split := IsSplitNew size n).
  assert (split = true → 0 < size < n) as Hsp by (intros Hx; split; [lia|]; apply split_new_room; [lia|lia|lia|exact Hx]).
  (* the state after the optional split *)
  wp_step. eapply (wp_mono _ _ (λ _ p5, ∃ c1 C3, carve split size (next_ p4) c = set_c_status kMemBufUsed c1 :: C3 ∧
    c_ptr c1 = c_ptr c ∧ c_addr c1 = c_addr c ∧ c_size c1 = granted split size c ∧
    shape (W ([] ++ c1 :: C3)) p5 ∧ tab st (λ s' stream, entries st stream (W C3 s')) p5 ∧ buf_step st p4 p5)).
  { apply wp_whenM; intros Hspl; unfold carve, granted; fold split in Hspl; rewrite Hspl.
    - eapply wp_mono; [eapply (bf_SplitMemBuf_spec A s K1 k K2 [] c [] st); try done|].
      + apply HgW. eauto.
      + by apply Ht4.
      + by apply Hsp.
      + intros _ p5 (Hsh5 & Ht5 & Hb5). exists (set_c_size size c), [rest_cell size (next_ p4) c]. split_and!; done.
    - exists c, []. split_and!; try done. by apply Ht4. }
  intros _ p5 (c1 & C3 & Hcarve & Hp1 & Ha1 & Hs1 & Hsh5 & Ht5 & Hb5).
  change (next_ p2) with (c_ptr c). rewrite <- Hp1.
  eapply wp_mono; [eapply (use_cell A s K1 k K2 [] c1 C3 p5 (λ m d, add_used m (add_total n d)) _ (λ t, t +64 n)); [done|reflexivity|done]|].
  intros r p6 (-> & Hsh6 & Hk6 & Hs6 & Hu6 & Htot6).
  assert (keeps (set_mng s (set_block_list l (set_stream_blocks t (mem_mng s p))) p) p6) as Hkp.
  { eapply keeps_trans; [|exact Hk6]. eapply keeps_trans; [|apply (bs_keeps _ _ _ Hb5)].
    unfold p4, p3. rewrite Hp2. split; try done; intros s'; by destruct s, s'. }
  split.
  { eapply stays_trans; [|by apply keeps_stays]. split; [by destruct s| |by destruct s].
    intros [Hu Hcu]. split; [|by destruct s]. intros s'. specialize (Hu s'). by destruct s, s'. }
  split; [done|]. exists (W ([] ++ carve split size (next_ p4) c ++ [])), (granted split size c).
  split_and!; [unfold granted; case_match; simpl; lia| |].
  2:{ unfold W. rewrite (used_ranges_focus _ _ _ _ _ _ [] [(addr, granted split size c)]).
    - unfold used_ranges. by rewrite all_cells_add.
    - rewrite carve_ranges by done. cbn [app omap list_omap]. by rewrite used_range_selects. }
  assert (shape (W ([] ++ carve split size (next_ p4) c ++ [])) p6) as Hsh7 by (by rewrite Hcarve, app_nil_r).
  assert (∀ st', st' ≠ kMemBufUsed →
    tab_of st' (W ([] ++ carve split size (next_ p4) c ++ [])) p6) as Ht7.
  { intros st' Hst'. destruct (decide (st' = st)) as [->|Hne].
    - eapply tab_ext; [exact Ht5|apply Hs6|]. intros s' stream'. rewrite Hcarve, app_nil_r. unfold W.
      by rewrite (entries_status A s K1 k K2 [] (set_c_status kMemBufUsed c1)) by (by apply not_eq_sym).
    - eapply tab_ext; [by apply Ht4| |].
      + eapply same_table_trans; [by apply (bs_other _ _ _ Hb5)|apply Hs6].
      + intros s' stream'. symmetry. apply entries_other. intros _ _. rewrite carve_entries by (done || by apply not_eq_sym).
        cbn [app omap list_omap]. rewrite entry_selects; [done|by apply not_eq_sym]. }
  split; [|by apply Ht7].
  assert (∀ s', mps_ (mem_mng s' p5) = mps_ (mem_mng s' p)) as Hm5.
  { intros s'. rewrite (bs_mps _ _ _ Hb5 s'). unfold p4, p3. rewrite Hp2. by destruct s, s'. }
  assert (∀ s', used_of s' p5 = used_of s' p) as Hst5 by (intros s'; unfold used_of; by rewrite Hm5).
  assert (∀ s', total_of s' p5 = total_of s' p) as Htt5 by (intros s'; unfold total_of; by rewrite Hm5).
  eapply (created_core A p p6 s K1 k K2 _ l t (granted split size c)); try done.
  - apply (rp_core _ _ Hr).
  - by rewrite (kp_device _ _ Hkp); destruct s.
  - apply HgW. by apply carve_tiles with (e := addr + n) (st' := st).
  - by apply Ht7.
  - rewrite carve_used by done. simpl. destruct st; simpl; done || lia.
  - intros s'. by rewrite Hu6, Hs1, Hst5.
  - intros s'. by rewrite Htot6, Htt5.
Qed.
End create.
