(* ===== verification/BestFitTop.v ===== *)
(** * The best-fit pool: allocation

    [AddMemBlockAndMemBuf] and [AllocTensorMem]: what they return was not in use,
    and nothing else changes hands. *)

From S2P Require Import Prelude EventBase MemBufHeap MemGeometry MemStat PoolDevice OrdList StreamTable BestFitState BestFit BestFitAbs BestFitRep BestFitCombine BestFitSplit BestFitPool BestFitCreate.
Import BestFitTypes BestFit.

Section top.
Context {T : Type → Type} `{StreamTable T} {D : Type} `{DeviceMem D} `{V : BestFitVariant}.
Context {stream_ok : Z → Prop} {reusable : Prop} `{!StreamTableLaws T stream_ok reusable}.
Context {dev_ok : D → gmap ptr (Z * Z) → Prop} `{!DeviceMemLaws D dev_ok} `{!SplitLaws}.
Implicit Types (p : BestFitPool T D) (A : astate).
Abbreviation rep := (rep (stream_ok := stream_ok) (dev_ok := dev_ok)).
Abbreviation core := (core (stream_ok := stream_ok) (dev_ok := dev_ok)).
Abbreviation stays := (stays (reusable := reusable) (dev_ok := dev_ok)).
Abbreviation eager_fit := (eager_fit (reusable := reusable) (dev_ok := dev_ok)).
Abbreviation constant_total := (constant_total (dev_ok := dev_ok)).

(** The fields that an abstract state says nothing of. *)
Record same_memory p p' : Prop := {
  sm_bufs : bufs_ p' = bufs_ p;
  sm_blks : blks_ p' = blks_ p;
  sm_next : next_ p' = next_ p;
  sm_device : device_ p' = device_ p;
  sm_mps s : mps_ (mem_mng s p') = mps_ (mem_mng s p);
  sm_list s : mem_block_list_ (mem_mng s p') = mem_block_list_ (mem_mng s p);
  sm_streams s : mem_blocks_ (mem_mng s p') = mem_blocks_ (mem_mng s p);
  sm_tables st : same_table st p p'
}.

Lemma rep_same_memory A p p' : same_memory p p' → rep A p → rep A p'.
Proof.
  intros [Eb Ek En Ed Em El Es Et] [[[S1 S2 S3 S4 S5 S6 S7] R2 R3 R5 R6 R7 R8 R9 R10] R11]. split; [split|]; try done.
  - split; rewrite ?Eb, ?Ek, ?En; try done. intros s. by rewrite El.
  - by eapply tab_ext.
  - intros s. unfold used_of. rewrite Em. apply R6.
  - intros s. unfold total_of. rewrite Em. apply R7.
  - intros s. rewrite Es. apply R8.
  - intros s. rewrite Es. apply R9.
  - by rewrite Ed.
  - by eapply tab_ext.
Qed.

Lemma same_memory_mutex b p : same_memory p (set_mutex b p).
Proof. by split; try intros []. Qed.
Lemma same_memory_trigger b p : same_memory p (set_trigger_eager_free b p).
Proof. by split; try intros []. Qed.
Lemma same_memory_init b p : same_memory p (set_init_recycle b p).
Proof. by split; try intros []. Qed.
Lemma same_memory_unit s v p : same_memory p (set_mng s (set_unit_size v (mem_mng s p)) p).
Proof. split; try done; [intros s'|intros s'|intros s'|intros st s']; by destruct s, s'. Qed.

Lemma rep_set_device A p d : rep A p → device_holds (dev_ok := dev_ok) A d → rep A (set_device d p).
Proof.
  intros [Hc Hi] Hd. split; [by apply core_set_device|]. eapply tab_ext; [exact Hi|by intros []|done].
Qed.

Lemma rep_device_step A p {X} (m : M D X) (Q : X → BestFitPool T D → Prop) : rep A p →
  (∀ R, dev_ok (device_ p) R → wp m (device_ p) (λ _ d, dev_ok d R)) →
  (∀ a d, rep A (set_device d p) → Q a (set_device d p)) → wp (on_device m) p Q.
Proof.
  intros Hr Hm HQ. eapply core_device_step; [apply Hr|exact Hm|]. intros a d Hd. apply HQ.
  apply rep_set_device; [done|apply Hd].
Qed.

(** What an allocation leads to. *)
Definition serves (size : Z) A p (r : Z) p' : Prop :=
  stays p p' ∧ ∃ A', rep A' p' ∧ gives size A r A'.

Lemma serves_none size A p : rep A p → serves size A p 0 p.
Proof. intros Hr. split; [apply stays_refl|]. exists A. split; [done|by apply gives_none]. Qed.

Lemma serves_search size A p r p' : search_post (stream_ok := stream_ok) (dev_ok := dev_ok) size A p r p' → serves size A p r p'.
Proof. intros [Hk _ HA]. split; [by apply keeps_stays|done]. Qed.

Lemma serves_after size A A1 p p1 r p2 : stays p p1 → used_ranges A1 ≡ₚ used_ranges A →
  serves size A1 p1 r p2 → serves size A p r p2.
Proof.
  intros Hs Hu [Hs2 (A2 & Hr2 & Hg)]. split; [by eapply stays_trans|]. exists A2. split; [done|by eapply gives_after].
Qed.

(** A region of the device of at least [size] bytes becomes a block. *)
Lemma serves_new A p size s addr n st stream R d j : rep A p → stream_ok stream → st ≠ kMemBufUsed →
  0 < size <= n → size < 2 ^ 63 → dev_ok (device_ p) R → (∀ s k, k ∈ A s → ∃ j, R !! j = Some (k_base k, k_size k)) →
  R !! j = None → new_region R addr n → dev_ok d (<[j := (addr, n)]> R) →
  wp (CreateMemBlockAndMemBuf size s addr n st stream) (set_device d p) (serves size A p).
Proof.
  intros Hr Hok Hst Hs Hs63 HR HRk Hj (Hn & Ha & Hend & Hdis) Hd.
  assert (∀ s k, k ∈ A s → ∃ i, <[j := (addr, n)]> R !! i = Some (k_base k, k_size k)) as Hheld.
  { intros s' k Hk. destruct (HRk s' k Hk) as [i Hi]. exists i. rewrite lookup_insert_ne; [done|]. intros ->. congruence. }
  assert (rep A (set_device d p)) as Hr' by (apply rep_set_device; [done|by eexists]).
  eapply wp_mono; [eapply (CreateMemBlockAndMemBuf_spec A); [exact Hr'|done|done|done|done| |]|].
  - split_and!; try done; try lia. intros s' k Hk. destruct (HRk s' k Hk) as [i Hi]. by eapply Hdis.
  - exists (<[j := (addr, n)]> R). split_and!; [by destruct s|done|exists j; apply lookup_insert_eq].
  - intros r p' (Hst' & -> & A' & m & Hm & HrA & Hu). split.
    + eapply stays_trans; [apply roams_stays, roams_set_device|exact Hst'].
    + exists A'. split; [done|]. right. split; [done|]. by exists m.
Qed.

Lemma bf_CalMemBlockAllocSize_spec A p size s : rep A p → units_fit p → 0 < size < 2 ^ 63 →
  wp (CalMemBlockAllocSize size s) p (λ r p', p' = p ∧ (r = 0 ∨ size <= r < w64)).
Proof.
  intros Hr [Hu _] Hs. unfold CalMemBlockAllocSize. wp_step. wp_step.
  destruct (co_device _ _ (rp_core _ _ Hr)) as (R & HR & _). pose proof (dev_sizes _ _ HR) as [Hf _].
  destruct (Z.ltb_spec (free_mem_size (device_ p)) size); [wp_step; auto|].
  case_match; [wp_step; auto|].
  destruct (double_until_terminates _ size (Hu s)) as (k & _ & He & [Hle _] & _); [lia|].
  wp_step. eapply wp_deref; [exact He|]. wp_step. split; [done|]. right. lia.
Qed.

(** Both ways of obtaining a region from the device. *)
Lemma serves_device A p size (alloc : M D (Z * Z)) (f : Z * Z → M (BestFitPool T D) Z) :
  rep A p →
  (∀ R k, dev_ok (device_ p) R → R !! k = None → wp alloc (device_ p) (λ r d',
    r.1 = 0 ∧ dev_ok d' R ∨ new_region R r.2 r.1 ∧ dev_ok d' (<[k := (r.2, r.1)]> R))) →
  (∀ r d, rep A (set_device d p) → f r (set_device d p) = Ret 0 (set_device d p) ∨
     (r.1 ≠ 0 ∧ ∀ R j, dev_ok (device_ p) R → (∀ s k, k ∈ A s → ∃ j, R !! j = Some (k_base k, k_size k)) →
        R !! j = None → new_region R r.2 r.1 → dev_ok d (<[j := (r.2, r.1)]> R) →
        wp (f r) (set_device d p) (serves size A p))) →
  wp (mbind f (on_device alloc)) p (serves size A p).
Proof.
  intros Hr Halloc Hf. wp_step. apply wp_on_device.
  destruct (co_device _ _ (rp_core _ _ Hr)) as (R & HR & HRk).
  set (j := fresh (dom R)). assert (R !! j = None) as Hj by (apply not_elem_of_dom, is_fresh).
  eapply wp_mono; [by apply (Halloc R j)|]. intros r d Hd.
  assert (device_holds (dev_ok := dev_ok) A d) as Hholds.
  { destruct Hd as [[_ Hd]|[_ Hd]]; [by exists R|]. exists (<[j := (r.2, r.1)]> R). split; [done|].
    intros s k Hk. destruct (HRk s k Hk) as [i Hi]. exists i. rewrite lookup_insert_ne; [done|]. intros ->. congruence. }
  pose proof (rep_set_device _ _ _ Hr Hholds) as Hr'. destruct (Hf r d Hr') as [He|[Hne Hwp]].
  - unfold wp. rewrite He. eapply serves_after; [apply roams_stays, roams_set_device| |by apply serves_none].
    done.
  - destruct Hd as [[? _]|[Hnew Hd]]; [done|]. by eapply Hwp.
Qed.

Lemma serves_mono_wp {size A p p1 A1} {m : M (BestFitPool T D) Z} :
  stays p p1 → used_ranges A1 ≡ₚ used_ranges A → wp m p1 (serves size A1 p1) → wp m p1 (serves size A p).
Proof. intros Hs Hu Hm. eapply wp_mono; [exact Hm|]. intros r p'. by apply serves_after. Qed.

Lemma AddMemBlockAndMemBufByEagerFree_spec A p size s stream : rep A p → stream_ok stream → 0 < size < 2 ^ 63 →
  reusable → constant_total → TotalUsedMemStatistics p + size < w64 →
  wp (AddMemBlockAndMemBufByEagerFree size s stream) p (serves size A p).
Proof.
  intros Hr Hok Hs Hre [t Htot] Hfit. unfold AddMemBlockAndMemBufByEagerFree. wp_step. wp_step.
  destruct (co_device _ _ (rp_core _ _ Hr)) as (R0 & HR0 & _). rewrite (Htot _ _ HR0).
  assert (0 <= TotalUsedMemStatistics p) as Hpos by (unfold TotalUsedMemStatistics, stat_sum; apply u64_range).
  rewrite u64_small by lia.
  destruct (Z.ltb_spec t (TotalUsedMemStatistics p + size)); [wp_step; by apply serves_none|].
  wp_step. eapply rep_device_step; [exact Hr|intros R HR; by apply (dev_sync (dev_ok := dev_ok))|].
  intros _ d Hr1. apply (serves_mono_wp (roams_stays _ _ (roams_set_device d p)) (Permutation_refl (used_ranges A))).
  set (p1 := set_device d p) in *. wp_step. eapply wp_mono; [by eapply bf_FreeIdleMemsByEagerFree_spec|].
  intros _ p2 (A2 & Hr2 & Hro2 & Hu2 & _).
  apply (serves_mono_wp (roams_stays _ _ Hro2) Hu2). wp_step.
  eapply wp_mono; [apply (FindMemBufByStatus_spec A2); try done; lia|].
  intros r p3 Hp3. destruct (Z.eqb_spec r 0) as [->|Hne]; cbn [negb]; [|wp_step; by apply serves_search].
  destruct Hp3 as [Hk3 _ (A3 & Hr3 & Hg3)]. destruct (gives_zero _ _ _ _ Hg3 eq_refl) as [_ Hu3].
  apply (serves_mono_wp (keeps_stays _ _ Hk3) Hu3). wp_step. wp_step.
  destruct (co_device _ _ (rp_core _ _ Hr3)) as (R3 & HR3 & _). pose proof (dev_sizes _ _ HR3) as [_ Ht].
  rewrite (Htot _ _ HR3) in Ht |- *.
  apply serves_device; [done| |].
  - intros R k HR Hk. apply (dev_alloc_eager (dev_ok := dev_ok)); [done|done|lia].
  - intros [real addr] d3 Hr4. simpl. destruct (Z.ltb_spec real t); [by left|right]. split; [lia|].
    intros R j HR HRk Hj Hnew Hd. eapply (serves_new A3); eauto; lia.
Qed.

(** ** Statistics *)

Definition sum_sizes (l : list (Z * Z)) : Z := foldr (λ r n, r.2 + n) 0 l.

Lemma bf_sum_sizes_app l1 l2 : sum_sizes (l1 ++ l2) = sum_sizes l1 + sum_sizes l2.
Proof. induction l1; simpl; lia. Qed.

#[local] Instance sum_sizes_proper : Proper ((≡ₚ) ==> (=)) sum_sizes.
Proof. induction 1; simpl; lia. Qed.

Lemma used_bytes_ranges K : used_bytes K = sum_sizes (omap used_range (cells_of K)).
Proof.
  unfold used_bytes. induction (cells_of K) as [|c C IH]; [done|]. simpl. rewrite IH.
  unfold used_range. by destruct (c_status c).
Qed.

(** The statistic of the memory in use is the sum of the ranges in use. *)
Lemma TotalUsed_ranges A p : rep A p → TotalUsedMemStatistics p = u64 (sum_sizes (used_ranges A)).
Proof.
  intros Hr. unfold TotalUsedMemStatistics, stat_sum.
  change (total_used_mem_size_ (mps_ (common_mem_ p))) with (used_of false p).
  change (total_used_mem_size_ (mps_ (persistent_mem_ p))) with (used_of true p).
  rewrite !(co_used _ _ (rp_core _ _ Hr)), u64_add_words. f_equal.
  unfold used_ranges, all_cells. rewrite omap_app, bf_sum_sizes_app, <- !used_bytes_ranges. lia.
Qed.

Lemma TotalUsed_same A A' p p' : rep A p → rep A' p' → used_ranges A' ≡ₚ used_ranges A →
  TotalUsedMemStatistics p' = TotalUsedMemStatistics p.
Proof. intros Hr Hr' He. rewrite (TotalUsed_ranges _ _ Hr), (TotalUsed_ranges _ _ Hr'). by rewrite He. Qed.

(** Blocks that are apart fit in the address space together. *)
Lemma total_filter (P : ablock → Prop) `{!∀ k, Decision (P k)} l :
  total_bytes (filter P l) + total_bytes (filter (λ k, ¬ P k) l) = total_bytes l.
Proof.
  induction l as [|k l IH]; [done|]. rewrite !filter_cons. destruct (decide (P k)) as [Hk|Hk].
  - rewrite (decide_False (P := ¬ P k)) by tauto. simpl. lia.
  - rewrite (decide_True (P := ¬ P k)) by done. simpl. lia.
Qed.

Lemma apart_total n l lo hi : (length l <= n)%nat → lo <= hi → NoDup l →
  (∀ k, k ∈ l → lo <= k_base k ∧ 0 < k_size k ∧ k_base k + k_size k <= hi) →
  (∀ k1 k2, k1 ∈ l → k2 ∈ l → k1 ≠ k2 → blocks_apart k1 k2) → total_bytes l <= hi - lo.
Proof.
  revert l lo hi. induction n as [|n IH]; intros l lo hi Hn Hlo Hnd Hin Ha.
  { destruct l; simpl in *; lia. }
  destruct l as [|k l]; [simpl; lia|]. simpl in Hn. apply NoDup_cons in Hnd as [Hk Hnd].
  destruct (Hin k ltac:(by left)) as (Hk1 & Hk2 & Hk3).
  assert (∀ k', k' ∈ l → blocks_apart k' k) as Hak.
  { intros k' Hk'. apply Ha; [by right|by left|]. by intros ->. }
  assert (∀ P (HP : ∀ k, Decision (P k)), (length (filter P l) <= n)%nat) as Hlen.
  { intros P HP. pose proof (length_filter P l). lia. }
  cbn [total_bytes foldr]. change (foldr _ 0 l) with (total_bytes l). rewrite <- (total_filter (λ k', k_base k' < k_base k)).
  assert (total_bytes (filter (λ k', k_base k' < k_base k) l) <= k_base k - lo) as Hb.
  { apply IH; [apply Hlen|done|by apply NoDup_filter| |].
    - intros k' [Hlt Hk']%list_elem_of_filter. destruct (Hin k' ltac:(by right)) as (? & ? & ?).
      destruct (Hak k' Hk') as [?|?]; unfold block_before in *; lia.
    - intros k3 k4 [_ ?]%list_elem_of_filter [_ ?]%list_elem_of_filter. apply Ha; by right. }
  assert (total_bytes (filter (λ k', ¬ k_base k' < k_base k) l) <= hi - (k_base k + k_size k)) as Hc.
  { apply IH; [apply Hlen|done|by apply NoDup_filter| |].
    - intros k' [Hlt Hk']%list_elem_of_filter. destruct (Hin k' ltac:(by right)) as (? & ? & ?).
      destruct (Hak k' Hk') as [?|?]; unfold block_before in *; lia.
    - intros k3 k4 [_ ?]%list_elem_of_filter [_ ?]%list_elem_of_filter. apply Ha; by right. }
  lia.
Qed.

Lemma total_fits A p : shape A p → geo A → total_bytes (all_blocks A) < w64.
Proof.
  intros Hsh Hg. enough (total_bytes (all_blocks A) <= w64 - 1) by lia.
  eapply (apart_total (length (all_blocks A))); [done|done|eapply NoDup_fmap_1, (sh_blk_NoDup _ _ Hsh)| |].
  - intros k (s & Hk)%elem_of_all_blocks. destruct (geo_ok _ Hg _ _ Hk) as (? & ? & ? & _). lia.
  - intros k1 k2 (s1 & Hk1)%elem_of_all_blocks (s2 & Hk2)%elem_of_all_blocks Hne.
    by eapply (geo_blocks_apart A s1 s2); [|done|done|right].
Qed.

Lemma used_le_total K : (∀ k, k ∈ K → ablock_ok k) → 0 <= used_bytes K <= total_bytes K.
Proof.
  induction K as [|k K IH]; intros Hok; [done|]. unfold used_bytes in *. simpl. rewrite cells_size_app.
  destruct (Hok k ltac:(by left)) as (_ & _ & _ & st & Ht). pose proof (tiles_size _ _ _ _ _ Ht) as Hs.
  apply tiles_pos in Ht. specialize (IH ltac:(intros; apply Hok; by right)).
  assert (0 <= cells_size is_used (k_cells k) <= cells_size (λ _, true) (k_cells k)); [|lia].
  clear -Ht. induction Ht as [|c C Hc _ IH]; simpl; [done|]. case_match; lia.
Qed.

(** The statistics are exact: no sum wraps around. *)
Lemma bestfit_statistics A p : rep A p →
  TotalUsedMemStatistics p = sum_sizes (used_ranges A) ∧
  TotalMemStatistics p = total_bytes (all_blocks A) ∧
  0 <= TotalUsedMemStatistics p <= TotalMemStatistics p.
Proof.
  intros Hr. pose proof (rp_geo _ _ Hr) as Hg. pose proof (total_fits _ _ (rp_shape _ _ Hr) Hg) as Ht.
  pose proof (used_le_total (A true) ltac:(intros k; apply (geo_ok _ Hg))) as Hu1.
  pose proof (used_le_total (A false) ltac:(intros k; apply (geo_ok _ Hg))) as Hu2.
  unfold all_blocks in *. rewrite total_bytes_app in *.
  assert (sum_sizes (used_ranges A) = used_bytes (A true) + used_bytes (A false)) as Hs.
  { unfold used_ranges, all_cells. by rewrite omap_app, bf_sum_sizes_app, <- !used_bytes_ranges. }
  rewrite (TotalUsed_ranges _ _ Hr), Hs.
  assert (TotalMemStatistics p = u64 (total_bytes (A true) + total_bytes (A false))) as ->.
  { unfold TotalMemStatistics, stat_sum.
    change (total_mem_size_ (mps_ (common_mem_ p))) with (total_of false p).
    change (total_mem_size_ (mps_ (persistent_mem_ p))) with (total_of true p).
    rewrite !(co_total _ _ (rp_core _ _ Hr)), u64_add_words. f_equal. lia. }
  rewrite !u64_small by lia. lia.
Qed.

(** ** Growing and allocating *)

Lemma AddMemBlockAndMemBuf_spec A p size s need_recycle stream : rep A p → stream_ok stream → 0 < size < 2 ^ 63 →
  units_fit p → eager_fit p → TotalUsedMemStatistics p + size < w64 →
  wp (AddMemBlockAndMemBuf size s need_recycle stream) p (serves size A p).
Proof.
  intros Hr Hok Hs Hu He Hfit. unfold AddMemBlockAndMemBuf. wp_step. wp_step.
  set (s' := if _ && _ && _ then false else s).
  destruct (is_trigger_eager_free_ p) eqn:Htr.
  { destruct He as [[Hre Ht]|[? _]]; [|congruence]. apply AddMemBlockAndMemBufByEagerFree_spec; try done; lia. }
  wp_step. eapply wp_mono; [by apply (bf_CalMemBlockAllocSize_spec A)|]. intros n p' [-> Hn].
  destruct (Z.eqb_spec n 0) as [->|Hne].
  - wp_step. eapply wp_mono; [apply (FindAvailableMemBuf_spec A); try done; lia|]. intros r p1 Hp1.
    destruct (Z.eqb_spec r 0) as [->|Hr0]; cbn [negb]; [|wp_step; by apply serves_search].
    destruct Hp1 as [Hk1 _ (A1 & Hr1 & Hg1)]. destruct (gives_zero _ _ _ _ Hg1 eq_refl) as [_ Hu1].
    apply (serves_mono_wp (keeps_stays _ _ Hk1) Hu1). wp_step. wp_step.
    destruct (IsEnableEagerFree (device_ p1)) eqn:Hen; [|wp_step; by apply serves_none].
    assert (reusable ∧ constant_total) as [Hre Ht].
    { destruct He as [?|[_ Hoff]]; [done|]. by rewrite Hoff in Hen. }
    wp_step. wp_step. set (p2 := set_trigger_eager_free true p1).
    assert (rep A1 p2) as Hr2 by (eapply rep_same_memory; [apply same_memory_trigger|done]).
    assert (stays p1 p2) as Hst by (split; [done|done|intros _; by left]).
    apply (serves_mono_wp Hst (Permutation_refl (used_ranges A1))).
    apply AddMemBlockAndMemBufByEagerFree_spec; try done.
    change (TotalUsedMemStatistics p1 + size < w64). by rewrite (TotalUsed_same _ _ _ _ Hr Hr1).
  - destruct Hn as [?|Hn]; [done|]. apply serves_device; [done| |].
    + intros R k HR Hk. apply (dev_alloc (dev_ok := dev_ok)); [done|done|lia].
    + intros [real addr] d Hr4. cbv beta iota. destruct (Z.ltb_spec real size); [by left|right]. split; [simpl; lia|].
      intros R j HR HRk Hj Hnew Hd. wp_step. apply wp_upd_mng.
      set (p1 := set_mng false (set_unit_size (config_unit_size_ p) (mem_mng false p)) p).
      change (set_mng false _ (set_device d p)) with (set_device d p1).
      assert (stays p p1) as Hst.
      { split; [done| |done]. intros [Hu1 Hu2]. split; [|done]. intros []; [apply (Hu1 true)|done]. }
      assert (rep A p1) as Hr1 by (eapply rep_same_memory; [apply same_memory_unit|exact Hr]).
      eapply wp_mono; [eapply (serves_new A p1); eauto; lia|].
      intros r p2. by apply serves_after.
Qed.

Lemma wp_with_mutex {X} (m : M (BestFitPool T D) X) p (Q : X → BestFitPool T D → Prop) : mutex_ p = false →
  wp m (set_mutex true p) (λ a p', Q a (set_mutex false p')) → wp (with_mutex m) p Q.
Proof. unfold wp, with_mutex. intros ->. by destruct (m (set_mutex true p)). Qed.

(** What [AllocTensorMem] leads to: [leak] is what it found and did not return. *)
Definition allocated (size : Z) (leak : list (Z * Z)) A (r : Z) A' : Prop :=
  (r = 0 ∧ used_ranges A' ≡ₚ leak ++ used_ranges A) ∨
  (0 < r ∧ ∃ n, size <= n ∧ used_ranges A' ≡ₚ (r, n) :: leak ++ used_ranges A).

(** The stream a request is served from. *)
Definition request_stream (stream : Z) : Z :=
  if rewrites_stream && (stream =? UINT32_MAX) then kDefaultStreamIndex else stream.

(** The first recycling request throws away the buffer it found. *)
Definition throws_away (need_recycle : bool) p : bool := need_recycle && negb (init_recycle_memory_ p).

Definition allocates (size : Z) (need_recycle : bool) A p (r : Z) p' : Prop :=
  stays p p' ∧ ∃ leak A', rep A' p' ∧ allocated size leak A r A' ∧
    (throws_away need_recycle p = false → leak = []) ∧ (length leak <= 1)%nat.

Lemma serves_allocates size leak A A1 A' r : used_ranges A1 ≡ₚ leak ++ used_ranges A →
  gives size A1 r A' → allocated size leak A r A'.
Proof.
  intros Hl [[-> Hu]|(Hr & n & Hn & Hu)]; [left|right].
  - by rewrite Hu.
  - split; [done|]. exists n. by rewrite Hu, Hl.
Qed.

Lemma same_memory_stats p p' : same_memory p p' → TotalUsedMemStatistics p' = TotalUsedMemStatistics p ∧
  TotalMemStatistics p' = TotalMemStatistics p.
Proof.
  intros Hs. pose proof (sm_mps _ _ Hs true) as Ht. pose proof (sm_mps _ _ Hs false) as Hf.
  unfold TotalUsedMemStatistics, TotalMemStatistics, stat_sum. simpl in *. by rewrite Ht, Hf.
Qed.

Lemma total_stat p p' : (∀ s, total_of s p' = total_of s p) → TotalMemStatistics p' = TotalMemStatistics p.
Proof.
  intros Ht. pose proof (Ht true) as Ht1. pose proof (Ht false) as Ht2. unfold total_of in *. simpl in *.
  unfold TotalMemStatistics, stat_sum. by rewrite Ht1, Ht2.
Qed.

Definition alloc_body (size : Z) (s need_recycle : bool) (stream : Z) : M (BestFitPool T D) Z :=
  device_addr ← FindAvailableMemBuf size s stream;
  init_recycle_memory ← gets init_recycle_memory_;
  device_addr ←
    (if need_recycle && negb init_recycle_memory
     then modify (set_init_recycle true);; mret 0
     else mret device_addr);
  if device_addr =? 0 then AddMemBlockAndMemBuf size s need_recycle stream else mret device_addr.

Lemma alloc_body_spec A p size s need_recycle stream : rep A p → stream_ok stream → 0 < size < 2 ^ 63 →
  units_fit p → eager_fit p → TotalMemStatistics p + size < w64 →
  wp (alloc_body size s need_recycle stream) p (allocates size need_recycle A p).
Proof.
  intros Hr Hok Hs Hu He Hfit. unfold alloc_body. wp_step.
  eapply wp_mono; [apply (FindAvailableMemBuf_spec A); try done; lia|].
  intros r p1 [Hk1 Ht1 (A1 & Hr1 & Hg1)]. wp_step. wp_step. rewrite (kp_init _ _ Hk1).
  fold (throws_away need_recycle p).
  pose proof (keeps_stays (reusable := reusable) (dev_ok := dev_ok) _ _ Hk1) as Hst1.
  assert (∀ A' p', rep A' p' → stays p p' → TotalMemStatistics p' = TotalMemStatistics p → ∀ leak,
    used_ranges A' ≡ₚ leak ++ used_ranges A → (throws_away need_recycle p = false → leak = []) → (length leak <= 1)%nat →
    wp (AddMemBlockAndMemBuf size s need_recycle stream) p' (allocates size need_recycle A p)) as Hgrow.
  { intros A' p' Hr' Hst' Ht' leak Hl Hl0 Hl1.
    pose proof (bestfit_statistics _ _ Hr') as (_ & _ & Hle). rewrite Ht' in Hle.
    eapply wp_mono; [apply (AddMemBlockAndMemBuf_spec A'); try done; [by apply Hst'|by apply Hst'|lia]|].
    intros r' p2 [Hst2 (A2 & Hr2 & Hg2)]. split; [by eapply stays_trans|]. exists leak, A2. split_and!; try done.
    by eapply serves_allocates. }
  destruct (throws_away need_recycle p) eqn:Hth.
  - wp_steps. rewrite Z.eqb_refl.
    assert (rep A1 (set_init_recycle true p1)) as Hr2 by (eapply rep_same_memory; [apply same_memory_init|done]).
    assert (∃ leak, used_ranges A1 ≡ₚ leak ++ used_ranges A ∧ (length leak <= 1)%nat) as (leak & Hl & Hl1).
    { destruct Hg1 as [[_ Hg]|(_ & n & _ & Hg)]; [by exists []; split; [|simpl; lia]|by exists [(r, n)]; split; [|simpl; lia]]. }
    apply (Hgrow A1 _ Hr2) with (leak := leak); try done.
    + eapply stays_trans; [exact Hst1|]. by split.
    + exact (total_stat _ _ Ht1).
  - wp_steps. destruct (Z.eqb_spec r 0) as [->|Hne].
    + destruct (gives_zero _ _ _ _ Hg1 eq_refl) as [_ Hu1].
      apply (Hgrow A1 _ Hr1) with (leak := []); try done; [exact (total_stat _ _ Ht1)|simpl; lia].
    + wp_step. split; [done|]. exists [], A1. split_and!; try done. simpl; lia.
Qed.

(** [AllocTensorMem] returns null, or memory that was not in use and is from then on. *)
Lemma bf_AllocTensorMem_spec A p size s need_recycle stream : rep A p → mutex_ p = false →
  stream_ok (request_stream stream) → 0 <= size <= 2 ^ 62 → units_fit p → eager_fit p →
  TotalMemStatistics p + align_memory_size size < w64 →
  wp (AllocTensorMem size s need_recycle stream) p (allocates (align_memory_size size) need_recycle A p).
Proof.
  intros Hr Hm Hok Hs Hu He Hfit. destruct (align_fits size Hs) as [Ha _].
  unfold AllocTensorMem. fold (request_stream stream).
  change (wp ((if locks_alloc then with_mutex else id) (alloc_body (align_memory_size size) s need_recycle (request_stream stream)))
    p (allocates (align_memory_size size) need_recycle A p)).
  destruct locks_alloc; [|by apply alloc_body_spec].
  apply wp_with_mutex; [done|]. pose proof (same_memory_mutex true p) as Hsm.
  eapply wp_mono; [apply (alloc_body_spec A); try done; by eapply rep_same_memory|].
  intros r p' [Hst (leak & A' & Hr' & Hl & Hl0 & Hl1)]. split.
  - destruct Hst as [_ Hsu Hse]. split; [done|exact Hsu|exact Hse].
  - exists leak, A'. split_and!; try done. eapply rep_same_memory; [apply same_memory_mutex|done].
Qed.
End top.

(** * The best-fit pool: giving the device its memory back *)

Section release.
Context {T : Type → Type} `{StreamTable T} {D : Type} `{DeviceMem D} `{V : BestFitVariant}.
Context {stream_ok : Z → Prop} {reusable : Prop} `{!StreamTableLaws T stream_ok reusable}.
Context {dev_ok : D → gmap ptr (Z * Z) → Prop} `{!DeviceMemLaws D dev_ok} `{!SplitLaws}.
Implicit Types (p : BestFitPool T D) (A : astate).

(** The region of a block is [R !! j]. *)
Definition held_at (R : gmap ptr (Z * Z)) (k : ablock) (j : ptr) : Prop := R !! j = Some (k_base k, k_size k).

(** A manager without blocks and buffers; its statistics stay as they were. *)
Definition cleared (m : MemStatusManager T) : MemStatusManager T :=
  MkManager (unit_size_ m) (mps_ m) [] (clear_table (mem_blocks_ m))
    (clear_table (idle_mem_bufs_ m)) (clear_table (eager_free_mem_bufs_ m)).

Definition region (k : ablock) : Z * Z := (k_base k, k_size k).

Lemma release_blocks_spec s K R js p : mem_block_list_ (mem_mng s p) = k_ptr <$> K →
  (∀ k, k ∈ K → blks_ p !! k_ptr k = Some (block_of k)) → NoDup (k_ptr <$> K) → (∀ k, k ∈ K → 0 < k_base k) →
  dev_ok (device_ p) R → Forall2 (held_at R) K js → NoDup js →
  wp (release_blocks s) p (λ _ p', dev_ok (device_ p') (foldr delete R js) ∧
    (∀ x, x ∉ k_ptr <$> K → blks_ p' !! x = blks_ p !! x) ∧ mutex_ p' = mutex_ p ∧
    (∀ s', mem_mng s' p' = if decide (s' = s) then cleared (mem_mng s p) else mem_mng s' p)).
Proof.
  intros Hl Hb Hn Hpos HR Hjs Hnj. unfold release_blocks. wp_steps. rewrite Hl.
  eapply (wp_forM _ _ _ _ (λ rest _ p', ∃ K1 K2 js1 js2, K = K1 ++ K2 ∧ rest = k_ptr <$> K2 ∧
    js = js1 ++ js2 ∧ Forall2 (held_at R) K2 js2 ∧ dev_ok (device_ p') (foldr delete R js1) ∧
    (∀ x, x ∉ k_ptr <$> K1 → blks_ p' !! x = blks_ p !! x) ∧ mutex_ p' = mutex_ p ∧
    (∀ s', mem_mng s' p' = mem_mng s' p))).
  - exists [], K, [], js. split_and!; done.
  - intros x rest _ p1 (K1 & K2 & js1 & js2 & HK & Hr & Hj & Hjs2 & HR1 & Hb1 & Hm1 & Hs1).
    destruct K2 as [|k K2]; [done|]. injection Hr as -> ->.
    apply Forall2_cons_inv_l in Hjs2 as (j & js2' & Hkj & Hjs2 & ->).
    assert (k_ptr k ∉ k_ptr <$> K1) as Hk1.
    { rewrite HK, fmap_app in Hn. apply NoDup_app in Hn as (_ & Hd & _). intros Hin. apply (Hd _ Hin). by left. }
    wp_step. eapply bf_wp_load_blk; [rewrite Hb1 by done; apply Hb; rewrite HK; apply elem_of_app; right; by left|].
    cbn [device_addr_base_ block_of]. assert (0 < k_base k) as Hk0 by (apply Hpos; rewrite HK; apply elem_of_app; right; by left).
    destruct (Z.eqb_spec (k_base k) 0); [lia|]. cbn [negb]. wp_step.
    apply wp_on_device. eapply wp_mono; [apply (dev_free (dev_ok := dev_ok) _ (foldr delete R js1) j _ (k_size k)); [done|]|].
    { rewrite lookup_foldr_delete_not_elem_of; [exact Hkj|]. intros Hin.
      rewrite Hj in Hnj. apply NoDup_app in Hnj as (_ & Hd & _). apply (Hd _ Hin). by left. }
    intros fr d Hd. eapply bf_wp_update_blk.
    { cbn [blks_ set_device]. rewrite Hb1 by done. apply Hb. rewrite HK. apply elem_of_app. right. by left. }
    exists (K1 ++ [k]), K2, (js1 ++ [j]), js2'. split_and!; try done.
    + by rewrite <- app_assoc.
    + by rewrite <- app_assoc.
    + rewrite foldr_app. cbn [foldr]. by rewrite <- delete_foldr_delete.
    + intros y Hy. rewrite fmap_app in Hy. cbn [blks_ set_blks set_device]. rewrite lookup_insert_ne.
      * apply Hb1. intros Hin. apply Hy, elem_of_app. by left.
      * intros <-. apply Hy, elem_of_app. right. by left.
  - intros _ p1 (K1 & K2 & js1 & js2 & HK & Hr & Hj & Hjs2 & HR1 & Hb1 & Hm1 & Hs1).
    destruct K2; [|done]. apply Forall2_nil_inv_l in Hjs2 as ->. rewrite app_nil_r in HK, Hj. subst K1 js1.
    unfold Clear. apply wp_upd_mng. split_and!; [by destruct s|done|done|].
    intros s'. case_decide as Hs; subst; [by rewrite mem_mng_set_same, Hs1|]. by rewrite mem_mng_set_other.
Qed.

Lemma foldr_delete_swap (R : gmap ptr (Z * Z)) l1 l2 :
  foldr delete (foldr delete R l1) l2 = foldr delete (foldr delete R l2) l1.
Proof. induction l1 as [|j l1 IH]; simpl; [done|]. by rewrite <- delete_foldr_delete, IH. Qed.

(** A region for every block, all different. *)
Lemma blocks_held A R K : geo A → (∀ k, k ∈ K → ∃ s, k ∈ A s) → NoDup K →
  (∀ s k, k ∈ A s → ∃ j, R !! j = Some (k_base k, k_size k)) → ∃ js, Forall2 (held_at R) K js ∧ NoDup js.
Proof.
  intros Hg HK Hn HR. induction Hn as [|k K Hk Hn IH]; [exists []; split; constructor|].
  destruct IH as (js & Hjs & Hnj); [intros; apply HK; by right|].
  destruct (HK k ltac:(by left)) as [s Hs]. destruct (HR s k Hs) as [j Hj].
  exists (j :: js). split; [by constructor|]. constructor; [|done]. intros Hin.
  apply list_elem_of_lookup_1 in Hin as [i Hi]. destruct (Forall2_lookup_r _ _ _ _ _ Hjs Hi) as (k' & Hk' & Hj').
  apply list_elem_of_lookup_2 in Hk'. destruct (HK k' ltac:(by right)) as [s' Hs'].
  unfold held_at in Hj'. rewrite Hj in Hj'. injection Hj' as Hb Hsz.
  destruct (geo_ok _ Hg _ _ Hs) as (_ & Hp & _).
  destruct (geo_blocks_apart A s s' k k' Hg Hs Hs') as [Hx|Hx]; [right; by intros ->| |]; unfold block_before in Hx; lia.
Qed.

(** [ReleaseDeviceRes] gives every block back to the device and forgets its blocks
    and buffers. The statistics are not reset. *)
Lemma bf_ReleaseDeviceRes_spec A p R : rep (stream_ok := stream_ok) (dev_ok := dev_ok) A p → mutex_ p = false →
  dev_ok (device_ p) R → (∀ s k, k ∈ A s → ∃ j, R !! j = Some (k_base k, k_size k)) →
  wp ReleaseDeviceRes p (λ _ p', ∃ js, Forall2 (held_at R) (A false ++ A true) js ∧
    dev_ok (device_ p') (foldr delete R js) ∧ mutex_ p' = false ∧ ∀ s, mem_mng s p' = cleared (mem_mng s p)).
Proof.
  intros Hr Hm HR HRk. pose proof (rp_shape _ _ Hr) as Hsh. pose proof (rp_geo _ _ Hr) as Hg.
  assert (NoDup (k_ptr <$> A false ++ A true)) as Hn.
  { pose proof (sh_blk_NoDup _ _ Hsh) as Hn. unfold all_blocks in Hn. by rewrite (Permutation_app_comm (A true)) in Hn. }
  destruct (blocks_held A R (A false ++ A true) Hg) as (js & Hjs & Hnj); [|by eapply NoDup_fmap_1|done|].
  { intros k [?|?]%elem_of_app; [by exists false|by exists true]. }
  destruct (proj1 (Forall2_app_inv_l _ _ _ _) Hjs) as (js1 & js2 & Hjs1 & Hjs2 & ->).
  rewrite fmap_app in Hn. apply NoDup_app in Hn as (Hn1 & Hn2 & Hn3). apply NoDup_app in Hnj as (Hnj1 & Hnj2 & Hnj3).
  apply wp_with_mutex; [done|]. wp_step.
  eapply wp_mono; [apply (release_blocks_spec false (A false) R js1); try done|].
  { exact (sh_list _ _ Hsh false). }
  { apply (sh_blk _ _ Hsh false). }
  { intros k Hk. apply (geo_ok _ Hg _ _ Hk). }
  intros _ p1 (HR1 & Hb1 & Hm1 & Hs1).
  eapply wp_mono; [apply (release_blocks_spec true (A true) (foldr delete R js1) js2); try done|].
  { rewrite Hs1. exact (sh_list _ _ Hsh true). }
  { intros k Hk. rewrite Hb1; [by apply (sh_blk _ _ Hsh true)|]. intros Hin. apply (Hn2 _ Hin). by apply list_elem_of_fmap_2. }
  { intros k Hk. apply (geo_ok _ Hg _ _ Hk). }
  { apply Forall2_same_length_lookup. split; [by eapply Forall2_length|]. intros i k j Hk Hj.
    unfold held_at. rewrite lookup_foldr_delete_not_elem_of.
    - exact (Forall2_lookup_lr _ _ _ _ _ _ Hjs2 Hk Hj).
    - intros Hin. apply (Hnj2 _ Hin). by eapply list_elem_of_lookup_2. }
  intros _ p2 (HR2 & Hb2 & Hm2 & Hs2). exists (js1 ++ js2). split_and!; [done| |done|].
  - by rewrite foldr_app, foldr_delete_swap.
  - assert (∀ s b q, mem_mng s (set_mutex b q) = mem_mng (T := T) (D := D) s q) as Hmut by (by intros []).
    intros s. rewrite Hmut, Hs2. destruct s; case_decide; try done; rewrite Hs1; by rewrite ?decide_False, ?Hmut by done.
Qed.
End release.
