(* ===== verification/BestFitClient.v ===== *)
(** * The best-fit pool: what a client relies on

    The contract of the pool on ranges of memory, and the proof that its operations
    implement it: a pool refines the list of the ranges it has handed out. *)

From S2P Require Import Prelude EventBase MemBufHeap MemGeometry MemStat PoolDevice OrdList StreamTable BestFitState BestFit BestFitAbs BestFitRep BestFitCombine BestFitSplit BestFitPool BestFitCreate BestFitTop.
Import BestFitTypes BestFit.

(** ** The contract *)

(** Ranges (address, size). *)
Definition apart (x y : Z * Z) : Prop := x.1 + x.2 <= y.1 ∨ y.1 + y.2 <= x.1.
Definition all_apart (U : list (Z * Z)) : Prop := StronglySorted apart U.

Inductive request :=
| AllocRequest (size : Z) (from_persistent_mem need_recycle : bool) (stream_id : Z)
| FreeRequest (device_addr : Z)
| IdleRequest.

(** [U] is in use before, [U'] after, and [r] is returned; at most one range is lost
    in an allocation. *)
Inductive spec_step (U : list (Z * Z)) : request → Z → list (Z * Z) → Prop :=
| spec_alloc size s need_recycle stream r n lost U' :
    0 < r → size <= n → (length lost <= 1)%nat → (need_recycle = false → lost = []) →
    U' ≡ₚ (r, n) :: lost ++ U → all_apart U' →
    spec_step U (AllocRequest size s need_recycle stream) r U'
| spec_fail size s need_recycle stream lost U' :
    (length lost <= 1)%nat → (need_recycle = false → lost = []) → U' ≡ₚ lost ++ U → all_apart U' →
    spec_step U (AllocRequest size s need_recycle stream) 0 U'
| spec_free device_addr n U' :
    U ≡ₚ (device_addr, n) :: U' → all_apart U' → spec_step U (FreeRequest device_addr) 0 U'
| spec_idle U' : U' ≡ₚ U → all_apart U' → spec_step U IdleRequest 0 U'.

Lemma apart_sym x y : apart x y → apart y x.
Proof. unfold apart. tauto. Qed.

Lemma all_apart_perm U U' : U ≡ₚ U' → all_apart U → all_apart U'.
Proof.
  unfold all_apart. induction 1 as [|x l l' Hp IH|x y l|l1 l2 l3 _ IH1 _ IH2]; [done| | |auto].
  - intros [Hs Hx]%StronglySorted_inv. constructor; [by apply IH|]. by rewrite <- Hp.
  - intros [[Hs Hy]%StronglySorted_inv Hx]%StronglySorted_inv. apply Forall_cons in Hx as [Hxy Hx].
    constructor; [by constructor|]. constructor; [by apply apart_sym|done].
Qed.

#[export] Instance all_apart_proper : Proper ((≡ₚ) ==> iff) all_apart.
Proof. intros U U' Hp. split; by apply all_apart_perm. Qed.

Section client.
Context {T : Type → Type} `{StreamTable T} {D : Type} `{DeviceMem D} `{V : BestFitVariant}.
Context {stream_ok : Z → Prop} {reusable : Prop} `{!StreamTableLaws T stream_ok reusable}.
Context {dev_ok : D → gmap ptr (Z * Z) → Prop} `{!DeviceMemLaws D dev_ok} `{!SplitLaws}.
Implicit Types (p : BestFitPool T D) (A : astate).
Abbreviation rep := (rep (stream_ok := stream_ok) (dev_ok := dev_ok)).
Abbreviation stays := (stays (reusable := reusable) (dev_ok := dev_ok)).
Abbreviation eager_fit := (eager_fit (reusable := reusable) (dev_ok := dev_ok)).

(** The ranges in use of a represented pool are apart. *)
Lemma used_apart A p : shape A p → geo A → all_apart (used_ranges A).
Proof.
  intros Hsh Hg. unfold all_apart, used_ranges.
  assert (∀ c d, c ∈ all_cells A → d ∈ all_cells A → c = d ∨ apart (c_addr c, c_size c) (d.(c_addr), d.(c_size))) as Hd.
  { intros c d (s1 & k1 & Hk1 & Hc1)%elem_of_all_cells (s2 & k2 & Hk2 & Hc2)%elem_of_all_cells.
    exact (cells_disjoint A s1 s2 k1 k2 c d Hg Hk1 Hk2 Hc1 Hc2). }
  assert (NoDup (all_cells A)) as Hn by (eapply NoDup_fmap_1, (sh_addr_NoDup _ _ Hsh)).
  induction (all_cells A) as [|c C IH]; [constructor|]. apply NoDup_cons in Hn as [Hc Hn].
  assert (StronglySorted apart (omap used_range C)) as HC.
  { apply IH; [|done]. intros c1 c2 ? ?. apply Hd; by right. }
  simpl. destruct (used_range c) as [x|] eqn:Hx; [|done]. constructor; [done|].
  apply Forall_forall. intros y (d & Hdin & Hy)%list_elem_of_omap. unfold used_range in *.
  destruct (c_status c); simplify_eq. destruct (c_status d); simplify_eq.
  destruct (Hd c d ltac:(by left) ltac:(by right)) as [->|]; done.
Qed.

(** ** Release *)

Lemma bf_FreeTensorMem_spec A p a n : rep A p → mutex_ p = false → (a, n) ∈ used_ranges A →
  wp (FreeTensorMem a) p (λ _ p', stays p p' ∧ ∃ A', rep A' p' ∧ used_ranges A ≡ₚ (a, n) :: used_ranges A').
Proof.
  intros Hr Hm Ha. apply elem_of_used_ranges in Ha as (c & (s & k & Hk & Hc)%elem_of_all_cells & Hst & <- & <-).
  destruct (list_elem_of_split _ _ Hk) as (K1 & K2 & HA). destruct (list_elem_of_split _ _ Hc) as (C1 & C2 & HC).
  apply wp_with_mutex; [done|].
  assert (rep A (set_mutex true p)) as Hr' by (eapply rep_same_memory; [apply same_memory_mutex|done]).
  eapply wp_mono; [by apply (FreeTensorMemInner_spec A _ s K1 k K2 C1 c C2)|].
  intros _ p' [Hr2 Hk2]. split.
  { apply (keeps_stays (reusable := reusable) (dev_ok := dev_ok)) in Hk2. destruct Hk2 as [_ Hsu Hse]. split; [done|exact Hsu|exact Hse]. }
  eexists. split; [eapply rep_same_memory; [apply same_memory_mutex|exact Hr2]|].
  rewrite <- (used_ranges_id A s K1 k K2 HA), HC.
  apply (used_ranges_focus _ _ _ _ _ _ _ [(c_addr c, c_size c)]).
  rewrite (combine_omap used_range kMemBufUsed) by (done || apply used_range_selects).
  rewrite !omap_app. simpl. unfold used_range at 2. rewrite Hst. symmetry. apply Permutation_middle.
Qed.

(** ** The pool at the start *)

Lemma new_pool_rep debug d R : dev_ok d R → rep (λ _, []) (new_pool debug d).
Proof.
  intros HR. split; [split|]; try done.
  - split; try constructor; try done; [by intros []|by intros _ k Hk%not_elem_of_nil|by intros _ k c Hk%not_elem_of_nil].
  - split; [by intros _ k Hk%not_elem_of_nil|constructor|by intros k1 k2 Hk%not_elem_of_nil].
  - by intros _ k Hk%not_elem_of_nil.
  - split; intros [] stream; simpl; try (by apply new_valid); rewrite new_contents; constructor.
  - by intros [].
  - by intros [].
  - intros [] stream Hs; by apply new_valid.
  - intros [] stream x; simpl; rewrite new_contents; by intros ?%not_elem_of_nil.
  - exists R. split; [done|]. intros s k Hk. by apply not_elem_of_nil in Hk.
  - split; intros [] stream; simpl; try (by apply new_valid); rewrite new_contents; constructor.
Qed.

(** ** Refinement *)

Definition perform (q : request) : M (BestFitPool T D) Z :=
  match q with
  | AllocRequest size s need_recycle stream => AllocTensorMem size s need_recycle stream
  | FreeRequest device_addr => FreeTensorMem device_addr;; mret 0
  | IdleRequest => _ ← FreeIdleMemsByEagerFree; mret 0
  end.

(** The pool [p] has handed out the ranges [U]. *)
Record refines p (U : list (Z * Z)) : Prop := {
  rf_rep : ∃ A, rep A p ∧ used_ranges A ≡ₚ U;
  rf_mutex : mutex_ p = false;
  rf_units : units_fit p;
  rf_eager : eager_fit p
}.

Definition request_fits (q : request) : Prop :=
  match q with
  | AllocRequest size _ _ stream => stream_ok (request_stream stream) ∧ 0 <= size <= 2 ^ 62
  | FreeRequest _ => True
  | IdleRequest => reusable
  end.

Definition request_ok (U : list (Z * Z)) (q : request) : Prop :=
  request_fits q ∧ match q with FreeRequest a => ∃ n, (a, n) ∈ U | _ => True end.

(** The device works in the lower half of the address space. *)
Definition device_low : Prop := ∀ (d : D) R j a n, dev_ok d R → R !! j = Some (a, n) → a + n <= 2 ^ 63.

Lemma total_low A p : device_low → rep A p → TotalMemStatistics p <= 2 ^ 63 - 1.
Proof.
  intros Hlow Hr. pose proof (rp_geo _ _ Hr) as Hg. destruct (bestfit_statistics _ _ Hr) as (_ & -> & _).
  destruct (co_device _ _ (rp_core _ _ Hr)) as (R & HR & HRk).
  eapply (apart_total (length (all_blocks A))); [done|lia|eapply NoDup_fmap_1, (sh_blk_NoDup _ _ (rp_shape _ _ Hr))| |].
  - intros k (s & Hk)%elem_of_all_blocks. destruct (geo_ok _ Hg _ _ Hk) as (? & ? & ? & _).
    destruct (HRk _ _ Hk) as [j Hj]. pose proof (Hlow _ _ _ _ _ HR Hj). lia.
  - intros k1 k2 (s1 & Hk1)%elem_of_all_blocks (s2 & Hk2)%elem_of_all_blocks Hne.
    by eapply (geo_blocks_apart A s1 s2); [|done|done|right].
Qed.

Lemma refines_step p U A' U' p' : refines p U → stays p p' → rep A' p' → used_ranges A' ≡ₚ U' → refines p' U'.
Proof.
  intros [_ Hm Hu He] [Hsm Hsu Hse] Hr' HU. split; [by exists A'|congruence|auto|auto].
Qed.

Lemma refines_apart p U : refines p U → all_apart U.
Proof. intros [(A & Hr & <-) _ _ _]. eapply used_apart; [apply (rp_shape _ _ Hr)|apply (rp_geo _ _ Hr)]. Qed.

Lemma perform_refines p U q : device_low → refines p U → request_ok U q →
  wp (perform q) p (λ r p', ∃ U', spec_step U q r U' ∧ refines p' U').
Proof.
  intros Hlow Hp [Hfit Hq]. destruct (rf_rep _ _ Hp) as (A & Hr & HA).
  destruct q as [size s need_recycle stream|a|]; simpl in *.
  - destruct Hfit as [Hok Hs]. destruct (align_fits size Hs) as [_ Ha].
    pose proof (total_low _ _ Hlow Hr) as Ht.
    eapply wp_mono; [apply (bf_AllocTensorMem_spec A); try done; try apply Hp; unfold w64; lia|].
    intros r p' [Hst (leak & A' & Hr' & Hl & Hl0 & Hl1)]. exists (used_ranges A').
    assert (refines p' (used_ranges A')) as Hp' by (by eapply refines_step). split; [|done].
    pose proof (refines_apart _ _ Hp') as Hap.
    assert (need_recycle = false → leak = []) as Hl2 by (intros ->; by apply Hl0).
    destruct Hl as [[-> Hu]|(Hr0 & n & Hn & Hu)]; rewrite HA in Hu.
    + by eapply spec_fail.
    + apply (spec_alloc _ _ _ _ _ r n leak); try done; lia.
  - destruct Hq as [n Hn]. rewrite <- HA in Hn. wp_step.
    eapply wp_mono; [by apply (bf_FreeTensorMem_spec A p a n); [|apply Hp|]|].
    intros _ p' [Hst (A' & Hr' & Hu)]. wp_step. exists (used_ranges A').
    assert (refines p' (used_ranges A')) as Hp' by (by eapply refines_step). split; [|done].
    apply (spec_free _ _ n); [by rewrite <- HA|by eapply refines_apart].
  - wp_step. eapply wp_mono; [by apply (bf_FreeIdleMemsByEagerFree_spec A)|].
    intros _ p' (A' & Hr' & Hro & Hu & _). wp_step. exists (used_ranges A').
    assert (refines p' (used_ranges A')) as Hp'.
    { eapply refines_step; [exact Hp|by apply roams_stays|exact Hr'|done]. }
    split; [|done]. apply spec_idle; [by rewrite Hu|by eapply refines_apart].
Qed.

(** A client that keeps the addresses it was given and frees only those. *)
Fixpoint run (l : list request) (held : list Z) : M (BestFitPool T D) (list Z) :=
  match l with
  | [] => mret held
  | q :: l' =>
      match q with
      | FreeRequest a =>
          if decide (a ∈ held) then _ ← perform q; run l' (filter (λ x, x ≠ a) held) else run l' held
      | _ => r ← perform q; run l' (if r =? 0 then held else r :: held)
      end
  end.

Lemma apart_NoDup U : all_apart U → Forall (λ x, 0 < x.2) U → NoDup U.*1.
Proof.
  induction 1 as [|x U _ IH Hx]; intros Hp; simpl; [constructor|]. apply Forall_cons in Hp as [Hx0 Hp].
  constructor; [|by apply IH]. intros (y & He & Hy)%list_elem_of_fmap_1.
  rewrite Forall_forall in Hx, Hp. specialize (Hx _ Hy). specialize (Hp _ Hy). unfold apart in Hx. lia.
Qed.

Lemma run_refines l p U held : device_low → refines p U → Forall request_fits l → held ⊆ U.*1 →
  wp (run l held) p (λ held' p', ∃ U', refines p' U' ∧ held' ⊆ U'.*1).
Proof.
  intros Hlow Hp Hl. revert p U held Hp. induction Hl as [|q l Hq _ IH]; intros p U held Hp Hh; simpl.
  { wp_step. by exists U. }
  destruct q as [size s nr stream|a|].
  - wp_step. eapply wp_mono; [by apply (perform_refines p U)|]. intros r p' (U' & Hstep & Hp').
    apply (IH p' U'); [done|]. inversion Hstep; subst.
    + destruct (Z.eqb_spec r 0); [lia|]. intros x [->|Hx]%elem_of_cons;
        match goal with HU : _ ≡ₚ _ |- _ => rewrite HU end; simpl; [by left|].
      right. rewrite fmap_app. apply elem_of_app. right. by apply Hh.
    + simpl. intros x Hx. match goal with HU : _ ≡ₚ _ |- _ => rewrite HU end.
      rewrite fmap_app. apply elem_of_app. right. by apply Hh.
  - case_decide as Ha; [|by apply (IH p U)].
    wp_step. eapply wp_mono; [apply (perform_refines p U); try done; split; [done|]|].
    + apply Hh in Ha. apply list_elem_of_fmap_1 in Ha as ([a' n] & -> & Ha). by exists n.
    + intros r p' (U' & Hstep & Hp'). apply (IH p' U'); [done|]. inversion Hstep; subst.
      intros x [Hne Hx%Hh]%list_elem_of_filter.
      match goal with HU : _ ≡ₚ _ |- _ => rewrite HU in Hx end. simpl in Hx. by apply elem_of_cons in Hx as [?|Hx].
  - wp_step. eapply wp_mono; [by apply (perform_refines p U)|]. intros r p' (U' & Hstep & Hp').
    apply (IH p' U'); [done|]. inversion Hstep; subst. simpl.
    match goal with HU : _ ≡ₚ _ |- _ => by rewrite HU end.
Qed.

(** ** Structure of the blocks *)

(** Neighbours in a block follow each other without a gap, and were combined unless
    in use. *)
Definition neighbours_ok p (x1 x2 : Z * ptr) : Prop :=
  ∃ b1 b2, bufs_ p !! x1.2 = Some b1 ∧ bufs_ p !! x2.2 = Some b2 ∧
    device_addr_ b1 = x1.1 ∧ device_addr_ b2 = x2.1 ∧ x1.1 + size_ b1 = x2.1 ∧ 0 < size_ b1 ∧
    (status_ b1 = status_ b2 → status_ b1 = kMemBufUsed).

Definition well_formed p : Prop := ∀ s x, x ∈ mem_block_list_ (mem_mng s p) → ∃ b, blks_ p !! x = Some b ∧
  ∀ i e1 e2, block_all_mem_buf_map_ b !! i = Some e1 → block_all_mem_buf_map_ b !! S i = Some e2 →
    neighbours_ok p e1 e2.

Lemma tiles_neighbours st a C e st' i c d : tiles st a C e st' → C !! i = Some c → C !! S i = Some d →
  c_addr c + c_size c = c_addr d ∧ 0 < c_size c ∧ (c_status c = c_status d → c_status c = kMemBufUsed).
Proof.
  revert st a i. induction C as [|x C IH]; intros st a i; [done|]. simpl. intros (Ha & Hs & _ & Ht) Hc Hd.
  destruct i as [|i]; [|by eapply IH]. simplify_eq/=. destruct C as [|y C]; [done|]. simplify_eq/=.
  destruct Ht as (Hy & _ & Hn & _). split_and!; [done|done|]. intros He. by rewrite Hn.
Qed.

Lemma rep_well_formed A p : rep A p → well_formed p.
Proof.
  intros Hr s x Hx. pose proof (rp_shape _ _ Hr) as Hsh. rewrite (sh_list _ _ Hsh) in Hx.
  apply list_elem_of_fmap_1 in Hx as (k & -> & Hk). exists (block_of k). split; [by apply (sh_blk _ _ Hsh s)|].
  intros i e1 e2 H1e H2e. simpl in H1e, H2e. rewrite list_lookup_fmap in H1e. rewrite list_lookup_fmap in H2e.
  apply fmap_Some in H1e as (c & Hc & ->). apply fmap_Some in H2e as (d & Hd & ->).
  destruct (sh_cell _ _ Hsh s k c Hk) as (b1 & Hb1 & Ha1 & Hs1 & Hst1 & _); [by eapply list_elem_of_lookup_2|].
  destruct (sh_cell _ _ Hsh s k d Hk) as (b2 & Hb2 & Ha2 & Hs2 & Hst2 & _); [by eapply list_elem_of_lookup_2|].
  destruct (geo_ok _ (rp_geo _ _ Hr) _ _ Hk) as (_ & _ & _ & st & Ht).
  destruct (tiles_neighbours _ _ _ _ _ _ _ _ Ht Hc Hd) as (He & Hp & Hn).
  exists b1, b2. rewrite Hst1, Hst2, Hs1. split_and!; done.
Qed.

(** ** What the statistics count *)

(** The sum of [f] over the blocks in the lists of both managers. *)
Definition over_blocks (f : DynamicMemBlock → Z) p : Z :=
  foldr (λ x n, from_option f 0 (blks_ p !! x) + n) 0
    (mem_block_list_ (persistent_mem_ p) ++ mem_block_list_ (common_mem_ p)).
(** The bytes of a block that are in use, by the statuses of its buffers. *)
Definition used_in_block p (k : DynamicMemBlock) : Z :=
  foldr (λ e n, from_option (λ b, if is_used (status_ b) then size_ b else 0) 0 (bufs_ p !! e.2) + n) 0
    (block_all_mem_buf_map_ k).
Definition bytes_in_use p : Z := over_blocks (used_in_block p) p.
Definition bytes_obtained p : Z := over_blocks mem_block_size_ p.

Lemma over_blocks_rep f A p : rep A p →
  over_blocks f p = foldr (λ k n, f (block_of k) + n) 0 (all_blocks A).
Proof.
  intros Hr. pose proof (rp_shape _ _ Hr) as Hsh. unfold over_blocks.
  pose proof (sh_list _ _ Hsh true) as Ht. pose proof (sh_list _ _ Hsh false) as Hf. simpl in Ht, Hf.
  rewrite Ht, Hf, <- fmap_app. fold (all_blocks A).
  assert (∀ k, k ∈ all_blocks A → blks_ p !! k_ptr k = Some (block_of k)) as Hb.
  { intros k (s & Hk)%elem_of_all_blocks. by apply (sh_blk _ _ Hsh s). }
  induction (all_blocks A) as [|k K IH]; [done|]. rewrite fmap_cons. cbn [foldr].
  rewrite (Hb k), IH; [done| |by left]. intros k' Hk. apply Hb. by right.
Qed.

Lemma used_in_block_rep A p k : rep A p → k ∈ all_blocks A → used_in_block p (block_of k) = cells_size is_used (k_cells k).
Proof.
  intros Hr (s & Hk)%elem_of_all_blocks. unfold used_in_block. simpl.
  assert (∀ c, c ∈ k_cells k → cell_rep (bufs_ p) (k_ptr k) c) as Hc.
  { intros c Hc. by apply (sh_cell _ _ (rp_shape _ _ Hr) s). }
  induction (k_cells k) as [|c C IH]; [done|]. rewrite fmap_cons. cbn [foldr cells_size].
  destruct (Hc c) as (b & Hb & _ & <- & <- & _); [by left|]. simpl. rewrite Hb, IH; [done|].
  intros d Hd. apply Hc. by right.
Qed.

(** The counters of a represented pool are what a walk over its blocks finds. *)
Lemma counted A p : rep A p →
  TotalUsedMemStatistics p = bytes_in_use p ∧ TotalMemStatistics p = bytes_obtained p ∧
  0 <= TotalUsedMemStatistics p <= TotalMemStatistics p.
Proof.
  intros Hr. destruct (bestfit_statistics _ _ Hr) as (Hu & Ht & Hle). split_and!; try lia.
  - rewrite Hu. clear Hu Ht Hle. unfold bytes_in_use. rewrite (over_blocks_rep _ A) by done.
    unfold used_ranges. assert (all_cells A = cells_of (all_blocks A)) as ->.
    { unfold all_cells, all_blocks, cells_of. by rewrite bind_app. }
    rewrite <- used_bytes_ranges. pose proof (λ k, used_in_block_rep A p k Hr) as Hb. revert Hb.
    unfold used_bytes. induction (all_blocks A) as [|k K IH]; intros Hb; [done|]. unfold cells_of. cbn [foldr mbind list_bind].
    fold (cells_of K). rewrite cells_size_app, (Hb k), IH; [done| |by left]. intros k' Hk. apply Hb. by right.
  - rewrite Ht. unfold bytes_obtained. by rewrite (over_blocks_rep _ A).
Qed.

(** A pool at the start has handed out nothing. *)
Lemma new_pool_refines debug d R : dev_ok d R → reusable ∧ constant_total (dev_ok := dev_ok) ∨ (∀ d : D, IsEnableEagerFree d = false) →
  refines (new_pool debug d) [].
Proof.
  intros HR He. split; [exists (λ _, []); split; [by eapply new_pool_rep|done]|done| |].
  - split; [by intros []|done].
  - destruct He as [?|?]; [by left|by right].
Qed.
End client.
