(* ===== verification/BestFitOpt.v ===== *)
(** * The optimised best-fit pool

    [DynamicMemPoolBestFitOpt] of application/src/mem_optimized_allocator.cpp: the
    variant of [BestFit] that keeps its streams in vectors of 128 entries, points
    from a buffer to its block, deletes buffers by hand and splits later. Functions
    whose text is that of the other version are instances of the definitions there;
    [AlignMemorySize], [CombineMemBuf] and [CombineMemBufForward] are written out
    and shown to agree with them. *)

From S2P Require Import Prelude EventBase MemBufHeap MemGeometry MemStat PoolDevice OrdList StreamTable BestFitState BestFit BestFitAbs BestFitRep BestFitCombine BestFitSplit BestFitPool BestFitCreate BestFitTop BestFitClient.
Import BestFitTypes.

Module BestFitOpt.

(** [(size + kDynamicMemAlignSize - 1) & ~(kDynamicMemAlignSize - 1)] *)
Definition AlignMemorySize (size : Z) : Z :=
  if negb (size =? 0)
  then Z.land (size +64 kDynamicMemAlignSize -64 1) (u64 (Z.lnot (kDynamicMemAlignSize -64 1)))
  else kDynamicMemAlignSize.

Definition min_tensor_size_ : Z := Z.shiftl 1 10.
Definition IsSplit (tensor_size mem_buf_size : Z) : bool :=
  min_tensor_size_ <=? mem_buf_size -64 tensor_size.
(** [mem_buf->size_ >= (size << 1)] *)
Definition IsSplitNew (size mem_buf_size : Z) : bool := u64 (Z.shiftl size 1) <=? mem_buf_size.

#[export] Instance optimized_variant : BestFitVariant | 100 := {|
  rewrites_stream := false;
  locks_alloc := true;
  sorts_streams := false;
  block_ptrs := true;
  deletes := true;
  align_memory_size := AlignMemorySize;
  BestFit.IsSplit := IsSplit;
  BestFit.IsSplitNew := IsSplitNew
|}.

#[local] Existing Instance optimized_variant | 0.

Section ops.
Context {D : Type} `{DeviceMem D}.
Abbreviation BF := (M (BestFitPool VecTable D)).

(** ** Combination *)

(** Combine forward (the buffer into the previous one), and put back what results. *)
Definition CombineMemBufForward (iter : nat) (mem_block mem_buf : ptr) (mem_mng : bool)
    (target_status : DynamicMemBufStatus) : BF unit :=
  last ← BestFit.CombinePrev mem_block mem_buf iter mem_mng target_status;
  BestFit.put_back_mem_buf mem_block last mem_mng target_status.

(** Where an address starts a buffer of [mem_block]: the position, if it is not [end()]. *)
Definition find_in_block (device_addr : Z) (mem_block : option ptr) : BF (option nat) :=
  match mem_block with
  | None => mret None
  | Some k => b ← load_blk k; mret (ord_find device_addr (block_all_mem_buf_map_ b))
  end.

(** The search at the start of [CombineMemBuf]: block, position and manager. *)
Definition find_in_pools (device_addr : Z) : BF (option ptr * option nat * option bool) :=
  (* find in the common pool *)
  mem_block ← BestFit.FindMemBlock device_addr false;
  found ← find_in_block device_addr mem_block;
  match found with
  | Some i => mret (mem_block, Some i, Some false)
  | None =>
      (* find in the persistent pool *)
      mem_block ← BestFit.FindMemBlock device_addr true;
      found ← find_in_block device_addr mem_block;
      match found with
      | Some i => mret (mem_block, Some i, Some true)
      | None => mret (None, None, None)
      end
  end.

Definition CombineMemBuf (device_addr : Z) (origin_status target_status : DynamicMemBufStatus) : BF unit :=
  '(mem_block, iter, mem_mng) ← find_in_pools device_addr;
  match mem_block with
  | None => mret ()
  | Some k =>
      i ← deref iter;
      from_persistent_mem ← deref mem_mng;
      b ← load_blk k;
      '(_, mem_buf) ← deref (block_all_mem_buf_map_ b !! i);
      buf ← load_buf mem_buf;
      update_buf mem_buf (set_buf_status target_status);;
      match origin_status with
      | kMemBufUsed => upd_mps from_persistent_mem (sub_used (size_ buf))
      | kMemBufIdle => upd_mps from_persistent_mem (sub_idle (size_ buf))
      | kMemBufEagerFree => mret ()
      end;;
      BestFit.CombineNext k mem_buf i from_persistent_mem target_status;;
      CombineMemBufForward i k mem_buf from_persistent_mem target_status
  end.

Definition as_pointers (r : option (ptr * nat * bool)) : option ptr * option nat * option bool :=
  match r with Some (k, i, s) => (Some k, Some i, Some s) | None => (None, None, None) end.

Lemma find_in_pools_same device_addr (p : BestFitPool VecTable D) :
  find_in_pools device_addr p = (r ← BestFit.FindByStrictAddr device_addr; mret (as_pointers r)) p.
Proof.
  unfold find_in_pools, BestFit.FindByStrictAddr, BestFit.find_strict_in, find_in_block, mbind, M_bind, mret, M_ret.
  destruct (BestFit.FindMemBlock device_addr false p) as [[k|] p1| |]; try done; cbn beta iota.
  - destruct (load_blk k p1) as [b p2| |]; try done; cbn beta iota.
    destruct (ord_find device_addr _); [done|]. cbn [fmap option_fmap option_map].
    destruct (BestFit.FindMemBlock device_addr true p2) as [[k'|] p3| |]; try done.
    destruct (load_blk k' p3) as [b' p4| |]; try done. by destruct (ord_find device_addr _).
  - destruct (BestFit.FindMemBlock device_addr true p1) as [[k'|] p3| |]; try done.
    destruct (load_blk k' p3) as [b' p4| |]; try done. by destruct (ord_find device_addr _).
Qed.

(** Both versions of [CombineMemBuf] do the same. *)
Lemma CombineMemBuf_same device_addr origin target (p : BestFitPool VecTable D) :
  CombineMemBuf device_addr origin target p = BestFit.CombineMemBuf device_addr origin target p.
Proof.
  unfold CombineMemBuf, BestFit.CombineMemBuf. unfold mbind at 1, M_bind at 1. rewrite find_in_pools_same.
  unfold CombineMemBufForward, mbind, M_bind, mret, M_ret.
  destruct (BestFit.FindByStrictAddr device_addr p) as [[[[k i] s]|] p1| |]; done.
Qed.

(** ** The rest of the class *)

Definition MemAllocUnitSize : bool → BestFitPool VecTable D → Z := BestFit.MemAllocUnitSize.
Definition SetMemAllocUintSize : Z → Z → BF unit := BestFit.SetMemAllocUintSize.
Definition SetMemPoolBlockSize : Z → BF unit := BestFit.SetMemPoolBlockSize.
Definition GetMinUsedMemoryAddr : BestFitPool VecTable D → Z := BestFit.GetMinUsedMemoryAddr.
Definition AddMemBlock : bool → ptr → Z → BF unit := BestFit.AddMemBlock.
Definition RemoveDeviceMem : bool → DynamicMemBufStatus → Z → Z → Z → BF bool := BestFit.RemoveDeviceMem.
Definition Clear : bool → BF unit := BestFit.Clear.
Definition TotalMemStatistics : BestFitPool VecTable D → Z := BestFit.TotalMemStatistics.
Definition TotalUsedMemStatistics : BestFitPool VecTable D → Z := BestFit.TotalUsedMemStatistics.
Definition TotalIdleMemStatistics : BestFitPool VecTable D → Z := BestFit.TotalIdleMemStatistics.
Definition TotalEagerFreeMemStatistics : BestFitPool VecTable D → Z := BestFit.TotalEagerFreeMemStatistics.
Definition UsedMemPeakStatistics : BestFitPool VecTable D → Z := BestFit.UsedMemPeakStatistics.
Definition CmpMemBlock : Z → DynamicMemBlock → bool := BestFit.CmpMemBlock.
Definition FindMemBlock : Z → bool → BF (option ptr) := BestFit.FindMemBlock.
Definition SplitMemBuf : Z → ptr → bool → Z → BF unit := BestFit.SplitMemBuf.
Definition EraseMemBufByStatus : Z → Z → bool → DynamicMemBufStatus → Z → BF unit := BestFit.EraseMemBufByStatus.
Definition FreeIdleMemsByEagerFree : BF Z := BestFit.FreeIdleMemsByEagerFree.
Definition FindMemBufInSpecifiedMng : Z → bool → DynamicMemBufStatus → Z → BF Z := BestFit.FindMemBufInSpecifiedMng.
Definition FindMemBufByStatus : Z → bool → DynamicMemBufStatus → Z → BF Z := BestFit.FindMemBufByStatus.
Definition FindAvailableMemBuf : Z → bool → Z → BF Z := BestFit.FindAvailableMemBuf.
Definition CalMemBlockAllocSize : Z → bool → BF Z := BestFit.CalMemBlockAllocSize.
Definition CreateMemBlockAndMemBuf : Z → bool → Z → Z → DynamicMemBufStatus → Z → BF Z := BestFit.CreateMemBlockAndMemBuf.
Definition AddMemBlockAndMemBufByEagerFree : Z → bool → Z → BF Z := BestFit.AddMemBlockAndMemBufByEagerFree.
Definition AddMemBlockAndMemBuf : Z → bool → bool → Z → BF Z := BestFit.AddMemBlockAndMemBuf.
Definition AllocTensorMem : Z → bool → bool → Z → BF Z := BestFit.AllocTensorMem.
Definition AllocContinuousTensorMem : list Z → Z → BF (list Z) := BestFit.AllocContinuousTensorMem.
Definition FreeTensorMem : Z → BF unit := BestFit.FreeTensorMem.
Definition FindMemBufByKeepAddr : Z → ptr → BF (option ptr) := BestFit.FindMemBufByKeepAddr.
Definition FindByKeepAddr : Z → BF (option (ptr * ptr * bool)) := BestFit.FindByKeepAddr.
Definition KeepTensorMemByAddr : Z → Z → BF unit := BestFit.KeepTensorMemByAddr.
Definition FreePartTensorMems : list Z → list Z → list Z → BF unit := BestFit.FreePartTensorMems.
Definition ReleaseDeviceRes : BF unit := BestFit.ReleaseDeviceRes.
Definition dtor : BF unit := BestFit.dtor.
Definition new_pool : string * AllocatorType → D → BestFitPool VecTable D := BestFit.new_pool.
End ops.

(** ** Sizes *)

Lemma land_shiftl x m n : 0 <= n → Z.land x (Z.shiftl m n) = Z.shiftl (Z.land (Z.shiftr x n) m) n.
Proof.
  intros Hn. apply Z.bits_inj'. intros i Hi. rewrite Z.land_spec, !Z.shiftl_spec, Z.land_spec by lia.
  destruct (Z.ltb_spec i n).
  - rewrite (Z.testbit_neg_r m) by lia. rewrite (Z.testbit_neg_r (Z.shiftr x n)) by lia. by rewrite andb_false_r.
  - rewrite Z.shiftr_spec by lia. by replace (i - n + n) with i by lia.
Qed.

(** Rounding by masking is rounding by division. *)
Lemma AlignMemorySize_same size : AlignMemorySize size = BestFit.AlignMemorySize size.
Proof.
  unfold AlignMemorySize, BestFit.AlignMemorySize. destruct (Z.eqb_spec size 0) as [->|Hne]; [done|]. cbn [negb].
  set (x := _ -64 1). assert (0 <= x < w64) as Hx by apply u64_range. clearbody x.
  replace (u64 (Z.lnot (kDynamicMemAlignSize -64 1))) with (Z.shiftl (Z.ones 55) 9) by reflexivity.
  rewrite land_shiftl, Z.land_ones, Z.shiftl_mul_pow2, Z.shiftr_div_pow2 by lia.
  change (2 ^ 9) with 512. unfold kDynamicMemAlignSize, w64 in *.
  assert (0 <= x / 512 < 36028797018963968) as Hd by (split; [apply Z.div_pos; lia|apply Z.div_lt_upper_bound; lia]).
  rewrite Z.mod_small by (change (2 ^ 55) with 36028797018963968; lia).
  rewrite u64_small; [done|]. unfold w64. lia.
Qed.

#[export] Instance optimized_split_laws : SplitLaws (H := optimized_variant).
Proof.
  split; simpl.
  - intros size n Hs Hn Hsp. unfold IsSplit, min_tensor_size_ in Hsp. apply Z.leb_le in Hsp.
    rewrite u64_small in Hsp by lia. change (Z.shiftl 1 10) with 1024 in Hsp. lia.
  - intros size n Hs Hs63 Hn Hsp. unfold IsSplitNew in Hsp. apply Z.leb_le in Hsp.
    rewrite Z.shiftl_mul_pow2 in Hsp by lia. rewrite u64_small in Hsp; unfold w64; lia.
  - intros size Hs. rewrite AlignMemorySize_same. by apply AlignMemorySize_fits.
Qed.
End BestFitOpt.
