(* ===== verification/BestFitTheorems.v ===== *)
(** * Properties of the best-fit pool

    What a user of [DynamicMemPoolBestFit], and of its optimised version, can rely
    on, each with an instance on a concrete pool over the device of [BumpPool]. *)

From S2P Require Import Prelude EventBase MemBufHeap MemGeometry MemStat PoolDevice PoolInvariant OrdList StreamTable BestFitState BestFit BestFitAbs BestFitRep BestFitCombine BestFitSplit BestFitPool BestFitCreate BestFitTop BestFitClient BestFitOpt.
Import BestFitTypes BestFit.

(** ** A concrete pool *)

Module BestFitExample.
Import BumpPool.

Definition p0 : BestFitPool MapTable device := new_pool ("", kOther) 4096.

Abbreviation anywhere := (λ _ : Z, True).

Lemma p0_held : BumpPool.dev_ok (device_ p0) ∅.
Proof. split; [done|]. intros k a n Hk. by rewrite lookup_empty in Hk. Qed.

Lemma low : device_low (dev_ok := BumpPool.dev_ok).
Proof.
  intros d R j a n [Hd HR] Hj. destruct (HR _ _ _ Hj) as [_ Hle]. unfold capacity, device in *. lia.
Qed.

Lemma p0_refines : refines (stream_ok := anywhere) (dev_ok := BumpPool.dev_ok) p0 [].
Proof. eapply (new_pool_refines _ _ ∅); [apply p0_held|by right]. Qed.

(** The pool after requests for 1000 and 2000 bytes: two buffers in use at 4096 and
    5120, and the idle rest of the block. *)
Definition p1 : BestFitPool MapTable device := after (perform (AllocRequest 1000 false false 0)) p0.
Definition p2 : BestFitPool MapTable device := after (perform (AllocRequest 2000 false false 0)) p1.

Lemma wp_after {S A} (m : M S A) s (Q : A → S → Prop) : wp m s Q → ∃ a, m s = Ret a (after m s) ∧ Q a (after m s).
Proof. unfold wp, after. destruct (m s) as [a s'| |]; [by exists a|done|done]. Qed.

Lemma alloc_refines p size : (∃ U, refines (stream_ok := anywhere) (dev_ok := BumpPool.dev_ok) p U) → 0 <= size <= 2 ^ 62 →
  ∃ U, refines (stream_ok := anywhere) (dev_ok := BumpPool.dev_ok) (after (perform (AllocRequest size false false 0)) p) U.
Proof.
  intros [U Hp] Hs. assert (request_ok (stream_ok := anywhere) (reusable := True) U (AllocRequest size false false 0)) as Hq by done.
  destruct (wp_after _ _ _ (perform_refines p U _ low Hp Hq)) as (r & _ & U' & _ & Hp'). by exists U'.
Qed.

Lemma p1_refines : ∃ U n, refines (stream_ok := anywhere) (dev_ok := BumpPool.dev_ok) p1 U ∧ (4096, n) ∈ U.
Proof.
  assert (request_ok (stream_ok := anywhere) (reusable := True) [] (AllocRequest 1000 false false 0)) as Hq by (by repeat split).
  destruct (wp_after _ _ _ (perform_refines p0 [] _ low p0_refines Hq)) as (r & Hr & U' & Hs & Hp').
  assert (result (perform (AllocRequest 1000 false false 0)) p0 = Some 4096) as H4 by (vm_compute; reflexivity).
  unfold result in H4. rewrite Hr in H4. injection H4 as ->.
  inversion Hs as [? ? ? ? ? n lost ? _ _ _ _ Hp _| | |]; subst. exists U', n. split; [done|]. rewrite Hp. by left.
Qed.

Lemma p2_refines : ∃ U, refines (stream_ok := anywhere) (dev_ok := BumpPool.dev_ok) p2 U.
Proof. apply alloc_refines; [|lia]. apply alloc_refines; [|lia]. exists []. apply p0_refines. Qed.
End BestFitExample.

(** ** The contract *)

Section contract.
Context {T : Type → Type} `{StreamTable T} {D : Type} `{DeviceMem D} `{V : BestFitVariant}.
Context {stream_ok : Z → Prop} {reusable : Prop} `{!StreamTableLaws T stream_ok reusable}.
Context {dev_ok : D → gmap ptr (Z * Z) → Prop} `{!DeviceMemLaws D dev_ok} `{!SplitLaws}.
Implicit Types (p : BestFitPool T D) (A : astate).
Abbreviation rep := (rep (stream_ok := stream_ok) (dev_ok := dev_ok)).
Abbreviation refines := (refines (stream_ok := stream_ok) (reusable := reusable) (dev_ok := dev_ok)).
Abbreviation request_ok := (request_ok (stream_ok := stream_ok) (reusable := reusable)).
Abbreviation request_fits := (request_fits (stream_ok := stream_ok) (reusable := reusable)).
Abbreviation device_low := (device_low (dev_ok := dev_ok)).

(** C1: Every request to a best-fit pool (either version of the code, any
    device that keeps its contract) returns without undefined behaviour, and does
    what the contract [spec_step] on the list of ranges in use allows: an
    allocation returns null or a range of sufficient size apart from all ranges in
    use, a release takes exactly its range out of use, and eager free changes
    nothing that is in use. *)
Theorem pool_refines_contract p U q : device_low → refines p U → request_ok U q →
  wp (perform q) p (λ r p', ∃ U', spec_step U q r U' ∧ refines p' U').
Proof. apply perform_refines. Qed.

(** C3: From a new pool, no sequence of allocations, releases of memory the client
    holds, and eager frees meets undefined behaviour; what the client holds at the
    end is in use, and all the ranges in use are apart. *)
Theorem pool_serves_every_client debug d R l : device_low → dev_ok d R →
  (reusable ∧ constant_total (dev_ok := dev_ok)) ∨ (∀ d : D, IsEnableEagerFree d = false) →
  Forall request_fits l →
  wp (run l []) (new_pool debug d) (λ held p, ∃ U, refines p U ∧ all_apart U ∧ held ⊆ U.*1).
Proof.
  intros Hlow HR He Hl. pose proof (new_pool_refines (T := T) debug d R HR He) as Hp.
  eapply wp_mono; [apply (run_refines l _ [] []); try done|]. intros held p (U & HU & Hh).
  exists U. split_and!; [done|by eapply refines_apart|done].
Qed.


(** C39: The search in a manager hands out the smallest buffer of the stream and status that
    is large enough, cut to the size asked for when the rest is worth a buffer; it
    returns null, changing no buffer, only when every such buffer is too small. *)
Theorem search_is_best_fit A p size s st stream :
  rep A p → stream_ok stream → st ≠ kMemBufUsed → 0 < size →
  wp (FindMemBufInSpecifiedMng size s st stream) p (λ r p', keeps p p' ∧
    ((r = 0 ∧ rep A p' ∧ no_fit size A s stream st) ∨
     ∃ A', grant size (next_ p) A s stream st r A' ∧ rep A' p')).
Proof. apply FindMemBufInSpecifiedMng_spec. Qed.

(** Eager free leaves no idle buffer in either manager and the same ranges in
    use. *)
Theorem eager_free_empties_idle A p : rep A p → reusable →
  wp FreeIdleMemsByEagerFree p (λ _ p', ∃ A', rep A' p' ∧ used_ranges A' ≡ₚ used_ranges A ∧
    (∀ s, idle_cells A' s = []) ∧ ∀ s stream, contents stream (idle_mem_bufs_ (mem_mng s p')) = []).
Proof.
  intros Hr Hre. eapply wp_mono; [by apply bf_FreeIdleMemsByEagerFree_spec|].
  intros _ p' (A' & Hr' & _ & Hu & Hi). exists A'. split_and!; [done|done|done|]. intros s stream.
  pose proof (tab_perm _ _ _ (rp_idle _ _ Hr') s stream) as Hpe. cbn [status_table] in Hpe.
  rewrite (entries_idle_nil A' s stream (Hi s)) in Hpe. by apply Permutation_nil_r.
Qed.

(** C40: After any sequence of allocations, releases of memory the client holds, and eager
    frees from a new pool on a device in the lower half of the address space, the statistics of memory in use and of memory obtained
    are exact: the first is the sum of the sizes of the buffers whose status is in
    use, over the buffer maps of all blocks of both managers, the second the sum of
    the sizes of these blocks; neither has wrapped around, and the first never exceeds
    the second. *)
Theorem statistics_never_wrap debug d R l : device_low → dev_ok d R →
  (reusable ∧ constant_total (dev_ok := dev_ok)) ∨ (∀ d : D, IsEnableEagerFree d = false) →
  Forall request_fits l → wp (run l []) (new_pool debug d) (λ _ p,
    TotalUsedMemStatistics p = bytes_in_use p ∧ TotalMemStatistics p = bytes_obtained p ∧
    0 <= bytes_in_use p <= bytes_obtained p ∧ bytes_obtained p < 2 ^ 63).
Proof.
  intros Hlow HR He Hl. pose proof (new_pool_refines (T := T) debug d R HR He) as Hp.
  eapply wp_mono; [apply (run_refines l _ [] []); try done|]. intros held p (U & HU & Hh).
  destruct HU as [(A & Hr & _) _ _ _]. destruct (counted A p Hr) as (Hu & Ht & Hle).
  pose proof (total_low A p Hlow Hr) as Hlt. rewrite <- Hu, <- Ht. split_and!; try done; lia.
Qed.

(** Freeing an address where no buffer starts changes nothing. *)
Theorem unknown_address_ignored p U device_addr : refines p U →
  (∀ x b, bufs_ p !! x = Some b → device_addr_ b ≠ device_addr) →
  FreeTensorMem device_addr p = Ret () p.
Proof.
  intros [(A & Hr & _) Hm _ _] Hno. unfold FreeTensorMem, with_mutex, FreeTensorMemInner. rewrite Hm.
  assert (rep A (set_mutex true p)) as Hr' by (eapply rep_same_memory; [apply same_memory_mutex|done]).
  rewrite (CombineMemBuf_unknown A _ _ _ _ (rp_shape _ _ Hr') (rp_geo _ _ Hr')).
  - f_equal. destruct p. simpl in *. by rewrite Hm.
  - intros c (s & k & Hk & Hc)%elem_of_all_cells <-.
    destruct (sh_cell _ _ (rp_shape _ _ Hr) s k c Hk Hc) as (b & Hb & Ha & _). by eapply Hno.
Qed.

(** Memory that is allocated and freed again leaves the pool with exactly the ranges
    in use it had. *)
Theorem alloc_free_roundtrip p U size s stream : device_low → refines p U →
  request_fits (AllocRequest size s false stream) →
  wp (device_addr ← AllocTensorMem size s false stream;
      if device_addr =? 0 then mret () else FreeTensorMem device_addr) p (λ _ p', ∃ U', refines p' U' ∧ U' ≡ₚ U).
Proof.
  intros Hlow Hp Hq. wp_step.
  eapply wp_mono; [by apply (perform_refines p U (AllocRequest size s false stream))|].
  intros r p' (U' & Hs & Hp'). inversion Hs as [? ? ? ? ? n lost ? Hr0 _ _ Hl HU _|? ? ? ? lost ? _ Hl HU _| |]; subst.
  - destruct (Z.eqb_spec r 0); [lia|]. rewrite (Hl eq_refl) in HU. simpl in HU.
    destruct (rf_rep _ _ Hp') as (A' & Hr' & HA').
    eapply wp_mono; [apply (bf_FreeTensorMem_spec A' p' r n); [done|apply Hp'|rewrite HA', HU; by left]|].
    intros _ p'' [Hst (A'' & Hr'' & Hu)]. exists (used_ranges A''). split; [by eapply refines_step|].
    rewrite HA', HU in Hu. by apply Permutation_cons_inv in Hu.
  - simpl. wp_step. exists U'. split; [done|]. by rewrite (Hl eq_refl) in HU.
Qed.
End contract.

(** [ReleaseDeviceRes] frees the region of every block exactly once, and forgets all
    blocks and buffers; the statistics of both managers are left as they were. *)
Theorem release_returns_all {T : Type → Type} `{StreamTable T} {D} `{DeviceMem D} `{V : BestFitVariant}
    {stream_ok reusable} `{!StreamTableLaws T stream_ok reusable} {dev_ok} `{!DeviceMemLaws D dev_ok}
    A (p : BestFitPool T D) R :
  rep (stream_ok := stream_ok) (dev_ok := dev_ok) A p → mutex_ p = false →
  dev_ok (device_ p) R → (∀ s k, k ∈ A s → ∃ j, R !! j = Some (k_base k, k_size k)) →
  wp ReleaseDeviceRes p (λ _ p', ∃ js, Forall2 (held_at R) (A false ++ A true) js ∧
    dev_ok (device_ p') (foldr delete R js) ∧ mutex_ p' = false ∧ ∀ s, mem_mng s p' = cleared (mem_mng s p)).
Proof. apply bf_ReleaseDeviceRes_spec. Qed.

(** ** The two versions *)

(** Rounding a size up to 512 by masking bits, as the optimised version does, is
    rounding by division, for every size and with the same wrap-around. *)
Theorem masking_is_dividing size : BestFitOpt.AlignMemorySize size = BestFit.AlignMemorySize size.
Proof. apply BestFitOpt.AlignMemorySize_same. Qed.

(** The optimised [CombineMemBuf] and [CombineMemBufForward] do on every
    state what the other version does. *)
Theorem combine_versions_agree {D} (device_addr : Z) origin target (p : BestFitPool VecTable D) :
  BestFitOpt.CombineMemBuf device_addr origin target p =
  CombineMemBuf (H1 := BestFitOpt.optimized_variant) device_addr origin target p.
Proof. apply BestFitOpt.CombineMemBuf_same. Qed.

(** The optimised version indexes its vectors of streams unchecked: a request for a
    stream at or beyond their size, which is 128 at first and 0 after an eager free or a release,
    is undefined behaviour. *)
Theorem stream_beyond_vector {D} `{DeviceMem D} (p : BestFitPool VecTable D) size s need_recycle stream :
  Z.of_nat (length (idle_mem_bufs_ (mem_mng s p))) <= stream →
  BestFitOpt.AllocTensorMem size s need_recycle stream p = Undef.
Proof.
  intros Hs. assert (∀ q : BestFitPool VecTable D, idle_mem_bufs_ (mem_mng s q) = idle_mem_bufs_ (mem_mng s p) →
    ∀ n, BestFitOpt.FindMemBufInSpecifiedMng n s kMemBufIdle stream q = Undef) as Hfind.
  { intros q Hq n. unfold BestFitOpt.FindMemBufInSpecifiedMng, BestFit.FindMemBufInSpecifiedMng.
    unfold mbind, M_bind, gets. cbn [status_table]. rewrite Hq. unfold table_get, vec_stream_table, vec_index.
    destruct (Z.ltb_spec stream 0); [done|]. unfold VecTable in *. by rewrite lookup_ge_None_2 by lia. }
  unfold BestFitOpt.AllocTensorMem, BestFit.AllocTensorMem, with_mutex. cbn [locks_alloc BestFitOpt.optimized_variant].
  destruct (mutex_ p); [done|]. unfold FindAvailableMemBuf, FindMemBufByStatus.
  specialize (Hfind (set_mutex true p) ltac:(by destruct s)). unfold BestFitOpt.FindMemBufInSpecifiedMng in Hfind.
  cbn [rewrites_stream andb]. unfold mbind, M_bind. by rewrite Hfind.
Qed.

(** ** Contiguous requests *)

(** The total of a contiguous request is the sum of its sizes as long as that stays
    below 2^31. *)
Theorem accumulate_small size_list :
  Forall (λ n, 0 <= n) size_list → foldr Z.add 0 size_list < 2 ^ 31 → accumulate size_list = foldr Z.add 0 size_list.
Proof.
  intros Hn Hs. unfold accumulate.
  assert (∀ l a, Forall (λ n, 0 <= n) l → 0 <= a → a + foldr Z.add 0 l < 2 ^ 31 →
    foldl (λ init size, to_int32 (u64 init +64 size)) a l = a + foldr Z.add 0 l ∧ 0 <= foldr Z.add 0 l) as Hfold.
  { clear. induction l as [|n l IH]; intros a Hl Ha Hs; simpl in *; [lia|]. apply Forall_cons in Hl as [Hn Hl].
    assert (0 <= foldr Z.add 0 l) as Hp by (clear -Hl; induction Hl; simpl; lia).
    assert (to_int32 (u64 a +64 n) = a + n) as ->.
    { rewrite u64_add_l, u64_small by (unfold w64; lia). unfold to_int32. rewrite Z.mod_small by (unfold w32; lia).
      destruct (Z.ltb_spec (a + n) 2147483648); lia. }
    destruct (IH (a + n) Hl ltac:(lia) ltac:(lia)) as [-> _]. lia. }
  destruct (Hfold size_list 0 Hn ltac:(done) Hs) as [-> Hp]. rewrite Z.add_0_l, u64_small; [done|]. unfold w64. lia.
Qed.

(** Beyond that the [int] the sum starts from cuts it: two parts of 2 GB and 2 GB need
    no memory at all. *)
Theorem accumulate_truncates : accumulate [2147483648; 2147483648] = 0.
Proof. reflexivity. Qed.

(** ** Instances *)

Module BestFitWitnesses.
Import BumpPool BestFitExample.

Lemma pool_refines_contract_witness :
  wp (perform (AllocRequest 1000 false false 0)) p0 (λ r p', ∃ U',
    spec_step [] (AllocRequest 1000 false false 0) r U' ∧
    refines (stream_ok := anywhere) (dev_ok := BumpPool.dev_ok) p' U').
Proof. by apply (pool_refines_contract p0 []); [apply low|apply p0_refines|]. Defined.

Definition requests : list request :=
  [AllocRequest 1000 false false 0; AllocRequest 2000 true false 3; FreeRequest 4096; IdleRequest;
   AllocRequest 100 true true UINT32_MAX].

Lemma requests_fit : Forall (request_fits (stream_ok := anywhere) (reusable := True)) requests.
Proof. repeat constructor; done || lia. Qed.

Lemma pool_serves_every_client_witness :
  wp (run requests []) p0 (λ held p, ∃ U,
    refines (stream_ok := anywhere) (dev_ok := BumpPool.dev_ok) p U ∧ all_apart U ∧ held ⊆ U.*1).
Proof. by apply (pool_serves_every_client _ _ ∅); [apply low|apply p0_held|right|apply requests_fit]. Defined.


Lemma search_is_best_fit_witness : ∃ A,
  rep (stream_ok := anywhere) (dev_ok := BumpPool.dev_ok) A p2 ∧
  wp (FindMemBufInSpecifiedMng 512 false kMemBufIdle 0) p2 (λ r p', keeps p2 p' ∧
    ((r = 0 ∧ rep (stream_ok := anywhere) (dev_ok := BumpPool.dev_ok) A p' ∧ no_fit 512 A false 0 kMemBufIdle) ∨
     ∃ A', grant 512 (next_ p2) A false 0 kMemBufIdle r A' ∧ rep (stream_ok := anywhere) (dev_ok := BumpPool.dev_ok) A' p')).
Proof.
  destruct p2_refines as [U [(A & Hr & _) _ _ _]]. exists A. split; [exact Hr|].
  by apply (search_is_best_fit A p2).
Defined.

Lemma eager_free_empties_idle_witness : ∃ A,
  wp FreeIdleMemsByEagerFree p2 (λ _ p', ∃ A', rep (stream_ok := anywhere) (dev_ok := BumpPool.dev_ok) A' p' ∧
    used_ranges A' ≡ₚ used_ranges A ∧ (∀ s, idle_cells A' s = []) ∧
    ∀ s stream, contents (stream_ok := anywhere) stream (idle_mem_bufs_ (mem_mng s p')) = []).
Proof.
  destruct p2_refines as [U [(A & Hr & _) _ _ _]]. exists A. by apply (eager_free_empties_idle A p2).
Defined.

Lemma statistics_never_wrap_witness :
  wp (run requests []) p0 (λ _ p, TotalUsedMemStatistics p = bytes_in_use p ∧
    TotalMemStatistics p = bytes_obtained p ∧ 0 <= bytes_in_use p <= bytes_obtained p ∧ bytes_obtained p < 2 ^ 63).
Proof.
  by apply (statistics_never_wrap (stream_ok := anywhere) (dev_ok := BumpPool.dev_ok) _ _ ∅);
    [apply low|apply p0_held|right|apply requests_fit].
Defined.

(** What the statistics say at the end: 2560 bytes in use, in three blocks of a gigabyte. *)
Example requests_counted : wp (run requests []) p0 (λ _ p,
  (TotalUsedMemStatistics p, bytes_in_use p, TotalMemStatistics p, bytes_obtained p) = (2560, 2560, 3221225472, 3221225472)).
Proof. vm_compute. reflexivity. Qed.

Lemma unknown_address_ignored_witness : FreeTensorMem 999 p0 = Ret () p0.
Proof.
  apply (unknown_address_ignored (stream_ok := anywhere) (dev_ok := BumpPool.dev_ok) p0 []); [apply p0_refines|]. intros x b Hb.
  change (bufs_ p0) with (∅ : gmap ptr DynamicMemBuf) in Hb. by rewrite lookup_empty in Hb.
Defined.

Lemma alloc_free_roundtrip_witness :
  wp (device_addr ← AllocTensorMem 1000 false false 0;
      if device_addr =? 0 then mret () else FreeTensorMem device_addr) p0 (λ _ p', ∃ U',
    refines (stream_ok := anywhere) (dev_ok := BumpPool.dev_ok) p' U' ∧ U' ≡ₚ []).
Proof. by apply (alloc_free_roundtrip p0 []); [apply low|apply p0_refines|]. Defined.

Lemma release_returns_all_witness : ∃ A R,
  wp ReleaseDeviceRes p2 (λ _ p', ∃ js, Forall2 (held_at R) (A false ++ A true) js ∧
    BumpPool.dev_ok (device_ p') (foldr delete R js) ∧ mutex_ p' = false ∧ ∀ s, mem_mng s p' = cleared (mem_mng s p2)).
Proof.
  destruct p2_refines as [U [(A & Hr & _) Hm _ _]]. destruct (co_device _ _ (rp_core _ _ Hr)) as (R & HR & HRk).
  exists A, R. exact (release_returns_all A p2 R Hr Hm HR HRk).
Defined.

Definition q0 : BestFitPool VecTable device := BestFitOpt.new_pool ("", kOther) 4096.

Lemma stream_beyond_vector_witness : BestFitOpt.AllocTensorMem 1000 false false 128 q0 = Undef.
Proof. apply (stream_beyond_vector q0). vm_compute. discriminate. Defined.

Lemma accumulate_small_witness : accumulate [1000; 2000; 3000] = 6000.
Proof. apply (accumulate_small [1000; 2000; 3000]); [repeat constructor; lia|done]. Defined.
End BestFitWitnesses.
