(* ===== verification/NetBytes.v ===== *)
(** * Bytes, words in memory and strings

    What the network code uses of memory and [std::string]: byte strings, 32-bit
    words in the memory of a little-endian host, [htonl], [find] and [substr]. *)

From Stdlib Require Export Strings.Byte.
From S2P Require Import Prelude.

#[export] Instance byte_eq_dec : EqDecision byte := Byte.byte_eq_dec.
Definition bytes : Type := list byte.

Definition Z_of_byte (b : byte) : Z := Z.of_N (Byte.to_N b).
Definition byte_of_Z (z : Z) : byte := default x00 (Byte.of_N (Z.to_N (z mod 256))).

Lemma Z_of_byte_range b : 0 <= Z_of_byte b < 256.
Proof.
  unfold Z_of_byte. assert (Byte.to_N b <= 255)%N by apply Byte.to_N_bounded. lia.
Qed.

Lemma Z_of_byte_of_Z z : Z_of_byte (byte_of_Z z) = z mod 256.
Proof.
  unfold byte_of_Z, Z_of_byte.
  assert (0 <= z mod 256 < 256) by (apply Z.mod_pos_bound; lia).
  destruct (Byte.of_N (Z.to_N (z mod 256))) as [b|] eqn:Hb; simpl.
  - apply Byte.to_of_N in Hb. rewrite Hb. lia.
  - apply Byte.of_N_None_iff in Hb. lia.
Qed.

Lemma byte_of_Z_of_byte b : byte_of_Z (Z_of_byte b) = b.
Proof.
  unfold byte_of_Z. rewrite Z.mod_small by apply Z_of_byte_range.
  unfold Z_of_byte. rewrite N2Z.id, Byte.of_to_N. done.
Qed.

(** ** Words in memory *)

(** The [n] bytes of a word, least significant first. *)
Fixpoint le_split (n : nat) (z : Z) : bytes :=
  match n with
  | O => []
  | S n => byte_of_Z z :: le_split n (z / 256)
  end.

(** The word that the bytes at an address hold on a little-endian host. *)
Fixpoint le_combine (bs : bytes) : Z :=
  match bs with
  | [] => 0
  | b :: bs => Z_of_byte b + 256 * le_combine bs
  end.

Lemma length_le_split n z : length (le_split n z) = n.
Proof. revert z. induction n; intros; simpl; auto. Qed.

Lemma le_combine_split n z : le_combine (le_split n z) = z mod 256 ^ Z.of_nat n.
Proof.
  revert z. induction n as [|n IH]; intros z; cbn [le_split le_combine].
  - by rewrite Z.mod_1_r.
  - rewrite IH, Z_of_byte_of_Z.
    replace (256 ^ Z.of_nat (S n)) with (256 * 256 ^ Z.of_nat n)
      by (rewrite Nat2Z.inj_succ, Z.pow_succ_r; lia).
    rewrite Z.rem_mul_r by lia. done.
Qed.

Lemma le_split_combine bs : le_split (length bs) (le_combine bs) = bs.
Proof.
  induction bs as [|b bs IH]; [done|]. cbn [length le_split le_combine].
  pose proof (Z_of_byte_range b). f_equal.
  - rewrite <- (byte_of_Z_of_byte b) at 2. unfold byte_of_Z.
    rewrite (Z.mul_comm 256), Z.mod_add by lia. done.
  - rewrite (Z.mul_comm 256), Z.div_add, Z.div_small, Z.add_0_l by lia. done.
Qed.

(** [uint32_t] in memory, and [htonl]/[ntohl] on a little-endian host: the word
    whose bytes are those of the argument in the opposite order. *)
Definition word_bytes (z : Z) : bytes := le_split 4 z.
Definition htonl (z : Z) : Z := le_combine (rev (le_split 4 z)).
Definition ntohl (z : Z) : Z := htonl z.

Lemma le_combine_range bs : 0 <= le_combine bs < 256 ^ Z.of_nat (length bs).
Proof.
  induction bs as [|b bs IH]; cbn [length le_combine]; [lia|].
  rewrite Nat2Z.inj_succ, Z.pow_succ_r by lia. pose proof (Z_of_byte_range b). lia.
Qed.

Lemma word_bytes_htonl z : word_bytes (htonl z) = rev (word_bytes z).
Proof.
  unfold word_bytes, htonl.
  replace 4%nat with (length (rev (le_split 4 z))) at 1
    by (rewrite length_rev; apply length_le_split).
  apply le_split_combine.
Qed.

Lemma ntohl_htonl z : 0 <= z < w32 → ntohl (htonl z) = z.
Proof.
  intros Hz. unfold ntohl at 1, htonl at 1. fold (word_bytes (htonl z)).
  rewrite word_bytes_htonl, rev_involutive. unfold word_bytes.
  rewrite le_combine_split. apply Z.mod_small, Hz.
Qed.

Lemma htonl_range z : 0 <= htonl z < w32.
Proof.
  unfold htonl.
  pose proof (le_combine_range (rev (le_split 4 z))) as Hr.
  by rewrite length_rev, length_le_split in Hr.
Qed.

Lemma length_word_bytes z : length (word_bytes z) = 4%nat.
Proof. apply length_le_split. Qed.

Lemma le_combine_word z : 0 <= z < w32 → le_combine (word_bytes z) = z.
Proof. intros. unfold word_bytes. rewrite le_combine_split. by apply Z.mod_small. Qed.

(** ** Memory regions *)

(** [s.resize(n)]: cut, or extended with zero bytes. *)
Definition resize (n : Z) (s : bytes) : bytes :=
  take (Z.to_nat n) s ++ replicate (Z.to_nat n - length s) x00.

(** Write [bs] at offset [off] of a region; [None] outside of it. *)
Definition write_at (off : Z) (bs : bytes) (s : bytes) : option bytes :=
  if (0 <=? off) && (off + Z.of_nat (length bs) <=? Z.of_nat (length s)) then
    Some (take (Z.to_nat off) s ++ bs ++ drop (Z.to_nat off + length bs) s)
  else None.

(** Read [n] bytes at offset [off]; [None] outside the region. *)
Definition read_at (off n : Z) (s : bytes) : option bytes :=
  if (0 <=? off) && (0 <=? n) && (off + n <=? Z.of_nat (length s)) then
    Some (take (Z.to_nat n) (drop (Z.to_nat off) s))
  else None.

Definition size (s : bytes) : Z := Z.of_nat (length s).

Lemma size_app a b : size (a ++ b) = size a + size b.
Proof. unfold size. rewrite length_app. lia. Qed.

Lemma size_nil : size [] = 0.
Proof. done. Qed.

Lemma size_cons b s : size (b :: s) = 1 + size s.
Proof. unfold size. simpl. lia. Qed.

Lemma size_nonneg s : 0 <= size s.
Proof. unfold size. lia. Qed.
Create HintDb net.
#[export] Hint Resolve size_nonneg Z_of_byte_range : net.

Lemma size_resize n s : 0 <= n → size (resize n s) = n.
Proof.
  intros. unfold size, resize. rewrite length_app, length_take, length_replicate. lia.
Qed.

Lemma size_take n s : 0 <= n <= size s → size (take (Z.to_nat n) s) = n.
Proof. unfold size. intros. rewrite length_take. lia. Qed.

Lemma size_drop n s : 0 <= n <= size s → size (drop (Z.to_nat n) s) = size s - n.
Proof. unfold size. intros. rewrite length_drop. lia. Qed.

Lemma size_nil_inv s : size s = 0 → s = [].
Proof. unfold size. destruct s; simpl; [done|lia]. Qed.

(** Writing after what is already there. *)
Lemma write_at_size off bs s s' : write_at off bs s = Some s' → size s' = size s.
Proof.
  unfold write_at, size. intros Hw. case_match eqn:Hb; [|done].
  apply andb_prop in Hb as [H1 H2]. bool_to_Z. injection Hw as <-.
  rewrite !length_app, length_take, length_drop. lia.
Qed.

Lemma write_at_ok off bs s : 0 <= off → off + size bs <= size s →
  ∃ s', write_at off bs s = Some s' ∧ size s' = size s ∧
    take (Z.to_nat (off + size bs)) s' = take (Z.to_nat off) s ++ bs.
Proof.
  intros Ho Hs. unfold write_at, size in *.
  rewrite (proj2 (Z.leb_le _ _) Ho), (proj2 (Z.leb_le _ _) Hs). simpl.
  eexists. split; [done|].
  rewrite !length_app, length_take, length_drop. split; [lia|].
  rewrite app_assoc, take_app_le by (rewrite length_app, length_take; lia).
  apply take_ge. rewrite length_app, length_take. lia.
Qed.

(** ** [std::string::find] of a character and [substr] *)

Definition npos : Z := w64 - 1.

(** Position of the first occurrence of [c]. *)
Fixpoint index_of (c : byte) (s : bytes) : option nat :=
  match s with
  | [] => None
  | b :: s => if Byte.eqb b c then Some O else S <$> index_of c s
  end.
Definition find (c : byte) (s : bytes) : Z := from_option Z.of_nat npos (index_of c s).

(** [s.substr(pos, n)]; [None] where the code throws [std::out_of_range]. *)
Definition substr (s : bytes) (pos n : Z) : option bytes :=
  if pos <=? size s then Some (take (Z.to_nat (n `min` size s)) (drop (Z.to_nat pos) s))
  else None.

Lemma byte_eqb_eq a b : Byte.eqb a b = true ↔ a = b.
Proof. split; [apply Byte.byte_dec_bl | apply Byte.byte_dec_lb]. Qed.

Lemma index_of_app c a b : c ∉ a → index_of c (a ++ c :: b) = Some (length a).
Proof.
  induction a as [|x a IH]; intros Hc; cbn [app index_of length].
  - by rewrite (proj2 (byte_eqb_eq c c) eq_refl).
  - rewrite not_elem_of_cons in Hc. destruct Hc as [Hx Ha].
    destruct (Byte.eqb x c) eqn:He; [by apply byte_eqb_eq in He|].
    rewrite IH by done. done.
Qed.

Lemma find_app c a b : c ∉ a → find c (a ++ c :: b) = size a.
Proof. intros. unfold find. by rewrite index_of_app. Qed.
