(* ===== verification/NetMessage.v ===== *)
(** * Messages and their frames

    [AID], [MessageBase] and [MessageHeader] of net/include/{aid,msg,constants}.h,
    what they look like in memory, and the frame that a message becomes on the
    wire: header, name, receiver, sender and body. *)

From S2P Require Import Prelude NetBytes.

(** [AID]: the name of an actor and the url of its process. Its [SetUnfixUrl],
    which every constructor calls, and its assignment are defined outside of the
    repository: together they are the parameter [normalise_aid] of [NetEnv]. *)
Record AID := MkAID { aid_name : bytes; aid_url : bytes }.
#[export] Instance AID_eq_dec : EqDecision AID.
Proof. solve_decision. Defined.

Class NetEnv := {
  normalise_aid : AID → AID;
  URL_PROTOCOL_IP_SEPARATOR : bytes;   (** also defined elsewhere *)
}.

Definition at_sign : byte := x40.

(** [operator std::string]: name, "@", url. *)
Definition aid_string (a : AID) : bytes := aid_name a ++ at_sign :: aid_url a.

(** [MessageBase::Type]. *)
Inductive MsgType := KMSG | KUDP | KHTTP | KASYNC | KLOCAL | KEXIT | KTERMINATE.
#[export] Instance MsgType_eq_dec : EqDecision MsgType.
Proof. solve_decision. Defined.

(** [data] is the memory the pointer refers to, [None] for a null pointer. *)
Record MessageBase := MkMessage {
  msg_from : AID;
  msg_to : AID;
  msg_name : bytes;
  msg_body : bytes;
  msg_data : option bytes;
  msg_size : Z;
  msg_type : MsgType;
  msg_func_id : Z;
}.

(** [MessageBase()]. *)
Definition new_message : MessageBase :=
  MkMessage (MkAID [] []) (MkAID [] []) [] [] None 0 KMSG 0.

(** ** Header *)

Definition RPC_MAGICID : bytes := [x52; x50; x43; x30].
Definition MAX_KMSG_FROM_LEN : Z := 1024.
Definition MAX_KMSG_TO_LEN : Z := 1024.
Definition MAX_KMSG_NAME_LEN : Z := 1024.
Definition MAX_KMSG_BODY_LEN : Z := 1073741824.

Record MessageHeader := MkHeader {
  magic : bytes;
  name_len : Z;
  to_len : Z;
  from_len : Z;
  body_len : Z;
}.

Definition new_header : MessageHeader := MkHeader RPC_MAGICID 0 0 0 0.
Definition header_size : Z := 20.

(** The object representation of a header, and the header a memory image holds. *)
Definition header_image (h : MessageHeader) : bytes :=
  magic h ++ word_bytes (name_len h) ++ word_bytes (to_len h) ++
  word_bytes (from_len h) ++ word_bytes (body_len h).

Definition field_at (off : nat) (image : bytes) : Z := le_combine (take 4 (drop off image)).

Definition header_of_image (image : bytes) : MessageHeader :=
  MkHeader (take 4 image) (field_at 4 image) (field_at 8 image)
           (field_at 12 image) (field_at 16 image).

(** [FillMessageHeader]. *)
Definition FillMessageHeader (message : MessageBase) (header : MessageHeader) : MessageHeader :=
  let send_to := aid_string (msg_to message) in
  let send_from := aid_string (msg_from message) in
  MkHeader (magic header)
    (htonl (u32 (size (msg_name message))))
    (htonl (u32 (size send_to)))
    (htonl (u32 (size send_from)))
    (match msg_data message with
     | Some _ => htonl (u32 (msg_size message))
     | None => htonl (u32 (size (msg_body message)))
     end).

(** [Connection::ReorderHeader]. *)
Definition ReorderHeader (h : MessageHeader) : MessageHeader :=
  MkHeader (magic h) (ntohl (name_len h)) (ntohl (to_len h))
           (ntohl (from_len h)) (ntohl (body_len h)).

(** [GetMessageSize]. *)
Definition GetMessageSize (message : MessageBase) : Z :=
  let send_to := aid_string (msg_to message) in
  let send_from := aid_string (msg_from message) in
  u64 (size (msg_name message) + size send_to + size send_from +
       size (msg_body message) + header_size).

(** [strncmp(a, b, n) == 0]: the comparison ends at the end of a string. *)
Fixpoint strncmp_eq (n : nat) (a b : bytes) : bool :=
  match n, a, b with
  | O, _, _ => true
  | S n, x :: a, y :: b =>
      if Byte.eqb x y then if Byte.eqb x x00 then true else strncmp_eq n a b else false
  | S _, [], [] => true
  | S _, _, _ => false
  end.

(** ** Frames *)

(** What [GetMessageBaseRealData] and [GetMessageBaseRealDataSize] select. *)
Definition real_data (m : MessageBase) : bytes :=
  match msg_data m with
  | Some mem => take (Z.to_nat (msg_size m)) mem
  | None => msg_body m
  end.

Definition real_size (m : MessageBase) : Z :=
  match msg_data m with Some _ => msg_size m | None => size (msg_body m) end.

Definition payload (m : MessageBase) : bytes :=
  msg_name m ++ aid_string (msg_to m) ++ aid_string (msg_from m) ++ real_data m.

Definition frame (m : MessageBase) : bytes :=
  header_image (FillMessageHeader m new_header) ++ payload m.

(** The memory behind [data] is as large as [size] says. *)
Definition data_ok (m : MessageBase) : Prop :=
  match msg_data m with Some mem => 0 <= msg_size m <= size mem | None => True end.

(** A message whose frame the receiver accepts: its parts are within the limits. *)
Record sendable (m : MessageBase) : Prop := {
  sendable_type : msg_type m = KMSG;
  sendable_data : data_ok m;
  sendable_name : size (msg_name m) <= MAX_KMSG_NAME_LEN;
  sendable_to : size (aid_string (msg_to m)) <= MAX_KMSG_TO_LEN;
  sendable_from : size (aid_string (msg_from m)) <= MAX_KMSG_FROM_LEN;
  sendable_body : real_size m <= MAX_KMSG_BODY_LEN;
}.

(** ** The header survives the wire *)

Lemma header_of_image_image h :
  length (magic h) = 4%nat → 0 <= name_len h < w32 → 0 <= to_len h < w32 →
  0 <= from_len h < w32 → 0 <= body_len h < w32 →
  header_of_image (header_image h) = h.
Proof.
  intros Hm Hn Ht Hf Hb. destruct h as [m n t f b]. simpl in *.
  do 4 (destruct m as [|? m]; [done|]). destruct m; [|done].
  unfold header_of_image, header_image, field_at. simpl.
  f_equal; apply le_combine_word; done.
Qed.

Lemma length_header_image h : length (magic h) = 4%nat → length (header_image h) = 20%nat.
Proof.
  intros Hm. unfold header_image. rewrite !length_app, !length_word_bytes, Hm. done.
Qed.

Lemma real_size_data m : data_ok m → size (real_data m) = real_size m.
Proof.
  unfold data_ok, real_data, real_size. destruct (msg_data m); [|done]. apply size_take.
Qed.

Lemma real_size_nonneg m : data_ok m → 0 <= real_size m.
Proof. intros. rewrite <- real_size_data by done. apply size_nonneg. Qed.

Lemma sent_header_lengths m : sendable m →
  ReorderHeader (header_of_image (header_image (FillMessageHeader m new_header))) =
  MkHeader RPC_MAGICID (size (msg_name m)) (size (aid_string (msg_to m)))
           (size (aid_string (msg_from m))) (real_size m).
Proof.
  intros [_ Hd Hn Ht Hf Hb].
  pose proof (real_size_nonneg m Hd) as Hr.
  unfold MAX_KMSG_NAME_LEN, MAX_KMSG_TO_LEN, MAX_KMSG_FROM_LEN, MAX_KMSG_BODY_LEN in *.
  pose proof (size_nonneg (msg_name m)). pose proof (size_nonneg (aid_string (msg_to m))).
  pose proof (size_nonneg (aid_string (msg_from m))).
  assert (∀ z, 0 <= z <= 1073741824 → ntohl (htonl (u32 z)) = z) as Hw.
  { intros z Hz. rewrite u32_small by (unfold w32; lia). apply ntohl_htonl. unfold w32. lia. }
  assert (body_len (FillMessageHeader m new_header) = htonl (u32 (real_size m))) as Hbody.
  { unfold FillMessageHeader, real_size. simpl. by destruct (msg_data m). }
  rewrite header_of_image_image;
    [|done|apply htonl_range|apply htonl_range|apply htonl_range|rewrite Hbody; apply htonl_range].
  unfold ReorderHeader. rewrite Hbody. simpl. f_equal; apply Hw; lia.
Qed.

Lemma magic_equal bs :
  strncmp_eq 4 bs RPC_MAGICID = true ↔ take 4 bs = RPC_MAGICID.
Proof.
  unfold RPC_MAGICID.
  destruct bs as [|a [|b [|c [|d bs]]]]; cbn [strncmp_eq take];
    repeat case_match; rewrite ?byte_eqb_eq in *; subst; split; intros; simplify_eq; try done.
  all: repeat match goal with H : Byte.eqb _ _ = false |- _ =>
    apply not_true_iff_false in H; rewrite byte_eqb_eq in H end; congruence.
Qed.

#[global] Arguments strncmp_eq : simpl never.

Lemma payload_size m : data_ok m →
  size (payload m) = size (msg_name m) + size (aid_string (msg_to m)) +
                     size (aid_string (msg_from m)) + real_size m.
Proof. intros. unfold payload. rewrite !size_app, real_size_data by done. lia. Qed.

(** Splitting [to_string()] at the first separator. *)
Lemma find_aid_string a : at_sign ∉ aid_name a →
  find at_sign (aid_string a) = size (aid_name a).
Proof. apply find_app. Qed.

Lemma substr_before a : substr (aid_string a) 0 (size (aid_name a)) = Some (aid_name a).
Proof.
  unfold substr. pose proof (size_nonneg (aid_string a)).
  rewrite (proj2 (Z.leb_le _ _)) by done. rewrite drop_0. f_equal.
  unfold aid_string. rewrite size_app.
  rewrite Z.min_l by (pose proof (size_nonneg (at_sign :: aid_url a)); lia).
  unfold size. rewrite Nat2Z.id. apply take_app_length.
Qed.

Lemma substr_after a : size (aid_string a) < npos →
  substr (aid_string a) (u64 (size (aid_name a) + 1)) npos = Some (aid_url a).
Proof.
  intros Hs. unfold aid_string in *. rewrite size_app in Hs.
  assert (size (at_sign :: aid_url a) = 1 + size (aid_url a)) as Hc by (unfold size; simpl; lia).
  rewrite Hc in Hs. unfold npos in *.
  pose proof (size_nonneg (aid_name a)). pose proof (size_nonneg (aid_url a)).
  rewrite u64_small by lia. unfold substr. rewrite size_app, Hc.
  rewrite (proj2 (Z.leb_le _ _)) by lia. f_equal.
  rewrite Z.min_r by (unfold w64 in *; lia).
  replace (Z.to_nat (size (aid_name a) + 1)) with (S (length (aid_name a)))
    by (unfold size; lia).
  rewrite drop_app_ge by lia. rewrite Nat.sub_succ_l, Nat.sub_diag by lia. simpl.
  rewrite drop_0. apply take_ge. unfold size. lia.
Qed.
