(* ===== verification/NetState.v ===== *)
(** * Connections: state

    [Connection] of net/include/connection.h and what surrounds it: the memory
    regions that [iovec]s point to, the kernel's side of a socket and the effects
    that leave the connection. *)

From S2P Require Import Prelude NetBytes NetMessage.

Definition RPC_OK : Z := 0.
Definition RPC_ERROR : Z := -1.
Definition IO_RW_OK : Z := 1.
Definition IO_RW_ERROR : Z := -1.
Definition SENDMSG_QUEUELEN : Z := 1024.

Inductive ParseType := kTcpMsg | kHttpReq | kHttpRsp | kUnknown.
Inductive State := kMsgHeader | kBody.
Inductive ConnectionState := kInit | kConnecting | kConnected | kDisconnecting | kClose.
#[export] Instance ParseType_eq_dec : EqDecision ParseType. Proof. solve_decision. Defined.
#[export] Instance State_eq_dec : EqDecision State. Proof. solve_decision. Defined.
#[export] Instance ConnectionState_eq_dec : EqDecision ConnectionState.
Proof. solve_decision. Defined.

(** ** Scatter and gather vectors *)

(** The objects an [iovec] can point into. *)
Inductive region :=
| RecvHeader | RecvName | RecvTo | RecvFrom | RecvBody | RecvData
| SendHeader | SendName | SendTo | SendFrom | SendBody | SendData.
#[export] Instance region_eq_dec : EqDecision region. Proof. solve_decision. Defined.

(** [iov_base] is an object and an offset into it, [None] for a null pointer. *)
Record iovec := MkIovec { iov_base : option (region * Z); iov_len : Z }.

(** [msg_iov] is an index into the vector of the connection. *)
Record msghdr := MkMsghdr { msg_iov : nat; msg_iovlen : Z }.

(** ** Metrics *)

Record SendMetrics := MkMetrics {
  accum_msg_count : Z;
  max_msg_size : Z;
  metrics_error_code : Z;
  last_succ_msg_name : bytes;
  last_fail_msg_name : bytes;
  last_send_msg_name : bytes;
}.

Definition new_metrics : SendMetrics := MkMetrics 0 0 0 [] [] [].

Definition UpdateMax (size : Z) (m : SendMetrics) : SendMetrics :=
  MkMetrics (accum_msg_count m +64 1)
    (if max_msg_size m <? size then size else max_msg_size m)
    (metrics_error_code m) (last_succ_msg_name m) (last_fail_msg_name m)
    (last_send_msg_name m).

Definition UpdateError (fail : bool) (err : Z) (m : SendMetrics) : SendMetrics :=
  if fail then
    MkMetrics (accum_msg_count m) (max_msg_size m) err
      (last_succ_msg_name m) (last_send_msg_name m) (last_send_msg_name m)
  else
    MkMetrics (accum_msg_count m) (max_msg_size m) (metrics_error_code m)
      (last_send_msg_name m) (last_fail_msg_name m) (last_send_msg_name m).

Definition Reset (m : SendMetrics) : SendMetrics := MkMetrics 0 0 0 [] [] [].

Definition set_last_send_name (name : bytes) (m : SendMetrics) : SendMetrics :=
  MkMetrics (accum_msg_count m) (max_msg_size m) (metrics_error_code m)
    (last_succ_msg_name m) (last_fail_msg_name m) name.

(** ** Connections *)

(** [MessageHandler] may depend on the messages it has seen; its result is the
    reply, if any. *)
Definition MessageHandler : Type := list MessageBase → MessageBase → option MessageBase.
(** [MemAllocateCallback]: the memory for a body of the given size, or null. *)
Definition MemAllocateCallback : Type := Z → option bytes.
(** [MemFreeCallback]: whether the memory could be freed. *)
Definition MemFreeCallback : Type := bytes → bool.

Record Connection := MkConnection {
  source : bytes;
  conn_state : ConnectionState;
  send_metrics : option SendMetrics;
  send_message : option MessageBase;
  recv_message : option MessageBase;
  recv_state : State;
  total_recv_len : Z;
  total_send_len : Z;
  recv_len : Z;
  send_to : bytes;
  send_from : bytes;
  recv_to : bytes;
  recv_from : bytes;
  send_msg_header : MessageHeader;
  recv_msg_header : bytes;           (** the memory of the header *)
  send_kernel_msg : msghdr;
  recv_kernel_msg : msghdr;
  send_io_vec : list iovec;
  recv_io_vec : list iovec;
  recv_message_type : ParseType;
  message_handler : option MessageHandler;
  send_message_queue : list (option MessageBase);
  output_buffer_size : Z;
  error_code : Z;
  allocate_cb_ : option MemAllocateCallback;
  free_cb_ : option MemFreeCallback;
  advertise_addr_ : bytes;
}.

Definition null_iovec : iovec := MkIovec None 0.

(** [Connection::Connection()]; the io vectors start uninitialised. *)
Definition new_connection : Connection :=
  MkConnection [] kInit (Some new_metrics) None None kMsgHeader 0 0 0 [] [] [] []
    new_header (header_image new_header) (MkMsghdr 0 5) (MkMsghdr 0 4)
    (replicate 5 null_iovec) (replicate 4 null_iovec)
    kTcpMsg None [] 0 0 None None [].

(** Assignments to a member. *)
Definition set_conn_state (v : ConnectionState) (c : Connection) : Connection :=
  MkConnection (source c) v (send_metrics c) (send_message c) (recv_message c)
    (recv_state c) (total_recv_len c) (total_send_len c) (recv_len c) (send_to c)
    (send_from c) (recv_to c) (recv_from c) (send_msg_header c) (recv_msg_header c)
    (send_kernel_msg c) (recv_kernel_msg c) (send_io_vec c) (recv_io_vec c)
    (recv_message_type c) (message_handler c) (send_message_queue c) (output_buffer_size
    c) (error_code c) (allocate_cb_ c) (free_cb_ c) (advertise_addr_ c).
Definition set_send_metrics (v : option SendMetrics) (c : Connection) : Connection :=
  MkConnection (source c) (conn_state c) v (send_message c) (recv_message c) (recv_state
    c) (total_recv_len c) (total_send_len c) (recv_len c) (send_to c) (send_from c)
    (recv_to c) (recv_from c) (send_msg_header c) (recv_msg_header c) (send_kernel_msg
    c) (recv_kernel_msg c) (send_io_vec c) (recv_io_vec c) (recv_message_type c)
    (message_handler c) (send_message_queue c) (output_buffer_size c) (error_code c)
    (allocate_cb_ c) (free_cb_ c) (advertise_addr_ c).
Definition set_send_message (v : option MessageBase) (c : Connection) : Connection :=
  MkConnection (source c) (conn_state c) (send_metrics c) v (recv_message c) (recv_state
    c) (total_recv_len c) (total_send_len c) (recv_len c) (send_to c) (send_from c)
    (recv_to c) (recv_from c) (send_msg_header c) (recv_msg_header c) (send_kernel_msg
    c) (recv_kernel_msg c) (send_io_vec c) (recv_io_vec c) (recv_message_type c)
    (message_handler c) (send_message_queue c) (output_buffer_size c) (error_code c)
    (allocate_cb_ c) (free_cb_ c) (advertise_addr_ c).
Definition set_recv_message (v : option MessageBase) (c : Connection) : Connection :=
  MkConnection (source c) (conn_state c) (send_metrics c) (send_message c) v (recv_state
    c) (total_recv_len c) (total_send_len c) (recv_len c) (send_to c) (send_from c)
    (recv_to c) (recv_from c) (send_msg_header c) (recv_msg_header c) (send_kernel_msg
    c) (recv_kernel_msg c) (send_io_vec c) (recv_io_vec c) (recv_message_type c)
    (message_handler c) (send_message_queue c) (output_buffer_size c) (error_code c)
    (allocate_cb_ c) (free_cb_ c) (advertise_addr_ c).
Definition set_recv_state (v : State) (c : Connection) : Connection :=
  MkConnection (source c) (conn_state c) (send_metrics c) (send_message c) (recv_message
    c) v (total_recv_len c) (total_send_len c) (recv_len c) (send_to c) (send_from c)
    (recv_to c) (recv_from c) (send_msg_header c) (recv_msg_header c) (send_kernel_msg
    c) (recv_kernel_msg c) (send_io_vec c) (recv_io_vec c) (recv_message_type c)
    (message_handler c) (send_message_queue c) (output_buffer_size c) (error_code c)
    (allocate_cb_ c) (free_cb_ c) (advertise_addr_ c).
Definition set_total_recv_len (v : Z) (c : Connection) : Connection :=
  MkConnection (source c) (conn_state c) (send_metrics c) (send_message c) (recv_message
    c) (recv_state c) v (total_send_len c) (recv_len c) (send_to c) (send_from c)
    (recv_to c) (recv_from c) (send_msg_header c) (recv_msg_header c) (send_kernel_msg
    c) (recv_kernel_msg c) (send_io_vec c) (recv_io_vec c) (recv_message_type c)
    (message_handler c) (send_message_queue c) (output_buffer_size c) (error_code c)
    (allocate_cb_ c) (free_cb_ c) (advertise_addr_ c).
Definition set_total_send_len (v : Z) (c : Connection) : Connection :=
  MkConnection (source c) (conn_state c) (send_metrics c) (send_message c) (recv_message
    c) (recv_state c) (total_recv_len c) v (recv_len c) (send_to c) (send_from c)
    (recv_to c) (recv_from c) (send_msg_header c) (recv_msg_header c) (send_kernel_msg
    c) (recv_kernel_msg c) (send_io_vec c) (recv_io_vec c) (recv_message_type c)
    (message_handler c) (send_message_queue c) (output_buffer_size c) (error_code c)
    (allocate_cb_ c) (free_cb_ c) (advertise_addr_ c).
Definition set_recv_len (v : Z) (c : Connection) : Connection :=
  MkConnection (source c) (conn_state c) (send_metrics c) (send_message c) (recv_message
    c) (recv_state c) (total_recv_len c) (total_send_len c) v (send_to c) (send_from c)
    (recv_to c) (recv_from c) (send_msg_header c) (recv_msg_header c) (send_kernel_msg
    c) (recv_kernel_msg c) (send_io_vec c) (recv_io_vec c) (recv_message_type c)
    (message_handler c) (send_message_queue c) (output_buffer_size c) (error_code c)
    (allocate_cb_ c) (free_cb_ c) (advertise_addr_ c).
Definition set_send_to (v : bytes) (c : Connection) : Connection :=
  MkConnection (source c) (conn_state c) (send_metrics c) (send_message c) (recv_message
    c) (recv_state c) (total_recv_len c) (total_send_len c) (recv_len c) v (send_from c)
    (recv_to c) (recv_from c) (send_msg_header c) (recv_msg_header c) (send_kernel_msg
    c) (recv_kernel_msg c) (send_io_vec c) (recv_io_vec c) (recv_message_type c)
    (message_handler c) (send_message_queue c) (output_buffer_size c) (error_code c)
    (allocate_cb_ c) (free_cb_ c) (advertise_addr_ c).
Definition set_send_from (v : bytes) (c : Connection) : Connection :=
  MkConnection (source c) (conn_state c) (send_metrics c) (send_message c) (recv_message
    c) (recv_state c) (total_recv_len c) (total_send_len c) (recv_len c) (send_to c) v
    (recv_to c) (recv_from c) (send_msg_header c) (recv_msg_header c) (send_kernel_msg
    c) (recv_kernel_msg c) (send_io_vec c) (recv_io_vec c) (recv_message_type c)
    (message_handler c) (send_message_queue c) (output_buffer_size c) (error_code c)
    (allocate_cb_ c) (free_cb_ c) (advertise_addr_ c).
Definition set_recv_to (v : bytes) (c : Connection) : Connection :=
  MkConnection (source c) (conn_state c) (send_metrics c) (send_message c) (recv_message
    c) (recv_state c) (total_recv_len c) (total_send_len c) (recv_len c) (send_to c)
    (send_from c) v (recv_from c) (send_msg_header c) (recv_msg_header c)
    (send_kernel_msg c) (recv_kernel_msg c) (send_io_vec c) (recv_io_vec c)
    (recv_message_type c) (message_handler c) (send_message_queue c) (output_buffer_size
    c) (error_code c) (allocate_cb_ c) (free_cb_ c) (advertise_addr_ c).
Definition set_recv_from (v : bytes) (c : Connection) : Connection :=
  MkConnection (source c) (conn_state c) (send_metrics c) (send_message c) (recv_message
    c) (recv_state c) (total_recv_len c) (total_send_len c) (recv_len c) (send_to c)
    (send_from c) (recv_to c) v (send_msg_header c) (recv_msg_header c) (send_kernel_msg
    c) (recv_kernel_msg c) (send_io_vec c) (recv_io_vec c) (recv_message_type c)
    (message_handler c) (send_message_queue c) (output_buffer_size c) (error_code c)
    (allocate_cb_ c) (free_cb_ c) (advertise_addr_ c).
Definition set_send_msg_header (v : MessageHeader) (c : Connection) : Connection :=
  MkConnection (source c) (conn_state c) (send_metrics c) (send_message c) (recv_message
    c) (recv_state c) (total_recv_len c) (total_send_len c) (recv_len c) (send_to c)
    (send_from c) (recv_to c) (recv_from c) v (recv_msg_header c) (send_kernel_msg c)
    (recv_kernel_msg c) (send_io_vec c) (recv_io_vec c) (recv_message_type c)
    (message_handler c) (send_message_queue c) (output_buffer_size c) (error_code c)
    (allocate_cb_ c) (free_cb_ c) (advertise_addr_ c).
Definition set_recv_msg_header (v : bytes) (c : Connection) : Connection :=
  MkConnection (source c) (conn_state c) (send_metrics c) (send_message c) (recv_message
    c) (recv_state c) (total_recv_len c) (total_send_len c) (recv_len c) (send_to c)
    (send_from c) (recv_to c) (recv_from c) (send_msg_header c) v (send_kernel_msg c)
    (recv_kernel_msg c) (send_io_vec c) (recv_io_vec c) (recv_message_type c)
    (message_handler c) (send_message_queue c) (output_buffer_size c) (error_code c)
    (allocate_cb_ c) (free_cb_ c) (advertise_addr_ c).
Definition set_send_kernel_msg (v : msghdr) (c : Connection) : Connection :=
  MkConnection (source c) (conn_state c) (send_metrics c) (send_message c) (recv_message
    c) (recv_state c) (total_recv_len c) (total_send_len c) (recv_len c) (send_to c)
    (send_from c) (recv_to c) (recv_from c) (send_msg_header c) (recv_msg_header c) v
    (recv_kernel_msg c) (send_io_vec c) (recv_io_vec c) (recv_message_type c)
    (message_handler c) (send_message_queue c) (output_buffer_size c) (error_code c)
    (allocate_cb_ c) (free_cb_ c) (advertise_addr_ c).
Definition set_recv_kernel_msg (v : msghdr) (c : Connection) : Connection :=
  MkConnection (source c) (conn_state c) (send_metrics c) (send_message c) (recv_message
    c) (recv_state c) (total_recv_len c) (total_send_len c) (recv_len c) (send_to c)
    (send_from c) (recv_to c) (recv_from c) (send_msg_header c) (recv_msg_header c)
    (send_kernel_msg c) v (send_io_vec c) (recv_io_vec c) (recv_message_type c)
    (message_handler c) (send_message_queue c) (output_buffer_size c) (error_code c)
    (allocate_cb_ c) (free_cb_ c) (advertise_addr_ c).
Definition set_send_io_vec (v : list iovec) (c : Connection) : Connection :=
  MkConnection (source c) (conn_state c) (send_metrics c) (send_message c) (recv_message
    c) (recv_state c) (total_recv_len c) (total_send_len c) (recv_len c) (send_to c)
    (send_from c) (recv_to c) (recv_from c) (send_msg_header c) (recv_msg_header c)
    (send_kernel_msg c) (recv_kernel_msg c) v (recv_io_vec c) (recv_message_type c)
    (message_handler c) (send_message_queue c) (output_buffer_size c) (error_code c)
    (allocate_cb_ c) (free_cb_ c) (advertise_addr_ c).
Definition set_recv_io_vec (v : list iovec) (c : Connection) : Connection :=
  MkConnection (source c) (conn_state c) (send_metrics c) (send_message c) (recv_message
    c) (recv_state c) (total_recv_len c) (total_send_len c) (recv_len c) (send_to c)
    (send_from c) (recv_to c) (recv_from c) (send_msg_header c) (recv_msg_header c)
    (send_kernel_msg c) (recv_kernel_msg c) (send_io_vec c) v (recv_message_type c)
    (message_handler c) (send_message_queue c) (output_buffer_size c) (error_code c)
    (allocate_cb_ c) (free_cb_ c) (advertise_addr_ c).
Definition set_recv_message_type (v : ParseType) (c : Connection) : Connection :=
  MkConnection (source c) (conn_state c) (send_metrics c) (send_message c) (recv_message
    c) (recv_state c) (total_recv_len c) (total_send_len c) (recv_len c) (send_to c)
    (send_from c) (recv_to c) (recv_from c) (send_msg_header c) (recv_msg_header c)
    (send_kernel_msg c) (recv_kernel_msg c) (send_io_vec c) (recv_io_vec c) v
    (message_handler c) (send_message_queue c) (output_buffer_size c) (error_code c)
    (allocate_cb_ c) (free_cb_ c) (advertise_addr_ c).
Definition set_send_message_queue (v : list (option MessageBase)) (c : Connection) : Connection :=
  MkConnection (source c) (conn_state c) (send_metrics c) (send_message c) (recv_message
    c) (recv_state c) (total_recv_len c) (total_send_len c) (recv_len c) (send_to c)
    (send_from c) (recv_to c) (recv_from c) (send_msg_header c) (recv_msg_header c)
    (send_kernel_msg c) (recv_kernel_msg c) (send_io_vec c) (recv_io_vec c)
    (recv_message_type c) (message_handler c) v (output_buffer_size c) (error_code c)
    (allocate_cb_ c) (free_cb_ c) (advertise_addr_ c).
Definition set_output_buffer_size (v : Z) (c : Connection) : Connection :=
  MkConnection (source c) (conn_state c) (send_metrics c) (send_message c) (recv_message
    c) (recv_state c) (total_recv_len c) (total_send_len c) (recv_len c) (send_to c)
    (send_from c) (recv_to c) (recv_from c) (send_msg_header c) (recv_msg_header c)
    (send_kernel_msg c) (recv_kernel_msg c) (send_io_vec c) (recv_io_vec c)
    (recv_message_type c) (message_handler c) (send_message_queue c) v (error_code c)
    (allocate_cb_ c) (free_cb_ c) (advertise_addr_ c).
Definition set_error_code (v : Z) (c : Connection) : Connection :=
  MkConnection (source c) (conn_state c) (send_metrics c) (send_message c) (recv_message
    c) (recv_state c) (total_recv_len c) (total_send_len c) (recv_len c) (send_to c)
    (send_from c) (recv_to c) (recv_from c) (send_msg_header c) (recv_msg_header c)
    (send_kernel_msg c) (recv_kernel_msg c) (send_io_vec c) (recv_io_vec c)
    (recv_message_type c) (message_handler c) (send_message_queue c) (output_buffer_size
    c) v (allocate_cb_ c) (free_cb_ c) (advertise_addr_ c).
Definition set_advertise_addr_ (v : bytes) (c : Connection) : Connection :=
  MkConnection (source c) (conn_state c) (send_metrics c) (send_message c) (recv_message
    c) (recv_state c) (total_recv_len c) (total_send_len c) (recv_len c) (send_to c)
    (send_from c) (recv_to c) (recv_from c) (send_msg_header c) (recv_msg_header c)
    (send_kernel_msg c) (recv_kernel_msg c) (send_io_vec c) (recv_io_vec c)
    (recv_message_type c) (message_handler c) (send_message_queue c) (output_buffer_size
    c) (error_code c) (allocate_cb_ c) (free_cb_ c) v.

(** ** The memory behind a region *)

Definition region_mem (r : region) (c : Connection) : option bytes :=
  match r with
  | RecvHeader => Some (recv_msg_header c)
  | RecvName => msg_name <$> recv_message c
  | RecvTo => Some (recv_to c)
  | RecvFrom => Some (recv_from c)
  | RecvBody => msg_body <$> recv_message c
  | RecvData => recv_message c ≫= msg_data
  | SendHeader => Some (header_image (send_msg_header c))
  | SendName => msg_name <$> send_message c
  | SendTo => Some (send_to c)
  | SendFrom => Some (send_from c)
  | SendBody => msg_body <$> send_message c
  | SendData => send_message c ≫= msg_data
  end.

Definition set_msg_name (v : bytes) (m : MessageBase) : MessageBase :=
  MkMessage (msg_from m) (msg_to m) v (msg_body m) (msg_data m) (msg_size m)
    (msg_type m) (msg_func_id m).
Definition set_msg_body (v : bytes) (m : MessageBase) : MessageBase :=
  MkMessage (msg_from m) (msg_to m) (msg_name m) v (msg_data m) (msg_size m)
    (msg_type m) (msg_func_id m).
Definition set_msg_data (v : option bytes) (n : Z) (m : MessageBase) : MessageBase :=
  MkMessage (msg_from m) (msg_to m) (msg_name m) (msg_body m) v n
    (msg_type m) (msg_func_id m).
Definition set_msg_ends (from to : AID) (m : MessageBase) : MessageBase :=
  MkMessage from to (msg_name m) (msg_body m) (msg_data m) (msg_size m)
    (msg_type m) (msg_func_id m).

(** The kernel writes only into what is received; [None] elsewhere. *)
Definition set_region_mem (r : region) (v : bytes) (c : Connection) : option Connection :=
  match r with
  | RecvHeader => Some (set_recv_msg_header v c)
  | RecvName => m ← recv_message c; Some (set_recv_message (Some (set_msg_name v m)) c)
  | RecvTo => Some (set_recv_to v c)
  | RecvFrom => Some (set_recv_from v c)
  | RecvBody => m ← recv_message c; Some (set_recv_message (Some (set_msg_body v m)) c)
  | RecvData =>
      m ← recv_message c; _ ← msg_data m;
      Some (set_recv_message (Some (set_msg_data (Some v) (msg_size m) m)) c)
  | _ => None
  end.

(** ** The kernel's side of a socket

    [recv] and [recvmsg] differ only in where the bytes go: [k_recv n] asks for at
    most [n] bytes. [RBytes []] is a return value of 0, [RFail] a negative one;
    [errno] is part of the kernel's state. *)

Inductive recv_result := RBytes (bs : bytes) | RFail.
Inductive send_result := Sent (n : Z) | SFail.

Class Kernel (K : Type) := {
  k_recv : Z → K → recv_result * K;
  k_peek : Z → K → recv_result * K;    (** with [MSG_PEEK] *)
  k_send : bytes → K → send_result * K;
  k_errno : K → Z;
}.

Definition EPIPE : Z := 32.
Definition EAGAIN : Z := 11.
Definition ECONNABORTED : Z := 103.
Definition ECONNRESET : Z := 104.
Definition ENOTCONN : Z := 107.

(** What a stream socket promises: bytes arrive in order, none is lost or made up,
    [recv] returns 0 only at the end of the stream, and [sendmsg] takes a prefix of
    what it is given. *)
Class KernelLaws (K : Type) `{Kernel K} := {
  incoming : K → bytes;
  outgoing : K → bytes;
  recv_bytes n k bs k' : 0 <= n → k_recv n k = (RBytes bs, k') →
    size bs <= n ∧ incoming k = bs ++ incoming k' ∧ outgoing k' = outgoing k;
  recv_eof n k k' : 0 < n → k_recv n k = (RBytes [], k') → incoming k = [];
  recv_fail n k k' : k_recv n k = (RFail, k') →
    incoming k' = incoming k ∧ outgoing k' = outgoing k;
  send_bytes bs k n k' : k_send bs k = (Sent n, k') →
    0 <= n <= size bs ∧ (bs ≠ [] → 0 < n) ∧
    outgoing k' = outgoing k ++ take (Z.to_nat n) bs ∧ incoming k' = incoming k;
  send_fail bs k k' : k_send bs k = (SFail, k') →
    incoming k' = incoming k ∧ outgoing k' = outgoing k;
}.

(** What it does not promise: that it answers [EAGAIN] only so many times, which is
    up to the peer. What ends only then has this class among its hypotheses. *)
Class KernelPatience (K : Type) `{KernelLaws K} := {
  patience : K → nat;
  patience_recv n k r k' : 0 <= n → k_recv n k = (r, k') →
    (patience k' <= patience k)%nat ∧
    (r = RFail → k_errno k' = EAGAIN → (patience k' < patience k)%nat);
  patience_send bs k r k' : bs ≠ [] → k_send bs k = (r, k') →
    (patience k' <= patience k)%nat ∧
    (r = SFail → k_errno k' = EAGAIN → (patience k' < patience k)%nat);
}.

(** How a loop around a system call ends in the model when it has used its fuel. *)
Definition running : string := "still running".

(** ** The world of a connection *)

(** What a connection does to others, in order. *)
Inductive effect :=
| Handled (m : MessageBase)          (** the handler was called with a message *)
| UpdatedEpoll (events : Z)          (** [UpdateEpollEvent] of the event loop *)
| FreedData (mem : bytes).           (** the free callback was called *)

Record World (K : Type) := MkWorld { conn : Connection; kernel : K; trace : list effect }.
Arguments MkWorld {K} _ _ _.
Arguments conn {K} _.
Arguments kernel {K} _.
Arguments trace {K} _.

Definition set_conn {K} (c : Connection) (w : World K) : World K :=
  MkWorld c (kernel w) (trace w).
Definition set_kernel {K} (k : K) (w : World K) : World K := MkWorld (conn w) k (trace w).
Definition emit {K} (e : effect) : M (World K) unit :=
  modify (λ w, MkWorld (conn w) (kernel w) (trace w ++ [e])).

(** Reads of members and assignments to them, as statements. *)
Definition get_conn {K A} (f : Connection → A) : M (World K) A := gets (λ w, f (conn w)).
Definition upd_conn {K} (f : Connection → Connection) : M (World K) unit :=
  modify (λ w, set_conn (f (conn w)) w).

Lemma wp_get_conn {K A} (f : Connection → A) (w : World K) (Q : A → World K → Prop) :
  Q (f (conn w)) w → wp (get_conn f) w Q.
Proof. done. Qed.

Lemma wp_upd_conn {K} (f : Connection → Connection) (w : World K) (Q : unit → World K → Prop) :
  Q () (set_conn (f (conn w)) w) → wp (upd_conn f) w Q.
Proof. done. Qed.

(** [errno]. *)
Definition errno {K} `{Kernel K} : M (World K) Z := gets (λ w, k_errno (kernel w)).

Lemma wp_errno {K} `{Kernel K} (w : World K) (Q : Z → World K → Prop) :
  Q (k_errno (kernel w)) w → wp errno w Q.
Proof. done. Qed.

Ltac net_step :=
  lazymatch goal with
  | |- wp errno _ _ => apply wp_errno
  | |- wp (get_conn _) _ _ => apply wp_get_conn
  | |- wp (upd_conn _) _ _ => apply wp_upd_conn
  | |- wp (emit _) _ _ => apply wp_modify
  | |- wp _ _ _ => wp_step
  end; cbv beta.
Ltac net_steps := repeat net_step.

(** The messages handed to the handler. *)
Definition handled (t : list effect) : list MessageBase :=
  omap (λ e, match e with Handled m => Some m | _ => None end) t.
