(* ===== verification/NetSocket.v ===== *)
(** * TCP socket operations

    [TCPSocketOperation] of net/src/tcp_socket_operation.cc: the loops around
    [recv], [recvmsg] and [sendmsg] that move a header or a message, and the
    [iovec]s they advance after a partial transfer. *)

From S2P Require Import Prelude NetBytes NetMessage NetState.

Definition EAGAIN_RETRY : Z := 1024000.

(** ** Scatter and gather *)

(** The entries a [msghdr] refers to. *)
Definition live (vec : list iovec) (h : msghdr) : list iovec :=
  take (Z.to_nat (msg_iovlen h)) (drop (msg_iov h) vec).

Definition capacity (vs : list iovec) : Z := foldr (λ v n, iov_len v + n) 0 vs.

(** The bytes that a list of entries refers to; [None] outside of their objects. *)
Definition window (c : Connection) (v : iovec) : option bytes :=
  match iov_base v with
  | Some (r, off) => mem ← region_mem r c; read_at off (iov_len v) mem
  | None => if iov_len v =? 0 then Some [] else None
  end.

Fixpoint gather (c : Connection) (vs : list iovec) : option bytes :=
  match vs with
  | [] => Some []
  | v :: vs => bs ← window c v; rest ← gather c vs; Some (bs ++ rest)
  end.

(** Distribute bytes over entries, in order. *)
Fixpoint scatter (vs : list iovec) (bs : bytes) (c : Connection) : option Connection :=
  match vs with
  | [] => match bs with [] => Some c | _ => None end
  | v :: vs =>
      let n := Z.to_nat (iov_len v) in
      c' ← match take n bs, iov_base v with
           | [], _ => Some c
           | part, Some (r, off) =>
               mem ← region_mem r c; mem' ← write_at off part mem; set_region_mem r mem' c
           | _, None => None
           end;
      scatter vs (drop n bs) c'
  end.

Definition advance_iovec (n : Z) (v : iovec) : iovec :=
  MkIovec ((λ '(r, off), (r, off + n)) <$> iov_base v) (iov_len v -64 n).

(** The loop over the entries after a transfer of [moved] bytes; [le] is the
    comparison the loop uses for an entry that has been dealt with. *)
Fixpoint advance_loop (le : Z → Z → bool) (n i : nat) (tmp moved : Z)
    (vec : list iovec) (h : msghdr) : option (list iovec * msghdr) :=
  match n with
  | O => Some (vec, h)
  | S n =>
      v ← vec !! (msg_iov h + i)%nat;
      if le (iov_len v +64 tmp) moved
      then advance_loop le n (S i) (tmp +64 iov_len v) moved vec h
      else Some (<[(msg_iov h + i)%nat := advance_iovec (moved -64 tmp) v]> vec,
                 MkMsghdr (msg_iov h + i) (msg_iovlen h - Z.of_nat i))
  end.

Definition advance (le : Z → Z → bool) (moved : Z) (vec : list iovec) (h : msghdr)
    : option (list iovec * msghdr) :=
  advance_loop le (Z.to_nat (msg_iovlen h)) 0 0 moved vec h.

Section socket.
Context {K : Type} `{Kernel K}.
Abbreviation W := (World K).

(** [recv(fd, buf, n, 0)]: the bytes go to [off] of the header. *)
Definition recv_header (off n : Z) : M W recv_result := λ w,
  let '(r, k) := k_recv n (kernel w) in
  match r with
  | RBytes bs =>
      match write_at off bs (recv_msg_header (conn w)) with
      | Some mem => Ret r (MkWorld (set_recv_msg_header mem (conn w)) k (trace w))
      | None => Undef
      end
  | RFail => Ret r (set_kernel k w)
  end.

(** [recvmsg(fd, &recv_kernel_msg, 0)]. *)
Definition recvmsg : M W recv_result := λ w,
  let vs := live (recv_io_vec (conn w)) (recv_kernel_msg (conn w)) in
  let '(r, k) := k_recv (capacity vs) (kernel w) in
  match r with
  | RBytes bs =>
      match scatter vs bs (conn w) with
      | Some c => Ret r (MkWorld c k (trace w))
      | None => Undef
      end
  | RFail => Ret r (set_kernel k w)
  end.

(** [sendmsg(fd, &send_kernel_msg, MSG_NOSIGNAL)]. *)
Definition sendmsg : M W send_result := λ w,
  match gather (conn w) (live (send_io_vec (conn w)) (send_kernel_msg (conn w))) with
  | Some bs => let '(r, k) := k_send bs (kernel w) in Ret r (set_kernel k w)
  | None => Undef
  end.

(** [ECONNRESET == errno || ...]. *)
Definition is_closed (e : Z) : bool :=
  (e =? ECONNRESET) || (e =? ECONNABORTED) || (e =? ENOTCONN) || (e =? EPIPE).

(** [Receive]: at most [totalRecvLen] bytes of the header, from [recvBuf] on. A
    result is the return value and [*recvLen]. *)
Fixpoint Receive_loop (fuel : nat) (curRecvBuf totalRecvLen recvLen : Z) : M W (Z * Z) :=
  match fuel with
  | O => throw running
  | S fuel =>
      if recvLen =? totalRecvLen then mret (IO_RW_OK, recvLen) else
      r ← recv_header curRecvBuf (totalRecvLen -64 recvLen);
      match r with
      | RBytes [] =>
          e ← errno; upd_conn (set_error_code e);; mret (IO_RW_ERROR, recvLen)
      | RBytes bs =>
          let recvLen := recvLen +64 size bs in
          if recvLen =? totalRecvLen then mret (IO_RW_OK, recvLen)
          else Receive_loop fuel (curRecvBuf + size bs) totalRecvLen recvLen
      | RFail =>
          e ← errno;
          if e =? EAGAIN then mret (IO_RW_OK, recvLen)
          else if is_closed e then
            upd_conn (set_error_code e);; mret (IO_RW_ERROR, recvLen)
          else mret (IO_RW_OK, recvLen)
      end
  end.

Definition Receive (fuel : nat) (recvBuf totalRecvLen : Z) : M W (Z * Z) :=
  Receive_loop fuel recvBuf totalRecvLen 0.

Definition set_recv_iov '((vec, h) : list iovec * msghdr) (c : Connection) : Connection :=
  set_recv_kernel_msg h (set_recv_io_vec vec c).
Definition set_send_iov '((vec, h) : list iovec * msghdr) (c : Connection) : Connection :=
  set_send_kernel_msg h (set_send_io_vec vec c).
Definition clear_iovlen (h : msghdr) : msghdr := MkMsghdr (msg_iov h) 0.

Fixpoint ReceiveMessage_loop (fuel : nat) (totalRecvLen recvLen : Z) : M W (Z * Z) :=
  match fuel with
  | O => throw running
  | S fuel =>
      if negb (recvLen <? totalRecvLen) then mret (IO_RW_OK, recvLen) else
      r ← recvmsg;
      match r with
      | RBytes [] => mret (IO_RW_ERROR, recvLen)
      | RBytes bs =>
          let recvLen := recvLen +64 size bs in
          if recvLen =? totalRecvLen then
            upd_conn (λ c, set_recv_kernel_msg (clear_iovlen (recv_kernel_msg c)) c);;
            mret (IO_RW_OK, recvLen)
          else
            iov ← get_conn (λ c, advance Z.leb (size bs) (recv_io_vec c) (recv_kernel_msg c));
            iov ← deref iov;
            upd_conn (set_recv_iov iov);;
            ReceiveMessage_loop fuel totalRecvLen recvLen
      | RFail =>
          e ← errno;
          if e =? EAGAIN then ReceiveMessage_loop fuel totalRecvLen recvLen
          else if is_closed e then
            upd_conn (set_error_code e);; mret (IO_RW_ERROR, recvLen)
          else mret (IO_RW_OK, recvLen)
      end
  end.

Definition ReceiveMessage (fuel : nat) (totalRecvLen recvLen : Z) : M W (Z * Z) :=
  if totalRecvLen =? 0 then mret (IO_RW_OK, recvLen)
  else ReceiveMessage_loop fuel totalRecvLen recvLen.

Fixpoint SendMessage_loop (fuel : nat) (totalSendLen sendLen eagainCount : Z) : M W (Z * Z) :=
  match fuel with
  | O => throw running
  | S fuel =>
      if sendLen =? totalSendLen then mret (IO_RW_OK, sendLen) else
      r ← sendmsg;
      match r with
      | SFail =>
          let eagainCount := eagainCount + 1 in
          e ← errno;
          if negb (e =? EAGAIN) then
            upd_conn (set_error_code e);; mret (IO_RW_ERROR, sendLen)
          else if eagainCount =? EAGAIN_RETRY then mret (IO_RW_OK, 0)
          else SendMessage_loop fuel totalSendLen sendLen eagainCount
      | Sent n =>
          let sendLen := sendLen +64 n in
          if sendLen =? totalSendLen then
            upd_conn (λ c, set_send_kernel_msg (clear_iovlen (send_kernel_msg c)) c);;
            mret (IO_RW_OK, sendLen)
          else
            iov ← get_conn (λ c, advance Z.ltb n (send_io_vec c) (send_kernel_msg c));
            iov ← deref iov;
            upd_conn (set_send_iov iov);;
            SendMessage_loop fuel totalSendLen sendLen 0
      end
  end.

Definition SendMessage (fuel : nat) (totalSendLen : Z) : M W (Z * Z) :=
  SendMessage_loop fuel totalSendLen 0 0.
End socket.
