(* ===== verification/NetIovec.v ===== *)
(** * Vectors of buffers

    What a partial transfer leaves of a vector of buffers, and what gathering from
    it and scattering into it mean: advancing drops what has been moved, and
    scattering fills the buffers from where the last transfer ended. *)

From S2P Require Import Prelude NetBytes NetMessage NetState NetSocket.

(** The entries that remain after [k] bytes. *)
Fixpoint skip (le : Z → Z → bool) (k : Z) (vs : list iovec) : list iovec :=
  match vs with
  | [] => []
  | v :: vs =>
      if le (iov_len v) k then skip le (k - iov_len v) vs else advance_iovec k v :: vs
  end.

Definition iovs_ok (vs : list iovec) : Prop :=
  Forall (λ v, 0 <= iov_len v) vs ∧ capacity vs < w64.

Lemma capacity_nonneg vs : Forall (λ v, 0 <= iov_len v) vs → 0 <= capacity vs.
Proof. induction 1; simpl; lia. Qed.

Lemma iovs_ok_cons v vs : iovs_ok (v :: vs) ↔ 0 <= iov_len v ∧ iovs_ok vs ∧ iov_len v + capacity vs < w64.
Proof.
  unfold iovs_ok. rewrite Forall_cons. simpl. split.
  - intros [[? Hvs] ?]. pose proof (capacity_nonneg vs Hvs). split_and!; done || lia.
  - intros (? & [? ?] & ?). split_and!; done.
Qed.

Section advance.
Context (le : Z → Z → bool).
Context (le_true : ∀ a b, le a b = true → a <= b).
Context (le_false : ∀ a b, le a b = false → b <= a).
Context (le_sub : ∀ a b c, le (a + b) c = le a (c - b)).

Lemma advance_iovec_len k v : 0 <= k <= iov_len v → iov_len v < w64 →
  iov_len (advance_iovec k v) = iov_len v - k.
Proof. intros. simpl. apply u64_small. lia. Qed.

Lemma skip_ok k vs : 0 <= k → iovs_ok vs → k <= capacity vs →
  iovs_ok (skip le k vs) ∧ capacity (skip le k vs) = capacity vs - k.
Proof.
  revert k. induction vs as [|v vs IH]; intros k Hk Hvs Hc; simpl in *.
  - split; [done | lia].
  - apply iovs_ok_cons in Hvs as (Hv & Hvs & Hw).
    pose proof (capacity_nonneg vs (proj1 Hvs)).
    destruct (le (iov_len v) k) eqn:Hle.
    + apply le_true in Hle. destruct (IH (k - iov_len v)) as [? ->]; [lia|done|lia|].
      split; [done | lia].
    + apply le_false in Hle.
      pose proof (advance_iovec_len k v ltac:(lia) ltac:(lia)) as Hlen.
      split; [apply iovs_ok_cons; rewrite Hlen; split_and!; [lia|done|lia]|].
      cbn [capacity foldr]. fold (capacity vs). rewrite Hlen. lia.
Qed.

Definition hdr_ok (vec : list iovec) (h : msghdr) : Prop :=
  0 <= msg_iovlen h ∧ Z.of_nat (msg_iov h) + msg_iovlen h <= Z.of_nat (length vec).

Lemma live_length vec h : hdr_ok vec h → length (live vec h) = Z.to_nat (msg_iovlen h).
Proof. intros [? ?]. unfold live. rewrite length_take, length_drop. lia. Qed.

Lemma live_lookup vec h i : (i < Z.to_nat (msg_iovlen h))%nat →
  live vec h !! i = vec !! (msg_iov h + i)%nat.
Proof. intros. unfold live. rewrite lookup_take_lt, lookup_drop by done. done. Qed.

(** Fewer bytes than the entries from [i] on hold were moved, or just as many, when
    the loop stops at an entry that has been filled. *)
Definition stops (i : nat) (tmp moved cap : Z) : Prop :=
  moved < tmp + cap ∨
  moved = tmp + cap ∧ (∀ a b, le a b = true → a < b) ∧ (tmp < moved ∨ i = O).

(** The loop over the entries leaves those after the bytes that were moved. *)
Lemma advance_loop_spec vec h n i tmp moved :
  hdr_ok vec h → (n + i = Z.to_nat (msg_iovlen h))%nat →
  iovs_ok (drop i (live vec h)) → 0 <= tmp <= moved →
  stops i tmp moved (capacity (drop i (live vec h))) →
  tmp + capacity (drop i (live vec h)) < w64 →
  ∃ vec' h', advance_loop le n i tmp moved vec h = Some (vec', h') ∧
    live vec' h' = skip le (moved - tmp) (drop i (live vec h)) ∧
    hdr_ok vec' h' ∧ length vec' = length vec.
Proof.
  revert i tmp. induction n as [|n IH]; intros i tmp Hh Hn Hok Htmp Hlt Hw.
  { rewrite drop_ge in * by (rewrite live_length by done; lia).
    destruct Hlt as [Hlt|(Hlt & _ & [?| ->])]; simpl in Hlt; [lia..|].
    exists vec, h. split_and!; try done. 
    pose proof (live_length _ _ Hh) as Hl. by destruct (live vec h); [|simpl in *; lia]. }
  destruct (live vec h !! i) as [v|] eqn:Hv.
  2:{ apply lookup_ge_None in Hv. rewrite live_length in Hv by done. lia. }
  pose proof (drop_S _ _ _ Hv) as Hd. rewrite Hd in *. cbn [capacity foldr] in *.
  fold (capacity (drop (S i) (live vec h))) in *.
  apply iovs_ok_cons in Hok as (Hv0 & Hok & Hcap).
  pose proof (capacity_nonneg _ (proj1 Hok)) as Hpos.
  assert (moved <= tmp + (iov_len v + capacity (drop (S i) (live vec h)))) as Hle'
    by (destruct Hlt as [?|(? & _)]; lia).
  rewrite live_lookup in Hv by lia.
  cbn [advance_loop skip]. rewrite Hv. cbn [mbind option_bind].
  rewrite (u64_small (iov_len v + tmp)), (u64_small (tmp + iov_len v)),
    (u64_small (moved - tmp)) by lia.
  rewrite le_sub. destruct (le (iov_len v) (moved - tmp)) eqn:Hle.
  - pose proof (le_true _ _ Hle).
    destruct (IH (S i) (tmp + iov_len v)) as (vec' & h' & Ha & Hl & ? & ?); try done; try lia.
    { destruct Hlt as [?|(? & Hs & _)]; [left; lia|right]. pose proof (Hs _ _ Hle).
      split_and!; [lia|done|left; lia]. }
    exists vec', h'. split_and!; try done. rewrite Hl. f_equal. lia.
  - eexists _, _. split_and!; [done| | |by rewrite length_insert].
    + unfold live at 1. cbn [msg_iov msg_iovlen].
      destruct Hh as [Hh1 Hh2].
      pose proof (lookup_lt_Some _ _ _ Hv).
      rewrite (drop_S _ (advance_iovec (moved - tmp) v))
        by (apply list_lookup_insert_eq; done).
      rewrite drop_insert_lt by lia.
      replace (Z.to_nat (msg_iovlen h - Z.of_nat i)) with (S (Z.to_nat (msg_iovlen h) - S i)) by lia.
      cbn [take]. f_equal. unfold live. rewrite skipn_firstn_comm, drop_drop.
      f_equal. f_equal. lia.
    + destruct Hh as [Hh1 Hh2]. split; cbn [msg_iov msg_iovlen]; rewrite ?length_insert; lia.
Qed.

Lemma advance_spec vec h moved :
  hdr_ok vec h → iovs_ok (live vec h) → 0 <= moved → stops 0 0 moved (capacity (live vec h)) →
  ∃ vec' h', advance le moved vec h = Some (vec', h') ∧
    live vec' h' = skip le moved (live vec h) ∧ hdr_ok vec' h' ∧ length vec' = length vec.
Proof.
  intros Hh Hok Hm Hstop.
  destruct (advance_loop_spec vec h (Z.to_nat (msg_iovlen h)) 0 0 moved)
    as (vec' & h' & Ha & Hl & ? & ?); rewrite ?drop_0 in *; try done; try lia.
  { destruct Hok. lia. }
  exists vec', h'. split_and!; try done. rewrite Hl. f_equal. lia.
Qed.

(** ** Gathering *)

Lemma read_at_inv off n mem bs : read_at off n mem = Some bs →
  0 <= off ∧ 0 <= n ∧ off + n <= size mem ∧ bs = take (Z.to_nat n) (drop (Z.to_nat off) mem).
Proof.
  unfold read_at, size. intros Hr. case_match eqn:Hb; [|done].
  apply andb_prop in Hb as [Hb H3]. apply andb_prop in Hb as [H1 H2]. bool_to_Z.
  by injection Hr as <-.
Qed.

Lemma read_at_some off n mem : 0 <= off → 0 <= n → off + n <= size mem →
  read_at off n mem = Some (take (Z.to_nat n) (drop (Z.to_nat off) mem)).
Proof.
  intros. unfold read_at, size in *. rewrite !(proj2 (Z.leb_le _ _)) by lia. done.
Qed.

Lemma window_size c v bs : 0 <= iov_len v → window c v = Some bs → size bs = iov_len v.
Proof.
  unfold window. intros Hv Hw. destruct (iov_base v) as [[r off]|]; simpl in Hw.
  - destruct (region_mem r c) as [mem|]; [|done]. cbn [mbind option_bind] in Hw.
    apply read_at_inv in Hw as (? & ? & ? & ->). unfold size in *.
    rewrite length_take, length_drop. lia.
  - destruct (iov_len v =? 0) eqn:Hz; [|done]. bool_to_Z. injection Hw as <-. done.
Qed.

Lemma gather_size c vs bs : Forall (λ v, 0 <= iov_len v) vs →
  gather c vs = Some bs → size bs = capacity vs.
Proof.
  intros Hvs. revert bs. induction Hvs as [|v vs Hv Hvs IH]; intros bs Hg; simpl in Hg.
  - by injection Hg as <-.
  - destruct (window c v) as [b1|] eqn:Hw; [|done].
    destruct (gather c vs) as [b2|]; [|done]. injection Hg as <-.
    rewrite size_app, (IH b2), (window_size _ _ _ Hv Hw) by done. done.
Qed.

Lemma window_advance c v bs k : 0 <= k <= iov_len v → iov_len v < w64 →
  window c v = Some bs → window c (advance_iovec k v) = Some (drop (Z.to_nat k) bs).
Proof.
  unfold window. intros Hk Hlt Hw. rewrite advance_iovec_len by done.
  cbn [iov_base advance_iovec]. destruct (iov_base v) as [[r off]|]; simpl in *.
  - destruct (region_mem r c) as [mem|]; [|done]. cbn [mbind option_bind] in *.
    apply read_at_inv in Hw as (? & ? & ? & ->).
    rewrite read_at_some by lia. f_equal.
    rewrite skipn_firstn_comm, drop_drop. f_equal; [|f_equal]; lia.
  - destruct (iov_len v =? 0) eqn:Hz; [|done]. bool_to_Z. injection Hw as <-.
    replace k with 0 in * by lia. rewrite Hz. done.
Qed.

Lemma gather_skip c vs bs k : 0 <= k → iovs_ok vs → k <= capacity vs →
  gather c vs = Some bs → gather c (skip le k vs) = Some (drop (Z.to_nat k) bs).
Proof.
  revert k bs. induction vs as [|v vs IH]; intros k bs Hk Hvs Hc Hg; simpl in *.
  - injection Hg as <-. by rewrite drop_nil.
  - apply iovs_ok_cons in Hvs as (Hv & Hvs & Hcap).
    pose proof (capacity_nonneg _ (proj1 Hvs)).
    destruct (window c v) as [b1|] eqn:Hw; [|done]. cbn [mbind option_bind] in Hg.
    destruct (gather c vs) as [b2|] eqn:Hg2; [|done]. injection Hg as <-.
    pose proof (window_size _ _ _ Hv Hw) as Hs.
    destruct (le (iov_len v) k) eqn:Hle.
    + apply le_true in Hle. rewrite (IH (k - iov_len v) b2) by (done || lia).
      rewrite drop_app_ge by (unfold size in *; lia). f_equal. f_equal.
      unfold size in *. lia.
    + apply le_false in Hle. cbn [gather].
      rewrite (window_advance c v b1 k) by (done || lia). cbn [mbind option_bind].
      rewrite Hg2. cbn [mbind option_bind]. f_equal.
      rewrite drop_app_le by (unfold size in *; lia). done.
Qed.
End advance.

(** ** Scattering *)

(** [c'] with what receiving may change put back: the memory that is received
    into, the vector that says where, and [error_code]. *)
Definition restore (c c' : Connection) : Connection :=
  set_recv_message (recv_message c) (set_recv_from (recv_from c)
    (set_recv_to (recv_to c) (set_recv_msg_header (recv_msg_header c)
    (set_recv_io_vec (recv_io_vec c) (set_recv_kernel_msg (recv_kernel_msg c)
    (set_error_code (error_code c) c')))))).

Definition rest_of_message (m : MessageBase) :=
  (msg_from m, msg_to m, msg_size m, msg_type m, msg_func_id m).
Definition same_message (m m' : MessageBase) : Prop := rest_of_message m = rest_of_message m'.

Record touched (c c' : Connection) : Prop := {
  touched_rest : restore c c' = c;
  touched_msg : option_Forall2 same_message (recv_message c) (recv_message c');
}.

#[export] Instance same_message_preorder : PreOrder same_message.
Proof. split; [done|]. intros m1 m2 m3. unfold same_message. congruence. Qed.

#[export] Instance touched_preorder : PreOrder touched.
Proof.
  split.
  - intros c. split; [by destruct c|]. reflexivity.
  - intros c1 c2 c3 [H1 M1] [H2 M2]. split; [|by etrans].
    rewrite <- H1 at 2. rewrite <- H2. by destruct c1, c2, c3.
Qed.

Lemma touched_iov c iov : touched c (set_recv_iov iov c).
Proof. destruct c, iov. split; [done|]. simpl. reflexivity. Qed.

Lemma touched_errno c e : touched c (set_error_code e c).
Proof. destruct c. split; [done|]. simpl. reflexivity. Qed.

Lemma set_region_mem_ok r mem mem' c c' :
  region_mem r c = Some mem → set_region_mem r mem' c = Some c' →
  region_mem r c' = Some mem' ∧ (∀ r', r' ≠ r → region_mem r' c' = region_mem r' c) ∧
  touched c c'.
Proof.
  intros Hm Hs. destruct c.
  destruct r; simpl in *; try done; simplify_option_eq;
    (split; [done|]; split; [intros []; done || (simpl; congruence)|]);
    (split; [done|]); simpl; repeat constructor; by reflexivity.
Qed.

(** Regions that the kernel may write to, each used once. *)
Definition receivable (r : region) : Prop :=
  match r with
  | RecvHeader | RecvName | RecvTo | RecvFrom | RecvBody | RecvData => True
  | _ => False
  end.

Definition iov_regions (vs : list iovec) : list region := omap (λ v, fst <$> iov_base v) vs.

Lemma set_region_mem_some r mem mem' c :
  receivable r → region_mem r c = Some mem → is_Some (set_region_mem r mem' c).
Proof. destruct c, r; simpl; try done; intros _ ?; simplify_option_eq; eauto. Qed.

Lemma window_frame c c' v :
  (∀ r, r ∈ iov_regions [v] → region_mem r c' = region_mem r c) → window c' v = window c v.
Proof.
  unfold window, iov_regions. intros Hr. destruct (iov_base v) as [[r off]|] eqn:Hb; [|done].
  simpl in Hr. rewrite Hb in Hr. simpl in Hr. rewrite Hr by set_solver. done.
Qed.

Lemma gather_frame c c' vs :
  (∀ r, r ∈ iov_regions vs → region_mem r c' = region_mem r c) → gather c' vs = gather c vs.
Proof.
  induction vs as [|v vs IH]; intros Hr; [done|]. cbn [gather].
  rewrite (window_frame c c').
  - rewrite IH; [done|]. intros r Hin. apply Hr. unfold iov_regions in *. simpl.
    destruct (iov_base v); simpl; set_solver.
  - intros r Hin. apply Hr. unfold iov_regions in *. simpl in *.
    destruct (iov_base v); simpl in *; set_solver.
Qed.

(** Filling one entry from offset [p] on. *)
Lemma window_write c v bs p part :
  0 <= iov_len v → window c v = Some bs → Forall receivable (iov_regions [v]) →
  0 <= p → part ≠ [] → p + size part <= iov_len v →
  ∃ r off mem mem' c', iov_base v = Some (r, off) ∧ region_mem r c = Some mem ∧
    write_at (off + p) part mem = Some mem' ∧ set_region_mem r mem' c = Some c' ∧
    window c' v = Some (take (Z.to_nat p) bs ++ part ++ drop (Z.to_nat (p + size part)) bs) ∧
    (∀ r', r' ∉ iov_regions [v] → region_mem r' c' = region_mem r' c) ∧ touched c c'.
Proof.
  unfold window, iov_regions. intros Hv Hw Hr Hp Hne Hle. simpl in *.
  assert (0 < size part) as Hpos by (destruct part; [done|unfold size; simpl; lia]).
  destruct (iov_base v) as [[r off]|] eqn:Hb; simpl in *.
  2:{ destruct (iov_len v =? 0) eqn:Hz; [|done]. bool_to_Z. lia. }
  apply Forall_cons in Hr as [Hr _].
  destruct (region_mem r c) as [mem|] eqn:Hm; [|done]. cbn [mbind option_bind] in *.
  apply read_at_inv in Hw as (Ho & _ & Hin & ->).
  unfold size in *.
  assert (write_at (off + p) part mem = Some (take (Z.to_nat (off + p)) mem ++ part ++
            drop (Z.to_nat (off + p) + length part) mem)) as Hwr.
  { unfold write_at. rewrite !(proj2 (Z.leb_le _ _)) by lia. done. }
  set (mem' := _ ++ part ++ _) in Hwr.
  destruct (set_region_mem_some r mem mem' c Hr Hm) as [c' Hc'].
  destruct (set_region_mem_ok r mem mem' c c' Hm Hc') as (Hm' & Hother & Ht).
  exists r, off, mem, mem', c'. split_and!; try done.
  - rewrite Hm'. cbn [mbind option_bind]. subst mem'.
    rewrite read_at_some; [|lia|lia|]; last first.
    { unfold size. rewrite !length_app, length_take, length_drop. lia. }
    f_equal. rewrite drop_app_le by (rewrite length_take; lia).
    replace (Z.to_nat (off + p)) with (Z.to_nat off + Z.to_nat p)%nat by lia.
    rewrite <- take_drop_commute.
    rewrite take_app_ge by (rewrite length_take, length_drop; lia).
    rewrite length_take, length_drop.
    rewrite take_app_ge by lia.
    rewrite take_take. f_equal; [f_equal; lia|]. f_equal.
    rewrite skipn_firstn_comm, drop_drop. f_equal; [lia|f_equal; lia].
  - intros r' Hin'. apply Hother. set_solver.
Qed.

Lemma iov_regions_cons v vs : iov_regions (v :: vs) = iov_regions [v] ++ iov_regions vs.
Proof. unfold iov_regions. simpl. by destruct (iov_base v). Qed.

Lemma advance_iovec_0 v : 0 <= iov_len v < w64 → advance_iovec 0 v = v.
Proof.
  intros. destruct v as [[[r o]|] n]; unfold advance_iovec; simpl in *;
    rewrite Z.sub_0_r, u64_small by done; rewrite ?Z.add_0_r; done.
Qed.

(** Empty entries in front do not matter. *)
Lemma scatter_skip_0 vs bs c : iovs_ok vs → scatter (skip Z.leb 0 vs) bs c = scatter vs bs c.
Proof.
  induction vs as [|v vs IH]; intros Hok; [done|].
  apply iovs_ok_cons in Hok as (Hv & Hok & Hw). pose proof (capacity_nonneg _ (proj1 Hok)).
  cbn [skip]. destruct (iov_len v <=? 0) eqn:Hle; bool_to_Z.
  - replace (iov_len v) with 0 by lia. rewrite Z.sub_0_r, IH by done. cbn [scatter].
    replace (iov_len v) with 0 by lia. done.
  - rewrite advance_iovec_0 by lia. done.
Qed.

(** Scattering after the first [p] bytes of a vector fills what follows them. *)
Lemma scatter_skip vs c g p bs :
  iovs_ok vs → NoDup (iov_regions vs) → Forall receivable (iov_regions vs) →
  gather c vs = Some g → 0 <= p → p + size bs <= size g →
  ∃ c', scatter (skip Z.leb p vs) bs c = Some c' ∧
    gather c' vs = Some (take (Z.to_nat p) g ++ bs ++ drop (Z.to_nat (p + size bs)) g) ∧
    (∀ r, r ∉ iov_regions vs → region_mem r c' = region_mem r c) ∧ touched c c'.
Proof.
  revert c g p bs. induction vs as [|v vs IH]; intros c g p bs Hok Hnd Hrec Hg Hp Hle.
  { simpl in *. injection Hg as <-.
    assert (bs = []) as -> by (apply size_nil_inv; pose proof (size_nonneg bs); unfold size in *; simpl in *; lia).
    exists c. rewrite take_nil, drop_nil. by split_and!. }
  apply iovs_ok_cons in Hok as (Hv & Hok & Hw). pose proof (capacity_nonneg _ (proj1 Hok)).
  rewrite iov_regions_cons in *. apply NoDup_app in Hnd as (Hnd1 & Hdis & Hnd).
  apply Forall_app in Hrec as [Hrec1 Hrec].
  cbn [gather] in Hg. destruct (window c v) as [b1|] eqn:Hwin; [|done].
  cbn [mbind option_bind] in Hg. destruct (gather c vs) as [b2|] eqn:Hg2; [|done].
  injection Hg as <-. pose proof (window_size _ _ _ Hv Hwin) as Hs1.
  rewrite size_app in Hle.
  cbn [skip]. destruct (iov_len v <=? p) eqn:Hcase; bool_to_Z.
  - destruct (IH c b2 (p - iov_len v) bs) as (c' & Hsc & Hg' & Hfr & Ht); try done; try lia.
    exists c'. split_and!; [done| | |done].
    + cbn [gather]. rewrite (window_frame c c').
      2:{ intros r Hin. apply Hfr. by apply Hdis. }
      rewrite Hwin. cbn [mbind option_bind]. rewrite Hg'. cbn [mbind option_bind]. f_equal.
      rewrite take_app_ge, drop_app_ge by (unfold size in *; lia). rewrite <- !app_assoc.
      f_equal. f_equal; [f_equal; unfold size in *; lia|].
      f_equal. f_equal. unfold size in *. lia.
    + intros r Hr. apply Hfr. set_solver.
  - cbn [scatter]. rewrite advance_iovec_len by lia.
    set (n := Z.to_nat (iov_len v - p)).
    destruct (decide (take n bs = [])) as [Hnil|Hne].
    { assert (bs = []) as ->.
      { destruct bs; [done|]. destruct n eqn:Hn; [lia|done]. }
      rewrite take_nil, drop_nil. cbn [mbind option_bind].
      destruct (IH c b2 0 []) as (c' & Hsc & Hg' & Hfr & Ht); try done.
      { unfold size. simpl. lia. }
      rewrite scatter_skip_0 in Hsc by done.
      exists c'. split_and!; [done| |set_solver|done].
      cbn [gather]. rewrite (window_frame c c') by (intros; apply Hfr; set_solver).
      rewrite Hwin. cbn [mbind option_bind]. rewrite Hg'. cbn [mbind option_bind].
      change (size []) with 0. rewrite !Z.add_0_r. simpl. rewrite drop_0, take_drop. done. }
    destruct (window_write c v b1 p (take n bs)) as
      (r & off & mem & mem' & c1 & Hb & Hm & Hwr & Hset & Hwin1 & Hfr1 & Ht1); try done.
    { unfold size. rewrite length_take. lia. }
    destruct (take n bs) as [|x part] eqn:Hpart; [done|].
    cbn [iov_base advance_iovec]. rewrite Hb. cbn [fmap option_fmap option_map].
    rewrite Hm. cbn [mbind option_bind]. rewrite Hwr. cbn [mbind option_bind]. rewrite Hset.
    cbn [mbind option_bind]. rewrite <- Hpart in *.
    assert (gather c1 vs = Some b2) as Hg1.
    { rewrite (gather_frame c c1); [done|]. intros. apply Hfr1. set_solver. }
    destruct (IH c1 b2 0 (drop n bs)) as (c' & Hsc & Hg' & Hfr & Ht); try done.
    { unfold size in *. rewrite length_drop. lia. }
    rewrite scatter_skip_0 in Hsc by done.
    exists c'. split_and!; [done| | |by etrans].
    + cbn [gather]. rewrite (window_frame c1 c') by (intros; apply Hfr; set_solver).
      rewrite Hwin1. cbn [mbind option_bind]. rewrite Hg'. cbn [mbind option_bind]. f_equal.
      rewrite take_app_le by (unfold size in *; lia). simpl. rewrite <- !app_assoc. f_equal.
      assert (∀ t, bs ++ t = take n bs ++ drop n bs ++ t) as ->
        by (intros; by rewrite app_assoc, take_drop).
      f_equal. rewrite drop_app.
      destruct (decide (length bs <= n)%nat) as [Hshort|Hlong].
      * rewrite (drop_ge bs), (take_ge bs) by lia. simpl. f_equal. f_equal.
        unfold size in *. simpl. lia.
      * rewrite (drop_ge b1 (Z.to_nat (p + size (take n bs))))
          by (unfold size in *; rewrite length_take; lia).
        rewrite (drop_ge b1) by (unfold size in *; lia). simpl. f_equal. f_equal.
        unfold size in *. rewrite length_drop. lia.
    + intros r' Hr'. rewrite Hfr by set_solver. apply Hfr1. set_solver.
Qed.

(** ** Advancing twice *)

Lemma skip_leb_add a b vs : 0 <= a → 0 <= b → iovs_ok vs → a + b <= capacity vs →
  skip Z.leb a (skip Z.leb b vs) = skip Z.leb (b + a) vs.
Proof.
  revert a b. induction vs as [|v vs IH]; intros a b Ha Hb Hok Hc; [done|].
  apply iovs_ok_cons in Hok as (Hv & Hok & Hw). pose proof (capacity_nonneg _ (proj1 Hok)).
  cbn [capacity foldr] in Hc. fold (capacity vs) in Hc. cbn [skip].
  destruct (iov_len v <=? b) eqn:Hb1; bool_to_Z.
  - rewrite (proj2 (Z.leb_le (iov_len v) (b + a))) by lia. rewrite IH by (done || lia).
    f_equal. lia.
  - cbn [skip]. rewrite advance_iovec_len by lia.
    destruct (iov_len v - b <=? a) eqn:Ha1; bool_to_Z.
    + rewrite (proj2 (Z.leb_le (iov_len v) (b + a))) by lia. f_equal. lia.
    + rewrite (proj2 (Z.leb_gt (iov_len v) (b + a))) by lia. f_equal.
      unfold advance_iovec. simpl. rewrite u64_sub_l.
      destruct v as [[[r o]|] n]; simpl; f_equal; try (f_equal; lia); f_equal; f_equal; lia.
Qed.

Lemma skip_all vs : iovs_ok vs → skip Z.leb (capacity vs) vs = [].
Proof.
  induction vs as [|v vs IH]; intros Hok; [done|].
  apply iovs_ok_cons in Hok as (Hv & Hok & Hw). pose proof (capacity_nonneg _ (proj1 Hok)).
  cbn [capacity foldr skip]. fold (capacity vs).
  rewrite (proj2 (Z.leb_le _ _)) by lia. etrans; [|by apply IH]. f_equal. lia.
Qed.

(** Receiving never resizes what it fills. *)
Definition same_sizes (c c' : Connection) : Prop :=
  ∀ r, size <$> region_mem r c' = size <$> region_mem r c.

#[export] Instance same_sizes_preorder : PreOrder same_sizes.
Proof. split; [by intros c r|]. intros c1 c2 c3 H1 H2 r. by rewrite H2, H1. Qed.

Lemma set_region_mem_sizes r mem mem' c c' :
  region_mem r c = Some mem → set_region_mem r mem' c = Some c' → size mem' = size mem →
  same_sizes c c'.
Proof.
  intros Hm Hs Hsz r'. destruct (set_region_mem_ok _ _ _ _ _ Hm Hs) as (Hm' & Ho & _).
  destruct (decide (r' = r)) as [->|Hne]; [by rewrite Hm', Hm; simpl; rewrite Hsz|].
  by rewrite Ho.
Qed.

Lemma scatter_sizes vs bs c c' : scatter vs bs c = Some c' → same_sizes c c'.
Proof.
  revert bs c. induction vs as [|v vs IH]; intros bs c Hs; simpl in Hs.
  { destruct bs; by simplify_eq. }
  destruct (take _ bs) as [|x part]; [by apply IH in Hs|].
  destruct (iov_base v) as [[r off]|]; [|done].
  destruct (region_mem r c) as [mem|] eqn:Hm; [|done]. cbn [mbind option_bind] in Hs.
  destruct (write_at off (x :: part) mem) as [mem'|] eqn:Hw; [|done].
  cbn [mbind option_bind] in Hs.
  destruct (set_region_mem r mem' c) as [c1|] eqn:Hset; [|done]. cbn [mbind option_bind] in Hs.
  apply write_at_size in Hw. intros r'. rewrite (IH _ _ Hs r').
  by apply (set_region_mem_sizes _ _ _ _ _ Hm Hset Hw).
Qed.
