(* ===== verification/NetReceive.v ===== *)
(** * Receiving from a socket

    [Receive] puts the bytes that arrive after those already in the header;
    [ReceiveMessage] fills the vector of a message. Both return: the bytes to come
    and the patience of the kernel bound their loops. *)

From S2P Require Import Prelude NetBytes NetMessage NetState NetSocket NetIovec.

Section receive.
Context {K : Type} `{Kernel K} `{!KernelLaws K} `{!KernelPatience K}.
Abbreviation W := (World K).
Implicit Types (k : K) (w : W).

(** [bs] was read from the stream and [out] was written. *)
Record io (bs out : bytes) (k k' : K) : Prop := {
  io_in : incoming k = bs ++ incoming k';
  io_out : outgoing k' = outgoing k ++ out;
  io_patience : (patience k' <= patience k)%nat;
}.

Lemma io_refl k : io [] [] k k.
Proof. split; [done|by rewrite app_nil_r|lia]. Qed.

Lemma io_trans bs1 o1 bs2 o2 k1 k2 k3 :
  io bs1 o1 k1 k2 → io bs2 o2 k2 k3 → io (bs1 ++ bs2) (o1 ++ o2) k1 k3.
Proof.
  intros [I1 O1 P1] [I2 O2 P2]. split; [|by rewrite O2, O1, app_assoc|lia].
  by rewrite I1, I2, app_assoc.
Qed.

Lemma io_read_trans a b k1 k2 k3 : io a [] k1 k2 → io b [] k2 k3 → io (a ++ b) [] k1 k3.
Proof. apply (io_trans a [] b []). Qed.

(** Rounds enough for the loops from [k] on. *)
Definition budget k : nat := (length (incoming k) + patience k)%nat.

Lemma io_budget bs out k k' : io bs out k k' → (budget k' <= budget k)%nat.
Proof. intros [Hi _ Hp]. unfold budget. rewrite Hi, length_app. lia. Qed.

Lemma io_budget_lt bs out k k' : io bs out k k' → bs ≠ [] → (budget k' < budget k)%nat.
Proof.
  intros [Hi _ Hp] Hne. unfold budget. rewrite Hi, length_app.
  destruct bs; [done|]. simpl. lia.
Qed.

Lemma k_recv_io n k bs k' : 0 <= n → k_recv n k = (RBytes bs, k') →
  io bs [] k k' ∧ size bs <= n.
Proof.
  intros Hn Hk. destruct (recv_bytes n k bs k' Hn Hk) as (? & ? & Ho).
  destruct (patience_recv n k _ k' Hn Hk).
  split; [split; rewrite ?app_nil_r; done|done].
Qed.

Lemma k_recv_fail n k k' : 0 <= n → k_recv n k = (RFail, k') →
  io [] [] k k' ∧ (k_errno k' = EAGAIN → (budget k' < budget k)%nat).
Proof.
  intros Hn Hk. destruct (recv_fail n k k' Hk) as (Hi & ?).
  destruct (patience_recv n k _ k' Hn Hk) as [? He].
  split; [split; rewrite ?app_nil_r; done|]. intros Ha. unfold budget. rewrite Hi.
  specialize (He eq_refl Ha). lia.
Qed.

Lemma k_recv_eof n k bs k' : k_recv n k = (RBytes bs, k') →
  bs = [] → 0 < n → incoming k' = [].
Proof.
  intros Hk -> Hn. destruct (recv_bytes n k [] k' ltac:(lia) Hk) as (_ & Hi & _).
  rewrite <- (app_nil_l (incoming k')), <- Hi. by eapply recv_eof.
Qed.

(** Why less than what was asked for has arrived: the stream is at its end, or the
    kernel refused with bytes still to come; an error is reported only for the end
    of the stream or a broken connection. *)
Definition stalled (r : Z) k : Prop :=
  (incoming k = [] ∨
   ∃ n k0, 0 < n ∧ incoming k0 = incoming k ∧ (k_recv n k0).1 = RFail) ∧
  (r = IO_RW_ERROR → incoming k = [] ∨ is_closed (k_errno k) = true).

Lemma stalled_eof r k : incoming k = [] → stalled r k.
Proof. intros. split; by left. Qed.

Lemma stalled_fail n r k k' : 0 < n → k_recv n k = (RFail, k') →
  (r = IO_RW_ERROR → is_closed (k_errno k') = true) → stalled r k'.
Proof.
  intros Hn Hk Hr. split.
  - right. exists n, k. rewrite Hk. by destruct (recv_fail n k k' Hk) as [-> _].
  - intros. right. auto.
Qed.

Lemma stalled_ok n k k' : 0 < n → k_recv n k = (RFail, k') → stalled IO_RW_OK k'.
Proof. intros. by eapply stalled_fail. Qed.

(** The connection with other bytes in the header and another [errno]. *)
Definition with_header (hdr : bytes) (e : Z) (c : Connection) : Connection :=
  set_error_code e (set_recv_msg_header hdr c).

Definition received_part (c c' : Connection) (off : Z) (bs : bytes) : Prop :=
  ∃ hdr e, c' = with_header hdr e c ∧ size hdr = header_size ∧
    take (Z.to_nat (off + size bs)) hdr = take (Z.to_nat off) (recv_msg_header c) ++ bs.

Lemma received_part_refl c off : size (recv_msg_header c) = header_size →
  received_part c c off [].
Proof.
  intros Hs. exists (recv_msg_header c), (error_code c). split_and!; [by destruct c|done|].
  rewrite app_nil_r. f_equal. unfold size. simpl. lia.
Qed.

Lemma received_part_errno c c' off bs e :
  received_part c c' off bs → received_part c (set_error_code e c') off bs.
Proof.
  intros (hdr & e' & -> & ? & ?). exists hdr, e. by split_and!.
Qed.

Lemma received_part_trans c c1 c2 off a b :
  received_part c c1 off a → received_part c1 c2 (off + size a) b →
  received_part c c2 off (a ++ b).
Proof.
  intros (h1 & e1 & -> & S1 & T1) (h2 & e2 & -> & S2 & T2).
  exists h2, e2. split_and!; [done|done|].
  rewrite size_app, Z.add_assoc, T2. simpl. rewrite T1. by rewrite app_assoc.
Qed.

Lemma received_part_size c c' off bs :
  received_part c c' off bs → size (recv_msg_header c') = header_size.
Proof. by intros (? & ? & -> & ? & _). Qed.

(** One [recv] into the header. *)
Lemma recv_header_spec w off n (Q : recv_result → W → Prop) :
  size (recv_msg_header (conn w)) = header_size → 0 <= off → 0 <= n → off + n <= header_size →
  (∀ bs c' k', io bs [] (kernel w) k' → size bs <= n → received_part (conn w) c' off bs →
     (bs = [] → 0 < n → incoming k' = []) → Q (RBytes bs) (MkWorld c' k' (trace w))) →
  (∀ k', io [] [] (kernel w) k' → k_recv n (kernel w) = (RFail, k') →
     Q RFail (set_kernel k' w)) →
  wp (recv_header off n) w Q.
Proof.
  intros Hs Ho Hn Hle HB HF. unfold wp, recv_header.
  destruct (k_recv n (kernel w)) as [[bs|] k'] eqn:Hk; cycle 1.
  { destruct (k_recv_fail _ _ _ Hn Hk). by apply HF. }
  pose proof (k_recv_eof _ _ _ _ Hk) as He.
  apply k_recv_io in Hk as [Hio Hb]; [|done].
  destruct (write_at_ok off bs (recv_msg_header (conn w))) as (mem & Hw & Hm & Ht);
    [done|lia|]. rewrite Hw. apply HB; [done|done| |done].
  exists mem, (error_code (conn w)). split_and!; [by destruct (conn w)|lia|done].
Qed.

(** What [Receive] has done when it returns. *)
Definition Receive_post (w : W) (off n : Z) (r : Z * Z) (w' : W) : Prop :=
  ∃ bs, io bs [] (kernel w) (kernel w') ∧ r.2 = size bs ∧ size bs <= n ∧
    received_part (conn w) (conn w') off bs ∧ trace w' = trace w ∧
    (r.1 = IO_RW_OK ∨ r.1 = IO_RW_ERROR ∧ size bs < n) ∧
    (size bs < n → stalled r.1 (kernel w')).

Lemma Receive_loop_spec fuel w off n done' :
  (budget (kernel w) < fuel)%nat → size (recv_msg_header (conn w)) = header_size →
  0 <= off → 0 <= done' <= n → off + (n - done') <= header_size → n <= header_size →
  wp (Receive_loop fuel off n done') w (λ r w',
    ∃ bs, io bs [] (kernel w) (kernel w') ∧ r.2 = done' + size bs ∧ size bs <= n - done' ∧
      received_part (conn w) (conn w') off bs ∧ trace w' = trace w ∧
      (r.1 = IO_RW_OK ∨ r.1 = IO_RW_ERROR ∧ size bs < n - done') ∧
      (size bs < n - done' → stalled r.1 (kernel w'))).
Proof.
  revert w off done'. induction fuel as [|fuel IH]; intros w off d Hf Hs Ho Hd Hle Hn; [lia|].
  unfold header_size in *. cbn [Receive_loop].
  destruct (d =? n) eqn:Heq; bool_to_Z.
  { apply wp_ret. exists []. cbn [fst snd]. rewrite size_nil.
    split_and!; [apply io_refl|lia..| |done|by left|lia]. by apply received_part_refl. }
  rewrite (u64_small (n - d)) by (unfold w64; lia).
  apply wp_bind, recv_header_spec; [done..|lia|unfold header_size; lia| |].
  - intros bs c' k' Hio Hb Hp He. destruct bs as [|x bs'].
    { net_steps. exists []. simpl. rewrite size_nil in *. split_and!; try done; try lia.
      - by apply received_part_errno.
      - intros. apply stalled_eof, He; [done|lia]. }
    set (bs := x :: bs') in *.
    assert (0 < size bs) by (unfold bs; rewrite size_cons; pose proof (size_nonneg bs'); lia).
    rewrite (u64_small (d + size bs)) by (unfold w64; lia).
    destruct (d + size bs =? n) eqn:Hend; bool_to_Z.
    + apply wp_ret. exists bs. simpl. split_and!; try done; lia.
    + eapply wp_mono.
      { apply (IH (MkWorld c' k' (trace w)) (off + size bs) (d + size bs)); simpl; try lia.
        - apply io_budget_lt in Hio; [lia|done].
        - by eapply received_part_size. }
      intros [ret len] w' (bs2 & Hio2 & Hlen & Hb2 & Hp2 & Htr & Hret & Hst). simpl in *.
      exists (bs ++ bs2). rewrite size_app. split_and!; try done; try lia.
      * by apply (io_read_trans bs bs2 _ k').
      * by eapply received_part_trans.
      * intros. apply Hst. lia.
  - intros k' Hio Hk. net_steps. simpl.
    destruct (k_errno k' =? EAGAIN) eqn:Ha; [|destruct (is_closed (k_errno k')) eqn:Hc];
      net_steps; exists []; simpl; rewrite size_nil;
      (split_and!; try done; try lia; try (intros; first [eapply stalled_ok; [|exact Hk]; lia | eapply stalled_fail; [|exact Hk|done]; lia])).
    + by apply received_part_refl.
    + by apply received_part_errno, received_part_refl.
    + by apply received_part_refl.
Qed.

Lemma Receive_spec fuel w off n :
  (budget (kernel w) < fuel)%nat → size (recv_msg_header (conn w)) = header_size →
  0 <= off → 0 <= n → off + n <= header_size →
  wp (Receive fuel off n) w (Receive_post w off n).
Proof.
  intros. eapply wp_mono; [apply Receive_loop_spec; try done; lia|].
  intros r w' (bs & Hbs). rewrite Z.sub_0_r in Hbs. by exists bs.
Qed.

(** ** Receiving into a vector

    [got] is what the vector [L0] has received so far. *)
Record filling (L0 : list iovec) (got : bytes) (c : Connection) : Prop := {
  filling_hdr : hdr_ok (recv_io_vec c) (recv_kernel_msg c);
  filling_ok : iovs_ok (live (recv_io_vec c) (recv_kernel_msg c));
  filling_live : skip Z.leb 0 (live (recv_io_vec c) (recv_kernel_msg c)) =
                 skip Z.leb (size got) L0;
  filling_capacity : capacity (live (recv_io_vec c) (recv_kernel_msg c)) =
                     capacity L0 - size got;
  filling_mem : ∃ rest, gather c L0 = Some (got ++ rest);
}.

(** A vector that can be received into. *)
Record destination (L0 : list iovec) : Prop := {
  destination_ok : iovs_ok L0;
  destination_nodup : NoDup (iov_regions L0);
  destination_recv : Forall receivable (iov_regions L0);
}.

Lemma scatter_filling L0 got c bs :
  destination L0 → filling L0 got c → size bs <= capacity L0 - size got →
  ∃ c', scatter (live (recv_io_vec c) (recv_kernel_msg c)) bs c = Some c' ∧
    (∃ rest, gather c' L0 = Some ((got ++ bs) ++ rest)) ∧
    (∀ r, r ∉ iov_regions L0 → region_mem r c' = region_mem r c) ∧ touched c c'.
Proof.
  intros [Hok Hnd Hrec] [Hh Hl Hlive Hcap (rest & Hg)] Hb.
  pose proof (gather_size _ _ _ (proj1 Hok) Hg) as Hsz. rewrite size_app in Hsz.
  pose proof (size_nonneg rest).
  destruct (scatter_skip L0 c (got ++ rest) (size got) bs) as (c' & Hs & Hg' & Hf & Ht);
    try done; [apply size_nonneg|rewrite size_app; lia|].
  exists c'. rewrite <- scatter_skip_0, Hlive by done. split_and!; [done| |done|done].
  rewrite Hg'. unfold size at 1. rewrite Nat2Z.id, take_app_length.
  eexists. rewrite <- app_assoc. done.
Qed.

(** Receiving leaves the vector of a connection alone when it scatters. *)
Lemma scatter_iov vs bs c c' : scatter vs bs c = Some c' →
  recv_io_vec c' = recv_io_vec c ∧ recv_kernel_msg c' = recv_kernel_msg c.
Proof.
  revert bs c. induction vs as [|v vs IH]; intros bs c Hs; simpl in Hs.
  { destruct bs; by simplify_eq. }
  destruct (take _ bs); [by apply IH in Hs|].
  destruct (iov_base v) as [[r off]|]; [|done].
  destruct (region_mem r c); [|done]. simpl in Hs.
  destruct (write_at _ _ _) as [mem|]; [|done]. simpl in Hs.
  destruct (set_region_mem r mem c) as [c1|] eqn:Hset; [|done]. simpl in Hs.
  apply IH in Hs as [-> ->]. destruct c, r; simplify_option_eq; done.
Qed.

Definition scattered (L0 : list iovec) (got bs : bytes) (c c' : Connection) : Prop :=
  filling L0 (got ++ bs) c' ∧
  (∀ r, r ∉ iov_regions L0 → region_mem r c' = region_mem r c) ∧ touched c c' ∧
  same_sizes c c'.

Lemma scattered_trans L0 got a b c c1 c2 :
  scattered L0 got a c c1 → scattered L0 (got ++ a) b c1 c2 → scattered L0 got (a ++ b) c c2.
Proof.
  intros (_ & F1 & T1 & S1) (? & F2 & T2 & S2).
  split_and!; [by rewrite app_assoc| |by etrans|by etrans].
  intros r Hr. by rewrite F2, F1.
Qed.

Lemma scattered_refl L0 got c : filling L0 got c → scattered L0 got [] c c.
Proof. intros. split_and!; [by rewrite app_nil_r|done|reflexivity..]. Qed.

Lemma filling_errno L0 got c e : filling L0 got c → filling L0 got (set_error_code e c).
Proof.
  intros [Hh Hl Hlive Hcap (rest & Hg)]. split; try done. exists rest.
  rewrite <- Hg. apply gather_frame. intros []; done.
Qed.

Lemma scattered_errno L0 got bs c c' e :
  scattered L0 got bs c c' → scattered L0 got bs c (set_error_code e c').
Proof.
  intros (? & Hr & ? & Hs). split_and!; [by apply filling_errno| | |].
  - intros r Hin. rewrite <- Hr by done. by destruct r.
  - etrans; [done|]. apply touched_errno.
  - intros r. rewrite <- Hs. by destruct r.
Qed.

Lemma gather_iov c iov vs : gather (set_recv_iov iov c) vs = gather c vs.
Proof. apply gather_frame. intros r _. by destruct iov, r. Qed.

(** The end of a vector, and the middle of one. *)
Lemma scattered_end L0 got bs c c' : destination L0 →
  filling L0 got c → size got + size bs = capacity L0 →
  scatter (live (recv_io_vec c) (recv_kernel_msg c)) bs c = Some c' →
  scattered L0 got bs c (set_recv_kernel_msg (clear_iovlen (recv_kernel_msg c')) c').
Proof.
  intros Hdest Hfill Hend Hs.
  destruct (scatter_filling L0 got c bs Hdest Hfill) as (c'' & Hs' & (rest & Hg) & Hr & Ht); [lia|].
  rewrite Hs in Hs'. injection Hs' as <-.
  pose proof (scatter_sizes _ _ _ _ Hs) as Hsz.
  apply scatter_iov in Hs as [Hvec Hhdr].
  assert (∀ r, region_mem r (set_recv_kernel_msg (clear_iovlen (recv_kernel_msg c')) c') =
    region_mem r c') as Hm by (by intros []).
  split_and!.
  - split; simpl; try done.
    + destruct (filling_hdr _ _ _ Hfill) as [? ?]. rewrite Hvec, Hhdr. split; simpl; lia.
    + by rewrite size_app, Hend, skip_all by apply Hdest.
    + rewrite size_app. lia.
    + exists rest. rewrite <- Hg. apply gather_frame. intros; apply Hm.
  - intros r Hin. rewrite Hm. by apply Hr.
  - etrans; [done|]. apply (touched_iov c' (recv_io_vec c', _)).
  - intros r. by rewrite Hm, Hsz.
Qed.

Lemma leb_true a b : (a <=? b) = true → a <= b.
Proof. apply Z.leb_le. Qed.
Lemma leb_false a b : (a <=? b) = false → b <= a.
Proof. intros. bool_to_Z. lia. Qed.
Lemma leb_sub a b c : (a + b <=? c) = (a <=? c - b).
Proof. apply eq_true_iff_eq. rewrite !Z.leb_le. lia. Qed.

Lemma scattered_more L0 got bs c c' : destination L0 →
  filling L0 got c → size got + size bs < capacity L0 →
  scatter (live (recv_io_vec c) (recv_kernel_msg c)) bs c = Some c' →
  ∃ iov, advance Z.leb (size bs) (recv_io_vec c') (recv_kernel_msg c') = Some iov ∧
    scattered L0 got bs c (set_recv_iov iov c').
Proof.
  intros Hdest Hfill Hend Hs. pose proof (size_nonneg got). pose proof (size_nonneg bs).
  destruct (scatter_filling L0 got c bs Hdest Hfill) as (c'' & Hs' & (rest & Hg) & Hr & Ht); [lia|].
  rewrite Hs in Hs'. injection Hs' as <-.
  pose proof (scatter_sizes _ _ _ _ Hs) as Hsz.
  apply scatter_iov in Hs as [Hvec Hhdr]. rewrite Hvec, Hhdr.
  destruct Hfill as [Hh Hl Hlive Hcap _].
  destruct (advance_spec Z.leb leb_true leb_sub _ _ (size bs) Hh Hl)
    as (vec' & h' & Ha & Hl' & Hh' & _); [lia|left; lia|].
  exists (vec', h'). split; [done|].
  destruct (skip_ok Z.leb leb_true leb_false (size bs) _ ltac:(done) Hl) as [Hok' Hcap']; [lia|].
  split_and!.
  - split; simpl; try done.
    + by rewrite Hl'.
    + rewrite Hl', size_app, <- (skip_leb_add (size bs) (size got)) by (done || lia || apply Hdest).
      rewrite <- Hlive. rewrite !skip_leb_add by (done || lia). f_equal. lia.
    + rewrite Hl', Hcap', size_app. lia.
    + exists rest. rewrite <- Hg. apply (gather_iov c' (vec', h')).
  - intros r Hin. rewrite <- Hr by done. by destruct r.
  - etrans; [done|]. apply touched_iov.
  - intros r. rewrite <- Hsz. by destruct r.
Qed.

Lemma scattered_nothing L0 got c c' : destination L0 → filling L0 got c →
  scatter (live (recv_io_vec c) (recv_kernel_msg c)) [] c = Some c' →
  scattered L0 got [] c c'.
Proof.
  intros Hdest Hfill Hs.
  destruct (scatter_filling L0 got c [] Hdest Hfill) as (c'' & Hs' & (rest & Hg) & Hr & Ht).
  { rewrite <- (filling_capacity _ _ _ Hfill). apply capacity_nonneg, Hfill. }
  rewrite Hs in Hs'. injection Hs' as <-.
  split_and!; [|done..|by eapply scatter_sizes].
  apply scatter_iov in Hs as [Hv Hh].
  destruct Hfill. split; rewrite ?Hv, ?Hh, ?app_nil_r in *; try done. by exists rest.
Qed.

(** One [recvmsg]. *)
Lemma recvmsg_spec L0 got w (Q : recv_result → W → Prop) :
  destination L0 → filling L0 got (conn w) →
  (∀ bs c' k', io bs [] (kernel w) k' → size bs <= capacity L0 - size got →
     scatter (live (recv_io_vec (conn w)) (recv_kernel_msg (conn w))) bs (conn w) = Some c' →
     (bs = [] → 0 < capacity L0 - size got → incoming k' = []) →
     Q (RBytes bs) (MkWorld c' k' (trace w))) →
  (∀ k', io [] [] (kernel w) k' → (k_errno k' = EAGAIN → (budget k' < budget (kernel w))%nat) →
     k_recv (capacity L0 - size got) (kernel w) = (RFail, k') → Q RFail (set_kernel k' w)) →
  wp recvmsg w Q.
Proof.
  intros Hdest Hfill HB HF. unfold wp, recvmsg.
  assert (0 <= capacity L0 - size got) as Hn.
  { rewrite <- (filling_capacity _ _ _ Hfill). apply capacity_nonneg, Hfill. }
  rewrite (filling_capacity _ _ _ Hfill).
  destruct (k_recv _ (kernel w)) as [[bs|] k'] eqn:Hk; cycle 1.
  { destruct (k_recv_fail _ _ _ Hn Hk). by apply HF. }
  pose proof (k_recv_eof _ _ _ _ Hk) as He.
  apply k_recv_io in Hk as [Hio Hb]; [|done].
  destruct (scatter_filling L0 got (conn w) bs Hdest Hfill Hb) as (c' & Hs & _).
  rewrite Hs. by apply HB.
Qed.

(** What [ReceiveMessage] has done when it returns. *)
Definition ReceiveMessage_post (L0 : list iovec) (got : bytes) (w : W) (len0 : Z)
    (r : Z * Z) (w' : W) : Prop :=
  ∃ bs, io bs [] (kernel w) (kernel w') ∧ r.2 = len0 + size bs ∧
    size bs <= capacity L0 - size got ∧
    scattered L0 got bs (conn w) (conn w') ∧ trace w' = trace w ∧
    (r.1 = IO_RW_OK ∨ r.1 = IO_RW_ERROR ∧ size bs < capacity L0 - size got) ∧
    (size bs < capacity L0 - size got → stalled r.1 (kernel w')).

Lemma ReceiveMessage_loop_spec fuel L0 got w total len :
  (budget (kernel w) < fuel)%nat → destination L0 → filling L0 got (conn w) →
  0 <= len → total - len = capacity L0 - size got → total < w64 →
  wp (ReceiveMessage_loop fuel total len) w (ReceiveMessage_post L0 got w len).
Proof.
  revert w got len. induction fuel as [|fuel IH];
    intros w got len Hf Hdest Hfill Hlen Htot Hw; [lia|].
  assert (0 <= capacity L0 - size got) as Hpos.
  { rewrite <- (filling_capacity _ _ _ Hfill). apply capacity_nonneg, Hfill. }
  cbn [ReceiveMessage_loop]. destruct (len <? total) eqn:Hlt; simpl; bool_to_Z.
  2:{ apply wp_ret. exists []. cbn [fst snd]. rewrite size_nil.
      split_and!; [apply io_refl|lia..| |done|by left|lia]. by apply scattered_refl. }
  apply wp_bind, (recvmsg_spec L0 got); [done..| |].
  - intros bs c' k' Hio Hb Hs He. destruct bs as [|x bs'].
    { apply wp_ret. exists []. simpl. rewrite size_nil in *. split_and!; try done; try lia.
      - by apply scattered_nothing.
      - intros. by apply stalled_eof, He. }
    set (bs := x :: bs') in *.
    assert (0 < size bs) by (unfold bs; rewrite size_cons; pose proof (size_nonneg bs'); lia).
    rewrite (u64_small (len + size bs)) by lia.
    destruct (len + size bs =? total) eqn:Hend; bool_to_Z.
    + net_steps. exists bs. simpl. split_and!; try done; try lia.
      by apply scattered_end; [..|lia|].
    + destruct (scattered_more L0 got bs (conn w) c') as (iov & Ha & Hsc); try done; [lia|].
      net_steps. simpl. rewrite Ha. apply (wp_deref _ iov); [done|]. net_steps. simpl.
      eapply wp_mono.
      { apply (IH _ (got ++ bs)); simpl; try done; try (rewrite ?size_app; lia).
        - apply io_budget_lt in Hio; [lia|done].
        - apply Hsc. }
      intros [ret l] w' (bs2 & Hio2 & Hl2 & Hb2 & Hp2 & Htr & Hret & Hst).
      rewrite size_app in *. simpl in *.
      exists (bs ++ bs2). rewrite size_app. simpl. split_and!; try done; try lia.
      * by apply (io_read_trans bs bs2 _ k').
      * by apply (scattered_trans L0 got bs bs2 _ (set_recv_iov iov c')).
      * intros. apply Hst. lia.
  - intros k' Hio He Hk. net_steps. simpl.
    destruct (k_errno k' =? EAGAIN) eqn:Hag; [|destruct (is_closed (k_errno k')) eqn:Hc]; bool_to_Z.
    + eapply wp_mono; [apply (IH (set_kernel k' w) got); try done; specialize (He Hag); simpl; lia|].
      intros [ret l] w' (bs2 & Hio2 & Hrest). exists bs2. split; [|done].
      by apply (io_read_trans [] bs2 _ k').
    + net_steps. exists []. simpl. rewrite size_nil. split_and!; try done; try lia.
      * by apply scattered_errno, scattered_refl.
      * intros. eapply stalled_fail; [|exact Hk|done]. lia.
    + net_steps. exists []. simpl. rewrite size_nil. split_and!; try done; try lia.
      * by apply scattered_refl.
      * intros. eapply stalled_ok; [|exact Hk]. lia.
Qed.

Lemma ReceiveMessage_spec fuel L0 got w :
  (budget (kernel w) < fuel)%nat → destination L0 → filling L0 got (conn w) →
  wp (ReceiveMessage fuel (capacity L0 - size got) 0) w (ReceiveMessage_post L0 got w 0).
Proof.
  intros Hf Hdest Hfill. unfold ReceiveMessage.
  destruct (capacity L0 - size got =? 0) eqn:Hz; bool_to_Z.
  - apply wp_ret. exists []. rewrite Hz. cbn [fst snd]. rewrite size_nil.
    split_and!; [apply io_refl|lia..| |done|by left|lia]. by apply scattered_refl.
  - apply ReceiveMessage_loop_spec; try done; [lia|].
    destruct (destination_ok _ Hdest). pose proof (size_nonneg got). lia.
Qed.
End receive.
