(* ===== verification/Connection.v ===== *)
(** * Connection

    The operations of [Connection] of net/src/connection.cc on messages, and those
    of [TCPComm] of net/src/tcp_comm.cc on one connection: filling, parsing,
    flushing and dispatching messages. *)

From S2P Require Import Prelude NetBytes NetMessage NetState NetSocket.

(** [EPOLLOUT | EPOLLIN | EPOLLHUP | EPOLLERR]. *)
Definition EPOLL_SEND_AGAIN : Z := 29.

Definition digits : bytes :=
  [x30; x31; x32; x33; x34; x35; x36; x37; x38; x39; x61; x62; x63; x64; x65; x66].

(** [std::hex << n], for the [n] below [16 ^ fuel]. *)
Fixpoint hex (fuel : nat) (n : Z) : bytes :=
  match fuel with
  | O => []
  | S fuel =>
      (if n <? 16 then [] else hex fuel (n / 16)) ++
      [default x00 (digits !! Z.to_nat (n mod 16))]
  end.

(** [s.find(sub)] of a substring. *)
Fixpoint find_sub (sub s : bytes) (pos : Z) : Z :=
  if bool_decide (take (length sub) s = sub) then pos
  else match s with [] => npos | _ :: s => find_sub sub s (pos + 1) end.

Definition text (s : string) : bytes := String.list_byte_of_string s.
Definition crlf : bytes := [x0d; x0a].

Section connection.
Context {K : Type} `{Kernel K} `{NetEnv}.
Abbreviation W := (World K).
Implicit Types (fuel : nat).

(** ** The data of a message *)

Definition GetMessageBaseRealData (data body : region) (m : option MessageBase)
    : option (region * Z) :=
  match m with
  | None => None
  | Some m =>
      match msg_data m with
      | Some _ => Some (data, 0)
      | None => match msg_body m with [] => None | _ => Some (body, 0) end
      end
  end.

Definition GetMessageBaseRealDataSize (m : option MessageBase) : Z :=
  match m with
  | None => 0
  | Some m =>
      match msg_data m with
      | Some _ => msg_size m
      | None => match msg_body m with [] => 0 | b => size b end
      end
  end.

Definition FreeMessageMemory (m : option MessageBase) : M W bool :=
  match m with
  | None => mret false
  | Some m =>
      match msg_data m with
      | None => mret true
      | Some mem =>
          free ← get_conn free_cb_;
          match free with
          | None => mret false
          | Some free => emit (FreedData mem);; mret (free mem)
          end
      end
  end.

(** ** Sending *)

Definition GenerateHttpMessage (m : MessageBase) (advertise : bytes) : bytes :=
  let postLine :=
    match aid_name (msg_to m) with
    | [] => text "POST /" ++ msg_name m
    | n => text "POST /" ++ n ++ text "/" ++ msg_name m
    end ++ text " HTTP/1.1" ++ crlf in
  let userAgentLine :=
    text "User-Agent: libprocess/" ++ aid_name (msg_from m) ++ text "@" ++ advertise ++ crlf in
  let fromLine :=
    text "Libprocess-From: " ++ aid_name (msg_from m) ++ text "@" ++ advertise ++ crlf in
  let connectLine := text "Connection: Keep-Alive" ++ crlf in
  let hostLine := text "Host: " ++ crlf in
  let head := postLine ++ userAgentLine ++ fromLine ++ connectLine ++ hostLine in
  match msg_body m with
  | [] => head ++ crlf
  | b => head ++ text "Transfer-Encoding: chunked" ++ crlf ++ crlf ++
         hex 16 (size b) ++ crlf ++ b ++ crlf ++ text "0" ++ crlf ++ crlf
  end.

Definition url_address (url : bytes) : bytes :=
  let idx := find_sub URL_PROTOCOL_IP_SEPARATOR url 0 in
  if idx =? npos then url else drop (Z.to_nat idx + length URL_PROTOCOL_IP_SEPARATOR) url.

Definition fill_metrics (real_data_size : Z) (name : bytes) : M W unit :=
  ms ← get_conn send_metrics;
  ms ← deref ms;
  upd_conn (set_send_metrics (Some (set_last_send_name name (UpdateMax real_data_size ms)))).

(** The entries of a frame in [send_io_vec]. *)
Definition frame_iovecs (msg : MessageBase) (to from : bytes) : list iovec :=
  [ MkIovec (Some (SendHeader, 0)) header_size;
    MkIovec (Some (SendName, 0)) (size (msg_name msg));
    MkIovec (Some (SendTo, 0)) (size to);
    MkIovec (Some (SendFrom, 0)) (size from);
    MkIovec (GetMessageBaseRealData SendData SendBody (Some msg))
            (GetMessageBaseRealDataSize (Some msg)) ].

Definition FillSendMessage (msg : option MessageBase) (advertiseUrl : bytes)
    (isHttpKmsg : bool) : M W unit :=
  ms ← get_conn send_metrics;
  match msg, ms with
  | Some msg, Some _ =>
      if negb (bool_decide (msg_type msg = KMSG)) then mret () else
      if negb isHttpKmsg then
        let to := aid_string (msg_to msg) in
        let from := aid_string (msg_from msg) in
        upd_conn (set_send_to to);;
        upd_conn (set_send_from from);;
        upd_conn (λ c, set_send_msg_header (FillMessageHeader msg (send_msg_header c)) c);;
        let real_data_size := GetMessageBaseRealDataSize (Some msg) in
        upd_conn (set_send_io_vec (frame_iovecs msg to from));;
        upd_conn (set_send_kernel_msg (MkMsghdr 0 5));;
        upd_conn (set_total_send_len
          (u64 (header_size + size (msg_name msg) + size to + size from + real_data_size)));;
        upd_conn (set_send_message (Some msg));;
        fill_metrics real_data_size (msg_name msg)
      else
        addr ← get_conn advertise_addr_;
        whenM (bool_decide (addr = []))
          (upd_conn (set_advertise_addr_ (url_address advertiseUrl)));;
        addr ← get_conn advertise_addr_;
        let msg := set_msg_body (GenerateHttpMessage msg addr) msg in
        let real_data_size := GetMessageBaseRealDataSize (Some msg) in
        upd_conn (λ c, set_send_io_vec
          (<[0%nat := MkIovec (GetMessageBaseRealData SendData SendBody (Some msg))
                              real_data_size]> (send_io_vec c)) c);;
        upd_conn (set_send_kernel_msg (MkMsghdr 0 1));;
        upd_conn (set_total_send_len (u32 real_data_size));;
        upd_conn (set_send_message (Some msg));;
        fill_metrics real_data_size (msg_name msg)
  | _, _ => mret ()
  end.

Definition update_error (fail : bool) (err : Z) : M W unit :=
  ms ← get_conn send_metrics;
  ms ← deref ms;
  upd_conn (set_send_metrics (Some (UpdateError fail err ms))).

Fixpoint Flush_loop fuel (total_send_bytes : Z) : M W Z :=
  match fuel with
  | O => throw running
  | S fuel' =>
      queue ← get_conn send_message_queue;
      total ← get_conn total_send_len;
      if bool_decide (queue = []) && (total =? 0) then mret total_send_bytes else
      (if total =? 0 then
         front ← deref (head queue);
         url ← get_conn source;
         FillSendMessage front url false;;
         upd_conn (λ c, set_send_message_queue (tail (send_message_queue c)) c)
       else mret ());;
      total ← get_conn total_send_len;
      '(retval, sendLen) ← SendMessage fuel total;
      if (retval =? IO_RW_OK) && (0 <? sendLen) then
        upd_conn (λ c, set_total_send_len (total_send_len c -64 sendLen) c);;
        total ← get_conn total_send_len;
        if total =? 0 then
          update_error false 0;;
          msg ← get_conn send_message;
          let real_data_size := GetMessageBaseRealDataSize msg in
          upd_conn (λ c, set_output_buffer_size (output_buffer_size c -64 real_data_size) c);;
          FreeMessageMemory msg;;
          upd_conn (set_send_message None);;
          mret (total_send_bytes +64 real_data_size)
        else Flush_loop fuel' total_send_bytes
      else if (retval =? IO_RW_OK) && (sendLen =? 0) then
        emit (UpdatedEpoll EPOLL_SEND_AGAIN);;
        Flush_loop fuel' total_send_bytes
      else
        err ← get_conn error_code;
        update_error true err;;
        upd_conn (set_conn_state kDisconnecting);;
        mret total_send_bytes
  end.

Definition Flush fuel : M W Z := Flush_loop fuel 0.

(** ** Receiving *)

Definition SetUrlForRecvMessage : M W bool :=
  from ← get_conn recv_from;
  to ← get_conn recv_to;
  let recv_from_separator_pos := find at_sign from in
  let recv_to_separator_pos := find at_sign to in
  if (recv_from_separator_pos =? npos) && (recv_to_separator_pos =? npos) then mret false else
  from_name ← deref (substr from 0 recv_from_separator_pos);
  from_url ← deref (substr from (recv_from_separator_pos +64 1) npos);
  to_name ← deref (substr to 0 recv_to_separator_pos);
  to_url ← deref (substr to (recv_to_separator_pos +64 1) npos);
  msg ← get_conn recv_message;
  msg ← deref msg;
  upd_conn (set_recv_message (Some
    (set_msg_ends (normalise_aid (MkAID from_name from_url))
                  (normalise_aid (MkAID to_name to_url)) msg)));;
  mret true.

(** The header of a frame, read through the memory it was received into. *)
Definition received_header (c : Connection) : MessageHeader :=
  header_of_image (recv_msg_header c).

Definition payload_iovecs (msg : MessageBase) (to from : bytes) : list iovec :=
  [ MkIovec (Some (RecvName, 0)) (size (msg_name msg));
    MkIovec (Some (RecvTo, 0)) (size to);
    MkIovec (Some (RecvFrom, 0)) (size from);
    MkIovec (GetMessageBaseRealData RecvData RecvBody (Some msg))
            (GetMessageBaseRealDataSize (Some msg)) ].

Definition FillRecvMessage : M W unit :=
  h ← get_conn received_header;
  let recvNameLen := name_len h in
  let recvToLen := to_len h in
  let recvFromLen := from_len h in
  let recvBodyLen := body_len h in
  if (MAX_KMSG_NAME_LEN <? recvNameLen) || (MAX_KMSG_TO_LEN <? recvToLen) ||
     (MAX_KMSG_FROM_LEN <? recvFromLen) || (MAX_KMSG_BODY_LEN <? recvBodyLen)
  then upd_conn (set_conn_state kDisconnecting)
  else
    let msg := set_msg_name (resize recvNameLen []) new_message in
    upd_conn (λ c, set_recv_to (resize recvToLen (recv_to c)) c);;
    upd_conn (λ c, set_recv_from (resize recvFromLen (recv_from c)) c);;
    allocate ← get_conn allocate_cb_;
    let msg := match allocate with
               | Some allocate => set_msg_data (allocate recvBodyLen) recvBodyLen msg
               | None => set_msg_body (resize recvBodyLen []) msg
               end in
    to ← get_conn recv_to;
    from ← get_conn recv_from;
    let real_data_size := GetMessageBaseRealDataSize (Some msg) in
    upd_conn (set_recv_io_vec (payload_iovecs msg to from));;
    upd_conn (set_recv_kernel_msg (MkMsghdr 0 4));;
    upd_conn (set_total_recv_len
      (u64 (size (msg_name msg) + size to + size from + real_data_size)));;
    upd_conn (set_recv_message (Some msg)).

(** The case [State::kBody]. *)
Definition ParseBody fuel : M W bool :=
  total ← get_conn total_recv_len;
  '(retval, recvLen) ← ReceiveMessage fuel total 0;
  if negb (recvLen =? total) then
    if negb (retval =? IO_RW_OK) then
      upd_conn (set_conn_state kDisconnecting);; mret false
    else
      upd_conn (λ c, set_total_recv_len (total_recv_len c -64 recvLen) c);; mret false
  else
    ok ← SetUrlForRecvMessage;
    if negb ok then mret false
    else upd_conn (set_recv_state kMsgHeader);; mret true.

(** The case [State::kMsgHeader], which falls through to [State::kBody]. *)
Definition ParseHeader fuel : M W bool :=
  len ← get_conn recv_len;
  '(retval, recvLen) ← Receive fuel len (header_size -64 len);
  if negb (retval =? IO_RW_OK) then
    upd_conn (set_conn_state kDisconnecting);;
    upd_conn (λ c, set_recv_len (recv_len c +64 recvLen) c);;
    mret false
  else if negb (recvLen +64 len =? header_size) then
    upd_conn (λ c, set_recv_len (recv_len c +64 recvLen) c);;
    mret false
  else
    upd_conn (set_recv_len 0);;
    h ← get_conn received_header;
    if negb (strncmp_eq 4 (magic h) RPC_MAGICID) then
      upd_conn (set_conn_state kDisconnecting);; mret false
    else
      upd_conn (λ c, set_recv_msg_header (header_image (ReorderHeader (received_header c))) c);;
      FillRecvMessage;;
      state ← get_conn conn_state;
      if bool_decide (state = kDisconnecting) then mret false
      else
        upd_conn (set_recv_state kBody);;
        ParseBody fuel.

Definition ParseMessage fuel : M W bool :=
  state ← get_conn recv_state;
  match state with
  | kMsgHeader => ParseHeader fuel
  | kBody => ParseBody fuel
  end.

Definition Connection_ReceiveMessage fuel : M W Z :=
  ok ← ParseMessage fuel;
  if negb ok then
    state ← get_conn conn_state;
    mret (if bool_decide (state = kDisconnecting) then -1 else 0)
  else
    handler ← get_conn message_handler;
    match handler with
    | Some handler =>
        msg ← get_conn recv_message;
        msg ← deref msg;
        seen ← gets (λ w, handled (trace w));
        emit (Handled msg);;
        match handler seen msg with
        | None => mret ()
        | result => FillSendMessage result [] false;; Flush fuel;; mret ()
        end
    | None => mret ()
    end;;
    mret 1.

Definition CheckMessageType : M W unit :=
  type ← get_conn recv_message_type;
  if negb (bool_decide (type = kUnknown)) then mret () else
  r ← (λ w, let '(r, k) := k_peek 4 (kernel w) in Ret r (set_kernel k w)) : M W recv_result;
  match r with
  | RFail => mret ()
  | RBytes bs =>
      if size bs <? 4 then
        whenM (size bs =? 0) (upd_conn (set_conn_state kDisconnecting))
      else
        whenM (strncmp_eq 4 RPC_MAGICID bs)
          (upd_conn (set_recv_state kMsgHeader);; upd_conn (set_recv_message_type kTcpMsg))
  end.

(** ** [TCPComm], on one connection *)

Definition TCPComm_ReceiveMessage fuel : M W Z :=
  CheckMessageType;;
  type ← get_conn recv_message_type;
  match type with
  | kTcpMsg => Connection_ReceiveMessage fuel
  | _ => mret 0
  end.

Definition max_recv_count : nat := 3.

Fixpoint ReadCallBack_loop (count fuel : nat) : M W unit :=
  match count with
  | O => mret ()
  | S count =>
      retval ← TCPComm_ReceiveMessage fuel;
      if 0 <? retval then ReadCallBack_loop count fuel else mret ()
  end.

Definition ReadCallBack fuel : M W unit := ReadCallBack_loop max_recv_count fuel.

Definition WriteCallBack fuel : M W unit :=
  state ← get_conn conn_state;
  if bool_decide (state = kConnected) then Flush fuel;; mret () else mret ().

(** The task of [Send], on the connection found for the receiver of the message:
    whether the message was accepted, and the bytes sent. *)
Definition Send fuel (msg : MessageBase) (url : bytes) : M W (bool * Z) :=
  queue ← get_conn send_message_queue;
  state ← get_conn conn_state;
  if SENDMSG_QUEUELEN <=? Z.of_nat (length queue) then
    FreeMessageMemory (Some msg);; mret (false, 0)
  else if negb (bool_decide (state = kConnected)) then
    FreeMessageMemory (Some msg);; mret (false, 0)
  else
    total ← get_conn total_send_len;
    (if total =? 0 then FillSendMessage (Some msg) url false
     else upd_conn (λ c, set_send_message_queue (send_message_queue c ++ [Some msg]) c));;
    bytes ← Flush fuel;
    mret (true, bytes).
End connection.
