(* ===== verification/NetParse.v ===== *)
(** * Parsing messages

    [ParseMessage] turns the stream of a socket into messages. Whatever the stream
    holds, it returns and keeps the connection well formed; on a stream of frames it
    yields the messages of the frames, in order. *)

From S2P Require Import Prelude NetBytes NetMessage NetState NetSocket NetIovec NetReceive.
From S2P Require Import Connection.

(** ** What parsing leaves alone *)

(** The members that receiving does not concern. *)
Definition send_side (c : Connection) :=
  (source c, send_metrics c, send_message c, total_send_len c, send_to c, send_from c,
   send_msg_header c, send_kernel_msg c, send_io_vec c, recv_message_type c,
   message_handler c, send_message_queue c, output_buffer_size c, allocate_cb_ c,
   free_cb_ c, advertise_addr_ c).

Lemma send_side_allocate c c' : send_side c = send_side c' → allocate_cb_ c = allocate_cb_ c'.
Proof. unfold send_side. congruence. Qed.

Lemma touched_eqs c c' : touched c c' →
  conn_state c' = conn_state c ∧ recv_state c' = recv_state c ∧
  total_recv_len c' = total_recv_len c ∧ recv_len c' = recv_len c ∧
  send_side c' = send_side c.
Proof. intros [<- _]. by destruct c'. Qed.


(** ** The vector of the message being received *)

Definition cur_iovecs (c : Connection) : list iovec :=
  match recv_message c with
  | Some msg => payload_iovecs msg (recv_to c) (recv_from c)
  | None => []
  end.

Lemma real_data_size_eq m : GetMessageBaseRealDataSize (Some m) = real_size m.
Proof. unfold real_size. simpl. by destruct (msg_data m), (msg_body m). Qed.

(** The message has been laid out and [got] of its payload has arrived. *)
Record body_ok (got : bytes) (c : Connection) : Prop := {
  body_msg : ∃ msg, recv_message c = Some msg ∧ data_ok msg ∧ msg_type msg = KMSG ∧
    size (msg_name msg) <= MAX_KMSG_NAME_LEN ∧ real_size msg <= MAX_KMSG_BODY_LEN;
  body_to : size (recv_to c) <= MAX_KMSG_TO_LEN;
  body_from : size (recv_from c) <= MAX_KMSG_FROM_LEN;
  body_filling : filling (cur_iovecs c) got c;
}.

Lemma cur_iovecs_sizes c c' : same_sizes c c' → touched c c' → cur_iovecs c' = cur_iovecs c.
Proof.
  intros Hs [_ Ht]. unfold cur_iovecs.
  pose proof (Hs RecvName) as Hn. pose proof (Hs RecvTo) as Hto. pose proof (Hs RecvFrom) as Hf.
  pose proof (Hs RecvBody) as Hb. pose proof (Hs RecvData) as Hd.
  simpl in *. destruct Ht as [m m' Hm|]; [|done]. simpl in *.
  unfold same_message, rest_of_message in Hm. injection Hm as _ _ Hms _ _.
  unfold payload_iovecs, GetMessageBaseRealDataSize, GetMessageBaseRealData.
  injection Hn as ->. injection Hto as ->. injection Hf as ->. injection Hb as Hb.
  destruct (msg_data m), (msg_data m'); try done; simpl; [by rewrite Hms|].
  unfold size in *. destruct (msg_body m), (msg_body m'); simpl in *; try done; try lia.
  do 5 f_equal. lia.
Qed.

Lemma cur_capacity c msg : recv_message c = Some msg →
  capacity (cur_iovecs c) = size (msg_name msg) + size (recv_to c) + size (recv_from c) +
                            real_size msg.
Proof.
  intros Hm. unfold cur_iovecs. rewrite Hm. unfold payload_iovecs, capacity.
  cbn [foldr iov_len]. rewrite real_data_size_eq. lia.
Qed.

Lemma window_whole r n c mem : region_mem r c = Some mem → 0 <= n <= size mem →
  window c (MkIovec (Some (r, 0)) n) = Some (take (Z.to_nat n) mem).
Proof.
  intros Hm Hn. unfold window. cbn [iov_base iov_len]. rewrite Hm. cbn [mbind option_bind].
  rewrite read_at_some by lia. done.
Qed.

Lemma take_size (s : bytes) : take (Z.to_nat (size s)) s = s.
Proof. apply take_ge. unfold size. lia. Qed.

(** What the whole vector holds. *)
Lemma gather_cur c msg : recv_message c = Some msg → data_ok msg →
  gather c (cur_iovecs c) = Some (msg_name msg ++ recv_to c ++ recv_from c ++ real_data msg).
Proof.
  intros Hm Hd. unfold cur_iovecs. rewrite Hm. unfold payload_iovecs. cbn [gather].
  rewrite (window_whole RecvName _ c (msg_name msg))
    by (simpl; rewrite ?Hm; pose proof (size_nonneg (msg_name msg)); done || lia).
  rewrite (window_whole RecvTo _ c (recv_to c))
    by (pose proof (size_nonneg (recv_to c)); done || lia).
  rewrite (window_whole RecvFrom _ c (recv_from c))
    by (pose proof (size_nonneg (recv_from c)); done || lia).
  rewrite !take_size. cbn [mbind option_bind].
  rewrite real_data_size_eq. unfold GetMessageBaseRealData, real_size, real_data.
  unfold data_ok in Hd. destruct (msg_data msg) as [mem|] eqn:Hdata.
  - rewrite (window_whole RecvData _ c mem) by (simpl; rewrite ?Hm; done).
    cbn [mbind option_bind]. by rewrite app_nil_r.
  - destruct (msg_body msg) as [|x b] eqn:Hb; [done|]. rewrite <- Hb.
    rewrite (window_whole RecvBody _ c (msg_body msg))
      by (simpl; rewrite ?Hm; pose proof (size_nonneg (msg_body msg)); done || lia).
    rewrite take_size. cbn [mbind option_bind]. by rewrite app_nil_r.
Qed.

Lemma cur_destination c msg : recv_message c = Some msg → data_ok msg →
  size (msg_name msg) <= MAX_KMSG_NAME_LEN → real_size msg <= MAX_KMSG_BODY_LEN →
  size (recv_to c) <= MAX_KMSG_TO_LEN → size (recv_from c) <= MAX_KMSG_FROM_LEN →
  destination (cur_iovecs c).
Proof.
  intros Hm Hd Hn Hb Ht Hf.
  unfold MAX_KMSG_NAME_LEN, MAX_KMSG_TO_LEN, MAX_KMSG_FROM_LEN, MAX_KMSG_BODY_LEN in *.
  pose proof (real_size_nonneg msg Hd). pose proof (size_nonneg (msg_name msg)).
  pose proof (size_nonneg (recv_to c)). pose proof (size_nonneg (recv_from c)).
  assert (capacity (cur_iovecs c) < w64) as Hcap.
  { rewrite (cur_capacity c msg Hm). unfold w64. lia. }
  unfold cur_iovecs in *. rewrite Hm in *. split.
  - split; [|done]. unfold payload_iovecs.
    repeat (apply Forall_cons; split; [cbn [iov_len]; rewrite ?real_data_size_eq; lia|]). done.
  - unfold payload_iovecs, iov_regions, GetMessageBaseRealData. simpl.
    destruct (msg_data msg); [|destruct (msg_body msg)]; simpl;
      repeat (apply NoDup_cons; split; [set_solver|]); apply NoDup_nil_2.
  - unfold payload_iovecs, iov_regions, GetMessageBaseRealData. simpl.
    destruct (msg_data msg); [|destruct (msg_body msg)]; simpl; repeat constructor.
Qed.

Lemma body_destination got c : body_ok got c → destination (cur_iovecs c).
Proof.
  intros [(msg & Hm & Hd & _ & Hn & Hb) Ht Hf _]. by apply (cur_destination c msg).
Qed.

Lemma region_size r c c' mem : same_sizes c c' → region_mem r c = Some mem →
  ∃ mem', region_mem r c' = Some mem' ∧ size mem' = size mem.
Proof.
  intros Hs Hm. specialize (Hs r). rewrite Hm in Hs.
  destruct (region_mem r c') as [mem'|]; [|done]. exists mem'. split; [done|].
  by injection Hs.
Qed.

(** Two connections between which only the bytes received differ. *)
Record same_shape (c c' : Connection) : Prop := {
  shape_msg : ∀ m, recv_message c = Some m → ∃ m', recv_message c' = Some m' ∧
    size (msg_name m') = size (msg_name m) ∧ real_size m' = real_size m ∧
    (data_ok m → data_ok m') ∧ rest_of_message m = rest_of_message m';
  shape_to : size (recv_to c') = size (recv_to c);
  shape_from : size (recv_from c') = size (recv_from c);
}.

Lemma touched_shape c c' : touched c c' → same_sizes c c' → same_shape c c'.
Proof.
  intros [_ Ht] Hs. split.
  - intros m Hm. rewrite Hm in Ht. inversion Ht as [? m' Hmm Hx Hm'|]. subst.
    exists m'. split; [done|].
    pose proof (Hs RecvName) as Hn. pose proof (Hs RecvBody) as Hb. pose proof (Hs RecvData) as Hd.
    simpl in *. rewrite Hm, <- Hm' in *. simpl in *. injection Hn as ->. injection Hb as Hb.
    unfold same_message in Hmm. unfold real_size, data_ok.
    assert (msg_size m' = msg_size m) as Hsz by (unfold rest_of_message in Hmm; congruence).
    destruct (msg_data m), (msg_data m'); simpl in *; try done.
    injection Hd as Hd. rewrite Hsz, Hd. done.
  - pose proof (Hs RecvTo) as Hx. simpl in Hx. by injection Hx.
  - pose proof (Hs RecvFrom) as Hx. simpl in Hx. by injection Hx.
Qed.

Lemma body_step got bs c c' :
  body_ok got c → scattered (cur_iovecs c) got bs c c' → body_ok (got ++ bs) c'.
Proof.
  intros [(msg & Hm & Hd & Hk & Hn & Hb) Ht Hf _] (Hfill & _ & Htouch & Hs).
  destruct (touched_shape _ _ Htouch Hs) as [Hmsg Hto Hfrom].
  destruct (Hmsg _ Hm) as (m' & Hm' & Hn' & Hr' & Hd' & Hrest).
  split; rewrite ?Hto, ?Hfrom; try done.
  - exists m'. unfold rest_of_message in Hrest.
    split_and!; [done|by apply Hd'|congruence|lia|lia].
  - by rewrite (cur_iovecs_sizes c).
Qed.

(** A vector that is full holds what was received. *)
Lemma body_full got c msg : body_ok got c → size got = capacity (cur_iovecs c) →
  recv_message c = Some msg →
  got = msg_name msg ++ recv_to c ++ recv_from c ++ real_data msg.
Proof.
  intros Hok Hsz Hm. pose proof (body_destination _ _ Hok) as [Hiovs _ _].
  destruct Hok as [(msg' & Hm' & Hd & _) _ _ [_ _ _ _ (rest & Hg)]].
  rewrite Hm' in Hm. injection Hm as ->.
  pose proof (gather_size _ _ _ (proj1 Hiovs) Hg) as Hgs. rewrite size_app in Hgs.
  rewrite (size_nil_inv rest), app_nil_r in Hg by lia.
  rewrite (gather_cur c msg) in Hg by done. by injection Hg.
Qed.

(** Payloads whose parts have the same sizes have the same parts. *)
Lemma payload_parts (n1 t1 f1 d1 n2 t2 f2 d2 : bytes) :
  n1 ++ t1 ++ f1 ++ d1 = n2 ++ t2 ++ f2 ++ d2 →
  size n1 = size n2 → size t1 = size t2 → size f1 = size f2 →
  n1 = n2 ∧ t1 = t2 ∧ f1 = f2 ∧ d1 = d2.
Proof.
  unfold size. intros Heq Hn Ht Hf.
  apply app_inj_1 in Heq as [-> Heq]; [|lia].
  apply app_inj_1 in Heq as [-> Heq]; [|lia].
  apply app_inj_1 in Heq as [-> ->]; [|lia]. done.
Qed.

Lemma body_full_same got c c' : body_ok got c → body_ok got c' → same_shape c c' →
  size got = capacity (cur_iovecs c) → size got = capacity (cur_iovecs c') →
  recv_to c' = recv_to c ∧ recv_from c' = recv_from c.
Proof.
  intros H1 H2 Hs E1 E2.
  destruct (body_msg _ _ H1) as (m & Hm & _). destruct (shape_msg _ _ Hs m Hm) as (m' & Hm' & Hn & _).
  pose proof (body_full got c m H1 E1 Hm) as G1. pose proof (body_full got c' m' H2 E2 Hm') as G2.
  rewrite G1 in G2. destruct Hs.
  apply payload_parts in G2 as (? & ? & ? & ?); done.
Qed.

Section parse.
Context {K : Type} `{Kernel K} `{!KernelLaws K} `{!KernelPatience K} `{NetEnv}.
Abbreviation W := (World K).
Implicit Types (w : W) (fuel : nat).

(** ** The addresses of a message *)

Lemma index_of_lt ch s i : index_of ch s = Some i → (i < length s)%nat.
Proof.
  revert i. induction s as [|b s IH]; intros i Hi; simpl in *; [done|].
  destruct (Byte.eqb b ch); [injection Hi as <-; lia|].
  destruct (index_of ch s) as [j|]; [|done]. injection Hi as <-.
  specialize (IH j eq_refl). lia.
Qed.

Lemma find_cases ch s : find ch s = npos ∨ 0 <= find ch s < size s.
Proof.
  unfold find. destruct (index_of ch s) as [i|] eqn:Hi; [right|by left].
  apply index_of_lt in Hi. unfold size. simpl. lia.
Qed.

Lemma substr_find_before ch s : is_Some (substr s 0 (find ch s)).
Proof.
  unfold substr. pose proof (size_nonneg s). rewrite (proj2 (Z.leb_le _ _)) by done. eauto.
Qed.

Lemma substr_find_after ch s : size s < npos → is_Some (substr s (find ch s +64 1) npos).
Proof.
  intros Hs. pose proof (size_nonneg s).
  assert (find ch s +64 1 <= size s) as Hle.
  { destruct (find_cases ch s) as [->|Hf]; [done|].
    rewrite u64_small; [lia|]. unfold npos in *. lia. }
  unfold substr. rewrite (proj2 (Z.leb_le _ _)) by done. eauto.
Qed.

(** [a] is the address that the text [s] denotes. *)
Definition denotes (s : bytes) (a : AID) : Prop :=
  ∀ b, s = aid_string b → at_sign ∉ aid_name b → a = normalise_aid b.

Lemma find_aid_npos a : at_sign ∉ aid_name a → size (aid_string a) < npos →
  find at_sign (aid_string a) ≠ npos.
Proof.
  intros Ha Hs. rewrite find_aid_string by done.
  unfold aid_string in Hs. rewrite size_app, size_cons in Hs.
  pose proof (size_nonneg (aid_url a)). lia.
Qed.

Lemma denotes_split s name url : size s < npos →
  substr s 0 (find at_sign s) = Some name → substr s (find at_sign s +64 1) npos = Some url →
  denotes s (normalise_aid (MkAID name url)).
Proof.
  intros Hs Hn Hu b -> Hb. rewrite find_aid_string in Hn, Hu by done.
  rewrite substr_before in Hn. rewrite substr_after in Hu by done.
  injection Hn as <-. injection Hu as <-. by destruct b.
Qed.

Lemma SetUrl_spec w msg :
  recv_message (conn w) = Some msg →
  size (recv_from (conn w)) < npos → size (recv_to (conn w)) < npos →
  wp SetUrlForRecvMessage w (λ ok w',
    if (ok : bool) then ∃ from to,
      w' = set_conn (set_recv_message (Some (set_msg_ends from to msg)) (conn w)) w ∧
      denotes (recv_from (conn w)) from ∧ denotes (recv_to (conn w)) to ∧
      (find at_sign (recv_from (conn w)) ≠ npos ∨ find at_sign (recv_to (conn w)) ≠ npos)
    else w' = w ∧ find at_sign (recv_from (conn w)) = npos ∧
         find at_sign (recv_to (conn w)) = npos).
Proof.
  intros Hm Hf Ht. unfold SetUrlForRecvMessage. net_steps.
  destruct (find at_sign (recv_from (conn w)) =? npos) eqn:E1;
    destruct (find at_sign (recv_to (conn w)) =? npos) eqn:E2; simpl; bool_to_Z;
    try (apply wp_ret; done).
  all: destruct (substr_find_before at_sign (recv_from (conn w))) as [fn Hfn];
    destruct (substr_find_after at_sign (recv_from (conn w)) Hf) as [fu Hfu];
    destruct (substr_find_before at_sign (recv_to (conn w))) as [tn Htn];
    destruct (substr_find_after at_sign (recv_to (conn w)) Ht) as [tu Htu];
    apply wp_bind, (wp_deref _ fn); [done|]; apply wp_bind, (wp_deref _ fu); [done|];
    apply wp_bind, (wp_deref _ tn); [done|]; apply wp_bind, (wp_deref _ tu); [done|];
    net_steps; apply (wp_deref _ msg); [done|]; net_steps; eexists _, _;
    (split_and!; [done|by apply denotes_split..|auto]).
Qed.

(** ** The payload of a message *)

(** What a call that received payload may have come to: the payload is not complete
    yet (or the connection is broken), it is complete and became a message, or it
    is complete without addresses. *)
Inductive body_outcome (got : bytes) (c : Connection) (k' : K) (bs : bytes)
    : bool → Connection → Prop :=
| body_more c' r :
    size bs < capacity (cur_iovecs c) - size got →
    body_ok (got ++ bs) c' → same_shape c c' → recv_state c' = recv_state c →
    stalled r k' →
    (conn_state c' = conn_state c ∧
       total_recv_len c' = capacity (cur_iovecs c') - size (got ++ bs) ∨
     conn_state c' = kDisconnecting ∧ r = IO_RW_ERROR) →
    body_outcome got c k' bs false c'
| body_done c1 msg from to :
    size bs = capacity (cur_iovecs c) - size got →
    same_shape c c1 → recv_message c1 = Some msg → data_ok msg → msg_type msg = KMSG →
    got ++ bs = msg_name msg ++ recv_to c1 ++ recv_from c1 ++ real_data msg →
    denotes (recv_from c1) from → denotes (recv_to c1) to →
    conn_state c1 = conn_state c →
    find at_sign (recv_from c1) ≠ npos ∨ find at_sign (recv_to c1) ≠ npos →
    body_outcome got c k' bs true
      (set_recv_state kMsgHeader (set_recv_message (Some (set_msg_ends from to msg)) c1))
| body_bad c' :
    size bs = capacity (cur_iovecs c) - size got →
    body_ok (got ++ bs) c' → same_shape c c' → recv_state c' = recv_state c →
    conn_state c' = conn_state c → total_recv_len c' = total_recv_len c →
    find at_sign (recv_from c') = npos → find at_sign (recv_to c') = npos →
    body_outcome got c k' bs false c'.

(** What parsing keeps, whatever comes of it. *)
Record parse_frame w w' : Prop := {
  parse_trace : trace w' = trace w;
  parse_send : send_side (conn w') = send_side (conn w);
}.

Lemma body_ok_ext got c c' : body_ok got c →
  recv_message c' = recv_message c → recv_to c' = recv_to c → recv_from c' = recv_from c →
  recv_io_vec c' = recv_io_vec c → recv_kernel_msg c' = recv_kernel_msg c → body_ok got c'.
Proof.
  intros [Hm Ht Hf [Fh Fo Fl Fc (rest & Fg)]] Em Et Ef Ev Eh.
  assert (cur_iovecs c' = cur_iovecs c) as Hcur by (unfold cur_iovecs; by rewrite Em, Et, Ef).
  split; rewrite ?Em, ?Et, ?Ef; try done. rewrite Hcur.
  split; rewrite ?Ev, ?Eh; try done. exists rest. rewrite <- Fg.
  destruct Hm as (msg & Hm & Hd & _).
  rewrite <- Hcur at 1. rewrite !gather_cur with (msg := msg) by (by rewrite ?Em).
  by rewrite Et, Ef.
Qed.

Lemma same_shape_ext c c1 c' : same_shape c c1 →
  recv_message c' = recv_message c1 → recv_to c' = recv_to c1 → recv_from c' = recv_from c1 →
  same_shape c c'.
Proof. intros [Hm Ht Hf] Em Et Ef. split; rewrite ?Em, ?Et, ?Ef; done. Qed.

Lemma ParseBody_spec fuel w got :
  (budget (kernel w) < fuel)%nat → body_ok got (conn w) →
  total_recv_len (conn w) = capacity (cur_iovecs (conn w)) - size got →
  wp (ParseBody fuel) w (λ ok w', ∃ bs,
    io bs [] (kernel w) (kernel w') ∧ parse_frame w w' ∧
    recv_len (conn w') = recv_len (conn w) ∧
    size (recv_msg_header (conn w')) = size (recv_msg_header (conn w)) ∧
    body_outcome got (conn w) (kernel w') bs ok (conn w')).
Proof.
  intros Hf Hok Htot. unfold ParseBody. net_steps. rewrite Htot.
  pose proof (body_destination _ _ Hok) as Hdest.
  pose proof (destination_ok _ Hdest) as [Hnn Hcap].
  pose proof (size_nonneg got).
  eapply wp_mono; [apply (ReceiveMessage_spec fuel (cur_iovecs (conn w)) got); [done..|apply Hok]|].
  intros [ret len] w1 (bs & Hio & Hlen & Hle & Hsc & Htr & Hret & Hst).
  cbn [fst snd] in *. rewrite Z.add_0_l in Hlen. subst len.
  pose proof (body_step _ _ _ _ Hok Hsc) as Hok1.
  destruct Hsc as (Hfill & _ & Htouch & Hs).
  pose proof (touched_shape _ _ Htouch Hs) as Hshape.
  pose proof (cur_iovecs_sizes _ _ Hs Htouch) as Hcur.
  destruct (touched_eqs _ _ Htouch) as (Ecs & Ers & Etr & Erl & Esend).
  assert (size (recv_msg_header (conn w1)) = size (recv_msg_header (conn w))) as Hhdr.
  { pose proof (Hs RecvHeader) as Hx. simpl in Hx. by injection Hx. }
  destruct (size bs =? capacity (cur_iovecs (conn w)) - size got) eqn:Hfull; simpl; bool_to_Z; cycle 1.
  - (* more to come *)
    assert (size bs < capacity (cur_iovecs (conn w)) - size got) as Hlt by lia.
    specialize (Hst Hlt). pose proof (size_nonneg bs).
    destruct (ret =? IO_RW_OK) eqn:Hr; simpl; bool_to_Z; net_steps; exists bs; simpl.
    + split_and!; [done|by split|done|done|]. apply (body_more _ _ _ _ _ ret); try done.
      * by eapply body_ok_ext.
      * by eapply same_shape_ext.
      * left. split; [done|]. cbn. change (cur_iovecs (set_total_recv_len _ _)) with (cur_iovecs (conn w1)).
        rewrite Hcur, Etr, Htot, u64_small, size_app by lia. lia.
    + split_and!; [done|by split|done|done|]. apply (body_more _ _ _ _ _ ret); try done.
      * by eapply body_ok_ext.
      * by eapply same_shape_ext.
      * right. split; [done|]. destruct Hret as [?|[? _]]; done.
  - destruct (body_msg _ _ Hok1) as (msg & Hm & Hd & Hk & _).
    pose proof (body_to _ _ Hok1). pose proof (body_from _ _ Hok1).
    unfold MAX_KMSG_TO_LEN, MAX_KMSG_FROM_LEN in *.
    apply wp_bind. eapply wp_mono.
    { apply (SetUrl_spec w1 msg); [done|unfold npos, w64; lia..]. }
    intros [] w2; [intros (from & to & -> & Hfrom & Hto & Hsep)|intros (-> & Hf1 & Hf2)]; simpl; net_steps;
      exists bs; simpl.
    + split_and!; [done|by split|done|done|].
      apply body_done; try done.
      eapply body_full; try done. rewrite size_app, Hcur. lia.
    + split_and!; [done|by split|done|done|]. apply body_bad; done.
Qed.

(** ** A payload without addresses

    [recv_state] stays [kBody] although nothing is left to receive. *)
Lemma recvmsg_nothing fuel w got total :
  (budget (kernel w) < fuel)%nat → body_ok got (conn w) →
  size got = capacity (cur_iovecs (conn w)) → 0 < total →
  wp (ReceiveMessage_loop fuel total 0) w (λ r w', r.2 = 0 ∧
    io [] [] (kernel w) (kernel w') ∧ trace w' = trace w ∧
    scattered (cur_iovecs (conn w)) got [] (conn w) (conn w')).
Proof.
  revert w. induction fuel as [|fuel IH]; intros w Hf Hok Hfull Htot; [lia|].
  pose proof (body_destination _ _ Hok) as Hdest. pose proof (body_filling _ _ Hok) as Hfill.
  cbn [ReceiveMessage_loop]. rewrite (proj2 (Z.ltb_lt _ _) Htot). simpl.
  apply wp_bind, (recvmsg_spec (cur_iovecs (conn w)) got); [done..| |].
  - intros bs c' k' Hio Hb Hs _. assert (bs = []) as ->.
    { apply size_nil_inv. pose proof (size_nonneg bs). lia. }
    apply wp_ret. simpl. split_and!; [done..|]. by apply scattered_nothing.
  - intros k' Hio He Hk. net_steps. simpl.
    destruct (k_errno k' =? EAGAIN) eqn:Ha; [|destruct (is_closed (k_errno k'))]; bool_to_Z; net_steps.
    + eapply wp_mono; [apply (IH (set_kernel k' w)); try done; specialize (He Ha); simpl; lia|].
      intros r w' (? & Hio' & Hrest & Hsc). split_and!; try done.
      by apply (io_read_trans [] [] _ k').
    + split_and!; try done. by apply scattered_errno, scattered_refl.
    + split_and!; try done. by apply scattered_refl.
Qed.

(** Such a connection is still well formed after the next call, which can only
    break it off. *)
Lemma ParseBody_wedged fuel w got :
  (budget (kernel w) < fuel)%nat → body_ok got (conn w) →
  size got = capacity (cur_iovecs (conn w)) → 0 <= total_recv_len (conn w) < w64 →
  find at_sign (recv_from (conn w)) = npos → find at_sign (recv_to (conn w)) = npos →
  wp (ParseBody fuel) w (λ ok w', ok = false ∧
    io [] [] (kernel w) (kernel w') ∧ parse_frame w w' ∧
    recv_len (conn w') = recv_len (conn w) ∧ recv_state (conn w') = recv_state (conn w) ∧
    size (recv_msg_header (conn w')) = size (recv_msg_header (conn w)) ∧
    (conn_state (conn w') = kDisconnecting ∨
     body_ok got (conn w') ∧ same_shape (conn w) (conn w') ∧
     total_recv_len (conn w') = total_recv_len (conn w) ∧
     recv_to (conn w') = recv_to (conn w) ∧ recv_from (conn w') = recv_from (conn w) ∧
     conn_state (conn w') = conn_state (conn w))).
Proof.
  intros Hf Hok Hfull Htot Hff Hft. unfold ParseBody. net_steps. unfold ReceiveMessage.
  destruct (total_recv_len (conn w) =? 0) eqn:Hz; bool_to_Z.
  - (* the addresses are looked up again *)
    rewrite Hz. net_steps. simpl.
    destruct (body_msg _ _ Hok) as (msg & Hm & _).
    pose proof (body_to _ _ Hok). pose proof (body_from _ _ Hok).
    unfold MAX_KMSG_TO_LEN, MAX_KMSG_FROM_LEN in *.
    unfold SetUrlForRecvMessage. net_steps. rewrite Hff, Hft. simpl. net_steps.
    split_and!; try done; [apply io_refl|]. right. split_and!; try done.
    split; [|done..]. intros m ?. by exists m.
  - eapply wp_mono; [apply (recvmsg_nothing fuel w got); done || lia|].
    intros [ret len] w1 (Hlen & Hio & Htr & Hsc). simpl in Hlen. subst len.
    pose proof (body_step _ _ _ _ Hok Hsc) as Hok1. rewrite app_nil_r in Hok1.
    destruct Hsc as (_ & _ & Htouch & Hs).
    destruct (touched_eqs _ _ Htouch) as (Ecs & Ers & Etr & Erl & Esend).
    assert (size (recv_msg_header (conn w1)) = size (recv_msg_header (conn w))) as Hhdr.
    { pose proof (Hs RecvHeader) as Hx. simpl in Hx. by injection Hx. }
    rewrite (proj2 (Z.eqb_neq 0 _)) by lia. simpl.
    destruct (ret =? IO_RW_OK) eqn:Hr; simpl; net_steps; simpl.
    + pose proof (touched_shape _ _ Htouch Hs) as Hshape.
      destruct (body_full_same got (conn w) (conn w1)) as [Eto Efrom]; try done.
      { by rewrite (cur_iovecs_sizes _ _ Hs Htouch). }
      split_and!; try done. right. split_and!; try done.
      * by eapply body_ok_ext.
      * by eapply same_shape_ext.
      * rewrite Z.sub_0_r, u64_small by lia. done.
    + split_and!; try done. by left.
Qed.

(** ** Headers *)

(** The callback returns memory as large as it was asked for, or null. *)
Definition alloc_ok (c : Connection) : Prop :=
  match allocate_cb_ c with
  | Some f => ∀ n mem, 0 <= n → f n = Some mem → n <= size mem
  | None => True
  end.

Definition within_limits (h : MessageHeader) : Prop :=
  0 <= name_len h <= MAX_KMSG_NAME_LEN ∧ 0 <= to_len h <= MAX_KMSG_TO_LEN ∧
  0 <= from_len h <= MAX_KMSG_FROM_LEN ∧ 0 <= body_len h <= MAX_KMSG_BODY_LEN.

Definition nonneg_header (h : MessageHeader) : Prop :=
  0 <= name_len h ∧ 0 <= to_len h ∧ 0 <= from_len h ∧ 0 <= body_len h.

(** The message that a header announces. *)
Record laid_out (h : MessageHeader) (c : Connection) : Prop := {
  laid_body : body_ok [] c;
  laid_total : total_recv_len c = capacity (cur_iovecs c);
  laid_name : ∃ msg, recv_message c = Some msg ∧ size (msg_name msg) = name_len h ∧
    (match allocate_cb_ c with Some f => is_Some (f (body_len h)) | None => True end →
     real_size msg = body_len h);
  laid_to : size (recv_to c) = to_len h;
  laid_from : size (recv_from c) = from_len h;
}.

Lemma filling_start c : destination (cur_iovecs c) →
  recv_io_vec c = cur_iovecs c → recv_kernel_msg c = MkMsghdr 0 (Z.of_nat (length (cur_iovecs c))) →
  is_Some (gather c (cur_iovecs c)) → filling (cur_iovecs c) [] c.
Proof.
  intros [Hok _ _] Hv Hh [g Hg]. rewrite <- Hv in *.
  assert (live (recv_io_vec c) (recv_kernel_msg c) = recv_io_vec c) as Hl.
  { rewrite Hh. unfold live. simpl. rewrite drop_0, Nat2Z.id. apply firstn_all. }
  split; rewrite ?Hl, ?size_nil; try done.
  - rewrite Hh. split; simpl; lia.
  - lia.
  - by exists g.
Qed.

Lemma FillRecvMessage_spec w :
  alloc_ok (conn w) → nonneg_header (received_header (conn w)) →
  wp FillRecvMessage w (λ _ w', kernel w' = kernel w ∧ parse_frame w w' ∧
    recv_msg_header (conn w') = recv_msg_header (conn w) ∧
    recv_len (conn w') = recv_len (conn w) ∧ recv_state (conn w') = recv_state (conn w) ∧
    (conn_state (conn w') = kDisconnecting ∧ ¬ within_limits (received_header (conn w)) ∨
     conn_state (conn w') = conn_state (conn w) ∧
     within_limits (received_header (conn w)) ∧
     laid_out (received_header (conn w)) (conn w'))).
Proof.
  intros Halloc (Hn & Ht & Hf & Hb). unfold FillRecvMessage. net_steps.
  set (h := received_header (conn w)) in *. clearbody h.
  destruct ((_ || _) || _) eqn:Hlim.
  { net_steps. split_and!; try done. left. split; [done|]. unfold within_limits.
    intros (? & ? & ? & ?). rewrite !orb_true_iff in Hlim. repeat destruct Hlim as [Hlim|Hlim]; bool_to_Z; lia. }
  rewrite !orb_false_iff in Hlim. destruct Hlim as [[[L1 L2] L3] L4]. bool_to_Z.
  assert (within_limits h) as Hw by (by split_and!).
  net_steps. simpl.
  set (m0 := set_msg_name (resize (name_len h) []) new_message).
  set (msg := match allocate_cb_ (conn w) with
              | Some f => set_msg_data (f (body_len h)) (body_len h) m0
              | None => set_msg_body (resize (body_len h) []) m0
              end).
  split_and!; try done. right. split_and!; try done.
  assert (data_ok msg ∧ msg_type msg = KMSG ∧ msg_name msg = resize (name_len h) [] ∧
    real_size msg <= MAX_KMSG_BODY_LEN ∧
    (match allocate_cb_ (conn w) with Some f => is_Some (f (body_len h)) | None => True end →
     real_size msg = body_len h)) as (Hd & Hk & Hname & Hbody & Hreal).
  { subst msg m0. unfold alloc_ok in Halloc. destruct (allocate_cb_ (conn w)) as [f|].
    - unfold data_ok, real_size. simpl. destruct (f (body_len h)) as [mem|] eqn:Hfm; simpl.
      + apply Halloc in Hfm; [|done]. split_and!; done.
      + split_and!; done.
    - unfold data_ok, real_size. simpl. rewrite size_resize by done. done. }
  match goal with |- laid_out _ ?c => set (c' := c) end.
  assert (recv_message c' = Some msg) as Hm by done.
  assert (size (recv_to c') = to_len h) as Hto by (by apply size_resize).
  assert (size (recv_from c') = from_len h) as Hfrom by (by apply size_resize).
  assert (size (msg_name msg) = name_len h) as Hnm by (rewrite Hname; by apply size_resize).
  assert (destination (cur_iovecs c')) as Hdest by (apply (cur_destination c' msg); done || lia).
  assert (capacity (cur_iovecs c') < w64) as Hcap by apply Hdest.
  split; [|..|by exists msg|done|done].
  - split; [|lia|lia|].
    + exists msg. split_and!; try done. lia.
    + apply filling_start; try done. rewrite (gather_cur c' msg) by done. eauto.
  - pose proof (size_nonneg (msg_name msg)). pose proof (size_nonneg (recv_to c')).
    pose proof (size_nonneg (recv_from c')). pose proof (real_size_nonneg msg Hd).
    rewrite (cur_capacity c' msg) in * by done.
    assert (total_recv_len c' = u64 (size (msg_name msg) + size (recv_to c') +
      size (recv_from c') + GetMessageBaseRealDataSize (Some msg))) as -> by done.
    rewrite real_data_size_eq. apply u64_small. lia.
Qed.

(** The header that a 20-byte image announces, in host order. *)
Definition announced (image : bytes) : MessageHeader := ReorderHeader (header_of_image image).

Lemma announced_nonneg image : nonneg_header (announced image).
Proof. unfold nonneg_header, announced, ReorderHeader, ntohl. simpl. split_and!; apply htonl_range. Qed.

Lemma header_stored image : size image = header_size →
  header_of_image (header_image (announced image)) = announced image ∧
  size (header_image (announced image)) = header_size.
Proof.
  intros Hs. assert (length (magic (announced image)) = 4%nat) as Hm.
  { unfold size, header_size in Hs. simpl. rewrite length_take. lia. }
  split.
  - apply header_of_image_image; [done|apply htonl_range..].
  - unfold size, header_size. rewrite length_header_image by done. done.
Qed.

(** What a call in the state [kMsgHeader] may have come to: the header is not
    complete, it is not acceptable, the connection was broken before, or its payload
    was looked at. *)
Inductive header_outcome (c : Connection) (k' : K) (bs : bytes) : bool → Connection → Prop :=
| header_more c' r :
    size bs < header_size - recv_len c →
    take (Z.to_nat (recv_len c + size bs)) (recv_msg_header c') =
      take (Z.to_nat (recv_len c)) (recv_msg_header c) ++ bs →
    recv_len c' = recv_len c + size bs → recv_state c' = kMsgHeader →
    stalled r k' →
    (conn_state c' = conn_state c ∨ conn_state c' = kDisconnecting ∧ r = IO_RW_ERROR) →
    header_outcome c k' bs false c'
| header_bad c' bs1 :
    bs = bs1 →
    size bs1 = header_size - recv_len c →
    let image := take (Z.to_nat (recv_len c)) (recv_msg_header c) ++ bs1 in
    take 4 image ≠ RPC_MAGICID ∨ ¬ within_limits (announced image) →
    conn_state c' = kDisconnecting → recv_state c' = kMsgHeader → recv_len c' = 0 →
    header_outcome c k' bs false c'
| header_dead c' :
    conn_state c = kDisconnecting → conn_state c' = kDisconnecting →
    recv_state c' = kMsgHeader → recv_len c' = 0 →
    header_outcome c k' bs false c'
| header_good c1 c' bs1 bs2 ok :
    bs = bs1 ++ bs2 →
    size bs1 = header_size - recv_len c →
    let image := take (Z.to_nat (recv_len c)) (recv_msg_header c) ++ bs1 in
    take 4 image = RPC_MAGICID → within_limits (announced image) →
    laid_out (announced image) c1 → recv_state c1 = kBody →
    conn_state c ≠ kDisconnecting → conn_state c1 = conn_state c → allocate_cb_ c1 = allocate_cb_ c →
    body_outcome [] c1 k' bs2 ok c' → recv_len c' = 0 →
    header_outcome c k' bs ok c'.

Definition header_ready (c : Connection) : Prop :=
  recv_state c = kMsgHeader ∧ 0 <= recv_len c < header_size.

Lemma with_header_send hdr e c : send_side (with_header hdr e c) = send_side c.
Proof. by destruct c. Qed.

Lemma laid_out_ext h c c' : laid_out h c →
  recv_message c' = recv_message c → recv_to c' = recv_to c → recv_from c' = recv_from c →
  recv_io_vec c' = recv_io_vec c → recv_kernel_msg c' = recv_kernel_msg c →
  total_recv_len c' = total_recv_len c → allocate_cb_ c' = allocate_cb_ c → laid_out h c'.
Proof.
  intros [Hb Ht Hn Hto Hf] Em Et Ef Ev Eh El Ea.
  split; rewrite ?Em, ?Et, ?Ef, ?Ea; try done; [by eapply body_ok_ext|].
  rewrite El, Ht. unfold cur_iovecs. by rewrite Em, Et, Ef.
Qed.

Lemma ParseHeader_spec fuel w :
  (budget (kernel w) < fuel)%nat → size (recv_msg_header (conn w)) = header_size →
  header_ready (conn w) → alloc_ok (conn w) →
  wp (ParseHeader fuel) w (λ ok w', ∃ bs,
    io bs [] (kernel w) (kernel w') ∧ parse_frame w w' ∧
    size (recv_msg_header (conn w')) = header_size ∧
    header_outcome (conn w) (kernel w') bs ok (conn w')).
Proof.
  intros Hfuel Hsz [Hst Hlen] Halloc. unfold ParseHeader. net_steps.
  rewrite (u64_small (header_size - _)) by (unfold header_size, w64 in *; lia).
  eapply wp_mono; [apply Receive_spec; done || lia|].
  intros [ret len] w1 (bs & Hio & Hl & Hle & Hpart & Htr & Hret & Hstall).
  cbn [fst snd] in *. subst len. pose proof (size_nonneg bs) as Hbs.
  destruct Hpart as (hdr & e & Hc1 & Hhdr & Htake).
  assert (∀ r (s : ConnectionState), size bs < header_size - recv_len (conn w) →
    stalled r (kernel w1) →
    s = conn_state (conn w) ∨ s = kDisconnecting ∧ r = IO_RW_ERROR →
    header_outcome (conn w) (kernel w1) bs false
      (set_recv_len (recv_len (conn w) + size bs) (set_conn_state s (conn w1)))) as Hmore.
  { intros r s Hlt Hs Hor. rewrite Hc1. by apply (header_more _ _ _ _ r). }
  assert (u64 (recv_len (conn w1) + size bs) = recv_len (conn w) + size bs) as Hu.
  { rewrite Hc1. simpl. apply u64_small. unfold header_size, w64 in *. lia. }
  destruct (ret =? IO_RW_OK) eqn:Hr; simpl; bool_to_Z; cycle 1.
  { (* the connection is broken *)
    destruct Hret as [?|[? Hlt]]; [done|]. net_steps. exists bs. simpl.
    split_and!; [done| |by rewrite Hc1|].
    - split; [done|]. rewrite Hc1. by rewrite <- (with_header_send hdr e (conn w)).
    - rewrite Hu. apply (Hmore ret); auto. }
  rewrite (u64_small (size bs + _)) by (unfold header_size, w64 in *; lia).
  destruct (size bs + recv_len (conn w) =? header_size) eqn:Hfull; simpl; bool_to_Z; cycle 1.
  { net_steps. exists bs. simpl. split_and!; [done| |by rewrite Hc1|].
    - split; [done|]. rewrite Hc1. by rewrite <- (with_header_send hdr e (conn w)).
    - rewrite Hu. replace (conn w1) with (set_conn_state (conn_state (conn w)) (conn w1))
        by (rewrite Hc1; by destruct (conn w)).
      apply (Hmore ret); [lia| |by left]. apply Hstall. lia. }
  set (image := take (Z.to_nat (recv_len (conn w))) (recv_msg_header (conn w)) ++ bs) in *.
  assert (hdr = image) as ->.
  { rewrite <- (take_size hdr), Hhdr, <- Htake. f_equal. lia. }
  net_steps. rewrite Hc1.
  match goal with |- context [strncmp_eq 4 ?m _] => change m with (take 4 image) end.
  destruct (strncmp_eq 4 (take 4 image) RPC_MAGICID) eqn:Hmagic; simpl.
  2:{ net_steps. exists bs. simpl. split_and!; try done.
      apply (header_bad _ _ _ _ bs); try done; [lia|]. left. intros Hm.
      apply not_true_iff_false in Hmagic. apply Hmagic, magic_equal. rewrite take_take. done. }
  apply magic_equal in Hmagic. rewrite take_take in Hmagic. simpl in Hmagic.
  net_steps.
  destruct (header_stored image Hhdr) as [Himg Hisz].
  eapply wp_mono.
  { apply FillRecvMessage_spec; [done|]. unfold received_header. simpl.
    fold (announced image). rewrite Himg. apply announced_nonneg. }
  intros _ w2 (Hk2 & [Ht2 Hs2] & Hh2 & Hl2 & Hst2 & Hcase). simpl in *.
  unfold received_header in *. simpl in *. fold (announced image) in *.
  rewrite Himg in Hcase. net_steps.
  destruct Hcase as [[Hdis Hnot]|(Hsame & Hlim & Hlaid)].
  { rewrite Hdis. simpl. net_steps. exists bs. rewrite Hk2, Hh2.
    split_and!; try done; [split; [by rewrite Ht2|by rewrite Hs2]|].
    apply (header_bad _ _ _ _ bs); try done; [lia|by right|congruence]. }
  rewrite Hsame. destruct (decide (conn_state (conn w) = kDisconnecting)) as [Hdead|Hconn].
  { rewrite Hdead. simpl. net_steps. exists bs. rewrite Hk2, Hh2.
    split_and!; try done; [split; [by rewrite Ht2|by rewrite Hs2]|].
    apply header_dead; congruence. }
  rewrite bool_decide_eq_false_2 by done. net_steps.
  set (c1 := set_recv_state kBody (conn w2)).
  assert (laid_out (announced image) c1) as Hlaid1 by by eapply laid_out_ext.
  eapply wp_mono.
  { apply (ParseBody_spec fuel (set_conn c1 w2) []).
    - simpl. rewrite Hk2. apply io_budget in Hio. lia.
    - apply Hlaid1.
    - rewrite size_nil, Z.sub_0_r. apply Hlaid1. }
  intros ok w3 (bs2 & Hio2 & [Ht3 Hs3] & Hl3 & Hh3 & Hout). simpl in *.
  exists (bs ++ bs2). split_and!.
  - rewrite Hk2 in Hio2. by apply (io_read_trans bs bs2 _ (kernel w1)).
  - split; [by rewrite Ht3, Ht2|]. etrans; [exact Hs3|]. etrans; [exact Hs2|].
    by destruct (conn w).
  - by rewrite Hh3, Hh2.
  - apply (header_good _ _ _ c1 _ bs bs2); try done; [lia| |congruence].
    apply send_side_allocate in Hs2. unfold c1. simpl. rewrite Hs2. done.
Qed.
End parse.
