(* ===== verification/NetStream.v ===== *)
(** * Streams of messages

    Two readings of [ParseMessage]. On any stream it keeps the connection well
    formed ([rx_ok]). On the frames of a list of messages it hands out these
    messages, in order and unchanged, however the bytes are cut up ([awaiting]). *)

From S2P Require Import Prelude NetBytes NetMessage NetState NetSocket NetIovec NetReceive.
From S2P Require Import Connection NetParse.

(** ** Well-formed receivers *)

(** A message within the limits, whose data is all there. *)
Record accepted (m : MessageBase) : Prop := {
  accepted_type : msg_type m = KMSG;
  accepted_data : data_ok m;
  accepted_name : size (msg_name m) <= MAX_KMSG_NAME_LEN;
  accepted_body : real_size m <= MAX_KMSG_BODY_LEN;
}.

Definition receiving_body (c : Connection) : Prop :=
  ∃ got, body_ok got c ∧
    (total_recv_len c = capacity (cur_iovecs c) - size got ∨
     size got = capacity (cur_iovecs c) ∧ 0 <= total_recv_len c < w64 ∧
     find at_sign (recv_from c) = npos ∧ find at_sign (recv_to c) = npos).

Record rx_ok (c : Connection) : Prop := {
  rx_header : size (recv_msg_header c) = header_size;
  rx_alloc : alloc_ok c;
  rx_state : conn_state c ≠ kDisconnecting ∨ recv_state c = kMsgHeader →
    match recv_state c with
    | kMsgHeader => 0 <= recv_len c < header_size
    | kBody => recv_len c = 0 ∧ receiving_body c
    end;
}.

Lemma new_connection_ok c : recv_msg_header c = recv_msg_header new_connection →
  recv_state c = kMsgHeader → recv_len c = 0 → alloc_ok c → rx_ok c.
Proof. intros Hh Hs Hl Ha. split; rewrite ?Hh, ?Hs, ?Hl; done. Qed.

Lemma accepted_ends from to m : accepted m → accepted (set_msg_ends from to m).
Proof. intros [? ? ? ?]. by split. Qed.

Lemma alloc_ok_side c c' : send_side c' = send_side c → alloc_ok c → alloc_ok c'.
Proof. intros Hs. apply send_side_allocate in Hs. unfold alloc_ok. by rewrite Hs. Qed.

Section stream.
Context {K : Type} `{Kernel K} `{!KernelLaws K} `{!KernelPatience K} `{NetEnv}.
Abbreviation W := (World K).
Implicit Types (w : W) (k : K) (fuel : nat).

Lemma body_done_accepted got c c1 msg : body_ok got c → same_shape c c1 →
  recv_message c1 = Some msg → data_ok msg → msg_type msg = KMSG → accepted msg.
Proof.
  intros [(m & Hm & Hd & Hk & Hn & Hb) _ _ _] [Hmsg _ _] Hm1 Hd1 Hk1.
  destruct (Hmsg _ Hm) as (m' & Hm' & Hn' & Hr' & _). rewrite Hm1 in Hm'. injection Hm' as <-.
  split; [done|done|lia|lia].
Qed.

Lemma body_capacity got c c' : body_ok got c → same_shape c c' →
  capacity (cur_iovecs c') = capacity (cur_iovecs c).
Proof.
  intros Hok Hsh. destruct (body_msg _ _ Hok) as (m & Hm & _).
  destruct (shape_msg _ _ Hsh m Hm) as (m' & Hm' & Hn & Hr & _).
  rewrite (cur_capacity c m), (cur_capacity c' m') by done. destruct Hsh. lia.
Qed.

Lemma total_range got c : body_ok got c → 
  total_recv_len c = capacity (cur_iovecs c) - size got → 0 <= total_recv_len c < w64.
Proof.
  intros Hok ->. pose proof (body_filling _ _ Hok) as Hfill.
  rewrite <- (filling_capacity _ _ _ Hfill).
  destruct (filling_ok _ _ _ Hfill). split; [by apply capacity_nonneg|done].
Qed.

(** What becomes of the payload keeps the receiver well formed. *)
Lemma body_outcome_ok got c k' bs ok c' :
  body_ok got c → total_recv_len c = capacity (cur_iovecs c) - size got →
  body_outcome got c k' bs ok c' → recv_state c = kBody → recv_len c' = 0 →
  size (recv_msg_header c') = header_size → alloc_ok c' →
  rx_ok c' ∧ (conn_state c' ≠ kDisconnecting → conn_state c' = conn_state c) ∧
  (ok = true → conn_state c' = conn_state c ∧ recv_state c' = kMsgHeader ∧
    ∃ m, recv_message c' = Some m ∧ accepted m).
Proof.
  intros Hok Htot Hout Hst Hlen Hhdr Hal.
  destruct Hout as [c' r Hlt Hok' Hsh Hrs Hstall Hcs|c1 msg from to Hfull Hsh Hm Hd Hk Heq Hfrom Hto Hcs _|
    c' Hfull Hok' Hsh Hrs Hcs Htr Hff Hft].
  - split; [|split; [by destruct Hcs as [[? _]|[? _]]|done]].
    split; [done..|]. rewrite Hrs, Hst. intros [Hnd|?]; [|done]. split; [done|].
    exists (got ++ bs). split; [done|]. left. destruct Hcs as [[_ ?]|[? _]]; done.
  - split.
    + split; [done..|]. simpl in *. intros _. rewrite Hlen. done.
    + split; [by intros _|]. intros _. simpl. split; [done|]. split; [done|]. eexists. split; [done|].
      by eapply accepted_ends, body_done_accepted.
  - split; [|done]. split; [done..|]. intros _. rewrite Hrs, Hst. split; [done|].
    exists (got ++ bs). split; [done|]. right. rewrite Htr.
    split; [|split_and!; try done; by apply (total_range got c)].
    rewrite size_app, (body_capacity got c c') by done. lia.
Qed.

(** On any stream, a call returns and leaves a well-formed receiver, and a message
    it yields is within the limits. *)
Lemma ParseMessage_ok fuel w :
  (budget (kernel w) < fuel)%nat → rx_ok (conn w) →
  conn_state (conn w) ≠ kDisconnecting ∨ recv_state (conn w) = kMsgHeader →
  wp (ParseMessage fuel) w (λ ok w', rx_ok (conn w') ∧ parse_frame w w' ∧
    (∃ bs, io bs [] (kernel w) (kernel w')) ∧
    (conn_state (conn w') ≠ kDisconnecting → conn_state (conn w') = conn_state (conn w)) ∧
    (ok = true → conn_state (conn w') ≠ kDisconnecting ∧ recv_state (conn w') = kMsgHeader ∧
      ∃ m, recv_message (conn w') = Some m ∧ accepted m)).
Proof.
  intros Hf [Hh Ha Hrx] Hcs. specialize (Hrx Hcs). unfold ParseMessage. net_steps.
  destruct (recv_state (conn w)) eqn:Hst.
  - eapply wp_mono; [by apply ParseHeader_spec|].
    intros ok w' (bs & Hio & Hpf & Hsz & Hout).
    assert (alloc_ok (conn w')) as Hal by (eapply alloc_ok_side; [apply Hpf|done]).
    assert (∀ P : Prop, rx_ok (conn w') ∧ P → rx_ok (conn w') ∧ parse_frame w w' ∧
      (∃ bs, io bs [] (kernel w) (kernel w')) ∧ P) as Hsplit.
    { intros P [? ?]. split_and!; try done. by exists bs. }
    apply Hsplit. clear Hsplit.
    inversion Hout as [c' r Hlt Htk Hl Hs Hstall Hcs' E1 E2|c' bs1 Hb Hs1 image Hbad Hd Hs Hl E1 E2|
      c' Hdead Hd Hs Hl E1 E2|
      c1 c' bs1 bs2 ok' Hb Hs1 image Hm Hlim Hlaid Hs Hnd Hcs' Hal' Hbody Hl E1 E2]; subst.
    + split; [split; [done..|]|split; [by destruct Hcs' as [?|[? _]]|done]].
      intros _. rewrite Hs, Hl. pose proof (size_nonneg bs). lia.
    + split; [|by rewrite Hd]. split; [done..|]. by rewrite Hs, Hl.
    + split; [|by rewrite Hd]. split; [done..|]. by rewrite Hs, Hl.
    + destruct (body_outcome_ok [] c1 (kernel w') bs2 ok (conn w')) as (Hrx' & Hdd & Hok); try done.
      { apply Hlaid. }
      { rewrite (laid_total _ _ Hlaid), size_nil. lia. }
      split; [done|]. split; [intros Hnd'; by rewrite (Hdd Hnd')|].
      intros Ht. destruct (Hok Ht) as [Hc ?]. split; [congruence|done].
  - destruct Hrx as (Hl0 & got & Hok & [Htot|(Hfull & Htot & Hff & Hft)]).
    + eapply wp_mono; [by apply (ParseBody_spec fuel w got)|].
      intros ok w' (bs & Hio & Hpf & Hl & Hsz & Hout).
      assert (alloc_ok (conn w')) as Hal by (eapply alloc_ok_side; [apply Hpf|done]).
      destruct (body_outcome_ok got (conn w) (kernel w') bs ok (conn w')) as (? & ? & Hok');
        try done; try congruence.
      split_and!; try done; [by exists bs|]. intros Ht. destruct (Hok' Ht) as [Hc ?].
      split; [|done]. destruct Hcs; congruence.
    + eapply wp_mono; [by apply (ParseBody_wedged fuel w got)|].
      intros ok w' (-> & Hio & Hpf & Hl & Hs & Hsz & Hcase).
      assert (alloc_ok (conn w')) as Hal by (eapply alloc_ok_side; [apply Hpf|done]).
      assert (conn_state (conn w') ≠ kDisconnecting → conn_state (conn w') = conn_state (conn w)) as Hcc.
      { intros Hnd. destruct Hcase as [?|(? & ? & ? & ? & ? & ?)]; done. }
      split_and!; try done; [|by exists []].
      split; [congruence|done|]. rewrite Hs, Hst, Hl. intros [Hnd|?]; [|done]. split; [done|].
      destruct Hcase as [?|(Hok' & Hsh & Htr & Eto & Efrom & _)]; [done|].
      exists got. split; [done|]. right. rewrite Htr, Eto, Efrom. split_and!; try done; try lia.
      by rewrite (body_capacity got (conn w) (conn w')).
Qed.

(** ** Streams of frames *)

(** A message that a peer may send: within the limits, and with names that do not
    contain the separator. *)
Record well_addressed (m : MessageBase) : Prop := {
  addressed_sendable : sendable m;
  addressed_to : at_sign ∉ aid_name (msg_to m);
  addressed_from : at_sign ∉ aid_name (msg_from m);
}.

(** What the receiver gets of a message. *)
Record same_content (m m' : MessageBase) : Prop := {
  content_from : msg_from m' = normalise_aid (msg_from m);
  content_to : msg_to m' = normalise_aid (msg_to m);
  content_name : msg_name m' = msg_name m;
  content_data : real_data m' = real_data m;
  content_size : real_size m' = real_size m;
  content_type : msg_type m' = msg_type m;
}.

Definition frames (ms : list MessageBase) : bytes := concat (frame <$> ms).

(** Memory is always available. *)
Definition alloc_total (c : Connection) : Prop :=
  match allocate_cb_ c with
  | Some f => ∀ n, 0 <= n → ∃ mem, f n = Some mem ∧ n <= size mem
  | None => True
  end.

Lemma alloc_total_ok c : alloc_total c → alloc_ok c.
Proof.
  unfold alloc_total, alloc_ok. destruct (allocate_cb_ c) as [f|]; [|done].
  intros Hf n mem Hn Hm. destruct (Hf n Hn) as (mem' & Hm' & ?). rewrite Hm' in Hm.
  by injection Hm as <-.
Qed.

(** The sizes of the message being received are those of [m]. *)
Record shaped_as (m : MessageBase) (c : Connection) : Prop := {
  shaped_msg : ∃ msg, recv_message c = Some msg ∧ size (msg_name msg) = size (msg_name m) ∧
    real_size msg = real_size m;
  shaped_to : size (recv_to c) = size (aid_string (msg_to m));
  shaped_from : size (recv_from c) = size (aid_string (msg_from m));
}.

(** With the bytes [inp] still to come, the receiver is due to hand out [ms]. *)
Record awaiting (inp : bytes) (ms : list MessageBase) (c : Connection) : Prop := {
  awaiting_header : size (recv_msg_header c) = header_size;
  awaiting_alloc : alloc_total c;
  awaiting_state :
    match recv_state c with
    | kMsgHeader => 0 <= recv_len c < header_size ∧
        take (Z.to_nat (recv_len c)) (recv_msg_header c) ++ inp = frames ms
    | kBody => recv_len c = 0 ∧ ∃ m ms' got, ms = m :: ms' ∧
        got ++ inp = payload m ++ frames ms' ∧ body_ok got c ∧ shaped_as m c ∧
        total_recv_len c = capacity (cur_iovecs c) - size got ∧
        size got < capacity (cur_iovecs c)
    end;
}.

Lemma frames_cons m ms : frames (m :: ms) = header_image (FillMessageHeader m new_header) ++
  payload m ++ frames ms.
Proof. change (frames (m :: ms)) with (frame m ++ frames ms). unfold frame. by rewrite <- app_assoc. Qed.

Lemma shaped_capacity m c : data_ok m → shaped_as m c → capacity (cur_iovecs c) = size (payload m).
Proof.
  intros Hd [(msg & Hm & Hn & Hr) Ht Hf]. rewrite (cur_capacity c msg), payload_size by done. lia.
Qed.

Lemma aid_size_npos m : sendable m →
  size (aid_string (msg_to m)) < npos ∧ size (aid_string (msg_from m)) < npos.
Proof.
  intros Hs. destruct Hs as [_ _ _ Ht Hf _].
  unfold MAX_KMSG_TO_LEN, MAX_KMSG_FROM_LEN, npos, w64 in *. lia.
Qed.

(** The received message has the content of the one that was sent. *)
Lemma content_received m msg to_s from_s from to :
  well_addressed m → msg_type msg = KMSG → data_ok msg →
  size (msg_name msg) = size (msg_name m) → size to_s = size (aid_string (msg_to m)) →
  size from_s = size (aid_string (msg_from m)) → real_size msg = real_size m →
  payload m = msg_name msg ++ to_s ++ from_s ++ real_data msg →
  denotes from_s from → denotes to_s to →
  same_content m (set_msg_ends from to msg).
Proof.
  intros [Hs Hto Hfrom] Hk Hd Hn Ht Hf Hr Hp Hdf Hdt. unfold payload in Hp.
  apply payload_parts in Hp as (E1 & E2 & E3 & E4); [|done..].
  split; simpl; try done; [by apply Hdf|by apply Hdt|].
  rewrite Hk. symmetry. apply Hs.
Qed.

Lemma shaped_shape m c c' : shaped_as m c → same_shape c c' → shaped_as m c'.
Proof.
  intros [(msg & Hm & Hn & Hr) Ht Hf] [Hmsg Ht' Hf'].
  destruct (Hmsg _ Hm) as (m' & Hm' & Hn' & Hr' & _).
  split; [exists m'; split_and!; [done|lia|lia]|lia|lia].
Qed.

(** ** One call on a stream of frames *)

(** What a call comes to: a message, nothing yet, or a broken connection. *)
Inductive stream_outcome (ms : list MessageBase) (c : Connection) (k' : K)
    : bool → Connection → Prop :=
| stream_message c' m ms' m' :
    ms = m :: ms' → recv_message c' = Some m' → same_content m m' →
    recv_state c' = kMsgHeader → conn_state c' = conn_state c → awaiting (incoming k') ms' c' →
    stream_outcome ms c k' true c'
| stream_wait c' r :
    conn_state c' = conn_state c → awaiting (incoming k') ms c' → stalled r k' →
    stream_outcome ms c k' false c'
| stream_broken c' total :
    conn_state c' = kDisconnecting →
    awaiting (incoming k') ms (set_total_recv_len total c') → stalled IO_RW_ERROR k' →
    stream_outcome ms c k' false c'.

Lemma awaiting_more inp m ms' got c c' bs :
  body_ok got c → shaped_as m c → body_ok (got ++ bs) c' → same_shape c c' →
  recv_state c' = kBody → recv_len c' = 0 → size (recv_msg_header c') = header_size →
  alloc_total c' → size bs < capacity (cur_iovecs c) - size got →
  got ++ bs ++ inp = payload m ++ frames ms' →
  awaiting inp (m :: ms')
    (set_total_recv_len (capacity (cur_iovecs c') - size (got ++ bs)) c').
Proof.
  intros Hok Hshaped Hok' Hsh Hst Hlen Hhdr Hal Hlt Hstream.
  split; [done..|]. simpl. rewrite Hst. split; [done|]. exists m, ms', (got ++ bs).
  change (cur_iovecs (set_total_recv_len _ c')) with (cur_iovecs c').
  split_and!; try done.
  - by rewrite <- app_assoc.
  - by eapply body_ok_ext.
  - destruct (shaped_shape _ _ _ Hshaped Hsh) as [? ? ?]. by split.
  - rewrite size_app, (body_capacity got c c') by done. lia.
Qed.

Lemma body_stream got c k' bs ok c' m ms' :
  body_ok got c → total_recv_len c = capacity (cur_iovecs c) - size got →
  shaped_as m c → well_addressed m →
  got ++ bs ++ incoming k' = payload m ++ frames ms' →
  body_outcome got c k' bs ok c' → recv_state c = kBody → recv_len c' = 0 →
  size (recv_msg_header c') = header_size → alloc_total c' →
  stream_outcome (m :: ms') c k' ok c'.
Proof.
  intros Hok Htot Hshaped Haddr Hstream Hout Hst Hlen Hhdr Hal.
  pose proof (addressed_sendable _ Haddr) as Hsend.
  pose proof (shaped_capacity m c (sendable_data _ Hsend) Hshaped) as Hcap.
  assert (size bs = capacity (cur_iovecs c) - size got →
    got ++ bs = payload m ∧ incoming k' = frames ms') as Hfull_eq.
  { intros Hs. rewrite app_assoc in Hstream. apply app_inj_1 in Hstream; [done|].
    rewrite Hcap in Hs. unfold size in Hs. rewrite length_app. lia. }
  destruct Hout as [c' r Hlt Hok' Hsh Hrs Hstall Hcs|c1 msg from to Hfull Hsh Hm Hd Hk Heq Hfrom Hto Hcs _|
    c' Hfull Hok' Hsh Hrs Hcs Htr Hff Hft].
  - assert (recv_state c' = kBody) as Hb by congruence.
    pose proof (awaiting_more _ _ _ _ _ _ _ Hok Hshaped Hok' Hsh Hb Hlen Hhdr Hal Hlt Hstream) as Haw.
    destruct Hcs as [[Hcs Htot']|[Hcs ->]]; [|by eapply stream_broken].
    rewrite <- Htot' in Haw. apply (stream_wait _ _ _ _ r); [done| |done]. by destruct c'.
  - destruct (Hfull_eq Hfull) as [Hp Hrest].
    destruct (shaped_shape _ _ _ Hshaped Hsh) as [(msg' & Hm' & Hn & Hr) Ht Hf].
    rewrite Hm in Hm'. injection Hm' as <-.
    eapply (stream_message _ _ _ _ m ms'); [done|done| |done|done|].
    + by eapply content_received; rewrite <- ?Hp.
    + split; [done..|]. simpl in *. rewrite Hlen, take_0. split; [done|]. done.
  - destruct (Hfull_eq Hfull) as [Hp Hrest]. exfalso.
    destruct (body_msg _ _ Hok') as (msg & Hm & _).
    destruct (shaped_shape _ _ _ Hshaped Hsh) as [(msg' & Hm' & Hn & Hr) Ht Hf].
    rewrite Hm in Hm'. injection Hm' as <-.
    assert (size (got ++ bs) = capacity (cur_iovecs c')) as Hsz.
    { rewrite size_app, (body_capacity got c c') by done. lia. }
    pose proof (body_full _ _ msg Hok' Hsz Hm) as Hg. rewrite Hp in Hg. unfold payload in Hg.
    apply payload_parts in Hg as (_ & _ & E & _); [|done..].
    rewrite <- E in Hff. destruct (aid_size_npos m Hsend).
    by apply (find_aid_npos (msg_from m)) in Hff; [|apply Haddr|].
Qed.

(** The first bytes of a stream of frames are the header of the first message. *)
Lemma stream_header ms image rest : size image = header_size → image ++ rest = frames ms →
  Forall well_addressed ms →
  ∃ m ms', ms = m :: ms' ∧ well_addressed m ∧ take 4 image = RPC_MAGICID ∧
    announced image = MkHeader RPC_MAGICID (size (msg_name m)) (size (aid_string (msg_to m)))
                        (size (aid_string (msg_from m))) (real_size m) ∧
    rest = payload m ++ frames ms'.
Proof.
  intros Hs Heq Hall. destruct Hall as [|m ms' Hm Hall].
  { apply (f_equal size) in Heq. rewrite size_app, Hs in Heq. unfold header_size in Heq.
    pose proof (size_nonneg rest). change (size (frames [])) with 0 in Heq. lia. }
  exists m, ms'. rewrite frames_cons in Heq.
  apply app_inj_1 in Heq as [-> ->].
  2:{ rewrite length_header_image by done. unfold size, header_size in Hs. lia. }
  split_and!; try done. apply sent_header_lengths, Hm.
Qed.

Lemma limits_sent m : sendable m →
  within_limits (MkHeader RPC_MAGICID (size (msg_name m)) (size (aid_string (msg_to m)))
                   (size (aid_string (msg_from m))) (real_size m)).
Proof.
  intros [_ Hd ? ? ? ?]. unfold within_limits. simpl.
  pose proof (real_size_nonneg m Hd). pose proof (size_nonneg (msg_name m)).
  pose proof (size_nonneg (aid_string (msg_to m))).
  pose proof (size_nonneg (aid_string (msg_from m))). done.
Qed.

Lemma ParseMessage_stream fuel w ms :
  (budget (kernel w) < fuel)%nat → awaiting (incoming (kernel w)) ms (conn w) →
  Forall well_addressed ms → conn_state (conn w) ≠ kDisconnecting →
  wp (ParseMessage fuel) w (λ ok w', parse_frame w w' ∧
    (∃ bs, io bs [] (kernel w) (kernel w')) ∧
    stream_outcome ms (conn w) (kernel w') ok (conn w')).
Proof.
  intros Hf [Hh Ha Hst] Hall Hcs. unfold ParseMessage. net_steps.
  pose proof (alloc_total_ok _ Ha) as Hao.
  assert (∀ w' : W, parse_frame w w' → alloc_total (conn w')) as Hal.
  { intros w' [_ Hs]. apply send_side_allocate in Hs. unfold alloc_total. by rewrite Hs. }
  destruct (recv_state (conn w)) eqn:Ers.
  - destruct Hst as [Hlen Hstream].
    eapply wp_mono; [by apply ParseHeader_spec|].
    intros ok w' (bs & Hio & Hpf & Hsz & Hout). specialize (Hal _ Hpf).
    rewrite (io_in _ _ _ _ Hio) in Hstream.
    split; [done|]. split; [by exists bs|].
    inversion Hout as [c' r Hlt Htk Hl Hs Hstall Hcs' E1 E2|c' bs1 Hb Hs1 image Hbad Hd Hs Hl E1 E2|
      c' Hdead _ _ _ E1 E2|
      c1 c' bs1 bs2 ok' Hb Hs1 image Hm Hlim Hlaid Hs _ Hcs' Hal' Hbody Hl E1 E2]; subst.
    + assert (awaiting (incoming (kernel w')) ms (conn w')) as Haw.
      { split; [done..|]. rewrite Hs, Hl, Htk. rewrite <- app_assoc.
        split; [pose proof (size_nonneg bs); lia|done]. }
      destruct Hcs' as [Hcs'|[Hcs' ->]]; [by apply (stream_wait _ _ _ _ r)|].
      apply (stream_broken _ _ _ _ (total_recv_len (conn w'))); [done| |done].
      by destruct (conn w').
    + exfalso. rewrite app_assoc in Hstream.
      assert (size image = header_size) as Hisz.
      { unfold image. rewrite size_app, size_take by lia. lia. }
      destruct (stream_header _ _ _ Hisz Hstream Hall) as (m & ms' & -> & Hm & Hmagic & Hann & _).
      destruct Hbad as [?|Hbad]; [done|]. apply Hbad. rewrite Hann.
      apply limits_sent, Hm.
    + done.
    + rewrite <- app_assoc, app_assoc in Hstream.
      assert (size image = header_size) as Hisz.
      { unfold image. rewrite size_app, size_take by lia. lia. }
      destruct (stream_header _ _ _ Hisz Hstream Hall) as (m & ms' & -> & Haddr & _ & Hann & Hrest).
      assert (shaped_as m c1) as Hshaped.
      { rewrite Hann in Hlaid. destruct Hlaid as [_ _ (msg & Hmsg & Hn & Hr) Ht Hfr].
        split; [|done|done]. exists msg. split_and!; try done. apply Hr.
        rewrite Hal'. unfold alloc_total in Ha. destruct (allocate_cb_ (conn w)) as [f|]; [|done].
        destruct (Ha (real_size m)) as (mem & Hmem & _).
        - apply real_size_nonneg, Haddr.
        - by exists mem. }
      assert (stream_outcome (m :: ms') c1 (kernel w') ok (conn w')) as Hso.
      { eapply (body_stream [] c1); try done.
        - apply Hlaid.
        - rewrite (laid_total _ _ Hlaid), size_nil. lia. }
      destruct Hso; [eapply stream_message|eapply stream_wait|eapply stream_broken]; eauto; congruence.
  - destruct Hst as (Hlen & m & ms' & got & -> & Hstream & Hok & Hshaped & Htot & _).
    apply Forall_cons in Hall as [Haddr Hall].
    eapply wp_mono; [by apply (ParseBody_spec fuel w got)|].
    intros ok w' (bs & Hio & Hpf & Hl & Hsz & Hout). specialize (Hal _ Hpf).
    rewrite (io_in _ _ _ _ Hio) in Hstream.
    split; [done|]. split; [by exists bs|].
    eapply body_stream; try done; congruence.
Qed.
End stream.
