(* ===== verification/NetSend.v ===== *)
(** * Sending messages

    [SendMessage] puts the bytes of a vector on the wire, [Flush] the frame that
    [FillSendMessage] has laid out: all of it, in order and once, or a prefix when
    the connection breaks. *)

From S2P Require Import Prelude NetBytes NetMessage NetState NetSocket NetIovec NetReceive.
From S2P Require Import Connection NetParse NetStream.

(** ** What sending leaves alone *)

Definition recv_side (c : Connection) :=
  (recv_message c, recv_state c, total_recv_len c, recv_len c, recv_to c, recv_from c,
   recv_msg_header c, recv_kernel_msg c, recv_io_vec c, allocate_cb_ c, message_handler c,
   recv_message_type c, free_cb_ c).

Lemma recv_side_eqs c c' : recv_side c' = recv_side c →
  recv_message c' = recv_message c ∧ recv_state c' = recv_state c ∧
  total_recv_len c' = total_recv_len c ∧ recv_len c' = recv_len c ∧
  recv_to c' = recv_to c ∧ recv_from c' = recv_from c ∧
  recv_msg_header c' = recv_msg_header c ∧ recv_kernel_msg c' = recv_kernel_msg c ∧
  recv_io_vec c' = recv_io_vec c ∧ allocate_cb_ c' = allocate_cb_ c.
Proof. unfold recv_side. intros. split_and!; congruence. Qed.

Lemma recv_side_handler c c' : recv_side c' = recv_side c →
  message_handler c' = message_handler c.
Proof. unfold recv_side. congruence. Qed.

Lemma awaiting_side inp ms c c' : recv_side c' = recv_side c →
  awaiting inp ms c → awaiting inp ms c'.
Proof.
  intros (Em & Es & Etl & El & Et & Ef & Eh & Ek & Ev & Ea)%recv_side_eqs [Hh Ha Hst].
  assert (cur_iovecs c' = cur_iovecs c) as Hcur by (unfold cur_iovecs; by rewrite Em, Et, Ef).
  split; [by rewrite Eh|unfold alloc_total; by rewrite Ea|].
  rewrite Es, El, Eh. destruct (recv_state c); [done|].
  destruct Hst as (? & m & ms' & got & -> & Hs & Hok & [Hm Ht Hf] & Htot & Hlt).
  split; [done|]. exists m, ms', got. rewrite Hcur, Etl.
  split_and!; try done; [by eapply body_ok_ext|]. split; by rewrite ?Em, ?Et, ?Ef.
Qed.

Lemma rx_ok_side c c' : recv_side c' = recv_side c →
  conn_state c' = conn_state c ∨ conn_state c' = kDisconnecting → rx_ok c → rx_ok c'.
Proof.
  intros (Em & Es & Etl & El & Et & Ef & Eh & Ek & Ev & Ea)%recv_side_eqs Hcs [Hh Ha Hst].
  assert (cur_iovecs c' = cur_iovecs c) as Hcur by (unfold cur_iovecs; by rewrite Em, Et, Ef).
  split; [by rewrite Eh|unfold alloc_ok; by rewrite Ea|].
  rewrite Es, El. intros Hnd.
  assert (conn_state c ≠ kDisconnecting ∨ recv_state c = kMsgHeader) as Hnd'.
  { destruct Hnd as [Hnd|?]; [left|by right]. destruct Hcs as [Hcs|?]; congruence. }
  specialize (Hst Hnd'). destruct (recv_state c); [done|].
  destruct Hst as (? & got & Hok & Hcase). split; [done|]. exists got.
  rewrite Hcur, Etl, Et, Ef. split; [by eapply body_ok_ext|done].
Qed.

(** [c'] differs from [c] only in the vector that is being sent and in [errno]. *)
Definition resent (c c' : Connection) : Prop :=
  c = set_send_io_vec (send_io_vec c) (set_send_kernel_msg (send_kernel_msg c)
        (set_error_code (error_code c) c')).

#[export] Instance resent_preorder : PreOrder resent.
Proof.
  split; [by intros []|]. unfold resent. intros c1 c2 c3 H1 H2. rewrite H1, H2. by destruct c1, c2, c3.
Qed.

Lemma resent_iov c iov : resent c (set_send_iov iov c).
Proof. by destruct c, iov. Qed.

Lemma resent_errno c e : resent c (set_error_code e c).
Proof. by destruct c. Qed.

(** The members that [Flush] does not reset. *)
Definition send_config (c : Connection) :=
  (source c, conn_state c, send_metrics c, send_message c, total_send_len c,
   send_msg_header c, send_message_queue c, output_buffer_size c, free_cb_ c).

Lemma resent_eqs c c' : resent c c' → recv_side c' = recv_side c ∧ send_config c' = send_config c.
Proof. unfold resent. intros ->. by destruct c'. Qed.

Lemma ltb_true a b : (a <? b) = true → a <= b.
Proof. intros. bool_to_Z. lia. Qed.
Lemma ltb_false a b : (a <? b) = false → b <= a.
Proof. by intros ?%Z.ltb_ge. Qed.
Lemma ltb_sub a b c : (a + b <? c) = (a <? c - b).
Proof. apply eq_true_iff_eq. rewrite !Z.ltb_lt. lia. Qed.

Section send.
Context {K : Type} `{Kernel K} `{!KernelLaws K} `{!KernelPatience K} `{NetEnv}.
Abbreviation W := (World K).
Implicit Types (w : W) (k : K) (fuel : nat).

(** [rem] is what the vector still has to send. *)
Record unsent (rem : bytes) (c : Connection) : Prop := {
  unsent_hdr : hdr_ok (send_io_vec c) (send_kernel_msg c);
  unsent_ok : iovs_ok (live (send_io_vec c) (send_kernel_msg c));
  unsent_mem : gather c (live (send_io_vec c) (send_kernel_msg c)) = Some rem;
}.

Lemma unsent_capacity rem c : unsent rem c →
  capacity (live (send_io_vec c) (send_kernel_msg c)) = size rem.
Proof. intros [_ [Hp _] Hg]. symmetry. by eapply gather_size. Qed.

Lemma unsent_advance rem c n : unsent rem c → 0 <= n <= size rem →
  ∃ iov, advance Z.ltb n (send_io_vec c) (send_kernel_msg c) = Some iov ∧
    unsent (drop (Z.to_nat n) rem) (set_send_iov iov c).
Proof.
  intros Hun Hn. pose proof (unsent_capacity _ _ Hun) as Hcap. destruct Hun as [Hh Hok Hg].
  destruct (advance_spec Z.ltb ltb_true ltb_sub _ _ n Hh Hok) as (vec & h & Ha & Hl & Hh' & _); [lia| |].
  { destruct (decide (n = size rem)); [right|left; lia].
    split_and!; [lia|by intros ?? ?%Z.ltb_lt|by right]. }
  exists (vec, h). split; [done|]. split; simpl; [done|..]; rewrite Hl.
  - apply (skip_ok Z.ltb ltb_true ltb_false); [lia|done|lia].
  - rewrite (gather_frame c) by (intros []; done).
    apply (gather_skip Z.ltb ltb_true ltb_false); [lia|done|lia|done].
Qed.

(** The kernel is asked to send nothing at all only so many times. *)
Definition wears_out : Prop := ∀ k r k', k_send [] k = (r, k') →
  (patience k' <= patience k)%nat ∧
  ((patience k' < patience k)%nat ∨ r = SFail ∧ k_errno k' ≠ EAGAIN).

(** [k_send] on what is left. *)
Lemma sendmsg_spec rem w (Q : send_result → W → Prop) :
  unsent rem (conn w) → rem ≠ [] ∨ wears_out →
  (∀ n k', io [] (take (Z.to_nat n) rem) (kernel w) k' → 0 <= n <= size rem →
     0 < n ∨ (patience k' < patience (kernel w))%nat → Q (Sent n) (set_kernel k' w)) →
  (∀ k', io [] [] (kernel w) k' →
     (k_errno k' = EAGAIN → (patience k' < patience (kernel w))%nat) → Q SFail (set_kernel k' w)) →
  wp sendmsg w Q.
Proof.
  intros Hun Hne HB HF. unfold wp, sendmsg. rewrite (unsent_mem _ _ Hun).
  destruct (k_send rem (kernel w)) as [r k'] eqn:Hk.
  assert ((patience k' <= patience (kernel w))%nat ∧
    (r = SFail → k_errno k' = EAGAIN → (patience k' < patience (kernel w))%nat) ∧
    (rem = [] → r ≠ SFail → (patience k' < patience (kernel w))%nat)) as (Hle & Hfail & Hnil).
  { destruct (decide (rem = [])) as [->|Hr].
    - destruct Hne as [|Hw]; [done|]. destruct (Hw _ _ _ Hk) as [? [?|[-> ?]]]; by split_and!.
    - destruct (patience_send _ _ _ _ Hr Hk). by split_and!. }
  destruct r as [n|].
  - destruct (send_bytes rem (kernel w) n k' Hk) as (? & Hpos & Ho & Hi).
    apply HB; [by split|done|]. destruct (decide (rem = [])); [right|left]; auto.
  - destruct (send_fail rem (kernel w) k' Hk) as (Hi & Ho).
    apply HF; [split; rewrite ?app_nil_r; done|auto].
Qed.

(** What [SendMessage] has done when it returns: everything, or a part of it with
    an error, or it has given up after [EAGAIN_RETRY] refusals with [rem'] unsent. *)
Definition SendMessage_outcome (rem : bytes) (exact : Prop) (total eagain : Z) w
    (r : Z * Z) (w' : W) : Prop :=
  ∃ out, io [] out (kernel w) (kernel w') ∧ trace w' = trace w ∧ resent (conn w) (conn w') ∧
    (r = (IO_RW_OK, total) ∧ out = rem ∧ exact ∨ r.1 = IO_RW_ERROR ∧ out `prefix_of` rem ∨
     r = (IO_RW_OK, 0) ∧ EAGAIN_RETRY <= eagain + Z.of_nat (patience (kernel w)) ∧
       (patience (kernel w') < patience (kernel w))%nat ∧
       ∃ rem', rem = out ++ rem' ∧ unsent rem' (conn w')).

Lemma SendMessage_loop_outcome fuel rem w total len eagain :
  (length rem + patience (kernel w) < fuel)%nat → unsent rem (conn w) →
  0 <= len → size rem <= total - len → total < w64 → 0 <= eagain < EAGAIN_RETRY →
  total - len = size rem ∨ wears_out →
  wp (SendMessage_loop fuel total len eagain) w
    (SendMessage_outcome rem (total - len = size rem) total eagain w).
Proof.
  revert rem w len eagain. induction fuel as [|fuel IH];
    intros rem w len eagain Hf Hun Hlen Htot Hw He Hex; [lia|].
  cbn [SendMessage_loop]. pose proof (size_nonneg rem).
  destruct (len =? total) eqn:Heq; bool_to_Z.
  { apply wp_ret. assert (rem = []) as -> by (apply size_nil_inv; lia).
    exists []. split_and!; [apply io_refl|done|reflexivity|]. left.
    rewrite Heq, size_nil. split_and!; [done..|lia]. }
  apply wp_bind, (sendmsg_spec rem); [done| |..].
  { destruct Hex; [left|by right]. intros ->. rewrite size_nil in *. lia. }
  - intros n k' Hio Hn Hprog. rewrite (u64_small (len + n)) by lia.
    destruct (len + n =? total) eqn:Hend; bool_to_Z.
    + net_steps. exists rem. simpl. replace n with (size rem) in Hio by lia. rewrite take_size in Hio.
      split_and!; [done|done| |left; rewrite Hend; split_and!; done || lia].
      apply (resent_iov (conn w) (send_io_vec (conn w), _)).
    + destruct (unsent_advance rem (conn w) n Hun) as (iov & Ha & Hun'); [lia|].
      net_steps. simpl. rewrite Ha. apply (wp_deref _ iov); [done|]. net_steps. simpl.
      pose proof (io_patience _ _ _ _ Hio).
      assert (size (drop (Z.to_nat n) rem) = size rem - n) as Hrest
        by (unfold size in *; rewrite length_drop; lia).
      eapply wp_mono.
      { apply (IH (drop (Z.to_nat n) rem)); simpl; rewrite ?Hrest; try done; try lia.
        - unfold size in *. rewrite length_drop. lia.
        - destruct Hex; [left; lia|by right]. }
      intros r w' (out & Hio' & Htr & Hre & Hcase). simpl in *.
      exists (take (Z.to_nat n) rem ++ out). split_and!; [by apply (io_trans [] _ [] out _ k')|done| |].
      * etrans; [apply resent_iov|done].
      * rewrite Hrest in Hcase.
        destruct Hcase as [(-> & -> & ?)|[[? Hpre]|(-> & ? & ? & rem' & Hrem & ?)]].
        -- left. rewrite take_drop. split_and!; [done..|lia].
        -- right. left. split; [done|]. rewrite <- (take_drop (Z.to_nat n) rem) at 2.
           by apply prefix_app.
        -- right. right. split_and!; [done|lia..|]. exists rem'.
           by rewrite <- app_assoc, <- Hrem, take_drop.
  - intros k' Hio Hag. net_steps. simpl.
    destruct (k_errno k' =? EAGAIN) eqn:Heag; simpl; bool_to_Z.
    + specialize (Hag Heag). destruct (eagain + 1 =? EAGAIN_RETRY) eqn:Hgive; bool_to_Z.
      { net_steps. exists []. simpl. split_and!; [done|done|reflexivity|]. right. right.
        split_and!; [done|lia..|by exists rem]. }
      eapply wp_mono; [apply (IH rem); simpl; done || lia|].
      intros r w' (out & Hio' & Htr & Hre & Hcase). exists out. simpl in *.
      split_and!; [by apply (io_trans [] [] [] out _ k')|done..|].
      destruct Hcase as [?|[?|(? & ? & ? & ?)]]; [by left|by right; left|right; right].
      split_and!; done || lia.
    + net_steps. exists []. simpl. split_and!; [done|done|apply resent_errno|].
      right. left. split; [done|]. apply prefix_nil.
Qed.

(** When the kernel's patience does not last for [EAGAIN_RETRY] refusals, everything
    has been sent, or a part of it with an error. *)
Definition SendMessage_post (rem : bytes) (total : Z) w (r : Z * Z) (w' : W) : Prop :=
  ∃ out, io [] out (kernel w) (kernel w') ∧ trace w' = trace w ∧ resent (conn w) (conn w') ∧
    (r = (IO_RW_OK, total) ∧ out = rem ∨ r.1 = IO_RW_ERROR ∧ out `prefix_of` rem).

Lemma SendMessage_loop_spec fuel rem w total len eagain :
  (length rem + patience (kernel w) < fuel)%nat → unsent rem (conn w) →
  0 <= len → total - len = size rem → total < w64 → 0 <= eagain →
  eagain + Z.of_nat (patience (kernel w)) < EAGAIN_RETRY →
  wp (SendMessage_loop fuel total len eagain) w (SendMessage_post rem total w).
Proof.
  intros Hf Hun Hl Ht Hw He Hretry.
  eapply wp_mono; [apply (SendMessage_loop_outcome fuel rem); try done; [lia..|by left]|].
  intros r w' (out & Hio & Htr & Hre & [(? & ? & _)|[?|(_ & ? & _)]]); [..|lia];
    exists out; split_and!; auto.
Qed.

(** ** Laying out a frame *)

(** The frame of [m] is ready to be sent. *)
Record filled (m : MessageBase) (c : Connection) : Prop := {
  filled_unsent : unsent (frame m) c;
  filled_total : total_send_len c = size (frame m);
  filled_msg : send_message c = Some m;
}.

Lemma frame_size m : data_ok m → size (frame m) = header_size + size (payload m).
Proof.
  intros. unfold frame. by rewrite size_app.
Qed.

Lemma frame_bound m : sendable m → 0 < size (frame m) < w64.
Proof.
  intros [_ Hd ? ? ? ?]. rewrite frame_size, payload_size by done.
  unfold MAX_KMSG_NAME_LEN, MAX_KMSG_TO_LEN, MAX_KMSG_FROM_LEN, MAX_KMSG_BODY_LEN, header_size, w64 in *.
  pose proof (real_size_nonneg m Hd). pose proof (size_nonneg (msg_name m)).
  pose proof (size_nonneg (aid_string (msg_to m))). pose proof (size_nonneg (aid_string (msg_from m))).
  lia.
Qed.

Lemma FillMessageHeader_magic m h : magic h = RPC_MAGICID →
  FillMessageHeader m h = FillMessageHeader m new_header.
Proof. unfold FillMessageHeader. by intros ->. Qed.

Lemma frame_capacity m to from :
  capacity (frame_iovecs m to from) =
  header_size + size (msg_name m) + size to + size from + real_size m.
Proof. unfold frame_iovecs, capacity. cbn [foldr iov_len]. rewrite real_data_size_eq. lia. Qed.

(** The vector gathers the frame. *)
Lemma gather_frame_iovecs c m :
  send_message c = Some m → data_ok m →
  send_to c = aid_string (msg_to m) → send_from c = aid_string (msg_from m) →
  send_msg_header c = FillMessageHeader m new_header →
  gather c (frame_iovecs m (send_to c) (send_from c)) = Some (frame m).
Proof.
  intros Hm Hd Ht Hf Hh. unfold frame_iovecs. cbn [gather].
  assert (size (header_image (send_msg_header c)) = header_size) as Hhs.
  { rewrite Hh. unfold size. rewrite length_header_image by done. done. }
  rewrite <- Hhs.
  rewrite (window_whole SendHeader _ c (header_image (send_msg_header c)))
    by (try done; rewrite Hhs; unfold header_size; lia).
  rewrite (window_whole SendName _ c (msg_name m))
    by (simpl; rewrite ?Hm; pose proof (size_nonneg (msg_name m)); done || lia).
  rewrite (window_whole SendTo _ c (send_to c))
    by (pose proof (size_nonneg (send_to c)); done || lia).
  rewrite (window_whole SendFrom _ c (send_from c))
    by (pose proof (size_nonneg (send_from c)); done || lia).
  rewrite !take_size. cbn [mbind option_bind].
  rewrite real_data_size_eq. unfold frame, payload, GetMessageBaseRealData, real_size, real_data.
  rewrite Ht, Hf, Hh. unfold data_ok in Hd.
  destruct (msg_data m) as [mem|] eqn:Hdata.
  - rewrite (window_whole SendData _ c mem) by (simpl; rewrite ?Hm; done).
    cbn [mbind option_bind]. by rewrite app_nil_r.
  - destruct (msg_body m) as [|x b] eqn:Hb; [done|]. rewrite <- Hb.
    rewrite (window_whole SendBody _ c (msg_body m))
      by (simpl; rewrite ?Hm; pose proof (size_nonneg (msg_body m)); done || lia).
    rewrite take_size. cbn [mbind option_bind]. by rewrite app_nil_r.
Qed.

(** [c] can send: it has its metrics and header, nothing is queued, and nothing is
    half sent unless the connection is broken. *)
Record tx_ok (c : Connection) : Prop := {
  tx_metrics : is_Some (send_metrics c);
  tx_magic : magic (send_msg_header c) = RPC_MAGICID;
  tx_queue : send_message_queue c = [];
  tx_idle : conn_state c ≠ kDisconnecting → total_send_len c = 0;
}.

Lemma FillSendMessage_spec w m url :
  tx_ok (conn w) → sendable m →
  wp (FillSendMessage (Some m) url false) w (λ _ w',
    kernel w' = kernel w ∧ trace w' = trace w ∧ recv_side (conn w') = recv_side (conn w) ∧
    conn_state (conn w') = conn_state (conn w) ∧ is_Some (send_metrics (conn w')) ∧
    magic (send_msg_header (conn w')) = RPC_MAGICID ∧ send_message_queue (conn w') = [] ∧
    filled m (conn w')).
Proof.
  intros [[ms Hms] Hmag Hq Hidle] Hs. unfold FillSendMessage, fill_metrics. net_steps.
  rewrite Hms, bool_decide_eq_true_2 by apply Hs. simpl. net_steps. simpl.
  apply (wp_deref _ ms); [done|]. net_steps.
  pose proof (sendable_data _ Hs) as Hd. pose proof (frame_bound _ Hs) as Hb.
  match goal with |- context [filled m (conn (set_conn ?c _))] => set (c' := c) end.
  assert (gather c' (frame_iovecs m (send_to c') (send_from c')) = Some (frame m)) as Hg.
  { apply gather_frame_iovecs; try done. by apply FillMessageHeader_magic. }
  assert (size (frame m) = capacity (frame_iovecs m (send_to c') (send_from c'))) as Hcap.
  { rewrite frame_capacity, frame_size, payload_size by done. simpl. lia. }
  split; [reflexivity|]. split; [reflexivity|]. split; [reflexivity|]. split; [reflexivity|].
  split; [eexists; reflexivity|]. split; [exact Hmag|]. split; [exact Hq|].
  assert (live (send_io_vec c') (send_kernel_msg c') =
    frame_iovecs m (send_to c') (send_from c')) as Hl by reflexivity.
  assert (hdr_ok (send_io_vec c') (send_kernel_msg c')) as Hh by (split; vm_compute; done).
  assert (total_send_len c' = u64 (header_size + size (msg_name m) + size (send_to c') +
    size (send_from c') + GetMessageBaseRealDataSize (Some m))) as Htot by reflexivity.
  assert (send_message c' = Some m) as Hm by reflexivity.
  change (filled m c'). clearbody c'. split; [|..|done].
  - split; [done| |by rewrite Hl]. rewrite Hl. split; [|lia].
    repeat (apply Forall_cons; split; [cbn [iov_len]; try apply size_nonneg|]); [done| |done].
    rewrite real_data_size_eq. by apply real_size_nonneg.
  - rewrite Htot, real_data_size_eq, <- (frame_capacity m (send_to c') (send_from c')), <- Hcap.
    apply u64_small. lia.
Qed.

(** ** Flushing *)

(** The calls of the free callback for the data of a message. *)
Definition freed (m : MessageBase) (c : Connection) : list effect :=
  match msg_data m, free_cb_ c with Some mem, Some _ => [FreedData mem] | _, _ => [] end.

Lemma FreeMessageMemory_spec w m (Q : bool → W → Prop) :
  (∀ b, Q b (MkWorld (conn w) (kernel w) (trace w ++ freed m (conn w)))) →
  wp (FreeMessageMemory (Some m)) w Q.
Proof.
  intros HQ. unfold FreeMessageMemory, freed in *.
  destruct (msg_data m) as [mem|].
  - net_steps. destruct (free_cb_ (conn w)) as [f|].
    + net_steps. apply HQ.
    + net_steps. specialize (HQ false). rewrite app_nil_r in HQ. by destruct w.
  - net_steps. specialize (HQ true). rewrite app_nil_r in HQ. by destruct w.
Qed.

Lemma handled_freed m c : handled (freed m c) = [].
Proof. unfold freed. by destruct (msg_data m), (free_cb_ c). Qed.

Lemma handled_app a b : handled (a ++ b) = handled a ++ handled b.
Proof. apply omap_app. Qed.

(** What sending the frame of [m] comes to. *)
Inductive sent_outcome (m : MessageBase) w (bytes : Z) (w' : W) : Prop :=
| sent_all :
    io [] (frame m) (kernel w) (kernel w') → bytes = real_size m →
    conn_state (conn w') = conn_state (conn w) →
    trace w' = trace w ++ freed m (conn w) →
    sent_outcome m w bytes w'
| sent_part out :
    io [] out (kernel w) (kernel w') → out `prefix_of` frame m → bytes = 0 →
    conn_state (conn w') = kDisconnecting → trace w' = trace w →
    sent_outcome m w bytes w'.

Lemma sent_outcome_io m w bytes w' : sent_outcome m w bytes w' →
  ∃ out, io [] out (kernel w) (kernel w').
Proof. destruct 1; eauto. Qed.

(** Rounds enough for sending [m], and a kernel that does not refuse so often that
    [SendMessage] gives up. *)
Definition send_budget fuel (n : Z) k : Prop :=
  n + Z.of_nat (patience k) < Z.of_nat fuel ∧ Z.of_nat (patience k) < EAGAIN_RETRY.

Lemma send_budget_io fuel n k k' bs out : io bs out k k' → send_budget fuel n k →
  send_budget fuel n k'.
Proof. intros [_ _ ?] [? ?]. split; lia. Qed.

Lemma Flush_filled fuel w m :
  send_budget fuel (size (frame m)) (kernel w) → sendable m → filled m (conn w) →
  is_Some (send_metrics (conn w)) → magic (send_msg_header (conn w)) = RPC_MAGICID →
  send_message_queue (conn w) = [] →
  wp (Flush fuel) w (λ bytes w', recv_side (conn w') = recv_side (conn w) ∧
    tx_ok (conn w') ∧ sent_outcome m w bytes w').
Proof.
  intros [Hf Hretry] Hs [Hun Htot Hm] [ms Hms] Hmag Hq.
  pose proof (frame_bound _ Hs) as Hb. pose proof (sendable_data _ Hs) as Hd.
  pose proof (real_size_nonneg _ Hd) as Hrs.
  assert (real_size m < w64) as Hrw.
  { rewrite frame_size, payload_size in Hb by done. pose proof (size_nonneg (msg_name m)).
    pose proof (size_nonneg (aid_string (msg_to m))).
    pose proof (size_nonneg (aid_string (msg_from m))). unfold header_size in *. lia. }
  unfold Flush. destruct fuel as [|fuel']; [lia|]. cbn [Flush_loop]. net_steps.
  rewrite Hq, Htot, (proj2 (Z.eqb_neq _ 0)) by lia. simpl. net_steps.
  eapply wp_mono.
  { apply (SendMessage_loop_spec (S fuel') (frame m)); try done; try lia.
    unfold size in *. lia. }
  intros r w1 (out & Hio & Htr & Hre & Hcase).
  destruct (resent_eqs _ _ Hre) as [Hrecv Hconf].
  unfold send_config in Hconf. injection Hconf as E1 E2 E3 E4 E5 E6 E7 E8 E9.
  destruct Hcase as [[-> ->]|[Her Hpre]].
  - (* the frame is gone *)
    rewrite (proj2 (Z.ltb_lt _ _)) by lia. simpl. net_steps. simpl.
    rewrite E5, Htot, Z.sub_diag. simpl. unfold update_error. net_steps. simpl.
    apply (wp_deref _ ms); [by rewrite E3|]. net_steps. simpl. rewrite E4, Hm.
    apply FreeMessageMemory_spec. intros _. net_steps. simpl.
    split; [by rewrite <- Hrecv|]. split; [split; [by eexists|simpl; by rewrite E6|simpl; by rewrite E7|done]|].
    apply sent_all; [done| |done|].
    + rewrite <- (u64_small (real_size m)), <- real_data_size_eq by lia. reflexivity.
    + simpl. unfold freed. simpl. by rewrite Htr, E9.
  - destruct r as [ret len]. simpl in Her. subst ret. simpl. net_steps. unfold update_error.
    net_steps. apply (wp_deref _ ms); [by rewrite E3|]. net_steps. simpl.
    split; [by rewrite <- Hrecv|].
    split; [split; [by eexists|simpl; by rewrite E6|simpl; by rewrite E7|done]|].
    by apply (sent_part _ _ _ _ out).
Qed.

(** Without a bound on the refusals of the kernel [Flush] may try to send a message
    again that is half sent; whatever comes of it, it leaves a connection that can
    send, or a broken one. *)
Definition flushed w (w' : W) : Prop :=
  recv_side (conn w') = recv_side (conn w) ∧ tx_ok (conn w') ∧
  handled (trace w') = handled (trace w) ∧ (∃ out, io [] out (kernel w) (kernel w')) ∧
  (conn_state (conn w') = conn_state (conn w) ∨ conn_state (conn w') = kDisconnecting).

Lemma Flush_loop_any fuel rem m w bytes :
  wears_out → (length rem + patience (kernel w) < fuel)%nat → unsent rem (conn w) →
  size rem <= total_send_len (conn w) → 0 < total_send_len (conn w) < w64 →
  send_message (conn w) = Some m → is_Some (send_metrics (conn w)) →
  magic (send_msg_header (conn w)) = RPC_MAGICID → send_message_queue (conn w) = [] →
  wp (Flush_loop fuel bytes) w (λ _, flushed w).
Proof.
  intros Hwear. revert rem w. induction fuel as [|fuel IH];
    intros rem w Hf Hun Hrem Htot Hm Hms Hmag Hq; [lia|].
  cbn [Flush_loop]. net_steps.
  rewrite Hq, (proj2 (Z.eqb_neq _ 0)) by lia. simpl. net_steps.
  eapply wp_mono.
  { apply (SendMessage_loop_outcome (S fuel) rem); try done; try lia. by right. }
  intros r w1 (out & Hio & Htr & Hre & Hcase).
  destruct (resent_eqs _ _ Hre) as [Hrecv Hconf].
  unfold send_config in Hconf. injection Hconf as E1 E2 E3 E4 E5 E6 E7 E8 E9.
  destruct Hms as [ms Hms].
  destruct Hcase as [(-> & -> & _)|[[Her Hpre]|(-> & _ & Hpat & rem' & -> & Hun')]].
  - rewrite (proj2 (Z.ltb_lt _ _)) by lia. simpl. net_steps. simpl.
    rewrite E5, Z.sub_diag. simpl. unfold update_error. net_steps. simpl.
    apply (wp_deref _ ms); [by rewrite E3|]. net_steps. simpl. rewrite E4, Hm.
    apply FreeMessageMemory_spec. intros _. net_steps. simpl.
    split_and!; [by rewrite <- Hrecv|split; [by eexists|simpl; by rewrite E6|simpl; by rewrite E7|done]|
      etrans; [apply handled_app|by rewrite handled_freed, app_nil_r, Htr]|by eexists|by left].
  - destruct r as [ret len]. simpl in Her. subst ret. simpl. net_steps. unfold update_error.
    net_steps. apply (wp_deref _ ms); [by rewrite E3|]. net_steps. simpl.
    split_and!; [by rewrite <- Hrecv|split; [by eexists|simpl; by rewrite E6|simpl; by rewrite E7|done]|
      by simpl; rewrite Htr|by eexists|by right].
  - simpl. net_steps. rewrite size_app in Hrem. pose proof (size_nonneg out).
    eapply wp_mono.
    { apply (IH rem'); simpl; rewrite ?E3, ?E4, ?E5, ?E6, ?E7; try done; [|lia].
      rewrite length_app in Hf. lia. }
    intros _ w2 (Hr2 & Htx2 & Hh2 & (out2 & Hio2) & Hc2). simpl in *.
    split_and!; [congruence|done| | |by rewrite <- E2].
    + rewrite Hh2. etrans; [apply handled_app|]. by rewrite Htr, app_nil_r.
    + exists (out ++ out2). by apply (io_trans [] out [] out2 _ (kernel w1)).
Qed.

Lemma Flush_any fuel w m :
  wears_out ∨ Z.of_nat (patience (kernel w)) < EAGAIN_RETRY →
  size (frame m) + Z.of_nat (patience (kernel w)) < Z.of_nat fuel →
  sendable m → filled m (conn w) →
  is_Some (send_metrics (conn w)) → magic (send_msg_header (conn w)) = RPC_MAGICID →
  send_message_queue (conn w) = [] → wp (Flush fuel) w (λ _, flushed w).
Proof.
  intros [Hwear|Hretry] Hf Hs Hfill Hms Hmag Hq; pose proof Hfill as [Hun Htot Hm];
    pose proof (frame_bound _ Hs).
  - apply (Flush_loop_any fuel (frame m) m); try done; rewrite ?Htot; try lia.
    unfold size in *. lia.
  - eapply wp_mono; [by apply (Flush_filled fuel w m)|]. intros bytes w' (Hr & Htx & Hout).
    destruct (sent_outcome_io _ _ _ _ Hout) as [out Hio].
    split_and!; [done|done| |by exists out|].
    + destruct Hout as [_ _ _ ->|? _ _ _ _ ->]; [|done].
      by rewrite handled_app, handled_freed, app_nil_r.
    + destruct Hout as [_ _ Hc _|? _ _ _ Hc _]; auto.
Qed.

(** A connection with nothing to send is left alone. *)
Lemma Flush_idle fuel w : (0 < fuel)%nat → send_message_queue (conn w) = [] →
  total_send_len (conn w) = 0 → wp (Flush fuel) w (λ bytes w', bytes = 0 ∧ w' = w).
Proof.
  intros Hf Hq Ht. unfold Flush. destruct fuel; [lia|]. cbn [Flush_loop]. net_steps.
  rewrite Hq, Ht. simpl. by net_steps.
Qed.

(** [Send]: the message is on the wire and its data handed back, or it is refused
    and its data handed back, or the connection broke under it. *)
Lemma Send_spec fuel w m url :
  send_budget fuel (size (frame m)) (kernel w) → tx_ok (conn w) → sendable m →
  wp (Send fuel m url) w (λ r w', recv_side (conn w') = recv_side (conn w) ∧ tx_ok (conn w') ∧
    (conn_state (conn w) = kConnected ∧ r.1 = true ∧ sent_outcome m w r.2 w' ∨
     conn_state (conn w) ≠ kConnected ∧ r = (false, 0) ∧
       w' = MkWorld (conn w) (kernel w) (trace w ++ freed m (conn w)))).
Proof.
  intros Hb Htx Hs. unfold Send. net_steps. rewrite (tx_queue _ Htx). simpl.
  destruct (decide (conn_state (conn w) = kConnected)) as [Hc|Hc].
  - rewrite bool_decide_eq_true_2 by done. simpl. net_steps.
    rewrite (tx_idle _ Htx) by (by rewrite Hc). simpl. net_steps.
    eapply wp_mono; [by apply FillSendMessage_spec|].
    intros _ w1 (Hk & Ht & Hr & Hcs & Hms & Hmag & Hq & Hfill). net_steps.
    eapply wp_mono; [apply (Flush_filled fuel w1 m); try done; by rewrite Hk|].
    intros bytes w2 (Hr2 & Htx2 & Hout). net_steps. split; [congruence|]. split; [done|]. left.
    split; [done|]. split; [done|]. simpl.
    assert (freed m (conn w1) = freed m (conn w)) as Hfr.
    { unfold freed. unfold recv_side in Hr. assert (free_cb_ (conn w1) = free_cb_ (conn w)) as -> by congruence.
      done. }
    destruct Hout as [Hio Hby Hc2 Ht2|out Hio Hpre Hby Hc2 Ht2]; rewrite Hk, Ht in *.
    + apply sent_all; congruence.
    + by apply (sent_part _ _ _ _ out).
  - rewrite bool_decide_eq_false_2 by done. simpl. apply wp_bind, FreeMessageMemory_spec.
    intros _. net_steps. split; [done|]. split; [done|]. by right.
Qed.
End send.
