(* ===== verification/NetSession.v ===== *)
(** * Sessions

    A connection between two processes: the callbacks of the event loop on the
    receiving side, sequences of [Send] on the sending side, and what arrives. *)

From S2P Require Import Prelude NetBytes NetMessage NetState NetSocket NetIovec NetReceive.
From S2P Require Import Connection NetParse NetStream NetSend.

Section session.
Context {K : Type} `{Kernel K} `{!KernelLaws K} `{!KernelPatience K} `{NetEnv}.
Abbreviation W := (World K).
Implicit Types (w : W) (k : K) (fuel : nat).

(** The event loop calls [ReadCallBack] as long as the connection is not broken;
    a broken one is deleted. *)
Fixpoint serve (calls fuel : nat) : M W unit :=
  match calls with
  | O => mret ()
  | S calls =>
      state ← get_conn conn_state;
      if bool_decide (state = kDisconnecting) then mret ()
      else ReadCallBack fuel;; serve calls fuel
  end.

(** [Send] for each of a list of messages: whether each was accepted. *)
Fixpoint send_each (fuel : nat) (ms : list MessageBase) (url : bytes) : M W (list bool) :=
  match ms with
  | [] => mret []
  | m :: ms =>
      '(ok, _) ← Send fuel m url;
      oks ← send_each fuel ms url;
      mret (ok :: oks)
  end.

(** ** Receiving *)

(** What the handler answers can be sent. *)
Definition replies_ok (bound : Z) (c : Connection) : Prop :=
  ∃ handler, message_handler c = Some handler ∧
    ∀ seen m r, handler seen m = Some r → sendable r ∧ size (frame r) <= bound.

(** A connection that is served, apart from what it is to receive. *)
Record served fuel (bound : Z) w : Prop := {
  served_tx : tx_ok (conn w);
  served_type : recv_message_type (conn w) = kTcpMsg;
  served_handler : replies_ok bound (conn w);
  served_rounds : (budget (kernel w) < fuel)%nat;
  served_send : send_budget fuel bound (kernel w);
}.

Lemma parse_frame_eqs w w' : parse_frame w w' →
  recv_message_type (conn w') = recv_message_type (conn w) ∧
  message_handler (conn w') = message_handler (conn w) ∧
  send_metrics (conn w') = send_metrics (conn w) ∧
  send_msg_header (conn w') = send_msg_header (conn w) ∧
  send_message_queue (conn w') = send_message_queue (conn w) ∧
  total_send_len (conn w') = total_send_len (conn w).
Proof. intros [_ Hs]. unfold send_side in Hs. split_and!; congruence. Qed.

(** Parsing does not disturb the sending half. *)
Lemma served_parse fuel bound w w' bs :
  (conn_state (conn w') ≠ kDisconnecting → conn_state (conn w) ≠ kDisconnecting) →
  served fuel bound w → parse_frame w w' → io bs [] (kernel w) (kernel w') →
  served fuel bound w'.
Proof.
  intros Hcs [[Hms Hmag Hq Hidle] Hty Hh Hr Hs] Hpf Hio.
  destruct (parse_frame_eqs _ _ Hpf) as (E1 & E2 & E3 & E4 & E5 & E6).
  split; [split|..]; rewrite ?E1, ?E3, ?E4, ?E5, ?E6; auto.
  - unfold replies_ok. by rewrite E2.
  - apply io_budget in Hio. lia.
  - by eapply send_budget_io.
Qed.

(** The answer to a message leaves the receiving half alone. *)
Lemma reply_spec fuel bound w r :
  served fuel bound w → conn_state (conn w) ≠ kDisconnecting → sendable r →
  size (frame r) <= bound →
  wp (FillSendMessage (Some r) [] false;; Flush fuel;; mret ()) w (λ _ w',
    recv_side (conn w') = recv_side (conn w) ∧ handled (trace w') = handled (trace w) ∧
    incoming (kernel w') = incoming (kernel w) ∧ served fuel bound w' ∧
    (conn_state (conn w') = conn_state (conn w) ∨ conn_state (conn w') = kDisconnecting)).
Proof.
  intros [Htx Hty Hh Hr Hs] Hcs Hsend Hb. net_steps.
  eapply wp_mono; [by apply FillSendMessage_spec|].
  intros _ w1 (Hk & Ht & Hrecv & Hc & Hms & Hmag & Hq & Hfill). net_steps.
  eapply wp_mono.
  { apply (Flush_filled fuel w1 r); try done. rewrite Hk. destruct Hs. split; [lia|done]. }
  intros bytes w2 (Hrecv2 & Htx2 & Hout). net_steps.
  destruct (sent_outcome_io _ _ _ _ Hout) as [out Hio]. rewrite Hk in Hio.
  split; [congruence|].
  assert (handled (trace w2) = handled (trace w)) as Hhan.
  { destruct Hout as [_ _ _ Htr|? _ _ _ _ Htr]; rewrite Htr, Ht; [|done].
    by rewrite handled_app, handled_freed, app_nil_r. }
  split; [done|]. split; [by rewrite (io_in _ _ _ _ Hio)|].
  split.
  - assert (recv_side (conn w2) = recv_side (conn w)) as E by congruence.
    unfold recv_side in E. split; [done|congruence| | |].
    + unfold replies_ok. assert (message_handler (conn w2) = message_handler (conn w)) as -> by congruence.
      done.
    + apply io_budget in Hio. lia.
    + by eapply send_budget_io.
  - destruct Hout as [_ _ Hc2 _|? _ _ _ Hc2 _]; [left; congruence|by right].
Qed.

(** What some calls have delivered of the messages [ms] that were due: a first part
    of them, in order; the rest is still due. *)
Definition delivered fuel bound (ms : list MessageBase) w (w' : W) (n : nat) : Prop :=
  ∃ new, Forall2 same_content (take n ms) new ∧ (n <= length ms)%nat ∧
    handled (trace w') = handled (trace w) ++ new ∧ served fuel bound w' ∧
    message_handler (conn w') = message_handler (conn w) ∧
    (conn_state (conn w') ≠ kDisconnecting →
       conn_state (conn w') = conn_state (conn w) ∧
       awaiting (incoming (kernel w')) (drop n ms) (conn w')).

Lemma delivered_none fuel bound ms w : served fuel bound w →
  (conn_state (conn w) ≠ kDisconnecting → awaiting (incoming (kernel w)) ms (conn w)) →
  delivered fuel bound ms w w 0.
Proof.
  intros Hs Ha. exists []. rewrite drop_0, app_nil_r. 
  split; [constructor|]. split; [lia|]. split; [done|]. split; [done|]. split; [done|]. auto.
Qed.

Lemma delivered_trans fuel bound ms w w1 w2 n1 n2 :
  delivered fuel bound ms w w1 n1 → delivered fuel bound (drop n1 ms) w1 w2 n2 →
  delivered fuel bound ms w w2 (n1 + n2).
Proof.
  intros (new1 & F1 & L1 & H1 & _ & M1 & A1) (new2 & F2 & L2 & H2 & S2 & M2 & A2).
  exists (new1 ++ new2). rewrite length_drop in L2. split_and!; try done; try congruence.
  - rewrite <- take_take_drop. by apply Forall2_app.
  - lia.
  - by rewrite H2, H1, app_assoc.
  - intros Hnd. destruct (A2 Hnd) as [E Ha]. destruct (A1 ltac:(congruence)) as [E1 _].
    split; [congruence|]. by rewrite drop_drop in Ha.
Qed.

(** A handler that never answers. *)
Definition silent (c : Connection) : Prop :=
  ∀ handler, message_handler c = Some handler → ∀ seen m, handler seen m = None.

(** One [ReceiveMessage]: a message is handed over, or nothing happens. *)
Lemma ReceiveMessage_stream fuel bound w ms :
  served fuel bound w → awaiting (incoming (kernel w)) ms (conn w) →
  Forall well_addressed ms → conn_state (conn w) ≠ kDisconnecting →
  wp (TCPComm_ReceiveMessage fuel) w (λ r w',
    r = 1 ∧ delivered fuel bound ms w w' 1 ∧ awaiting (incoming (kernel w')) (drop 1 ms) (conn w') ∧
      recv_state (conn w') = kMsgHeader ∧
      (silent (conn w) → conn_state (conn w') ≠ kDisconnecting) ∨
    r = 0 ∧ delivered fuel bound ms w w' 0 ∧ conn_state (conn w') ≠ kDisconnecting ∧
      (∃ e, stalled e (kernel w')) ∨
    r = -1 ∧ delivered fuel bound ms w w' 0 ∧ stalled IO_RW_ERROR (kernel w') ∧
      (∃ t, awaiting (incoming (kernel w')) ms (set_total_recv_len t (conn w')))).
Proof.
  intros Hserved Ha Hall Hcs. pose proof Hserved as [Htx Hty Hh Hr Hsb].
  unfold TCPComm_ReceiveMessage, CheckMessageType. net_steps. rewrite Hty. simpl. net_steps.
  rewrite Hty. unfold Connection_ReceiveMessage. apply wp_bind.
  eapply wp_mono; [by apply ParseMessage_stream|].
  intros ok w1 (Hpf & (bs & Hio) & Hout).
  pose proof (served_parse _ _ _ _ _ (λ _, Hcs) Hserved Hpf Hio) as Hserved1.
  pose proof (parse_trace _ _ Hpf) as Htr.
  destruct (parse_frame_eqs _ _ Hpf) as (_ & Ehan & _).
  inversion Hout as [c' m ms' m' Hms Hm Hsame Hst Hc Haw E1 E2|c' e Hc Haw Hst E1 E2|
    c' t Hc Haw Hst E1 E2]; subst; simpl.
  - net_steps. destruct (served_handler _ _ _ Hserved1) as (handler & Hhan & Hreply).
    rewrite Hhan. net_steps. apply (wp_deref _ m'); [done|]. net_steps.
    set (w2 := MkWorld (conn w1) (kernel w1) (trace w1 ++ [Handled m'])).
    assert (served fuel bound w2) as Hserved2 by (by destruct Hserved1).
    assert (handled (trace w2) = handled (trace w) ++ [m']) as Hnew.
    { simpl. by rewrite handled_app, Htr. }
    assert (Forall2 same_content (take 1 (m :: ms')) [m']) as Hone
      by (cbn [take]; rewrite take_0; constructor; [done|constructor]).
    assert (drop 1 (m :: ms') = ms') as Hdrop by (simpl; apply drop_0).
    destruct (handler (handled (trace w1)) m') as [r|] eqn:Hans.
    + destruct (Hreply _ _ _ Hans) as [Hsend Hbound].
      eapply wp_mono; [apply (reply_spec fuel bound w2 r); try done; simpl; congruence|].
      intros _ w3 (Hrecv & Hhan3 & Hinc & Hs3 & Hc3). net_steps. left. split; [done|].
      assert (awaiting (incoming (kernel w3)) (drop 1 (m :: ms')) (conn w3)) as Haw3.
      { rewrite Hdrop, Hinc. by eapply awaiting_side. }
      split; [|split; [done|split]].
      * exists [m']. split_and!; [done|simpl; lia|congruence|done| |].
        { apply recv_side_handler in Hrecv. rewrite Hrecv. done. }
        intros Hnd. destruct Hc3 as [Hc3|?]; [|done]. split; [simpl in Hc3; congruence|done].
      * apply recv_side_eqs in Hrecv as (_ & -> & _). done.
      * intros Hsil. exfalso. rewrite Ehan in Hhan. by rewrite (Hsil _ Hhan) in Hans.
    + net_steps. left. split; [done|]. 
      assert (awaiting (incoming (kernel w2)) (drop 1 (m :: ms')) (conn w2)) as Haw2 by (by rewrite Hdrop).
      split; [|split; [done|split; [done|intros _; simpl; by rewrite Hc]]].
      exists [m']. rewrite Hdrop. split_and!; [done|simpl; lia|done|done|done|]. by intros _.
  - net_steps. rewrite bool_decide_eq_false_2 by congruence. right. left. split; [done|].
    split; [|split; [congruence|by exists e]]. exists []. rewrite app_nil_r, drop_0, Htr.
    split_and!; [constructor|lia|done|done|done|]. intros _. done.
  - net_steps. rewrite Hc, bool_decide_eq_true_2 by done. right. right. split; [done|].
    split; [|split; [done|by exists t]]. exists []. rewrite app_nil_r, drop_0, Htr.
    split_and!; [constructor|lia|done|done|done|]. by intros ?.
Qed.

(** A broken connection hands out nothing more. *)
Lemma ReceiveMessage_dead fuel bound w ms :
  served fuel bound w → awaiting (incoming (kernel w)) ms (conn w) →
  recv_state (conn w) = kMsgHeader → conn_state (conn w) = kDisconnecting →
  wp (TCPComm_ReceiveMessage fuel) w (λ r w', r = -1 ∧
    handled (trace w') = handled (trace w) ∧ served fuel bound w' ∧
    message_handler (conn w') = message_handler (conn w) ∧
    conn_state (conn w') = kDisconnecting).
Proof.
  intros Hserved [Hh Ha Hst] Hrs Hcs. rewrite Hrs in Hst. destruct Hst as [Hlen _].
  pose proof Hserved as [Htx Hty Hha Hr Hsb].
  unfold TCPComm_ReceiveMessage, CheckMessageType. net_steps. rewrite Hty. simpl. net_steps.
  rewrite Hty. unfold Connection_ReceiveMessage, ParseMessage. net_steps. rewrite Hrs.
  eapply wp_mono; [apply ParseHeader_spec; try done; by apply alloc_total_ok|].
  intros ok w1 (bs & Hio & Hpf & Hsz & Hout).
  assert (ok = false ∧ conn_state (conn w1) = kDisconnecting) as [-> Hc].
  { inversion Hout as [c' e _ _ _ _ _ Hcs' E1 E2|c' bs1 _ _ image _ Hd _ _ E1 E2|
      c' _ Hd _ _ E1 E2|c1 c' bs1 bs2 ok' _ _ image _ _ _ _ Hnd _ _ _ _ E1 E2]; subst; try done.
    split; [done|]. destruct Hcs' as [?|[? _]]; congruence. }
  simpl. net_steps. rewrite Hc. net_steps. split_and!; try done.
  - by rewrite (parse_trace _ _ Hpf).
  - by apply (served_parse _ _ w w1 bs).
  - by destruct (parse_frame_eqs _ _ Hpf) as (_ & ? & _).
Qed.

(** ** Callbacks *)

(** Nothing is due when the stream has been read. *)
Lemma awaiting_drained ms c : Forall well_addressed ms → awaiting [] ms c → ms = [].
Proof.
  intros Hall [Hh _ Hst]. destruct Hall as [|m ms Hm Hall]; [done|exfalso].
  pose proof (addressed_sendable _ Hm) as Hs.
  destruct (recv_state c).
  - destruct Hst as [Hlen Hstream]. apply (f_equal size) in Hstream.
    rewrite app_nil_r, size_take, frames_cons, size_app in Hstream by lia.
    assert (size (header_image (FillMessageHeader m new_header)) = header_size) as Hx by done.
    pose proof (size_nonneg (payload m ++ frames ms)). lia.
  - destruct Hst as (_ & m' & ms' & got & Heq & Hstream & _ & Hshaped & _ & Hlt).
    injection Heq as <- <-. rewrite app_nil_r in Hstream. apply (f_equal size) in Hstream.
    rewrite size_app in Hstream.
    rewrite (shaped_capacity m) in Hlt by (done || apply Hs).
    pose proof (size_nonneg (frames ms)). lia.
Qed.

(** The kernel hands out bytes whenever there are some. *)
Definition willing : Prop :=
  ∀ n k, 0 < n → incoming k ≠ [] → (k_recv n k).1 ≠ RFail.

Lemma stalled_willing e k : willing → stalled e k → incoming k = [].
Proof.
  intros Hw [[?|(n & k0 & Hn & Hi & Hf)] _]; [done|].
  destruct (decide (incoming k = [])) as [?|Hne]; [done|].
  exfalso. apply (Hw n k0); [done|by rewrite Hi|done].
Qed.

Lemma silent_delivered fuel bound ms w w' n : delivered fuel bound ms w w' n →
  silent (conn w) → silent (conn w').
Proof. unfold silent. by intros (new & _ & _ & _ & _ & -> & _). Qed.

(** With a willing kernel and a silent handler, a call delivers. *)
Lemma ReceiveMessage_delivers fuel bound w m ms :
  willing → served fuel bound w → silent (conn w) →
  awaiting (incoming (kernel w)) (m :: ms) (conn w) →
  Forall well_addressed (m :: ms) → conn_state (conn w) ≠ kDisconnecting →
  wp (TCPComm_ReceiveMessage fuel) w (λ r w', r = 1 ∧ delivered fuel bound (m :: ms) w w' 1 ∧
    conn_state (conn w') ≠ kDisconnecting).
Proof.
  intros Hw Hserved Hsil Ha Hall Hcs.
  eapply wp_mono; [by apply ReceiveMessage_stream|].
  intros r w' [(-> & Hd & _ & _ & Hlive)|[(_ & Hd & Hc & (e & Hst))|(_ & Hd & Hst & (t & Haw))]].
  - split_and!; auto.
  - exfalso. apply (stalled_willing _ _ Hw) in Hst.
    destruct Hd as (new & _ & _ & _ & _ & _ & Haw). destruct (Haw Hc) as [_ Haw'].
    rewrite Hst, drop_0 in Haw'. by apply awaiting_drained in Haw'.
  - exfalso. apply (stalled_willing _ _ Hw) in Hst. rewrite Hst in Haw.
    by apply awaiting_drained in Haw.
Qed.

(** [ReadCallBack] hands over a first part of what is due. *)
Lemma ReadCallBack_loop_stream count fuel bound w ms :
  served fuel bound w → awaiting (incoming (kernel w)) ms (conn w) →
  Forall well_addressed ms →
  conn_state (conn w) ≠ kDisconnecting ∨ recv_state (conn w) = kMsgHeader →
  wp (ReadCallBack_loop count fuel) w (λ _ w', ∃ n, delivered fuel bound ms w w' n).
Proof.
  revert w ms. induction count as [|count IH]; intros w ms Hserved Ha Hall Hcs; cbn [ReadCallBack_loop].
  { apply wp_ret. exists 0%nat. by apply delivered_none. }
  apply wp_bind. destruct (decide (conn_state (conn w) = kDisconnecting)) as [Hdead|Hlive].
  - destruct Hcs as [?|Hrs]; [done|].
    eapply wp_mono; [by apply (ReceiveMessage_dead fuel bound w ms)|].
    intros r w1 (-> & Hh & Hs & Hm & Hc). simpl. apply wp_ret. exists 0%nat, [].
    rewrite app_nil_r. split_and!; [constructor|lia|done|done|done|by rewrite Hc].
  - eapply wp_mono; [by apply ReceiveMessage_stream|].
    intros r w1 [(-> & Hd & Haw & Hrs & _)|[(-> & Hd & Hc & _)|(-> & Hd & _)]]; simpl.
    + pose proof Hd as (new & _ & _ & _ & Hs1 & _).
      eapply wp_mono; [apply (IH w1 (drop 1 ms)); try done; [by apply Forall_drop|by right]|].
      intros _ w2 (n & Hd2). exists (1 + n)%nat. by eapply delivered_trans.
    + apply wp_ret. by exists 0%nat.
    + apply wp_ret. by exists 0%nat.
Qed.

Lemma serve_stream calls fuel bound w ms :
  served fuel bound w → (conn_state (conn w) ≠ kDisconnecting →
    awaiting (incoming (kernel w)) ms (conn w)) →
  Forall well_addressed ms →
  wp (serve calls fuel) w (λ _ w', ∃ n, delivered fuel bound ms w w' n).
Proof.
  revert w ms. induction calls as [|calls IH]; intros w ms Hserved Ha Hall; cbn [serve].
  { apply wp_ret. exists 0%nat. by apply delivered_none. }
  net_steps. destruct (bool_decide_reflect (conn_state (conn w) = kDisconnecting)) as [Hd|Hc].
  { apply wp_ret. exists 0%nat. by apply delivered_none. }
  net_steps. eapply wp_mono; [apply (ReadCallBack_loop_stream _ fuel bound w ms); auto|].
  intros _ w1 (n1 & Hd1). pose proof Hd1 as (new & _ & _ & _ & Hs1 & _ & Ha1).
  eapply wp_mono; [apply (IH w1 (drop n1 ms)); try done; [apply Ha1|by apply Forall_drop]|].
  intros _ w2 (n2 & Hd2). exists (n1 + n2)%nat. by eapply delivered_trans.
Qed.

(** Calls that find messages deliver them. *)
Lemma ReadCallBack_loop_delivers count fuel bound w ms :
  willing → served fuel bound w → silent (conn w) →
  awaiting (incoming (kernel w)) ms (conn w) → Forall well_addressed ms →
  conn_state (conn w) ≠ kDisconnecting →
  wp (ReadCallBack_loop count fuel) w (λ _ w', ∃ n, delivered fuel bound ms w w' n ∧
    (n = length ms ∨ n = count ∧ conn_state (conn w') ≠ kDisconnecting)).
Proof.
  intros Hw. revert w ms. induction count as [|count IH]; intros w ms Hserved Hsil Ha Hall Hc.
  { cbn [ReadCallBack_loop]. apply wp_ret. exists 0%nat. split; [by apply delivered_none|by right]. }
  destruct ms as [|m ms].
  { eapply wp_mono; [apply (ReadCallBack_loop_stream _ fuel bound w []); auto|].
    intros _ w' (n & Hd). exists n. split; [done|]. left.
    destruct Hd as (_ & _ & Hn & _). simpl in *. lia. }
  cbn [ReadCallBack_loop]. apply wp_bind. eapply wp_mono; [by apply ReceiveMessage_delivers|].
  intros r w1 (-> & Hd & Hc1). simpl.
  pose proof Hd as (new & _ & _ & _ & Hs1 & _ & Ha1). apply Ha1 in Hc1 as [Ec Ha2].
  simpl in Ha2. rewrite drop_0 in Ha2.
  eapply wp_mono.
  { apply (IH w1 ms); try done; [by eapply silent_delivered|by apply Forall_cons in Hall as [_ ?]|congruence]. }
  intros _ w2 (n & Hd2 & Hcase). exists (1 + n)%nat.
  split; [eapply delivered_trans; [done|]; simpl; by rewrite drop_0|].
  destruct Hcase as [->|[-> ?]]; [by left|by right].
Qed.

Lemma serve_delivers calls fuel bound w ms :
  willing → served fuel bound w → silent (conn w) →
  awaiting (incoming (kernel w)) ms (conn w) → Forall well_addressed ms →
  conn_state (conn w) ≠ kDisconnecting → (length ms <= max_recv_count * calls)%nat →
  wp (serve calls fuel) w (λ _ w', delivered fuel bound ms w w' (length ms)).
Proof.
  intros Hw. revert w ms. induction calls as [|calls IH]; intros w ms Hserved Hsil Ha Hall Hc Hlen.
  { cbn [serve]. apply wp_ret. destruct ms; [|simpl in *; lia]. by apply delivered_none. }
  cbn [serve]. net_steps. rewrite bool_decide_eq_false_2 by done. net_steps.
  eapply wp_mono; [by apply (ReadCallBack_loop_delivers _ fuel bound w ms)|].
  intros _ w1 (n1 & Hd1 & Hcase).
  pose proof Hd1 as (new & _ & Hn1 & _ & Hs1 & _ & Ha1).
  destruct Hcase as [->|[-> Hc1]].
  - eapply wp_mono.
    { apply (serve_stream calls fuel bound w1 (drop (length ms) ms)); [done|apply Ha1|].
      by apply Forall_drop. }
    intros _ w2 (n2 & Hd2). assert (n2 <= length (drop (length ms) ms))%nat as Hn2
      by (by destruct Hd2 as (? & _ & ? & _)).
    rewrite length_drop in Hn2. assert (n2 = 0%nat) by lia. subst n2.
    rewrite <- (Nat.add_0_r (length ms)). by eapply delivered_trans.
  - destruct (Ha1 Hc1) as [Ec Ha2].
    eapply wp_mono.
    { apply (IH w1 (drop max_recv_count ms)); try done;
        [by eapply silent_delivered|by apply Forall_drop|rewrite length_drop; lia]. }
    intros u w2 Hd2. rewrite length_drop in Hd2.
    replace (length ms) with (max_recv_count + (length ms - max_recv_count))%nat by lia.
    by eapply delivered_trans.
Qed.

(** ** Any stream

    Whatever the peer sends, the callbacks return, the connection stays well formed
    and the handler sees only messages within the limits. The kernel may refuse to
    take an answer more often than [SendMessage] tries. *)

Record attended fuel (bound : Z) w : Prop := {
  attended_tx : tx_ok (conn w);
  attended_type : recv_message_type (conn w) = kTcpMsg;
  attended_handler : replies_ok bound (conn w);
  attended_rounds : (budget (kernel w) < fuel)%nat;
  attended_send : bound + Z.of_nat (patience (kernel w)) < Z.of_nat fuel;
  attended_wears : wears_out ∨ Z.of_nat (patience (kernel w)) < EAGAIN_RETRY;
}.

Lemma served_attended fuel bound w : served fuel bound w → attended fuel bound w.
Proof. intros [? ? ? ? [? ?]]. split; auto. Qed.

Lemma attended_parse fuel bound w w' bs :
  (conn_state (conn w') ≠ kDisconnecting → conn_state (conn w) ≠ kDisconnecting) →
  attended fuel bound w → parse_frame w w' → io bs [] (kernel w) (kernel w') →
  attended fuel bound w'.
Proof.
  intros Hcs [[Hms Hmag Hq Hidle] Hty Hh Hr Hs Hwear] Hpf Hio.
  destruct (parse_frame_eqs _ _ Hpf) as (E1 & E2 & E3 & E4 & E5 & E6).
  pose proof (io_budget _ _ _ _ Hio). pose proof (io_patience _ _ _ _ Hio).
  split; [split|..]; rewrite ?E1, ?E3, ?E4, ?E5, ?E6; auto; [|lia..|].
  - unfold replies_ok. by rewrite E2.
  - destruct Hwear; [by left|right; lia].
Qed.

Lemma reply_any fuel bound w r :
  attended fuel bound w → conn_state (conn w) ≠ kDisconnecting → sendable r →
  size (frame r) <= bound →
  wp (FillSendMessage (Some r) [] false;; Flush fuel;; mret ()) w (λ _ w',
    recv_side (conn w') = recv_side (conn w) ∧ handled (trace w') = handled (trace w) ∧
    attended fuel bound w' ∧
    (conn_state (conn w') = conn_state (conn w) ∨ conn_state (conn w') = kDisconnecting)).
Proof.
  intros [Htx Hty Hh Hr Hs Hwear] Hcs Hsend Hb. net_steps.
  eapply wp_mono; [by apply FillSendMessage_spec|].
  intros _ w1 (Hk & Ht & Hrecv & Hc & Hms & Hmag & Hq & Hfill). net_steps.
  eapply wp_mono; [apply (Flush_any fuel w1 r); rewrite ?Hk; done || lia|].
  intros bytes w2 (Hrecv2 & Htx2 & Hhan & (out & Hio) & Hc2). net_steps. rewrite Hk in Hio.
  assert (recv_side (conn w2) = recv_side (conn w)) as Erecv by congruence.
  split_and!; [done|by rewrite Hhan, Ht| |by rewrite <- Hc].
  pose proof (io_budget _ _ _ _ Hio). pose proof (io_patience _ _ _ _ Hio).
  unfold recv_side in Erecv. split; [done|congruence| |lia..|].
  - unfold replies_ok. by assert (message_handler (conn w2) = message_handler (conn w)) as -> by congruence.
  - destruct Hwear; [by left|right; lia].
Qed.

Definition guarded fuel bound w : Prop := rx_ok (conn w) ∧ attended fuel bound w.

Lemma ReceiveMessage_ok fuel bound w :
  guarded fuel bound w →
  conn_state (conn w) ≠ kDisconnecting ∨ recv_state (conn w) = kMsgHeader →
  wp (TCPComm_ReceiveMessage fuel) w (λ r w', guarded fuel bound w' ∧
    (∃ new, handled (trace w') = handled (trace w) ++ new ∧ Forall accepted new) ∧
    (0 < r → recv_state (conn w') = kMsgHeader)).
Proof.
  intros [Hrx Hserved] Hcs. pose proof Hserved as [Htx Hty Hh Hr Hsb _].
  unfold TCPComm_ReceiveMessage, CheckMessageType. net_steps. rewrite Hty. simpl. net_steps.
  rewrite Hty. unfold Connection_ReceiveMessage. apply wp_bind.
  eapply wp_mono; [by apply ParseMessage_ok|].
  intros ok w1 (Hrx1 & Hpf & (bs & Hio) & Hsame & Hok).
  pose proof (parse_trace _ _ Hpf) as Htr.
  assert (attended fuel bound w1) as Hserved1.
  { apply (attended_parse _ _ w w1 bs); try done. intros Hnd. by rewrite <- Hsame. }
  destruct ok; simpl; cycle 1.
  { net_steps. split; [done|]. split; [|by case_bool_decide]. exists []. by rewrite app_nil_r, Htr. }
  destruct (Hok eq_refl) as (Hlive & Hrs & m & Hm & Hacc).
  net_steps. destruct (attended_handler _ _ _ Hserved1) as (handler & Hhan & Hreply).
  rewrite Hhan. net_steps. apply (wp_deref _ m); [done|]. net_steps.
  set (w2 := MkWorld (conn w1) (kernel w1) (trace w1 ++ [Handled m])).
  assert (attended fuel bound w2) as Hserved2 by (by destruct Hserved1).
  assert (handled (trace w2) = handled (trace w) ++ [m]) as Hnew.
  { simpl. by rewrite handled_app, Htr. }
  destruct (handler (handled (trace w1)) m) as [r|] eqn:Hans.
  - destruct (Hreply _ _ _ Hans) as [Hsend Hbound].
    eapply wp_mono; [by apply (reply_any fuel bound w2 r)|].
    intros _ w3 (Hrecv & Hhan3 & Hs3 & Hc3). net_steps.
    split; [split; [by eapply rx_ok_side|done]|].
    split; [exists [m]; split; [congruence|by constructor]|].
    intros _. by apply recv_side_eqs in Hrecv as (_ & -> & _).
  - net_steps. split; [done|]. split; [exists [m]; split; [done|by constructor]|done].
Qed.

Lemma ReadCallBack_loop_ok count fuel bound w :
  guarded fuel bound w →
  conn_state (conn w) ≠ kDisconnecting ∨ recv_state (conn w) = kMsgHeader →
  wp (ReadCallBack_loop count fuel) w (λ _ w', guarded fuel bound w' ∧
    ∃ new, handled (trace w') = handled (trace w) ++ new ∧ Forall accepted new).
Proof.
  revert w. induction count as [|count IH]; intros w Hg Hcs; cbn [ReadCallBack_loop].
  { apply wp_ret. split; [done|]. exists []. by rewrite app_nil_r. }
  apply wp_bind. eapply wp_mono; [by apply ReceiveMessage_ok|].
  intros r w1 (Hg1 & (new & Hnew & Hacc) & Hpos). destruct (0 <? r) eqn:Hr; bool_to_Z.
  - eapply wp_mono; [apply (IH w1); auto|].
    intros _ w2 (Hg2 & new2 & Hnew2 & Hacc2). split; [done|]. exists (new ++ new2).
    rewrite Hnew2, Hnew, app_assoc. split; [done|by apply Forall_app].
  - apply wp_ret. split; [done|by exists new].
Qed.

Lemma serve_ok calls fuel bound w : guarded fuel bound w →
  wp (serve calls fuel) w (λ _ w', guarded fuel bound w' ∧
    ∃ new, handled (trace w') = handled (trace w) ++ new ∧ Forall accepted new).
Proof.
  revert w. induction calls as [|calls IH]; intros w Hg; cbn [serve].
  { apply wp_ret. split; [done|]. exists []. by rewrite app_nil_r. }
  net_steps. case_bool_decide as Hc.
  { apply wp_ret. split; [done|]. exists []. by rewrite app_nil_r. }
  net_steps. eapply wp_mono; [apply (ReadCallBack_loop_ok max_recv_count fuel bound w); auto|].
  intros _ w1 (Hg1 & new & Hnew & Hacc). eapply wp_mono; [by apply IH|].
  intros _ w2 (Hg2 & new2 & Hnew2 & Hacc2). split; [done|]. exists (new ++ new2).
  rewrite Hnew2, Hnew, app_assoc. split; [done|by apply Forall_app].
Qed.

(** ** Sending *)

(** A broken connection refuses everything. *)
Lemma send_each_refused fuel bound w ms url :
  send_budget fuel bound (kernel w) → tx_ok (conn w) → conn_state (conn w) ≠ kConnected →
  Forall (λ m, sendable m ∧ size (frame m) <= bound) ms →
  wp (send_each fuel ms url) w (λ oks w', kernel w' = kernel w ∧ conn w' = conn w).
Proof.
  intros Hb Htx Hc Hall. revert w Hb Htx Hc.
  induction Hall as [|m ms [Hs Hsz] Hall IH]; intros w Hb Htx Hc; cbn [send_each].
  { by apply wp_ret. }
  apply wp_bind. eapply wp_mono.
  { apply (Send_spec fuel w m url); [|done..]. destruct Hb. split; [lia|done]. }
  intros [ok n] w1 (_ & _ & [(? & _)|(_ & _ & ->)]); [done|].
  apply wp_bind. eapply wp_mono; [by apply IH|].
  intros oks w2 [? ?]. net_steps. done.
Qed.

(** All of the messages are on the wire, or the connection broke under one. *)
Lemma send_each_spec fuel bound w ms url :
  send_budget fuel bound (kernel w) → tx_ok (conn w) → conn_state (conn w) = kConnected →
  Forall (λ m, sendable m ∧ size (frame m) <= bound) ms →
  wp (send_each fuel ms url) w (λ oks w', ∃ out, io [] out (kernel w) (kernel w') ∧
    tx_ok (conn w') ∧ recv_side (conn w') = recv_side (conn w) ∧
    out `prefix_of` frames ms ∧
    (conn_state (conn w') = kConnected →
       out = frames ms ∧ oks = replicate (length ms) true ∧
       trace w' = trace w ++ concat ((λ m, freed m (conn w)) <$> ms))).
Proof.
  intros Hb Htx Hc Hall. revert w Hb Htx Hc.
  induction Hall as [|m ms [Hs Hsz] Hall IH]; intros w Hb Htx Hc; cbn [send_each].
  { apply wp_ret. exists []. split_and!; [apply io_refl|done|done|apply prefix_nil|].
    intros _. by rewrite app_nil_r. }
  apply wp_bind. eapply wp_mono.
  { apply (Send_spec fuel w m url); [|done..]. destruct Hb. split; [lia|done]. }
  intros [ok n] w1 (Hr1 & Htx1 & Hcase).
  destruct Hcase as [(_ & Hok & Hout)|(Hnc & _)]; [|done]. simpl in Hok. subst ok.
  assert (∀ m, freed m (conn w1) = freed m (conn w)) as Hfreed.
  { intros m'. unfold freed. unfold recv_side in Hr1.
    assert (free_cb_ (conn w1) = free_cb_ (conn w)) as -> by congruence. done. }
  change (frames (m :: ms)) with (frame m ++ frames ms).
  destruct Hout as [Hio _ Hc1 Ht1|out Hio Hpre _ Hc1 Ht1].
  - apply wp_bind. eapply wp_mono; [apply IH; [by eapply send_budget_io|done|congruence]|].
    intros oks w2 (out & Hio2 & Htx2 & Hr2 & Hpre & Hdone). net_steps.
    exists (frame m ++ out). split_and!; [by apply (io_trans [] _ [] out _ (kernel w1))|done|congruence| |].
    + by apply prefix_app.
    + intros Hc2. destruct (Hdone Hc2) as (-> & -> & Ht2). split_and!; [done|done|].
      rewrite Ht2, Ht1, <- app_assoc. simpl. do 2 f_equal.
      f_equal. apply list_fmap_ext. intros. apply Hfreed.
  - (* broken: the rest is refused *)
    apply wp_bind. eapply wp_mono.
    { apply (send_each_refused fuel bound w1 ms url); try done; [by eapply send_budget_io|].
      by rewrite Hc1. }
    intros oks w2 [Hk2 Hcc2]. net_steps. rewrite Hk2, Hcc2, Hc1.
    exists out. split_and!; [done|done|done|by apply prefix_app_r|done].
Qed.
End session.
