(* ===== verification/NetExample.v ===== *)
(** * Concrete kernels and connections

    Two kernels that keep [KernelLaws] and are patient, on which the operations of a connection can
    be evaluated: one follows a script of arrivals and refusals, the other never
    refuses to receive. And connections as [OnAccept] and [Connect] set them up. *)

From S2P Require Import Prelude NetBytes NetMessage NetState NetSocket NetReceive Connection.

(** ** A kernel with a script *)

Inductive arrival := Arrive (bs : bytes) | Refuse (e : Z).

Record Script := MkScript {
  arrivals : list arrival;          (** what [recv] finds, in order; then the end *)
  accepts : list (option nat);      (** how much [sendmsg] takes; then everything *)
  wire : bytes;
  last_errno : Z;
}.

Definition script_recv (n : Z) (s : Script) : recv_result * Script :=
  match arrivals s with
  | [] => (RBytes [], s)
  | Refuse e :: r => (RFail, MkScript r (accepts s) (wire s) e)
  | Arrive [] :: r => (RFail, MkScript r (accepts s) (wire s) EAGAIN)
  | Arrive bs :: r =>
      let m := Z.to_nat n in
      (RBytes (take m bs),
       MkScript (match drop m bs with [] => r | rest => Arrive rest :: r end)
                (accepts s) (wire s) (last_errno s))
  end.

Definition script_send (bs : bytes) (s : Script) : send_result * Script :=
  match accepts s with
  | [] => (Sent (size bs), MkScript (arrivals s) [] (wire s ++ bs) (last_errno s))
  | None :: r => (SFail, MkScript (arrivals s) r (wire s) EAGAIN)
  | Some j :: r =>
      let n := Nat.min (S j) (length bs) in
      (Sent (Z.of_nat n), MkScript (arrivals s) r (wire s ++ take n bs) (last_errno s))
  end.

#[export] Instance script_kernel : Kernel Script := {
  k_recv := script_recv;
  k_peek := λ n s, ((script_recv n s).1, s);
  k_send := script_send;
  k_errno := last_errno;
}.

Definition script_incoming (s : Script) : bytes :=
  concat ((λ a, match a with Arrive bs => bs | Refuse _ => [] end) <$> arrivals s).

#[export] Program Instance script_laws : KernelLaws Script := {
  incoming := script_incoming;
  outgoing := wire;
}.
Next Obligation.
  intros n [arr acc w e] bs k' Hn Hr. simpl in *. unfold script_recv in Hr. simpl in Hr.
  destruct arr as [|[[|b bs']|e'] r]; simplify_eq; simpl.
  - by split_and!.
  - set (l := b :: bs') in *. unfold script_incoming. simpl. split_and!.
    + unfold size. rewrite length_take. lia.
    + transitivity ((take (Z.to_nat n) l ++ drop (Z.to_nat n) l) ++
        concat ((λ a, match a with Arrive bs => bs | Refuse _ => [] end) <$> r)).
      { by rewrite take_drop. }
      rewrite <- app_assoc. f_equal. by destruct (drop (Z.to_nat n) l).
    + done.
Qed.
Next Obligation.
  intros n [arr acc w e] k' Hn Hr. simpl in *. unfold script_recv in Hr. simpl in Hr.
  destruct arr as [|[[|b bs']|e'] r]; simplify_eq; [done|].
  destruct (Z.to_nat n) eqn:Hz; [lia|done].
Qed.
Next Obligation.
  intros n [arr acc w e] k' Hr. simpl in *. unfold script_recv in Hr. simpl in Hr.
  by destruct arr as [|[[|b bs']|e'] r]; simplify_eq.
Qed.
Next Obligation.
  intros bs [arr acc w e] n k' Hs. simpl in *. unfold script_send in Hs. simpl in Hs.
  assert (bs ≠ [] → 0 < length bs)%nat as Hl by (destruct bs; [done|simpl; lia]).
  destruct acc as [|[j|] r]; simplify_eq; cbn [wire arrivals accepts length]; unfold size;
    rewrite Nat2Z.id; split_and!; try done;
    try (intros Hne; specialize (Hl Hne)); try lia.
  1: by rewrite firstn_all.
  all: destruct (length bs); simpl; lia.
Qed.
Next Obligation.
  intros bs [arr acc w e] k' Hs. simpl in *. unfold script_send in Hs. simpl in Hs.
  by destruct acc as [|[j|] r]; simplify_eq.
Qed.

#[export] Program Instance script_patience : KernelPatience Script := {
  patience := λ s, (length (arrivals s) + length (accepts s))%nat;
}.
Next Obligation.
  intros n [arr acc w e] r k' Hn Hr. simpl in *. unfold script_recv in Hr. simpl in Hr.
  destruct arr as [|[[|b bs']|e'] r']; simplify_eq; (try destruct (drop _ _));
    simpl; (split; [lia|intros; done || lia]).
Qed.
Next Obligation.
  intros bs [arr acc w e] r k' _ Hs. simpl in *. unfold script_send in Hs. simpl in Hs.
  destruct acc as [|[j|] r']; simplify_eq; simpl; (split; [lia|intros; done || lia]).
Qed.

(** ** A kernel that never refuses *)

Record Stream := MkStream {
  pending : bytes;
  cuts : list nat;                  (** how much [recv] returns at most *)
  output : bytes;
}.

Definition stream_recv (n : Z) (s : Stream) : recv_result * Stream :=
  let m := match cuts s with [] => Z.to_nat n | c :: _ => Nat.min (S c) (Z.to_nat n) end in
  (RBytes (take m (pending s)), MkStream (drop m (pending s)) (tail (cuts s)) (output s)).

#[export] Instance stream_kernel : Kernel Stream := {
  k_recv := stream_recv;
  k_peek := λ n s, ((stream_recv n s).1, s);
  k_send := λ bs s, (Sent (size bs), MkStream (pending s) (cuts s) (output s ++ bs));
  k_errno := λ _, 0;
}.

#[export] Program Instance stream_laws : KernelLaws Stream := {
  incoming := pending;
  outgoing := output;
}.
Next Obligation.
  intros n [p c o] bs k' Hn Hr. simpl in *. unfold stream_recv in Hr. simpl in Hr.
  injection Hr as <- <-. simpl. rewrite take_drop. split_and!; try done.
  unfold size. rewrite length_take. destruct c; [lia|destruct (Z.to_nat n) eqn:?; lia].
Qed.
Next Obligation.
  intros n [p c o] k' Hn Hr. simpl in *. unfold stream_recv in Hr. simpl in Hr.
  injection Hr as Ht _. destruct p; [done|]. destruct c; simpl in Ht;
    destruct (Z.to_nat n) eqn:Hz; done || lia.
Qed.
Next Obligation. done. Qed.
Next Obligation.
  intros bs [p c o] n k' Hs. simpl in *. injection Hs as <- <-. simpl.
  assert (bs ≠ [] → 0 < length bs)%nat as Hl by (destruct bs; [done|simpl; lia]). unfold size.
  rewrite Nat2Z.id, firstn_all. split_and!; try done; [lia|].
  intros Hne. specialize (Hl Hne). lia.
Qed.
Next Obligation. done. Qed.

#[export] Program Instance stream_patience : KernelPatience Stream := { patience := λ _, 0%nat }.
Next Obligation. intros n k r k' _ Hr. simpl in *. injection Hr as <- <-. by split. Qed.
Next Obligation. intros bs k r k' _ Hs. simpl in *. injection Hs as <- <-. by split. Qed.

(** ** A kernel whose peer goes silent

    It hands out what has arrived and then refuses for ever, which no law forbids. *)

Record Quiet := MkQuiet { arrived : bytes; written : bytes }.

Definition quiet_recv (n : Z) (s : Quiet) : recv_result * Quiet :=
  match arrived s with
  | [] => (RFail, s)
  | bs => (RBytes (take (Z.to_nat n) bs), MkQuiet (drop (Z.to_nat n) bs) (written s))
  end.

#[export] Instance quiet_kernel : Kernel Quiet := {
  k_recv := quiet_recv;
  k_peek := λ n s, ((quiet_recv n s).1, s);
  k_send := λ bs s, (Sent (size bs), MkQuiet (arrived s) (written s ++ bs));
  k_errno := λ _, EAGAIN;
}.

#[export] Program Instance quiet_laws : KernelLaws Quiet := {
  incoming := arrived;
  outgoing := written;
}.
Next Obligation.
  intros n [p o] bs k' Hn Hr. simpl in *. unfold quiet_recv in Hr. simpl in Hr.
  destruct p as [|b p]; [done|]. injection Hr as <- <-. simpl. rewrite take_drop.
  split_and!; try done. unfold size. rewrite length_take. lia.
Qed.
Next Obligation.
  intros n [p o] k' Hn Hr. simpl in *. unfold quiet_recv in Hr. simpl in Hr.
  destruct p as [|b p]; [done|]. destruct (Z.to_nat n) eqn:Hz; [lia|done].
Qed.
Next Obligation.
  intros n [p o] k' Hr. simpl in *. unfold quiet_recv in Hr. simpl in Hr.
  by destruct p; simplify_eq.
Qed.
Next Obligation.
  intros bs [p o] n k' Hs. simpl in *. injection Hs as <- <-. simpl.
  assert (bs ≠ [] → 0 < length bs)%nat as Hl by (destruct bs; [done|simpl; lia]). unfold size.
  rewrite Nat2Z.id, firstn_all. split_and!; try done; [lia|].
  intros Hne. specialize (Hl Hne). lia.
Qed.
Next Obligation. done. Qed.

(** ** Connections *)

(** What [OnAccept] makes of a new connection, once its handshake is done. *)
Definition accepted_connection (url : bytes) (handler : option MessageHandler)
    (allocate : option MemAllocateCallback) : Connection :=
  let c := new_connection in
  MkConnection url kConnected (Some new_metrics) (send_message c) (recv_message c)
    (recv_state c) (total_recv_len c) (total_send_len c) (recv_len c) (send_to c)
    (send_from c) (recv_to c) (recv_from c) (send_msg_header c) (recv_msg_header c)
    (send_kernel_msg c) (recv_kernel_msg c) (send_io_vec c) (recv_io_vec c)
    (recv_message_type c) handler (send_message_queue c) (output_buffer_size c)
    (error_code c) allocate (free_cb_ c) (advertise_addr_ c).

(** What [Connect] makes of one. *)
Definition client_connection (url : bytes) (handler : option MessageHandler)
    (free : MemFreeCallback) : Connection :=
  let c := new_connection in
  MkConnection url kConnected (send_metrics c) (send_message c) (recv_message c)
    (recv_state c) (total_recv_len c) (total_send_len c) (recv_len c) (send_to c)
    (send_from c) (recv_to c) (recv_from c) (send_msg_header c) (recv_msg_header c)
    (send_kernel_msg c) (recv_kernel_msg c) (send_io_vec c) (recv_io_vec c)
    (recv_message_type c) handler (send_message_queue c) (output_buffer_size c)
    (error_code c) (allocate_cb_ c) (Some free) (advertise_addr_ c).

(** Addresses that are kept as they are, and the usual separator. *)
#[export] Instance plain_env : NetEnv := {
  normalise_aid := λ a, a;
  URL_PROTOCOL_IP_SEPARATOR := [x3a; x2f; x2f];
}.

Definition actor (name : string) : AID := MkAID (text name) (text "10.0.0.1:80").

Definition message (name body : string) : MessageBase :=
  MkMessage (actor "a") (actor "b") (text name) (text body) None 0 KMSG 0.

(** A message whose body is memory of its own. *)
Definition data_message (name : string) (mem : bytes) : MessageBase :=
  MkMessage (actor "a") (actor "b") (text name) [] (Some mem) (size mem) KMSG 0.
