(* ===== verification/NetStall.v ===== *)
(** * Peers that stall

    A kernel may answer [EAGAIN] as often as it likes, and then the loops around its
    system calls need not end. [Tamed] is a kernel that breaks the connection off
    instead when it has refused too often; a run that ends cannot tell it from the
    other ([sim]), so that what is known of patient kernels holds of every run that
    ends. [ReadCallBack_spins] is one that does not end. *)

From S2P Require Import Prelude NetBytes NetMessage NetState NetSocket NetIovec NetReceive.
From S2P Require Import Connection NetParse NetStream NetSend NetSession.

Section tamed.
Context {K : Type} `{Kernel K} `{!KernelLaws K}.

(** The number of refusals left; with none, the connection is broken. *)
Definition Tamed : Type := K * nat.

Definition spend (refused : bool) (p : nat) : nat := if refused then pred p else p.

Definition tamed_recv (n : Z) (t : Tamed) : recv_result * Tamed :=
  let '(r, k) := k_recv n t.1 in
  (r, (k, spend (match r with RFail => k_errno k =? EAGAIN | _ => false end) t.2)).

Definition tamed_peek (n : Z) (t : Tamed) : recv_result * Tamed :=
  let '(r, k) := k_peek n t.1 in (r, (k, t.2)).

(** Sending nothing at all is counted as well. *)
Definition tamed_send (bs : bytes) (t : Tamed) : send_result * Tamed :=
  let '(r, k) := k_send bs t.1 in
  let p := spend (match r with SFail => k_errno k =? EAGAIN | Sent _ => bool_decide (bs = []) end) t.2 in
  (match bs, p with [], O => SFail | _, _ => r end, (k, p)).

#[export] Instance tamed_kernel : Kernel Tamed := {
  k_recv := tamed_recv;
  k_peek := tamed_peek;
  k_send := tamed_send;
  k_errno := λ t, if Nat.eqb t.2 0 then ECONNRESET else k_errno t.1;
}.

Lemma spend_le b p : (spend b p <= p)%nat.
Proof. destruct b; simpl; lia. Qed.

(** A refusal is counted as long as there are any left. *)
Lemma spend_again (k : K) p : let q := spend (k_errno k =? EAGAIN) p in
  (if Nat.eqb q 0 then ECONNRESET else k_errno k) = EAGAIN → (q < p)%nat.
Proof.
  intros q. destruct (Nat.eqb_spec q 0) as [|Hne]; [done|].
  intros He. subst q. rewrite He in *. simpl in *. lia.
Qed.

#[export] Program Instance tamed_laws : KernelLaws Tamed := {
  incoming := λ t, incoming t.1;
  outgoing := λ t, outgoing t.1;
}.
Next Obligation.
  intros n [k p] bs [k' p'] Hn. simpl. unfold tamed_recv. simpl.
  destruct (k_recv n k) as [r k1] eqn:Hk. intros [= -> -> _]. by apply recv_bytes in Hk.
Qed.
Next Obligation.
  intros n [k p] [k' p'] Hn. simpl. unfold tamed_recv. simpl.
  destruct (k_recv n k) as [r k1] eqn:Hk. intros [= -> _ _]. by eapply recv_eof.
Qed.
Next Obligation.
  intros n [k p] [k' p']. simpl. unfold tamed_recv. simpl.
  destruct (k_recv n k) as [r k1] eqn:Hk. intros [= -> -> _]. by apply recv_fail in Hk.
Qed.
Next Obligation.
  intros bs [k p] n [k' p']. simpl. unfold tamed_send. simpl.
  destruct (k_send bs k) as [r k1] eqn:Hk. intros [= Hr -> Hp].
  assert (r = Sent n) as -> by (by destruct bs; [destruct (spend _ p)|]).
  by apply send_bytes in Hk.
Qed.
Next Obligation.
  intros bs [k p] [k' p']. simpl. unfold tamed_send. simpl.
  destruct (k_send bs k) as [[n|] k1] eqn:Hk; intros [= Hr -> Hp]; [|by apply send_fail in Hk].
  destruct bs; [|done]. apply send_bytes in Hk as (? & _ & -> & ->).
  by rewrite take_nil, app_nil_r.
Qed.

#[export] Program Instance tamed_patience : KernelPatience Tamed := { patience := snd }.
Next Obligation.
  intros n [k p] r [k' p'] _. simpl. unfold tamed_recv. simpl.
  destruct (k_recv n k) as [r1 k1]. intros [= -> -> <-]. split; [apply spend_le|].
  intros -> He. by apply spend_again.
Qed.
Next Obligation.
  intros bs [k p] r [k' p'] Hne. simpl. unfold tamed_send. simpl.
  destruct (k_send bs k) as [r1 k1]. intros [= Hr -> <-]. split; [apply spend_le|].
  intros -> He. assert (r1 = SFail) as -> by (by destruct bs). by apply spend_again.
Qed.

Lemma tamed_wears_out : wears_out (K := Tamed).
Proof.
  intros [k p] r [k' p']. simpl. unfold tamed_send. simpl.
  destruct (k_send [] k) as [r1 k1]. intros [= <- -> <-]. split; [apply spend_le|].
  destruct r1 as [n|].
  - destruct p as [|p]; simpl; [by right|left; lia].
  - destruct (k_errno k' =? EAGAIN) eqn:He; bool_to_Z; simpl.
    + destruct p as [|p]; simpl; [by right|left; lia].
    + right. split; [by destruct p|]. by destruct p.
Qed.

End tamed.

(** ** Runs that end

    A kernel that answers as another one does, for as long as it is given enough
    refusals: [emb p k] is the state [k] with [p] of them left. *)
Class Embedding {K K'} `{Kernel K} `{Kernel K'} (emb : nat → K → K') : Prop := {
  emb_recv n k : ∃ N, ∀ p, k_recv n (emb (N + p)%nat k) =
    ((k_recv n k).1, emb p (k_recv n k).2);
  emb_peek n k : ∃ N, ∀ p, k_peek n (emb (N + p)%nat k) =
    ((k_peek n k).1, emb p (k_peek n k).2);
  emb_send bs k : ∃ N, ∀ p, k_send bs (emb (N + p)%nat k) =
    ((k_send bs k).1, emb p (k_send bs k).2);
  emb_errno p k : k_errno (emb p k) = k_errno k;
}.

Section sim.
Context {K K' : Type} `{Kernel K} `{Kernel K'} (emb : nat → K → K') `{!Embedding emb} `{NetEnv}.

Definition embed (p : nat) (w : World K) : World K' :=
  MkWorld (conn w) (emb p (kernel w)) (trace w).

(** What [m] does with one kernel, [m'] does with the other one that has as many
    refusals left as this takes; unless [m] runs out of fuel. *)
Definition sim {A} (m : M (World K) A) (m' : M (World K') A) : Prop := ∀ w,
  match m w with
  | Ret a w' => ∃ N, ∀ p, m' (embed (N + p) w) = Ret a (embed p w')
  | Throw e _ => e = running
  | Undef => ∃ N, ∀ p, m' (embed (N + p) w) = Undef
  end.

Lemma sim_bind {A B} (m : M (World K) A) m' (f : A → M (World K) B) f' :
  sim m m' → (∀ a, sim (f a) (f' a)) → sim (m ≫= f) (m' ≫= f').
Proof.
  intros Hm Hf w. specialize (Hm w). unfold mbind, M_bind.
  destruct (m w) as [a w1|e w1|]; [|done|].
  - destruct Hm as [N1 Hrun]. specialize (Hf a w1).
    destruct (f a w1) as [b w2|e w2|]; [|done|]; destruct Hf as [N2 Hrun'];
      exists (N1 + N2)%nat; intros p; rewrite <- Nat.add_assoc, Hrun; apply Hrun'.
  - destruct Hm as [N1 Hrun]. exists N1. intros p. by rewrite Hrun.
Qed.

Lemma sim_ret {A} (a : A) : sim (mret a) (mret a).
Proof. intros w. by exists 0%nat. Qed.
Lemma sim_gets {A} (f : World K → A) f' : (∀ p w, f' (embed p w) = f w) → sim (gets f) (gets f').
Proof. intros Hf w. exists 0%nat. intros p. unfold gets. by rewrite Hf. Qed.
Lemma sim_get_conn {A} (f : Connection → A) : sim (get_conn f) (get_conn f).
Proof. by apply sim_gets. Qed.
Lemma sim_errno : sim errno errno.
Proof. apply sim_gets. intros p w. apply (emb_errno p (kernel w)). Qed.
Lemma sim_upd_conn f : sim (upd_conn f) (upd_conn f).
Proof. intros w. by exists 0%nat. Qed.
Lemma sim_emit e : sim (emit e) (emit e).
Proof. intros w. by exists 0%nat. Qed.
Lemma sim_deref {A} (o : option A) : sim (deref o) (deref o).
Proof. intros w. destruct o; by exists 0%nat. Qed.
Lemma sim_running {A} (m' : M (World K') A) : sim (throw running) m'.
Proof. by intros w. Qed.

Lemma sim_recv_header off n : sim (recv_header off n) (recv_header off n).
Proof.
  intros [c k t]. unfold recv_header. simpl. destruct (emb_recv n k) as [N HN].
  destruct (k_recv n k) as [[bs|] k']; [destruct (write_at _ _ _) eqn:Hw|];
    exists N; intros p; rewrite HN; simpl; by rewrite ?Hw.
Qed.

Lemma sim_recvmsg : sim recvmsg recvmsg.
Proof.
  intros [c k t]. unfold recvmsg. simpl. 
  destruct (emb_recv (capacity (live (recv_io_vec c) (recv_kernel_msg c))) k) as [N HN].
  destruct (k_recv _ k) as [[bs|] k']; [destruct (scatter _ _ _) eqn:Hs|];
    exists N; intros p; rewrite HN; simpl; by rewrite ?Hs.
Qed.

Lemma sim_sendmsg : sim sendmsg sendmsg.
Proof.
  intros [c k t]. unfold sendmsg. simpl. destruct (gather _ _) as [bs|]; [|by exists 0%nat].
  destruct (emb_send bs k) as [N HN]. destruct (k_send bs k) as [r k'].
  exists N. intros p. by rewrite HN.
Qed.

Create HintDb sim.
#[local] Hint Resolve sim_ret sim_get_conn sim_errno sim_upd_conn sim_emit sim_deref sim_running
  sim_recv_header sim_recvmsg sim_sendmsg : sim.

Ltac sim_step :=
  lazymatch goal with
  | |- sim (match ?x with _ => _ end) (match ?x with _ => _ end) => destruct x
  | |- sim (let _ := _ in _) _ => cbv zeta
  | |- sim (mbind _ _) (mbind _ _) => apply sim_bind; [|intros ?]
  | _ => solve [eauto with sim]
  end.
Ltac sims := repeat sim_step.
(** *** The loops around system calls, with at least as much fuel *)

Lemma sim_Receive_loop f f' a b c : (f <= f')%nat → sim (Receive_loop f a b c) (Receive_loop f' a b c).
Proof.
  revert f' a b c. induction f as [|f IH]; intros [|f'] a b c Hf; try lia; [by apply sim_running..|].
  cbn [Receive_loop]. sims. apply IH. lia.
Qed.

Lemma sim_ReceiveMessage_loop f f' a b : (f <= f')%nat →
  sim (ReceiveMessage_loop f a b) (ReceiveMessage_loop f' a b).
Proof.
  revert f' a b. induction f as [|f IH]; intros [|f'] a b Hf; try lia; [by apply sim_running..|].
  cbn [ReceiveMessage_loop]. sims; apply IH; lia.
Qed.

Lemma sim_SendMessage_loop f f' a b c : (f <= f')%nat →
  sim (SendMessage_loop f a b c) (SendMessage_loop f' a b c).
Proof.
  revert f' a b c. induction f as [|f IH]; intros [|f'] a b c Hf; try lia; [by apply sim_running..|].
  cbn [SendMessage_loop]. sims; apply IH; lia.
Qed.
#[local] Hint Extern 1 (sim (Receive_loop _ _ _ _) _) => (apply sim_Receive_loop; lia) : sim.
#[local] Hint Extern 1 (sim (ReceiveMessage_loop _ _ _) _) => (apply sim_ReceiveMessage_loop; lia) : sim.
#[local] Hint Extern 1 (sim (SendMessage_loop _ _ _ _) _) => (apply sim_SendMessage_loop; lia) : sim.

(** *** The functions of a connection *)

Lemma sim_FreeMessageMemory m : sim (FreeMessageMemory m) (FreeMessageMemory m).
Proof. unfold FreeMessageMemory. sims. Qed.
#[local] Hint Resolve sim_FreeMessageMemory : sim.

Lemma sim_FillSendMessage m url http : sim (FillSendMessage m url http) (FillSendMessage m url http).
Proof. unfold FillSendMessage, fill_metrics, whenM. destruct m; sims. Qed.

Lemma sim_update_error fail err : sim (update_error fail err) (update_error fail err).
Proof. unfold update_error. sims. Qed.
#[local] Hint Resolve sim_FillSendMessage sim_update_error : sim.

Lemma sim_Flush_loop f f' b : (f <= f')%nat → sim (Flush_loop f b) (Flush_loop f' b).
Proof.
  revert f' b. induction f as [|f IH]; intros [|f'] b Hf; try lia; [by apply sim_running..|].
  cbn [Flush_loop]. unfold SendMessage. sims; apply IH; lia.
Qed.
#[local] Hint Extern 1 (sim (Flush_loop _ _) _) => (apply sim_Flush_loop; lia) : sim.

Lemma sim_SetUrl : sim SetUrlForRecvMessage SetUrlForRecvMessage.
Proof. unfold SetUrlForRecvMessage. sims. Qed.

Lemma sim_FillRecvMessage : sim FillRecvMessage FillRecvMessage.
Proof. unfold FillRecvMessage. sims. Qed.
#[local] Hint Resolve sim_SetUrl sim_FillRecvMessage : sim.

Lemma sim_ParseBody f f' : (f <= f')%nat → sim (ParseBody f) (ParseBody f').
Proof. intros. unfold ParseBody, ReceiveMessage. sims. Qed.
#[local] Hint Extern 1 (sim (ParseBody _) _) => (apply sim_ParseBody; lia) : sim.

Lemma sim_ParseMessage f f' : (f <= f')%nat → sim (ParseMessage f) (ParseMessage f').
Proof. intros. unfold ParseMessage, ParseHeader, Receive. sims. Qed.
#[local] Hint Extern 1 (sim (ParseMessage _) _) => (apply sim_ParseMessage; lia) : sim.

Lemma sim_handled : sim (gets (λ w, handled (trace w))) (gets (λ w, handled (trace w))).
Proof. by apply sim_gets. Qed.
#[local] Hint Resolve sim_handled : sim.

Lemma sim_Connection_ReceiveMessage f f' : (f <= f')%nat →
  sim (Connection_ReceiveMessage f) (Connection_ReceiveMessage f').
Proof. intros. unfold Connection_ReceiveMessage, Flush. sims. Qed.
#[local] Hint Extern 1 (sim (Connection_ReceiveMessage _) _) =>
  (apply sim_Connection_ReceiveMessage; lia) : sim.

Lemma sim_CheckMessageType : sim CheckMessageType CheckMessageType.
Proof.
  unfold CheckMessageType, whenM. sims.
  intros [c k t]. simpl. destruct (emb_peek 4 k) as [N HN]. destruct (k_peek 4 k) as [r k'].
  exists N. intros p. by rewrite HN.
Qed.
#[local] Hint Resolve sim_CheckMessageType : sim.

Lemma sim_ReadCallBack_loop n f f' : (f <= f')%nat →
  sim (ReadCallBack_loop n f) (ReadCallBack_loop n f').
Proof.
  intros Hf. induction n as [|n IH]; cbn [ReadCallBack_loop]; [by apply sim_ret|].
  unfold TCPComm_ReceiveMessage. sims.
Qed.

Lemma sim_serve calls f f' : (f <= f')%nat → sim (serve calls f) (serve calls f').
Proof.
  intros Hf. induction calls as [|calls IH]; cbn [serve]; [by apply sim_ret|].
  unfold ReadCallBack. sims. by apply sim_ReadCallBack_loop.
Qed.
End sim.

(** A tamed kernel is one that has been given refusals, and more fuel does not
    matter to a run that ends. *)
#[local] Instance tame_embedding {K} `{Kernel K} :
  Embedding (K' := @Tamed K) (λ p k, (k, S p)).
Proof.
  split; simpl; [|by exists 0%nat; intros; unfold tamed_peek; simpl; destruct (k_peek _ _)| |done].
  - intros n k. unfold tamed_recv. simpl. destruct (k_recv n k) as [r k'].
    exists (if match r with RFail => k_errno k' =? EAGAIN | _ => false end then 1%nat else 0%nat).
    intros p. by destruct (match r with RFail => _ | _ => _ end).
  - intros bs k. unfold tamed_send. simpl. destruct (k_send bs k) as [r k'].
    exists (if match r with SFail => k_errno k' =? EAGAIN | Sent _ => bool_decide (bs = []) end then 1%nat else 0%nat).
    intros p. by destruct (match r with SFail => _ | Sent _ => _ end); destruct bs.
Qed.

#[local] Instance id_embedding {K} `{Kernel K} : Embedding (K' := K) (λ _ k, k).
Proof. split; try (exists 0%nat; intros _; by destruct (_ : _ * K)); done. Qed.

(** [m] ends in a state that satisfies [Q], or a loop in it is still running. *)
Definition wlp {S A} (m : M S A) (s : S) (Q : A → S → Prop) : Prop :=
  match m s with Ret a s' => Q a s' | Throw e _ => e = running | Undef => False end.

(** What the handler answers can be sent. *)
Definition answers_sendable (c : Connection) : Prop :=
  ∃ handler, message_handler c = Some handler ∧ ∀ seen m r, handler seen m = Some r → sendable r.

Lemma answers_replies c : answers_sendable c → replies_ok w64 c.
Proof.
  intros (h & Hh & Hans). exists h. split; [done|]. intros seen m r Hr.
  specialize (Hans _ _ _ Hr). pose proof (frame_bound _ Hans). split; [done|lia].
Qed.

(** The callbacks are safe on every kernel: those that end do so as on a patient
    kernel. *)
Lemma serve_safe {K} `{Kernel K} `{!KernelLaws K} `{NetEnv} calls fuel (w : World K) :
  rx_ok (conn w) → tx_ok (conn w) → recv_message_type (conn w) = kTcpMsg →
  answers_sendable (conn w) →
  wlp (serve calls fuel) w (λ _ w', rx_ok (conn w') ∧ tx_ok (conn w') ∧
    ∃ new, handled (trace w') = handled (trace w) ++ new ∧ Forall accepted new).
Proof.
  intros Hrx Htx Hty Hans%answers_replies. unfold wlp.
  pose proof (sim_serve (K' := @Tamed K) (λ p k, (k, S p)) calls fuel fuel (le_n _) w) as Hsim.
  destruct (serve calls fuel w) as [[] w'|e w'|] eqn:Hrun; [|done|].
  all: destruct Hsim as [N HN]; specialize (HN 0%nat).
  all: set (t := embed _ (N + 0) w) in HN.
  all: set (fuel' := (fuel + S (budget (kernel t)) + Z.to_nat w64 + S (patience (kernel t)))%nat).
  all: assert (wp (serve calls fuel') t (λ _ t', guarded fuel' w64 t' ∧
    ∃ new, handled (trace t') = handled (trace t) ++ new ∧ Forall accepted new)) as Hwp
    by (apply serve_ok; split; [done|split; try done;
      [unfold fuel'; lia..|left; apply tamed_wears_out]]).
  all: pose proof (sim_serve (K := @Tamed K) (K' := @Tamed K) (λ _ k, k) calls fuel fuel' ltac:(unfold fuel'; lia) t) as Hmore.
  all: rewrite HN in Hmore; destruct Hmore as [M HM]; specialize (HM 0%nat).
  all: assert (embed (λ (_ : nat) (k : @Tamed K), k) (M + 0) t = t) as Ht by done; rewrite Ht in HM.
  all: unfold wp in Hwp; rewrite HM in Hwp. 2: done.
  destruct Hwp as ((? & [? _ _ _ _ _]) & ?). done.
Qed.

(** ** Runs that do not end *)

(** A peer that keeps the connection and sends nothing: whatever is asked for, the
    kernel answers [EAGAIN] and goes on like that. *)
Definition keeps_refusing {K} `{Kernel K} (P : K → Prop) : Prop := ∀ n k, P k →
  (k_recv n k).1 = RFail ∧ k_errno (k_recv n k).2 = EAGAIN ∧ P (k_recv n k).2.

Definition spins {S A} (m : M S A) (s : S) : Prop := ∃ s', m s = Throw running s'.

Lemma spins_bind {S A B} (m : M S A) (f : A → M S B) s : spins m s → spins (m ≫= f) s.
Proof. intros [s' Hs]. exists s'. unfold mbind, M_bind. by rewrite Hs. Qed.

Lemma spins_after {S A B} (m : M S A) (f : A → M S B) s a s' :
  m s = Ret a s' → spins (f a) s' → spins (m ≫= f) s.
Proof. intros Hm [s2 Hs]. exists s2. unfold mbind, M_bind. by rewrite Hm. Qed.

Section stall.
Context {K : Type} `{Kernel K} `{NetEnv}.

(** [ReceiveMessage] asks again at once, without end. *)
Lemma ReceiveMessage_spins P fuel total len (w : World K) :
  keeps_refusing P → P (kernel w) → len < total → spins (ReceiveMessage_loop fuel total len) w.
Proof.
  intros HP Hk Hlt. revert w Hk. induction fuel as [|fuel IH]; intros w Hk; [by exists w|].
  cbn [ReceiveMessage_loop]. rewrite (proj2 (Z.ltb_lt _ _) Hlt). cbn [negb].
  destruct (HP (capacity (live (recv_io_vec (conn w)) (recv_kernel_msg (conn w)))) _ Hk)
    as (Hr & He & Hk'). destruct (k_recv _ (kernel w)) as [r k'] eqn:Heq. simpl in *. subst r.
  apply (spins_after _ _ _ RFail (set_kernel k' w)); [unfold recvmsg; by rewrite Heq|].
  apply (spins_after _ _ _ EAGAIN (set_kernel k' w)); [by rewrite <- He|]. simpl. by apply IH.
Qed.

(** A peer that stalls in the middle of a body keeps the thread of the event loop:
    the callback of a connection that has bytes of a body to receive does not
    return as long as the kernel answers [EAGAIN]. *)
Theorem ReadCallBack_spins P fuel (w : World K) :
  keeps_refusing P → P (kernel w) → recv_message_type (conn w) = kTcpMsg →
  recv_state (conn w) = kBody → 0 < total_recv_len (conn w) →
  spins (ReadCallBack fuel) w.
Proof.
  intros HP Hk Hty Hst Htot. unfold ReadCallBack, max_recv_count. cbn [ReadCallBack_loop].
  apply spins_bind. unfold TCPComm_ReceiveMessage, CheckMessageType.
  eapply (spins_after _ _ _ () w).
  { unfold mbind, M_bind, get_conn, gets. by rewrite Hty. }
  eapply spins_after; [done|]. cbv beta. rewrite Hty. apply spins_bind. unfold ParseMessage.
  eapply spins_after; [done|]. cbv beta. rewrite Hst. unfold ParseBody.
  eapply spins_after; [done|]. cbv beta. apply spins_bind. unfold ReceiveMessage.
  rewrite (proj2 (Z.eqb_neq _ 0)) by lia. by apply (ReceiveMessage_spins P).
Qed.
End stall.
