(* ===== verification/NetTheorems.v ===== *)
(** * Properties of connections

    What the two ends of a connection can rely on, each with an instance on the
    kernels of [NetExample]. *)

From S2P Require Import Prelude NetBytes NetMessage NetState NetSocket NetIovec NetReceive.
From S2P Require Import Connection NetParse NetStream NetSend NetSession NetExample NetStall.

(** A receiver between two messages. *)
Record at_rest (c : Connection) : Prop := {
  rest_state : recv_state c = kMsgHeader;
  rest_len : recv_len c = 0;
  rest_header : size (recv_msg_header c) = header_size;
  rest_alloc : alloc_total c;
  rest_conn : conn_state c ≠ kDisconnecting;
}.

Lemma at_rest_awaiting c ms : at_rest c → awaiting (frames ms) ms c.
Proof. intros [Hs Hl Hh Ha _]. split; [done..|]. by rewrite Hs, Hl, take_0. Qed.

(** A sender that is connected and idle. *)
Record ready_to_send {K} `{Kernel K} `{!KernelLaws K} `{!KernelPatience K} (fuel : nat) (bound : Z) (w : World K)
    : Prop := {
  ready_tx : tx_ok (conn w);
  ready_state : conn_state (conn w) = kConnected;
  ready_budget : send_budget fuel bound (kernel w);
}.

Section ends.
Context {K1 : Type} `{Kernel K1} `{!KernelLaws K1} `{!KernelPatience K1} {K2 : Type} `{Kernel K2} `{!KernelLaws K2} `{!KernelPatience K2}.
Context `{NetEnv}.

(** C2: Messages arrive. A sender that is still connected after sending a list of
    messages has had them all accepted and their data freed once; and a receiver
    whose stream is what was sent, served by any number of callbacks over any
    fragmentation of the stream, has handed to its handler a first part of these
    messages, in order and with their content - all of them, once the stream has
    been read. *)
Theorem messages_arrive fuel bound fuel' bound' calls ms url (ws : World K1) (wr : World K2) :
  ready_to_send fuel bound ws →
  Forall well_addressed ms → Forall (λ m, size (frame m) <= bound) ms →
  at_rest (conn wr) → served fuel' bound' wr →
  wp (send_each fuel ms url) ws (λ oks ws',
    conn_state (conn ws') = kConnected →
    oks = replicate (length ms) true ∧
    trace ws' = trace ws ++ concat ((λ m, freed m (conn ws)) <$> ms) ∧
    (outgoing (kernel ws') = outgoing (kernel ws) ++ incoming (kernel wr) →
     wp (serve calls fuel') wr (λ _ wr', ∃ n new,
       (n <= length ms)%nat ∧ Forall2 same_content (take n ms) new ∧
       handled (trace wr') = handled (trace wr) ++ new ∧
       (conn_state (conn wr') ≠ kDisconnecting → incoming (kernel wr') = [] → n = length ms)))).
Proof.
  intros [Htx Hcs Hbud] Haddr Hsize Hrest Hserved.
  eapply wp_mono.
  { apply (send_each_spec fuel bound ws ms url); try done.
    eapply Forall_impl; [apply Forall_and; split; [exact Haddr|exact Hsize]|]. intros m [Hm ?]. split; [apply Hm|done]. }
  intros oks ws' (out & Hio & _ & _ & _ & Hdone) Hcs'.
  destruct (Hdone Hcs') as (-> & -> & Ht). split_and!; [done|done|]. intros Hwire.
  rewrite (io_out _ _ _ _ Hio) in Hwire. apply app_inv_head in Hwire.
  eapply wp_mono.
  { apply (serve_stream calls fuel' bound' wr ms); [done| |done]. intros _.
    rewrite <- Hwire. by apply at_rest_awaiting. }
  intros _ wr' (n & new & Hnew & Hn & Hh & _ & _ & Haw). exists n, new.
  split_and!; try done. intros Hlive Hread. destruct (Haw Hlive) as [_ Ha].
  rewrite Hread in Ha. apply awaiting_drained in Ha; [|by apply Forall_drop].
  apply (f_equal length) in Ha. rewrite length_drop in Ha. simpl in Ha. lia.
Qed.
End ends.

Section one_end.
Context {K : Type} `{Kernel K} `{!KernelLaws K} `{!KernelPatience K} `{NetEnv}.
Implicit Types (w : World K).

(** C25: Every message is delivered. When the kernel does not refuse bytes it has
    and the handler does not answer, the stream of [n] messages is delivered within
    [n / 3] callbacks, rounded up: a callback takes three messages. *)
Theorem every_message_delivered fuel bound calls ms w :
  willing (K := K) → silent (conn w) → served fuel bound w → at_rest (conn w) →
  Forall well_addressed ms → incoming (kernel w) = frames ms →
  (length ms <= max_recv_count * calls)%nat →
  wp (serve calls fuel) w (λ _ w', ∃ new, Forall2 same_content ms new ∧
    handled (trace w') = handled (trace w) ++ new).
Proof.
  intros Hw Hsil Hserved Hrest Haddr Hin Hlen.
  eapply wp_mono.
  { apply (serve_delivers calls fuel bound w ms); try done; [|apply Hrest].
    rewrite Hin. by apply at_rest_awaiting. }
  intros _ w' (new & Hnew & _ & Hh & _). exists new. by rewrite firstn_all in Hnew.
Qed.

(** Callbacks return when the kernel does not refuse for ever: the rounds that
    [served] leaves are enough for any bytes. *)
Theorem patient_stream_returns fuel bound calls w :
  rx_ok (conn w) → served fuel bound w →
  wp (serve calls fuel) w (λ _ w', rx_ok (conn w') ∧ tx_ok (conn w') ∧
    ∃ new, handled (trace w') = handled (trace w) ++ new ∧ Forall accepted new).
Proof.
  intros Hrx Hserved. eapply wp_mono.
  { apply (serve_ok calls fuel bound w). split; [done|by apply served_attended]. }
  intros _ w' ([? [? _ _ _ _ _]] & ?). done.
Qed.

(** C5: [Send] on a connection: the frame of the message is on the wire, whole and
    once, and its data freed; or it is refused and its data freed; or the
    connection broke after a part of the frame. The receiving half is left alone. *)
Theorem Send_puts_frame fuel m url w :
  tx_ok (conn w) → sendable m → send_budget fuel (size (frame m)) (kernel w) →
  wp (Send fuel m url) w (λ '(ok, bytes) w',
    recv_side (conn w') = recv_side (conn w) ∧ tx_ok (conn w') ∧
    ∃ out, outgoing (kernel w') = outgoing (kernel w) ++ out ∧
    ((ok = true ∧ out = frame m ∧ bytes = real_size m ∧
        conn_state (conn w') = kConnected ∧ trace w' = trace w ++ freed m (conn w)) ∨
     (ok = true ∧ out `prefix_of` frame m ∧ bytes = 0 ∧
        conn_state (conn w') = kDisconnecting ∧ trace w' = trace w) ∨
     (ok = false ∧ out = [] ∧ bytes = 0 ∧ conn_state (conn w) ≠ kConnected ∧
        conn w' = conn w ∧ trace w' = trace w ++ freed m (conn w)))).
Proof.
  intros Htx Hs Hb. eapply wp_mono; [by apply (Send_spec fuel w m url)|].
  intros [ok bytes] w' (Hr & Htx' & Hcase). split; [done|]. split; [done|].
  destruct Hcase as [(Hc & Hok & [Hio Hby Hc' Ht|out Hio Hpre Hby Hc' Ht])|(Hc & Heq & ->)];
    simpl in *; subst.
  - exists (frame m). split; [apply Hio|]. left. by rewrite Hc'.
  - exists out. split; [apply Hio|]. right. by left.
  - injection Heq as -> ->. exists []. rewrite app_nil_r. split; [done|]. right. by right.
Qed.

(** An unacceptable header breaks the connection off. When the next 20 bytes
    are no header (another magic id, or a length beyond its limit), a call that
    reads them yields no message and leaves the connection disconnecting. *)
Theorem bad_header_rejected fuel w image rest :
  (budget (kernel w) < fuel)%nat → rx_ok (conn w) → at_rest (conn w) →
  incoming (kernel w) = image ++ rest → size image = header_size →
  take 4 image ≠ RPC_MAGICID ∨ ¬ within_limits (announced image) →
  wp (ParseMessage fuel) w (λ ok w', ok = false ∧
    ((∃ bs e, bs `prefix_of` image ∧ incoming (kernel w) = bs ++ incoming (kernel w') ∧
        size bs < header_size ∧ stalled e (kernel w')) ∨
     incoming (kernel w') = rest ∧ conn_state (conn w') = kDisconnecting)).
Proof.
  intros Hf Hrx [Hst Hlen Hh Ha Hc] Hin Hsz Hbad.
  unfold ParseMessage. net_steps. rewrite Hst.
  eapply wp_mono.
  { apply ParseHeader_spec; try done; [|by apply alloc_total_ok]. split; [done|].
    rewrite Hlen. done. }
  intros ok w' (bs & Hio & _ & _ & Hout). pose proof (io_in _ _ _ _ Hio) as Hbs.
  inversion Hout as [c' e Hlt _ _ _ Hstall _ E1 E2|c' bs1 Hb Hs1 image' _ Hd _ _ E1 E2|
    c' Hdead _ _ _ E1 E2|c1 c' bs1 bs2 ok' Hb Hs1 image' Hm Hlim _ _ _ _ _ _ _ E1 E2]; subst.
  - split; [done|]. left. exists bs, e. rewrite Hlen, Z.sub_0_r in Hlt.
    split_and!; try done. rewrite Hin in Hbs. unfold size in *.
    exists (drop (length bs) image).
    apply (f_equal (take (length bs))) in Hbs. rewrite take_app_length in Hbs.
    rewrite take_app_le in Hbs by lia. by rewrite <- Hbs at 1; rewrite take_drop.
  - split; [done|]. right. split; [|done]. rewrite Hin in Hbs.
    apply app_inj_1 in Hbs as [_ <-]; [done|]. unfold size, header_size in *. lia.
  - done.
  - exfalso. assert (image' = image) as E.
    { unfold image'. rewrite Hlen, take_0. simpl. rewrite Hin, <- app_assoc in Hbs.
      apply app_inj_1 in Hbs as [-> _]; [done|]. unfold size, header_size in *. lia. }
    rewrite E in Hm, Hlim. by destruct Hbad.
Qed.
End one_end.

(** C4: Any stream is safe. Whatever bytes the peer sends, however they arrive and
    however often the kernel answers [EAGAIN] in between, callbacks never meet
    undefined behaviour: they return, and then the connection is well formed (every
    buffer the kernel may write to is as large as its vector says) and the handler
    has seen only messages within the limits; or one of the loops around the system
    calls has not ended after the rounds it was given. They do return when the kernel
    answers [EAGAIN] finitely often only and the rounds are enough for that; a peer
    that stalls within a message keeps them from it ([cut_frame_spins]). *)
Theorem any_stream_is_safe {K} `{Kernel K} `{!KernelLaws K} `{NetEnv} fuel calls (w : World K) :
  rx_ok (conn w) → tx_ok (conn w) → recv_message_type (conn w) = kTcpMsg →
  answers_sendable (conn w) →
  match serve calls fuel w with
  | Ret _ w' => rx_ok (conn w') ∧ tx_ok (conn w') ∧
      ∃ new, handled (trace w') = handled (trace w) ++ new ∧ Forall accepted new
  | Throw e _ => e = running
  | Undef => False
  end ∧
  (∀ (patient : KernelPatience K) bound, served fuel bound w → ∃ w', serve calls fuel w = Ret () w').
Proof.
  intros Hrx Htx Hty Hans. pose proof (serve_safe calls fuel w Hrx Htx Hty Hans) as Hsafe.
  split; [exact Hsafe|]. intros patient bound Hserved.
  destruct (wp_inv _ _ _ (patient_stream_returns fuel bound calls w Hrx Hserved)) as ([] & w' & Hr & _).
  by exists w'.
Qed.

(** ** Instances *)

(** The receiving end, as [OnAccept] leaves it; its handler never answers. *)
Definition receiver : Connection :=
  accepted_connection (text "10.0.0.2:80") (Some (λ _ _, None))
    (Some (λ n, Some (replicate (Z.to_nat n) x00))).
Definition sender : Connection := client_connection (text "10.0.0.1:80") None (λ _, true).

Definition letters : list MessageBase := [message "hello" "world"; data_message "blob" [x01; x02; x03]].

(** A wire that delivers the bytes [bs] in pieces. *)
Definition in_pieces (bs : bytes) : Script :=
  MkScript [Arrive (take 15 bs); Refuse EAGAIN; Arrive (take 15 (drop 15 bs));
            Arrive (drop 30 bs); Refuse EAGAIN; Refuse EAGAIN; Refuse EAGAIN] [] [] 0.

Definition sending_world : World Script :=
  MkWorld sender (MkScript [] [Some 4%nat; None; Some 60%nat] [] 0) [].
Definition receiving_world : World Script := MkWorld receiver (in_pieces (frames letters)) [].
Definition streaming_world : World Stream :=
  MkWorld receiver (MkStream (frames letters) [3; 0; 20; 7]%nat []) [].

Ltac concrete := vm_compute; (discriminate || reflexivity || lia).

Lemma letters_addressed : Forall well_addressed letters.
Proof.
  repeat constructor; try concrete; apply (bool_decide_unpack _); vm_compute; done.
Qed.

Lemma letters_small : Forall (λ m, size (frame m) <= 100) letters.
Proof. repeat constructor; concrete. Qed.

Lemma receiver_at_rest : at_rest receiver.
Proof.
  split; try concrete. intros n Hn. eexists. split; [done|].
  unfold size. rewrite length_replicate. lia.
Qed.

Lemma receiver_served {K} `{Kernel K} `{!KernelLaws K} `{!KernelPatience K} fuel bound (k : K) :
  (budget k < fuel)%nat → send_budget fuel bound k → served fuel bound (MkWorld receiver k []).
Proof.
  intros Hf Hb. split; [|done| |exact Hf|exact Hb].
  - split; [by exists new_metrics|done..].
  - exists (λ _ _, None). done.
Qed.

Lemma sending_ready : ready_to_send 200 100 sending_world.
Proof.
  split; [split; [by exists new_metrics|done..]|done|]. split; concrete.
Qed.

Lemma messages_arrive_witness :
  wp (send_each 200 letters []) sending_world (λ oks ws',
    conn_state (conn ws') = kConnected →
    oks = replicate (length letters) true ∧
    trace ws' = trace sending_world ++
      concat ((λ m, freed m (conn sending_world)) <$> letters) ∧
    (outgoing (kernel ws') = outgoing (kernel sending_world) ++ incoming (kernel receiving_world) →
     wp (serve 3 200) receiving_world (λ _ wr', ∃ n new,
       (n <= length letters)%nat ∧ Forall2 same_content (take n letters) new ∧
       handled (trace wr') = handled (trace receiving_world) ++ new ∧
       (conn_state (conn wr') ≠ kDisconnecting → incoming (kernel wr') = [] →
        n = length letters)))).
Proof.
  apply (messages_arrive 200 100 200 100 3 letters [] sending_world receiving_world).
  - apply sending_ready.
  - apply letters_addressed.
  - apply letters_small.
  - apply receiver_at_rest.
  - apply receiver_served; [|split]; concrete.
Defined.

(** The premises of its conclusion hold there: both messages arrive. *)
Lemma letters_arrive :
  wp (send_each 200 letters []) sending_world (λ _ ws',
    conn_state (conn ws') = kConnected ∧ outgoing (kernel ws') = incoming (kernel receiving_world)) ∧
  wp (serve 3 200) receiving_world (λ _ wr',
    conn_state (conn wr') = kConnected ∧ incoming (kernel wr') = [] ∧
    (msg_name <$> handled (trace wr')) = [text "hello"; text "blob"]).
Proof. by vm_compute. Qed.

Lemma every_message_delivered_witness :
  wp (serve 1 200) streaming_world (λ _ w', ∃ new, Forall2 same_content letters new ∧
    handled (trace w') = handled (trace streaming_world) ++ new).
Proof.
  apply (every_message_delivered 200 100 1 letters streaming_world).
  - intros n k Hn _. by destruct k.
  - intros handler Heq. injection Heq as <-. done.
  - apply receiver_served; [|split]; concrete.
  - apply receiver_at_rest.
  - apply letters_addressed.
  - done.
  - simpl. unfold max_recv_count. lia.
Defined.

(** A hostile stream: a good frame, then noise. *)
Definition noisy_world : World Script :=
  MkWorld receiver (in_pieces (frame (message "hello" "world") ++ text "RPC0 and then nothing sensible"))
    [].

(** The peer goes silent in the middle of the body, and the kernel refuses more. *)
Definition cut_frame : bytes := take 40 (frame (message "hello" "world")).
Definition quiet_world : World Quiet := MkWorld receiver (MkQuiet cut_frame []) [].

Lemma receiver_answers : answers_sendable receiver.
Proof. by exists (λ _ _, None). Qed.

Lemma receiver_rx_ok : rx_ok receiver.
Proof. apply new_connection_ok; [done..|]. apply alloc_total_ok, receiver_at_rest. Qed.

(** On a stream that ends the callbacks return; on a silent peer they do not. *)
Lemma any_stream_is_safe_witness :
  (match serve 3 200 noisy_world with
   | Ret _ w' => rx_ok (conn w') ∧ tx_ok (conn w') ∧
       ∃ new, handled (trace w') = handled (trace noisy_world) ++ new ∧ Forall accepted new
   | Throw e _ => e = running
   | Undef => False
   end ∧ (∃ w', serve 3 200 noisy_world = Ret () w')) ∧
  (match serve 3 200 quiet_world with
   | Ret _ w' => rx_ok (conn w') ∧ tx_ok (conn w') ∧
       ∃ new, handled (trace w') = handled (trace quiet_world) ++ new ∧ Forall accepted new
   | Throw e _ => e = running
   | Undef => False
   end).
Proof.
  split.
  - destruct (any_stream_is_safe 200 3 noisy_world) as [Hsafe Hret];
      [apply receiver_rx_ok|split; [by exists new_metrics|done..]|done|apply receiver_answers|].
    split; [exact Hsafe|]. apply (Hret script_patience 100). clear Hsafe Hret. apply receiver_served; [|split]; concrete.
  - destruct (any_stream_is_safe 200 3 quiet_world) as [Hsafe _];
      [apply receiver_rx_ok|split; [by exists new_metrics|done..]|done|apply receiver_answers|].
    exact Hsafe.
Defined.

(** The noise breaks the connection off after the good frame has been handed out. *)
Example noise_rejected : wp (serve 3 200) noisy_world (λ _ w',
  conn_state (conn w') = kDisconnecting ∧ length (handled (trace w')) = 1%nat).
Proof. by vm_compute. Qed.

(** One more step of a callback that will spin: the first of two computations
    returns, the condition of a branch is decided. *)
Ltac spin_step :=
  cbv beta iota zeta;
  lazymatch goal with
  | |- spins (mbind _ _) _ => eapply spins_after; [vm_compute; reflexivity|]
  | |- spins (if ?b then _ else _) _ =>
      let v := eval vm_compute in b in
      replace b with v by (vm_compute; reflexivity)
  end.

Lemma quiet_refuses : keeps_refusing (λ k : Quiet, arrived k = []).
Proof. intros n [p o] Hp. simpl in Hp. by subst p. Qed.

(** However many rounds it is given, the callback on the cut frame does not return. *)
Lemma cut_frame_spins fuel : spins (ReadCallBack fuel) quiet_world.
Proof.
  destruct fuel as [|fuel]; [by eexists|].
  unfold ReadCallBack, max_recv_count. cbn [ReadCallBack_loop]. apply spins_bind.
  unfold TCPComm_ReceiveMessage. do 2 spin_step. apply spins_bind.
  unfold ParseMessage. spin_step. unfold ParseHeader. do 12 spin_step.
  unfold ParseBody. spin_step. apply spins_bind. unfold ReceiveMessage. spin_step.
  cbn [ReceiveMessage_loop]. do 6 spin_step.
  by apply (ReceiveMessage_spins _ _ _ _ _ quiet_refuses).
Qed.

Definition greeting : MessageBase := message "hello" "world".

Lemma Send_puts_frame_witness :
  wp (Send 200 greeting []) sending_world (λ '(ok, bytes) w',
    recv_side (conn w') = recv_side (conn sending_world) ∧ tx_ok (conn w') ∧
    ∃ out, outgoing (kernel w') = outgoing (kernel sending_world) ++ out ∧
    ((ok = true ∧ out = frame greeting ∧ bytes = real_size greeting ∧
        conn_state (conn w') = kConnected ∧
        trace w' = trace sending_world ++ freed greeting (conn sending_world)) ∨
     (ok = true ∧ out `prefix_of` frame greeting ∧ bytes = 0 ∧
        conn_state (conn w') = kDisconnecting ∧ trace w' = trace sending_world) ∨
     (ok = false ∧ out = [] ∧ bytes = 0 ∧ conn_state (conn sending_world) ≠ kConnected ∧
        conn w' = conn sending_world ∧
        trace w' = trace sending_world ++ freed greeting (conn sending_world)))).
Proof.
  apply (Send_puts_frame 200 greeting [] sending_world).
  - apply sending_ready.
  - split; concrete.
  - split; concrete.
Defined.

(** A frame of another protocol. *)
Definition foreign : bytes := text "GET / HTTP/1.1......".

Definition foreign_world : World Script :=
  MkWorld receiver (in_pieces (foreign ++ text "tail")) [].

Lemma bad_header_rejected_witness :
  wp (ParseMessage 100) foreign_world (λ ok w', ok = false ∧
    ((∃ bs e, bs `prefix_of` foreign ∧
        incoming (kernel foreign_world) = bs ++ incoming (kernel w') ∧
        size bs < header_size ∧ stalled e (kernel w')) ∨
     incoming (kernel w') = text "tail" ∧ conn_state (conn w') = kDisconnecting)).
Proof.
  apply (bad_header_rejected 100 foreign_world foreign (text "tail")).
  - concrete.
  - apply new_connection_ok; [done..|]. apply alloc_total_ok, receiver_at_rest.
  - apply receiver_at_rest.
  - done.
  - done.
  - left. by vm_compute.
Defined.

(** ** A frame without addresses *)

(** A body of no bytes has been received, and neither address has a separator. *)
Record wedged (c : Connection) : Prop := {
  wedged_state : recv_state c = kBody;
  wedged_type : recv_message_type c = kTcpMsg;
  wedged_len : total_recv_len c = 0;
  wedged_from : find at_sign (recv_from c) = npos;
  wedged_to : find at_sign (recv_to c) = npos;
  wedged_conn : conn_state c ≠ kDisconnecting;
}.

(** Nothing changes any more. *)
Lemma wedged_stays {K} `{Kernel K} `{NetEnv} (w : World K) calls fuel :
  wedged (conn w) → serve calls fuel w = Ret () w.
Proof.
  intros [Hs Ht Hl Hf Hto Hc].
  assert (ReadCallBack fuel w = Ret () w) as Hread.
  { unfold ReadCallBack, max_recv_count. cbn [ReadCallBack_loop].
    unfold TCPComm_ReceiveMessage, CheckMessageType, Connection_ReceiveMessage, ParseMessage,
      ParseBody, ReceiveMessage, SetUrlForRecvMessage, get_conn, mbind, M_bind, gets.
    simpl. rewrite Ht. simpl. rewrite Ht, Hs. simpl. rewrite Hl. simpl. rewrite Hf, Hto. simpl.
    by rewrite bool_decide_eq_false_2. }
  induction calls as [|calls IH]; [done|]. cbn [serve].
  unfold get_conn, mbind, M_bind, gets. rewrite bool_decide_eq_false_2 by done.
  by rewrite Hread.
Qed.

(** A header that announces nothing. *)
Definition empty_frame : bytes := header_image new_header.

Section empty.
Context {K : Type} `{Kernel K} `{!KernelLaws K} `{!KernelPatience K} `{NetEnv}.
Implicit Types (w : World K).

(** An empty frame is being received. *)
Record empty_begun (rest : bytes) w : Prop := {
  begun_state : recv_state (conn w) = kMsgHeader;
  begun_len : 0 <= recv_len (conn w) < header_size;
  begun_header : size (recv_msg_header (conn w)) = header_size;
  begun_alloc : alloc_total (conn w);
  begun_stream : take (Z.to_nat (recv_len (conn w))) (recv_msg_header (conn w)) ++
    incoming (kernel w) = empty_frame ++ rest;
}.

Lemma begun_unread rest w : empty_begun rest w →
  ∃ b unread, incoming (kernel w) = (b :: unread) ++ rest.
Proof.
  intros [_ Hl Hh _ Hs]. set (l := Z.to_nat (recv_len (conn w))) in *.
  assert (length (take l (recv_msg_header (conn w))) = l) as Hlen
    by (rewrite length_take; unfold size, header_size in *; lia).
  assert (incoming (kernel w) = drop l empty_frame ++ rest) as ->.
  { apply (f_equal (drop l)) in Hs. rewrite drop_app_length' in Hs by done.
    rewrite Hs, drop_app_le; [done|]. change (length empty_frame) with 20%nat.
    unfold header_size in *. lia. }
  destruct (drop l empty_frame) as [|b u] eqn:Hd; [|by exists b, u].
  apply (f_equal length) in Hd. rewrite length_drop in Hd.
  change (length empty_frame) with 20%nat in Hd. simpl in Hd. unfold header_size in *. lia.
Qed.

Lemma announced_empty : announced empty_frame = new_header.
Proof. reflexivity. Qed.

(** The frame is complete: its payload is that of a message with empty addresses. *)
Lemma empty_payload c k bs ok c' :
  laid_out new_header c → alloc_total c → recv_state c = kBody →
  body_outcome [] c k bs ok c' →
  ok = false ∧ bs = [] ∧ recv_state c' = kBody ∧ total_recv_len c' = 0 ∧
  conn_state c' = conn_state c ∧ find at_sign (recv_from c') = npos ∧
  find at_sign (recv_to c') = npos.
Proof.
  intros [Hb Ht (m & Hm & Hn & Hr) Hto Hfrom] Hal Hst Hout.
  assert (capacity (cur_iovecs c) = 0) as Hcap.
  { rewrite (cur_capacity c m), Hn, Hto, Hfrom, Hr; [done| |done].
    destruct (allocate_cb_ c) as [f|] eqn:Hf; [|done].
    unfold alloc_total in Hal. rewrite Hf in Hal. by destruct (Hal 0 ltac:(done)) as (mem & Hmem & _); exists mem. }
  rewrite Hcap in Ht.
  inversion Hout as [c1 r Hlt|c1 m' from to _ Hsh _ _ _ _ _ _ _ Hsep|c1 Hs _ _ Hrs Hcs Htot Hf1 Hf2];
    subst; rewrite ?Hcap, ?size_nil in *.
  - pose proof (size_nonneg bs). lia.
  - exfalso. destruct Hsh as [_ Et Ef].
    assert (recv_to c1 = []) as E1 by (apply size_nil_inv; simpl in *; lia).
    assert (recv_from c1 = []) as E2 by (apply size_nil_inv; simpl in *; lia).
    rewrite E1, E2 in Hsep. by destruct Hsep.
  - split_and!; try done; [apply size_nil_inv; lia|congruence|congruence].
Qed.

Lemma ParseMessage_empty fuel bound rest w :
  served fuel bound w → conn_state (conn w) ≠ kDisconnecting → empty_begun rest w →
  wp (ParseMessage fuel) w (λ ok w', ok = false ∧ served fuel bound w' ∧ trace w' = trace w ∧
    (empty_begun rest w' ∧ ¬ willing (K := K) ∨
     wedged (conn w') ∧ incoming (kernel w') = rest)).
Proof.
  intros Hserved Hcs [Hst Hlen Hh Ha Hstream]. pose proof Hserved as [_ Hty _ Hr _].
  unfold ParseMessage. net_steps. rewrite Hst.
  eapply wp_mono; [apply ParseHeader_spec; try done; by apply alloc_total_ok|].
  intros ok w' (bs & Hio & Hpf & Hsz & Hout).
  pose proof (served_parse _ _ _ _ _ (λ _, Hcs) Hserved Hpf Hio) as Hserved'.
  pose proof (parse_trace _ _ Hpf) as Htr.
  pose proof (send_side_allocate _ _ (parse_send _ _ Hpf)) as Eal.
  rewrite (io_in _ _ _ _ Hio), app_assoc in Hstream. set (l := recv_len (conn w)) in *.
  assert (∀ bs1, size bs1 = header_size - l → ∀ more,
    (take (Z.to_nat l) (recv_msg_header (conn w)) ++ bs1) ++ more = empty_frame ++ rest →
    take (Z.to_nat l) (recv_msg_header (conn w)) ++ bs1 = empty_frame ∧ more = rest) as Himage.
  { intros bs1 Hs1 more Heq. apply app_inj_1 in Heq; [done|].
    change (length empty_frame) with 20%nat. rewrite length_app, length_take.
    unfold size, header_size in *. lia. }
  inversion Hout as [c' e Hlt Htake Hl Hs Hstall _ E1 E2|c' bs1 Hb Hs1 image Hbad _ _ _ E1 E2|
    c' Hdead _ _ _ E1 E2|c1 c' bs1 bs2 ok' Hb Hs1 image _ _ Hlaid Hs Hnd Hcs' Hal Hbody Hl E1 E2]; subst.
  - split_and!; try done. left. pose proof (size_nonneg bs).
    assert (empty_begun rest w') as Hbegun.
    { split; [done|lia|done| |by rewrite Hl, Htake]. unfold alloc_total. by rewrite Eal. }
    split; [done|]. intros Hw. apply (stalled_willing _ _ Hw) in Hstall.
    apply begun_unread in Hbegun as (b & u & Hu). by rewrite Hstall in Hu.
  - exfalso. destruct (Himage bs1 Hs1 _ Hstream) as [E _]. unfold image in Hbad. fold l in Hbad.
    rewrite E in Hbad. destruct Hbad as [Hbad|Hbad]; [by apply Hbad|].
    apply Hbad. rewrite announced_empty. by vm_compute.
  - done.
  - rewrite (app_assoc _ bs1), <- app_assoc in Hstream.
    destruct (Himage bs1 Hs1 _ Hstream) as [E Hrest]. unfold image in *. fold l in Hlaid.
    rewrite E, announced_empty in Hlaid.
    destruct (empty_payload c1 (kernel w') bs2 ok (conn w')) as (-> & -> & Hst' & Htot & Hc & Hf1 & Hf2);
      try done; [unfold alloc_total; by rewrite Hal|].
    split_and!; try done. right. split; [|done].
    split; try done; [by apply Hserved'|congruence].
Qed.

Lemma serve_empty fuel bound calls rest w :
  served fuel bound w → empty_begun rest w →
  wp (serve calls fuel) w (λ _ w', handled (trace w') = handled (trace w) ∧
    (empty_begun rest w' ∧ (conn_state (conn w) ≠ kDisconnecting → (0 < calls)%nat →
       ¬ willing (K := K)) ∨
     wedged (conn w') ∧ incoming (kernel w') = rest)).
Proof.
  revert w. induction calls as [|calls IH]; intros w Hserved Hbegun; cbn [serve].
  { apply wp_ret. split; [done|]. left. split; [done|lia]. }
  net_steps. case_bool_decide as Hc.
  { apply wp_ret. split; [done|]. by left. }
  net_steps. unfold ReadCallBack, max_recv_count. cbn [ReadCallBack_loop]. apply wp_bind.
  unfold TCPComm_ReceiveMessage, CheckMessageType. net_steps.
  rewrite (served_type _ _ _ Hserved). simpl. net_steps. rewrite (served_type _ _ _ Hserved).
  unfold Connection_ReceiveMessage. apply wp_bind.
  eapply wp_mono; [by apply (ParseMessage_empty fuel bound rest)|].
  intros ok w1 (-> & Hs1 & Htr & Hcase). simpl. net_steps.
  assert ((0 <? (if bool_decide (conn_state (conn w1) = kDisconnecting) then -1 else 0)) = false) as ->
    by (by case_bool_decide). net_steps. rewrite <- Htr.
  destruct Hcase as [[Hb Hst]|[Hw Hrest]].
  - eapply wp_mono; [by apply IH|]. intros _ w2 (Hh & [[Hb2 Hst2]|Hw2]); (split; [done|]); [|by right].
    by left.
  - unfold wp. rewrite wedged_stays by done. split; [done|]. by right.
Qed.

(** C32: An empty frame wedges the connection. When the stream of a connection at
    rest goes on with a header that announces nothing at all, then after any number
    of callbacks no message has been handed out and nothing of what follows the
    header has been read; once the header is read, which one callback does on a
    kernel that hands out what it has, no further callback changes anything. The
    kernel answers [EAGAIN] finitely often, and the rounds are enough for that
    ([served]). *)
Theorem empty_frame_wedges fuel bound calls rest w :
  served fuel bound w → at_rest (conn w) → incoming (kernel w) = header_image new_header ++ rest →
  wp (serve calls fuel) w (λ _ w', handled (trace w') = handled (trace w) ∧
    (∃ unread, incoming (kernel w') = unread ++ rest ∧
       (unread = [] → ∀ calls' fuel', serve calls' fuel' w' = Ret () w') ∧
       (willing (K := K) → (0 < calls)%nat → unread = []))).
Proof.
  intros Hserved [Hst Hl Hh Ha Hc] Hin.
  eapply wp_mono.
  { apply (serve_empty fuel bound calls rest w Hserved). split; rewrite ?Hl; done. }
  intros _ w' (Hhan & Hcase). split; [done|]. destruct Hcase as [[Hb Hstall]|[Hw Hrest]].
  - apply begun_unread in Hb as (b & u & Hu). exists (b :: u). split_and!; [done|done|].
    intros Hw ?. by destruct (Hstall Hc ltac:(done)).
  - exists []. split_and!; [done| |done]. intros _ calls' fuel'. by apply wedged_stays.
Qed.
End empty.

(** Two messages after an empty frame: neither arrives. *)
Definition empty_then_letters : World Stream :=
  MkWorld receiver (MkStream (header_image new_header ++ frames letters) [] []) [].

Lemma empty_frame_wedges_witness :
  wp (serve 2 200) empty_then_letters (λ _ w', handled (trace w') = [] ∧
    (∃ unread, incoming (kernel w') = unread ++ frames letters ∧
       (unread = [] → ∀ calls' fuel', serve calls' fuel' w' = Ret () w') ∧
       (willing (K := Stream) → (0 < 2)%nat → unread = []))) ∧
  wp (serve 2 200) empty_then_letters (λ _ w', incoming (kernel w') = frames letters ∧
    conn_state (conn w') = kConnected).
Proof.
  split; [|by vm_compute].
  apply (empty_frame_wedges 200 100 2 (frames letters) empty_then_letters).
  - apply receiver_served; [|split]; concrete.
  - apply receiver_at_rest.
  - done.
Defined.
