(* ===== verification/EventLoop.v ===== *)
(** * Event loops

    [EventLoop] of net/src/event_loop.cc: the table of [Event]s registered with
    epoll, their deletion, which is put off to the next round, the queue of tasks
    behind an eventfd, and the loop itself. *)

From S2P Require Import Prelude.

Definition RPC_OK : Z := 0.
Definition RPC_ERROR : Z := -1.
Definition EPOLL_EVENTS_SIZE : Z := 64.
Definition EINTR : Z := 4.

(** [EPOLLIN | EPOLLHUP | EPOLLERR]. *)
Definition EPOLL_QUEUE : Z := 25.

(** The queue's own callback, or a function of a client. *)
Inductive EventHandler := QueueReady | Client (h : positive).
#[export] Instance EventHandler_eq_dec : EqDecision EventHandler.
Proof. solve_decision. Defined.

Record Event := MkEvent { ev_fd : Z; ev_data : positive; ev_handler : EventHandler }.
Definition Task : Type := positive.

(** ** The kernel

    epoll and eventfd. [epoll_add], [epoll_mod] and [epoll_del] are [epoll_ctl] with
    the three operations; a pointer to an [Event] is the user data of an entry.
    [epoll_wait] returns the entries that are ready, or [None] for an error.
    [eventfd_read] and [eventfd_write] tell whether all 8 bytes were transferred. *)
Class LoopKernel (K : Type) := {
  epoll_create : K → Z * K;
  eventfd_create : K → Z * K;
  epoll_add : Z → Z → positive → K → Z * K;
  epoll_mod : Z → Z → positive → K → Z * K;
  epoll_del : Z → K → Z * K;
  epoll_wait : Z → K → option (list (Z * option positive)) * K;
  eventfd_read : K → bool * K;
  eventfd_write : K → bool * K;
  loop_errno : K → Z;
}.

(** What epoll(7) and eventfd(2) promise: an fd has at most one entry, an error of
    [epoll_ctl] changes nothing, a deleted entry is gone whether or not there was
    one, [epoll_wait] reports entries of the list of interest, a read of an eventfd
    takes the whole counter, and a write fails only when the counter is full. *)
Class LoopKernelLaws (K : Type) `{LoopKernel K} := {
  interest : K → gmap Z (Z * positive);
  wakeups : K → Z;
  add_law fd ev p k r k' : epoll_add fd ev p k = (r, k') → wakeups k' = wakeups k ∧
    (r = 0 ∧ interest k !! fd = None ∧ interest k' = <[fd := (ev, p)]> (interest k) ∨
     r = -1 ∧ interest k' = interest k);
  mod_law fd ev p k r k' : epoll_mod fd ev p k = (r, k') → wakeups k' = wakeups k ∧
    (r = 0 ∧ is_Some (interest k !! fd) ∧ interest k' = <[fd := (ev, p)]> (interest k) ∨
     r = -1 ∧ interest k' = interest k);
  del_law fd k r k' : epoll_del fd k = (r, k') → wakeups k' = wakeups k ∧
    (r = 0 ∨ r = -1) ∧ interest k' = delete fd (interest k);
  wait_law n k evs k' : epoll_wait n k = (evs, k') →
    wakeups k' = wakeups k ∧ interest k' = interest k ∧
    match evs with
    | Some evs => Forall (λ e, ∃ fd m p, e.2 = Some p ∧ interest k !! fd = Some (m, p)) evs
    | None => True
    end;
  read_law k b k' : eventfd_read k = (b, k') → interest k' = interest k ∧
    (b = true ∧ 0 < wakeups k ∧ wakeups k' = 0 ∨ b = false ∧ wakeups k = 0 ∧ wakeups k' = 0);
  write_law k b k' : eventfd_write k = (b, k') → interest k' = interest k ∧ 0 < wakeups k';
  create_law k r k' : epoll_create k = (r, k') → wakeups k' = wakeups k ∧ interest k' = interest k;
  eventfd_law k r k' : eventfd_create k = (r, k') → wakeups k' = wakeups k ∧ interest k' = interest k;
}.

(** ** State *)

(** What a loop does to its clients, in order. *)
Inductive loop_effect :=
| Called (h : positive) (fd events : Z) (data : positive)
| Ran (t : Task).

(** What a client asks of a loop. *)
Inductive Request :=
| RSet (fd events : Z) (handler : EventHandler) (data : positive)
| RUpdate (fd events : Z)
| RDelete (fd : Z)
| RTask (t : Task).

Record Loop (K : Type) := MkLoop {
  epoll_fd_ : Z;
  is_stop_ : bool;
  task_queue_event_fd_ : Z;
  task_queue_ : list Task;
  events_ : gmap Z positive;
  deleted_events_ : gmap Z (list positive);
  objects : gmap positive Event;      (** the [Event]s that [new] has made and [delete] not taken *)
  next_object : positive;
  os : K;
  history : list loop_effect;
}.
Arguments MkLoop {K}. Arguments epoll_fd_ {K}. Arguments is_stop_ {K}.
Arguments task_queue_event_fd_ {K}. Arguments task_queue_ {K}. Arguments events_ {K}.
Arguments deleted_events_ {K}. Arguments objects {K}. Arguments next_object {K}.
Arguments os {K}. Arguments history {K}.

(** [EventLoop()]. *)
Definition new_loop {K} (k : K) : Loop K := MkLoop (-1) false (-1) [] ∅ ∅ ∅ 1 k [].

Section set.
Context {K : Type}.
Implicit Types (s : Loop K).
Definition set_fds ep ev s : Loop K :=
  MkLoop ep (is_stop_ s) ev (task_queue_ s) (events_ s) (deleted_events_ s) (objects s)
    (next_object s) (os s) (history s).
Definition set_stop v s : Loop K :=
  MkLoop (epoll_fd_ s) v (task_queue_event_fd_ s) (task_queue_ s) (events_ s)
    (deleted_events_ s) (objects s) (next_object s) (os s) (history s).
Definition set_queue v s : Loop K :=
  MkLoop (epoll_fd_ s) (is_stop_ s) (task_queue_event_fd_ s) v (events_ s)
    (deleted_events_ s) (objects s) (next_object s) (os s) (history s).
Definition set_events v s : Loop K :=
  MkLoop (epoll_fd_ s) (is_stop_ s) (task_queue_event_fd_ s) (task_queue_ s) v
    (deleted_events_ s) (objects s) (next_object s) (os s) (history s).
Definition set_deleted v s : Loop K :=
  MkLoop (epoll_fd_ s) (is_stop_ s) (task_queue_event_fd_ s) (task_queue_ s) (events_ s)
    v (objects s) (next_object s) (os s) (history s).
Definition set_objects v n s : Loop K :=
  MkLoop (epoll_fd_ s) (is_stop_ s) (task_queue_event_fd_ s) (task_queue_ s) (events_ s)
    (deleted_events_ s) v n (os s) (history s).
Definition set_os v s : Loop K :=
  MkLoop (epoll_fd_ s) (is_stop_ s) (task_queue_event_fd_ s) (task_queue_ s) (events_ s)
    (deleted_events_ s) (objects s) (next_object s) v (history s).
Definition set_history v s : Loop K :=
  MkLoop (epoll_fd_ s) (is_stop_ s) (task_queue_event_fd_ s) (task_queue_ s) (events_ s)
    (deleted_events_ s) (objects s) (next_object s) (os s) v.

(** A system call. *)
Definition syscall {A} (f : K → A * K) : M (Loop K) A := λ s,
  let '(a, k) := f (os s) in Ret a (set_os k s).

(** [*p], [new Event] and [delete p]. *)
Definition load_event (p : positive) : M (Loop K) Event := e ← gets objects; deref (e !! p).
Definition new_event (e : Event) : M (Loop K) positive := λ s,
  Ret (next_object s)
    (set_objects (<[next_object s := e]> (objects s)) (Pos.succ (next_object s)) s).
Definition delete_event (p : positive) : M (Loop K) unit :=
  load_event p;; modify (λ s, set_objects (delete p (objects s)) (next_object s) s).
Definition log (e : loop_effect) : M (Loop K) unit :=
  modify (λ s, set_history (history s ++ [e]) s).
End set.

(** The functions of the clients: what a handler or a task asks of the loop when it
    is called, depending on what has happened and on the fds that have an event. *)
Class Clients := {
  handle : list loop_effect → gset Z → positive → Z → Z → positive → list Request;
  run_task : list loop_effect → gset Z → Task → list Request;
}.

Section loop.
Context {K : Type} `{LoopKernel K}.
Abbreviation L := (M (Loop K)).

(** ** The table of events *)

Definition FindEvent (fd : Z) : L (option positive) := gets (λ s, events_ s !! fd).

Definition DeleteEvent (fd : Z) : L unit :=
  iter ← gets (λ s, events_ s !! fd);
  match iter with
  | None => mret ()
  | Some eventData =>
      delete_event eventData;;
      modify (λ s, set_events (delete fd (events_ s)) s)
  end.

Definition AddEvent (event : positive) : L unit :=
  e ← load_event event;
  DeleteEvent (ev_fd e);;
  modify (λ s, set_events
    (match events_ s !! ev_fd e with
     | Some _ => events_ s                      (* [emplace] keeps what is there *)
     | None => <[ev_fd e := event]> (events_ s)
     end) s).

Definition AddDeletedEvent (event : positive) : L unit :=
  e ← load_event event;
  fdIter ← gets (λ s, deleted_events_ s !! ev_fd e);
  match fdIter with
  | None => modify (λ s, set_deleted (<[ev_fd e := [event]]> (deleted_events_ s)) s)
  | Some delete_event_list =>
      if bool_decide (event ∈@{list positive} delete_event_list) then mret ()
      else modify (λ s, set_deleted
             (<[ev_fd e := delete_event_list ++ [event]]> (deleted_events_ s)) s)
  end.

Definition RemoveDeletedEvents : L unit :=
  deleted ← gets deleted_events_;
  forM (map_to_list deleted) (λ _ '(fd, delete_event_list),
    forM delete_event_list (λ _ deleteEv, delete_event deleteEv) ();;
    modify (λ s, set_deleted (delete fd (deleted_events_ s)) s)) ();;
  modify (λ s, set_deleted ∅ s).

Definition FindDeletedEvent (tev : positive) : L Z :=
  e ← load_event tev;
  fdIter ← gets (λ s, deleted_events_ s !! ev_fd e);
  mret (match fdIter with
        | None => 0
        | Some delete_event_list => if bool_decide (tev ∈@{list positive} delete_event_list) then 1 else 0
        end).

Definition SetEventHandler (fd events : Z) (handler : EventHandler) (data : positive) : L Z :=
  evdata ← new_event (MkEvent fd data handler);
  AddEvent evdata;;
  ret ← syscall (epoll_add fd events evdata);
  if 0 <? ret then DeleteEvent fd;; mret RPC_ERROR
  else mret RPC_OK.

(** The part of [DeleteEpollEvent] under the lock: the event, if there is one. *)
Definition DeleteEpollEvent_unlink (fd : Z) : L (option positive) :=
  tev ← FindEvent fd;
  match tev with
  | None => mret None
  | Some tev =>
      e ← load_event tev;
      modify (λ s, set_events (delete (ev_fd e) (events_ s)) s);;
      AddDeletedEvent tev;;
      mret (Some tev)
  end.

Definition DeleteEpollEvent (fd : Z) : L Z :=
  tev ← DeleteEpollEvent_unlink fd;
  match tev with
  | None => mret RPC_ERROR
  | Some _ =>
      ret ← syscall (epoll_del fd);
      if ret <? 0 then mret RPC_ERROR else mret RPC_OK
  end.

Definition UpdateEpollEvent (fd events : Z) : L Z :=
  tev ← FindEvent fd;
  match tev with
  | None => mret RPC_ERROR
  | Some tev =>
      ret ← syscall (epoll_mod fd events tev);
      if negb (ret =? 0) then mret RPC_ERROR else mret RPC_OK
  end.

(** ** The queue of tasks *)

(** The part of [AddTask] under the lock: the size of the queue. *)
Definition AddTask_push (task : Task) : L Z :=
  modify (λ s, set_queue (task_queue_ s ++ [task]) s);;
  gets (λ s, Z.of_nat (length (task_queue_ s))).

(** [write(task_queue_event_fd_, &one, sizeof(one))]; a failure is only logged. *)
Definition wake_up : L unit := syscall eventfd_write;; mret ().

Definition AddTask (task : Task) : L Z :=
  result ← AddTask_push task;
  (if result =? 1 then wake_up else mret ());;
  mret result.

Definition RemainingTaskNum : L Z := gets (λ s, Z.of_nat (length (task_queue_ s))).

(** [task_queue_.swap(q)] with an empty [q]. *)
Definition take_tasks : L (list Task) :=
  q ← gets task_queue_; modify (set_queue []);; mret q.

Definition perform (r : Request) : L Z :=
  match r with
  | RSet fd events handler data => SetEventHandler fd events handler data
  | RUpdate fd events => UpdateEpollEvent fd events
  | RDelete fd => DeleteEpollEvent fd
  | RTask t => AddTask t
  end.

Definition perform_all (rs : list Request) : L unit :=
  forM rs (λ _ r, perform r;; mret ()) ().

Definition registered (s : Loop K) : gset Z := dom (events_ s).

Context `{Clients}.

(** [q.front()()]. *)
Definition call_task (t : Task) : L unit :=
  rs ← gets (λ s, run_task (history s) (registered s) t);
  log (Ran t);;
  perform_all rs.

Definition QueueReadyCallback : L unit :=
  ok ← syscall eventfd_read;
  if ok : bool then
    q ← take_tasks;
    forM q (λ _ t, call_task t) ()
  else mret ().

(** [tev->handler(tev->fd, events, tev->data)]. *)
Definition call_handler (e : Event) (events : Z) : L unit :=
  match ev_handler e with
  | QueueReady => QueueReadyCallback
  | Client h =>
      rs ← gets (λ s, handle (history s) (registered s) h (ev_fd e) events (ev_data e));
      log (Called h (ev_fd e) events (ev_data e));;
      perform_all rs
  end.

(** ** The loop *)

Definition HandleEvent (events : list (Z * option positive)) : L unit :=
  forM events (λ _ '(mask, ptr),
    match ptr with
    | None => mret ()
    | Some tev =>
        found ← FindDeletedEvent tev;
        if 0 <? found then mret ()
        else e ← load_event tev; call_handler e mask
    end) ().

(** One turn of the loop of [EventLoopRun] while it is not stopped: [Some] is a
    return out of the loop. *)
Definition EventLoop_round : L (option Z) :=
  RemoveDeletedEvents;;
  nevent ← syscall (epoll_wait EPOLL_EVENTS_SIZE);
  match nevent with
  | None =>
      e ← gets (λ s, loop_errno (os s));
      mret (if negb (e =? EINTR) then Some RPC_ERROR else None)
  | Some events =>
      match events with
      | [] => modify (set_stop true)
      | _ => HandleEvent events
      end;;
      stop ← gets is_stop_;
      (if stop : bool then RemoveDeletedEvents else mret ());;
      mret None
  end.

(** [EventLoopRun], for at most [rounds] turns: [None] when it is still running. *)
Fixpoint EventLoopRun (rounds : nat) : L (option Z) :=
  stop ← gets is_stop_;
  if stop : bool then modify (set_stop false);; mret (Some RPC_OK)
  else
    match rounds with
    | O => mret None
    | S rounds =>
        r ← EventLoop_round;
        match r with Some r => mret (Some r) | None => EventLoopRun rounds end
    end.

Definition Stop : L unit :=
  stop ← gets is_stop_;
  if stop : bool then mret ()
  else modify (set_stop true);; wake_up.

Definition ReleaseResource : L unit := modify (set_fds (-1) (-1)).

Definition InitResource : L Z :=
  modify (set_stop false);;
  ep ← syscall epoll_create;
  modify (λ s, set_fds ep (task_queue_event_fd_ s) s);;
  if ep =? -1 then ReleaseResource;; mret RPC_ERROR
  else
    ev ← syscall eventfd_create;
    modify (set_fds ep ev);;
    if ev =? -1 then ReleaseResource;; mret RPC_ERROR
    else
      retval ← SetEventHandler ev EPOLL_QUEUE QueueReady 1%positive;
      if negb (retval =? RPC_OK) then ReleaseResource;; mret RPC_ERROR
      else mret RPC_OK.

(** [Finalize], after the thread of the loop has been joined. *)
Definition Finalize_loop : L unit := RemoveDeletedEvents;; ReleaseResource.
End loop.
