(* ===== verification/LoopInvariant.v ===== *)
(** * The invariant of an event loop

    Every [Event] object is owned by the table of events or waits to be deleted,
    and what epoll knows is in the table. The operations of [EventLoop] keep this,
    provided that no fd is registered twice. *)

From S2P Require Import Prelude EventLoop.

Section invariant.
Context {K : Type} `{LoopKernel K} `{!LoopKernelLaws K}.
Implicit Types (s : Loop K) (p : positive) (fd : Z).

(** [p] waits to be deleted. *)
Definition condemned s p : Prop :=
  ∃ fd l, deleted_events_ s !! fd = Some l ∧ p ∈ l.

Record table_inv s : Prop := {
  inv_event fd p : events_ s !! fd = Some p → ∃ e, objects s !! p = Some e ∧ ev_fd e = fd;
  inv_deleted fd l p : deleted_events_ s !! fd = Some l → p ∈ l →
    ∃ e, objects s !! p = Some e ∧ ev_fd e = fd;
  inv_nodup fd l : deleted_events_ s !! fd = Some l → NoDup l;
  inv_apart fd p : events_ s !! fd = Some p → ¬ condemned s p;
  inv_fresh p : is_Some (objects s !! p) → (p < next_object s)%positive;
  inv_owned p e : objects s !! p = Some e → events_ s !! ev_fd e = Some p ∨ condemned s p;
}.

Record loop_inv s : Prop := {
  inv_table :> table_inv s;
  inv_interest fd m p : interest (os s) !! fd = Some (m, p) → events_ s !! fd = Some p;
}.

(** What happens to the objects of a loop until the next round: none is deleted,
    and what is condemned stays so. *)
Record keeps_objects s s' : Prop := {
  kept_objects : objects s ⊆ objects s';
  kept_condemned p : condemned s p → condemned s' p;
}.

Lemma keeps_objects_refl s : keeps_objects s s.
Proof. by split. Qed.

Lemma keeps_objects_trans s1 s2 s3 :
  keeps_objects s1 s2 → keeps_objects s2 s3 → keeps_objects s1 s3.
Proof. intros [? ?] [? ?]. split; [by etrans|auto]. Qed.

(** Changes that do not concern the events. *)
Lemma table_inv_ext s s' : table_inv s → events_ s' = events_ s →
  deleted_events_ s' = deleted_events_ s → objects s' = objects s →
  next_object s' = next_object s → table_inv s'.
Proof.
  intros [I1 I2 I3 I4 I6 I7] He Hd Ho Hn. unfold condemned in *.
  split; unfold condemned; rewrite ?He, ?Hd, ?Ho, ?Hn; eauto.
Qed.

Lemma loop_inv_ext s s' : loop_inv s → events_ s' = events_ s →
  deleted_events_ s' = deleted_events_ s → objects s' = objects s →
  next_object s' = next_object s → interest (os s') = interest (os s) → loop_inv s'.
Proof.
  intros [Ht I5] He Hd Ho Hn Hi. split; [by eapply table_inv_ext|]. by rewrite He, Hi.
Qed.

Lemma keeps_objects_ext s s' : deleted_events_ s' = deleted_events_ s →
  objects s' = objects s → keeps_objects s s'.
Proof. intros Hd Ho. split; [by rewrite Ho|]. unfold condemned. by rewrite Hd. Qed.

Lemma wp_syscall {A} (f : K → A * K) s (Q : A → Loop K → Prop) :
  (∀ a k, f (os s) = (a, k) → Q a (set_os k s)) → wp (syscall f) s Q.
Proof. unfold wp, syscall. destruct (f (os s)) as [a k]. auto. Qed.

Lemma wp_load_event p e s (Q : Event → Loop K → Prop) :
  objects s !! p = Some e → Q e s → wp (load_event p) s Q.
Proof. intros Hp HQ. unfold load_event. wp_steps. by apply (wp_deref _ e). Qed.

Lemma wp_delete_event p s (Q : unit → Loop K → Prop) :
  is_Some (objects s !! p) →
  Q () (set_objects (delete p (objects s)) (next_object s) s) → wp (delete_event p) s Q.
Proof.
  intros [e He] HQ. unfold delete_event. wp_steps. apply (wp_load_event p e); [done|].
  by wp_steps.
Qed.

Lemma wp_new_event e s (Q : positive → Loop K → Prop) :
  Q (next_object s) (set_objects (<[next_object s := e]> (objects s))
    (Pos.succ (next_object s)) s) → wp (new_event e) s Q.
Proof. done. Qed.

(** ** Registration *)

Lemma SetEventHandler_spec fd events handler data s :
  loop_inv s → events_ s !! fd = None →
  wp (SetEventHandler fd events handler data) s (λ r s',
    r = RPC_OK ∧ loop_inv s' ∧ keeps_objects s s' ∧
    registered s' = {[fd]} ∪ registered s ∧ events_ s' !! fd = Some (next_object s)).
Proof.
  intros [[I1 I2 I3 I4 I6 I7] I5] Hfd. unfold SetEventHandler.
  set (n := next_object s) in *. set (e := MkEvent fd data handler).
  assert (objects s !! n = None) as Hn.
  { destruct (objects s !! n) eqn:Hx; [|done]. pose proof (I6 n (mk_is_Some _ _ Hx)). lia. }
  assert (∀ p e', objects s !! p = Some e' → p ≠ n) as Hne by (intros p e' ? ->; congruence).
  apply wp_bind, wp_new_event. fold n. unfold AddEvent, DeleteEvent. wp_steps.
  apply (wp_load_event n e); [by simpl; rewrite lookup_insert_eq|]. wp_steps.
  simpl. rewrite Hfd. wp_steps. simpl. rewrite Hfd.
  apply wp_syscall. intros r k Hk. simpl in Hk. destruct (add_law _ _ _ _ _ _ Hk) as [_ Hcase].
  assert ((0 <? r) = false) as -> by (destruct Hcase as [[-> _]|[-> _]]; done). wp_steps.
  split; [done|].
  assert (∀ p, condemned s p → p ≠ n) as Hcn.
  { intros p (fd' & l & Hl & Hp). destruct (I2 _ _ _ Hl Hp) as (e' & ? & _). eauto. }
  split; [split; [split|]; simpl|split; [split; simpl|split]].
  - intros fd' p. rewrite lookup_insert_Some. intros [[<- <-]|[? Hp]].
    + exists e. by rewrite lookup_insert_eq.
    + destruct (I1 _ _ Hp) as (e' & He' & ?). exists e'.
      rewrite lookup_insert_ne by (intros <-; congruence). done.
  - intros fd' l p Hl Hp. destruct (I2 _ _ _ Hl Hp) as (e' & He' & ?). exists e'.
    rewrite lookup_insert_ne by (intros <-; congruence). done.
  - apply I3.
  - intros fd' p. rewrite lookup_insert_Some. intros [[<- <-]|[? Hp]] Hc.
    + by apply (Hcn n).
    + by apply (I4 fd' p).
  - intros p Hp. destruct (decide (p = n)) as [->|Hpn]; [lia|].
    rewrite lookup_insert_ne in Hp by done. apply I6 in Hp. lia.
  - intros p e'. rewrite lookup_insert_Some. intros [[<- <-]|[? Hp]].
    + left. apply lookup_insert_eq.
    + destruct (I7 _ _ Hp) as [Hx|Hx]; [left|by right].
      rewrite lookup_insert_ne; [done|]. intros Heq. rewrite <- Heq in Hx. congruence.
  - intros fd' m p Hp. destruct Hcase as [(_ & _ & ->)|[_ ->]] in Hp.
    + rewrite lookup_insert_Some in Hp. destruct Hp as [[<- [= _ <-]]|[? Hp]].
      * by rewrite lookup_insert_eq.
      * rewrite lookup_insert_ne by done. eauto.
    + apply I5 in Hp. rewrite lookup_insert_ne; [done|congruence].
  - by apply insert_subseteq.
  - done.
  - unfold registered. simpl. apply dom_insert_L.
  - simpl. apply lookup_insert_eq.
Qed.

Lemma condemned_push s fd l p q : deleted_events_ s !! fd = l →
  condemned (set_deleted (<[fd := default [] l ++ [p]]> (deleted_events_ s)) s) q ↔
  condemned s q ∨ q = p.
Proof.
  intros Hl. unfold condemned. simpl. split.
  - intros (fd' & l' & Hl' & Hq). rewrite lookup_insert_Some in Hl'.
    destruct Hl' as [[<- <-]|[? Hl']]; [|by left; exists fd', l'].
    apply elem_of_app in Hq as [Hq|Hq%list_elem_of_singleton]; [|by right].
    destruct l as [l|]; [|by apply elem_of_nil in Hq]. left. by exists fd, l.
  - intros [(fd' & l' & Hl' & Hq)| ->].
    + destruct (decide (fd' = fd)) as [->|].
      * exists fd. eexists. rewrite lookup_insert_eq. split; [done|]. rewrite Hl' in Hl. subst l.
        simpl. apply elem_of_app. by left.
      * exists fd', l'. by rewrite lookup_insert_ne.
    + exists fd. eexists. rewrite lookup_insert_eq. split; [done|].
      apply elem_of_app. right. by apply list_elem_of_singleton.
Qed.

(** ** Soft deletion *)

(** An event that is taken out of the table while epoll still knows it. *)
Lemma DeleteEpollEvent_unlink_spec fd s : table_inv s →
  wp (DeleteEpollEvent_unlink fd) s (λ r s', r = events_ s !! fd ∧ table_inv s' ∧
    keeps_objects s s' ∧ os s' = os s ∧ events_ s' = delete fd (events_ s) ∧
    (∀ p, r = Some p → condemned s' p) ∧ (r = None → s' = s)).
Proof.
  intros Hinv. pose proof Hinv as [I1 I2 I3 I4 I6 I7].
  unfold DeleteEpollEvent_unlink, FindEvent. wp_steps.
  destruct (events_ s !! fd) as [p|] eqn:Hp; cycle 1.
  { wp_steps. split; [done|]. split; [done|]. split; [apply keeps_objects_refl|].
    by rewrite delete_id. }
  destruct (I1 _ _ Hp) as (e & He & Hefd). wp_steps. apply (wp_load_event p e); [done|]. wp_steps.
  unfold AddDeletedEvent. wp_steps. apply (wp_load_event p e); [done|]. wp_steps. simpl.
  rewrite Hefd. set (s1 := set_events (delete fd (events_ s)) s).
  assert (∀ l, deleted_events_ s !! fd = l →
    let s' := set_deleted (<[fd := default [] l ++ [p]]> (deleted_events_ s)) s1 in
    table_inv s' ∧ keeps_objects s s' ∧ condemned s' p) as Hrest.
  { intros l Hl s2.
    assert (∀ q, condemned s2 q ↔ condemned s q ∨ q = p) as Hcon
      by (intros q; exact (condemned_push s1 fd l p q Hl)).
    split; [split; simpl|split; [split; simpl|]].
    - intros fd' q. rewrite lookup_delete_Some. intros [_ Hq]. eauto.
    - intros fd' l' q. rewrite lookup_insert_Some. intros [[<- <-]|[? Hl']] Hq; [|eauto].
      apply elem_of_app in Hq as [Hq|Hq%list_elem_of_singleton]; [|subst; eauto].
      destruct l as [l|]; [eauto|by apply elem_of_nil in Hq].
    - intros fd' l'. rewrite lookup_insert_Some. intros [[<- <-]|[? Hl']]; [|eauto].
      apply NoDup_app. split; [destruct l; [eauto|constructor]|]. split; [|apply NoDup_singleton].
      intros q Hq ->%list_elem_of_singleton. destruct l as [l|]; [|by apply elem_of_nil in Hq].
      apply (I4 fd p Hp). by exists fd, l.
    - intros fd' q. rewrite lookup_delete_Some. intros [Hne Hq].
      rewrite Hcon. intros [?| ->]; [by apply (I4 fd' q)|].
      destruct (I1 _ _ Hq) as (e' & He' & ?). congruence.
    - apply I6.
    - intros q e' Hq. rewrite Hcon. destruct (I7 _ _ Hq) as [Hx|Hx]; [|by right; left].
      destruct (decide (ev_fd e' = fd)) as [Heq|Hne].
      + right. right. rewrite Heq in Hx. congruence.
      + left. by rewrite lookup_delete_ne.
    - done.
    - intros q Hq. rewrite Hcon. by left.
    - rewrite Hcon. by right. }
  destruct (deleted_events_ s !! fd) as [l|] eqn:Hl; simpl.
  - rewrite bool_decide_eq_false_2.
    + wp_steps. destruct (Hrest (Some l) eq_refl) as (? & ? & ?). split_and!; try done.
      by intros ? [= <-].
    + intros Hq. apply (I4 fd p Hp). by exists fd, l.
  - wp_steps. destruct (Hrest None eq_refl) as (? & ? & ?). split_and!; try done.
    by intros ? [= <-].
Qed.

Lemma DeleteEpollEvent_spec fd s : loop_inv s →
  wp (DeleteEpollEvent fd) s (λ r s', loop_inv s' ∧ keeps_objects s s' ∧
    registered s' = registered s ∖ {[fd]} ∧
    (∀ p, events_ s !! fd = Some p → condemned s' p) ∧
    (events_ s !! fd = None → r = RPC_ERROR ∧ s' = s)).
Proof.
  intros [Hinv I5]. unfold DeleteEpollEvent. apply wp_bind.
  eapply wp_mono; [by apply DeleteEpollEvent_unlink_spec|].
  intros r s1 (Hr & Hi1 & Hk1 & Hos & Hev & Hc & Hs).
  assert (registered s1 = registered s ∖ {[fd]}) as Hreg.
  { unfold registered. by rewrite Hev, dom_delete_L. }
  destruct r as [p|]; cycle 1.
  { rewrite (Hs eq_refl) in *. wp_steps. split_and!; try done.
    intros p Hp. congruence. }
  apply wp_bind, wp_syscall. intros r k Hk. destruct (del_law _ _ _ _ Hk) as (_ & _ & Hint).
  assert (loop_inv (set_os k s1)) as Hi2.
  { split; [by eapply table_inv_ext|]. simpl. rewrite Hint, Hev, Hos. intros fd' m q.
    rewrite !lookup_delete_Some. intros [? ?]. split; [done|eauto]. }
  assert (keeps_objects s (set_os k s1)) by (by destruct Hk1).
  rewrite <- Hr. case_match; wp_steps; (split_and!; [done..|by intros ? [= <-]; apply Hc|done]).
Qed.

Lemma UpdateEpollEvent_spec fd events s : loop_inv s →
  wp (UpdateEpollEvent fd events) s (λ r s', loop_inv s' ∧ keeps_objects s s' ∧
    registered s' = registered s).
Proof.
  intros Hinv. unfold UpdateEpollEvent, FindEvent. wp_steps.
  destruct (events_ s !! fd) as [p|] eqn:Hp.
  - apply wp_bind, wp_syscall. intros r k Hk.
    assert (loop_inv (set_os k s) ∧ keeps_objects s (set_os k s)) as [? ?].
    { destruct (mod_law _ _ _ _ _ _ Hk) as [_ [(_ & _ & Hi)|[_ Hi]]]; simpl in Hi.
      - split; [|by apply keeps_objects_ext].
        destruct Hinv as [Ht I5]. split; [by eapply table_inv_ext|]. simpl. intros fd' m q. rewrite Hi, lookup_insert_Some.
        intros [[<- [= <- <-]]|[? ?]]; eauto.
      - split; [by eapply loop_inv_ext|by apply keeps_objects_ext]. }
    case_match; wp_steps; done.
  - wp_steps. split_and!; [done|apply keeps_objects_refl|done].
Qed.

(** ** Requests *)

(** The fds that have an event after a request, and whether a list of requests
    registers only fds without one. *)
Definition regs_after (r : Request) (regs : gset Z) : gset Z :=
  match r with
  | RSet fd _ _ _ => {[fd]} ∪ regs
  | RDelete fd => regs ∖ {[fd]}
  | _ => regs
  end.

Fixpoint polite (regs : gset Z) (rs : list Request) : bool :=
  match rs with
  | [] => true
  | r :: rs =>
      match r with RSet fd _ _ _ => bool_decide (fd ∉ regs) | _ => true end &&
      polite (regs_after r regs) rs
  end.

Lemma wake_up_spec s : loop_inv s →
  wp wake_up s (λ _ s', loop_inv s' ∧ keeps_objects s s' ∧ registered s' = registered s).
Proof.
  intros Hinv. unfold wake_up. apply wp_bind, wp_syscall. intros b k Hk.
  destruct (write_law _ _ _ Hk) as [Hi _]. wp_steps.
  split; [by eapply loop_inv_ext|]. split; [by apply keeps_objects_ext|done].
Qed.

Lemma AddTask_spec t s : loop_inv s →
  wp (AddTask t) s (λ _ s', loop_inv s' ∧ keeps_objects s s' ∧ registered s' = registered s).
Proof.
  intros Hinv. unfold AddTask, AddTask_push. wp_steps.
  set (s1 := set_queue (task_queue_ s ++ [t]) s).
  assert (loop_inv s1) by (by eapply loop_inv_ext).
  assert (keeps_objects s s1) by (by apply keeps_objects_ext).
  case_match; [|by wp_steps].
  eapply wp_mono; [by apply wake_up_spec|]. intros _ s' (? & ? & ?). wp_steps.
  split_and!; [done|by eapply keeps_objects_trans|done].
Qed.

Lemma perform_spec r s : loop_inv s → polite (registered s) [r] = true →
  wp (perform r) s (λ _ s', loop_inv s' ∧ keeps_objects s s' ∧
    registered s' = regs_after r (registered s)).
Proof.
  intros Hinv Hp. simpl in Hp. rewrite andb_true_r in Hp. destruct r; simpl in *.
  - apply bool_decide_eq_true in Hp.
    assert (events_ s !! fd = None) by (by apply not_elem_of_dom).
    eapply wp_mono; [by apply SetEventHandler_spec|]. naive_solver.
  - by apply UpdateEpollEvent_spec.
  - eapply wp_mono; [by apply DeleteEpollEvent_spec|]. naive_solver.
  - by apply AddTask_spec.
Qed.

Lemma perform_all_spec rs s : loop_inv s → polite (registered s) rs = true →
  wp (perform_all rs) s (λ _ s', loop_inv s' ∧ keeps_objects s s').
Proof.
  intros Hinv Hp. unfold perform_all.
  apply (wp_forM _ _ _ _ (λ l _ s', loop_inv s' ∧ keeps_objects s s' ∧
    polite (registered s') l = true)).
  - split_and!; [done|apply keeps_objects_refl|done].
  - intros r l _ s1 (Hi1 & Hk1 & Hp1). wp_steps.
    assert (polite (registered s1) [r] = true ∧ polite (regs_after r (registered s1)) l = true)
      as [? Hpl].
    { simpl in *. apply andb_prop in Hp1 as [-> ->]. done. }
    eapply wp_mono; [by apply perform_spec|]. intros _ s2 (? & ? & Hr). wp_steps.
    split_and!; [done|by eapply keeps_objects_trans|by rewrite Hr].
  - intros _ s' (? & ? & _). done.
Qed.
End invariant.

(** Clients that never register an fd that has an event. A handler may rely on being
    called only while the fd it is called for has one. *)
Class PoliteClients `{Clients} := {
  handle_polite hist regs h fd ev data : fd ∈ regs →
    polite regs (handle hist regs h fd ev data) = true;
  task_polite hist regs t : polite regs (run_task hist regs t) = true;
}.

(** * Rounds of an event loop

    Deleting what was put off, dispatching what epoll reports and running the
    queue: each round finds every object it touches alive. *)

Section rounds.
Context {K : Type} `{LoopKernel K} `{!LoopKernelLaws K}.
Implicit Types (s : Loop K) (p : positive) (fd : Z).

(** ** Deleting what was put off *)

Lemma delete_list_spec l s :
  NoDup l → (∀ p, p ∈ l → is_Some (objects s !! p)) →
  wp (forM l (λ _ p, delete_event p) ()) s (λ _ s', ∃ m,
    s' = set_objects m (next_object s) s ∧
    ∀ p, m !! p = if decide (p ∈ l) then None else objects s !! p).
Proof.
  revert s. induction l as [|q l IH]; intros s Hnd Hlive; simpl.
  { apply wp_ret. exists (objects s). split; [by destruct s|].
    intros p. destruct (decide (p ∈ [])) as [Hp|]; [by apply elem_of_nil in Hp|done]. }
  apply NoDup_cons in Hnd as [Hq Hnd]. apply wp_bind, wp_delete_event.
  { apply Hlive. constructor. }
  set (s1 := set_objects _ _ s).
  eapply wp_mono; [apply (IH s1)|].
  - done.
  - intros p Hp. simpl. rewrite lookup_delete_ne by (intros <-; done).
    apply Hlive. by constructor.
  - intros _ s' (m & -> & Hm). exists m. split; [done|]. intros p. rewrite Hm. simpl.
    destruct (decide (p ∈ l)) as [Hp|Hp].
    + rewrite decide_True; [done|by constructor].
    + destruct (decide (p = q)) as [->|Hne].
      * rewrite decide_True by constructor. apply lookup_delete_eq.
      * rewrite decide_False by (by rewrite elem_of_cons; intros [?|?]).
        by rewrite lookup_delete_ne.
Qed.

(** One fd of the table of deleted events. *)
Lemma remove_fd s fd l m : table_inv s → deleted_events_ s !! fd = Some l →
  (∀ p, m !! p = if decide (p ∈ l) then None else objects s !! p) →
  table_inv (set_deleted (delete fd (deleted_events_ s)) (set_objects m (next_object s) s)).
Proof.
  intros [I1 I2 I3 I4 I6 I7] Hl Hm.
  assert (∀ p fd' l', deleted_events_ s !! fd' = Some l' → p ∈ l' → p ∈ l → fd' = fd) as Hinj.
  { intros p fd' l' Hl' Hp' Hp. destruct (I2 _ _ _ Hl Hp) as (e & He & <-).
    destruct (I2 _ _ _ Hl' Hp') as (e' & He' & <-). congruence. }
  assert (∀ p, condemned (set_deleted (delete fd (deleted_events_ s))
    (set_objects m (next_object s) s)) p → condemned s p) as Hcon.
  { intros p (fd' & l' & Hl' & Hp). simpl in Hl'. apply lookup_delete_Some in Hl' as [_ Hl'].
    by exists fd', l'. }
  split; simpl.
  - intros fd' p Hp. destruct (I1 _ _ Hp) as (e & He & ?). exists e. split; [|done].
    rewrite Hm, decide_False; [done|]. intros Hpl. apply (I4 fd' p Hp). by exists fd, l.
  - intros fd' l' p. rewrite lookup_delete_Some. intros [Hne Hl'] Hp.
    destruct (I2 _ _ _ Hl' Hp) as (e & He & ?). exists e. split; [|done].
    rewrite Hm, decide_False; [done|]. intros Hpl. by apply Hne, eq_sym, (Hinj p fd' l').
  - intros fd' l'. rewrite lookup_delete_Some. intros [_ ?]. eauto.
  - intros fd' p Hp Hc. by apply (I4 fd' p Hp), Hcon.
  - intros p. rewrite Hm. case_decide; [by intros [? ?]|apply I6].
  - intros p e. rewrite Hm. case_decide as Hpl; [done|]. intros He.
    destruct (I7 _ _ He) as [?|(fd' & l' & Hl' & Hp)]; [by left|]. right.
    exists fd', l'. simpl. split; [|done]. apply lookup_delete_Some. split; [|done].
    intros <-. congruence.
Qed.

Lemma RemoveDeletedEvents_spec s : table_inv s →
  wp RemoveDeletedEvents s (λ _ s', table_inv s' ∧ deleted_events_ s' = ∅ ∧
    events_ s' = events_ s ∧ os s' = os s).
Proof.
  intros Hinv. unfold RemoveDeletedEvents. wp_steps.
  apply (wp_forM _ _ _ _ (λ todo _ s', table_inv s' ∧ map_to_list (deleted_events_ s') ≡ₚ todo ∧
    events_ s' = events_ s ∧ os s' = os s)).
  - done.
  - intros [fd l] todo _ s1 (Hi & Hp & He & Hk).
    assert (deleted_events_ s1 !! fd = Some l) as Hl.
    { apply elem_of_map_to_list. rewrite Hp. constructor. }
    wp_steps. eapply wp_mono.
    { apply delete_list_spec; [by eapply inv_nodup|]. intros p Hpl.
      destruct (inv_deleted _ Hi _ _ _ Hl Hpl) as (e & ? & _). by exists e. }
    intros _ s2 (m & -> & Hm). wp_steps. simpl.
    split; [by apply (remove_fd s1 fd l m)|]. split; [|done].
    apply (Permutation_cons_inv (a := (fd, l))). rewrite <- Hp.
    by apply map_to_list_delete.
  - intros _ s1 (Hi & Hp & He & Hk). wp_steps. apply Permutation_nil_r, map_to_list_empty_iff in Hp.
    split; [|done]. eapply table_inv_ext; try done.
Qed.

Lemma RemoveDeletedEvents_inv s : loop_inv s →
  wp RemoveDeletedEvents s (λ _ s', loop_inv s' ∧ deleted_events_ s' = ∅).
Proof.
  intros [Ht I5]. eapply wp_mono; [by apply RemoveDeletedEvents_spec|].
  intros _ s' (Ht' & Hd & He & Hk). split; [|done]. split; [done|]. by rewrite He, Hk.
Qed.

(** ** Dispatch *)

Context `{PoliteClients}.

Lemma loop_inv_log e s : loop_inv s → loop_inv (set_history (history s ++ [e]) s).
Proof. intros. by eapply loop_inv_ext. Qed.

Lemma keeps_log h s s' : keeps_objects (set_history h s) s' → keeps_objects s s'.
Proof. by intros [? ?]. Qed.

Lemma call_task_spec t s : loop_inv s →
  wp (call_task t) s (λ _ s', loop_inv s' ∧ keeps_objects s s').
Proof.
  intros Hinv. unfold call_task, log. wp_steps.
  eapply wp_mono; [apply perform_all_spec; [by apply loop_inv_log|apply task_polite]|].
  intros _ s' [? Hk]. split; [done|by apply keeps_log in Hk].
Qed.

Lemma QueueReadyCallback_spec s : loop_inv s →
  wp QueueReadyCallback s (λ _ s', loop_inv s' ∧ keeps_objects s s').
Proof.
  intros Hinv. unfold QueueReadyCallback. apply wp_bind, wp_syscall. intros b k Hk.
  destruct (read_law _ _ _ Hk) as [Hi _].
  assert (loop_inv (set_os k s)) as Hinv1 by (by eapply loop_inv_ext).
  destruct b; [|wp_steps; split; [done|by apply keeps_objects_ext]].
  unfold take_tasks. wp_steps.
  apply (wp_forM _ _ _ _ (λ _ _ s', loop_inv s' ∧ keeps_objects s s')).
  - split; [by eapply loop_inv_ext|by apply keeps_objects_ext].
  - intros t l _ s1 [? ?]. eapply wp_mono; [by apply call_task_spec|].
    intros _ s2 [? ?]. split; [done|by eapply keeps_objects_trans].
  - done.
Qed.

Lemma call_handler_spec e events s : loop_inv s → ev_fd e ∈ registered s →
  wp (call_handler e events) s (λ _ s', loop_inv s' ∧ keeps_objects s s').
Proof.
  intros Hinv Hfd. unfold call_handler. destruct (ev_handler e) as [|h].
  - by apply QueueReadyCallback_spec.
  - unfold log. wp_steps.
    eapply wp_mono; [apply perform_all_spec; [by apply loop_inv_log|by apply handle_polite]|].
    intros _ s' [? Hk]. split; [done|by apply keeps_log in Hk].
Qed.

(** The events of a batch are alive. *)
Definition alive s (e : Z * option positive) : Prop :=
  match e.2 with Some p => is_Some (objects s !! p) | None => True end.

Lemma alive_mono s s' e : keeps_objects s s' → alive s e → alive s' e.
Proof.
  intros [Hsub _]. unfold alive. destruct e.2 as [p|]; [|done].
  intros [ev Hev]. exists ev. by eapply lookup_weaken.
Qed.

(** A condemned event is found, another one not. *)
Lemma FindDeletedEvent_spec p s (Q : Z → Loop K → Prop) :
  loop_inv s → is_Some (objects s !! p) →
  (condemned s p → Q 1 s) → (¬ condemned s p → Q 0 s) → wp (FindDeletedEvent p) s Q.
Proof.
  intros Hinv [e He] Hc Hn. unfold FindDeletedEvent. wp_steps.
  apply (wp_load_event p e); [done|]. wp_steps.
  destruct (deleted_events_ s !! ev_fd e) as [l|] eqn:Hl; [case_bool_decide as Hp|].
  - apply Hc. by exists (ev_fd e), l.
  - apply Hn. intros (fd & l' & Hl' & Hp'). destruct (inv_deleted _ Hinv _ _ _ Hl' Hp') as (e' & He' & Hfd).
    assert (e' = e) as -> by congruence. rewrite Hfd, Hl' in Hl. injection Hl as E. subst l'. exact (Hp Hp').
  - apply Hn. intros (fd & l' & Hl' & Hp'). destruct (inv_deleted _ Hinv _ _ _ Hl' Hp') as (e' & He' & Hfd).
    congruence.
Qed.

Lemma HandleEvent_spec batch s : loop_inv s → Forall (alive s) batch →
  wp (HandleEvent batch) s (λ _ s', loop_inv s' ∧ keeps_objects s s').
Proof.
  intros Hinv Hall. unfold HandleEvent.
  apply (wp_forM _ _ _ _ (λ l _ s', loop_inv s' ∧ keeps_objects s s' ∧ Forall (alive s') l)).
  - split; [done|]. split; [apply keeps_objects_refl|done].
  - intros [mask [p|]] l _ s1 (Hi & Hk & Hl).
    + apply Forall_cons in Hl as [Hp Hl]. wp_steps.
      apply FindDeletedEvent_spec; [done|done| |].
      * intros _. by wp_steps.
      * intros Hn. destruct Hp as [e He]. apply wp_bind, (wp_load_event p e); [done|].
        destruct (inv_owned _ Hi _ _ He) as [Hev|?]; [|done].
        eapply wp_mono; [apply call_handler_spec; [done|by apply elem_of_dom]|]. intros _ s2 [? ?].
        split_and!; [done|by eapply keeps_objects_trans|].
        eapply Forall_impl; [exact Hl|]. intros ?. by apply alive_mono.
    + apply Forall_cons in Hl as [_ Hl]. by wp_steps.
  - intros _ s' (? & ? & _). done.
Qed.

(** What epoll reports is alive. *)
Lemma reported_alive s events : loop_inv s →
  Forall (λ e : Z * option positive, ∃ fd m p, e.2 = Some p ∧ interest (os s) !! fd = Some (m, p)) events →
  Forall (alive s) events.
Proof.
  intros Hinv Hall. eapply Forall_impl; [exact Hall|]. intros e (fd & m & p & Hp & Hi).
  unfold alive. rewrite Hp. apply (inv_interest _ Hinv) in Hi.
  destruct (inv_event _ Hinv _ _ Hi) as (ev & ? & _). by exists ev.
Qed.

Lemma EventLoop_round_spec s : loop_inv s →
  wp EventLoop_round s (λ _ s', loop_inv s').
Proof.
  intros Hinv. unfold EventLoop_round. apply wp_bind.
  eapply wp_mono; [by apply RemoveDeletedEvents_inv|]. intros _ s1 [Hi1 _].
  apply wp_bind, wp_syscall. intros events k Hk.
  destruct (wait_law _ _ _ _ Hk) as (_ & Hint & Hevs).
  assert (loop_inv (set_os k s1)) as Hi2 by (by eapply loop_inv_ext).
  destruct events as [events|]; [|by wp_steps]. apply wp_bind.
  assert (wp (match events with [] => modify (set_stop true) | _ => HandleEvent events end)
    (set_os k s1) (λ _ s', loop_inv s')) as Hbody.
  { assert (wp (HandleEvent events) (set_os k s1) (λ _ s', loop_inv s')) as Hh.
    { eapply wp_mono; [apply HandleEvent_spec; [done|]|by intros _ s' [? _]].
      apply reported_alive; [done|]. simpl. by rewrite Hint. }
    destruct events; [|done]. wp_steps. by eapply loop_inv_ext. }
  eapply wp_mono; [exact Hbody|]. intros [] s2 Hi3. wp_steps.
  destruct (is_stop_ s2); [|by wp_steps]. wp_steps.
  eapply wp_mono; [by apply RemoveDeletedEvents_inv|]. intros _ s3 [? _]. by wp_steps.
Qed.

Lemma EventLoopRun_spec rounds s : loop_inv s →
  wp (EventLoopRun rounds) s (λ _ s', loop_inv s').
Proof.
  revert s. induction rounds as [|rounds IH]; intros s Hinv; cbn [EventLoopRun]; wp_steps.
  - destruct (is_stop_ s); wp_steps; [by eapply loop_inv_ext|done].
  - destruct (is_stop_ s); wp_steps; [by eapply loop_inv_ext|].
    eapply wp_mono; [by apply EventLoop_round_spec|]. intros [r|] s1 Hi; [by wp_steps|].
    by apply IH.
Qed.

(** ** What others do to a loop

    Between rounds the threads of the clients ask things of the loop, depending on
    what they have seen of it. *)
Definition Session : Type := list ((list loop_effect → gset Z → list Request) * nat).

Definition run_session (l : Session) : M (Loop K) unit :=
  forM l (λ _ '(ask, rounds),
    rs ← gets (λ s, ask (history s) (registered s));
    perform_all rs;;
    EventLoopRun rounds;;
    mret ()) ().

Definition polite_session (l : Session) : Prop :=
  Forall (λ x, ∀ hist regs, polite regs (x.1 hist regs) = true) l.

Lemma run_session_spec l s : loop_inv s → polite_session l →
  wp (run_session l) s (λ _ s', loop_inv s').
Proof.
  intros Hinv Hl. unfold run_session.
  apply (wp_forM _ _ _ _ (λ l _ s', loop_inv s' ∧ polite_session l)); [done| |by intros ?? [? _]].
  intros [ask rounds] l' _ s1 [Hi Hp]. apply Forall_cons in Hp as [Hask Hp]. wp_steps.
  eapply wp_mono; [by apply perform_all_spec|]. intros _ s2 [Hi2 _]. apply wp_bind.
  eapply wp_mono; [by apply EventLoopRun_spec|]. intros ? s3 Hi3. by wp_steps.
Qed.
End rounds.
