(* ===== verification/LoopThreads.v ===== *)
(** * Threads around an event loop

    Producers add tasks while the thread of the loop takes and runs them. The steps
    are the parts of [AddTask] and [QueueReadyCallback] that one lock or one system
    call makes atomic, in any order. *)

From S2P Require Import Prelude EventLoop.

(** Where the thread of the loop is in [QueueReadyCallback]. *)
Inductive phase :=
| Outside                       (** elsewhere in the loop *)
| ToTake                        (** the eventfd has been read, the queue not yet taken *)
| Running (q : list Task).      (** the tasks of [q] are still to be run *)

(** [to_write] producers have found their task alone in the queue and not written
    to the eventfd yet. [added] and [ran] are the tasks added and run so far. *)
Record threads (K : Type) := MkThreads {
  the_loop : Loop K;
  loop_phase : phase;
  to_write : nat;
  added : list Task;
  ran : list Task;
}.
Arguments MkThreads {K}. Arguments the_loop {K}. Arguments loop_phase {K}.
Arguments to_write {K}. Arguments added {K}. Arguments ran {K}.

Section threads.
Context {K : Type} `{LoopKernel K} `{!LoopKernelLaws K}.
Implicit Types (s : Loop K) (t : Task) (c : threads K).

(** Other threads and other handlers may do anything to a loop that leaves its
    queue alone and does not read its eventfd. *)
Definition elsewhere s s' : Prop :=
  task_queue_ s' = task_queue_ s ∧ wakeups (os s) <= wakeups (os s').

Inductive step : threads K → threads K → Prop :=
| step_push s ph n a r t size s' :
    AddTask_push t s = Ret size s' →
    step (MkThreads s ph n a r)
         (MkThreads s' ph (if size =? 1 then S n else n) (a ++ [t]) r)
| step_write s ph n a r s' :
    wake_up s = Ret () s' →
    step (MkThreads s ph (S n) a r) (MkThreads s' ph n a r)
| step_elsewhere s ph n a r s' :
    elsewhere s s' → step (MkThreads s ph n a r) (MkThreads s' ph n a r)
| step_read s n a r (ok : bool) s' :
    syscall eventfd_read s = Ret ok s' →
    step (MkThreads s Outside n a r)
         (MkThreads s' (if ok then ToTake else Outside) n a r)
| step_take s n a r q s' :
    take_tasks s = Ret q s' →
    step (MkThreads s ToTake n a r) (MkThreads s' (Running q) n a r)
| step_run s n a r t q :
    step (MkThreads s (Running (t :: q)) n a r) (MkThreads s (Running q) n a (r ++ [t]))
| step_done s n a r :
    step (MkThreads s (Running []) n a r) (MkThreads s Outside n a r).

Inductive reachable (c0 : threads K) : threads K → Prop :=
| reach_start : reachable c0 c0
| reach_step c c' : reachable c0 c → step c c' → reachable c0 c'.

Definition start s : threads K := MkThreads s Outside 0 [] [].

(** The tasks that the thread of the loop has taken. *)
Definition taken (ph : phase) : list Task := match ph with Running q => q | _ => [] end.

Record queue_ok c : Prop := {
  queue_order : added c = ran c ++ taken (loop_phase c) ++ task_queue_ (the_loop c);
  queue_wakeup : task_queue_ (the_loop c) ≠ [] →
    0 < wakeups (os (the_loop c)) ∨ (0 < to_write c)%nat ∨ loop_phase c = ToTake;
}.

Lemma step_queue_ok c c' : step c c' → queue_ok c → queue_ok c'.
Proof.
  intros Hstep [Ho Hw]. destruct Hstep as [s ph n a r t size s' E|s ph n a r s' E|
    s ph n a r s' [Hq Hwk]|s n a r ok s' E|s n a r q s' E|s n a r t q|s n a r];
    simpl in Ho, Hw; split; simpl.
  - unfold AddTask_push, gets, modify, mbind, M_bind in E. simpl in E. injection E as <- <-.
    simpl. by rewrite Ho, <- !app_assoc.
  - intros _. unfold AddTask_push, gets, modify, mbind, M_bind in E. simpl in E.
    injection E as <- <-. simpl. rewrite length_app. simpl.
    destruct (task_queue_ s) as [|x l]; simpl.
    + right. left. lia.
    + destruct (Hw ltac:(done)) as [?|[?|?]]; [by left|right; left; case_match; lia|by right; right].
  - unfold wake_up, syscall, mbind, M_bind in E. destruct (eventfd_write (os s)). by injection E as <-.
  - intros _. unfold wake_up, syscall, mbind, M_bind in E.
    destruct (eventfd_write (os s)) as [b k] eqn:Hk. injection E as <-.
    left. apply (write_law _ _ _ Hk).
  - by rewrite Hq.
  - rewrite Hq. intros Hne. destruct (Hw Hne) as [?|?]; [left; lia|by right].
  - unfold syscall in E. destruct (eventfd_read (os s)). injection E as <- <-. by destruct b.
  - unfold syscall in E. destruct (eventfd_read (os s)) as [b k] eqn:Hk. injection E as <- <-.
    intros Hne. destruct (read_law _ _ _ Hk) as [_ [(-> & _)|(-> & H0 & _)]]; [by right; right|].
    destruct (Hw Hne) as [?|[?|?]]; [lia|by right; left|done].
  - unfold take_tasks, gets, modify, mbind, M_bind in E. simpl in E. injection E as <- <-.
    simpl. by rewrite app_nil_r.
  - unfold take_tasks, gets, modify, mbind, M_bind in E. simpl in E. by injection E as <- <-.
  - by rewrite Ho, <- app_assoc.
  - intros Hne. destruct (Hw Hne) as [?|[?|?]]; [by left|by right; left|done].
  - done.
  - intros Hne. destruct (Hw Hne) as [?|[?|?]]; [by left|by right; left|done].
Qed.

Lemma start_queue_ok s : task_queue_ s = [] → queue_ok (start s).
Proof. intros Hq. split; simpl; rewrite Hq; done. Qed.

Lemma reachable_queue_ok c0 c : queue_ok c0 → reachable c0 c → queue_ok c.
Proof. intros H0. induction 1; [done|by eapply step_queue_ok]. Qed.

(** ** Progress *)

Lemma reachable_trans c1 c2 c3 : reachable c1 c2 → reachable c2 c3 → reachable c1 c3.
Proof. intros H12. induction 1; [done|by eapply reach_step]. Qed.

Lemma run_taken s n a r q :
  reachable (MkThreads s (Running q) n a r) (MkThreads s Outside n a (r ++ q)).
Proof.
  revert r. induction q as [|t q IH]; intros r.
  - rewrite app_nil_r. eapply reach_step; [constructor|constructor].
  - eapply reachable_trans; [eapply reach_step; [constructor|apply step_run]|].
    replace (r ++ t :: q) with ((r ++ [t]) ++ q) by (by rewrite <- app_assoc). apply IH.
Qed.

Lemma take_and_run s n a r :
  reachable (MkThreads s ToTake n a r)
    (MkThreads (set_queue [] s) Outside n a (r ++ task_queue_ s)).
Proof.
  eapply reachable_trans; [eapply reach_step; [constructor|by apply step_take]|]. apply run_taken.
Qed.

(** The thread of the loop can get out of its callback. *)
Lemma leave_callback c : ∃ s r, reachable c (MkThreads s Outside (to_write c) (added c) r).
Proof.
  destruct c as [s [| |q] n a r]; simpl.
  - exists s, r. constructor.
  - eexists _, _. apply take_and_run.
  - exists s, (r ++ q). apply run_taken.
Qed.

Lemma write_all s n a r : ∃ s', task_queue_ s' = task_queue_ s ∧
  reachable (MkThreads s Outside n a r) (MkThreads s' Outside 0 a r).
Proof.
  revert s. induction n as [|n IH]; intros s.
  { exists s. split; [done|constructor]. }
  destruct (wake_up s) as [[] s1| |] eqn:Hw;
    [|unfold wake_up, syscall, mbind, M_bind in Hw; by destruct (eventfd_write (os s))..].
  destruct (IH s1) as (s' & Hq & Hr). exists s'. split.
  - rewrite Hq. unfold wake_up, syscall, mbind, M_bind in Hw.
    destruct (eventfd_write (os s)). by injection Hw as <-.
  - eapply reachable_trans; [|exact Hr]. eapply reach_step; [constructor|by apply step_write].
Qed.

(** From wherever the threads are, all the tasks that have been added can be run
    without another one being added. *)
Lemma all_can_run c : queue_ok c →
  ∃ c', reachable c c' ∧ added c' = added c ∧ ran c' = added c.
Proof.
  intros Hok. destruct (leave_callback c) as (s1 & r1 & H1).
  destruct (write_all s1 (to_write c) (added c) r1) as (s2 & Hq2 & H2).
  assert (reachable c (MkThreads s2 Outside 0 (added c) r1)) as H12 by (by eapply reachable_trans).
  pose proof (reachable_queue_ok _ _ Hok H12) as [Ho Hw]. simpl in Ho, Hw.
  destruct (task_queue_ s2) as [|t l] eqn:Hq.
  { eexists. split; [exact H12|]. split; [done|]. simpl. by rewrite Ho, app_nil_r. }
  destruct (Hw ltac:(done)) as [Hpos|[?|?]]; [|lia|done].
  destruct (eventfd_read (os s2)) as [b k] eqn:Hk.
  destruct (read_law _ _ _ Hk) as [_ [(-> & _)|(_ & H0 & _)]]; [|lia].
  eexists. split.
  - eapply reachable_trans; [exact H12|].
    eapply reachable_trans; [eapply reach_step; [constructor|]|apply take_and_run].
    apply (step_read s2 0 (added c) r1 true (set_os k s2)). unfold syscall. by rewrite Hk.
  - split; [done|]. simpl. rewrite Hq, Ho. done.
Qed.
End threads.
