(* ===== verification/EventLoopGroup.v ===== *)
(** * Groups of event loops

    [EventLoopGroup] of net/src/event_loop_group.cc: a power of two of loops, and
    the choice of the loop of an fd by its low bits. *)

From S2P Require Import Prelude EventLoop LoopInvariant.

(** A value of type [int]. *)
Definition s32 (z : Z) : Z := (z + 2147483648) mod w32 - 2147483648.

Definition kEventLoopGroupDefaultSize : Z := 8.

(** [ret |= ret >> k]. *)
Definition smear (k ret : Z) : Z := Z.lor ret (Z.shiftr ret k).

Definition CalcFloorSize (size : Z) : Z :=
  let ret := s32 size in
  let ret := smear 1 ret in
  let ret := smear 2 ret in
  let ret := smear 4 ret in
  let ret := smear 8 ret in
  let ret := smear 16 ret in
  Z.shiftr (u64 ret +64 1) 1.

(** [max_size] is [std::thread::hardware_concurrency()]. *)
Definition DeterminateGroupSize {S} (max_size group_size : Z) : M S Z :=
  let group_size := if group_size =? 0 then kEventLoopGroupDefaultSize else group_size in
  let size := CalcFloorSize group_size in
  if max_size <? size then throw "The value of event loop threads size is not legal."
  else mret (if 2 <? size then size else 2).

Record Group (K : Type) := MkGroup { group_size_ : Z; event_loops_ : list (Loop K) }.
Arguments MkGroup {K}. Arguments group_size_ {K}. Arguments event_loops_ {K}.

(** ** The size of a group *)

Lemma smear_bits n x y : 0 <= n →
  (∀ i, 0 <= i → Z.testbit y i = true ↔ ∃ j, 0 <= j < n ∧ Z.testbit x (i + j) = true) →
  ∀ i, 0 <= i → Z.testbit (smear n y) i = true ↔ ∃ j, 0 <= j < 2 * n ∧ Z.testbit x (i + j) = true.
Proof.
  intros Hn Hy i Hi. unfold smear. rewrite Z.lor_spec, Z.shiftr_spec by done.
  rewrite orb_true_iff, !Hy by lia. split.
  - intros [(j & ? & Hj)|(j & ? & Hj)]; [exists j; split; [lia|done]|].
    exists (n + j). split; [lia|]. by rewrite Z.add_assoc.
  - intros (j & ? & Hj). destruct (decide (j < n)); [left; exists j; split; [lia|done]|].
    right. exists (j - n). split; [lia|]. by replace (i + n + (j - n)) with (i + j) by lia.
Qed.

Lemma smear_all x : 0 < x < 2 ^ 31 →
  smear 16 (smear 8 (smear 4 (smear 2 (smear 1 x)))) = 2 ^ (Z.log2 x + 1) - 1.
Proof.
  intros Hx. assert (0 <= Z.log2 x < 31) as Hl.
  { split; [apply Z.log2_nonneg|]. apply Z.log2_lt_pow2; lia. }
  assert (∀ i, 0 <= i → Z.testbit (smear 16 (smear 8 (smear 4 (smear 2 (smear 1 x))))) i = true ↔
    ∃ j, 0 <= j < 32 ∧ Z.testbit x (i + j) = true) as Hbits.
  { apply (smear_bits 16 x); [done|]. apply (smear_bits 8 x); [done|].
    apply (smear_bits 4 x); [done|]. apply (smear_bits 2 x); [done|].
    apply (smear_bits 1 x); [done|]. intros i Hi. split.
    - intros. exists 0. by rewrite Z.add_0_r.
    - intros (j & ? & Hj). replace j with 0 in Hj by lia. by rewrite Z.add_0_r in Hj. }
  apply Z.bits_inj'. intros i Hi. apply eq_true_iff_eq. rewrite (Hbits i Hi).
  rewrite Z.sub_1_r, <- Z.ones_equiv, Z.testbit_ones_nonneg by lia.
  rewrite Z.ltb_lt. split.
  - intros (j & ? & Hj). destruct (decide (i < Z.log2 x + 1)); [done|].
    rewrite Z.bits_above_log2 in Hj by lia. done.
  - intros. exists (Z.log2 x - i). split; [lia|].
    replace (i + (Z.log2 x - i)) with (Z.log2 x) by lia. apply Z.bit_log2. lia.
Qed.

Lemma CalcFloorSize_pow2 size : 0 < size < 2 ^ 31 → CalcFloorSize size = 2 ^ Z.log2 size.
Proof.
  intros Hs. unfold CalcFloorSize.
  assert (s32 size = size) as ->.
  { unfold s32, w32. rewrite Z.mod_small; lia. }
  rewrite smear_all by done.
  assert (0 <= Z.log2 size < 31).
  { split; [apply Z.log2_nonneg|]. apply Z.log2_lt_pow2; lia. }
  assert (2 ^ (Z.log2 size + 1) = 2 * 2 ^ Z.log2 size) as Hp
    by (rewrite Z.pow_add_r by lia; lia).
  assert (0 < 2 ^ Z.log2 size <= 2 ^ 31).
  { split; [apply Z.pow_pos_nonneg; lia|apply Z.pow_le_mono_r; lia]. }
  rewrite (u64_small (_ - 1)) by (unfold w64; lia).
  rewrite u64_small by (unfold w64; lia).
  rewrite Z.shiftr_div_pow2 by lia. rewrite Hp.
  replace (2 * 2 ^ Z.log2 size - 1 + 1) with (2 ^ Z.log2 size * 2) by lia.
  by rewrite Z.div_mul.
Qed.

(** ** Operations *)

Section group.
Context {K : Type} `{LoopKernel K}.
Abbreviation G := (M (Group K)).

(** [static_cast<size_t>(fd) & (group_size_ - 1)]. *)
Definition loop_index (group_size fd : Z) : Z := Z.land (u64 fd) (group_size -64 1).

(** [event_loops_.at(index)]. *)
Definition at_loop {A} (index : Z) (m : M (Loop K) A) : G A := λ g,
  match event_loops_ g !! Z.to_nat index with
  | None => Throw "vector::at" g
  | Some l =>
      zoom (λ _, l)
        (λ l' g, MkGroup (group_size_ g) (<[Z.to_nat index := l']> (event_loops_ g))) m g
  end.

Definition Group_SetEventHandler (fd events : Z) (handler : EventHandler) (data : positive) : G Z :=
  size ← gets group_size_;
  at_loop (loop_index size fd) (SetEventHandler fd events handler data).

Definition Group_DeleteEpollEvent (fd : Z) : G Z :=
  size ← gets group_size_;
  at_loop (loop_index size fd) (DeleteEpollEvent fd).

(** A group that has been constructed and initialised. *)
Record group_ok (g : Group K) : Prop := {
  group_pow2 : ∃ n, 1 <= n < 31 ∧ group_size_ g = 2 ^ n;
  group_loops : Z.of_nat (length (event_loops_ g)) = group_size_ g;
}.

(** Any [int] has a loop, negative ones included. *)
Lemma loop_index_range g fd : group_ok g →
  (Z.to_nat (loop_index (group_size_ g) fd) < length (event_loops_ g))%nat.
Proof.
  intros [(n & Hn & Hs) Hl]. unfold loop_index. rewrite Hs in *.
  assert (0 < 2 ^ n <= 2 ^ 31).
  { split; [apply Z.pow_pos_nonneg; lia|]. apply Z.pow_le_mono_r; lia. }
  rewrite (u64_small (2 ^ n - 1)) by (unfold w64; lia).
  replace (2 ^ n - 1) with (Z.ones n) by (rewrite Z.ones_equiv; lia).
  rewrite Z.land_ones by lia. pose proof (Z.mod_pos_bound (u64 fd) (2 ^ n)). lia.
Qed.
End group.

Lemma wp_at_loop {K A} (index : Z) (m : M (Loop K) A) (g : Group K) l (Q : A → Group K → Prop) :
  event_loops_ g !! Z.to_nat index = Some l →
  wp m l (λ a l', Q a (MkGroup (group_size_ g) (<[Z.to_nat index := l']> (event_loops_ g)))) →
  wp (at_loop index m) g Q.
Proof. intros Hl Hm. unfold wp at 1, at_loop. rewrite Hl. by apply wp_zoom. Qed.
