(* ===== verification/LoopTheorems.v ===== *)
(** * Properties of event loops

    Each with an instance on a small kernel whose readiness follows a script. *)

From S2P Require Import Prelude EventLoop LoopInvariant LoopThreads EventLoopGroup.

Section theorems.
Context {K : Type} `{LoopKernel K} `{!LoopKernelLaws K}.
Implicit Types (s : Loop K) (p : positive) (fd : Z).

Lemma InitResource_spec (k : K) : interest k = ∅ →
  wp InitResource (new_loop k) (λ _ s', loop_inv s').
Proof.
  intros Hk. unfold InitResource, ReleaseResource. wp_steps.
  apply wp_syscall. intros ep k1 Hk1. simpl in Hk1. apply create_law in Hk1 as [_ Hi1].
  assert (∀ s, events_ s = ∅ → deleted_events_ s = ∅ → objects s = ∅ → interest (os s) = ∅ →
    loop_inv s) as Hempty.
  { intros s He Hd Ho Hi. split; [split|]; unfold condemned; rewrite ?He, ?Hd, ?Ho, ?Hi;
      (intros ? [? ?] || intros); by simplify_map_eq. }
  wp_steps. destruct (ep =? -1); wp_steps; [apply Hempty; simpl; congruence|].
  apply wp_syscall. intros ev k2 Hk2. simpl in Hk2. apply eventfd_law in Hk2 as [_ Hi2].
  wp_steps. destruct (ev =? -1); wp_steps; [apply Hempty; simpl; congruence|].
  eapply wp_mono; [apply SetEventHandler_spec; [apply Hempty; simpl; congruence|done]|].
  intros r s' (-> & Hinv & _). by wp_steps.
Qed.

(** C6: A loop never dangles. Clients may ask a new loop to register, update and
    delete events and to run tasks, before it runs and between any numbers of
    rounds, and so may the handlers and tasks that it calls; provided only that they
    register no fd twice, where a handler may rely on its fd having an event; epoll and
    eventfd answer anything within [LoopKernelLaws]. Then
    the loop finds every [Event] it touches alive, up to its end, when it has
    deleted all of them but those that are still registered. *)
Theorem loop_never_dangles `{PoliteClients} (session : Session) (k : K) :
  interest k = ∅ → polite_session session →
  wp (r ← InitResource;
      (if r =? RPC_OK then run_session session else mret ());;
      Finalize_loop) (new_loop k)
    (λ _ s', loop_inv s' ∧ deleted_events_ s' = ∅ ∧
       ∀ p e, objects s' !! p = Some e → events_ s' !! ev_fd e = Some p).
Proof.
  intros Hk Hpol. apply wp_bind. eapply wp_mono; [by apply InitResource_spec|].
  intros r s1 Hi1. apply wp_bind.
  assert (wp (if r =? RPC_OK then run_session session else mret ()) s1
    (λ _ s', loop_inv s')) as Hrun.
  { destruct (r =? RPC_OK); [by apply run_session_spec|by wp_steps]. }
  eapply wp_mono; [exact Hrun|]. intros ? s2 Hi2. unfold Finalize_loop, ReleaseResource. apply wp_bind.
  eapply wp_mono; [by apply RemoveDeletedEvents_inv|]. intros ? s3 [Hi3 Hd].
  wp_steps. split; [by eapply loop_inv_ext|]. split; [done|]. simpl. intros p e He.
  destruct (inv_owned _ Hi3 _ _ He) as [?|(fd & l & Hl & _)]; [done|].
  by rewrite Hd, lookup_empty in Hl.
Qed.

(** C28: A deleted event is not called. Once an event has been deleted from a loop,
    reports of it that are still to be dispatched in the same round are dropped,
    whatever has been requested in between - another event for the same fd
    included. *)
Theorem deleted_event_not_called fd p mask rs s :
  loop_inv s → events_ s !! fd = Some p →
  polite (registered s ∖ {[fd]}) rs = true →
  wp (DeleteEpollEvent fd;; perform_all rs) s (λ _ s',
    ∀ (C : Clients) rest, HandleEvent ((mask, Some p) :: rest) s' = HandleEvent rest s').
Proof.
  intros Hinv Hp Hpol. apply wp_bind. eapply wp_mono; [by apply DeleteEpollEvent_spec|].
  intros _ s1 (Hi1 & _ & Hreg & Hc & _). apply Hc in Hp.
  eapply wp_mono; [apply perform_all_spec; [done|by rewrite Hreg]|].
  intros _ s2 [Hi2 [_ Hk]]. apply Hk in Hp. intros Hcl rest.
  destruct Hp as (fd' & l & Hl & Hpl). destruct (inv_deleted _ Hi2 _ _ _ Hl Hpl) as (e & He & Hfd).
  unfold HandleEvent. cbn [forM]. unfold FindDeletedEvent, load_event, gets, deref, mbind, M_bind, mret, M_ret.
  rewrite He. simpl. rewrite Hfd, Hl, bool_decide_eq_true_2 by done. done.
Qed.

(** The first event of a batch has been freed. *)
Lemma HandleEvent_dangles `{Clients} mask p rest s :
  objects s !! p = None → HandleEvent ((mask, Some p) :: rest) s = Undef.
Proof.
  intros Hp. unfold HandleEvent. cbn [forM].
  unfold FindDeletedEvent, load_event, gets, deref, mbind, M_bind. by rewrite Hp.
Qed.

(** C30: Registering twice dangles. [SetEventHandler] for an fd that has an event
    frees that event at once, fails to register the new one, and reports success;
    epoll goes on reporting the freed event, and its next report is undefined
    behaviour. *)
Theorem registering_twice_dangles `{Clients} fd p m events handler data s :
  loop_inv s → events_ s !! fd = Some p → interest (os s) !! fd = Some (m, p) →
  wp (SetEventHandler fd events handler data) s (λ r s',
    r = RPC_OK ∧ interest (os s') !! fd = Some (m, p) ∧
    ∀ mask rest, HandleEvent ((mask, Some p) :: rest) s' = Undef).
Proof.
  intros Hinv Hp Hi. destruct (inv_event _ Hinv _ _ Hp) as (e & He & Hfd).
  assert (p < next_object s)%positive as Hlt by (apply (inv_fresh _ Hinv); by exists e).
  unfold SetEventHandler. apply wp_bind, wp_new_event. unfold AddEvent, DeleteEvent. wp_steps.
  eapply wp_load_event; [simpl; apply lookup_insert_eq|]. wp_steps. simpl. rewrite Hp.
  wp_steps. apply wp_delete_event.
  { simpl. rewrite lookup_insert_ne by lia. by exists e. }
  wp_steps. simpl. rewrite lookup_delete_eq. apply wp_syscall. intros r k Hk. simpl in Hk.
  destruct (add_law _ _ _ _ _ _ Hk) as [_ [(_ & Hn & _)|(-> & Hi')]]; [congruence|]. simpl.
  wp_steps. split; [done|]. split; [simpl; by rewrite Hi'|]. intros mask rest.
  apply HandleEvent_dangles. simpl. apply lookup_delete_eq.
Qed.

(** Deleting from another thread dangles. When a thread has unlinked an event in
    [DeleteEpollEvent] and not yet told epoll, the loop may begin a round: it frees
    the event while epoll still reports it, and dispatching the report is undefined
    behaviour. *)
Theorem concurrent_delete_dangles `{Clients} fd p m s :
  loop_inv s → events_ s !! fd = Some p → interest (os s) !! fd = Some (m, p) →
  wp (DeleteEpollEvent_unlink fd;; RemoveDeletedEvents) s (λ _ s',
    interest (os s') !! fd = Some (m, p) ∧
    ∀ mask rest, HandleEvent ((mask, Some p) :: rest) s' = Undef).
Proof.
  intros Hinv Hp Hi. destruct (inv_event _ Hinv _ _ Hp) as (e & He & Hfd).
  apply wp_bind. eapply wp_mono; [apply DeleteEpollEvent_unlink_spec, Hinv|].
  intros r s1 (Hr & Hi1 & _ & Hos & Hev & Hc & _).
  eapply wp_mono; [by apply RemoveDeletedEvents_spec|].
  intros _ s2 (Hi2 & Hd & Hev2 & Hos2). split; [by rewrite Hos2, Hos|].
  intros mask rest. apply HandleEvent_dangles.
  destruct (objects s2 !! p) as [e2|] eqn:He2; [|done]. exfalso.
  destruct (inv_owned _ Hi2 _ _ He2) as [Hx|(fd' & l & Hl & _)]; [|by rewrite Hd, lookup_empty in Hl].
  rewrite Hev2, Hev in Hx. apply lookup_delete_Some in Hx as [Hne Hx].
  destruct (inv_event _ Hinv _ _ Hx) as (e' & He' & Hfd'). congruence.
Qed.

(** C21: No task is lost. However threads interleave, tasks are run once and in the
    order in which they were added; a queue that is not empty when no producer is
    about to write and the loop is not about to take it has a wake-up pending; and
    from everywhere all the tasks added so far can be run. *)
Theorem no_task_lost s c : task_queue_ s = [] → reachable (start s) c →
  added c = ran c ++ taken (loop_phase c) ++ task_queue_ (the_loop c) ∧
  (to_write c = 0%nat → loop_phase c ≠ ToTake → task_queue_ (the_loop c) ≠ [] →
   0 < wakeups (os (the_loop c))) ∧
  ∃ c', reachable c c' ∧ added c' = added c ∧ ran c' = added c.
Proof.
  intros Hq Hr. pose proof (reachable_queue_ok _ _ (start_queue_ok _ Hq) Hr) as Hok.
  split; [apply Hok|]. split; [|by apply all_can_run]. intros Hn Hp Hne.
  destruct (queue_wakeup _ Hok Hne) as [?|[?|?]]; [done|lia|done].
Qed.

End theorems.

(** ** Instances *)

(** A kernel whose readiness follows a script: [os_script] says which fds are ready
    at each [epoll_wait]; afterwards it fails. *)
Record OS := MkOS {
  os_interest : gmap Z (Z * positive);
  os_counter : N;
  os_script : list (list Z);
}.

#[export] Instance os_kernel : LoopKernel OS := {
  epoll_create := λ k, (3, k);
  eventfd_create := λ k, (4, k);
  epoll_add := λ fd ev p k,
    match os_interest k !! fd with
    | Some _ => (-1, k)
    | None => (0, MkOS (<[fd := (ev, p)]> (os_interest k)) (os_counter k) (os_script k))
    end;
  epoll_mod := λ fd ev p k,
    match os_interest k !! fd with
    | Some _ => (0, MkOS (<[fd := (ev, p)]> (os_interest k)) (os_counter k) (os_script k))
    | None => (-1, k)
    end;
  epoll_del := λ fd k,
    (match os_interest k !! fd with Some _ => 0 | None => -1 end,
     MkOS (delete fd (os_interest k)) (os_counter k) (os_script k));
  epoll_wait := λ _ k,
    match os_script k with
    | [] => (None, k)
    | fds :: rest =>
        (Some (omap (λ fd, (λ '(m, p), (m, Some p)) <$> os_interest k !! fd) fds),
         MkOS (os_interest k) (os_counter k) rest)
    end;
  eventfd_read := λ k,
    (bool_decide (os_counter k ≠ 0%N), MkOS (os_interest k) 0 (os_script k));
  eventfd_write := λ k,
    (true, MkOS (os_interest k) (N.succ (os_counter k)) (os_script k));
  loop_errno := λ _, 9;
}.

#[export] Program Instance os_laws : LoopKernelLaws OS := {
  interest := os_interest;
  wakeups := λ k, Z.of_N (os_counter k);
}.
Next Obligation.
  intros fd ev p k r k' Hk. simpl in Hk.
  destruct (os_interest k !! fd) eqn:?; injection Hk as <- <-; (split; [done|]); [by right|by left].
Qed.
Next Obligation.
  intros fd ev p k r k' Hk. simpl in Hk.
  destruct (os_interest k !! fd) eqn:?; injection Hk as <- <-; (split; [done|]);
    [left; by eauto|by right].
Qed.
Next Obligation.
  intros fd k r k' Hk. simpl in Hk. injection Hk as <- <-.
  split; [done|]. split; [|done]. destruct (os_interest k !! fd); [by left|by right].
Qed.
Next Obligation.
  intros n k evs k' Hk. simpl in Hk. destruct (os_script k) as [|fds rest]; injection Hk as <- <-;
    (split; [done|]); (split; [done|]); [done|].
  apply Forall_forall. intros e. rewrite list_elem_of_omap. intros (fd & _ & He).
  destruct (os_interest k !! fd) as [[m p]|] eqn:Hi; [|done]. injection He as <-.
  by exists fd, m, p.
Qed.
Next Obligation.
  intros k b k' Hk. simpl in Hk. injection Hk as <- <-. split; [done|]. simpl.
  case_bool_decide; [left|right]; split_and!; try done; lia.
Qed.
Next Obligation.
  intros k b k' Hk. simpl in Hk. injection Hk as <- <-. split; [done|]. simpl. lia.
Qed.
Next Obligation. intros k r k' Hk. simpl in Hk. by injection Hk as <- <-. Qed.
Next Obligation. intros k r k' Hk. simpl in Hk. by injection Hk as <- <-. Qed.

(** Handler 1 moves its fd to handler 3, as [NewConnectEventHandler] does; handler 2
    accepts, as [OnAccept]; handler 4 closes its fd and another one; handler 5 says
    that it was called for a closed fd by registering one twice. Tasks accept. *)
#[export] Instance example_clients : Clients := {
  handle := λ _ regs h fd _ data,
    match h with
    | 1%positive => [RDelete fd; RSet fd 1 (Client 3) data; RTask 7%positive]
    | 2%positive => [RSet (fresh regs) 1 (Client 1) data]
    | 4%positive => [RDelete (fd + 1); RDelete fd]
    | 5%positive => if decide (fd ∈ regs) then [] else [RSet 4 1 (Client 5) data]
    | _ => [RDelete (fd + 1)]
    end;
  run_task := λ _ regs _, [RSet (fresh regs) 1 (Client 1) 9%positive];
}.

#[export] Instance example_polite : PoliteClients.
Proof.
  split.
  - intros hist regs h fd ev data Hfd. simpl.
    assert (fresh regs ∉ regs) by apply is_fresh.
    assert (fd ∉ regs ∖ {[fd]}) by set_solver.
    destruct h as [[h|h|]|[h|h|]|]; try destruct h; simpl; rewrite ?decide_True by done;
      simpl; rewrite ?bool_decide_eq_true_2 by done; done.
  - intros hist regs t. simpl. assert (fresh regs ∉ regs) by apply is_fresh.
    by rewrite bool_decide_eq_true_2.
Qed.

Definition quiet_os : OS := MkOS ∅ 0 [[4]; [4; 5]; []].

(** Fds 5 and 6 are registered and a task is added; in one round 4, 5 and 6 are
    ready, and the handler of 5 deletes 6, whose report is dropped. Then a client
    takes 5 again. *)
Definition busy_os : OS := MkOS ∅ 0 [[4; 5; 6]; [4; 5]; []].
Definition busy_session : Session :=
  [(λ _ _, [RDelete 5; RSet 5 1 (Client 4) 8; RDelete 6; RSet 6 1 (Client 5) 8; RTask 6%positive], 1%nat);
   (λ _ regs, if decide (5 ∈ regs) then [] else [RSet 5 1 (Client 1) 8; RUpdate 5 3], 2%nat)].

Lemma busy_session_polite : polite_session busy_session.
Proof.
  repeat constructor; intros hist regs; simpl.
  - assert (∀ x : Z, x ∉ regs ∖ {[x]}) as Hx by set_solver.
    rewrite !bool_decide_eq_true_2 by set_solver. done.
  - destruct (decide (5 ∈ regs)); [done|]. simpl. by rewrite bool_decide_eq_true_2.
Qed.

Lemma loop_never_dangles_witness :
  wp (r ← InitResource;
      (if r =? RPC_OK then run_session busy_session else mret ());;
      Finalize_loop) (new_loop busy_os)
    (λ _ s', loop_inv s' ∧ deleted_events_ s' = ∅ ∧
       ∀ p e, objects s' !! p = Some e → events_ s' !! ev_fd e = Some p).
Proof. apply (loop_never_dangles busy_session busy_os); [reflexivity|apply busy_session_polite]. Defined.

(** What was called there: the task, the handler of 5 and that of 5 once more; the
    report of 6 was dropped. *)
Example busy_history :
  wp (InitResource;; run_session busy_session) (new_loop busy_os)
    (λ _ s, history s = [Ran 6%positive; Called 4 5 1 8; Called 1 5 3 8]).
Proof. by vm_compute. Qed.

(** A loop with an event for fd 5 beside that of its queue. *)
Definition busy_loop : Loop OS :=
  match (InitResource;; SetEventHandler 5 1 (Client 1) 8) (new_loop quiet_os) with
  | Ret _ s => s
  | _ => new_loop quiet_os
  end.

Lemma busy_loop_inv : loop_inv busy_loop.
Proof.
  assert (wp (InitResource;; SetEventHandler 5 1 (Client 1) 8) (new_loop quiet_os) (λ _ s, loop_inv s))
    as Hwp.
  { apply wp_bind.
    assert (wp InitResource (new_loop quiet_os) (λ _ s, loop_inv s ∧ events_ s !! 5 = None)) as Hi.
    { assert (interest quiet_os = ∅) as H0 by reflexivity.
      destruct (wp_inv _ _ _ (InitResource_spec quiet_os H0)) as (r & s & E & Hi).
      apply (wp_value _ _ _ _ _ E). split; [done|]. vm_compute in E. injection E as _ <-. done. }
    eapply wp_mono; [exact Hi|]. intros _ s [Hs H5].
    eapply wp_mono; [by apply SetEventHandler_spec|]. naive_solver. }
  apply wp_inv in Hwp as (r & s & E & Hi). unfold busy_loop. by rewrite E.
Qed.

Lemma deleted_event_not_called_witness :
  wp (DeleteEpollEvent 5;; perform_all [RSet 5 1 (Client 3) 8; RTask 6%positive]) busy_loop (λ _ s',
    ∀ (C : Clients) rest, HandleEvent ((1, Some 2%positive) :: rest) s' = HandleEvent rest s').
Proof.
  apply (deleted_event_not_called 5 2 1 [RSet 5 1 (Client 3) 8; RTask 6%positive] busy_loop).
  - apply busy_loop_inv.
  - reflexivity.
  - vm_compute. reflexivity.
Defined.

Lemma registering_twice_dangles_witness :
  wp (SetEventHandler 5 1 (Client 2) 8) busy_loop (λ r s',
    r = RPC_OK ∧ interest (os s') !! 5 = Some (1, 2%positive) ∧
    ∀ mask rest, HandleEvent ((mask, Some 2%positive) :: rest) s' = Undef).
Proof.
  apply (registering_twice_dangles 5 2 1 1 (Client 2) 8 busy_loop).
  - apply busy_loop_inv.
  - reflexivity.
  - reflexivity.
Defined.

Lemma concurrent_delete_dangles_witness :
  wp (DeleteEpollEvent_unlink 5;; RemoveDeletedEvents) busy_loop (λ _ s',
    interest (os s') !! 5 = Some (1, 2%positive) ∧
    ∀ mask rest, HandleEvent ((mask, Some 2%positive) :: rest) s' = Undef).
Proof.
  apply (concurrent_delete_dangles 5 2 1 busy_loop).
  - apply busy_loop_inv.
  - reflexivity.
  - reflexivity.
Defined.

(** Two producers: the second finds the task of the first, which has not written. *)
Definition two_producers : threads OS :=
  MkThreads (set_queue [6; 7]%positive busy_loop) Outside 1 [6; 7]%positive [].

Lemma no_task_lost_witness : added two_producers = [6; 7]%positive ∧
  ∃ c', reachable two_producers c' ∧ added c' = added two_producers ∧ ran c' = added two_producers.
Proof.
  split; [reflexivity|].
  apply (no_task_lost busy_loop two_producers).
  - reflexivity.
  - apply (reach_step _ (MkThreads (set_queue [6]%positive busy_loop) Outside 1 [6]%positive [])).
    + apply (reach_step _ (start busy_loop)); [apply reach_start|].
      apply (step_push busy_loop Outside 0 [] [] 6%positive 1). reflexivity.
    + apply (step_push (set_queue [6]%positive busy_loop) Outside 1 [6]%positive [] 7%positive 2). reflexivity.
Defined.


(** A task that is added is run in the next round; what it accepts is called in the
    round after. *)
Example queue_runs :
  wp (InitResource;; AddTask 7%positive;; EventLoopRun 2) (new_loop (MkOS ∅ 0 [[4]; [fresh ({[4]} : gset Z)]]))
    (λ _ s, history s = [Ran 7%positive; Called 1%positive (fresh ({[4]} : gset Z)) 1 9%positive]).
Proof. by vm_compute. Qed.
