(* ===== verification/ConnectionPool.v ===== *)
(** * The connection pool

    [ConnectionPool] of net/src/connection_pool.cc, [Close] of net/src/connection.cc,
    and the functions of net/src/tcp_comm.cc that go through the pool: sending to an
    address, the event callback, connecting and disconnecting. *)

From S2P Require Import Prelude NetBytes NetMessage NetState NetSocket Connection.

#[export] Instance byte_countable : Countable byte.
Proof.
  refine (inj_countable Byte.to_N Byte.of_N _). apply Byte.of_to_N.
Defined.

Definition EPOLLIN : Z := 1.
Definition EPOLLOUT : Z := 4.
Definition EPOLLERR : Z := 8.
Definition EPOLLHUP : Z := 16.
Definition EPOLLRDHUP : Z := 8192.

(** ** Objects *)

(** A [Connection] object: what the pool looks at, and the halves of [NetState] with
    the kernel's side of its socket. *)
Record Link (K : Type) := MkLink {
  socket_fd : Z;
  destination : bytes;
  deleted : bool;
  link_world : World K;
}.
Arguments MkLink {K}. Arguments socket_fd {K}. Arguments destination {K}.
Arguments deleted {K}. Arguments link_world {K}.

(** A [DeleteCallBack] is a function of the client; null is [None]. *)
Record ConnectionInfo := MkInfo {
  info_fd : Z;
  info_from : bytes;
  info_to : bytes;
  delete_callback : option positive;
}.

(** What the pool does to others, in order. *)
Inductive pool_effect :=
| Exited (callback : positive) (to from : bytes)     (** a [delete_callback] was called *)
| EventDeleted (fd : Z)                              (** [DeleteEpollEvent] of the loop *)
| SocketClosed (fd : Z).

Record ConnPool (K : Type) := MkConnPool {
  double_link_ : bool;
  local_conns_ : gmap bytes positive;
  remote_conns_ : gmap bytes positive;
  connections_ : gmap bytes positive;
  conn_infos_ : gmap Z (gset positive);
  links : gmap positive (Link K);          (** the [Connection] objects *)
  next_link : positive;
  infos : gmap positive ConnectionInfo;    (** the [ConnectionInfo] objects *)
  next_info : positive;
  pool_trace : list pool_effect;
}.
Arguments MkConnPool {K}. Arguments double_link_ {K}. Arguments local_conns_ {K}.
Arguments remote_conns_ {K}. Arguments connections_ {K}. Arguments conn_infos_ {K}.
Arguments links {K}. Arguments next_link {K}. Arguments infos {K}. Arguments next_info {K}. Arguments pool_trace {K}.

(** The iteration order of a [std::set] of pointers, which depends on addresses. *)
Class InfoOrder := {
  in_order : gset positive → list positive;
  in_order_spec X : in_order X ≡ₚ elements X;
}.

Section set.
Context {K : Type}.
Implicit Types (P : ConnPool K).
Definition set_double_link v P : ConnPool K :=
  MkConnPool v (local_conns_ P) (remote_conns_ P) (connections_ P) (conn_infos_ P) (links P)
    (next_link P) (infos P) (next_info P) (pool_trace P).
Definition set_local v P : ConnPool K :=
  MkConnPool (double_link_ P) v (remote_conns_ P) (connections_ P) (conn_infos_ P) (links P)
    (next_link P) (infos P) (next_info P) (pool_trace P).
Definition set_remote v P : ConnPool K :=
  MkConnPool (double_link_ P) (local_conns_ P) v (connections_ P) (conn_infos_ P) (links P)
    (next_link P) (infos P) (next_info P) (pool_trace P).
Definition set_connections v P : ConnPool K :=
  MkConnPool (double_link_ P) (local_conns_ P) (remote_conns_ P) v (conn_infos_ P) (links P)
    (next_link P) (infos P) (next_info P) (pool_trace P).
Definition set_conn_infos v P : ConnPool K :=
  MkConnPool (double_link_ P) (local_conns_ P) (remote_conns_ P) (connections_ P) v (links P)
    (next_link P) (infos P) (next_info P) (pool_trace P).
Definition set_links v n P : ConnPool K :=
  MkConnPool (double_link_ P) (local_conns_ P) (remote_conns_ P) (connections_ P) (conn_infos_ P)
    v n (infos P) (next_info P) (pool_trace P).
Definition set_infos v n P : ConnPool K :=
  MkConnPool (double_link_ P) (local_conns_ P) (remote_conns_ P) (connections_ P) (conn_infos_ P)
    (links P) (next_link P) v n (pool_trace P).
Definition emit_pool (e : pool_effect) : M (ConnPool K) unit := modify (λ P,
  MkConnPool (double_link_ P) (local_conns_ P) (remote_conns_ P) (connections_ P) (conn_infos_ P)
    (links P) (next_link P) (infos P) (next_info P) (pool_trace P ++ [e])).

(** Access to objects; undefined behaviour when they have been deleted. *)
Definition load_link (p : positive) : M (ConnPool K) (Link K) :=
  l ← gets links; deref (l !! p).
Definition store_link (p : positive) (v : Link K) : M (ConnPool K) unit :=
  load_link p;; modify (λ P, set_links (<[p := v]> (links P)) (next_link P) P).
Definition delete_link (p : positive) : M (ConnPool K) unit :=
  load_link p;; modify (λ P, set_links (delete p (links P)) (next_link P) P).
Definition new_link (v : Link K) : M (ConnPool K) positive := λ P,
  Ret (next_link P) (set_links (<[next_link P := v]> (links P)) (Pos.succ (next_link P)) P).
Definition load_info (p : positive) : M (ConnPool K) ConnectionInfo :=
  l ← gets infos; deref (l !! p).
Definition delete_info (p : positive) : M (ConnPool K) unit :=
  load_info p;; modify (λ P, set_infos (delete p (infos P)) (next_info P) P).
Definition new_info (i : ConnectionInfo) : M (ConnPool K) positive := λ P,
  Ret (next_info P) (set_infos (<[next_info P := i]> (infos P)) (Pos.succ (next_info P)) P).
End set.

Section pool.
Context {K : Type} `{Kernel K} `{NetEnv} `{InfoOrder}.
Abbreviation CP := (M (ConnPool K)).

(** ** Closing *)

(** [Connection::Close] of a connection that has been initialised: its messages are
    deleted, its socket closed. *)
Definition Close (p : positive) : CP unit :=
  l ← load_link p;
  emit_pool (EventDeleted (socket_fd l));;
  let c := conn (link_world l) in
  let c := if negb (total_send_len c =? 0) then set_send_message None c else c in
  let c := set_send_message_queue [] c in
  emit_pool (SocketClosed (socket_fd l));;
  let c := set_send_metrics None c in
  store_link p (MkLink (-1) (destination l) (deleted l) (set_conn c (link_world l))).

Definition DeleteConnInfo (fd : Z) : CP unit :=
  iter ← gets (λ P, conn_infos_ P !! fd);
  match iter with
  | None => mret ()
  | Some conn_infos =>
      forM (in_order conn_infos) (λ _ linkInfo,
        i ← load_info linkInfo;
        match delete_callback i with
        | Some callback => emit_pool (Exited callback (info_to i) (info_from i))
        | None => mret ()
        end;;
        delete_info linkInfo) ();;
      modify (λ P, set_conn_infos (delete fd (conn_infos_ P)) P)
  end.

(** [DeleteConnInfo] of a connection. *)
Definition DeleteConnInfo_of (p : positive) : CP unit :=
  l ← load_link p;
  let fd := socket_fd l in
  double ← gets double_link_;
  if double : bool then DeleteConnInfo fd
  else
    store_link p (MkLink (socket_fd l) (destination l) true (link_world l));;
    l ← load_link p;
    DeleteConnInfo (socket_fd l).

Definition CloseConnection (p : positive) : CP unit :=
  l ← load_link p;
  (if deleted l then mret () else DeleteConnInfo_of p);;
  Close p;;
  delete_link p.

(** ** Connections *)

Definition FindConnection (dst_url : bytes) : CP (option positive) :=
  gets (λ P, connections_ P !! dst_url).

Definition DeleteConnection (dst_url : bytes) : CP unit :=
  found ← FindConnection dst_url;
  match found with
  | None => mret ()
  | Some p =>
      modify (λ P, set_connections (delete dst_url (connections_ P)) P);;
      CloseConnection p
  end.

Definition AddConnection (p : positive) : CP unit :=
  l ← load_link p;
  found ← FindConnection (destination l);
  (match found with
   | None => mret ()
   | Some tmpConn => load_link tmpConn;; CloseConnection tmpConn
   end);;
  l ← load_link p;
  modify (λ P, set_connections
    (match connections_ P !! destination l with
     | Some _ => connections_ P                (* [emplace] keeps what is there *)
     | None => <[destination l := p]> (connections_ P)
     end) P).

(** [DeleteAllConnections], on one of the two maps; the received message goes with
    the connection. *)
Definition DeleteAllConnections (get : ConnPool K → gmap bytes positive)
    (put : gmap bytes positive → ConnPool K → ConnPool K) : CP unit :=
  conns ← gets get;
  forM (map_to_list conns) (λ _ '(url, p), delete_link p) ();;
  modify (put ∅).

Definition ResetAllConnMetrics : CP unit :=
  conns ← gets (λ P, (map_to_list (local_conns_ P)).*2 ++ (map_to_list (remote_conns_ P)).*2);
  forM conns (λ _ p,
    l ← load_link p;
    m ← deref (send_metrics (conn (link_world l)));
    let c := set_send_metrics (Some (Reset m)) (conn (link_world l)) in
    store_link p (MkLink (socket_fd l) (destination l) (deleted l)
      (set_conn c (link_world l)))) ().

Definition SetLinkPattern (linkPattern : bool) : CP unit := modify (set_double_link linkPattern).

(** ** Connection infos *)

Definition FindConnInfo (fd : Z) (dst_url : bytes) : CP (option positive) :=
  iter ← gets (λ P, conn_infos_ P !! fd);
  match iter with
  | None => mret None
  | Some conn_infos =>
      (fix loop (l : list positive) : CP (option positive) :=
         match l with
         | [] => mret None
         | linkInfo :: l =>
             i ← load_info linkInfo;
             if bool_decide (info_to i = dst_url) then mret (Some linkInfo) else loop l
         end) (in_order conn_infos)
  end.

Definition AddConnInfo (fd : Z) (dst_url : bytes) (callback : option positive) : CP unit :=
  linker ← FindConnInfo fd dst_url;
  match linker with
  | Some _ => mret ()
  | None =>
      linker ← new_info (MkInfo fd [] dst_url callback);
      modify (λ P, set_conn_infos
        (<[fd := {[linker]} ∪ default ∅ (conn_infos_ P !! fd)]> (conn_infos_ P)) P)
  end.

Definition ReverseConnInfo (fromFd toFd : Z) : CP bool :=
  iter ← gets (λ P, conn_infos_ P !! fromFd);
  match iter with
  | None => mret false
  | Some conn_infos =>
      modify (λ P, set_conn_infos (delete fromFd (conn_infos_ P)) P);;
      modify (λ P, set_conn_infos (<[toFd := conn_infos]> (conn_infos_ P)) P);;
      mret true
  end.

Definition DeleteAllConnInfos : CP unit :=
  all ← gets (λ P, (map_to_list (conn_infos_ P)).*2);
  forM all (λ _ conn_infos, forM (in_order conn_infos) (λ _ linkInfo, delete_info linkInfo) ()) ();;
  modify (set_conn_infos ∅).

Definition Pool_Finalize : CP unit :=
  DeleteAllConnections local_conns_ set_local;;
  DeleteAllConnections remote_conns_ set_remote;;
  DeleteAllConnInfos.

(** ** [TCPComm] *)

(** A function of a connection, on an object of the pool. *)
Definition on_link {A} (p : positive) (m : M (World K) A) : CP A := λ P,
  match links P !! p with
  | None => Undef
  | Some l =>
      zoom (λ _, link_world l)
        (λ w P, set_links (<[p := MkLink (socket_fd l) (destination l) (deleted l) w]> (links P))
          (next_link P) P)
        m P
  end.

(** The task of [Send]: the bytes sent, or that the message has been dropped. *)
Definition TCPComm_Send (fuel : nat) (msg : MessageBase) (url : bytes) : CP (bool * Z) :=
  found ← FindConnection (aid_url (msg_to msg));
  match found with
  | None => mret (false, 0)
  | Some p => on_link p (Send fuel msg url)
  end.

Definition TCPComm_Flush (fuel : nat) (dst_url : bytes) : CP bool :=
  found ← FindConnection dst_url;
  match found with
  | None => mret false
  | Some p => on_link p (Flush fuel);; mret true       (* [size_t >= 0] *)
  end.

Definition IsConnected (dst_url : bytes) : CP bool :=
  found ← FindConnection dst_url;
  match found with
  | None => mret false
  | Some p => l ← load_link p; mret (bool_decide (conn_state (conn (link_world l)) = kConnected))
  end.

Definition EventCallBack (fuel : nat) (p : positive) : CP unit :=
  l ← load_link p;
  match conn_state (conn (link_world l)) with
  | kConnected => on_link p (Flush fuel);; mret ()
  | kDisconnecting =>
      current ← FindConnection (destination l);
      match current with
      | Some q =>
          l' ← load_link q;
          if bool_decide (source (conn (link_world l')) = source (conn (link_world l)))
          then DeleteConnection (destination l) else mret ()
      | None => DeleteConnection (destination l)
      end
  | _ => mret ()
  end.

(** [std::lock_guard] on a mutex of the connection: both ends touch the object. *)
Definition with_conn_lock {A} (p : positive) (m : CP A) : CP A :=
  load_link p;;
  r ← m;
  load_link p;;
  mret r.

(** The readings of [RemainingTaskNum] of the two loops while [Disconnect] waits:
    [tasks i] is what the i-th one finds. The index of the last reading of the loop. *)
Fixpoint wait_for_tasks (tasks : nat → Z * Z) (retry i : nat) : nat :=
  match retry with
  | O => i
  | S retry =>
      let '(recv, send) := tasks i in
      if negb (recv =? 0) && negb (send =? 0) then wait_for_tasks tasks retry (S i) else i
  end.

Definition Disconnect (tasks : nat → Z * Z) (dst_url : bytes) : CP bool :=
  let '(recv, send) := tasks (S (wait_for_tasks tasks 30 0)) in
  if (0 <? recv) || (0 <? send) then mret false
  else
    found ← FindConnection dst_url;
    match found with
    | None => mret true
    | Some p => with_conn_lock p (DeleteConnection dst_url);; mret true
    end.

Definition set_state (p : positive) (v : ConnectionState) : CP unit :=
  on_link p (upd_conn (set_conn_state v)).

Definition has_bits (events mask : Z) : bool := negb (Z.land events mask =? 0).

(** [SocketEventHandler] for a connection that has its callbacks. *)
Definition SocketEventHandler (fuel : nat) (fd events : Z) (p : positive) : CP unit :=
  l ← load_link p;
  if negb (fd =? socket_fd l) then
    emit_pool (EventDeleted fd);;
    set_state p kDisconnecting;;
    EventCallBack fuel p
  else
    (if has_bits events EPOLLOUT then
       on_link p (emit (UpdatedEpoll (EPOLLIN + EPOLLHUP + EPOLLERR)));;
       on_link p (WriteCallBack fuel)
     else mret ());;
    (if has_bits events EPOLLIN then on_link p (ReadCallBack fuel) else mret ());;
    with_conn_lock p (
      l ← load_link p;
      if bool_decide (conn_state (conn (link_world l)) = kDisconnecting) ||
         has_bits events (EPOLLHUP + EPOLLRDHUP + EPOLLERR)
      then set_state p kDisconnecting;; EventCallBack fuel p
      else mret ()).

Definition set_free_cb (v : MemFreeCallback) (c : Connection) : Connection :=
  MkConnection (source c) (conn_state c) (send_metrics c) (send_message c) (recv_message c)
    (recv_state c) (total_recv_len c) (total_send_len c) (recv_len c) (send_to c) (send_from c)
    (recv_to c) (recv_from c) (send_msg_header c) (recv_msg_header c) (send_kernel_msg c)
    (recv_kernel_msg c) (send_io_vec c) (recv_io_vec c) (recv_message_type c)
    (message_handler c) (send_message_queue c) (output_buffer_size c) (error_code c)
    (allocate_cb_ c) (Some v) (advertise_addr_ c).

(** [SetMessageFreeCallback]. *)
Definition SetMessageFreeCallback (p : positive) (free_cb : MemFreeCallback) : CP unit :=
  on_link p (upd_conn (set_free_cb free_cb)).

(** [Connect]. [made] is the connection that the system calls in its middle have
    made, after the time it waits for the connection to be established: [None] when
    the address is invalid, or no socket can be had or connected. *)
Definition Connect (made : option (Link K)) (dst_url : bytes) (free_cb : MemFreeCallback)
    : CP bool :=
  found ← FindConnection dst_url;
  connected ← match found with
    | Some p => mret (Some p)
    | None =>
        match made with
        | None => mret None
        | Some l =>
            p ← new_link l;
            if negb (bool_decide (conn_state (conn (link_world l)) = kConnected)) then mret None
            else
              AddConnection p;;
              SetMessageFreeCallback p free_cb;;
              mret (Some p)
        end
    end;
  match connected with
  | None => mret false
  | Some p =>
      l ← load_link p;
      AddConnInfo (socket_fd l) dst_url None;;
      mret true
  end.
End pool.
