(* ===== verification/ConnPoolInvariant.v ===== *)
(** * The invariant of the connection pool

    What the pool maps addresses to is alive and connects to that address; an fd has
    at most one [ConnectionInfo] for an address. The operations keep this. *)

From S2P Require Import Prelude NetBytes NetMessage NetState NetSocket Connection ConnectionPool.

Section invariant.
Context {K : Type} `{Kernel K} `{NetEnv} `{InfoOrder}.
Implicit Types (P : ConnPool K) (p : positive) (fd : Z).

Record infos_ok P : Prop := {
  info_alive fd X p : conn_infos_ P !! fd = Some X → p ∈ X →
    ∃ i, infos P !! p = Some i ∧ info_fd i = fd;
  info_unique fd X p q i j : conn_infos_ P !! fd = Some X → p ∈ X → q ∈ X →
    infos P !! p = Some i → infos P !! q = Some j → info_to i = info_to j → p = q;
  info_fresh p : is_Some (infos P !! p) → (p < next_info P)%positive;
}.

Record conns_ok P : Prop := {
  conn_alive d p : connections_ P !! d = Some p →
    ∃ l, links P !! p = Some l ∧ destination l = d;
  conn_fresh p : is_Some (links P !! p) → (p < next_link P)%positive;
  conn_local : local_conns_ P = ∅;
  conn_remote : remote_conns_ P = ∅;
}.

Record pool_inv P : Prop := {
  pool_infos :> infos_ok P;
  pool_conns :> conns_ok P;
}.

(** The connections of the pool, by address. *)
Definition contents P : gmap bytes (Link K) := omap (λ p, links P !! p) (connections_ P).

(** What stays as it is when infos are added or deleted. *)
Definition conn_part P :=
  (double_link_ P, local_conns_ P, remote_conns_ P, connections_ P, links P, next_link P).
Definition info_part P := (conn_infos_ P, infos P, next_info P).

Lemma conns_ok_ext P P' : conn_part P' = conn_part P → conns_ok P → conns_ok P'.
Proof. intros [= _ E1 E2 E3 E4 E5] []. split; rewrite ?E1, ?E2, ?E3, ?E4, ?E5; auto. Qed.

Lemma infos_ok_ext P P' : info_part P' = info_part P → infos_ok P → infos_ok P'.
Proof. intros [= E1 E2 E3] []. split; rewrite ?E1, ?E2, ?E3; auto. Qed.

Lemma contents_ext P P' : conn_part P' = conn_part P → contents P' = contents P.
Proof. intros [= _ _ _ E3 E4 _]. unfold contents. by rewrite E3, E4. Qed.

Lemma lookup_contents P d : contents P !! d = connections_ P !! d ≫= λ p, links P !! p.
Proof. apply lookup_omap. Qed.

Lemma contents_Some P d p : connections_ P !! d = Some p → contents P !! d = links P !! p.
Proof. intros Hd. by rewrite lookup_contents, Hd. Qed.

Lemma contents_None P d : conns_ok P → contents P !! d = None ↔ connections_ P !! d = None.
Proof.
  intros Hok. rewrite lookup_contents. destruct (connections_ P !! d) as [p|] eqn:Hd; [|done].
  destruct (conn_alive _ Hok _ _ Hd) as (l & Hl & _). simpl. by rewrite Hl.
Qed.

(** ** Access *)

Lemma wp_load_link p l P (Q : Link K → ConnPool K → Prop) :
  links P !! p = Some l → Q l P → wp (load_link p) P Q.
Proof. intros Hp HQ. unfold load_link. wp_steps. by apply (wp_deref _ l). Qed.

Lemma wp_store_link p v P (Q : unit → ConnPool K → Prop) :
  is_Some (links P !! p) →
  Q () (set_links (<[p := v]> (links P)) (next_link P) P) → wp (store_link p v) P Q.
Proof. intros [l Hl] HQ. unfold store_link. wp_steps. apply (wp_load_link p l); [done|]. by wp_steps. Qed.

Lemma wp_delete_link p P (Q : unit → ConnPool K → Prop) :
  is_Some (links P !! p) →
  Q () (set_links (delete p (links P)) (next_link P) P) → wp (delete_link p) P Q.
Proof. intros [l Hl] HQ. unfold delete_link. wp_steps. apply (wp_load_link p l); [done|]. by wp_steps. Qed.

Lemma wp_load_info p i P (Q : ConnectionInfo → ConnPool K → Prop) :
  infos P !! p = Some i → Q i P → wp (load_info p) P Q.
Proof. intros Hp HQ. unfold load_info. wp_steps. by apply (wp_deref _ i). Qed.

Lemma wp_delete_info p P (Q : unit → ConnPool K → Prop) :
  is_Some (infos P !! p) →
  Q () (set_infos (delete p (infos P)) (next_info P) P) → wp (delete_info p) P Q.
Proof. intros [l Hl] HQ. unfold delete_info. wp_steps. apply (wp_load_info p l); [done|]. by wp_steps. Qed.

Lemma wp_on_link {A} p l (m : M (World K) A) P (Q : A → ConnPool K → Prop) :
  links P !! p = Some l →
  wp m (link_world l) (λ a w, Q a (set_links
    (<[p := MkLink (socket_fd l) (destination l) (deleted l) w]> (links P)) (next_link P) P)) →
  wp (on_link p m) P Q.
Proof. intros Hp Hm. unfold wp at 1, on_link. rewrite Hp. by apply wp_zoom. Qed.

(** ** Infos *)

(** The calls of delete callbacks for the infos of an fd, in some order. *)
Definition exit_of P p : option pool_effect :=
  i ← infos P !! p; cb ← delete_callback i; Some (Exited cb (info_to i) (info_from i)).

Definition exits P (l : list positive) : list pool_effect := omap (exit_of P) l.

Lemma exits_cons P p l : exits P (p :: l) = exits P [p] ++ exits P l.
Proof. exact (omap_app _ [p] l). Qed.

Definition infos_of P fd : list positive := elements (default ∅ (conn_infos_ P !! fd)).

Lemma in_order_NoDup X : NoDup (in_order X).
Proof. rewrite in_order_spec. apply NoDup_elements. Qed.

Lemma elem_of_in_order X p : p ∈ in_order X ↔ p ∈ X.
Proof. by rewrite in_order_spec, elem_of_elements. Qed.

(** The loop of [DeleteConnInfo] over some infos. *)
Definition delete_infos (l : list positive) : M (ConnPool K) unit :=
  forM l (λ _ linkInfo,
    i ← load_info linkInfo;
    match delete_callback i with
    | Some callback => emit_pool (Exited callback (info_to i) (info_from i))
    | None => mret ()
    end;;
    delete_info linkInfo) ().

Lemma delete_infos_spec l P : NoDup l → (∀ p, p ∈ l → is_Some (infos P !! p)) →
  wp (delete_infos l) P (λ _ P', conn_part P' = conn_part P ∧
    conn_infos_ P' = conn_infos_ P ∧ next_info P' = next_info P ∧
    pool_trace P' = pool_trace P ++ exits P l ∧
    ∀ p, infos P' !! p = if bool_decide (p ∈ l) then None else infos P !! p).
Proof.
  revert P. induction l as [|q l IH]; intros P Hnd Hlive; unfold delete_infos; cbn [forM].
  { apply wp_ret. rewrite app_nil_r. by split_and!. }
  apply NoDup_cons in Hnd as [Hq Hnd].
  destruct (Hlive q) as [i Hi]; [constructor|]. wp_steps. apply (wp_load_info q i); [done|].
  set (P1 := MkConnPool (double_link_ P) (local_conns_ P) (remote_conns_ P) (connections_ P)
    (conn_infos_ P) (links P) (next_link P) (infos P) (next_info P)
    (pool_trace P ++ exits P [q])).
  assert (wp (match delete_callback i with
    | Some callback => emit_pool (Exited callback (info_to i) (info_from i))
    | None => mret ()
    end) P (λ _ P', P' = P1)) as Hcall.
  { unfold P1, exits, exit_of. simpl. rewrite Hi. simpl.
    destruct (delete_callback i); simpl; [done|]. apply wp_ret. rewrite app_nil_r. by destruct P. }
  apply wp_bind. eapply wp_mono; [exact Hcall|]. intros _ ? ->.
  apply wp_delete_info; [by exists i|].
  eapply wp_mono; [apply IH; [done|]|].
  { intros p Hp. simpl. rewrite lookup_delete_ne by (intros <-; done). apply Hlive. by constructor. }
  intros _ P' (E1 & E2 & E3 & E4 & E5). split; [done|]. split; [done|]. split; [done|].
  split.
  - rewrite E4, exits_cons, app_assoc. f_equal. apply list_omap_ext, Forall2_same_length_lookup_2; [done|].
    intros j x y Hx Hy. assert (x = y) as -> by congruence.
    unfold exit_of. simpl. rewrite lookup_delete_ne; [done|].
    intros ->. apply Hq. by eapply list_elem_of_lookup_2.
  - intros p. rewrite E5. simpl. repeat case_bool_decide; try done.
    + exfalso. set_solver.
    + apply elem_of_cons in H3 as [->|?]; [apply lookup_delete_eq|done].
    + rewrite lookup_delete_ne; [done|]. intros <-. apply H3. constructor.
Qed.

Lemma DeleteConnInfo_spec fd P : infos_ok P →
  wp (DeleteConnInfo fd) P (λ _ P', conn_part P' = conn_part P ∧ infos_ok P' ∧
    conn_infos_ P' = delete fd (conn_infos_ P) ∧
    ∃ l, l ≡ₚ infos_of P fd ∧ pool_trace P' = pool_trace P ++ exits P l).
Proof.
  intros Hok. unfold DeleteConnInfo, infos_of. wp_steps.
  destruct (conn_infos_ P !! fd) as [X|] eqn:HX; cycle 1.
  { wp_steps. split; [done|]. split; [done|]. split; [by rewrite delete_id|].
    exists []. split; [by simpl; rewrite elements_empty|by rewrite app_nil_r]. }
  apply wp_bind. eapply wp_mono.
  { apply delete_infos_spec; [apply in_order_NoDup|]. intros p Hp.
    apply elem_of_in_order in Hp. destruct (info_alive _ Hok _ _ _ HX Hp) as (i & ? & _). by exists i. }
  intros _ P' (E1 & E2 & E3 & E4 & E5). wp_steps.
  split; [done|]. split; [|split; [simpl; by rewrite E2|]].
  - destruct Hok as [A1 A2 A3].
    assert (∀ p i, infos P' !! p = Some i → infos P !! p = Some i ∧ p ∉ X) as Hsub.
    { intros p i. rewrite E5. case_bool_decide as Hp; [done|]. rewrite elem_of_in_order in Hp. done. }
    split; simpl; rewrite ?E2.
    + intros fd' Y p HY Hp. apply lookup_delete_Some in HY as [Hne HY].
      destruct (A1 _ _ _ HY Hp) as (i & Hi & Hfd). exists i. split; [|done].
      rewrite E5, bool_decide_eq_false_2; [done|]. rewrite elem_of_in_order. intros HpX.
      destruct (A1 _ _ _ HX HpX) as (i' & ? & ?). congruence.
    + intros fd' Y p q i j HY Hp Hq Hi Hj. apply lookup_delete_Some in HY as [Hne HY].
      apply Hsub in Hi as [Hi _]. apply Hsub in Hj as [Hj _]. eauto.
    + intros p [i Hi]. apply Hsub in Hi as [Hi _]. rewrite E3. apply A3. by exists i.
  - exists (in_order X). split; [apply in_order_spec|]. simpl. done.
Qed.

(** ** Closing *)

(** What closing the connection [l] reports. *)
Definition closed P (l : Link K) (t : list pool_effect) : Prop :=
  ∃ ids, (if deleted l then ids = [] else ids ≡ₚ infos_of P (socket_fd l)) ∧
    t = exits P ids ++ [EventDeleted (socket_fd l); SocketClosed (socket_fd l)].

Lemma Close_spec p l P : links P !! p = Some l →
  wp (Close p) P (λ _ P', info_part P' = info_part P ∧ connections_ P' = connections_ P ∧
    double_link_ P' = double_link_ P ∧ next_link P' = next_link P ∧
    local_conns_ P' = local_conns_ P ∧ remote_conns_ P' = remote_conns_ P ∧
    (∃ v, links P' = <[p := v]> (links P)) ∧
    pool_trace P' = pool_trace P ++ [EventDeleted (socket_fd l); SocketClosed (socket_fd l)]).
Proof.
  intros Hl. unfold Close, emit_pool. wp_steps. apply (wp_load_link p l); [done|]. wp_steps.
  apply wp_store_link; [simpl; by exists l|]. simpl. split_and!; try done; [by eexists|].
  by rewrite <- app_assoc.
Qed.

Lemma CloseConnection_spec p l P : infos_ok P → links P !! p = Some l →
  wp (CloseConnection p) P (λ _ P', infos_ok P' ∧ connections_ P' = connections_ P ∧
    double_link_ P' = double_link_ P ∧ next_link P' = next_link P ∧
    local_conns_ P' = local_conns_ P ∧ remote_conns_ P' = remote_conns_ P ∧
    links P' = delete p (links P) ∧
    conn_infos_ P' = (if deleted l then conn_infos_ P else delete (socket_fd l) (conn_infos_ P)) ∧
    ∃ t, closed P l t ∧ pool_trace P' = pool_trace P ++ t).
Proof.
  intros Hok Hl. unfold CloseConnection. wp_steps. apply (wp_load_link p l); [done|].
  assert (wp (if deleted l then mret () else DeleteConnInfo_of p) P (λ _ P1, infos_ok P1 ∧
    connections_ P1 = connections_ P ∧ double_link_ P1 = double_link_ P ∧
    next_link P1 = next_link P ∧ local_conns_ P1 = local_conns_ P ∧
    remote_conns_ P1 = remote_conns_ P ∧ delete p (links P1) = delete p (links P) ∧
    (∃ l1, links P1 !! p = Some l1 ∧ socket_fd l1 = socket_fd l) ∧
    conn_infos_ P1 = (if deleted l then conn_infos_ P else delete (socket_fd l) (conn_infos_ P)) ∧
    ∃ ids, (if deleted l then ids = [] else ids ≡ₚ infos_of P (socket_fd l)) ∧
      pool_trace P1 = pool_trace P ++ exits P ids)) as Hfirst.
  { destruct (deleted l) eqn:Hdel.
    - wp_steps. split_and!; try done; [by exists l|]. exists []. by rewrite app_nil_r.
    - unfold DeleteConnInfo_of. wp_steps. apply (wp_load_link p l); [done|]. wp_steps.
      destruct (double_link_ P) eqn:Hdl.
      + eapply wp_mono; [by apply DeleteConnInfo_spec|].
        intros _ P1 ([= F1 F2 F3 F4 F5 F6] & Hok1 & Hci & ids & His & Ht).
        split_and!; try done; try congruence; [exists l; by rewrite F5|by exists ids].
      + apply wp_bind, wp_store_link; [by exists l|].
        set (P0 := set_links _ _ P). set (l0 := MkLink (socket_fd l) (destination l) true (link_world l)).
        apply wp_bind, (wp_load_link p l0); [simpl; apply lookup_insert_eq|].
        eapply wp_mono; [apply (DeleteConnInfo_spec _ P0); by apply (infos_ok_ext P)|].
        intros _ P1 ([= F1 F2 F3 F4 F5 F6] & Hok1 & Hci & ids & His & Ht).
        split_and!; try done; try congruence.
        * rewrite F5. apply delete_insert_eq.
        * exists l0. rewrite F5. split; [apply lookup_insert_eq|done].
        * by exists ids. }
  apply wp_bind. eapply wp_mono; [exact Hfirst|].
  intros _ P1 (Hok1 & E1 & E2 & E3 & E4 & E5 & E6 & (l1 & Hl1 & Hfd) & E7 & ids & His & Ht).
  apply wp_bind. eapply wp_mono; [by apply (Close_spec p l1)|].
  intros _ P2 ([= G1 G2 G3] & G4 & G5 & G6 & G7 & G8 & (v & G9) & G10).
  apply wp_delete_link; [rewrite G9, lookup_insert_eq; by eexists|].
  assert (infos_ok P2) as Hok2 by (eapply infos_ok_ext; [|exact Hok1]; unfold info_part; congruence).
  split_and!; simpl; try congruence.
  - by apply (infos_ok_ext P2).
  - by rewrite G9, delete_insert_eq.
  - exists (exits P ids ++ [EventDeleted (socket_fd l); SocketClosed (socket_fd l)]).
    split; [by exists ids|]. by rewrite G10, Ht, Hfd, app_assoc.
Qed.
End invariant.

(** * Operations of the connection pool

    What adding, deleting and using a connection does to the pool and to the map of
    its connections by address. *)

Section operations.
Context {K : Type} `{Kernel K} `{NetEnv} `{InfoOrder}.
Implicit Types (P : ConnPool K) (p : positive) (fd : Z) (d : bytes).

(** ** Infos *)

Definition has_info P fd d : Prop :=
  ∃ X p i, conn_infos_ P !! fd = Some X ∧ p ∈ X ∧ infos P !! p = Some i ∧ info_to i = d.

Lemma FindConnInfo_spec fd d P : infos_ok P →
  wp (FindConnInfo fd d) P (λ r P', P' = P ∧
    (is_Some r ∧ has_info P fd d ∨ r = None ∧ ¬ has_info P fd d)).
Proof.
  intros Hok. unfold FindConnInfo. wp_steps.
  destruct (conn_infos_ P !! fd) as [X|] eqn:HX; cycle 1.
  { wp_steps. split; [done|]. right. split; [done|]. intros (X & ? & ? & ? & _). congruence. }
  set (loop := fix loop (l : list positive) : M (ConnPool K) (option positive) := _).
  assert (∀ l, (∀ p, p ∈ l → p ∈ X) →
    wp (loop l) P (λ r P', P' = P ∧ (is_Some r ∧ has_info P fd d ∨
      r = None ∧ ∀ p i, p ∈ l → infos P !! p = Some i → info_to i ≠ d))) as Hloop.
  { induction l as [|q l IH]; intros Hl; simpl.
    - apply wp_ret. split; [done|]. right. split; [done|]. intros p i Hp. by apply elem_of_nil in Hp.
    - assert (q ∈ X) as Hq by (apply Hl; constructor).
      destruct (info_alive _ Hok _ _ _ HX Hq) as (i & Hi & _).
      apply wp_bind, (wp_load_info q i); [done|]. case_bool_decide as Hto.
      + wp_steps. split; [done|]. left. split; [done|]. by exists X, q, i.
      + eapply wp_mono; [apply IH; intros; apply Hl; by constructor|].
        intros r P' (-> & [?|(-> & Hn)]); (split; [done|]); [by left|]. right. split; [done|].
        intros p j [->|Hp]%elem_of_cons Hj; [congruence|eauto]. }
  eapply wp_mono; [apply (Hloop (in_order X)); intros p; by rewrite elem_of_in_order|].
  intros r P' (-> & [?|(-> & Hn)]); (split; [done|]); [by left|]. right. split; [done|].
  intros (Y & p & i & HY & Hp & Hi & Hto). simplify_eq. eapply Hn; [|done..].
  by rewrite elem_of_in_order.
Qed.

Lemma AddConnInfo_spec fd d cb P : infos_ok P →
  wp (AddConnInfo fd d cb) P (λ _ P', infos_ok P' ∧ conn_part P' = conn_part P ∧
    pool_trace P' = pool_trace P ∧ has_info P' fd d).
Proof.
  intros Hok. unfold AddConnInfo. apply wp_bind.
  eapply wp_mono; [by apply FindConnInfo_spec|]. intros r P' (-> & [[[p ->] Hi]|[-> Hn]]).
  { by wp_steps. }
  destruct Hok as [A1 A2 A3]. apply wp_bind. unfold new_info, wp at 1. wp_steps.
  set (n := next_info P) in *. set (j := MkInfo fd [] d cb). set (X0 := default ∅ (conn_infos_ P !! fd)).
  assert (infos P !! n = None) as Hfresh.
  { destruct (infos P !! n) eqn:Hx; [|done]. pose proof (A3 n (mk_is_Some _ _ Hx)). lia. }
  assert (∀ q i, infos P !! q = Some i → q ≠ n) as Hne by (intros q i ? ->; congruence).
  assert (∀ fd' X q, conn_infos_ P !! fd' = Some X → q ∈ X → q ≠ n) as Hin.
  { intros fd' X q HX Hq. destruct (A1 _ _ _ HX Hq) as (i & Hi & _). eauto. }
  assert (∀ q, q ∈ X0 → ∃ X, conn_infos_ P !! fd = Some X ∧ q ∈ X) as HX0.
  { unfold X0. intros q Hq. destruct (conn_infos_ P !! fd) as [X|]; [by exists X|]. set_solver. }
  split_and!; try done; cycle 1.
  { exists ({[n]} ∪ X0), n, j. simpl. rewrite !lookup_insert_eq. split_and!; [done|set_solver|done..]. }
  split; simpl.
  - intros fd' X q. rewrite lookup_insert_Some. intros [[<- <-]|[Hfd HX]] Hq.
    + apply elem_of_union in Hq as [->%elem_of_singleton|Hq].
      * exists j. by rewrite lookup_insert_eq.
      * destruct (HX0 _ Hq) as (X & HX & HqX). destruct (A1 _ _ _ HX HqX) as (i & Hi & ?).
        exists i. rewrite lookup_insert_ne; [done|]. intros <-. by apply (Hin _ _ _ HX HqX).
    + destruct (A1 _ _ _ HX Hq) as (i & Hi & ?). exists i.
      rewrite lookup_insert_ne; [done|]. intros <-. by apply (Hin _ _ _ HX Hq).
  - assert (∀ q i, q ∈ X0 → infos P !! q = Some i → info_to i ≠ d) as Hnew.
    { intros q i Hq Hi Hto. destruct (HX0 _ Hq) as (X & HX & HqX). apply Hn. by exists X, q, i. }
    assert (∀ q i, q ∈ X0 → <[n := j]> (infos P) !! q = Some i → infos P !! q = Some i) as Hold.
    { intros q i Hq. destruct (HX0 _ Hq) as (X & HX & HqX).
      rewrite lookup_insert_ne; [done|]. intros <-. by apply (Hin _ _ _ HX HqX). }
    intros fd' X p q i k. rewrite lookup_insert_Some. intros [[<- <-]|[Hfd HX]] Hp Hq Hi Hk Hto.
    + apply elem_of_union in Hp as [->%elem_of_singleton|Hp];
        apply elem_of_union in Hq as [->%elem_of_singleton|Hq]; [done|..].
      * rewrite lookup_insert_eq in Hi. injection Hi as <-. apply Hold in Hk; [|done].
        by destruct (Hnew q k Hq Hk).
      * rewrite lookup_insert_eq in Hk. injection Hk as <-. apply Hold in Hi; [|done].
        by destruct (Hnew p i Hp Hi).
      * destruct (HX0 _ Hp) as (X & HX & HpX). destruct (HX0 _ Hq) as (Y & HY & HqY).
        rewrite HX in HY. injection HY as <-. eauto.
    + rewrite lookup_insert_ne in Hi by (intros <-; by apply (Hin _ _ _ HX Hp)).
      rewrite lookup_insert_ne in Hk by (intros <-; by apply (Hin _ _ _ HX Hq)). eauto.
  - intros q [i Hi]. destruct (decide (q = n)) as [->|Hqn]; [lia|].
    rewrite lookup_insert_ne in Hi by done. pose proof (A3 q (mk_is_Some _ _ Hi)). lia.
Qed.

(** ** Connections *)

Lemma DeleteConnection_spec d P : pool_inv P →
  wp (DeleteConnection d) P (λ _ P', pool_inv P' ∧ contents P' = delete d (contents P) ∧
    match connections_ P !! d with
    | None => P' = P
    | Some p => ∃ l t, links P !! p = Some l ∧ links P' = delete p (links P) ∧ closed P l t ∧
        pool_trace P' = pool_trace P ++ t ∧
        conn_infos_ P' = (if deleted l then conn_infos_ P else delete (socket_fd l) (conn_infos_ P))
    end).
Proof.
  intros Hinv. unfold DeleteConnection, FindConnection. wp_steps.
  destruct (connections_ P !! d) as [p|] eqn:Hd; cycle 1.
  { wp_steps. split_and!; [done| |done]. rewrite delete_id; [done|]. by apply contents_None; [apply Hinv|]. }
  destruct (conn_alive _ Hinv _ _ Hd) as (l & Hl & Hdst). wp_steps.
  set (P0 := set_connections _ P).
  eapply wp_mono; [apply (CloseConnection_spec p l P0); [|done]|].
  { apply (infos_ok_ext P); [done|apply Hinv]. }
  intros _ P' (Hok & E1 & E2 & E3 & E4 & E5 & E6 & E7 & t & Ht & Htr). simpl in *.
  assert (∀ d' q, connections_ P !! d' = Some q → d' ≠ d → q ≠ p) as Hother.
  { intros d' q Hq Hne ->. destruct (conn_alive _ Hinv _ _ Hq) as (l' & Hl' & ?). congruence. }
  assert (links P' = delete p (links P)) as El by congruence.
  split_and!.
  - split; [done|]. destruct Hinv as [_ [B1 B2 B3 B4]]. split; rewrite ?E1, ?E3, ?E4, ?E5, ?El; try done.
    + intros d' q. rewrite lookup_delete_Some. intros [Hne Hq].
      destruct (B1 _ _ Hq) as (l' & Hl' & ?). exists l'. split; [|done].
      rewrite lookup_delete_ne; [done|]. intros <-. by apply (Hother d' p).
    + intros q Hq. apply B2. destruct Hq as [l' Hl']. apply lookup_delete_Some in Hl' as [_ ?].
      by exists l'.
  - apply map_eq. intros d'. rewrite !lookup_contents, E1, El. simpl.
    destruct (decide (d' = d)) as [->|Hne]; [by rewrite !lookup_delete_eq|].
    rewrite !lookup_delete_ne, lookup_contents by done.
    destruct (connections_ P !! d') as [q|] eqn:Hq; [|done]. simpl.
    rewrite lookup_delete_ne; [done|]. intros <-. by apply (Hother d' p).
  - exists l, t. split_and!; try done.
Qed.

(** A connection for an address without one. *)
Lemma AddConnection_spec p l P : pool_inv P → links P !! p = Some l →
  connections_ P !! destination l = None →
  wp (AddConnection p) P (λ _ P', pool_inv P' ∧ links P' = links P ∧ infos P' = infos P ∧
    connections_ P' = <[destination l := p]> (connections_ P) ∧ pool_trace P' = pool_trace P).
Proof.
  intros Hinv Hl Hd. unfold AddConnection, FindConnection. wp_steps.
  apply (wp_load_link p l); [done|]. wp_steps. rewrite Hd. wp_steps.
  apply (wp_load_link p l); [done|]. wp_steps. rewrite Hd. split_and!; try done.
  destruct Hinv as [Hi [B1 B2 B3 B4]]. split; [by apply (infos_ok_ext P)|]. split; simpl; try done.
  intros d q. rewrite lookup_insert_Some. intros [[<- <-]|[? ?]]; [by exists l|eauto].
Qed.

(** A function of a connection changes that connection only. *)
Lemma on_link_spec {A} d p l (m : M (World K) A) P (Q : A → World K → Prop) : pool_inv P →
  connections_ P !! d = Some p → links P !! p = Some l → wp m (link_world l) Q →
  wp (on_link p m) P (λ a P', ∃ w, Q a w ∧ m (link_world l) = Ret a w ∧ pool_inv P' ∧
    contents P' = <[d := MkLink (socket_fd l) (destination l) (deleted l) w]> (contents P) ∧
    connections_ P' = connections_ P ∧ infos P' = infos P ∧ pool_trace P' = pool_trace P ∧
    links P' = <[p := MkLink (socket_fd l) (destination l) (deleted l) w]> (links P)).
Proof.
  intros Hinv Hd Hl Hm. apply (wp_on_link p l); [done|].
  apply wp_inv in Hm as (a & w & E & HQ). apply (wp_value _ _ _ _ _ E).
  exists w. split; [done|]. split; [done|].
  set (l' := MkLink (socket_fd l) (destination l) (deleted l) w).
  assert (∀ d' q, connections_ P !! d' = Some q → d' ≠ d → q ≠ p) as Hother.
  { intros d' q Hq Hne ->. destruct (conn_alive _ Hinv _ _ Hq) as (? & ? & ?).
    destruct (conn_alive _ Hinv _ _ Hd) as (? & ? & ?). congruence. }
  split_and!; try done.
  - pose proof (conn_alive _ Hinv _ _ Hd) as (l0 & Hl0 & Hdst). simplify_eq.
    destruct Hinv as [Hi [B1 B2 B3 B4]]. split; [by apply (infos_ok_ext P)|]. split; simpl; try done.
    + intros d' q Hq. destruct (decide (q = p)) as [->|Hqp].
      * exists l'. rewrite lookup_insert_eq. split; [done|]. destruct (B1 _ _ Hq) as (? & ? & ?).
        simpl. congruence.
      * rewrite lookup_insert_ne by done. eauto.
    + intros q [v Hv]. apply B2. rewrite lookup_insert_Some in Hv.
      destruct Hv as [[<- _]|[_ Hv]]; eauto.
  - apply map_eq. intros d'. rewrite lookup_contents. simpl.
    destruct (decide (d' = d)) as [->|Hne].
    + rewrite Hd, lookup_insert_eq. simpl. by rewrite lookup_insert_eq.
    + rewrite lookup_insert_ne, lookup_contents by done.
      destruct (connections_ P !! d') as [q|] eqn:Hq; [|done]. simpl.
      rewrite lookup_insert_ne; [done|]. intros <-. by apply (Hother d' p).
Qed.
End operations.
