(* ===== verification/ConnPoolTheorems.v ===== *)
(** * Properties of the connection pool

    A pool of connections is a map from addresses to connections - as long as no
    connection replaces another one, and nobody holds the lock of a connection that
    is deleted. *)

From S2P Require Import Prelude NetBytes NetMessage NetState NetSocket NetReceive Connection.
From S2P Require Import NetParse NetStream NetSend NetExample ConnectionPool ConnPoolInvariant.

(** What a client asks of [TCPComm]. *)
Inductive pool_request (K : Type) :=
| PoolConnect (made : option (Link K)) (dst_url : bytes) (free_cb : MemFreeCallback)
| PoolSend (fuel : nat) (msg : MessageBase) (url : bytes)
| PoolDelete (dst_url : bytes).
Arguments PoolConnect {K}. Arguments PoolSend {K}. Arguments PoolDelete {K}.

Section theorems.
Context {K : Type} `{Kernel K} `{NetEnv} `{InfoOrder}.
Implicit Types (P : ConnPool K) (p : positive) (fd : Z) (d : bytes) (A : gmap bytes (Link K)).

Definition perform_pool (q : pool_request K) : M (ConnPool K) (bool * Z) :=
  match q with
  | PoolConnect made dst_url free_cb => ok ← Connect made dst_url free_cb; mret (ok, 0)
  | PoolSend fuel msg url => TCPComm_Send fuel msg url
  | PoolDelete dst_url => DeleteConnection dst_url;; mret (true, 0)
  end.

Definition connected (l : Link K) : Prop := conn_state (conn (link_world l)) = kConnected.

Definition with_world (w : World K) (l : Link K) : Link K :=
  MkLink (socket_fd l) (destination l) (deleted l) w.

(** The contract: a map from addresses to connections. A client connects to the
    address it names, and what it sends over a connection can be sent. *)
Definition pool_admissible A (q : pool_request K) : Prop :=
  match q with
  | PoolConnect (Some l) dst_url _ => destination l = dst_url
  | PoolConnect None _ _ => True
  | PoolSend fuel msg url =>
      ∀ l, A !! aid_url (msg_to msg) = Some l → wp (Send fuel msg url) (link_world l) (λ _ _, True)
  | PoolDelete _ => True
  end.

Inductive pool_contract A : pool_request K → bool * Z → gmap bytes (Link K) → Prop :=
| contract_connected l made d cb : A !! d = Some l →
    pool_contract A (PoolConnect made d cb) (true, 0) A
| contract_refused made d cb : A !! d = None → (∀ l, made = Some l → ¬ connected l) →
    pool_contract A (PoolConnect made d cb) (false, 0) A
| contract_new l d cb : A !! d = None → connected l →
    pool_contract A (PoolConnect (Some l) d cb) (true, 0)
      (<[d := with_world (set_conn (set_free_cb cb (conn (link_world l))) (link_world l)) l]> A)
| contract_dropped fuel msg url : A !! aid_url (msg_to msg) = None →
    pool_contract A (PoolSend fuel msg url) (false, 0) A
| contract_sent fuel msg url l r w : A !! aid_url (msg_to msg) = Some l →
    Send fuel msg url (link_world l) = Ret r w →
    pool_contract A (PoolSend fuel msg url) r (<[aid_url (msg_to msg) := with_world w l]> A)
| contract_deleted d : pool_contract A (PoolDelete d) (true, 0) (delete d A).

Lemma new_link_spec l P : pool_inv P →
  wp (new_link l) P (λ p P', pool_inv P' ∧ links P' !! p = Some l ∧
    connections_ P' = connections_ P ∧ contents P' = contents P).
Proof.
  intros [Hi [B1 B2 B3 B4]]. unfold new_link, wp. set (n := next_link P) in *.
  assert (∀ q v, links P !! q = Some v → q ≠ n) as Hne.
  { intros q v Hq ->. pose proof (B2 _ (mk_is_Some _ _ Hq)). lia. }
  split_and!.
  - split; [by apply (infos_ok_ext P)|]. split; simpl; try done.
    + intros d q Hq. destruct (B1 _ _ Hq) as (v & Hv & ?). exists v.
      rewrite lookup_insert_ne; [done|]. intros <-. by apply (Hne _ _ Hv).
    + intros q [v Hv]. rewrite lookup_insert_Some in Hv. destruct Hv as [[<- _]|[_ Hv]]; [lia|].
      pose proof (B2 q (mk_is_Some _ _ Hv)). lia.
  - simpl. apply lookup_insert_eq.
  - done.
  - apply map_eq. intros d. rewrite !lookup_contents. simpl.
    destruct (connections_ P !! d) as [q|] eqn:Hq; [|done]. simpl.
    destruct (B1 _ _ Hq) as (v & Hv & _). rewrite lookup_insert_ne; [done|].
    intros <-. by apply (Hne _ _ Hv).
Qed.

Lemma Connect_end p l d P : pool_inv P → links P !! p = Some l →
  wp (AddConnInfo (socket_fd l) d None) P (λ _ P', pool_inv P' ∧ contents P' = contents P).
Proof.
  intros Hinv Hl. eapply wp_mono; [apply AddConnInfo_spec, Hinv|].
  intros _ P' (Hi & Hc & _ & _). split; [|by apply contents_ext].
  split; [done|]. eapply conns_ok_ext; [done|apply Hinv].
Qed.

Lemma Connect_spec made d cb P : pool_inv P → pool_admissible (contents P) (PoolConnect made d cb) →
  wp (Connect made d cb) P (λ ok P', pool_inv P' ∧
    pool_contract (contents P) (PoolConnect made d cb) (ok, 0) (contents P')).
Proof.
  intros Hinv Hadm. unfold Connect, FindConnection. wp_steps.
  destruct (connections_ P !! d) as [p|] eqn:Hd.
  { destruct (conn_alive _ Hinv _ _ Hd) as (l & Hl & _). wp_steps. apply (wp_load_link p l); [done|].
    apply wp_bind. eapply wp_mono; [by apply (Connect_end p l)|]. intros _ P' [? Hc]. wp_steps.
    split; [done|]. rewrite Hc. apply (contract_connected _ l). by rewrite (contents_Some _ _ p). }
  assert (contents P !! d = None) as Hnone by (apply contents_None; [apply Hinv|done]).
  destruct made as [l|]; cycle 1.
  { wp_steps. split; [done|]. by apply contract_refused. }
  simpl in Hadm. subst d. apply wp_bind. eapply wp_mono; [by apply new_link_spec|].
  intros p P1 (Hi1 & Hl1 & Ec1 & Ea1).
  case_bool_decide as Hs; simpl; cycle 1.
  { wp_steps. split; [done|]. rewrite Ea1. apply contract_refused; [done|]. by intros ? [= <-]. }
  apply wp_bind. eapply wp_mono; [apply (AddConnection_spec p l); [done..|by rewrite Ec1]|].
  intros _ P2 (Hi2 & El2 & _ & Ec2 & _). apply wp_bind. unfold SetMessageFreeCallback.
  set (l' := with_world (set_conn (set_free_cb cb (conn (link_world l))) (link_world l)) l).
  eapply wp_mono.
  { apply (on_link_spec (destination l) p l _ P2
      (λ _ w, w = set_conn (set_free_cb cb (conn (link_world l))) (link_world l))); try done.
    - rewrite Ec2. apply lookup_insert_eq.
    - by rewrite El2. }
  intros _ P3 (w & -> & _ & Hi3 & Ea3 & Ec3 & _ & _ & El3). wp_steps.
  apply (wp_load_link p l'); [rewrite El3; apply lookup_insert_eq|]. apply wp_bind.
  eapply wp_mono; [apply (Connect_end p l'); [done|]; rewrite El3; apply lookup_insert_eq|].
  intros _ P4 [Hi4 Ea4]. wp_steps. split; [done|]. rewrite Ea4, Ea3.
  assert (contents P2 = <[destination l := l]> (contents P)) as ->.
  { apply map_eq. intros d. rewrite lookup_contents, Ec2, El2.
    destruct (decide (d = destination l)) as [->|Hne].
    - rewrite !lookup_insert_eq. simpl. done.
    - rewrite !lookup_insert_ne, <- Ea1, lookup_contents by done. done. }
  rewrite insert_insert_eq. by apply contract_new.
Qed.

(** C7: The pool is a map. Connecting, sending and deleting implement the contract
    of a map from addresses to connections: connecting adds the new connection under
    its address unless there is one, sending does what [Send] does to the connection
    of the receiver and nothing to any other, and deleting removes one. None of them
    meets a deleted object. *)
Theorem pool_is_a_map q P : pool_inv P → pool_admissible (contents P) q →
  wp (perform_pool q) P (λ r P', pool_inv P' ∧ pool_contract (contents P) q r (contents P')).
Proof.
  intros Hinv Hadm. destruct q as [made d cb|fuel msg url|d]; simpl.
  - apply wp_bind. eapply wp_mono; [by apply Connect_spec|]. intros ok P' ?. by wp_steps.
  - unfold TCPComm_Send, FindConnection. wp_steps.
    destruct (connections_ P !! aid_url (msg_to msg)) as [p|] eqn:Hd; cycle 1.
    { wp_steps. split; [done|]. apply contract_dropped. apply contents_None; [apply Hinv|done]. }
    destruct (conn_alive _ Hinv _ _ Hd) as (l & Hl & _).
    assert (contents P !! aid_url (msg_to msg) = Some l) as Ha by (by rewrite (contents_Some _ _ p)).
    eapply wp_mono; [apply (on_link_spec (aid_url (msg_to msg)) p l (Send fuel msg url) P (λ _ _, True)); try done; by apply Hadm|].
    intros r P' (w & _ & E & Hi & -> & _). split; [done|]. by eapply contract_sent.
  - apply wp_bind. eapply wp_mono; [by apply DeleteConnection_spec|].
    intros _ P' (Hi & Hc & _). wp_steps. split; [done|]. rewrite Hc. apply contract_deleted.
Qed.

(** Deleting closes once. [DeleteConnection] closes the socket of the connection
    for the address, calls the delete callback of each info of its fd exactly once
    unless it has done so before, deletes that connection and no other, and forgets
    the address. *)
Theorem DeleteConnection_closes d p l P :
  pool_inv P → connections_ P !! d = Some p → links P !! p = Some l →
  wp (DeleteConnection d) P (λ _ P', pool_inv P' ∧ connections_ P' !! d = None ∧
    links P' = delete p (links P) ∧
    ∃ ids, (if deleted l then ids = [] else ids ≡ₚ infos_of P (socket_fd l)) ∧
      pool_trace P' = pool_trace P ++ exits P ids ++
        [EventDeleted (socket_fd l); SocketClosed (socket_fd l)]).
Proof.
  intros Hinv Hd Hl. eapply wp_mono; [by apply DeleteConnection_spec|].
  intros _ P' (Hi & Hc & Hcase). rewrite Hd in Hcase.
  destruct Hcase as (l' & t & Hl' & Hlinks & (ids & Hids & ->) & Ht & _). simplify_eq.
  split; [done|]. split; [|split; [done|by exists ids]].
  apply contents_None; [apply Hi|]. rewrite Hc. apply lookup_delete_eq.
Qed.

(** C31: Replacing dangles. Adding a connection for an address that has one deletes
    the old connection and keeps its pointer in the pool: the new one is not found,
    and what is sent to the address goes through a deleted object. *)
Theorem replacing_dangles p l q old P :
  pool_inv P → links P !! p = Some l → connections_ P !! destination l = Some q → q ≠ p →
  links P !! q = Some old →
  wp (AddConnection p) P (λ _ P', connections_ P' !! destination l = Some q ∧
    links P' !! q = None ∧
    ∀ fuel msg url, aid_url (msg_to msg) = destination l → TCPComm_Send fuel msg url P' = Undef).
Proof.
  intros Hinv Hl Hq Hne Hold. unfold AddConnection, FindConnection. wp_steps.
  apply (wp_load_link p l); [done|]. wp_steps. rewrite Hq. wp_steps.
  apply (wp_load_link q old); [done|].
  eapply wp_mono; [apply (CloseConnection_spec q old P); [apply Hinv|done]|].
  intros _ P1 (_ & E1 & _ & _ & _ & _ & E6 & _). wp_steps.
  apply (wp_load_link p l); [by rewrite E6, lookup_delete_ne|]. wp_steps. simpl. rewrite E1, Hq.
  split; [done|]. split; [rewrite E6; apply lookup_delete_eq|].
  intros fuel msg url Hto. unfold TCPComm_Send, FindConnection, gets, mbind, M_bind. simpl.
  rewrite Hto, Hq. unfold on_link. simpl. by rewrite E6, lookup_delete_eq.
Qed.

(** A connection of the pool that is disconnecting is deleted. *)
Lemma EventCallBack_own fuel p l P : links P !! p = Some l →
  conn_state (conn (link_world l)) = kDisconnecting → connections_ P !! destination l = Some p →
  EventCallBack fuel p P = DeleteConnection (destination l) P.
Proof.
  intros Hl Hs Hd. unfold EventCallBack, load_link, FindConnection, gets, deref, mbind, M_bind, mret, M_ret.
  by rewrite Hl, Hs, Hd, Hl, bool_decide_eq_true_2.
Qed.

Lemma set_state_spec p l v P : pool_inv P → connections_ P !! destination l = Some p →
  links P !! p = Some l →
  ∃ P' l', set_state p v P = Ret () P' ∧ pool_inv P' ∧ connections_ P' !! destination l = Some p ∧
    links P' !! p = Some l' ∧ conn_state (conn (link_world l')) = v ∧ destination l' = destination l.
Proof.
  intros Hinv Hd Hl.
  assert (wp (upd_conn (set_conn_state v)) (link_world l)
    (λ _ w, conn_state (conn w) = v)) as Hm by done.
  destruct (wp_inv _ _ _ (on_link_spec _ _ _ _ _ _ Hinv Hd Hl Hm))
    as ([] & P' & E & w & Hw & _ & Hi & _ & Ec & _ & _ & El).
  exists P', (with_world w l). split; [done|]. split; [done|]. split; [by rewrite Ec|].
  split; [rewrite El; apply lookup_insert_eq|done].
Qed.

(** Closing under the lock. [Disconnect], once it finds no task left in either
    loop, and the handling of a hang-up delete the connection whose lock they hold:
    the unlock is undefined behaviour. *)
Theorem closing_under_lock d p l tasks fuel P :
  pool_inv P → connections_ P !! d = Some p → links P !! p = Some l →
  tasks (S (wait_for_tasks tasks 30 0)) = (0, 0) →
  Disconnect tasks d P = Undef ∧ SocketEventHandler fuel (socket_fd l) EPOLLHUP p P = Undef.
Proof.
  intros Hinv Hd Hl Ht.
  assert (∀ P0, pool_inv P0 → connections_ P0 !! d = Some p → ∃ P1,
    DeleteConnection d P0 = Ret () P1 ∧ links P1 !! p = None) as Hdel.
  { intros P0 Hi0 Hd0.
    destruct (wp_inv _ _ _ (DeleteConnection_spec d P0 Hi0)) as ([] & P1 & E & _ & _ & Hcase).
    rewrite Hd0 in Hcase. destruct Hcase as (l1 & t & _ & E1 & _). exists P1.
    split; [done|]. rewrite E1. apply lookup_delete_eq. }
  assert (∀ P0 (l0 : Link K) (T : Type) (m : M (ConnPool K) T), links P0 !! p = Some l0 →
    (∃ a P1, m P0 = Ret a P1 ∧ links P1 !! p = None) → with_conn_lock p m P0 = Undef) as Hlock.
  { intros P0 l0 T m Hl0 (a & P1 & E & Hn). unfold with_conn_lock, load_link, gets, deref, mbind, M_bind.
    rewrite Hl0. simpl. by rewrite E, Hn. }
  split.
  - unfold Disconnect. rewrite Ht. unfold FindConnection, gets. cbn -[DeleteConnection with_conn_lock]. cbn [mbind M_bind]. unfold mbind, M_bind. rewrite Hd.
    destruct (Hdel P Hinv Hd) as (P1 & E & Hn). rewrite (Hlock P l); [done..|by exists (), P1].
  - destruct (conn_alive _ Hinv _ _ Hd) as (l' & Hl' & Hdst). simplify_eq.
    unfold SocketEventHandler, load_link, gets, deref, mbind, M_bind. rewrite Hl. simpl.
    rewrite Z.eqb_refl. simpl. apply (Hlock P l); [done|].
    unfold mret, M_ret. change (has_bits EPOLLHUP (EPOLLHUP + EPOLLRDHUP + EPOLLERR)) with true.
    rewrite Hl. cbv beta iota. rewrite orb_true_r.
    destruct (set_state_spec p l kDisconnecting P Hinv Hd Hl) as (P2 & l2 & E2 & Hi2 & Hd2 & Hl2 & Hs2 & Hdst2).
    rewrite E2. destruct (Hdel P2 Hi2 Hd2) as (P3 & E & Hn). exists (), P3. split; [|done].
    rewrite (EventCallBack_own fuel p l2 P2); [by rewrite Hdst2|done..|by rewrite Hdst2].
Qed.
End theorems.

(** ** A pool *)

Local Instance insertion_order : InfoOrder := { in_order := elements; in_order_spec X := reflexivity _ }.

Definition peer : bytes := text "10.0.0.1:80".

Definition link_to (fd : Z) (dst : bytes) : Link Script :=
  MkLink fd dst false (MkWorld (client_connection dst None (λ _, true)) (MkScript [] [] [] 0) []).

(** Two connections to the same peer, of which the pool knows the first; two infos
    of its fd. *)
Definition two_links : ConnPool Script :=
  MkConnPool false ∅ ∅ {[peer := 1%positive]} {[5 := {[1%positive; 2%positive]}]}
    {[1%positive := link_to 5 peer; 2%positive := link_to 6 peer]} 3
    {[1%positive := MkInfo 5 (text "me") peer (Some 7%positive);
      2%positive := MkInfo 5 (text "me") (text "elsewhere") None]} 3 [].

Lemma two_links_inv : pool_inv two_links.
Proof.
  split; split; unfold two_links; simpl.
  - intros fd X p [<- <-]%lookup_singleton_Some Hp.
    apply elem_of_union in Hp as [->%elem_of_singleton| ->%elem_of_singleton];
      eexists; (split; [reflexivity|done]).
  - intros fd X p q i j [<- <-]%lookup_singleton_Some Hp Hq.
    apply elem_of_union in Hp as [->%elem_of_singleton| ->%elem_of_singleton];
      apply elem_of_union in Hq as [->%elem_of_singleton| ->%elem_of_singleton];
      vm_compute; intros [= <-] [= <-] [=]; done.
  - intros p [i Hi]. apply lookup_insert_Some in Hi as [[<- _]|[_ [<- _]%lookup_singleton_Some]]; lia.
  - intros d p [<- <-]%lookup_singleton_Some. eexists. split; [reflexivity|done].
  - intros p [i Hi]. apply lookup_insert_Some in Hi as [[<- _]|[_ [<- _]%lookup_singleton_Some]]; lia.
  - done.
  - done.
Qed.

Lemma pool_is_a_map_witness :
  wp (perform_pool (PoolSend 200 (message "hello" "world") [])) two_links (λ r P', pool_inv P' ∧
    pool_contract (contents two_links) (PoolSend 200 (message "hello" "world") []) r (contents P')).
Proof.
  apply (pool_is_a_map (PoolSend 200 (message "hello" "world") []) two_links).
  - apply two_links_inv.
  - intros l Hl. vm_compute in Hl. injection Hl as <-. by vm_compute.
Defined.

(** There the message is sent, and its frame is on the wire of the connection. *)
Example hello_is_sent :
  wp (perform_pool (PoolSend 200 (message "hello" "world") [])) two_links (λ r P',
    r.1 = true ∧ (outgoing ∘ kernel ∘ link_world <$> contents P' !! peer) =
      Some (frame (message "hello" "world"))).
Proof. by vm_compute. Qed.

Lemma DeleteConnection_closes_witness :
  wp (DeleteConnection peer) two_links (λ _ P', pool_inv P' ∧ connections_ P' !! peer = None ∧
    links P' = delete 1%positive (links two_links) ∧
    ∃ ids, (if deleted (link_to 5 peer) then ids = [] else ids ≡ₚ infos_of two_links (socket_fd (link_to 5 peer))) ∧
      pool_trace P' = pool_trace two_links ++ exits two_links ids ++
        [EventDeleted (socket_fd (link_to 5 peer)); SocketClosed (socket_fd (link_to 5 peer))]).
Proof.
  apply (DeleteConnection_closes peer 1%positive (link_to 5 peer) two_links).
  - apply two_links_inv.
  - reflexivity.
  - reflexivity.
Defined.

Lemma replacing_dangles_witness :
  wp (AddConnection 2%positive) two_links (λ _ P',
    connections_ P' !! destination (link_to 6 peer) = Some 1%positive ∧
    links P' !! 1%positive = None ∧
    ∀ fuel msg url, aid_url (msg_to msg) = destination (link_to 6 peer) →
      TCPComm_Send fuel msg url P' = Undef).
Proof.
  apply (replacing_dangles 2%positive (link_to 6 peer) 1%positive (link_to 5 peer) two_links).
  - apply two_links_inv.
  - reflexivity.
  - reflexivity.
  - done.
  - reflexivity.
Defined.

Lemma closing_under_lock_witness :
  Disconnect (λ i, (Z.of_nat (2 - i), 1 - Z.of_nat (Nat.min i 1))) peer two_links = Undef ∧
  SocketEventHandler 200 (socket_fd (link_to 5 peer)) EPOLLHUP 1%positive two_links = Undef.
Proof.
  apply (closing_under_lock peer 1%positive (link_to 5 peer)
    (λ i, (Z.of_nat (2 - i), 1 - Z.of_nat (Nat.min i 1))) 200 two_links).
  - apply two_links_inv.
  - reflexivity.
  - reflexivity.
  - reflexivity.
Defined.
