(* ===== verification/VmmAdapter.v ===== *)
(** * Virtual memory of the device

    [VmmManager] and [AscendVmmAdapter] of memory/ascend_vmm_adapter.*: address space
    is reserved in segments of 2 MB pages, and pages are mapped to physical handles
    when they are used and unmapped when they are freed eagerly. *)

From S2P Require Import Prelude.

Definition kDefaultMapSize : Z := 2097152.
Definition kVmmAlignSize : Z := 2097152.

(** ** Ordered maps

    An iterator of a [std::map] is the key it stands at, [None] at the end. *)

Section ordered.
Context {A : Type}.
Implicit Types (m : gmap Z A) (P : Z → bool).

Definition min_key (l : list Z) : option Z :=
  foldr (λ k o, Some (match o with Some j => Z.min k j | None => k end)) None l.
Definition max_key (l : list Z) : option Z :=
  foldr (λ k o, Some (match o with Some j => Z.max k j | None => k end)) None l.

Definition keys m : list Z := (map_to_list m).*1.
Definition first_such P m : option Z := min_key (List.filter P (keys m)).
Definition last_such P m : option Z := max_key (List.filter P (keys m)).

Definition lower_bound m a : option Z := first_such (λ k, a <=? k) m.
Definition upper_bound m a : option Z := first_such (λ k, a <? k) m.
Definition begin m : option Z := first_such (λ _, true) m.
(** What an iteration visits. *)
Definition key_le : relation (Z * A) := λ x y, x.1 <= y.1.
#[export] Instance key_le_dec : RelDecision key_le := λ x y, Z_le_dec x.1 y.1.
Definition entries m : list (Z * A) := merge_sort key_le (map_to_list m).
(** [++it] and [--it]. *)
Definition next m (it : option Z) : option Z := it ≫= upper_bound m.
Definition prev m (it : option Z) : option Z :=
  last_such (λ k, match it with Some j => k <? j | None => true end) m.
End ordered.

(** ** The manager of the address space *)

(** A null [addr_] is 0. *)
Record MemHandle := MkHandle { mapped_ : bool; addr_ : Z; size_ : Z }.
Definition new_MemHandle : MemHandle := MkHandle false 0 0.

(** [MemHandle] objects are those of [handle_objects]; a [VirtualAddress] is its size
    under its address. *)
Record VmmManager := MkManager {
  virtual_addresses_ : gmap Z Z;
  handles_ : gset positive;
  max_mem_size_ : Z;
  base_addr_ : Z;
  mapped_addrs_ : gmap Z positive;
  handle_objects : gmap positive MemHandle;
  next_handle : positive;
}.

Definition new_VmmManager (max_mem_size : Z) : VmmManager :=
  MkManager ∅ ∅ max_mem_size 0 ∅ ∅ 1.

Abbreviation MM := (M VmmManager).

Definition set_virtual (v : gmap Z Z) (base : Z) (m : VmmManager) : VmmManager :=
  MkManager v (handles_ m) (max_mem_size_ m) base (mapped_addrs_ m) (handle_objects m) (next_handle m).
Definition set_handles (v : gset positive) (o : gmap positive MemHandle) (n : positive)
    (m : VmmManager) : VmmManager :=
  MkManager (virtual_addresses_ m) v (max_mem_size_ m) (base_addr_ m) (mapped_addrs_ m) o n.
Definition set_mapped (v : gmap Z positive) (m : VmmManager) : VmmManager :=
  MkManager (virtual_addresses_ m) (handles_ m) (max_mem_size_ m) (base_addr_ m) v
    (handle_objects m) (next_handle m).

Definition load_handle (p : positive) : MM MemHandle := o ← gets handle_objects; deref (o !! p).
Definition store_handle (p : positive) (h : MemHandle) : MM unit :=
  load_handle p;;
  modify (λ m, set_handles (handles_ m) (<[p := h]> (handle_objects m)) (next_handle m) m).

(** [MemHandle::Map] and [MemHandle::Unmap]. *)
Definition MemHandle_Map (handle : positive) (addr : Z) : MM unit :=
  load_handle handle;; store_handle handle (MkHandle true addr kDefaultMapSize).
Definition MemHandle_Unmap (handle : positive) (addr : Z) : MM unit :=
  h ← load_handle handle;
  if negb (addr_ h =? addr) then throw "Unmap failed."
  else store_handle handle (MkHandle false 0 0).

Definition MallocVirtualAddress (size : Z) : MM Z :=
  addr ← gets base_addr_;
  modify (λ m, set_virtual (virtual_addresses_ m) (base_addr_ m +64 size) m);;
  modify (λ m, set_virtual
    (match virtual_addresses_ m !! addr with
     | Some _ => virtual_addresses_ m              (* [emplace] keeps what is there *)
     | None => <[addr := size]> (virtual_addresses_ m)
     end) (base_addr_ m) m);;
  mret addr.

Definition FreeVirtualAddress (addr : Z) : MM bool :=
  iter ← gets (λ m, virtual_addresses_ m !! addr);
  match iter with
  | None => throw "free virtual address failed."
  | Some _ =>
      modify (λ m, set_virtual (delete addr (virtual_addresses_ m)) (base_addr_ m) m);;
      mret true
  end.

Definition GetHandle : MM (option positive) := λ m,
  if max_mem_size_ m <=? u64 (Z.of_nat (size (handles_ m))) *64 kDefaultMapSize then Ret None m
  else
    let p := next_handle m in
    Ret (Some p)
      (set_handles ({[p]} ∪ handles_ m) (<[p := new_MemHandle]> (handle_objects m)) (Pos.succ p) m).

Definition FreeHandle (handle : positive) : MM bool :=
  found ← gets (λ m, bool_decide (handle ∈ handles_ m));
  if found : bool then
    modify (λ m, set_handles (handles_ m ∖ {[handle]}) (handle_objects m) (next_handle m) m);;
    load_handle handle;;
    modify (λ m, set_handles (handles_ m) (delete handle (handle_objects m)) (next_handle m) m);;
    mret true
  else mret false.

(** The check of [Map] against its neighbours; the lower one only when there is an
    upper one. *)
Definition neighbours_clear (addr : Z) (mapped : gmap Z positive) : MM unit :=
  let upper_iter := upper_bound mapped addr in
  match upper_iter with
  | None => mret ()
  | Some addr_size =>
      if addr_size <? addr +64 kDefaultMapSize then throw "map failed up check"
      else if bool_decide (upper_iter = begin mapped) then mret ()
      else
        low ← deref (prev mapped upper_iter);
        if addr <? low +64 kDefaultMapSize then throw "map failed low check" else mret ()
  end.

Definition Map (handle : positive) (addr : Z) : MM bool :=
  mapped ← gets mapped_addrs_;
  match mapped !! addr with
  | Some _ => throw "map failed, addr is already exist."
  | None =>
      neighbours_clear addr mapped;;
      MemHandle_Map handle addr;;
      modify (λ m, set_mapped (<[addr := handle]> (mapped_addrs_ m)) m);;
      mret true
  end.

Definition Unmap (addr : Z) : MM bool :=
  iter ← gets (λ m, mapped_addrs_ m !! addr);
  match iter with
  | None => throw "unmap failed."
  | Some handle =>
      MemHandle_Unmap handle addr;;
      modify (λ m, set_mapped (delete addr (mapped_addrs_ m)) m);;
      mret true
  end.

(** ** The adapter *)

Record Adapter := MkAdapter {
  vmm_manager_ : VmmManager;
  physical_handle_size_ : Z;
  vmm_map_ : gmap Z (option positive);
  all_reserve_mems_ : list Z;
  cached_handle_sets_ : gset positive;
}.

Definition new_Adapter (max_mem_size : Z) : Adapter :=
  MkAdapter (new_VmmManager max_mem_size) 0 ∅ [] ∅.

Abbreviation AV := (M Adapter).

Definition set_manager (v : VmmManager) (s : Adapter) : Adapter :=
  MkAdapter v (physical_handle_size_ s) (vmm_map_ s) (all_reserve_mems_ s) (cached_handle_sets_ s).
Definition set_physical (v : Z) (s : Adapter) : Adapter :=
  MkAdapter (vmm_manager_ s) v (vmm_map_ s) (all_reserve_mems_ s) (cached_handle_sets_ s).
Definition set_vmm_map (v : gmap Z (option positive)) (s : Adapter) : Adapter :=
  MkAdapter (vmm_manager_ s) (physical_handle_size_ s) v (all_reserve_mems_ s) (cached_handle_sets_ s).
Definition set_reserve (v : list Z) (s : Adapter) : Adapter :=
  MkAdapter (vmm_manager_ s) (physical_handle_size_ s) (vmm_map_ s) v (cached_handle_sets_ s).
Definition set_cached (v : gset positive) (s : Adapter) : Adapter :=
  MkAdapter (vmm_manager_ s) (physical_handle_size_ s) (vmm_map_ s) (all_reserve_mems_ s) v.

Definition on_manager {A} (m : MM A) : AV A := zoom vmm_manager_ set_manager m.

(** [*begin()] of a [std::set] of handles, which depends on their addresses. *)
Class HandleOrder := {
  first_handle : gset positive → positive;
  first_handle_in X : X ≠ ∅ → first_handle X ∈ X;
}.

Definition GetRoundUpAlignSize (input_size : Z) : Z :=
  ((input_size +64 kVmmAlignSize -64 1) / kVmmAlignSize) *64 kVmmAlignSize.
Definition GetRoundDownAlignSize (input_size : Z) : Z :=
  (input_size / kVmmAlignSize) *64 kVmmAlignSize.

Definition GetHandleSize (input_size : Z) : AV Z :=
  if negb (input_size mod kVmmAlignSize =? 0) then throw "Input size must be multiple of 2MB"
  else mret (input_size / kVmmAlignSize).

Definition GetAllocatedSize (s : Adapter) : Z := physical_handle_size_ s *64 kVmmAlignSize.

(** Null is 0, also when it is a key. *)
Definition FindVmmSegment (addr : Z) : AV Z := λ s,
  let it := upper_bound (vmm_map_ s) addr in
  if bool_decide (it = begin (vmm_map_ s)) then Ret 0 s
  else deref (prev (vmm_map_ s) it) s.

Definition CalAddressOffset (dst_address ori_address : Z) : Z := dst_address -64 ori_address.
Definition AddressOffset (address offset : Z) : Z := address +64 offset.

Definition MoveBackMappedHandle (mapped_vmm_handle : gmap Z positive) : AV unit :=
  forM (entries mapped_vmm_handle) (λ _ '(address, handle),
    ret ← on_manager (Unmap address);
    if negb ret then mret ()
    else
      iter ← gets (λ s, vmm_map_ s !! address);
      match iter with
      | None => mret ()
      | Some _ =>
          modify (λ s, set_vmm_map (<[address := None]> (vmm_map_ s)) s);;
          modify (λ s, set_cached ({[handle]} ∪ cached_handle_sets_ s) s)
      end) ().

Section adapter.
Context `{HandleOrder}.

(** The handle for a page: from the cache, or new while the limit allows. [None] when
    there is none to have. *)
Definition take_handle (max_size : Z) : AV (option positive) :=
  cached ← gets cached_handle_sets_;
  if negb (bool_decide (cached = ∅)) then
    let handle := first_handle cached in
    modify (set_cached (cached ∖ {[handle]}));;
    mret (Some handle)
  else
    physical ← gets physical_handle_size_;
    if max_size <=? physical *64 kVmmAlignSize then mret None
    else
      handle ← on_manager GetHandle;
      match handle with
      | None => mret None
      | Some handle =>
          modify (λ s, set_physical (physical_handle_size_ s +64 1) s);;
          mret (Some handle)
      end.

(** The loop of [MmapDeviceMem] from page [i] on, for [n] pages: whether it ran to
    its end. *)
Fixpoint MmapDeviceMem_loop (vmm_start_addr max_size : Z) (n : nat) (i : Z)
    (iter : option Z) (mapped_vmm_handle : gmap Z positive) : AV bool :=
  match n with
  | O => mret true
  | S n =>
      let new_addr := AddressOffset vmm_start_addr (i *64 kVmmAlignSize) in
      if negb (bool_decide (iter = Some new_addr)) then mret false
      else
        second ← gets (λ s, vmm_map_ s !! new_addr);
        second ← deref second;
        match second with
        | Some _ =>
            iter ← gets (λ s, next (vmm_map_ s) iter);
            MmapDeviceMem_loop vmm_start_addr max_size n (i +64 1) iter mapped_vmm_handle
        | None =>
            handle ← take_handle max_size;
            match handle with
            | None => MoveBackMappedHandle mapped_vmm_handle;; mret false
            | Some handle =>
                ret ← on_manager (Map handle new_addr);
                if negb ret then
                  modify (λ s, set_cached ({[handle]} ∪ cached_handle_sets_ s) s);;
                  MoveBackMappedHandle mapped_vmm_handle;; mret false
                else
                  modify (λ s, set_vmm_map (<[new_addr := Some handle]> (vmm_map_ s)) s);;
                  iter ← gets (λ s, next (vmm_map_ s) iter);
                  MmapDeviceMem_loop vmm_start_addr max_size n (i +64 1) iter
                    (<[new_addr := handle]> mapped_vmm_handle)
            end
        end
  end.

Definition MmapDeviceMem (size addr max_size : Z) : AV Z :=
  vmm_start_addr ← FindVmmSegment addr;
  if vmm_start_addr =? 0 then mret 0
  else
    let start_offset := CalAddressOffset addr vmm_start_addr in
    let align_size := GetRoundUpAlignSize (size +64 start_offset) in
    handle_size ← GetHandleSize align_size;
    iter ← gets (λ s, match vmm_map_ s !! vmm_start_addr with
                      | Some _ => Some vmm_start_addr
                      | None => None
                      end);
    done ← MmapDeviceMem_loop vmm_start_addr max_size (Z.to_nat handle_size) 0 iter ∅;
    mret (if done : bool then size else 0).

Definition AllocDeviceMem (size : Z) : AV (Z * Z) :=
  let align_size := GetRoundUpAlignSize size in
  addr ← on_manager (MallocVirtualAddress align_size);
  modify (λ s, set_reserve (all_reserve_mems_ s ++ [addr]) s);;
  handle_size ← GetHandleSize align_size;
  forM (seqZ 0 handle_size) (λ _ i,
    modify (λ s, set_vmm_map
      (<[AddressOffset addr (i *64 kVmmAlignSize) := None]> (vmm_map_ s)) s)) ();;
  mret (align_size, addr).

(** The loop of [EagerFreeDeviceMem]. [pages] bounds its rounds by the entries of
    [vmm_map_], which the iterator passes one by one. *)
Fixpoint EagerFreeDeviceMem_loop (pages : nat) (free_end_addr : Z) (iter : option Z)
    (vmm_start_addr ret_size : Z) : AV Z :=
  let vmm_end_addr := AddressOffset vmm_start_addr kVmmAlignSize in
  if free_end_addr <? vmm_end_addr then mret ret_size
  else if negb (bool_decide (iter = Some vmm_start_addr)) then mret 0
  else
    match pages with
    | O => undef
    | S pages =>
        second ← gets (λ s, vmm_map_ s !! vmm_start_addr);
        second ← deref second;
        match second with
        | None =>
            iter ← gets (λ s, next (vmm_map_ s) iter);
            EagerFreeDeviceMem_loop pages free_end_addr iter vmm_end_addr ret_size
        | Some handle =>
            ret ← on_manager (Unmap vmm_start_addr);
            if negb ret then mret 0
            else
              modify (λ s, set_cached ({[handle]} ∪ cached_handle_sets_ s) s);;
              modify (λ s, set_vmm_map (<[vmm_start_addr := None]> (vmm_map_ s)) s);;
              iter ← gets (λ s, next (vmm_map_ s) iter);
              EagerFreeDeviceMem_loop pages free_end_addr iter vmm_end_addr
                (ret_size +64 kVmmAlignSize)
        end
    end.

Definition EagerFreeDeviceMem (addr size : Z) : AV Z :=
  iter ← gets (λ s, lower_bound (vmm_map_ s) addr);
  match iter with
  | None => mret 0
  | Some vmm_start_addr =>
      pages ← gets (λ s, length (keys (vmm_map_ s)));
      EagerFreeDeviceMem_loop pages (AddressOffset addr size) iter vmm_start_addr 0
  end.

(** The loop of [ClearAllMemory] over the cached handles. *)
Fixpoint free_cached (n : nat) : AV unit :=
  cached ← gets cached_handle_sets_;
  if bool_decide (cached = ∅) then mret ()
  else
    match n with
    | O => undef
    | S n =>
        let handle := first_handle cached in
        modify (set_cached (cached ∖ {[handle]}));;
        on_manager (FreeHandle handle);;
        free_cached n
    end.

Definition ClearAllMemory : AV unit :=
  vmm_map ← gets vmm_map_;
  forM (entries vmm_map) (λ _ '(addr, second),
    match second with
    | None => mret ()
    | Some handle =>
        on_manager (Unmap addr);;
        on_manager (FreeHandle handle);;
        mret ()
    end) ();;
  cached ← gets cached_handle_sets_;
  free_cached (size cached);;
  reserved ← gets all_reserve_mems_;
  forM reserved (λ _ addr, on_manager (FreeVirtualAddress addr);; mret ()) ();;
  modify (set_reserve []);;
  modify (set_vmm_map ∅).
End adapter.
