(* ===== verification/VmmInvariant.v ===== *)
(** * The invariant of the virtual memory adapter

    The pages of [vmm_map_] lie below the base of the address space that is still
    free; a page is mapped exactly when the manager says so; every physical handle
    maps one page, waits in the cache, or is in hand; and the adapter's count of
    handles is right. *)

From S2P Require Import Prelude VmmAdapter.

Abbreviation A := kVmmAlignSize.

(** ** Ordered maps *)

Lemma min_key_spec l : match min_key l with
  | Some k => k ∈ l ∧ ∀ j, j ∈ l → k <= j
  | None => l = []
  end.
Proof.
  induction l as [|k l IH]; [done|]. simpl. destruct (min_key l) as [j|].
  - destruct IH as [Hj Hm]. split.
    + destruct (Z.min_spec k j) as [[_ ->]|[_ ->]]; [left|by right].
    + intros i [->|Hi]%elem_of_cons; [lia|]. specialize (Hm _ Hi). lia.
  - subst l. split; [by left|]. intros i [->|[]%not_elem_of_nil]%elem_of_cons. lia.
Qed.

Lemma max_key_spec l : match max_key l with
  | Some k => k ∈ l ∧ ∀ j, j ∈ l → j <= k
  | None => l = []
  end.
Proof.
  induction l as [|k l IH]; [done|]. simpl. destruct (max_key l) as [j|].
  - destruct IH as [Hj Hm]. split.
    + destruct (Z.max_spec k j) as [[_ ->]|[_ ->]]; [by right|left].
    + intros i [->|Hi]%elem_of_cons; [lia|]. specialize (Hm _ Hi). lia.
  - subst l. split; [by left|]. intros i [->|[]%not_elem_of_nil]%elem_of_cons. lia.
Qed.

Section ordered.
Context {B : Type}.
Implicit Types (m : gmap Z B) (P : Z → bool).

Lemma elem_of_keys P m k : k ∈ List.filter P (keys m) ↔ is_Some (m !! k) ∧ P k = true.
Proof.
  rewrite list_elem_of_In, filter_In, <- list_elem_of_In. unfold keys.
  rewrite list_elem_of_fmap. split.
  - intros [([j v] & -> & Hj%elem_of_map_to_list) HP]. split; [by eexists|done].
  - intros [[v Hv] HP]. split; [|done]. exists (k, v). split; [done|]. by apply elem_of_map_to_list.
Qed.

Lemma first_such_Some P m k :
  first_such P m = Some k ↔ is_Some (m !! k) ∧ P k = true ∧ ∀ j, is_Some (m !! j) → P j = true → k <= j.
Proof.
  unfold first_such. pose proof (min_key_spec (List.filter P (keys m))) as Hm. split.
  - intros Hk. rewrite Hk in Hm. destruct Hm as [Hin%elem_of_keys Hle].
    destruct Hin. split_and!; [done..|]. intros j Hj HP. apply Hle. by apply elem_of_keys.
  - intros (Hk & HP & Hle). destruct (min_key _) as [i|] eqn:E.
    + destruct Hm as [[Hi HPi]%elem_of_keys Hle']. f_equal.
      assert (k ∈ List.filter P (keys m)) as Hin by (by apply elem_of_keys).
      specialize (Hle _ Hi HPi). specialize (Hle' _ Hin). lia.
    + assert (k ∈ List.filter P (keys m)) as Hin by (by apply elem_of_keys).
      rewrite Hm in Hin. by apply not_elem_of_nil in Hin.
Qed.

Lemma first_such_None P m :
  first_such P m = None ↔ ∀ j, is_Some (m !! j) → P j = false.
Proof.
  unfold first_such. pose proof (min_key_spec (List.filter P (keys m))) as Hm. split.
  - intros Hk j Hj. rewrite Hk in Hm. destruct (P j) eqn:HP; [|done].
    assert (j ∈ List.filter P (keys m)) as Hin by (by apply elem_of_keys).
    rewrite Hm in Hin. by apply not_elem_of_nil in Hin.
  - intros Hall. destruct (min_key _) as [i|] eqn:E; [|done].
    destruct Hm as [[Hi HPi]%elem_of_keys _]. by rewrite Hall in HPi.
Qed.

Lemma last_such_Some P m k : last_such P m = Some k ↔
  is_Some (m !! k) ∧ P k = true ∧ ∀ j, is_Some (m !! j) → P j = true → j <= k.
Proof.
  unfold last_such. pose proof (max_key_spec (List.filter P (keys m))) as Hm. split.
  - intros Hk. rewrite Hk in Hm. destruct Hm as [Hin%elem_of_keys Hle].
    destruct Hin. split_and!; [done..|]. intros j Hj HP. apply Hle. by apply elem_of_keys.
  - intros (Hk & HP & Hle). destruct (max_key _) as [i|] eqn:E.
    + destruct Hm as [[Hi HPi]%elem_of_keys Hle']. f_equal.
      assert (k ∈ List.filter P (keys m)) as Hin by (by apply elem_of_keys).
      specialize (Hle _ Hi HPi). specialize (Hle' _ Hin). lia.
    + assert (k ∈ List.filter P (keys m)) as Hin by (by apply elem_of_keys).
      rewrite Hm in Hin. by apply not_elem_of_nil in Hin.
Qed.

Lemma last_such_None P m : last_such P m = None ↔ ∀ j, is_Some (m !! j) → P j = false.
Proof.
  unfold last_such. pose proof (max_key_spec (List.filter P (keys m))) as Hm. split.
  - intros Hk j Hj. rewrite Hk in Hm. destruct (P j) eqn:HP; [|done].
    assert (j ∈ List.filter P (keys m)) as Hin by (by apply elem_of_keys).
    rewrite Hm in Hin. by apply not_elem_of_nil in Hin.
  - intros Hall. destruct (max_key _) as [i|] eqn:E; [|done].
    destruct Hm as [[Hi HPi]%elem_of_keys _]. by rewrite Hall in HPi.
Qed.

Lemma elem_of_pairs m k v : (k, v) ∈ entries m ↔ m !! k = Some v.
Proof. unfold entries. by rewrite merge_sort_Permutation, elem_of_map_to_list. Qed.

Lemma NoDup_entries m : NoDup (entries m).*1.
Proof. unfold entries. rewrite merge_sort_Permutation. apply NoDup_fst_map_to_list. Qed.
End ordered.

(** The iterators depend on the keys alone. *)
Lemma first_such_dom {B C} P (m : gmap Z B) (m' : gmap Z C) : dom m = dom m' → first_such P m = first_such P m'.
Proof.
  intros Hd. assert (∀ j, is_Some (m !! j) ↔ is_Some (m' !! j)) as Hs.
  { intros j. by rewrite <- !elem_of_dom, Hd. }
  destruct (first_such P m') as [k|] eqn:E.
  - apply first_such_Some in E as (Hk & HP & Hle). apply first_such_Some.
    split_and!; [by apply Hs|done|]. intros j Hj. apply Hle. by apply Hs.
  - rewrite first_such_None in E. apply first_such_None. intros j Hj. apply E. by apply Hs.
Qed.


(** ** The invariant *)

(** [addr] is the start of a page. *)
Definition aligned (addr : Z) : Prop := addr mod A = 0.

Section invariant.
Implicit Types (s : Adapter) (m : VmmManager) (a : Z) (h : positive) (X : gset positive).

(** [X] are the handles in hand. *)
Record vmm_inv (X : gset positive) s : Prop := {
  v_page a : is_Some (vmm_map_ s !! a) → aligned a ∧ 0 <= a ∧ a + A <= base_addr_ (vmm_manager_ s);
  v_base : aligned (base_addr_ (vmm_manager_ s)) ∧
    (0 <= base_addr_ (vmm_manager_ s) ∧ base_addr_ (vmm_manager_ s) + A < w64);
  v_mapped a h : mapped_addrs_ (vmm_manager_ s) !! a = Some h ↔ vmm_map_ s !! a = Some (Some h);
  v_object a h : mapped_addrs_ (vmm_manager_ s) !! a = Some h →
    handle_objects (vmm_manager_ s) !! h = Some (MkHandle true a A);
  v_idle h : h ∈ cached_handle_sets_ s ∪ X →
    handle_objects (vmm_manager_ s) !! h = Some (MkHandle false 0 0);
  v_apart : cached_handle_sets_ s ## X;
  v_owned h : is_Some (handle_objects (vmm_manager_ s) !! h) →
    h ∈ cached_handle_sets_ s ∪ X ∨ ∃ a, mapped_addrs_ (vmm_manager_ s) !! a = Some h;
  v_handles : handles_ (vmm_manager_ s) = dom (handle_objects (vmm_manager_ s));
  v_fresh h : is_Some (handle_objects (vmm_manager_ s) !! h) → (h < next_handle (vmm_manager_ s))%positive;
  v_physical : physical_handle_size_ s = Z.of_nat (size (handles_ (vmm_manager_ s)));
  v_limit : Z.of_nat (size (handles_ (vmm_manager_ s))) * A < max_mem_size_ (vmm_manager_ s) + A;
  v_max : 0 < max_mem_size_ (vmm_manager_ s) <= w64 - A;
}.

(** What the operations on pages do to the state of the adapter. *)
Definition map_page a h s : Adapter :=
  let m := vmm_manager_ s in
  set_vmm_map (<[a := Some h]> (vmm_map_ s))
    (set_manager (set_mapped (<[a := h]> (mapped_addrs_ m))
      (set_handles (handles_ m) (<[h := MkHandle true a A]> (handle_objects m)) (next_handle m) m)) s).

Definition unmap_page a h s : Adapter :=
  let m := vmm_manager_ s in
  set_cached ({[h]} ∪ cached_handle_sets_ s) (set_vmm_map (<[a := None]> (vmm_map_ s))
    (set_manager (set_mapped (delete a (mapped_addrs_ m))
      (set_handles (handles_ m) (<[h := MkHandle false 0 0]> (handle_objects m)) (next_handle m) m)) s)).

(** Where the pages are, and how many handles there are. *)
Definition same_space s s' : Prop :=
  dom (vmm_map_ s') = dom (vmm_map_ s) ∧
  virtual_addresses_ (vmm_manager_ s') = virtual_addresses_ (vmm_manager_ s) ∧
  base_addr_ (vmm_manager_ s') = base_addr_ (vmm_manager_ s) ∧
  max_mem_size_ (vmm_manager_ s') = max_mem_size_ (vmm_manager_ s) ∧
  all_reserve_mems_ s' = all_reserve_mems_ s.

Lemma same_space_refl s : same_space s s.
Proof. by unfold same_space. Qed.

Lemma same_space_trans s1 s2 s3 : same_space s1 s2 → same_space s2 s3 → same_space s1 s3.
Proof. unfold same_space. intros (?&?&?&?&?) (?&?&?&?&?). split_and!; congruence. Qed.

Lemma vmm_inj s X a b h : vmm_inv X s →
  vmm_map_ s !! a = Some (Some h) → vmm_map_ s !! b = Some (Some h) → a = b.
Proof.
  intros I Ha Hb. apply (v_mapped _ _ I) in Ha, Hb.
  apply (v_object _ _ I) in Ha, Hb. congruence.
Qed.

Lemma map_page_inv a h X s : vmm_inv ({[h]} ∪ X) s → h ∉ X → vmm_map_ s !! a = Some None →
  vmm_inv X (map_page a h s) ∧ same_space s (map_page a h s).
Proof.
  intros I HX Ha. pose proof I as [I1 I2 I3 I4 I5 I6 I7 I8 I9 I10 I11 I12].
  assert (handle_objects (vmm_manager_ s) !! h = Some (MkHandle false 0 0)) as Hh by (apply I5; set_solver).
  assert (∀ b, mapped_addrs_ (vmm_manager_ s) !! b ≠ Some h) as Hnm.
  { intros b Hb%I4. congruence. }
  split; [split; simpl|].
  - intros b. rewrite lookup_insert_is_Some. intros [<-|[_ Hb]]; [|by apply I1]. apply I1. by eexists.
  - done.
  - intros b k. destruct (decide (a = b)) as [<-|Hne].
    + rewrite !lookup_insert_eq. naive_solver.
    + rewrite !lookup_insert_ne by done. apply I3.
  - intros b k. destruct (decide (a = b)) as [<-|Hne].
    + rewrite lookup_insert_eq. intros [= <-]. by rewrite lookup_insert_eq.
    + rewrite lookup_insert_ne by done. intros Hb. rewrite lookup_insert_ne; [by apply I4|].
      intros <-. by apply Hnm in Hb.
  - intros k Hk. rewrite lookup_insert_ne; [apply I5; set_solver|]. intros <-. set_solver.
  - set_solver.
  - intros k Hk. destruct (decide (h = k)) as [<-|Hne].
    { right. exists a. apply lookup_insert_eq. }
    rewrite lookup_insert_ne in Hk by done. destruct (I7 k Hk) as [Hc|[b Hb]]; [set_solver|].
    right. exists b. rewrite lookup_insert_ne; [done|]. intros <-. apply I3 in Hb. congruence.
  - rewrite dom_insert_lookup_L by (by eexists). done.
  - intros k. rewrite lookup_insert_is_Some. intros [<-|[_ Hk]]; apply I9; [by eexists|done].
  - done.
  - done.
  - done.
  - split_and!; try done. simpl. rewrite dom_insert_lookup_L by (by eexists). done.
Qed.

Lemma unmap_page_inv a h X s : vmm_inv X s → vmm_map_ s !! a = Some (Some h) →
  vmm_inv X (unmap_page a h s) ∧ same_space s (unmap_page a h s).
Proof.
  intros I Ha. pose proof I as [I1 I2 I3 I4 I5 I6 I7 I8 I9 I10 I11 I12].
  pose proof (proj2 (I3 a h) Ha) as Hm. pose proof (I4 _ _ Hm) as Hh.
  assert (h ∉ cached_handle_sets_ s ∪ X) as Hn.
  { intros Hc%I5. congruence. }
  assert (∀ b, mapped_addrs_ (vmm_manager_ s) !! b = Some h → b = a) as Hinj.
  { intros b Hb%I4. congruence. }
  split; [split; simpl|].
  - intros b. rewrite lookup_insert_is_Some. intros [<-|[_ Hb]]; [|by apply I1]. apply I1. by eexists.
  - done.
  - intros b k. destruct (decide (a = b)) as [<-|Hne].
    + rewrite lookup_delete_eq, lookup_insert_eq. naive_solver.
    + rewrite lookup_delete_ne, lookup_insert_ne by done. apply I3.
  - intros b k [Hne Hb]%lookup_delete_Some. rewrite lookup_insert_ne; [by apply I4|].
    intros <-. by apply Hne, eq_sym, Hinj.
  - intros k Hk. destruct (decide (h = k)) as [<-|Hne]; [by rewrite lookup_insert_eq|].
    rewrite lookup_insert_ne by done. apply I5. set_solver.
  - set_solver.
  - intros k Hk. destruct (decide (h = k)) as [<-|Hne]; [left; set_solver|].
    rewrite lookup_insert_ne in Hk by done. destruct (I7 k Hk) as [Hc|[b Hb]]; [left; set_solver|].
    right. exists b. rewrite lookup_delete_ne; [done|]. intros <-. congruence.
  - rewrite dom_insert_lookup_L by (by eexists). done.
  - intros k. rewrite lookup_insert_is_Some. intros [<-|[_ Hk]]; apply I9; [by eexists|done].
  - done.
  - done.
  - done.
  - split_and!; try done. simpl. rewrite dom_insert_lookup_L by (by eexists). done.
Qed.
End invariant.
