(* ===== verification/VmmOps.v ===== *)
(** * The operations of the virtual memory adapter

    Each keeps the invariant of [VmmInvariant] and throws nothing; what each does to
    the pages and the cache of handles. *)

From S2P Require Import Prelude VmmAdapter VmmInvariant.

Lemma aligned_gap a b : aligned a → aligned b → a < b → a + A <= b.
Proof. unfold aligned, kVmmAlignSize. intros. Z.div_mod_to_equations. lia. Qed.

Lemma aligned_add a i : aligned a → aligned (a + i * A).
Proof. unfold aligned, kVmmAlignSize. intros. Z.div_mod_to_equations. lia. Qed.

Lemma u64_page i : 0 <= i * A < w64 → i *64 kVmmAlignSize = i * A.
Proof. intros. by apply u64_small. Qed.

Section ops.
Context `{HandleOrder}.
Implicit Types (s : Adapter) (a : Z) (h : positive) (X : gset positive).

Lemma wp_on_manager {B} (m : M VmmManager B) s (Q : B → Adapter → Prop) :
  wp m (vmm_manager_ s) (λ r t, Q r (set_manager t s)) → wp (on_manager m) s Q.
Proof. apply (wp_zoom vmm_manager_ set_manager). Qed.

Lemma wp_load_handle h o m (Q : MemHandle → VmmManager → Prop) :
  handle_objects m !! h = Some o → Q o m → wp (load_handle h) m Q.
Proof. intros Ho HQ. unfold load_handle. wp_steps. by apply (wp_deref _ o). Qed.

Lemma wp_store_handle h o v m (Q : unit → VmmManager → Prop) :
  handle_objects m !! h = Some o →
  Q () (set_handles (handles_ m) (<[h := v]> (handle_objects m)) (next_handle m) m) →
  wp (store_handle h v) m Q.
Proof. intros Ho HQ. unfold store_handle. wp_steps. apply (wp_load_handle h o); [done|]. by wp_steps. Qed.

(** ** Pages *)

Lemma neighbours_clear_spec m mapped a (Q : unit → VmmManager → Prop) :
  (∀ b, is_Some (mapped !! b) → aligned b ∧ 0 <= b) → aligned a → 0 <= a → a + A < w64 →
  mapped !! a = None → Q () m → wp (neighbours_clear a mapped) m Q.
Proof.
  intros Hal Ha H0 Hw Hn HQ. unfold neighbours_clear.
  destruct (upper_bound mapped a) as [k|] eqn:Hk; [|by wp_steps].
  unfold upper_bound in Hk. apply first_such_Some in Hk as (Hsk & Hlt & Hmin).
  apply Z.ltb_lt in Hlt. pose proof (aligned_gap a k Ha (proj1 (Hal k Hsk)) Hlt).
  unfold kDefaultMapSize. fold A. rewrite (u64_small (a + A)) by (unfold kVmmAlignSize in *; lia).
  destruct (Z.ltb_spec k (a + A)); [lia|]. case_bool_decide as Hb; [by wp_steps|].
  unfold prev. destruct (last_such _ mapped) as [low|] eqn:Hlow.
  - apply last_such_Some in Hlow as (Hsl & Hltk & _). apply Z.ltb_lt in Hltk.
    wp_steps. apply (wp_deref _ low); [done|].
    assert (low < a) as Hla.
    { destruct (Z.lt_trichotomy low a) as [?|[->|?]]; [done|by destruct Hsl; congruence|].
      assert (k <= low); [|lia]. apply Hmin; [done|]. by apply Z.ltb_lt. }
    destruct (Hal low Hsl) as [Hall H0l]. pose proof (aligned_gap low a Hall Ha Hla).
    rewrite (u64_small (low + A)) by (unfold kVmmAlignSize in *; lia).
    destruct (Z.ltb_spec a (low + A)); [lia|]. by wp_steps.
  - exfalso. apply Hb. unfold begin. symmetry. apply first_such_Some. split; [done|]. split; [done|].
    intros j Hj _. rewrite last_such_None in Hlow. specialize (Hlow j Hj). simpl in Hlow.
    apply Z.ltb_ge in Hlow. done.
Qed.

Lemma Map_spec a h X s (Q : bool → Adapter → Prop) :
  vmm_inv ({[h]} ∪ X) s → h ∉ X → vmm_map_ s !! a = Some None →
  (∀ s', set_vmm_map (<[a := Some h]> (vmm_map_ s')) s' = map_page a h s → 
     vmm_map_ s' = vmm_map_ s → Q true s') →
  wp (on_manager (Map h a)) s Q.
Proof.
  intros I HX Ha HQ. apply wp_on_manager. unfold Map. wp_steps.
  destruct (v_page _ _ I a) as (Hal & H0 & Hle); [by eexists|]. destruct (v_base _ _ I) as [_ [Hb0 Hb]].
  destruct (mapped_addrs_ (vmm_manager_ s) !! a) as [k|] eqn:Hk.
  { apply (v_mapped _ _ I) in Hk. congruence. }
  apply wp_bind, neighbours_clear_spec; [|done|done|unfold kVmmAlignSize in *; lia|done|].
  { intros b [k' Hk']. apply (v_mapped _ _ I) in Hk'. split; apply (v_page _ _ I b); by eexists. }
  assert (handle_objects (vmm_manager_ s) !! h = Some (MkHandle false 0 0)) as Hh
    by (apply (v_idle _ _ I); set_solver).
  unfold MemHandle_Map. wp_steps. apply (wp_load_handle h (MkHandle false 0 0)); [done|].
  apply (wp_store_handle h (MkHandle false 0 0)); [done|]. wp_steps. by apply HQ.
Qed.

Lemma Unmap_spec a h X s (Q : bool → Adapter → Prop) :
  vmm_inv X s → vmm_map_ s !! a = Some (Some h) →
  (∀ s', set_cached ({[h]} ∪ cached_handle_sets_ s') (set_vmm_map (<[a := None]> (vmm_map_ s')) s') = unmap_page a h s →
     vmm_map_ s' = vmm_map_ s → cached_handle_sets_ s' = cached_handle_sets_ s → Q true s') →
  wp (on_manager (Unmap a)) s Q.
Proof.
  intros I Ha HQ. apply wp_on_manager. unfold Unmap. wp_steps.
  pose proof (proj2 (v_mapped _ _ I a h) Ha) as Hm. rewrite Hm.
  pose proof (v_object _ _ I _ _ Hm) as Ho. unfold MemHandle_Unmap. wp_steps.
  apply (wp_load_handle h (MkHandle true a A)); [done|]. simpl. rewrite Z.eqb_refl. simpl.
  apply (wp_store_handle h (MkHandle true a A)); [done|]. wp_steps. by apply HQ.
Qed.

(** ** Handles *)

(** Room for another handle. *)
Definition room max_size s : Prop :=
  physical_handle_size_ s * A < max_size ∧ physical_handle_size_ s * A < max_mem_size_ (vmm_manager_ s).

Lemma physical_range X s : vmm_inv X s →
  0 <= physical_handle_size_ s ∧ 0 <= physical_handle_size_ s * A < w64.
Proof.
  intros I. rewrite (v_physical _ _ I). pose proof (v_limit _ _ I). pose proof (v_max _ _ I).
  unfold kVmmAlignSize in *. lia.
Qed.

(** A handle is taken from the cache, or made when the cache is empty and there is room. *)
Lemma take_handle_spec max_size X s : vmm_inv X s →
  wp (take_handle max_size) s (λ r s', vmm_map_ s' = vmm_map_ s ∧ same_space s s' ∧
    match r with
    | None => s' = s ∧ cached_handle_sets_ s = ∅ ∧ ¬ room max_size s
    | Some h => (h ∉ X) ∧ vmm_inv ({[h]} ∪ X) s' ∧
        ((h ∈ cached_handle_sets_ s ∧ cached_handle_sets_ s' = cached_handle_sets_ s ∖ {[h]} ∧
          physical_handle_size_ s' = physical_handle_size_ s) ∨
         (cached_handle_sets_ s = ∅ ∧ cached_handle_sets_ s' = ∅ ∧ room max_size s ∧
          physical_handle_size_ s' = physical_handle_size_ s + 1))
    end).
Proof.
  intros I. pose proof I as [I1 I2 I3 I4 I5 I6 I7 I8 I9 I10 I11 I12].
  destruct (physical_range _ _ I) as [Hp0 Hp]. unfold take_handle. wp_steps.
  case_bool_decide as Hc; simpl.
  - wp_steps. rewrite u64_small by done. destruct (Z.leb_spec max_size (physical_handle_size_ s * A)).
    + wp_steps. split_and!; try done. unfold room. intros [??]. lia.
    + apply wp_bind, wp_on_manager. unfold GetHandle, wp. unfold kDefaultMapSize. fold A.
      rewrite (u64_small (Z.of_nat _)) by (rewrite <- I10; unfold kVmmAlignSize in *; lia).
      rewrite <- I10, u64_small by done.
      destruct (Z.leb_spec (max_mem_size_ (vmm_manager_ s)) (physical_handle_size_ s * A)); simpl.
      * destruct s as [[]]; simpl in *. split_and!; try done.
        unfold room. simpl. intros [??]. lia.
      * set (p := next_handle (vmm_manager_ s)).
        assert (∀ k, is_Some (handle_objects (vmm_manager_ s) !! k) → k ≠ p) as Hne.
        { intros k Hk%I9 ->. unfold p in *. lia. }
        assert (p ∉ handles_ (vmm_manager_ s)) as Hnp.
        { rewrite I8, elem_of_dom. intros Hk%Hne. done. }
        assert (p ∉ X) as HpX.
        { intros HX. apply (Hne p); [|done]. eexists. apply I5. set_solver. }
        split; [done|]. split; [done|]. split; [done|].
        split; [|right; split_and!; try done; rewrite u64_small; [done|unfold kVmmAlignSize, w64 in *; lia]].
        split; simpl.
        -- done.
        -- done.
        -- done.
        -- intros b k Hb. rewrite lookup_insert_ne; [by apply I4|].
           intros <-. apply I4 in Hb. apply (Hne p); [by eexists|done].
        -- intros k Hk. destruct (decide (p = k)) as [<-|Hnk]; [by rewrite lookup_insert_eq|].
           rewrite lookup_insert_ne by done. apply I5. set_solver.
        -- rewrite Hc. set_solver.
        -- intros k. rewrite lookup_insert_is_Some. intros [<-|[_ Hk]]; [left; set_solver|].
           destruct (I7 k Hk) as [?|?]; [left; set_solver|by right].
        -- rewrite dom_insert_L, I8. done.
        -- intros k. rewrite lookup_insert_is_Some. intros [<-|[_ Hk%I9]]; lia.
        -- rewrite size_union, size_singleton by set_solver.
           rewrite u64_small; [lia|unfold kVmmAlignSize, w64 in *; lia].
        -- rewrite size_union, size_singleton by set_solver. rewrite Nat2Z.inj_add, <- I10. lia.
        -- done.
  - wp_steps. pose proof (first_handle_in (cached_handle_sets_ s) Hc) as Hin.
    set (h := first_handle (cached_handle_sets_ s)) in *.
    split; [done|]. split; [done|]. split; [set_solver|]. split; [|by left].
    assert ((cached_handle_sets_ s ∖ {[h]}) ∪ ({[h]} ∪ X) = cached_handle_sets_ s ∪ X) as Heq.
    { apply set_eq. intros k. destruct (decide (k = h)); set_solver. }
    split; simpl; rewrite ?Heq; try done. set_solver.
Qed.

(** ** Mapping back *)

(** [s'] has the pages of [s], except that those of [R] are not mapped; their handles
    are in the cache. *)
Lemma MoveBack_spec (R : gmap Z positive) X s (m0 : gmap Z (option positive)) :
  vmm_inv X s → vmm_map_ s = (Some <$> R) ∪ m0 →
  (∀ a, is_Some (R !! a) → m0 !! a = Some None) →
  wp (MoveBackMappedHandle R) s (λ _ s', vmm_inv X s' ∧ same_space s s' ∧
    vmm_map_ s' = m0 ∧ physical_handle_size_ s' = physical_handle_size_ s).
Proof.
  intros I Hm HR. unfold MoveBackMappedHandle.
  apply (wp_forM _ _ _ _ (λ l _ s', vmm_inv X s' ∧ same_space s s' ∧
    physical_handle_size_ s' = physical_handle_size_ s ∧ NoDup l.*1 ∧
    (∀ a h, (a, h) ∈ l → vmm_map_ s' !! a = Some (Some h) ∧ m0 !! a = Some None) ∧
    (∀ a, a ∉ l.*1 → vmm_map_ s' !! a = m0 !! a))).
  - split; [done|]. split; [apply same_space_refl|]. split; [done|]. split; [apply NoDup_entries|].
    split.
    + intros a h Hin%elem_of_pairs. split; [|apply HR; by eexists].
      rewrite Hm. apply lookup_union_Some_l. by rewrite lookup_fmap, Hin.
    + intros a Hn. rewrite Hm. rewrite lookup_union_r; [done|].
      rewrite lookup_fmap. destruct (R !! a) as [h|] eqn:E; [|done]. exfalso. apply Hn.
      apply list_elem_of_fmap. exists (a, h). split; [done|]. by apply elem_of_pairs.
  - intros [a h] l [] s1 (I1 & Hs1 & Hp & Hnd & Hl & Hn). simpl in Hnd.
    apply NoDup_cons in Hnd as [Hna Hnd]. destruct (Hl a h) as [Ha H0]; [by left|].
    apply wp_bind. apply (Unmap_spec a h X s1); [done|done|]. intros s2 Hs2 Hm2 Hc2. simpl.
    wp_steps. rewrite Hm2, Ha. wp_steps.
    destruct (unmap_page_inv a h X s1 I1 Ha) as [I3 Hs3].
    change (set_cached ({[h]} ∪ cached_handle_sets_ (set_vmm_map (<[a:=None]> (vmm_map_ s2)) s2))
      (set_vmm_map (<[a:=None]> (vmm_map_ s2)) s2)) with
      (set_cached ({[h]} ∪ cached_handle_sets_ s2) (set_vmm_map (<[a:=None]> (vmm_map_ s2)) s2)).
    rewrite Hs2. split; [done|]. split; [by eapply same_space_trans|]. split; [done|]. split; [done|].
    split.
    + intros b k Hb. simpl. assert (a ≠ b) as Hne.
      { intros ->. apply Hna. apply list_elem_of_fmap. by exists (b, k). }
      rewrite lookup_insert_ne by done. apply Hl. by right.
    + intros b Hb. simpl. destruct (decide (a = b)) as [<-|Hne]; [by rewrite lookup_insert_eq|].
      rewrite lookup_insert_ne by done. apply Hn. simpl. set_solver.
  - intros [] s1 (I1 & Hs1 & Hp & _ & _ & Hn). split; [done|]. split; [done|]. split; [|done].
    apply map_eq. intros a. apply Hn. simpl. set_solver.
Qed.

(** ** Mapping *)

(** [m'] is [m] with some of the pages of a range mapped. *)
Definition mapped_more (lo hi : Z) (m m' : gmap Z (option positive)) : Prop :=
  ∀ a, m' !! a = m !! a ∨ (m !! a = Some None ∧ lo <= a < hi ∧ ∃ h, m' !! a = Some (Some h)).

Lemma first_such_ext {B} (P Q : Z → bool) (m : gmap Z B) :
  (∀ k, is_Some (m !! k) → P k = Q k) → first_such P m = first_such Q m.
Proof.
  intros HPQ. destruct (first_such Q m) as [k|] eqn:E.
  - apply first_such_Some in E as (Hk & HQ & Hle). apply first_such_Some.
    split_and!; [done|by rewrite HPQ|]. intros j Hj HP. apply Hle; [done|]. by rewrite <- HPQ.
  - rewrite first_such_None in E. apply first_such_None. intros j Hj. rewrite HPQ by done. by apply E.
Qed.

(** The page after an aligned address. *)
Lemma next_page X s a : vmm_inv X s → aligned a →
  next (vmm_map_ s) (Some a) = first_such (λ k, a + A <=? k) (vmm_map_ s).
Proof.
  intros I Ha. apply first_such_ext. intros k Hk. apply (v_page _ _ I) in Hk as [Hal _].
  apply eq_true_iff_eq. rewrite Z.ltb_lt, Z.leb_le. split; [by apply aligned_gap|].
  unfold kVmmAlignSize. lia.
Qed.

Lemma at_page {B} (m : gmap Z B) a :
  first_such (λ k, a <=? k) m = Some a ↔ is_Some (m !! a).
Proof.
  rewrite first_such_Some. split; [by intros [? _]|]. intros Ha. split; [done|].
  split; [apply Z.leb_le; lia|]. intros j _ Hj. by apply Z.leb_le.
Qed.

Definition accounted max_size s s' : Prop :=
  physical_handle_size_ s <= physical_handle_size_ s' ∧
  (physical_handle_size_ s' = physical_handle_size_ s ∨
   physical_handle_size_ s' * A < max_size + A).

Lemma MmapDeviceMem_loop_spec p0 max_size m0 n : ∀ i iter R s,
  vmm_inv ∅ s → aligned p0 → 0 <= p0 → 0 <= i →
  p0 + i * A <= base_addr_ (vmm_manager_ s) →
  iter = first_such (λ k, p0 + i * A <=? k) (vmm_map_ s) →
  vmm_map_ s = (Some <$> R) ∪ m0 →
  (∀ a, is_Some (R !! a) → m0 !! a = Some None ∧ p0 <= a < p0 + i * A) →
  wp (MmapDeviceMem_loop p0 max_size n i iter R) s (λ r s', vmm_inv ∅ s' ∧ same_space s s' ∧
    accounted max_size s s' ∧
    if r : bool then
      (∀ a h, vmm_map_ s !! a = Some (Some h) → vmm_map_ s' !! a = Some (Some h)) ∧
      (∀ j, i <= j < i + Z.of_nat n → ∃ h, vmm_map_ s' !! (p0 + j * A) = Some (Some h)) ∧
      mapped_more p0 (p0 + (i + Z.of_nat n) * A) m0 (vmm_map_ s') ∧
      cached_handle_sets_ s' ⊆ cached_handle_sets_ s ∧
      (physical_handle_size_ s' = physical_handle_size_ s ∨ cached_handle_sets_ s' = ∅)
    else
      (vmm_map_ s' = m0 ∧ ¬ room max_size s') ∨
      (∃ j, i <= j < i + Z.of_nat n ∧ m0 !! (p0 + j * A) = None)).
Proof.
  induction n as [|n IH]; intros i iter R s I Hp0 H0 Hi Hbase -> Hm HR.
  { simpl. wp_steps. split; [done|]. split; [done|]. split; [unfold accounted; lia|].
    split; [done|]. split; [lia|]. split; [|split; [done|by left]]. intros a. rewrite Hm.
    destruct (R !! a) as [h|] eqn:Ha; [right|left].
    - destruct (HR a) as [? ?]; [by eexists|]. split; [done|]. split; [lia|]. exists h.
      apply lookup_union_Some_l. by rewrite lookup_fmap, Ha.
    - rewrite lookup_union_r; [done|]. by rewrite lookup_fmap, Ha. }
  destruct (v_base _ _ I) as [_ [Hb0 Hbw]]. cbn [MmapDeviceMem_loop].
  assert (AddressOffset p0 (i *64 kVmmAlignSize) = p0 + i * A) as ->.
  { unfold AddressOffset. rewrite u64_page by (unfold kVmmAlignSize in *; lia). apply u64_small.
    unfold kVmmAlignSize in *. lia. }
  assert (aligned (p0 + i * A)) as Hna by (by apply aligned_add).
  remember (p0 + i * A) as na eqn:Ena.
  case_bool_decide as Hit; simpl; cycle 1.
  { wp_steps. split; [done|]. split; [done|]. split; [unfold accounted; lia|]. right.
    exists i. split; [lia|]. rewrite <- Ena. rewrite at_page, Hm, <- eq_None_not_Some in Hit.
    by apply lookup_union_None in Hit as [_ ?]. }
  apply at_page in Hit as [[h|] Hsec]; wp_steps; rewrite Hsec; wp_steps;
    [apply (wp_deref _ (Some h)); [done|]|apply (wp_deref _ None); [done|]].
  - wp_steps. destruct (v_page _ _ I na) as (_ & _ & Hle); [by eexists|].
    rewrite (u64_small (i + 1)) by (unfold kVmmAlignSize, w64 in *; lia).
    eapply wp_mono; [apply (IH (i + 1)); try done|].
    + lia.
    + lia.
    + rewrite (proj2 (at_page (vmm_map_ s) na)) by (by eexists). rewrite (next_page ∅ s na) by done.
      by replace (p0 + (i + 1) * A) with (na + A) by lia.
    + intros a Ha. destruct (HR a Ha). split; [done|]. unfold kVmmAlignSize in *. lia.
    + intros [] s' (I' & Hs & Hac & Hr); (split; [done|]); (split; [done|]); (split; [done|]).
      * destruct Hr as (Hkeep & Hall & Hmore & Hsub & Hc). split; [done|]. split; [|split; [|done]].
        -- intros j Hj. destruct (decide (j = i)) as [->|]; [|apply Hall; lia].
           rewrite <- Ena. exists h. by apply Hkeep.
        -- by replace (i + Z.of_nat (S n)) with (i + 1 + Z.of_nat n) by lia.
      * destruct Hr as [Hr|(j & Hj & Hn)]; [by left|]. right. exists j. split; [lia|done].
  - apply wp_bind. destruct (v_page _ _ I na) as (_ & _ & Hle); [by eexists|].
    assert (m0 !! na = Some None) as Hm0.
    { rewrite Hm in Hsec. apply lookup_union_Some_raw in Hsec as [Hx|[_ Hx]]; [|done].
      rewrite lookup_fmap in Hx. by destruct (R !! na). }
    eapply wp_mono; [by apply (take_handle_spec max_size ∅)|].
    intros [h|] s1 (Hm1 & Hs1 & Hh); cycle 1.
    { destruct Hh as (-> & Hc & Hroom). apply wp_bind.
      eapply wp_mono; [apply (MoveBack_spec R ∅ s m0); [done|done|by intros a Ha; apply HR]|].
      intros _ s2 (I2 & Hs2 & Hm2 & Hp2). wp_steps. split; [done|]. split; [done|].
      split; [unfold accounted; lia|]. left. split; [done|]. unfold room.
      destruct Hs2 as (_ & _ & _ & -> & _). by rewrite Hp2. }
    destruct Hh as (_ & I1 & Hcase). apply wp_bind.
    apply (Map_spec na h ∅ s1); [done|set_solver|by rewrite Hm1|]. intros s2 Hs2 Hm2. simpl. wp_steps.
    rewrite Hs2. destruct (map_page_inv na h ∅ s1) as [I3 Hs3]; [done|set_solver|by rewrite Hm1|].
    set (s3 := map_page na h s1) in *.
    assert (vmm_map_ s3 = <[na := Some h]> (vmm_map_ s)) as Hm3 by (simpl; by rewrite Hm1).
    destruct Hs1 as (D1 & V1 & B1 & X1 & R1), Hs3 as (D3 & V3 & B3 & X3 & R3).
    rewrite (u64_small (i + 1)) by (unfold kVmmAlignSize, w64 in *; lia).
    eapply wp_mono; [apply (IH (i + 1)); try done|].
    + lia.
    + rewrite B3, B1. lia.
    + rewrite (proj2 (at_page (vmm_map_ s) na)) by (by eexists). rewrite (next_page ∅ s3 na) by done.
      by replace (p0 + (i + 1) * A) with (na + A) by lia.
    + rewrite Hm3, Hm, fmap_insert, insert_union_l. done.
    + intros a. rewrite lookup_insert_is_Some. intros [<-|[_ Ha]].
      * split; [done|]. unfold kVmmAlignSize in *. lia.
      * destruct (HR a Ha). split; [done|]. unfold kVmmAlignSize in *. lia.
    + intros r s' (I' & (D' & V' & B' & X' & R') & [Ha1 Ha2] & Hr). split; [done|].
      split; [split_and!; congruence|].
      change (physical_handle_size_ s3) with (physical_handle_size_ s1) in *.
      change (cached_handle_sets_ s3) with (cached_handle_sets_ s1) in *.
      assert (accounted max_size s s1 ∧ cached_handle_sets_ s1 ⊆ cached_handle_sets_ s ∧
        (physical_handle_size_ s1 = physical_handle_size_ s ∨ cached_handle_sets_ s1 = ∅)) as ([Hb1 Hb2] & Hsub1 & Hc1).
      { unfold accounted. destruct Hcase as [(_ & Hc & ->)|(Hc & -> & [Hroom _] & ->)].
        - rewrite Hc. split; [lia|]. split; [set_solver|by left].
        - split; [lia|]. split; [set_solver|by right]. }
      split; [unfold accounted; lia|]. destruct r.
      * destruct Hr as (Hkeep & Hall & Hmore & Hsub & Hc). rewrite Hm3 in Hkeep.
        split; [|split; [|split; [|split]]].
        -- intros a k Ha. apply Hkeep. rewrite lookup_insert_ne; [done|]. intros <-. congruence.
        -- intros j Hj. destruct (decide (j = i)) as [->|]; [|apply Hall; lia].
           rewrite <- Ena. exists h. apply Hkeep, lookup_insert_eq.
        -- by replace (i + Z.of_nat (S n)) with (i + 1 + Z.of_nat n) by lia.
        -- set_solver.
        -- destruct Hc1 as [E|E]; [|right; set_solver]. by rewrite <- E.
      * destruct Hr as [Hr|(j & Hj & Hn)]; [by left|]. right. exists j. split; [lia|done].
Qed.

Lemma last_such_ext {B} (P Q : Z → bool) (m : gmap Z B) :
  (∀ k, is_Some (m !! k) → P k = Q k) → last_such P m = last_such Q m.
Proof.
  intros HPQ. destruct (last_such Q m) as [k|] eqn:E.
  - apply last_such_Some in E as (Hk & HQ & Hle). apply last_such_Some.
    split_and!; [done|by rewrite HPQ|]. intros j Hj HP. apply Hle; [done|]. by rewrite <- HPQ.
  - rewrite last_such_None in E. apply last_such_None. intros j Hj. rewrite HPQ by done. by apply E.
Qed.

(** The page that [FindVmmSegment] finds: the last at or below the address. *)
Definition segment s addr : Z := default 0 (last_such (λ k, k <=? addr) (vmm_map_ s)).

Lemma FindVmmSegment_eq addr s : FindVmmSegment addr s = Ret (segment s addr) s.
Proof.
  unfold FindVmmSegment, segment. case_bool_decide as Hb.
  - destruct (last_such _ _) as [k|] eqn:Hk; [|done]. exfalso.
    apply last_such_Some in Hk as (Hsk & Hle & _). apply Z.leb_le in Hle.
    destruct (begin (vmm_map_ s)) as [j|] eqn:Hj.
    + unfold upper_bound in Hb. apply first_such_Some in Hb as (_ & Hlt & _). apply Z.ltb_lt in Hlt.
      unfold begin in Hj. apply first_such_Some in Hj as (_ & _ & Hm). specialize (Hm k Hsk eq_refl). lia.
    + unfold begin in Hj. rewrite first_such_None in Hj. by specialize (Hj k Hsk).
  - unfold prev. rewrite (last_such_ext _ (λ k, k <=? addr)).
    + destruct (last_such _ _) as [k|] eqn:Hk; [done|]. exfalso. apply Hb.
      rewrite last_such_None in Hk. apply first_such_ext. intros k Hsk. specialize (Hk k Hsk).
      apply Z.leb_gt in Hk. by apply Z.ltb_lt.
    + intros k Hk. destruct (upper_bound (vmm_map_ s) addr) as [it|] eqn:Hit; unfold upper_bound in Hit.
      * apply first_such_Some in Hit as (_ & Hlt & Hm). apply Z.ltb_lt in Hlt.
        apply eq_true_iff_eq. rewrite Z.ltb_lt, Z.leb_le. split; [|lia]. intros Hki.
        destruct (Z.le_gt_cases k addr) as [?|Hgt]; [done|].
        specialize (Hm k Hk (proj2 (Z.ltb_lt _ _) Hgt)). lia.
      * rewrite first_such_None in Hit. specialize (Hit k Hk). apply Z.ltb_ge in Hit.
        symmetry. by apply Z.leb_le.
Qed.

Lemma round_up_aligned n : aligned (GetRoundUpAlignSize n).
Proof.
  unfold GetRoundUpAlignSize, aligned, u64 at 1. unfold kVmmAlignSize.
  assert (w64 = 8796093022208 * 2097152) as -> by done.
  generalize ((n +64 2097152 -64 1) / 2097152). intros q. Z.div_mod_to_equations. lia.
Qed.

Lemma GetHandleSize_round n s : GetHandleSize (GetRoundUpAlignSize n) s = Ret (GetRoundUpAlignSize n / A) s.
Proof.
  unfold GetHandleSize. pose proof (round_up_aligned n) as Ha. unfold aligned in Ha.
  fold A. rewrite Ha. done.
Qed.

(** The pages that a range of addresses touches. *)
Definition touched addr size a : Prop := aligned a ∧ addr < a + A ∧ a < addr + size.

Lemma round_up_small n : 0 <= n → n + A <= w64 → GetRoundUpAlignSize n = (n + A - 1) / A * A.
Proof.
  intros H0 Hn. unfold GetRoundUpAlignSize. fold A.
  rewrite u64_sub_l. rewrite (u64_small (n + A - 1)) by (unfold kVmmAlignSize in *; lia).
  apply u64_small. unfold kVmmAlignSize, w64 in *. Z.div_mod_to_equations. lia.
Qed.

Lemma touched_pages addr size a : 0 <= addr → 0 < size →
  touched addr size a ↔ ∃ j, 0 <= j < (size + addr mod A + A - 1) / A ∧ a = (addr - addr mod A) + j * A.
Proof.
  intros H0 Hs. unfold touched, aligned, kVmmAlignSize. split.
  - intros (Ha & H1 & H2). exists ((a - (addr - addr mod 2097152)) / 2097152).
    Z.div_mod_to_equations. lia.
  - intros (j & Hj & ->). Z.div_mod_to_equations. lia.
Qed.

Lemma segment_page X s addr : vmm_inv X s → 0 <= addr →
  is_Some (vmm_map_ s !! (addr - addr mod A)) → segment s addr = addr - addr mod A.
Proof.
  intros I H0 Hp. unfold segment.
  rewrite (proj2 (last_such_Some _ _ (addr - addr mod A))); [done|].
  pose proof (Z.mod_pos_bound addr A). split; [done|]. split; [apply Z.leb_le; unfold kVmmAlignSize in *; lia|].
  intros j Hj Hle. apply Z.leb_le in Hle. apply (v_page _ _ I) in Hj as (Hal & _).
  unfold aligned, kVmmAlignSize in *. Z.div_mod_to_equations. lia.
Qed.

Lemma segment_is_page X s addr : vmm_inv X s → segment s addr ≠ 0 →
  is_Some (vmm_map_ s !! segment s addr).
Proof.
  intros I. unfold segment. destruct (last_such _ _) as [k|] eqn:Hk; [|done].
  by apply last_such_Some in Hk as (? & _).
Qed.

(** Mapping keeps the invariant, whatever is asked for. *)
Lemma MmapDeviceMem_inv size addr max_size s : vmm_inv ∅ s →
  wp (MmapDeviceMem size addr max_size) s (λ _ s', vmm_inv ∅ s' ∧ same_space s s' ∧ accounted max_size s s').
Proof.
  intros I. unfold MmapDeviceMem. apply wp_bind. unfold wp at 1. rewrite FindVmmSegment_eq.
  destruct (Z.eqb_spec (segment s addr) 0) as [|Hne].
  { wp_steps. split; [done|]. split; [done|]. unfold accounted. lia. }
  destruct (segment_is_page _ _ _ I Hne) as [o Ho]. apply wp_bind. unfold wp at 1.
  rewrite GetHandleSize_round. wp_steps. rewrite Ho.
  destruct (v_page _ _ I (segment s addr)) as (Hal & H0 & Hle); [by eexists|].
  eapply wp_mono; [apply (MmapDeviceMem_loop_spec _ _ (vmm_map_ s)); try done|].
  - unfold kVmmAlignSize in *. lia.
  - rewrite Z.mul_0_l, Z.add_0_r. symmetry. apply at_page. by eexists.
  - by rewrite fmap_empty, map_empty_union.
  - intros a [? Ha]. by rewrite lookup_empty in Ha.
  - intros b s' (I' & Hs & Hac & _). by wp_steps.
Qed.

Lemma MmapDeviceMem_spec size addr max_size s : vmm_inv ∅ s →
  A <= addr → 0 < size → addr + size <= base_addr_ (vmm_manager_ s) →
  (∀ a, touched addr size a → is_Some (vmm_map_ s !! a)) →
  wp (MmapDeviceMem size addr max_size) s (λ r s', vmm_inv ∅ s' ∧ same_space s s' ∧
    accounted max_size s s' ∧
    ((r = size ∧ (∀ a, touched addr size a → ∃ h, vmm_map_ s' !! a = Some (Some h)) ∧
      (∀ a h, vmm_map_ s !! a = Some (Some h) → vmm_map_ s' !! a = Some (Some h)) ∧
      (∀ a, ¬ touched addr size a → vmm_map_ s' !! a = vmm_map_ s !! a) ∧
      (physical_handle_size_ s' = physical_handle_size_ s ∨ cached_handle_sets_ s' = ∅)) ∨
     (r = 0 ∧ vmm_map_ s' = vmm_map_ s ∧ ¬ room max_size s'))).
Proof.
  intros I Haddr Hsize Hend Hres. assert (0 < A) as HA by done. destruct (v_base _ _ I) as [Hba [Hb0 Hbw]].
  assert (0 <= addr) as H0 by (unfold kVmmAlignSize in *; lia).
  set (p0 := addr - addr mod A).
  assert (is_Some (vmm_map_ s !! p0)) as [o Ho].
  { apply Hres. apply touched_pages; [done..|]. exists 0. split; [|unfold p0; lia].
    unfold kVmmAlignSize. Z.div_mod_to_equations. lia. }
  assert (A <= p0 ∧ p0 <= addr) as [Hp0 Hp1].
  { unfold p0, kVmmAlignSize in *. Z.div_mod_to_equations. lia. }
  destruct (v_page _ _ I p0) as (Hal & _ & Hle); [by eexists|].
  unfold MmapDeviceMem. apply wp_bind. unfold wp at 1.
  rewrite FindVmmSegment_eq, (segment_page ∅) by (try done; by eexists). fold p0.
  destruct (Z.eqb_spec p0 0) as [->|_]; [unfold kVmmAlignSize in *; lia|].
  apply wp_bind. unfold wp at 1. rewrite GetHandleSize_round. wp_steps. rewrite Ho.
  assert (GetRoundUpAlignSize (size +64 CalAddressOffset addr p0) / A = (size + addr mod A + A - 1) / A) as ->.
  { unfold CalAddressOffset. rewrite (u64_small (addr - p0)) by lia.
    rewrite (u64_small (size + (addr - p0))) by lia.
    rewrite round_up_small by lia. rewrite Z.div_mul by done. unfold p0. f_equal. lia. }
  set (n := (size + addr mod A + A - 1) / A).
  assert (0 <= n) as Hn by (unfold n, kVmmAlignSize; Z.div_mod_to_equations; lia).
  eapply wp_mono; [apply (MmapDeviceMem_loop_spec p0 max_size (vmm_map_ s)); try done|].
  - unfold kVmmAlignSize in *. lia.
  - unfold kVmmAlignSize in *. lia.
  - rewrite Z.mul_0_l, Z.add_0_r. symmetry. apply at_page. by eexists.
  - by rewrite fmap_empty, map_empty_union.
  - intros a [? Ha]. by rewrite lookup_empty in Ha.
  - intros b s' (I' & Hs & Hac & Hr). wp_steps. split; [done|]. split; [done|]. split; [done|].
    rewrite Z2Nat.id in Hr by done. rewrite Z.add_0_l in Hr. destruct b.
    + left. destruct Hr as (Hkeep & Hall & Hmore & _ & Hc). split; [done|]. split; [|split; [done|split; [|done]]].
      * intros a Ha. apply touched_pages in Ha as (j & Hj & ->); [|done..]. by apply Hall.
      * intros a Ha. destruct (Hmore a) as [?|(Hn0 & Hr & _)]; [done|]. exfalso. apply Ha.
        apply touched_pages; [done..|]. exists ((a - p0) / A).
        destruct (v_page _ _ I a) as (Haa & _); [by eexists|]. fold n.
        unfold aligned, kVmmAlignSize in *. unfold p0 in *. clear Hkeep Hall Hmore Hc.
        Z.div_mod_to_equations. lia.
    + destruct Hr as [[Hm Hroom]|(j & Hj & Hn0)]; [by right|]. exfalso.
      destruct (Hres (p0 + j * A)) as [? E]; [|congruence]. apply touched_pages; [done..|].
      exists j. by split.
Qed.
End ops.
