(* ===== verification/VmmFree.v ===== *)
(** * Reserving, freeing and clearing virtual memory *)

From S2P Require Import Prelude VmmAdapter VmmInvariant VmmOps.

Section free.
Context `{HandleOrder}.
Implicit Types (s : Adapter) (a : Z) (h : positive) (X : gset positive).

(** ** Freeing eagerly *)

(** How many pages are mapped. *)
Definition mapped_count s : Z :=
  msum (λ o, match o with Some _ => 1 | None => 0 end) (vmm_map_ s).

(** The keys from an address on. *)
Definition from {B} (m : gmap Z B) a : gset Z := filter (λ k, a <= k) (dom m).

Lemma from_next {B} (m : gmap Z B) a : is_Some (m !! a) →
  (size (from m (a + A)) < size (from m a))%nat.
Proof.
  intros Ha%elem_of_dom. unfold from.
  assert ({[a]} ∪ filter (λ k, a + A <= k) (dom m) ⊆ filter (λ k, a <= k) (dom m)) as Hsub.
  { intros k. rewrite elem_of_union, elem_of_singleton, !elem_of_filter.
    unfold kVmmAlignSize. intros [->|[? ?]]; (split; [lia|done]). }
  apply subseteq_size in Hsub. rewrite size_union, size_singleton in Hsub; [lia|].
  intros k. rewrite elem_of_singleton, elem_of_filter. unfold kVmmAlignSize. lia.
Qed.

Lemma from_keys {B} (m : gmap Z B) a : (size (from m a) <= length (keys m))%nat.
Proof.
  unfold from, keys. rewrite length_fmap, length_map_to_list, <- size_dom.
  apply subseteq_size. intros k. rewrite elem_of_filter. tauto.
Qed.

(** The pages that lie within a range. *)
Definition within lo hi a : Prop := aligned a ∧ lo <= a ∧ a + A <= hi.

Lemma mapped_count_unmap a h s : vmm_map_ s !! a = Some (Some h) →
  mapped_count (unmap_page a h s) = mapped_count s - 1.
Proof. intros Ha. unfold mapped_count. simpl. rewrite (msum_update _ _ _ _ _ Ha). lia. Qed.

Lemma from_dom {B C} (m : gmap Z B) (m' : gmap Z C) a : dom m = dom m' → from m a = from m' a.
Proof. intros Hd. unfold from. by rewrite Hd. Qed.

Lemma EagerFreeDeviceMem_loop_spec hi pages : ∀ iter lo ret s,
  vmm_inv ∅ s → aligned lo → 0 <= lo <= base_addr_ (vmm_manager_ s) → 0 <= ret < w64 →
  iter = first_such (λ k, lo <=? k) (vmm_map_ s) →
  (size (from (vmm_map_ s) lo) <= pages)%nat →
  wp (EagerFreeDeviceMem_loop pages hi iter lo ret) s (λ r s', vmm_inv ∅ s' ∧ same_space s s' ∧
    physical_handle_size_ s' = physical_handle_size_ s ∧
    cached_handle_sets_ s ⊆ cached_handle_sets_ s' ∧
    (∀ a, vmm_map_ s' !! a = vmm_map_ s !! a ∨ (within lo hi a ∧ vmm_map_ s' !! a = Some None)) ∧
    ((∀ a, within lo hi a → is_Some (vmm_map_ s !! a)) →
     r = ret +64 A * (mapped_count s - mapped_count s') ∧
     ∀ a, within lo hi a → vmm_map_ s' !! a = Some None)).
Proof.
  induction pages as [|pages IH]; intros iter lo ret s I Hal Hlo Hret -> Hfuel; cbn [EagerFreeDeviceMem_loop];
    destruct (v_base _ _ I) as [_ [Hb0 Hbw]];
    (assert (AddressOffset lo kVmmAlignSize = lo + A) as ->
      by (apply u64_small; unfold kVmmAlignSize in *; lia));
    (destruct (Z.ltb_spec hi (lo + A)) as [Hhi|Hhi];
      [wp_steps; split_and!; try done; [by left|]; intros _; split;
         [by rewrite Z.sub_diag, Z.mul_0_r, Z.add_0_r, u64_small|];
         intros a (Ha & H1 & H2); exfalso; lia|]);
    (case_bool_decide as Hit; simpl;
      [apply at_page in Hit|
       wp_steps; split_and!; try done; [by left|]; intros Hin; exfalso; apply Hit, at_page, Hin;
       split_and!; done || lia]).
  - exfalso. pose proof (from_next _ _ Hit). lia.
  - pose proof (from_next _ _ Hit) as Hlt. destruct (v_page _ _ I lo Hit) as (_ & _ & Hle).
    assert (aligned (lo + A)) as Hal' by (rewrite <- (Z.mul_1_l A); by apply aligned_add).
    assert (∀ a, within lo hi a ↔ a = lo ∨ within (lo + A) hi a) as Hwithin.
    { intros a. unfold within. split.
      - intros (Ha & H1 & H2). destruct (decide (a = lo)) as [|Hne]; [by left|].
        right. split; [done|]. split; [|done]. apply aligned_gap; [done..|lia].
      - unfold kVmmAlignSize in *. intros [->|(? & ? & ?)]; (split; [done|lia]). }
    destruct Hit as [[h|] Hsec]; wp_steps; rewrite Hsec; wp_steps;
      [apply (wp_deref _ (Some h)); [done|]|apply (wp_deref _ None); [done|]]; wp_steps.
    + apply (Unmap_spec lo h ∅ s); [done|done|]. intros s2 Hs2 Hm2 Hc2. simpl. wp_steps. simpl.
      destruct (unmap_page_inv lo h ∅ s I Hsec) as [I3 Hs3].
      change (set_vmm_map (<[lo:=None]> (vmm_map_ s2)) (set_cached ({[h]} ∪ cached_handle_sets_ s2) s2))
        with (set_cached ({[h]} ∪ cached_handle_sets_ s2) (set_vmm_map (<[lo:=None]> (vmm_map_ s2)) s2)).
      rewrite Hs2. pose proof Hs3 as (D3 & _ & B3 & _). simpl in D3.
      rewrite (proj2 (at_page (vmm_map_ s) lo)) by (by eexists). rewrite Hm2.
      eapply wp_mono; [apply (IH _ (lo + A)); try done|].
      * rewrite B3. unfold kVmmAlignSize in *. lia.
      * apply u64_range.
      * rewrite <- (next_page ∅ (unmap_page lo h s)) by done. done.
      * rewrite (from_dom _ (vmm_map_ s)) by done. lia.
      * intros r s' (I' & Hs' & Hp & Hsub & Hch & Hall). split; [done|].
        split; [by eapply same_space_trans|]. split; [done|].
        split; [etrans; [|exact Hsub]; simpl; apply union_subseteq_r|]. split.
        -- intros a. destruct (Hch a) as [E|[Ha E]]; [|right; rewrite Hwithin; eauto].
           simpl in E. destruct (decide (lo = a)) as [<-|Hne].
           ++ rewrite lookup_insert_eq in E. right. rewrite Hwithin. eauto.
           ++ rewrite lookup_insert_ne in E by done. by left.
        -- intros Hin. destruct Hall as [-> Hall].
           { intros a Ha. simpl. rewrite lookup_insert_is_Some. right.
             assert (lo ≠ a) by (destruct Ha as (_ & ? & _); unfold kVmmAlignSize in *; lia).
             split; [done|]. apply Hin, Hwithin. by right. }
           split.
           ++ rewrite mapped_count_unmap by done. rewrite u64_add_l. f_equal. lia.
           ++ intros a [->|Ha]%Hwithin; [|by apply Hall].
              destruct (Hch lo) as [E|[_ E]]; [|done]. by rewrite E; simpl; rewrite lookup_insert_eq.
    + rewrite (proj2 (at_page (vmm_map_ s) lo)) by (by eexists).
      eapply wp_mono; [apply (IH _ (lo + A)); try done|].
      * unfold kVmmAlignSize in *. lia.
      * by apply (next_page ∅).
      * lia.
      * intros r s' (I' & Hs' & Hp & Hsub & Hch & Hall). split; [done|].
        split; [done|]. split; [done|]. split; [done|]. split.
        -- intros a. destruct (Hch a) as [E|[Ha E]]; [by left|right; rewrite Hwithin; eauto].
        -- intros Hin. destruct Hall as [-> Hall]; [intros a Ha; apply Hin, Hwithin; by right|].
           split; [done|]. intros a [->|Ha]%Hwithin; [|by apply Hall].
           destruct (Hch lo) as [E|[_ E]]; [|done]. by rewrite E.
Qed.

Lemma EagerFreeDeviceMem_inv addr size s : vmm_inv ∅ s →
  wp (EagerFreeDeviceMem addr size) s (λ _ s', vmm_inv ∅ s' ∧ same_space s s' ∧
    physical_handle_size_ s' = physical_handle_size_ s).
Proof.
  intros I. unfold EagerFreeDeviceMem. wp_steps.
  destruct (lower_bound (vmm_map_ s) addr) as [lo|] eqn:Hlo; wp_steps; [|by split_and!].
  unfold lower_bound in Hlo. apply first_such_Some in Hlo as (Hs & _ & _).
  destruct (v_page _ _ I lo Hs) as (Hal & H0 & Hle).
  eapply wp_mono; [apply (EagerFreeDeviceMem_loop_spec (AddressOffset addr size))|].
  - done.
  - done.
  - unfold kVmmAlignSize in *. lia.
  - done.
  - symmetry. by apply at_page.
  - apply from_keys.
  - by intros r s' (? & ? & ? & _).
Qed.

Lemma EagerFreeDeviceMem_spec addr size s : vmm_inv ∅ s →
  0 <= addr → 0 <= size → addr + size < w64 →
  (∀ a, within addr (addr + size) a → is_Some (vmm_map_ s !! a)) →
  wp (EagerFreeDeviceMem addr size) s (λ r s', vmm_inv ∅ s' ∧ same_space s s' ∧
    physical_handle_size_ s' = physical_handle_size_ s ∧
    cached_handle_sets_ s ⊆ cached_handle_sets_ s' ∧
    r = u64 (A * (mapped_count s - mapped_count s')) ∧
    ∀ a, (within addr (addr + size) a → vmm_map_ s' !! a = Some None) ∧
         (¬ within addr (addr + size) a → vmm_map_ s' !! a = vmm_map_ s !! a)).
Proof.
  intros I Ha0 Hs0 Hend Hin. unfold EagerFreeDeviceMem. wp_steps.
  destruct (lower_bound (vmm_map_ s) addr) as [lo|] eqn:Hlo; wp_steps; unfold lower_bound in Hlo.
  - apply first_such_Some in Hlo as (Hs & Hle & Hmin). apply Z.leb_le in Hle.
    destruct (v_page _ _ I lo Hs) as (Hal & H0 & Hb).
    assert (AddressOffset addr size = addr + size) as -> by (apply u64_small; lia).
    assert (∀ a, within addr (addr + size) a ↔ within lo (addr + size) a) as Hw.
    { intros a. split; [|intros (? & ? & ?); split_and!; done || lia]. intros Hwa.
      pose proof (Hmin a (Hin a Hwa)). destruct Hwa as (? & Hge & ?). split_and!; [done| |done].
      apply H1. by apply Z.leb_le. }
    eapply wp_mono; [apply (EagerFreeDeviceMem_loop_spec (addr + size))|].
    + done.
    + done.
    + unfold kVmmAlignSize in *. lia.
    + done.
    + symmetry. by apply at_page.
    + apply from_keys.
    + intros r s' (I' & Hs' & Hp & Hsub & Hch & Hall). split_and!; try done.
      * destruct Hall as [-> _]; [|done]. intros a Ha. apply Hin. by apply Hw.
      * intros a. split.
        -- intros Ha. apply Hall; [|by apply Hw]. intros b Hb'. apply Hin. by apply Hw.
        -- intros Hn. destruct (Hch a) as [E|[Ha _]]; [done|]. exfalso. by apply Hn, Hw.
  - rewrite first_such_None in Hlo. split_and!; try done; [by rewrite Z.sub_diag|].
    intros a. split; [|done]. intros Hwa. exfalso. pose proof (Hlo a (Hin a Hwa)) as Hf.
    apply Z.leb_gt in Hf. destruct Hwa as (_ & ? & _). lia.
Qed.

(** ** Reserving *)

(** What has been reserved. An empty reservation ends where it begins, and the next
    one is given the same address. *)
Record reserve_inv s : Prop := {
  r_virtual : dom (virtual_addresses_ (vmm_manager_ s)) = list_to_set (all_reserve_mems_ s);
  r_below a : a ∈ all_reserve_mems_ s → a <= base_addr_ (vmm_manager_ s);
}.

Lemma reserve_inv_ext s s' : same_space s s' → reserve_inv s → reserve_inv s'.
Proof. intros (_ & E1 & E2 & _ & E3) []. split; by rewrite ?E1, ?E2, ?E3. Qed.

Lemma reserve_pages_spec base n s : aligned base → 0 <= base → base + n * A < w64 → 0 <= n →
  wp (forM (seqZ 0 n) (λ _ i, modify (λ s, set_vmm_map
        (<[AddressOffset base (i *64 kVmmAlignSize) := None]> (vmm_map_ s)) s)) ()) s
    (λ _ s', (∀ a, (aligned a ∧ base <= a < base + n * A → vmm_map_ s' !! a = Some None) ∧
        (¬ (aligned a ∧ base <= a < base + n * A) → vmm_map_ s' !! a = vmm_map_ s !! a)) ∧
      s' = set_vmm_map (vmm_map_ s') s).
Proof.
  intros Hal H0 Hw Hn.
  apply (wp_forM _ _ _ _ (λ l _ s', ∃ k, 0 <= k <= n ∧ l = seqZ k (n - k) ∧
    (∀ a, (aligned a ∧ base <= a < base + k * A → vmm_map_ s' !! a = Some None) ∧
        (¬ (aligned a ∧ base <= a < base + k * A) → vmm_map_ s' !! a = vmm_map_ s !! a)) ∧
      s' = set_vmm_map (vmm_map_ s') s)).
  - exists 0. rewrite Z.sub_0_r, Z.mul_0_l, Z.add_0_r. split; [lia|]. split; [done|].
    split; [|by destruct s]. intros a. split; [lia|done].
  - intros i l [] s1 (k & Hk & El & Hp & Es). wp_steps.
    assert (k < n) as Hkn. { destruct (Z.lt_ge_cases k n); [done|]. rewrite seqZ_nil in El by lia. done. }
    rewrite seqZ_cons in El by lia. injection El as -> ->. exists (Z.succ k).
    assert (AddressOffset base (k *64 kVmmAlignSize) = base + k * A) as ->.
    { unfold AddressOffset. rewrite u64_page by (unfold kVmmAlignSize in *; lia).
      apply u64_small. unfold kVmmAlignSize in *. lia. }
    pose proof (aligned_add base k Hal) as Hak.
    split; [lia|]. split; [f_equal; lia|]. split; [|by rewrite Es; destruct s].
    intros a. simpl. destruct (Hp a) as [Hp1 Hp2]. destruct (decide (a = base + k * A)) as [->|Hne].
    + rewrite lookup_insert_eq. split; [done|]. intros Hx. exfalso. apply Hx.
      unfold kVmmAlignSize in *. split; [done|lia].
    + rewrite lookup_insert_ne by done.
      assert (aligned a → base <= a → a < base + Z.succ k * A → a < base + k * A) as Hlt.
      { intros Ha Hba Hlt. destruct (Z.lt_ge_cases a (base + k * A)); [done|].
        pose proof (aligned_gap _ _ Hak Ha). unfold kVmmAlignSize in *. lia. }
      split.
      * intros (Ha & Hba & Hl). apply Hp1. split_and!; auto.
      * intros Hx. apply Hp2. intros (Ha & Hba & Hl). apply Hx. split; [done|].
        unfold kVmmAlignSize in *. lia.
  - intros [] s' (k & Hk & El & Hp & Es). split; [|done].
    assert (k = n) as ->; [|done]. destruct (Z.lt_ge_cases k n); [|lia]. rewrite seqZ_cons in El by lia. done.
Qed.

Lemma wp_GetHandleSize n s (Q : Z → Adapter → Prop) : aligned n → Q (n / A) s → wp (GetHandleSize n) s Q.
Proof.
  intros Hn HQ. unfold GetHandleSize. unfold aligned in Hn. rewrite Hn. simpl. by wp_steps.
Qed.

Lemma AllocDeviceMem_spec size s : vmm_inv ∅ s → reserve_inv s → 0 <= size →
  base_addr_ (vmm_manager_ s) + size + 2 * A < w64 →
  wp (AllocDeviceMem size) s (λ r s', vmm_inv ∅ s' ∧ reserve_inv s' ∧
    size <= r.1 < size + A ∧ r.2 = base_addr_ (vmm_manager_ s) ∧
    base_addr_ (vmm_manager_ s') = r.2 + r.1 ∧
    physical_handle_size_ s' = physical_handle_size_ s ∧
    cached_handle_sets_ s' = cached_handle_sets_ s ∧
    max_mem_size_ (vmm_manager_ s') = max_mem_size_ (vmm_manager_ s) ∧
    all_reserve_mems_ s' = all_reserve_mems_ s ++ [r.2] ∧
    ∀ a, (within r.2 (r.2 + r.1) a → vmm_map_ s !! a = None ∧ vmm_map_ s' !! a = Some None) ∧
         (¬ within r.2 (r.2 + r.1) a → vmm_map_ s' !! a = vmm_map_ s !! a)).
Proof.
  intros I R Hs Hw. assert (0 < A) as HA by done. destruct (v_base _ _ I) as [Hal [Hb0 Hbw]].
  set (base := base_addr_ (vmm_manager_ s)) in *.
  pose proof (round_up_aligned size) as Hra. rewrite round_up_small in Hra by lia.
  set (n := (size + A - 1) / A) in *.
  assert (0 <= n ∧ size <= n * A < size + A) as [Hn Hna].
  { unfold n, kVmmAlignSize in *. Z.div_mod_to_equations. lia. }
  assert (∀ a, vmm_map_ s !! a = None ∨ a + A <= base) as Hbelow.
  { intros a. destruct (vmm_map_ s !! a) eqn:E; [right|by left]. apply (v_page _ _ I a). by eexists. }
  unfold AllocDeviceMem. rewrite round_up_small by lia. fold n.
  apply wp_bind, wp_on_manager. unfold MallocVirtualAddress. wp_steps. simpl. fold base.
  rewrite (u64_small (base + n * A)) by lia. apply wp_GetHandleSize; [done|].
  rewrite Z.div_mul by done. apply wp_bind.
  eapply wp_mono; [apply (reserve_pages_spec base n); done || lia|].
  intros [] s' [Hp Es]. wp_steps. simpl in Hp. rewrite Es. simpl.
  assert (∀ a, aligned a ∧ base <= a < base + n * A ↔ within base (base + n * A) a) as Hwi.
  { intros a. unfold within. split; [|intros (? & ? & ?); split; [done|]; unfold kVmmAlignSize in *; lia].
    intros (Ha & ? & ?).
    split_and!; [done..|]. apply aligned_gap; [done|by apply aligned_add|done]. }
  split; [|split; [|split_and!; try done; try lia]].
  - destruct I as [I1 I2 I3 I4 I5 I6 I7 I8 I9 I10 I11 I12]. split; simpl; try done.
    + intros a Ha. destruct (decide (aligned a ∧ base <= a < base + n * A)) as [Hin|Hout].
      * apply Hwi in Hin as Hin'. destruct Hin' as (? & ? & ?). split_and!; done || lia.
      * rewrite (proj2 (Hp a) Hout) in Ha. destruct (I1 a Ha) as (? & ? & ?).
        fold base in H2. split_and!; [done..|lia].
    + split; [by apply aligned_add|lia].
    + intros a h. rewrite I3. destruct (decide (aligned a ∧ base <= a < base + n * A)) as [Hin|Hout].
      * rewrite (proj1 (Hp a) Hin). destruct (Hbelow a) as [->|?]; [done|lia].
      * by rewrite (proj2 (Hp a) Hout).
  - destruct R as [R1 R2]. split; simpl.
    + rewrite list_to_set_app_L, <- R1.
      destruct (virtual_addresses_ (vmm_manager_ s) !! base) as [v|] eqn:Hv; [|rewrite dom_insert_L; set_solver].
      assert (base ∈ dom (virtual_addresses_ (vmm_manager_ s))) by (apply elem_of_dom; by eexists).
      set_solver.
    + intros a [Ha%R2| ->%list_elem_of_singleton]%elem_of_app; [fold base in Ha|]; lia.
  - intros a. destruct (decide (within base (base + n * A) a)) as [Hin|Hout].
    + split; [intros _|done]. apply Hwi in Hin. split; [|by apply Hp].
      destruct (Hbelow a) as [|?]; [done|lia].
    + split; [done|intros _]. apply Hp. by rewrite Hwi.
Qed.

(** ** Clearing *)

Lemma FreeHandle_spec h s (Q : bool → Adapter → Prop) :
  h ∈ handles_ (vmm_manager_ s) → is_Some (handle_objects (vmm_manager_ s) !! h) →
  Q true (set_manager (set_handles (handles_ (vmm_manager_ s) ∖ {[h]})
    (delete h (handle_objects (vmm_manager_ s))) (next_handle (vmm_manager_ s)) (vmm_manager_ s)) s) →
  wp (on_manager (FreeHandle h)) s Q.
Proof.
  intros Hh [o Ho] HQ. apply wp_on_manager. unfold FreeHandle. wp_steps.
  rewrite bool_decide_eq_true_2 by done. wp_steps. apply (wp_load_handle h o); [done|]. by wp_steps.
Qed.

(** While the pages of [l] are still to be unmapped. *)
Record clearing (l : list (Z * option positive)) s0 s : Prop := {
  c_nodup : NoDup l.*1;
  c_pages a h : (a, Some h) ∈ l → vmm_map_ s0 !! a = Some (Some h);
  c_mapped a h : mapped_addrs_ (vmm_manager_ s) !! a = Some h ↔ (a, Some h) ∈ l;
  c_handles : handles_ (vmm_manager_ s) = dom (handle_objects (vmm_manager_ s));
  c_objects h : is_Some (handle_objects (vmm_manager_ s) !! h) ↔
    h ∈ cached_handle_sets_ s0 ∨ ∃ a, (a, Some h) ∈ l;
  c_object a h : (a, Some h) ∈ l → handle_objects (vmm_manager_ s) !! h = Some (MkHandle true a A);
  c_space : same_space s0 s;
  c_rest : vmm_map_ s = vmm_map_ s0 ∧ cached_handle_sets_ s = cached_handle_sets_ s0 ∧
    physical_handle_size_ s = physical_handle_size_ s0;
}.

Lemma clearing_start s : vmm_inv ∅ s → clearing (entries (vmm_map_ s)) s s.
Proof.
  intros I. pose proof I as [I1 I2 I3 I4 I5 I6 I7 I8 I9 I10 I11 I12].
  split; try done.
  - apply NoDup_entries.
  - intros a h. apply elem_of_pairs.
  - intros a h. by rewrite elem_of_pairs.
  - intros h. split.
    + intros [Hc|[a Ha]]%I7; [left; set_solver|right]. exists a. apply elem_of_pairs. by apply I3.
    + intros [Hc|[a Ha%elem_of_pairs%I3%I4]]; [|by eexists]. eexists. apply I5. set_solver.
  - intros a h Ha%elem_of_pairs%I3. by apply I4.
Qed.

Lemma clearing_step a h l s0 s : vmm_inv ∅ s0 → clearing ((a, Some h) :: l) s0 s →
  wp (on_manager (Unmap a);; on_manager (FreeHandle h);; mret ()) s (λ _ s', clearing l s0 s').
Proof.
  intros I0 [C1 C2 C3 C4 C5 C6 C7 C8].
  assert (mapped_addrs_ (vmm_manager_ s) !! a = Some h) as Ha by (apply C3; left).
  assert (handle_objects (vmm_manager_ s) !! h = Some (MkHandle true a A)) as Hh by (apply C6; left).
  simpl in C1. apply NoDup_cons in C1 as [Hna Hnd].
  assert (∀ b k, (b, Some k) ∈ l → b ≠ a ∧ k ≠ h) as Hother.
  { intros b k Hb. assert (b ≠ a) as Hne.
    { intros ->. apply Hna, list_elem_of_fmap. by exists (a, Some k). }
    split; [done|]. intros ->. apply Hne. eapply (vmm_inj s0 ∅ b a h I0); apply C2; by constructor. }
  apply wp_bind, wp_on_manager. unfold Unmap. wp_steps. rewrite Ha. unfold MemHandle_Unmap. wp_steps.
  apply (wp_load_handle h (MkHandle true a A)); [done|]. simpl. rewrite Z.eqb_refl. simpl.
  apply (wp_store_handle h (MkHandle true a A)); [done|]. wp_steps.
  apply FreeHandle_spec; simpl.
  { rewrite C4, elem_of_dom. by eexists. }
  { rewrite lookup_insert_eq. by eexists. }
  wp_steps. rewrite delete_insert_eq. split; simpl; try done.
  - intros b k Hb. apply C2. by right.
  - intros b k. rewrite lookup_delete_Some, C3, elem_of_cons. split.
    + intros [Hne [[= -> ->]|?]]; done.
    + intros Hb. split; [by apply not_eq_sym, (Hother b k)|by right].
  - rewrite dom_delete_L, C4. done.
  - intros k. rewrite lookup_delete_is_Some, C5. split.
    + intros [Hne [?|[b [[= -> ->]|Hb]%elem_of_cons]]]; [by left|done|right; by exists b].
    + intros [Hc|[b Hb]].
      * split; [|by left]. intros <-. assert (handle_objects (vmm_manager_ s0) !! h = Some (MkHandle false 0 0)) as E
          by (apply (v_idle _ _ I0); set_solver).
        assert (vmm_map_ s0 !! a = Some (Some h)) as E2%(v_mapped _ _ I0)%(v_object _ _ I0)
          by (apply C2; left). congruence.
      * split; [by apply not_eq_sym, (Hother b k)|right]. exists b. by right.
  - intros b k Hb. rewrite lookup_delete_ne by (by apply not_eq_sym, (Hother b k)).
    apply C6. by right.
Qed.

Lemma free_cached_spec n : ∀ s, size (cached_handle_sets_ s) = n →
  handles_ (vmm_manager_ s) = dom (handle_objects (vmm_manager_ s)) →
  dom (handle_objects (vmm_manager_ s)) = cached_handle_sets_ s →
  wp (free_cached n) s (λ _ s', handles_ (vmm_manager_ s') = ∅ ∧ handle_objects (vmm_manager_ s') = ∅ ∧
    cached_handle_sets_ s' = ∅ ∧ mapped_addrs_ (vmm_manager_ s') = mapped_addrs_ (vmm_manager_ s) ∧
    same_space s s' ∧ physical_handle_size_ s' = physical_handle_size_ s).
Proof.
  induction n as [|n IH]; intros s Hsz Hh Hd; cbn [free_cached]; wp_steps.
  - apply size_empty_inv, leibniz_equiv in Hsz. rewrite bool_decide_eq_true_2 by done. wp_steps.
    rewrite Hh, Hd, Hsz. split_and!; try done. apply dom_empty_inv_L. congruence.
  - rewrite bool_decide_eq_false_2 by (intros E; by rewrite E, size_empty in Hsz). wp_steps.
    pose proof (first_handle_in (cached_handle_sets_ s)) as Hin.
    set (h := first_handle (cached_handle_sets_ s)) in *.
    assert (h ∈ cached_handle_sets_ s) as Hc by (apply Hin; intros E; by rewrite E, size_empty in Hsz).
    apply FreeHandle_spec; simpl.
    { by rewrite Hh, Hd. }
    { by rewrite <- elem_of_dom, Hd. }
    eapply wp_mono; [apply IH|]; simpl.
    + rewrite size_difference by set_solver. rewrite size_singleton. lia.
    + by rewrite dom_delete_L, Hh.
    + by rewrite dom_delete_L, Hd.
    + done.
Qed.

(** Everything is unmapped and freed but the reservations. *)
Definition cleared s s' : Prop :=
  handles_ (vmm_manager_ s') = ∅ ∧ handle_objects (vmm_manager_ s') = ∅ ∧
  mapped_addrs_ (vmm_manager_ s') = ∅ ∧ cached_handle_sets_ s' = ∅ ∧
  same_space s s' ∧ physical_handle_size_ s' = physical_handle_size_ s.

Lemma unmap_all_spec s : vmm_inv ∅ s →
  wp (forM (entries (vmm_map_ s)) (λ _ '(addr, second),
    match second with
    | None => mret ()
    | Some handle => on_manager (Unmap addr);; on_manager (FreeHandle handle);; mret ()
    end) ()) s (λ _, clearing [] s).
Proof.
  intros I. apply (wp_forM _ _ _ _ (λ l _ s', clearing l s s')).
  { by apply clearing_start. }
  { intros [a [h|]] l [] s1 C; [by apply clearing_step|]. wp_steps. destruct C as [C1 C2 C3 C4 C5 C6 C7 C8].
    simpl in C1. apply NoDup_cons in C1 as [_ C1].
    assert (∀ b k, (b, Some k) ∈ (a, None) :: l ↔ (b, Some k) ∈ l) as E.
    { intros b k. rewrite elem_of_cons. naive_solver. }
    split; try done.
    - intros b k Hb. apply C2. by apply E.
    - intros b k. by rewrite C3, E.
    - intros k. rewrite C5. by setoid_rewrite E.
    - intros b k Hb. apply C6. by apply E. }
  done.
Qed.

Lemma free_all_spec s s1 : clearing [] s s1 →
  wp (free_cached (size (cached_handle_sets_ s1))) s1 (λ _, cleared s).
Proof.
  intros [C1 C2 C3 C4 C5 C6 C7 (Cm & Cc & Cp)].
  eapply wp_mono; [apply free_cached_spec; [done|done|]|].
  { rewrite Cc. apply set_eq. intros h. rewrite elem_of_dom, C5. split; [|by left].
    intros [?|[a []%not_elem_of_nil]]; done. }
  intros [] s2 (H2 & O2 & Hc2 & M2 & Hs2 & P2). split_and!; try done.
  - rewrite M2. apply map_empty. intros a. destruct (mapped_addrs_ (vmm_manager_ s1) !! a) as [h|] eqn:E; [|done].
    apply C3 in E. by apply not_elem_of_nil in E.
  - by eapply same_space_trans.
  - congruence.
Qed.

Lemma ClearAllMemory_spec s : vmm_inv ∅ s → reserve_inv s → NoDup (all_reserve_mems_ s) →
  wp ClearAllMemory s (λ _ s', handles_ (vmm_manager_ s') = ∅ ∧ handle_objects (vmm_manager_ s') = ∅ ∧
    mapped_addrs_ (vmm_manager_ s') = ∅ ∧ virtual_addresses_ (vmm_manager_ s') = ∅ ∧
    vmm_map_ s' = ∅ ∧ cached_handle_sets_ s' = ∅ ∧ all_reserve_mems_ s' = [] ∧
    physical_handle_size_ s' = physical_handle_size_ s ∧
    max_mem_size_ (vmm_manager_ s') = max_mem_size_ (vmm_manager_ s)).
Proof.
  intros I R Hnd. unfold ClearAllMemory. wp_steps.
  eapply wp_mono; [by apply unmap_all_spec|]. intros [] s1 C. wp_steps.
  eapply wp_mono; [apply (free_all_spec s), C|].
  intros [] s2 (H2 & O2 & M2 & Hc2 & (D2 & V2 & B2 & X2 & R2) & P2). wp_steps.
  apply (wp_forM _ _ _ _ (λ l _ s', NoDup l ∧ dom (virtual_addresses_ (vmm_manager_ s')) = list_to_set l ∧
    s' = set_manager (set_virtual (virtual_addresses_ (vmm_manager_ s')) (base_addr_ (vmm_manager_ s2))
      (vmm_manager_ s2)) s2)).
  - rewrite R2, V2. split; [done|]. split; [apply R|]. rewrite <- V2. by destruct s2 as [[]].
  - intros a l [] s3 (Hnd3 & Hdom & Es). apply NoDup_cons in Hnd3 as [Hna Hnd3].
    apply wp_bind, wp_on_manager. unfold FreeVirtualAddress. wp_steps.
    destruct (virtual_addresses_ (vmm_manager_ s3) !! a) as [v|] eqn:Ev; cycle 1.
    { apply not_elem_of_dom in Ev. rewrite Hdom in Ev. set_solver. }
    wp_steps. split; [done|]. split.
    + simpl. rewrite dom_delete_L, Hdom. apply set_eq. intros b. set_solver.
    + rewrite Es. by destruct s2 as [[]].
  - intros [] s3 (_ & Hdom & Es). wp_steps. rewrite Es. simpl. split_and!; try done; try congruence.
    apply dom_empty_inv_L. rewrite Hdom. done.
Qed.

(** ** Clearing reservations that share an address *)

Definition throws {B} (m : M Adapter B) s : Prop := ∃ e s', m s = Throw e s'.

Lemma throws_after {B C} (m : M Adapter B) (f : B → M Adapter C) s (Q : B → Adapter → Prop) :
  wp m s Q → (∀ x s', Q x s' → throws (f x) s') → throws (m ≫= f) s.
Proof.
  intros (x & s' & E & HQ)%wp_inv Hf. destruct (Hf _ _ HQ) as (e & s2 & E2).
  exists e, s2. unfold mbind, M_bind. by rewrite E.
Qed.

Lemma throws_bind {B C} (m : M Adapter B) (f : B → M Adapter C) s : throws m s → throws (m ≫= f) s.
Proof. intros (e & s' & E). exists e, s'. unfold mbind, M_bind. by rewrite E. Qed.

(** There are fewer addresses to free than are freed. *)
Lemma free_addresses_throws l : ∀ s,
  (size (dom (virtual_addresses_ (vmm_manager_ s))) < length l)%nat →
  throws (forM l (λ _ addr, on_manager (FreeVirtualAddress addr);; mret ()) ()) s.
Proof.
  induction l as [|a l IH]; intros s Hlt; simpl in *; [lia|].
  destruct (virtual_addresses_ (vmm_manager_ s) !! a) as [v|] eqn:Ev.
  - eapply (throws_after _ _ _ (λ _ s', virtual_addresses_ (vmm_manager_ s') =
      delete a (virtual_addresses_ (vmm_manager_ s)))).
    + apply wp_bind, wp_on_manager. unfold FreeVirtualAddress. wp_steps. rewrite Ev. by wp_steps.
    + intros [] s' E. apply IH. rewrite E, dom_delete_L.
      assert (a ∈ dom (virtual_addresses_ (vmm_manager_ s))) as Ha by (apply elem_of_dom; by eexists).
      assert ({[a]} ⊆ dom (virtual_addresses_ (vmm_manager_ s))) as Hsub by set_solver.
      pose proof (subseteq_size _ _ Hsub) as Hge. rewrite size_singleton in Hge.
      rewrite size_difference, size_singleton by done. lia.
  - do 2 apply throws_bind. eexists _, _. unfold on_manager, zoom, FreeVirtualAddress, mbind, M_bind, gets.
    by rewrite Ev.
Qed.

Lemma list_to_set_size (l : list Z) : (size (list_to_set l : gset Z) <= length l)%nat.
Proof.
  induction l as [|a l IH]; [done|]. simpl.
  destruct (decide (a ∈ l)); [assert ({[a]} ∪ list_to_set l = (list_to_set l : gset Z)) as -> by set_solver; lia|].
  rewrite size_union, size_singleton by set_solver. lia.
Qed.

Lemma list_to_set_size_lt (l : list Z) : ¬ NoDup l → (size (list_to_set l : gset Z) < length l)%nat.
Proof.
  induction l as [|a l IH]; intros Hnd; [by destruct Hnd; constructor|].
  rewrite NoDup_cons in Hnd. simpl. pose proof (list_to_set_size l).
  destruct (decide (a ∈ l)); [assert ({[a]} ∪ list_to_set l = (list_to_set l : gset Z)) as -> by set_solver; lia|].
  rewrite size_union, size_singleton by set_solver. assert (¬ NoDup l) as Hl by tauto.
  specialize (IH Hl). lia.
Qed.

Lemma ClearAllMemory_throws s : vmm_inv ∅ s → reserve_inv s → ¬ NoDup (all_reserve_mems_ s) →
  throws ClearAllMemory s.
Proof.
  intros I R Hnd. unfold ClearAllMemory.
  eapply (throws_after _ _ _ (λ m s', m = vmm_map_ s ∧ s' = s)); [by wp_steps|].
  intros m s' [-> ->]. eapply throws_after; [by apply unmap_all_spec|].
  intros [] s1 C. eapply (throws_after _ _ _ (λ m s', m = cached_handle_sets_ s1 ∧ s' = s1)); [by wp_steps|].
  intros c s' [-> ->]. eapply throws_after; [apply (free_all_spec s), C|].
  intros [] s2 (_ & _ & _ & _ & (_ & V2 & _ & _ & R2) & _).
  eapply (throws_after _ _ _ (λ l s', l = all_reserve_mems_ s ∧ s' = s2)); [by wp_steps|].
  intros l s' [-> ->]. apply throws_bind, free_addresses_throws. rewrite V2, (r_virtual _ R).
  by apply list_to_set_size_lt.
Qed.
End free.
