(* ===== verification/VmmTheorems.v ===== *)
(** * Properties of the virtual memory adapter

    And of the device that [MemoryPool] makes of it. *)

From S2P Require Import Prelude VmmAdapter VmmInvariant VmmOps VmmFree.

Section theorems.
Context `{HandleOrder}.
Implicit Types (s : Adapter) (a : Z).

(** What the pool asks of the adapter. *)
Inductive vmm_request :=
| VmmAlloc (size : Z)
| VmmMap (size addr max_size : Z)
| VmmFree (addr size : Z).

Definition vmm_perform (q : vmm_request) : M Adapter unit :=
  match q with
  | VmmAlloc size => AllocDeviceMem size;; mret ()
  | VmmMap size addr max_size => MmapDeviceMem size addr max_size;; mret ()
  | VmmFree addr size => EagerFreeDeviceMem addr size;; mret ()
  end.

Definition vmm_run (qs : list vmm_request) : M Adapter unit := forM qs (λ _ q, vmm_perform q) ().

(** The address space that requests reserve, at most. *)
Definition reserved_by (q : vmm_request) : Z :=
  match q with VmmAlloc size => size + A | _ => 0 end.
Definition reserved_by_all (qs : list vmm_request) : Z := foldr (λ q n, reserved_by q + n) 0 qs.

(** Sizes are words. *)
Definition sized (q : vmm_request) : Prop := match q with VmmAlloc size => 0 <= size | _ => True end.

(** Whether a reservation of no bytes is followed by another reservation, which is
    then given its address; [pending] when the last one was of no bytes. *)
Fixpoint shares_address (pending : bool) (qs : list vmm_request) : bool :=
  match qs with
  | [] => false
  | VmmAlloc size :: qs => pending || shares_address (size =? 0) qs
  | _ :: qs => shares_address pending qs
  end.

Lemma new_Adapter_inv max_mem_size : 0 < max_mem_size <= w64 - A →
  vmm_inv ∅ (new_Adapter max_mem_size) ∧ reserve_inv (new_Adapter max_mem_size).
Proof.
  intros Hm. split; split; simpl; try done.
  all: try (intros ? [? Hx]; by rewrite lookup_empty in Hx).
  - change (Z.of_nat (size (∅ : gset positive)) * A < max_mem_size + A). rewrite size_empty.
    unfold kVmmAlignSize. lia.
  - intros a []%not_elem_of_nil.
Qed.

(** The addresses that have been reserved so far are apart, unless two of them are
    the same; [pending] tells whether the last one is where the next one will be. *)
Definition reserved_apart (pending shared : bool) s : Prop :=
  if shared then ¬ NoDup (all_reserve_mems_ s)
  else NoDup (all_reserve_mems_ s) ∧
    (pending = true ↔ base_addr_ (vmm_manager_ s) ∈ all_reserve_mems_ s).

Lemma reserved_apart_ext p sh s s' : same_space s s' → reserved_apart p sh s → reserved_apart p sh s'.
Proof. intros (_ & _ & E2 & _ & E3). unfold reserved_apart. by rewrite E2, E3. Qed.

Lemma reserved_apart_next p sh size n s s' : 0 <= size → size <= n → (size = 0 → n = 0) →
  reserve_inv s → base_addr_ (vmm_manager_ s') = base_addr_ (vmm_manager_ s) + n →
  all_reserve_mems_ s' = all_reserve_mems_ s ++ [base_addr_ (vmm_manager_ s)] →
  reserved_apart p sh s → reserved_apart (size =? 0) (sh || p) s'.
Proof.
  intros Hs Hn H0 R Hb Hr. unfold reserved_apart. destruct sh; simpl.
  { rewrite Hr, NoDup_app. tauto. }
  intros [Hnd Hp]. destruct p; rewrite Hr.
  - rewrite NoDup_app. intros (_ & Hx & _). apply (Hx (base_addr_ (vmm_manager_ s))); [by apply Hp|].
    by apply list_elem_of_singleton.
  - assert (base_addr_ (vmm_manager_ s) ∉ all_reserve_mems_ s) as Hni by (intros ?%Hp; done).
    split.
    + apply NoDup_app. split; [done|]. split; [|apply NoDup_singleton].
      by intros a Ha ->%list_elem_of_singleton.
    + rewrite Hb, elem_of_app, list_elem_of_singleton, Z.eqb_eq. split; [intros; right; lia|].
      intros [Hx|Hx]; [|lia]. apply (r_below _ R) in Hx. lia.
Qed.

Lemma vmm_run_spec qs s pending shared : vmm_inv ∅ s → reserve_inv s → Forall sized qs →
  reserved_apart pending shared s →
  base_addr_ (vmm_manager_ s) + reserved_by_all qs + A < w64 →
  wp (vmm_run qs) s (λ _ s', vmm_inv ∅ s' ∧ reserve_inv s' ∧
    max_mem_size_ (vmm_manager_ s') = max_mem_size_ (vmm_manager_ s) ∧
    ∃ p, reserved_apart p (shared || shares_address pending qs) s').
Proof.
  intros I R Hq Hap Hw. unfold vmm_run.
  apply (wp_forM _ _ _ _ (λ l _ s', vmm_inv ∅ s' ∧ reserve_inv s' ∧ Forall sized l ∧
    base_addr_ (vmm_manager_ s') + reserved_by_all l + A < w64 ∧
    max_mem_size_ (vmm_manager_ s') = max_mem_size_ (vmm_manager_ s) ∧
    ∃ p sh, reserved_apart p sh s' ∧ sh || shares_address p l = shared || shares_address pending qs)).
  - split_and!; try done. by exists pending, shared.
  - intros q l [] s1 (I1 & R1 & Hl & Hw1 & Hm & p & sh & Hap1 & Hsh).
    apply Forall_cons in Hl as [Hq1 Hl]. assert (0 < A) as HA by done.
    assert (0 <= reserved_by_all l) as H0.
    { clear -Hl HA. induction Hl as [|q l Hq Hl IH]; simpl; [lia|]. destruct q; simpl in *; lia. }
    destruct q as [size|size addr max_size|addr size]; simpl in *; apply wp_bind.
    + eapply wp_mono; [apply (AllocDeviceMem_spec size s1); done || lia|].
      intros r s2 (I2 & R2 & Hr & Ha & Hb & _ & _ & Hm2 & Hres & _). wp_steps.
      split_and!; try done; [lia|congruence|]. exists (size =? 0), (sh || p). split.
      * eapply (reserved_apart_next p sh size r.1 s1); try done; [lia| |lia|congruence].
        intros ->. pose proof (v_base _ _ I1) as [Hal1 _]. pose proof (v_base _ _ I2) as [Hal2 _].
        rewrite Hb, Ha in Hal2. unfold aligned, kVmmAlignSize in *. Z.div_mod_to_equations. lia.
      * by rewrite <- Hsh, orb_assoc.
    + eapply wp_mono; [by apply MmapDeviceMem_inv|]. intros r s2 (I2 & Hs & _). wp_steps.
      pose proof Hs as (_ & _ & Hb & Hm2 & _). split_and!; try done; [by eapply reserve_inv_ext|lia|congruence|].
      exists p, sh. split; [by eapply reserved_apart_ext|done].
    + eapply wp_mono; [by apply EagerFreeDeviceMem_inv|]. intros r s2 (I2 & Hs & _). wp_steps.
      pose proof Hs as (_ & _ & Hb & Hm2 & _). split_and!; try done; [by eapply reserve_inv_ext|lia|congruence|].
      exists p, sh. split; [by eapply reserved_apart_ext|done].
  - intros [] s' (? & ? & _ & _ & ? & p & sh & Hap1 & Hsh). rewrite orb_false_r in Hsh.
    split_and!; try done. exists p. by rewrite <- Hsh.
Qed.

(** C8: The adapter is never stuck. From its construction, through any requests to
    reserve, map and free, whatever addresses they name, as long as the address space
    lasts and the device's memory is at most 2^64 bytes less a page, no call throws, handles are mapped to one page each, and there are no more
    of them than the memory of the device holds. Clearing then gives everything back,
    unless a reservation of no bytes has been followed by another one: the two have
    one address, which clearing frees twice, and so it throws. *)
Theorem adapter_never_stuck qs max_mem_size : 0 < max_mem_size <= w64 - A →
  Forall sized qs → reserved_by_all qs + A < w64 →
  wp (vmm_run qs) (new_Adapter max_mem_size) (λ _ s', 
    (∀ a b h, vmm_map_ s' !! a = Some (Some h) → vmm_map_ s' !! b = Some (Some h) → a = b) ∧
    GetAllocatedSize s' < max_mem_size + A ∧ physical_handle_size_ s' = Z.of_nat (size (handles_ (vmm_manager_ s'))) ∧
    if shares_address false qs then ∃ e s'', ClearAllMemory s' = Throw e s''
    else wp ClearAllMemory s' (λ _ s'', handles_ (vmm_manager_ s'') = ∅ ∧
      virtual_addresses_ (vmm_manager_ s'') = ∅ ∧ mapped_addrs_ (vmm_manager_ s'') = ∅)).
Proof.
  intros Hm Hq Hw. destruct (new_Adapter_inv max_mem_size Hm) as [I R].
  eapply wp_mono; [apply (vmm_run_spec qs _ false false); try done|].
  { split; [constructor|]. split; [done|]. by intros []%not_elem_of_nil. }
  intros [] s' (I' & R' & Hm' & p & Hap). simpl in Hm', Hap.
  split; [intros a b h; by apply (vmm_inj s' ∅)|].
  destruct (physical_range _ _ I') as [_ Hp]. unfold GetAllocatedSize. rewrite u64_small by done.
  pose proof (v_limit _ _ I') as Hlim. rewrite <- (v_physical _ _ I'), Hm' in Hlim. split; [done|].
  split; [apply I'|]. unfold reserved_apart in Hap.
  destruct (shares_address false qs); [by apply ClearAllMemory_throws|].
  eapply wp_mono; [apply ClearAllMemory_spec; [done..|apply Hap]|].
  by intros [] s'' (? & _ & ? & ? & _).
Qed.

(** C9: Mapping is all or nothing. For a range within reserved pages, not on the
    first page, mapping either succeeds - every page that the range touches is mapped,
    and no other page is changed - or returns 0 with all pages as they were, and then
    there is no room for another handle. Handles are made only when the cache is
    used up. *)
Theorem mapping_all_or_nothing size addr max_size s : vmm_inv ∅ s →
  A <= addr → 0 < size → addr + size <= base_addr_ (vmm_manager_ s) →
  (∀ a, touched addr size a → is_Some (vmm_map_ s !! a)) →
  wp (MmapDeviceMem size addr max_size) s (λ r s', vmm_inv ∅ s' ∧
    ((r = size ∧ (∀ a, touched addr size a → ∃ h, vmm_map_ s' !! a = Some (Some h)) ∧
      (∀ a, ¬ touched addr size a → vmm_map_ s' !! a = vmm_map_ s !! a) ∧
      (physical_handle_size_ s' = physical_handle_size_ s ∨ cached_handle_sets_ s' = ∅)) ∨
     (r = 0 ∧ vmm_map_ s' = vmm_map_ s ∧ ¬ room max_size s'))).
Proof.
  intros I Ha Hs He Hr. eapply wp_mono; [by apply MmapDeviceMem_spec|].
  intros r s' (I' & _ & _ & Hcase). split; [done|]. naive_solver.
Qed.

(** C26: Freeing unmaps whole pages. Freeing a range within reserved pages unmaps
    exactly the pages that lie in it as a whole, keeps their handles in the cache, and
    returns the bytes of those that were mapped. *)
Theorem eager_free_unmaps addr size s : vmm_inv ∅ s →
  0 <= addr → 0 <= size → addr + size < w64 →
  (∀ a, within addr (addr + size) a → is_Some (vmm_map_ s !! a)) →
  wp (EagerFreeDeviceMem addr size) s (λ r s', vmm_inv ∅ s' ∧
    physical_handle_size_ s' = physical_handle_size_ s ∧
    cached_handle_sets_ s ⊆ cached_handle_sets_ s' ∧
    r = u64 (A * (mapped_count s - mapped_count s')) ∧
    ∀ a, (within addr (addr + size) a → vmm_map_ s' !! a = Some None) ∧
         (¬ within addr (addr + size) a → vmm_map_ s' !! a = vmm_map_ s !! a)).
Proof.
  intros I Ha Hs He Hr. eapply wp_mono; [by apply EagerFreeDeviceMem_spec|].
  intros r s' (I' & _ & ?). by split.
Qed.

(** The first page cannot be mapped. The first reservation of an adapter succeeds
    at the null address; and an address on its first page is taken for one that is
    not reserved, so that mapping it never succeeds. *)
Theorem first_page_unmappable max_mem_size size : 0 < max_mem_size <= w64 - A →
  0 < size → size + 2 * A < w64 →
  wp (AllocDeviceMem size) (new_Adapter max_mem_size) (λ r s',
    size <= r.1 ∧ r.2 = 0 ∧ ∀ n addr max_size, 0 <= addr < A → MmapDeviceMem n addr max_size s' = Ret 0 s').
Proof.
  intros Hm Hs Hw. destruct (new_Adapter_inv max_mem_size Hm) as [I R].
  eapply wp_mono; [apply (AllocDeviceMem_spec size (new_Adapter max_mem_size)); done || lia|].
  intros r s' (I' & _ & Hr & Ha & _). simpl in Ha. split; [lia|]. split; [done|].
  intros n addr max_size Haddr. unfold MmapDeviceMem, mbind, M_bind. rewrite FindVmmSegment_eq.
  assert (segment s' addr = 0) as ->; [|done]. unfold segment.
  destruct (last_such _ _) as [k|] eqn:Hk; [|done]. simpl.
  apply last_such_Some in Hk as (Hsk & Hle & _). apply Z.leb_le in Hle.
  apply (v_page _ _ I') in Hsk as (Hal & H0 & _). unfold aligned, kVmmAlignSize in *.
  Z.div_mod_to_equations. lia.
Qed.

(** Clearing keeps the count. [ClearAllMemory] frees every handle and goes on
    counting them: the adapter reports the same memory as allocated, and when that
    reaches the limit it gives out no handle any more. *)
Theorem clearing_keeps_count s : vmm_inv ∅ s → reserve_inv s → NoDup (all_reserve_mems_ s) →
  wp ClearAllMemory s (λ _ s', handles_ (vmm_manager_ s') = ∅ ∧ cached_handle_sets_ s' = ∅ ∧
    GetAllocatedSize s' = GetAllocatedSize s ∧
    ∀ max_size, max_size <= GetAllocatedSize s → take_handle max_size s' = Ret None s').
Proof.
  intros I R Hnd. eapply wp_mono; [by apply ClearAllMemory_spec|].
  intros [] s' (Hh & _ & _ & _ & _ & Hc & _ & Hp & _). split; [done|]. split; [done|].
  unfold GetAllocatedSize. rewrite Hp. split; [done|]. intros max_size Hmax.
  unfold take_handle, gets, mbind, M_bind. rewrite Hc, bool_decide_eq_true_2 by done. simpl.
  rewrite Hp. destruct (Z.leb_spec max_size (physical_handle_size_ s *64 kVmmAlignSize)); [done|lia].
Qed.
End theorems.

(** ** An adapter *)

Local Program Instance lowest_handle : HandleOrder :=
  {| first_handle X := default 1%positive (head (elements X)) |}.
Next Obligation.
  intros X HX. destruct (elements X) as [|h l] eqn:E; simpl.
  - exfalso. apply HX, leibniz_equiv. by apply elements_empty_iff.
  - apply elem_of_elements. rewrite E. by left.
Qed.

(** Room for three handles. *)
Definition small_device : Z := 3 * A.

(** Two segments of four and of two pages; pages 1 and 2 are mapped, then page 1 is
    freed. *)
Definition preparation : list vmm_request :=
  [VmmAlloc (4 * A); VmmAlloc (A + 1); VmmMap (A + 7) A small_device; VmmFree A (A + 9)].

Definition prepared : Adapter :=
  match vmm_run preparation (new_Adapter small_device) with
  | Ret _ s => s
  | _ => new_Adapter small_device
  end.

Lemma prepared_inv : vmm_inv ∅ prepared ∧ reserve_inv prepared.
Proof.
  destruct (new_Adapter_inv small_device) as [I R]; [done|].
  assert (Forall sized preparation) as Hs by (repeat constructor; done).
  assert (reserved_apart false false (new_Adapter small_device)) as Hap.
  { split; [constructor|]. split; [done|]. by intros []%not_elem_of_nil. }
  assert (base_addr_ (vmm_manager_ (new_Adapter small_device)) + reserved_by_all preparation + A < w64)
    as Hw by done.
  destruct (wp_inv _ _ _ (vmm_run_spec preparation _ _ _ I R Hs Hap Hw)) as ([] & s & E & HI & HR & _).
  unfold prepared. rewrite E. exact (conj HI HR).
Qed.

(** A reservation of no bytes between two others. *)
Definition empty_reservation : list vmm_request := [VmmAlloc (4 * A); VmmAlloc 0; VmmAlloc 5].

Lemma adapter_never_stuck_witness :
  wp (vmm_run preparation) (new_Adapter small_device) (λ _ s',
    (∀ a b h, vmm_map_ s' !! a = Some (Some h) → vmm_map_ s' !! b = Some (Some h) → a = b) ∧
    GetAllocatedSize s' < small_device + A ∧
    physical_handle_size_ s' = Z.of_nat (size (handles_ (vmm_manager_ s'))) ∧
    wp ClearAllMemory s' (λ _ s'', handles_ (vmm_manager_ s'') = ∅ ∧
      virtual_addresses_ (vmm_manager_ s'') = ∅ ∧ mapped_addrs_ (vmm_manager_ s'') = ∅)) ∧
  wp (vmm_run empty_reservation) (new_Adapter small_device) (λ _ s',
    (∀ a b h, vmm_map_ s' !! a = Some (Some h) → vmm_map_ s' !! b = Some (Some h) → a = b) ∧
    GetAllocatedSize s' < small_device + A ∧
    physical_handle_size_ s' = Z.of_nat (size (handles_ (vmm_manager_ s'))) ∧
    ∃ e s'', ClearAllMemory s' = Throw e s'').
Proof.
  split.
  - apply (adapter_never_stuck preparation small_device); [done|by repeat constructor|done].
  - apply (adapter_never_stuck empty_reservation small_device); [done|by repeat constructor|done].
Defined.

Lemma is_Some_true {B} (o : option B) : match o with Some _ => true | None => false end = true → is_Some o.
Proof. by destruct o. Qed.

(** What is touched by a range of an address space that is reserved from 0 to its base. *)
Lemma prepared_pages a : aligned a → 0 <= a < 6 * A → is_Some (vmm_map_ prepared !! a).
Proof.
  intros Ha H0. assert (∃ k, a = k * A ∧ 0 <= k < 6) as (k & -> & Hk).
  { exists (a / A). unfold aligned, kVmmAlignSize in *. Z.div_mod_to_equations. lia. }
  assert (k = 0 ∨ k = 1 ∨ k = 2 ∨ k = 3 ∨ k = 4 ∨ k = 5) as Hc by lia.
  apply is_Some_true. repeat destruct Hc as [->|Hc]; [by vm_compute..|subst k; by vm_compute].
Qed.

Lemma mapping_all_or_nothing_witness :
  wp (MmapDeviceMem (2 * A) (A + 5) small_device) prepared (λ r s', vmm_inv ∅ s' ∧
    ((r = 2 * A ∧ (∀ a, touched (A + 5) (2 * A) a → ∃ h, vmm_map_ s' !! a = Some (Some h)) ∧
      (∀ a, ¬ touched (A + 5) (2 * A) a → vmm_map_ s' !! a = vmm_map_ prepared !! a) ∧
      (physical_handle_size_ s' = physical_handle_size_ prepared ∨ cached_handle_sets_ s' = ∅)) ∨
     (r = 0 ∧ vmm_map_ s' = vmm_map_ prepared ∧ ¬ room small_device s'))).
Proof.
  apply (mapping_all_or_nothing (2 * A) (A + 5) small_device prepared).
  - apply prepared_inv.
  - done.
  - done.
  - by vm_compute.
  - intros a (Ha & H1 & H2). apply prepared_pages; [done|]. unfold kVmmAlignSize in *. lia.
Defined.

(** There it succeeds; for one page more there are too few handles. *)
Example prepared_maps :
  wp (MmapDeviceMem (2 * A) (A + 5) small_device) prepared (λ r _, r = 2 * A) ∧
  wp (MmapDeviceMem (3 * A) (A + 5) small_device) prepared (λ r s',
    r = 0 ∧ map_to_list (vmm_map_ s') = map_to_list (vmm_map_ prepared)).
Proof. split; by vm_compute. Qed.

Lemma eager_free_unmaps_witness :
  wp (EagerFreeDeviceMem (A + 5) (3 * A)) prepared (λ r s', vmm_inv ∅ s' ∧
    physical_handle_size_ s' = physical_handle_size_ prepared ∧
    cached_handle_sets_ prepared ⊆ cached_handle_sets_ s' ∧
    r = u64 (A * (mapped_count prepared - mapped_count s')) ∧
    ∀ a, (within (A + 5) (A + 5 + 3 * A) a → vmm_map_ s' !! a = Some None) ∧
         (¬ within (A + 5) (A + 5 + 3 * A) a → vmm_map_ s' !! a = vmm_map_ prepared !! a)).
Proof.
  apply (eager_free_unmaps (A + 5) (3 * A) prepared).
  - apply prepared_inv.
  - done.
  - done.
  - done.
  - intros a (Ha & H1 & H2). apply prepared_pages; [done|]. unfold kVmmAlignSize in *. lia.
Defined.

Lemma first_page_unmappable_witness :
  wp (AllocDeviceMem 1000) (new_Adapter small_device) (λ r s',
    1000 <= r.1 ∧ r.2 = 0 ∧
    ∀ n addr max_size, 0 <= addr < A → MmapDeviceMem n addr max_size s' = Ret 0 s').
Proof. apply (first_page_unmappable small_device 1000); done. Defined.

Lemma clearing_keeps_count_witness :
  wp ClearAllMemory prepared (λ _ s', handles_ (vmm_manager_ s') = ∅ ∧ cached_handle_sets_ s' = ∅ ∧
    GetAllocatedSize s' = GetAllocatedSize prepared ∧
    ∀ max_size, max_size <= GetAllocatedSize prepared → take_handle max_size s' = Ret None s').
Proof.
  apply (clearing_keeps_count prepared); [apply prepared_inv..|].
  apply (bool_decide_unpack _). by vm_compute.
Defined.

(** A gap in the reserved pages makes [MmapDeviceMem] return 0 without mapping back
    the pages before it, and [EagerFreeDeviceMem] return 0 for pages it has freed. *)
Example gaps_are_not_undone :
  wp (MmapDeviceMem (2 * A) (5 * A) small_device) prepared (λ r s',
    r = 0 ∧ vmm_map_ prepared !! (5 * A) = Some None ∧ is_Some (vmm_map_ s' !! (5 * A) ≫= id)) ∧
  wp (EagerFreeDeviceMem (2 * A) (5 * A)) prepared (λ r s',
    r = 0 ∧ is_Some (vmm_map_ prepared !! (2 * A) ≫= id) ∧ vmm_map_ s' !! (2 * A) = Some None).
Proof. vm_compute. split_and!; try done; by eexists. Qed.
