(* ===== verification/MemoryPool.v ===== *)
(** * The concrete pool of memory

    [MemoryPool] of memory/memory_pool.h: the virtual methods that
    [AbstractDynamicMemPool] leaves open, on [malloc] and on the virtual memory of
    [VmmAdapter]. *)

From S2P Require Import Prelude EventBase MemBufHeap MemGeometry MemBufSet MemBufAllocator.
From S2P Require Import MemStat PoolDevice MemPool VmmAdapter.

Definition kMaxUsedMemSize : Z := 58 * 1073741824.

(** [malloc]: null, or memory that is nobody else's. *)
Class CLib (H : Type) := { malloc : Z → H → Z * H }.

(** The address of the local variable through which a caller receives the memory. *)
Class Caller := { out_address : Z }.

Record MemoryPool (H : Type) := MkMemoryPool {
  alloc_infos_ : gmap Z Z;
  adapter : Adapter;
  c_heap : H;
}.
Arguments MkMemoryPool {H}. Arguments alloc_infos_ {H}. Arguments adapter {H}. Arguments c_heap {H}.

Definition new_MemoryPool {H} (h : H) : MemoryPool H := MkMemoryPool ∅ (new_Adapter kMaxUsedMemSize) h.

Section pool.
Context {H : Type} `{CLib H}.
Abbreviation MP := (M (MemoryPool H)).

Definition set_infos (v : gmap Z Z) (p : MemoryPool H) : MemoryPool H :=
  MkMemoryPool v (adapter p) (c_heap p).
Definition set_adapter (v : Adapter) (p : MemoryPool H) : MemoryPool H :=
  MkMemoryPool (alloc_infos_ p) v (c_heap p).
Definition set_heap (v : H) (p : MemoryPool H) : MemoryPool H :=
  MkMemoryPool (alloc_infos_ p) (adapter p) v.

Definition on_adapter {A} (m : M Adapter A) : MP A := zoom adapter set_adapter m.

(** The key of [alloc_infos_] is the address of the variable, not of the memory. *)
Definition Pool_AllocDeviceMem (out size : Z) : MP (Z * Z) := λ p,
  let '(a, h) := malloc size (c_heap p) in
  Ret (size, a)
    (set_infos (match alloc_infos_ p !! out with
                | Some _ => alloc_infos_ p          (* [emplace] keeps what is there *)
                | None => <[out := size]> (alloc_infos_ p)
                end) (set_heap h p)).

Definition Pool_FreeDeviceMem (addr : Z) : MP bool :=
  iter ← gets (λ p, alloc_infos_ p !! addr);
  match iter with
  | None => mret false
  | Some _ => modify (λ p, set_infos (delete addr (alloc_infos_ p)) p);; mret true
  end.

Definition ReservedMemorySize (p : MemoryPool H) : Z := u64 (msum (λ n, n) (alloc_infos_ p)).

Context `{HandleOrder} `{Caller}.

#[export] Instance memory_pool_device : DeviceMem (MemoryPool H) := {|
  MemStat.free_mem_size := λ _, w64 - 1;
  MemStat.total_mem_size := λ _, kMaxUsedMemSize;
  MemStat.IsEnableEagerFree := λ _, false;
  MemStat.GetVmmUsedMemSize := λ p, GetAllocatedSize (adapter p);
  MemStat.SyncAllStreams := mret true;
  MemStat.AllocDeviceMem := Pool_AllocDeviceMem out_address;
  MemStat.FreeDeviceMem := Pool_FreeDeviceMem;
  MemStat.AllocDeviceMemByEagerFree := λ size, on_adapter (AllocDeviceMem size);
  MemStat.MmapDeviceMem := λ size addr, on_adapter (MmapDeviceMem size addr kMaxUsedMemSize);
  MemStat.FreeDeviceMemByEagerFree := λ addr size, on_adapter (EagerFreeDeviceMem addr size);
|}.
End pool.

(** ** What the pool knows of its memory *)

Section accounts.
Context {H : Type} `{CLib H}.
Implicit Types (p : MemoryPool H).

Definition allocate_through (out : Z) (sizes : list Z) : M (MemoryPool H) unit :=
  forM sizes (λ _ size, Pool_AllocDeviceMem out size;; mret ()) ().

Lemma allocate_through_spec out n sizes p : alloc_infos_ p = {[out := n]} →
  wp (allocate_through out sizes) p (λ _ p', alloc_infos_ p' = {[out := n]}).
Proof.
  intros Hp. apply (wp_forM _ _ _ _ (λ _ _ p', alloc_infos_ p' = {[out := n]})); [done| |done].
  intros size l [] p1 Hp1. apply wp_bind. unfold Pool_AllocDeviceMem, wp.
  destruct (malloc size (c_heap p1)) as [a h]. simpl. by rewrite Hp1, lookup_singleton_eq.
Qed.

(** Memory is known by the variable it was returned through. Whatever is allocated
    through one variable, only the first size counts as reserved, and freeing any
    memory that is not at the address of that variable fails. *)
Theorem memory_known_by_variable out n sizes addr h : addr ≠ out → 0 <= n < w64 →
  wp (allocate_through out (n :: sizes);; Pool_FreeDeviceMem addr) (new_MemoryPool h) (λ r p',
    r = false ∧ ReservedMemorySize p' = n).
Proof.
  intros Hne Hn. apply wp_bind. unfold allocate_through. cbn [forM]. apply wp_bind.
  unfold Pool_AllocDeviceMem at 1. apply wp_bind. unfold wp at 1.
  destruct (malloc n (c_heap (new_MemoryPool h))) as [a h1]. simpl. wp_steps.
  eapply wp_mono; [by apply (allocate_through_spec out n)|].
  intros [] p' Hp'. unfold Pool_FreeDeviceMem. wp_steps.
  rewrite Hp', lookup_singleton_ne by done. wp_steps. split; [done|].
  unfold ReservedMemorySize. rewrite Hp', <- insert_empty, msum_insert, msum_empty by done.
  rewrite u64_small; lia.
Qed.
End accounts.

(** A [malloc] that goes up. *)
Local Instance bump_malloc : CLib Z := { malloc := λ n h, (h, h + n) }.

Lemma memory_known_by_variable_witness :
  wp (allocate_through 140737488355328 [4096; 8192; 512];; Pool_FreeDeviceMem 65536) (new_MemoryPool 65536)
    (λ r p', r = false ∧ ReservedMemorySize p' = 4096).
Proof. apply (memory_known_by_variable 140737488355328 4096 [8192; 512] 65536 65536); done. Defined.
