(* ===== verification/SkipList.v ===== *)
(** * The skip list

    [SkipList] of application/src/skiplist.h: nodes in a store, linked forwards at
    each of their levels and backwards at the lowest one. *)

From S2P Require Import Prelude.

Definition INT_MAX : Z := 2147483647.

(** [operator<] of the keys, a strict total order. *)
Class KeyOrder (K : Type) := {
  key_lt : K → K → bool;
  key_lt_irrefl k : key_lt k k = false;
  key_lt_trans a b c : key_lt a b = true → key_lt b c = true → key_lt a c = true;
  key_lt_total a b : key_lt a b = true ∨ a = b ∨ key_lt b a = true;
}.

Record Node (K V : Type) := MkNode {
  forward : list (option positive);
  prev : option positive;
  node_level : Z;
  key : K;
  value : V;
}.
Arguments MkNode {K V}. Arguments forward {K V}. Arguments prev {K V}.
Arguments node_level {K V}. Arguments key {K V}. Arguments value {K V}.

(** [nodes] are the objects that [new] has made and [delete] not taken; [rands] is
    what the coming calls of [rand] return. *)
Record SkipList (K V : Type) := MkSkipList {
  _max_level : Z;
  _skip_list_level : Z;
  _header : positive;
  _element_count : Z;
  nodes : gmap positive (Node K V);
  next_node : positive;
  rands : list Z;
}.
Arguments MkSkipList {K V}. Arguments _max_level {K V}. Arguments _skip_list_level {K V}.
Arguments _header {K V}. Arguments _element_count {K V}. Arguments nodes {K V}.
Arguments next_node {K V}. Arguments rands {K V}.

Section skiplist.
Context {K V : Type} `{EqDecision K} `{KeyOrder K}.
Implicit Types (s : SkipList K V) (n : Node K V).
Abbreviation SL := (M (SkipList K V)).

Definition set_level v s : SkipList K V :=
  MkSkipList (_max_level s) v (_header s) (_element_count s) (nodes s) (next_node s) (rands s).
Definition set_count v s : SkipList K V :=
  MkSkipList (_max_level s) (_skip_list_level s) (_header s) v (nodes s) (next_node s) (rands s).
Definition set_nodes v p s : SkipList K V :=
  MkSkipList (_max_level s) (_skip_list_level s) (_header s) (_element_count s) v p (rands s).
Definition set_rands v s : SkipList K V :=
  MkSkipList (_max_level s) (_skip_list_level s) (_header s) (_element_count s) (nodes s)
    (next_node s) v.

(** ** Nodes *)

(** [Node(k, v, level)]: all forward pointers are null. *)
Definition new_Node (k : K) (v : V) (level : Z) : Node K V :=
  MkNode (replicate (Z.to_nat (level + 1)) None) None level k v.
Definition with_forward v n : Node K V := MkNode v (prev n) (node_level n) (key n) (value n).
Definition with_prev v n : Node K V := MkNode (forward n) v (node_level n) (key n) (value n).

Definition load_node (p : positive) : SL (Node K V) := l ← gets nodes; deref (l !! p).
Definition store_node (p : positive) n : SL unit :=
  load_node p;; modify (λ s, set_nodes (<[p := n]> (nodes s)) (next_node s) s).
Definition delete_node (p : positive) : SL unit :=
  load_node p;; modify (λ s, set_nodes (delete p (nodes s)) (next_node s) s).

Definition create_node (k : K) (v : V) (level : Z) : SL positive := λ s,
  Ret (next_node s) (set_nodes (<[next_node s := new_Node k v level]> (nodes s)) (Pos.succ (next_node s)) s).

(** [p->forward[i]] as a value and as a target. *)
Definition forward_at (p : positive) (i : Z) : SL (option positive) :=
  n ← load_node p;
  if i <? 0 then undef else deref (forward n !! Z.to_nat i).
Definition set_forward (p : positive) (i : Z) (v : option positive) : SL unit :=
  n ← load_node p;
  if i <? 0 then undef
  else deref (forward n !! Z.to_nat i);; store_node p (with_forward (<[Z.to_nat i := v]> (forward n)) n).
Definition set_prev (p : positive) (v : option positive) : SL unit :=
  n ← load_node p; store_node p (with_prev v n).

(** ** Searching *)

(** The inner loop, which walks along a level. It visits no node twice as long as
    the level is a list; [fuel] bounds it by the number of nodes. *)
Fixpoint walk (fuel : nat) (i : Z) (k : K) (current : positive) : SL positive :=
  match fuel with
  | O => undef
  | S fuel =>
      next ← forward_at current i;
      match next with
      | None => mret current
      | Some nx =>
          n ← load_node nx;
          if key_lt (key n) k then walk fuel i k nx else mret current
      end
  end.

Definition levels_down (level : Z) : list Z := rev (seqZ 0 (level + 1)).

(** The array [update]. *)
Definition update_at (update : list (option positive)) (i : Z) : SL positive :=
  if i <? 0 then undef else p ← deref (update !! Z.to_nat i); deref p.
Definition update_set (update : list (option positive)) (i : Z) (p : positive)
    : SL (list (option positive)) :=
  if i <? 0 then undef
  else deref (update !! Z.to_nat i);; mret (<[Z.to_nat i := Some p]> update).

(** The first loop of [insert_element] and [delete_element]: the last node before the
    key, and the same for each level. *)
Definition find_update (k : K) : SL (positive * list (option positive)) :=
  level ← gets _skip_list_level;
  header ← gets _header;
  max_level ← gets _max_level;
  forM (levels_down level) (λ '(current, update) i,
    fuel ← gets (λ s, S (size (nodes s)));
    current ← walk fuel i k current;
    update ← update_set update i current;
    mret (current, update)) (header, replicate (Z.to_nat (max_level + 1)) None).

(** [current != NULL && current->get_key() == key]. *)
Definition has_key (current : option positive) (k : K) : SL bool :=
  match current with
  | None => mret false
  | Some p => n ← load_node p; mret (bool_decide (key n = k))
  end.

Definition search_element (k : K) : SL (option positive) :=
  level ← gets _skip_list_level;
  header ← gets _header;
  current ← forM (levels_down level) (λ current i,
    fuel ← gets (λ s, S (size (nodes s)));
    walk fuel i k current) header;
  current ← forward_at current 0;
  found ← has_key current k;
  mret (if found : bool then current else None).

(** ** Inserting *)

(** [int k = 1; while (rand() % 2) k++;]. No more calls of [rand] are known to end
    the loop when [rands] is used up. *)
Fixpoint toss (rands : list Z) (k : Z) : option (Z * list Z) :=
  match rands with
  | [] => None
  | r :: rands =>
      if r mod 2 =? 0 then Some (k, rands)
      else if k =? INT_MAX then None
      else toss rands (k + 1)
  end.

Definition get_random_level : SL Z :=
  rs ← gets rands;
  '(k, rs) ← deref (toss rs 1);
  modify (set_rands rs);;
  max_level ← gets _max_level;
  mret (if k <? max_level then k else max_level).

(** One step of the loop that links [inserted_node] at a level. *)
Definition link_at (update : list (option positive)) (inserted_node : positive) (i : Z) : SL unit :=
  u ← update_at update i;
  f ← forward_at u i;
  set_forward inserted_node i f;;
  set_forward u i (Some inserted_node).

Definition insert_element (k : K) (v : V) : SL Z :=
  '(current, update) ← find_update k;
  current ← forward_at current 0;
  found ← has_key current k;
  if found : bool then mret 1
  else
    random_level ← get_random_level;
    level ← gets _skip_list_level;
    header ← gets _header;
    update ←
      (if level <? random_level then
         update ← forM (seqZ (level + 1) (random_level - level))
           (λ update i, update_set update i header) update;
         modify (set_level random_level);;
         mret update
       else mret update);
    inserted_node ← create_node k v random_level;
    u ← update_at update 0;
    f ← forward_at u 0;
    set_forward inserted_node 0 f;;
    match f with
    | Some _ => set_prev u (Some inserted_node)
    | None => mret ()
    end;;
    set_forward u 0 (Some inserted_node);;
    set_prev inserted_node (Some u);;
    forM (seqZ 1 random_level) (λ _ i, link_at update inserted_node i) ();;
    count ← gets _element_count;
    (if count =? INT_MAX then undef else modify (set_count (count + 1)));;
    mret 0.

(** ** Deleting *)

(** The loop that unlinks [current], up to the first level it is not on. *)
Fixpoint unlink (update : list (option positive)) (current : positive) (levels : list Z) : SL unit :=
  match levels with
  | [] => mret ()
  | i :: levels =>
      u ← update_at update i;
      f ← forward_at u i;
      if negb (bool_decide (f = Some current)) then mret ()
      else
        g ← forward_at current i;
        set_forward u i g;;
        unlink update current levels
  end.

(** [while (_skip_list_level > 0 && _header->forward[_skip_list_level] == 0)]: at most
    [n] rounds are left. *)
Fixpoint lower_level (n : nat) : SL unit :=
  level ← gets _skip_list_level;
  if negb (0 <? level) then mret ()
  else
    header ← gets _header;
    f ← forward_at header level;
    match f with
    | Some _ => mret ()
    | None =>
        match n with
        | O => undef
        | S n => modify (set_level (level - 1));; lower_level n
        end
    end.

Definition delete_element (k : K) : SL unit :=
  '(current, update) ← find_update k;
  current ← forward_at current 0;
  found ← has_key current k;
  match current with
  | Some current =>
      if found : bool then
        level ← gets _skip_list_level;
        unlink update current (seqZ 0 (level + 1));;
        lower_level (Z.to_nat level);;
        next ← forward_at current 0;
        header ← gets _header;
        (if negb (bool_decide (next = Some header)) then
           nx ← deref next;
           c ← load_node current;
           set_prev nx (prev c)
         else mret ());;
        delete_node current;;
        modify (λ s, set_count (_element_count s - 1) s)
      else mret ()
  | None => mret ()
  end.

Definition skip_size : SL Z := gets _element_count.

(** ** Making, showing and clearing *)

(** The constructor; [k] and [v] are whatever the uninitialised key and value hold. *)
Definition new_SkipList (max_level : Z) (k : K) (v : V) (rs : list Z) : SkipList K V :=
  MkSkipList max_level 0 1 0 {[1%positive := new_Node k v max_level]} 2 rs.

(** The keys along a level. *)
Fixpoint show_level (fuel : nat) (i : Z) (node : option positive) : SL (list K) :=
  match node with
  | None => mret []
  | Some p =>
      match fuel with
      | O => undef
      | S fuel =>
          n ← load_node p;
          nx ← forward_at p i;
          rest ← show_level fuel i nx;
          mret (key n :: rest)
      end
  end.

Fixpoint last_node (fuel : nat) (node : positive) : SL positive :=
  nx ← forward_at node 0;
  match nx with
  | None => mret node
  | Some nx => match fuel with O => undef | S fuel => last_node fuel nx end
  end.

(** From the last node back to the header. *)
Fixpoint show_back (fuel : nat) (node : option positive) : SL (list K) :=
  header ← gets _header;
  if bool_decide (node = Some header) then mret []
  else
    match fuel with
    | O => undef
    | S fuel =>
        p ← deref node;
        n ← load_node p;
        rest ← show_back fuel (prev n);
        mret (key n :: rest)
    end.

(** [display_list]: what it writes of each level, and of the way back. *)
Definition display_list (fuel : nat) : SL (list (list K) * list K) :=
  level ← gets _skip_list_level;
  header ← gets _header;
  shown ← forM (seqZ 0 (level + 1)) (λ shown i,
    node ← forward_at header i;
    l ← show_level fuel i node;
    mret (shown ++ [l])) [];
  node ← forward_at header 0;
  node ← deref node;
  node ← last_node fuel node;
  back ← show_back fuel (Some node);
  mret (shown, back).

(** What [dump_file] writes: the pairs of the lowest level. *)
Fixpoint dump_from (fuel : nat) (node : option positive) : SL (list (K * V)) :=
  match node with
  | None => mret []
  | Some p =>
      match fuel with
      | O => undef
      | S fuel =>
          n ← load_node p;
          nx ← forward_at p 0;
          rest ← dump_from fuel nx;
          mret ((key n, value n) :: rest)
      end
  end.

Definition dump_file (fuel : nat) : SL (list (K * V)) :=
  header ← gets _header;
  node ← forward_at header 0;
  dump_from fuel node.

Fixpoint clear (fuel : nat) (cur : positive) : SL unit :=
  match fuel with
  | O => undef
  | S fuel =>
      nx ← forward_at cur 0;
      match nx with
      | Some nx => clear fuel nx
      | None => mret ()
      end;;
      delete_node cur
  end.

(** The destructor. *)
Definition delete_SkipList (fuel : nat) : SL unit :=
  header ← gets _header;
  first ← forward_at header 0;
  match first with
  | Some p => clear fuel p
  | None => mret ()
  end;;
  delete_node header.
End skiplist.
Arguments new_SkipList {K V} _ _ _ _.

(** Keys of type [int]. *)
#[export] Program Instance int_order : KeyOrder Z := {| key_lt := Z.ltb |}.
Next Obligation. apply Z.ltb_irrefl. Qed.
Next Obligation. intros a b c ?%Z.ltb_lt ?%Z.ltb_lt. apply Z.ltb_lt. lia. Qed.
Next Obligation. intros a b. rewrite !Z.ltb_lt. lia. Qed.

(** The list after an insertion. *)
Definition inserted {K V} `{EqDecision K} `{KeyOrder K} (k : K) (v : V) (s : SkipList K V) : SkipList K V :=
  match insert_element k v s with Ret _ s' => s' | _ => s end.

(** Inserting in the middle leaves the backward pointers in a circle. *)
Definition three : SkipList Z Z :=
  inserted 2 20 (inserted 3 30 (inserted 1 10 (new_SkipList 3 0 0 [1; 0; 0; 1; 1; 1; 4]))).
