(* ===== verification/SkipListRep.v ===== *)
(** * What a skip list represents

    A sorted list of entries; the nodes of each level are a linked list of the
    entries that reach that level. *)

From S2P Require Import Prelude SkipList.

Lemma filter_none {A} (P : A → Prop) `{∀ x, Decision (P x)} (l : list A) :
  Forall (λ x, ¬ P x) l → filter P l = [].
Proof. induction 1; [done|]. by rewrite filter_cons_False. Qed.

Section rep.
Context {K V : Type} `{EqDecision K} `{KeyOrder K}.
Implicit Types (s : SkipList K V) (n : Node K V) (h : gmap positive (Node K V)).

(** ** Linked levels *)

(** The forward pointer of a node at a level. *)
Definition fwd h (i : Z) (p : positive) : option (option positive) :=
  n ← h !! p; forward n !! Z.to_nat i.

Fixpoint chain h (i : Z) (p : positive) (l : list positive) : Prop :=
  match l with
  | [] => fwd h i p = Some None
  | q :: l => fwd h i p = Some (Some q) ∧ chain h i q l
  end.

Lemma default_last_cons {B} (p y : B) l : default p (last (y :: l)) = default y (last l).
Proof. rewrite last_cons. by destruct (last l). Qed.

Lemma default_last_in {B} (y : B) l : default y (last l) ∈ y :: l.
Proof.
  destruct (last l) as [x|] eqn:E; simpl; [|left]. apply last_Some in E as [l' ->]. set_solver.
Qed.

Lemma chain_app h i p l r : chain h i p (l ++ r) → chain h i (default p (last l)) r.
Proof.
  revert p. induction l as [|q l IH]; intros p; [done|]. simpl. intros [_ Hc].
  apply IH in Hc. by rewrite default_last_cons.
Qed.

Lemma chain_ext h h' i p l : (∀ q, q ∈ p :: l → fwd h' i q = fwd h i q) → chain h i p l → chain h' i p l.
Proof.
  revert p. induction l as [|q l IH]; intros p Hf; simpl.
  - intros Hn. by rewrite Hf by left.
  - intros [Hn Hc]. split; [by rewrite Hf by left|]. apply IH; [|done]. intros x Hx. apply Hf. by right.
Qed.

Lemma chain_head h i p l : chain h i p l → fwd h i p = Some (head l).
Proof. destruct l; simpl; tauto. Qed.

(** Linking [q] between [l] and [r], and unlinking it. *)
Lemma chain_link h h' i p q l r : NoDup (p :: l ++ r) → q ∉ p :: l ++ r →
  chain h i p (l ++ r) →
  fwd h' i (default p (last l)) = Some (Some q) → fwd h' i q = Some (head r) →
  (∀ x, x ≠ q → x ≠ default p (last l) → fwd h' i x = fwd h i x) →
  chain h' i p (l ++ q :: r).
Proof.
  revert p. induction l as [|y l IH]; intros p Hnd Hq Hc Hu Hfq Hf; simpl in *.
  - split; [done|]. destruct r as [|z r]; simpl in *; [done|]. destruct Hc as [_ Hc].
    split; [done|]. eapply chain_ext; [|done]. intros x Hx. apply Hf.
    + intros ->. set_solver.
    + intros ->. apply NoDup_cons in Hnd as [Hn _]. by apply Hn.
  - destruct Hc as [Hn Hc]. apply NoDup_cons in Hnd as [Hpn Hnd]. split.
    + rewrite Hf; [done|set_solver|]. rewrite default_last_cons. intros E.
      pose proof (default_last_in y l). rewrite <- E in *. set_solver.
    + rewrite default_last_cons in *. apply IH; done || set_solver.
Qed.

Lemma chain_unlink h h' i p q l r : NoDup (p :: l ++ q :: r) →
  chain h i p (l ++ q :: r) →
  fwd h' i (default p (last l)) = Some (head r) →
  (∀ x, x ≠ default p (last l) → fwd h' i x = fwd h i x) →
  chain h' i p (l ++ r).
Proof.
  revert p. induction l as [|y l IH]; intros p Hnd Hc Hu Hf; simpl in *.
  - destruct Hc as [_ Hc]. destruct r as [|z r]; simpl in *; [done|]. destruct Hc as [_ Hc].
    split; [done|]. eapply chain_ext; [|done]. intros x Hx. apply Hf. intros ->.
    apply NoDup_cons in Hnd as [Hn _]. apply Hn. by right.
  - destruct Hc as [Hn Hc]. apply NoDup_cons in Hnd as [Hpn Hnd]. split.
    + rewrite Hf; [done|]. rewrite default_last_cons. intros E.
      pose proof (default_last_in y l). rewrite <- E in *. set_solver.
    + rewrite default_last_cons in *. by apply IH.
Qed.

(** ** Entries *)

Record entry := MkEntry { ptr : positive; ekey : K; evalue : V; elevel : Z }.
Implicit Types (e : entry) (es : list entry).

(** The entries that reach a level. *)
Definition at_level (i : Z) es : list positive := ptr <$> filter (λ e, i <= elevel e) es.

(** The last of them, or the header. *)
Definition pred hd (i : Z) es : positive := default hd (last (at_level i es)).

Definition before (a b : entry) : Prop := key_lt (ekey a) (ekey b) = true.

(** What a node is apart from its pointers. *)
Definition core n := (key n, value n, node_level n, length (forward n)).
Definition entry_core e := (ekey e, evalue e, elevel e, Z.to_nat (elevel e + 1)).

Record rep s es : Prop := {
  rep_level : 0 <= _skip_list_level s <= _max_level s;
  rep_max : _max_level s < INT_MAX;
  rep_header : ∃ n, nodes s !! _header s = Some n ∧ length (forward n) = Z.to_nat (_max_level s + 1);
  rep_nodup : NoDup (_header s :: (ptr <$> es));
  rep_entry e : e ∈ es → core <$> nodes s !! ptr e = Some (entry_core e) ∧
    0 <= elevel e <= _skip_list_level s;
  rep_chain i : 0 <= i <= _max_level s → chain (nodes s) i (_header s) (at_level i es);
  rep_sorted : StronglySorted before es;
  rep_dom p : is_Some (nodes s !! p) ↔ p = _header s ∨ p ∈ ptr <$> es;
  rep_fresh p : is_Some (nodes s !! p) → (p < next_node s)%positive;
  rep_count : _element_count s = Z.of_nat (length es) ∧ Z.of_nat (length es) <= INT_MAX;
}.

Lemma at_level_app i a b : at_level i (a ++ b) = at_level i a ++ at_level i b.
Proof. unfold at_level. by rewrite filter_app, fmap_app. Qed.

Lemma at_level_cons i e es : at_level i (e :: es) = (if decide (i <= elevel e) then [ptr e] else []) ++ at_level i es.
Proof. unfold at_level. rewrite filter_cons. by case_decide. Qed.

Lemma elem_of_at_level i es p : p ∈ at_level i es ↔ ∃ e, e ∈ es ∧ p = ptr e ∧ i <= elevel e.
Proof. unfold at_level. rewrite list_elem_of_fmap. setoid_rewrite list_elem_of_filter. naive_solver. Qed.

Lemma at_level_sub i es p : p ∈ at_level i es → p ∈ ptr <$> es.
Proof. rewrite elem_of_at_level. intros (e & ? & -> & _). by apply list_elem_of_fmap_2. Qed.

Lemma at_level_nodup i es : NoDup (ptr <$> es) → NoDup (at_level i es).
Proof.
  unfold at_level. induction es as [|e es IH]; simpl; [done|]. intros [Hn Hnd]%NoDup_cons.
  rewrite filter_cons. case_decide; [|by apply IH]. simpl. apply NoDup_cons. split; [|by apply IH].
  intros Hx. apply Hn. by apply (at_level_sub i).
Qed.

Lemma at_level_0 es : (∀ e, e ∈ es → 0 <= elevel e) → at_level 0 es = ptr <$> es.
Proof.
  intros Hl. unfold at_level. rewrite filter_all; [done|]. by apply Forall_forall.
Qed.

Lemma at_level_high i es : (∀ e, e ∈ es → elevel e < i) → at_level i es = [].
Proof.
  intros Hl. destruct (at_level i es) as [|p l] eqn:E; [done|].
  assert (p ∈ at_level i es) as Hp by (rewrite E; left).
  apply elem_of_at_level in Hp as (e & He%Hl & _ & ?). lia.
Qed.

(** The node at which the search on level [i] begins is on that level. *)
Lemma pred_split hd i es : ∃ w u, at_level i es = w ++ u ∧ pred hd (i + 1) es = default hd (last w).
Proof.
  unfold pred. destruct (last (at_level (i + 1) es)) as [p|] eqn:E.
  - assert (p ∈ at_level i es) as Hp.
    { apply last_Some in E as [l El]. assert (p ∈ at_level (i + 1) es) as Hp by (rewrite El; set_solver).
      apply elem_of_at_level in Hp as (e & ? & -> & ?). apply elem_of_at_level. exists e. split_and!; done || lia. }
    apply list_elem_of_split in Hp as (a & b & ->). exists (a ++ [p]), b.
    rewrite <- app_assoc. split; [done|]. by rewrite last_snoc.
  - by exists [], (at_level i es).
Qed.

(** ** Splitting at a key *)

Definition lower k es : list entry := filter (λ e, key_lt (ekey e) k = true) es.
Definition upper k es : list entry := filter (λ e, key_lt (ekey e) k = false) es.

Lemma split_at_key k es : StronglySorted before es → es = lower k es ++ upper k es.
Proof.
  unfold lower, upper. induction 1 as [|e es Hs IH Hall]; [done|]. rewrite !filter_cons.
  destruct (key_lt (ekey e) k) eqn:E; simpl; [by f_equal|].
  assert (filter (λ e, key_lt (ekey e) k = true) es = []) as ->.
  { apply filter_none. eapply Forall_impl; [done|]. intros b Hb Hlt. unfold before in Hb.
    by rewrite (key_lt_trans _ _ _ Hb Hlt) in E. }
  simpl. f_equal. rewrite filter_all; [done|]. eapply Forall_impl; [done|]. intros b Hb.
  unfold before in Hb. destruct (key_lt (ekey b) k) eqn:E2; [|done].
  by rewrite (key_lt_trans _ _ _ Hb E2) in E.
Qed.

Lemma lower_lt k es e : e ∈ lower k es → key_lt (ekey e) k = true ∧ e ∈ es.
Proof. unfold lower. by rewrite list_elem_of_filter. Qed.

Lemma upper_ge k es e : e ∈ upper k es → key_lt (ekey e) k = false ∧ e ∈ es.
Proof. unfold upper. by rewrite list_elem_of_filter. Qed.

(** ** Access *)

Lemma wp_load_node p n s (Q : Node K V → SkipList K V → Prop) :
  nodes s !! p = Some n → Q n s → wp (load_node p) s Q.
Proof. intros Hp HQ. unfold load_node. wp_steps. by apply (wp_deref _ n). Qed.

Lemma wp_forward_at p i v s (Q : option positive → SkipList K V → Prop) :
  0 <= i → fwd (nodes s) i p = Some v → Q v s → wp (forward_at p i) s Q.
Proof.
  intros Hi Hf HQ. unfold fwd in Hf. destruct (nodes s !! p) as [n|] eqn:Hn; [|done]. simpl in Hf.
  unfold forward_at. wp_steps. apply (wp_load_node p n); [done|].
  destruct (Z.ltb_spec i 0); [lia|]. by apply (wp_deref _ v).
Qed.

(** A write of a forward pointer. *)
Definition put_forward p i v h := alter (λ n, with_forward (<[Z.to_nat i := v]> (forward n)) n) p h.

Lemma alter_insert_lookup (f : Node K V → Node K V) p n h :
  h !! p = Some n → alter f p h = <[p := f n]> h.
Proof.
  intros Hn. apply map_eq. intros q. destruct (decide (p = q)) as [<-|Hne].
  - by rewrite lookup_alter_eq, lookup_insert_eq, Hn.
  - by rewrite lookup_alter_ne, lookup_insert_ne.
Qed.

Lemma wp_set_forward p i v s (Q : unit → SkipList K V → Prop) :
  0 <= i → is_Some (fwd (nodes s) i p) → Q () (set_nodes (put_forward p i v (nodes s)) (next_node s) s) →
  wp (set_forward p i v) s Q.
Proof.
  intros Hi [x Hf] HQ. unfold fwd in Hf. destruct (nodes s !! p) as [n|] eqn:Hn; [|done]. simpl in Hf.
  unfold set_forward. wp_steps. apply (wp_load_node p n); [done|].
  destruct (Z.ltb_spec i 0); [lia|]. wp_steps. apply (wp_deref _ x); [done|].
  unfold store_node. wp_steps. apply (wp_load_node p n); [done|]. wp_steps.
  unfold put_forward in HQ. rewrite (alter_insert_lookup _ _ n) in HQ by done. exact HQ.
Qed.

Lemma fwd_put p i v h j q : 0 <= i → 0 <= j → is_Some (fwd h i p) →
  fwd (put_forward p i v h) j q = if decide (p = q ∧ i = j) then Some v else fwd h j q.
Proof.
  intros Hi Hj [x Hf]. unfold fwd, put_forward in *. destruct (h !! p) as [n|] eqn:Hn; [|done].
  simpl in Hf. destruct (decide (p = q)) as [<-|Hne].
  - rewrite lookup_alter_eq, Hn. simpl. case_decide as Hd.
    + destruct Hd as [_ <-]. rewrite list_lookup_insert_eq; [done|]. by eapply lookup_lt_Some.
    + rewrite list_lookup_insert_ne; [done|]. intros E. apply Hd. split; [done|]. lia.
  - rewrite lookup_alter_ne by done. rewrite decide_False; [done|]. tauto.
Qed.

Lemma core_put p i v h q : core <$> put_forward p i v h !! q = core <$> h !! q.
Proof.
  unfold put_forward. destruct (decide (p = q)) as [<-|Hne].
  - rewrite lookup_alter_eq. destruct (h !! p); [|done]. simpl. unfold core. simpl.
    by rewrite length_insert.
  - by rewrite lookup_alter_ne.
Qed.
End rep.

(** * Searching, inserting and deleting in a skip list *)

Lemma levels_down_cons j : 0 <= j → levels_down j = j :: levels_down (j - 1).
Proof.
  intros Hj. unfold levels_down. rewrite <- (Z2Nat.id j) by done.
  replace (Z.of_nat (Z.to_nat j) + 1) with (Z.of_nat (S (Z.to_nat j))) by lia.
  rewrite seqZ_S, rev_app_distr. simpl. by rewrite Z.sub_add.
Qed.

Lemma levels_down_end j : j < 0 → levels_down j = [].
Proof. intros Hj. unfold levels_down. by rewrite seqZ_nil by lia. Qed.

Section ops.
Context {K V : Type} `{EqDecision K} `{KeyOrder K}.
Implicit Types (s : SkipList K V) (n : Node K V) (h : gmap positive (Node K V)).
Implicit Types (e : entry (K := K) (V := V)) (es : list (entry (K := K) (V := V))).

(** ** Searching *)

Lemma walk_spec k i s u v : ∀ current fuel, 0 <= i → (length u < fuel)%nat →
  chain (nodes s) i current (u ++ v) →
  (∀ p, p ∈ u → ∃ n, nodes s !! p = Some n ∧ key_lt (key n) k = true) →
  (∀ p, p ∈ v → ∃ n, nodes s !! p = Some n ∧ key_lt (key n) k = false) →
  wp (walk fuel i k current) s (λ r s', s' = s ∧ r = default current (last u)).
Proof.
  induction u as [|p u IH]; intros current [|fuel] Hi Hf Hc Hu Hv; simpl in *; try lia; wp_steps.
  - apply (wp_forward_at current i (head v)); [done|by apply chain_head|].
    destruct v as [|q v]; simpl; wp_steps; [done|]. destruct (Hv q) as (n & Hn & Hk); [left|].
    apply (wp_load_node q n); [done|]. rewrite Hk. by wp_steps.
  - destruct Hc as [Hn Hc]. apply (wp_forward_at current i (Some p)); [done|done|]. wp_steps.
    destruct (Hu p) as (n & Hpn & Hk); [left|]. apply (wp_load_node p n); [done|]. rewrite Hk.
    eapply wp_mono; [apply IH; try done; [lia|]|].
    + intros q Hq. apply Hu. by right.
    + intros r s' [-> ->]. by rewrite default_last_cons.
Qed.

Lemma rep_node s es e : rep s es → e ∈ es → ∃ n, nodes s !! ptr e = Some n ∧ core n = entry_core e.
Proof.
  intros R He. destruct (rep_entry _ _ R e He) as [Hc _].
  destruct (nodes s !! ptr e) as [n|]; [|done]. simpl in Hc. apply (inj Some) in Hc. by exists n.
Qed.

Lemma rep_size s es : rep s es → (length es < size (nodes s))%nat.
Proof.
  intros R. rewrite <- size_dom. apply (Nat.lt_le_trans _ (length (_header s :: (ptr <$> es)))).
  { simpl. rewrite length_fmap. lia. }
  rewrite <- (size_list_to_set (C := gset positive)) by apply R.
  apply subseteq_size. intros p. rewrite elem_of_list_to_set, elem_of_cons, elem_of_dom.
  apply (rep_dom _ _ R).
Qed.

Lemma at_level_length i es : (length (at_level i es) <= length es)%nat.
Proof. unfold at_level. rewrite length_fmap. apply length_filter. Qed.

(** One level of the search. *)
Lemma walk_level k i s es : rep s es → 0 <= i <= _max_level s →
  wp (walk (S (size (nodes s))) i k (pred (_header s) (i + 1) (lower k es))) s
    (λ r s', s' = s ∧ r = pred (_header s) i (lower k es)).
Proof.
  intros R Hi. destruct (pred_split (_header s) i (lower k es)) as (w & u & Hw & ->).
  pose proof (rep_chain _ _ R i Hi) as Hc.
  rewrite (split_at_key k es) in Hc by apply R. rewrite at_level_app, Hw, <- app_assoc in Hc.
  apply chain_app in Hc.
  assert (∀ p es' b, p ∈ at_level i es' → (∀ e, e ∈ es' → key_lt (ekey e) k = b ∧ e ∈ es) →
    ∃ n, nodes s !! p = Some n ∧ key_lt (key n) k = b) as Hkey.
  { intros p es' b (e & He & -> & _)%elem_of_at_level Hes. destruct (Hes e He) as [Hk Hin].
    destruct (rep_node s es e R Hin) as (n & Hn & Hcore). exists n. split; [done|].
    injection Hcore as -> _ _ _. done. }
  eapply wp_mono; [apply (walk_spec k i s u (at_level i (upper k es))); try done; try lia|].
  - pose proof (rep_size _ _ R). pose proof (at_level_length i (lower k es)) as Hl.
    rewrite Hw, length_app in Hl. assert (length (lower k es) <= length es)%nat by apply length_filter. lia.
  - intros p Hp. apply (Hkey p (lower k es)); [rewrite Hw; set_solver|apply lower_lt].
  - intros p Hp. apply (Hkey p (upper k es)); [done|apply upper_ge].
  - intros r s' [-> ->]. split; [done|]. unfold pred. rewrite Hw, last_app. by destruct (last u).
Qed.

Lemma pred_top s es k : rep s es → pred (_header s) (_skip_list_level s + 1) (lower k es) = _header s.
Proof.
  intros R. unfold pred. rewrite at_level_high; [done|]. intros e [_ He]%lower_lt.
  destruct (rep_entry _ _ R e He). lia.
Qed.

Definition update_ok s es k (lvl : Z) (update : list (option positive)) : Prop :=
  length update = Z.to_nat (_max_level s + 1) ∧
  ∀ i, 0 <= i <= lvl → update !! Z.to_nat i = Some (Some (pred (_header s) i (lower k es))).

Lemma find_update_spec k s es : rep s es →
  wp (find_update k) s (λ r s', s' = s ∧ r.1 = pred (_header s) 0 (lower k es) ∧
    update_ok s es k (_skip_list_level s) r.2).
Proof.
  intros R. destruct (rep_level _ _ R) as [Hl0 Hlm]. unfold find_update. wp_steps.
  apply (wp_forM _ _ _ _ (λ l r s', s' = s ∧ ∃ j, -1 <= j <= _skip_list_level s ∧ l = levels_down j ∧
    r.1 = pred (_header s) (j + 1) (lower k es) ∧ length r.2 = Z.to_nat (_max_level s + 1) ∧
    ∀ i, j < i <= _skip_list_level s → r.2 !! Z.to_nat i = Some (Some (pred (_header s) i (lower k es))))).
  - split; [done|]. exists (_skip_list_level s). split; [lia|]. split; [done|].
    split; [by rewrite pred_top|]. simpl. rewrite length_replicate. split; [done|lia].
  - intros i l [current update] s' (-> & j & Hj & El & Hcur & Hlen & Hupd). simpl in *. subst current.
    destruct (Z.lt_ge_cases j 0) as [?|Hj0]; [by rewrite levels_down_end in El|].
    rewrite levels_down_cons in El by done. injection El as -> ->. wp_steps.
    eapply wp_mono; [apply (walk_level k j s es); done || lia|]. intros r s' [-> ->]. wp_steps.
    unfold update_set. destruct (Z.ltb_spec j 0); [lia|]. wp_steps.
    assert (is_Some (update !! Z.to_nat j)) as [x Hx] by (apply lookup_lt_is_Some; lia).
    apply (wp_deref _ x); [done|]. wp_steps. simpl. split; [done|]. exists (j - 1).
    split; [lia|]. split; [done|]. rewrite Z.sub_add. split; [done|]. split; [by rewrite length_insert|].
    intros i Hi. destruct (decide (i = j)) as [->|Hne].
    + by rewrite list_lookup_insert_eq by lia.
    + rewrite list_lookup_insert_ne by lia. apply Hupd. lia.
  - intros [current update] s' (-> & j & Hj & El & Hcur & Hlen & Hupd). simpl in *.
    assert (j = -1) as ->.
    { destruct (Z.lt_ge_cases j 0) as [?|?]; [lia|]. by rewrite levels_down_cons in El. }
    split; [done|]. split; [done|]. split; [done|]. intros i Hi. apply Hupd. lia.
Qed.

(** What the search stops before. *)
Lemma pred_next s es k i : rep s es → 0 <= i <= _max_level s →
  fwd (nodes s) i (pred (_header s) i (lower k es)) = Some (head (at_level i (upper k es))).
Proof.
  intros R Hi. pose proof (rep_chain _ _ R i Hi) as Hc.
  rewrite (split_at_key k es) in Hc by apply R. rewrite at_level_app in Hc.
  apply chain_app in Hc. by apply chain_head in Hc.
Qed.

Lemma next_entry s es k : rep s es →
  head (at_level 0 (upper k es)) = ptr <$> head (upper k es).
Proof.
  intros R. rewrite at_level_0; [by destruct (upper k es)|].
  intros e [_ He]%upper_ge. destruct (rep_entry _ _ R e He). lia.
Qed.

(** The entry of a key. *)
Definition found k es : option entry :=
  match upper k es with e :: _ => if bool_decide (ekey e = k) then Some e else None | [] => None end.

Lemma has_key_spec k s es : rep s es →
  wp (has_key (ptr <$> head (upper k es)) k) s (λ r s', s' = s ∧ r = match found k es with Some _ => true | None => false end).
Proof.
  intros R. unfold found. destruct (upper k es) as [|e es'] eqn:E; simpl; unfold has_key.
  - by wp_steps.
  - assert (e ∈ es) as He by (apply (upper_ge k); rewrite E; left).
    destruct (rep_node s es e R He) as (n & Hn & Hc). wp_steps. apply (wp_load_node (ptr e) n); [done|].
    wp_steps. split; [done|]. injection Hc as -> _ _ _. by destruct (bool_decide (ekey e = k)).
Qed.

Lemma search_element_spec k s es : rep s es →
  wp (search_element k) s (λ r s', s' = s ∧ r = ptr <$> found k es).
Proof.
  intros R. destruct (rep_level _ _ R) as [Hl0 Hlm]. unfold search_element. wp_steps.
  apply (wp_forM _ _ _ _ (λ l r s', s' = s ∧ ∃ j, -1 <= j <= _skip_list_level s ∧ l = levels_down j ∧
    r = pred (_header s) (j + 1) (lower k es))).
  - split; [done|]. exists (_skip_list_level s). split; [lia|]. split; [done|]. by rewrite pred_top.
  - intros i l current s' (-> & j & Hj & El & ->).
    destruct (Z.lt_ge_cases j 0) as [?|Hj0]; [by rewrite levels_down_end in El|].
    rewrite levels_down_cons in El by done. injection El as -> ->. wp_steps.
    eapply wp_mono; [apply (walk_level k j s es); done || lia|]. intros r s' [-> ->].
    split; [done|]. exists (j - 1). rewrite Z.sub_add. split; [lia|done].
  - intros current s' (-> & j & Hj & El & ->).
    assert (j = -1) as ->.
    { destruct (Z.lt_ge_cases j 0) as [?|?]; [lia|]. by rewrite levels_down_cons in El. }
    wp_steps. simpl. eapply wp_forward_at; [lia|by apply pred_next; [|lia]|]. wp_steps.
    rewrite (next_entry s) by done. eapply wp_mono; [by apply has_key_spec|].
    intros r s' [-> ->]. wp_steps. split; [done|]. unfold found.
    destruct (upper k es) as [|e es']; simpl; [done|].
    by destruct (bool_decide (ekey e = k)).
Qed.

(** What [found] means. *)
Lemma found_Some k es e : StronglySorted before es → found k es = Some e ↔ e ∈ es ∧ ekey e = k.
Proof.
  intros Hs. unfold found. split.
  - destruct (upper k es) as [|e' es'] eqn:E; [done|]. case_bool_decide; [|done]. intros [= <-].
    split; [|done]. apply (upper_ge k). rewrite E. left.
  - intros [He <-]. assert (e ∈ upper (ekey e) es) as Hu.
    { unfold upper. apply list_elem_of_filter. split; [apply key_lt_irrefl|done]. }
    destruct (upper (ekey e) es) as [|e' es'] eqn:E; [by apply not_elem_of_nil in Hu|].
    assert (StronglySorted before (e' :: es')) as Hs'.
    { rewrite <- E. rewrite (split_at_key (ekey e) es Hs) in Hs.
      clear -Hs. induction (lower (ekey e) es) as [|x l IH]; [done|]. simpl in Hs.
      apply IH. by apply StronglySorted_inv in Hs as [? _]. }
    apply StronglySorted_inv in Hs' as [_ Hall]. apply elem_of_cons in Hu as [->|Hu].
    + by rewrite bool_decide_eq_true_2.
    + rewrite Forall_forall in Hall. specialize (Hall e Hu). unfold before in Hall.
      assert (e' ∈ upper (ekey e) es) as He' by (rewrite E; left).
      apply upper_ge in He' as [Hx _]. congruence.
Qed.

Lemma found_None k es : StronglySorted before es → found k es = None ↔ ∀ e, e ∈ es → ekey e ≠ k.
Proof.
  intros Hs. split.
  - intros Hn e He Hk. assert (found k es = Some e) by (by apply found_Some). congruence.
  - intros Hall. destruct (found k es) as [e|] eqn:E; [|done]. apply found_Some in E as [He Hk]; [|done].
    by apply Hall in He.
Qed.
End ops.
