(* ===== verification/SkipListInsert.v ===== *)
(** * Inserting into a skip list *)

From S2P Require Import Prelude SkipList SkipListRep.

Section insert.
Context {K V : Type} `{EqDecision K} `{KeyOrder K}.
Implicit Types (s : SkipList K V) (n : Node K V) (h : gmap positive (Node K V)).
Implicit Types (e : entry (K := K) (V := V)) (es : list (entry (K := K) (V := V))).

(** ** Writes *)

Definition put_prev p v h : gmap positive (Node K V) := alter (with_prev v) p h.

Lemma wp_set_prev p v s (Q : unit → SkipList K V → Prop) :
  is_Some (nodes s !! p) → Q () (set_nodes (put_prev p v (nodes s)) (next_node s) s) →
  wp (set_prev p v) s Q.
Proof.
  intros [n Hn] HQ. unfold set_prev. wp_steps. apply (wp_load_node p n); [done|].
  unfold store_node. wp_steps. apply (wp_load_node p n); [done|]. wp_steps.
  unfold put_prev in HQ. rewrite (alter_insert_lookup _ _ n) in HQ by done. exact HQ.
Qed.

Lemma fwd_put_prev p v h i q : fwd (put_prev p v h) i q = fwd h i q.
Proof.
  unfold fwd, put_prev. destruct (decide (p = q)) as [<-|Hne]; [|by rewrite lookup_alter_ne].
  rewrite lookup_alter_eq. by destruct (h !! p).
Qed.

Lemma core_put_prev p v h q : core <$> put_prev p v h !! q = core <$> h !! q.
Proof.
  unfold put_prev. destruct (decide (p = q)) as [<-|Hne]; [|by rewrite lookup_alter_ne].
  rewrite lookup_alter_eq. by destruct (h !! p).
Qed.

Lemma put_forward_prev p i v p' v' h :
  put_forward p i v (put_prev p' v' h) = put_prev p' v' (put_forward p i v h).
Proof.
  unfold put_forward, put_prev. destruct (decide (p = p')) as [<-|Hne].
  - apply map_eq. intros q. destruct (decide (p = q)) as [<-|?].
    + rewrite !lookup_alter_eq. by destruct (h !! p).
    + by rewrite !lookup_alter_ne.
  - apply map_eq. intros q. destruct (decide (p = q)) as [<-|?].
    + by rewrite lookup_alter_eq, !lookup_alter_ne, lookup_alter_eq by done.
    + rewrite lookup_alter_ne by done. destruct (decide (p' = q)) as [<-|?].
      * by rewrite !lookup_alter_eq, lookup_alter_ne.
      * by rewrite !lookup_alter_ne.
Qed.

Lemma is_Some_put_prev p v h q : is_Some (put_prev p v h !! q) ↔ is_Some (h !! q).
Proof.
  rewrite <- (fmap_is_Some core (put_prev p v h !! q)), core_put_prev. by rewrite fmap_is_Some.
Qed.

(** ** Linking *)

(** [h] is [h0] with the node [q] of [e] linked at the levels below [j]. *)
Record linked hd h0 (q : positive) e es (j : Z) h : Prop := {
  linked_core p : core <$> h !! p = if decide (p = q) then Some (entry_core e) else core <$> h0 !! p;
  linked_fwd i p : 0 <= i → fwd h i p =
    if decide (p = q) then
      (if decide (i <= elevel e) then
         Some (if decide (i < j) then head (at_level i (upper (ekey e) es)) else None)
       else None)
    else if decide (i < j ∧ i <= elevel e ∧ p = pred hd i (lower (ekey e) es)) then Some (Some q)
    else fwd h0 i p;
}.

Lemma linked_start hd h0 q e es : 0 <= elevel e →
  linked hd h0 q e es 0 (<[q := new_Node (ekey e) (evalue e) (elevel e)]> h0).
Proof.
  intros Hl. split.
  - intros p. case_decide as Hp; [subst p; rewrite lookup_insert_eq|by rewrite lookup_insert_ne].
    simpl. unfold core. simpl. by rewrite length_replicate.
  - intros i p Hi. unfold fwd. case_decide as Hp; [subst p; rewrite lookup_insert_eq|].
    + simpl. case_decide as Hle.
      * rewrite lookup_replicate_2 by lia. rewrite decide_False by lia. done.
      * apply lookup_replicate_None. lia.
    + rewrite lookup_insert_ne by done. rewrite decide_False by lia. done.
Qed.

Lemma linked_put_prev hd h0 q e es j h p v : linked hd h0 q e es j h → linked hd h0 q e es j (put_prev p v h).
Proof. intros [L1 L2]. split; intros; [rewrite core_put_prev; apply L1|rewrite fwd_put_prev; by apply L2]. Qed.

Lemma linked_step hd h0 q e es j h : linked hd h0 q e es j h → 0 <= j <= elevel e →
  pred hd j (lower (ekey e) es) ≠ q →
  fwd h0 j (pred hd j (lower (ekey e) es)) = Some (head (at_level j (upper (ekey e) es))) →
  linked hd h0 q e es (j + 1) (put_forward (pred hd j (lower (ekey e) es)) j (Some q)
    (put_forward q j (head (at_level j (upper (ekey e) es))) h)).
Proof.
  intros [L1 L2] Hj Hne Hu. set (u := pred hd j (lower (ekey e) es)) in *.
  assert (is_Some (fwd h j q)) as Hq.
  { rewrite L2 by lia. rewrite decide_True by done. rewrite decide_True by lia. by eexists. }
  assert (is_Some (fwd h j u)) as Hu'.
  { rewrite L2 by lia. rewrite decide_False by done. rewrite decide_False by lia. by eexists. }
  assert (is_Some (fwd (put_forward q j (head (at_level j (upper (ekey e) es))) h) j u)) as Hu''.
  { rewrite fwd_put by (done || lia). rewrite decide_False; [done|]. intros [? _]. by apply Hne. }
  split.
  - intros p. by rewrite !core_put.
  - intros i p Hi. rewrite fwd_put by (done || lia). rewrite fwd_put by (done || lia). rewrite L2 by done.
    fold u. destruct (decide (i = j)) as [->|Hij].
    + destruct (decide (p = q)) as [->|Hpq].
      * rewrite (decide_False (P := u = q ∧ j = j)) by naive_solver. rewrite decide_True by done.
        rewrite !decide_True by lia. done.
      * destruct (decide (p = u)) as [->|Hpu].
        -- rewrite decide_True by done. rewrite decide_True by (split_and!; done || lia). done.
        -- rewrite (decide_False (P := u = p ∧ j = j)) by naive_solver.
           rewrite (decide_False (P := q = p ∧ j = j)) by naive_solver.
           rewrite !decide_False by naive_solver. done.
    + rewrite (decide_False (P := u = p ∧ j = i)) by naive_solver.
      rewrite (decide_False (P := q = p ∧ j = i)) by naive_solver.
      rewrite (decide_ext (i < j) (i < j + 1)) by lia.
      rewrite (decide_ext (i < j ∧ _) (i < j + 1 ∧ i <= elevel e ∧ p = pred hd i (lower (ekey e) es))); [done|].
      assert (i < j ↔ i < j + 1) as -> by lia. done.
Qed.

Lemma wp_link_at hd update q e es j s h0 :
  linked hd h0 q e es j (nodes s) → 0 <= j <= elevel e →
  update !! Z.to_nat j = Some (Some (pred hd j (lower (ekey e) es))) →
  pred hd j (lower (ekey e) es) ≠ q →
  fwd h0 j (pred hd j (lower (ekey e) es)) = Some (head (at_level j (upper (ekey e) es))) →
  wp (link_at update q j) s (λ _ s', ∃ h', s' = set_nodes h' (next_node s) s ∧ linked hd h0 q e es (j + 1) h').
Proof.
  intros L Hj Hupd Hne Hu. pose proof (linked_step _ _ _ _ _ _ _ L Hj Hne Hu) as L'.
  destruct L as [L1 L2]. unfold link_at. wp_steps. unfold update_at.
  destruct (Z.ltb_spec j 0); [lia|]. wp_steps. eapply wp_deref; [exact Hupd|].
  eapply wp_deref; [done|]. wp_steps. set (u := pred hd j (lower (ekey e) es)) in *.
  eapply wp_forward_at; [lia| |].
  { rewrite L2 by lia. rewrite decide_False by done. rewrite decide_False by lia. exact Hu. }
  wp_steps. apply wp_set_forward; [lia| |].
  { rewrite L2 by lia. rewrite decide_True by done. rewrite decide_True by lia. by eexists. }
  apply wp_set_forward; [lia| |].
  { simpl. rewrite fwd_put; [|lia..|].
    - rewrite decide_False by naive_solver. rewrite L2 by lia. rewrite decide_False by done.
      rewrite decide_False by lia. by eexists.
    - rewrite L2 by lia. rewrite decide_True by done. rewrite decide_True by lia. by eexists. }
  simpl. by eexists.
Qed.

(** ** The new list *)

Definition with_entry e es : list entry := lower (ekey e) es ++ e :: upper (ekey e) es.

Lemma pred_known s es k i : rep s es →
  pred (_header s) i (lower k es) = _header s ∨ pred (_header s) i (lower k es) ∈ ptr <$> es.
Proof.
  intros R. unfold pred. destruct (last (at_level i (lower k es))) as [p|] eqn:E; [right|by left]. simpl.
  assert (p ∈ at_level i (lower k es)) as Hp by (apply last_Some in E as [l ->]; set_solver).
  apply elem_of_at_level in Hp as (e & [_ He]%lower_lt & -> & _). by apply list_elem_of_fmap_2.
Qed.

Lemma next_not_known s es p : rep s es → p = _header s ∨ p ∈ ptr <$> es → p ≠ next_node s.
Proof. intros R Hp%(rep_dom _ _ R) ->. apply (rep_fresh _ _ R) in Hp. lia. Qed.

Lemma sorted_with_entry e es : StronglySorted before es → found (ekey e) es = None →
  StronglySorted before (with_entry e es).
Proof.
  intros Hs Hf. rewrite found_None in Hf by done. unfold with_entry.
  assert (Forall (λ x, before x e) (lower (ekey e) es)) as Hlow.
  { apply Forall_forall. intros x Hx. by apply lower_lt in Hx as [? _]. }
  assert (Forall (before e) (upper (ekey e) es)) as Hup.
  { apply Forall_forall. intros x [Hx Hin]%upper_ge. unfold before.
    destruct (key_lt_total (ekey e) (ekey x)) as [?|[E|?]]; [done| |congruence].
    by destruct (Hf x Hin). }
  rewrite (split_at_key (ekey e) es Hs) in Hs. revert Hs Hlow.
  induction (lower (ekey e) es) as [|x l IH]; intros Hs Hlow; simpl in *; [by constructor|].
  apply StronglySorted_inv in Hs as [Hs Hall]. apply Forall_cons in Hlow as [Hx Hlow].
  constructor; [by apply IH|]. apply Forall_app in Hall as [? ?].
  apply Forall_app. split; [done|]. by apply Forall_cons.
Qed.

Lemma with_entry_perm e es : StronglySorted before es → with_entry e es ≡ₚ e :: es.
Proof.
  intros Hs. unfold with_entry. rewrite <- Permutation_middle. by rewrite <- split_at_key.
Qed.

Lemma linked_rep s es e h s' : rep s es → found (ekey e) es = None → ptr e = next_node s →
  0 <= elevel e <= _max_level s → Z.of_nat (length es) < INT_MAX →
  linked (_header s) (nodes s) (next_node s) e es (elevel e + 1) h →
  nodes s' = h → next_node s' = Pos.succ (next_node s) → _header s' = _header s →
  _max_level s' = _max_level s → _skip_list_level s' = Z.max (_skip_list_level s) (elevel e) →
  _element_count s' = _element_count s + 1 →
  rep s' (with_entry e es).
Proof.
  intros R Hf Hp Hl Hlen [L1 L2] En Enx Eh Em El Ec. pose proof (rep_sorted _ _ R) as Hs.
  pose proof (with_entry_perm e es Hs) as Hperm.
  pose proof R as [R1 R2 (hn & Hhn & Hhl) R4 R5 R6 R7 R8 R9 [R10 R11]].
  assert (ptr <$> with_entry e es ≡ₚ next_node s :: (ptr <$> es)) as Hptr by (by rewrite Hperm; simpl; rewrite Hp).
  assert (next_node s ∉ _header s :: (ptr <$> es)) as Hfresh.
  { rewrite elem_of_cons. intros Hx. by eapply next_not_known in Hx. }
  split; rewrite ?En, ?Enx, ?Eh, ?Em, ?El, ?Ec.
  - lia.
  - done.
  - pose proof (L1 (_header s)) as Hc. rewrite decide_False in Hc by set_solver. rewrite Hhn in Hc.
    destruct (h !! _header s) as [n'|] eqn:E; [|done]. exists n'. split; [done|].
    simpl in Hc. apply (inj Some) in Hc. unfold core in Hc. injection Hc as _ _ _ ->. done.
  - rewrite Hptr. apply NoDup_cons in R4 as [Hh R4]. apply NoDup_cons. split; [set_solver|].
    apply NoDup_cons. split; [set_solver|done].
  - intros x. rewrite Hperm, elem_of_cons, L1. intros [->|Hx].
    + rewrite decide_True by done. split; [done|lia].
    + assert (ptr x ∈ ptr <$> es) by (by apply list_elem_of_fmap_2).
      rewrite decide_False by set_solver. destruct (R5 x Hx). split; [done|lia].
  - intros i Hi. pose proof (R6 i Hi) as Hc. rewrite (split_at_key (ekey e) es Hs), at_level_app in Hc.
    unfold with_entry. rewrite at_level_app, at_level_cons.
    assert (NoDup (_header s :: at_level i (lower (ekey e) es) ++ at_level i (upper (ekey e) es))) as Hnd.
    { rewrite <- at_level_app, <- split_at_key by done. apply NoDup_cons in R4 as [Hh R4].
      apply NoDup_cons. split; [|by apply at_level_nodup]. intros Hx. by apply Hh, (at_level_sub i). }
    assert (next_node s ∉ _header s :: at_level i (lower (ekey e) es) ++ at_level i (upper (ekey e) es)) as Hq.
    { rewrite <- at_level_app, <- split_at_key by done. rewrite elem_of_cons. intros [Hx|Hx]; [set_solver|].
      apply Hfresh. right. by apply (at_level_sub i). }
    case_decide as Hle; simpl.
    + rewrite Hp. apply (chain_link (nodes s) _ i); [done|done|done| | |].
      * fold (pred (_header s) i (lower (ekey e) es)). rewrite L2 by lia.
        rewrite decide_False by (by eapply next_not_known; [|apply pred_known]).
        rewrite decide_True by (split_and!; done || lia). done.
      * rewrite L2 by lia. rewrite !decide_True by (done || lia). done.
      * intros x Hx1 Hx2. rewrite L2 by lia. rewrite decide_False by done.
        rewrite decide_False; [done|]. intros (_ & _ & ->). by apply Hx2.
    + apply (chain_ext (nodes s)); [|done]. intros x Hx. rewrite L2 by lia.
      rewrite decide_False; [|intros ->; by apply Hq]. rewrite decide_False; [done|]. lia.
  - by apply sorted_with_entry.
  - intros p. rewrite Hptr, elem_of_cons. pose proof (L1 p) as Hc.
    assert (is_Some (h !! p) ↔ is_Some (core <$> h !! p)) as -> by (by rewrite fmap_is_Some).
    rewrite Hc. case_decide as Hpq; [split; [tauto|by eexists]|].
    rewrite fmap_is_Some, R8. tauto.
  - intros p Hsp. assert (is_Some (core <$> h !! p)) as Hsc by (by rewrite fmap_is_Some).
    rewrite L1 in Hsc. case_decide; [lia|]. rewrite fmap_is_Some in Hsc. apply R9 in Hsc. lia.
  - rewrite Hperm. simpl. lia.
Qed.

(** ** Levels *)

(** The coming calls of [rand] return an even number soon enough. *)
Definition lucky (rs : list Z) : Prop :=
  ∃ odds r rest, rs = odds ++ r :: rest ∧ Forall (λ x, x mod 2 ≠ 0) odds ∧ r mod 2 = 0 ∧
    Z.of_nat (length odds) < INT_MAX.

Lemma toss_spec odds r rest : ∀ k, Forall (λ x, x mod 2 ≠ 0) odds → r mod 2 = 0 →
  k + Z.of_nat (length odds) <= INT_MAX →
  toss (odds ++ r :: rest) k = Some (k + Z.of_nat (length odds), rest).
Proof.
  induction odds as [|x odds IH]; intros k Hall Hr Hk; simpl.
  - rewrite Hr. simpl. do 2 f_equal. simpl in Hk. lia.
  - apply Forall_cons in Hall as [Hx Hall]. destruct (Z.eqb_spec (x mod 2) 0); [done|].
    simpl in Hk. destruct (Z.eqb_spec k INT_MAX); [lia|]. rewrite IH by (done || lia).
    do 2 f_equal. lia.
Qed.

Lemma get_random_level_spec s (Q : Z → SkipList K V → Prop) : lucky (rands s) → 0 <= _max_level s →
  (∀ r rs, 0 <= r <= _max_level s → Q r (set_rands rs s)) → wp get_random_level s Q.
Proof.
  intros (odds & x & rest & E & Hall & Hx & Hlen) Hm HQ. unfold get_random_level. wp_steps.
  eapply wp_deref; [rewrite E; apply toss_spec; [done|done|lia]|]. wp_steps.
  apply HQ. simpl. destruct (Z.ltb_spec (1 + Z.of_nat (length odds)) (_max_level s)); lia.
Qed.

(** ** The operation *)

Lemma raise_update_spec s es k r update : rep s es → 0 <= r <= _max_level s →
  update_ok s es k (_skip_list_level s) update → ∀ s0,
  wp (if _skip_list_level s <? r then
        update ← forM (seqZ (_skip_list_level s + 1) (r - _skip_list_level s))
          (λ update i, update_set update i (_header s)) update;
        modify (set_level r);;
        mret update
      else mret update) s0 (λ update' s', update_ok s es k (Z.max (_skip_list_level s) r) update' ∧
    s' = set_level (if _skip_list_level s <? r then r else _skip_list_level s0) s0).
Proof.
  intros R Hr [Hlen Hupd] s0. destruct (rep_level _ _ R) as [Hl0 Hlm].
  destruct (Z.ltb_spec (_skip_list_level s) r) as [Hlt|Hge]; cycle 1.
  { wp_steps. rewrite Z.max_l by lia. split; [done|]. by destruct s0. }
  wp_steps. apply (wp_forM _ _ _ _ (λ l update s', s' = s0 ∧ ∃ j, _skip_list_level s <= j <= r ∧
    l = seqZ (j + 1) (r - j) ∧ update_ok s es k j update)).
  - split; [done|]. exists (_skip_list_level s). split; [lia|]. split; [done|]. by split.
  - intros i l upd s' (-> & j & Hj & El & Hl & Hu).
    destruct (Z.lt_ge_cases j r) as [Hjr|]; [|by rewrite seqZ_nil in El by lia].
    rewrite seqZ_cons in El by lia. injection El as -> ->. unfold update_set.
    destruct (Z.ltb_spec (j + 1) 0); [lia|]. wp_steps.
    assert (is_Some (upd !! Z.to_nat (j + 1))) as [x Hx] by (apply lookup_lt_is_Some; lia).
    apply (wp_deref _ x); [done|]. wp_steps. split; [done|]. exists (j + 1). split; [lia|].
    split; [f_equal; lia|]. split; [by rewrite length_insert|]. intros i Hi.
    destruct (decide (i = j + 1)) as [->|Hne].
    + rewrite list_lookup_insert_eq by lia. do 2 f_equal. unfold pred. rewrite at_level_high; [done|].
      intros e [_ He]%lower_lt. destruct (rep_entry _ _ R e He). lia.
    + rewrite list_lookup_insert_ne by lia. apply Hu. lia.
  - intros upd s' (-> & j & Hj & El & Hu). wp_steps. rewrite Z.max_r by lia.
    assert (j = r) as ->; [|done]. destruct (Z.lt_ge_cases j r); [|lia]. by rewrite seqZ_cons in El by lia.
Qed.

Lemma insert_element_spec k v s es : rep s es → lucky (rands s) → Z.of_nat (length es) < INT_MAX →
  wp (insert_element k v) s (λ r s', match found k es with
    | Some _ => r = 1 ∧ s' = s
    | None => r = 0 ∧ ∃ e, ekey e = k ∧ evalue e = v ∧ rep s' (with_entry e es)
    end).
Proof.
  intros R Hluck Hlen. destruct (rep_level _ _ R) as [Hl0 Hlm]. unfold insert_element. apply wp_bind.
  eapply wp_mono; [by apply find_update_spec|]. intros [cur update] s1 (-> & Hcur & Hupd). simpl in *. subst cur.
  wp_steps. eapply wp_forward_at; [lia|by apply pred_next; [|lia]|]. wp_steps.
  rewrite (next_entry s) by done. eapply wp_mono; [by apply has_key_spec|]. intros r s' [-> ->].
  destruct (found k es) as [e0|] eqn:Hf; wp_steps; [done|].
  apply get_random_level_spec; [done|lia|]. intros r rs Hr. wp_steps. simpl.
  eapply wp_mono; [by apply (raise_update_spec s es k r update)|].
  intros update' s2 [Hupd' ->]. wp_steps. clear update Hupd. destruct Hupd' as [Hulen Hu].
  set (e := MkEntry (next_node s) k v r).
  set (lvl := if _skip_list_level s <? r then r else _skip_list_level (set_rands rs s)).
  set (s2 := set_level lvl (set_rands rs s)).
  assert (lvl = Z.max (_skip_list_level s) r) as Hlvl.
  { unfold lvl. destruct (Z.ltb_spec (_skip_list_level s) r); simpl; lia. }
  assert (∀ j, pred (_header s) j (lower k es) ≠ next_node s) as Hne.
  { intros j. eapply next_not_known; [done|by apply pred_known]. }
  unfold create_node. unfold wp at 1. simpl.
  set (h1 := <[next_node s := new_Node k v r]> (nodes s)).
  assert (linked (_header s) (nodes s) (next_node s) e es 0 h1) as L0
    by (apply (linked_start (_header s) (nodes s) (next_node s) e es); simpl; lia).
  pose proof (linked_step _ _ _ _ _ _ _ L0 (conj (Z.le_refl 0) (proj1 Hr)) (Hne 0) (pred_next s es k 0 R ltac:(lia))) as L1.
  simpl in L1. set (u := pred (_header s) 0 (lower k es)) in *.
  set (f := head (at_level 0 (upper k es))) in *.
  assert (fwd h1 0 u = Some f) as Hfu.
  { rewrite (linked_fwd _ _ _ _ _ _ _ L0) by lia. rewrite decide_False by apply Hne.
    rewrite decide_False by lia. apply pred_next; [done|lia]. }
  assert (is_Some (fwd h1 0 (next_node s))) as Hfq.
  { rewrite (linked_fwd _ _ _ _ _ _ _ L0) by lia. rewrite decide_True by done.
    rewrite decide_True by (simpl; lia). by eexists. }
  unfold update_at. change (0 <? 0) with false. cbv iota. wp_steps.
  eapply wp_deref; [apply (Hu 0); lia|]. eapply wp_deref; [done|]. wp_steps. fold u.
  apply (wp_forward_at u 0 f); [lia|done|]. wp_steps.
  apply wp_set_forward; [lia|done|]. cbv beta. simpl nodes. simpl next_node.
  set (h2 := put_forward (next_node s) 0 f h1).
  assert (is_Some (h2 !! u) ∧ is_Some (h2 !! next_node s)) as [Hsu Hsq].
  { unfold fwd in Hfu, Hfq. assert (∀ p, is_Some (h2 !! p) ↔ is_Some (h1 !! p)) as E.
    { intros p. unfold h2. rewrite <- (fmap_is_Some core (put_forward _ _ _ _ !! p)), core_put. by rewrite fmap_is_Some. }
    rewrite !E. split.
    - destruct (h1 !! u); [by eexists|done].
    - destruct (h1 !! next_node s); [by eexists|by destruct Hfq]. }
  assert (is_Some (fwd h2 0 u)) as Hfu2.
  { unfold h2. rewrite fwd_put by (done || lia). rewrite decide_False; [by eexists|].
    intros [E _]. by apply (Hne 0). }
  assert (∃ h3, linked (_header s) (nodes s) (next_node s) e es 1 h3 ∧
    ∀ (s0 : SkipList K V) (rest : M (SkipList K V) Z) (Q : Z → SkipList K V → Prop),
    nodes s0 = h2 → wp rest (set_nodes h3 (next_node s0) s0) Q →
    wp (match f with Some _ => set_prev u (Some (next_node s)) | None => mret () end;;
        set_forward u 0 (Some (next_node s));; set_prev (next_node s) (Some u);; rest) s0 Q) as (h3 & L3 & Hwp).
  { exists (put_prev (next_node s) (Some u) (put_forward u 0 (Some (next_node s))
      match f with Some _ => put_prev u (Some (next_node s)) h2 | None => h2 end)). split.
    - apply linked_put_prev. destruct f; [rewrite put_forward_prev; by apply linked_put_prev|done].
    - intros s0 rest Q E HQ. assert (∀ h, is_Some (put_forward u 0 (Some (next_node s)) h !! next_node s) ↔
        is_Some (h !! next_node s)) as Hpf.
      { intros h. rewrite <- (fmap_is_Some core (put_forward _ _ _ _ !! _)), core_put. by rewrite fmap_is_Some. }
      apply wp_bind. destruct f as [x|].
      + apply wp_set_prev; [by rewrite E|]. apply wp_bind, wp_set_forward; [lia|simpl; by rewrite E, fwd_put_prev|].
        apply wp_bind, wp_set_prev; simpl; rewrite E; [|done]. by rewrite Hpf, is_Some_put_prev.
      + wp_steps. apply wp_set_forward; [lia|simpl; by rewrite E|].
        apply wp_bind, wp_set_prev; simpl; rewrite E; [|done]. by rewrite Hpf. }
  apply Hwp; [done|]. clear Hwp. apply wp_bind.
  set (s3 := set_nodes h3 _ _).
  apply (wp_forM _ _ _ _ (λ l _ s', ∃ j h, 1 <= j <= r + 1 ∧ l = seqZ j (r + 1 - j) ∧
    linked (_header s) (nodes s) (next_node s) e es j h ∧ s' = set_nodes h (Pos.succ (next_node s)) s2)).
  - exists 1, h3. split; [lia|]. split; [f_equal; lia|]. done.
  - intros j l [] s' (j' & h & Hj & El & L & ->).
    destruct (Z.lt_ge_cases r j') as [?|Hjr]; [by rewrite seqZ_nil in El by lia|].
    rewrite seqZ_cons in El by lia. injection El as -> ->.
    eapply wp_mono; [apply (wp_link_at (_header s) update' (next_node s) e es j' _ (nodes s)); try done|].
    + simpl. lia.
    + apply Hu. lia.
    + apply pred_next; [done|lia].
    + intros _ s' (h' & -> & L'). exists (j' + 1), h'. split; [lia|]. split; [f_equal; lia|]. by split.
  - intros [] s' (j & h & Hj & El & L & ->).
    assert (j = r + 1) as ->.
    { destruct (Z.lt_ge_cases r j) as [?|?]; [lia|]. by rewrite seqZ_cons in El by lia. }
    destruct (rep_count _ _ R) as [Hc _]. wp_steps. simpl. rewrite Hc.
    destruct (Z.eqb_spec (Z.of_nat (length es)) INT_MAX); [lia|]. wp_steps. split; [done|].
    exists e. split; [done|]. split; [done|].
    apply (linked_rep s es e h); try done. simpl. by rewrite Hc.
Qed.
End insert.
