(* ===== verification/SkipListDelete.v ===== *)
(** * Deleting from a skip list

    An entry that is not the last is taken out; at the last one the code follows a
    null pointer. *)

From S2P Require Import Prelude SkipList SkipListRep SkipListInsert.

Section delete.
Context {K V : Type} `{EqDecision K} `{KeyOrder K}.
Implicit Types (s : SkipList K V) (n : Node K V) (h : gmap positive (Node K V)).
Implicit Types (e : entry (K := K) (V := V)) (es : list (entry (K := K) (V := V))).

(** ** Unlinking *)

Lemma found_split k es e : StronglySorted before es → found k es = Some e →
  ekey e = k ∧ upper k es = e :: tail (upper k es) ∧ es = lower k es ++ e :: tail (upper k es).
Proof.
  intros Hs Hf. assert (ekey e = k) as Hk by by apply (found_Some k es e Hs).
  assert (upper k es = e :: tail (upper k es)) as Hu.
  { unfold found in Hf. destruct (upper k es) as [|e' es']; [done|].
    case_bool_decide; [|done]. by injection Hf as ->. }
  split; [done|]. split; [done|]. rewrite <- Hu. by apply split_at_key.
Qed.

Definition without k es : list entry := lower k es ++ tail (upper k es).

(** [h] is [h0] with the node of [e] unlinked at the levels below [j]. *)
Record unlinked hd h0 e es (j : Z) h : Prop := {
  unlinked_core p : core <$> h !! p = core <$> h0 !! p;
  unlinked_fwd i p : 0 <= i → fwd h i p =
    if decide (i < j ∧ p = pred hd i (lower (ekey e) es))
    then Some (head (at_level i (tail (upper (ekey e) es))))
    else fwd h0 i p;
}.

Lemma unlinked_step hd h0 e es j h : unlinked hd h0 e es j h → 0 <= j →
  is_Some (fwd h0 j (pred hd j (lower (ekey e) es))) →
  unlinked hd h0 e es (j + 1) (put_forward (pred hd j (lower (ekey e) es)) j
    (head (at_level j (tail (upper (ekey e) es)))) h).
Proof.
  intros [U1 U2] Hj Hs. split.
  - intros p. by rewrite core_put.
  - intros i p Hi. assert (is_Some (fwd h j (pred hd j (lower (ekey e) es)))) as Hs'.
    { rewrite U2 by lia. by rewrite decide_False by lia. }
    rewrite fwd_put by (done || lia). rewrite U2 by lia.
    destruct (decide (pred hd j (lower (ekey e) es) = p ∧ j = i)) as [[E ->]|Hne].
    + rewrite decide_True; [done|]. split; [lia|done].
    + destruct (decide (i < j ∧ p = pred hd i (lower (ekey e) es))) as [[? ?]|Hx].
      * rewrite decide_True by (split; [lia|done]). done.
      * rewrite decide_False; [done|]. intros [Hlt ->]. destruct (decide (i = j)) as [->|?]; [by apply Hne|].
        apply Hx. split; [lia|done].
Qed.

Lemma pred_not_upper s es k e i : rep s es → e ∈ upper k es → pred (_header s) i (lower k es) ≠ ptr e.
Proof.
  intros R He. pose proof (rep_nodup _ _ R) as Hnd. rewrite (split_at_key k es) in Hnd by apply R.
  rewrite fmap_app in Hnd. apply NoDup_cons in Hnd as [Hh Hnd]. apply NoDup_app in Hnd as (_ & Hdis & _).
  unfold pred. destruct (last (at_level i (lower k es))) as [p|] eqn:E; simpl.
  - assert (p ∈ at_level i (lower k es)) as Hp by (apply last_Some in E as [l ->]; set_solver).
    apply at_level_sub in Hp. intros ->. apply (Hdis _ Hp). by apply list_elem_of_fmap_2.
  - intros E2. apply Hh. rewrite E2. apply elem_of_app. right. by apply list_elem_of_fmap_2.
Qed.

(** The entry is the next one exactly at its levels. *)
Lemma next_is_entry s es k e i : rep s es → found k es = Some e →
  head (at_level i (upper k es)) = Some (ptr e) ↔ i <= elevel e.
Proof.
  intros R Hf. destruct (found_split k es e (rep_sorted _ _ R) Hf) as (Hk & Hu & Hes).
  rewrite Hu, at_level_cons. case_decide as Hi; [done|]. split; [|done].
  simpl. intros Hh. exfalso. pose proof (rep_nodup _ _ R) as Hnd. rewrite Hes, fmap_app in Hnd.
  apply NoDup_cons in Hnd as [_ Hnd]. apply NoDup_app in Hnd as (_ & _ & Hnd). simpl in Hnd.
  apply NoDup_cons in Hnd as [Hn _]. apply Hn, (at_level_sub i).
  destruct (at_level i (tail (upper k es))); [done|]. injection Hh as ->. left.
Qed.

Lemma unlink_spec k s es e update (s0 : SkipList K V) :
  rep s es → found k es = Some e → update_ok s es k (_skip_list_level s) update →
  ∀ m j, unlinked (_header s) (nodes s) e es j (nodes s0) → 0 <= j <= elevel e + 1 →
  j + m = _skip_list_level s + 1 →
  wp (unlink update (ptr e) (seqZ j m)) s0 (λ _ s', ∃ h, s' = set_nodes h (next_node s0) s0 ∧
    unlinked (_header s) (nodes s) e es (elevel e + 1) h).
Proof.
  intros R Hf [Hlen Hupd] m. destruct (found_split k es e (rep_sorted _ _ R) Hf) as (Hk & Hu & Hes).
  assert (e ∈ es) as He by (rewrite Hes; set_solver).
  destruct (rep_entry _ _ R e He) as [_ Hl]. destruct (rep_level _ _ R) as [Hl0 Hlm].
  revert s0. remember (Z.to_nat m) as c eqn:Ec. revert m Ec. induction c as [|c IH]; intros m Ec s0 j Hun Hj Hm.
  - rewrite seqZ_nil by lia. simpl. wp_steps. exists (nodes s0). split; [by destruct s0|].
    replace (elevel e + 1) with j by lia. done.
  - rewrite seqZ_cons by lia. simpl. wp_steps. unfold update_at.
    destruct (Z.ltb_spec j 0); [lia|]. wp_steps.
    eapply wp_deref; [apply (Hupd j); lia|]. eapply wp_deref; [done|].
    pose proof (pred_next s es k j R ltac:(lia)) as Hnext.
    wp_steps. eapply wp_forward_at; [lia| |].
    { rewrite (unlinked_fwd _ _ _ _ _ _ Hun) by lia. rewrite decide_False by lia. exact Hnext. }
    case_bool_decide as Hb; simpl.
    + rewrite next_is_entry in Hb by done. wp_steps.
      assert (fwd (nodes s0) j (ptr e) = Some (head (at_level j (tail (upper k es))))) as Hfe.
      { rewrite (unlinked_fwd _ _ _ _ _ _ Hun) by lia. rewrite decide_False by lia.
        pose proof (rep_chain _ _ R j ltac:(lia)) as Hc. rewrite Hes, at_level_app, at_level_cons in Hc.
        rewrite decide_True in Hc by done. apply chain_app in Hc. destruct Hc as [_ Hc]. by apply chain_head in Hc. }
      eapply wp_forward_at; [lia|exact Hfe|]. wp_steps. apply wp_set_forward; [lia| |].
      { rewrite (unlinked_fwd _ _ _ _ _ _ Hun) by lia. rewrite decide_False by lia. by eexists. }
      assert (is_Some (fwd (nodes s) j (pred (_header s) j (lower (ekey e) es)))) as Hs by (rewrite Hk; by eexists).
      pose proof (unlinked_step _ _ _ _ _ _ Hun (proj1 Hj) Hs) as Hun'. rewrite Hk in Hun'.
      eapply wp_mono; [apply (IH (Z.pred m)); [lia|exact Hun'|lia|lia]|].
      intros _ s' (h & -> & Hh). by exists h.
    + rewrite next_is_entry in Hb by done. wp_steps. exists (nodes s0). split; [by destruct s0|].
      replace (elevel e + 1) with j by lia. done.
Qed.

(** ** Lowering the level *)

Lemma at_level_empty i es : at_level i es = [] → ∀ e, e ∈ es → elevel e < i.
Proof.
  intros E e He. destruct (Z.lt_ge_cases (elevel e) i) as [|Hge]; [done|].
  assert (ptr e ∈ at_level i es) as Hp by (apply elem_of_at_level; by exists e).
  rewrite E in Hp. by apply not_elem_of_nil in Hp.
Qed.

Lemma lower_level_spec es : ∀ c s, 0 <= _skip_list_level s <= _max_level s →
  (∀ i, 0 <= i <= _max_level s → chain (nodes s) i (_header s) (at_level i es)) →
  (∀ e, e ∈ es → elevel e <= _skip_list_level s) → (Z.to_nat (_skip_list_level s) <= c)%nat →
  wp (lower_level c) s (λ _ s', ∃ l, s' = set_level l s ∧ 0 <= l <= _skip_list_level s ∧
    ∀ e, e ∈ es → elevel e <= l).
Proof.
  induction c as [|c IH]; intros s Hl Hc Hes Hn; simpl; wp_steps;
    destruct (Z.ltb_spec 0 (_skip_list_level s)) as [Hpos|Hz]; simpl; wp_steps; try lia.
  - exists (_skip_list_level s). split; [by destruct s|]. split; [lia|done].
  - pose proof (Hc (_skip_list_level s) ltac:(lia)) as Hh. apply chain_head in Hh.
    eapply wp_forward_at; [lia|exact Hh|].
    destruct (at_level (_skip_list_level s) es) eqn:E; simpl; wp_steps.
    + eapply wp_mono; [apply (IH (set_level (_skip_list_level s - 1) s)); simpl; [lia|done| |lia]|].
      * intros e He. pose proof (at_level_empty _ _ E e He). lia.
      * intros _ s' (l & -> & Hl' & Hes'). exists l. split; [by destruct s|]. simpl in Hl'. split; [lia|done].
    + exists (_skip_list_level s). split; [by destruct s|]. split; [lia|done].
  - exists (_skip_list_level s). split; [by destruct s|]. split; [lia|done].
Qed.

(** ** The operation *)

(** What is left to do once the entry is unlinked. *)
Definition delete_rest (current : positive) : M (SkipList K V) unit :=
  next ← forward_at current 0;
  header ← gets _header;
  (if negb (bool_decide (next = Some header)) then
     nx ← deref next;
     c ← load_node current;
     set_prev nx (prev c)
   else mret ());;
  delete_node current;;
  modify (λ s, set_count (_element_count s - 1) s).

(** [s'] is [s] with the entry unlinked, and its node still there. *)
Record cut s e es s' : Prop := {
  cut_core p : core <$> nodes s' !! p = core <$> nodes s !! p;
  cut_chain i : 0 <= i <= _max_level s → chain (nodes s') i (_header s) (at_level i (without (ekey e) es));
  cut_next : fwd (nodes s') 0 (ptr e) = Some (ptr <$> head (tail (upper (ekey e) es)));
  cut_level : 0 <= _skip_list_level s' <= _max_level s ∧
    ∀ e', e' ∈ without (ekey e) es → elevel e' <= _skip_list_level s';
  cut_rest : _max_level s' = _max_level s ∧ _header s' = _header s ∧
    _element_count s' = _element_count s ∧ next_node s' = next_node s ∧ rands s' = rands s;
}.

Lemma without_sub k es e : e ∈ without k es → e ∈ es.
Proof.
  unfold without. rewrite elem_of_app. intros [He|He]; [by apply lower_lt in He as [_ ?]|].
  apply (upper_ge k). destruct (upper k es); [done|by right].
Qed.

Lemma unlinked_chain s es e h i : rep s es → found (ekey e) es = Some e → 0 <= i <= _max_level s →
  unlinked (_header s) (nodes s) e es (elevel e + 1) h →
  chain h i (_header s) (at_level i (without (ekey e) es)).
Proof.
  intros R Hf Hi Hun. destruct (found_split _ _ _ (rep_sorted _ _ R) Hf) as (_ & Hu & Hes).
  pose proof (rep_chain _ _ R i Hi) as Hc. rewrite Hes, at_level_app, at_level_cons in Hc.
  unfold without. rewrite at_level_app. case_decide as Hle; simpl in Hc.
  - apply (chain_unlink (nodes s) _ i _ (ptr e)); [|done| |].
    + pose proof (rep_nodup _ _ R) as Hnd. apply NoDup_cons in Hnd as [Hh Hnd].
      assert (at_level i es = at_level i (lower (ekey e) es) ++ ptr e :: at_level i (tail (upper (ekey e) es))) as <-.
      { rewrite Hes at 1. rewrite at_level_app, at_level_cons, decide_True by done. done. }
      apply NoDup_cons. split; [|by apply at_level_nodup]. intros Hx. by apply Hh, (at_level_sub i).
    + fold (pred (_header s) i (lower (ekey e) es)). rewrite (unlinked_fwd _ _ _ _ _ _ Hun) by lia.
      rewrite decide_True by (split; [lia|done]). done.
    + intros x Hx. rewrite (unlinked_fwd _ _ _ _ _ _ Hun) by lia.
      rewrite decide_False; [done|]. intros [_ ->]. by apply Hx.
  - apply (chain_ext (nodes s)); [|done]. intros x _. rewrite (unlinked_fwd _ _ _ _ _ _ Hun) by lia.
    rewrite decide_False; [done|]. lia.
Qed.

Lemma delete_found k s es e : rep s es → found k es = Some e →
  ∃ s', cut s e es s' ∧ delete_element k s = delete_rest (ptr e) s'.
Proof.
  intros R Hf. destruct (found_split _ _ _ (rep_sorted _ _ R) Hf) as (Hk & Hu & Hes).
  assert (e ∈ es) as He by (rewrite Hes; set_solver). destruct (rep_level _ _ R) as [Hl0 Hlm].
  destruct (wp_inv _ _ _ (find_update_spec k s es R)) as ([cur update] & s1 & E1 & -> & Hcur & Hupd).
  simpl in Hcur, Hupd. subst cur.
  assert (wp (forward_at (pred (_header s) 0 (lower k es)) 0) s
    (λ r s', s' = s ∧ r = Some (ptr e))) as Hfw.
  { eapply wp_forward_at; [lia|apply pred_next; [done|lia]|]. rewrite (next_entry s) by done. by rewrite Hu. }
  apply wp_inv in Hfw as (cur & s2 & E2 & -> & ->).
  destruct (wp_inv _ _ _ (has_key_spec k s es R)) as (fd & s2 & E3 & -> & Hfd).
  rewrite Hf in Hfd. subst fd.
  assert (ptr <$> head (upper k es) = Some (ptr e)) as Ec by (by rewrite Hu). rewrite Ec in E3.
  assert (unlinked (_header s) (nodes s) e es 0 (nodes s)) as Hun0.
  { split; [done|]. intros i p Hi. by rewrite decide_False by lia. }
  destruct (rep_entry _ _ R e He) as [_ Hle].
  destruct (wp_inv _ _ _ (unlink_spec k s es e update s R Hf Hupd (_skip_list_level s + 1) 0 Hun0 ltac:(lia) ltac:(lia)))
    as ([] & s2 & E4 & h & -> & Hun).
  rewrite <- Hk in Hf.
  destruct (wp_inv _ _ _ (lower_level_spec (without k es) (Z.to_nat (_skip_list_level s))
    (set_nodes h (next_node s) s) ltac:(simpl; lia)
    (λ i Hi, eq_rect _ (λ k, chain h i (_header s) (at_level i (without k es)))
       (unlinked_chain s es e h i R Hf Hi Hun) _ Hk)
    (λ x Hx, proj2 (proj2 (rep_entry _ _ R x (without_sub k es x Hx)))) ltac:(simpl; lia)))
    as ([] & s2 & E5 & l & -> & Hl & Hlev). simpl in Hl.
  exists (set_level l (set_nodes h (next_node s) s)). split.
  - rewrite <- Hk in Hlev. split; try done.
    + intros p. apply Hun.
    + intros i Hi. by apply (unlinked_chain s).
    + simpl. rewrite (unlinked_fwd _ _ _ _ _ _ Hun) by lia. rewrite decide_False.
      * pose proof (rep_chain _ _ R 0 ltac:(lia)) as Hc. rewrite Hes, at_level_app, at_level_cons in Hc.
        rewrite decide_True in Hc by lia. apply chain_app in Hc. destruct Hc as [_ Hc]. apply chain_head in Hc.
        simpl in Hc. rewrite Hk. rewrite Hc. f_equal. rewrite at_level_0; [by destruct (tail (upper k es))|].
        intros x Hx. apply (rep_entry _ _ R x). rewrite Hes. set_solver.
      * intros [_ E]. apply (pred_not_upper s es (ekey e) e 0 R); [|done]. rewrite Hk, Hu. left.
    + simpl. split; [lia|done].
  - unfold delete_element. unfold mbind at 1, M_bind at 1. rewrite E1.
    unfold mbind at 1, M_bind at 1. rewrite E2. unfold mbind at 1, M_bind at 1. rewrite E3.
    unfold mbind at 1, M_bind at 1, gets at 1. unfold mbind at 1, M_bind at 1. rewrite E4.
    unfold mbind at 1, M_bind at 1. rewrite E5. done.
Qed.

Lemma without_perm k es e : StronglySorted before es → found k es = Some e → es ≡ₚ e :: without k es.
Proof.
  intros Hs Hf. destruct (found_split _ _ _ Hs Hf) as (_ & _ & Hes). rewrite Hes at 1.
  unfold without. symmetry. apply Permutation_middle.
Qed.

Lemma sorted_without k es e : StronglySorted before es → found k es = Some e →
  StronglySorted before (without k es).
Proof.
  intros Hs Hf. destruct (found_split _ _ _ Hs Hf) as (_ & _ & Hes). unfold without.
  rewrite Hes in Hs. revert Hs. clear Hes. generalize (tail (upper k es)). intros r.
  induction (lower k es) as [|x l IH]; intros Hs; simpl in *; apply StronglySorted_inv in Hs as [Hs Hall]; [done|].
  constructor; [by apply IH|]. apply Forall_app in Hall as [? Hall]. apply Forall_app.
  split; [done|]. by apply Forall_cons in Hall as [_ ?].
Qed.

(** Freeing the node of an entry that is linked nowhere. *)
Lemma cut_rep s e es s' s'' p v : rep s es → found (ekey e) es = Some e → cut s e es s' →
  s'' = set_count (_element_count s' - 1)
    (set_nodes (delete (ptr e) (put_prev p v (nodes s'))) (next_node s') s') →
  rep s'' (without (ekey e) es).
Proof.
  intros R Hf C ->. pose proof (without_perm _ _ _ (rep_sorted _ _ R) Hf) as Hperm.
  assert (ptr <$> es ≡ₚ ptr e :: (ptr <$> without (ekey e) es)) as Hptr
    by exact (fmap_Permutation ptr _ _ Hperm).
  pose proof (rep_nodup _ _ R) as Hnd. rewrite Hptr in Hnd.
  assert (ptr e ∉ _header s :: (ptr <$> without (ekey e) es)) as Hfresh.
  { apply NoDup_cons in Hnd as [Hh Hnd]. apply NoDup_cons in Hnd as [Hn _]. set_solver. }
  destruct C as [C1 C2 C3 [C4 C5] (C6 & C7 & C8 & C9 & C10)].
  assert (∀ q, q ≠ ptr e → core <$> delete (ptr e) (put_prev p v (nodes s')) !! q = core <$> nodes s !! q) as Hcore.
  { intros q Hq. rewrite lookup_delete_ne by done. by rewrite core_put_prev, C1. }
  split; simpl; rewrite ?C6, ?C7, ?C8, ?C9.
  - done.
  - apply R.
  - destruct (rep_header _ _ R) as (hn & Hhn & Hhl). pose proof (Hcore (_header s) ltac:(set_solver)) as Hc.
    rewrite Hhn in Hc. clear Hhn.
    destruct (delete _ _ !! _header s) as [n'|] eqn:E; [|done]. exists n'. split; [done|].
    simpl in Hc. apply (inj Some) in Hc. unfold core in Hc. injection Hc as _ _ _ ->. done.
  - apply NoDup_cons in Hnd as [Hh Hnd]. apply NoDup_cons in Hnd as [Hn Hnd].
    apply NoDup_cons. split; [set_solver|done].
  - intros x Hx. assert (ptr x ∈ ptr <$> without (ekey e) es) by (by apply list_elem_of_fmap_2).
    destruct (rep_entry _ _ R x (without_sub _ _ _ Hx)) as [Hcx ?].
    rewrite Hcore by set_solver. split; [done|]. specialize (C5 x Hx). lia.
  - intros i Hi. apply (chain_ext (nodes s')); [|by apply C2]. intros q Hq. rewrite <- (fwd_put_prev p v (nodes s')).
    unfold fwd. rewrite lookup_delete_ne; [done|]. intros <-. apply Hfresh.
    apply elem_of_cons in Hq as [->|Hq]; [left|]. right. by apply (at_level_sub i).
  - apply (sorted_without _ _ e); [apply R|done].
  - intros q. destruct (decide (q = ptr e)) as [->|Hq].
    + rewrite lookup_delete_eq. split; [by intros []|]. intros Hx. destruct Hfresh. by apply elem_of_cons.
    + rewrite <- (fmap_is_Some core), Hcore, fmap_is_Some by done. rewrite (rep_dom _ _ R), Hptr.
      rewrite elem_of_cons. naive_solver.
  - intros q Hs. destruct (decide (q = ptr e)) as [->|Hq]; [by rewrite lookup_delete_eq in Hs; destruct Hs|].
    apply (rep_fresh _ _ R). by rewrite <- (fmap_is_Some core), <- Hcore, fmap_is_Some.
  - destruct (rep_count _ _ R) as [-> ?]. apply Permutation_length in Hperm. simpl in Hperm. lia.
Qed.

Lemma is_Some_core h h' p : core <$> h !! p = core <$> h' !! p → is_Some (h !! p) ↔ is_Some (h' !! p).
Proof. intros E. by rewrite <- (fmap_is_Some core), E, fmap_is_Some. Qed.

(** An entry that is not the last is deleted. *)
Lemma delete_element_spec k s es e : rep s es → found k es = Some e → tail (upper k es) ≠ [] →
  wp (delete_element k) s (λ _ s', rep s' (without k es) ∧ rands s' = rands s ∧
    nodes s' !! ptr e = None).
Proof.
  intros R Hf Hlast. destruct (delete_found k s es e R Hf) as (s' & C & E).
  unfold wp. rewrite E. change (wp (delete_rest (ptr e)) s' (λ _ s', rep s' (without k es) ∧ rands s' = rands s ∧
    nodes s' !! ptr e = None)).
  destruct (found_split _ _ _ (rep_sorted _ _ R) Hf) as (Hk & Hu & Hes). subst k.
  destruct (tail (upper (ekey e) es)) as [|e2 r] eqn:Et; [done|].
  assert (ptr e2 ∈ ptr <$> es) as Hin2 by (apply list_elem_of_fmap_2; rewrite Hes; set_solver).
  assert (ptr e ∈ ptr <$> es) as Hin1 by (apply list_elem_of_fmap_2; rewrite Hes; set_solver).
  assert (∀ p, p ∈ ptr <$> es → is_Some (nodes s' !! p)) as Halive.
  { intros p Hp. rewrite (is_Some_core _ (nodes s)) by apply C. apply (rep_dom _ _ R). by right. }
  assert (ptr e2 ≠ _header s) as Hne.
  { intros E2. pose proof (rep_nodup _ _ R) as Hnd. apply NoDup_cons in Hnd as [Hh _]. by rewrite <- E2 in Hh. }
  destruct (Halive _ Hin1) as [c Hc].
  unfold delete_rest. wp_steps. eapply wp_forward_at; [lia|apply C|]. rewrite Et. simpl. wp_steps.
  destruct (cut_rest _ _ _ _ C) as (_ & Hhd & _ & _ & Hr). rewrite Hhd. rewrite bool_decide_eq_false_2 by congruence.
  cbn [negb]. wp_steps. apply (wp_load_node _ c); [done|].
  apply wp_set_prev; [by apply Halive|]. unfold delete_node. wp_steps.
  assert (is_Some (put_prev (ptr e2) (prev c) (nodes s') !! ptr e)) as [c' Hc'] by (rewrite is_Some_put_prev; by eexists).
  apply (wp_load_node _ c'); [done|]. wp_steps. split; [|split; [exact Hr|simpl; apply lookup_delete_eq]].
  by apply (cut_rep s e es s' _ (ptr e2) (prev c)).
Qed.

(** At the last one, [next->prev] has no node to write to. *)
Lemma delete_last k s es e : rep s es → found k es = Some e → tail (upper k es) = [] →
  delete_element k s = Undef.
Proof.
  intros R Hf Hlast. destruct (delete_found k s es e R Hf) as (s' & C & ->).
  destruct (found_split _ _ _ (rep_sorted _ _ R) Hf) as (Hk & _). subst k.
  pose proof (cut_next _ _ _ _ C) as Hn. rewrite Hlast in Hn. simpl in Hn.
  assert (wp (forward_at (ptr e) 0) s' (λ r s2, r = None ∧ s2 = s')) as Hw by by eapply wp_forward_at.
  apply wp_inv in Hw as (r & s2 & E & -> & ->).
  unfold delete_rest. unfold mbind at 1, M_bind at 1. by rewrite E.
Qed.

(** A key that is not there. *)
Lemma delete_absent k s es : rep s es → found k es = None →
  wp (delete_element k) s (λ _ s', s' = s).
Proof.
  intros R Hf. destruct (rep_level _ _ R) as [Hl0 Hlm]. unfold delete_element. apply wp_bind.
  eapply wp_mono; [by apply find_update_spec|]. intros [cur update] s1 (-> & Hcur & Hupd). simpl in *. subst cur.
  wp_steps. eapply wp_forward_at; [lia|by apply pred_next; [|lia]|]. wp_steps.
  rewrite (next_entry s) by done. eapply wp_mono; [by apply has_key_spec|]. intros r s' [-> ->]. rewrite Hf.
  destruct (ptr <$> head (upper k es)); by wp_steps.
Qed.
End delete.
