(* ===== verification/SkipListTheorems.v ===== *)
(** * The skip list as a map

    Properties of the whole list: the contract its operations implement, its
    destruction, and what goes wrong at the last entry. *)

From S2P Require Import Prelude SkipList SkipListRep SkipListInsert SkipListDelete.

Section theorems.
Context {K V : Type} `{Countable K} `{!KeyOrder K}.
Implicit Types (s : SkipList K V) (n : Node K V) (h : gmap positive (Node K V)).
Implicit Types (e : entry (K := K) (V := V)) (es : list (entry (K := K) (V := V))).
Implicit Types (A : gmap K V).

(** ** Contents *)

Definition pair_of e : K * V := (ekey e, evalue e).
Definition contents es : gmap K V := list_to_map (pair_of <$> es).

Definition represents s A : Prop := ∃ es, rep s es ∧ contents es = A.

Lemma sorted_keys es : StronglySorted before es → NoDup ((pair_of <$> es).*1).
Proof.
  induction 1 as [|e es Hs IH Hall]; simpl; [constructor|]. apply NoDup_cons. split; [|done].
  rewrite !list_elem_of_fmap. intros (p & E & (e' & -> & He')%list_elem_of_fmap). simpl in E.
  rewrite Forall_forall in Hall. specialize (Hall e' He'). unfold before in Hall.
  by rewrite E, key_lt_irrefl in Hall.
Qed.

Lemma contents_found k es : StronglySorted before es → contents es !! k = evalue <$> found k es.
Proof.
  intros Hs. destruct (found k es) as [e|] eqn:E; simpl.
  - apply found_Some in E as [He <-]; [|done]. apply elem_of_list_to_map; [by apply sorted_keys|].
    apply list_elem_of_fmap. by exists e.
  - rewrite found_None in E by done. apply not_elem_of_list_to_map. rewrite list_elem_of_fmap.
    intros ([k' v] & -> & (e & [= -> ->] & He)%list_elem_of_fmap). by apply (E e He).
Qed.

Lemma contents_perm es es' : StronglySorted before es → es ≡ₚ es' → contents es = contents es'.
Proof.
  intros Hs Hp. apply list_to_map_proper; [by apply sorted_keys|]. exact (fmap_Permutation pair_of _ _ Hp).
Qed.

Lemma contents_insert e es : StronglySorted before es → found (ekey e) es = None →
  contents (with_entry e es) = <[ekey e := evalue e]> (contents es).
Proof.
  intros Hs Hf. rewrite (contents_perm _ (e :: es)); [done|by apply sorted_with_entry|by apply with_entry_perm].
Qed.

Lemma contents_without k es e : StronglySorted before es → found k es = Some e →
  contents (without k es) = delete k (contents es).
Proof.
  intros Hs Hf. rewrite (contents_perm es (e :: without k es)); [|done|by apply without_perm].
  apply found_Some in Hf as Hk; [|done]. destruct Hk as [_ <-]. unfold contents at 2. simpl.
  rewrite delete_insert_id; [done|]. apply not_elem_of_list_to_map.
  assert (NoDup ((pair_of <$> (e :: without (ekey e) es)).*1)) as Hnd.
  { pose proof (sorted_keys es Hs) as Hnd.
    assert ((pair_of <$> es).*1 ≡ₚ (pair_of <$> (e :: without (ekey e) es)).*1) as Hp.
    { do 2 apply fmap_Permutation. by apply without_perm. }
    by rewrite Hp in Hnd. }
  by apply NoDup_cons in Hnd as [? _].
Qed.

Lemma contents_size es : StronglySorted before es → size (contents es) = length es.
Proof.
  intros Hs. unfold contents. rewrite <- size_dom, dom_list_to_map_L.
  rewrite size_list_to_set by (by apply sorted_keys). by rewrite !length_fmap.
Qed.

(** ** The contract *)

Inductive skip_request :=
| SkipInsert (k : K) (v : V)
| SkipSearch (k : K)
| SkipDelete (k : K)
| SkipSize
| SkipDump (fuel : nat).

Inductive skip_answer :=
| SkipDone
| SkipInt (z : Z)
| SkipFound (v : option V)
| SkipLines (l : list (K * V)).

(** A client reads the value of the node that a search returns. *)
Definition perform_skip (q : skip_request) : M (SkipList K V) skip_answer :=
  match q with
  | SkipInsert k v => r ← insert_element k v; mret (SkipInt r)
  | SkipSearch k =>
      p ← search_element k;
      match p with
      | None => mret (SkipFound None)
      | Some p => n ← load_node p; mret (SkipFound (Some (value n)))
      end
  | SkipDelete k => delete_element k;; mret SkipDone
  | SkipSize => z ← skip_size; mret (SkipInt z)
  | SkipDump fuel => l ← dump_file fuel; mret (SkipLines l)
  end.

(** Inserting needs room to count and a coin that falls, a dump rounds for the keys. *)
Definition skip_admissible s A (q : skip_request) : Prop :=
  match q with
  | SkipInsert _ _ => lucky (rands s) ∧ Z.of_nat (size A) < INT_MAX
  | SkipDump fuel => (size A <= fuel)%nat
  | _ => True
  end.

Inductive skip_contract A : skip_request → skip_answer → gmap K V → Prop :=
| skip_exists k v : is_Some (A !! k) → skip_contract A (SkipInsert k v) (SkipInt 1) A
| skip_new k v : A !! k = None → skip_contract A (SkipInsert k v) (SkipInt 0) (<[k := v]> A)
| skip_searched k : skip_contract A (SkipSearch k) (SkipFound (A !! k)) A
| skip_deleted k : skip_contract A (SkipDelete k) SkipDone (delete k A)
| skip_sized : skip_contract A SkipSize (SkipInt (Z.of_nat (size A))) A
| skip_dumped fuel l : list_to_map l = A → StronglySorted (λ a b, key_lt a.1 b.1 = true) l →
    skip_contract A (SkipDump fuel) (SkipLines l) A.

Lemma dump_from_spec s es l : ∀ fuel, rep s es → (∃ r, es = r ++ l) → (length l <= fuel)%nat →
  wp (dump_from fuel (ptr <$> head l)) s (λ r s', s' = s ∧ r = pair_of <$> l).
Proof.
  induction l as [|e l IH]; intros fuel R [r Hes] Hf; simpl; [destruct fuel; by wp_steps|].
  destruct fuel as [|fuel]; simpl in *; [lia|]. wp_steps.
  destruct (rep_node s es e R) as (n & Hn & Hc); [rewrite Hes; set_solver|].
  apply (wp_load_node _ n); [done|].
  destruct (rep_level _ _ R). pose proof (rep_chain _ _ R 0 ltac:(lia)) as Hch.
  rewrite at_level_0 in Hch by (intros x Hx; by apply (rep_entry _ _ R)).
  rewrite Hes, fmap_app in Hch. apply chain_app in Hch. destruct Hch as [_ Hch]. apply chain_head in Hch.
  assert (fwd (nodes s) 0 (ptr e) = Some (ptr <$> head l)) as Hnx by (rewrite Hch; by destruct l).
  wp_steps. eapply wp_forward_at; [lia|exact Hnx|]. wp_steps.
  eapply wp_mono; [apply IH; [done| |lia]|].
  - exists (r ++ [e]). by rewrite <- app_assoc.
  - intros x s' [-> ->]. wp_steps. split; [done|]. unfold pair_of at 2.
    injection Hc as -> -> _ _. done.
Qed.

Lemma sorted_pairs es : StronglySorted before es →
  StronglySorted (λ a b, key_lt a.1 b.1 = true) (pair_of <$> es).
Proof.
  induction 1 as [|e es Hs IH Hall]; simpl; [constructor|]. constructor; [done|].
  apply Forall_fmap. by eapply Forall_impl.
Qed.

Lemma greater_left k es e k' : StronglySorted before es → found k es = Some e →
  is_Some (contents es !! k') → key_lt k k' = true → tail (upper k es) ≠ [].
Proof.
  intros Hs Hf [v Hv] Hlt Hnil. rewrite contents_found in Hv by done.
  destruct (found k' es) as [e'|] eqn:E; [|done]. apply found_Some in E as [He' <-]; [|done].
  destruct (found_split k es e Hs Hf) as (Hk & Hu & _). rewrite Hnil in Hu.
  assert (e' ∈ upper k es) as Hin.
  { unfold upper. apply list_elem_of_filter. split; [|done].
    destruct (key_lt (ekey e') k) eqn:E; [|done].
    by rewrite <- (key_lt_irrefl k), (key_lt_trans _ _ _ Hlt E). }
  rewrite Hu in Hin. apply list_elem_of_singleton in Hin as ->. by rewrite Hk, key_lt_irrefl in Hlt.
Qed.

Lemma insert_represents k v s A : represents s A → lucky (rands s) → Z.of_nat (size A) < INT_MAX →
  wp (insert_element k v) s (λ r s', match A !! k with
    | Some _ => r = 1 ∧ represents s' A
    | None => r = 0 ∧ represents s' (<[k := v]> A)
    end).
Proof.
  intros (es & R & <-) Hluck Hlen. pose proof (rep_sorted _ _ R) as Hs.
  rewrite contents_size in Hlen by done. eapply wp_mono; [by apply insert_element_spec|].
  intros r s' Hcase. rewrite contents_found by done. destruct (found k es) as [e|] eqn:Hf; simpl.
  - destruct Hcase as [-> ->]. split; [done|]. by exists es.
  - destruct Hcase as (-> & e & <- & <- & R'). split; [done|]. exists (with_entry e es).
    split; [done|]. by apply contents_insert.
Qed.

(** ** The last entry *)

Definition greatest k A : Prop := is_Some (A !! k) ∧ ∀ k', is_Some (A !! k') → key_lt k k' = false.

(** Deleting the greatest key is undefined behaviour: its node is taken off its
    levels, and then [prev] of the node after it is written, when there is none. *)
Theorem deleting_greatest k s A : represents s A → greatest k A → delete_element k s = Undef.
Proof.
  intros (es & R & <-) [[v Hv] Hmax]. pose proof (rep_sorted _ _ R) as Hs.
  rewrite contents_found in Hv by done. destruct (found k es) as [e|] eqn:Hf; [|done].
  apply (delete_last k s es e R Hf). destruct (found_split k es e Hs Hf) as (Hk & _ & Hes).
  destruct (tail (upper k es)) as [|e2 r]; [done|]. exfalso.
  assert (e2 ∈ es) as He2 by (rewrite Hes; set_solver).
  assert (found (ekey e2) es = Some e2) as Hf2 by (by apply found_Some).
  assert (is_Some (contents es !! ekey e2)) as Hin by (rewrite contents_found, Hf2 by done; by eexists).
  apply Hmax in Hin. rewrite Hes in Hs. clear -Hs Hin Hk.
  induction (lower k es) as [|x l IH]; simpl in Hs; apply StronglySorted_inv in Hs as [Hs Hall]; [|by apply IH].
  apply Forall_cons in Hall as [Hlt _]. unfold before in Hlt. congruence.
Qed.

Definition deletes_greatest A (q : skip_request) : Prop :=
  match q with SkipDelete k => greatest k A | _ => False end.

(** An entry without a successor has the greatest key. *)
Lemma last_greatest k es e : StronglySorted before es → found k es = Some e →
  tail (upper k es) = [] → greatest k (contents es).
Proof.
  intros Hs Hf Hu. split; [rewrite contents_found, Hf by done; by eexists|]. intros k' Hk'.
  destruct (key_lt k k') eqn:Hlt; [|done]. by destruct (greater_left k es e k' Hs Hf Hk' Hlt).
Qed.

(** C14: The skip list is a map, but its greatest key cannot be deleted. Inserting
    adds a key that is not there and says whether it did, searching finds the value
    of a key, deleting takes a key out, the size is the number of keys, and a dump
    lists the pairs in the order of the keys; none of these touches a node that is
    not there, except that deleting the greatest key writes to one, which is
    undefined behaviour. *)
Theorem skip_list_is_a_map q s A : represents s A → skip_admissible s A q →
  (¬ deletes_greatest A q →
   wp (perform_skip q) s (λ r s', ∃ A', represents s' A' ∧ skip_contract A q r A')) ∧
  (deletes_greatest A q → perform_skip q s = Undef).
Proof.
  intros Hrep Hadm. split.
  2:{ destruct q as [k v|k|k| |fuel]; try done. simpl. intros Hg. unfold mbind, M_bind.
      by rewrite (deleting_greatest k s A Hrep Hg). }
  revert Hrep Hadm.
  intros (es & R & <-) Hadm Hng. pose proof (rep_sorted _ _ R) as Hs. destruct q as [k v|k|k| |fuel]; simpl in *.
  - destruct Hadm as [Hluck Hlen]. apply wp_bind.
    eapply wp_mono; [apply insert_represents; [by exists es|done|done]|]. intros r s' Hcase. wp_steps.
    destruct (contents es !! k) as [w|] eqn:Hk; destruct Hcase as [-> ?]; eexists; (split; [done|]).
    + apply skip_exists. by eexists.
    + by apply skip_new.
  - apply wp_bind. eapply wp_mono; [by apply search_element_spec|]. intros r s' [-> ->].
    destruct (found k es) as [e|] eqn:Hf; simpl.
    + apply found_Some in Hf as He; [|done]. destruct (rep_node s es e R (proj1 He)) as (n & Hn & Hc).
      apply wp_bind, (wp_load_node _ n); [done|]. wp_steps. exists (contents es). split; [by exists es|].
      injection Hc as _ -> _ _. pose proof (skip_searched (contents es) k) as Hx.
      by rewrite contents_found, Hf in Hx.
    + wp_steps. exists (contents es). split; [by exists es|]. pose proof (skip_searched (contents es) k) as Hx.
      by rewrite contents_found, Hf in Hx.
  - apply wp_bind. pose proof (contents_found k es Hs) as Hck. destruct (found k es) as [e|] eqn:Hf.
    + eapply wp_mono; [apply (delete_element_spec k s es e); [done|done|]|].
      { intros Hu. by apply Hng, (last_greatest k es e). }
      intros _ s' (R' & _). wp_steps. exists (contents (without k es)). split; [by eexists|].
      rewrite (contents_without k es e) by done. apply skip_deleted.
    + eapply wp_mono; [by apply (delete_absent k s es)|]. intros _ s' ->. wp_steps. exists (contents es).
      split; [by exists es|]. pose proof (skip_deleted (contents es) k) as Hx. by rewrite delete_id in Hx.
  - unfold skip_size. wp_steps. exists (contents es). split; [by exists es|].
    destruct (rep_count _ _ R) as [-> _]. rewrite <- (contents_size es) by done. apply skip_sized.
  - rewrite contents_size in Hadm by done. unfold dump_file. wp_steps. destruct (rep_level _ _ R).
    pose proof (rep_chain _ _ R 0 ltac:(lia)) as Hch. apply chain_head in Hch.
    rewrite at_level_0 in Hch by (intros x Hx; by apply (rep_entry _ _ R)).
    eapply wp_forward_at; [lia|exact Hch|].
    replace (head (ptr <$> es)) with (ptr <$> head es) by (by destruct es).
    eapply wp_mono; [apply (dump_from_spec s es es); [done|by exists []|done]|].
    intros r s' [-> ->]. wp_steps. exists (contents es). split; [by exists es|].
    apply skip_dumped; [done|by apply sorted_pairs].
Qed.

Lemma new_SkipList_rep m (k : K) (v : V) rs : 0 <= m < INT_MAX → rep (new_SkipList m k v rs) [].
Proof.
  intros Hm. split; simpl; try done; try lia.
  - eexists. split; [reflexivity|]. simpl. by rewrite length_replicate.
  - constructor; [apply not_elem_of_nil|constructor].
  - intros e He. by apply not_elem_of_nil in He.
  - intros i Hi. unfold fwd. rewrite lookup_singleton_eq. simpl. rewrite lookup_replicate_2; [done|lia].
  - constructor.
  - intros p. destruct (decide (p = 1%positive)) as [->|Hp].
    + rewrite lookup_singleton_eq. split; [by left|by eexists].
    + rewrite lookup_singleton_ne by done. split; [by intros []|]. intros [?|?%not_elem_of_nil]; done.
  - intros p [n [<- _]%lookup_singleton_Some]. lia.
Qed.

(** ** Destruction *)

Lemma clear_spec l : ∀ fuel p s, chain (nodes s) 0 p l → NoDup (p :: l) → (length l < fuel)%nat →
  wp (clear fuel p) s (λ _ s', _header s' = _header s ∧
    ∀ q, nodes s' !! q = if decide (q ∈ p :: l) then None else nodes s !! q).
Proof.
  induction l as [|y l IH]; intros [|fuel] p s Hc Hnd Hf; simpl in *; try lia.
  - assert (is_Some (nodes s !! p)) as [n Hn].
    { unfold fwd in Hc. destruct (nodes s !! p); [by eexists|done]. }
    wp_steps. eapply wp_forward_at; [lia|exact Hc|]. wp_steps. unfold delete_node. wp_steps.
    apply (wp_load_node _ n); [done|]. wp_steps. split; [done|]. intros q. simpl.
    case_decide as Hq.
    + apply list_elem_of_singleton in Hq as ->. apply lookup_delete_eq.
    + rewrite lookup_delete_ne; [done|]. intros ->. apply Hq. by apply list_elem_of_singleton.
  - destruct Hc as [Hp Hc]. assert (is_Some (nodes s !! p)) as [n Hn].
    { unfold fwd in Hp. destruct (nodes s !! p); [by eexists|done]. }
    apply NoDup_cons in Hnd as [Hpn Hnd]. wp_steps. eapply wp_forward_at; [lia|exact Hp|]. wp_steps.
    eapply wp_mono; [apply IH; [exact Hc|done|lia]|]. intros _ s' [Hh Hs']. unfold delete_node. wp_steps.
    apply (wp_load_node _ n); [by rewrite Hs', decide_False|]. wp_steps. split; [done|].
    intros q. simpl. destruct (decide (q = p)) as [->|Hq].
    + rewrite lookup_delete_eq, decide_True; [done|left].
    + rewrite lookup_delete_ne, Hs' by done. repeat case_decide; set_solver.
Qed.

(** The destructor frees every node, the header's too, and none twice; a recursion
    as deep as there are keys is enough. *)
Theorem destructor_frees_all s A fuel : represents s A → (size A <= fuel)%nat →
  wp (delete_SkipList fuel) s (λ _ s', nodes s' = ∅).
Proof.
  intros (es & R & <-) Hf. rewrite contents_size in Hf by apply R. destruct (rep_level _ _ R).
  pose proof (rep_chain _ _ R 0 ltac:(lia)) as Hc.
  rewrite at_level_0 in Hc by (intros x Hx; by apply (rep_entry _ _ R)).
  destruct (rep_header _ _ R) as (hn & Hhn & _). pose proof (rep_nodup _ _ R) as Hnd.
  unfold delete_SkipList. wp_steps. eapply wp_forward_at; [lia|by apply chain_head|].
  assert (∀ s', _header s' = _header s →
    (∀ q, nodes s' !! q = if decide (q ∈ ptr <$> es) then None else nodes s !! q) →
    wp (delete_node (_header s)) s' (λ _ s', nodes s' = ∅)) as Hend.
  { intros s' Hh Hs'. apply NoDup_cons in Hnd as [Hn _]. unfold delete_node. wp_steps.
    apply (wp_load_node _ hn); [by rewrite Hs', decide_False|]. wp_steps. simpl. apply map_eq. intros q.
    rewrite lookup_empty. destruct (decide (q = _header s)) as [->|Hq]; [apply lookup_delete_eq|].
    rewrite lookup_delete_ne, Hs' by done. case_decide as Hin; [done|].
    apply eq_None_not_Some. intros [?|?]%(rep_dom _ _ R); done. }
  destruct es as [|e es]; simpl in *; wp_steps.
  - apply Hend; [done|]. intros q. done.
  - destruct Hc as [_ Hc]. apply NoDup_cons in Hnd as [_ Hnd].
    eapply wp_mono; [apply (clear_spec (ptr <$> es)); [done|done|by rewrite length_fmap]|].
    intros _ s' [Hh Hs']. by apply Hend.
Qed.
End theorems.
Arguments skip_request : clear implicits.

(** ** Three keys *)


(** ** Three keys *)

Lemma luck odds r rest : Forall (λ x, x mod 2 ≠ 0) odds → r mod 2 = 0 → (length odds < 100)%nat →
  lucky (odds ++ r :: rest).
Proof. intros Ho Hr Hl. exists odds, r, rest. split_and!; try done. unfold INT_MAX. lia. Qed.

Ltac try_luck l := apply (luck l); [repeat constructor; done|done|simpl; lia].

Definition contents_of_three : gmap Z Z := <[2 := 20]> (<[3 := 30]> (<[1 := 10]> ∅)).

Lemma inserted_represents (k v : Z) (s : SkipList Z Z) (A : gmap Z Z) :
  represents s A → lucky (rands s) → Z.of_nat (size A) < INT_MAX → A !! k = None →
  represents (inserted k v s) (<[k := v]> A).
Proof.
  intros Hr Hl Hs Hk. pose proof (insert_represents k v s A Hr Hl Hs) as Hw. rewrite Hk in Hw.
  apply wp_inv in Hw as (r & s' & E & -> & Hr'). unfold inserted. by rewrite E.
Qed.

Lemma three_represents : represents three contents_of_three.
Proof.
  unfold three, contents_of_three. apply inserted_represents; [apply inserted_represents;
    [apply inserted_represents; [exists []; split; [by apply new_SkipList_rep|done]| |done|done]
    | |done|done]| |done|done].
  - try_luck [1].
  - replace (rands _) with [0; 1; 1; 1; 4] by (by vm_compute). try_luck (@nil Z).
  - replace (rands _) with [1; 1; 1; 4] by (by vm_compute). try_luck [1; 1; 1].
Qed.

Lemma three_greatest : greatest 3 contents_of_three.
Proof.
  split; [by eexists|]. intros k [v Hv]. unfold contents_of_three in Hv.
  apply lookup_insert_Some in Hv as [[<- _]|[_ Hv]]; [done|].
  apply lookup_insert_Some in Hv as [[<- _]|[_ Hv]]; [done|].
  by apply lookup_insert_Some in Hv as [[<- _]|[_ Hv]].
Qed.

Lemma skip_list_is_a_map_witness :
  wp (perform_skip (SkipDelete 2)) three (λ r s', ∃ A', represents s' A' ∧
    skip_contract contents_of_three (SkipDelete 2) r A') ∧
  perform_skip (SkipDelete 3) three = Undef.
Proof.
  split.
  - refine (proj1 (skip_list_is_a_map (SkipDelete 2) three contents_of_three three_represents I) _).
    intros [_ Hg]. specialize (Hg 3 ltac:(by eexists)). discriminate Hg.
  - exact (proj2 (skip_list_is_a_map (SkipDelete 3) three contents_of_three three_represents I) three_greatest).
Defined.

(** What is left then is dumped in order. *)
Example one_and_three_left :
  wp (perform_skip (SkipDelete 2);; perform_skip (SkipDump 10)) three
    (λ r _, r = SkipLines [(1, 10); (3, 30)]).
Proof. by vm_compute. Qed.

Lemma deleting_greatest_witness : delete_element 3 three = Undef.
Proof. apply (deleting_greatest 3 three contents_of_three); [apply three_represents|apply three_greatest]. Defined.

Lemma destructor_frees_all_witness : wp (delete_SkipList 3) three (λ _ s', nodes s' = ∅).
Proof. apply (destructor_frees_all three contents_of_three); [apply three_represents|done]. Defined.

(** [display_list] never comes back to the header: it goes round between two keys. *)
Lemma show_back_step (s : SkipList Z Z) p q f : p ≠ _header s → (nodes s !! p ≫= prev) = Some q →
  show_back f (Some q) s = Undef → show_back (S f) (Some p) s = Undef.
Proof.
  intros Hp Hq Hf. destruct (nodes s !! p) as [n|] eqn:Hn; [|done].
  assert (prev n = Some q) as Hq' by exact Hq. simpl. unfold gets, mbind, M_bind.
  rewrite bool_decide_eq_false_2 by congruence. unfold load_node, gets, deref, mbind, M_bind. simpl.
  rewrite Hn. unfold mret, M_ret. by rewrite Hq', Hf.
Qed.

Lemma show_back_circles fuel :
  show_back fuel (Some 2%positive) three = Undef ∧ show_back fuel (Some 4%positive) three = Undef.
Proof.
  induction fuel as [|fuel [IH1 IH2]]; [by vm_compute|]. split.
  - apply (show_back_step three 2 4 fuel); [by vm_compute|by vm_compute|exact IH2].
  - apply (show_back_step three 4 2 fuel); [by vm_compute|by vm_compute|exact IH1].
Qed.
