(* ===== verification/Philox.v ===== *)
(** * Random words

    The generator [Philox] of testing/random.h: a counter of 128 bits that is
    encrypted in ten rounds into blocks of four words. *)

From S2P Require Import Prelude.

Definition kCounterNum : Z := 4.
Definition kMagic0 : Z := 3528531795.
Definition kMagic1 : Z := 3449720151.
Definition kKeyStep0 : Z := 2654435769.
Definition kKeyStep1 : Z := 3144134277.

(** An array of four words; [word_of] is its element access. *)
Record Counter := MkCounter { word0 : Z; word1 : Z; word2 : Z; word3 : Z }.
Definition word_of (c : Counter) (i : Z) : option Z :=
  if i <? 0 then None else [word0 c; word1 c; word2 c; word3 c] !! Z.to_nat i.

Record Philox := MkPhilox { key_ : Z * Z; counter_ : Counter; results_ : Counter; index_ : Z }.

Definition low (z : Z) : Z := u32 z.
Definition high (z : Z) : Z := u32 (Z.shiftr z 32).

(** [Philox(seed, seed2)] and [Philox(seed)]. *)
Definition new_Philox2 (seed seed2 : Z) : Philox :=
  MkPhilox (low seed, high seed) (MkCounter 0 0 (low seed2) (high seed2)) (MkCounter 0 0 0 0) kCounterNum.
Definition new_Philox (seed : Z) : Philox :=
  MkPhilox (low seed, high seed) (MkCounter 0 0 (low seed) (high seed)) (MkCounter 0 0 0 0) kCounterNum.

Definition compute (counter : Counter) (key : Z * Z) : Counter :=
  let t0 := kMagic0 *64 word0 counter in
  let t1 := kMagic1 *64 word2 counter in
  MkCounter (Z.lxor (Z.lxor (high t1) (word1 counter)) key.1) (low t1)
    (Z.lxor (Z.lxor (high t0) (word3 counter)) key.2) (low t0).

Definition raise_key (key : Z * Z) : Z * Z := (key.1 +32 kKeyStep0, key.2 +32 kKeyStep1).

(** [next] without its call of [skip_one]: nine times [compute] and [raise_key], then
    [compute] once more. *)
Definition block (key : Z * Z) (counter : Counter) : Counter :=
  let '(result, key) := Nat.iter 9 (λ '(r, k), (compute r k, raise_key k)) (counter, key) in
  compute result key.

Definition skip_one (c : Counter) : Counter :=
  let w0 := word0 c +32 1 in
  if negb (w0 =? 0) then MkCounter w0 (word1 c) (word2 c) (word3 c)
  else
    let w1 := word1 c +32 1 in
    if negb (w1 =? 0) then MkCounter w0 w1 (word2 c) (word3 c)
    else
      let w2 := word2 c +32 1 in
      if negb (w2 =? 0) then MkCounter w0 w1 w2 (word3 c)
      else MkCounter w0 w1 w2 (word3 c +32 1).

Definition skip (count : Z) (c : Counter) : Counter :=
  let lo := low count in
  let hi := high count in
  let w0 := word0 c +32 lo in
  let hi := if w0 <? lo then hi +32 1 else hi in
  let w1 := word1 c +32 hi in
  if w1 <? hi then
    let w2 := word2 c +32 1 in
    MkCounter w0 w1 w2 (if w2 =? 0 then word3 c +32 1 else word3 c)
  else MkCounter w0 w1 (word2 c) (word3 c).

Definition next (g : Philox) : Counter * Philox :=
  (block (key_ g) (counter_ g), MkPhilox (key_ g) (skip_one (counter_ g)) (results_ g) (index_ g)).

Definition set_index (i : Z) (g : Philox) : Philox := MkPhilox (key_ g) (counter_ g) (results_ g) i.
Definition set_counter (c : Counter) (g : Philox) : Philox := MkPhilox (key_ g) c (results_ g) (index_ g).
(** [results_ = next(); index_ = i;]. *)
Definition refill (i : Z) (g : Philox) : Philox :=
  let '(r, g) := next g in MkPhilox (key_ g) (counter_ g) r i.

(** [operator()]. *)
Definition draw : M Philox Z :=
  modify (λ g, if index_ g =? kCounterNum then refill 0 g else g);;
  g ← gets id;
  r ← deref (word_of (results_ g) (index_ g));
  modify (set_index (index_ g +64 1));;
  mret r.

Definition discard (step : Z) (g : Philox) : Philox :=
  if index_ g =? kCounterNum then
    let count := step / kCounterNum in
    let g := set_counter (skip count (counter_ g)) g in
    let remain := step mod kCounterNum in
    if 0 <? remain then refill remain g else g
  else
    let pos := index_ g +64 step in
    if pos <=? kCounterNum then set_index pos g
    else
      let count := (pos -64 kCounterNum) / kCounterNum in
      let g := set_counter (skip count (counter_ g)) g in
      let remain := pos mod kCounterNum in
      if 0 <? remain then refill remain g else set_index kCounterNum g.

(** The published test vector of Philox4x32-10 for counter 0 and key 0. *)
Example known_block : block (0, 0) (MkCounter 0 0 0 0) =
  MkCounter 1713891541 3781805453 3159862348 2600524760.
Proof. by vm_compute. Qed.

#[global] Arguments block : simpl never.
#[global] Arguments word_of : simpl never.

(** ** Counters as numbers *)

Definition w128 : Z := w64 * w64.
Definition number (c : Counter) : Z :=
  word0 c + w32 * word1 c + w64 * word2 c + w64 * w32 * word3 c.
Definition counter_of (n : Z) : Counter :=
  MkCounter (n mod w32) (n / w32 mod w32) (n / w64 mod w32) (n / (w64 * w32) mod w32).

Definition counter_ok (c : Counter) : Prop :=
  0 <= word0 c < w32 ∧ 0 <= word1 c < w32 ∧ 0 <= word2 c < w32 ∧ 0 <= word3 c < w32.

Lemma mod_once x m : 0 <= x < 2 * m → x mod m = if x <? m then x else x - m.
Proof.
  intros Hx. destruct (Z.ltb_spec x m); [by apply Z.mod_small; lia|].
  replace x with (x - m + 1 * m) by lia. rewrite Z.mod_add by lia. rewrite Z.mod_small; lia.
Qed.

Lemma u32_once a b : 0 <= a < w32 → 0 <= b < w32 → u32 (a + b) = if a + b <? w32 then a + b else a + b - w32.
Proof. intros. apply mod_once. unfold w32 in *. lia. Qed.

Ltac words_lia := unfold counter_ok, number, w128, w64, w32 in *; simpl in *; lia.

Lemma number_bound c : counter_ok c → 0 <= number c < w128.
Proof. destruct c. intros. words_lia. Qed.

Lemma skip_one_spec c : counter_ok c →
  counter_ok (skip_one c) ∧ number (skip_one c) = (number c + 1) mod w128.
Proof.
  intros Hc. pose proof (number_bound c Hc). rewrite mod_once by words_lia.
  destruct c as [a b d e]. unfold skip_one. simpl in *.
  rewrite !u32_once by words_lia.
  destruct (Z.ltb_spec (number (MkCounter a b d e) + 1) w128);
    repeat match goal with |- context [?x <? w32] => destruct (Z.ltb_spec x w32) end; simpl;
    repeat match goal with |- context [?x =? ?y] => destruct (Z.eqb_spec x y) end; words_lia.
Qed.

Lemma high_low z : 0 <= z < w64 → z = low z + w32 * high z ∧ 0 <= low z < w32 ∧ 0 <= high z < w32.
Proof.
  intros Hz. unfold low, high, u32. rewrite Z.shiftr_div_pow2 by done. change (2 ^ 32) with w32.
  pose proof (Z.div_mod z w32 ltac:(done)). pose proof (Z.mod_pos_bound z w32 ltac:(done)).
  assert (0 <= z / w32 < w32).
  { split; [apply Z.div_pos; unfold w32; lia|]. apply Z.div_lt_upper_bound; unfold w32, w64 in *; lia. }
  rewrite (Z.mod_small (z / w32)) by done. lia.
Qed.

Lemma skip_spec count c : counter_ok c → 0 <= count < w64 - w32 →
  counter_ok (skip count c) ∧ number (skip count c) = (number c + count) mod w128.
Proof.
  intros Hc Hcount. pose proof (number_bound c Hc). rewrite mod_once by words_lia.
  destruct (high_low count ltac:(words_lia)) as (Ec & Hlo & Hhi). unfold skip.
  remember (low count) as lo eqn:Elo. remember (high count) as hi eqn:Ehi. clear Elo Ehi.
  assert (hi + 1 < w32) as Hhi1 by words_lia.
  destruct c as [a b d e]. simpl in *.
  destruct (Z.ltb_spec (number (MkCounter a b d e) + count) w128); rewrite (u32_once a lo) by words_lia;
    rewrite (u32_once hi 1) by words_lia; rewrite (u32_once d 1), (u32_once e 1) by words_lia;
    destruct (Z.ltb_spec (a + lo) w32); (destruct (Z.ltb_spec (hi + 1) w32); [|lia]);
    match goal with |- context [if ?x <? lo then _ else _] => destruct (Z.ltb_spec x lo) end; try words_lia;
    rewrite u32_once by words_lia;
    repeat match goal with |- context [?x <? w32] => destruct (Z.ltb_spec x w32) end;
    match goal with |- context [if ?x <? ?h then _ else _] => destruct (Z.ltb_spec x h) end; simpl;
    repeat match goal with |- context [?x =? ?y] => destruct (Z.eqb_spec x y) end; words_lia.
Qed.

Lemma number_inj c c' : counter_ok c → counter_ok c' → number c = number c' → c = c'.
Proof. destruct c, c'. intros. f_equal; words_lia. Qed.

Lemma counter_of_ok n : counter_ok (counter_of n).
Proof. unfold counter_ok, counter_of. simpl. split_and!; apply Z.mod_pos_bound; done. Qed.

Lemma number_of n : 0 <= n < w128 → number (counter_of n) = n.
Proof.
  intros Hn. unfold number, counter_of. simpl. change (w64 * w32) with (w32 * (w32 * w32)). change w64 with (w32 * w32).
  rewrite <- !Z.div_div by done.
  pose proof (Z.div_mod n w32 ltac:(done)). pose proof (Z.div_mod (n / w32) w32 ltac:(done)).
  pose proof (Z.div_mod (n / w32 / w32) w32 ltac:(done)).
  assert (n / w32 / w32 / w32 mod w32 = n / w32 / w32 / w32) as ->; [|words_lia].
  apply Z.mod_small. rewrite !Z.div_div by done. split; [apply Z.div_pos; [lia|done]|].
  apply Z.div_lt_upper_bound; [done|]. unfold w128, w64 in Hn. unfold w32. lia.
Qed.

Lemma counter_step f k : (∀ c, counter_ok c → counter_ok (f c) ∧ number (f c) = (number c + k) mod w128) →
  ∀ n, f (counter_of (n mod w128)) = counter_of ((n + k) mod w128).
Proof.
  intros Hf n. destruct (Hf (counter_of (n mod w128))) as [Hok Hn]; [apply counter_of_ok|].
  apply number_inj; [done|apply counter_of_ok|]. rewrite Hn, !number_of by (by apply Z.mod_pos_bound).
  by rewrite Zplus_mod_idemp_l.
Qed.

(** ** The stream of words *)

Section stream.
Context (seed seed2 : Z).

Definition block_at (b : Z) : Counter :=
  block (low seed, high seed) (counter_of ((seed2 * w64 + b) mod w128)).
(** The word at a position of the stream. *)
Definition word_at (p : Z) : Z := default 0 (word_of (block_at (p / 4)) (p mod 4)).

(** The generator has given out [p] words. *)
Record at_position (p : Z) (g : Philox) : Prop := {
  pos_key : key_ g = (low seed, high seed);
  pos_counter : counter_ g = counter_of ((seed2 * w64 + (p + 3) / 4) mod w128);
  pos_index : index_ g = if p mod 4 =? 0 then 4 else p mod 4;
  pos_results : p mod 4 ≠ 0 → results_ g = block_at (p / 4);
}.

Lemma new_Philox2_at : 0 <= seed2 < w64 → at_position 0 (new_Philox2 seed seed2).
Proof.
  intros Hs. split; try done. destruct (high_low seed2 Hs) as (E & Hlo & Hhi). simpl.
  remember (low seed2) as lo eqn:El. remember (high seed2) as hi eqn:Eh. clear El Eh.
  change ((0 + 3) / 4) with 0. apply number_inj; [words_lia|apply counter_of_ok|].
  rewrite number_of by (by apply Z.mod_pos_bound). rewrite Z.mod_small; words_lia.
Qed.

Lemma word_of_range c i : 0 <= i < 4 → ∃ w, word_of c i = Some w.
Proof.
  intros Hi. unfold word_of. destruct (Z.ltb_spec i 0); [lia|].
  apply lookup_lt_is_Some. simpl. lia.
Qed.

(** Positions within a block and the next one. *)
Lemma quarter b i : 0 <= i < 4 → (4 * b + i) mod 4 = i ∧ (4 * b + i) / 4 = b ∧
  (4 * b + i + 3) / 4 = if i =? 0 then b else b + 1.
Proof. intros Hi. destruct (Z.eqb_spec i 0); Z.to_euclidean_division_equations; lia. Qed.

Lemma position_split p : ∃ b i, p = 4 * b + i ∧ 0 <= i < 4.
Proof. exists (p / 4), (p mod 4). split; [by apply Z.div_mod|by apply Z.mod_pos_bound]. Qed.

Lemma at_position_intro b i g : 0 <= i < 4 →
  key_ g = (low seed, high seed) →
  counter_ g = counter_of ((seed2 * w64 + (if i =? 0 then b else b + 1)) mod w128) →
  index_ g = (if i =? 0 then 4 else i) →
  (i ≠ 0 → results_ g = block_at b) → at_position (4 * b + i) g.
Proof. intros Hi H1 H2 H3 H4. destruct (quarter b i Hi) as (E1 & E2 & E3). split; rewrite ?E1, ?E2, ?E3; done. Qed.

Lemma at_position_elim b i g : 0 <= i < 4 → at_position (4 * b + i) g →
  key_ g = (low seed, high seed) ∧
  counter_ g = counter_of ((seed2 * w64 + (if i =? 0 then b else b + 1)) mod w128) ∧
  index_ g = (if i =? 0 then 4 else i) ∧ (i ≠ 0 → results_ g = block_at b).
Proof. intros Hi [H1 H2 H3 H4]. destruct (quarter b i Hi) as (E1 & E2 & E3). by rewrite E1, E2, E3 in *. Qed.

(** Taking the next block puts the generator into it. *)
Lemma refill_at b i g : 0 < i < 4 → key_ g = (low seed, high seed) →
  counter_ g = counter_of ((seed2 * w64 + b) mod w128) → at_position (4 * b + i) (refill i g).
Proof.
  intros Hi Hk Hc. apply at_position_intro; [lia|..]; simpl; destruct (Z.eqb_spec i 0); try lia; try done.
  - rewrite Hc, (counter_step skip_one 1 skip_one_spec). do 2 f_equal. lia.
  - intros _. by rewrite Hk, Hc.
Qed.

(** A generator between two blocks. *)
Lemma between_blocks b g : key_ g = (low seed, high seed) →
  counter_ g = counter_of ((seed2 * w64 + b) mod w128) → index_ g = 4 → at_position (4 * b + 0) g.
Proof. intros Hk Hc Hx. by apply at_position_intro; [lia|..]. Qed.

Lemma draw_unfold g g' r : g' = (if index_ g =? kCounterNum then refill 0 g else g) →
  word_of (results_ g') (index_ g') = Some r → draw g = Ret r (set_index (index_ g' +64 1) g').
Proof.
  intros -> Hr. unfold draw, modify, gets, id, mbind, M_bind, deref. by rewrite Hr.
Qed.

Lemma draw_spec p g : at_position p g →
  wp draw g (λ r g', r = word_at p ∧ at_position (p + 1) g').
Proof.
  intros Hat. destruct (position_split p) as (b & i & -> & Hi).
  destruct (at_position_elim b i g Hi Hat) as (Hk & Hc & Hx & Hr).
  unfold word_at. destruct (quarter b i Hi) as (-> & -> & _).
  destruct (word_of_range (block_at b) i Hi) as [w Hw]. rewrite Hw. cbn [default from_option id].
  destruct (Z.eqb_spec i 0) as [->|Hne].
  - assert (results_ (refill 0 g) = block_at b) as Eb.
    { unfold refill, next. cbn [results_]. by rewrite Hk, Hc. }
    assert (draw g = Ret w (set_index (index_ (refill 0 g) +64 1) (refill 0 g))) as E.
    { apply draw_unfold; [by rewrite Hx|]. rewrite Eb. exact Hw. }
    unfold wp. rewrite E. split; [done|]. rewrite Z.add_0_r.
    exact (refill_at b 1 g ltac:(lia) Hk Hc).
  - assert (draw g = Ret w (set_index (index_ g +64 1) g)) as E.
    { apply draw_unfold; [|by rewrite Hx, Hr].
      rewrite Hx. destruct (Z.eqb_spec i kCounterNum); [unfold kCounterNum in *; lia|done]. }
    unfold wp. rewrite E. split; [done|]. rewrite Hx, u64_small by (unfold w64; lia).
    destruct (decide (i = 3)) as [->|].
    + replace (4 * b + 3 + 1) with (4 * (b + 1) + 0) by lia. by apply at_position_intro.
    + rewrite <- Z.add_assoc. apply at_position_intro; [lia|done|..]; destruct (Z.eqb_spec (i + 1) 0); try lia; try done.
      intros _. by apply Hr.
Qed.

(** Skipping over [step] words. *)
Lemma discard_spec p step g : at_position p g → 0 <= step < w64 - 4 → at_position (p + step) (discard step g).
Proof.
  intros Hat Hs. destruct (position_split p) as (b & i & -> & Hi).
  destruct (at_position_elim b i g Hi Hat) as (Hk & Hc & Hx & Hr). unfold discard. rewrite Hx.
  destruct (position_split (i + step)) as (b' & i' & E & Hi').
  replace (4 * b + i + step) with (4 * (b + b') + i') by lia.
  assert (0 <= b' < w64 - w32) as Hb' by (unfold w64, w32 in *; lia).
  destruct (Z.eqb_spec i 0) as [->|Hne].
  - change (4 =? kCounterNum) with true. cbv iota. unfold kCounterNum.
    destruct (quarter b' i' Hi') as (Em & Ed & _). rewrite Z.add_0_l in E. rewrite E, Em, Ed.
    pose proof (counter_step (skip b') b' (λ c Hok, skip_spec b' c Hok Hb') (seed2 * w64 + b)) as Ec.
    rewrite <- Hc, <- Z.add_assoc in Ec. destruct (Z.ltb_spec 0 i').
    + apply refill_at; [lia|done|]. simpl. exact Ec.
    + assert (i' = 0) as -> by lia. apply between_blocks; [exact Hk|exact Ec|exact Hx].
  - destruct (Z.eqb_spec i kCounterNum); [unfold kCounterNum in *; lia|].
    rewrite u64_small by (unfold w64 in *; lia). rewrite E. unfold kCounterNum.
    destruct (Z.leb_spec (4 * b' + i') 4).
    + destruct (decide (b' = 0)) as [->|].
      * rewrite Z.add_0_r. simpl. apply at_position_intro; [done|done|..]; destruct (Z.eqb_spec i' 0); try lia; try done.
        intros _. by apply Hr.
      * assert (b' = 1 ∧ i' = 0) as [-> ->] by lia. simpl. by apply at_position_intro.
    + rewrite (u64_small (4 * b' + i' - 4)) by (unfold w64 in *; lia).
      replace (4 * b' + i' - 4) with (4 * (b' - 1) + i') by lia.
      destruct (quarter (b' - 1) i' Hi') as (_ & -> & _). destruct (quarter b' i' Hi') as (-> & _).
      assert (0 <= b' - 1 < w64 - w32) as Hb1 by lia.
      pose proof (counter_step (skip (b' - 1)) (b' - 1) (λ c Hok, skip_spec (b' - 1) c Hok Hb1) (seed2 * w64 + (b + 1))) as Ec.
      rewrite <- Hc in Ec. replace (seed2 * w64 + (b + 1) + (b' - 1)) with (seed2 * w64 + (b + b')) in Ec by lia.
      destruct (Z.ltb_spec 0 i').
      * apply refill_at; [lia|done|]. simpl. exact Ec.
      * assert (i' = 0) as -> by lia. apply between_blocks; [exact Hk|exact Ec|reflexivity].
Qed.
End stream.
