(* ===== verification/ThreadPool.v ===== *)
(** * The thread pool

    [ThreadPool] of testing/thread_pool.cc: threads that wait for a task in their
    context, and [SyncRun], which hands out tasks and waits for all of them. Each step
    of a thread is one access to what threads share. *)

From S2P Require Import Prelude.

Definition kYieldThreshold : Z := 1000.

(** Where a thread is in [SyncRunLoop]. It holds the mutex of its context in
    [Checking] and [Sleeping]. *)
Inductive worker_pc :=
| Top                          (** before the first test of [exit_run_] *)
| Looking                      (** before the test of [context->task] *)
| Locking                      (** before taking the mutex *)
| Checking                     (** before the predicate of [wait] *)
| Sleeping                     (** the predicate was false *)
| Blocked                      (** waiting to be notified *)
| Ready                        (** before the second test of [exit_run_] *)
| Running (k i : nat)          (** before the [i]th action of task [k] *)
| Finished                     (** before [context->task = nullptr] *)
| Exited
| Crashed.                     (** a null task was dereferenced *)

(** A context and its thread. [task] is an index into [tasks]. *)
Record Worker := MkWorker { task : option nat; pc : worker_pc; yield_count : Z }.

(** Where the caller is in [SyncRun] or in [ClearThreadPool]. It holds the mutex of
    context [i] in [Assigning i] and [Notifying i]. *)
Inductive caller_pc :=
| Scanning (i : nat)
| Waiting (i : nat)            (** for the mutex of context [i] *)
| Assigning (i : nat)
| Notifying (i : nat)
| Returned
| Exiting                      (** before [exit_run_ = true] *)
| Waking (i : nat)
| Joining (i : nat)
| Cleared.

(** What threads do to the memory they share is a list of actions per task;
    [performed] records which of them have been done. *)
Record Pool (A : Type) := MkPool {
  exit_run_ : bool;
  workers : list Worker;
  caller : caller_pc;
  running : bool;
  task_index : nat;
  memory : A;
  performed : list (nat * nat);
}.
Arguments MkPool {A}. Arguments exit_run_ {A}. Arguments workers {A}. Arguments caller {A}.
Arguments running {A}. Arguments task_index {A}. Arguments memory {A}. Arguments performed {A}.

Section pool.
Context {A : Type} (tasks : list (list (A → A))).
Implicit Types (s : Pool A) (w : Worker).

Definition set_pc (v : worker_pc) w : Worker := MkWorker (task w) v (yield_count w).
Definition set_task (v : option nat) w : Worker := MkWorker v (pc w) (yield_count w).

Definition set_workers v s : Pool A :=
  MkPool (exit_run_ s) v (caller s) (running s) (task_index s) (memory s) (performed s).
Definition set_caller v s : Pool A :=
  MkPool (exit_run_ s) (workers s) v (running s) (task_index s) (memory s) (performed s).
Definition set_running v s : Pool A :=
  MkPool (exit_run_ s) (workers s) (caller s) v (task_index s) (memory s) (performed s).
Definition set_task_index v s : Pool A :=
  MkPool (exit_run_ s) (workers s) (caller s) (running s) v (memory s) (performed s).
Definition set_exit v s : Pool A :=
  MkPool v (workers s) (caller s) (running s) (task_index s) (memory s) (performed s).
Definition act k i (a : A → A) s : Pool A :=
  MkPool (exit_run_ s) (workers s) (caller s) (running s) (task_index s) (a (memory s))
    (performed s ++ [(k, i)]).

(** ** Threads *)

Definition caller_holds s (j : nat) : bool :=
  match caller s with
  | Assigning i | Notifying i => bool_decide (i = j)
  | _ => false
  end.
Definition worker_holds w : bool := match pc w with Checking | Sleeping => true | _ => false end.

Definition put_worker (j : nat) w s : Pool A := set_workers (<[j := w]> (workers s)) s.

(** A step of [SyncRunLoop]; [None] when the thread has to wait. *)
Definition worker_step (j : nat) s : option (Pool A) :=
  w ← workers s !! j;
  match pc w with
  | Top => Some (put_worker j (set_pc (if exit_run_ s then Exited else Looking) w) s)
  | Looking =>
      match task w with
      | None =>
          if kYieldThreshold <? yield_count w + 1
          then Some (put_worker j (MkWorker None Locking 0) s)
          else Some (put_worker j (MkWorker None Top (yield_count w + 1)) s)
      | Some _ => Some (put_worker j (set_pc Ready w) s)
      end
  | Locking =>
      if caller_holds s j then None else Some (put_worker j (set_pc Checking w) s)
  | Checking =>
      if bool_decide (task w ≠ None) || exit_run_ s
      then Some (put_worker j (set_pc Ready w) s)
      else Some (put_worker j (set_pc Sleeping w) s)
  | Sleeping => Some (put_worker j (set_pc Blocked w) s)
  | Blocked => None
  | Ready =>
      if exit_run_ s then Some (put_worker j (set_pc Exited w) s)
      else
        match task w with
        | None => Some (put_worker j (set_pc Crashed w) s)
        | Some k => Some (put_worker j (set_pc (Running k 0) w) s)
        end
  | Running k i =>
      match tasks !! k ≫= λ actions, actions !! i with
      | Some a => Some (put_worker j (set_pc (Running k (S i)) w) (act k i a s))
      | None => Some (put_worker j (set_pc Finished w) s)
      end
  | Finished => Some (put_worker j (MkWorker None Top 0) s)
  | Exited | Crashed => None
  end.

(** [wait] may return without a notification, and then tests its predicate again. *)
Definition spurious_step (j : nat) s : option (Pool A) :=
  w ← workers s !! j;
  match pc w with Blocked => Some (put_worker j (set_pc Locking w) s) | _ => None end.

(** ** The caller *)

Definition notified w : Worker := match pc w with Blocked => set_pc Locking w | _ => w end.

Definition used_thread_num s : nat := Nat.min (length tasks) (length (workers s)).

Definition caller_step s : option (Pool A) :=
  match caller s with
  | Scanning i =>
      if bool_decide (i < used_thread_num s)%nat then
        w ← workers s !! i;
        match task w with
        | Some _ => Some (set_caller (Scanning (S i)) (set_running true s))
        | None =>
            if bool_decide (task_index s < length tasks)%nat then Some (set_caller (Waiting i) s)
            else Some (set_caller (Scanning (S i)) s)
        end
      else if running s then Some (set_caller (Scanning 0) (set_running false s))
      else Some (set_caller Returned s)
  | Waiting i =>
      w ← workers s !! i;
      if worker_holds w then None else Some (set_caller (Assigning i) s)
  | Assigning i =>
      w ← workers s !! i;
      Some (set_caller (Notifying i) (put_worker i (set_task (Some (task_index s)) w) s))
  | Notifying i =>
      w ← workers s !! i;
      Some (set_caller (Scanning (S i)) (set_running true
        (set_task_index (S (task_index s)) (put_worker i (notified w) s))))
  | Returned => None
  | Exiting => Some (set_caller (Waking 0) (set_exit true s))
  | Waking i =>
      match workers s !! i with
      | Some w => Some (set_caller (Waking (S i)) (put_worker i (notified w) s))
      | None => Some (set_caller (Joining 0) s)
      end
  | Joining i =>
      match workers s !! i with
      | Some w => match pc w with Exited => Some (set_caller (Joining (S i)) s) | _ => None end
      | None => Some (set_caller Cleared s)
      end
  | Cleared => None
  end.

(** ** Entry *)

Definition new_Worker : Worker := MkWorker None Top 0.

(** The contexts after [SyncRun] has made new ones; [thread_num] of them have a
    thread. *)
Definition prepare (max_thread_num thread_num : nat) (contexts : list Worker) : list Worker :=
  if bool_decide (thread_num < max_thread_num ∧ thread_num < length tasks)%nat then
    let new_thread_num := if bool_decide (length tasks < max_thread_num)%nat then length tasks else max_thread_num in
    take thread_num contexts ++ replicate (new_thread_num - thread_num) new_Worker
  else contexts.

(** [SyncRun] up to its loop: no task, one task, which the caller runs, or more. *)
Definition SyncRun (max_thread_num thread_num : nat) s : Pool A :=
  match tasks with
  | [] => MkPool (exit_run_ s) (workers s) Returned false 0 (memory s) []
  | [actions] =>
      MkPool (exit_run_ s) (workers s) Returned false 1 (foldl (λ m a, a m) (memory s) actions)
        (pair 0%nat <$> seq 0 (length actions))
  | _ =>
      let contexts := prepare max_thread_num thread_num (workers s) in
      MkPool false contexts (match contexts with [] => Returned | _ => Scanning 0 end) false 0
        (memory s) []
  end.

(** [ClearThreadPool]. *)
Definition ClearThreadPool s : Pool A := if exit_run_ s then s else set_caller Exiting s.

(** ** Interleavings *)

Inductive thread := Caller | Thread (j : nat) | Spurious (j : nat).

Definition thread_step (t : thread) s : option (Pool A) :=
  match t with
  | Caller => caller_step s
  | Thread j => worker_step j s
  | Spurious j => spurious_step j s
  end.

Inductive runs s : Pool A → Prop :=
| runs_start : runs s s
| runs_step t s' s'' : runs s s' → thread_step t s' = Some s'' → runs s s''.

(** What a schedule leads to. *)
Fixpoint run_schedule (l : list thread) s : option (Pool A) :=
  match l with
  | [] => Some s
  | t :: l => s' ← thread_step t s; run_schedule l s'
  end.
End pool.
