(* ===== verification/ThreadTheorems.v ===== *)
(** * Properties of the thread pool

    What holds while the threads of a pool run, and from it: every task is run once
    before [SyncRun] returns, [SyncRun] can always come to return, and
    [ClearThreadPool] may not. *)

From S2P Require Import Prelude ThreadPool.

(** ** What holds between any two steps *)

Section invariant.
Context {A : Type} (tasks : list (list (A → A))) (mem0 : A).
Implicit Types (s : Pool A) (w : Worker).

(** The actions of task [k] that have been performed. *)
Definition done_of s (k : nat) : list nat := (filter (λ e, e.1 = k) (performed s)).*2.
Definition all_of (k : nat) : list nat := seq 0 (length (default [] (tasks !! k))).

Definition apply_action (m : A) (e : nat * nat) : A :=
  match tasks !! e.1 ≫= λ actions, actions !! e.2 with Some a => a m | None => m end.

(** How many tasks have been handed out. *)
Definition assigned s : nat := match caller s with Notifying _ => S (task_index s) | _ => task_index s end.

Definition held s (k : nat) : Prop := ∃ j w, workers s !! j = Some w ∧ task w = Some k.

Definition worker_ok s (j : nat) w : Prop :=
  match task w with
  | None => match pc w with Top | Looking | Locking | Checking | Sleeping | Blocked => True | _ => False end
  | Some k =>
      (j < used_thread_num tasks s)%nat ∧ (k < assigned s)%nat ∧
      match pc w with
      | Top | Looking | Locking | Checking | Ready => done_of s k = []
      | Blocked => caller s = Notifying j ∧ done_of s k = []
      | Running k' i => k' = k ∧ done_of s k = seq 0 i ∧ (i <= length (default [] (tasks !! k)))%nat
      | Finished => done_of s k = all_of k
      | Sleeping | Exited | Crashed => False
      end
  end.

Definition none_before s (i : nat) : Prop := ∀ j w, (j < i)%nat → workers s !! j = Some w → task w = None.

Definition caller_ok s : Prop :=
  match caller s with
  | Scanning i => running s = false → none_before s i ∧ (i = 0%nat ∨ task_index s = length tasks)
  | Waiting i | Assigning i => (i < used_thread_num tasks s)%nat ∧
      (∀ w, workers s !! i = Some w → task w = None) ∧ (task_index s < length tasks)%nat
  | Notifying i => (i < used_thread_num tasks s)%nat ∧ (task_index s < length tasks)%nat
  | Returned => none_before s (used_thread_num tasks s) ∧ task_index s = length tasks
  | _ => False
  end.

Record inv s : Prop := {
  inv_exit : exit_run_ s = false;
  inv_used : (0 < used_thread_num tasks s)%nat;
  inv_index : (task_index s <= length tasks)%nat;
  inv_worker j w : workers s !! j = Some w → worker_ok s j w;
  inv_mutex j w : workers s !! j = Some w → caller_holds s j = true → worker_holds w = false;
  inv_unique j j' w w' k : workers s !! j = Some w → workers s !! j' = Some w' →
    task w = Some k → task w' = Some k → j = j';
  inv_free k : ¬ held s k → done_of s k = if decide (k < assigned s)%nat then all_of k else [];
  inv_caller : caller_ok s;
  inv_memory : memory s = foldl apply_action mem0 (performed s);
}.

(** ** Steps of threads *)

Lemma lookup_put j w s i v : workers (put_worker j w s) !! i = Some v →
  (i = j ∧ v = w) ∨ (i ≠ j ∧ workers s !! i = Some v).
Proof. simpl. intros Hi. apply list_lookup_insert_Some in Hi as [(<- & <- & _)|[? ?]]; [by left|by right]. Qed.

Lemma used_put j w s : used_thread_num tasks (put_worker j w s) = used_thread_num tasks s.
Proof. unfold used_thread_num. simpl. by rewrite length_insert. Qed.

Lemma held_put j w w' s k : workers s !! j = Some w → task w' = task w →
  held (put_worker j w' s) k ↔ held s k.
Proof.
  intros Hj Ht. split.
  - intros (i & v & Hi & Hv). apply lookup_put in Hi as [[-> ->]|[_ Hi]]; [exists j, w; by rewrite <- Ht|by exists i, v].
  - intros (i & v & Hi & Hv). destruct (decide (i = j)) as [->|Hne].
    + exists j, w'. simplify_eq. split; [apply list_lookup_insert_eq; by eapply lookup_lt_Some|by rewrite Ht].
    + exists i, v. split; [|done]. simpl. by rewrite list_lookup_insert_ne.
Qed.

(** A thread moves on without touching anything but its own state. *)
Lemma inv_put j w w' s : inv s → workers s !! j = Some w → task w' = task w →
  worker_ok s j w' → (caller_holds s j = true → worker_holds w' = false) →
  inv (put_worker j w' s).
Proof.
  intros [I1 I2 I3 I4 I5 I6 I7 I8 I9] Hj Ht Hok Hm. split; try done.
  - by rewrite used_put.
  - intros i v Hi. unfold worker_ok. rewrite used_put. apply lookup_put in Hi as [[-> ->]|[_ Hi]]; [exact Hok|by apply I4].
  - intros i v Hi Hh. apply lookup_put in Hi as [[-> ->]|[_ Hi]]; [by apply Hm|by eapply I5].
  - intros i i' v v' k Hi Hi' Hv Hv'.
    assert (∀ i v, workers (put_worker j w' s) !! i = Some v → task v = Some k →
      ∃ v0, workers s !! i = Some v0 ∧ task v0 = Some k) as Hold.
    { intros i0 v0 H0 Hk. apply lookup_put in H0 as [[-> ->]|[_ H0]]; [exists w; by rewrite <- Ht|by exists v0]. }
    destruct (Hold i v Hi Hv) as (? & ? & ?). destruct (Hold i' v' Hi' Hv') as (? & ? & ?). by eapply I6.
  - intros k. rewrite (held_put j w w' s k Hj Ht). apply I7.
  - assert (∀ i, none_before s i → none_before (put_worker j w' s) i) as Hnb.
    { intros i Hb i' v Hlt Hi. apply lookup_put in Hi as [[-> ->]|[_ Hi]]; [rewrite Ht; by eapply Hb|by eapply Hb]. }
    unfold caller_ok in *. simpl. rewrite !used_put. destruct (caller s); try done.
    + intros Hr. destruct (I8 Hr). split; [by apply Hnb|done].
    + destruct I8 as (? & I8 & ?). split_and!; try done. intros v Hi.
      apply lookup_put in Hi as [[-> ->]|[_ Hi]]; [rewrite Ht; by apply I8|by apply I8].
    + destruct I8 as (? & I8 & ?). split_and!; try done. intros v Hi.
      apply lookup_put in Hi as [[-> ->]|[_ Hi]]; [rewrite Ht; by apply I8|by apply I8].
    + destruct I8. split; [by apply Hnb|done].
Qed.

(** A thread puts down a task that is done. *)
Lemma inv_put_down j w w' s k : inv s → workers s !! j = Some w → task w = Some k → task w' = None →
  pc w' = Top → done_of s k = all_of k → inv (put_worker j w' s).
Proof.
  intros [I1 I2 I3 I4 I5 I6 I7 I8 I9] Hj Ht Ht' Hpc Hd.
  assert (∀ i v, workers (put_worker j w' s) !! i = Some v → i = j ∧ v = w' ∨ i ≠ j ∧ workers s !! i = Some v) as Hput
    by apply lookup_put.
  pose proof (I4 j w Hj) as Hok. unfold worker_ok in Hok. rewrite Ht in Hok. destruct Hok as (Hju & Hka & _).
  split; try done.
  - by rewrite used_put.
  - intros i v Hi. unfold worker_ok. rewrite used_put. apply Hput in Hi as [[-> ->]|[_ Hi]]; [by rewrite Ht', Hpc|by apply I4].
  - intros i v Hi Hh. apply Hput in Hi as [[-> ->]|[_ Hi]]; [by unfold worker_holds; rewrite Hpc|by eapply I5].
  - intros i i' v v' k' Hi Hi' Hv Hv'.
    apply Hput in Hi as [[-> ->]|[_ Hi]]; [congruence|]. apply Hput in Hi' as [[-> ->]|[_ Hi']]; [congruence|].
    by eapply I6.
  - intros k' Hh. destruct (decide (k' = k)) as [->|Hne].
    + rewrite decide_True by done. exact Hd.
    + apply I7. intros (i & v & Hi & Hv). apply Hh. exists i, v. split; [|done].
      simpl. rewrite list_lookup_insert_ne; [done|]. intros <-. congruence.
  - assert (∀ i, none_before s i → none_before (put_worker j w' s) i) as Hnb.
    { intros i Hb i' v Hlt Hi. apply Hput in Hi as [[-> ->]|[_ Hi]]; [done|by eapply Hb]. }
    unfold caller_ok in *. simpl. rewrite !used_put. destruct (caller s); try done.
    + intros Hr. destruct (I8 Hr). split; [by apply Hnb|done].
    + destruct I8 as (? & I8 & ?). split_and!; try done. intros v Hi.
      apply Hput in Hi as [[-> ->]|[_ Hi]]; [done|by apply I8].
    + destruct I8 as (? & I8 & ?). split_and!; try done. intros v Hi.
      apply Hput in Hi as [[-> ->]|[_ Hi]]; [done|by apply I8].
    + destruct I8. split; [by apply Hnb|done].
Qed.

Lemma done_act k i a s k' : done_of (act k i a s) k' = if decide (k = k') then done_of s k' ++ [i] else done_of s k'.
Proof.
  unfold done_of. simpl. rewrite filter_app, fmap_app, filter_cons, filter_nil. simpl.
  case_decide; [done|]. by rewrite app_nil_r.
Qed.

(** A thread performs the next action of its task. *)
Lemma inv_act j w s k i a : inv s → workers s !! j = Some w → pc w = Running k i →
  (tasks !! k ≫= λ actions, actions !! i) = Some a →
  inv (put_worker j (set_pc (Running k (S i)) w) (act k i a s)).
Proof.
  intros Hinv Hj Hpc Ha. pose proof (inv_worker _ Hinv j w Hj) as Hok. unfold worker_ok in Hok.
  rewrite Hpc in Hok. destruct (task w) as [k'|] eqn:Ht; [|done]. destruct Hok as (Hju & Hka & -> & Hd & Hi).
  destruct (tasks !! k') as [actions|] eqn:Hk; [|done]. simpl in Ha, Hi.
  assert (i < length actions)%nat as Hlt by (by eapply lookup_lt_Some).
  destruct Hinv as [I1 I2 I3 I4 I5 I6 I7 I8 I9].
  split; try done.
  - by rewrite used_put.
  - intros j0 v Hj0. unfold worker_ok. rewrite used_put. change (assigned (put_worker _ _ _)) with (assigned s).
    change (used_thread_num tasks (act k' i a s)) with (used_thread_num tasks s).
    apply lookup_put in Hj0 as [[-> ->]|[Hne Hj0]]; simpl.
    + rewrite Ht. split_and!; try done; change (done_of (put_worker _ _ ?x)) with (done_of x).
      * rewrite done_act, decide_True, Hd by done. symmetry. exact (seq_S i 0).
      * rewrite Hk. simpl. lia.
    + pose proof (I4 j0 v Hj0) as Hok. unfold worker_ok in Hok. destruct (task v) as [k0|] eqn:Hv; [|done].
      assert (done_of (put_worker j (set_pc (Running k' (S i)) w) (act k' i a s)) k0 = done_of s k0) as ->; [|done].
      change (done_of (put_worker _ _ ?x)) with (done_of x). rewrite done_act, decide_False; [done|].
      intros ->. apply Hne. by eapply I6.
  - intros j0 v Hj0 Hh. apply lookup_put in Hj0 as [[-> ->]|[_ Hj0]]; [done|by eapply I5].
  - intros j1 j2 v v' k0 H1 H2 Hv Hv'.
    assert (∀ j0 v, workers (put_worker j (set_pc (Running k' (S i)) w) (act k' i a s)) !! j0 = Some v → task v = Some k0 →
      ∃ v0, workers s !! j0 = Some v0 ∧ task v0 = Some k0) as Hold.
    { intros j0 v0 H0 Hk0. apply lookup_put in H0 as [[-> ->]|[_ H0]]; [by exists w|by exists v0]. }
    destruct (Hold j1 v H1 Hv) as (? & ? & ?). destruct (Hold j2 v' H2 Hv') as (? & ? & ?). by eapply I6.
  - intros k0. rewrite (held_put j w _ (act k' i a s)) by done. intros Hh.
    change (done_of (put_worker _ _ ?x)) with (done_of x). rewrite done_act, decide_False; [by apply I7|].
    intros ->. apply Hh. by exists j, w.
  - assert (∀ i0, none_before s i0 → none_before (put_worker j (set_pc (Running k' (S i)) w) (act k' i a s)) i0) as Hnb.
    { intros i0 Hb i' v Hlt' Hi0. apply lookup_put in Hi0 as [[-> ->]|[_ Hi0]]; [|by eapply Hb].
      by rewrite (Hb j w Hlt' Hj) in Ht. }
    unfold caller_ok in *. simpl. rewrite !used_put. change (used_thread_num tasks (act k' i a s)) with (used_thread_num tasks s).
    destruct (caller s); try done.
    + intros Hr. destruct (I8 Hr). split; [by apply Hnb|done].
    + destruct I8 as (? & I8 & ?). split_and!; try done. intros v Hv.
      apply lookup_put in Hv as [[-> ->]|[_ Hv]]; [|by apply I8]. by rewrite (I8 w Hj) in Ht.
    + destruct I8 as (? & I8 & ?). split_and!; try done. intros v Hv.
      apply lookup_put in Hv as [[-> ->]|[_ Hv]]; [|by apply I8]. by rewrite (I8 w Hj) in Ht.
    + destruct I8. split; [by apply Hnb|done].
  - simpl. rewrite foldl_app, <- I9. simpl. unfold apply_action. simpl. rewrite Hk. simpl. by rewrite Ha.
Qed.

Lemma worker_step_inv j s s' : inv s → worker_step tasks j s = Some s' → inv s'.
Proof.
  intros Hinv E. unfold worker_step in E. destruct (workers s !! j) as [w|] eqn:Hj; [|done]. simpl in E.
  pose proof (inv_worker _ Hinv j w Hj) as Hok. unfold worker_ok in Hok. rewrite (inv_exit _ Hinv) in E.
  destruct (pc w) eqn:Hpc; try done; destruct (task w) as [k0|] eqn:Ht; try done;
    repeat match goal with
    | E : (if ?b then _ else _) = Some _ |- _ => destruct b eqn:?
    | E : match ?o with _ => _ end = Some _ |- _ => destruct o eqn:?
    end; try done; injection E as <-;
    try (apply (inv_put j w); [done|done|done|unfold worker_ok; simpl; rewrite ?Ht; done|
      intros Hh; simpl; done || congruence]; fail).
  - apply (inv_put j w); [done|done|done| |intros Hh]; [unfold worker_ok; simpl; by rewrite Ht|].
    pose proof (inv_mutex _ Hinv j w Hj Hh) as Hm. unfold worker_holds in Hm. by rewrite Hpc in Hm.
  - by destruct Hok as (_ & _ & []).
  - apply (inv_put j w); [done|done|done|unfold worker_ok; simpl; rewrite Ht|done].
    destruct Hok as (? & ? & ?). split_and!; done || lia.
  - by apply inv_act.
  - apply (inv_put j w); [done|done|done|unfold worker_ok; simpl; rewrite Ht|done].
    destruct Hok as (? & ? & -> & Hd & Hi). split_and!; try done. rewrite Hd. unfold all_of. f_equal.
    destruct (tasks !! k0) as [actions|] eqn:Hk; simpl in *; [|lia].
    apply lookup_ge_None in Heqo. lia.
  - apply (inv_put_down j w _ s k0); [done..|]. apply Hok.
Qed.

(** ** Steps of the caller *)

Lemma worker_ok_same s s' j w : worker_ok s j w → assigned s' = assigned s → performed s' = performed s →
  used_thread_num tasks s' = used_thread_num tasks s →
  (caller s = Notifying j → pc w = Blocked → task w ≠ None → caller s' = Notifying j) → worker_ok s' j w.
Proof.
  unfold worker_ok, done_of. intros Hok -> -> -> Hc. destruct (task w); [|done].
  destruct Hok as (? & ? & Hpc). split_and!; try done. destruct (pc w); try done.
  destruct Hpc as [? ?]. split; [|done]. by apply Hc.
Qed.

(** The caller moves on without touching a context. *)
Lemma inv_move s s' : inv s → workers s' = workers s → exit_run_ s' = exit_run_ s →
  task_index s' = task_index s → memory s' = memory s → performed s' = performed s →
  (∀ i, caller s ≠ Notifying i) → (∀ i, caller s' ≠ Notifying i) →
  (∀ j w, workers s !! j = Some w → caller_holds s' j = true → worker_holds w = false) →
  caller_ok s' → inv s'.
Proof.
  intros [I1 I2 I3 I4 I5 I6 I7 I8 I9] Ew Ee Et Em Ep Hn Hn' Hm Hc.
  assert (used_thread_num tasks s' = used_thread_num tasks s) as Eu by (unfold used_thread_num; by rewrite Ew).
  assert (assigned s' = assigned s) as Ea.
  { unfold assigned. rewrite Et. destruct (caller s) eqn:?, (caller s') eqn:?; try done;
      try (by destruct (Hn i)); try (by destruct (Hn' i)); by destruct (Hn' i0). }
  split; rewrite ?Ew, ?Ee, ?Et, ?Eu, ?Em, ?Ep; try done.
  - intros j w Hj. apply (worker_ok_same s); [by apply I4|done..|]. intros Hx. by destruct (Hn j).
  - intros k Hk. unfold done_of. rewrite Ep, Ea. apply I7. intros (j & w & Hj & Hw). apply Hk. exists j, w.
    by rewrite Ew.
Qed.

Lemma not_handed_out s k : inv s → (∀ i, caller s ≠ Notifying i) → (task_index s <= k)%nat → ¬ held s k.
Proof.
  intros Hinv Hn Hk (j & w & Hj & Hw). pose proof (inv_worker _ Hinv j w Hj) as Hok.
  unfold worker_ok in Hok. rewrite Hw in Hok. destruct Hok as (_ & Hlt & _).
  unfold assigned in Hlt. destruct (caller s) eqn:?; try lia. by destruct (Hn i).
Qed.

(** The caller puts a task into a context. *)
Lemma inv_assign s i w : inv s → caller s = Assigning i → workers s !! i = Some w →
  inv (set_caller (Notifying i) (put_worker i (set_task (Some (task_index s)) w) s)).
Proof.
  intros Hinv Hc Hi. pose proof (inv_caller _ Hinv) as Hok. unfold caller_ok in Hok. rewrite Hc in Hok.
  destruct Hok as (Hu & Hnone & Hlt). specialize (Hnone w Hi).
  assert (∀ k, (task_index s <= k)%nat → ¬ held s k) as Hfree.
  { intros k. apply not_handed_out; [done|]. by rewrite Hc. }
  pose proof (inv_mutex _ Hinv i w Hi) as Hm. unfold caller_holds in Hm. rewrite Hc, bool_decide_eq_true_2 in Hm by done.
  specialize (Hm eq_refl). pose proof (inv_worker _ Hinv i w Hi) as Hwok. unfold worker_ok in Hwok. rewrite Hnone in Hwok.
  set (s' := set_caller _ _).
  assert (assigned s = task_index s) as Ea by (unfold assigned; by rewrite Hc).
  assert (assigned s' = S (task_index s)) as Ea' by done.
  assert (used_thread_num tasks s' = used_thread_num tasks s) as Eu.
  { unfold used_thread_num. simpl. by rewrite length_insert. }
  assert (∀ j v, workers s' !! j = Some v → (j = i ∧ v = set_task (Some (task_index s)) w) ∨ (j ≠ i ∧ workers s !! j = Some v)) as Hput.
  { intros j v Hj. by apply lookup_put in Hj. }
  assert (∀ k, held s' k ↔ k = task_index s ∨ held s k) as Hheld.
  { intros k. split.
    - intros (j & v & Hj & Hv). apply Hput in Hj as [[-> ->]|[_ Hj]]; [left; by injection Hv|right; by exists j, v].
    - intros [->|(j & v & Hj & Hv)].
      + exists i, (set_task (Some (task_index s)) w). split; [|done]. simpl.
        apply list_lookup_insert_eq. by eapply lookup_lt_Some.
      + exists j, v. split; [|done]. simpl. rewrite list_lookup_insert_ne; [done|]. intros <-. congruence. }
  pose proof Hinv as [I1 I2 I3 I4 I5 I6 I7 I8 I9].
  assert (done_of s (task_index s) = []) as Hd.
  { rewrite I7 by by apply Hfree. by rewrite decide_False by (rewrite Ea; lia). }
  split; try done.
  - by rewrite Eu.
  - intros j v Hj. unfold worker_ok. rewrite Eu, Ea'. apply Hput in Hj as [[-> ->]|[Hne Hj]].
    + simpl. split_and!; [done|lia|]. unfold worker_holds in Hm. destruct (pc w); try done.
    + pose proof (I4 j v Hj) as Hok. unfold worker_ok in Hok. destruct (task v) as [k|]; [|done].
      destruct Hok as (? & ? & Hpc). rewrite Ea in *. split_and!; [done|lia|]. destruct (pc v); try done.
      destruct Hpc as [Hx _]. by rewrite Hc in Hx.
  - intros j v Hj Hh. apply Hput in Hj as [[-> ->]|[Hne Hj]]; [done|].
    unfold caller_holds in Hh. simpl in Hh. by apply bool_decide_eq_true in Hh.
  - intros j j' v v' k Hj Hj' Hv Hv'.
    apply Hput in Hj as [[-> ->]|[_ Hj]]; apply Hput in Hj' as [[-> ->]|[_ Hj']]; try done.
    + injection Hv as <-. destruct (Hfree (task_index s)); [lia|]. by exists j', v'.
    + injection Hv' as <-. destruct (Hfree (task_index s)); [lia|]. by exists j, v.
    + by eapply I6.
  - intros k Hk. rewrite Hheld in Hk. change (done_of s' k) with (done_of s k).
    rewrite I7 by tauto. rewrite Ea, Ea'. repeat case_decide; try done; lia.
  - unfold caller_ok. simpl. split; [|done]. change (i < used_thread_num tasks s')%nat. by rewrite Eu.
Qed.

(** The caller notifies, and lets go of the context. *)
Lemma inv_notify s i w : inv s → caller s = Notifying i → workers s !! i = Some w →
  inv (set_caller (Scanning (S i)) (set_running true
    (set_task_index (S (task_index s)) (put_worker i (notified w) s)))).
Proof.
  intros Hinv Hc Hi. pose proof (inv_caller _ Hinv) as Hok. unfold caller_ok in Hok. rewrite Hc in Hok.
  destruct Hok as [Hu Hlt]. set (s' := set_caller _ _).
  assert (assigned s = S (task_index s)) as Ea by (unfold assigned; by rewrite Hc).
  assert (assigned s' = S (task_index s)) as Ea' by done.
  assert (used_thread_num tasks s' = used_thread_num tasks s) as Eu.
  { unfold used_thread_num. simpl. by rewrite length_insert. }
  assert (∀ j v, workers s' !! j = Some v → (j = i ∧ v = notified w) ∨ (j ≠ i ∧ workers s !! j = Some v)) as Hput.
  { intros j v Hj. by apply lookup_put in Hj. }
  assert (task (notified w) = task w) as Et by (unfold notified; by destruct (pc w)).
  assert (∀ j v k, workers s' !! j = Some v → task v = Some k → ∃ v0, workers s !! j = Some v0 ∧ task v0 = Some k) as Hold.
  { intros j v k Hj Hv. apply Hput in Hj as [[-> ->]|[_ Hj]]; [exists w; by rewrite <- Et|by exists v]. }
  assert (∀ k, held s k → held s' k) as Hheld.
  { intros k (j & v & Hj & Hv). destruct (decide (j = i)) as [->|Hne].
    - exists i, (notified w). simplify_eq. split; [|by rewrite Et]. simpl. apply list_lookup_insert_eq. by eapply lookup_lt_Some.
    - exists j, v. split; [|done]. simpl. by rewrite list_lookup_insert_ne. }
  pose proof Hinv as [I1 I2 I3 I4 I5 I6 I7 I8 I9]. split; try done.
  - by rewrite Eu.
  - intros j v Hj. unfold worker_ok. rewrite Eu, Ea'. apply Hput in Hj as [[-> ->]|[Hne Hj]].
    + rewrite Et. pose proof (I4 i w Hi) as Hok. unfold worker_ok in Hok. rewrite Ea in Hok.
      unfold notified. destruct (task w) as [k|], (pc w) eqn:Hpc; simpl; rewrite ?Hpc; try done.
      destruct Hok as (? & ? & _ & ?). done.
    + pose proof (I4 j v Hj) as Hok. unfold worker_ok in Hok. rewrite Ea in Hok.
      destruct (task v) as [k|]; [|done]. destruct Hok as (? & ? & Hpc). split_and!; try done.
      destruct (pc v); try done. destruct Hpc as [Hx _]. rewrite Hc in Hx. by injection Hx as ->.
  - intros j j' v v' k Hj Hj' Hv Hv'. destruct (Hold j v k Hj Hv) as (? & ? & ?).
    destruct (Hold j' v' k Hj' Hv') as (? & ? & ?). by eapply I6.
  - intros k Hk. change (done_of s' k) with (done_of s k). rewrite I7 by (intros Hx; by apply Hk, Hheld).
    by rewrite Ea, Ea'.
Qed.

Lemma caller_step_inv s s' : inv s → caller_step tasks s = Some s' → inv s'.
Proof.
  intros Hinv E. unfold caller_step in E. pose proof (inv_caller _ Hinv) as Hok. unfold caller_ok in Hok.
  destruct (caller s) as [i|i|i|i| | | | |] eqn:Hc; try done.
  - case_bool_decide as Hu.
    + destruct (workers s !! i) as [w|] eqn:Hi; [|done]. simpl in E. destruct (task w) as [k|] eqn:Ht.
      { injection E as <-. by apply (inv_move s); try done; simpl; rewrite ?Hc. }
      case_bool_decide as Hlt; injection E as <-; apply (inv_move s); try done; simpl; rewrite ?Hc; try done.
      * unfold caller_ok. simpl. split_and!; try done. intros w' Hw'. by simplify_eq.
      * unfold caller_ok. simpl. intros Hr. destruct (Hok Hr) as [Hb Hx]. split.
        -- intros j v Hj Hv. destruct (decide (j = i)) as [->|]; [by simpl in Hv; simplify_eq|].
           apply (Hb j v); [lia|done].
        -- right. pose proof (inv_index _ Hinv). lia.
    + destruct (running s) eqn:Hr; injection E as <-; apply (inv_move s); try done; simpl; rewrite ?Hc; try done.
      * unfold caller_ok. simpl. intros _. split; [|by left]. intros j v Hj. lia.
      * unfold caller_ok. simpl. destruct (Hok eq_refl) as [Hb Hx]. pose proof (inv_used _ Hinv). split.
        -- intros j v Hj. apply Hb. unfold used_thread_num in *. simpl in *. lia.
        -- destruct Hx; [lia|done].
  - destruct (workers s !! i) as [w|] eqn:Hi; [|done]. simpl in E. destruct (worker_holds w) eqn:Hh; [done|].
    injection E as <-. apply (inv_move s); try done; simpl; rewrite ?Hc; try done.
    + intros j v Hj Hx. unfold caller_holds in Hx. simpl in Hx. apply bool_decide_eq_true in Hx as <-. by simplify_eq.
    + unfold caller_ok. simpl. by rewrite Hi.
  - destruct (workers s !! i) as [w|] eqn:Hi; [|done]. injection E as <-. by apply inv_assign.
  - destruct (workers s !! i) as [w|] eqn:Hi; [|done]. injection E as <-. by apply inv_notify.
Qed.

Lemma thread_step_inv t s s' : inv s → thread_step tasks t s = Some s' → inv s'.
Proof.
  intros Hinv E. destruct t as [|j|j]; [by eapply caller_step_inv|by eapply worker_step_inv|].
  simpl in E. unfold spurious_step in E. destruct (workers s !! j) as [w|] eqn:Hj; [|done]. simpl in E.
  destruct (pc w) eqn:Hpc; try done. injection E as <-. apply (inv_put j w); try done.
  pose proof (inv_worker _ Hinv j w Hj) as Hok. unfold worker_ok in *. simpl. rewrite Hpc in Hok.
  destruct (task w); [|done]. by destruct Hok as (? & ? & _ & ?).
Qed.

Lemma runs_inv s s' : inv s → runs tasks s s' → inv s'.
Proof. intros Hinv. induction 1; [done|by eapply thread_step_inv]. Qed.

(** ** The end *)

Lemma returned_done s k : inv s → caller s = Returned → (k < length tasks)%nat → done_of s k = all_of k.
Proof.
  intros Hinv Hc Hk. pose proof (inv_caller _ Hinv) as Hok. unfold caller_ok in Hok. rewrite Hc in Hok.
  destruct Hok as [Hb Ht]. rewrite (inv_free _ Hinv).
  - rewrite decide_True; [done|]. unfold assigned. rewrite Hc. lia.
  - intros (j & w & Hj & Hw). pose proof (inv_worker _ Hinv j w Hj) as Hok. unfold worker_ok in Hok.
    rewrite Hw in Hok. destruct Hok as (Hu & _). by rewrite (Hb j w Hu Hj) in Hw.
Qed.
End invariant.

(** ** What holds of whole calls *)

Section theorems.
Context {A : Type} (tasks : list (list (A → A))).
Implicit Types (s : Pool A) (w : Worker).

(** ** Entry *)

(** A pool between two calls: all contexts have a thread that looks for work, or no
    thread is left. *)
Definition between_calls (thread_num : nat) s : Prop :=
  (thread_num = length (workers s) ∧ ∀ j w, workers s !! j = Some w →
    task w = None ∧ match pc w with Top | Looking | Locking | Checking | Sleeping | Blocked => True | _ => False end) ∨
  thread_num = 0%nat.

Lemma prepare_ok max thread_num s : between_calls thread_num s → (0 < max)%nat → tasks ≠ [] →
  (0 < length (prepare tasks max thread_num (workers s)))%nat ∧
  ∀ j w, prepare tasks max thread_num (workers s) !! j = Some w →
    task w = None ∧ match pc w with Top | Looking | Locking | Checking | Sleeping | Blocked => True | _ => False end.
Proof.
  intros Hb Hmax Hne. assert (0 < length tasks)%nat by (destruct tasks; simpl; [done|lia]).
  unfold prepare. case_bool_decide as Hc.
  - assert (0 < (if bool_decide (length tasks < max)%nat then length tasks else max) - thread_num)%nat as Hpos
      by (case_bool_decide; lia).
    split; [rewrite length_app, length_replicate; lia|]. intros j w [Hj|[_ Hj]]%lookup_app_Some.
    + destruct Hb as [[_ Hb]| ->]; [|done]. apply (Hb j). by apply lookup_take_Some in Hj as [? _].
    + apply lookup_replicate in Hj as [-> _]. done.
  - destruct Hb as [[-> Hb]| ->]; [|lia]. split; [lia|done].
Qed.

Lemma SyncRun_many max thread_num s : (1 < length tasks)%nat →
  (0 < length (prepare tasks max thread_num (workers s)))%nat →
  SyncRun tasks max thread_num s =
    MkPool false (prepare tasks max thread_num (workers s)) (Scanning 0) false 0 (memory s) [].
Proof.
  unfold SyncRun. destruct tasks as [|t1 [|t2 ts]]; simpl; [lia|lia|]. intros _.
  by destruct (prepare _ _ _ _); simpl; [lia|].
Qed.

Lemma start_inv max thread_num s : between_calls thread_num s → (0 < max)%nat → (1 < length tasks)%nat →
  inv tasks (memory s) (SyncRun tasks max thread_num s).
Proof.
  intros Hb Hmax Hn. destruct (prepare_ok max thread_num s Hb Hmax) as [Hlen Hw]; [by intros ->; simpl in Hn; lia|].
  rewrite SyncRun_many by done. set (ctx := prepare tasks max thread_num (workers s)) in *.
  split; simpl; try done.
  - unfold used_thread_num. simpl. lia.
  - lia.
  - intros j w Hj. unfold worker_ok. destruct (Hw j w Hj) as [-> ?]. done.
  - intros j j' w w' k Hj _ Hk. destruct (Hw j w Hj) as [? _]. congruence.
  - unfold caller_ok. simpl. intros _. split; [|by left]. intros j w Hj. lia.
Qed.

(** ** Every task is run *)

(** C18: Every task is run once. Whenever [SyncRun] returns, however its threads were
    scheduled, each action of each task has been performed exactly once, those of one
    task in their order, and the memory is what the performed actions make of it. No
    thread ever dereferences a null task. *)
Theorem SyncRun_runs_all max thread_num s s' :
  between_calls thread_num s → (0 < max)%nat → (1 < length tasks)%nat →
  runs tasks (SyncRun tasks max thread_num s) s' →
  (∀ j w, workers s' !! j = Some w → pc w ≠ Crashed) ∧
  (caller s' = Returned →
    (∀ k, (k < length tasks)%nat → done_of s' k = all_of tasks k) ∧
    memory s' = foldl (apply_action tasks) (memory s) (performed s')).
Proof.
  intros Hb Hmax Hn Hr. pose proof (start_inv max thread_num s Hb Hmax Hn) as H0.
  pose proof (runs_inv _ _ _ _ H0 Hr) as Hinv. split.
  - intros j w Hj Hpc. pose proof (inv_worker _ _ _ Hinv j w Hj) as Hok. unfold worker_ok in Hok.
    rewrite Hpc in Hok. destruct (task w); [by destruct Hok as (_ & _ & [])|done].
  - intros Hc. split; [intros k; by eapply returned_done|apply Hinv].
Qed.

(** ** Coming to an end *)

Lemma runs_trans s1 s2 s3 : runs tasks s1 s2 → runs tasks s2 s3 → runs tasks s1 s3.
Proof. intros H12. induction 1; [done|by eapply runs_step]. Qed.

Lemma runs_first t s s' s'' : thread_step tasks t s = Some s' → runs tasks s' s'' → runs tasks s s''.
Proof. intros E. apply runs_trans. eapply runs_step; [apply runs_start|done]. Qed.

(** What a thread leaves alone while it works on its task. *)
Definition aside s s' : Prop :=
  caller s' = caller s ∧ running s' = running s ∧ task_index s' = task_index s.

Lemma aside_trans s1 s2 s3 : aside s1 s2 → aside s2 s3 → aside s1 s3.
Proof. intros (? & ? & ?) (? & ? & ?). split_and!; congruence. Qed.

(** Steps a thread still has to make, at most, until it puts down its task. *)
Definition rank (k : nat) w : nat :=
  let l := length (default [] (tasks !! k)) in
  match pc w with
  | Top | Locking => l + 5
  | Looking | Checking => l + 4
  | Ready => l + 3
  | Running _ i => l - i + 2
  | _ => 1
  end.

Lemma worker_advances mem0 s i j w k : inv tasks mem0 s → caller s = Scanning i →
  workers s !! j = Some w → task w = Some k →
  ∃ s' w', worker_step tasks j s = Some s' ∧ workers s' = <[j := w']> (workers s) ∧ aside s s' ∧
    (task w' = None ∨ task w' = Some k ∧ (rank k w' < rank k w)%nat).
Proof.
  intros Hinv Hc Hj Ht. pose proof (inv_worker _ _ _ Hinv j w Hj) as Hok. unfold worker_ok in Hok.
  rewrite Ht in Hok. destruct Hok as (_ & _ & Hok). unfold worker_step. rewrite Hj. simpl.
  rewrite (inv_exit _ _ _ Hinv). unfold rank, caller_holds. rewrite Hc.
  destruct (pc w) as [| | | | | | |k' i'| | |] eqn:Hpc; simpl; rewrite ?Ht; try done;
    try (eexists _, _; split; [reflexivity|]; split; [reflexivity|]; split; [done|];
         simpl; rewrite ?Ht; first [by left|right; split; [done|lia]]).
  - destruct Hok as [Hx _]. by rewrite Hc in Hx.
  - destruct Hok as (-> & Hd & Hi). destruct (tasks !! k) as [actions|] eqn:Hk; simpl in *.
    + destruct (actions !! i') as [a|] eqn:Ha.
      * assert (i' < length actions)%nat by (by eapply lookup_lt_Some).
        eexists _, _; split; [reflexivity|]; split; [reflexivity|]; split; [done|]. right. split; [done|]. simpl. lia.
      * eexists _, _; split; [reflexivity|]; split; [reflexivity|]; split; [done|]. right. split; [done|]. simpl. lia.
    + eexists _, _; split; [reflexivity|]; split; [reflexivity|]; split; [done|]. right. split; [done|]. simpl. lia.
Qed.

Lemma finish_worker mem0 i j k n : ∀ s w, inv tasks mem0 s → caller s = Scanning i →
  workers s !! j = Some w → task w = Some k → (rank k w <= n)%nat →
  ∃ s' w', runs tasks s s' ∧ workers s' = <[j := w']> (workers s) ∧ aside s s' ∧ task w' = None.
Proof.
  induction n as [|n IH]; intros s w Hinv Hc Hj Ht Hr.
  - unfold rank in Hr. destruct (pc w); lia.
  - destruct (worker_advances mem0 s i j w k Hinv Hc Hj Ht) as (s1 & w1 & E & Ew & Ha & Hcase).
    destruct Hcase as [Hn|[Ht1 Hlt]].
    + exists s1, w1. split_and!; try done; [|apply Ha..]. eapply (runs_first (Thread j)); [exact E|apply runs_start].
    + destruct (IH s1 w1) as (s2 & w2 & Hruns & Ew2 & Ha2 & Hn2).
      * by eapply (thread_step_inv _ _ (Thread j)).
      * destruct Ha as (-> & _). done.
      * rewrite Ew. apply list_lookup_insert_eq. by eapply lookup_lt_Some.
      * done.
      * lia.
      * exists s2, w2. split; [by eapply (runs_first (Thread j))|]. split; [|by split; [eapply aside_trans|]].
        rewrite Ew2, Ew. apply list_insert_insert_eq.
Qed.

Lemma finish_before mem0 i m : ∀ s, inv tasks mem0 s → caller s = Scanning i →
  ∃ s', runs tasks s s' ∧ aside s s' ∧ none_before s' m ∧ length (workers s') = length (workers s).
Proof.
  induction m as [|m IH]; intros s Hinv Hc.
  - exists s. split; [apply runs_start|]. split; [done|]. split; [|done]. intros j w Hj. lia.
  - destruct (IH s Hinv Hc) as (s1 & Hr1 & Ha1 & Hn1 & Hl1).
    destruct (workers s1 !! m) as [w|] eqn:Hm; cycle 1.
    { exists s1. split_and!; try done; [apply Ha1..|]. intros j w Hj Hw.
      apply (Hn1 j w); [|done]. destruct (decide (j = m)) as [->|]; [congruence|lia]. }
    destruct (task w) as [k|] eqn:Ht; cycle 1.
    { exists s1. split_and!; try done; [apply Ha1..|]. intros j v Hj Hv.
      destruct (decide (j = m)) as [->|]; [congruence|]. apply (Hn1 j v); [lia|done]. }
    destruct (finish_worker mem0 i m k (rank k w) s1 w) as (s2 & w2 & Hr2 & Ew & Ha2 & Hn2); try done.
    { by eapply runs_inv. } { destruct Ha1 as (-> & _). done. }
    exists s2. split; [by eapply runs_trans|]. split; [by eapply aside_trans|]. split; [|by rewrite Ew, length_insert].
    intros j v Hj Hv. rewrite Ew in Hv. apply list_lookup_insert_Some in Hv as [(<- & <- & _)|[Hne Hv]]; [done|].
    apply (Hn1 j v); [lia|done].
Qed.

(** A context whose mutex the caller waits for. *)
Lemma hand_out mem0 s i : inv tasks mem0 s → caller s = Waiting i →
  ∃ s' j, runs tasks s s' ∧ caller s' = Scanning j ∧ task_index s' = S (task_index s).
Proof.
  intros Hinv Hc. pose proof (inv_caller _ _ _ Hinv) as Hok. unfold caller_ok in Hok. rewrite Hc in Hok.
  destruct Hok as (Hu & Hnone & Hlt).
  assert (∃ w, workers s !! i = Some w) as [w Hi].
  { apply lookup_lt_is_Some. unfold used_thread_num in Hu. lia. }
  assert (∀ s1 w1, workers s1 !! i = Some w1 → caller s1 = Waiting i → worker_holds w1 = false →
    ∃ s' j, runs tasks s1 s' ∧ caller s' = Scanning j ∧ task_index s' = S (task_index s1)) as Hgo.
  { intros s1 w1 Hi1 Hc1 Hh. assert (i < length (workers s1))%nat as Hl by (by eapply lookup_lt_Some).
    eexists _, (S i). split.
    - eapply (runs_first Caller); [simpl; unfold caller_step; rewrite Hc1, Hi1; simpl; rewrite Hh; reflexivity|].
      eapply (runs_first Caller); [simpl; unfold caller_step; simpl; rewrite Hi1; reflexivity|].
      eapply (runs_first Caller); [|apply runs_start].
      simpl. unfold caller_step. simpl. rewrite list_lookup_insert_eq by done. reflexivity.
    - done. }
  specialize (Hnone w Hi). assert (i < length (workers s))%nat as Hl by (by eapply lookup_lt_Some).
  assert (∀ s1 w1, workers s1 !! i = Some w1 → caller s1 = Waiting i → pc w1 = Sleeping →
    ∃ s' j, runs tasks s1 s' ∧ caller s' = Scanning j ∧ task_index s' = S (task_index s1)) as Hsleep.
  { intros s1 w1 Hi1 Hc1 Hpc. assert (i < length (workers s1))%nat as Hl1 by (by eapply lookup_lt_Some).
    destruct (Hgo (put_worker i (set_pc Blocked w1) s1) (set_pc Blocked w1)) as (s' & j & Hr & ? & ?); try done.
    { simpl. by apply list_lookup_insert_eq. }
    exists s', j. split; [|done]. eapply (runs_first (Thread i)); [|exact Hr].
    simpl. unfold worker_step. rewrite Hi1. simpl. by rewrite Hpc. }
  destruct (worker_holds w) eqn:Hh; [|by apply (Hgo s w)]. unfold worker_holds in Hh.
  destruct (pc w) eqn:Hpc; try done; [|by apply (Hsleep s w)].
  destruct (Hsleep (put_worker i (set_pc Sleeping w) s) (set_pc Sleeping w)) as (s' & j & Hr & ? & ?); try done.
  { simpl. by apply list_lookup_insert_eq. }
  exists s', j. split; [|done]. eapply (runs_first (Thread i)); [|exact Hr].
  simpl. unfold worker_step. rewrite Hi. simpl. rewrite Hpc, Hnone, (inv_exit _ _ _ Hinv). done.
Qed.

(** Scanning contexts that are all empty: the next task is handed out, or the end is
    near. *)
Lemma scan_context s i : caller s = Scanning i → (i < used_thread_num tasks s)%nat →
  none_before s (length (workers s)) →
  caller_step tasks s = Some (set_caller (if decide (task_index s < length tasks)%nat then Waiting i else Scanning (S i)) s).
Proof.
  intros Hc Hi Hn. unfold caller_step. rewrite Hc, bool_decide_eq_true_2 by done.
  assert (i < length (workers s))%nat as Hl by (unfold used_thread_num in Hi; lia).
  apply lookup_lt_is_Some in Hl as [w Hw]. rewrite Hw. simpl.
  rewrite (Hn i w) by (done || by eapply lookup_lt_Some).
  destruct (decide (task_index s < length tasks)%nat); [by rewrite bool_decide_eq_true_2|by rewrite bool_decide_eq_false_2].
Qed.

Lemma scan_end s i : caller s = Scanning i → (used_thread_num tasks s <= i)%nat →
  caller_step tasks s = Some (if running s then set_caller (Scanning 0) (set_running false s) else set_caller Returned s).
Proof.
  intros Hc Hi. unfold caller_step. rewrite Hc, bool_decide_eq_false_2 by lia. by destruct (running s).
Qed.

Lemma scan_to_end c s i : (used_thread_num tasks s - i = c)%nat → caller s = Scanning i →
  none_before s (length (workers s)) → (length tasks <= task_index s)%nat →
  ∃ j, runs tasks s (set_caller (Scanning j) s) ∧ (used_thread_num tasks s <= j)%nat.
Proof.
  revert s i. induction c as [|c IH]; intros s i Hn Hc Hnone Ht.
  - exists i. split; [|lia]. replace (set_caller (Scanning i) s) with s; [apply runs_start|].
    destruct s; simpl in *. by rewrite Hc.
  - pose proof (scan_context s i Hc ltac:(lia) Hnone) as E. rewrite decide_False in E by lia.
    destruct (IH (set_caller (Scanning (S i)) s) (S i)) as (j & Hr & Hj); try done.
    { unfold used_thread_num in *. simpl. lia. }
    exists j. split; [|done]. by eapply (runs_first Caller).
Qed.

Lemma finish_scan s i : caller s = Scanning i → none_before s (length (workers s)) →
  (length tasks <= task_index s)%nat → ∃ s', runs tasks s s' ∧ caller s' = Returned.
Proof.
  intros Hc Hnone Ht.
  assert (∀ s0 i0, caller s0 = Scanning i0 → running s0 = false → none_before s0 (length (workers s0)) →
    (length tasks <= task_index s0)%nat → ∃ s', runs tasks s0 s' ∧ caller s' = Returned) as Hquiet.
  { intros s0 i0 Hc0 Hr0 Hn0 Ht0. destruct (scan_to_end _ s0 i0 eq_refl Hc0 Hn0 Ht0) as (j & Hr & Hj).
    eexists. split; [eapply runs_trans; [exact Hr|]|].
    - eapply (runs_first Caller); [|apply runs_start]. simpl. rewrite (scan_end _ j); [|done|done].
      simpl. rewrite Hr0. reflexivity.
    - done. }
  destruct (scan_to_end _ s i eq_refl Hc Hnone Ht) as (j & Hr & Hj).
  destruct (running s) eqn:Er; [|by eapply Hquiet].
  destruct (Hquiet (set_caller (Scanning 0) (set_running false (set_caller (Scanning j) s))) 0%nat) as (s' & Hr' & Hret); try done.
  exists s'. split; [|done]. eapply runs_trans; [exact Hr|]. eapply (runs_first Caller); [|exact Hr'].
  simpl. rewrite (scan_end _ j); [|done|done]. simpl. by rewrite Er.
Qed.

Lemma scanning_returns mem0 c : ∀ s i, inv tasks mem0 s → caller s = Scanning i →
  (length tasks - task_index s <= c)%nat → ∃ s', runs tasks s s' ∧ caller s' = Returned.
Proof.
  induction c as [|c IH]; intros s i Hinv Hc Hn;
    destruct (finish_before mem0 i (length (workers s)) s Hinv Hc) as (s1 & Hr1 & (Ec & Er & Et) & Hnone & El);
    rewrite <- El in Hnone; rewrite Hc in Ec.
  - destruct (finish_scan s1 i) as (s' & Hr & ?); [done|done|lia|]. exists s'. split; [by eapply runs_trans|done].
  - destruct (decide (length tasks <= task_index s1)%nat) as [Hle|Hgt].
    { destruct (finish_scan s1 i) as (s' & Hr & ?); [done|done|lia|]. exists s'. split; [by eapply runs_trans|done]. }
    pose proof (runs_inv _ _ _ _ Hinv Hr1) as Hinv1.
    assert (∃ s2 i2, runs tasks s1 s2 ∧ inv tasks mem0 s2 ∧ caller s2 = Waiting i2 ∧ task_index s2 = task_index s1)
      as (s2 & i2 & Hr2 & Hinv2 & Hc2 & Et2).
    { assert (∀ s0 i0, inv tasks mem0 s0 → caller s0 = Scanning i0 → (i0 < used_thread_num tasks s0)%nat →
        none_before s0 (length (workers s0)) → task_index s0 = task_index s1 →
        ∃ s2 i2, runs tasks s0 s2 ∧ inv tasks mem0 s2 ∧ caller s2 = Waiting i2 ∧ task_index s2 = task_index s1) as Hgo.
      { intros s0 i0 Hi0 Hc0 Hu0 Hn0 Et0. pose proof (scan_context s0 i0 Hc0 Hu0 Hn0) as E.
        rewrite decide_True in E by lia. exists (set_caller (Waiting i0) s0), i0.
        split_and!; [by eapply (runs_first Caller); [|apply runs_start]|by eapply (thread_step_inv _ _ Caller)|done|done]. }
      destruct (decide (i < used_thread_num tasks s1)%nat) as [Hu|Hu]; [by apply (Hgo s1 i)|].
      pose proof (scan_end s1 i Ec ltac:(lia)) as E. pose proof (inv_used _ _ _ Hinv1) as Hpos.
      destruct (running s1) eqn:Er1; cycle 1.
      { pose proof (inv_caller _ _ _ Hinv1) as Hok. unfold caller_ok in Hok. rewrite Ec in Hok.
        destruct (Hok Er1) as [_ [->|?]]; lia. }
      destruct (Hgo (set_caller (Scanning 0) (set_running false s1)) 0%nat) as (s2 & i2 & Hr2 & ?); try done.
      { by eapply (thread_step_inv _ _ Caller). }
      exists s2, i2. split; [|done]. by eapply (runs_first Caller). }
    destruct (hand_out mem0 s2 i2 Hinv2 Hc2) as (s3 & j & Hr3 & Hc3 & Et3).
    destruct (IH s3 j) as (s' & Hr & ?); [by eapply runs_inv|done|lia|].
    exists s'. split; [|done]. eapply runs_trans; [exact Hr1|]. eapply runs_trans; [exact Hr2|].
    by eapply runs_trans.
Qed.

Lemma run_schedule_runs l : ∀ s s', run_schedule tasks l s = Some s' → runs tasks s s'.
Proof.
  induction l as [|t l IH]; intros s s'; simpl; [intros [= <-]; apply runs_start|].
  destruct (thread_step tasks t s) as [s1|] eqn:E; simpl; [|done]. intros H1. by eapply runs_first, IH.
Qed.

(** C19: [SyncRun] can come to an end. From wherever its threads have got to, there is
    a way to go on that makes it return, without any spurious wake-up being needed: no
    thread misses the notification of its task. *)
Theorem SyncRun_can_return max thread_num s s' :
  between_calls thread_num s → (0 < max)%nat → (1 < length tasks)%nat →
  runs tasks (SyncRun tasks max thread_num s) s' →
  ∃ s'', runs tasks s' s'' ∧ caller s'' = Returned.
Proof.
  intros Hb Hmax Hn Hr. pose proof (start_inv max thread_num s Hb Hmax Hn) as H0.
  pose proof (runs_inv _ _ _ _ H0 Hr) as Hinv. pose proof (inv_caller _ _ _ Hinv) as Hok.
  assert (∀ s1 i, runs tasks s' s1 → caller s1 = Scanning i → ∃ s'', runs tasks s' s'' ∧ caller s'' = Returned) as Hscan.
  { intros s1 i Hr1 Hc. destruct (scanning_returns (memory s) _ s1 i (runs_inv _ _ _ _ Hinv Hr1) Hc (le_n _)) as (s2 & Hr2 & ?).
    exists s2. split; [by eapply runs_trans|done]. }
  unfold caller_ok in Hok. destruct (caller s') as [i|i|i|i| | | | |] eqn:Hc; try done.
  - by apply (Hscan s' i (runs_start _ _)).
  - destruct (hand_out (memory s) s' i Hinv Hc) as (s1 & j & Hr1 & Hc1 & _). by eapply Hscan.
  - destruct Hok as (Hu & _). assert (i < length (workers s'))%nat as Hl by (unfold used_thread_num in Hu; lia).
    destruct (workers s' !! i) as [w|] eqn:Hi; [|apply lookup_ge_None in Hi; lia].
    eapply (Hscan _ (S i)).
    + eapply (runs_first Caller); [simpl; unfold caller_step; rewrite Hc, Hi; reflexivity|].
      eapply (runs_first Caller); [|apply runs_start].
      simpl. unfold caller_step. simpl. rewrite list_lookup_insert_eq by done. reflexivity.
    + reflexivity.
  - destruct Hok as (Hu & _). assert (i < length (workers s'))%nat as Hl by (unfold used_thread_num in Hu; lia).
    destruct (workers s' !! i) as [w|] eqn:Hi; [|apply lookup_ge_None in Hi; lia].
    eapply (Hscan _ (S i)).
    + eapply (runs_first Caller); [|apply runs_start]. simpl. unfold caller_step. rewrite Hc, Hi. reflexivity.
    + reflexivity.
  - exists s'. split; [apply runs_start|done].
Qed.

(** ** What goes wrong *)

(** Without a spurious wake-up. *)
Inductive quiet_runs s : Pool A → Prop :=
| quiet_start : quiet_runs s s
| quiet_caller s' s'' : quiet_runs s s' → caller_step tasks s' = Some s'' → quiet_runs s s''
| quiet_thread j s' s'' : quiet_runs s s' → worker_step tasks j s' = Some s'' → quiet_runs s s''.

Definition missed j s : Prop :=
  (∃ w, workers s !! j = Some w ∧ (pc w = Sleeping ∨ pc w = Blocked)) ∧
  match caller s with Waking i => (j < i)%nat | Joining i => (i <= j)%nat | _ => False end.

Lemma missed_caller j s s' : missed j s → caller_step tasks s = Some s' → missed j s'.
Proof.
  intros [(w & Hw & Hpc) Hc] E. unfold caller_step in E. destruct (caller s) as [| | | | | |i|i|]; try done.
  - destruct (workers s !! i) as [v|] eqn:Hi; injection E as <-.
    + split; [|simpl; lia]. exists w. split; [|done]. simpl. rewrite list_lookup_insert_ne by lia. done.
    + split; [by exists w|simpl; lia].
  - destruct (workers s !! i) as [v|] eqn:Hi.
    + destruct (pc v) eqn:Hv; try done. injection E as <-. split; [by exists w|]. simpl.
      destruct (decide (i = j)) as [->|]; [|lia]. simplify_eq. destruct Hpc; congruence.
    + assert (j < length (workers s))%nat by (by eapply lookup_lt_Some). apply lookup_ge_None in Hi. lia.
Qed.

Lemma missed_thread j s j' s' : missed j s → worker_step tasks j' s = Some s' → missed j s'.
Proof.
  intros [(w & Hw & Hpc) Hc] E.
  assert (caller s' = caller s ∧ ∃ w', workers s' = <[j' := w']> (workers s) ∧
    (workers s !! j' = Some w → pc w = Sleeping ∨ pc w = Blocked → pc w' = Blocked)) as (Ec & w' & Ew & Hw').
  { unfold worker_step in E. destruct (workers s !! j') as [v|] eqn:Hj; [|done]. simpl in E.
    destruct (pc v) eqn:Hv;
    repeat match goal with
    | E : (if ?b then _ else _) = Some _ |- _ => destruct b eqn:?
    | E : match ?o with _ => _ end = Some _ |- _ => destruct o eqn:?
    end; try done; injection E as <-; (split; [done|]; eexists; split; [reflexivity|]; intros [= ->] []; simpl; congruence). }
  split; [|by rewrite Ec]. destruct (decide (j' = j)) as [->|Hne].
  - exists w'. rewrite Ew. split; [apply list_lookup_insert_eq; by eapply lookup_lt_Some|]. right. by apply Hw'.
  - exists w. rewrite Ew. by rewrite list_lookup_insert_ne.
Qed.

Lemma wake_up_to n : ∀ s i, caller s = Waking i → (i + n <= length (workers s))%nat →
  ∃ s', quiet_runs s s' ∧ caller s' = Waking (i + n) ∧
    (∀ j w, workers s !! j = Some w → pc w = Sleeping → workers s' !! j = Some w).
Proof.
  induction n as [|n IH]; intros s i Hc Hl.
  - exists s. split; [apply quiet_start|]. by rewrite Nat.add_0_r.
  - destruct (IH s i Hc ltac:(lia)) as (s1 & Hr & Hc1 & Hkeep).
    assert (length (workers s1) = length (workers s)) as El.
    { clear -Hr. induction Hr as [|s' s'' Hr IHr E|j s' s'' Hr IHr E]; [done|..]; rewrite <- IHr; clear IHr Hr.
      - unfold caller_step in E. repeat match goal with
        | E : (if ?b then _ else _) = Some _ |- _ => destruct b eqn:?
        | E : match ?o with _ => _ end = Some _ |- _ => destruct o eqn:?
        | E : (?o ≫= _) = Some _ |- _ => destruct o eqn:?; simpl in E
        end; try done; injection E as <-; simpl; by rewrite ?length_insert.
      - unfold worker_step in E. destruct (workers s' !! j) as [v|]; [|done]. simpl in E.
        repeat match goal with
        | E : (if ?b then _ else _) = Some _ |- _ => destruct b eqn:?
        | E : match ?o with _ => _ end = Some _ |- _ => destruct o eqn:?
        end; try done; injection E as <-; simpl; by rewrite ?length_insert. }
    destruct (workers s1 !! (i + n)%nat) as [v|] eqn:Hv; [|apply lookup_ge_None in Hv; lia].
    eexists. split; [eapply quiet_caller; [exact Hr|]; unfold caller_step; rewrite Hc1, Hv; reflexivity|].
    simpl. split; [f_equal; lia|]. intros j w Hj Hpc. pose proof (Hkeep j w Hj Hpc) as Hj1.
    destruct (decide (i + n = j)%nat) as [<-|Hne].
    + simplify_eq. rewrite list_lookup_insert_eq by (by eapply lookup_lt_Some). f_equal.
      unfold notified. by rewrite Hpc.
    + by rewrite list_lookup_insert_ne.
Qed.

(** C27: [ClearThreadPool] may never return. It does not take the mutexes of the
    contexts: a thread that has found nothing to do and not yet gone to sleep misses
    the notification, and is joined for ever. *)
Theorem clear_may_hang j s w : exit_run_ s = false → workers s !! j = Some w → pc w = Sleeping →
  ∃ s1, quiet_runs (ClearThreadPool s) s1 ∧ ∀ s2, quiet_runs s1 s2 → caller s2 ≠ Cleared.
Proof.
  intros He Hj Hpc. unfold ClearThreadPool. rewrite He.
  set (s0 := set_caller (Waking 0) (set_exit true (set_caller Exiting s))).
  assert (quiet_runs (set_caller Exiting s) s0) as H0 by (by eapply quiet_caller; [apply quiet_start|]).
  assert (j < length (workers s))%nat as Hl by (by eapply lookup_lt_Some).
  destruct (wake_up_to (S j) s0 0 eq_refl) as (s1 & Hr & Hc & Hkeep); [simpl; lia|].
  assert (missed j s1) as Hm.
  { split; [exists w; split; [by apply Hkeep|by left]|]. rewrite Hc. lia. }
  exists s1. split.
  - clear -H0 Hr. induction Hr; [done|by eapply quiet_caller|by eapply quiet_thread].
  - intros s2 H2 Hx. assert (missed j s2) as [_ Hc2].
    { clear -H2 Hm. induction H2; [done|by eapply missed_caller|by eapply missed_thread]. }
    by rewrite Hx in Hc2.
Qed.

(** Without threads nothing is run. Where [hardware_concurrency] returns 0, which
    it may, [SyncRun] of several tasks returns at once and has run none of them. *)
Theorem no_threads_no_tasks s : workers s = [] → (1 < length tasks)%nat →
  SyncRun tasks 0 0 s = MkPool false [] Returned false 0 (memory s) [].
Proof.
  intros Hw. unfold SyncRun, prepare. rewrite Hw. destruct tasks as [|t1 [|t2 ts]]; simpl; [lia|lia|done].
Qed.
End theorems.

(** ** Two tasks and one thread *)

Definition two_tasks : list (list (nat → nat)) := [[S; S]; [λ n, (2 * n)%nat]].
Definition idle_pool : Pool nat := MkPool false [] Returned false 0 5%nat [].

Lemma idle_pool_between : between_calls 0 idle_pool.
Proof. by right. Qed.

Example SyncRun_runs_all_witness : let s' := MkPool false [MkWorker None Top 0] Returned false 2 14%nat [(0, 0); (0, 1); (1, 0)]%nat in
  (∀ j w, workers s' !! j = Some w → pc w ≠ Crashed) ∧
  (caller s' = Returned →
    (∀ k, (k < length two_tasks)%nat → done_of s' k = all_of two_tasks k) ∧
    memory s' = foldl (apply_action two_tasks) (memory idle_pool) (performed s')).
Proof.
  intros s'. apply (SyncRun_runs_all two_tasks 1 0 idle_pool s' idle_pool_between); [lia|simpl; lia|].
  apply (run_schedule_runs _ (repeat Caller 4 ++ repeat (Thread 0) 7 ++ repeat Caller 5 ++ repeat (Thread 0) 6 ++ repeat Caller 3)).
  by vm_compute.
Defined.

(** The thread has gone to sleep before its task comes. *)
Definition asleep : Pool nat :=
  MkPool false [MkWorker None Blocked 0] (Scanning 0) false 0 5%nat [].

Example SyncRun_can_return_witness :
  ∃ s'', runs two_tasks asleep s'' ∧ caller s'' = Returned.
Proof.
  apply (SyncRun_can_return two_tasks 1 0 idle_pool asleep idle_pool_between); [lia|simpl; lia|].
  apply (run_schedule_runs _ (concat (repeat [Thread 0; Thread 0] 1000) ++ repeat (Thread 0) 5)).
  by vm_compute.
Defined.

Example clear_may_hang_witness :
  ∃ s1, quiet_runs two_tasks (ClearThreadPool (MkPool false [MkWorker None Sleeping 0] Returned false 2 14%nat [])) s1 ∧
    ∀ s2, quiet_runs two_tasks s1 s2 → caller s2 ≠ Cleared.
Proof.
  apply (clear_may_hang two_tasks 0 (MkPool false [MkWorker None Sleeping 0] Returned false 2 14%nat []) (MkWorker None Sleeping 0));
    reflexivity.
Defined.
