(* ===== verification/Random.v ===== *)
(** * Random numbers into a buffer

    Distributions and [GenerateRandoms] of testing/random.h, and their parallel
    version, which splits a buffer into tasks for the pool of [ThreadPool]. *)

From S2P Require Import Prelude Philox.

(** ** Distributions *)

(** Arithmetic of a floating-point type [T]. [f_div_ld x n] divides by [n] in
    [long double] and converts back, [f_of_bits] reinterprets a word. *)
Class Float (F : Type) := {
  f_of_Z : Z → F;
  f_lit : string → F;
  f_div_ld : F → Z → F;
  f_of_bits : Z → F;
  f_add : F → F → F;
  f_sub : F → F → F;
  f_mul : F → F → F;
  f_geb : F → F → bool;
  f_leb : F → F → bool;
  f_ltb : F → F → bool;
  f_div : F → F → F;
  f_neg : F → F;
  f_nextafter : F → F → F;
  f_nextafterf : F → F → F;
  f_erfc : F → F;
  f_sqrt : F → F;
  f_log : F → F;
  f_sin : F → F;
  f_cos : F → F;
}.

(** A distribution with its arguments: its state when it is made, and the call of it
    on a generator. *)
Class Distribution (F D : Type) := {
  new_distribution : D;
  sample : D → M Philox (F * D);
}.

Section distributions.
Context {F : Type} `{Float F}.

Definition UniformDistribution (a b : F) : Distribution F unit := {|
  new_distribution := ();
  sample _ :=
    w ← draw;
    let range := 4294967295 - 0 + 1 in
    let s := f_div_ld (f_of_Z (u32 (w - 0))) range in
    let s := if f_geb s (f_of_Z 1) then f_nextafter (f_of_Z 1) (f_of_Z 0) else s in
    mret (f_add (f_mul (f_sub b a) s) a, ());
|}.

Record Normal := MkNormal { next_ : F; has_next_ : bool }.

(** [std::max]. *)
Definition f_max (a b : F) : F := if f_ltb a b then b else a.

Definition to_float (input : Z) : F :=
  f_sub (f_of_bits (Z.lor (Z.land input 8388607) (Z.shiftl 127 23))) (f_lit "1.0f").

Definition normal_pair (mean sigma : F) (w1 w2 : Z) : F * F :=
  let pi := f_lit "3.1415926f" in
  let threshold := f_lit "1.0e-7f" in
  let u1 := f_max (to_float w1) threshold in
  let u2 := f_max (to_float w2) threshold in
  let x := f_mul (f_sqrt (f_mul (f_lit "-2.0f") (f_log u1))) sigma in
  let y := f_mul (f_mul (f_lit "2.0f") pi) u2 in
  (f_add mean (f_mul x (f_cos y)), f_add mean (f_mul x (f_sin y))).

Definition NormalDistribution (mean sigma : F) : Distribution F Normal := {|
  new_distribution := MkNormal (f_of_Z 0) false;
  sample d :=
    if has_next_ d then mret (next_ d, MkNormal (next_ d) false)
    else
      w1 ← draw;
      w2 ← draw;
      let '(now, next) := normal_pair mean sigma w1 w2 in
      mret (now, MkNormal next true);
|}.

Definition ConstantDistribution (value : F) : Distribution F unit := {|
  new_distribution := ();
  sample _ := mret (value, ());
|}.

(** ** Truncated normal distribution *)

(** The loop of [eval_polynomial_loop], unrolled at compile time in the code. *)
Definition eval_polynomial (arr : list F) (x : F) : F :=
  match rev arr with
  | [] => f_of_Z 0
  | c :: cs => foldl (λ sum a, f_add (f_mul sum x) a) c cs
  end.

Definition erf_inv_imp2 (q : F) : F :=
  let x := f_sqrt (f_neg (f_log q)) in
  let combine Y P Q xs :=
    let R := f_div (eval_polynomial P xs) (eval_polynomial Q xs) in
    f_add (f_mul Y x) (f_mul R x) in
  if f_ltb x (f_lit "3.0f") then
    let Y := f_lit "0.807220458984375f" in
    let P := f_lit <$> ["-0.131102781679951906451"; "-0.163794047193317060787"; "0.117030156341995252019";
     "0.387079738972604337464"; "0.337785538912035898924"; "0.142869534408157156766";
     "0.0290157910005329060432"; "0.00214558995388805277169"; "-0.679465575181126350155e-6";
     "0.285225331782217055858e-7"; "-0.681149956853776992068e-9"] in
    let Q := f_lit <$> ["1.0"; "3.46625407242567245975"; "5.38168345707006855425"; "4.77846592945843778382";
     "2.59301921623620271374"; "0.848854343457902036425"; "0.152264338295331783612";
     "0.01105924229346489121"] in
    combine Y P Q (f_sub x (f_lit "1.125f"))
  else if f_ltb x (f_lit "6.0f") then
    let Y := f_lit "0.93995571136474609375f" in
    let P := f_lit <$> ["-0.0350353787183177984712"; "-0.00222426529213447927281"; "0.0185573306514231072324";
     "0.00950804701325919603619"; "0.00187123492819559223345"; "0.000157544617424960554631";
     "0.460469890584317994083e-5"; "-0.230404776911882601748e-9";
     "0.266339227425782031962e-11"] in
    let Q := f_lit <$> ["1.0"; "1.3653349817554063097"; "0.762059164553623404043"; "0.220091105764131249824";
     "0.0341589143670947727934"; "0.00263861676657015992959"; "0.764675292302794483503e-4"] in
    combine Y P Q (f_sub x (f_lit "3.0f"))
  else if f_ltb x (f_lit "18.0f") then
    let Y := f_lit "0.98362827301025390625f" in
    let P := f_lit <$> ["-0.0167431005076633737133"; "-0.00112951438745580278863"; "0.00105628862152492910091";
     "0.000209386317487588078668"; "0.149624783758342370182e-4";
     "0.449696789927706453732e-6"; "0.462596163522878599135e-8";
     "-0.281128735628831791805e-13"; "0.99055709973310326855e-16"] in
    let Q := f_lit <$> ["1.0"; "0.591429344886417493481"; "0.138151865749083321638";
     "0.0160746087093676504695"; "0.000964011807005165528527"; "0.275335474764726041141e-4";
     "0.282243172016108031869e-6"] in
    combine Y P Q (f_sub x (f_lit "6.0f"))
  else if f_ltb x (f_lit "44.0f") then
    let Y := f_lit "0.99714565277099609375f" in
    let P := f_lit <$> ["-0.0024978212791898131227"; "-0.779190719229053954292e-5";
     "0.254723037413027451751e-4"; "0.162397777342510920873e-5";
     "0.396341011304801168516e-7"; "0.411632831190944208473e-9";
     "0.145596286718675035587e-11"; "-0.116765012397184275695e-17"] in
    let Q := f_lit <$> ["1.0"; "0.207123112214422517181"; "0.0169410838120975906478";
     "0.000690538265622684595676"; "0.145007359818232637924e-4";
     "0.144437756628144157666e-6"; "0.509761276599778486139e-9"] in
    combine Y P Q (f_sub x (f_lit "18.0f"))
  else
    let Y := f_lit "0.99941349029541015625f" in
    let P := f_lit <$> ["-0.000539042911019078575891"; "-0.28398759004727721098e-6";
     "0.899465114892291446442e-6"; "0.229345859265920864296e-7";
     "0.225561444863500149219e-9"; "0.947846627503022684216e-12";
     "0.135880130108924861008e-14"; "-0.348890393399948882918e-21"] in
    let Q := f_lit <$> ["1.0"; "0.0845746234001899436914"; "0.00282092984726264681981";
     "0.468292921940894236786e-4"; "0.399968812193862100054e-6";
     "0.161809290887904476097e-8"; "0.231558608310259605225e-11"] in
    combine Y P Q (f_sub x (f_lit "44.0f")).

Definition erf_inv_imp (p q : F) : F :=
  if f_leb p (f_lit "0.5f") then
    let Y := f_lit "0.0891314744949340820313f" in
    let P := f_lit <$> ["-0.000508781949658280665617"; "-0.00836874819741736770379";
     "0.0334806625409744615033"; "-0.0126926147662974029034"; "-0.0365637971411762664006";
     "0.0219878681111168899165"; "0.00822687874676915743155"; "-0.00538772965071242932965"] in
    let Q := f_lit <$> ["1.0"; "-0.970005043303290640362"; "-1.56574558234175846809"; "1.56221558398423026363";
     "0.662328840472002992063"; "-0.71228902341542847553"; "-0.0527396382340099713954";
     "0.0795283687341571680018"; "-0.00233393759374190016776"; "0.000886216390456424707504"] in
    let g := f_mul p (f_add p (f_lit "10.0f")) in
    let r := f_div (eval_polynomial P p) (eval_polynomial Q p) in
    f_add (f_mul g Y) (f_mul g r)
  else if f_geb q (f_lit "0.25f") then
    let Y := f_lit "2.249481201171875f" in
    let P := f_lit <$> ["-0.202433508355938759655"; "0.105264680699391713268"; "8.37050328343119927838";
     "17.6447298408374015486"; "-18.8510648058714251895"; "-44.6382324441786960818";
     "17.445385985570866523"; "21.1294655448340526258"; "-3.67192254707729348546"] in
    let Q := f_lit <$> ["1.0"; "6.24264124854247537712"; "3.9713437953343869095"; "-28.6608180499800029974";
     "-20.1432634680485188801"; "48.5609213108739935468"; "10.8268667355460159008";
     "-22.6436933413139721736"; "1.72114765761200282724"] in
    let g := f_sqrt (f_mul (f_lit "-2.0f") (f_log q)) in
    let xs := f_sub q (f_lit "0.25f") in
    let r := f_div (eval_polynomial P xs) (eval_polynomial Q xs) in
    f_div g (f_add Y r)
  else erf_inv_imp2 q.

Definition erfc_inv (z : F) : F :=
  let z :=
    if f_leb z (f_of_Z 0) then f_nextafterf (f_lit "0.0f") (f_lit "2.0f")
    else if f_geb z (f_lit "2.0f") then f_nextafterf (f_lit "2.0f") (f_lit "0.0f")
    else z in
  let '(p, q, s) :=
    if f_ltb (f_lit "1.0f") z then
      let q := f_sub (f_lit "2.0f") z in
      (f_sub (f_lit "1.0f") q, q, f_of_Z (-1))
    else (f_sub (f_lit "1.0f") z, z, f_of_Z 1) in
  f_mul s (erf_inv_imp p q).

Definition kRootTwo : F := f_lit "1.4142135f".
Definition cdf (x : F) : F :=
  let diff := f_div x kRootTwo in
  f_div (f_erfc (f_neg diff)) (f_lit "2.0f").
Definition quantile (p : F) : F :=
  let z := f_mul (f_lit "2.0f") p in
  let x := erfc_inv z in
  f_mul (f_neg x) kRootTwo.

Definition truncated_value (alpha beta mean sigma u : F) : F :=
  let cdf_a := cdf alpha in
  let cdf_b := cdf beta in
  let p := f_add cdf_a (f_mul u (f_sub cdf_b cdf_a)) in
  let x := quantile p in
  f_add mean (f_mul x sigma).

(** The distribution whose constructor has computed [alpha] and [beta]. *)
Definition truncated_normal (alpha beta mean sigma : F) : Distribution F unit := {|
  new_distribution := ();
  sample _ :=
    '(u, _) ← @sample _ _ (UniformDistribution (f_lit "0.0f") (f_lit "1.0f")) ();
    mret (truncated_value alpha beta mean sigma u, ());
|}.

(** [None] is the exception of the constructor. *)
Definition new_TruncatedNormal (a b mean sigma : F) : option (Distribution F unit) :=
  if f_leb sigma (f_of_Z 0) then None
  else Some (truncated_normal (f_div (f_sub a mean) sigma) (f_div (f_sub b mean) sigma) mean sigma).
End distributions.

(** ** Generating *)

(** Between the type of the buffer and the one of the distribution. *)
Class Conversion (T F : Type) := { narrow : F → T; widen : T → F }.

Section generating.
Context {T F D : Type} `{Conversion T F} `{Distribution F D}.

(** A store into the buffer. *)
Definition store (x : nat * T) : list T → list T := <[x.1 := x.2]>.

(** The loop of [GenerateRandoms]: the stores it makes from [buf[i]] on. *)
Fixpoint generate (size i : nat) (dis : D) : M Philox (list (nat * T)) :=
  match size with
  | O => mret []
  | S size =>
      '(v, dis) ← sample dis;
      rest ← generate size (S i) dis;
      mret ((i, narrow v) :: rest)
  end.

(** [GenerateRandoms] on the part of the buffer that begins at [buf]. *)
Definition GenerateRandoms (seed skip : Z) (buf size : nat) : option (list (nat * T)) :=
  match generate size buf new_distribution (discard skip (new_Philox seed)) with
  | Ret l _ => Some l
  | _ => None
  end.

Definition ComputeTaskNumSize (total_size thread_num : Z) : Z * Z :=
  let min_parallel_size := 1024 in
  if (thread_num =? 0) || (total_size <=? min_parallel_size) then (1, total_size)
  else
    let block_size := 4 in
    let block_count := (total_size +64 block_size -64 1) / block_size in
    if block_count <=? thread_num then (block_count, block_size)
    else
      let blocks_per_thread := (block_count +64 thread_num -64 1) / thread_num in
      let task_num := (block_count +64 blocks_per_thread -64 1) / blocks_per_thread in
      let batch_size := blocks_per_thread *64 block_size in
      (task_num, batch_size).

(** The tasks from number [i] on, [n] of them: what they skip and how much they
    generate. *)
Fixpoint plan (n : nat) (task_num batch_size buf_size i skip : Z) : list (Z * Z) :=
  match n with
  | O => []
  | S n =>
      let task_size :=
        if i =? task_num -64 1 then buf_size -64 (task_num -64 1) *64 batch_size else batch_size in
      (skip, task_size) :: plan n task_num batch_size buf_size (i +64 1) (skip +64 task_size)
  end.

(** The tasks of [GenerateRandomsParallel], as the actions on the buffer they
    perform. [rd] is what [std::random_device] returns. *)
Definition GenerateRandomsParallel (input_seed rd thread_num buf_size : Z)
    : option (list (list (list T → list T))) :=
  let '(task_num, batch_size) := ComputeTaskNumSize buf_size thread_num in
  let seed := if input_seed =? 0 then rd else input_seed in
  if task_num =? 1 then
    option_map (λ l, [map store l]) (GenerateRandoms seed 0 0 (Z.to_nat buf_size))
  else
    mapM (λ '(skip, task_size),
      option_map (map store) (GenerateRandoms seed skip (Z.to_nat skip) (Z.to_nat task_size)))
      (plan (Z.to_nat task_num) task_num batch_size buf_size 0 0).
End generating.

(** ** testing/init_random.cc *)

Module InitRandom.
Section init_random.
Context {T F : Type} `{Float F} `{Conversion T F}.

(** The actions of the tasks, or [None] for an exception. *)
Definition RandomUniform (seed rd thread_num buf_size : Z) (a b : T) :
    option (list (list (list T → list T))) :=
  GenerateRandomsParallel (H0 := UniformDistribution (widen a) (widen b)) seed rd thread_num buf_size.

Definition RandomNormal (seed rd thread_num buf_size : Z) (mean sigma : T) :
    option (list (list (list T → list T))) :=
  GenerateRandomsParallel (H0 := NormalDistribution (widen mean) (widen sigma)) seed rd thread_num buf_size.

Definition TruncatedNormal (seed rd thread_num buf_size : Z) (a b mean sigma : T) :
    option (list (list (list T → list T))) :=
  d ← new_TruncatedNormal (widen a) (widen b) (widen mean) (widen sigma);
  GenerateRandomsParallel (H0 := d) seed rd thread_num buf_size.
End init_random.
End InitRandom.
