(* ===== verification/RandomTheorems.v ===== *)
(** * Properties of random numbers

    Discarding is drawing, tasks cover the buffer, and filling a buffer in parallel
    gives what filling it in one go does. *)

From S2P Require Import Prelude Philox Random ThreadPool ThreadTheorems.

(** ** The generator *)

Fixpoint draws (n : nat) : M Philox (list Z) :=
  match n with
  | O => mret []
  | S n => w ← draw; l ← draws n; mret (w :: l)
  end.

(** A generator after any calls. *)
Inductive in_use (seed seed2 : Z) : Philox → Prop :=
| use_new : in_use seed seed2 (new_Philox2 seed seed2)
| use_draw g w g' : in_use seed seed2 g → draw g = Ret w g' → in_use seed seed2 g'
| use_discard g step : in_use seed seed2 g → 0 <= step < w64 - 4 → in_use seed seed2 (discard step g).

Definition words seed seed2 (p : Z) (n : nat) : list Z := (λ i, word_at seed seed2 (p + Z.of_nat i)) <$> seq 0 n.

Lemma words_S seed seed2 p n : words seed seed2 p (S n) = word_at seed seed2 p :: words seed seed2 (p + 1) n.
Proof.
  unfold words. rewrite <- cons_seq, fmap_cons, Z.add_0_r. f_equal. rewrite <- fmap_S_seq, <- list_fmap_compose.
  apply list_fmap_ext. intros i x _. simpl. f_equal. lia.
Qed.

Lemma draws_spec seed seed2 n : ∀ p g, at_position seed seed2 p g →
  wp (draws n) g (λ l g', l = words seed seed2 p n ∧ at_position seed seed2 (p + Z.of_nat n) g').
Proof.
  induction n as [|n IH]; intros p g Hp; cbn [draws]; wp_steps.
  - by rewrite Z.add_0_r.
  - eapply wp_mono; [by apply (draw_spec seed seed2 p)|]. intros w g1 [-> H1]. wp_steps.
    eapply wp_mono; [by apply IH|]. intros l g2 [-> H2]. wp_steps.
    rewrite words_S. split; [done|]. by replace (p + Z.of_nat (S n)) with (p + 1 + Z.of_nat n) by lia.
Qed.

Lemma in_use_at seed seed2 g : 0 <= seed2 < w64 → in_use seed seed2 g → ∃ p, at_position seed seed2 p g.
Proof.
  intros Hs. induction 1 as [|g w g' _ [p Hp] E|g step _ [p Hp] Hstep].
  - exists 0. by apply new_Philox2_at.
  - exists (p + 1). pose proof (draw_spec seed seed2 p g Hp) as Hw. unfold wp in Hw. rewrite E in Hw. apply Hw.
  - exists (p + step). by apply discard_spec.
Qed.

(** C20: Discarding is drawing. At any time, [discard step] leaves a generator that
    gives the words it would have given after [step] draws. *)
Theorem discard_is_drawing seed seed2 g step n : 0 <= seed2 < w64 → in_use seed seed2 g →
  Z.of_nat step < w64 - 4 →
  ∃ l l' g1 g2 g3, draws step g = Ret l g1 ∧ draws n g1 = Ret l' g2 ∧
    draws n (discard (Z.of_nat step) g) = Ret l' g3.
Proof.
  intros Hs Hu Hstep. destruct (in_use_at seed seed2 g Hs Hu) as [p Hp].
  destruct (wp_inv _ _ _ (draws_spec seed seed2 step p g Hp)) as (l & g1 & E1 & _ & H1).
  destruct (wp_inv _ _ _ (draws_spec seed seed2 n _ g1 H1)) as (l2 & g2 & E2 & -> & _).
  pose proof (discard_spec seed seed2 p (Z.of_nat step) g Hp ltac:(lia)) as H3.
  destruct (wp_inv _ _ _ (draws_spec seed seed2 n _ _ H3)) as (l3 & g3 & E3 & -> & _).
  by exists l, (words seed seed2 (p + Z.of_nat step) n), g1, g2, g3.
Qed.

(** ** Dividing the work *)

Lemma div_up a b : 0 < b → 0 <= a → b * ((a + b - 1) / b) - b < a <= b * ((a + b - 1) / b).
Proof.
  intros Hb Ha. pose proof (Z.div_mod (a + b - 1) b ltac:(lia)). pose proof (Z.mod_pos_bound (a + b - 1) b Hb). lia.
Qed.

Lemma ComputeTaskNumSize_spec total_size thread_num : 0 < total_size < w64 - 4 → 0 <= thread_num < w32 →
  let '(task_num, batch_size) := ComputeTaskNumSize total_size thread_num in
  1 <= task_num <= Z.max 1 thread_num ∧ 0 < batch_size ∧ (task_num ≠ 1 → batch_size mod 4 = 0) ∧
  (task_num - 1) * batch_size < total_size <= task_num * batch_size.
Proof.
  intros Ht Hn. unfold ComputeTaskNumSize.
  destruct (Z.eqb_spec thread_num 0) as [->|Hn0]; simpl; [lia|].
  destruct (Z.leb_spec total_size 1024); simpl; [lia|].
  assert (total_size +64 4 -64 1 = total_size + 4 - 1) as ->.
  { rewrite (u64_small (total_size + 4)), u64_small by (unfold w64 in *; lia). done. }
  pose proof (div_up total_size 4 ltac:(lia) ltac:(lia)) as Hb.
  remember ((total_size + 4 - 1) / 4) as block_count eqn:Eb.
  assert (256 <= block_count < w64 - w32) as Hbc by (unfold w64, w32 in *; lia). clear Eb.
  destruct (Z.leb_spec block_count thread_num); [split_and!; done || lia|].
  assert (block_count +64 thread_num -64 1 = block_count + thread_num - 1) as ->.
  { rewrite (u64_small (block_count + thread_num)), u64_small by (unfold w64, w32 in *; lia). done. }
  pose proof (div_up block_count thread_num ltac:(lia) ltac:(lia)) as Hp.
  remember ((block_count + thread_num - 1) / thread_num) as blocks eqn:Ep. clear Ep.
  assert (1 <= blocks <= block_count) as Hblocks by nia.
  assert (block_count +64 blocks -64 1 = block_count + blocks - 1) as ->.
  { rewrite (u64_small (block_count + blocks)), u64_small by (unfold w64, w32 in *; lia). done. }
  pose proof (div_up block_count blocks ltac:(lia) ltac:(lia)) as Hk.
  remember ((block_count + blocks - 1) / blocks) as task_num eqn:Ek. clear Ek.
  rewrite u64_small by (unfold w64, w32 in *; lia). split_and!; try nia.
  intros _. by rewrite Z.mod_mul.
Qed.

(** Tasks cover the buffer. There are no more of them than threads, all but the
    last have the same size, a multiple of four, and the last has the rest, which is
    not empty. *)
Theorem ComputeTaskNumSize_covers total_size thread_num : 0 < total_size < w64 - 4 → 0 <= thread_num < w32 →
  let '(task_num, batch_size) := ComputeTaskNumSize total_size thread_num in
  1 <= task_num <= Z.max 1 thread_num ∧ 0 < batch_size ∧ (task_num ≠ 1 → batch_size mod 4 = 0) ∧
  (task_num - 1) * batch_size < total_size <= task_num * batch_size.
Proof. apply ComputeTaskNumSize_spec. Qed.

(** ** Distributions *)

(** What a distribution promises: there is a value for every position of the stream,
    and from a multiple of four on a new distribution gives the values in order. *)
Class DistributionLaws {F D : Type} (dist : Distribution F D) (seed : Z) := {
  value_at : Z → F;
  ready : Z → D → Philox → Prop;
  ready_new p g : p mod 4 = 0 → at_position seed seed p g → ready p new_distribution g;
  ready_sample p d g : ready p d g →
    wp (sample d) g (λ r g', r.1 = value_at p ∧ ready (p + 1) r.2 g');
}.

#[export] Program Instance uniform_laws {F} `{Float F} (a b : F) seed :
    DistributionLaws (UniformDistribution a b) seed := {|
  value_at p :=
    let s := f_div_ld (f_of_Z (u32 (word_at seed seed p - 0))) (4294967295 - 0 + 1) in
    f_add (f_mul (f_sub b a) (if f_geb s (f_of_Z 1) then f_nextafter (f_of_Z 1) (f_of_Z 0) else s)) a;
  ready p _ g := at_position seed seed p g;
|}.
Next Obligation. done. Qed.
Next Obligation.
  intros F H a b seed p d g Hp. unfold sample, UniformDistribution. apply wp_bind.
  eapply wp_mono; [by apply (draw_spec seed seed p)|]. intros w g' [-> Hg]. by wp_steps.
Qed.

(** A pair of words gives two values. *)
#[export] Program Instance normal_laws {F} `{Float F} (mean sigma : F) seed :
    DistributionLaws (NormalDistribution mean sigma) seed := {|
  value_at p :=
    if p mod 2 =? 0 then (normal_pair mean sigma (word_at seed seed p) (word_at seed seed (p + 1))).1
    else (normal_pair mean sigma (word_at seed seed (p - 1)) (word_at seed seed p)).2;
  ready p d g :=
    if p mod 2 =? 0 then has_next_ d = false ∧ at_position seed seed p g
    else has_next_ d = true ∧ at_position seed seed (p + 1) g ∧
      next_ d = (normal_pair mean sigma (word_at seed seed (p - 1)) (word_at seed seed p)).2;
|}.
Next Obligation.
  intros F H mean sigma seed p g Hp Hg. cbv beta. assert (p mod 2 = 0) as -> by (Z.to_euclidean_division_equations; lia). done.
Qed.
Next Obligation.
  intros F H mean sigma seed p d g Hr. cbv beta in *. unfold sample, NormalDistribution.
  destruct (Z.eqb_spec (p mod 2) 0) as [E|E].
  - destruct Hr as [-> Hp]. assert ((p + 1) mod 2 = 1) as -> by (Z.to_euclidean_division_equations; lia).
    wp_steps. eapply wp_mono; [by apply (draw_spec seed seed p)|]. intros w1 g1 [-> H1]. wp_steps.
    eapply wp_mono; [by apply (draw_spec seed seed (p + 1))|]. intros w2 g2 [-> H2].
    rewrite (surjective_pairing (normal_pair _ _ _ _)). wp_steps. simpl.
    rewrite Z.add_simpl_r. by replace (p + 1 + 1) with (p + 1 + 1) by lia.
  - destruct Hr as (-> & Hp & Hn). assert ((p + 1) mod 2 = 0) as -> by (Z.to_euclidean_division_equations; lia).
    wp_steps. simpl. by rewrite Hn.
Qed.

#[export] Program Instance truncated_laws {F} `{Float F} (alpha beta mean sigma : F) seed :
    DistributionLaws (truncated_normal alpha beta mean sigma) seed := {|
  value_at p := truncated_value alpha beta mean sigma
    (value_at (DistributionLaws := uniform_laws (f_lit "0.0f") (f_lit "1.0f") seed) p);
  ready p _ g := at_position seed seed p g;
|}.
Next Obligation. done. Qed.
Next Obligation.
  intros F H alpha beta mean sigma seed p d g Hp. unfold sample at 1, truncated_normal. apply wp_bind.
  eapply wp_mono; [by apply (ready_sample (DistributionLaws := uniform_laws (f_lit "0.0f") (f_lit "1.0f") seed) p)|].
  intros [u d'] g' [Hu Hg]. simpl in Hu. wp_steps. split; [|exact Hg]. simpl. by rewrite Hu.
Qed.

#[export] Program Instance constant_laws {F} (v : F) seed :
    DistributionLaws (ConstantDistribution v) seed := {|
  value_at _ := v; ready _ _ _ := True;
|}.
Next Obligation. done. Qed.
Next Obligation. done. Qed.

(** ** Parallel and sequential generation *)

Section parallel.
Context {T F D : Type} `{Conversion T F} (dist : Distribution F D) (seed : Z) `{!DistributionLaws dist seed}.
Existing Instance dist.

(** The store of the value that belongs to an element of the buffer. *)
Definition own_store (x : nat) : nat * T := (x, narrow (value_at (Z.of_nat x))).

Lemma generate_spec size : ∀ i d g, ready (Z.of_nat i) d g →
  wp (generate size i d) g (λ l _, l = own_store <$> seq i size).
Proof.
  induction size as [|size IH]; intros i d g Hr; simpl; wp_steps; [done|].
  eapply wp_mono; [by apply ready_sample|]. intros [v d'] g' [Hv Hr']. simpl in *. subst v. wp_steps.
  replace (Z.of_nat i + 1) with (Z.of_nat (S i)) in Hr' by lia.
  eapply wp_mono; [by apply IH|]. intros l g2 ->. by wp_steps.
Qed.

Lemma GenerateRandoms_spec skip size : 0 <= seed < w64 → 0 <= skip < w64 - 4 → skip mod 4 = 0 →
  GenerateRandoms seed skip (Z.to_nat skip) size = Some (own_store <$> seq (Z.to_nat skip) size).
Proof.
  intros Hs Hk H4. pose proof (new_Philox2_at seed seed Hs) as H0. apply (discard_spec seed seed 0 skip) in H0; [|done].
  apply ready_new in H0; [|by rewrite Z.add_0_l]. rewrite Z.add_0_l, <- (Z2Nat.id skip) in H0 by lia.
  destruct (wp_inv _ _ _ (generate_spec size _ _ _ H0)) as (l & g & E & ->).
  unfold GenerateRandoms. rewrite Z2Nat.id in E by lia.
  change (new_Philox seed) with (new_Philox2 seed seed). by rewrite E.
Qed.

Lemma plan_spec task_num batch total : 0 < batch → (task_num - 1) * batch < total → total < w64 - 4 →
  ∀ n i, i + Z.of_nat n = task_num → 0 <= i →
  plan n task_num batch total i (i * batch) =
    (λ j, (j * batch, if j =? task_num - 1 then total - (task_num - 1) * batch else batch)) <$> seqZ i (Z.of_nat n).
Proof.
  intros Hb Ht Hw. induction n as [|n IH]; intros i Hi H0; [by rewrite seqZ_nil|].
  rewrite seqZ_cons by lia. simpl plan. rewrite fmap_cons.
  assert (i <= task_num - 1) as Hle by lia. assert (i * batch <= (task_num - 1) * batch) as Hib by nia.
  assert (task_num -64 1 = task_num - 1) as Et by (apply u64_small; nia).
  rewrite Et. destruct (Z.eqb_spec i (task_num - 1)) as [->|Hne].
  - assert (n = 0%nat) as -> by lia. simpl plan. rewrite (u64_small ((task_num - 1) * batch)) by nia.
    rewrite u64_small by nia. by rewrite seqZ_nil.
  - replace (Z.of_nat (S n)) with (Z.succ (Z.of_nat n)) by lia. rewrite Z.pred_succ. f_equal.
    assert ((i + 1) * batch <= (task_num - 1) * batch) by nia.
    rewrite (u64_small (i + 1)) by nia. rewrite u64_small by nia.
    replace (i * batch + batch) with ((i + 1) * batch) by lia. rewrite IH by lia. by rewrite Z.add_1_r.
Qed.

Lemma mapM_all {B C} (f : B → option C) (g : B → C) l :
  (∀ x, x ∈ l → f x = Some (g x)) → mapM f l = Some (g <$> l).
Proof.
  induction l as [|x l IH]; intros Hf; [done|]. simpl. rewrite Hf by left. simpl.
  rewrite IH; [done|]. intros y Hy. apply Hf. by right.
Qed.

(** Tasks that store the values of the elements they list. *)
Definition tasks_on (xss : list (list nat)) : list (list (list T → list T)) :=
  (λ xs, map store (own_store <$> xs)) <$> xss.

(** What elements the tasks of a buffer of [n] elements list. *)
Definition covers (n : nat) (xss : list (list nat)) : Prop := ∀ x, x ∈ mjoin xss ↔ (x < n)%nat.

Lemma pieces_cover task_num batch total : 0 < batch → 0 < total → 1 <= task_num →
  (task_num - 1) * batch < total <= task_num * batch →
  covers (Z.to_nat total) ((λ j, seq (Z.to_nat (j * batch))
    (Z.to_nat (if j =? task_num - 1 then total - (task_num - 1) * batch else batch))) <$> seqZ 0 task_num).
Proof.
  intros Hb Ht H1 [Hlo Hhi] x. rewrite list_elem_of_join. split.
  - intros (l & Hx & (j & -> & Hj%elem_of_seqZ)%list_elem_of_fmap). apply elem_of_seq in Hx.
    destruct (Z.eqb_spec j (task_num - 1)) as [E|]; [rewrite E in *; lia|].
    assert ((j + 1) * batch <= (task_num - 1) * batch) by nia. lia.
  - intros Hx. assert (0 <= Z.of_nat x / batch) by (apply Z.div_pos; lia).
    pose proof (Z.div_mod (Z.of_nat x) batch ltac:(lia)) as Edm. pose proof (Z.mod_pos_bound (Z.of_nat x) batch Hb).
    assert (Z.of_nat x / batch < task_num) as Hj by (apply Z.div_lt_upper_bound; nia).
    set (q := Z.of_nat x / batch) in *. eexists. split; [|apply list_elem_of_fmap_2, elem_of_seqZ; split; [done|lia]].
    apply elem_of_seq. cbv beta. destruct (Z.eqb_spec q (task_num - 1)) as [E|]; [|nia].
    rewrite E in *. nia.
Qed.

Lemma tasks_cover rd thread_num total input_seed : 0 <= seed < w64 →
  seed = (if input_seed =? 0 then rd else input_seed) →
  0 < total < w64 - 4 → 0 <= thread_num < w32 →
  ∃ xss, GenerateRandomsParallel input_seed rd thread_num total = Some (tasks_on xss) ∧
    (0 < length xss <= Z.to_nat (Z.max 1 thread_num))%nat ∧ covers (Z.to_nat total) xss.
Proof.
  intros Hs Es Ht Hn. unfold GenerateRandomsParallel. rewrite <- Es.
  pose proof (ComputeTaskNumSize_spec total thread_num Ht Hn) as Hc.
  destruct (ComputeTaskNumSize total thread_num) as [task_num batch]. destruct Hc as (H1 & Hb & H4 & Hlo & Hhi).
  destruct (Z.eqb_spec task_num 1) as [E1|E1].
  - exists [seq 0 (Z.to_nat total)]. change 0%nat with (Z.to_nat 0) at 1.
    rewrite GenerateRandoms_spec by (done || unfold w64; lia). split; [done|]. split; [simpl; lia|].
    intros x. simpl. rewrite app_nil_r, elem_of_seq. lia.
  - specialize (H4 E1). exists ((λ j, seq (Z.to_nat (j * batch))
      (Z.to_nat (if j =? task_num - 1 then total - (task_num - 1) * batch else batch))) <$> seqZ 0 task_num).
    split; [|split; [rewrite length_fmap, length_seqZ; lia|by apply pieces_cover; lia]].
    pose proof (plan_spec task_num batch total Hb Hlo ltac:(lia) (Z.to_nat task_num) 0 ltac:(lia) ltac:(lia)) as Ep.
    rewrite Z.mul_0_l in Ep. rewrite Ep, Z2Nat.id by lia.
    rewrite (mapM_all _ (λ '(skip, size), map store (own_store <$> seq (Z.to_nat skip) (Z.to_nat size)))).
    + unfold tasks_on. by rewrite <- !list_fmap_compose.
    + intros [skip size] Hin. apply list_elem_of_fmap in Hin as (j & [= -> ->] & Hj%elem_of_seqZ).
      assert (j * batch <= (task_num - 1) * batch) by nia.
      rewrite GenerateRandoms_spec; [done|done|split; nia|].
      by rewrite Z.mul_mod, H4, Z.mul_0_r by lia.
Qed.

(** ** The buffer *)

(** The element that an action stores. *)
Definition target (xss : list (list nat)) (e : nat * nat) : option nat := xss !! e.1 ≫= λ xs, xs !! e.2.

Lemma apply_tasks_on xss m e : apply_action (tasks_on xss) m e =
  match target xss e with Some x => store (own_store x) m | None => m end.
Proof.
  unfold apply_action, target, tasks_on. rewrite list_lookup_fmap. destruct (xss !! e.1) as [xs|]; [|done]. simpl.
  change (map (store (T := T))) with (fmap (M := list) (store (T := T))). rewrite !list_lookup_fmap.
  by destruct (xs !! e.2).
Qed.

Lemma replay_lookup xss m perf :
  length (foldl (apply_action (tasks_on xss)) m perf) = length m ∧
  ∀ x, (x < length m)%nat → foldl (apply_action (tasks_on xss)) m perf !! x =
    if decide (x ∈ omap (target xss) perf) then Some (narrow (value_at (Z.of_nat x))) else m !! x.
Proof.
  induction perf as [|e perf IH] using rev_ind.
  - split; [done|]. intros x Hx. rewrite decide_False; [done|]. apply not_elem_of_nil.
  - rewrite foldl_app. simpl. destruct IH as [IHl IH]. rewrite apply_tasks_on. rewrite omap_app. simpl.
    destruct (target xss e) as [y|] eqn:Ey; simpl.
    + unfold store. simpl. split; [by rewrite length_insert|]. intros x Hx. destruct (decide (y = x)) as [->|Hne].
      * rewrite list_lookup_insert_eq by (by rewrite IHl). rewrite decide_True; [done|]. set_solver.
      * rewrite list_lookup_insert_ne, IH by done. repeat case_decide; try done; set_solver.
    + rewrite app_nil_r. by split.
Qed.

(** A buffer of which the first [n] elements have their values. *)
Definition filled (n : nat) (buf : list T) : list T := ((λ x, narrow (value_at (Z.of_nat x))) <$> seq 0 n) ++ drop n buf.

Lemma filled_lookup n buf x : (n <= length buf)%nat →
  filled n buf !! x = if decide (x < n)%nat then Some (narrow (value_at (Z.of_nat x))) else buf !! x.
Proof.
  intros Hn. unfold filled. case_decide.
  - rewrite lookup_app_l by (rewrite length_fmap, length_seq; lia). by rewrite list_lookup_fmap, lookup_seq_lt.
  - rewrite lookup_app_r by (rewrite length_fmap, length_seq; lia). rewrite length_fmap, length_seq, lookup_drop.
    f_equal. lia.
Qed.

Lemma replay_filled n xss buf perf : covers n xss → (n <= length buf)%nat →
  (∀ k xs, xss !! k = Some xs → (filter (λ e, e.1 = k) perf).*2 = seq 0 (length xs)) →
  foldl (apply_action (tasks_on xss)) buf perf = filled n buf.
Proof.
  intros Hc Hn Hall. destruct (replay_lookup xss buf perf) as [Hl Hx]. apply list_eq. intros x.
  rewrite filled_lookup by done. destruct (decide (x < length buf)%nat) as [Hlt|Hge]; cycle 1.
  { rewrite decide_False by lia. rewrite !lookup_ge_None_2 by lia. done. }
  rewrite Hx by done. apply decide_ext. rewrite list_elem_of_omap. split.
  - intros (e & _ & He). apply Hc, list_elem_of_join. unfold target in He.
    destruct (xss !! e.1) as [xs|] eqn:Hk; [|done]. exists xs. split; by eapply list_elem_of_lookup_2.
  - intros (xs & Hin & [k Hk]%list_elem_of_lookup)%Hc%list_elem_of_join. apply list_elem_of_lookup in Hin as [i Hi].
    exists (k, i). split; [|unfold target; simpl; by rewrite Hk].
    assert (i ∈ (filter (λ e, e.1 = k) perf).*2) as Hd.
    { rewrite (Hall k xs Hk), elem_of_seq. apply lookup_lt_Some in Hi. lia. }
    apply list_elem_of_fmap in Hd as ([k' i'] & -> & [E He]%list_elem_of_filter). simpl in *. by subst k'.
Qed.

(** The stores of one task after another. *)
Lemma stores_filled n xs buf : (n <= length buf)%nat → (∀ x, x ∈ xs ↔ (x < n)%nat) →
  foldl (λ m st, store st m) buf (own_store <$> xs) = filled n buf.
Proof.
  intros Hn Hxs. assert (∀ ys, length (foldl (λ m st, store st m) buf (own_store <$> ys)) = length buf ∧
    ∀ x, (x < length buf)%nat → foldl (λ m st, store st m) buf (own_store <$> ys) !! x =
      if decide (x ∈ ys) then Some (narrow (value_at (Z.of_nat x))) else buf !! x) as Hx.
  { clear Hxs xs. induction ys as [|y ys [IHl IH]] using rev_ind.
    - split; [done|]. intros x Hx. rewrite decide_False; [done|]. apply not_elem_of_nil.
    - rewrite fmap_app, foldl_app. simpl. unfold store at 1 3. simpl. split; [by rewrite length_insert|].
      intros x Hx. destruct (decide (y = x)) as [->|Hne].
      + rewrite list_lookup_insert_eq by (by rewrite IHl). rewrite decide_True; [done|]. set_solver.
      + rewrite list_lookup_insert_ne, IH by done. repeat case_decide; try done; set_solver. }
  destruct (Hx xs) as [Hl Hlook]. apply list_eq. intros x. rewrite filled_lookup by done.
  destruct (decide (x < length buf)%nat) as [Hlt|Hge].
  - rewrite Hlook by done. by apply decide_ext.
  - rewrite decide_False by lia. by rewrite !lookup_ge_None_2 by lia.
Qed.

(** A pool whose threads have nothing to do. *)
Definition idle (s : Pool (list T)) : Prop :=
  caller s = Returned ∧ ∀ j w, workers s !! j = Some w → task w = None ∧ ∀ k i, pc w ≠ Running k i.

Lemma idle_step ts t s s' : idle s → thread_step ts t s = Some s' → idle s' ∧ memory s' = memory s.
Proof.
  intros [Hc Hw] E. assert (∀ j w w', workers s !! j = Some w → task w' = None → (∀ k i, pc w' ≠ Running k i) →
    idle (put_worker j w' s)) as Hput.
  { intros j w w' Hj Ht Hp. split; [done|]. intros j0 v Hj0.
    apply lookup_put in Hj0 as [[-> ->]|[_ Hj0]]; [done|by eapply Hw]. }
  destruct t as [|j|j]; simpl in E.
  - unfold caller_step in E. by rewrite Hc in E.
  - unfold worker_step in E. destruct (workers s !! j) as [w|] eqn:Hj; [|done]. simpl in E.
    destruct (Hw j w Hj) as [Ht Hp]. rewrite Ht in E.
    destruct (pc w) eqn:Hpc; try done; try (by destruct (Hp k i));
      repeat match goal with E : (if ?b then _ else _) = Some _ |- _ => destruct b end; try done;
      injection E as <-; (split; [|done]); eapply Hput; (done || simpl; by repeat case_match).
  - unfold spurious_step in E. destruct (workers s !! j) as [w|] eqn:Hj; [|done]. simpl in E.
    destruct (Hw j w Hj) as [Ht Hp]. destruct (pc w) eqn:Hpc; try done. injection E as <-.
    split; [|done]. by eapply Hput; [done| |].
Qed.

Lemma idle_runs ts s s' : idle s → runs ts s s' → memory s' = memory s.
Proof.
  intros Hi Hr. assert (idle s' ∧ memory s' = memory s) as [_ ?]; [|done].
  induction Hr as [|t s1 s2 _ [IHi IHm] E]; [done|]. destruct (idle_step _ _ _ _ IHi E) as [? E2]. by rewrite E2.
Qed.

Lemma actions_stores (l : list (nat * T)) buf :
  foldl (λ m a, a m) buf (map store l) = foldl (λ m st, store st m) buf l.
Proof. revert buf. induction l as [|st l IH]; intros buf; simpl; [done|apply IH]. Qed.

(** C17: Parallel generation is sequential generation. Whatever the number of threads
    and however they are scheduled, when [SyncRun] has returned from the tasks of
    [GenerateRandomsParallel] the buffer holds what [GenerateRandoms] puts into it in
    one go. *)
Theorem parallel_is_sequential input_seed rd thread_num total thread_num0 s :
  0 <= seed < w64 → seed = (if input_seed =? 0 then rd else input_seed) →
  0 < total < w64 - 4 → 0 <= thread_num < w32 → total <= Z.of_nat (length (memory s)) →
  between_calls thread_num0 s → idle s →
  ∃ ts l, GenerateRandomsParallel input_seed rd thread_num total = Some ts ∧
    GenerateRandoms seed 0 0 (Z.to_nat total) = Some l ∧
    ∀ s', runs ts (SyncRun ts (Z.to_nat thread_num) thread_num0 s) s' → caller s' = Returned →
      memory s' = foldl (λ m st, store st m) (memory s) l.
Proof.
  intros Hs Es Ht Hn Hlen Hb Hi.
  destruct (tasks_cover rd thread_num total input_seed Hs Es Ht Hn) as (xss & E & Hpos & Hc).
  exists (tasks_on xss), (own_store <$> seq 0 (Z.to_nat total)). split; [done|].
  split; [change 0%nat with (Z.to_nat 0) at 1; by apply GenerateRandoms_spec; unfold w64; try lia|].
  rewrite (stores_filled (Z.to_nat total)); [|lia|intros x; rewrite elem_of_seq; lia]. intros s' Hr Hret.
  destruct (decide (length xss = 1)%nat) as [E1|E1].
  - destruct xss as [|xs [|]]; simpl in E1; try done.
    assert (idle (SyncRun (tasks_on [xs]) (Z.to_nat thread_num) thread_num0 s)) as Hi1
      by (split; [done|apply (proj2 Hi)]).
    rewrite (idle_runs _ _ _ Hi1 Hr). unfold tasks_on. cbn -[foldl].
    rewrite actions_stores. apply (stores_filled (Z.to_nat total)); [lia|]. intros x. rewrite <- (Hc x). simpl.
    by rewrite app_nil_r.
  - assert (1 < length (tasks_on xss))%nat as Hmany by (unfold tasks_on; rewrite length_fmap; lia).
    assert (0 < Z.to_nat thread_num)%nat as Hthr.
    { unfold tasks_on in Hmany. rewrite length_fmap in Hmany. lia. }
    pose proof (start_inv (tasks_on xss) (Z.to_nat thread_num) thread_num0 s Hb Hthr Hmany) as H0.
    pose proof (runs_inv _ _ _ _ H0 Hr) as Hinv. rewrite (inv_memory _ _ _ Hinv).
    apply (replay_filled _ _ _ _ Hc); [lia|]. intros k xs Hk.
    assert (tasks_on xss !! k = Some (map store (own_store <$> xs))) as Hk'.
    { unfold tasks_on. by rewrite list_lookup_fmap, Hk. }
    change ((filter (λ e, e.1 = k) (performed s')).*2) with (done_of s' k).
    rewrite (returned_done _ _ _ _ Hinv Hret) by (by eapply lookup_lt_Some).
    unfold all_of. rewrite Hk'. simpl. by rewrite length_map, length_fmap.
Qed.
End parallel.

(** ** At work *)

Example discard_is_drawing_witness :
  ∃ l l' g1 g2 g3, draws 5 (discard 6 (new_Philox2 7 8)) = Ret l g1 ∧ draws 9 g1 = Ret l' g2 ∧
    draws 9 (discard (Z.of_nat 5) (discard 6 (new_Philox2 7 8))) = Ret l' g3.
Proof.
  apply (discard_is_drawing 7 8 (discard 6 (new_Philox2 7 8)) 5 9); [done| |done].
  apply use_discard; [apply use_new|done].
Defined.

Example ComputeTaskNumSize_covers_witness :
  let '(task_num, batch_size) := ComputeTaskNumSize 5001 3 in
  1 <= task_num <= Z.max 1 3 ∧ 0 < batch_size ∧ (task_num ≠ 1 → batch_size mod 4 = 0) ∧
  (task_num - 1) * batch_size < 5001 <= task_num * batch_size.
Proof. apply (ComputeTaskNumSize_covers 5001 3); done. Defined.

(** Numbers with which distributions can be run: integers. *)
#[local] Instance integers : Float Z := {|
  f_of_Z z := z; f_lit _ := 1; f_div_ld a n := a / n; f_of_bits z := z;
  f_add := Z.add; f_sub := Z.sub; f_mul := Z.mul; f_geb := Z.geb; f_leb := Z.leb; f_ltb := Z.ltb;
  f_div := Z.div; f_neg := Z.opp; f_nextafter a _ := a; f_nextafterf a _ := a; f_erfc a := a; f_sqrt := Z.sqrt; f_log := Z.log2; f_sin a := a; f_cos a := a;
|}.

#[local] Instance same : Conversion Z Z := {| narrow z := z; widen z := z |}.

Definition buffer : Pool (list Z) := MkPool false [] Returned false 0 (replicate 1200 0) [].

Example parallel_is_sequential_witness :
  ∃ ts l, GenerateRandomsParallel (H0 := NormalDistribution 10 3) 77 0 2 1200 = Some ts ∧
    GenerateRandoms (H0 := NormalDistribution 10 3) 77 0 0 (Z.to_nat 1200) = Some l ∧
    ∀ s', runs ts (SyncRun ts (Z.to_nat 2) 0 buffer) s' → caller s' = Returned →
      memory s' = foldl (λ m st, store st m) (memory buffer) l.
Proof.
  apply (parallel_is_sequential (NormalDistribution 10 3) 77 77 0 2 1200 0 buffer);
    [done|done|done|done|done|by right|done].
Defined.
