(* ===== verification/RobinHood.v ===== *)
(** * The hash map

    [RobinHoodHashMap] of libc/map.h: a circular array of entries, each with its
    distance from the slot its key hashes to. *)

From S2P Require Import Prelude.

(** [std::hash]. *)
Class Hash (K : Type) := hasher : K → Z.

Record Entry (K V : Type) := MkEntry { key : K; value : V; probe_distance : Z; occupied : bool }.
Arguments MkEntry {K V}. Arguments key {K V}. Arguments value {K V}.
Arguments probe_distance {K V}. Arguments occupied {K V}.

Record RobinHoodHashMap (K V : Type) := MkMap { table : list (Entry K V); capacity_ : Z; size_ : Z }.
Arguments MkMap {K V}. Arguments table {K V}. Arguments capacity_ {K V}. Arguments size_ {K V}.

Section map.
Context {K V : Type} `{EqDecision K, Inhabited K, Inhabited V, Hash K}.
Local Abbreviation R := (M (RobinHoodHashMap K V)).
Implicit Types e : Entry K V.

(** [Entry::Entry]. *)
Definition free_Entry : Entry K V := MkEntry inhabitant inhabitant (-1) false.
Definition new_Entry (k : K) (v : V) (d : Z) : Entry K V := MkEntry k v d true.

Definition set_value (v : V) e : Entry K V := MkEntry (key e) v (probe_distance e) (occupied e).
Definition set_probe (d : Z) e : Entry K V := MkEntry (key e) (value e) d (occupied e).
Definition set_occupied (b : bool) e : Entry K V := MkEntry (key e) (value e) (probe_distance e) b.

(** [table[idx]], read and written. *)
Definition slot (idx : Z) : R (Entry K V) := t ← gets table; deref (t !! Z.to_nat idx).
Definition set_table (t : list (Entry K V)) (s : RobinHoodHashMap K V) : RobinHoodHashMap K V :=
  MkMap t (capacity_ s) (size_ s).
Definition put (idx : Z) e : R unit :=
  slot idx;; modify (λ s, set_table (<[Z.to_nat idx := e]> (table s)) s).
Definition set_size (n : Z) (s : RobinHoodHashMap K V) : RobinHoodHashMap K V :=
  MkMap (table s) (capacity_ s) n.

(** [++] of an [int32_t]. *)
Definition increment (z : Z) : R Z := if z <? 2147483647 then mret (z + 1) else undef.

Definition hash (k : K) (s : RobinHoodHashMap K V) : Z := hasher k mod capacity_ s.
Definition next_index (idx : Z) (s : RobinHoodHashMap K V) : Z := (idx +64 1) mod capacity_ s.

(** [load_factor() >= max_load_factor_]: for capacities up to [2^51] the quotient of
    the doubles is not rounded to 0.75. *)
Definition load_reached (s : RobinHoodHashMap K V) : bool := 3 * capacity_ s <=? 4 * size_ s.

(** ** Inserting *)

Fixpoint insert_loop (fuel : nat) (k : K) (v : V) (new_entry : Entry K V) (idx current_probe : Z) : R unit :=
  match fuel with
  | O => undef
  | S fuel =>
      e ← slot idx;
      if negb (occupied e) then
        put idx new_entry;;
        modify (λ s, set_size (size_ s +64 1) s)
      else if decide (key e = k) then put idx (set_value v e)
      else
        '(new_entry, current_probe) ←
          (if probe_distance e <? current_probe then
             put idx new_entry;;
             put idx (set_probe current_probe new_entry);;
             mret (e, probe_distance new_entry)
           else mret (new_entry, current_probe));
        idx ← gets (next_index idx);
        current_probe ← increment current_probe;
        insert_loop fuel k v (set_probe current_probe new_entry) idx current_probe
  end.

(** [resize_table], with the function that inserts an entry. *)
Definition resize_table (insert : K → V → R unit) (new_capacity : Z) : R unit :=
  old ← gets id;
  if new_capacity <=? capacity_ old then mret ()
  else
    modify (λ _, MkMap (replicate (Z.to_nat new_capacity) free_Entry) new_capacity 0);;
    forM (table old) (λ _ e, whenM (occupied e) (insert (key e) (value e))) ().

(** [insert] and [resize_table] call each other; [depth] bounds how often. *)
Fixpoint insert_nested (depth : nat) (k : K) (v : V) : R unit :=
  match depth with
  | O => undef
  | S depth =>
      s ← gets id;
      whenM (load_reached s) (resize_table (insert_nested depth) (capacity_ s *64 2));;
      s ← gets id;
      insert_loop (Z.to_nat (capacity_ s)) k v (new_Entry k v 0) (hash k s) 0
  end.

Definition insert : K → V → R unit := insert_nested 2.

(** [RobinHoodHashMap::RobinHoodHashMap]. *)
Definition construct (initial_capacity : Z) : R unit :=
  if initial_capacity =? 0 then throw "Initial capacity must be positive."
  else resize_table insert initial_capacity.
Definition unconstructed : RobinHoodHashMap K V := MkMap [] 0 0.

(** ** Finding *)

Fixpoint find_loop (fuel : nat) (k : K) (idx current_probe : Z) : R (option Z) :=
  match fuel with
  | O => undef
  | S fuel =>
      e ← slot idx;
      if negb (occupied e) then mret None
      else if decide (key e = k) then mret (Some idx)
      else if probe_distance e <? current_probe then mret None
      else
        idx ← gets (next_index idx);
        current_probe ← increment current_probe;
        find_loop fuel k idx current_probe
  end.

(** The pointer that [find] returns is the index of its slot. *)
Definition find (k : K) : R (option Z) :=
  s ← gets id;
  find_loop (S (Z.to_nat (capacity_ s))) k (hash k s) 0.

(** ** Erasing *)

(** The loop that moves the following entries back. *)
Fixpoint shift_back (fuel : nat) (idx next_idx : Z) : R unit :=
  match fuel with
  | O => undef
  | S fuel =>
      e ← slot next_idx;
      if occupied e && (0 <? probe_distance e) then
        put idx e;;
        e ← slot idx;
        put idx (set_probe (probe_distance e - 1) e);;
        e ← slot next_idx;
        put next_idx (set_occupied false e);;
        next ← gets (next_index next_idx);
        shift_back fuel next_idx next
      else mret ()
  end.

Fixpoint erase_loop (fuel : nat) (k : K) (idx current_probe : Z) : R bool :=
  match fuel with
  | O => undef
  | S fuel =>
      e ← slot idx;
      if negb (occupied e) then mret false
      else if decide (key e = k) then
        put idx (set_occupied false e);;
        modify (λ s, set_size (size_ s -64 1) s);;
        next_idx ← gets (next_index idx);
        s ← gets id;
        shift_back (S (Z.to_nat (capacity_ s * capacity_ s))) idx next_idx;;
        mret true
      else if probe_distance e <? current_probe then mret false
      else
        idx ← gets (next_index idx);
        current_probe ← increment current_probe;
        erase_loop fuel k idx current_probe
  end.

Definition erase (k : K) : R bool :=
  s ← gets id;
  erase_loop (S (Z.to_nat (capacity_ s))) k (hash k s) 0.

Definition map_size : R Z := gets size_.
Definition map_capacity : R Z := gets capacity_.
End map.
