(* ===== verification/RobinHoodMap.v ===== *)
(** * The hash map is a map

    When a table represents a map, and that inserting, finding and erasing keep to
    it. *)

From S2P Require Import Prelude RobinHood.

(** ** Circular distances *)

Section circle.
Context (cap : Z) (Hcap : 0 < cap < w64).

(** How far slot [p] is from slot [h], going up. *)
Definition dist (h p : Z) : Z := (p - h) mod cap.
Definition following (p : Z) : Z := (p +64 1) mod cap.

Lemma dist_range h p : 0 <= dist h p < cap.
Proof. apply Z.mod_pos_bound. lia. Qed.

Lemma following_range p : 0 <= following p < cap.
Proof. apply Z.mod_pos_bound. lia. Qed.

Lemma dist_self p : dist p p = 0.
Proof. unfold dist. rewrite Z.sub_diag. apply Z.mod_0_l. lia. Qed.

Lemma following_mod p : 0 <= p < cap → following p = (p + 1) mod cap.
Proof.
  intros Hp. unfold following. by rewrite u64_small by lia.
Qed.

Lemma dist_following h p : 0 <= p < cap → dist h p < cap - 1 → dist h (following p) = dist h p + 1.
Proof.
  intros Hp Hd. rewrite following_mod by done. unfold dist in *. pose proof (Z.mod_pos_bound (p - h) cap ltac:(lia)).
  rewrite Zminus_mod_idemp_l. replace (p + 1 - h) with (p - h + 1) by lia.
  rewrite <- Zplus_mod_idemp_l. by apply Z.mod_small; lia.
Qed.

Lemma dist_before h p : 0 <= p < cap → 0 < dist h (following p) → dist h p = dist h (following p) - 1.
Proof.
  intros Hp Hd. pose proof (dist_range h p). destruct (decide (dist h p = cap - 1)) as [E|].
  - exfalso. unfold dist in *. rewrite following_mod in Hd by done. rewrite Zminus_mod_idemp_l in Hd.
    replace (p + 1 - h) with (p - h + 1) in Hd by lia.
    rewrite <- Zplus_mod_idemp_l, E, Z.sub_add, Z.mod_same in Hd; lia.
  - rewrite dist_following; lia.
Qed.

Lemma dist_inj h p q : 0 <= p < cap → 0 <= q < cap → dist h p = dist h q → p = q.
Proof.
  intros Hp Hq E. unfold dist in E.
  assert ((p - q) mod cap = 0) as E0.
  { replace (p - q) with ((p - h) - (q - h)) by lia. rewrite Zminus_mod, E, Z.sub_diag. apply Z.mod_0_l. lia. }
  apply Z.mod_divide in E0 as [k Hk]; [|lia]. assert (k = 0) by nia. lia.
Qed.

End circle.

(** ** Tables *)

Section tables.
Context {K V : Type} `{Countable K, Inhabited K, Inhabited V, Hash K}.
Implicit Types (e f : Entry K V) (t : list (Entry K V)) (m : gmap K V) (s : RobinHoodHashMap K V).

Definition kv e : list (K * V) := if occupied e then [(key e, value e)] else [].
Definition kvs t : list (K * V) := t ≫= kv.

Lemma kvs_insert t i e f : t !! i = Some f → kv f ++ kvs (<[i := e]> t) ≡ₚ kv e ++ kvs t.
Proof.
  intros Hi. pose proof (lookup_lt_Some _ _ _ Hi).
  rewrite insert_take_drop by done. rewrite <- (take_drop_middle t i f Hi) at 3.
  unfold kvs. rewrite !bind_app, !bind_cons. solve_Permutation.
Qed.

Lemma kvs_elem t i e : t !! i = Some e → occupied e = true → (key e, value e) ∈ kvs t.
Proof.
  intros Hi Ho. unfold kvs. apply list_elem_of_bind. exists e. unfold kv. rewrite Ho. split; [by left|].
  by eapply list_elem_of_lookup_2.
Qed.

Lemma kvs_elem_inv t k v : (k, v) ∈ kvs t → ∃ i e, t !! i = Some e ∧ occupied e = true ∧ key e = k ∧ value e = v.
Proof.
  intros (e & Hkv & [i Hi]%list_elem_of_lookup)%list_elem_of_bind. unfold kv in Hkv. exists i, e.
  destruct (occupied e); [|by apply not_elem_of_nil in Hkv]. apply list_elem_of_singleton in Hkv as [= -> ->]. done.
Qed.

Lemma kvs_unique t i j e f : NoDup (kvs t).*1 → t !! i = Some e → t !! j = Some f →
  occupied e = true → occupied f = true → key e = key f → i = j.
Proof.
  intros Hnd Hi Hj He Hf Hk. destruct (decide (i = j)) as [|Hne]; [done|]. exfalso.
  pose proof (kvs_insert t i free_Entry e Hi) as Hp. unfold kv in Hp at 1 2. rewrite He in Hp. simpl in Hp.
  apply (Permutation_map fst) in Hp. rewrite <- Hp in Hnd. simpl in Hnd. apply NoDup_cons in Hnd as [Hnd _].
  apply Hnd. rewrite Hk. apply (list_elem_of_fmap_2 fst _ (key f, value f)).
  eapply (kvs_elem _ j); [|done]. by rewrite list_lookup_insert_ne.
Qed.

Lemma kvs_free n : kvs (replicate n (free_Entry : Entry K V)) = [].
Proof. induction n as [|n IH]; [done|]. exact IH. Qed.

Lemma kvs_length t : (length (kvs t) <= length t)%nat.
Proof.
  induction t as [|e t IH]; [done|]. change (kvs (e :: t)) with (kv e ++ kvs t). rewrite length_app. unfold kv.
  destruct (occupied e); simpl; lia.
Qed.

Lemma kvs_length_free t i f : t !! i = Some f → occupied f = false → (length (kvs t) < length t)%nat.
Proof.
  intros Hi Ho. pose proof (Permutation_length (kvs_insert t i (new_Entry inhabitant inhabitant 0) f Hi)) as E.
  rewrite !length_app in E. unfold kv in E. rewrite Ho in E. simpl in E.
  pose proof (kvs_length (<[i := new_Entry inhabitant inhabitant 0]> t)) as Hl. rewrite length_insert in Hl. lia.
Qed.

Lemma kvs_all_or_free t : length (kvs t) = length t ∨ ∃ i f, t !! i = Some f ∧ occupied f = false.
Proof.
  induction t as [|e t [IH|(i & f & Hf & Ho)]]; [by left| |right; by exists (S i), f].
  destruct (occupied e) eqn:Ho; [left|right; by exists 0%nat, e].
  change (kvs (e :: t)) with (kv e ++ kvs t). rewrite length_app. unfold kv. rewrite Ho. simpl. by f_equal.
Qed.

(** ** Search paths *)

Section paths.
Context (cap : Z) (Hcap : 0 < cap < 2147483648).
Local Abbreviation dist := (dist cap).
Local Abbreviation following := (following cap).

Definition home (k : K) : Z := hasher k mod cap.
Definition occ t p e : Prop := 0 <= p < cap ∧ t !! Z.to_nat p = Some e ∧ occupied e = true.

(** A search for a key of home [h] does not stop before slot [p]. *)
Definition path t h p : Prop := ∀ q, 0 <= q < cap → dist h q < dist h p →
  ∃ f, occ t q f ∧ dist h q <= probe_distance f.

(** Recorded distances may be too large, but a search finds every entry. *)
Definition good t : Prop := length t = Z.to_nat cap ∧
  ∀ p e, occ t p e → dist (home (key e)) p <= probe_distance e < cap ∧ path t (home (key e)) p.

Lemma cap_word : 0 < cap < w64.
Proof. unfold w64. lia. Qed.
#[local] Hint Resolve cap_word : core.

Lemma home_range k : 0 <= home k < cap.
Proof. apply Z.mod_pos_bound. lia. Qed.

Lemma slot_exists t p : length t = Z.to_nat cap → 0 <= p < cap → ∃ e, t !! Z.to_nat p = Some e.
Proof. intros Hl Hp. apply lookup_lt_is_Some. lia. Qed.

Lemma occ_insert t p e q f : length t = Z.to_nat cap → 0 <= p < cap →
  occ (<[Z.to_nat p := e]> t) q f ↔ (q = p ∧ f = e ∧ occupied e = true) ∨ (q ≠ p ∧ occ t q f).
Proof.
  intros Hl Hp. unfold occ. destruct (decide (q = p)) as [->|Hne].
  - rewrite list_lookup_insert_eq by lia. naive_solver.
  - split.
    + intros (Hq & Hf & Ho). rewrite list_lookup_insert_ne in Hf by lia. right. done.
    + intros [?|(_ & Hq & Hf & Ho)]; [naive_solver|]. rewrite list_lookup_insert_ne by lia. done.
Qed.

Lemma occ_unique t p q e f : NoDup (kvs t).*1 → occ t p e → occ t q f → key e = key f → p = q.
Proof.
  intros Hnd (Hp & Hi & He) (Hq & Hj & Hf) Hk. pose proof (kvs_unique t _ _ e f Hnd Hi Hj He Hf Hk). lia.
Qed.

Lemma occ_fun t p e f : occ t p e → occ t p f → e = f.
Proof. intros (_ & E1 & _) (_ & E2 & _). congruence. Qed.

Lemma path_following t h p e : 0 <= p < cap → occ t p e → dist h p <= probe_distance e → dist h p < cap - 1 →
  path t h p → path t h (following p).
Proof.
  intros Hp He Hd Hlt Hpath q Hq Hdq. rewrite dist_following in Hdq by (done || auto).
  destruct (decide (dist h q = dist h p)) as [E|].
  - apply (dist_inj cap cap_word) in E; [|done|done]. subst q. by exists e.
  - apply Hpath; [done|lia].
Qed.

(** Replacing an entry by one of a larger recorded distance, or filling a free slot,
    keeps paths. *)
Lemma path_insert t h p q e : length t = Z.to_nat cap → 0 <= q < cap → occupied e = true →
  (∀ f, occ t q f → probe_distance f <= probe_distance e) → path t h p → path (<[Z.to_nat q := e]> t) h p.
Proof.
  intros Hl Hq Ho Hle Hpath r Hr Hdr. destruct (Hpath r Hr Hdr) as (f & Hf & Hdf).
  destruct (decide (r = q)) as [->|Hne].
  - exists e. split; [|specialize (Hle f Hf); lia]. apply occ_insert; [done|done|]. by left.
  - exists f. split; [|done]. apply occ_insert; [done|done|]. by right.
Qed.

Lemma good_insert t q e : good t → 0 <= q < cap → occupied e = true →
  (∀ f, occ t q f → probe_distance f <= probe_distance e) →
  dist (home (key e)) q <= probe_distance e < cap → path t (home (key e)) q →
  good (<[Z.to_nat q := e]> t).
Proof.
  intros [Hl Hg] Hq Ho Hle Hd Hpath. split; [by rewrite length_insert|].
  intros p f Hf. apply occ_insert in Hf; [|done|done]. destruct Hf as [(-> & -> & _)|[Hne Hf]].
  - split; [done|]. by apply path_insert.
  - destruct (Hg p f Hf) as [? ?]. split; [done|]. by apply path_insert.
Qed.
End paths.

(** ** Tables that represent a map *)

Record represents cap m s : Prop := {
  rep_capacity : capacity_ s = cap;
  rep_good : good cap (table s);
  rep_kvs : kvs (table s) ≡ₚ map_to_list m;
  rep_size : size_ s = Z.of_nat (size m);
}.

Section operations.
Context (cap : Z) (Hcap : 0 < cap < 2147483648).
Local Abbreviation dist := (dist cap).
Local Abbreviation following := (following cap).
Local Abbreviation home := (home cap).
Local Abbreviation occ := (occ cap).
#[local] Hint Resolve cap_word home_range following_range dist_range : core.

Lemma wp_slot idx e s (Q : Entry K V → RobinHoodHashMap K V → Prop) :
  table s !! Z.to_nat idx = Some e → Q e s → wp (slot idx) s Q.
Proof. intros He HQ. unfold slot. wp_steps. by apply (wp_deref _ e). Qed.

Lemma wp_put idx e f s (Q : unit → RobinHoodHashMap K V → Prop) :
  table s !! Z.to_nat idx = Some f → Q () (set_table (<[Z.to_nat idx := e]> (table s)) s) → wp (put idx e) s Q.
Proof. intros Hf HQ. unfold put. apply wp_bind. eapply wp_slot; [done|]. by wp_steps. Qed.

Lemma wp_increment z s (Q : Z → RobinHoodHashMap K V → Prop) :
  z < 2147483647 → Q (z + 1) s → wp (increment z) s Q.
Proof. intros Hz HQ. unfold increment. destruct (Z.ltb_spec z 2147483647); [done|lia]. Qed.

Lemma rep_keys m s : represents cap m s → NoDup (kvs (table s)).*1.
Proof. intros Hr. rewrite (rep_kvs _ _ _ Hr). apply NoDup_fst_map_to_list. Qed.

Lemma rep_present m s k v : represents cap m s → m !! k = Some v →
  ∃ p e, occ (table s) p e ∧ key e = k ∧ value e = v.
Proof.
  intros Hr Hk. apply elem_of_map_to_list in Hk. rewrite <- (rep_kvs _ _ _ Hr) in Hk.
  apply kvs_elem_inv in Hk as (i & e & Hi & Ho & <- & <-). exists (Z.of_nat i), e.
  pose proof (lookup_lt_Some _ _ _ Hi). pose proof (proj1 (rep_good _ _ _ Hr)).
  split; [|done]. split; [lia|]. by rewrite Nat2Z.id.
Qed.

Lemma rep_absent m s k q f : represents cap m s → m !! k = None → occ (table s) q f → key f ≠ k.
Proof.
  intros Hr Hk (_ & Hf & Ho) <-. pose proof (kvs_elem _ _ _ Hf Ho) as Hin.
  rewrite (rep_kvs _ _ _ Hr) in Hin. apply elem_of_map_to_list in Hin. congruence.
Qed.

(** A step of a search for the key of slot [p]. *)
Lemma search_step m s p e idx : represents cap m s → occ (table s) p e → 0 <= idx < cap →
  dist (home (key e)) idx < dist (home (key e)) p →
  ∃ f, table s !! Z.to_nat idx = Some f ∧ occupied f = true ∧ key f ≠ key e ∧
    dist (home (key e)) idx <= probe_distance f ∧
    dist (home (key e)) (following idx) = dist (home (key e)) idx + 1.
Proof.
  intros Hr He Hi Hd. pose proof (proj2 (rep_good _ _ _ Hr) p e He) as [_ Hpath].
  destruct (Hpath idx Hi Hd) as (f & Hf & Hdf). pose proof (dist_range cap (cap_word cap Hcap) (home (key e)) p).
  exists f. split_and!; [apply Hf|apply Hf| |done|apply dist_following; (auto || lia)].
  intros E. pose proof (occ_unique cap _ _ _ _ _ (rep_keys _ _ Hr) Hf He E) as ->. lia.
Qed.

Lemma next_index_following idx s : capacity_ s = cap → next_index idx s = following idx.
Proof. intros <-. done. Qed.

Lemma find_loop_present m s p e : represents cap m s → occ (table s) p e →
  ∀ fuel idx cur, 0 <= idx < cap → dist (home (key e)) idx = cur → cur <= dist (home (key e)) p →
  dist (home (key e)) p - cur < Z.of_nat fuel →
  wp (find_loop fuel (key e) idx cur) s (λ r s', r = Some p ∧ s' = s).
Proof.
  intros Hr He. induction fuel as [|fuel IH]; intros idx cur Hi Hc Hle Hf; [lia|].
  pose proof (dist_range cap (cap_word cap Hcap) (home (key e)) p).
  cbn [find_loop]. destruct (decide (cur = dist (home (key e)) p)) as [E|Hne].
  - assert (idx = p) as -> by (apply (dist_inj cap (cap_word cap Hcap) (home (key e))); [done|apply He|by rewrite Hc, E]).
    apply wp_bind. eapply wp_slot; [apply He|]. destruct He as (_ & _ & ->). simpl.
    by rewrite decide_True.
  - destruct (search_step m s p e idx Hr He Hi ltac:(lia)) as (f & Ef & Ho & Hk & Hd & Hn).
    apply wp_bind. eapply wp_slot; [done|]. rewrite Ho. simpl. rewrite decide_False by done.
    destruct (Z.ltb_spec (probe_distance f) cur); [lia|]. wp_steps. rewrite next_index_following by apply Hr.
    eapply wp_increment; [lia|]. apply IH; (auto || lia).
Qed.

Lemma find_loop_absent m s k : represents cap m s → m !! k = None →
  ∀ fuel idx cur, 0 <= idx < cap → 0 <= cur <= cap → cap - cur < Z.of_nat fuel →
  wp (find_loop fuel k idx cur) s (λ r s', r = None ∧ s' = s).
Proof.
  intros Hr Hk. induction fuel as [|fuel IH]; intros idx cur Hi Hc Hf; [lia|]. cbn [find_loop].
  destruct (slot_exists cap Hcap (table s) idx) as [f Ef]; [apply Hr|done|].
  apply wp_bind. eapply wp_slot; [done|]. destruct (occupied f) eqn:Ho; simpl; [|done].
  assert (occ (table s) idx f) as Hocc by done. rewrite decide_False by (by eapply rep_absent).
  pose proof (proj1 (proj2 (rep_good _ _ _ Hr) idx f Hocc)).
  destruct (Z.ltb_spec (probe_distance f) cur); [done|]. wp_steps. rewrite next_index_following by apply Hr.
  eapply wp_increment; [lia|]. apply IH; (auto || lia).
Qed.

(** [find] returns the slot of the key, and changes nothing. *)
Lemma find_spec m s k : represents cap m s →
  wp (find k) s (λ r s', s' = s ∧ match r with
    | Some p => ∃ e, occ (table s) p e ∧ m !! k = Some (value e)
    | None => m !! k = None
    end).
Proof.
  intros Hr. unfold find. wp_steps. unfold id, hash. rewrite (rep_capacity _ _ _ Hr).
  change (hasher k mod cap) with (home k). destruct (m !! k) as [v|] eqn:Hk.
  - destruct (rep_present _ _ _ _ Hr Hk) as (p & e & He & <- & <-).
    eapply wp_mono; [eapply (find_loop_present m s p e); try done|].
    + by apply home_range.
    + by apply dist_self, cap_word.
    + by apply dist_range, cap_word.
    + pose proof (dist_range cap (cap_word cap Hcap) (home (key e)) p). lia.
    + intros r s' [-> ->]. split; [done|]. by exists e.
  - eapply wp_mono; [eapply (find_loop_absent m); try done|].
    + by apply home_range.
    + lia.
    + lia.
    + by intros r s' [-> ->].
Qed.

(** ** Inserting *)

Lemma insert_loop_update m s p e v : represents cap m s → occ (table s) p e →
  ∀ fuel idx cur new, 0 <= idx < cap → dist (home (key e)) idx = cur → cur <= dist (home (key e)) p →
  dist (home (key e)) p - cur < Z.of_nat fuel →
  wp (insert_loop fuel (key e) v new idx cur) s (λ _ s', represents cap (<[key e := v]> m) s').
Proof.
  intros Hr He. induction fuel as [|fuel IH]; intros idx cur new Hi Hc Hle Hf; [lia|].
  pose proof (dist_range cap (cap_word cap Hcap) (home (key e)) p).
  cbn [insert_loop]. destruct (decide (cur = dist (home (key e)) p)) as [E|Hne].
  - assert (idx = p) as -> by (apply (dist_inj cap (cap_word cap Hcap) (home (key e))); [done|apply He|by rewrite Hc, E]).
    apply wp_bind. eapply wp_slot; [apply He|]. pose proof He as (Hp & Ep & Ho). rewrite Ho. simpl.
    rewrite decide_True by done. eapply wp_put; [done|].
    pose proof (kvs_elem _ _ _ Ep Ho) as Hin. rewrite (rep_kvs _ _ _ Hr) in Hin. apply elem_of_map_to_list in Hin.
    split; simpl; [apply Hr| | |].
    + apply good_insert; [done|apply Hr|done|done|..].
      * intros f Hof. assert (f = e) as -> by (by eapply (occ_fun cap _ p)). done.
      * apply (proj2 (rep_good _ _ _ Hr) p e He).
      * apply (proj2 (rep_good _ _ _ Hr) p e He).
    + pose proof (kvs_insert (table s) _ (set_value v e) e Ep) as Hk. unfold kv in Hk at 1 2. simpl in Hk.
      rewrite Ho in Hk. rewrite (rep_kvs _ _ _ Hr) in Hk.
      rewrite <- (insert_delete_id m (key e) (value e) Hin) in Hk at 1.
      rewrite map_to_list_insert in Hk by apply lookup_delete_eq.
      rewrite <- insert_delete_eq, map_to_list_insert by apply lookup_delete_eq.
      simpl in Hk. rewrite (Permutation_swap (key e, value e) (key e, v)) in Hk. by apply Permutation_cons_inv in Hk.
    + rewrite (rep_size _ _ _ Hr), map_size_insert. by rewrite Hin.
  - destruct (search_step m s p e idx Hr He Hi ltac:(lia)) as (f & Ef & Ho & Hk & Hd & Hn).
    apply wp_bind. eapply wp_slot; [done|]. rewrite Ho. simpl. rewrite decide_False by done.
    destruct (Z.ltb_spec (probe_distance f) cur); [lia|]. wp_steps. rewrite next_index_following by apply Hr.
    eapply wp_increment; [lia|]. apply IH; (auto || lia).
Qed.

(** The state of the loop once the key is known to be new: [new] is an entry that
    has no slot, because the key's entry has taken it or is [new] itself. *)
Record carrying m k t sz (new : Entry K V) idx cur : Prop := {
  car_good : good cap t;
  car_idx : 0 <= idx < cap;
  car_occupied : occupied new = true;
  car_probe : probe_distance new = cur;
  car_start : dist (home k) idx = cur;
  car_dist : dist (home (key new)) idx <= cur;
  car_path : path cap t (home (key new)) idx;
  car_filled : ∀ q, 0 <= q < cap → dist (home k) q < cur → ∃ f, occ t q f;
  car_free : ∃ q f, 0 <= q < cap ∧ t !! Z.to_nat q = Some f ∧ occupied f = false;
  car_kvs : kv new ++ kvs t ≡ₚ map_to_list m;
  car_size : sz + 1 = Z.of_nat (size m);
  car_key : ∀ q f, occ t q f → key f = k → dist (home k) q < cur;
}.

Lemma carrying_free m k t sz new idx cur f : carrying m k t sz new idx cur → t !! Z.to_nat idx = Some f →
  occupied f = false → represents cap m (MkMap (<[Z.to_nat idx := new]> t) cap (sz +64 1)).
Proof.
  intros Hc Ef Ho. pose proof (car_dist _ _ _ _ _ _ _ Hc). pose proof (dist_range cap (cap_word cap Hcap) (home k) idx).
  pose proof (car_start _ _ _ _ _ _ _ Hc). pose proof (car_probe _ _ _ _ _ _ _ Hc).
  assert (Z.of_nat (size m) <= cap) as Hsz.
  { rewrite <- length_map_to_list, <- (car_kvs _ _ _ _ _ _ _ Hc), length_app.
    unfold kv at 1. rewrite (car_occupied _ _ _ _ _ _ _ Hc). simpl.
    pose proof (kvs_length_free t _ f Ef Ho).
    pose proof (proj1 (car_good _ _ _ _ _ _ _ Hc)). lia. }
  split; simpl; [done| | |].
  - apply good_insert; [done|by eapply car_good|by eapply car_idx|by eapply car_occupied| |lia|by eapply car_path].
    intros g (_ & Eg & Hg). congruence.
  - rewrite <- (car_kvs _ _ _ _ _ _ _ Hc), <- (kvs_insert t _ new f Ef). unfold kv at 1. by rewrite Ho.
  - rewrite u64_small; [apply Hc|]. pose proof (car_size _ _ _ _ _ _ _ Hc). unfold w64. lia.
Qed.
Lemma carrying_key m k t sz new idx cur f : carrying m k t sz new idx cur → occ t idx f → key f ≠ k.
Proof.
  intros Hc Hf E. pose proof (car_key _ _ _ _ _ _ _ Hc idx f Hf E). rewrite (car_start _ _ _ _ _ _ _ Hc) in *. lia.
Qed.

Lemma carrying_below m k t sz new idx cur f : carrying m k t sz new idx cur → occ t idx f → 0 <= cur < cap - 1.
Proof.
  intros Hc Hf. destruct (car_free _ _ _ _ _ _ _ Hc) as (q & g & Hq & Eg & Ho).
  pose proof (car_start _ _ _ _ _ _ _ Hc) as Es. pose proof (dist_range cap (cap_word cap Hcap) (home k) idx).
  pose proof (dist_range cap (cap_word cap Hcap) (home k) q).
  destruct (decide (dist (home k) q < cur)) as [Hlt|Hge].
  - destruct (car_filled _ _ _ _ _ _ _ Hc q Hq Hlt) as (g' & _ & Eg' & Ho'). congruence.
  - destruct (decide (dist (home k) q = cur)) as [E|]; [|lia].
    assert (q = idx) as -> by (apply (dist_inj cap (cap_word cap Hcap) (home k)); [done|apply Hf|by rewrite E, Es]).
    destruct Hf as (_ & Ef & Hof). congruence.
Qed.

Lemma carrying_keep m k t sz new idx cur f : carrying m k t sz new idx cur → occ t idx f →
  cur <= probe_distance f → carrying m k t sz (set_probe (cur + 1) new) (following idx) (cur + 1).
Proof.
  intros Hc Hf Hle. pose proof (carrying_below _ _ _ _ _ _ _ _ Hc Hf) as Hb.
  destruct Hc as [C1 C2 C3 C4 C5 C6 C7 C8 C9 C10 C11 C12].
  pose proof (cap_word cap Hcap) as Hw.
  assert (∀ h, dist h idx <= cur → dist h (following idx) = dist h idx + 1) as Hn.
  { intros h Hh. apply dist_following; [done|done|lia]. }
  split; simpl; try done.
  - by apply following_range.
  - rewrite Hn; lia.
  - rewrite Hn; lia.
  - eapply path_following; [done|done|exact Hf|lia|lia|done].
  - intros q Hq Hd. destruct (decide (dist (home k) q = cur)) as [E|]; [|apply C8; [done|lia]].
    exists f. assert (q = idx) as ->; [|done].
    apply (dist_inj cap Hw (home k)); [done|done|by rewrite E, C5].
  - intros q g Hg Hk. specialize (C12 q g Hg Hk). lia.
Qed.

Lemma carrying_swap m k t sz new idx cur f : carrying m k t sz new idx cur → occ t idx f →
  probe_distance f < cur →
  carrying m k (<[Z.to_nat idx := new]> t) sz (set_probe (cur + 1) f) (following idx) (cur + 1).
Proof.
  intros Hc Hf Hlt. pose proof (carrying_below _ _ _ _ _ _ _ _ Hc Hf) as Hb.
  destruct Hc as [C1 C2 C3 C4 C5 C6 C7 C8 C9 C10 C11 C12].
  pose proof (cap_word cap Hcap) as Hw. pose proof (proj1 C1) as Hl.
  destruct (proj2 C1 idx f Hf) as [Hd Hpath].
  assert (∀ g, occ t idx g → probe_distance g <= probe_distance new) as Hless.
  { intros g Hg. assert (g = f) as -> by (by eapply (occ_fun cap)). lia. }
  assert (occ (<[Z.to_nat idx := new]> t) idx new) as Hnew by (apply (occ_insert cap Hcap); [done|done|by left]).
  split; simpl; try done.
  - apply good_insert; (done || lia).
  - by apply following_range.
  - apply Hf.
  - rewrite dist_following; [lia|done|done|lia].
  - rewrite dist_following; [lia|done|done|lia].
  - eapply path_following; [done|done|exact Hnew|lia|lia|]. by apply path_insert.
  - intros q Hq Hdq. destruct (decide (q = idx)) as [->|Hne]; [by exists new|].
    destruct (C8 q Hq) as [g Hg].
    { destruct (decide (dist (home k) q = cur)) as [E|]; [|lia]. destruct Hne.
      apply (dist_inj cap Hw (home k)); [done|done|by rewrite E, C5]. }
    exists g. apply (occ_insert cap Hcap); [done|done|by right].
  - destruct C9 as (q & g & Hq & Eg & Ho). exists q, g. split; [done|]. split; [|done].
    rewrite list_lookup_insert_ne; [done|]. intros E. assert (idx = q) as -> by lia.
    destruct Hf as (_ & Ef & Hof). congruence.
  - rewrite <- C10. destruct Hf as (_ & Ef & Hof). rewrite <- (kvs_insert t _ new f Ef). unfold kv. simpl. done.
  - intros q g Hg Hk. apply (occ_insert cap Hcap) in Hg; [|done|done].
    destruct Hg as [(-> & _)|[_ Hg]]; [lia|]. specialize (C12 q g Hg Hk). lia.
Qed.

Lemma insert_loop_new m k v : ∀ fuel t sz new idx cur, carrying m k t sz new idx cur →
  cap - cur <= Z.of_nat fuel →
  wp (insert_loop fuel k v new idx cur) (MkMap t cap sz) (λ _ s', represents cap m s').
Proof.
  induction fuel as [|fuel IH]; intros t sz new idx cur Hc Hf.
  { pose proof (car_start _ _ _ _ _ _ _ Hc). pose proof (dist_range cap (cap_word cap Hcap) (home k) idx). lia. }
  destruct (slot_exists cap Hcap t idx) as [f Ef]; [apply (car_good _ _ _ _ _ _ _ Hc)|by eapply car_idx|].
  cbn [insert_loop]. apply wp_bind. eapply wp_slot; [done|]. destruct (occupied f) eqn:Ho; simpl; cycle 1.
  { apply wp_bind. eapply wp_put; [done|]. wp_steps. by eapply carrying_free. }
  assert (occ t idx f) as Hocc by (split; [by eapply car_idx|done]).
  rewrite decide_False by (by eapply carrying_key). pose proof (carrying_below _ _ _ _ _ _ _ _ Hc Hocc).
  destruct (Z.ltb_spec (probe_distance f) cur).
  - wp_steps. eapply wp_put; [done|]. wp_steps. eapply wp_put.
    { simpl. apply list_lookup_insert_eq. by eapply lookup_lt_Some. }
    wp_steps. rewrite next_index_following by done. eapply wp_increment; [rewrite (car_probe _ _ _ _ _ _ _ Hc); lia|].
    unfold set_table. simpl. rewrite list_insert_insert_eq, (car_probe _ _ _ _ _ _ _ Hc).
    assert (set_probe cur new = new) as ->.
    { pose proof (car_probe _ _ _ _ _ _ _ Hc) as <-. by destruct new. }
    apply IH; [by apply carrying_swap|lia].
  - wp_steps. rewrite next_index_following by done. eapply wp_increment; [lia|].
    apply IH; [by eapply carrying_keep|lia].
Qed.

Lemma rep_free m s : represents cap m s → Z.of_nat (size m) < cap →
  ∃ q f, 0 <= q < cap ∧ table s !! Z.to_nat q = Some f ∧ occupied f = false.
Proof.
  intros Hr Hsz. pose proof (proj1 (rep_good _ _ _ Hr)) as Hl.
  destruct (kvs_all_or_free (table s)) as [E|(i & f & Ef & Ho)].
  - rewrite (rep_kvs _ _ _ Hr), length_map_to_list in E. lia.
  - exists (Z.of_nat i), f. pose proof (lookup_lt_Some _ _ _ Ef). rewrite Nat2Z.id. split; [lia|done].
Qed.

Lemma insert_loop_spec m s k v : represents cap m s → Z.of_nat (size m) < cap →
  wp (insert_loop (Z.to_nat (capacity_ s)) k v (new_Entry k v 0) (hash k s) 0) s
    (λ _ s', represents cap (<[k := v]> m) s').
Proof.
  intros Hr Hsz. unfold hash. rewrite (rep_capacity _ _ _ Hr). change (hasher k mod cap) with (home k).
  pose proof (dist_self cap (cap_word cap Hcap) (home k)) as Hself.
  destruct (m !! k) as [v0|] eqn:Hk.
  - destruct (rep_present _ _ _ _ Hr Hk) as (p & e & He & <- & _).
    pose proof (dist_range cap (cap_word cap Hcap) (home (key e)) p).
    apply (insert_loop_update m s p e v Hr He); [by apply home_range|done|lia|lia].
  - destruct s as [t c sz]. pose proof (rep_capacity _ _ _ Hr) as Ec. simpl in Ec. subst c.
    apply insert_loop_new; [|lia]. split; simpl; try done.
    + apply Hr.
    + by apply home_range.
    + by rewrite Hself.
    + intros q Hq Hd. rewrite Hself in Hd. pose proof (dist_range cap (cap_word cap Hcap) (home k) q). lia.
    + intros q Hq Hd. pose proof (dist_range cap (cap_word cap Hcap) (home k) q). lia.
    + apply (rep_free m _ Hr Hsz).
    + rewrite map_to_list_insert by done. unfold kv. simpl. by rewrite (rep_kvs _ _ _ Hr).
    + pose proof (rep_size _ _ _ Hr) as Hs. simpl in Hs. rewrite Hs, map_size_insert, Hk. simpl. lia.
    + intros q f Hf E. by destruct (rep_absent _ _ _ _ _ Hr Hk Hf).
Qed.

Lemma load_spec m s : represents cap m s → load_reached s = (3 * cap <=? 4 * Z.of_nat (size m)).
Proof. intros Hr. unfold load_reached. by rewrite (rep_capacity _ _ _ Hr), (rep_size _ _ _ Hr). Qed.

Lemma empty_represents : represents cap ∅ (MkMap (replicate (Z.to_nat cap) free_Entry) cap 0).
Proof.
  split; simpl; [done| |by rewrite kvs_free|done]. split; [apply length_replicate|].
  intros p e (_ & He & Ho). apply lookup_replicate in He as [-> _]. done.
Qed.

(** What [resize_table] needs of the function that inserts. *)
Definition inserts (ins : K → V → M (RobinHoodHashMap K V) unit) : Prop := ∀ m s k v,
  represents cap m s → 4 * Z.of_nat (size m) < 3 * cap →
  wp (ins k v) s (λ _ s', represents cap (<[k := v]> m) s').

Lemma migrate_spec ins m t : inserts ins → kvs t ≡ₚ map_to_list m → 4 * Z.of_nat (size m) <= 3 * cap →
  wp (forM t (λ _ e, whenM (occupied e) (ins (key e) (value e))) ())
    (MkMap (replicate (Z.to_nat cap) free_Entry) cap 0) (λ _ s', represents cap m s').
Proof.
  intros Hins Ht Hsz.
  apply (wp_forM _ _ _ _ (λ l _ s, ∃ m', represents cap m' s ∧ kvs l ++ map_to_list m' ≡ₚ map_to_list m)).
  - exists ∅. split; [apply empty_represents|]. by rewrite map_to_list_empty, app_nil_r.
  - intros e l _ s (m' & Hr & Hl). change (kvs (e :: l)) with (kv e ++ kvs l) in Hl. unfold kv in Hl.
    apply wp_whenM; intros Ho; rewrite Ho in Hl; [|by exists m'].
    assert (m' !! key e = None) as Hk.
    { apply eq_None_not_Some. intros [v Hv]. apply elem_of_map_to_list in Hv.
      pose proof (NoDup_fst_map_to_list m) as Hnd. rewrite <- Hl in Hnd. simpl in Hnd.
      apply NoDup_cons in Hnd as [Hnd _]. apply Hnd. rewrite fmap_app. apply elem_of_app. right.
      by apply (list_elem_of_fmap_2 fst _ (key e, v)). }
    pose proof (Permutation_length Hl) as Hlen. rewrite !length_app, !length_map_to_list in Hlen. simpl in Hlen.
    eapply wp_mono; [apply (Hins m' s _ _ Hr); lia|]. intros [] s' Hr'. exists (<[key e := value e]> m'). split; [done|].
    rewrite map_to_list_insert by done. rewrite <- Hl. simpl. by rewrite Permutation_middle.
  - intros _ s (m' & Hr & Hl). simpl in Hl. destruct Hr as [R1 R2 R3 R4]. apply Permutation_length in Hl as Hlen.
    rewrite !length_map_to_list in Hlen. split; [done|done|by rewrite R3|by rewrite R4, Hlen].
Qed.
End operations.

Lemma rep_size_le cap m s : 0 < cap < 2147483648 → represents cap m s → Z.of_nat (size m) <= cap.
Proof.
  intros Hcap Hr. rewrite <- length_map_to_list, <- (rep_kvs _ _ _ Hr).
  pose proof (kvs_length (table s)). pose proof (proj1 (rep_good _ _ _ Hr)). lia.
Qed.

Lemma insert_nested_S depth k v : insert_nested (K := K) (V := V) (S depth) k v =
  (s ← gets id;
   whenM (load_reached s) (resize_table (insert_nested depth) (capacity_ s *64 2));;
   s ← gets id;
   insert_loop (Z.to_nat (capacity_ s)) k v (new_Entry k v 0) (hash k s) 0).
Proof. reflexivity. Qed.

Lemma insert_nested_small cap depth : 0 < cap < 2147483648 → inserts cap (insert_nested (S depth)).
Proof.
  intros Hcap m s k v Hr Hsz. rewrite insert_nested_S. wp_steps. unfold id.
  rewrite (load_spec cap m s Hr). destruct (Z.leb_spec (3 * cap) (4 * Z.of_nat (size m))); [lia|]. simpl.
  wp_steps. apply insert_loop_spec; [done|done|lia].
Qed.

(** [insert] binds the key to the value; a table that is three quarters full has
    doubled first. *)
Lemma insert_spec cap m s k v : 0 < cap < 1073741824 → represents cap m s →
  wp (insert k v) s (λ _ s', represents (if 3 * cap <=? 4 * Z.of_nat (size m) then 2 * cap else cap) (<[k := v]> m) s').
Proof.
  intros Hcap Hr. pose proof (rep_size_le cap m s ltac:(lia) Hr). unfold insert. rewrite insert_nested_S. wp_steps. unfold id.
  rewrite (load_spec cap m s Hr). destruct (Z.leb_spec (3 * cap) (4 * Z.of_nat (size m))) as [Hle|Hlt]; cbn [whenM].
  - unfold resize_table. wp_steps. unfold id. rewrite (rep_capacity _ _ _ Hr), u64_small by (unfold w64; lia).
    destruct (Z.leb_spec (cap * 2) cap); [lia|]. replace (cap * 2) with (2 * cap) by lia. wp_steps.
    assert (0 < 2 * cap < 2147483648) as Hcap2 by lia.
    eapply wp_mono; [apply (migrate_spec (2 * cap) _ m); [by apply insert_nested_small|apply Hr|lia]|].
    intros [] s1 Hr1. wp_steps. apply insert_loop_spec; [lia|done|lia].
  - wp_steps. apply insert_loop_spec; [lia|done|lia].
Qed.

Lemma construct_spec cap : 0 < cap < 2147483648 →
  wp (construct cap) (unconstructed : RobinHoodHashMap K V) (λ _ s', represents cap ∅ s').
Proof.
  intros Hcap. unfold construct. destruct (Z.eqb_spec cap 0); [lia|]. unfold resize_table. wp_steps. simpl.
  destruct (Z.leb_spec cap 0); [lia|]. wp_steps. by apply empty_represents.
Qed.

(** ** Erasing *)

(** The sum of the recorded distances, which moving an entry back decreases. *)
Definition weight e : nat := if occupied e then Z.to_nat (probe_distance e) else 0.
Definition total t : nat := sum_list_with weight t.

Lemma total_insert t i e f : t !! i = Some f → (weight f + total (<[i := e]> t) = weight e + total t)%nat.
Proof.
  intros Hi. pose proof (lookup_lt_Some _ _ _ Hi).
  rewrite insert_take_drop by done. rewrite <- (take_drop_middle t i f Hi) at 3.
  unfold total. rewrite !sum_list_with_app. simpl. lia.
Qed.

Lemma total_bound t b : (∀ e, e ∈ t → (weight e <= b)%nat) → (total t <= length t * b)%nat.
Proof.
  unfold total. induction t as [|e t IH]; intros Hb; simpl; [lia|].
  pose proof (Hb e ltac:(by left)). specialize (IH (λ e' He', Hb e' ltac:(by right))). lia.
Qed.

Section erasing.
Context (cap : Z) (Hcap : 0 < cap < 2147483648).
Local Abbreviation dist := (dist cap).
Local Abbreviation following := (following cap).
Local Abbreviation home := (home cap).
Local Abbreviation occ := (occ cap).

(** Recorded distances are the real ones. *)
Definition exact t : Prop := ∀ p e, occ t p e → probe_distance e = dist (home (key e)) p.

(** A table with a free slot that searches may have to cross. *)
Record hole t idx : Prop := {
  hole_length : length t = Z.to_nat cap;
  hole_range : 0 <= idx < cap;
  hole_free : ∀ e, ¬ occ t idx e;
  hole_exact : exact t;
  hole_path : ∀ p e q, occ t p e → 0 <= q < cap → dist (home (key e)) q < dist (home (key e)) p →
    q = idx ∨ ∃ f, occ t q f ∧ dist (home (key e)) q <= probe_distance f;
}.

(** A search that crosses the free slot finds the next one taken. *)
Lemma hole_crossed t idx p e : hole t idx → occ t p e → dist (home (key e)) idx < dist (home (key e)) p →
  ∃ f, occ t (following idx) f ∧ dist (home (key e)) idx < probe_distance f.
Proof.
  intros Hh He Hd. pose proof (cap_word cap Hcap) as Hw. pose proof (hole_range _ _ Hh) as Hi.
  pose proof (dist_range cap Hw (home (key e)) p).
  pose proof (dist_following cap Hw (home (key e)) idx Hi ltac:(lia)) as En.
  destruct (decide (following idx = p)) as [<-|Hne].
  - exists e. split; [done|]. rewrite (hole_exact _ _ Hh _ _ He). lia.
  - destruct (hole_path _ _ Hh p e (following idx) He) as [E|(f & Hf & Hdf)].
    + by apply following_range.
    + destruct (decide (dist (home (key e)) (following idx) = dist (home (key e)) p)) as [E|]; [|lia].
      destruct Hne. apply (dist_inj cap Hw (home (key e))); [by apply following_range|apply He|done].
    + rewrite E in En. lia.
    + exists f. split; [done|lia].
Qed.

Lemma hole_filled t idx : hole t idx → (∀ f, occ t (following idx) f → probe_distance f <= 0) → good cap t.
Proof.
  intros Hh Hstop. split; [apply (hole_length _ _ Hh)|]. intros p e He. pose proof (cap_word cap Hcap) as Hw.
  pose proof (dist_range cap Hw (home (key e)) p). rewrite (hole_exact _ _ Hh _ _ He). split; [lia|].
  intros q Hq Hd. destruct (hole_path _ _ Hh p e q He Hq Hd) as [->|?]; [|done].
  destruct (hole_crossed t idx p e Hh He Hd) as (f & Hf & Hlt). specialize (Hstop f Hf).
  pose proof (dist_range cap Hw (home (key e)) idx). lia.
Qed.

Lemma hole_moves t idx e : hole t idx → occ t (following idx) e → 0 < probe_distance e →
  hole (<[Z.to_nat (following idx) := set_occupied false e]> (<[Z.to_nat idx := set_probe (probe_distance e - 1) e]> t))
    (following idx).
Proof.
  intros Hh He Hpos. pose proof (cap_word cap Hcap) as Hw. destruct Hh as [Hl Hi Hfree Hex Hpath] eqn:Eh.
  set (n := following idx) in *. assert (n ≠ idx) as Hni by (intros E; rewrite E in He; by destruct (Hfree e)).
  assert (0 <= n < cap) as Hn by (by apply following_range).
  set (e' := set_probe (probe_distance e - 1) e).
  assert (∀ p f, occ (<[Z.to_nat n := set_occupied false e]> (<[Z.to_nat idx := e']> t)) p f ↔
    p ≠ n ∧ (p = idx ∧ f = e' ∨ p ≠ idx ∧ occ t p f)) as Hocc.
  { intros p f. rewrite (occ_insert cap Hcap) by (by rewrite ?length_insert).
    rewrite (occ_insert cap Hcap) by done. simpl. destruct He as (_ & _ & Ho). naive_solver. }
  pose proof (Hex n e He) as Ed. pose proof (dist_before cap Hw (home (key e)) idx Hi) as Eb. fold n in Eb.
  split; [by rewrite !length_insert|done| | |].
  - intros f Hf. apply Hocc in Hf as [? _]. done.
  - intros p f Hf. apply Hocc in Hf as [Hpn [[-> ->]|[Hpi Hf]]]; [|by apply Hex]. simpl. lia.
  - intros p f q Hf Hq Hd. destruct (decide (q = n)) as [|Hqn]; [by left|right].
    apply Hocc in Hf as [Hpn [[-> ->]|[Hpi Hf]]].
    + simpl in *. destruct (Hpath n e q He Hq ltac:(lia)) as [->|(g & Hg & Hdg)]; [lia|].
      exists g. split; [|done]. apply Hocc. split; [done|]. right. split; [|done]. intros ->. lia.
    + destruct (Hpath p f q Hf Hq Hd) as [->|(g & Hg & Hdg)].
      * exists e'. split; [apply Hocc; by split; [|left]|]. simpl.
        destruct (hole_crossed t idx p f Hh Hf Hd) as (g & Hg & Hlt).
        rewrite (occ_fun cap t n g e) in Hlt by done. lia.
      * exists g. split; [|done]. apply Hocc. split; [done|]. right. split; [|done]. intros ->. by destruct (Hfree g).
Qed.

Lemma shift_back_spec m sz : sz = Z.of_nat (size m) → ∀ fuel t idx, hole t idx → kvs t ≡ₚ map_to_list m →
  (total t < fuel)%nat →
  wp (shift_back fuel idx (following idx)) (MkMap t cap sz) (λ _ s', represents cap m s' ∧ exact (table s')).
Proof.
  intros Hsz. induction fuel as [|fuel IH]; intros t idx Hh Hk Hf; [lia|]. pose proof (cap_word cap Hcap) as Hw.
  pose proof (hole_range _ _ Hh) as Hi. pose proof (hole_length _ _ Hh) as Hl.
  pose proof (following_range cap Hw idx) as Hn.
  destruct (slot_exists cap Hcap t (following idx)) as [e Ee]; [done|done|].
  destruct (slot_exists cap Hcap t idx) as [x Ex]; [done|done|].
  cbn [shift_back]. apply wp_bind. eapply wp_slot; [done|].
  destruct (occupied e && (0 <? probe_distance e)) eqn:Hgo; cycle 1.
  - wp_steps. split; [|apply Hh]. split; simpl; try done. eapply hole_filled; [done|].
    intros f (_ & Ef & Ho). assert (f = e) as -> by congruence. rewrite Ho in Hgo. simpl in Hgo. bool_to_Z. lia.
  - apply andb_true_iff in Hgo as [Ho Hpos]. bool_to_Z. assert (occ t (following idx) e) as He by done.
    assert (occupied x = false) as Hx by (destruct (occupied x) eqn:Ox; [by destruct (hole_free _ _ Hh x)|done]).
    assert (idx ≠ following idx) as Hne by (intros E; rewrite <- E in Ee; congruence).
    assert (Z.to_nat idx ≠ Z.to_nat (following idx)) as Hne' by lia.
    wp_steps. eapply wp_put; [done|]. wp_steps. eapply wp_slot; [simpl; apply list_lookup_insert_eq; lia|].
    wp_steps. eapply wp_put; [simpl; apply list_lookup_insert_eq; lia|].
    wp_steps. eapply wp_slot.
    { simpl. rewrite list_insert_insert_eq, list_lookup_insert_ne by done. done. }
    wp_steps. eapply wp_put.
    { simpl. rewrite list_insert_insert_eq, list_lookup_insert_ne by done. done. }
    wp_steps. rewrite (next_index_following cap Hcap) by done. unfold set_table. simpl. rewrite list_insert_insert_eq.
    set (t1 := <[Z.to_nat idx := set_probe (probe_distance e - 1) e]> t).
    assert (t1 !! Z.to_nat (following idx) = Some e) as E1 by (unfold t1; by rewrite list_lookup_insert_ne).
    apply IH; [by apply hole_moves|..].
    + pose proof (kvs_insert t1 _ (set_occupied false e) e E1) as K1.
      pose proof (kvs_insert t _ (set_probe (probe_distance e - 1) e) x Ex) as K2. fold t1 in K2.
      unfold kv in K1, K2. simpl in K1, K2. rewrite Ho in K1, K2. rewrite Hx in K2. simpl in K1, K2.
      rewrite K2 in K1. apply Permutation_cons_inv in K1. by rewrite K1.
    + pose proof (total_insert t1 _ (set_occupied false e) e E1) as K1.
      pose proof (total_insert t _ (set_probe (probe_distance e - 1) e) x Ex) as K2. fold t1 in K2.
      unfold weight in K1, K2. simpl in K1, K2. rewrite Ho in K1, K2. rewrite Hx in K2. lia.
Qed.

Lemma exact_weight t e : good cap t → e ∈ t → (weight e <= Z.to_nat cap)%nat.
Proof.
  intros [Hl Hg] [i Hi]%list_elem_of_lookup. unfold weight. destruct (occupied e) eqn:Ho; [|lia].
  pose proof (lookup_lt_Some _ _ _ Hi). destruct (Hg (Z.of_nat i) e) as [? _]; [|lia].
  split; [lia|]. by rewrite Nat2Z.id.
Qed.

(** Freeing the slot of a key leaves a hole. *)
Lemma erase_hole m s p e : represents cap m s → exact (table s) → occ (table s) p e →
  hole (<[Z.to_nat p := set_occupied false e]> (table s)) p ∧
  kvs (<[Z.to_nat p := set_occupied false e]> (table s)) ≡ₚ map_to_list (delete (key e) m) ∧
  (total (<[Z.to_nat p := set_occupied false e]> (table s)) <= total (table s))%nat ∧
  m !! key e = Some (value e).
Proof.
  intros Hr Hx He. pose proof He as (Hp & Ep & Ho). destruct (rep_good _ _ _ Hr) as [Hl Hg].
  assert (∀ q f, occ (<[Z.to_nat p := set_occupied false e]> (table s)) q f ↔ q ≠ p ∧ occ (table s) q f) as Hocc.
  { intros q f. rewrite (occ_insert cap Hcap) by done. simpl. naive_solver. }
  pose proof (kvs_elem _ _ _ Ep Ho) as Hin. rewrite (rep_kvs _ _ _ Hr) in Hin. apply elem_of_map_to_list in Hin.
  split_and!; [split| | |done].
  - by rewrite length_insert.
  - done.
  - intros f Hf. apply Hocc in Hf as [? _]. done.
  - intros q f Hf. apply Hx. by apply Hocc in Hf as [_ ?].
  - intros q f r Hf Hrr Hd. apply Hocc in Hf as [_ Hf]. destruct (decide (r = p)) as [|Hne]; [by left|right].
    destruct (proj2 (Hg q f Hf) r Hrr Hd) as (g & Hgr & Hdg). exists g. split; [by apply Hocc|done].
  - pose proof (kvs_insert (table s) _ (set_occupied false e) e Ep) as Kp. unfold kv in Kp. simpl in Kp. rewrite Ho in Kp.
    rewrite (rep_kvs _ _ _ Hr) in Kp. rewrite <- (insert_delete_id m (key e) (value e) Hin) in Kp at 1.
    rewrite map_to_list_insert in Kp by apply lookup_delete_eq. by apply Permutation_cons_inv in Kp.
  - pose proof (total_insert (table s) _ (set_occupied false e) e Ep) as Kp. unfold weight in Kp at 2. simpl in Kp. lia.
Qed.

Lemma erase_loop_present m s p e : represents cap m s → exact (table s) → occ (table s) p e →
  ∀ fuel idx cur, 0 <= idx < cap → dist (home (key e)) idx = cur → cur <= dist (home (key e)) p →
  dist (home (key e)) p - cur < Z.of_nat fuel →
  wp (erase_loop fuel (key e) idx cur) s
    (λ r s', r = true ∧ represents cap (delete (key e) m) s' ∧ exact (table s')).
Proof.
  intros Hr Hx He. induction fuel as [|fuel IH]; intros idx cur Hi Hc Hle Hf; [lia|].
  pose proof (cap_word cap Hcap) as Hw. pose proof (dist_range cap Hw (home (key e)) p).
  cbn [erase_loop]. destruct (decide (cur = dist (home (key e)) p)) as [E|Hne].
  - assert (idx = p) as -> by (apply (dist_inj cap Hw (home (key e))); [done|apply He|by rewrite Hc, E]).
    pose proof He as (Hp & Ep & Ho). apply wp_bind. eapply wp_slot; [done|]. rewrite Ho. cbn [negb].
    rewrite decide_True by done. destruct (erase_hole m s p e Hr Hx He) as (Hh & Hk & Ht & Hm).
    wp_steps. eapply wp_put; [done|]. wp_steps. rewrite (next_index_following cap Hcap) by apply Hr.
    unfold id, set_size, set_table. cbn [table capacity_ size_].
    rewrite (rep_capacity _ _ _ Hr), (rep_size _ _ _ Hr).
    pose proof (rep_size_le cap m s Hcap Hr) as Hsz.
    assert (size (delete (key e) m) = pred (size m)) as Ed by (by rewrite map_size_delete, Hm).
    assert (size m ≠ 0%nat) as Hne0 by (intros E0%map_size_empty_inv; by rewrite E0, lookup_empty in Hm).
    eapply wp_mono; [eapply (shift_back_spec (delete (key e) m)); [|exact Hh|exact Hk|]|].
    + rewrite u64_small by (unfold w64; lia). lia.
    + pose proof (total_bound (table s) _ (λ e' He', exact_weight _ e' (rep_good _ _ _ Hr) He')) as Hb.
      pose proof (proj1 (rep_good _ _ _ Hr)). rewrite Z2Nat.inj_mul by lia. lia.
    + intros [] s' [Hr' Hx']. by wp_steps.
  - destruct (search_step cap Hcap m s p e idx Hr He Hi ltac:(lia)) as (f & Ef & Ho & Hk & Hd & Hn).
    apply wp_bind. eapply wp_slot; [done|]. rewrite Ho. simpl. rewrite decide_False by done.
    destruct (Z.ltb_spec (probe_distance f) cur); [lia|]. wp_steps. rewrite (next_index_following cap Hcap) by apply Hr.
    eapply wp_increment; [lia|]. apply IH; [by apply following_range|lia..].
Qed.

Lemma erase_loop_absent m s k : represents cap m s → m !! k = None →
  ∀ fuel idx cur, 0 <= idx < cap → 0 <= cur <= cap → cap - cur < Z.of_nat fuel →
  wp (erase_loop fuel k idx cur) s (λ r s', r = false ∧ s' = s).
Proof.
  intros Hr Hk. induction fuel as [|fuel IH]; intros idx cur Hi Hc Hf; [lia|]. cbn [erase_loop].
  pose proof (cap_word cap Hcap) as Hw. destruct (slot_exists cap Hcap (table s) idx) as [f Ef]; [apply Hr|done|].
  apply wp_bind. eapply wp_slot; [done|]. destruct (occupied f) eqn:Ho; simpl; [|done].
  assert (occ (table s) idx f) as Hocc by done. rewrite decide_False by (by eapply rep_absent).
  pose proof (proj1 (proj2 (rep_good _ _ _ Hr) idx f Hocc)).
  destruct (Z.ltb_spec (probe_distance f) cur); [done|]. wp_steps. rewrite (next_index_following cap Hcap) by apply Hr.
  eapply wp_increment; [lia|]. apply IH; [by apply following_range|lia..].
Qed.

(** [erase] of a table whose recorded distances are the real ones. *)
Lemma erase_spec m s k : represents cap m s → exact (table s) →
  wp (erase k) s (λ r s', r = bool_decide (is_Some (m !! k)) ∧ represents cap (delete k m) s' ∧ exact (table s')).
Proof.
  intros Hr Hx. unfold erase. wp_steps. unfold id, hash. rewrite (rep_capacity _ _ _ Hr).
  change (hasher k mod cap) with (home k). pose proof (cap_word cap Hcap) as Hw.
  destruct (m !! k) as [v|] eqn:Hk.
  - destruct (rep_present cap Hcap m s k v Hr Hk) as (p & e & He & <- & <-).
    pose proof (dist_range cap Hw (home (key e)) p).
    eapply wp_mono; [eapply (erase_loop_present m s p e); try done|done].
    + by apply home_range.
    + by apply dist_self.
    + lia.
    + lia.
  - eapply wp_mono; [eapply (erase_loop_absent m); try done|].
    + by apply home_range.
    + lia.
    + lia.
    + intros r s' [-> ->]. by rewrite delete_id.
Qed.
End erasing.
(** ** Requests *)

Inductive request := Insert (k : K) (v : V) | Find (k : K) | Erase (k : K) | Size.
Inductive answer := Inserted | Found (o : option V) | Erased (b : bool) | Count (n : Z).

Definition serve (r : request) : M (RobinHoodHashMap K V) answer :=
  match r with
  | Insert k v => insert k v;; mret Inserted
  | Find k =>
      p ← find k;
      match p with
      | Some idx => e ← slot idx; mret (Found (Some (value e)))
      | None => mret (Found None)
      end
  | Erase k => b ← erase k; mret (Erased b)
  | Size => n ← map_size; mret (Count n)
  end.

Fixpoint serve_all (l : list request) : M (RobinHoodHashMap K V) (list answer) :=
  match l with
  | [] => mret []
  | r :: l => a ← serve r; rest ← serve_all l; mret (a :: rest)
  end.

(** What a map answers, and what becomes of it. *)
Definition contract (r : request) m : answer * gmap K V :=
  match r with
  | Insert k v => (Inserted, <[k := v]> m)
  | Find k => (Found (m !! k), m)
  | Erase k => (Erased (bool_decide (is_Some (m !! k))), delete k m)
  | Size => (Count (Z.of_nat (size m)), m)
  end.

Fixpoint contract_all (l : list request) m : list answer :=
  match l with
  | [] => []
  | r :: l => let '(a, m) := contract r m in a :: contract_all l m
  end.

(** Every entry records its real distance. *)
Definition undisplaced s : bool :=
  forallb (λ '(i, e), negb (occupied e) ||
    (probe_distance e =? dist (capacity_ s) (home (capacity_ s) (key e)) (Z.of_nat i)))
    (imap pair (table s)).

(** Nothing is erased while an entry records another distance than its own. *)
Fixpoint gentle (l : list request) s : bool :=
  match l with
  | [] => true
  | r :: l =>
      (match r with Erase _ => undisplaced s | _ => true end) &&
      (match serve r s with Ret _ s' => gentle l s' | _ => true end)
  end.

Lemma undisplaced_exact cap s : capacity_ s = cap → undisplaced s = true → exact cap (table s).
Proof.
  intros <- Hu p e (Hp & Ep & Ho). unfold undisplaced in Hu. rewrite forallb_forall in Hu.
  assert (In (Z.to_nat p, e) (imap pair (table s))) as Hin.
  { apply list_elem_of_In, list_elem_of_lookup. exists (Z.to_nat p). by rewrite list_lookup_imap, Ep. }
  specialize (Hu _ Hin). simpl in Hu. rewrite Ho in Hu. simpl in Hu. bool_to_Z. by rewrite Z2Nat.id in Hu by lia.
Qed.

(** The capacity after [n] requests. *)
Definition capacity_in (init n cap : Z) : Prop := 0 < cap <= Z.max init (3 * n).

Lemma request_spec init n cap m s r : 0 < init <= 536870912 → 0 <= n < 178956970 → Z.of_nat (size m) <= n →
  capacity_in init n cap → represents cap m s →
  (match r with Erase _ => undisplaced s | _ => true end) = true →
  wp (serve r) s (λ a s', a = (contract r m).1 ∧ ∃ cap', capacity_in init (n + 1) cap' ∧
    represents cap' (contract r m).2 s').
Proof.
  intros Hinit Hn Hsz Hc Hr Hg. unfold capacity_in in *. assert (0 < cap < 1073741824) as Hcap by lia.
  assert (0 < cap < 2147483648) as Hcap' by lia.
  destruct r as [k v|k|k|]; unfold serve; wp_steps; cbn [contract fst snd].
  - eapply wp_mono; [by apply (insert_spec cap m)|]. intros [] s' Hr'. wp_steps. split; [done|].
    eexists. split; [|exact Hr']. destruct (Z.leb_spec (3 * cap) (4 * Z.of_nat (size m))); lia.
  - eapply wp_mono; [by apply (find_spec cap Hcap' m)|]. intros [p|] s' [-> Hf].
    + destruct Hf as (e & (_ & Ep & _) & Hm). wp_steps. eapply wp_slot; [done|]. wp_steps. rewrite Hm.
      split; [done|]. exists cap. split; [lia|done].
    + wp_steps. rewrite Hf. split; [done|]. exists cap. split; [lia|done].
  - eapply wp_mono; [apply (erase_spec cap Hcap' m); [done|]|].
    + apply undisplaced_exact; [apply Hr|done].
    + intros b s' (-> & Hr' & _). wp_steps. split; [done|]. exists cap. split; [lia|done].
  - unfold map_size. wp_steps. rewrite (rep_size _ _ _ Hr). split; [done|]. exists cap. split; [lia|done].
Qed.

Lemma contract_size r m : (size (contract r m).2 <= S (size m))%nat.
Proof.
  destruct r as [k v|k|k|]; simpl; [|lia| |lia].
  - rewrite map_size_insert. destruct (m !! k); simpl; lia.
  - rewrite map_size_delete. destruct (m !! k); simpl; lia.
Qed.

Lemma serve_all_spec init l : 0 < init <= 536870912 → ∀ n cap m s, 0 <= n →
  n + Z.of_nat (length l) <= 178956970 → Z.of_nat (size m) <= n → capacity_in init n cap →
  represents cap m s → gentle l s = true → wp (serve_all l) s (λ as' _, as' = contract_all l m).
Proof.
  intros Hinit. induction l as [|r l IH]; intros n cap m s Hn Hl Hsz Hc Hr Hg; cbn [serve_all contract_all]; wp_steps; [done|].
  cbn [gentle] in Hg. apply andb_true_iff in Hg as [Hg Hg']. simpl in Hl.
  pose proof (request_spec init n cap m s r Hinit ltac:(lia) Hsz Hc Hr Hg) as Hs. unfold wp in Hs at 1.
  destruct (serve r s) as [a s1| |] eqn:Es; [|done|done]. destruct Hs as (Ea & cap' & Hc' & Hr').
  unfold wp at 1. rewrite Es. pose proof (contract_size r m). destruct (contract r m) as [a' m'] eqn:Ec. simpl in *. subst a'.
  wp_steps. eapply wp_mono; [apply (IH (n + 1) cap' m' s1); (done || lia)|]. intros as' s2 ->. by wp_steps.
Qed.

(** C10: The hash map is a map. A map made with a capacity of up to [2^29] answers any
    sequence of insertions, searches, erasures and questions for its size as a finite
    map does, whatever the hash function, through all collisions and resizing;
    provided that nothing is erased while an entry records another distance than its
    own. *)
Theorem robin_hood_is_a_map init l : 0 < init <= 536870912 → Z.of_nat (length l) <= 178956970 →
  wp (construct init) (unconstructed : RobinHoodHashMap K V) (λ _ s,
    gentle l s = true → wp (serve_all l) s (λ answers _, answers = contract_all l ∅)).
Proof.
  intros Hinit Hl. eapply wp_mono; [apply construct_spec; lia|]. intros [] s Hr Hg.
  apply (serve_all_spec init l Hinit 0 init ∅ s); [lia|lia|by rewrite map_size_empty|unfold capacity_in; lia|done|done].
Qed.
End tables.

(** ** At work *)

Section work.
#[local] Instance hundreds : Hash Z := λ k, k / 100.

(** Keys that collide, two resizes, and erasing that moves entries back. *)
Definition script : list (request (K := Z) (V := Z)) :=
  [Insert 1 10; Insert 2 20; Insert 3 30; Erase 1; Find 1; Find 3; Insert 1 11; Insert 700 70;
   Erase 2; Find 3; Insert 4 40; Insert 5 50; Insert 1 12; Find 1; Size; Erase 9].

Example robin_hood_is_a_map_witness :
  wp (construct 2) (unconstructed : RobinHoodHashMap Z Z) (λ _ s, gentle script s = true) ∧
  wp (construct 2) (unconstructed : RobinHoodHashMap Z Z) (λ _ s,
    gentle script s = true → wp (serve_all script) s (λ answers _, answers = contract_all script ∅)).
Proof. split; [by vm_compute|apply (robin_hood_is_a_map 2 script); [lia|simpl; lia]]. Defined.

(** Erasing loses entries. Key 101 is displaced by key 2 and records a distance of 2
    instead of 1; two erasures before it move it in front of its home slot, where it
    is not found any more. *)
Example erasing_loses :
  wp (construct 8;; serve_all [Insert 1 10; Insert 101 20; Insert 2 30; Find 101; Erase 1; Erase 2; Find 101; Size])
    (unconstructed : RobinHoodHashMap Z Z)
    (λ answers _, answers = [Inserted; Inserted; Inserted; Found (Some 20); Erased true; Erased true; Found None; Count 1]).
Proof. by vm_compute. Qed.
End work.
