(* ===== verification/MsPrint.v ===== *)
(** * Formatted printing

    libc/ms_print.cc: numbers as text, [malloc_vsnprintf], which formats into a buffer
    and truncates, and [malloc_vcprintf], which writes what it has formatted to a file
    descriptor. *)

From Stdlib Require Import Ascii.
From S2P Require Import Prelude.
Open Scope char_scope.
Open Scope Z_scope.

(** ** Numbers as text *)

(** An array of characters; [None] is one that has not been written. *)
Abbreviation Buffer := (list (option ascii)).
Definition NUL : ascii := "000".

Definition buf_write (i : Z) (c : ascii) : M Buffer unit :=
  s ← gets id;
  if (0 <=? i) && (i <? Z.of_nat (length s)) then modify <[Z.to_nat i := Some c]> else undef.

Definition U2S_BUFSIZE : Z := 65.
Definition D2S_BUFSIZE : Z := 1 + U2S_BUFSIZE.
Definition O2S_BUFSIZE : Z := 1 + U2S_BUFSIZE.
Definition X2S_BUFSIZE : Z := 2 + U2S_BUFSIZE.

Definition lower_digits : list ascii := String.list_ascii_of_string "0123456789abcdefghijklmnopqrstuvwxyz".
Definition upper_digits : list ascii := String.list_ascii_of_string "0123456789ABCDEFGHIJKLMNOPQRSTUVWXYZ".

(** The loops of [u2s]: [low] is the index of the next digit, [rest] what is left. *)
Fixpoint u2s_loop (fuel : nat) (digits : list ascii) (low rest : Z → Z) (x i : Z) : M Buffer Z :=
  match fuel with
  | O => undef
  | S fuel =>
      let i := u32 (i - 1) in
      d ← deref (digits !! Z.to_nat (low x));
      buf_write i d;;
      let x := rest x in
      if 0 <? x then u2s_loop fuel digits low rest x i else mret i
  end.

(** The results are the index of the first character and the length. *)
Definition u2s (x base : Z) (uppercase : bool) : M Buffer (Z * Z) :=
  let i := U2S_BUFSIZE - 1 in
  buf_write i NUL;;
  i ← (if base =? 10 then
         u2s_loop 64 (take 10 lower_digits) (λ x, x mod 10) (λ x, x / 10) x i
       else if base =? 16 then
         let digits := if uppercase then take 16 upper_digits else take 16 lower_digits in
         u2s_loop 64 digits (λ x, Z.land x 15) (λ x, Z.shiftr x 4) x i
       else
         let digits := if uppercase then upper_digits else lower_digits in
         whenM (negb ((2 <=? base) && (base <=? 36))) (throw "assert");;
         u2s_loop 64 digits (λ x, x mod base) (λ x, x / base) x i);
  mret (i, U2S_BUFSIZE - 1 - i).

(** One character before the text. *)
Definition prepend (c : ascii) (s slen : Z) : M Buffer (Z * Z) :=
  buf_write (s - 1) c;;
  mret (s - 1, slen + 1).

Definition d2s (x : Z) (sign : ascii) : M Buffer (Z * Z) :=
  let neg := x <? 0 in
  x ← (if neg then if x =? - 9223372036854775808 then undef else mret (- x) else mret x);
  '(s, slen) ← u2s x 10 false;
  let sign := if neg then "-" else sign in
  if Ascii.eqb sign "-" then if neg then prepend sign s slen else mret (s, slen)
  else if Ascii.eqb sign " " || Ascii.eqb sign "+" then prepend sign s slen
  else mret (s, slen).

Definition buf_read (i : Z) : M Buffer ascii :=
  s ← gets id;
  if i <? 0 then undef else o ← deref (s !! Z.to_nat i); deref o.

Definition o2s (x : Z) (alt_form : bool) : M Buffer (Z * Z) :=
  '(s, slen) ← u2s x 8 false;
  c ← buf_read s;
  if alt_form && negb (Ascii.eqb c "0") then prepend "0" s slen else mret (s, slen).

Definition x2s (x : Z) (alt_form uppercase : bool) : M Buffer (Z * Z) :=
  '(s, slen) ← u2s x 16 uppercase;
  if alt_form then
    let s := s - 2 in
    buf_write s "0";;
    buf_write (s + 1) (if uppercase then "X" else "x");;
    mret (s, slen + 2)
  else mret (s, slen).

(** ** Arguments *)

(** A number of a type of [bits] bits, or a pointer to characters. Types of one width
    stand for each other, as they do where [long] and [long long] have 64 bits. *)
Inductive Arg :=
| Num (signed : bool) (bits z : Z)
| Str (s : list ascii).

Record Out := MkOut { str : Buffer; ap : list Arg }.
Definition set_str (v : Buffer) (s : Out) : Out := MkOut v (ap s).
Definition set_ap (v : list Arg) (s : Out) : Out := MkOut (str s) v.

(** [va_arg] of a number; a type of the other sign is allowed for a value of both. *)
Definition va_num (signed : bool) (bits : Z) : M Out Z :=
  l ← gets ap;
  match l with
  | Num sg b z :: l =>
      if (b =? bits) && (Bool.eqb sg signed || ((0 <=? z) && (z <? 2 ^ (bits - 1))))
      then modify (set_ap l);; mret z
      else undef
  | _ => undef
  end.
Definition va_str : M Out (list ascii) :=
  l ← gets ap;
  match l with Str s :: l => modify (set_ap l);; mret s | _ => undef end.

(** [GET_ARG_NUMERIC]; [uns] is the bit 0x80. *)
Definition GET_ARG_NUMERIC (len : ascii) (uns : bool) : M Out Z :=
  if Ascii.eqb len "?" then va_num (negb uns) 32
  else if Ascii.eqb len "l" || Ascii.eqb len "q" || Ascii.eqb len "j" || Ascii.eqb len "z" then va_num (negb uns) 64
  else if Ascii.eqb len "t" && negb uns then va_num true 64
  else if Ascii.eqb len "p" && negb uns then va_num false 64
  else mret 0.

(** ** Appending *)

(** Writing characters at [str[i]]. *)
Definition str_write (i : Z) (l : list (option ascii)) : M Out unit :=
  b ← gets str;
  if (0 <=? i) && (i + Z.of_nat (length l) <=? Z.of_nat (length b))
  then modify (set_str (take (Z.to_nat i) b ++ l ++ drop (Z.to_nat i + length l) b))
  else undef.

Definition APPEND_C (size : Z) (c : ascii) (i : Z) : M Out Z :=
  whenM (i <? size) (str_write i [Some c]);;
  mret (i +64 1).

(** [s] are the characters from the pointer on; [memcpy] must not read past them. *)
Definition APPEND_S (size : Z) (s : list (option ascii)) (slen i : Z) : M Out Z :=
  whenM (i <? size)
    (let cpylen := if slen <=? size -64 i then slen else size -64 i in
     if cpylen <=? Z.of_nat (length s) then str_write i (take (Z.to_nat cpylen) s) else undef);;
  mret (i +64 slen).

Fixpoint append_pad (n : nat) (size : Z) (c : ascii) (i : Z) : M Out Z :=
  match n with
  | O => mret i
  | S n => i ← APPEND_C size c i; append_pad n size c i
  end.

Definition APPEND_PADDED_S (size : Z) (pad_zero : bool) (s : list (option ascii)) (slen width : Z)
    (left_justify : bool) (i : Z) : M Out Z :=
  let pad_len :=
    if width =? -1 then 0 else if slen <? u64 width then u64 width -64 slen else 0 in
  i ← (if negb left_justify && negb (pad_len =? 0)
       then append_pad (Z.to_nat pad_len) size (if pad_zero then "0" else " ") i
       else mret i);
  i ← APPEND_S size s slen i;
  if left_justify && negb (pad_len =? 0)
  then append_pad (Z.to_nat pad_len) size " " i
  else mret i.

(** A number's text in a buffer of its own. *)
Definition converted (n : Z) (m : M Buffer (Z * Z)) : M Out (list (option ascii) * Z) :=
  match m (replicate (Z.to_nat n) None) with
  | Ret (s, slen) buf => mret (drop (Z.to_nat s) buf, slen)
  | Throw e _ => throw e
  | Undef => undef
  end.

Definition strlen (s : list ascii) : option Z :=
  match list_find (λ c, c = NUL) s with Some (n, _) => Some (Z.of_nat n) | None => None end.

(** ** Directives *)

Record Flags := MkFlags { alt_form : bool; left_justify : bool; plus_space : bool; plus_plus : bool }.
Definition no_flags : Flags := MkFlags false false false false.
Definition set_left (fl : Flags) : Flags := MkFlags (alt_form fl) true (plus_space fl) (plus_plus fl).

Definition assert (b : bool) : M Out unit := whenM (negb b) (throw "assert").

(** A pointer into the format is what is left of it; its end stands for the null
    character. *)
Fixpoint flags (f : list ascii) (fl : Flags) : M Out (Flags * list ascii) :=
  match f with
  | [] => mret (fl, [])
  | c :: f' =>
      if Ascii.eqb c "#" then flags f' (MkFlags true (left_justify fl) (plus_space fl) (plus_plus fl))
      else if Ascii.eqb c "-" then
        assert (negb (left_justify fl));;
        flags f' (set_left fl)
      else if Ascii.eqb c " " then
        assert (negb (plus_space fl));;
        flags f' (MkFlags (alt_form fl) (left_justify fl) true (plus_plus fl))
      else if Ascii.eqb c "+" then
        assert (negb (plus_plus fl));;
        flags f' (MkFlags (alt_form fl) (left_justify fl) (plus_space fl) true)
      else mret (fl, f)
  end.

Definition at_ (f : list ascii) : ascii := default NUL (head f).
Definition is_digit (c : ascii) : bool := bool_decide (c ∈ take 10 lower_digits).

(** A width in digits is read from a variable that has never been written. *)
Definition width_of (f : list ascii) (fl : Flags) : M Out (Z * Flags * list ascii) :=
  if Ascii.eqb (at_ f) "*" then
    width ← va_num true 32;
    if width <? 0 then
      (if width =? -2147483648 then undef else mret (- width, set_left fl, tail f))
    else mret (width, fl, tail f)
  else if is_digit (at_ f) then undef
  else mret (-1, fl, f).

(** So is a precision in digits. *)
Definition precision_of (f : list ascii) : M Out (Z * list ascii) :=
  if Ascii.eqb (at_ f) "." then
    let f := tail f in
    if Ascii.eqb (at_ f) "*" then
      prec ← va_num true 32;
      mret (prec, tail f)
    else if is_digit (at_ f) then undef
    else mret (-1, f)
  else mret (-1, f).

Definition length_of (f : list ascii) : ascii * list ascii :=
  if Ascii.eqb (at_ f) "l" then
    let f := tail f in
    if Ascii.eqb (at_ f) "l" then ("q", tail f)%char else ("l", f)%char
  else if Ascii.eqb (at_ f) "q" || Ascii.eqb (at_ f) "j" || Ascii.eqb (at_ f) "t" || Ascii.eqb (at_ f) "z"
  then (at_ f, tail f)
  else ("?"%char, f).

(** The conversion at [f]: the new [i] and [f]. *)
Definition conversion (size : Z) (fl : Flags) (width prec : Z) (len : ascii) (f : list ascii) (i : Z) :
    M Out (Z * list ascii) :=
  let pad_zero := false in
  let append s slen i :=
    i ← APPEND_PADDED_S size pad_zero s slen width (left_justify fl) i;
    mret (i, tail f) in
  let c := at_ f in
  if Ascii.eqb c "%" then i ← APPEND_C size c i; mret (i, tail f)
  else if Ascii.eqb c "d" || Ascii.eqb c "i" then
    assert (negb pad_zero);;
    val ← GET_ARG_NUMERIC len false;
    '(s, slen) ← converted D2S_BUFSIZE
      (d2s val (if plus_plus fl then "+" else if plus_space fl then " " else "-"));
    append s slen i
  else if Ascii.eqb c "o" then
    val ← GET_ARG_NUMERIC len true;
    '(s, slen) ← converted O2S_BUFSIZE (o2s val (alt_form fl));
    append s slen i
  else if Ascii.eqb c "u" then
    val ← GET_ARG_NUMERIC len true;
    '(s, slen) ← converted U2S_BUFSIZE (u2s val 10 false);
    append s slen i
  else if Ascii.eqb c "x" || Ascii.eqb c "X" then
    val ← GET_ARG_NUMERIC len true;
    '(s, slen) ← converted X2S_BUFSIZE (x2s val (alt_form fl) (Ascii.eqb c "X"));
    append s slen i
  else if Ascii.eqb c "c" then
    assert (Ascii.eqb len "?" || Ascii.eqb len "l");;
    val ← va_num true 32;
    append [Some (Ascii.ascii_of_N (Z.to_N (val mod 256))); Some NUL] 1 i
  else if Ascii.eqb c "s" then
    assert (Ascii.eqb len "?" || Ascii.eqb len "l");;
    s ← va_str;
    slen ← (if prec <? 0 then deref (strlen s) else mret prec);
    append (Some <$> s) slen i
  else if Ascii.eqb c "p" then
    val ← GET_ARG_NUMERIC "p" false;
    '(s, slen) ← converted X2S_BUFSIZE (x2s val true false);
    append s slen i
  else mret (i, f).

(** What follows a percent sign. *)
Definition directive (size : Z) (f : list ascii) (i : Z) : M Out (Z * list ascii) :=
  '(fl, f) ← flags f no_flags;
  '(width, fl, f) ← width_of f fl;
  '(prec, f) ← precision_of f;
  let '(len, f) := length_of f in
  conversion size fl width prec len f i.

(** ** Formatting *)

(** Each round takes a character of the format, at least. *)
Fixpoint format_loop (fuel : nat) (size : Z) (f : list ascii) (i : Z) : M Out Z :=
  match fuel with
  | O => undef
  | S fuel =>
      if Ascii.eqb (at_ f) NUL then mret i
      else if Ascii.eqb (at_ f) "%" then
        '(i, f) ← directive size (tail f) i;
        format_loop fuel size f i
      else
        i ← APPEND_C size (at_ f) i;
        format_loop fuel size (tail f) i
  end.

Definition malloc_vsnprintf (size : Z) (format : list ascii) : M Out Z :=
  i ← format_loop (S (length format)) size format 0;
  str_write (if i <? size then i else size -64 1) [Some NUL];;
  mret i.

(** ** Writing *)

(** A file descriptor: what has been written to it, and what its coming calls of
    [write] will do: an error, or how many bytes they take at most. When the list is at
    its end they take everything. *)
Record File := MkFile { written : list ascii; calls : list (option Z) }.

Definition write (buf : list ascii) (count : Z) : M File Z := λ s,
  if count <=? Z.of_nat (length buf) then
    match calls s with
    | [] => Ret count (MkFile (written s ++ take (Z.to_nat count) buf) [])
    | None :: l => Ret (-1) (MkFile (written s) l)
    | Some n :: l =>
        let n := Z.min count n in
        Ret n (MkFile (written s ++ take (Z.to_nat n) buf) l)
    end
  else Undef.

Fixpoint malloc_write_fd (fuel : nat) (buf : list ascii) (count bytes_written : Z) : M File Z :=
  match fuel with
  | O => undef
  | S fuel =>
      result ← write (drop (Z.to_nat bytes_written) buf) (count -64 bytes_written);
      if result <? 0 then mret result
      else
        let bytes_written := bytes_written +64 result in
        if bytes_written <? count then malloc_write_fd fuel buf count bytes_written
        else mret bytes_written
  end.

Definition write_message (fuel : nat) (s : list ascii) : M File unit :=
  n ← deref (strlen s);
  malloc_write_fd fuel s n 0;;
  mret ().

Definition MALLOC_PRINTF_BUFSIZE : Z := 4096.

(** The characters of a buffer up to the first that has not been written. *)
Fixpoint chars (b : Buffer) : list ascii :=
  match b with Some c :: b => c :: chars b | _ => [] end.

Definition malloc_vcprintf (fuel : nat) (format : list ascii) (args : list Arg) : M File unit :=
  match malloc_vsnprintf MALLOC_PRINTF_BUFSIZE format
          (MkOut (replicate (Z.to_nat MALLOC_PRINTF_BUFSIZE) None) args) with
  | Ret _ s => write_message fuel (chars (str s))
  | Throw e _ => throw e
  | Undef => undef
  end.

#[global] Arguments u2s_loop : simpl never.
