(* ===== verification/MsPrintTheorems.v ===== *)
(** * Properties of formatted printing

    Numbers are printed in the base, formats say what they look like they say, and
    what does not fit is cut off. *)

From Stdlib Require Import Ascii.
From S2P Require Import Prelude MsPrint.
Open Scope Z_scope.

(** ** Numerals *)

(** The digits of a number, the most significant one first. *)
Fixpoint to_digits (fuel : nat) (base x : Z) : list Z :=
  match fuel with
  | O => []
  | S fuel => if x <? base then [x] else to_digits fuel base (x / base) ++ [x mod base]
  end.

(** The number that digits stand for. *)
Definition of_digits (base : Z) (l : list Z) : Z := foldl (λ v d, v * base + d) 0 l.

Lemma of_digits_snoc base l d : of_digits base (l ++ [d]) = of_digits base l * base + d.
Proof. unfold of_digits. by rewrite foldl_app. Qed.

Section digits.
Context (base : Z) (Hbase : 2 <= base).

Lemma to_digits_value fuel : ∀ x, 0 <= x < base ^ Z.of_nat fuel → of_digits base (to_digits fuel base x) = x.
Proof.
  induction fuel as [|fuel IH]; intros x Hx; [simpl in *; unfold of_digits; simpl; lia|]. cbn [to_digits].
  destruct (Z.ltb_spec x base); [done|]. rewrite of_digits_snoc, IH; [rewrite Z.mul_comm; by rewrite <- Z.div_mod by lia|].
  rewrite Nat2Z.inj_succ, Z.pow_succ_r in Hx by lia.
  split; [apply Z.div_pos; lia|apply Z.div_lt_upper_bound; lia].
Qed.

Lemma to_digits_range fuel : ∀ x, 0 <= x → Forall (λ d, 0 <= d < base) (to_digits fuel base x).
Proof.
  induction fuel as [|fuel IH]; intros x Hx; cbn [to_digits]; [done|]. destruct (Z.ltb_spec x base).
  - constructor; [lia|done].
  - apply Forall_app. split; [apply IH, Z.div_pos; lia|]. constructor; [apply Z.mod_pos_bound; lia|done].
Qed.

Lemma to_digits_length fuel x : (length (to_digits fuel base x) <= fuel)%nat.
Proof.
  revert x. induction fuel as [|fuel IH]; intros x; cbn [to_digits]; [done|]. destruct (x <? base); [simpl; lia|].
  rewrite length_app. specialize (IH (x / base)). simpl. lia.
Qed.

(** No numeral but that of 0 begins with a zero. *)
Lemma to_digits_head fuel : ∀ x, 0 <= x < base ^ Z.of_nat fuel → (0 < fuel)%nat →
  ∃ d l, to_digits fuel base x = d :: l ∧ (d = 0 → x = 0).
Proof.
  induction fuel as [|fuel IH]; intros x Hx Hf; [lia|]. cbn [to_digits].
  destruct (Z.ltb_spec x base); [exists x, []; done|]. rewrite Nat2Z.inj_succ, Z.pow_succ_r in Hx by lia.
  assert (0 < x / base) by (apply Z.div_str_pos; lia).
  destruct (decide (fuel = 0%nat)) as [->|]; [simpl in Hx; lia|].
  destruct (IH (x / base)) as (d & l & -> & Hd); [|lia|].
  { split; [lia|apply Z.div_lt_upper_bound; lia]. }
  exists d, (l ++ [x mod base]). split; [done|]. intros E. specialize (Hd E). lia.
Qed.
End digits.

(** The characters of digits. *)
Definition spell_digits (digits : list ascii) (l : list Z) : list ascii := (λ d, default NUL (digits !! Z.to_nat d)) <$> l.

(** Writing characters over a buffer from a position on. *)
Definition overwrite (i : nat) (l : list (option ascii)) (b : Buffer) : Buffer := take i b ++ l ++ drop (i + length l) b.

Lemma overwrite_length i l b : (i + length l <= length b)%nat → length (overwrite i l b) = length b.
Proof. intros. unfold overwrite. rewrite !length_app, length_take, length_drop. lia. Qed.

Lemma overwrite_cons i c l b : (i + S (length l) <= length b)%nat →
  <[i := c]> (overwrite (S i) l b) = overwrite i (c :: l) b.
Proof.
  intros Hl. destruct (lookup_lt_is_Some_2 b i) as [x Hx]; [lia|]. unfold overwrite. rewrite (take_S_r b i x Hx).
  rewrite <- app_assoc, insert_app_r_alt by (rewrite length_take; lia).
  replace (i - length (take i b))%nat with 0%nat by (rewrite length_take; lia).
  simpl. by rewrite Nat.add_succ_r.
Qed.

Lemma overwrite_nil i b : overwrite i [] b = b.
Proof. unfold overwrite. simpl. rewrite Nat.add_0_r. apply take_drop. Qed.

Lemma buf_write_ret i c (b : Buffer) : (i < length b)%nat → buf_write (Z.of_nat i) c b = Ret () (<[i := Some c]> b).
Proof.
  intros Hi. unfold buf_write, gets, modify, id, mbind, M_bind. 
  assert ((0 <=? Z.of_nat i) && (Z.of_nat i <? Z.of_nat (length b)) = true) as -> by (apply andb_true_iff; lia).
  by rewrite Nat2Z.id.
Qed.

Lemma overwrite_snoc i l c b : (i + length l < length b)%nat →
  overwrite i l (<[(i + length l)%nat := c]> b) = overwrite i (l ++ [c]) b.
Proof.
  intros Hl. unfold overwrite. rewrite take_insert_ge by lia. rewrite length_app. simpl.
  rewrite <- !app_assoc. do 2 f_equal. rewrite (drop_S _ c) by (apply list_lookup_insert_eq; lia).
  rewrite drop_insert_lt by lia. simpl. f_equal. f_equal. lia.
Qed.

Lemma u2s_loop_S fuel digits low rest x i (b : Buffer) : u2s_loop (S fuel) digits low rest x i b =
  match digits !! Z.to_nat (low x) with
  | Some d =>
      match buf_write (u32 (i - 1)) d b with
      | Ret _ b => (if 0 <? rest x then u2s_loop fuel digits low rest (rest x) (u32 (i - 1)) else mret (u32 (i - 1))) b
      | Throw e b => Throw e b
      | Undef => Undef
      end
  | None => Undef
  end.
Proof. unfold u2s_loop at 1; fold u2s_loop. unfold mbind, M_bind, deref. by destruct (digits !! _). Qed.

Lemma u2s_loop_spec digits low rest base : 2 <= base <= Z.of_nat (length digits) →
  (∀ x, 0 <= x → low x = x mod base ∧ rest x = x / base) → ∀ fuel x i (b : Buffer), (0 < fuel)%nat →
  0 <= x < base ^ Z.of_nat fuel → (length (to_digits fuel base x) <= i <= length b)%nat → Z.of_nat (length b) < w32 →
  let l := to_digits fuel base x in
  u2s_loop fuel digits low rest x (Z.of_nat i) b =
    Ret (Z.of_nat (i - length l)) (overwrite (i - length l) (Some <$> spell_digits digits l) b).
Proof.
  intros Hbase Hlow. induction fuel as [|fuel IH]; intros x i b Hf Hx Hi Hb; [lia|].
  rewrite Nat2Z.inj_succ, Z.pow_succ_r in Hx by lia. cbn [to_digits] in *. rewrite u2s_loop_S.
  destruct (Hlow x ltac:(lia)) as [-> ->]. pose proof (Z.mod_pos_bound x base ltac:(lia)).
  assert (∃ c, digits !! Z.to_nat (x mod base) = Some c) as [c Hc] by (apply lookup_lt_is_Some; lia).
  assert (1 <= i)%nat as Hi1 by (destruct (x <? base); rewrite ?length_app in Hi; simpl in Hi; lia).
  assert (u32 (Z.of_nat i - 1) = Z.of_nat (i - 1)) as -> by (rewrite u32_small by lia; lia).
  rewrite Hc, buf_write_ret by lia.
  destruct (Z.ltb_spec x base) as [Hlt|Hge].
  - rewrite Z.div_small by lia. simpl in Hi. rewrite Z.mod_small in Hc by lia. simpl. rewrite Hc. simpl.
    rewrite <- overwrite_cons by (simpl; lia). by rewrite overwrite_nil.
  - assert (0 < x / base) by (apply Z.div_str_pos; lia). destruct (Z.ltb_spec 0 (x / base)); [|lia].
    rewrite length_app in *. simpl in Hi.
    destruct (decide (fuel = 0%nat)) as [->|Hne]; [simpl in Hx; lia|].
    rewrite IH; rewrite ?length_insert; try lia; [|split; [lia|apply Z.div_lt_upper_bound; lia]].
    set (l' := to_digits fuel base (x / base)) in *. simpl.
    replace (i - (length l' + 1))%nat with (i - 1 - length l')%nat by lia. f_equal.
    replace (i - 1)%nat with (i - 1 - length l' + length (Some <$> spell_digits digits l'))%nat at 2.
    2:{ rewrite length_fmap. unfold spell_digits. rewrite length_fmap. lia. }
    rewrite overwrite_snoc.
    + unfold spell_digits. rewrite !fmap_app. simpl. by rewrite Hc.
    + rewrite length_fmap. unfold spell_digits. rewrite length_fmap. lia.
Qed.

(** A numeral in a base, with digits of upper or lower case. *)
Definition digit_chars (uppercase : bool) : list ascii := if uppercase then upper_digits else lower_digits.
Definition numeral (base : Z) (uppercase : bool) (x : Z) : list ascii :=
  spell_digits (digit_chars uppercase) (to_digits 64 base x).

Lemma spell_digits_take n digits l : Forall (λ d, 0 <= d < Z.of_nat n) l →
  spell_digits (take n digits) l = spell_digits digits l.
Proof.
  intros Hl. unfold spell_digits. apply list_fmap_ext. intros i d Hd.
  rewrite lookup_take_lt; [done|]. rewrite Forall_forall in Hl. specialize (Hl d). apply list_elem_of_lookup_2 in Hd.
  specialize (Hl Hd). lia.
Qed.

Lemma numeral_length base uppercase x : (length (numeral base uppercase x) <= 64)%nat.
Proof. unfold numeral, spell_digits. rewrite length_fmap. apply to_digits_length. Qed.

Lemma word_digits base x : 2 <= base → 0 <= x < w64 → 0 <= x < base ^ Z.of_nat 64.
Proof.
  intros Hb Hx. assert (2 ^ 64 <= base ^ 64) by (apply Z.pow_le_mono_l; lia). change (2 ^ 64) with w64 in *.
  change (Z.of_nat 64) with 64. lia.
Qed.

Lemma u2s_spec x base uppercase (b : Buffer) : 2 <= base <= 36 → 0 <= x < w64 →
  (65 <= length b)%nat → Z.of_nat (length b) < w32 →
  let t := numeral base uppercase x in
  u2s x base uppercase b =
    Ret (Z.of_nat (64 - length t), Z.of_nat (length t)) (overwrite (64 - length t) (Some <$> t ++ [NUL]) b).
Proof.
  intros Hbase Hx Hb Hw t. pose proof (word_digits base x ltac:(lia) Hx) as Hp.
  pose proof (to_digits_range base ltac:(lia) 64 x ltac:(lia)) as Hr. pose proof (to_digits_length base 64 x) as Hl.
  assert (∀ n low rest, 2 <= base <= Z.of_nat n → (n <= 36)%nat →
    (∀ x, 0 <= x → low x = x mod base ∧ rest x = x / base) →
    u2s_loop 64 (take n (digit_chars uppercase)) low rest x 64 (<[64%nat := Some NUL]> b) =
      Ret (Z.of_nat (64 - length t)) (overwrite (64 - length t) (Some <$> t ++ [NUL]) b)) as Hloop.
  { intros n low rest Hn Hn36 Hlow. change 64 with (Z.of_nat 64) at 1.
    rewrite (u2s_loop_spec _ low rest base); [| |done|lia|done|rewrite length_insert; lia|by rewrite length_insert].
    - rewrite spell_digits_take by (eapply Forall_impl; [exact Hr|]; simpl; lia). unfold t, numeral.
      set (l := to_digits 64 base x) in *. change (spell_digits (digit_chars uppercase) l) with t.
      assert (length t = length l) as -> by (unfold t, numeral, spell_digits; by rewrite length_fmap). f_equal.
      replace 64%nat with (64 - length l + length (Some <$> t))%nat at 2.
      2:{ rewrite length_fmap. unfold t, numeral, spell_digits. rewrite length_fmap. fold l. lia. }
      rewrite overwrite_snoc; [by rewrite fmap_app|]. rewrite length_fmap. unfold t, numeral, spell_digits.
      rewrite length_fmap. fold l. lia.
    - rewrite length_take. assert (length (digit_chars uppercase) = 36%nat) as -> by (by destruct uppercase). lia. }
  unfold u2s. change (U2S_BUFSIZE - 1) with (Z.of_nat 64). unfold mbind, M_bind.
  rewrite buf_write_ret by lia. change (Z.of_nat 64) with 64.
  assert (64 - Z.of_nat (64 - length t) = Z.of_nat (length t)) as Hlen.
  { assert (length t <= 64)%nat by apply numeral_length. lia. }
  destruct (Z.eqb_spec base 10) as [->|H10]; [|destruct (Z.eqb_spec base 16) as [->|H16]].
  - assert (take 10 lower_digits = take 10 (digit_chars uppercase)) as -> by (by destruct uppercase).
    rewrite (Hloop 10%nat); [|done|lia|done]. unfold mret, M_ret. by rewrite Hlen.
  - assert ((if uppercase then take 16 upper_digits else take 16 lower_digits) = take 16 (digit_chars uppercase)) as ->
      by (by destruct uppercase).
    rewrite (Hloop 16%nat); [|done|lia|].
    + unfold mret, M_ret. by rewrite Hlen.
    + intros y Hy. change 15 with (Z.ones 4). by rewrite Z.land_ones, Z.shiftr_div_pow2 by lia.
  - unfold whenM. assert ((2 <=? base) && (base <=? 36) = true) as -> by (apply andb_true_iff; lia). simpl negb. cbv iota.
    assert ((if uppercase then upper_digits else lower_digits) = take 36 (digit_chars uppercase)) as ->
      by (by destruct uppercase).
    unfold mret, M_ret. cbn [negb]. cbv beta iota. rewrite (Hloop 36%nat); [by rewrite Hlen|lia|lia|done].
Qed.

(** [m], run on a buffer of [n] characters, leaves the text [t] in it. *)
Definition yields (n : Z) (m : M Buffer (Z * Z)) (t : list ascii) : Prop :=
  ∃ rest, ∀ s, converted n m s = Ret ((Some <$> t) ++ rest, Z.of_nat (length t)) s.

Lemma yields_from n m p t (b : Buffer) : (p <= length b)%nat →
  m (replicate (Z.to_nat n) None) = Ret (Z.of_nat p, Z.of_nat (length t)) (overwrite p (Some <$> t ++ [NUL]) b) →
  yields n m t.
Proof.
  intros Hp E. eexists. intros s. unfold converted. rewrite E, Nat2Z.id. unfold overwrite.
  rewrite drop_app_length' by (rewrite length_take; lia). rewrite fmap_app, <- app_assoc. reflexivity.
Qed.

Lemma yields_ext n m m' t : (∀ b, m b = m' b) → yields n m t → yields n m' t.
Proof. intros E [rest Hy]. exists rest. intros s. rewrite <- (Hy s). unfold converted. by rewrite E. Qed.

Ltac run_u2s :=
  intros ?; unfold mbind, M_bind, mret, M_ret; simpl;
  match goal with |- context [u2s ?x ?b ?u ?s] => by destruct (u2s x b u s) as [[? ?] ?| |] end.

Lemma prepend_spec c p l n (b : Buffer) : (p + S (length l) <= length b)%nat →
  prepend c (Z.of_nat (S p)) n (overwrite (S p) l b) = Ret (Z.of_nat p, n + 1) (overwrite p (Some c :: l) b).
Proof.
  intros Hl. unfold prepend, mbind, M_bind. replace (Z.of_nat (S p) - 1) with (Z.of_nat p) by lia.
  rewrite buf_write_ret by (rewrite overwrite_length; lia). by rewrite overwrite_cons by lia.
Qed.

Section conversions.
Context (n : Z) (Hn : 65 <= n <= 67).
Local Abbreviation fresh := (replicate (Z.to_nat n) (None : option ascii)).

Lemma u2s_fresh x base uppercase : 2 <= base <= 36 → 0 <= x < w64 → let t := numeral base uppercase x in
  u2s x base uppercase fresh =
    Ret (Z.of_nat (64 - length t), Z.of_nat (length t)) (overwrite (64 - length t) (Some <$> t ++ [NUL]) fresh).
Proof. intros Hb Hx t. apply u2s_spec; rewrite ?length_replicate; (done || unfold w32; lia). Qed.

Lemma u2s_yields x base uppercase : 2 <= base <= 36 → 0 <= x < w64 →
  yields n (u2s x base uppercase) (numeral base uppercase x).
Proof.
  intros Hb Hx. eapply yields_from; [|by apply u2s_fresh]. rewrite length_replicate. lia.
Qed.

(** A text with one more character in front. *)
Lemma prepend_yields c t : (length t < 64)%nat →
  prepend c (Z.of_nat (64 - length t)) (Z.of_nat (length t)) (overwrite (64 - length t) (Some <$> t ++ [NUL]) fresh) =
    Ret (Z.of_nat (63 - length t), Z.of_nat (length (c :: t)))
      (overwrite (63 - length t) (Some <$> (c :: t) ++ [NUL]) fresh).
Proof.
  intros Ht. replace (64 - length t)%nat with (S (63 - length t)) by lia.
  rewrite prepend_spec; [do 2 f_equal; simpl; lia|].
  rewrite length_fmap, length_app, length_replicate. simpl. lia.
Qed.

Lemma numeral_short base uppercase x m : 2 <= base → 0 <= x < w64 → w64 <= base ^ Z.of_nat m → (0 < m)%nat →
  (length (numeral base uppercase x) <= m)%nat.
Proof.
  intros Hb Hx Hm Hm0. unfold numeral, spell_digits. rewrite length_fmap.
  assert (∀ fuel k y, 0 <= y < base ^ Z.of_nat k → (0 < k)%nat → (length (to_digits fuel base y) <= k)%nat) as Hk.
  { induction fuel as [|fuel IH]; intros k y Hy Hk; cbn [to_digits]; [simpl; lia|].
    destruct (Z.ltb_spec y base); [simpl; lia|]. rewrite length_app. simpl.
    destruct k as [|k]; [lia|]. rewrite Nat2Z.inj_succ, Z.pow_succ_r in Hy by lia.
    destruct (decide (k = 0%nat)) as [->|]; [simpl in Hy; lia|].
    specialize (IH k (y / base)). assert (0 <= y / base < base ^ Z.of_nat k).
    { split; [apply Z.div_pos; lia|apply Z.div_lt_upper_bound; lia]. }
    specialize (IH ltac:(done) ltac:(lia)). lia. }
  apply Hk; [lia|done].
Qed.

Definition signed_text (x : Z) (sign : ascii) : list ascii :=
  if x <? 0 then "-"%char :: numeral 10 false (- x)
  else if Ascii.eqb sign " " || Ascii.eqb sign "+" then sign :: numeral 10 false x else numeral 10 false x.

Lemma d2s_yields x sign : - 2 ^ 63 < x < 2 ^ 63 → sign ∈ ["-"; " "; "+"]%char →
  yields n (d2s x sign) (signed_text x sign).
Proof.
  intros Hx Hsign. assert (0 <= Z.abs x < w64) as Hw by (unfold w64; lia).
  pose proof (u2s_fresh (Z.abs x) 10 false ltac:(lia) Hw) as E. cbv zeta in E.
  assert (w64 <= 10 ^ Z.of_nat 20) as H20 by (vm_compute; discriminate).
  pose proof (numeral_short 10 false (Z.abs x) 20 ltac:(lia) Hw H20 ltac:(lia)) as Hl.
  assert (∀ c, yields n (λ b, match u2s (Z.abs x) 10 false b with
    | Ret (s, slen) b => prepend c s slen b | Throw e b => Throw e b | Undef => Undef end)
    (c :: numeral 10 false (Z.abs x))) as Hpre.
  { intros c. eapply yields_from; [|rewrite E, prepend_yields by lia; reflexivity]. rewrite length_replicate. lia. }
  unfold d2s, signed_text. destruct (Z.ltb_spec x 0).
  - destruct (Z.eqb_spec x (-9223372036854775808)); [lia|]. replace (- x) with (Z.abs x) by lia.
    eapply yields_ext; [|apply (Hpre "-"%char)]. run_u2s.
  - replace x with (Z.abs x) by lia. repeat (apply elem_of_cons in Hsign as [->|Hsign]); [| | |by apply not_elem_of_nil in Hsign].
    + eapply yields_ext; [|by apply (u2s_yields (Z.abs x) 10 false)]. run_u2s.
    + eapply yields_ext; [|apply (Hpre " "%char)]. run_u2s.
    + eapply yields_ext; [|apply (Hpre "+"%char)]. run_u2s.
Qed.

Definition octal_text (x : Z) (alt : bool) : list ascii :=
  if alt && negb (x =? 0) then "0"%char :: numeral 8 false x else numeral 8 false x.

Lemma numeral_zero base uppercase x : 2 <= base <= 36 → 0 <= x < w64 →
  ∃ c l, numeral base uppercase x = c :: l ∧ Ascii.eqb c "0" = (x =? 0).
Proof.
  intros Hb Hx. destruct (to_digits_head base ltac:(lia) 64 x) as (d & l & E & Hd); [by apply word_digits; [lia|]|lia|].
  pose proof (to_digits_range base ltac:(lia) 64 x ltac:(lia)) as Hr. rewrite E in Hr. apply Forall_cons in Hr as [Hr _].
  unfold numeral. rewrite E. eexists _, _. split; [reflexivity|].
  destruct (Z.eqb_spec x 0) as [->|Hne].
  - change (to_digits 64 base 0) with (if 0 <? base then [0] else to_digits 63 base (0 / base) ++ [0 mod base]) in E.
    destruct (Z.ltb_spec 0 base); [|lia]. injection E as <- _. by destruct uppercase.
  - assert (d ≠ 0) as Hd0 by tauto. assert (∃ k, Z.to_nat d = S k ∧ (k < 35)%nat) as (k & -> & Hk).
    { exists (Z.to_nat (d - 1)). lia. }
    clear -Hk. do 35 (destruct k as [|k]; [by destruct uppercase|]). lia.
Qed.

Lemma o2s_yields x alt : 0 <= x < w64 → yields n (o2s x alt) (octal_text x alt).
Proof.
  intros Hx. pose proof (u2s_fresh x 8 false ltac:(lia) Hx) as E. cbv zeta in E.
  assert (w64 <= 8 ^ Z.of_nat 22) as H22 by (vm_compute; discriminate).
  pose proof (numeral_short 8 false x 22 ltac:(lia) Hx H22 ltac:(lia)) as Hl.
  destruct (numeral_zero 8 false x ltac:(lia) Hx) as (c & l & Et & Hc).
  assert (buf_read (Z.of_nat (64 - length (numeral 8 false x)))
    (overwrite (64 - length (numeral 8 false x)) (Some <$> numeral 8 false x ++ [NUL]) fresh) =
    Ret c (overwrite (64 - length (numeral 8 false x)) (Some <$> numeral 8 false x ++ [NUL]) fresh)) as Er.
  { unfold buf_read, gets, id, mbind, M_bind. destruct (Z.ltb_spec (Z.of_nat (64 - length (numeral 8 false x))) 0); [lia|].
    rewrite Nat2Z.id. unfold overwrite at 1. rewrite lookup_app_r by (rewrite length_take; lia).
    rewrite length_take, length_replicate. replace (_ - _)%nat with 0%nat by lia. by rewrite Et. }
  unfold octal_text. destruct (alt && negb (x =? 0)) eqn:Ha.
  - eapply yields_from; [|unfold o2s, mbind, M_bind; rewrite E, Er, Hc, Ha, prepend_yields by lia; reflexivity].
    rewrite length_replicate. lia.
  - eapply yields_from; [|unfold o2s, mbind, M_bind; rewrite E, Er, Hc, Ha; reflexivity].
    rewrite length_replicate. lia.
Qed.

Definition hex_text (x : Z) (alt uppercase : bool) : list ascii :=
  (if alt then ["0"; if uppercase then "X" else "x"]%char else []) ++ numeral 16 uppercase x.

Lemma x2s_yields x alt uppercase : 0 <= x < w64 → yields n (x2s x alt uppercase) (hex_text x alt uppercase).
Proof.
  intros Hx. pose proof (u2s_fresh x 16 uppercase ltac:(lia) Hx) as E. cbv zeta in E.
  assert (w64 <= 16 ^ Z.of_nat 16) as H16 by (vm_compute; discriminate).
  pose proof (numeral_short 16 uppercase x 16 ltac:(lia) Hx H16 ltac:(lia)) as Hl.
  unfold hex_text. set (t := numeral 16 uppercase x) in *. destruct alt; simpl app.
  - set (c := if uppercase then "X"%char else "x"%char).
    eapply (yields_from _ _ (62 - length t)); [|unfold x2s, mbind, M_bind; rewrite E].
    2:{ replace (Z.of_nat (64 - length t) - 2) with (Z.of_nat (62 - length t)) by lia.
        assert (length (Some <$> t ++ [NUL]) = S (length t)) as Ht by (rewrite length_fmap, length_app; simpl; lia).
        rewrite buf_write_ret by (rewrite overwrite_length; rewrite length_replicate; lia).
        replace (Z.of_nat (62 - length t) + 1) with (Z.of_nat (63 - length t)) by lia.
        rewrite buf_write_ret by (rewrite length_insert, overwrite_length; rewrite length_replicate; lia).
        unfold mret, M_ret. f_equal; [f_equal; simpl; lia|].
        rewrite list_insert_insert_ne by lia. replace (64 - length t)%nat with (S (63 - length t)) by lia.
        rewrite overwrite_cons by (rewrite length_replicate; lia).
        replace (63 - length t)%nat with (S (62 - length t)) by lia.
        rewrite overwrite_cons by (rewrite length_replicate; simpl; lia). reflexivity. }
    rewrite length_replicate. lia.
  - eapply yields_from; [|unfold x2s, mbind, M_bind; rewrite E; reflexivity]. rewrite length_replicate. lia.
Qed.
End conversions.

(** ** Appending *)

Section appending.
Context (size : nat) (b0 : Buffer) (Hsize : (size <= length b0)%nat) (Hword : Z.of_nat size < w64).

(** The state after the text [out]: what fits of it stands at the beginning of the
    buffer. *)
Definition shows (out : list ascii) (args : list Arg) : Out := MkOut (overwrite 0 (Some <$> take size out) b0) args.

Lemma shows_write out l args : (length out <= size)%nat →
  str_write (Z.of_nat (length out)) (Some <$> take (size - length out) l) (shows out args) = Ret () (shows (out ++ l) args).
Proof.
  intros Ho. unfold str_write, shows, gets, modify, mbind, M_bind. cbn [str].
  assert (length (overwrite 0 (Some <$> take size out) b0) = length b0) as Hl.
  { apply overwrite_length. rewrite length_fmap, length_take. lia. }
  assert ((0 <=? Z.of_nat (length out)) &&
    (Z.of_nat (length out) + Z.of_nat (length (Some <$> take (size - length out) l)) <=?
     Z.of_nat (length (overwrite 0 (Some <$> take size out) b0))) = true) as ->.
  { rewrite Hl, length_fmap, length_take. apply andb_true_iff. split; apply Z.leb_le; lia. }
  unfold set_str. cbn [ap]. rewrite Nat2Z.id. f_equal. f_equal. unfold overwrite at 1 2 3. simpl.
  rewrite (take_ge out size) by done. rewrite (take_app_ge out) by done. rewrite fmap_app, <- app_assoc.
  rewrite take_app_length' by (by rewrite length_fmap). f_equal. f_equal.
  rewrite drop_app_ge by (rewrite length_fmap; lia). rewrite drop_drop, length_app, !length_fmap. f_equal. lia.
Qed.

Lemma shows_full out l args : (size <= length out)%nat → shows out args = shows (out ++ l) args.
Proof. intros Ho. unfold shows. by rewrite take_app_le. Qed.

Lemma APPEND_S_spec l rest out args : Z.of_nat (length (out ++ l)) < w64 →
  APPEND_S (Z.of_nat size) ((Some <$> l) ++ rest) (Z.of_nat (length l)) (Z.of_nat (length out)) (shows out args) =
    Ret (Z.of_nat (length (out ++ l))) (shows (out ++ l) args).
Proof.
  intros Hl. rewrite length_app in *. unfold APPEND_S, whenM, mbind, M_bind.
  assert (Z.of_nat (length out) +64 Z.of_nat (length l) = Z.of_nat (length out + length l)) as ->.
  { rewrite u64_small; lia. }
  destruct (Z.ltb_spec (Z.of_nat (length out)) (Z.of_nat size)).
  - assert (Z.of_nat size -64 Z.of_nat (length out) = Z.of_nat (size - length out)) as -> by (rewrite u64_small; lia).
    assert ((if Z.of_nat (length l) <=? Z.of_nat (size - length out) then Z.of_nat (length l)
      else Z.of_nat (size - length out)) = Z.of_nat (length (take (size - length out) l))) as ->.
    { rewrite length_take. destruct (Z.leb_spec (Z.of_nat (length l)) (Z.of_nat (size - length out))); lia. }
    assert ((Z.of_nat (length (take (size - length out) l)) <=? Z.of_nat (length ((Some <$> l) ++ rest))) = true) as ->.
    { apply Z.leb_le. rewrite length_app, length_fmap, length_take. lia. }
    rewrite Nat2Z.id. rewrite take_app_le by (rewrite length_fmap, length_take; lia).
    assert (take (length (take (size - length out) l)) l = take (size - length out) l) as Et.
    { rewrite <- (take_drop (size - length out) l) at 2. apply take_app_length. }
    rewrite <- fmap_take, Et. by rewrite shows_write by lia.
  - unfold mret, M_ret. rewrite (shows_full out l) by lia. done.
Qed.

Lemma APPEND_C_spec c out args : Z.of_nat (length (out ++ [c])) < w64 →
  APPEND_C (Z.of_nat size) c (Z.of_nat (length out)) (shows out args) =
    Ret (Z.of_nat (length (out ++ [c]))) (shows (out ++ [c]) args).
Proof.
  intros Hl. rewrite length_app in *. simpl in *. unfold APPEND_C, whenM, mbind, M_bind.
  assert (Z.of_nat (length out) +64 1 = Z.of_nat (length out + 1)) as -> by (rewrite u64_small; lia).
  destruct (Z.ltb_spec (Z.of_nat (length out)) (Z.of_nat size)).
  - change [Some c] with (Some <$> [c]). rewrite <- (take_ge [c] (size - length out)) by (simpl; lia).
    rewrite shows_write by lia. rewrite take_ge by (simpl; lia). done.
  - unfold mret, M_ret. rewrite (shows_full out [c]) by lia. done.
Qed.

Lemma append_pad_spec c n : ∀ out args, Z.of_nat (length (out ++ replicate n c)) < w64 →
  append_pad n (Z.of_nat size) c (Z.of_nat (length out)) (shows out args) =
    Ret (Z.of_nat (length (out ++ replicate n c))) (shows (out ++ replicate n c) args).
Proof.
  induction n as [|n IH]; intros out args Hl; cbn [append_pad replicate].
  - by rewrite app_nil_r.
  - simpl in Hl. replace (out ++ c :: replicate n c) with ((out ++ [c]) ++ replicate n c) in * by (by rewrite <- app_assoc).
    unfold mbind, M_bind. rewrite APPEND_C_spec; [by apply IH|]. rewrite length_app in Hl. lia.
Qed.

(** A text in a field. *)
Definition field (width : Z) (left : bool) (t : list ascii) : list ascii :=
  let pad := replicate (Z.to_nat width - length t) " "%char in
  if left then t ++ pad else pad ++ t.

Lemma APPEND_PADDED_S_spec t rest width left out args : -1 <= width < 2 ^ 31 →
  Z.of_nat (length (out ++ field width left t)) < w64 →
  APPEND_PADDED_S (Z.of_nat size) false ((Some <$> t) ++ rest) (Z.of_nat (length t)) width left
      (Z.of_nat (length out)) (shows out args) =
    Ret (Z.of_nat (length (out ++ field width left t))) (shows (out ++ field width left t) args).
Proof.
  intros Hw Hl. unfold APPEND_PADDED_S.
  assert ((if width =? -1 then 0 else if Z.of_nat (length t) <? u64 width then u64 width -64 Z.of_nat (length t) else 0) =
    Z.of_nat (Z.to_nat width - length t)) as ->.
  { destruct (Z.eqb_spec width (-1)) as [->|]; [done|]. rewrite (u64_small width) by (unfold w64; lia).
    destruct (Z.ltb_spec (Z.of_nat (length t)) width); [|lia]. rewrite u64_small by (unfold w64; lia). lia. }
  unfold field in *. set (n := (Z.to_nat width - length t)%nat) in *. rewrite Nat2Z.id.
  assert (∀ b, b && negb (Z.of_nat n =? 0) = false → b = false ∨ n = 0%nat) as Hno.
  { intros []; [|by left]. simpl. destruct (Z.eqb_spec (Z.of_nat n) 0); [right; lia|done]. }
  unfold mbind, M_bind. destruct left; cbn [negb andb].
  - unfold mret at 1, M_ret at 1. rewrite !length_app in Hl. rewrite APPEND_S_spec by (rewrite length_app; lia).
    destruct (Z.eqb_spec (Z.of_nat n) 0); cbn [negb].
    + assert (n = 0%nat) as -> by lia. by rewrite app_nil_r.
    + rewrite append_pad_spec by (rewrite !length_app; lia). by rewrite app_assoc.
  - rewrite !length_app in Hl. destruct (Z.eqb_spec (Z.of_nat n) 0); cbn [negb].
    + assert (n = 0%nat) as -> by lia. unfold mret at 1, M_ret at 1. simpl.
      by rewrite APPEND_S_spec by (rewrite length_app; lia).
    + rewrite append_pad_spec by (rewrite !length_app; lia).
      rewrite APPEND_S_spec by (rewrite !length_app; lia). by rewrite app_assoc.
Qed.
End appending.

(** ** Formats and what they say *)

Inductive modifier := No_len | Len_l | Len_ll | Len_q | Len_j | Len_t | Len_z.
Inductive conv :=
| Signed (i : bool) (z : Z)
| Octal (z : Z)
| Unsigned (z : Z)
| Hex (uppercase : bool) (z : Z)
| Character (c : ascii)
| Text (s junk : list ascii)       (** [junk] is what follows the text in memory *)
| Pointer (z : Z).

(** A directive with its arguments. The sign is ["-"] where no flag asks for one. *)
Record Directive := MkDirective {
  d_alt : bool; d_left : bool; d_sign : ascii; d_width : option Z; d_prec : option Z;
  d_len : modifier; d_conv : conv;
}.

Inductive piece := Plain (c : ascii) | Percent_sign | Print (d : Directive).

Definition bits (m : modifier) : Z := match m with No_len => 32 | _ => 64 end.

(** How a directive is written. *)
Definition spell_flags (d : Directive) : list ascii :=
  (if d_alt d then ["#"%char] else []) ++ (if d_left d then ["-"%char] else []) ++
  (if Ascii.eqb (d_sign d) "-" then [] else [d_sign d]).
Definition spell_width (d : Directive) : list ascii := match d_width d with Some _ => ["*"%char] | None => [] end.
Definition spell_prec (d : Directive) : list ascii := match d_prec d with Some _ => ["."; "*"]%char | None => [] end.
Definition spell_len (m : modifier) : list ascii :=
  match m with
  | No_len => [] | Len_l => ["l"] | Len_ll => ["l"; "l"] | Len_q => ["q"] | Len_j => ["j"] | Len_t => ["t"]
  | Len_z => ["z"]
  end%char.
Definition spell_conv (c : conv) : ascii :=
  match c with
  | Signed i _ => if i then "i" else "d" | Octal _ => "o" | Unsigned _ => "u"
  | Hex uppercase _ => if uppercase then "X" else "x" | Character _ => "c" | Text _ _ => "s" | Pointer _ => "p"
  end%char.
Definition spell_directive (d : Directive) : list ascii :=
  spell_flags d ++ spell_width d ++ spell_prec d ++ spell_len (d_len d) ++ [spell_conv (d_conv d)].
Definition spell (p : piece) : list ascii :=
  match p with
  | Plain c => [c]
  | Percent_sign => ["%"; "%"]%char
  | Print d => "%"%char :: spell_directive d
  end.

(** The arguments it takes. *)
Definition conv_args (m : modifier) (c : conv) : Arg :=
  match c with
  | Signed _ z => Num true (bits m) z
  | Octal z | Unsigned z | Hex _ z => Num false (bits m) z
  | Character c => Num true 32 (Z.of_N (Ascii.N_of_ascii c))
  | Text s junk => Str (s ++ NUL :: junk)
  | Pointer z => Num false 64 z
  end.
Definition int_args (o : option Z) : list Arg := match o with Some z => [Num true 32 z] | None => [] end.
Definition directive_args (d : Directive) : list Arg :=
  int_args (d_width d) ++ int_args (d_prec d) ++ [conv_args (d_len d) (d_conv d)].
Definition args (p : piece) : list Arg := match p with Print d => directive_args d | _ => [] end.

(** What it says. *)
Definition body (d : Directive) : list ascii :=
  match d_conv d with
  | Signed _ z => signed_text z (d_sign d)
  | Octal z => octal_text z (d_alt d)
  | Unsigned z => numeral 10 false z
  | Hex uppercase z => hex_text z (d_alt d) uppercase
  | Character c => [c]
  | Text s _ =>
      match d_prec d with Some p => if p <? 0 then s else take (Z.to_nat p) s | None => s end
  | Pointer z => hex_text z true false
  end.
Definition directive_text (d : Directive) : list ascii :=
  match d_width d with
  | Some w => field (Z.abs w) (d_left d || (w <? 0)) (body d)
  | None => body d
  end.
Definition text (p : piece) : list ascii :=
  match p with Plain c => [c] | Percent_sign => ["%"%char] | Print d => directive_text d end.

(** When it says so: numbers are of their types, and a precision is not larger than
    the text. *)
Definition directive_ok (d : Directive) : Prop :=
  d_sign d ∈ ["-"; " "; "+"]%char ∧
  (match d_width d with Some w => - 2 ^ 31 < w < 2 ^ 31 | None => True end) ∧
  match d_conv d with
  | Signed _ z => - 2 ^ (bits (d_len d) - 1) <= z < 2 ^ (bits (d_len d) - 1) ∧ z ≠ - 2 ^ 63
  | Octal z | Unsigned z | Hex _ z => 0 <= z < 2 ^ bits (d_len d) ∧ d_len d ≠ Len_t
  | Character _ => d_len d = No_len ∨ d_len d = Len_l
  | Text s _ => (d_len d = No_len ∨ d_len d = Len_l) ∧ (NUL ∉ s) ∧
      (match d_prec d with Some p => p <= Z.of_nat (length s) | None => True end)
  | Pointer z => 0 <= z < 2 ^ 64
  end.
Definition piece_ok (p : piece) : Prop :=
  match p with Plain c => c ≠ NUL ∧ c ≠ "%"%char | Percent_sign => True | Print d => directive_ok d end.

(** *** Reading a directive *)

Lemma flags_spec d c f s : directive_ok d → Ascii.eqb c "#" = false → Ascii.eqb c "-" = false →
  Ascii.eqb c " " = false → Ascii.eqb c "+" = false →
  flags (spell_flags d ++ c :: f) no_flags s =
    Ret (MkFlags (d_alt d) (d_left d) (Ascii.eqb (d_sign d) " ") (Ascii.eqb (d_sign d) "+"), c :: f) s.
Proof.
  intros [Hs _] E1 E2 E3 E4. assert (∀ fl, flags (c :: f) fl s = Ret (fl, c :: f) s) as Hstop.
  { intros fl. simpl. by rewrite E1, E2, E3, E4. }
  unfold spell_flags. repeat (apply elem_of_cons in Hs as [->|Hs]); [| | |by apply not_elem_of_nil in Hs];
    destruct (d_alt d), (d_left d); simpl app; apply Hstop.
Qed.

Definition width_value (d : Directive) : Z := match d_width d with Some w => Z.abs w | None => -1 end.
Definition left_value (d : Directive) : bool :=
  d_left d || match d_width d with Some w => w <? 0 | None => false end.

Lemma width_spec d fl tl b a : directive_ok d → Ascii.eqb (at_ tl) "*" = false → is_digit (at_ tl) = false →
  width_of (spell_width d ++ tl) fl (MkOut b (int_args (d_width d) ++ a)) =
    Ret (width_value d, MkFlags (alt_form fl) (left_justify fl || match d_width d with Some w => w <? 0 | None => false end)
      (plus_space fl) (plus_plus fl), tl) (MkOut b a).
Proof.
  intros (_ & Hw & _) H1 H2. unfold spell_width, width_value, width_of. destruct (d_width d) as [w|]; simpl app.
  - simpl. unfold mbind, M_bind, va_num, gets, modify, set_ap. simpl.
    destruct (Z.ltb_spec w 0).
    + destruct (Z.eqb_spec w (-2147483648)); [lia|]. rewrite orb_true_r. unfold mret, M_ret, set_left. by rewrite Z.abs_neq by lia.
    + rewrite orb_false_r. unfold mret, M_ret. destruct fl. by rewrite Z.abs_eq by lia.
  - change ([] ++ tl) with tl. rewrite H1, H2, orb_false_r. by destruct fl.
Qed.

Lemma precision_spec d tl b a : Ascii.eqb (at_ tl) "." = false →
  precision_of (spell_prec d ++ tl) (MkOut b (int_args (d_prec d) ++ a)) =
    Ret (default (-1) (d_prec d), tl) (MkOut b a).
Proof.
  intros H1. unfold spell_prec, precision_of. destruct (d_prec d) as [p|]; [reflexivity|]. change ([] ++ tl) with tl. by rewrite H1.
Qed.

Definition len_char (m : modifier) : ascii :=
  match m with
  | No_len => "?" | Len_l => "l" | Len_ll | Len_q => "q" | Len_j => "j" | Len_t => "t" | Len_z => "z"
  end%char.

Lemma length_spec d f : length_of (spell_len (d_len d) ++ spell_conv (d_conv d) :: f) =
  (len_char (d_len d), spell_conv (d_conv d) :: f).
Proof. by destruct (d_len d), (d_conv d) as [[]| | |[]| | |]. Qed.

(** What stands at the beginning of the rest of a directive. *)
Lemma head_spec d f (P : ascii → bool) :
  (∀ c, c ∈ ["*"; "."; "l"; "q"; "j"; "t"; "z"; "i"; "d"; "o"; "u"; "x"; "X"; "c"; "s"; "p"]%char → P c = false) →
  ∃ c tl, spell_width d ++ spell_prec d ++ spell_len (d_len d) ++ spell_conv (d_conv d) :: f = c :: tl ∧ P c = false.
Proof.
  intros HP. unfold spell_width, spell_prec. destruct (d_width d); [eexists _, _; split; [reflexivity|apply HP; set_solver]|].
  destruct (d_prec d); [eexists _, _; split; [reflexivity|apply HP; set_solver]|].
  destruct (d_len d), (d_conv d) as [[]| | |[]| | |]; (eexists _, _; split; [reflexivity|apply HP; set_solver]).
Qed.

(** *** Carrying it out *)

Lemma strlen_spec s junk : (NUL ∉ s) → strlen (s ++ NUL :: junk) = Some (Z.of_nat (length s)).
Proof.
  intros Hs. unfold strlen. rewrite list_find_app_r.
  - reflexivity.
  - apply list_find_None. apply Forall_forall. intros c Hc ->. done.
Qed.

Lemma field_none l t : field (-1) l t = t.
Proof. unfold field. simpl. destruct l; [by rewrite app_nil_r|done]. Qed.

Lemma directive_text_field d : directive_text d = field (width_value d) (left_value d) (body d).
Proof.
  unfold directive_text, width_value, left_value. destruct (d_width d) as [w|]; [done|].
  rewrite field_none. done.
Qed.

Section printing.
Context (size : nat) (b0 : Buffer) (Hsize : (size <= length b0)%nat) (Hword : Z.of_nat size < w64).
Local Abbreviation showing := (shows size b0).

(** Arguments are taken one after another. *)
Lemma va_num_spec sg n z out a : va_num sg n (showing out (Num sg n z :: a)) = Ret z (showing out a).
Proof. unfold va_num, gets, mbind, M_bind. simpl. by rewrite Z.eqb_refl, Bool.eqb_reflx. Qed.

Lemma get_signed m z out a :
  GET_ARG_NUMERIC (len_char m) false (showing out (Num true (bits m) z :: a)) = Ret z (showing out a).
Proof. destruct m; apply va_num_spec. Qed.

Lemma get_unsigned m z out a : m ≠ Len_t →
  GET_ARG_NUMERIC (len_char m) true (showing out (Num false (bits m) z :: a)) = Ret z (showing out a).
Proof. intros Hm. destruct m; try done; apply va_num_spec. Qed.

(** A body in a buffer, appended in its field. *)
Lemma append_body d rest out a f : directive_ok d → Z.of_nat (length (out ++ directive_text d)) < w64 →
  (i ← APPEND_PADDED_S (Z.of_nat size) false ((Some <$> body d) ++ rest) (Z.of_nat (length (body d))) (width_value d)
         (left_value d) (Z.of_nat (length out)); mret (i, f)) (showing out a) =
    Ret (Z.of_nat (length (out ++ directive_text d)), f : list ascii) (showing (out ++ directive_text d) a).
Proof.
  intros (_ & Hw & _) Hl. rewrite directive_text_field in *. unfold mbind, M_bind.
  rewrite APPEND_PADDED_S_spec; [done|done|done| |done].
  unfold width_value. destruct (d_width d); lia.
Qed.

Lemma bind_val {S A B} (m : M S A) (k : A → M S B) s a s' : m s = Ret a s' → (m ≫= k) s = k a s'.
Proof. intros E. unfold mbind, M_bind. by rewrite E. Qed.

Lemma conversion_spec d out a f : directive_ok d → Z.of_nat (length (out ++ directive_text d)) < w64 →
  conversion (Z.of_nat size)
    (MkFlags (d_alt d) (left_value d) (Ascii.eqb (d_sign d) " ") (Ascii.eqb (d_sign d) "+"))
    (width_value d) (default (-1) (d_prec d)) (len_char (d_len d)) (spell_conv (d_conv d) :: f) (Z.of_nat (length out))
    (showing out (conv_args (d_len d) (d_conv d) :: a)) =
  Ret (Z.of_nat (length (out ++ directive_text d)), f) (showing (out ++ directive_text d) a).
Proof.
  intros Hok Hl. pose proof Hok as (Hs & _ & Hc). assert (0 <= 2 ^ bits (d_len d) <= w64) as Hbits by (by destruct (d_len d)).
  assert (∀ n m t, yields n m t → body d = t →
    ('(s, slen) ← converted n m;
     i ← APPEND_PADDED_S (Z.of_nat size) false s slen (width_value d) (left_value d) (Z.of_nat (length out)); mret (i, f))
      (showing out a) = Ret (Z.of_nat (length (out ++ directive_text d)), f) (showing (out ++ directive_text d) a)) as Hnum.
  { intros n m t [rest Hy] Et. rewrite (bind_val _ _ _ _ _ (Hy (showing out a))), <- Et. by apply append_body. }
  assert ((if Ascii.eqb (d_sign d) "+" then "+" else if Ascii.eqb (d_sign d) " " then " " else "-")%char = d_sign d) as Hsign.
  { by repeat (apply elem_of_cons in Hs as [->|Hs]); [| | |apply not_elem_of_nil in Hs]. }
  assert (U2S_BUFSIZE = 65 ∧ D2S_BUFSIZE = 66 ∧ O2S_BUFSIZE = 66 ∧ X2S_BUFSIZE = 67) as (HU & HD & HO & HX) by done.
  assert (∀ c, d_conv d = c → body d = match c with
    | Signed _ z => signed_text z (d_sign d) | Octal z => octal_text z (d_alt d) | Unsigned z => numeral 10 false z
    | Hex u z => hex_text z (d_alt d) u | Character c => [c]
    | Text s _ => match d_prec d with Some p => if p <? 0 then s else take (Z.to_nat p) s | None => s end
    | Pointer z => hex_text z true false end) as Hbody by (intros c <-; done).
  destruct (d_conv d) as [[] z|z|z|[] z|c|s junk|z] eqn:Ec; specialize (Hbody _ eq_refl); unfold conversion;
    cbn -[GET_ARG_NUMERIC converted d2s o2s u2s x2s APPEND_PADDED_S va_num va_str strlen w64 numeral body field].
  1,2: rewrite (bind_val (mret ()) _ _ () _ eq_refl), (bind_val _ _ _ _ _ (get_signed (d_len d) z out a)), Hsign;
    (eapply Hnum; [|exact Hbody]); apply d2s_yields; [lia| |done]; destruct (d_len d); simpl in Hc; lia.
  - rewrite (bind_val _ _ _ _ _ (get_unsigned (d_len d) z out a (proj2 Hc))).
    (eapply Hnum; [|exact Hbody]); apply o2s_yields; lia.
  - rewrite (bind_val _ _ _ _ _ (get_unsigned (d_len d) z out a (proj2 Hc))).
    (eapply Hnum; [|exact Hbody]); apply u2s_yields; lia.
  - rewrite (bind_val _ _ _ _ _ (get_unsigned (d_len d) z out a (proj2 Hc))).
    (eapply Hnum; [|exact Hbody]); apply x2s_yields; lia.
  - rewrite (bind_val _ _ _ _ _ (get_unsigned (d_len d) z out a (proj2 Hc))).
    (eapply Hnum; [|exact Hbody]); apply x2s_yields; lia.
  - rewrite (bind_val _ _ _ () (showing out (Num true 32 (Z.of_N (Ascii.N_of_ascii c)) :: a))).
    2:{ destruct Hc as [-> | ->]; reflexivity. }
    rewrite (bind_val _ _ _ _ _ (va_num_spec true 32 _ out a)). pose proof (Ascii.N_ascii_bounded c).
    rewrite Z.mod_small, N2Z.id, Ascii.ascii_N_embedding by lia.
    pose proof (append_body d [Some NUL] out a f Hok Hl) as Happ. by rewrite Hbody in Happ.
  - destruct Hc as (Hlen & Hnul & Hp).
    rewrite (bind_val _ _ _ () (showing out (Str (s ++ NUL :: junk) :: a))).
    2:{ destruct Hlen as [-> | ->]; reflexivity. }
    rewrite (bind_val _ _ _ (s ++ NUL :: junk) (showing out a)) by done.
    assert (∃ rest, Some <$> s ++ NUL :: junk = (Some <$> body d) ++ rest ∧
      (if default (-1) (d_prec d) <? 0 then deref (strlen (s ++ NUL :: junk)) else mret (default (-1) (d_prec d)))
        (showing out a) = Ret (Z.of_nat (length (body d))) (showing out a)) as (rest & Em & El).
    { rewrite Hbody, strlen_spec by done. destruct (d_prec d) as [p|].
      - change (default (-1) (Some p)) with p. destruct (Z.ltb_spec p 0); [exists (Some <$> NUL :: junk); split; [by rewrite fmap_app|reflexivity]|].
        exists (Some <$> drop (Z.to_nat p) s ++ NUL :: junk).
        split; [rewrite <- fmap_app, app_assoc; by rewrite take_drop|].
        unfold mret, M_ret. f_equal. rewrite length_take. lia.
      - exists (Some <$> NUL :: junk). split; [by rewrite fmap_app|reflexivity]. }
    rewrite (bind_val _ _ _ _ _ El). simpl in Em. rewrite Em. by apply append_body.
  - rewrite (bind_val _ _ _ _ _ (va_num_spec false 64 z out a)).
    (eapply Hnum; [|exact Hbody]); apply x2s_yields; [lia|]. unfold w64. lia.
Qed.

Lemma directive_spec d out a f : directive_ok d → Z.of_nat (length (out ++ directive_text d)) < w64 →
  directive (Z.of_nat size) (spell_directive d ++ f) (Z.of_nat (length out)) (showing out (directive_args d ++ a)) =
    Ret (Z.of_nat (length (out ++ directive_text d)), f) (showing (out ++ directive_text d) a).
Proof.
  intros Hok Hl. unfold directive, spell_directive, directive_args. rewrite <- !app_assoc. simpl app.
  set (tl2 := spell_len (d_len d) ++ spell_conv (d_conv d) :: f).
  assert (Ascii.eqb (at_ tl2) "." = false ∧ Ascii.eqb (at_ tl2) "*" = false ∧ is_digit (at_ tl2) = false) as (T1 & T2 & T3).
  { unfold tl2. by destruct (d_len d), (d_conv d) as [[]| | |[]| | |]. }
  set (tl1 := spell_prec d ++ tl2).
  assert (Ascii.eqb (at_ tl1) "*" = false ∧ is_digit (at_ tl1) = false) as [S1 S2].
  { unfold tl1, spell_prec. by destruct (d_prec d). }
  destruct (head_spec d f (λ c, Ascii.eqb c "#" || Ascii.eqb c "-" || Ascii.eqb c " " || Ascii.eqb c "+")) as (c & tl & Eh & Hh).
  { intros c Hin. by repeat (apply elem_of_cons in Hin as [->|Hin]); try apply not_elem_of_nil in Hin. }
  apply orb_false_iff in Hh as [Hh H4]. apply orb_false_iff in Hh as [Hh H3]. apply orb_false_iff in Hh as [H1 H2].
  fold tl2 in Eh. fold tl1 in Eh. rewrite Eh. rewrite (bind_val _ _ _ _ _ (flags_spec d c tl _ Hok H1 H2 H3 H4)).
  rewrite <- Eh. unfold shows.
  rewrite (bind_val _ _ _ _ _ (width_spec d _ tl1 _ _ Hok S1 S2)). cbv beta iota. unfold tl1.
  rewrite (bind_val _ _ _ _ _ (precision_spec d tl2 _ _ T1)). cbv beta iota. unfold tl2. rewrite length_spec.
  by apply conversion_spec.
Qed.

Definition spelled (ps : list piece) : list ascii := ps ≫= spell.
Definition all_args (ps : list piece) : list Arg := ps ≫= args.
Definition said (ps : list piece) : list ascii := ps ≫= text.

Lemma format_loop_spec ps : ∀ fuel out a, Forall piece_ok ps → (length ps < fuel)%nat →
  Z.of_nat (length (out ++ said ps)) < w64 →
  format_loop fuel (Z.of_nat size) (spelled ps) (Z.of_nat (length out)) (showing out (all_args ps ++ a)) =
    Ret (Z.of_nat (length (out ++ said ps))) (showing (out ++ said ps) a).
Proof.
  induction ps as [|p ps IH]; intros fuel out a Hok Hf Hl; (destruct fuel as [|fuel]; [simpl in Hf; lia|]).
  - unfold said. simpl. by rewrite app_nil_r.
  - apply Forall_cons in Hok as [Hp Hok]. change (said (p :: ps)) with (text p ++ said ps) in *.
    change (spelled (p :: ps)) with (spell p ++ spelled ps). change (all_args (p :: ps)) with (args p ++ all_args ps).
    rewrite app_assoc in *. simpl in Hf.
    assert (Z.of_nat (length (out ++ text p)) < w64) as Hl1 by (rewrite length_app in Hl; lia).
    rewrite <- (IH fuel (out ++ text p) a Hok ltac:(lia) Hl). destruct p as [c| |d]; simpl spell; simpl args; simpl app.
    + destruct Hp as [Hn Hp]. apply Ascii.eqb_neq in Hn, Hp.
      change (format_loop (S fuel) (Z.of_nat size) (c :: spelled ps) (Z.of_nat (length out)))
        with (if Ascii.eqb c NUL then mret (Z.of_nat (length out))
              else if Ascii.eqb c "%" then
                '(i, f) ← directive (Z.of_nat size) (spelled ps) (Z.of_nat (length out));
                format_loop fuel (Z.of_nat size) f i
              else
                i ← APPEND_C (Z.of_nat size) c (Z.of_nat (length out));
                format_loop fuel (Z.of_nat size) (spelled ps) i).
      rewrite Hn, Hp. rewrite (bind_val _ _ _ _ _ (APPEND_C_spec size b0 Hsize c out _ Hl1)). done.
    + change (format_loop (S fuel) (Z.of_nat size) ("%"%char :: "%"%char :: spelled ps) (Z.of_nat (length out)))
        with ('(i, f) ← directive (Z.of_nat size) ("%"%char :: spelled ps) (Z.of_nat (length out));
              format_loop fuel (Z.of_nat size) f i).
      assert (directive (Z.of_nat size) ("%"%char :: spelled ps) (Z.of_nat (length out)) (showing out (all_args ps ++ a)) =
        Ret (Z.of_nat (length (out ++ ["%"%char])), spelled ps) (showing (out ++ ["%"%char]) (all_args ps ++ a))) as E.
      { pose proof (APPEND_C_spec size b0 Hsize "%" out (all_args ps ++ a) Hl1) as E.
        change (directive (Z.of_nat size) ("%"%char :: spelled ps) (Z.of_nat (length out)))
          with (i ← APPEND_C (Z.of_nat size) "%" (Z.of_nat (length out)); mret (i, spelled ps)).
        by rewrite (bind_val _ _ _ _ _ E). }
      by rewrite (bind_val _ _ _ _ _ E).
    + change (format_loop (S fuel) (Z.of_nat size) ("%"%char :: spell_directive d ++ spelled ps) (Z.of_nat (length out)))
        with ('(i, f) ← directive (Z.of_nat size) (spell_directive d ++ spelled ps) (Z.of_nat (length out));
              format_loop fuel (Z.of_nat size) f i).
      rewrite <- app_assoc. by rewrite (bind_val _ _ _ _ _ (directive_spec d out _ (spelled ps) Hp Hl1)).
Qed.
End printing.

(** ** Properties *)

(** Ending the text. *)
Lemma terminate size (b0 : Buffer) out a : (0 < size <= length b0)%nat → Z.of_nat size < w64 →
  str_write (if Z.of_nat (length out) <? Z.of_nat size then Z.of_nat (length out) else Z.of_nat size -64 1) [Some NUL]
    (shows size b0 out a) = Ret () (MkOut (overwrite 0 (Some <$> take (size - 1) out ++ [NUL]) b0) a).
Proof.
  intros Hsize Hword. destruct (Z.ltb_spec (Z.of_nat (length out)) (Z.of_nat size)).
  - change [Some NUL] with (Some <$> [NUL]). rewrite <- (take_ge [NUL] (size - length out)) at 1 by (simpl; lia).
    rewrite shows_write by lia. unfold shows. rewrite (take_ge (out ++ [NUL])) by (rewrite length_app; simpl; lia).
    by rewrite (take_ge out) by lia.
  - assert (Z.of_nat size -64 1 = Z.of_nat (size - 1)) as -> by (rewrite u64_small; lia).
    destruct (lookup_lt_is_Some_2 out (size - 1)) as [x Hx]; [lia|].
    unfold str_write, shows, gets, modify, mbind, M_bind, set_str. cbn [str ap].
    assert (length (Some <$> take size out) = size) as Hl by (rewrite length_fmap, length_take; lia).
    assert ((0 <=? Z.of_nat (size - 1)) && (Z.of_nat (size - 1) + Z.of_nat (length [Some NUL]) <=?
      Z.of_nat (length (overwrite 0 (Some <$> take size out) b0))) = true) as ->.
    { rewrite overwrite_length by (rewrite Hl; lia). apply andb_true_iff. split; apply Z.leb_le; simpl; lia. }
    rewrite Nat2Z.id. f_equal. f_equal. unfold overwrite. rewrite !take_0, !app_nil_l, !Nat.add_0_l, Hl.
    rewrite fmap_app, <- app_assoc. f_equal.
    + rewrite take_app_le by lia. rewrite <- fmap_take, take_take. do 2 f_equal. lia.
    + simpl. f_equal. rewrite drop_app_ge by (rewrite Hl; lia). rewrite drop_drop, Hl, length_app, length_fmap, length_take.
      simpl. f_equal. lia.
Qed.

Lemma vsnprintf_printed ps size (b0 : Buffer) rest : Forall piece_ok ps → (0 < size <= length b0)%nat →
  Z.of_nat size < w64 → Z.of_nat (length (said ps)) < w64 →
  malloc_vsnprintf (Z.of_nat size) (spelled ps) (MkOut b0 (all_args ps ++ rest)) =
    Ret (Z.of_nat (length (said ps))) (MkOut (overwrite 0 (Some <$> take (size - 1) (said ps) ++ [NUL]) b0) rest).
Proof.
  intros Hok Hsize Hword Hl. unfold malloc_vsnprintf.
  assert (length ps < S (length (spelled ps)))%nat as Hf.
  { clear. induction ps as [|p ps IH]; [simpl; lia|]. change (spelled (p :: ps)) with (spell p ++ spelled ps).
    rewrite length_app. destruct p; simpl; lia. }
  pose proof (format_loop_spec size b0 ltac:(lia) Hword ps _ [] rest Hok Hf Hl) as E. simpl app in E.
  assert (∀ a, shows size b0 [] a = MkOut b0 a) as E0 by (intros a; unfold shows; by rewrite take_nil, overwrite_nil).
  rewrite E0 in E. change (length []) with 0%nat in E.
  rewrite (bind_val _ _ _ _ _ E). by rewrite (bind_val _ _ _ _ _ (terminate size b0 (said ps) rest Hsize Hword)).
Qed.


(** Reading a numeral. *)
Definition parse_numeral (digits : list ascii) (base : Z) (l : list ascii) : option Z :=
  ds ← mapM (λ c, '(n, _) ← list_find (λ d, d = c) digits; Some (Z.of_nat n)) l;
  Some (of_digits base ds).

Lemma digit_index u d : 0 <= d < 36 → ∃ c, digit_chars u !! Z.to_nat d = Some c ∧
  list_find (λ x, x = c) (digit_chars u) = Some (Z.to_nat d, c).
Proof.
  intros Hd. assert (∃ k, Z.to_nat d = k ∧ (k < 36)%nat) as (k & -> & Hk) by (eexists; split; [reflexivity|lia]).
  clear -Hk. do 36 (destruct k as [|k]; [by destruct u; eexists|]). lia.
Qed.

Lemma parse_spelled u base l : 2 <= base <= 36 → Forall (λ d, 0 <= d < base) l →
  parse_numeral (digit_chars u) base (spell_digits (digit_chars u) l) = Some (of_digits base l).
Proof.
  intros Hb Hl. unfold parse_numeral.
  assert (mapM (λ c, '(n, _) ← list_find (λ d, d = c) (digit_chars u); Some (Z.of_nat n)) (spell_digits (digit_chars u) l)
    = Some l) as ->; [|done].
  induction Hl as [|d l Hd Hl IH]; [done|]. destruct (digit_index u d ltac:(lia)) as (c & E1 & E2).
  change (spell_digits (digit_chars u) (d :: l)) with (default NUL (digit_chars u !! Z.to_nat d) :: spell_digits (digit_chars u) l).
  rewrite E1. change (default NUL (Some c)) with c. cbn [mapM]. rewrite E2. simpl. rewrite IH. simpl. by rewrite Z2Nat.id by lia.
Qed.

(** C12: Numbers survive printing. In any base, [u2s] leaves in its buffer a numeral
    that reads as the number, does not begin with a superfluous zero, and is ended by
    a null character. *)
Theorem u2s_roundtrip x base uppercase : 0 <= x < w64 → 2 <= base <= 36 →
  ∃ s t buf, u2s x base uppercase (replicate 65 None) = Ret (Z.of_nat s, Z.of_nat (length t)) buf ∧
    take (S (length t)) (drop s buf) = Some <$> t ++ [NUL] ∧
    parse_numeral (digit_chars uppercase) base t = Some x ∧ (head t = Some "0"%char → x = 0).
Proof.
  intros Hx Hb. pose proof (u2s_fresh 65 ltac:(lia) x base uppercase Hb Hx) as E. cbv zeta in E.
  set (t := numeral base uppercase x) in *. pose proof (numeral_length base uppercase x) as Hl. fold t in Hl.
  exists (64 - length t)%nat, t. eexists. split; [exact E|]. split_and!.
  - unfold overwrite. rewrite drop_app_length' by (rewrite length_take, length_replicate; lia).
    rewrite take_app_length' by (rewrite length_fmap, length_app; simpl; lia). done.
  - unfold t, numeral. rewrite parse_spelled; [|done|apply to_digits_range; lia].
    f_equal. apply to_digits_value; [lia|apply word_digits; lia].
  - intros Hh. destruct (numeral_zero 65 ltac:(lia) base uppercase x Hb Hx) as (c & l & Et & Hc). fold t in Et. rewrite Et in Hh.
    injection Hh as ->. symmetry in Hc. by apply Z.eqb_eq in Hc.
Qed.

(** A file whose calls of [write] succeed, taking at least one byte. *)
Definition willing (l : list (option Z)) : Prop := Forall (λ c, ∃ n, c = Some n ∧ 0 < n) l.

Lemma write_spec buf count f : willing (calls f) → 0 < count <= Z.of_nat (length buf) →
  wp (write buf count) f (λ n f', 0 < n <= count ∧ written f' = written f ++ take (Z.to_nat n) buf ∧ willing (calls f')).
Proof.
  intros Hw Hc. unfold write, wp. destruct (Z.leb_spec count (Z.of_nat (length buf))); [|lia].
  destruct (calls f) as [|c l] eqn:E; [split; [lia|]; by split|]. apply Forall_cons in Hw as [(n & -> & Hn) Hw]. simpl. split; [lia|done].
Qed.

Lemma write_fd_spec before buf count : 0 < count <= Z.of_nat (length buf) → count < w64 → ∀ fuel did f,
  willing (calls f) → 0 <= did < count → count - did <= Z.of_nat fuel →
  written f = before ++ take (Z.to_nat did) buf →
  wp (malloc_write_fd fuel buf count did) f (λ _ f', written f' = before ++ take (Z.to_nat count) buf).
Proof.
  intros Hc Hw64. induction fuel as [|fuel IH]; intros did f Hw Hd Hf Hdid; [lia|]. cbn [malloc_write_fd]. wp_steps.
  rewrite u64_small by lia. eapply wp_mono; [apply write_spec; [done|rewrite length_drop; lia]|].
  intros n f' (Hn & Hwr & Hw'). destruct (Z.ltb_spec n 0); [lia|]. rewrite u64_small by lia.
  assert (written f' = before ++ take (Z.to_nat (did + n)) buf) as Hwr'.
  { rewrite Hwr, Hdid, Z2Nat.inj_add by lia. by rewrite <- take_take_drop, app_assoc. }
  destruct (Z.ltb_spec (did + n) count); [by apply IH; (done || lia)|]. wp_steps.
  by replace count with (did + n) by lia.
Qed.

Lemma chars_some l b : chars ((Some <$> l) ++ b) = l ++ chars b.
Proof.
  induction l as [|c l IH]; [done|]. change (c :: chars ((Some <$> l) ++ b) = c :: l ++ chars b). by rewrite IH.
Qed.

(** C13: What is printed is written. As long as [write] takes something at every call,
    however little, [malloc_vcprintf] writes the first 4095 characters of the text, in
    order and once. *)
Theorem vcprintf_writes ps rest fuel f : Forall piece_ok ps → Z.of_nat (length (said ps)) < w64 → NUL ∉ said ps →
  willing (calls f) → (4096 <= fuel)%nat →
  wp (malloc_vcprintf fuel (spelled ps) (all_args ps ++ rest)) f
    (λ _ f', written f' = written f ++ take 4095 (said ps)).
Proof.
  intros Hok Hl Hnul Hw Hf. unfold malloc_vcprintf.
  pose proof (vsnprintf_printed ps 4096 (replicate 4096 None) rest Hok ltac:(rewrite length_replicate; lia) ltac:(done) Hl) as E.
  change (Z.of_nat 4096) with MALLOC_PRINTF_BUFSIZE in E. change (Z.to_nat MALLOC_PRINTF_BUFSIZE) with 4096%nat.
  rewrite E. cbn [str]. unfold overwrite. rewrite take_0, app_nil_l, chars_some. change (4096 - 1)%nat with 4095%nat.
  set (t := take 4095 (said ps)). rewrite <- app_assoc. simpl app.
  assert (NUL ∉ t) as Ht.
  { intros Hin. apply Hnul. unfold t in Hin. rewrite <- (take_drop 4095 (said ps)). apply elem_of_app. by left. }
  assert (length t <= 4095)%nat as Hlt by (unfold t; rewrite length_take; lia).
  unfold write_message. rewrite strlen_spec by done. wp_steps. eapply wp_deref; [reflexivity|]. wp_steps.
  destruct (decide (length t = 0%nat)) as [E0|Hne].
  - assert (t = []) as -> by (by destruct t). simpl Z.of_nat. destruct fuel as [|fuel]; [lia|]. cbn [malloc_write_fd]. wp_steps.
    unfold write, wp. simpl. destruct (calls f) as [|c l] eqn:Ec; simpl; [by rewrite app_nil_r|].
    apply Forall_cons in Hw as [(n & -> & Hn) _]. destruct n; [lia| |lia]. simpl. by rewrite app_nil_r.
  - eapply wp_mono; [eapply (write_fd_spec (written f)); [| |done| |..]|].
    + rewrite length_app. simpl. lia.
    + unfold w64. lia.
    + lia.
    + lia.
    + by rewrite app_nil_r.
    + intros n f' Hwr. wp_steps. rewrite Hwr, Nat2Z.id. by rewrite take_app_length.
Qed.

(** ** At work *)

Section work.
Local Abbreviation chars_of := String.list_ascii_of_string.

(** "x = %-*d|%#x|%.*s%%" *)
Definition pieces : list piece :=
  (Plain <$> chars_of "x = ") ++
  [Print (MkDirective false true "-" (Some 6) None No_len (Signed false (-42))); Plain "|";
   Print (MkDirective true false "-" None None Len_ll (Hex false 48879)); Plain "|";
   Print (MkDirective false false "-" None (Some 2) No_len (Text (chars_of "name") [])); Percent_sign]%char.

Lemma pieces_ok : Forall piece_ok pieces.
Proof.
  assert ("-"%char ∈ ["-"; " "; "+"]%char) as Hs by (by left).
  unfold pieces. simpl. repeat (apply Forall_cons; split); try done.
  all: split; [done|]; split; [done|]; repeat split; first [by left|by set_solver|vm_compute; congruence].
Qed.

Example pieces_said : String.string_of_list_ascii (said pieces) = "x = -42   |0xbeef|na%"%string ∧
  String.string_of_list_ascii (spelled pieces) = "x = %-*d|%#llx|%.*s%%"%string.
Proof. by vm_compute. Qed.


Example u2s_roundtrip_witness :
  ∃ s t buf, u2s 48879 36 true (replicate 65 None) = Ret (Z.of_nat s, Z.of_nat (length t)) buf ∧
    take (S (length t)) (drop s buf) = Some <$> t ++ [NUL] ∧
    parse_numeral (digit_chars true) 36 t = Some 48879 ∧ (head t = Some "0"%char → 48879 = 0).
Proof. apply (u2s_roundtrip 48879 36 true); [done|lia]. Defined.

Example vcprintf_writes_witness :
  wp (malloc_vcprintf 5000 (spelled pieces) (all_args pieces ++ [])) (MkFile [] [Some 3; Some 1])
    (λ _ f', written f' = written (MkFile [] [Some 3; Some 1]) ++ take 4095 (said pieces)).
Proof.
  apply (vcprintf_writes pieces [] 5000 (MkFile [] [Some 3; Some 1]) pieces_ok); [done| | |lia].
  - vm_compute. set_solver.
  - repeat constructor; eexists; (split; [reflexivity|lia]).
Defined.

(** ** Defects *)

Local Abbreviation run size f a := (malloc_vsnprintf size (chars_of f) (MkOut (replicate 16 None) a)).

(** Asking only for the length, with a size of 0, writes outside of the buffer. *)
Example no_size : run 0 "hi" [] = Undef.
Proof. by vm_compute. Qed.

(** A precision larger than the text reads past its end. *)
Example precision_reads_on : run 16 "%.*s" [Num true 32 9; Str (chars_of "name" ++ [NUL])] = Undef.
Proof. by vm_compute. Qed.

(** A width or a precision in digits is never read. *)
Example digits_unread : run 16 "%5d" [Num true 32 1] = Undef.
Proof. by vm_compute. Qed.

(** The least number cannot be negated. *)
Example least_number : run 16 "%ld" [Num true 64 (- 2 ^ 63)] = Undef.
Proof. by vm_compute. Qed.

(** ["%tu"] does not take its argument. *)
Example unsigned_difference : match run 16 "%tu" [Num false 64 7] with Ret n s => n = 1 ∧ ap s = [Num false 64 7] | _ => False end.
Proof. by vm_compute. Qed.
End work.
