(* ===== verification/Optimizer.v ===== *)
(** * Pools of blocks and the record of allocations of optimizer/

    Module [FreeListPool]: [MemoryPool] and [Allocator] of optimizer/allocator.h, and
    [MemoryPool], [BufferPool] and [CustomAllocator] of
    optimizer/unordered_map_with_allocator.cc. Blocks are cut from buffers, and one that
    is given back holds the pointer to the next free one in its own first bytes. Memory
    is made of bytes, so that what a client writes to a block and what the pool writes
    to it meet.

    Module [ProbeMap]: the map of optimizer/memory_map.cc, an array searched by linear
    probing, and the operators new and delete that keep their records in it. *)

From S2P Require Import Prelude NetBytes RobinHood.

Module FreeListPool.

(** ** Memory *)

(** The bytes of the objects that exist. *)
Abbreviation Memory := (gmap Z byte).

(** [operator new]: where the object comes to lie, or [std::bad_alloc]. *)
Class NewOperator := new_at : Memory → Z → option Z.
Class NewLaws `{NO : NewOperator} := new_at_fresh m n a :
  new_at m n = Some a → 0 < a ∧ a + n <= w64 ∧ ∀ i, a <= i < a + n → m !! i = None.

Fixpoint read (n : nat) (a : Z) (m : Memory) : option bytes :=
  match n with
  | O => Some []
  | S n => b ← m !! a; bs ← read n (a + 1) m; Some (b :: bs)
  end.

Fixpoint write (a : Z) (bs : bytes) (m : Memory) : Memory :=
  match bs with
  | [] => m
  | b :: bs => <[a := b]> (write (a + 1) bs m)
  end.

Fixpoint erase_bytes (n : nat) (a : Z) (m : Memory) : Memory :=
  match n with
  | O => m
  | S n => delete a (erase_bytes n (a + 1) m)
  end.

(** [block->next], read and written. *)
Definition load (a : Z) (m : Memory) : option Z := le_combine <$> read 8 a m.
Definition store (a z : Z) (m : Memory) : option Memory :=
  read 8 a m ≫= λ _, Some (write a (le_split 8 z) m).

(** ** The pool *)

(** What the instances of the two templates differ in: how far the blocks of a buffer
    are apart, how large the buffer is, and how many blocks it is cut into. *)
Record Shape := MkShape { stride : Z; data_size : Z; growSize : Z }.

Definition sizeof_Block : Z := 8.

Definition MemoryPool (sizeof_T growSize : Z) : Shape :=
  let blockSize := if sizeof_Block <? sizeof_T then sizeof_T else sizeof_Block in
  MkShape blockSize (blockSize *64 growSize) growSize.

Definition BufferPool (block_size : Z) : Shape := MkShape 1024 (1024 *64 block_size) 1024.

(** [firstBuffer] with the buffers behind it, which are linked by constant members. *)
Record BlockPool := MkBlockPool { firstFreeBlock : Z; firstBuffer : list Z; bufferedBlocks : Z }.

Definition new_BlockPool (sh : Shape) : BlockPool := MkBlockPool 0 [] (growSize sh).

Definition set_free (a : Z) (p : BlockPool) : BlockPool := MkBlockPool a (firstBuffer p) (bufferedBlocks p).
Definition set_buffered (n : Z) (p : BlockPool) : BlockPool := MkBlockPool (firstFreeBlock p) (firstBuffer p) n.
Definition push_buffer (b : Z) (p : BlockPool) : BlockPool := MkBlockPool (firstFreeBlock p) (b :: firstBuffer p) 0.

Section pool.
Context `{NewOperator} (sh : Shape).
Local Abbreviation P := (M (Memory * BlockPool)).

Definition on_pool (f : BlockPool → BlockPool) : P unit := modify (λ s, (fst s, f (snd s))).

(** [new Buffer(firstBuffer)]; the contents of the buffer are of no account. *)
Definition new_Buffer : P Z :=
  m ← gets fst;
  match new_at m (data_size sh) with
  | None => throw "std::bad_alloc"
  | Some b =>
      modify (λ s, (write b (replicate (Z.to_nat (data_size sh)) x00) (fst s), snd s));;
      mret b
  end.

Definition getBlock (b index : Z) : Z := b +64 stride sh *64 index.

Definition Borrow : P Z :=
  p ← gets snd;
  if negb (firstFreeBlock p =? 0) then
    m ← gets fst;
    next ← deref (load (firstFreeBlock p) m);
    on_pool (set_free next);;
    mret (firstFreeBlock p)
  else
    whenM (growSize sh <=? bufferedBlocks p) (b ← new_Buffer; on_pool (push_buffer b));;
    p ← gets snd;
    b ← deref (head (firstBuffer p));
    on_pool (set_buffered (bufferedBlocks p +64 1));;
    mret (getBlock b (bufferedBlocks p)).

Definition GiveBack (pointer : Z) : P unit :=
  p ← gets snd;
  m ← gets fst;
  m ← deref (store pointer (firstFreeBlock p) m);
  modify (λ s, (m, snd s));;
  on_pool (set_free pointer).

(** [~MemoryPool]. *)
Definition destroy : P unit :=
  p ← gets snd;
  forM (firstBuffer p) (λ _ b,
    modify (λ s, (erase_bytes (Z.to_nat (data_size sh)) b (fst s), snd s))) ();;
  on_pool (λ p, MkBlockPool (firstFreeBlock p) [] (bufferedBlocks p)).

(** [Allocator::allocate] and [Allocator::deallocate]. *)
Definition allocate (n hint : Z) : P Z :=
  if negb (n =? 1) || negb (hint =? 0) then throw "std::bad_alloc" else Borrow.
Definition deallocate (p n : Z) : P unit := GiveBack p.
End pool.

(** ** The pool that keeps a record

    [MemoryPool] of unordered_map_with_allocator.cc notes the blocks it lends, and
    says so when it is given one back that it has not lent, but takes it. *)

Record Tracked := MkTracked { pool_of : Memory * BlockPool; lent : gmap Z Z; free_errors : list Z }.

Section tracked.
Context `{NewOperator} (sizeof_T growSize : Z).
Local Abbreviation T := (M Tracked).

Definition on_tracked {A} (f : M (Memory * BlockPool) A) : T A :=
  zoom pool_of (λ s t, MkTracked s (lent t) (free_errors t)) f.

Definition tracked_Borrow : T Z :=
  ret ← on_tracked (Borrow (MemoryPool sizeof_T growSize));
  modify (λ t, MkTracked (pool_of t)
    (if decide (is_Some (lent t !! ret)) then lent t else <[ret := sizeof_T]> (lent t)) (free_errors t));;
  mret ret.

Definition tracked_GiveBack (pointer : Z) : T unit :=
  t ← gets id;
  (if decide (is_Some (lent t !! pointer)) then
     modify (λ t, MkTracked (pool_of t) (delete pointer (lent t)) (free_errors t))
   else modify (λ t, MkTracked (pool_of t) (lent t) (free_errors t ++ [pointer])));;
  on_tracked (GiveBack pointer).
End tracked.

(** ** The allocator on pools for different sizes

    [CustomAllocator]: [pools] are the objects [pool_] points to, by their key. *)

Section buffers.
Context `{NewOperator} (block_size : Z).
Definition BufferPool_Borrow : M (Memory * BlockPool) Z := Borrow (BufferPool block_size).
Definition BufferPool_GiveBack : Z → M (Memory * BlockPool) unit := GiveBack.
Definition BufferPool_destroy : M (Memory * BlockPool) unit := destroy (BufferPool block_size).
End buffers.

Record CustomAllocator := MkCustom {
  custom_memory : Memory;
  pool_ : gmap Z BlockPool;
  allocated : gmap Z Z;
}.

Section custom.
Context `{NewOperator} (sizeof_T : Z).
Local Abbreviation C := (M CustomAllocator).

Definition set_allocated (v : gmap Z Z) (c : CustomAllocator) : CustomAllocator :=
  MkCustom (custom_memory c) (pool_ c) v.

(** A call of the pool for a size. *)
Definition at_pool {A} (k : Z) (f : M (Memory * BlockPool) A) : C A :=
  c ← gets id;
  p ← deref (pool_ c !! k);
  zoom (λ c, (custom_memory c, p)) (λ s c, MkCustom (fst s) (<[k := snd s]> (pool_ c)) (allocated c)) f.

Definition custom_allocate (n : Z) : C Z :=
  if (w64 - 1) / sizeof_T <? n then throw "std::bad_alloc"
  else
    let k := n *64 sizeof_T in
    c ← gets id;
    (match pool_ c !! k with
     | None => modify (λ c, MkCustom (custom_memory c) (<[k := new_BlockPool (BufferPool k)]> (pool_ c)) (allocated c))
     | Some _ => mret ()
     end);;
    ret ← at_pool k (BufferPool_Borrow k);
    modify (λ c, set_allocated (<[ret := k]> (allocated c)) c);;
    mret ret.

Definition custom_deallocate (p : Z) : C unit :=
  c ← gets id;
  match allocated c !! p with
  | Some k => at_pool k (BufferPool_GiveBack p);; modify (λ c, set_allocated (delete p (allocated c)) c)
  | None => mret ()
  end.
End custom.

(** ** A client

    [held] are the blocks it has been lent, [written] is what it has written to them
    and expects to find again, [peak] how many it has held at once. *)

Inductive Request := Ask | Return (a : Z) | Write (a : Z) (b : byte).

Record Client := MkClient { held : list Z; written : gmap Z byte; peak : nat }.
Definition new_Client : Client := MkClient [] ∅ 0.

(** [a] lies in the object of [n] bytes at [x]. *)
Definition within (x n a : Z) : bool := (x <=? a) && (a <? x + n).

Definition lend (x : Z) (c : Client) : Client :=
  MkClient (x :: held c) (written c) (peak c `max` S (length (held c))).
Definition release (x n : Z) (c : Client) : Client :=
  MkClient (filter (λ y, y ≠ x) (held c)) (filter (λ ab, within x n ab.1 = false) (written c)) (peak c).
Definition note (a : Z) (b : byte) (c : Client) : Client :=
  MkClient (held c) (<[a := b]> (written c)) (peak c).

Section client.
Context `{NewOperator} (sh : Shape) (sizeof_T : Z).

(** A client gives back what it holds and writes to what it holds; other requests are
    not made. Nothing is returned from undefined behaviour. *)
Definition serve (r : Request) (s : Memory * BlockPool) (c : Client) : option ((Memory * BlockPool) * Client) :=
  match r with
  | Ask =>
      match Borrow sh s with
      | Ret x s => Some (s, lend x c)
      | Throw _ s => Some (s, c)
      | Undef => None
      end
  | Return x =>
      if decide (x ∈ held c) then
        match GiveBack x s with
        | Ret _ s => Some (s, release x sizeof_T c)
        | Throw _ s => Some (s, c)
        | Undef => None
        end
      else Some (s, c)
  | Write a b =>
      if existsb (λ x, within x sizeof_T a) (held c) then
        _ ← fst s !! a; Some ((<[a := b]> (fst s), snd s), note a b c)
      else Some (s, c)
  end.

Fixpoint run (l : list Request) (s : Memory * BlockPool) (c : Client) : option ((Memory * BlockPool) * Client) :=
  match l with
  | [] => Some (s, c)
  | r :: l => '(s, c) ← serve r s c; run l s c
  end.
End client.

(** ** Lemmas on memory *)

Lemma withinP x n a : BoolSpec (x <= a < x + n) (a < x ∨ x + n <= a) (within x n a).
Proof.
  unfold within. destruct (Z.leb_spec x a), (Z.ltb_spec a (x + n)); simpl; constructor; lia.
Qed.

Lemma within_true x n a : within x n a = true ↔ x <= a < x + n.
Proof. destruct (withinP x n a); split; try done; lia. Qed.

Lemma lookup_write a bs m i :
  write a bs m !! i = if within a (size bs) i then bs !! Z.to_nat (i - a) else m !! i.
Proof.
  revert a. induction bs as [|b bs IH]; intros a; cbn [write].
  - rewrite size_nil. destruct (withinP a 0 i); [lia|done].
  - rewrite size_cons. pose proof (size_nonneg bs). destruct (decide (a = i)) as [->|Hne].
    + rewrite lookup_insert_eq, Z.sub_diag. destruct (withinP i (1 + size bs) i); [done|lia].
    + rewrite lookup_insert_ne, IH by done.
      destruct (withinP (a + 1) (size bs) i), (withinP a (1 + size bs) i); try lia; [|done].
      replace (Z.to_nat (i - a)) with (S (Z.to_nat (i - (a + 1)))) by lia. done.
Qed.

Lemma lookup_write_ne a bs m i : i < a ∨ a + size bs <= i → write a bs m !! i = m !! i.
Proof. intros. rewrite lookup_write. destruct (withinP a (size bs) i); [lia|done]. Qed.

Lemma lookup_write_is_Some a bs m i : a <= i < a + size bs → is_Some (write a bs m !! i).
Proof.
  intros. rewrite lookup_write. destruct (withinP a (size bs) i); [|lia].
  apply lookup_lt_is_Some. unfold size in *. lia.
Qed.

Lemma lookup_write_mono a bs m i : is_Some (m !! i) → is_Some (write a bs m !! i).
Proof.
  intros. destruct (withinP a (size bs) i); [by apply lookup_write_is_Some|by rewrite lookup_write_ne].
Qed.

Lemma lookup_erase_bytes n a m i : erase_bytes n a m !! i = if within a (Z.of_nat n) i then None else m !! i.
Proof.
  revert a. induction n as [|n IH]; intros a; cbn [erase_bytes].
  - destruct (withinP a (Z.of_nat 0) i); [lia|done].
  - rewrite lookup_delete, IH.
    destruct (decide (a = i)), (withinP (a + 1) (Z.of_nat n) i), (withinP a (Z.of_nat (S n)) i); try done; lia.
Qed.

Lemma read_ext n a m m' : (∀ i, a <= i < a + Z.of_nat n → m !! i = m' !! i) → read n a m = read n a m'.
Proof.
  revert a. induction n as [|n IH]; intros a Hm; cbn [read]; [done|].
  rewrite (Hm a) by lia. rewrite (IH (a + 1)); [done|]. intros. apply Hm. lia.
Qed.

Lemma read_write a bs m : read (length bs) a (write a bs m) = Some bs.
Proof.
  revert a. induction bs as [|b bs IH]; intros a; cbn [length read write]; [done|].
  rewrite lookup_insert_eq. simpl.
  rewrite (read_ext _ _ _ (write (a + 1) bs m)), IH; [done|].
  intros. rewrite lookup_insert_ne; [done|lia].
Qed.

Lemma read_is_Some n a m : (∀ i, a <= i < a + Z.of_nat n → is_Some (m !! i)) → is_Some (read n a m).
Proof.
  revert a. induction n as [|n IH]; intros a Hm; cbn [read]; [done|].
  destruct (Hm a) as [b ->]; [lia|]. simpl.
  destruct (IH (a + 1)) as [bs ->]; [|done]. intros. apply Hm. lia.
Qed.

Lemma load_ext a m m' : (∀ i, a <= i < a + 8 → m !! i = m' !! i) → load a m = load a m'.
Proof. intros Hm. unfold load. by rewrite (read_ext _ _ _ m'). Qed.

Lemma size_word z : size (le_split 8 z) = 8.
Proof. unfold size. by rewrite length_le_split. Qed.

Lemma load_stored a z m : 0 <= z < w64 → load a (write a (le_split 8 z) m) = Some z.
Proof.
  intros. unfold load. pose proof (read_write a (le_split 8 z) m) as Hr.
  rewrite length_le_split in Hr. rewrite Hr. change (Some (le_combine (le_split 8 z)) = Some z).
  rewrite le_combine_split, Z.mod_small; [done|]. by change (256 ^ Z.of_nat 8) with w64.
Qed.

Lemma store_ok a z m : (∀ i, a <= i < a + 8 → is_Some (m !! i)) → store a z m = Some (write a (le_split 8 z) m).
Proof. intros Hm. unfold store. destruct (read_is_Some 8 a m Hm) as [bs ->]. done. Qed.

(** ** What a pool consists of *)

(** The free blocks, through the pointers in them. *)
Fixpoint chain (m : Memory) (a : Z) (free : list Z) : Prop :=
  match free with
  | [] => a = 0
  | x :: free => a = x ∧ 0 < x < w64 ∧ ∃ next, load x m = Some next ∧ chain m next free
  end.

Lemma free_head m a free : chain m a free → 0 <= a < w64.
Proof. destruct free; simpl; [by intros ->|intros (-> & ? & _); lia]. Qed.

Lemma free_ext m m' a free :
  (∀ x i, x ∈ free → x <= i < x + 8 → m !! i = m' !! i) → chain m a free → chain m' a free.
Proof.
  revert a. induction free as [|x free IH]; intros a Hm; simpl; [done|].
  intros (-> & Hx & next & Hl & Hc). split; [done|]. split; [done|]. exists next.
  rewrite <- (load_ext x m m') by set_solver. split; [done|]. apply IH; [set_solver|done].
Qed.

Definition apart (n x y : Z) : Prop := x + n <= y ∨ y + n <= x.

(** Blocks cut from buffers: [n] of the first one, all of the others. *)
Definition blocks (sh : Shape) (b n : Z) : list Z := (λ i, b + stride sh * i) <$> seqZ 0 n.
Definition cut_all (sh : Shape) (bs : list Z) : list Z := bs ≫= λ b, blocks sh b (growSize sh).
Definition cut (sh : Shape) (p : BlockPool) : list Z :=
  match firstBuffer p with
  | [] => []
  | b :: bs => blocks sh b (bufferedBlocks p) ++ cut_all sh bs
  end.

Record ShapeOk (sh : Shape) (sizeof_T : Z) : Prop := {
  ok_word : 8 <= stride sh;
  ok_object : sizeof_T <= stride sh;
  ok_grow : 1 <= growSize sh;
  ok_data : stride sh * growSize sh <= data_size sh;
  ok_small : data_size sh < w64;
}.

(** The buffers lie in [m], apart from each other and from what was there before. *)
Record BuffersOk (sh : Shape) (m0 m : Memory) (bs : list Z) : Prop := {
  buffers_distinct : NoDup bs;
  buffers_apart x y : x ∈ bs → y ∈ bs → x ≠ y → apart (data_size sh) x y;
  buffers_range b : b ∈ bs → 0 < b ∧ b + data_size sh <= w64;
  buffers_mapped b i : b ∈ bs → b <= i < b + data_size sh → is_Some (m !! i) ∧ m0 !! i = None;
}.

Record Inv (sh : Shape) (sizeof_T : Z) (m0 : Memory) (s : Memory * BlockPool) (c : Client) (free : list Z) : Prop := {
  inv_chain : chain (fst s) (firstFreeBlock (snd s)) free;
  inv_cut : free ++ held c ≡ₚ cut sh (snd s);
  inv_buffers : BuffersOk sh m0 (fst s) (firstBuffer (snd s));
  inv_count : 0 <= bufferedBlocks (snd s) <= growSize sh;
  inv_empty : firstBuffer (snd s) = [] → bufferedBlocks (snd s) = growSize sh;
  inv_written a b : written c !! a = Some b →
    fst s !! a = Some b ∧ ∃ x, x ∈ held c ∧ within x sizeof_T a = true;
  inv_others a b : m0 !! a = Some b → fst s !! a = Some b;
  inv_peak : (length (cut sh (snd s)) <= peak c)%nat;
}.

Section cut.
Context {sh : Shape} {sizeof_T : Z} (Hok : ShapeOk sh sizeof_T).
Implicit Types (p : BlockPool) (m : Memory).

Lemma elem_of_blocks b n x : x ∈ blocks sh b n ↔ ∃ i, 0 <= i < n ∧ x = b + stride sh * i.
Proof.
  unfold blocks. rewrite list_elem_of_fmap. split.
  - intros (i & -> & Hi%elem_of_seqZ). exists i. split; [lia|done].
  - intros (i & Hi & ->). exists i. split; [done|]. apply elem_of_seqZ. lia.
Qed.

Lemma blocks_succ b n : 0 <= n → blocks sh b (n + 1) = blocks sh b n ++ [b + stride sh * n].
Proof.
  intros. unfold blocks. rewrite seqZ_app, fmap_app by lia. done.
Qed.

(** A block is known by its buffer and its place in it. *)
Lemma elem_of_cut p x :
  x ∈ cut sh p → bufferedBlocks p <= growSize sh →
  ∃ b i, b ∈ firstBuffer p ∧ 0 <= i < growSize sh ∧ x = b + stride sh * i.
Proof.
  unfold cut. destruct (firstBuffer p) as [|b bs]; [by intros ?%not_elem_of_nil|].
  intros [(i & ? & ->)%elem_of_blocks|Hx]%elem_of_app ?.
  - exists b, i. split; [left|]. split; [lia|done].
  - unfold cut_all in Hx. apply list_elem_of_bind in Hx as (b' & (i & ? & ->)%elem_of_blocks & Hb').
    exists b', i. split; [by right|]. done.
Qed.

Lemma place_in_buffer i : 0 <= i < growSize sh → 0 <= stride sh * i ∧ stride sh * i + stride sh <= data_size sh.
Proof using Hok. destruct Hok. intros. nia. Qed.

Lemma places_apart b i j : i ≠ j → apart (stride sh) (b + stride sh * i) (b + stride sh * j).
Proof using Hok. destruct Hok. unfold apart. intros. destruct (Z.lt_total i j) as [|[]]; [left|done|right]; nia. Qed.

Lemma cut_apart m0 m p x y :
  BuffersOk sh m0 m (firstBuffer p) → bufferedBlocks p <= growSize sh →
  x ∈ cut sh p → y ∈ cut sh p → x ≠ y → apart (stride sh) x y.
Proof using Hok.
  intros HB Hn Hx Hy Hne.
  apply elem_of_cut in Hx as (b & i & Hb & Hi & ->); [|done].
  apply elem_of_cut in Hy as (b' & j & Hb' & Hj & ->); [|done].
  destruct (decide (b = b')) as [<-|Hbb].
  - apply places_apart. congruence.
  - pose proof (place_in_buffer i Hi). pose proof (place_in_buffer j Hj).
    destruct (buffers_apart _ _ _ _ HB b b'); [done..| |]; unfold apart; lia.
Qed.

Lemma cut_range m0 m p x :
  BuffersOk sh m0 m (firstBuffer p) → bufferedBlocks p <= growSize sh → x ∈ cut sh p →
  0 < x < w64 ∧ ∀ i, x <= i < x + stride sh → is_Some (m !! i) ∧ m0 !! i = None.
Proof using Hok.
  intros HB Hn Hx. apply elem_of_cut in Hx as (b & i & Hb & Hi & ->); [|done].
  pose proof (place_in_buffer i Hi). destruct (buffers_range _ _ _ _ HB b Hb).
  destruct Hok. split; [lia|]. intros a Ha. apply (buffers_mapped _ _ _ _ HB b); [done|lia].
Qed.

Lemma NoDup_blocks b n : NoDup (blocks sh b n).
Proof using Hok.
  apply NoDup_fmap_2_strong; [|apply NoDup_seqZ].
  intros i j _ _ Hij. destruct Hok. nia.
Qed.

Lemma NoDup_cut m0 m p :
  BuffersOk sh m0 m (firstBuffer p) → bufferedBlocks p <= growSize sh → NoDup (cut sh p).
Proof using Hok.
  intros HB Hn. unfold cut. destruct (firstBuffer p) as [|b bs] eqn:Hbs; [constructor|].
  assert (∀ b b' i j, b ∈ firstBuffer p → b' ∈ firstBuffer p → b ≠ b' →
    0 <= i < growSize sh → 0 <= j < growSize sh → b + stride sh * i ≠ b' + stride sh * j) as Hsep.
  { intros x y i j Hx Hy Hxy Hi Hj. pose proof (place_in_buffer i Hi). pose proof (place_in_buffer j Hj).
    rewrite Hbs in Hx, Hy. destruct Hok. destruct (buffers_apart _ _ _ _ HB x y Hx Hy Hxy); lia. }
  pose proof (buffers_distinct _ _ _ _ HB) as Hnd. apply NoDup_cons in Hnd as [Hb Hnd].
  apply NoDup_app. split; [apply NoDup_blocks|]. split.
  - intros x (i & Hi & ->)%elem_of_blocks Hx.
    apply list_elem_of_bind in Hx as (b' & (j & Hj & Heq)%elem_of_blocks & Hb').
    apply (Hsep b b' i j) in Heq; [done| | |set_solver|lia|lia]; rewrite Hbs; set_solver.
  - assert (∀ x, x ∈ bs → x ∈ firstBuffer p) as Hsub by (rewrite Hbs; set_solver).
    clear Hbs HB Hb. induction bs as [|x bs IH]; [constructor|].
    apply NoDup_cons in Hnd as [Hx Hnd]. unfold cut_all. cbn [mbind list_bind]. apply NoDup_app.
    split; [apply NoDup_blocks|]. split; [|apply IH; [done|set_solver]].
    intros y (i & Hi & ->)%elem_of_blocks Hy.
    apply list_elem_of_bind in Hy as (b' & (j & Hj & Heq)%elem_of_blocks & Hb').
    apply (Hsep x b' i j) in Heq; [done|apply Hsub; set_solver..|set_solver|lia|lia].
Qed.
End cut.

Lemma length_cut sh p :
  firstBuffer p ≠ [] → 0 <= bufferedBlocks p → 0 <= growSize sh →
  Z.of_nat (length (cut sh p)) =
  bufferedBlocks p + (Z.of_nat (length (firstBuffer p)) - 1) * growSize sh.
Proof.
  unfold cut. destruct (firstBuffer p) as [|b bs]; [done|]. intros _ ? ?.
  rewrite length_app. unfold blocks at 1. rewrite length_fmap, length_seqZ.
  assert (Z.of_nat (length (cut_all sh bs)) = Z.of_nat (length bs) * growSize sh) as Hall.
  { unfold cut_all. induction bs as [|b' bs IH]; [done|]. cbn [mbind list_bind].
    rewrite length_app. unfold blocks at 1. rewrite length_fmap, length_seqZ. cbn [length]. lia. }
  cbn [length]. lia.
Qed.

Lemma held_without (l : list Z) x : NoDup l → x ∈ l → l ≡ₚ x :: filter (λ y, y ≠ x) l.
Proof.
  induction l as [|y l IH]; intros Hnd Hx; [by apply not_elem_of_nil in Hx|].
  apply NoDup_cons in Hnd as [Hy Hnd]. rewrite filter_cons. apply elem_of_cons in Hx as [->|Hx].
  - case_decide; [done|]. f_equiv. rewrite filter_all; [done|].
    apply Forall_forall. intros z Hz ->. done.
  - case_decide as Hd; [|by subst].
    rewrite (IH Hnd Hx) at 1. apply Permutation_swap.
Qed.

(** ** The operations keep the invariant *)

Section ops.
Context {sh : Shape} {sizeof_T : Z} (Hok : ShapeOk sh sizeof_T).
Context `{NL : NewLaws} {m0 : Memory}.
Implicit Types (p : BlockPool) (m : Memory) (c : Client).
Local Abbreviation I := (Inv sh sizeof_T m0).

Lemma growSize_small : growSize sh < w64.
Proof using Hok. destruct Hok. nia. Qed.

Lemma BuffersOk_mono m m' bs :
  (∀ i, is_Some (m !! i) → is_Some (m' !! i)) → BuffersOk sh m0 m bs → BuffersOk sh m0 m' bs.
Proof.
  intros Hm [Hd Ha Hr Hmap]. split; [done..|]. intros b i Hb Hi. destruct (Hmap b i Hb Hi). auto.
Qed.

Lemma new_buffer_ok m bs b :
  BuffersOk sh m0 m bs → (∀ i v, m0 !! i = Some v → m !! i = Some v) →
  new_at m (data_size sh) = Some b →
  BuffersOk sh m0 (write b (replicate (Z.to_nat (data_size sh)) x00) m) (b :: bs).
Proof using All.
  intros HB H0 Hb. apply new_at_fresh in Hb as (Hpos & Htop & Hfree).
  destruct Hok. assert (0 < data_size sh) by nia.
  assert (size (replicate (Z.to_nat (data_size sh)) x00) = data_size sh) as Hsz
    by (unfold size; rewrite length_replicate; lia).
  assert (∀ x, x ∈ bs → apart (data_size sh) b x) as Hap.
  { intros x Hx. destruct (decide (apart (data_size sh) b x)) as [|Hn]; [done|].
    exfalso. unfold apart in Hn. pose proof (buffers_mapped _ _ _ _ HB x (Z.max b x) Hx) as [[v Hv] _]; [lia|].
    rewrite Hfree in Hv; [done|lia]. }
  split.
  - apply NoDup_cons. split; [|apply HB]. intros Hin. destruct (Hap b Hin); lia.
  - intros x y Hx Hy Hne. apply elem_of_cons in Hx as [->|Hx]; apply elem_of_cons in Hy as [->|Hy].
    + done.
    + by apply Hap.
    + destruct (Hap x Hx); unfold apart; lia.
    + by apply (buffers_apart _ _ _ _ HB).
  - intros x [->|Hx]%elem_of_cons; [lia|by apply (buffers_range _ _ _ _ HB)].
  - intros x i [->|Hx]%elem_of_cons Hi.
    + split; [apply lookup_write_is_Some; lia|].
      destruct (m0 !! i) as [v|] eqn:Hv; [|done]. apply H0 in Hv. by rewrite Hfree in Hv.
    + destruct (buffers_mapped _ _ _ _ HB x i Hx Hi). split; [by apply lookup_write_mono|done].
Qed.

Lemma new_Buffer_keeps m p c b :
  I (m, p) c [] → bufferedBlocks p = growSize sh → new_at m (data_size sh) = Some b →
  I (write b (replicate (Z.to_nat (data_size sh)) x00) m, push_buffer b p) c [].
Proof using All.
  intros HI Hfull Hb. destruct HI as [Hch Hcut HB Hn He Hw H0 Hp]; simpl in *.
  assert (cut sh (push_buffer b p) = cut sh p) as Hsame.
  { unfold cut, push_buffer. simpl. destruct (firstBuffer p); [done|]. simpl. by rewrite Hfull. }
  assert (∀ i v, m !! i = Some v → write b (replicate (Z.to_nat (data_size sh)) x00) m !! i = Some v) as Hkeep.
  { intros i v Hv. apply new_at_fresh in Hb as (_ & _ & Hfree).
    rewrite lookup_write_ne; [done|]. unfold size. rewrite length_replicate.
    destruct (decide (b <= i < b + data_size sh)) as [Hi|]; [|destruct Hok; nia].
    by rewrite Hfree in Hv. }
  split; simpl; try done.
  - by rewrite Hsame.
  - by apply new_buffer_ok.
  - destruct Hok. lia.
  - intros a v Ha. destruct (Hw a v Ha) as [? ?]. split; [by apply Hkeep|done].
  - intros a v Ha. by apply Hkeep, H0.
  - by rewrite Hsame.
Qed.

Lemma carving_keeps m p c b bs :
  I (m, p) c [] → firstBuffer p = b :: bs → bufferedBlocks p < growSize sh →
  (getBlock sh b (bufferedBlocks p) ∉ held c) ∧
  I (m, set_buffered (bufferedBlocks p +64 1) p) (lend (getBlock sh b (bufferedBlocks p)) c) [].
Proof using Hok.
  intros [Hch Hcut HB Hn He Hw H0 Hp] Hbs Hlt; simpl in *. pose proof growSize_small.
  set (n := bufferedBlocks p) in *.
  assert (getBlock sh b n = b + stride sh * n) as Hget.
  { destruct (buffers_range _ _ _ _ HB b) as [? ?]; [rewrite Hbs; left|].
    destruct (place_in_buffer Hok n) as [? ?]; [lia|]. destruct Hok.
    unfold getBlock. rewrite u64_add_r. apply u64_small. lia. }
  rewrite (u64_small (n + 1)), Hget by lia.
  assert (cut sh (set_buffered (n + 1) p) ≡ₚ (b + stride sh * n) :: cut sh p) as Hmore.
  { unfold cut, set_buffered. simpl. rewrite Hbs, blocks_succ by lia. fold n.
    rewrite <- app_assoc. simpl. by rewrite <- Permutation_middle. }
  assert (NoDup (cut sh (set_buffered (n + 1) p))) as Hnd
    by (apply (NoDup_cut Hok m0 m); simpl; [done|lia]).
  rewrite Hmore in Hnd. apply NoDup_cons in Hnd as [Hnew _]. rewrite <- Hcut in Hnew.
  split; [done|]. split; simpl; try done.
  - by rewrite Hmore, <- Hcut.
  - lia.
  - rewrite Hbs. done.
  - intros a v Ha. destruct (Hw a v Ha) as (? & x & Hx & ?). split; [done|]. exists x. by split; [right|].
  - rewrite Hmore, <- Hcut. simpl. lia.
Qed.

Lemma Borrow_keeps s c free :
  I s c free →
  match Borrow sh s with
  | Ret x s' => (x ∉ held c) ∧ ∃ free', I s' (lend x c) free'
  | Throw _ s' => s' = s
  | Undef => False
  end.
Proof using All.
  intros HI. destruct s as [m p]. pose proof (inv_chain _ _ _ _ _ _ HI) as Hch. simpl in Hch.
  unfold Borrow, on_pool, gets, mbind, M_bind, modify, mret, M_ret. simpl. destruct free as [|x free].
  - simpl in Hch. rewrite Hch. unfold whenM, new_Buffer, gets, mbind, M_bind, modify, mret, M_ret. simpl.
    pose proof (inv_count _ _ _ _ _ _ HI) as Hn. simpl in Hn.
    destruct (Z.leb_spec (growSize sh) (bufferedBlocks p)) as [Hfull|Hroom].
    + cbn [fst snd]. destruct (new_at m (data_size sh)) as [b|] eqn:Hb; simpl; [|done].
      assert (bufferedBlocks p = growSize sh) as Heq by lia.
      pose proof (new_Buffer_keeps _ _ _ b HI Heq Hb) as HI'.
      destruct (carving_keeps _ _ _ b (firstBuffer p) HI') as [? ?]; [done|destruct Hok; simpl; lia|].
        simpl in *. eauto.
    + destruct (firstBuffer p) as [|b bs] eqn:Hbs.
      { pose proof (inv_empty _ _ _ _ _ _ HI Hbs). simpl in *. lia. }
      simpl. rewrite Hbs. simpl. destruct (carving_keeps _ _ _ b bs HI) as [? ?]; [done..|]. eauto.
  - destruct Hch as (Hx & Hr & next & Hl & Hch). rewrite Hx.
    destruct (Z.eqb_spec x 0); [lia|]. simpl. rewrite Hl. simpl.
    destruct HI as [_ Hcut HB Hn He Hw H0 Hp]; simpl in *.
    assert (NoDup (cut sh p)) as Hnd by (apply (NoDup_cut Hok m0 m); [done|lia]).
    rewrite <- Hcut in Hnd. apply NoDup_cons in Hnd as [Hnew _].
    split; [set_solver|]. exists free. split; simpl; try done.
    + by rewrite <- Permutation_middle.
    + intros a v Ha. destruct (Hw a v Ha) as (? & y & Hy & ?). split; [done|]. exists y. by split; [right|].
    + change (cut sh (set_free next p)) with (cut sh p). lia.
Qed.
(** Every block is the client's or free, but not both, and blocks lie apart. *)
Lemma block_facts m p c free x :
  I (m, p) c free → x ∈ held c →
  0 < x < w64 ∧ (∀ i, x <= i < x + stride sh → is_Some (m !! i) ∧ m0 !! i = None) ∧
  (∀ y, y ∈ free ++ held c → y ≠ x → apart (stride sh) x y) ∧ NoDup (held c).
Proof using All.
  intros [_ Hcut HB Hn _ _ _ _] Hx; simpl in *.
  assert (∀ y, y ∈ free ++ held c → y ∈ cut sh p) as Hin by (intros; by rewrite <- Hcut).
  assert (x ∈ free ++ held c) as Hx' by set_solver.
  destruct (cut_range Hok m0 m p x HB) as [Hr Hm]; [lia|auto|].
  split; [done|]. split; [done|]. split.
  - intros y Hy Hne. apply (cut_apart Hok m0 m p); auto; lia.
  - pose proof (NoDup_cut Hok m0 m p HB) as Hnd. rewrite <- Hcut in Hnd.
    apply NoDup_app in Hnd as (_ & _ & ?); [done|lia].
Qed.

Lemma GiveBack_keeps m p c free x :
  I (m, p) c free → x ∈ held c →
  ∃ s', GiveBack x (m, p) = Ret () s' ∧ I s' (release x sizeof_T c) (x :: free).
Proof using All.
  intros HI Hx. destruct (block_facts _ _ _ _ x HI Hx) as (Hr & Hm & Hap & Hnd).
  destruct HI as [Hch Hcut HB Hn He Hw H0 Hp]; simpl in *.
  pose proof (ok_word _ _ Hok). pose proof (ok_object _ _ Hok).
  exists (write x (le_split 8 (firstFreeBlock p)) m, set_free x p). split.
  { unfold GiveBack, on_pool, gets, mbind, M_bind, modify. cbn [fst snd].
    rewrite store_ok; [done|]. intros i Hi. apply Hm. lia. }
  assert (∀ i, i < x ∨ x + 8 <= i → write x (le_split 8 (firstFreeBlock p)) m !! i = m !! i) as Hout.
  { intros i Hi. apply lookup_write_ne. by rewrite size_word. }
  assert (load x (write x (le_split 8 (firstFreeBlock p)) m) = Some (firstFreeBlock p)) as Hload
    by (apply load_stored; by eapply free_head).
  assert (∀ i, is_Some (m !! i) → is_Some (write x (le_split 8 (firstFreeBlock p)) m !! i)) as Hmono
    by (intros; by apply lookup_write_mono).
  revert Hout Hload Hmono. generalize (write x (le_split 8 (firstFreeBlock p)) m). intros m' Hout Hload Hmono.
  split; simpl; try done.
  - split; [done|]. split; [done|]. exists (firstFreeBlock p). split; [done|].
    eapply free_ext; [|exact Hch]. intros y i Hy Hi. symmetry. apply Hout.
    assert (y ≠ x) as Hne.
    { intros ->. pose proof (NoDup_cut Hok m0 m p HB) as Hnc. rewrite <- Hcut in Hnc.
      apply NoDup_app in Hnc as (_ & Hnc & _); [|lia]. by apply (Hnc x). }
    destruct (Hap y); [set_solver|done|lia|lia].
  - change (cut sh (set_free x p)) with (cut sh p). rewrite <- Hcut.
    rewrite (Permutation_middle free _ x). f_equiv. symmetry. by apply held_without.
  - by eapply BuffersOk_mono.
  - intros a b [Ha Hna]%map_lookup_filter_Some. simpl in Hna.
    destruct (Hw a b Ha) as (Hma & y & Hy & Hin).
    assert (y ≠ x) as Hne by congruence. apply within_true in Hin.
    split; [|exists y; split; [apply list_elem_of_filter; done|by apply within_true]].
    rewrite Hout; [done|]. destruct (Hap y); [set_solver|done|lia|lia].
  - intros a b Ha. rewrite Hout; [by apply H0|].
    destruct (decide (x <= a < x + stride sh)) as [Hin|]; [|lia].
    destruct (Hm a Hin) as [_ Hno]. congruence.
Qed.

Lemma Write_keeps m p c free x a b :
  I (m, p) c free → x ∈ held c → x <= a < x + sizeof_T →
  is_Some (m !! a) ∧ I (<[a := b]> m, p) (note a b c) free.
Proof using All.
  intros HI Hx Ha. destruct (block_facts _ _ _ _ x HI Hx) as (Hr & Hm & Hap & _).
  destruct HI as [Hch Hcut HB Hn He Hw H0 Hp]; simpl in *.
  pose proof (ok_word _ _ Hok). pose proof (ok_object _ _ Hok).
  destruct (Hm a) as [Hs Hno]; [lia|]. split; [done|]. split; simpl; try done.
  - eapply free_ext; [|exact Hch]. intros y i Hy Hi. rewrite lookup_insert_ne; [done|].
    assert (y ≠ x) as Hne.
    { intros ->. pose proof (NoDup_cut Hok m0 m p HB) as Hnc. rewrite <- Hcut in Hnc.
      apply NoDup_app in Hnc as (_ & Hnc & _); [|lia]. by apply (Hnc x). }
    destruct (Hap y); [set_solver|done|lia|lia].
  - eapply BuffersOk_mono; [|done]. intros i ?. by apply lookup_insert_is_Some'; right.
  - intros a' b'. destruct (decide (a = a')) as [<-|Hne].
    + rewrite !lookup_insert_eq. intros [= <-]. split; [done|]. exists x. by rewrite within_true.
    + rewrite !lookup_insert_ne by done. apply Hw.
  - intros a' b' Ha'. rewrite lookup_insert_ne; [by apply H0|]. congruence.
Qed.

Lemma serve_keeps r s c free :
  I s c free → ∃ s' c' free', serve sh sizeof_T r s c = Some (s', c') ∧ I s' c' free'.
Proof using All.
  intros HI. destruct s as [m p], r as [|x|a b]; cbn [serve].
  - pose proof (Borrow_keeps _ _ _ HI) as Hb. destruct (Borrow sh (m, p)) as [x s'|e s'|]; [| |done].
    + destruct Hb as (_ & free' & ?). eauto.
    + subst. eauto.
  - destruct (decide (x ∈ held c)) as [Hx|]; [|eauto].
    destruct (GiveBack_keeps _ _ _ _ x HI Hx) as (s' & -> & ?). eauto.
  - destruct (existsb _ _) eqn:Hex; [|eauto]. apply existsb_exists in Hex as (x & Hx & Hin).
    apply list_elem_of_In in Hx. apply within_true in Hin.
    destruct (Write_keeps _ _ _ _ x a b HI Hx Hin) as [[v Hv] ?]. cbn [fst]. rewrite Hv. simpl. eauto.
Qed.

Lemma run_keeps l s c free :
  I s c free → ∃ s' c' free', run sh sizeof_T l s c = Some (s', c') ∧ I s' c' free'.
Proof using All.
  revert s c free. induction l as [|r l IH]; intros s c free HI; cbn [run]; [eauto|].
  destruct (serve_keeps r s c free HI) as (s' & c' & free' & -> & HI'). simpl. by apply (IH _ _ free').
Qed.

Lemma NoDup_held s c free : I s c free → NoDup (held c).
Proof using All.
  intros [_ Hcut HB Hn _ _ _ _]. pose proof (NoDup_cut Hok m0 _ _ HB) as Hnd.
  rewrite <- Hcut in Hnd. apply NoDup_app in Hnd as (_ & _ & ?); [done|lia].
Qed.

(** No more blocks have been cut than were ever lent at once. *)
Lemma cut_at_peak s c free :
  I s c free → firstBuffer (snd s) ≠ [] →
  bufferedBlocks (snd s) + (Z.of_nat (length (firstBuffer (snd s))) - 1) * growSize sh <= Z.of_nat (peak c).
Proof using All.
  intros HI Hb. pose proof (inv_peak _ _ _ _ _ _ HI). pose proof (inv_count _ _ _ _ _ _ HI).
  rewrite <- length_cut by (done || lia). lia.
Qed.

(** The destructor deletes all buffers, and nothing that the pool did not make. *)
Lemma destroy_frees m p c free :
  I (m, p) c free →
  wp (destroy sh) (m, p) (λ _ s, firstBuffer (snd s) = [] ∧
    (∀ b i, b ∈ firstBuffer p → b <= i < b + data_size sh → fst s !! i = None) ∧
    (∀ a v, m0 !! a = Some v → fst s !! a = Some v)).
Proof using All.
  intros [_ _ HB _ _ _ H0 _]. simpl in *. unfold destroy, on_pool. wp_steps.
  set (n := Z.to_nat (data_size sh)).
  apply (wp_forM _ _ _ _ (λ rest _ s, ∀ i, fst s !! i = m !! i ∧ existsb (λ b, within b (Z.of_nat n) i) (firstBuffer p) = existsb (λ b, within b (Z.of_nat n) i) rest
    ∨ fst s !! i = None ∧ existsb (λ b, within b (Z.of_nat n) i) (firstBuffer p) = true)).
  - intros i. by left.
  - intros b rest _ s Hs. wp_steps. intros i. simpl. rewrite lookup_erase_bytes.
    destruct (Hs i) as [[-> Hr]|[-> ->]]; [|right; by case_match].
    rewrite Hr. simpl. destruct (withinP b (Z.of_nat n) i); simpl; [by right|by left].
  - intros _ s Hs. wp_steps. split; [done|]. simpl. split.
    + intros b i Hb Hi. destruct (Hs i) as [[_ Hno]|[? _]]; [|done]. simpl in Hno. exfalso.
      assert (existsb (λ b, within b (Z.of_nat n) i) (firstBuffer p) = true); [|congruence].
      apply existsb_exists. exists b. split; [by apply list_elem_of_In|]. apply within_true. lia.
    + intros a v Ha. destruct (Hs a) as [[-> _]|[_ Hin]]; [by apply H0|]. exfalso.
      apply existsb_exists in Hin as (b & Hb & Hin). apply list_elem_of_In in Hb. apply within_true in Hin.
      destruct Hok. assert (0 < data_size sh) by nia.
      destruct (buffers_mapped _ _ _ _ HB b a Hb) as [_ Hno]; [lia|congruence].
Qed.

Lemma new_BlockPool_ok : I (m0, new_BlockPool sh) new_Client [].
Proof using All.
  destruct Hok. split; simpl; try done; try lia.
  split; [constructor|set_solver..].
Qed.
End ops.

(** ** What the pools promise *)

Lemma MemoryPool_ok sizeof_T growSize :
  0 < sizeof_T → 0 < growSize → Z.max 8 sizeof_T * growSize < w64 →
  ShapeOk (MemoryPool sizeof_T growSize) sizeof_T.
Proof.
  intros. unfold MemoryPool, sizeof_Block.
  assert ((if 8 <? sizeof_T then sizeof_T else 8) = Z.max 8 sizeof_T) as ->
    by (destruct (Z.ltb_spec 8 sizeof_T); lia).
  split; simpl; rewrite ?u64_small by nia; lia.
Qed.

(** The blocks of [BufferPool] are as far apart as there are blocks in a buffer, not as
    far as they are long. *)
Lemma BufferPool_block block_size b index :
  0 < b → 0 < block_size → b + 1024 * block_size <= w64 → b + 1024 * index < w64 → 0 <= index →
  getBlock (BufferPool block_size) b index = b + 1024 * index ∧
  data_size (BufferPool block_size) = 1024 * block_size.
Proof.
  intros. unfold getBlock, BufferPool. simpl. rewrite u64_add_r, !u64_small by lia. done.
Qed.

(** Blocks for less than 1024 bytes: after as many as a block has bytes they lie
    behind the end of the buffer. *)
Lemma BufferPool_leaves_buffer block_size b index :
  0 < b → 0 < block_size → b + 1024 * block_size <= w64 → b + 1024 * index < w64 → block_size <= index →
  b + data_size (BufferPool block_size) <= getBlock (BufferPool block_size) b index.
Proof.
  intros. destruct (BufferPool_block block_size b index) as [-> ->]; lia.
Qed.

(** Blocks for more: one begins before the one before it ends. *)
Lemma BufferPool_overlaps block_size b index :
  0 < b → 1024 < block_size → b + 1024 * block_size <= w64 → 0 <= index → b + 1024 * (index + 1) < w64 →
  ¬ apart block_size (getBlock (BufferPool block_size) b index) (getBlock (BufferPool block_size) b (index + 1)).
Proof.
  intros. destruct (BufferPool_block block_size b index) as [-> _]; [lia..|].
  destruct (BufferPool_block block_size b (index + 1)) as [-> _]; [lia..|]. unfold apart. lia.
Qed.

(** What makes a pool right holds of this one at one size only. *)
Lemma BufferPool_right_at_1024 block_size :
  0 < block_size → 1024 * block_size < w64 → ShapeOk (BufferPool block_size) block_size ↔ block_size = 1024.
Proof.
  intros Hb Hw. unfold BufferPool. split.
  - intros [_ H1 _ H2 _]. simpl in *. rewrite u64_small in H2 by lia. lia.
  - intros ->. by split.
Qed.

Section theorems.
Context `{NL : NewLaws}.

(** C15: a pool serves any client that gives back and writes to what it holds alone.
    The blocks it lends are as large as their type, lie apart, in memory of the pool's
    own; they keep what is written to them while the links of the free list are in the
    blocks that are not lent; and no more blocks are cut from buffers than have been
    lent at once. *)
Theorem pool_lends_apart (sizeof_T growSize : Z) (l : list Request) (m0 : Memory) :
  0 < sizeof_T → 0 < growSize → Z.max 8 sizeof_T * growSize < w64 →
  ∃ m p c,
    run (MemoryPool sizeof_T growSize) sizeof_T l (m0, new_BlockPool (MemoryPool sizeof_T growSize)) new_Client
      = Some ((m, p), c) ∧
    NoDup (held c) ∧
    (∀ x y, x ∈ held c → y ∈ held c → x ≠ y → apart sizeof_T x y) ∧
    (∀ x i, x ∈ held c → x <= i < x + sizeof_T → is_Some (m !! i) ∧ m0 !! i = None) ∧
    (∀ a b, written c !! a = Some b → m !! a = Some b) ∧
    (∀ a b, m0 !! a = Some b → m !! a = Some b) ∧
    (firstBuffer p ≠ [] →
      bufferedBlocks p + (Z.of_nat (length (firstBuffer p)) - 1) * growSize <= Z.of_nat (peak c)).
Proof using All.
  intros Hs Hg Hw. pose proof (MemoryPool_ok _ _ Hs Hg Hw) as Hok.
  destruct (run_keeps Hok l _ _ _ (new_BlockPool_ok (m0 := m0) Hok)) as ([m p] & c & free & Hrun & HI).
  exists m, p, c. split; [done|]. pose proof (ok_object _ _ Hok).
  split; [by apply (NoDup_held Hok _ _ _ HI)|]. split; [intros x y Hx Hy Hne|].
  { destruct (block_facts Hok _ _ _ _ x HI Hx) as (_ & _ & Hap & _).
    destruct (Hap y); [set_solver|done|left; lia|right; lia]. }
  split; [intros x i Hx Hi|].
  { destruct (block_facts Hok _ _ _ _ x HI Hx) as (_ & Hm & _). apply Hm. lia. }
  split; [intros a b Ha; by apply (inv_written _ _ _ _ _ _ HI)|].
  split; [apply (inv_others _ _ _ _ _ _ HI)|]. apply (cut_at_peak Hok _ _ _ HI).
Qed.

End theorems.

(** ** Evaluation *)

(** The first address behind everything. *)
Definition behind (m : Memory) : Z := map_fold (λ a _ top, Z.max top (a + 1)) 16 m.

#[local] Instance bump : NewOperator := λ m n,
  if behind m + n <=? w64 then Some (behind m) else None.

Lemma behind_spec m : 16 <= behind m ∧ ∀ a, is_Some (m !! a) → a < behind m.
Proof.
  unfold behind. apply (map_fold_weak_ind (λ top m, 16 <= top ∧ ∀ a, is_Some (m !! a) → a < top)).
  - split; [lia|]. intros a [? Ha]. by rewrite lookup_empty in Ha.
  - intros a b m' top _ [Htop Hm]. split; [lia|]. intros a' Ha'.
    apply lookup_insert_is_Some in Ha' as [->|[_ Ha']]; [lia|]. specialize (Hm a' Ha'). lia.
Qed.

#[local] Instance bump_laws : NewLaws.
Proof.
  intros m n a. unfold new_at, bump. destruct (Z.leb_spec (behind m + n) w64); [|done].
  intros [= <-]. destruct (behind_spec m) as [? Hm]. split; [lia|]. split; [done|].
  intros i Hi. destruct (m !! i) eqn:Hi'; [|done].
  assert (i < behind m) by (apply Hm; by rewrite Hi'). lia.
Qed.

Lemma pool_lends_apart_witness :
  ∃ m p c,
    run (MemoryPool 16 2) 16 [Ask; Ask; Write 20 xff; Return 32; Ask; Ask] (∅, new_BlockPool (MemoryPool 16 2)) new_Client
      = Some ((m, p), c) ∧
    NoDup (held c) ∧
    (∀ x y, x ∈ held c → y ∈ held c → x ≠ y → apart 16 x y) ∧
    (∀ x i, x ∈ held c → x <= i < x + 16 → is_Some (m !! i) ∧ (∅ : Memory) !! i = None) ∧
    (∀ a b, written c !! a = Some b → m !! a = Some b) ∧
    (∀ a b, (∅ : Memory) !! a = Some b → m !! a = Some b) ∧
    (firstBuffer p ≠ [] →
      bufferedBlocks p + (Z.of_nat (length (firstBuffer p)) - 1) * 2 <= Z.of_nat (peak c)).
Proof. apply (pool_lends_apart 16 2); [lia|lia|vm_compute; reflexivity]. Defined.

(** The blocks lent in this run: the second of the first buffer is lent again, before
    another buffer is made. *)
Example lends_again :
  option_map (λ sc, (held sc.2, firstBuffer sc.1.2))
    (run (MemoryPool 16 2) 16 [Ask; Ask; Write 20 xff; Return 32; Ask; Ask]
      (∅, new_BlockPool (MemoryPool 16 2)) new_Client)
  = Some ([48; 32; 16], [48; 16]).
Proof. vm_compute. reflexivity. Qed.

(** A block that is given back twice is noted as an error, and then lent to two. *)
Example returned_twice :
  match (x ← tracked_Borrow 16 2; tracked_GiveBack x;; tracked_GiveBack x;;
         y ← tracked_Borrow 16 2; z ← tracked_Borrow 16 2; mret (x, y, z))
    (MkTracked (∅, new_BlockPool (MemoryPool 16 2)) ∅ []) with
  | Ret (x, y, z) t => x = 16 ∧ y = 16 ∧ z = 16 ∧ free_errors t = [16]
  | _ => False
  end.
Proof. vm_compute. repeat split. Qed.

(** [CustomAllocator<uint64_t>]: the ninth object lies outside of the buffer for
    eight bytes, and giving it back writes there. *)
Example ninth_object :
  match forM (seqZ 0 9) (λ _ _, custom_allocate 8 1) 0 (MkCustom ∅ ∅ ∅) with
  | Ret x c => x = 16 + 1024 * 8 ∧ custom_memory c !! x = None ∧ custom_deallocate x c = Undef
  | _ => False
  end.
Proof. vm_compute. repeat split. Qed.

End FreeListPool.

Module ProbeMap.

(** ** The map *)

Record Map (K V : Type) := MkMap { data : list (K * V); occupied : list bool; map_size : Z }.
Arguments MkMap {K V}. Arguments data {K V}. Arguments occupied {K V}. Arguments map_size {K V}.

Section map.
Context {K V : Type} `{EqDecision K, Inhabited K, Inhabited V, Hash K} (Capacity : Z).
Local Abbreviation R := (M (Map K V)).

Definition new_Map : Map K V :=
  MkMap (replicate (Z.to_nat Capacity) inhabitant) (replicate (Z.to_nat Capacity) false) 0.

Definition hash (k : K) : Z := hasher k mod Capacity.

(** [occupied[index]] and [data[index]], read and written. *)
Definition is_occupied (index : Z) : R bool := s ← gets id; deref (occupied s !! Z.to_nat index).
Definition entry (index : Z) : R (K * V) := s ← gets id; deref (data s !! Z.to_nat index).
Definition occupy (index : Z) (b : bool) : R unit :=
  is_occupied index;; modify (λ s, MkMap (data s) (<[Z.to_nat index := b]> (occupied s)) (map_size s)).
Definition put (index : Z) (e : K * V) : R unit :=
  entry index;; modify (λ s, MkMap (<[Z.to_nat index := e]> (data s)) (occupied s) (map_size s)).
Definition resize_by (n : Z) : R unit := modify (λ s, MkMap (data s) (occupied s) (map_size s +64 n)).

Fixpoint find_loop (fuel : nat) (k : K) (index original_index : Z) : R Z :=
  match fuel with
  | O => undef
  | S fuel =>
      o ← is_occupied index;
      e ← entry index;
      if negb o || (o && bool_decide (e.1 = k)) then mret index
      else
        let index := (index +64 1) mod Capacity in
        if negb (index =? original_index) then find_loop fuel k index original_index
        else mret Capacity
  end.

Definition find_index (k : K) : R Z := find_loop (Z.to_nat Capacity) k (hash k) (hash k).

Definition insert (k : K) (v : V) : R unit :=
  s ← gets id;
  if Capacity <=? map_size s then throw "Map is full"
  else
    index ← find_index k;
    o ← is_occupied index;
    whenM (negb o) (occupy index true;; resize_by 1);;
    put index (k, v).

Definition at_ (k : K) : R V :=
  index ← find_index k;
  o ← (if index =? Capacity then mret false else is_occupied index);
  if negb o then throw "Key not found" else e ← entry index; mret (e.2).

Definition erase (k : K) : R bool :=
  index ← find_index k;
  o ← (if index =? Capacity then mret false else is_occupied index);
  if negb o then mret false
  else
    occupy index false;;
    resize_by (-1);;
    mret true.

Definition size : R Z := gets map_size.
Definition empty : R bool := gets (λ s, map_size s =? 0).

Definition clear : R unit :=
  forM (seqZ 0 Capacity) (λ _ i, occupy i false) ();;
  modify (λ s, MkMap (data s) (occupied s) 0).
End map.

(** ** operator new and operator delete

    [std::malloc] and what it knows is the class [MallocFree]; null is 0. An exception
    that would leave a function that is [noexcept] ends the program. *)

Class MallocFree (H : Type) := { c_malloc : Z → H → Z * H; c_free : Z → H → H }.

Record Records (H : Type) := MkRecords {
  memoryMap : Map Z Z;
  totalAllocated : Z;
  peakAllocated : Z;
  currentAllocated : Z;
  allocCount : Z;
  heap : H;
}.
Arguments MkRecords {H}. Arguments memoryMap {H}. Arguments totalAllocated {H}.
Arguments peakAllocated {H}. Arguments currentAllocated {H}. Arguments allocCount {H}. Arguments heap {H}.

Section operators.
Context {H : Type} `{MallocFree H, Hash Z} (Capacity : Z).
Local Abbreviation O := (M (Records H)).

Definition new_Records (h : H) : Records H := MkRecords (new_Map Capacity) 0 0 0 0 h.

Definition on_map {A} (f : M (Map Z Z) A) : O A :=
  zoom memoryMap (λ m r, MkRecords m (totalAllocated r) (peakAllocated r) (currentAllocated r) (allocCount r) (heap r)) f.

Definition operator_new (size : Z) : O Z :=
  r ← gets id;
  let '(ptr, h) := c_malloc size (heap r) in
  if ptr =? 0 then throw "std::bad_alloc"
  else
    let current := currentAllocated r +64 size in
    modify (λ r, MkRecords (memoryMap r) (totalAllocated r +64 size) (Z.max (peakAllocated r) current) current
                   (allocCount r +64 1) h);;
    on_map (insert Capacity ptr size);;
    mret ptr.

Definition free (ptr : Z) : O unit :=
  modify (λ r, MkRecords (memoryMap r) (totalAllocated r) (peakAllocated r) (currentAllocated r) (allocCount r)
                 (c_free ptr (heap r))).

Definition noexcept {A} (m : O A) : O A := λ r,
  match m r with Throw _ r => Throw "std::terminate" r | o => o end.

Definition operator_delete (ptr : Z) : O unit :=
  noexcept
    (if ptr =? 0 then mret ()
     else
       index ← on_map (find_index Capacity ptr);
       if index =? Capacity then free ptr
       else
         size ← on_map (at_ Capacity ptr);
         modify (λ r, MkRecords (memoryMap r) (totalAllocated r) (peakAllocated r) (currentAllocated r -64 size)
                        (allocCount r) (heap r));;
         on_map (erase Capacity ptr);;
         free ptr).
End operators.


(** ** What the map finds, as long as nothing is erased *)

Definition count (l : list bool) : nat := length (filter (λ b, b = true) l).

Lemma count_occupy (l : list bool) i : l !! i = Some false → count (<[i := true]> l) = S (count l).
Proof.
  unfold count. revert i. induction l as [|b l IH]; intros [|i] Hi; simplify_eq/=.
  - done.
  - rewrite !filter_cons. case_decide; simpl; by rewrite IH.
Qed.

Lemma count_le (l : list bool) : (count l <= length l)%nat.
Proof. apply length_filter. Qed.

Lemma count_full (l : list bool) : (∀ i, (i < length l)%nat → l !! i = Some true) → count l = length l.
Proof.
  intros Hl. unfold count. rewrite filter_all; [done|]. apply Forall_lookup. intros i b Hb.
  rewrite Hl in Hb by (by eapply lookup_lt_Some). by simplify_eq.
Qed.

Lemma count_none n : count (replicate n false) = 0%nat.
Proof. unfold count. induction n; [done|]. cbn [replicate]. rewrite filter_cons. by case_decide. Qed.

Section probing.
Context {K V : Type} `{EqDecision K, Inhabited K, Inhabited V, Hash K, !Countable K}.
Context {Capacity : Z} (HC : 0 < Capacity < w64).
Implicit Types (s : Map K V) (k : K) (v : V) (g : gmap K V).
Local Abbreviation slot k j := ((hash Capacity k + j) mod Capacity).

(** The slot is occupied by another key: a search goes on. *)
Definition blocked s k (i : Z) : Prop :=
  ∃ k' v', occupied s !! Z.to_nat i = Some true ∧ data s !! Z.to_nat i = Some (k', v') ∧ k' ≠ k.

Record Rep g s : Prop := {
  rep_data : Z.of_nat (length (data s)) = Capacity;
  rep_occupied : Z.of_nat (length (occupied s)) = Capacity;
  rep_size : map_size s = Z.of_nat (base.size g);
  rep_count : map_size s = Z.of_nat (count (occupied s));
  rep_entries i k v : occupied s !! Z.to_nat i = Some true → data s !! Z.to_nat i = Some (k, v) → 0 <= i →
    g !! k = Some v ∧ ∃ j, 0 <= j < Capacity ∧ i = slot k j ∧ ∀ t, 0 <= t < j → blocked s k (slot k t);
  rep_keys k v : g !! k = Some v →
    ∃ i, 0 <= i ∧ occupied s !! Z.to_nat i = Some true ∧ data s !! Z.to_nat i = Some (k, v);
}.

Lemma slot_range k j : 0 <= slot k j < Capacity.
Proof using HC. apply Z.mod_pos_bound. lia. Qed.

Lemma slot_next k j : 0 <= j < Capacity → (slot k j +64 1) mod Capacity = slot k (j + 1).
Proof using HC.
  intros. pose proof (slot_range k j). rewrite u64_small by lia.
  rewrite Zplus_mod_idemp_l. f_equal. lia.
Qed.

Lemma slot_zero k : slot k 0 = hash Capacity k.
Proof using HC. rewrite Z.add_0_r. apply Z.mod_small, Z.mod_pos_bound. lia. Qed.

Lemma slot_round k j : 0 < j <= Capacity → slot k j = hash Capacity k ↔ j = Capacity.
Proof using HC.
  intros. assert (0 <= hash Capacity k < Capacity) by (apply Z.mod_pos_bound; lia).
  split.
  - intros Heq. destruct (Z_lt_le_dec (hash Capacity k + j) Capacity) as [|Hle].
    + rewrite Z.mod_small in Heq by lia. lia.
    + rewrite <- (Z.mod_unique_pos (hash Capacity k + j) Capacity 1 (hash Capacity k + j - Capacity)) in Heq by lia. lia.
  - intros ->. rewrite <- (Z.mul_1_l Capacity) at 2. rewrite Z.mod_add by lia. apply Z.mod_small. lia.
Qed.

Lemma lookup_slot {A} (l : list A) k j : Z.of_nat (length l) = Capacity → is_Some (l !! Z.to_nat (slot k j)).
Proof using HC. intros. pose proof (slot_range k j). apply lookup_lt_is_Some. lia. Qed.

(** A search ends at the first slot of its path that is free or has the key. *)
Lemma find_loop_spec fuel k j s :
  Z.of_nat (length (data s)) = Capacity → Z.of_nat (length (occupied s)) = Capacity →
  0 <= j → j + Z.of_nat fuel = Capacity → (0 < fuel)%nat →
  wp (find_loop Capacity fuel k (slot k j) (hash Capacity k)) s (λ i s', s' = s ∧
    (i = Capacity ∧ (∀ t, j <= t < Capacity → blocked s k (slot k t)) ∨
     ∃ t, j <= t < Capacity ∧ i = slot k t ∧ ¬ blocked s k i ∧ ∀ u, j <= u < t → blocked s k (slot k u))).
Proof using HC.
  intros Hd Ho. revert j. induction fuel as [|fuel IH]; intros j Hj Hf Hpos; [lia|]. cbn [find_loop].
  destruct (lookup_slot (occupied s) k j Ho) as [o Hlo]. destruct (lookup_slot (data s) k j Hd) as [[k' v'] Hld].
  unfold is_occupied, entry. wp_steps. apply (wp_deref _ o); [done|]. wp_steps. apply (wp_deref _ (k', v')); [done|].
  destruct (negb o || (o && bool_decide ((k', v').1 = k))) eqn:Hstop.
  - wp_steps. split; [done|]. right. exists j. split; [lia|]. split; [done|]. split; [|intros; lia].
    intros (k2 & v2 & Ho2 & Hd2 & Hne). simplify_eq. simpl in Hstop. by case_bool_decide.
  - assert (blocked s k (slot k j)) as Hb.
    { exists k', v'. destruct o; [|done]. simpl in Hstop. by case_bool_decide. }
    rewrite slot_next by lia. destruct (Z.eqb_spec (slot k (j + 1)) (hash Capacity k)) as [Heq|Hne]; simpl.
    + apply slot_round in Heq; [|lia]. wp_steps. split; [done|]. left. split; [done|].
      intros t Ht. by replace t with j by lia.
    + assert (j + 1 ≠ Capacity) by (intros Heq; apply Hne, slot_round; lia).
      eapply wp_mono; [apply IH; lia|]. intros i s' (-> & [[-> Hall]|(t & Ht & -> & Hnb & Hall)]); (split; [done|]).
      * left. split; [done|]. intros t Ht. destruct (decide (t = j)) as [->|]; [done|]. apply Hall. lia.
      * right. exists t. split; [lia|]. split; [done|]. split; [done|]. intros u Hu.
        destruct (decide (u = j)) as [->|]; [done|]. apply Hall. lia.
Qed.

Lemma find_index_spec g s k :
  Rep g s →
  wp (find_index Capacity k) s (λ i s', s' = s ∧
    match g !! k with
    | Some v => 0 <= i < Capacity ∧ occupied s !! Z.to_nat i = Some true ∧ data s !! Z.to_nat i = Some (k, v)
    | None =>
        (i = Capacity ∧ ∀ t, 0 <= t < Capacity → blocked s k (slot k t)) ∨
        ∃ t, 0 <= t < Capacity ∧ i = slot k t ∧ occupied s !! Z.to_nat i = Some false ∧
             ∀ u, 0 <= u < t → blocked s k (slot k u)
    end).
Proof using HC.
  intros HR. unfold find_index. rewrite <- slot_zero at 1.
  eapply wp_mono; [apply find_loop_spec; try apply HR; lia|].
  intros i s' (-> & Hi). split; [done|]. destruct (g !! k) as [v|] eqn:Hk.
  - destruct (rep_keys _ _ HR k v Hk) as (i' & H0i & Hoi & Hdi).
    destruct (rep_entries _ _ HR i' k v Hoi Hdi H0i) as (_ & j & Hj & -> & Hpath).
    assert (¬ blocked s k (slot k j)) as Hnb by (intros (k2 & v2 & _ & Hd2 & Hne); congruence).
    destruct Hi as [[-> Hall]|(t & Ht & -> & Hnt & Hall)]; [by destruct Hnb; apply Hall|].
    assert (t = j) as ->; [|by split; [apply slot_range|]].
    destruct (Z.lt_total t j) as [|[|]]; [by destruct Hnt; apply Hpath; lia|done|by destruct Hnb; apply Hall; lia].
  - destruct Hi as [?|(t & Ht & -> & Hnt & Hall)]; [by left|]. right. exists t. split; [done|]. split; [done|].
    split; [|done]. destruct (lookup_slot (occupied s) k t (rep_occupied _ _ HR)) as [[|] Ho]; [|done].
    destruct (lookup_slot (data s) k t (rep_data _ _ HR)) as [[k' v'] Hd]. destruct Hnt. exists k', v'.
    split; [done|]. split; [done|]. intros ->.
    destruct (rep_entries _ _ HR _ _ _ Ho Hd) as [? _]; [apply slot_range|congruence].
Qed.

(** An entry written to the slot that a search for its key ends at. *)
Lemma stored_keeps g s k v t i n :
  Rep g s → 0 <= t < Capacity → i = slot k t → ¬ blocked s k i → (∀ u, 0 <= u < t → blocked s k (slot k u)) →
  n = Z.of_nat (base.size (<[k := v]> g)) → n = Z.of_nat (count (<[Z.to_nat i := true]> (occupied s))) →
  Rep (<[k := v]> g) (MkMap (<[Z.to_nat i := (k, v)]> (data s)) (<[Z.to_nat i := true]> (occupied s)) n).
Proof using HC.
  intros HR Ht Heq Hnb Hpath Hn Hc. pose proof (slot_range k t) as Hi. rewrite <- Heq in Hi.
  pose proof (rep_data _ _ HR) as Hd. pose proof (rep_occupied _ _ HR) as Ho.
  set (s' := MkMap _ _ _).
  assert (occupied s' !! Z.to_nat i = Some true) as Hoi by (apply list_lookup_insert_eq; lia).
  assert (data s' !! Z.to_nat i = Some (k, v)) as Hdi by (apply list_lookup_insert_eq; lia).
  assert (∀ x, 0 <= x → x ≠ i → occupied s' !! Z.to_nat x = occupied s !! Z.to_nat x ∧
    data s' !! Z.to_nat x = data s !! Z.to_nat x) as Hother
    by (intros x ? ?; split; apply list_lookup_insert_ne; lia).
  assert (∀ k2 x, 0 <= x → blocked s k2 x → blocked s' k2 x) as Hmono.
  { intros k2 x Hx Hb. destruct (decide (x = i)) as [->|Hne].
    - exists k, v. split; [done|]. split; [done|]. intros ->. by apply Hnb.
    - unfold blocked. destruct (Hother x Hx Hne) as [-> ->]. done. }
  assert (∀ k2 j, 0 <= j → (∀ u, 0 <= u < j → blocked s k2 (slot k2 u)) →
    ∀ u, 0 <= u < j → blocked s' k2 (slot k2 u)) as Hpaths.
  { intros k2 j _ Hp u Hu. apply Hmono; [apply slot_range|by apply Hp]. }
  split; try done.
  - unfold s'. simpl. by rewrite length_insert.
  - unfold s'. simpl. by rewrite length_insert.
  - intros x k2 v2 Hox Hdx Hx. destruct (decide (x = i)) as [->|Hne].
    + rewrite Hdi in Hdx. injection Hdx as <- <-. split; [apply lookup_insert_eq|].
      exists t. split; [done|]. split; [done|]. apply Hpaths; [lia|done].
    + destruct (Hother x Hx Hne) as [Heo Hed]. rewrite Heo in Hox. rewrite Hed in Hdx.
      destruct (rep_entries _ _ HR x k2 v2 Hox Hdx Hx) as (Hg & j & Hj & Hxj & Hp).
      split; [|exists j; split; [done|]; split; [done|]; apply Hpaths; [lia|done]].
      rewrite lookup_insert_ne; [done|]. intros <-.
      destruct (Z.lt_total j t) as [Hlt|[->|Hlt]].
      * destruct (Hpath j) as (k' & v' & _ & Hd' & Hk'); [lia|]. rewrite <- Hxj in Hd'. congruence.
      * congruence.
      * apply Hnb. rewrite Heq. apply Hp. lia.
  - intros k2 v2 Hg. destruct (decide (k = k2)) as [<-|Hk].
    + rewrite lookup_insert_eq in Hg. injection Hg as <-. exists i. split; [lia|done].
    + rewrite lookup_insert_ne in Hg by done. destruct (rep_keys _ _ HR k2 v2 Hg) as (x & Hx & Hox & Hdx).
      destruct (decide (x = i)) as [->|Hne]; [destruct Hnb; exists k2, v2; auto|].
      exists x. destruct (Hother x Hx Hne) as [-> ->]. done.
Qed.

Lemma not_full g s k :
  Rep g s → Z.of_nat (base.size g) < Capacity → ¬ (∀ t, 0 <= t < Capacity → blocked s k (slot k t)).
Proof using HC.
  intros HR Hg Hall. pose proof (rep_occupied _ _ HR) as Ho.
  assert (count (occupied s) = length (occupied s)) as Hc.
  { apply count_full. intros i Hi.
    destruct (Hall ((Z.of_nat i - hash Capacity k) mod Capacity)) as (k' & v' & Ht & _); [apply Z.mod_pos_bound; lia|].
    rewrite Zplus_mod_idemp_r in Ht. replace (hash Capacity k + (Z.of_nat i - hash Capacity k)) with (Z.of_nat i) in Ht by lia.
    rewrite Z.mod_small, Nat2Z.id in Ht by lia. done. }
  pose proof (rep_size _ _ HR). pose proof (rep_count _ _ HR). lia.
Qed.

Lemma insert_keeps g s k v :
  Rep g s → Z.of_nat (base.size g) < Capacity →
  wp (insert Capacity k v) s (λ _ s', Rep (<[k := v]> g) s').
Proof using HC.
  intros HR Hg. unfold insert. wp_steps. unfold id.
  pose proof (rep_size _ _ HR) as Hsz. pose proof (rep_count _ _ HR) as Hct.
  destruct (Z.leb_spec Capacity (map_size s)); [lia|]. wp_steps.
  eapply wp_mono; [by apply find_index_spec|]. intros i s' (-> & Hi).
  unfold is_occupied, put, entry, occupy, resize_by. wp_steps. unfold id. destruct (g !! k) as [w|] eqn:Hk.
  - destruct Hi as (Hi & Hoi & Hdi). wp_steps. apply (wp_deref _ true); [done|]. unfold is_occupied. simpl. wp_steps.
    apply (wp_deref _ (k, w)); [done|]. wp_steps.
    destruct (rep_entries _ _ HR i k w Hoi Hdi) as (_ & t & Ht & Heq & Hpath); [lia|].
    rewrite <- (list_insert_id (occupied s) (Z.to_nat i) true Hoi) at 1.
    apply (stored_keeps g s k v t); [done..| |done| |].
    + intros (k' & v' & _ & Hd' & Hne). congruence.
    + by rewrite map_size_insert, Hk.
    + by rewrite (list_insert_id _ _ _ Hoi).
  - destruct Hi as [[-> Hall]|(t & Ht & -> & Hoi & Hpath)]; [by destruct (not_full g s k)|].
    destruct (lookup_slot (data s) k t (rep_data _ _ HR)) as [e He].
    wp_steps. apply (wp_deref _ false); [done|]. unfold is_occupied. simpl. wp_steps. apply (wp_deref _ false); [done|]. wp_steps.
    simpl. unfold id. apply (wp_deref _ e); [done|]. wp_steps. simpl.
    apply (stored_keeps g s k v t); [done..| |done| |].
    + intros (k' & v' & Ho' & _). congruence.
    + rewrite map_size_insert, Hk. rewrite u64_small by lia. lia.
    + rewrite count_occupy by done. rewrite u64_small by lia. lia.
Qed.

Lemma at_spec g s k :
  Rep g s → at_ Capacity k s = match g !! k with Some v => Ret v s | None => Throw "Key not found" s end.
Proof using HC.
  intros HR. pose proof (find_index_spec g s k HR) as Hf. unfold at_, wp in *. unfold mbind, M_bind.
  destruct (find_index Capacity k s) as [i s'| |]; [|done..]. destruct Hf as [-> Hf].
  destruct (g !! k) as [v|].
  - destruct Hf as (Hi & Ho & Hd). destruct (Z.eqb_spec i Capacity); [lia|].
    unfold is_occupied, entry, gets, id, mbind, M_bind. rewrite Ho. simpl. rewrite Hd. done.
  - destruct Hf as [[-> _]|(t & Ht & -> & Ho & _)]; [by rewrite Z.eqb_refl|].
    pose proof (slot_range k t). destruct (Z.eqb_spec (slot k t) Capacity); [lia|].
    unfold is_occupied, gets, id, mbind, M_bind. rewrite Ho. done.
Qed.

Lemma new_Map_rep : Rep ∅ (new_Map Capacity).
Proof using HC.
  split; simpl; rewrite ?length_replicate; try lia.
  - by rewrite map_size_empty.
  - by rewrite count_none.
  - intros i k v Ho. apply lookup_replicate in Ho as [? _]. done.
  - intros k v Hk. by rewrite lookup_empty in Hk.
Qed.

(** A map into which as many pairs as it has room for are inserted, collisions and
    all, finds for every key the value inserted last, and throws for any other. *)
Theorem insertions_found (l : list (K * V)) :
  Z.of_nat (length l) <= Capacity →
  wp (forM l (λ _ e, insert Capacity e.1 e.2) ()) (new_Map Capacity) (λ _ s,
    let g := foldl (λ g e, <[e.1 := e.2]> g) ∅ l in
    map_size s = Z.of_nat (base.size g) ∧
    ∀ k, at_ Capacity k s = match g !! k with Some v => Ret v s | None => Throw "Key not found" s end).
Proof using HC.
  assert (∀ g s, Rep g s → Z.of_nat (base.size g) + Z.of_nat (length l) <= Capacity →
    wp (forM l (λ _ e, insert Capacity e.1 e.2) ()) s (λ _ s, Rep (foldl (λ g e, <[e.1 := e.2]> g) g l) s)) as Hall.
  { induction l as [|[k v] l IH]; intros g s HR Hl; cbn [forM foldl length] in *; [by wp_steps|].
    wp_steps. eapply wp_mono; [apply (insert_keeps g); [done|lia]|]. intros [] s' HR'. apply IH; [done|].
    simpl. rewrite map_size_insert. destruct (g !! k); simpl; lia. }
  intros Hl. eapply wp_mono; [apply (Hall ∅), Hl; apply new_Map_rep|].
  intros u s HR. split; [apply HR|]. intros k. by apply at_spec.
Qed.
End probing.

(** ** Erasing *)

#[local] Instance identity : Hash Z := λ k, k.

(** Keys that collide: when the first is erased, the second is no longer found, though
    the map still counts it; inserting it again makes a second entry of it. *)
Example erased_path :
  match (insert 4 1 10;; insert 4 5 50;; b ← erase 4 1; n ← size; insert 4 5 51;; m ← size; mret (b, n, m))
    (new_Map (K := Z) (V := Z) 4) with
  | Ret r s => r = (true, 1, 2) ∧ take 2 (drop 1 (data s)) = [(5, 51); (5, 50)]
  | _ => False
  end.
Proof. vm_compute. repeat split. Qed.

(** [malloc] that gives out addresses one after another. *)
#[local] Instance bump_mallocs : MallocFree Z := {| c_malloc := λ n h, (h, h + n); c_free := λ _ h, h |}.

(** Two objects at addresses that collide, deleted in the order they were made: the
    second deletion ends the program. So does deleting an object that was made before
    the records. *)
Example second_delete_terminates :
  match (a ← operator_new 4 4; b ← operator_new 4 8; operator_delete 4 a;; operator_delete 4 b)
    (new_Records 4 16) with
  | Throw e r => e = "std::terminate" ∧ currentAllocated r = 8 ∧ map_size (memoryMap r) = 1
  | _ => False
  end.
Proof. vm_compute. repeat split. Qed.

Example unknown_delete_terminates :
  match operator_delete 4 1000 (new_Records 4 16) with Throw e _ => e = "std::terminate" | _ => False end.
Proof. vm_compute. repeat split. Qed.

End ProbeMap.
