(* ===== verification/HQueue.v ===== *)
(** * The lock-free queue

    [HQueue] of nice/include/hqueue.h: a linked queue in an array of nodes, whose
    threads go by compare-and-exchange on pointers with a version. Each step of a
    thread is one access to what the threads share. *)

From S2P Require Import Prelude.

Record Pointer := MkPointer { index : Z; version : Z }.
#[export] Instance Pointer_eq_dec : EqDecision Pointer.
Proof. solve_decision. Defined.

Record HQNode (V : Type) := MkNode { next : Pointer; value : option V; free : bool }.
Arguments MkNode {V}. Arguments next {V}. Arguments value {V}. Arguments free {V}.

Record HQueue (V : Type) := MkQueue {
  qhead : Pointer;
  qtail : Pointer;
  nodes : list (HQNode V);
  queue_size : Z;
  free_index : Z;
}.
Arguments MkQueue {V}. Arguments qhead {V}. Arguments qtail {V}. Arguments nodes {V}.
Arguments queue_size {V}. Arguments free_index {V}.

(** What a caller asks for, and what it is answered. *)
Inductive Call (V : Type) := Enqueue (t : V) | Dequeue | Empty.
Arguments Enqueue {V}. Arguments Dequeue {V}. Arguments Empty {V}.
Inductive Result (V : Type) := Bool (b : bool) | Value (v : option V).
Arguments Bool {V}. Arguments Value {V}.

(** Where a thread is, with its local variables. *)
Inductive pc (V : Type) :=
| Done (r : Result V)
| EStart (t : V)                          (** before [nodeIdx = free_index] *)
| EScan (t : V) (again : bool) (i : Z)    (** in the loops, before the test of [i] *)
| EAgain (t : V)                          (** before [free_index = 1] *)
| EClaimed (t : V) (i : Z)                (** before [free_index = nodeIdx + 1] *)
| EValue (t : V) (i : Z)
| ENext (i : Z)
| ETail (i : Z)
| ERead (i : Z) (tail : Pointer)
| ECheck (i : Z) (tail nx : Pointer)
| EHelp (i : Z) (tail nx : Pointer)
| ELink (i : Z) (tail nx : Pointer)
| ESwing (i : Z) (tail : Pointer)
| DHead
| DTail (head : Pointer)
| DNext (head tail : Pointer)
| DCheck (head tail nx : Pointer)
| DHelp (tail nx : Pointer)
| DValue (head nx : Pointer)
| DSwing (head nx : Pointer) (ret : option V)
| DFree (head : Pointer) (ret : option V)
| MHead
| MTail (head : Pointer)
| MNext (head tail : Pointer)
| MCheck (head tail nx : Pointer).
Arguments Done {V}. Arguments EStart {V}. Arguments EScan {V}. Arguments EAgain {V}. Arguments EClaimed {V}.
Arguments EValue {V}. Arguments ENext {V}. Arguments ETail {V}. Arguments ERead {V}. Arguments ECheck {V}.
Arguments EHelp {V}. Arguments ELink {V}. Arguments ESwing {V}. Arguments DHead {V}. Arguments DTail {V}.
Arguments DNext {V}. Arguments DCheck {V}. Arguments DHelp {V}. Arguments DValue {V}. Arguments DSwing {V}.
Arguments DFree {V}. Arguments MHead {V}. Arguments MTail {V}. Arguments MNext {V}. Arguments MCheck {V}.

Section queue.
Context {V : Type}.
Implicit Types (s : HQueue V) (p : pc V).

(** ** Construction *)

Definition new_HQueue : HQueue V := MkQueue (MkPointer (-1) 0) (MkPointer (-1) 0) [] 0 0.

Definition IsInit s : bool := negb (Z.of_nat (length (nodes s)) =? 0).

Definition null_pointer : Pointer := MkPointer (-1) 0.
Definition new_node (f : bool) : HQNode V := MkNode null_pointer None f.

Definition Init (sz : Z) s : bool * HQueue V :=
  if IsInit s || (sz <=? 0) then (false, s)
  else (true, MkQueue (MkPointer 0 0) (MkPointer 0 0)
                (new_node false :: replicate (Z.to_nat (sz - 1)) (new_node true)) sz 1).

Definition Clean s : HQueue V := MkQueue (qhead s) (qtail s) [] (queue_size s) (free_index s).

(** ** Accesses *)

(** [nodes[i]]. *)
Definition node s (i : Z) : option (HQNode V) := if i <? 0 then None else nodes s !! Z.to_nat i.

Definition set_node (i : Z) (n : HQNode V) s : HQueue V :=
  MkQueue (qhead s) (qtail s) (<[Z.to_nat i := n]> (nodes s)) (queue_size s) (free_index s).
Definition set_free_index (i : Z) s : HQueue V :=
  MkQueue (qhead s) (qtail s) (nodes s) (queue_size s) i.
Definition set_tail (q : Pointer) s : HQueue V :=
  MkQueue (qhead s) q (nodes s) (queue_size s) (free_index s).
Definition set_head (q : Pointer) s : HQueue V :=
  MkQueue q (qtail s) (nodes s) (queue_size s) (free_index s).

(** [qtail.compare_exchange_strong]. *)
Definition cas_tail (expected desired : Pointer) s : HQueue V :=
  if decide (qtail s = expected) then set_tail desired s else s.

(** The pointer to a node that takes the place of [old]. *)
Definition successor (i : Z) (old : Pointer) : Pointer := MkPointer i (version old +32 1).

(** ** Steps *)

Definition enqueue_step p s : option (pc V * HQueue V) :=
  match p with
  | EStart t => Some (EScan t false (free_index s), s)
  | EScan t again i =>
      if i <? queue_size s then
        n ← node s i;
        if free n then Some (EClaimed t i, set_node i (MkNode (next n) (value n) false) s)
        else Some (EScan t again (i + 1), s)
      else if again then Some (Done (Bool false), s)
      else Some (EAgain t, s)
  | EAgain t => Some (EScan t true 1, set_free_index 1 s)
  | EClaimed t i => Some (EValue t i, set_free_index (i + 1) s)
  | EValue t i => n ← node s i; Some (ENext i, set_node i (MkNode (next n) (Some t) (free n)) s)
  | ENext i => n ← node s i; Some (ETail i, set_node i (MkNode null_pointer (value n) (free n)) s)
  | ETail i => Some (if index (qtail s) =? -1 then ETail i else ERead i (qtail s), s)
  | ERead i tail => n ← node s (index tail); Some (ECheck i tail (next n), s)
  | ECheck i tail nx =>
      Some (if decide (tail ≠ qtail s) then ETail i
            else if negb (index nx =? -1) then EHelp i tail nx
            else ELink i tail nx, s)
  | EHelp i tail nx => Some (ETail i, cas_tail tail (successor (index nx) tail) s)
  | ELink i tail nx =>
      n ← node s (index tail);
      if decide (next n = nx) then
        Some (ESwing i tail, set_node (index tail) (MkNode (successor i nx) (value n) (free n)) s)
      else Some (ETail i, s)
  | ESwing i tail => Some (Done (Bool true), cas_tail tail (successor i tail) s)
  | _ => None
  end.

Definition dequeue_step p s : option (pc V * HQueue V) :=
  match p with
  | DHead => Some (DTail (qhead s), s)
  | DTail head => Some (if index head =? -1 then DHead else DNext head (qtail s), s)
  | DNext head tail => n ← node s (index head); Some (DCheck head tail (next n), s)
  | DCheck head tail nx =>
      Some (if decide (head ≠ qhead s) then DHead
            else if index head =? index tail then
              (if index nx =? -1 then Done (Value None) else DHelp tail nx)
            else if index nx =? -1 then DHead
            else DValue head nx, s)
  | DHelp tail nx => Some (DHead, cas_tail tail (successor (index nx) tail) s)
  | DValue head nx => n ← node s (index nx); Some (DSwing head nx (value n), s)
  | DSwing head nx ret =>
      if decide (qhead s = head) then Some (DFree head ret, set_head (successor (index nx) head) s)
      else Some (DHead, s)
  | DFree head ret =>
      n ← node s (index head);
      Some (Done (Value ret), set_node (index head) (MkNode (next n) (value n) true) s)
  | _ => None
  end.

Definition empty_step p s : option (pc V * HQueue V) :=
  match p with
  | MHead => Some (MTail (qhead s), s)
  | MTail head => Some (if index head <? 0 then Done (Bool false) else MNext head (qtail s), s)
  | MNext head tail => n ← node s (index head); Some (MCheck head tail (next n), s)
  | MCheck head tail nx =>
      Some (Done (Bool (bool_decide (head = qhead s) && (index head =? index tail) && (index nx =? -1))), s)
  | _ => None
  end.

(** A step of a thread; [None] if it is done, or leaves the array of nodes. *)
Definition step p s : option (pc V * HQueue V) :=
  match enqueue_step p s with
  | Some c => Some c
  | None => match dequeue_step p s with Some c => Some c | None => empty_step p s end
  end.

Definition start (c : Call V) : pc V :=
  match c with Enqueue t => EStart t | Dequeue => DHead | Empty => MHead end.

Definition result_of p : option (Result V) := match p with Done r => Some r | _ => None end.

(** ** Alone, and among threads *)

Fixpoint run (fuel : nat) p s : option (Result V * HQueue V) :=
  match result_of p with
  | Some r => Some (r, s)
  | None =>
      match fuel with
      | O => None
      | S fuel => '(p, s) ← step p s; run fuel p s
      end
  end.

(** A thread that makes calls while no other does. *)
Inductive served : list (Call V) → HQueue V → list (Result V) → HQueue V → Prop :=
| served_nil s : served [] s [] s
| served_call c l s fuel r s' rs s'' :
    run fuel (start c) s = Some (r, s') → served l s' rs s'' → served (c :: l) s (r :: rs) s''.

(** Several threads: one that has done its call may be given another, the others take
    steps in any order. [None] when one leaves the array of nodes. *)
Inductive Event := Go (j : nat) | Give (j : nat) (c : Call V).

Definition event (e : Event) (g : HQueue V * list (pc V)) : option (HQueue V * list (pc V)) :=
  match e with
  | Go j =>
      match g.2 !! j with
      | Some p =>
          match result_of p with
          | Some _ => Some g
          | None => '(p, s) ← step p g.1; Some (s, <[j := p]> g.2)
          end
      | None => Some g
      end
  | Give j c =>
      match g.2 !! j ≫= result_of with
      | Some _ => Some (g.1, <[j := start c]> g.2)
      | None => Some g
      end
  end.

Fixpoint play (l : list Event) (g : HQueue V * list (pc V)) : option (HQueue V * list (pc V)) :=
  match l with
  | [] => Some g
  | e :: l => g ← event e g; play l g
  end.

(** ** What the queue is for *)

(** A queue with room for [sz - 1] elements, and for one less from the first removal
    on: the first node is never taken again. *)
Record Fifo := MkFifo { shifted : bool; contents : list V }.

Definition room (sz : Z) (a : Fifo) : bool :=
  Z.of_nat (length (contents a)) <? sz - 1 - (if shifted a then 1 else 0).

Definition fifo_call (sz : Z) (c : Call V) (a : Fifo) : Result V * Fifo :=
  match c with
  | Enqueue t => if room sz a then (Bool true, MkFifo (shifted a) (contents a ++ [t])) else (Bool false, a)
  | Dequeue =>
      match contents a with
      | [] => (Value None, a)
      | v :: vs => (Value (Some v), MkFifo true vs)
      end
  | Empty => (Bool match contents a with [] => true | _ => false end, a)
  end.

Fixpoint fifo_calls (sz : Z) (l : list (Call V)) (a : Fifo) : list (Result V) :=
  match l with
  | [] => []
  | c :: l => let '(r, a) := fifo_call sz c a in r :: fifo_calls sz l a
  end.
End queue.

(** ** Runs of one thread *)

Section runs.
Context {V : Type}.
Implicit Types (s : HQueue V) (p : pc V) (Q : Result V → HQueue V → Prop).

(** From [p] the thread gets done, with a result and a state that satisfy [Q]. *)
Definition ends p s Q : Prop := ∃ fuel r s', run fuel p s = Some (r, s') ∧ Q r s'.

Lemma ends_done r s Q : Q r s → ends (Done r) s Q.
Proof. intros. by exists 0%nat, r, s. Qed.

Lemma ends_step p s p' s' Q : result_of p = None → step p s = Some (p', s') → ends p' s' Q → ends p s Q.
Proof.
  intros Hp Hs (fuel & r & s2 & Hr & HQ). exists (S fuel), r, s2. cbn [run]. by rewrite Hp, Hs.
Qed.

Lemma ends_mono p s Q Q' : ends p s Q → (∀ r s', Q r s' → Q' r s') → ends p s Q'.
Proof. intros (fuel & r & s' & ? & ?) ?. exists fuel, r, s'. auto. Qed.

Lemma run_more fuel n p s c : run fuel p s = Some c → run (fuel + n) p s = Some c.
Proof.
  revert p s. induction fuel as [|fuel IH]; intros p s; cbn [run Nat.add].
  - destruct (result_of p) eqn:Hp; [|done]. intros [= <-]. destruct n; cbn [run]; by rewrite Hp.
  - destruct (result_of p); [done|]. destruct (step p s) as [[p' s']|]; simpl; [|done]. apply IH.
Qed.

(** A call has one outcome, however many steps it is given. *)
Lemma run_unique fuel fuel' p s c c' : run fuel p s = Some c → run fuel' p s = Some c' → c = c'.
Proof.
  intros H1%(run_more _ fuel') H2%(run_more _ fuel). rewrite Nat.add_comm in H2. congruence.
Qed.

(** ** Nodes *)

Lemma node_set_eq s i n : is_Some (node s i) → node (set_node i n s) i = Some n.
Proof.
  unfold node. destruct (Z.ltb_spec i 0); [by intros []|]. intros Hi%lookup_lt_is_Some.
  simpl. by apply list_lookup_insert_eq.
Qed.

Lemma node_set_ne s i j n : i ≠ j → 0 <= i → node (set_node i n s) j = node s j.
Proof.
  intros. unfold node. destruct (Z.ltb_spec j 0); [done|]. simpl. apply list_lookup_insert_ne. lia.
Qed.

Lemma node_nonneg s i n : node s i = Some n → 0 <= i.
Proof. unfold node. destruct (Z.ltb_spec i 0); [done|lia]. Qed.

Lemma node_in_range s i : 0 <= i < Z.of_nat (length (nodes s)) → is_Some (node s i).
Proof. intros. unfold node. destruct (Z.ltb_spec i 0); [lia|]. apply lookup_lt_is_Some. lia. Qed.

Lemma node_set_is_Some s i j n : 0 <= i → is_Some (node s j) → is_Some (node (set_node i n s) j).
Proof.
  intros Hi Hj. destruct (decide (i = j)) as [<-|]; [by rewrite node_set_eq|by rewrite node_set_ne].
Qed.

(** The nodes after [d], in the order of the pointers between them. *)
Fixpoint path s (d : Z) (l : list Z) : Prop :=
  match l with
  | [] => ∃ n, node s d = Some n ∧ index (next n) = -1
  | x :: l => ∃ n, node s d = Some n ∧ index (next n) = x ∧ path s x l
  end.

Fixpoint end_of (d : Z) (l : list Z) : Z := match l with [] => d | x :: l => end_of x l end.

Lemma end_of_elem d l : end_of d l ∈ d :: l.
Proof. revert d. induction l as [|x l IH]; intros d; simpl; [left|right; apply IH]. Qed.

Lemma end_of_snoc d l x : end_of d (l ++ [x]) = x.
Proof. revert d. induction l as [|y l IH]; intros d; simpl; [done|apply IH]. Qed.

Lemma path_end s d l : path s d l → ∃ n, node s (end_of d l) = Some n ∧ index (next n) = -1.
Proof. revert d. induction l as [|x l IH]; intros d; simpl; [done|]. intros (n & _ & _ & ?). auto. Qed.

Lemma path_ext s s' d l :
  (∀ x n, x ∈ d :: l → node s x = Some n → ∃ n', node s' x = Some n' ∧ next n' = next n) →
  path s d l → path s' d l.
Proof.
  revert d. induction l as [|x l IH]; intros d Hn; simpl.
  - intros (n & Hd & He). destruct (Hn d n) as (n' & ? & Heq); [left|done|]. exists n'. by rewrite Heq.
  - intros (n & Hd & He & Hp). destruct (Hn d n) as (n' & ? & Heq); [left|done|]. exists n'.
    split; [done|]. split; [by rewrite Heq|]. apply IH; [|done]. intros y m Hy. apply Hn. by right.
Qed.

Lemma path_snoc s s' d l i :
  path s d l → NoDup (d :: l) →
  (∀ x n, x ∈ d :: l → x ≠ end_of d l → node s x = Some n → ∃ n', node s' x = Some n' ∧ next n' = next n) →
  (∃ n, node s' (end_of d l) = Some n ∧ index (next n) = i) →
  (∃ n, node s' i = Some n ∧ index (next n) = -1) →
  path s' d (l ++ [i]).
Proof.
  revert d. induction l as [|x l IH]; intros d; simpl.
  - intros _ _ _ (n & ? & ?) Hi. eauto.
  - intros (n & Hd & He & Hp) [Hnd Hnd']%NoDup_cons Hn Hlast Hi.
    destruct (Hn d n) as (n' & ? & Heq); [left| |done|].
    { intros ->. apply Hnd, end_of_elem. }
    exists n'. split; [done|]. split; [by rewrite Heq|]. apply IH; [done..| |done|done].
    intros y m Hy Hye. apply Hn; [by right|done].
Qed.
End runs.

(** ** The queue as a fifo *)

Lemma Forall2_impl_elem {A B} (P Q : A → B → Prop) l k :
  Forall2 P l k → (∀ x y, x ∈ l → P x y → Q x y) → Forall2 Q l k.
Proof.
  induction 1 as [|x y l k Hxy Hl IH]; intros HPQ; constructor; [apply HPQ; [left|done]|].
  apply IH. intros x' y' Hx'. apply HPQ. by right.
Qed.

Section fifo.
Context {V : Type} {sz : Z}.
Implicit Types (s : HQueue V) (a : @Fifo V) (Q : Result V → HQueue V → Prop).

(** [d] is the dummy at the head, [l] the nodes of the elements. *)
Record Rep a s (d : Z) (l : list Z) : Prop := {
  rep_length : Z.of_nat (length (nodes s)) = sz;
  rep_size : queue_size s = sz;
  rep_index : 1 <= free_index s;
  rep_head : index (qhead s) = d;
  rep_tail : index (qtail s) = end_of d l;
  rep_path : path s d l;
  rep_values : Forall2 (λ i v, ∃ n, node s i = Some n ∧ value n = Some v) l (contents a);
  rep_nodup : NoDup (d :: l);
  rep_range x : x ∈ d :: l → 0 <= x < sz;
  rep_later x : x ∈ l → 1 <= x;
  rep_shifted : shifted a = bool_decide (d ≠ 0);
  rep_free i n : 1 <= i < sz → node s i = Some n → free n = bool_decide (i ∉ d :: l);
}.

Lemma node_of_rep a s d l i : Rep a s d l → 0 <= i < sz → is_Some (node s i).
Proof. intros HR Hi. apply node_in_range. by rewrite (rep_length _ _ _ _ HR). Qed.

(** The nodes but the first that are in use. *)
Definition busy (d : Z) (l : list Z) : list Z := if decide (d = 0) then l else d :: l.

Lemma room_busy a s d l : Rep a s d l → room sz a = (Z.of_nat (length (busy d l)) <? sz - 1).
Proof.
  intros HR. unfold room, busy. rewrite (rep_shifted _ _ _ _ HR).
  rewrite <- (Forall2_length _ _ _ (rep_values _ _ _ _ HR)).
  destruct (decide (d = 0)) as [Hd|Hd].
  - rewrite bool_decide_eq_false_2 by (intros Hn; by apply Hn). f_equal. lia.
  - rewrite bool_decide_eq_true_2 by done. cbn [length].
    destruct (Z.ltb_spec (Z.of_nat (length l)) (sz - 1 - 1)), (Z.ltb_spec (Z.of_nat (S (length l))) (sz - 1)); lia || done.
Qed.

Lemma busy_spec a s d l : Rep a s d l →
  NoDup (busy d l) ∧ (∀ x, x ∈ busy d l → 1 <= x < sz) ∧ (∀ x, 1 <= x → x ∈ busy d l ↔ x ∈ d :: l).
Proof.
  intros HR. pose proof (rep_nodup _ _ _ _ HR) as Hnd. pose proof (rep_range _ _ _ _ HR) as Hr.
  pose proof (rep_later _ _ _ _ HR) as Hl. unfold busy. destruct (decide (d = 0)) as [->|Hd].
  - apply NoDup_cons in Hnd as [_ Hnd]. split; [done|]. split.
    + intros x Hx. specialize (Hl x Hx). split; [done|]. apply Hr. by right.
    + intros x Hx. rewrite elem_of_cons. split; [by right|]. intros [->|?]; [lia|done].
  - split; [done|]. split; [|done]. intros x Hx. pose proof (Hr x Hx).
    apply elem_of_cons in Hx as [->|Hx]; [lia|]. specialize (Hl x Hx). lia.
Qed.

Lemma no_room a s d l : Rep a s d l → (∀ i, 1 <= i < sz → i ∈ d :: l) → room sz a = false.
Proof.
  intros HR Hall. rewrite (room_busy _ _ _ _ HR). destruct (busy_spec _ _ _ _ HR) as (_ & _ & Hb).
  apply Z.ltb_ge. assert (length (seqZ 1 (sz - 1)) ≤ length (busy d l))%nat as Hlen.
  { apply submseteq_length, NoDup_submseteq; [apply NoDup_seqZ|]. intros x Hx%elem_of_seqZ.
    apply Hb; [lia|]. apply Hall. lia. }
  rewrite length_seqZ in Hlen. lia.
Qed.

Lemma some_room a s d l i : Rep a s d l → 1 <= i < sz → i ∉ d :: l → room sz a = true.
Proof.
  intros HR Hi Hn. rewrite (room_busy _ _ _ _ HR). destruct (busy_spec _ _ _ _ HR) as (Hnd & Hr & Hb).
  apply Z.ltb_lt. assert (length (i :: busy d l) ≤ length (seqZ 1 (sz - 1)))%nat as Hlen.
  { apply submseteq_length, NoDup_submseteq.
    - apply NoDup_cons. split; [|done]. rewrite Hb by lia. done.
    - intros x [->|Hx]%elem_of_cons; apply elem_of_seqZ; [lia|]. specialize (Hr x Hx). lia. }
  rewrite length_seqZ in Hlen. cbn [length] in Hlen. lia.
Qed.

(** ** Enqueue *)

(** The loops that look for a free node. *)
Lemma scan_ends (t : V) (again : bool) i s Q :
  queue_size s = Z.of_nat (length (nodes s)) → 0 <= i →
  (∀ j n, i <= j < queue_size s → node s j = Some n → free n = true →
    ends (EClaimed t j) (set_node j (MkNode (next n) (value n) false) s) Q) →
  ((∀ j n, i <= j < queue_size s → node s j = Some n → free n = false) →
    ends (if again then Done (Bool false) else EAgain t) s Q) →
  ends (EScan t again i) s Q.
Proof.
  intros Hs. remember (Z.to_nat (queue_size s - i)) as k eqn:Hk. revert i Hk.
  induction k as [|k IH]; intros i Hk Hi Hfound Hnone.
  - assert ((i <? queue_size s) = false) as Hlt by (apply Z.ltb_ge; lia).
    eapply ends_step with (p' := if again then Done (Bool false) else EAgain t); [done| |apply Hnone; intros; lia].
    unfold step. cbn [enqueue_step]. rewrite Hlt. by destruct again.
  - assert ((i <? queue_size s) = true) as Hlt by (apply Z.ltb_lt; lia).
    destruct (node_in_range s i) as [n Hn]; [lia|]. destruct (free n) eqn:Hf.
    + eapply ends_step; [done| |apply (Hfound i n); [lia|done|done]].
      unfold step. cbn [enqueue_step]. rewrite Hlt, Hn. simpl. by rewrite Hf.
    + eapply ends_step with (p' := EScan t again (i + 1)); [done| |apply IH; [lia|lia| |]].
      * unfold step. cbn [enqueue_step]. rewrite Hlt, Hn. simpl. by rewrite Hf.
      * intros j m Hj. apply Hfound. lia.
      * intros Hrest. apply Hnone. intros j m Hj Hm. destruct (decide (j = i)) as [->|]; [congruence|].
        apply (Hrest j m); [lia|done].
Qed.

Lemma appended a s s' d l i t :
  Rep a s d l → 1 <= i < sz → i ∉ d :: l →
  length (nodes s') = length (nodes s) → queue_size s' = queue_size s → 1 <= free_index s' →
  qhead s' = qhead s → index (qtail s') = i →
  node s' i = Some (MkNode null_pointer (Some t) false) →
  (∃ n m, node s (end_of d l) = Some n ∧ node s' (end_of d l) = Some m ∧ index (next m) = i ∧
    value m = value n ∧ free m = free n) →
  (∀ x, x ≠ i → x ≠ end_of d l → node s' x = node s x) →
  Rep (MkFifo (shifted a) (contents a ++ [t])) s' d (l ++ [i]).
Proof.
  intros HR Hi Hni Hlen Hsz Hfi Hhd Htl Hnode (n & m & Hn & Hm & Hmi & Hmv & Hmf) Hother.
  assert (∀ x, x ∈ d :: l → x ≠ i) as Hne by (intros x Hx ->; done).
  split.
  - by rewrite Hlen, (rep_length _ _ _ _ HR).
  - by rewrite Hsz, (rep_size _ _ _ _ HR).
  - done.
  - by rewrite Hhd, (rep_head _ _ _ _ HR).
  - by rewrite end_of_snoc.
  - eapply path_snoc; [apply HR|apply HR| |eauto|eauto].
    intros x n' Hx Hxe Hn'. exists n'. by rewrite Hother by auto.
  - simpl. apply Forall2_app; [|constructor; [eauto|constructor]].
    eapply Forall2_impl_elem; [apply HR|]. intros x v Hx (n' & Hn' & Hv).
    destruct (decide (x = end_of d l)) as [->|Hxe].
    + exists m. split; [done|]. congruence.
    + exists n'. rewrite Hother; [done| |done]. apply Hne. by right.
  - rewrite app_comm_cons. apply NoDup_app. split; [apply HR|]. split; [|apply NoDup_singleton].
    intros x Hx ->%list_elem_of_singleton. done.
  - intros x. rewrite app_comm_cons, elem_of_app, list_elem_of_singleton. intros [Hx| ->]; [by apply (rep_range _ _ _ _ HR)|lia].
  - intros x. rewrite elem_of_app, list_elem_of_singleton. intros [Hx| ->]; [by apply (rep_later _ _ _ _ HR)|lia].
  - apply (rep_shifted _ _ _ _ HR).
  - intros x n' Hx Hn'. destruct (decide (x = i)) as [->|Hxi].
    + rewrite Hnode in Hn'. injection Hn' as <-. symmetry. apply bool_decide_eq_false_2. set_solver.
    + assert (free n' = bool_decide (x ∉ d :: l)) as ->; [|apply bool_decide_ext; set_solver].
      destruct (decide (x = end_of d l)) as [->|Hxe].
      * assert (n' = m) as -> by congruence. rewrite Hmf. by apply (rep_free _ _ _ _ HR).
      * rewrite Hother in Hn' by done. by apply (rep_free _ _ _ _ HR).
Qed.
Lemma claimed_ends a s d l i n t :
  Rep a s d l → 1 <= i < sz → i ∉ d :: l → node s i = Some n →
  ends (EClaimed t i) (set_node i (MkNode (next n) (value n) false) s) (λ r s',
    r = Bool true ∧ Rep (MkFifo (shifted a) (contents a ++ [t])) s' d (l ++ [i])).
Proof.
  intros HR Hi Hni Hn.
  destruct (path_end _ _ _ (rep_path _ _ _ _ HR)) as (m & Hm & Hmi).
  pose proof (rep_tail _ _ _ _ HR) as Htl. set (e := end_of d l) in *.
  assert (e ∈ d :: l) as He by apply end_of_elem.
  assert (i ≠ e) as Hie by (intros ->; done).
  pose proof (rep_range _ _ _ _ HR e He) as Hre.
  eapply ends_step; [done|reflexivity|].
  set (s1 := set_free_index _ _).
  assert (node s1 i = Some (MkNode (next n) (value n) false)) as H1 by (by apply (node_set_eq s)).
  eapply ends_step; [done|unfold step; cbn [enqueue_step]; rewrite H1; reflexivity|]. cbn [next value free].
  set (s2 := set_node i _ s1).
  assert (node s2 i = Some (MkNode (next n) (Some t) false)) as H2 by (apply node_set_eq; by rewrite H1).
  eapply ends_step; [done|unfold step; cbn [enqueue_step]; rewrite H2; reflexivity|]. cbn [next value free].
  set (s3 := set_node i _ s2).
  assert (node s3 i = Some (MkNode null_pointer (Some t) false)) as H3 by (apply node_set_eq; by rewrite H2).
  assert (∀ x, x ≠ i → node s3 x = node s x) as Hother.
  { intros x Hx. unfold s3. rewrite node_set_ne by lia. unfold s2. rewrite node_set_ne by lia.
    apply (node_set_ne s); lia. }
  eapply ends_step with (p' := ERead i (qtail s)) (s' := s3); [done| |].
  { unfold step. cbn [enqueue_step]. change (qtail s3) with (qtail s). rewrite Htl.
    destruct (Z.eqb_spec e (-1)); [lia|done]. }
  eapply ends_step; [done|unfold step; cbn [enqueue_step]; rewrite Htl, Hother, Hm by done; reflexivity|].
  eapply ends_step with (p' := ELink i (qtail s) (next m)) (s' := s3); [done| |].
  { unfold step. cbn [enqueue_step]. change (qtail s3) with (qtail s).
    rewrite decide_False by (intros Hq; by apply Hq). by rewrite Hmi. }
  eapply ends_step; [done| |].
  { unfold step. cbn [enqueue_step]. rewrite Htl, Hother, Hm by done. simpl. by rewrite decide_True. }
  eapply ends_step; [done|reflexivity|]. apply ends_done. split; [done|].
  unfold cas_tail. rewrite decide_True by done.
  apply appended with (s := s); try done.
  - simpl. by rewrite !length_insert.
  - simpl. lia.
  - change (node (set_node e (MkNode (successor i (next m)) (value m) (free m)) s3) i = Some (MkNode null_pointer (Some t) false)).
    by rewrite node_set_ne by (done || lia).
  - exists m, (MkNode (successor i (next m)) (value m) (free m)). split; [done|]. split; [|done].
    apply (node_set_eq s3). by rewrite Hother, Hm by done.
  - intros x Hx Hxe.
    change (node (set_node e (MkNode (successor i (next m)) (value m) (free m)) s3) x = node s x).
    rewrite node_set_ne by (done || lia). by apply Hother.
Qed.

Lemma Rep_free_index a s d l i : Rep a s d l → 1 <= i → Rep a (set_free_index i s) d l.
Proof.
  intros HR ?. split; try done; try apply HR.
  eapply path_ext; [|apply HR]. intros x n _ Hn. by exists n.
Qed.

Lemma Enqueue_ends a s d l t :
  Rep a s d l →
  ends (EStart t) s (λ r s', r = fst (fifo_call sz (Enqueue t) a) ∧
    ∃ d' l', Rep (snd (fifo_call sz (Enqueue t) a)) s' d' l').
Proof.
  intros HR. pose proof (rep_index _ _ _ _ HR) as Hfi. pose proof (rep_size _ _ _ _ HR) as Hsz.
  assert (∀ s j n, Rep a s d l → 1 <= j < sz → node s j = Some n → free n = true →
    ends (EClaimed t j) (set_node j (MkNode (next n) (value n) false) s) (λ r s',
      r = fst (fifo_call sz (Enqueue t) a) ∧ ∃ d' l', Rep (snd (fifo_call sz (Enqueue t) a)) s' d' l')) as Hfound.
  { intros s1 j n HR1 Hj Hn Hf. rewrite (rep_free _ _ _ _ HR1 j n Hj Hn) in Hf.
    apply bool_decide_eq_true in Hf. eapply ends_mono; [by eapply claimed_ends|].
    cbn [fifo_call]. rewrite (some_room a s1 d l j) by done. intros r s' [-> ?]. eauto. }
  eapply ends_step; [done|reflexivity|]. apply scan_ends.
  - by rewrite Hsz, (rep_length _ _ _ _ HR).
  - lia.
  - intros j n Hj. apply Hfound; [done|lia].
  - intros _. eapply ends_step; [done|reflexivity|].
    assert (Rep a (set_free_index 1 s) d l) as HR1 by (apply Rep_free_index; [done|lia]).
    apply scan_ends; [by rewrite (rep_length _ _ _ _ HR1)|lia| |].
    + intros j n Hj. apply Hfound; [done|]. rewrite <- Hsz. simpl in Hj. lia.
    + intros Hnone. apply ends_done. cbn [fifo_call]. rewrite (no_room a s d l HR); [eauto|].
      intros i Hi. destruct (node_of_rep _ _ _ _ i HR1) as [n Hn]; [lia|].
      specialize (Hnone i n). rewrite (rep_free _ _ _ _ HR1 i n Hi Hn) in Hnone.
      destruct (decide (i ∈ d :: l)) as [|Hni]; [done|].
      rewrite bool_decide_eq_true_2 in Hnone by done. discriminate Hnone; [simpl; lia|done].
Qed.

(** ** Dequeue and Empty *)

Lemma removed a s s' d x l :
  Rep a s d (x :: l) →
  length (nodes s') = length (nodes s) → queue_size s' = queue_size s → free_index s' = free_index s →
  index (qhead s') = x → qtail s' = qtail s →
  (∃ n m, node s d = Some n ∧ node s' d = Some m ∧ free m = true) →
  (∀ y, y ≠ d → node s' y = node s y) →
  Rep (MkFifo true (tail (contents a))) s' x l.
Proof.
  intros HR Hlen Hsz Hfi Hhd Htl (n & m & Hn & Hm & Hmf) Hother.
  pose proof (rep_nodup _ _ _ _ HR) as Hnd. apply NoDup_cons in Hnd as [Hd Hnd].
  pose proof (rep_values _ _ _ _ HR) as Hv. apply Forall2_cons_inv_l in Hv as (v & vs & _ & Hv & Hc).
  pose proof (rep_path _ _ _ _ HR) as (n0 & _ & _ & Hp).
  assert (1 <= x) as Hx by (apply (rep_later _ _ _ _ HR); left).
  split.
  - by rewrite Hlen, (rep_length _ _ _ _ HR).
  - by rewrite Hsz, (rep_size _ _ _ _ HR).
  - by rewrite Hfi; apply (rep_index _ _ _ _ HR).
  - done.
  - by rewrite Htl, (rep_tail _ _ _ _ HR).
  - eapply path_ext; [|exact Hp]. intros y n' Hy Hn'. exists n'. rewrite Hother; [done|]. intros ->. done.
  - simpl. rewrite Hc. simpl. eapply Forall2_impl_elem; [exact Hv|]. intros y w Hy (n' & Hn' & Hw).
    exists n'. rewrite Hother; [done|]. intros ->. apply Hd. by right.
  - done.
  - intros y Hy. apply (rep_range _ _ _ _ HR). by right.
  - intros y Hy. apply (rep_later _ _ _ _ HR). by right.
  - symmetry. apply bool_decide_eq_true_2. lia.
  - intros y n' Hy Hn'. destruct (decide (y = d)) as [->|Hyd].
    + assert (n' = m) as -> by congruence. rewrite Hmf. symmetry. by apply bool_decide_eq_true_2.
    + rewrite Hother in Hn' by done. rewrite (rep_free _ _ _ _ HR y n' Hy Hn').
      apply bool_decide_ext. set_solver.
Qed.

Lemma Dequeue_ends a s d l :
  Rep a s d l →
  ends DHead s (λ r s', r = fst (fifo_call sz Dequeue a) ∧ ∃ d' l', Rep (snd (fifo_call sz Dequeue a)) s' d' l').
Proof.
  intros HR. pose proof (rep_head _ _ _ _ HR) as Hhd. pose proof (rep_tail _ _ _ _ HR) as Htl.
  assert (0 <= d < sz) as Hd by (apply (rep_range _ _ _ _ HR); left).
  destruct (node_of_rep _ _ _ _ d HR Hd) as [n Hn].
  eapply ends_step; [done|reflexivity|].
  eapply ends_step with (p' := DNext (qhead s) (qtail s)) (s' := s); [done| |].
  { unfold step. cbn [enqueue_step dequeue_step]. rewrite Hhd. destruct (Z.eqb_spec d (-1)); [lia|done]. }
  eapply ends_step; [done|unfold step; cbn [enqueue_step dequeue_step]; rewrite Hhd, Hn; reflexivity|].
  pose proof (rep_values _ _ _ _ HR) as Hv. destruct l as [|x l].
  - apply Forall2_nil_inv_l in Hv. pose proof (rep_path _ _ _ _ HR) as (n' & Hn' & Hi).
    assert (n' = n) as -> by congruence.
    eapply ends_step with (p' := Done (Value None)) (s' := s); [done| |].
    { unfold step. cbn [enqueue_step dequeue_step]. rewrite decide_False by (intros Hq; by apply Hq).
      rewrite Hhd, Htl, Hi. simpl. by rewrite Z.eqb_refl. }
    apply ends_done. cbn [fifo_call]. rewrite Hv. eauto.
  - apply Forall2_cons_inv_l in Hv as (v & vs & (nx & Hnx & Hval) & Hv & Hc).
    pose proof (rep_path _ _ _ _ HR) as (n' & Hn' & Hi & Hp). assert (n' = n) as -> by congruence.
    assert (0 <= x < sz) as Hx by (apply (rep_range _ _ _ _ HR); right; left).
    assert (d ≠ end_of x l) as Hde.
    { pose proof (rep_nodup _ _ _ _ HR) as Hnd. apply NoDup_cons in Hnd as [Hnd _]. intros ->. apply Hnd, end_of_elem. }
    eapply ends_step with (p' := DValue (qhead s) (next n)) (s' := s); [done| |].
    { unfold step. cbn [enqueue_step dequeue_step]. rewrite decide_False by (intros Hq; by apply Hq).
      rewrite Hhd, Htl, Hi. simpl. destruct (Z.eqb_spec d (end_of x l)); [done|].
      destruct (Z.eqb_spec x (-1)); [lia|done]. }
    eapply ends_step; [done|unfold step; cbn [enqueue_step dequeue_step]; rewrite Hi, Hnx; reflexivity|].
    eapply ends_step; [done|unfold step; cbn [enqueue_step dequeue_step]; rewrite decide_True by done; reflexivity|].
    set (s1 := set_head _ s). assert (node s1 d = Some n) as Hn1 by done.
    eapply ends_step; [done|unfold step; cbn [enqueue_step dequeue_step]; rewrite Hhd, Hn1; reflexivity|].
    apply ends_done. cbn [fifo_call]. rewrite Hc. simpl. split; [congruence|]. exists x, l.
    assert (MkFifo true vs = MkFifo true (tail (contents a))) as -> by (by rewrite Hc).
    apply removed with (s := s) (d := d); try done.
    + simpl. by rewrite length_insert.
    + exists n, (MkNode (next n) (value n) true). split; [done|].
      split; [apply node_set_eq; by rewrite Hn1|done].
    + intros y Hy. rewrite node_set_ne by (done || lia). done.
Qed.

Lemma Empty_ends a s d l :
  Rep a s d l →
  ends MHead s (λ r s', r = fst (fifo_call sz Empty a) ∧ ∃ d' l', Rep (snd (fifo_call sz Empty a)) s' d' l').
Proof.
  intros HR. pose proof (rep_head _ _ _ _ HR) as Hhd. pose proof (rep_tail _ _ _ _ HR) as Htl.
  assert (0 <= d < sz) as Hd by (apply (rep_range _ _ _ _ HR); left).
  destruct (node_of_rep _ _ _ _ d HR Hd) as [n Hn].
  eapply ends_step; [done|reflexivity|].
  eapply ends_step with (p' := MNext (qhead s) (qtail s)) (s' := s); [done| |].
  { unfold step. cbn [enqueue_step dequeue_step empty_step]. rewrite Hhd. destruct (Z.ltb_spec d 0); [lia|done]. }
  eapply ends_step; [done|unfold step; cbn [enqueue_step dequeue_step empty_step]; rewrite Hhd, Hn; reflexivity|].
  eapply ends_step; [done|reflexivity|]. apply ends_done. cbn [fifo_call fst snd].
  split; [|eauto]. f_equal. rewrite bool_decide_eq_true_2 by done. rewrite Hhd, Htl. simpl.
  pose proof (rep_values _ _ _ _ HR) as Hv. pose proof (rep_path _ _ _ _ HR) as Hp. destruct l as [|x l].
  - apply Forall2_nil_inv_l in Hv. rewrite Hv. destruct Hp as (n' & Hn' & Hi).
    assert (n' = n) as -> by congruence. simpl. by rewrite Z.eqb_refl, Hi.
  - apply Forall2_cons_inv_l in Hv as (v & vs & _ & _ & ->).
    pose proof (rep_nodup _ _ _ _ HR) as Hnd. apply NoDup_cons in Hnd as [Hnd _]. simpl.
    destruct (Z.eqb_spec d (end_of x l)) as [->|]; [|done]. by destruct Hnd; apply end_of_elem.
Qed.
End fifo.

(** ** Threads stay in the array *)

Section threads.
Context {V : Type} {sz : Z} (Hsz : 0 < sz).
Implicit Types (s : HQueue V) (p : pc V).

Definition in_array (q : Pointer) : Prop := 0 <= index q < sz.
Definition link_ok (q : Pointer) : Prop := index q = -1 ∨ in_array q.

Record shared_ok s : Prop := {
  ok_length : Z.of_nat (length (nodes s)) = sz;
  ok_size : queue_size s = sz;
  ok_index : 1 <= free_index s;
  ok_head : in_array (qhead s);
  ok_tail : in_array (qtail s);
  ok_next i n : node s i = Some n → link_ok (next n);
}.

Definition pc_ok p : Prop :=
  match p with
  | EScan _ _ i => 0 <= i
  | EClaimed _ i | EValue _ i | ENext i | ETail i => 0 <= i < sz
  | ERead i tail | ESwing i tail => 0 <= i < sz ∧ in_array tail
  | ECheck i tail nx | ELink i tail nx => 0 <= i < sz ∧ in_array tail ∧ link_ok nx
  | EHelp i tail nx => 0 <= i < sz ∧ in_array nx
  | DTail head | MTail head | DFree head _ => in_array head
  | DNext head tail | MNext head tail => in_array head
  | DCheck head tail nx => in_array head ∧ link_ok nx
  | DHelp tail nx => link_ok nx ∧ index nx ≠ -1
  | DValue head nx | DSwing head nx _ => in_array head ∧ in_array nx
  | Done _ | EStart _ | EAgain _ | DHead | MHead | MCheck _ _ _ => True
  end.

Lemma ok_node s i : shared_ok s → 0 <= i < sz → ∃ n, node s i = Some n ∧ link_ok (next n).
Proof using Hsz.
  intros Hs Hi. destruct (node_in_range s i) as [n Hn]; [by rewrite (ok_length _ Hs)|].
  exists n. split; [done|]. by eapply ok_next.
Qed.

Lemma link_in_array q : link_ok q → index q ≠ -1 → in_array q.
Proof. by intros [?|?]. Qed.

Lemma set_node_ok s i n : shared_ok s → 0 <= i → link_ok (next n) → shared_ok (set_node i n s).
Proof using Hsz.
  intros Hs Hi Hn. destruct Hs as [Hl Hq Hf Hh Ht Hx]. split; simpl; try done.
  - by rewrite length_insert.
  - intros j m Hm. destruct (decide (i = j)) as [<-|Hne].
    + destruct (node s i) as [n'|] eqn:He; [rewrite node_set_eq in Hm by done; by simplify_eq|].
      unfold node, set_node in Hm, He. simpl in Hm. destruct (i <? 0); [done|].
      rewrite list_insert_ge in Hm by (by apply lookup_ge_None). congruence.
    + rewrite node_set_ne in Hm by done. by apply (Hx j).
Qed.

Lemma set_free_index_ok s i : shared_ok s → 1 <= i → shared_ok (set_free_index i s).
Proof. by intros [] ?; split. Qed.

Lemma cas_tail_ok s e d : shared_ok s → in_array d → shared_ok (cas_tail e d s).
Proof. intros Hs ?. unfold cas_tail. case_decide; [|done]. destruct Hs. by split. Qed.

Lemma set_head_ok s d : shared_ok s → in_array d → shared_ok (set_head d s).
Proof. by intros [] ?; split. Qed.

(** A thread that is not done can take its step, to where it is again in order. *)
Definition steps_on p s : Prop := ∃ p' s', step p s = Some (p', s') ∧ shared_ok s' ∧ pc_ok p'.

Ltac to p' s' := exists p', s'; split; [unfold step; cbn [enqueue_step dequeue_step empty_step]|].

Lemma enqueue_steps_on p s :
  shared_ok s → pc_ok p →
  match p with EStart _ | EScan _ _ _ | EAgain _ | EClaimed _ _ | EValue _ _ | ENext _ | ETail _ => True | _ => False end →
  steps_on p s.
Proof using Hsz.
  intros Hs Hp Hk. pose proof (ok_index _ Hs). pose proof (ok_size _ Hs). pose proof (ok_tail _ Hs) as Ht.
  destruct p as [|t|t again i|t|t i|t i|i|i|i tl|i tl nx|i tl nx|i tl nx|i tl| | | | | | | | | | | |];
    try done; simpl in Hp.
  - eexists _, _. split; [reflexivity|]. simpl. split; [done|lia].
  - destruct (Z.ltb_spec i (queue_size s)) as [Hlt|Hge].
    + destruct (ok_node s i Hs) as (n & Hn & Hln); [lia|].
      unfold steps_on, step. cbn [enqueue_step]. rewrite (proj2 (Z.ltb_lt _ _) Hlt), Hn. simpl.
      destruct (free n); eexists _, _; (split; [reflexivity|]); simpl; (split; [|lia]); [|done].
      by apply set_node_ok.
    + unfold steps_on, step. cbn [enqueue_step]. rewrite (proj2 (Z.ltb_ge _ _) Hge).
      destruct again; eexists _, _; (split; [reflexivity|]); done.
  - eexists _, _. split; [reflexivity|]. split; [by apply set_free_index_ok|]. simpl. lia.
  - eexists _, _. split; [reflexivity|]. split; [apply set_free_index_ok; [done|lia]|]. done.
  - destruct (ok_node s i Hs Hp) as (n & Hn & Hln). unfold steps_on, step. cbn [enqueue_step]. rewrite Hn.
    eexists _, _. split; [reflexivity|]. split; [apply set_node_ok; [done|lia|done]|done].
  - destruct (ok_node s i Hs Hp) as (n & Hn & Hln). unfold steps_on, step. cbn [enqueue_step]. rewrite Hn.
    eexists _, _. split; [reflexivity|]. split; [apply set_node_ok; [done|lia|by left]|done].
  - eexists _, _. split; [reflexivity|]. split; [done|].
    destruct (Z.eqb_spec (index (qtail s)) (-1)); [unfold in_array in Ht; lia|]. done.
Qed.

Lemma link_steps_on p s :
  shared_ok s → pc_ok p →
  match p with ERead _ _ | ECheck _ _ _ | EHelp _ _ _ | ELink _ _ _ | ESwing _ _ => True | _ => False end →
  steps_on p s.
Proof using Hsz.
  intros Hs Hp Hk.
  destruct p as [|t|t again i|t|t i|t i|i|i|i tl|i tl nx|i tl nx|i tl nx|i tl| | | | | | | | | | | |];
    try done; simpl in Hp; unfold steps_on, step; cbn [enqueue_step].
  - destruct Hp as [Hi Ht]. destruct (ok_node s _ Hs Ht) as (n & Hn & Hln). rewrite Hn.
    eexists _, _. split; [reflexivity|]. done.
  - destruct Hp as (Hi & Ht & Hln). eexists _, _. split; [reflexivity|]. split; [done|].
    case_decide; [done|]. destruct (Z.eqb_spec (index nx) (-1)); simpl; [done|]. split; [done|]. by apply link_in_array.
  - destruct Hp as (Hi & Hln). eexists _, _. split; [reflexivity|]. split; [by apply cas_tail_ok|done].
  - destruct Hp as (Hi & Ht & Hln). destruct (ok_node s _ Hs Ht) as (n & Hn & Hlk). rewrite Hn. simpl.
    case_decide; eexists _, _; (split; [reflexivity|]); [|done].
    split; [apply set_node_ok; [done|apply Ht|by right]|done].
  - destruct Hp as (Hi & Ht). eexists _, _. split; [reflexivity|]. split; [by apply cas_tail_ok|done].
Qed.

Lemma other_steps_on p s :
  shared_ok s → pc_ok p →
  match p with
  | DHead | DTail _ | DNext _ _ | DCheck _ _ _ | DHelp _ _ | DValue _ _ | DSwing _ _ _ | DFree _ _
  | MHead | MTail _ | MNext _ _ | MCheck _ _ _ => True
  | _ => False
  end → steps_on p s.
Proof using Hsz.
  intros Hs Hp Hk. pose proof (ok_head _ Hs) as Hh.
  destruct p as [| | | | | | | | | | | | | |hd|hd tl|hd tl nx|tl nx|hd nx|hd nx r|hd r| |hd|hd tl|hd tl nx];
    try done; simpl in Hp; unfold steps_on, step; cbn [enqueue_step dequeue_step empty_step].
  - eexists _, _. split; [reflexivity|]. done.
  - eexists _, _. split; [reflexivity|]. split; [done|]. by destruct (index hd =? -1).
  - destruct (ok_node s _ Hs Hp) as (n & Hn & Hln). rewrite Hn. eexists _, _. split; [reflexivity|]. done.
  - destruct Hp as [Hd Hln]. eexists _, _. split; [reflexivity|]. split; [done|]. case_decide; [done|].
    destruct (index hd =? index tl), (Z.eqb_spec (index nx) (-1)); try done. split; [done|]. by apply link_in_array.
  - destruct Hp as [Hln Hne]. eexists _, _. split; [reflexivity|]. split; [|done].
    apply cas_tail_ok; [done|]. by apply (link_in_array nx).
  - destruct Hp as [Hd Hnx]. destruct (ok_node s _ Hs Hnx) as (n & Hn & Hln). rewrite Hn.
    eexists _, _. split; [reflexivity|]. done.
  - destruct Hp as [Hd Hnx]. case_decide; eexists _, _; (split; [reflexivity|]); [|done].
    split; [by apply set_head_ok|done].
  - destruct (ok_node s _ Hs Hp) as (n & Hn & Hln). rewrite Hn. eexists _, _. split; [reflexivity|].
    split; [apply set_node_ok; [done|apply Hp|done]|done].
  - eexists _, _. split; [reflexivity|]. done.
  - eexists _, _. split; [reflexivity|]. split; [done|]. by destruct (index hd <? 0).
  - destruct (ok_node s _ Hs Hp) as (n & Hn & Hln). rewrite Hn. eexists _, _. split; [reflexivity|]. done.
  - eexists _, _. split; [reflexivity|]. done.
Qed.

Lemma thread_steps_on p s : shared_ok s → pc_ok p → result_of p = None → steps_on p s.
Proof using Hsz.
  intros Hs Hp Hr. destruct p;
    (done || by apply enqueue_steps_on) || (by apply link_steps_on) || by apply other_steps_on.
Qed.

Lemma event_ok e (g : HQueue V * list (pc V)) :
  shared_ok g.1 → Forall pc_ok g.2 → ∃ g', event e g = Some g' ∧ shared_ok g'.1 ∧ Forall pc_ok g'.2.
Proof using Hsz.
  intros Hs Hp. destruct e as [j|j c]; cbn [event].
  - destruct (g.2 !! j) as [p|] eqn:Hj; [|eauto]. destruct (result_of p) eqn:Hr; [eauto|].
    destruct (thread_steps_on p g.1) as (p' & s' & -> & Hs' & Hp'); [done| |done|].
    { by eapply Forall_lookup_1. }
    simpl. eexists. split; [done|]. split; [done|]. by apply Forall_insert.
  - destruct (g.2 !! j ≫= result_of); [|eauto]. eexists. split; [done|]. split; [done|].
    apply Forall_insert; [done|]. by destruct c.
Qed.

Lemma play_ok l (g : HQueue V * list (pc V)) :
  shared_ok g.1 → Forall pc_ok g.2 → is_Some (play l g).
Proof using Hsz.
  revert g. induction l as [|e l IH]; intros g Hs Hp; cbn [play]; [done|].
  destruct (event_ok e g Hs Hp) as (g' & -> & ? & ?). by apply IH.
Qed.
End threads.

(** ** What the queue promises *)

Section theorems.
Context {V : Type}.

Lemma Init_spec (sz : Z) : 0 < sz → ∃ s, Init (V := V) sz new_HQueue = (true, s) ∧
  Rep (sz := sz) (MkFifo false []) s 0 [] ∧ shared_ok (sz := sz) s.
Proof.
  intros Hsz. unfold Init, IsInit. simpl. destruct (Z.leb_spec sz 0); [lia|].
  eexists. split; [done|].
  assert (Z.of_nat (S (length (replicate (Z.to_nat (sz - 1)) (new_node (V := V) true)))) = sz) as Hlen
    by (rewrite length_replicate; lia).
  assert (∀ i n, 1 <= i → (new_node (V := V) false :: replicate (Z.to_nat (sz - 1)) (new_node true)) !! Z.to_nat i = Some n →
    n = new_node true) as Hnodes.
  { intros i n Hi. replace (Z.to_nat i) with (S (Z.to_nat (i - 1))) by lia. simpl.
    by intros [-> _]%lookup_replicate. }
  split; split; simpl; try done.
  - eexists. split; [reflexivity|done].
  - apply NoDup_singleton.
  - intros x ->%list_elem_of_singleton. lia.
  - by intros x ?%not_elem_of_nil.
  - intros i n Hi Hn. unfold node in Hn. destruct (Z.ltb_spec i 0); [lia|]. apply Hnodes in Hn as ->; [|lia].
    symmetry. apply bool_decide_eq_true_2. rewrite list_elem_of_singleton. lia.
  - intros i n Hn. left. unfold node in Hn. destruct (Z.ltb_spec i 0); [done|].
    destruct (decide (i = 0)) as [->|]; [by injection Hn as <-|]. apply Hnodes in Hn as ->; [done|lia].
Qed.

Lemma call_ends (sz : Z) c (a : Fifo) (s : HQueue V) d l :
  Rep (sz := sz) a s d l →
  ends (start c) s (λ r s', r = fst (fifo_call sz c a) ∧ ∃ d' l', Rep (sz := sz) (snd (fifo_call sz c a)) s' d' l').
Proof. destruct c; [apply Enqueue_ends|apply Dequeue_ends|apply Empty_ends]. Qed.

Lemma served_unique l (s : HQueue V) rs rs' s1 s2 : served l s rs s1 → served l s rs' s2 → rs = rs'.
Proof.
  intros H1. revert rs' s2. induction H1 as [|c l s fuel r s' rs s'' Hr _ IH]; intros rs' s2 H2;
    inversion H2 as [|c2 l2 s0 fuel2 r2 s2' rs2 s2'' Hr2 Hs2]; subst; [done|].
  pose proof (run_unique _ _ _ _ _ _ Hr Hr2). simplify_eq. f_equal. by eapply IH.
Qed.

(** C16: A queue that one thread at a time uses answers any sequence of calls as a fifo does
    that has room for as many elements as there are nodes but the first, and for one
    less once an element has been removed. Every call returns. *)
Theorem queue_is_a_fifo (sz : Z) (l : list (Call V)) :
  0 < sz →
  ∃ s, Init sz new_HQueue = (true, s) ∧
    (∃ s', served l s (fifo_calls sz l (MkFifo false [])) s') ∧
    ∀ rs s', served l s rs s' → rs = fifo_calls sz l (MkFifo false []).
Proof.
  intros Hsz. destruct (Init_spec sz Hsz) as (s & Hinit & HR & _). exists s. split; [done|].
  assert (∃ s', served l s (fifo_calls sz l (MkFifo false [])) s') as (s' & Hs').
  { clear Hinit. revert HR. generalize (MkFifo (V := V) false []) 0 ([] : list Z). revert s.
    induction l as [|c l IH]; intros s a d chain HR; cbn [fifo_calls]; [eexists; constructor|].
    destruct (call_ends sz c a s d chain HR) as (fuel & r & s1 & Hrun & -> & d' & l' & HR').
    destruct (fifo_call sz c a) as [r a'] eqn:Hc. destruct (IH s1 a' d' l' HR') as (s2 & Hs2).
    exists s2. by econstructor. }
  split; [by exists s'|]. intros rs s2 Hs2. by eapply served_unique.
Qed.

(** However many threads use a queue, and however their steps interleave, none of them
    reaches outside of the array of nodes. *)
Theorem threads_stay_in_array (sz : Z) (n : nat) (l : list (@Event V)) :
  0 < sz → is_Some (play l (snd (Init sz new_HQueue), replicate n (Done (Bool true)))).
Proof.
  intros Hsz. destruct (Init_spec sz Hsz) as (s & -> & _ & Hs). apply (play_ok Hsz); [done|].
  by apply Forall_replicate.
Qed.
End theorems.

Lemma queue_is_a_fifo_witness :
  0 < 3 ∧ ∃ s, Init 3 new_HQueue = (true, s) ∧
    (∃ s', served [Enqueue 1; Enqueue 2; Enqueue 3; Dequeue; Empty] s
      (fifo_calls 3 [Enqueue 1; Enqueue 2; Enqueue 3; Dequeue; Empty] (MkFifo false [])) s') ∧
    ∀ rs s', served [Enqueue 1; Enqueue 2; Enqueue 3; Dequeue; Empty] s rs s' →
      rs = fifo_calls 3 [Enqueue 1; Enqueue 2; Enqueue 3; Dequeue; Empty] (MkFifo false []).
Proof. split; [lia|]. apply (queue_is_a_fifo 3). lia. Defined.

Example three_enqueued :
  fifo_calls 3 [Enqueue 1; Enqueue 2; Enqueue 3; Dequeue; Empty] (MkFifo false [])
  = [Bool true; Bool true; Bool false; Value (Some 1); Bool false].
Proof. vm_compute. reflexivity. Qed.

(** A queue of two nodes passes one element, and is full for ever. *)
Example two_nodes :
  fifo_calls 2 [Enqueue 1; Dequeue; Enqueue 2; Empty; Enqueue 3] (MkFifo false [])
  = [Bool true; Value (Some 1); Bool false; Bool true; Bool false].
Proof. vm_compute. reflexivity. Qed.

(** The version of a link starts from 0 again when its node is used again. A thread has
    read the link of the last node and is about to link its own node to it. Meanwhile
    another one enqueues behind that node, dequeues it, and claims it for a second
    element that is not linked yet. The exchange of the first thread succeeds: its
    [Enqueue] returns true, and its [Dequeue] finds the queue empty, with nobody having
    taken the element. *)
Definition alone (j : nat) (c : Call Z) : list Event := Give j c :: replicate 30 (Go j).
Definition part (j k : nat) (c : Call Z) : list Event := Give j c :: replicate k (Go j).

Example enqueued_not_seen :
  let g := (snd (Init 4 new_HQueue), replicate 2 (Done (Bool true))) in
  let before := alone 1 (Enqueue 10) ++ alone 1 Dequeue ++ part 0 8 (Enqueue 20) ++
    alone 1 (Enqueue 30) ++ alone 1 Dequeue ++ part 1 8 (Enqueue 40) ++ replicate 2 (Go 0%nat) in
  option_map (λ g, result_of <$> g.2) (play before g) = Some [Some (Bool true); None] ∧
  option_map (λ g, result_of <$> g.2) (play (before ++ alone 0 Dequeue) g) = Some [Some (Value None); None].
Proof. vm_compute. repeat split. Qed.
